(* ===== verification/_CoqProject ===== *)
-Q . S2P
Prelude.v
Crypto.v
Envelope.v
MailboxStore.v
MediaFrame.v
Path.v
NetPath.v
Float.v
Jitter.v
Forward.v
MediaTransport.v
Access.v
Wire.v
Limits.v
Tickets.v
Entropy.v
BitPacker.v
Pvq.v
Capability.v
Hybrid.v
AtRest.v
Directory.v
Group.v
Hex.v
Wake.v
WakeTicket.v
Listening.v
Session.v
Server.v
FrontSession.v
FrontServer.v
FrontProxy.v
MailboxClient.v
ClientServer.v
Text.v
DeviceStore.v
Status.v
GroupLife.v
Handshake.v
ClientSession.v
SessionFacts.v
Resume.v
MeetingCode.v
Chats.v
Meeting.v
MeetingFacts.v
RelayFrame.v
Circuits.v
CircuitLinks.v
CircuitFacts.v
CircuitTrouble.v
RelayProcess.v
RelayReceive.v
RelayClient.v
RelayClientFacts.v
DeviceEndpoint.v
