(* ===== verification/Prelude.v ===== *)
(** * Rotelyx: a verification library for the messenger's own crates

    Rotelyx is a messenger whose identities are keys.  Two devices talk directly
    when both are reachable; otherwise a sealed envelope waits in a mailbox that
    cannot read it, and a call is carried by a relay that forwards frames it cannot
    open.  This library models the repository's own crates under [crates/] in Rocq
    and proves what makes them correct.

    ** The parts, and where each is modelled

    Messages.  [Envelope] is [rotelyx-mailbox/src/envelope.rs]: padding buckets,
    tags that rotate by the hour, the sealing of a payload and an envelope's wire
    form.  [MailboxStore] is [store.rs] beside it: queues of envelopes by tag, each
    public method one definition on a [Mailbox] record over a [gmap]; [None] is a
    panic.  [Capability] is [rotelyx-capability]: which token grants which tier,
    and the meter that counts what a token has spent.  [Limits] is the admission
    of connections in the mailbox server and in the relay (Modules [Server] and
    [Relay], sharing the Section [Table]), and [Tickets] the server's table of wake
    tickets.  [AtRest] is the server's vault with its cache of keys (Module
    [Vault]) and the identity file (Module [Sealed]).  [Wake] is the wake registry
    ([wake.rs]) and what [rotelyx-push] lets be pushed, [WakeTicket] the sealed
    ticket of [rotelyx-crypto/src/wake_ticket.rs] and the request that presents it
    to the notifier.

    The mailbox server, [rotelyx-mailbox-server/src/main.rs], is three files over
    these: [Listening], the tags a connection listens on; [Session], what each
    request does to the connection and to the shared state ([handle_request] and
    the functions it calls, with [Hex] for the strings it reads); and [Server], the
    system of all connections, whose [step] is one turn of one task, and whose
    events are opened and closed connections, frames, wakes and the two timers.
    [FrontProxy] is the front before it ([front.rs]): the tasks of each phone and of
    each connection to the mailbox as interleaved steps over bounded channels, and
    [FrontSession] the sealed session a phone has through it
    ([rotelyx-crypto/src/front.rs]).  [FrontServer] is where that ends, [run_front] of
    [main.rs]: one task that opens, seals and tags for every session of the
    connection, and the sessions' tasks, over bounded channels.  [Status] is
    [rotelyx-status], the heartbeat a service keeps in a file and the strip of bars
    drawn from it.  [Directory] is [rotelyx-directory], which says
    which mailboxes hold a tag.

    The other end is [MailboxClient], [rotelyx-mailbox-client]: one connection
    ([Link]) and a constellation of them, every public operation as a function to
    the next state over a far end that is an argument.  [ClientServer] puts the
    server there: a request of the client is a frame of its session in [Server], and
    what that session writes is what the client reads.

    Conversations.  [Group] and [GroupLife] are [rotelyx-crypto/src/group.rs] over
    OpenMLS as an interface: who may invite and remove, sending, the whole of
    receiving ([Group]); the member a device is, creating, joining and coming back,
    what is exported, and the post-quantum secret mixed in ([GroupLife]).
    [ClientSession] is the [Session] every client drives ([rotelyx-wasm/src/lib.rs]):
    a conversation with the mailbox keys of its last three epochs, sealing to every
    member under that member's tag, and the session put away and brought back.
    [MeetingCode] is the rest of that file's strings: the codes two people meet by,
    the tag a code names and what is sealed under it.  [Chats] is
    [rotelyx-meeting/src/chats.rs], what is kept of each conversation on disk, and
    [Meeting] is [rotelyx-meeting/src/lib.rs]: the loop of one conversation, from the
    knock at the meeting place through messages, signals, calls and commands to the
    reconnection of a lost socket, over an interface [Outside] of mailbox, clock,
    randomness, disk and calls whose state it threads.  The theorems of the two large
    state machines are in [SessionFacts] and [MeetingFacts].  [DeviceStore] is
    [rotelyx-core/src/store.rs] and [backup.rs], what a device keeps on its disk,
    with [Text] for the standard library's lines, words, characters, numbers and
    names of files.  Without a mailbox, [Handshake] is
    [rotelyx-cli/src/handshake.rs] (copied in [rotelyx-web] and [rotelyx-desktop]):
    what a listener and a dialer say until both hold a conversation, each a program
    over the frames of [Wire], moved in any order; and [Resume] is [resume.rs] beside
    it with [rotelyx-core/src/identity.rs]: who a device is, and the file a
    conversation is kept in between two runs.

    Reaching somebody.  [Access] is [rotelyx-core/src/access.rs]: proofs of work,
    invitations, codes and the gate.  [Wire] is the framing of a session,
    [rotelyx-core/src/wire.rs].  [DeviceEndpoint] is [rotelyx-core/src/endpoint.rs] over
    both and over the keys an endpoint of [rotelyx-transport] answers with ([tls/]): how
    a listener is set up from the invitations of [DeviceStore], and how a caller comes
    through the handshake and the gate.  [NetPath] is [path.rs] and [config.rs] of
    [rotelyx-net]: what the transport is bound with, and which path carries the
    traffic, over the policies of [Path].  [Hybrid] is [rotelyx-crypto/src/hybrid.rs] and
    [circuit.rs]: what a post-quantum secret is bound to, the wrap that carries it
    to one member, and the descriptor a first relay carries for a second.

    Calls.  [MediaFrame] is [rotelyx-media/src/lib.rs]: keys, nonces, headers,
    padding, and a receiver's replay window.  [Jitter] is [jitter.rs], the buffer
    frames are played from, and [MediaTransport] is [transport.rs], which uses both
    and asks [Path] ([rotelyx-path]) whether a connection is acceptable.  [Forward]
    is [forward.rs] and [rotelyx-relay/src/room.rs]: the forwarder of one call, the
    rooms of a relay and the life of its connections.

    The relay.  [RelayFrame] is the frames of [crates/net/rotelyx-relay-proto]
    ([protos/relay.rs], [protos/common.rs], with the variable-length integers of
    [rotelyx-quic-proto]).  [Circuits] is its server ([server/clients.rs],
    [client.rs], [circuits.rs], [links.rs]): the table of who is here and of the names
    they answer to, the task of each connection ([Conn]), the circuits it opens
    ([Forward]) and how their replies come back ([Return]), the links to other relays
    ([Link]) and the tasks that ask for a circuit there ([Opener]); [step] is one turn
    of one task, the five parts of a disconnect apart.  [CircuitLinks] ties what waits
    to what is asked, [CircuitFacts] holds the invariant of every reachable relay, and
    [CircuitTrouble] what one client does to another.  [RelayProcess] is
    [rotelyx-relay] around it ([main.rs], [circuit.rs], [dial.rs]): its command line,
    files and keys, and the opening of descriptors with [Hybrid] that [Circuits] takes
    as an argument.

    The endpoint's side of it is [crates/net/rotelyx-transport], of which two files are
    modelled.  [RelayClient] is [socket/transports/relay/actor.rs]: the actor of each
    relay ([Actor]), which dials, asks for its circuits again and carries datagrams, and
    the actor that starts them ([System]); [step] is one turn of one of them, and a frame
    on its way is part of the state ([Doing]).  [RelayReceive] is the reading side of
    [socket/transports/relay.rs].  [RelayClientFacts] holds the theorems, one of which
    puts an endpoint's actor and the relay of [Circuits] on the two ends of a connection.

    Audio coding.  [Entropy] is the adaptive range coder
    ([rotelyx-codec/src/entropy.rs]), [BitPacker] the packing of fields
    ([rangecoder.rs]) and [Pvq] the enumeration of pulse vectors with the stages
    that carry them ([pvq.rs], and parts of [rvq.rs] and [layered.rs]); [Pvq]
    writes its stages through [BitPacker].

    This file holds what they share: Rust's [Result] and its [?] operator ([let?]),
    bytes and integers with their machine widths, big-endian encodings, fixed
    arrays ([arr n], Rust's [[u8; N]]), strings as valid UTF-8 ([rstring]),
    [Vec::retain] and other list lemmas, sums over finite maps, the hint database
    [rx], the rewriting base [rxlen] and the tactics [int_lia], [len_lia] and
    [case_cmp].  [Crypto] holds the interfaces of the primitives and [Float] the
    arithmetic of [f64].

    ** How the code is rendered

    A method that takes [&mut self] is a function to the new state, paired with its
    result.  An unsigned integer is a [Z]; where the code wraps, saturates or
    checks, the definition does ([wrap64], [sat_add64], [checked_add64]), in the
    release profile, where plain arithmetic wraps.  A [HashMap] or [BTreeMap] is a
    [gmap]; the order in which a hash map is walked is an argument where it can be
    seen ([Tickets.decoys]).  A lock is taken for a whole operation, so operations
    on shared state are the steps of a relation ([Limits], [Forward], [Server],
    [FrontProxy], [FrontServer], [Handshake], [Circuits], [RelayClient]) and theorems are about every interleaving
    of them.  Time is an argument, as are random bytes.

    Code that is not in the repository is an interface: BLAKE3, the AEADs, HKDF,
    Argon2id, SHA-256, X-Wing, Ed25519, blind RSA, OpenMLS (Classes [Mls] of [Group]
    and [MlsLife] of [GroupLife]), base64, base32 and hexadecimal of [data_encoding] ([KeyText]), JSON and
    postcard (among them [StateFormat], [ChatJson] and [PayloadJson]), the upper case
    of Unicode ([Unicode]), the standard library's hasher ([Hasher64]) and its sort
    that is not stable ([UnstableSort]), the transport's paths ([Tuples]), the names and
    certificates of TLS ([Dnssec], [Spki]), and the
    platform's [f32::log2].  A theorem that needs more than the types of such an operation
    takes a law as a hypothesis or a class (an opened ciphertext is what was
    sealed; a signature verifies for what was signed), and its witness gives a
    concrete instance in which the laws hold.  These instances have no security and
    stand for none.

    ** What the theorems show

    - Composition: over the modelled server a client's every call is answered, and
      by the answer to that call; one holder of a tag is enough for a reader; what is
      answered stored is delivered; an envelope leaves the store only for a cause
      ([ClientServer], [Server]).
    - Safety of conversations: nobody is let in by one member alone, no message is
      handed over twice, two concurrent commits converge ([Group]); no phone is
      written what was said to another ([FrontProxy]), nor hears another's session
      while no id is opened twice ([FrontServer]); frames of a front session
      come in order and once ([FrontSession]); a client drops no envelope and
      presents a token only when it must ([MailboxClient]).
    - A client's conversation: what is sealed for a group opens for each member at
      its own copy, a commit goes to where its readers still are, the keys of three
      epochs are held and no older, a safety number is the keys of the roster
      ([SessionFacts]); an envelope is acted on once, a guest let in once, a message
      tried for everybody, listened for where it is filed, and shown as it was
      written ([MeetingFacts]); two who hold a code meet ([MeetingCode]); a
      conversation comes back from its file ([Chats], [SessionFacts], [Resume]).
    - Being let in: the holder of a live invitation reaches the listener and is let in, and
      nobody is but on an invitation of their own, at its address ([DeviceEndpoint]).
    - Opening and carrying: two devices end with one conversation, new or carried on,
      or both without, whatever the order of their moves ([Handshake]); a path policy
      keeps its word over any history of paths ([NetPath]); the strip of bars is what
      was written down ([Status]).
    - Round trips: a coded stream of symbols, packed fields, pulse vectors, frames
      of a session, evidence, invitation codes, envelopes, wraps, descriptors,
      vaults and snapshots read back to what was written ([Entropy],
      [BitPacker], [Pvq], [Wire], [Access], [Envelope], [Hybrid], [AtRest],
      [MailboxStore]).
    - Safety of calls: no frame is accepted twice, no nonce repeats, playback is in
      order, a retransmission is the datagram that was sent, a datagram reaches the
      others in its room and nobody else ([MediaFrame], [Jitter],
      [MediaTransport], [Forward]).
    - Refinement: the replay bitmap is a set of counters, the ticket queue is the
      last eight live tickets of a history, the meter is the sum of a history, the
      key cache is no cache ([MediaFrame], [Tickets], [Capability], [AtRest]).
    - Circuits of a relay: nobody is named to somebody who neither sent by name nor was
      sealed in a descriptor, in any interleaving with any other relays; what is held
      is bounded; a circuit carries both ways and is not noted; every frame reads back;
      a descriptor sealed for a relay opens there, off the wire; a relay serves and
      dials whom it was told to ([CircuitFacts], [RelayFrame], [RelayProcess]).
    - Circuits of an endpoint: an actor that holds a circuit for a peer never names it
      again, in any interleaving; its two tables of circuits agree; what fits the
      buffers is read, in order ([RelayClientFacts], [RelayReceive]).
    - Invariants over every reachable state: the store holds only deposits, the
      limits count the connections held, a relay's rooms are its seated connections,
      the wake registry is bounded and in order, a server is well formed
      ([MailboxStore], [Limits], [Forward], [Wake], [Server]).
    - Exact decisions: who is admitted, what a deposit evicts, what a token grants,
      where a wrap or a descriptor opens ([Access], [MailboxStore], [Capability],
      [Hybrid]).
    - What the code does and its comments do not say: an empty payload that never
      opens ([Envelope]), a ceiling that an expired entry lets pass
      ([MailboxStore]), an invitation proof that does not go stale ([Access]),
      refused joins that fill a relay ([Forward]), an address that loses a final
      NUL ([Hybrid]), a tag that stops the server, a wake that loses a message
      ([Server]), two tasks of the front that wait for each other ([FrontProxy]),
      three commits that split a group ([Group]), a lost constellation that says
      nothing ([MailboxClient]), a mark that a torn write forgets ([DeviceStore]), a
      pasted text or a signal that stops a client ([MeetingCode], [MeetingFacts]), a
      command lost while the mailbox is away ([MeetingFacts]), a front that reads the
      answers to a session it closed and a connection that stands still
      ([FrontServer]), a resumption that a lost connection makes impossible
      ([Handshake]), two addresses with one file ([Resume]), a record lost to one
      failed read ([Status]), a relay out of reach once and for good, a frame that sends
      somebody away, a connection whose end takes the names of another
      ([CircuitTrouble]), a circuit that is forgotten when the connection breaks under
      its request or the actor ends, a number that is taken at one end and free at the
      other ([RelayClientFacts]), a batch that stops the reading ([RelayReceive]).

    ** Fuel and bounds

    The renormalisation of the range coder runs at most four
    times because each turn shifts eight bits of a 32-bit range; the proofs in
    [Entropy] show that four turns leave the range at least [TOP].  The search of
    [Access.solve] is unbounded in the code; [solve_then_verify] shows that it stops
    no later than the first nonce that does the work.  [Capability.strip] is given
    the length of its input, which every turn shortens.
    The waits of a client ([MailboxClient.await_ready] and its siblings) are given
    one turn more than there are messages to read ([turns_left]); with less to read
    than the answer needs the code waits, and so the result is [None], which
    [ClientServer.every_call_gets_its_own_answer] shows does not happen over the
    server.  The loops of a meeting ([Meeting.turn], [Meeting.reconnect] and what
    they call) have no end of their own: they are given a number of turns, run out
    to [Waits], and their theorems hold for every number.  Two devices that open a
    conversation make at most sixteen moves ([Handshake.openings_agree]).  The search for
    a circuit's number ([RelayClient.free_id]) looks at one number more than are taken,
    and finds one ([RelayClientFacts.free_id_finds]).  A decimal number has at most
    twenty digits and a line no more words than bytes ([Text]).

    Theorems that speak of 2^64 frames, of a codebook of at most 62 bits or of a
    limit below the largest [u64] state those bounds as hypotheses; the code's own
    planner ([Pvq.plan_is_affordable]) and types give them.

    ** What is not modelled

    The speech codec's transforms and searches are floating-point signal processing;
    buying a token ([TokenRequest]) is blind RSA; the task that carries the audio of a
    call and the form of an endpoint's address are the call stack's.  Under
    [crates/net] only the relay's frames, circuits and links and an endpoint's
    connections to its relays are modelled: the rest is a vendored QUIC stack, its endpoint and its path discovery, whose own project keeps
    its specification, and the HTTP server in front of the relay.  When pings are due on a
    connection to a relay and whether they were answered in time, when a dial is tried
    again and when an actor has been idle for long enough are turns that may come at any
    moment; which status the home relay is said to have is left out, and so is shutting
    an endpoint down.  These, the processes around the modelled state (sockets, and but for
    [RelayProcess] their command lines), log lines, the user interfaces and bindings are
    left out. *)

From stdpp Require Export base gmap sets list strings numbers sorting.
From Stdlib Require Export ZArith Lia.
From Stdlib Require Export Init.Byte.
From Stdlib Require Strings.Byte.

#[global] Open Scope Z_scope.

Declare Scope rotelyx_scope.
Delimit Scope rotelyx_scope with rx.
#[global] Open Scope rotelyx_scope.

(** ** Results

    Rust's [Result<T, E>], with the [?] operator as a bind. *)

Inductive Result (T E : Type) : Type :=
| Ok (v : T)
| Err (e : E).
Arguments Ok {T E} v.
Arguments Err {T E} e.

Definition rbind {T U E} (r : Result T E) (k : T -> Result U E) : Result U E :=
  match r with
  | Ok v => k v
  | Err e => Err e
  end.

Definition map_err {T E F} (f : E -> F) (r : Result T E) : Result T F :=
  match r with
  | Ok v => Ok v
  | Err e => Err (f e)
  end.

Definition ok_or {T E} (e : E) (o : option T) : Result T E :=
  match o with
  | Some v => Ok v
  | None => Err e
  end.

Definition rok {T E} (r : Result T E) : option T :=
  match r with
  | Ok v => Some v
  | Err _ => None
  end.

Definition is_ok {T E} (r : Result T E) : bool :=
  match r with
  | Ok _ => true
  | Err _ => false
  end.

Notation "'let?' x ':=' r 'in' k" := (rbind r (fun x => k))
  (at level 10, x binder, r at level 100, k at level 200) : rotelyx_scope.

#[export] Instance Result_eq_dec {T E} `{EqDecision T, EqDecision E} :
  EqDecision (Result T E).
Proof. solve_decision. Defined.

Lemma rbind_ok {T U E} (r : Result T E) (k : T -> Result U E) u :
  rbind r k = Ok u <-> exists v, r = Ok v /\ k v = Ok u.
Proof. destruct r; simpl; naive_solver. Qed.

(** ** Bytes

    A [u8] is the standard library's [byte]; [b2z] reads it as an integer and
    [z2b] is Rust's truncating [as u8]. *)

Definition b2z (b : byte) : Z := Z.of_N (Byte.to_N b).

Definition z2b (z : Z) : byte :=
  match Byte.of_N (Z.to_N (z mod 256)) with
  | Some b => b
  | None => x00
  end.

#[export] Instance byte_eq_dec : EqDecision byte := Byte.byte_eq_dec.

Lemma b2z_range b : 0 <= b2z b < 256.
Proof. unfold b2z. pose proof (Byte.to_N_bounded b). lia. Qed.

Lemma b2z_z2b z : b2z (z2b z) = z mod 256.
Proof.
  unfold b2z, z2b.
  pose proof (Z.mod_pos_bound z 256 ltac:(lia)) as Hb.
  destruct (Byte.of_N (Z.to_N (z mod 256))) as [b|] eqn:E.
  - apply Byte.to_of_N in E. rewrite E. lia.
  - apply Byte.of_N_None_iff in E. lia.
Qed.

Lemma b2z_inj a b : b2z a = b2z b -> a = b.
Proof.
  unfold b2z. intros H. apply N2Z.inj in H.
  pose proof (Byte.of_to_N a) as Ha. rewrite H, Byte.of_to_N in Ha. congruence.
Qed.

Lemma z2b_b2z b : z2b (b2z b) = b.
Proof.
  apply b2z_inj. rewrite b2z_z2b. apply Z.mod_small, b2z_range.
Qed.

Lemma b2z_z2b_small z : 0 <= z < 256 -> b2z (z2b z) = z.
Proof. intros. rewrite b2z_z2b. by apply Z.mod_small. Qed.

#[export] Instance byte_countable : Countable byte :=
  inj_countable Byte.to_N Byte.of_N Byte.of_to_N.

Abbreviation bytes := (list byte).
Definition zero_byte : byte := x00.

(** Length as an integer, which is what a [usize] comparison sees. *)
Definition zlen {A} (l : list A) : Z := Z.of_nat (length l).
Arguments zlen {A} l : simpl never.

(** Rust's [&l[from..to]], for bounds already checked by the caller. *)
Definition slice {A} (l : list A) (from to : nat) : list A :=
  take (to - from) (drop from l).

(** ** Machine integers *)

Definition u8_max : Z := 255.
Definition u32_max : Z := 4294967295.
Definition u64_max : Z := 18446744073709551615.

Definition u32 (z : Z) : Prop := 0 <= z <= u32_max.
Definition u64 (z : Z) : Prop := 0 <= z <= u64_max.

Definition wrap32 (z : Z) : Z := z mod 4294967296.
Definition wrap64 (z : Z) : Z := z mod 18446744073709551616.
Definition sat_sub (a b : Z) : Z := Z.max 0 (a - b).
Definition sat_add32 (a b : Z) : Z := Z.min u32_max (a + b).
Definition sat_add64 (a b : Z) : Z := Z.min u64_max (a + b).
Definition sat_mul32 (a b : Z) : Z := Z.min u32_max (a * b).
Definition checked_add64 (a b : Z) : option Z :=
  if a + b <=? u64_max then Some (a + b) else None.
Definition checked_sub (a b : Z) : option Z :=
  if b <=? a then Some (a - b) else None.
Definition abs_diff (a b : Z) : Z := Z.abs (a - b).

(** Case analysis on the boolean comparisons of a translated guard. *)
Ltac case_cmp :=
  match goal with
  | |- context [?a <? ?b] => destruct (Z.ltb_spec a b)
  | |- context [?a <=? ?b] => destruct (Z.leb_spec a b)
  | |- context [?a =? ?b] => destruct (Z.eqb_spec a b)
  | H : context [?a <? ?b] |- _ => destruct (Z.ltb_spec a b)
  | H : context [?a <=? ?b] |- _ => destruct (Z.leb_spec a b)
  | H : context [?a =? ?b] |- _ => destruct (Z.eqb_spec a b)
  end.

Ltac unfold_ints :=
  unfold u32, u64, u8_max, u32_max, u64_max, wrap32, wrap64, sat_sub, sat_add32,
    sat_add64, sat_mul32, abs_diff in *.
Ltac int_lia := unfold_ints; lia.

Lemma sat_sub_small a b : b <= a -> sat_sub a b = a - b.
Proof. int_lia. Qed.

Lemma checked_sub_Some a b c : checked_sub a b = Some c <-> b <= a /\ c = a - b.
Proof. unfold checked_sub. case_cmp; naive_solver lia. Qed.

(** ** Big-endian integers: [to_be_bytes] and [from_be_bytes] *)

Fixpoint be_bytes (n : nat) (z : Z) : bytes :=
  match n with
  | O => []
  | S m => z2b (z / 256 ^ Z.of_nat m) :: be_bytes m z
  end.

Definition be_push (acc : Z) (b : byte) : Z := acc * 256 + b2z b.
Definition be_value (l : bytes) : Z := foldl be_push 0 l.

Lemma length_be_bytes n z : length (be_bytes n z) = n.
Proof. induction n; simpl; congruence. Qed.

Lemma foldl_be_push acc l :
  foldl be_push acc l = acc * 256 ^ Z.of_nat (length l) + be_value l.
Proof.
  unfold be_value. revert acc. induction l as [|b l IH]; intros acc; simpl length.
  - simpl. lia.
  - cbn [foldl]. rewrite (IH (be_push acc b)), (IH (be_push 0 b)).
    unfold be_push. rewrite Nat2Z.inj_succ, Z.pow_succ_r by lia. ring.
Qed.

Lemma be_value_cons b l :
  be_value (b :: l) = b2z b * 256 ^ Z.of_nat (length l) + be_value l.
Proof. unfold be_value at 1. cbn [foldl]. rewrite foldl_be_push. unfold be_push. ring. Qed.

Lemma be_value_app l1 l2 :
  be_value (l1 ++ l2) = be_value l1 * 256 ^ Z.of_nat (length l2) + be_value l2.
Proof. unfold be_value at 1. rewrite foldl_app, foldl_be_push. done. Qed.

Lemma be_value_range l : 0 <= be_value l < 256 ^ Z.of_nat (length l).
Proof.
  induction l as [|b l IH]; [cbv; split; congruence|].
  rewrite be_value_cons. cbn [length].
  rewrite Nat2Z.inj_succ, Z.pow_succ_r by lia.
  pose proof (b2z_range b). nia.
Qed.

Lemma be_value_bytes n z : be_value (be_bytes n z) = z mod 256 ^ Z.of_nat n.
Proof.
  induction n as [|m IH].
  - simpl. by rewrite Z.mod_1_r.
  - cbn [be_bytes]. rewrite be_value_cons, length_be_bytes, b2z_z2b, IH.
    rewrite Nat2Z.inj_succ, Z.pow_succ_r, (Z.mul_comm 256) by lia.
    rewrite Z.rem_mul_r by (try apply Z.pow_nonzero; lia). ring.
Qed.

Lemma be_value_bytes_small n z :
  0 <= z < 256 ^ Z.of_nat n -> be_value (be_bytes n z) = z.
Proof. intros. rewrite be_value_bytes. by apply Z.mod_small. Qed.

Lemma be_bytes_add_high m n x y :
  (m <= n)%nat -> be_bytes m (x * 256 ^ Z.of_nat n + y) = be_bytes m y.
Proof.
  induction m as [|m IHm]; intros Hm; [done|]. cbn [be_bytes].
  rewrite IHm by lia. f_equal. apply b2z_inj. rewrite !b2z_z2b.
  replace (Z.of_nat n) with (Z.of_nat m + 1 + Z.of_nat (n - m - 1)) by lia.
  rewrite !Z.pow_add_r, !Z.mul_assoc, Z.pow_1_r by lia.
  replace (x * 256 ^ Z.of_nat m * 256 * 256 ^ Z.of_nat (n - m - 1))
    with ((x * 256 ^ Z.of_nat (n - m - 1) * 256) * 256 ^ Z.of_nat m) by ring.
  rewrite Z.div_add_l by (apply Z.pow_nonzero; lia).
  rewrite Z.add_comm, Z.mod_add by lia. done.
Qed.

Lemma be_bytes_value l : be_bytes (length l) (be_value l) = l.
Proof.
  induction l as [|b l IH]; [done|].
  pose proof (be_value_range l). cbn [length be_bytes].
  rewrite be_value_cons, be_bytes_add_high, IH by lia. f_equal.
  rewrite Z.div_add_l, Z.div_small by lia. rewrite Z.add_0_r. apply z2b_b2z.
Qed.

Lemma be_bytes_inj n a b :
  0 <= a < 256 ^ Z.of_nat n -> 0 <= b < 256 ^ Z.of_nat n ->
  be_bytes n a = be_bytes n b -> a = b.
Proof.
  intros Ha Hb Heq. apply (f_equal be_value) in Heq.
  by rewrite !be_value_bytes_small in Heq.
Qed.

(** ** Lists *)

Lemma zlen_nonneg {A} (l : list A) : 0 <= zlen l.
Proof. unfold zlen. lia. Qed.

Lemma zlen_app {A} (l k : list A) : zlen (l ++ k) = zlen l + zlen k.
Proof. unfold zlen. rewrite length_app. lia. Qed.

Lemma zlen_cons {A} (x : A) l : zlen (x :: l) = 1 + zlen l.
Proof. unfold zlen. simpl. lia. Qed.

Lemma zlen_nil {A} : zlen (@nil A) = 0.
Proof. done. Qed.

Lemma zlen_be_bytes n z : zlen (be_bytes n z) = Z.of_nat n.
Proof. unfold zlen. by rewrite length_be_bytes. Qed.

Lemma zlen_replicate {A} n (x : A) : zlen (replicate n x) = Z.of_nat n.
Proof. unfold zlen. by rewrite length_replicate. Qed.

Lemma slice_app_l {A} (l k : list A) n :
  n = length l -> slice (l ++ k) 0 n = l.
Proof. intros ->. unfold slice. rewrite drop_0, Nat.sub_0_r. apply take_app_length. Qed.

Lemma slice_app_r {A} (l k : list A) n m :
  n = length l -> m = (length l + length k)%nat -> slice (l ++ k) n m = k.
Proof.
  intros -> ->. unfold slice. rewrite drop_app_length. apply take_ge. lia.
Qed.

Lemma slice_app_mid {A} (l k r : list A) n m :
  n = length l -> m = (length l + length k)%nat -> slice (l ++ k ++ r) n m = k.
Proof.
  intros -> ->. unfold slice. rewrite drop_app_length.
  replace (length l + length k - length l)%nat with (length k) by lia.
  apply take_app_length.
Qed.

(** A message cut into its fields. *)
Lemma split_at {A} (l : list A) a b :
  length l = (a + b)%nat -> exists x y, l = x ++ y /\ length x = a /\ length y = b.
Proof.
  intros H. exists (take a l), (drop a l).
  rewrite take_drop, length_take, length_drop. split_and!; [done|lia|lia].
Qed.

Lemma two_fields {A} (t : A) x y a b :
  a = S (length x) -> b = (a + length y)%nat ->
  slice (t :: x ++ y) 1 a = x /\ slice (t :: x ++ y) a b = y.
Proof.
  intros -> ->. split.
  - exact (slice_app_mid [t] x y 1 _ eq_refl eq_refl).
  - by apply (slice_app_r (t :: x) y).
Qed.

Lemma length_slice {A} (l : list A) a b :
  (a <= b)%nat -> (b <= length l)%nat -> length (slice l a b) = (b - a)%nat.
Proof. intros. unfold slice. rewrite length_take, length_drop. lia. Qed.

Lemma slice_take_drop {A} (l : list A) n : slice l 0 n ++ drop n l = l.
Proof. unfold slice. rewrite drop_0, Nat.sub_0_r. apply take_drop. Qed.

Create HintDb rx.
Create Rewrite HintDb rxlen.
#[export] Hint Rewrite @zlen_app @zlen_cons @zlen_nil zlen_be_bytes @zlen_replicate
  @length_app @length_replicate length_be_bytes @length_take @length_drop
  @length_cons @length_nil : rxlen.
#[export] Hint Resolve zlen_nonneg b2z_range be_value_range : rx.

(** Normalise the lengths of concatenations, then decide. *)
Ltac len_lia := autorewrite with rxlen in *; unfold zlen in *; lia.

(** ** Fixed-size arrays: [[u8; N]] *)

Record arr (n : nat) : Type := Arr {
  ab : bytes;
  ab_ok : Is_true (Nat.eqb (length ab) n);
}.
Arguments Arr {n} ab ab_ok.
Arguments ab {n} a.
Arguments ab_ok {n} a.

Lemma arr_eq {n} (a b : arr n) : ab a = ab b -> a = b.
Proof.
  destruct a as [l H], b as [k K]. simpl. intros ->. f_equal. apply proof_irrel.
Qed.

Lemma length_ab {n} (a : arr n) : length (ab a) = n.
Proof.
  apply Nat.eqb_eq, Is_true_eq_true, ab_ok.
Qed.

Lemma zlen_ab {n} (a : arr n) : zlen (ab a) = Z.of_nat n.
Proof. unfold zlen. by rewrite length_ab. Qed.

Lemma take_ab {n} (a : arr n) l : take n (ab a ++ l) = ab a.
Proof. apply take_app_length'. by rewrite length_ab. Qed.

Lemma drop_ab {n} (a : arr n) l : drop n (ab a ++ l) = l.
Proof. apply drop_app_length'. by rewrite length_ab. Qed.

#[export] Hint Rewrite @zlen_ab @length_ab : rxlen.

#[export] Instance arr_eq_dec {n} : EqDecision (arr n).
Proof.
  refine (fun a b => match decide (ab a = ab b) with
                     | left H => left (arr_eq a b H)
                     | right H => right (fun K => H (f_equal ab K))
                     end).
Defined.

(** [<[u8; N]>::try_from(slice)]: exact length or nothing. *)
Definition try_into (n : nat) (l : bytes) : option (arr n) :=
  match decide (Is_true (Nat.eqb (length l) n)) with
  | left H => Some (Arr l H)
  | right _ => None
  end.

Lemma try_into_ab {n} (a : arr n) : try_into n (ab a) = Some a.
Proof.
  unfold try_into. destruct (decide _) as [H|H].
  - f_equal. by apply arr_eq.
  - destruct H. apply ab_ok.
Qed.

Lemma try_into_Some n l a : try_into n l = Some a <-> ab a = l.
Proof.
  split.
  - unfold try_into. destruct (decide _); naive_solver.
  - intros <-. apply try_into_ab.
Qed.

Lemma try_into_None n l : try_into n l = None <-> length l <> n.
Proof.
  unfold try_into. destruct (decide _) as [H|H].
  - pose proof (proj1 (Nat.eqb_eq _ _) (Is_true_eq_true _ H)). naive_solver.
  - split; [|done]. intros _ Hl. apply H, Is_true_eq_left, Nat.eqb_eq, Hl.
Qed.

#[export] Instance arr_countable {n} : Countable (arr n) :=
  inj_countable ab (try_into n) try_into_ab.

(** A zeroed array filled by [copy_from_slice]; on a source of the right
    length it is that source. *)
Program Definition copy_from_slice (n : nat) (l : bytes) : arr n :=
  Arr (take n l ++ replicate (n - length l) zero_byte) _.
Next Obligation.
  intros n l. apply Is_true_eq_left, Nat.eqb_eq.
  rewrite length_app, length_take, length_replicate. lia.
Qed.

Lemma ab_copy n l : length l = n -> ab (copy_from_slice n l) = l.
Proof.
  intros <-. simpl. rewrite take_ge, Nat.sub_diag by lia. simpl. apply app_nil_r.
Qed.

Lemma copy_ab {n} (a : arr n) : copy_from_slice n (ab a) = a.
Proof. apply arr_eq, ab_copy, length_ab. Qed.

(** The array holding an integer big-endian. *)
Program Definition be_arr (n : nat) (z : Z) : arr n := Arr (be_bytes n z) _.
Next Obligation. intros. apply Is_true_eq_left, Nat.eqb_eq, length_be_bytes. Qed.

Lemma be_arr_inj n a b :
  0 <= a < 256 ^ Z.of_nat n -> 0 <= b < 256 ^ Z.of_nat n -> be_arr n a = be_arr n b -> a = b.
Proof. intros Ha Hb H. apply (f_equal ab) in H. simpl in H. by apply be_bytes_inj in H. Qed.

(** ** Strings: bytes that are UTF-8, as [core::str::from_utf8] tells them *)

Definition in_range (lo hi : Z) (b : byte) : bool := (lo <=? b2z b) && (b2z b <=? hi).

Definition is_cont : byte -> bool := in_range 128 191.

(** One well-formed sequence at a time (Unicode, table 3-7). *)
Fixpoint utf8_valid (l : bytes) : bool :=
  match l with
  | [] => true
  | a :: l1 =>
      if b2z a <? 128 then utf8_valid l1
      else
        match l1 with
        | [] => false
        | b :: l2 =>
            if in_range 194 223 a then is_cont b && utf8_valid l2
            else
              match l2 with
              | [] => false
              | c :: l3 =>
                  if in_range 224 239 a then
                    (if b2z a =? 224 then in_range 160 191 b
                     else if b2z a =? 237 then in_range 128 159 b
                     else is_cont b) && is_cont c && utf8_valid l3
                  else
                    match l3 with
                    | [] => false
                    | d :: l4 =>
                        if in_range 240 244 a then
                          (if b2z a =? 240 then in_range 144 191 b
                           else if b2z a =? 244 then in_range 128 143 b
                           else is_cont b) && is_cont c && is_cont d && utf8_valid l4
                        else false
                    end
              end
        end
  end.

Record rstring := RString { rs : bytes; rs_ok : Is_true (utf8_valid rs) }.

Lemma rstring_eq (a b : rstring) : rs a = rs b -> a = b.
Proof. destruct a, b. simpl. intros ->. f_equal. apply proof_irrel. Qed.

#[export] Instance rstring_eq_dec : EqDecision rstring.
Proof.
  refine (fun a b => match decide (rs a = rs b) with
                     | left H => left (rstring_eq a b H)
                     | right H => right (fun K => H (f_equal rs K))
                     end).
Defined.

Definition from_utf8 (l : bytes) : option rstring :=
  match decide (Is_true (utf8_valid l)) with
  | left H => Some (RString l H)
  | right _ => None
  end.

Lemma from_utf8_rs s : from_utf8 (rs s) = Some s.
Proof.
  unfold from_utf8. destruct (decide _) as [H|H].
  - f_equal. by apply rstring_eq.
  - destruct H. apply rs_ok.
Qed.

Lemma from_utf8_Some l s : from_utf8 l = Some s <-> rs s = l.
Proof.
  split; [|intros <-; apply from_utf8_rs].
  unfold from_utf8. destruct (decide _); naive_solver.
Qed.

(** ** Filtering a list in place: [Vec::retain] *)
Definition retain {A} (keep : A -> bool) (l : list A) : list A :=
  base.filter (fun x => Is_true (keep x)) l.

Lemma elem_of_retain {A} (p : A -> bool) l x :
  x ∈ retain p l <-> p x = true /\ x ∈ l.
Proof. unfold retain. rewrite list_elem_of_filter, Is_true_true. done. Qed.

Lemma length_retain_le {A} (p : A -> bool) l : (length (retain p l) <= length l)%nat.
Proof. apply length_filter. Qed.

Lemma retain_retain {A} (p q : A -> bool) l :
  (forall x, x ∈ l -> p x = true -> q x = true) -> retain p (retain q l) = retain p l.
Proof.
  intros H. induction l as [|x l IH]; [done|].
  assert (retain p (retain q l) = retain p l) as IH'.
  { apply IH. intros y Hy. apply H. by right. }
  unfold retain in *. rewrite !filter_cons.
  specialize (H x ltac:(left)).
  destruct (q x) eqn:Eq; destruct (p x) eqn:Ep; simpl;
    rewrite ?filter_cons, ?Ep; simpl; rewrite ?IH'; try done.
  by specialize (H eq_refl).
Qed.

Lemma retain_all {A} (p : A -> bool) l :
  (forall x, x ∈ l -> p x = true) -> retain p l = l.
Proof.
  induction l as [|x l IH]; intros H; [done|].
  unfold retain in *. rewrite filter_cons.
  rewrite (H x) by left. simpl. f_equal. apply IH. intros y Hy. apply H. by right.
Qed.

Lemma retain_full {A} (p : A -> bool) l :
  (length l <= length (retain p l))%nat -> retain p l = l.
Proof.
  intros H. unfold retain in *. induction l as [|x l IH]; [done|].
  rewrite filter_cons in *. pose proof (length_retain_le p l) as Hle. unfold retain in Hle.
  destruct (p x); simpl in *; [f_equal; apply IH; lia|lia].
Qed.

Lemma retain_app {A} (p : A -> bool) l k : retain p (l ++ k) = retain p l ++ retain p k.
Proof. apply filter_app. Qed.

(** [Iterator::position]. *)
Fixpoint position {A} (p : A -> bool) (l : list A) : option nat :=
  match l with
  | [] => None
  | x :: l => if p x then Some O else S <$> position p l
  end.

Lemma position_Some {A} (p : A -> bool) l i :
  position p l = Some i ->
  exists l1 x l2, l = l1 ++ x :: l2 /\ length l1 = i /\ p x = true /\
    Forall (fun y => p y = false) l1.
Proof.
  revert i. induction l as [|x l IH]; intros i; simpl; [done|].
  destruct (p x) eqn:E.
  - intros [= <-]. exists [], x, l. done.
  - destruct (position p l) as [j|] eqn:Ej; [|done]. intros [= <-].
    destruct (IH j eq_refl) as (l1 & y & l2 & -> & <- & Hy & Hl).
    exists (x :: l1), y, l2. naive_solver.
Qed.

Lemma position_None {A} (p : A -> bool) l :
  position p l = None <-> Forall (fun y => p y = false) l.
Proof.
  induction l as [|x l IH]; simpl; [naive_solver|].
  rewrite Forall_cons. destruct (p x); [naive_solver|].
  rewrite <- IH. destruct (position p l); naive_solver.
Qed.

(** [Iterator::rposition]: the last index satisfying the test. *)
Fixpoint rposition {A} (p : A -> bool) (l : list A) : option nat :=
  match l with
  | [] => None
  | x :: l =>
      match rposition p l with
      | Some i => Some (S i)
      | None => if p x then Some O else None
      end
  end.

Lemma rposition_app_one {A} (p : A -> bool) l x k :
  p x = true -> Forall (fun y => p y = false) k ->
  rposition p (l ++ x :: k) = Some (length l).
Proof.
  intros Hx Hk.
  assert (rposition p k = None) as Hnone.
  { induction Hk as [|y k Hy _ IH]; simpl; [done|]. by rewrite IH, Hy. }
  induction l as [|y l IH]; simpl.
  - by rewrite Hnone, Hx.
  - by rewrite IH.
Qed.

Lemma length_omap_le {A B} (f : A -> option B) l : (length (omap f l) <= length l)%nat.
Proof. induction l as [|x l IH]; csimpl; [lia|]. destruct (f x); csimpl; lia. Qed.

(** ** The order of byte strings: [Ord] for [str], [[u8]] and [[u8; N]]

    [bytes_le] is "not greater". *)

Fixpoint bytes_le (a b : bytes) : bool :=
  match a, b with
  | [], _ => true
  | _ :: _, [] => false
  | x :: a, y :: b => (b2z x <? b2z y) || ((b2z x =? b2z y) && bytes_le a b)
  end.

Lemma bytes_le_refl a : bytes_le a a = true.
Proof. induction a as [|x a IH]; simpl; [done|]. by rewrite Z.ltb_irrefl, Z.eqb_refl, IH. Qed.

Lemma bytes_le_total a b : bytes_le a b = true \/ bytes_le b a = true.
Proof.
  revert b. induction a as [|x a IH]; intros [|y b]; simpl; auto.
  destruct (Z.lt_trichotomy (b2z x) (b2z y)) as [H|[H|H]].
  - left. by rewrite (proj2 (Z.ltb_lt _ _) H).
  - rewrite H, Z.ltb_irrefl, Z.eqb_refl. apply IH.
  - right. by rewrite (proj2 (Z.ltb_lt _ _) H).
Qed.

Lemma bytes_le_antisym a b : bytes_le a b = true -> bytes_le b a = true -> a = b.
Proof.
  revert b. induction a as [|x a IH]; intros [|y b]; simpl; try done.
  rewrite !orb_true_iff, !andb_true_iff, !Z.ltb_lt, !Z.eqb_eq.
  intros [H1|[H1 H1']] [H2|[H2 H2']]; try lia.
  f_equal; [by apply b2z_inj|by apply IH].
Qed.

Lemma bytes_le_trans a b c : bytes_le a b = true -> bytes_le b c = true -> bytes_le a c = true.
Proof.
  revert b c. induction a as [|x a IH]; intros [|y b] [|z c]; simpl; try done.
  rewrite !orb_true_iff, !andb_true_iff, !Z.ltb_lt, !Z.eqb_eq.
  intros [H1|[H1 H1']] [H2|[H2 H2']]; [left; lia|left; lia|left; lia|right].
  split; [lia|]. by eapply IH.
Qed.

Lemma bytes_lt_not_le a b : a <> b -> negb (bytes_le b a) = bytes_le a b.
Proof.
  intros Hne. destruct (bytes_le b a) eqn:E1, (bytes_le a b) eqn:E2; try done.
  - by destruct Hne; apply bytes_le_antisym.
  - destruct (bytes_le_total a b); congruence.
Qed.

(** ** A stable sort: [slice::sort_by]

    [sort_by] keeps equal elements in the order they came in.  The comparison is a
    boolean "no later than". *)

Section Sort.
  Context {A : Type} (le : A -> A -> bool).

Fixpoint sort_insert (x : A) (l : list A) : list A :=
  match l with
  | [] => [x]
  | y :: l' => if le x y then x :: l else y :: sort_insert x l'
  end.

Definition sort_by (l : list A) : list A := foldr sort_insert [] l.

Lemma sort_insert_perm x l : sort_insert x l ≡ₚ x :: l.
Proof.
  induction l as [|y l IH]; simpl; [done|].
  destruct (le x y); [done|]. rewrite IH. apply Permutation_swap.
Qed.

Lemma sort_by_perm l : sort_by l ≡ₚ l.
Proof. induction l as [|x l IH]; simpl; [done|]. by rewrite sort_insert_perm, IH. Qed.

Lemma elem_of_sort_by l x : x ∈ sort_by l <-> x ∈ l.
Proof. by rewrite sort_by_perm. Qed.

Lemma length_sort_by l : length (sort_by l) = length l.
Proof. apply Permutation_length, sort_by_perm. Qed.

  Context (le_total : forall x y, le x y = true \/ le y x = true).
  Context (le_trans : forall x y z, le x y = true -> le y z = true -> le x z = true).

Lemma sort_insert_sorted x l :
  StronglySorted (fun a b => le a b = true) l ->
  StronglySorted (fun a b => le a b = true) (sort_insert x l).
Proof.
  induction 1 as [|y l Hs IH Hy]; simpl; [by repeat constructor|].
  destruct (le x y) eqn:E; constructor; try done; [by constructor|..].
  - constructor; [done|]. eapply Forall_impl; [done|]. simpl. intros z. by apply le_trans.
  - rewrite sort_insert_perm. constructor; [|done].
    destruct (le_total x y); congruence.
Qed.

Lemma sort_by_sorted l : StronglySorted (fun a b => le a b = true) (sort_by l).
Proof. induction l; simpl; [constructor|by apply sort_insert_sorted]. Qed.

(** A sorted permutation is the sort, when the order tells elements apart. *)
Lemma sort_by_unique l k :
  (forall x y, x ∈ l -> y ∈ l -> le x y = true -> le y x = true -> x = y) ->
  StronglySorted (fun a b => le a b = true) k -> k ≡ₚ l -> k = sort_by l.
Proof.
  intros Hanti Hs Hp. apply (StronglySorted_unique_strong (fun a b => le a b = true)).
  - intros x y Hx Hy. rewrite Hp in Hx. rewrite elem_of_sort_by in Hy. by apply Hanti.
  - done.
  - apply sort_by_sorted.
  - by rewrite Hp, sort_by_perm.
Qed.
End Sort.

(** Taking a prefix and then dropping elements leaves a prefix of what is kept. *)
Lemma retain_take {A} (p : A -> bool) n l :
  retain p (take n l) = take (length (retain p (take n l))) (retain p l).
Proof.
  rewrite <- (take_drop n l) at 3. rewrite retain_app. by rewrite take_app_length.
Qed.

Lemma StronglySorted_retain {A} (R : A -> A -> Prop) (p : A -> bool) l :
  StronglySorted R l -> StronglySorted R (retain p l).
Proof.
  induction 1 as [|x l Hs IH Hx]; [constructor|].
  unfold retain in *. rewrite filter_cons. destruct (p x); simpl; [|done].
  constructor; [done|]. apply Forall_forall. intros y Hy.
  apply list_elem_of_filter in Hy as [_ Hy]. rewrite Forall_forall in Hx. by apply Hx.
Qed.

(** ** Computations that thread a state and may fail

    A method on [&mut self] that answers [Result]: the error leaves whatever state
    the steps before it left. *)

Definition sbind {S A B E} (m : Result A E * S) (k : A -> S -> Result B E * S)
    : Result B E * S :=
  match m with
  | (Ok a, s) => k a s
  | (Err e, s) => (Err e, s)
  end.

Notation "'let!' ( x , s ) ':=' m 'in' k" := (sbind m (fun x s => k))
  (at level 10, x binder, s binder, m at level 100, k at level 200) : rotelyx_scope.

(** ** Sums over a map: [values().map(f).sum()] *)

Definition map_sum `{Countable K} {V} (f : V -> Z) (m : gmap K V) : Z :=
  map_fold (fun _ v n => f v + n) 0 m.

Section MapSum.
  Context `{Countable K} {V : Type}.
  Implicit Types m : gmap K V.

Lemma map_sum_empty (f : V -> Z) : map_sum f (∅ : gmap K V) = 0.
Proof. apply map_fold_empty. Qed.

Lemma map_sum_insert f m k v :
  m !! k = None -> map_sum f (<[k := v]> m) = f v + map_sum f m.
Proof. intros Hk. unfold map_sum. rewrite map_fold_insert_L; [done|lia|done]. Qed.

Lemma map_sum_delete f m k v :
  m !! k = Some v -> map_sum f m = f v + map_sum f (delete k m).
Proof.
  intros Hk. rewrite <- (insert_delete_id m k v Hk) at 1.
  apply map_sum_insert, lookup_delete_eq.
Qed.

Lemma map_sum_update f m k v w :
  m !! k = Some v -> map_sum f (<[k := w]> m) = map_sum f m - f v + f w.
Proof.
  intros Hk. rewrite <- insert_delete_eq, map_sum_insert by apply lookup_delete_eq.
  rewrite (map_sum_delete f m k v Hk). lia.
Qed.

Lemma map_sum_nonneg f m :
  (forall k v, m !! k = Some v -> 0 <= f v) -> 0 <= map_sum f m.
Proof.
  induction m as [|k v m Hk IH] using map_ind; intros Hf.
  - by rewrite map_sum_empty.
  - rewrite map_sum_insert by done.
    assert (0 <= f v) by (apply (Hf k); by rewrite lookup_insert_eq).
    assert (0 <= map_sum f m); [|lia]. apply IH. intros j w Hj. apply (Hf j).
    rewrite lookup_insert_ne; [done|]. intros ->. congruence.
Qed.

Lemma map_sum_omap (f : V -> Z) (g : V -> option V) (h : V -> Z) m :
  (forall v, f v = h v + from_option f 0 (g v)) ->
  map_sum f m = map_sum h m + map_sum f (omap g m).
Proof.
  intros Hfg. induction m as [|k v m Hk IH] using map_ind.
  - by rewrite omap_empty, !map_sum_empty.
  - rewrite !map_sum_insert, IH, Hfg by done.
    destruct (g v) as [w|] eqn:Eg.
    + rewrite (omap_insert_Some g m k v w) by done.
      rewrite map_sum_insert by (by rewrite lookup_omap, Hk). simpl. lia.
    + rewrite (omap_insert_None g m k v) by done.
      rewrite delete_id by (by rewrite lookup_omap, Hk). simpl. lia.
Qed.
End MapSum.

(** ** The first and last key of an ordered map: [BTreeMap::keys] *)

Definition first_key {V} (m : gmap Z V) : option Z :=
  map_fold (fun k _ o => Some (match o with Some j => Z.min j k | None => k end)) None m.

Definition last_key {V} (m : gmap Z V) : option Z :=
  map_fold (fun k _ o => Some (match o with Some j => Z.max j k | None => k end)) None m.

Section Keys.
  Context {V : Type}.
  Implicit Types m : gmap Z V.

Lemma first_key_spec m :
  match first_key m with
  | None => m = ∅
  | Some k => is_Some (m !! k) /\ forall j, is_Some (m !! j) -> k <= j
  end.
Proof.
  unfold first_key. apply (map_fold_weak_ind (fun o m =>
    match o with
    | None => m = ∅
    | Some k => is_Some (m !! k) /\ forall j, is_Some (m !! j) -> k <= j
    end)); [done|].
  intros k v m' [j|] Hk Hj.
  - destruct Hj as [Hj Hmin]. split.
    + destruct (Z.min_spec j k) as [[_ ->]|[_ ->]]; rewrite ?lookup_insert_eq; [|done].
      by rewrite lookup_insert_ne by (intros ->; rewrite Hk in Hj; by destruct Hj).
    + intros i Hi. destruct (decide (i = k)) as [->|]; [lia|].
      rewrite lookup_insert_ne in Hi by done. specialize (Hmin i Hi). lia.
  - subst m'. rewrite lookup_insert_eq. split; [done|]. intros i Hi.
    destruct (decide (i = k)) as [->|]; [lia|].
    rewrite lookup_insert_ne, lookup_empty in Hi by done. by destruct Hi.
Qed.

Lemma last_key_spec m :
  match last_key m with
  | None => m = ∅
  | Some k => is_Some (m !! k) /\ forall j, is_Some (m !! j) -> j <= k
  end.
Proof.
  unfold last_key. apply (map_fold_weak_ind (fun o m =>
    match o with
    | None => m = ∅
    | Some k => is_Some (m !! k) /\ forall j, is_Some (m !! j) -> j <= k
    end)); [done|].
  intros k v m' [j|] Hk Hj.
  - destruct Hj as [Hj Hmax]. split.
    + destruct (Z.max_spec j k) as [[_ ->]|[_ ->]]; rewrite ?lookup_insert_eq; [done|].
      by rewrite lookup_insert_ne by (intros ->; rewrite Hk in Hj; by destruct Hj).
    + intros i Hi. destruct (decide (i = k)) as [->|]; [lia|].
      rewrite lookup_insert_ne in Hi by done. specialize (Hmax i Hi). lia.
  - subst m'. rewrite lookup_insert_eq. split; [done|]. intros i Hi.
    destruct (decide (i = k)) as [->|]; [lia|].
    rewrite lookup_insert_ne, lookup_empty in Hi by done. by destruct Hi.
Qed.

Lemma first_key_None m : first_key m = None <-> m = ∅.
Proof.
  split; [|intros ->; apply map_fold_empty].
  intros H. pose proof (first_key_spec m) as Hs. by rewrite H in Hs.
Qed.
End Keys.

(** ** Sizes of finite maps *)

Lemma size_insert_fresh `{Countable K} {V} (m : gmap K V) k v :
  m !! k = None -> Z.of_nat (size (<[k := v]> m)) = Z.of_nat (size m) + 1.
Proof. intros. rewrite map_size_insert_None by done. lia. Qed.

Lemma size_delete_present `{Countable K} {V} (m : gmap K V) k :
  is_Some (m !! k) -> Z.of_nat (size (delete k m)) = Z.of_nat (size m) - 1.
Proof.
  intros [v Hv]. rewrite map_size_delete, Hv.
  assert (size m <> 0%nat); [|lia]. intros Hz. apply map_size_empty_inv in Hz as ->.
  by rewrite lookup_empty in Hv.
Qed.

Lemma size_insert_le `{Countable K} {V} (m : gmap K V) k v n :
  Z.of_nat (size m) <= n -> (m !! k = None -> Z.of_nat (size m) < n) ->
  Z.of_nat (size (<[k := v]> m)) <= n.
Proof.
  intros H1 H2. rewrite map_size_insert. destruct (m !! k); simpl; [done|].
  specialize (H2 eq_refl). lia.
Qed.

(** ** Bit operations *)

Lemma testbit_small a n i : 0 <= a < 2 ^ n -> 0 <= n <= i -> Z.testbit a i = false.
Proof.
  intros Ha Hn. rewrite <- (Z.mod_small a (2 ^ n)) by lia.
  by apply Z.mod_pow2_bits_high.
Qed.

(** A field packed above another: disjoint bits add. *)
Lemma lor_shiftl a b k :
  0 <= k -> 0 <= b < 2 ^ k -> Z.lor (Z.shiftl a k) b = a * 2 ^ k + b.
Proof.
  intros Hk Hb. rewrite <- Z.shiftl_mul_pow2 by done.
  rewrite <- (Z.add_lor_land (Z.shiftl a k) b).
  assert (Z.land (Z.shiftl a k) b = 0) as ->; [|lia].
  apply Z.bits_inj'. intros i Hi. rewrite Z.land_spec, Z.bits_0.
  destruct (Z.ltb_spec i k).
  - rewrite Z.shiftl_spec_low by done. done.
  - rewrite (testbit_small b k i) by lia. apply andb_false_r.
Qed.

Lemma lxor_cancel_r a b c : Z.lxor a c = Z.lxor b c -> a = b.
Proof.
  intros H. apply (f_equal (fun x => Z.lxor x c)) in H.
  by rewrite !Z.lxor_assoc, !Z.lxor_nilpotent, !Z.lxor_0_r in H.
Qed.

Lemma lxor_range a b n :
  0 <= n -> 0 <= a < 2 ^ n -> 0 <= b < 2 ^ n -> 0 <= Z.lxor a b < 2 ^ n.
Proof.
  intros Hn Ha Hb. assert (0 <= Z.lxor a b) by (apply Z.lxor_nonneg; lia).
  split; [done|]. rewrite <- (Z.mod_small a (2 ^ n)), <- (Z.mod_small b (2 ^ n)) by done.
  assert (Z.lxor (a mod 2 ^ n) (b mod 2 ^ n) = Z.lxor a b mod 2 ^ n) as ->.
  { apply Z.bits_inj'. intros i Hi.
    rewrite Z.lxor_spec, !Z.testbit_mod_pow2, Z.lxor_spec by done. by destruct (_ <? _). }
  apply Z.mod_pos_bound. lia.
Qed.

(** [x & (1 << n) != 0] is the bit test. *)
Lemma land_bit x n :
  0 <= n -> negb (Z.land x (Z.shiftl 1 n) =? 0) = Z.testbit x n.
Proof.
  intros Hn. destruct (Z.testbit x n) eqn:E.
  - apply negb_true_iff, Z.eqb_neq. intros H.
    apply (f_equal (fun y => Z.testbit y n)) in H.
    rewrite Z.land_spec, E, Z.shiftl_1_l, Z.pow2_bits_true, Z.bits_0 in H by done. done.
  - apply negb_false_iff, Z.eqb_eq, Z.bits_inj'. intros i Hi.
    rewrite Z.land_spec, Z.shiftl_1_l, Z.bits_0.
    destruct (decide (i = n)) as [->|Hne]; [by rewrite E|].
    rewrite (Z.pow2_bits_false n i) by congruence. apply andb_false_r.
Qed.

(** A [u64] is what eight bytes hold. *)
Lemma u64_pow z : u64 z <-> 0 <= z < 256 ^ Z.of_nat 8.
Proof. change (256 ^ Z.of_nat 8) with 18446744073709551616. int_lia. Qed.
