(* ===== verification/Crypto.v ===== *)
(** * The primitives the crates call and this repository does not contain

    Hashes and authenticated encryption come from third-party crates ([blake3],
    [chacha20poly1305], [hkdf], [argon2]).  Each is an interface here: a class of
    operations with the documented laws the code relies on.  Every component
    proves its theorems against the class; the [Toy] module gives concrete
    instances, used only to show that the laws can hold together. *)

From S2P Require Import Prelude.

(** ** Hashing: [blake3] in its derive-key and keyed modes *)

Class Blake3 := {
  (** [Hasher::new_derive_key(context)], updated with the input, 32 bytes out *)
  blake3_derive : string -> bytes -> arr 32;
  (** [Hasher::new_keyed(key)], updated with the input *)
  blake3_keyed : arr 32 -> bytes -> arr 32;
}.

(** [blake3::hash], and a [Hasher::new()] updated piece by piece. *)
Class Blake3Hash := {
  blake3_hash : bytes -> arr 32;
}.

(** ** Authenticated encryption with associated data

    [seal key nonce aad msg] is [None] when the cipher refuses (a message past
    its length limit).  What it produced opens under the same key, nonce and
    associated data, and is sixteen bytes longer than the message. *)

Definition AEAD_TAG_LEN : Z := 16.

Class Aead := {
  aead_seal : bytes -> bytes -> bytes -> bytes -> option bytes;
  aead_open : bytes -> bytes -> bytes -> bytes -> option bytes;
}.

Class AeadLaws `(Aead) : Prop := {
  aead_open_seal key nonce aad msg ct :
    aead_seal key nonce aad msg = Some ct -> aead_open key nonce aad ct = Some msg;
  aead_seal_len key nonce aad msg ct :
    aead_seal key nonce aad msg = Some ct -> zlen ct = zlen msg + AEAD_TAG_LEN;
}.

(** ** HKDF-SHA256: extract with a salt, expand under a label *)

Class Hkdf := {
  hkdf_expand : bytes -> bytes -> bytes -> forall n : nat, arr n;
}.

(** ** Toy instances

    A byte sum stands for the tag.  They have no security: they only witness
    that a theorem's hypotheses about the primitives can be met. *)

Module Toy.

Definition sum (l : bytes) : Z := foldl (fun a b => (a * 31 + b2z b + 7) mod 1000003) 1 l.

Definition tag (key nonce aad msg : bytes) : bytes :=
  be_bytes 16 (sum (key ++ nonce ++ aad ++ msg)).

Lemma length_tag key nonce aad msg : length (tag key nonce aad msg) = 16%nat.
Proof. apply length_be_bytes. Qed.

Definition seal (key nonce aad msg : bytes) : option bytes :=
  Some (msg ++ tag key nonce aad msg).

Definition open (key nonce aad ct : bytes) : option bytes :=
  let n := (length ct - 16)%nat in
  let msg := take n ct in
  if decide (drop n ct = tag key nonce aad msg) then Some msg else None.

#[export] Instance aead : Aead := {| aead_seal := seal; aead_open := open |}.

#[global] Instance aead_laws : AeadLaws aead.
Proof.
  split; intros key nonce aad msg ct [= <-].
  - simpl. unfold open. rewrite length_app, length_tag, Nat.add_sub.
    rewrite take_app_length, drop_app_length. by rewrite decide_True.
  - rewrite zlen_app. unfold zlen at 2. rewrite length_tag. done.
Qed.

#[export] Instance blake3 : Blake3 := {|
  blake3_derive c m := be_arr 32 (sum (String.list_byte_of_string c ++ m));
  blake3_keyed k m := be_arr 32 (sum (ab k ++ m));
|}.

#[export] Instance blake3_plain : Blake3Hash := {|
  blake3_hash m := be_arr 32 (sum m);
|}.

#[export] Instance hkdf : Hkdf := {|
  hkdf_expand salt ikm info n := be_arr n (sum (salt ++ ikm ++ info));
|}.

End Toy.
