(* ===== verification/Envelope.v ===== *)
(** * Sealed envelopes: rotating tags and padding buckets

    [crates/rotelyx-mailbox/src/envelope.rs].  A payload is sealed under a key
    derived from the conversation, padded with zeroes to one of fourteen sizes
    and addressed to a tag that changes every hour. *)

From S2P Require Import Prelude Crypto.

(** ** Constants *)

Definition TAG_CONTEXT : string := "rotelyx mailbox tag v1".
Definition MEMBER_TAG_CONTEXT : string := "rotelyx mailbox member tag v1".
Definition PAYLOAD_CONTEXT : string := "rotelyx mailbox payload v1".
Definition RECEIPT_CONTEXT : string := "rotelyx envelope receipt v1".
Definition PAYLOAD_VERSION : byte := z2b 2.
Definition PAYLOAD_AAD : bytes :=
  String.list_byte_of_string "rotelyx envelope payload v2".
Definition NONCE_LEN : nat := 24.
Definition PADDING_TERMINATOR : byte := z2b 128.
Definition PAYLOAD_OVERHEAD : Z := 1 + Z.of_nat NONCE_LEN + AEAD_TAG_LEN + 1.
Definition TAG_BUCKET_SECONDS : Z := 3600.
Definition LOOKBACK_FOR_FORTY_HOURS : Z := 40 * 3600 / TAG_BUCKET_SECONDS - 1.

Inductive EnvelopeError :=
| TooLarge (len max : Z)
| NotABucket (len : Z)
| BadTag (len : Z)
| NoRandomness
| Sealing
| NotSealed
| NotOurs.

(** ** Buckets *)

Module Bucket.

Definition SMALL : Z := 1024.
Definition MAX : Z := 8388608.

Definition SIZES : list Z :=
  [1024; 2048; 4096; 8192; 16384; 32768; 65536; 131072; 262144; 524288; 1048576;
   2097152; 4194304; 8388608].

Definition for_len (len : Z) : Result Z EnvelopeError :=
  ok_or (TooLarge len MAX) (snd <$> list_find (fun size => len <= size) SIZES).

Definition from_size (size : Z) : option Z :=
  snd <$> list_find (fun s => s = size) SIZES.

End Bucket.

(** ** Time *)

Definition bucket_at (unix_seconds : Z) : Z := unix_seconds / TAG_BUCKET_SECONDS.

(** ** Tags *)

Abbreviation Tag := (arr 32).

Definition tag_from_bytes (l : bytes) : Result Tag EnvelopeError :=
  ok_or (BadTag (zlen l)) (try_into 32 l).

(** ** The envelope *)

Record Envelope := mkEnvelope {
  env_tag : Tag;
  payload : bytes;
}.

#[export] Instance Envelope_eq_dec : EqDecision Envelope.
Proof. solve_decision. Defined.

(** [Envelope::seal]: the ciphertext copied over a zeroed bucket. *)
Definition envelope_seal (tag : Tag) (ciphertext : bytes) : Result Envelope EnvelopeError :=
  let? bucket := Bucket.for_len (zlen ciphertext) in
  Ok (mkEnvelope tag
        (ciphertext ++ replicate (Z.to_nat bucket - length ciphertext) zero_byte)).

Definition envelope_bucket (e : Envelope) : Result Z EnvelopeError :=
  ok_or (NotABucket (zlen (payload e))) (Bucket.from_size (zlen (payload e))).

Definition wire_len (e : Envelope) : Z := 32 + zlen (payload e).

Definition envelope_to_bytes (e : Envelope) : bytes := ab (env_tag e) ++ payload e.

Definition envelope_from_bytes (l : bytes) : Result Envelope EnvelopeError :=
  if zlen l <? 32 then Err (BadTag (zlen l))
  else
    let tag_bytes := take 32 l in
    let payload := drop 32 l in
    let? tag := tag_from_bytes tag_bytes in
    match Bucket.from_size (zlen payload) with
    | None => Err (NotABucket (zlen payload))
    | Some _ => Ok (mkEnvelope tag payload)
    end.

Section Derivation.
  Context `{Blake3}.

(** [TagKey] and [PayloadKey] wrap thirty-two secret bytes. *)
Definition for_member (key : arr 32) (recipient : bytes) : arr 32 :=
  blake3_derive MEMBER_TAG_CONTEXT
    (ab key ++ be_bytes 8 (zlen recipient) ++ recipient).

Definition payload_key (key : arr 32) : arr 32 :=
  blake3_derive PAYLOAD_CONTEXT (ab key).

Definition tag_for_epoch (key : arr 32) (epoch : Z) : Tag :=
  blake3_derive TAG_CONTEXT (ab key ++ be_bytes 8 epoch).

Definition polling_tags (key : arr 32) (current_epoch lookback : Z) : list Tag :=
  tag_for_epoch key <$>
    omap (checked_sub current_epoch) (seqZ 0 (lookback + 1)).

(** [Envelope::digest], what a receipt names. *)
Definition digest (e : Envelope) : arr 32 :=
  blake3_derive RECEIPT_CONTEXT (ab (env_tag e) ++ payload e).
End Derivation.

(** ** Payload sealing *)

Definition aad (tag : option Tag) : bytes :=
  PAYLOAD_AAD ++
  match tag with
  | Some t => z2b 1 :: ab t
  | None => [z2b 0]
  end.

Section Payload.
  Context `{XC : Aead}.

(** [nonce] is what [getrandom::fill] returned, [None] when it failed. *)
Definition payload_seal (key : arr 32) (nonce : option (arr NONCE_LEN))
    (tag : option Tag) (plaintext : bytes) : Result bytes EnvelopeError :=
  let? nonce := ok_or NoRandomness nonce in
  let? sealed := ok_or Sealing (aead_seal (ab key) (ab nonce) (aad tag) plaintext) in
  Ok (PAYLOAD_VERSION :: ab nonce ++ sealed ++ [PADDING_TERMINATOR]).

Definition payload_open (key : arr 32) (tag : option Tag) (sealed : bytes)
    : Result bytes EnvelopeError :=
  let? sealed :=
    match rposition (fun b => negb (bool_decide (b = zero_byte))) sealed with
    | Some last =>
        if decide (sealed !! last = Some PADDING_TERMINATOR)
        then Ok (take last sealed) else Err NotSealed
    | None => Err NotSealed
    end in
  if (zlen sealed <? PAYLOAD_OVERHEAD) ||
     negb (bool_decide (head sealed = Some PAYLOAD_VERSION))
  then Err NotSealed
  else ok_or NotOurs
    (aead_open (ab key) (slice sealed 1 (1 + NONCE_LEN)) (aad tag)
       (drop (1 + NONCE_LEN) sealed)).
End Payload.

(** ** Lemmas *)

Lemma from_size_Some size b :
  Bucket.from_size size = Some b <-> b = size /\ size ∈ Bucket.SIZES.
Proof.
  unfold Bucket.from_size. split.
  - destruct (list_find _ _) as [[i x]|] eqn:E; [|done]. intros [= <-].
    apply list_find_Some in E as (Hi & -> & _). split; [done|].
    by eapply list_elem_of_lookup_2.
  - intros [-> Hin]. apply list_elem_of_lookup in Hin as [i Hi].
    destruct (list_find (fun s => s = size) Bucket.SIZES) as [[j x]|] eqn:E.
    + apply list_find_Some in E as (_ & -> & _). done.
    + apply list_find_None in E. rewrite Forall_forall in E.
      destruct (E size); [|done]. by eapply list_elem_of_lookup_2.
Qed.

Lemma SIZES_sorted i j x y :
  Bucket.SIZES !! i = Some x -> Bucket.SIZES !! j = Some y -> (i <= j)%nat -> x <= y.
Proof.
  intros Hi Hj Hij.
  assert (StronglySorted Z.le Bucket.SIZES) as Hs.
  { repeat (constructor; [|by repeat constructor]). repeat constructor. }
  destruct (decide (i = j)) as [->|Hne]; [naive_solver lia|].
  revert i j Hi Hj Hij Hne. induction Hs as [|z l _ IH Hall]; intros [|i] [|j] Hi Hj ??;
    simpl in *; try lia; try done.
  - injection Hi as ->. rewrite Forall_forall in Hall.
    apply Hall. by eapply list_elem_of_lookup_2.
  - eapply IH; eauto; lia.
Qed.

Lemma SIZES_bounds x : x ∈ Bucket.SIZES -> 1024 <= x <= Bucket.MAX.
Proof.
  unfold Bucket.SIZES, Bucket.MAX. rewrite !list_elem_of_In. simpl. lia.
Qed.

Lemma for_len_Ok len b :
  Bucket.for_len len = Ok b ->
  b ∈ Bucket.SIZES /\ len <= b /\ (forall s, s ∈ Bucket.SIZES -> len <= s -> b <= s).
Proof.
  unfold Bucket.for_len.
  destruct (list_find _ _) as [[i x]|] eqn:E; [|done]. intros [= <-]. simpl.
  apply list_find_Some in E as (Hi & Hle & Hmin).
  split; [by eapply list_elem_of_lookup_2|]. split; [done|].
  intros s Hs Hlen. apply list_elem_of_lookup in Hs as [j Hj].
  destruct (decide (i <= j)%nat); [by eapply SIZES_sorted|].
  destruct (Hmin j s Hj); [lia|done].
Qed.

Lemma for_len_total len : len <= Bucket.MAX -> exists b, Bucket.for_len len = Ok b.
Proof.
  intros Hlen. unfold Bucket.for_len.
  destruct (list_find _ _) as [[i x]|] eqn:E; [by eexists|].
  apply list_find_None in E. rewrite Forall_forall in E.
  destruct (E Bucket.MAX); [|done].
  unfold Bucket.SIZES, Bucket.MAX. rewrite list_elem_of_In. simpl. lia.
Qed.

Lemma envelope_seal_Ok tag ct e :
  envelope_seal tag ct = Ok e ->
  env_tag e = tag /\ zlen (payload e) ∈ Bucket.SIZES /\
  exists n, payload e = ct ++ replicate n zero_byte.
Proof.
  unfold envelope_seal. rewrite rbind_ok. intros (b & Hb & [= <-]). simpl.
  apply for_len_Ok in Hb as (Hin & Hle & _).
  split_and!; [done| |by eexists].
  rewrite zlen_app, zlen_replicate.
  assert (zlen ct + Z.of_nat (Z.to_nat b - length ct) = b) as ->; [|done].
  pose proof (zlen_nonneg ct). unfold zlen in *. lia.
Qed.

Lemma tag_from_bytes_Ok l t : tag_from_bytes l = Ok t <-> ab t = l.
Proof.
  unfold tag_from_bytes. destruct (try_into 32 l) eqn:E; simpl.
  - apply try_into_Some in E. split; [naive_solver|].
    intros Ht. f_equal. apply arr_eq. congruence.
  - split; [done|]. intros H. apply try_into_Some in H. congruence.
Qed.

Lemma payload_seal_Ok `{XC : Aead} key nonce tag m s :
  payload_seal key nonce tag m = Ok s ->
  exists (n : arr NONCE_LEN) ct,
    nonce = Some n /\ aead_seal (ab key) (ab n) (aad tag) m = Some ct /\
    s = (PAYLOAD_VERSION :: ab n ++ ct) ++ [PADDING_TERMINATOR].
Proof.
  unfold payload_seal. rewrite rbind_ok. intros (n & Hn & Hk).
  apply rbind_ok in Hk as (ct & Hct & [= <-]).
  destruct nonce; [|done]. injection Hn as ->.
  destruct (aead_seal _ _ _ _) eqn:E; [|done]. injection Hct as ->.
  exists n, ct. rewrite E. simpl. by rewrite <- app_assoc.
Qed.

(** What opening does to a terminated, zero-padded body. *)
Lemma payload_open_body `{XC : Aead} key tag (n : arr NONCE_LEN) ct k :
  payload_open key tag
    (((PAYLOAD_VERSION :: ab n ++ ct) ++ [PADDING_TERMINATOR]) ++ replicate k zero_byte) =
  if zlen ct <? AEAD_TAG_LEN + 1 then Err NotSealed
  else ok_or NotOurs (aead_open (ab key) (ab n) (aad tag) ct).
Proof.
  unfold payload_open. rewrite <- (app_assoc _ [PADDING_TERMINATOR]). simpl (_ ++ _).
  rewrite app_comm_cons, rposition_app_one.
  2: by vm_compute.
  2: by apply Forall_replicate.
  rewrite list_lookup_middle, decide_True by done.
  rewrite take_app_length. cbn [rbind].
  rewrite zlen_cons, zlen_app, zlen_ab.
  assert (bool_decide (head (PAYLOAD_VERSION :: ab n ++ ct) = Some PAYLOAD_VERSION)
    = true) as -> by (by apply bool_decide_eq_true).
  rewrite orb_false_r. unfold slice.
  assert (drop (1 + NONCE_LEN) (PAYLOAD_VERSION :: ab n ++ ct) = ct) as ->.
  { apply (drop_ab n). }
  assert (take (1 + NONCE_LEN - 1) (drop 1 (PAYLOAD_VERSION :: ab n ++ ct)) = ab n) as ->.
  { apply (take_ab n). }
  unfold PAYLOAD_OVERHEAD, AEAD_TAG_LEN, NONCE_LEN.
  repeat case_cmp; first [done|lia].
Qed.

(** ** Properties *)

(** [Bucket::for_len] answers the smallest of the fourteen sizes that holds
    the length, and refuses exactly the lengths past the largest one, naming
    the length and the ceiling. *)
Theorem for_len_smallest len :
  match Bucket.for_len len with
  | Ok b => b ∈ Bucket.SIZES /\ len <= b /\
            forall s, s ∈ Bucket.SIZES -> len <= s -> b <= s
  | Err e => e = TooLarge len Bucket.MAX /\ Bucket.MAX < len
  end.
Proof.
  destruct (Bucket.for_len len) as [b|e] eqn:E; [by apply for_len_Ok|].
  split.
  - unfold Bucket.for_len in E. destruct (list_find _ _); naive_solver.
  - apply Z.nle_gt. intros Hle. apply for_len_total in Hle as [b Hb]. congruence.
Qed.

(** An envelope's wire form is canonical.  [from_bytes] accepts a byte string
    exactly when it is the encoding of an envelope whose payload has one of the
    bucket sizes, and returns that envelope; so what a sender sealed is read back
    unchanged, and nothing else is ever stored. *)
Theorem envelope_wire_canonical l e :
  envelope_from_bytes l = Ok e <->
  envelope_to_bytes e = l /\ zlen (payload e) ∈ Bucket.SIZES.
Proof.
  unfold envelope_from_bytes, envelope_to_bytes. split.
  - case_cmp; [done|]. rewrite rbind_ok. intros (t & Ht & Hk).
    apply tag_from_bytes_Ok in Ht.
    destruct (Bucket.from_size _) eqn:E; [|done]. injection Hk as <-.
    apply from_size_Some in E as [-> Hin]. simpl.
    split; [|done]. rewrite Ht. apply take_drop.
  - intros [<- Hin]. pose proof (SIZES_bounds _ Hin).
    rewrite zlen_app, zlen_ab. case_cmp; [lia|].
    rewrite take_ab, drop_ab.
    rewrite (proj2 (tag_from_bytes_Ok _ (env_tag e))) by done. simpl.
    rewrite (proj2 (from_size_Some _ (zlen (payload e)))) by done.
    by destruct e.
Qed.

(** The whole mailbox path of a payload.  A message of at least one byte,
    sealed under a payload key for an address, padded into an envelope and read
    back off the wire, opens to the message; the envelope gives the operator a
    bucket-sized payload and the tag, and [bucket] names that bucket. *)
Theorem payload_roundtrip `{XC : Aead} `{!AeadLaws XC} key nonce bind tag m s e :
  m <> [] ->
  payload_seal key (Some nonce) bind m = Ok s ->
  envelope_seal tag s = Ok e ->
  envelope_from_bytes (envelope_to_bytes e) = Ok e /\
  env_tag e = tag /\
  envelope_bucket e = Ok (zlen (payload e)) /\
  payload_open key bind (payload e) = Ok m.
Proof.
  intros Hm Hs He. pose proof (envelope_seal_Ok _ _ _ He) as (Ht & Hin & k & Hp).
  split_and!; [by apply envelope_wire_canonical|done| |].
  - unfold envelope_bucket. by rewrite (proj2 (from_size_Some _ (zlen (payload e)))).
  - apply payload_seal_Ok in Hs as (n & ct & [= <-] & Hct & ->).
    rewrite Hp, payload_open_body. rewrite (aead_open_seal _ _ _ _ _ Hct).
    apply aead_seal_len in Hct. destruct m; [done|].
    rewrite zlen_cons in Hct. pose proof (zlen_nonneg m). case_cmp; [lia|done].
Qed.

Lemma payload_roundtrip_witness :
  exists s e,
    payload_seal (XC := Toy.aead) (be_arr 32 7) (Some (be_arr 24 9)) None [z2b 0] = Ok s /\
    envelope_seal (be_arr 32 5) s = Ok e /\
    payload_open (XC := Toy.aead) (be_arr 32 7) None (payload e) = Ok [z2b 0].
Proof.
  eexists _, _. split; [reflexivity|]. split; [reflexivity|].
  eapply (payload_roundtrip (XC := Toy.aead) _ (be_arr 24 9) None (be_arr 32 5));
    [done|reflexivity|reflexivity].
Defined.

(** An empty message is the one payload that seals and does not open.
    [open] strips the terminator and then still asks for the overhead that counts
    it, so the forty-one bytes left are refused as [NotSealed] before the cipher
    is asked. *)
Theorem payload_empty_does_not_open `{XC : Aead} `{!AeadLaws XC} key nonce bind tag s e :
  payload_seal key (Some nonce) bind [] = Ok s ->
  envelope_seal tag s = Ok e ->
  payload_open key bind (payload e) = Err NotSealed.
Proof.
  intros Hs He. apply envelope_seal_Ok in He as (_ & _ & k & ->).
  apply payload_seal_Ok in Hs as (n & ct & _ & Hct & ->).
  rewrite payload_open_body. apply aead_seal_len in Hct.
  rewrite zlen_nil in Hct. case_cmp; [done|lia].
Qed.

Lemma payload_empty_does_not_open_witness :
  exists s e,
    payload_seal (XC := Toy.aead) (be_arr 32 7) (Some (be_arr 24 9)) None [] = Ok s /\
    envelope_seal (be_arr 32 5) s = Ok e /\
    payload_open (XC := Toy.aead) (be_arr 32 7) None (payload e) = Err NotSealed.
Proof.
  eexists _, _. split; [reflexivity|]. split; [reflexivity|].
  eapply (payload_empty_does_not_open (XC := Toy.aead) _ (be_arr 24 9) None (be_arr 32 5));
    reflexivity.
Defined.

Lemma polling_tags_elem `{Blake3} key cur lookback epoch :
  0 <= epoch -> epoch <= cur <= epoch + lookback ->
  tag_for_epoch key epoch ∈ polling_tags key cur lookback.
Proof.
  intros He Hc. unfold polling_tags. apply list_elem_of_fmap.
  exists epoch. split; [done|]. apply list_elem_of_omap.
  exists (cur - epoch). split.
  - apply elem_of_seqZ. lia.
  - apply checked_sub_Some. lia.
Qed.

(** A recipient that polls with the forty-hour lookback derives the tag of
    every deposit made in its own bucket or the thirty-nine before it, in at most
    forty tags (a subscription carries sixty-four), and never a tag for a bucket
    before the epoch. *)
Theorem polling_covers_grace `{Blake3} key now sent :
  0 <= sent ->
  sent <= now <= sent + 39 * TAG_BUCKET_SECONDS ->
  tag_for_epoch key (bucket_at sent) ∈
    polling_tags key (bucket_at now) LOOKBACK_FOR_FORTY_HOURS /\
  zlen (polling_tags key (bucket_at now) LOOKBACK_FOR_FORTY_HOURS) <= 40 /\
  (LOOKBACK_FOR_FORTY_HOURS + 1) * TAG_BUCKET_SECONDS = 40 * 3600.
Proof.
  intros Hs Hw. unfold TAG_BUCKET_SECONDS in *. split_and!; [| |done].
  - apply polling_tags_elem; unfold bucket_at, TAG_BUCKET_SECONDS.
    + apply Z.div_pos; lia.
    + change LOOKBACK_FOR_FORTY_HOURS with 39. split.
      * apply Z.div_le_mono; lia.
      * pose proof (Z.div_le_mono now (sent + 39 * 3600) 3600). 
        rewrite Z.div_add in * by lia. lia.
  - unfold polling_tags, zlen. rewrite length_fmap.
    etrans; [apply Nat2Z.inj_le, length_omap_le|]. by rewrite length_seqZ.
Qed.

Lemma polling_covers_grace_witness :
  let H := Toy.blake3 in
  tag_for_epoch (be_arr 32 3) (bucket_at 100000) ∈
    polling_tags (be_arr 32 3) (bucket_at 200000) LOOKBACK_FOR_FORTY_HOURS.
Proof.
  apply (polling_covers_grace (H := Toy.blake3) (be_arr 32 3) 200000 100000);
    unfold TAG_BUCKET_SECONDS; lia.
Defined.
