(* ===== verification/MailboxStore.v ===== *)
(** * The blind mailbox

    [crates/rotelyx-mailbox/src/store.rs].  A map from opaque tags to queues of
    envelopes, each with the retention its depositor was sold. *)

From S2P Require Import Prelude Crypto Envelope.

Definition MAX_PER_TAG : Z := 256.
Definition DEFAULT_TTL_SECONDS : Z := 7 * 24 * 3600.

Record Stored := mkStored {
  envelope : Envelope;
  deposited_at : Z;
  stored_ttl : Z;
}.

Record Mailbox := mkMailbox {
  slots : gmap Tag (list Stored);
  ttl_seconds : Z;
}.

Definition mailbox_new (ttl : Z) : Mailbox := mkMailbox ∅ ttl.
Definition with_default_ttl : Mailbox := mailbox_new DEFAULT_TTL_SECONDS.

Definition expired (s : Stored) (now ttl : Z) : bool :=
  ttl <=? sat_sub now (deposited_at s).

Definition is_expired (s : Stored) (now : Z) : bool := expired s now (stored_ttl s).

Definition live (now : Z) (s : Stored) : bool := negb (is_expired s now).

(** [Vec::remove], which panics out of range. *)
Definition vec_remove {A} (i : nat) (l : list A) : option (list A) :=
  match l !! i with
  | Some _ => Some (delete i l)
  | None => None
  end.

(** The queue a deposit leaves behind; [None] is the panic of [remove] on an
    empty queue, which only a ceiling of zero reaches. *)
Definition slot_deposit (slot : list Stored) (s : Stored) (now ceiling : Z)
    : option (list Stored) :=
  let live_n := zlen (retain (live now) slot) in
  slot' ← (if ceiling <=? live_n then
             match position (fun s => is_expired s now) slot with
             | Some dead => vec_remove dead slot
             | None => vec_remove 0 slot
             end
           else Some slot);
  Some (slot' ++ [s]).

(** [deposit_with] always answers [Ok(())]; the state is what matters. *)
Definition deposit_with (m : Mailbox) (e : Envelope) (now ttl max_per_tag : Z)
    : option Mailbox :=
  let ceiling := Z.min max_per_tag MAX_PER_TAG in
  let slot := default [] (slots m !! env_tag e) in
  slot' ← slot_deposit slot (mkStored e now ttl) now ceiling;
  Some (mkMailbox (<[env_tag e := slot']> (slots m)) (ttl_seconds m)).

Definition deposit (m : Mailbox) (e : Envelope) (now : Z) : option Mailbox :=
  deposit_with m e now (ttl_seconds m) MAX_PER_TAG.

Definition pending (m : Mailbox) (tag : Tag) (now : Z) : Z :=
  match slots m !! tag with
  | Some slot => zlen (retain (live now) slot)
  | None => 0
  end.

Definition collect (m : Mailbox) (tag : Tag) (now : Z) : list Envelope * Mailbox :=
  match slots m !! tag with
  | None => ([], m)
  | Some slot =>
      (envelope <$> retain (live now) slot,
       mkMailbox (delete tag (slots m)) (ttl_seconds m))
  end.

Definition peek_many (m : Mailbox) (tags : list Tag) (now : Z) : list Envelope :=
  slot ← omap (fun t => slots m !! t) tags;
  envelope <$> retain (live now) slot.

Fixpoint collect_many (m : Mailbox) (tags : list Tag) (now : Z)
    : list Envelope * Mailbox :=
  match tags with
  | [] => ([], m)
  | t :: ts =>
      let '(es, m) := collect m t now in
      let '(rest, m) := collect_many m ts now in
      (es ++ rest, m)
  end.

Section Receipts.
  Context `{Blake3}.

Fixpoint remove_acknowledged (m : Mailbox) (tags : list Tag) (d : arr 32)
    : bool * Mailbox :=
  match tags with
  | [] => (false, m)
  | tag :: tags =>
      match slots m !! tag with
      | None => remove_acknowledged m tags d
      | Some slot =>
          let kept := retain (fun s => negb (bool_decide (digest (envelope s) = d))) slot in
          if decide (length kept = length slot) then remove_acknowledged m tags d
          else
            (true,
             mkMailbox
               (match kept with
                | [] => delete tag (slots m)
                | _ => <[tag := kept]> (slots m)
                end) (ttl_seconds m))
      end
  end.
End Receipts.

Definition mailbox_len (m : Mailbox) : Z :=
  map_sum zlen (slots m).

Definition keep_live (now : Z) (slot : list Stored) : option (list Stored) :=
  match retain (live now) slot with
  | [] => None
  | kept => Some kept
  end.

Definition sweep (m : Mailbox) (now : Z) : Z * Mailbox :=
  (map_sum (fun slot => zlen slot - zlen (retain (live now) slot)) (slots m),
   mkMailbox (omap (keep_live now) (slots m)) (ttl_seconds m)).

(** [postcard] writes the queues of a snapshot; the crate is not in the
    repository, so its two functions are parameters. *)
Section Snapshot.
  Variable to_allocvec : list Stored -> option bytes.
  Variable from_bytes : bytes -> option (list Stored).

Definition snapshot (m : Mailbox) : list (Tag * bytes) :=
  omap (fun '(tag, slot) => b ← to_allocvec slot; Some (tag, b)) (map_to_list (slots m)).

Definition restore_entry (now : Z) (m : Mailbox) (entry : Tag * bytes) : Mailbox :=
  match from_bytes entry.2 with
  | None => m
  | Some slot =>
      match keep_live now slot with
      | None => m
      | Some kept => mkMailbox (<[entry.1 := kept]> (slots m)) (ttl_seconds m)
      end
  end.

Definition restore (ttl : Z) (entries : list (Tag * bytes)) (now : Z) : Mailbox :=
  foldl (restore_entry now) (mailbox_new ttl) entries.
End Snapshot.

(** ** Lemmas on one queue *)

Lemma vec_remove_Some {A} i (l l' : list A) :
  vec_remove i l = Some l' ->
  exists l1 x l2, l = l1 ++ x :: l2 /\ length l1 = i /\ l' = l1 ++ l2.
Proof.
  unfold vec_remove. destruct (l !! i) as [x|] eqn:E; [|done]. intros [= <-].
  exists (take i l), x, (drop (S i) l).
  split; [by rewrite take_drop_middle|]. split.
  - apply length_take_le. apply lookup_lt_Some in E. lia.
  - apply delete_take_drop.
Qed.

Lemma retain_one {A} (p : A -> bool) x : retain p [x] = if p x then [x] else [].
Proof. unfold retain. rewrite filter_cons. by destruct (p x). Qed.

Lemma retain_middle {A} (p : A -> bool) l x k :
  retain p (l ++ x :: k) = retain p l ++ (if p x then [x] else []) ++ retain p k.
Proof. by rewrite (cons_middle x), !retain_app, retain_one. Qed.

Lemma live_fresh e now ttl :
  live now (mkStored e now ttl) = (0 <? ttl).
Proof.
  unfold live, is_expired, expired, sat_sub. simpl. rewrite Z.sub_diag. simpl.
  repeat case_cmp; first [done|lia].
Qed.

(** What one deposit does to the live part of a queue. *)
Lemma slot_deposit_live slot e now ttl ceiling slot' :
  slot_deposit slot (mkStored e now ttl) now ceiling = Some slot' ->
  retain (live now) slot' =
    (if (ceiling <=? zlen (retain (live now) slot)) && forallb (live now) slot
     then tail (retain (live now) slot) else retain (live now) slot) ++
    (if 0 <? ttl then [mkStored e now ttl] else []).
Proof.
  unfold slot_deposit. intros Hs.
  apply bind_Some in Hs as (mid & Hmid & [= <-]).
  rewrite retain_app, retain_one, live_fresh. f_equal.
  case_cmp; [|by injection Hmid as ->]. simpl.
  destruct (position _ slot) as [dead|] eqn:Hp.
  - apply position_Some in Hp as (l1 & x & l2 & -> & Hl & Hx & _).
    apply vec_remove_Some in Hmid as (k1 & y & k2 & Heq & Hk & ->).
    apply app_inj_1 in Heq as [-> [= -> ->]]; [|congruence].
    assert (live now y = false) as Hy by (unfold live; by rewrite Hx).
    rewrite retain_middle, retain_app, forallb_app. simpl. by rewrite Hy, andb_false_r.
  - apply position_None in Hp.
    assert (forall x, x ∈ slot -> live now x = true) as Hall.
    { intros x Hx. rewrite Forall_forall in Hp. unfold live. by rewrite Hp. }
    rewrite (proj2 (forallb_forall _ _)).
    2: { intros x Hx. apply Hall. by apply list_elem_of_In. }
    apply vec_remove_Some in Hmid as (k1 & y & k2 & -> & Hk & ->).
    destruct k1; [|done]. simpl in *.
    rewrite !retain_all; [done|done|]. intros x Hx. apply Hall. by right.
Qed.

Lemma slot_deposit_total slot s now ceiling :
  1 <= ceiling -> exists slot', slot_deposit slot s now ceiling = Some slot'.
Proof.
  intros Hc. unfold slot_deposit. case_cmp; [|by eexists].
  destruct (position _ slot) as [dead|] eqn:Hp.
  - apply position_Some in Hp as (l1 & x & l2 & -> & <- & _).
    unfold vec_remove. rewrite list_lookup_middle by done. simpl. by eexists.
  - destruct slot; [|by eexists]. unfold zlen in *. simpl in *. lia.
Qed.

Lemma slot_deposit_nonempty slot s now ceiling slot' :
  slot_deposit slot s now ceiling = Some slot' -> slot' <> [].
Proof.
  unfold slot_deposit. intros H. apply bind_Some in H as (mid & _ & [= <-]).
  by destruct mid.
Qed.

Definition live_at (m : Mailbox) (tag : Tag) (now : Z) : list Stored :=
  retain (live now) (default [] (slots m !! tag)).

Lemma pending_live_at m tag now : pending m tag now = zlen (live_at m tag now).
Proof. unfold pending, live_at. by destruct (slots m !! tag). Qed.

Lemma keep_live_from now slot :
  from_option (fun s => s) [] (keep_live now slot) = retain (live now) slot.
Proof. unfold keep_live. by destruct (retain _ _). Qed.

Lemma retain_live_idemp now slot :
  retain (live now) (retain (live now) slot) = retain (live now) slot.
Proof. by apply retain_retain. Qed.

(** ** The store's invariant: no queue is empty *)

Definition store_inv (m : Mailbox) : Prop := map_Forall (fun _ slot => slot <> []) (slots m).

Lemma store_inv_new ttl : store_inv (mailbox_new ttl).
Proof. apply map_Forall_empty. Qed.

Lemma store_inv_deposit m e now ttl max m' :
  store_inv m -> deposit_with m e now ttl max = Some m' -> store_inv m'.
Proof.
  unfold store_inv, deposit_with. intros Hinv H.
  apply bind_Some in H as (slot' & Hs & [= <-]). simpl.
  apply map_Forall_insert_2; [|done]. by eapply slot_deposit_nonempty.
Qed.

Lemma store_inv_collect m tag now : store_inv m -> store_inv (collect m tag now).2.
Proof.
  unfold store_inv, collect. intros Hinv. destruct (slots m !! tag); simpl; [|done].
  by apply map_Forall_delete.
Qed.

Lemma store_inv_sweep m now : store_inv (sweep m now).2.
Proof.
  unfold store_inv, sweep. simpl. intros t slot. rewrite lookup_omap.
  destruct (slots m !! t) as [s|]; simpl; [|done].
  unfold keep_live. by destruct (retain _ _); [|intros [= <-]].
Qed.

Lemma store_inv_ack `{Blake3} m tags d :
  store_inv m -> store_inv (remove_acknowledged m tags d).2.
Proof.
  unfold store_inv. intros Hinv. induction tags as [|t tags IH]; simpl; [done|].
  destruct (slots m !! t) as [slot|] eqn:E; [|done].
  destruct (decide _); [done|]. simpl.
  destruct (retain _ _); [by apply map_Forall_delete|by apply map_Forall_insert_2].
Qed.

(** ** The invariant of a running store

    Every queue is non-empty, and every envelope under a tag was deposited under
    that tag. *)

Inductive op :=
| ODeposit (e : Envelope) (now ttl max_per_tag : Z)
| OCollect (tag : Tag) (now : Z)
| OAck (tags : list Tag) (d : arr 32)
| OSweep (now : Z).

Definition apply_op `{Blake3} (m : Mailbox) (o : op) : option Mailbox :=
  match o with
  | ODeposit e now ttl max => deposit_with m e now ttl max
  | OCollect tag now => Some (collect m tag now).2
  | OAck tags d => Some (remove_acknowledged m tags d).2
  | OSweep now => Some (sweep m now).2
  end.

Fixpoint run `{Blake3} (m : Mailbox) (os : list op) : option Mailbox :=
  match os with
  | [] => Some m
  | o :: os => m ← apply_op m o; run m os
  end.

Definition deposited (os : list op) (s : Stored) : Prop :=
  exists max, ODeposit (envelope s) (deposited_at s) (stored_ttl s) max ∈ os.

(** Every queued entry satisfies [P]. *)
Definition all_stored (P : Tag -> Stored -> Prop) (m : Mailbox) : Prop :=
  map_Forall (fun t slot => Forall (P t) slot) (slots m).

Lemma all_stored_lookup P m t s :
  all_stored P m -> s ∈ default [] (slots m !! t) -> P t s.
Proof.
  intros Hall Hs. destruct (slots m !! t) eqn:E; simpl in Hs; [|by apply not_elem_of_nil in Hs].
  apply Hall in E. rewrite Forall_forall in E. by apply E.
Qed.

Lemma all_stored_keep P m now : all_stored P m -> all_stored P (sweep m now).2.
Proof.
  intros Hall t slot. simpl. rewrite lookup_omap.
  destruct (slots m !! t) as [s|] eqn:E; simpl; [|done].
  unfold keep_live. intros Hk.
  assert (slot = retain (live now) s) as -> by (destruct (retain _ _); naive_solver).
  apply Forall_forall. intros x Hx. apply elem_of_retain in Hx as [_ Hx].
  specialize (Hall _ _ E). rewrite Forall_forall in Hall. by apply Hall.
Qed.

Lemma all_stored_ack `{Blake3} P m tags d :
  all_stored P m -> all_stored P (remove_acknowledged m tags d).2.
Proof.
  intros Hall. induction tags as [|t tags IH]; simpl; [done|].
  destruct (slots m !! t) as [slot|] eqn:E; [|done].
  destruct (decide _); [done|]. unfold all_stored. simpl.
  destruct (retain _ _) as [|x l] eqn:Er; [by apply map_Forall_delete|].
  apply map_Forall_insert_2; [|done]. rewrite <- Er.
  apply Forall_forall. intros y Hy. apply elem_of_retain in Hy as [_ Hy].
  specialize (Hall _ _ E). rewrite Forall_forall in Hall. by apply Hall.
Qed.

Lemma all_stored_deposit P m e now ttl max m' :
  all_stored P m -> P (env_tag e) (mkStored e now ttl) ->
  deposit_with m e now ttl max = Some m' -> all_stored P m'.
Proof.
  unfold deposit_with, slot_deposit. intros Hall HP H.
  apply bind_Some in H as (slot' & Hs & [= <-]).
  apply bind_Some in Hs as (mid & Hmid & [= <-]).
  apply map_Forall_insert_2; [|done].
  apply Forall_app. split; [|by constructor].
  assert (Forall (P (env_tag e)) (default [] (slots m !! env_tag e))) as Hold.
  { apply Forall_forall. intros x Hx. by eapply all_stored_lookup. }
  assert (forall i l, vec_remove i (default [] (slots m !! env_tag e)) = Some l ->
    Forall (P (env_tag e)) l) as Hrm.
  { intros i l Hl. apply vec_remove_Some in Hl as (l1 & x & l2 & Heq & _ & ->).
    rewrite Heq in Hold. apply Forall_app in Hold as [? Hold].
    apply Forall_cons in Hold as [??]. by apply Forall_app. }
  destruct (_ <=? _); [|by injection Hmid as <-].
  destruct (position _ _); by eapply Hrm.
Qed.

Lemma run_app `{Blake3} m os o m' :
  run m (os ++ [o]) = Some m' <-> exists m1, run m os = Some m1 /\ apply_op m1 o = Some m'.
Proof.
  revert m. induction os as [|o' os IH]; intros m; simpl.
  - split.
    + intros Hb. apply bind_Some in Hb as (x & Hx & [= ->]). by exists m.
    + intros (m1 & [= ->] & ->). done.
  - destruct (apply_op m o'); simpl; [apply IH|]. split; [done|]. by intros (? & ? & ?).
Qed.

(** ** Properties *)

(** Over any sequence of deposits, collections, receipts and sweeps from an
    empty mailbox, no queue is left empty, and every entry under a tag is an
    envelope addressed to that tag with the time and retention of one of the
    deposits: the store never invents, re-addresses or re-dates an envelope. *)
Theorem store_holds_only_deposits `{Blake3} ttl os m :
  run (mailbox_new ttl) os = Some m ->
  store_inv m /\
  forall tag s, s ∈ default [] (slots m !! tag) ->
    env_tag (envelope s) = tag /\ deposited os s.
Proof.
  intros Hrun.
  assert (store_inv m /\
    all_stored (fun t s => env_tag (envelope s) = t /\ deposited os s) m) as [Hi Hall].
  2: { split; [done|]. intros t s Hs. exact (all_stored_lookup _ _ _ _ Hall Hs). }
  revert m Hrun. induction os as [|o os IH] using rev_ind; intros m Hrun.
  - injection Hrun as <-. split; [apply store_inv_new|apply map_Forall_empty].
  - apply run_app in Hrun as (m1 & Hm1 & Ho). destruct (IH _ Hm1) as [Hi Hall].
    assert (all_stored (fun t s => env_tag (envelope s) = t /\ deposited (os ++ [o]) s) m1)
      as Hall'.
    { intros t slot Hslot. eapply Forall_impl; [by apply Hall|].
      intros s [? [max Hin]]. split; [done|]. exists max. set_solver. }
    destruct o as [e now t max|tag now|tags d|now]; simpl in Ho.
    + split; [by eapply store_inv_deposit|].
      eapply all_stored_deposit; [done| |done]. split; [done|].
      exists max. simpl. set_solver.
    + injection Ho as <-. split; [by apply store_inv_collect|].
      unfold collect. destruct (slots m1 !! tag); simpl; [|done].
      by apply map_Forall_delete.
    + injection Ho as <-. split; [by apply store_inv_ack|by apply all_stored_ack].
    + injection Ho as <-. split; [apply store_inv_sweep|by apply all_stored_keep].
Qed.

Definition env1 : Envelope := mkEnvelope (be_arr 32 1) [z2b 1].
Definition env2 : Envelope := mkEnvelope (be_arr 32 1) [z2b 2].
Definition env3 : Envelope := mkEnvelope (be_arr 32 1) [z2b 3].

Lemma store_holds_only_deposits_witness :
  let H := Toy.blake3 in
  exists m, run (mailbox_new 10) [ODeposit env1 0 5 1; ODeposit env2 1 5 1] = Some m /\
            store_inv m /\ pending m (be_arr 32 1) 2 = 1.
Proof.
  eexists. split; [vm_compute; reflexivity|]. split.
  - eapply (store_holds_only_deposits (H := Toy.blake3) 10
      [ODeposit env1 0 5 1; ODeposit env2 1 5 1]). vm_compute. reflexivity.
  - vm_compute. reflexivity.
Defined.

(** What one deposit does.  With a ceiling of at least one it never panics;
    the envelope becomes the last live one under its tag; one older envelope is
    dropped, the oldest, and only when the ceiling is reached and nothing under
    the tag has expired; every other tag is untouched. *)
Theorem deposit_effect m e now ttl max :
  1 <= max ->
  exists m', deposit_with m e now ttl max = Some m' /\
    live_at m' (env_tag e) now =
      (if (Z.min max MAX_PER_TAG <=? pending m (env_tag e) now) &&
          forallb (live now) (default [] (slots m !! env_tag e))
       then tail (live_at m (env_tag e) now) else live_at m (env_tag e) now) ++
      (if 0 <? ttl then [mkStored e now ttl] else []) /\
    (forall t, t <> env_tag e -> slots m' !! t = slots m !! t) /\
    ttl_seconds m' = ttl_seconds m.
Proof.
  intros Hmax. unfold deposit_with, live_at.
  destruct (slot_deposit_total (default [] (slots m !! env_tag e)) (mkStored e now ttl)
    now (Z.min max MAX_PER_TAG)) as [slot' Hs]; [unfold MAX_PER_TAG; lia|].
  rewrite Hs. simpl. eexists. split; [done|]. simpl. split_and!; [| |done].
  2: { intros t Ht. by rewrite lookup_insert_ne by congruence. }
  rewrite lookup_insert_eq. simpl.
  rewrite (slot_deposit_live _ _ _ _ _ _ Hs), pending_live_at. done.
Qed.

Lemma deposit_effect_witness :
  exists m', deposit_with (mailbox_new 10) env1 3 5 1 = Some m' /\
    live_at m' (be_arr 32 1) 3 = [mkStored env1 3 5].
Proof.
  destruct (deposit_effect (mailbox_new 10) env1 3 5 1 ltac:(lia)) as (m' & Hd & Hl & _).
  exists m'. split; [done|]. etrans; [apply Hl|]. vm_compute. reflexivity.
Defined.

(** The ceiling holds while nothing under the tag has expired, and is passed
    otherwise: a full queue that still holds an expired entry gives up that entry
    and keeps every live one, so a deposit takes it one past the ceiling. *)
Theorem deposit_ceiling m e now ttl max m' :
  0 < ttl -> deposit_with m e now ttl max = Some m' ->
  let ceiling := Z.min max MAX_PER_TAG in
  let slot := default [] (slots m !! env_tag e) in
  (forallb (live now) slot = true -> pending m (env_tag e) now <= ceiling -> 1 <= ceiling ->
     pending m' (env_tag e) now <= ceiling) /\
  (forallb (live now) slot = false ->
     pending m' (env_tag e) now = pending m (env_tag e) now + 1).
Proof.
  intros Httl Hd ceiling slot. unfold deposit_with in Hd.
  apply bind_Some in Hd as (slot' & Hs & [= <-]).
  apply slot_deposit_live in Hs. fold ceiling slot in Hs.
  assert ((0 <? ttl) = true) as Ht by lia. rewrite Ht in Hs.
  rewrite !pending_live_at. unfold live_at. simpl. rewrite lookup_insert_eq. simpl.
  fold slot. rewrite Hs, zlen_app, zlen_cons, zlen_nil.
  split; intros Hall; rewrite Hall; [|by rewrite andb_false_r].
  intros Hle Hc. rewrite andb_true_r. case_cmp; [|lia].
  destruct (retain (live now) slot); simpl; rewrite ?zlen_nil, ?zlen_cons in *; lia.
Qed.

(** A queue with one expired and one live entry, at a ceiling of one. *)
Definition overfull_before : Mailbox :=
  mkMailbox {[be_arr 32 1 := [mkStored env1 0 1; mkStored env2 10 100]]} 10.
Definition overfull_after : Mailbox :=
  mkMailbox {[be_arr 32 1 := [mkStored env2 10 100; mkStored env3 10 100]]} 10.

Lemma overfull_step : deposit_with overfull_before env3 10 100 1 = Some overfull_after.
Proof. vm_compute. reflexivity. Qed.

Lemma deposit_ceiling_witness :
  deposit_with overfull_before env3 10 100 1 = Some overfull_after /\
  pending overfull_before (be_arr 32 1) 10 = 1 /\
  pending overfull_after (be_arr 32 1) 10 = 1 + 1.
Proof.
  split; [exact overfull_step|]. split; [vm_compute; reflexivity|].
  apply (proj2 (deposit_ceiling overfull_before env3 10 100 1 overfull_after
    ltac:(lia) overfull_step)).
  vm_compute. reflexivity.
Defined.

(** Collection hands over exactly what is live under the tag, in the order it
    was deposited, and forgets the tag: a second collection and a peek find
    nothing, and every other tag is as it was. *)
Theorem collect_once m tag now now' :
  let '(es, m') := collect m tag now in
  es = envelope <$> live_at m tag now /\
  (collect m' tag now').1 = [] /\
  peek_many m' [tag] now' = [] /\
  (forall t, t <> tag -> slots m' !! t = slots m !! t) /\
  mailbox_len m' = mailbox_len m - zlen (default [] (slots m !! tag)).
Proof.
  unfold collect, live_at, mailbox_len, peek_many.
  destruct (slots m !! tag) as [slot|] eqn:E; simpl.
  - rewrite lookup_delete_eq. simpl. split_and!; try done.
    + intros t Ht. by rewrite lookup_delete_ne by congruence.
    + rewrite (map_sum_delete zlen (slots m) tag slot E). lia.
  - rewrite E, zlen_nil. simpl. split_and!; try done. lia.
Qed.

Lemma peek_many_app m t1 t2 now :
  peek_many m (t1 ++ t2) now = peek_many m t1 now ++ peek_many m t2 now.
Proof.
  unfold peek_many. rewrite omap_app. apply bind_app.
Qed.

Lemma peek_one m tag now : peek_many m [tag] now = envelope <$> live_at m tag now.
Proof.
  unfold peek_many, live_at. simpl. destruct (slots m !! tag); simpl; [|done].
  apply app_nil_r.
Qed.

Lemma peek_many_ext m m' tags now :
  (forall t, t ∈ tags -> slots m' !! t = slots m !! t) ->
  peek_many m' tags now = peek_many m tags now.
Proof.
  intros H. unfold peek_many. f_equal. apply list_omap_ext, Forall_Forall2_diag.
  apply Forall_forall. done.
Qed.

(** Peeking across a polling window shows exactly what collecting the window
    would hand over, tag by tag, provided no tag is asked for twice; so delivery
    followed by receipts and the destructive collection agree. *)
Theorem peek_is_collect_many m tags now :
  NoDup tags -> (collect_many m tags now).1 = peek_many m tags now.
Proof.
  intros Hnd. revert m. induction Hnd as [|t tags Hnin _ IH]; intros m; simpl; [done|].
  pose proof (collect_once m t now now) as Hc.
  destruct (collect m t now) as [es m'] eqn:Ec. destruct Hc as (-> & _ & _ & Hother & _).
  destruct (collect_many m' tags now) as [rest m''] eqn:Er. simpl.
  change (t :: tags) with ([t] ++ tags). rewrite peek_many_app, peek_one. f_equal.
  replace rest with (collect_many m' tags now).1 by (by rewrite Er).
  rewrite IH. apply peek_many_ext. intros u Hu. apply Hother. by intros ->.
Qed.

Lemma peek_is_collect_many_witness :
  NoDup [be_arr 32 1; be_arr 32 2] /\
  (collect_many overfull_before [be_arr 32 1; be_arr 32 2] 10).1 =
  peek_many overfull_before [be_arr 32 1; be_arr 32 2] 10.
Proof.
  assert (NoDup [be_arr 32 1; be_arr 32 2]) as Hnd by (refine (bool_decide_unpack _ _); vm_compute; exact I).
  split; [exact Hnd|]. exact (peek_is_collect_many overfull_before _ 10 Hnd).
Defined.

Lemma live_at_sweep m tag now : live_at (sweep m now).2 tag now = live_at m tag now.
Proof.
  unfold live_at, sweep. simpl. rewrite lookup_omap.
  destruct (slots m !! tag) as [slot|]; simpl; [|done].
  unfold keep_live. destruct (retain (live now) slot) eqn:E; simpl; [done|].
  by rewrite <- E, retain_live_idemp.
Qed.

(** A sweep removes exactly what has expired.  The number it reports is the
    drop in the total, what stays is live, no queue is left empty, and nothing
    that was waiting under any tag is lost. *)
Theorem sweep_exact m now :
  let '(n, m') := sweep m now in
  mailbox_len m' = mailbox_len m - n /\ 0 <= n /\
  (forall tag, live_at m' tag now = live_at m tag now) /\
  all_stored (fun _ s => live now s = true) m' /\ store_inv m'.
Proof.
  destruct (sweep m now) as [n m'] eqn:E. pose proof (store_inv_sweep m now) as Hinv.
  pose proof (fun tag => live_at_sweep m tag now) as Hlive. rewrite E in Hinv, Hlive.
  unfold sweep in E. injection E as <- <-. unfold mailbox_len. simpl in *.
  split_and!; [| |done| |done].
  - rewrite (map_sum_omap zlen (keep_live now)
      (fun slot => zlen slot - zlen (retain (live now) slot)) (slots m)); [lia|].
    intros slot. unfold keep_live. destruct (retain (live now) slot); simpl;
      rewrite ?zlen_nil; lia.
  - apply map_sum_nonneg. intros _ slot _. unfold zlen.
    pose proof (length_retain_le (live now) slot). lia.
  - intros t slot. simpl. rewrite lookup_omap. destruct (slots m !! t) as [s|]; [|done].
    simpl. unfold keep_live. intros Hk.
    assert (slot = retain (live now) s) as -> by (destruct (retain _ _); naive_solver).
    apply Forall_forall. intros x Hx. by apply elem_of_retain in Hx as [? _].
Qed.

(** A receipt removes exactly the acknowledged envelope.  When some polled tag
    holds the digest, the answer is true, the first such tag loses every entry
    with that digest and nothing else, and all other tags are unchanged;
    otherwise the answer is false and the store is unchanged. *)
Theorem ack_removes_only_named `{Blake3} m tags d :
  let holds t := existsb (fun s => bool_decide (digest (envelope s) = d))
                   (default [] (slots m !! t)) in
  let '(found, m') := remove_acknowledged m tags d in
  if found then
    exists before t after, tags = before ++ t :: after /\
      forallb (fun u => negb (holds u)) before = true /\ holds t = true /\
      default [] (slots m' !! t) =
        retain (fun s => negb (bool_decide (digest (envelope s) = d)))
          (default [] (slots m !! t)) /\
      forall u, u <> t -> slots m' !! u = slots m !! u
  else m' = m /\ forallb (fun u => negb (holds u)) tags = true.
Proof.
  intros holds.
  assert (forall t, holds t = false <->
    length (retain (fun s => negb (bool_decide (digest (envelope s) = d)))
      (default [] (slots m !! t))) = length (default [] (slots m !! t))) as Hholds.
  { intros t. unfold holds. induction (default [] (slots m !! t)) as [|s l IH]; simpl; [done|].
    unfold retain in *. rewrite filter_cons. 
    pose proof (length_retain_le (fun s => negb (bool_decide (digest (envelope s) = d))) l).
    unfold retain in *. destruct (bool_decide _); simpl; [split; [done|lia]|].
    rewrite IH. lia. }
  induction tags as [|t tags IH]; simpl; [done|].
  destruct (slots m !! t) as [slot|] eqn:E.
  - specialize (Hholds t) as Ht. rewrite E in Ht. simpl in Ht. destruct (decide _) as [Hd|Hd].
    + apply Ht in Hd. rewrite Hd. destruct (remove_acknowledged m tags d) as [[] m'].
      * destruct IH as (b & u & a & -> & Hb & Hu). exists (t :: b), u, a. simpl.
        rewrite Hd. done.
      * done.
    + assert (holds t = true) as Hd' by (destruct (holds t); [done|by destruct Hd; apply Ht]).
      exists [], t, tags. split_and!; try done; simpl.
      * rewrite E. simpl. destruct (retain _ slot); [by rewrite lookup_delete_eq|].
        by rewrite lookup_insert_eq.
      * intros u Hu. destruct (retain _ slot);
          [by rewrite lookup_delete_ne by congruence|by rewrite lookup_insert_ne by congruence].
  - assert (holds t = false) as Hd by (unfold holds; by rewrite E). rewrite Hd.
    destruct (remove_acknowledged m tags d) as [[] m'].
    + destruct IH as (b & u & a & -> & Hb & Hu). exists (t :: b), u, a. simpl.
      rewrite Hd. done.
    + done.
Qed.

(** ** What can take an entry out of a queue *)

Definition entries (m : Mailbox) (t : Tag) : list Stored := default [] (slots m !! t).

Lemma ack_keeps `{Blake3} m tags d t x :
  x ∈ entries m t -> (t ∉ tags \/ digest (envelope x) <> d) ->
  x ∈ entries (remove_acknowledged m tags d).2 t.
Proof.
  intros Hx Hor. induction tags as [|u tags IH]; simpl; [done|].
  assert (x ∈ entries (remove_acknowledged m tags d).2 t) as Hrest
    by (apply IH; destruct Hor; [left; set_solver|by right]).
  destruct (slots m !! u) as [slot|] eqn:E; [|done]. destruct (decide _) as [|Hd]; [done|].
  unfold entries in *. simpl. destruct (decide (u = t)) as [->|Hne].
  - destruct Hor as [Hn|Hne]; [set_solver|]. rewrite E in Hx. simpl in Hx.
    assert (x ∈ retain (fun s => negb (bool_decide (digest (envelope s) = d))) slot) as Hin
      by (apply elem_of_retain; split; [by rewrite bool_decide_eq_false_2|done]).
    destruct (retain _ slot) as [|y l]; [by apply not_elem_of_nil in Hin|].
    by rewrite lookup_insert_eq.
  - destruct (retain _ slot); [by rewrite lookup_delete_ne|by rewrite lookup_insert_ne].
Qed.

Lemma collect_keeps m tag now t x :
  x ∈ entries m t -> t <> tag -> x ∈ entries (collect m tag now).2 t.
Proof.
  intros Hx Hne. unfold collect. destruct (slots m !! tag); simpl; [|done].
  unfold entries in *. simpl. by rewrite lookup_delete_ne.
Qed.

Lemma sweep_keeps m now t x :
  x ∈ entries m t -> is_expired x now = false -> x ∈ entries (sweep m now).2 t.
Proof.
  unfold entries. simpl. rewrite lookup_omap. intros Hx He.
  destruct (slots m !! t) as [slot|]; simpl in *; [|done]. unfold keep_live.
  assert (x ∈ retain (live now) slot) as Hin
    by (apply elem_of_retain; split; [unfold live; by rewrite He|done]).
  destruct (retain (live now) slot); [by apply not_elem_of_nil in Hin|done].
Qed.

Lemma vec_remove_keeps {A} i (l l' : list A) x y :
  vec_remove i l = Some l' -> l !! i = Some y -> x ∈ l -> x = y \/ x ∈ l'.
Proof.
  intros (l1 & z & l2 & -> & <- & ->)%vec_remove_Some Hy Hx.
  rewrite list_lookup_middle in Hy by done. injection Hy as <-.
  rewrite !elem_of_app, elem_of_cons in *. naive_solver.
Qed.

Lemma deposit_keeps m e now ttl max m' t x :
  deposit_with m e now ttl max = Some m' -> x ∈ entries m t ->
  x ∈ entries m' t \/
  t = env_tag e /\ (is_expired x now = true \/ Z.min max MAX_PER_TAG <= pending m t now).
Proof.
  unfold deposit_with. intros (slot & Hs & [= <-])%bind_Some Hx. unfold entries in *. simpl.
  destruct (decide (t = env_tag e)) as [->|Hne]; [|left; by rewrite lookup_insert_ne].
  rewrite lookup_insert_eq. simpl. unfold slot_deposit in Hs.
  apply bind_Some in Hs as (mid & Hm & [= <-]). setoid_rewrite elem_of_app.
  unfold pending. destruct (Z.leb_spec (Z.min max MAX_PER_TAG)
    (zlen (retain (live now) (default [] (slots m !! env_tag e))))) as [Hc|Hc].
  2: { injection Hm as <-. auto. }
  destruct (slots m !! env_tag e) as [slot|]; [|by apply not_elem_of_nil in Hx]. simpl in *.
  destruct (position _ slot) as [dead|] eqn:Ep.
  - pose proof (position_Some _ _ _ Ep) as (l1 & y & l2 & -> & Hl & Hy & _). simpl in Hy.
    destruct (vec_remove_keeps _ _ _ x y Hm) as [->|?]; auto.
    by rewrite <- Hl, list_lookup_middle.
  - right. auto.
Qed.

(** ** Snapshots *)


Lemma foldl_restore_lookup from_bytes now l (enc : list Stored -> bytes) acc t :
  (forall slot, from_bytes (enc slot) = Some slot) ->
  NoDup (l.*1) ->
  slots (foldl (restore_entry from_bytes now) acc ((fun p => (p.1, enc p.2)) <$> l)) !! t =
  match (list_to_map l : gmap Tag (list Stored)) !! t ≫= keep_live now with
  | Some kept => Some kept
  | None => slots acc !! t
  end.
Proof.
  intros Henc. revert acc. induction l as [|[u slot] l IH]; intros acc Hnd; csimpl.
  - by rewrite lookup_empty.
  - apply NoDup_cons in Hnd as [Hnin Hnd]. rewrite IH by done.
    destruct (decide (u = t)) as [->|Hne].
    + rewrite lookup_insert_eq, (not_elem_of_list_to_map_1 l t) by done. simpl.
      unfold restore_entry. simpl. rewrite Henc.
      destruct (keep_live now slot); simpl; [by rewrite lookup_insert_eq|done].
    + rewrite lookup_insert_ne by done. destruct (_ ≫= _); [done|].
      unfold restore_entry. simpl. rewrite Henc.
      destruct (keep_live now slot); simpl; [by rewrite lookup_insert_ne|done].
Qed.

(** A mailbox written down and read back holds what a sweep would have left:
    the same live queues under the same tags, in the same order, and nothing
    expired; whatever the postcard encoding is, provided it decodes what it
    encoded. *)
Theorem restore_snapshot to_allocvec from_bytes m ttl now :
  (forall slot, exists b, to_allocvec slot = Some b /\ from_bytes b = Some slot) ->
  restore from_bytes ttl (snapshot to_allocvec m) now =
  mkMailbox (slots (sweep m now).2) ttl.
Proof.
  intros Hcodec.
  set (enc := fun slot => default [] (to_allocvec slot)).
  assert (forall slot, to_allocvec slot = Some (enc slot)) as Hto.
  { intros slot. destruct (Hcodec slot) as (b & Hb & _). unfold enc. by rewrite Hb. }
  assert (forall slot, from_bytes (enc slot) = Some slot) as Hfrom.
  { intros slot. destruct (Hcodec slot) as (b & Hb & Hf). unfold enc. by rewrite Hb. }
  assert (snapshot to_allocvec m = (fun p => (p.1, enc p.2)) <$> map_to_list (slots m)) as ->.
  { unfold snapshot. induction (map_to_list (slots m)) as [|[t slot] l IH]; csimpl; [done|].
    rewrite Hto. csimpl. by rewrite IH. }
  unfold restore.
  assert (forall l acc, ttl_seconds (foldl (restore_entry from_bytes now) acc l) =
    ttl_seconds acc) as Httl.
  { induction l as [|x l IH]; intros acc; simpl; [done|]. rewrite IH.
    unfold restore_entry. destruct (from_bytes _); [|done]. by destruct (keep_live _ _). }
  destruct (foldl _ _ _) as [sl tt] eqn:E.
  f_equal.
  - apply map_eq. intros t.
    replace sl with (slots (mkMailbox sl tt)) by done. rewrite <- E.
    rewrite (foldl_restore_lookup _ _ _ enc) by (try apply NoDup_fst_map_to_list; done).
    rewrite list_to_map_to_list. simpl. rewrite lookup_empty, lookup_omap.
    by destruct (slots m !! t ≫= _).
  - replace tt with (ttl_seconds (mkMailbox sl tt)) by done. rewrite <- E. apply Httl.
Qed.

#[export] Instance Stored_eq_dec : EqDecision Stored.
Proof. solve_decision. Defined.

#[export] Instance Stored_countable : Countable Stored :=
  inj_countable' (fun s => (env_tag (envelope s), payload (envelope s),
                            deposited_at s, stored_ttl s))
    (fun '(t, p, at', ttl) => mkStored (mkEnvelope t p) at' ttl)
    (fun '(mkStored (mkEnvelope t p) a l) => eq_refl).

(** A codec that meets the law, for the witness. *)
Definition unary_encode (slot : list Stored) : option bytes :=
  Some (replicate (Pos.to_nat (encode slot)) zero_byte).
Definition unary_decode (b : bytes) : option (list Stored) :=
  decode (Pos.of_nat (length b)).

Lemma restore_snapshot_witness :
  restore unary_decode 10 (snapshot unary_encode overfull_before) 10 =
  mkMailbox (slots (sweep overfull_before 10).2) 10.
Proof.
  apply (restore_snapshot unary_encode unary_decode overfull_before 10 10).
  intros slot. eexists. split; [reflexivity|].
  unfold unary_decode. rewrite length_replicate, Pos2Nat.id. apply decode_encode.
Defined.
