(* ===== verification/MediaFrame.v ===== *)
(** * Frame protection for calls

    [crates/rotelyx-media/src/lib.rs].  One key per sender per call; a frame is a
    short authenticated header (sender and counter) and a sealed, padded body; the
    receiver keeps a 256-frame replay window in four 64-bit words. *)

From S2P Require Import Prelude Crypto.

(** ** Constants and errors *)

Definition KEY_INFO : bytes := String.list_byte_of_string "rotelyx media key v1".
Definition SALT_INFO : bytes := String.list_byte_of_string "rotelyx media salt v1".
Definition TAG_LEN : Z := 16.
Definition NONCE_LEN : nat := 12.
Definition REPLAY_WINDOW : Z := 256.
Definition REPLAY_WORDS : nat := 4.
Definition MAX_SENDERS : Z := 32.
Definition MIN_HEADER_LEN : Z := 2.
Definition PAD_MARKER_LEN : Z := 1.
Definition PAD_MARKER : byte := z2b 128.

Inductive MediaError :=
| Truncated
| MediaBadTag
| WrongSender (expected got : byte)
| Replay (counter : Z)
| CounterExhausted
| SenderOutOfRange (id : byte)
| CallBindingTooShort (min got : Z).

#[export] Instance MediaError_eq_dec : EqDecision MediaError.
Proof. solve_decision. Defined.

(** ** Call bindings and sender keys *)

Definition CALL_BINDING_MIN_BYTES : Z := 8.

Definition call_binding_new (b : bytes) : Result bytes MediaError :=
  if zlen b <? CALL_BINDING_MIN_BYTES
  then Err (CallBindingTooShort CALL_BINDING_MIN_BYTES (zlen b)) else Ok b.

Record SenderKeys := mkSenderKeys {
  sk_id : byte;
  sk_key : arr 32;
  sk_salt : arr NONCE_LEN;
}.

Definition derive `{Hkdf} (base : arr 32) (sender : byte) (call : bytes) : SenderKeys :=
  mkSenderKeys sender
    (hkdf_expand [sender] (ab base) (KEY_INFO ++ call) 32)
    (hkdf_expand [sender] (ab base) (SALT_INFO ++ call) NONCE_LEN).

Definition xor_byte (a b : byte) : byte := z2b (Z.lxor (b2z a) (b2z b)).

(** The salt with its last eight bytes exclusive-ored with the counter. *)
Definition nonce (k : SenderKeys) (counter : Z) : bytes :=
  take (NONCE_LEN - 8) (ab (sk_salt k)) ++
  zip_with xor_byte (drop (NONCE_LEN - 8) (ab (sk_salt k))) (be_bytes 8 counter).

(** ** Headers *)

Definition header (k : SenderKeys) (counter : Z) : bytes :=
  let significant := be_bytes 8 counter in
  let first :=
    default (length significant - 1)%nat
      (position (fun b => negb (bool_decide (b = zero_byte))) significant) in
  let b := drop first significant in
  z2b (Z.lor (Z.shiftl (zlen b - 1) 5) (b2z (sk_id k))) :: b.

Definition push_counter (counter : Z) (b : byte) : Z :=
  Z.lor (wrap64 (Z.shiftl counter 8)) (b2z b).

Definition parse_header (frame : bytes) : Result (byte * Z * Z) MediaError :=
  if zlen frame <? MIN_HEADER_LEN then Err Truncated
  else
    match frame with
    | [] => Err Truncated
    | config :: rest =>
        let sender := z2b (Z.land (b2z config) 31) in
        let counter_len := Z.shiftr (b2z config) 5 + 1 in
        let header_len := 1 + counter_len in
        if zlen frame <? header_len then Err Truncated
        else
          let counter := foldl push_counter 0 (take (Z.to_nat counter_len) rest) in
          Ok (sender, counter, header_len)
    end.

Definition claimed_sender (frame : bytes) : Result byte MediaError :=
  let? p := parse_header frame in Ok p.1.1.

(** ** Padding *)

Definition pad (frame : bytes) (to : option Z) : bytes :=
  let target := Z.max (default 0 to) (zlen frame + PAD_MARKER_LEN) in
  let out := frame ++ [PAD_MARKER] in
  out ++ replicate (Z.to_nat target - length out) zero_byte.

Definition unpad (plain : bytes) : Result bytes MediaError :=
  match rposition (fun b => negb (bool_decide (b = zero_byte))) plain with
  | None => Err Truncated
  | Some last =>
      if decide (plain !! last = Some PAD_MARKER) then Ok (take last plain)
      else Err Truncated
  end.

(** ** The sender *)

Record Sender := mkSender {
  s_keys : SenderKeys;
  s_counter : Z;
  s_exhausted : bool;
  s_pad_to : option Z;
}.

Definition sender_new (k : SenderKeys) : Result Sender MediaError :=
  if MAX_SENDERS <=? b2z (sk_id k) then Err (SenderOutOfRange (sk_id k))
  else Ok (mkSender k 0 false None).

Definition frames_sent (s : Sender) : Z := s_counter s.

Definition overhead (s : Sender) : Z :=
  zlen (header (s_keys s) (s_counter s)) + TAG_LEN + PAD_MARKER_LEN.

Definition pad_to (s : Sender) (n : option Z) : Sender :=
  mkSender (s_keys s) (s_counter s) (s_exhausted s) n.

Definition payload_budget (s : Sender) (datagram_bytes : Z) : Z :=
  sat_sub datagram_bytes (overhead s).

(** The counter is spent before the frame is encrypted. *)
Definition advance (s : Sender) : Sender :=
  match checked_add64 (s_counter s) 1 with
  | Some next => mkSender (s_keys s) next (s_exhausted s) (s_pad_to s)
  | None => mkSender (s_keys s) (s_counter s) true (s_pad_to s)
  end.

Definition protect `{CC : Aead} (s : Sender) (frame : bytes)
    : Result bytes MediaError * Sender :=
  if s_exhausted s then (Err CounterExhausted, s)
  else
    let counter := s_counter s in
    let s' := advance s in
    let h := header (s_keys s) counter in
    let padded := pad frame (s_pad_to s) in
    match aead_seal (ab (sk_key (s_keys s))) (nonce (s_keys s) counter) h padded with
    | None => (Err MediaBadTag, s')
    | Some sealed => (Ok (h ++ sealed), s')
    end.

(** ** The receiver *)

Record Receiver := mkReceiver {
  r_keys : SenderKeys;
  highest : Z;
  seen : list Z;
  started : bool;
}.

Definition receiver_new (k : SenderKeys) : Result Receiver MediaError :=
  if MAX_SENDERS <=? b2z (sk_id k) then Err (SenderOutOfRange (sk_id k))
  else Ok (mkReceiver k 0 (replicate REPLAY_WORDS 0) false).

Definition highest_accepted (r : Receiver) : option Z :=
  if started r then Some (highest r) else None.

Definition word (ws : list Z) (i : Z) : Z := default 0 (ws !! Z.to_nat i).

Definition was_seen (r : Receiver) (behind : Z) : bool :=
  let bit := behind - 1 in
  negb (Z.land (word (seen r) (bit / 64)) (Z.shiftl 1 (bit mod 64)) =? 0).

Definition mark_word (ws : list Z) (behind : Z) : list Z :=
  let bit := behind - 1 in
  let i := Z.to_nat (bit / 64) in
  <[i := Z.lor (word ws (bit / 64)) (Z.shiftl 1 (bit mod 64))]> ws.

Definition mark_seen (r : Receiver) (behind : Z) : Receiver :=
  mkReceiver (r_keys r) (highest r) (mark_word (seen r) behind) (started r).

Definition check_replay (r : Receiver) (counter : Z) : Result unit MediaError :=
  if negb (started r) then Ok tt
  else if highest r <? counter then Ok tt
  else
    let behind := highest r - counter in
    if REPLAY_WINDOW <=? behind then Err (Replay counter)
    else if (behind =? 0) || was_seen r behind then Err (Replay counter)
    else Ok tt.

(** One turn of the in-place shift: word [i] reads words at or below itself. *)
Definition slide_word (words bits : Z) (ws : list Z) (i : Z) : list Z :=
  let value := if words <=? i then word ws (i - words) else 0 in
  let value :=
    if 0 <? bits then
      let value := wrap64 (Z.shiftl value bits) in
      if words <? i
      then Z.lor value (Z.shiftr (word ws (i - words - 1)) (64 - bits))
      else value
    else value in
  <[Z.to_nat i := value]> ws.

Definition slide (r : Receiver) (step : Z) : Receiver :=
  if REPLAY_WINDOW <=? step then
    mkReceiver (r_keys r) (highest r) (replicate REPLAY_WORDS 0) (started r)
  else
    let words := step / 64 in
    let bits := step mod 64 in
    let ws := foldl (slide_word words bits) (seen r) [3; 2; 1; 0] in
    mark_seen (mkReceiver (r_keys r) (highest r) ws (started r)) step.

Definition record (r : Receiver) (counter : Z) : Receiver :=
  if negb (started r) then
    mkReceiver (r_keys r) counter (replicate REPLAY_WORDS 0) true
  else if highest r <? counter then
    let r' := slide r (counter - highest r) in
    mkReceiver (r_keys r') counter (seen r') (started r')
  else
    let behind := highest r - counter in
    if (1 <=? behind) && (behind <? REPLAY_WINDOW) then mark_seen r behind else r.

Definition unprotect `{CC : Aead} (r : Receiver) (frame : bytes)
    : Result bytes MediaError * Receiver :=
  match parse_header frame with
  | Err e => (Err e, r)
  | Ok (sender, counter, header_len) =>
      let h := take (Z.to_nat header_len) frame in
      let body := drop (Z.to_nat header_len) frame in
      if negb (bool_decide (sender = sk_id (r_keys r)))
      then (Err (WrongSender (sk_id (r_keys r)) sender), r)
      else
        match check_replay r counter with
        | Err e => (Err e, r)
        | Ok _ =>
            match aead_open (ab (sk_key (r_keys r))) (nonce (r_keys r) counter) h body with
            | None => (Err MediaBadTag, r)
            | Some plain => (unpad plain, record r counter)
            end
        end
  end.

(** ** Header lemmas *)

Lemma foldl_push_counter acc l :
  0 <= acc -> acc * 256 ^ zlen l + be_value l <= u64_max ->
  foldl push_counter acc l = acc * 256 ^ zlen l + be_value l.
Proof.
  revert acc. induction l as [|b l IH]; intros acc Hacc Hmax.
  - change (be_value []) with 0. rewrite zlen_nil. simpl. lia.
  - cbn [foldl]. rewrite be_value_cons, zlen_cons in *.
    change (Z.of_nat (length l)) with (zlen l) in *.
    rewrite Z.pow_add_r, Z.pow_1_r in * by (pose proof (zlen_nonneg l); lia).
    pose proof (b2z_range b). pose proof (be_value_range l).
    assert (0 < 256 ^ zlen l) by (apply Z.pow_pos_nonneg; [lia|apply zlen_nonneg]).
    assert (push_counter acc b = acc * 256 + b2z b) as ->.
    { unfold push_counter, wrap64. rewrite Z.shiftl_mul_pow2 by lia.
      unfold u64_max in *. rewrite Z.mod_small by nia.
      rewrite <- Z.shiftl_mul_pow2 by lia. rewrite lor_shiftl; lia. }
    rewrite IH; unfold u64_max in *; nia.
Qed.

(** The bytes a header carries: between one and eight, with the counter's value. *)
Lemma header_bytes k c :
  u64 c -> exists b, header k c =
      z2b (Z.lor (Z.shiftl (zlen b - 1) 5) (b2z (sk_id k))) :: b /\
    1 <= zlen b <= 8 /\ be_value b = c.
Proof.
  intros Hc. unfold header.
  set (sig := be_bytes 8 c). assert (length sig = 8%nat) as Hlen by apply length_be_bytes.
  assert (be_value sig = c) as Hval by (apply be_value_bytes_small, u64_pow, Hc).
  assert (exists pre b, sig = pre ++ b /\ be_value pre = 0 /\ (1 <= length b)%nat /\
    drop (default (length sig - 1)%nat
      (position (fun b => negb (bool_decide (b = zero_byte))) sig)) sig = b)
    as (pre & b & Hsig & Hpre & Hb & ->).
  { destruct (position _ sig) as [i|] eqn:E; simpl.
    - apply position_Some in E as (l1 & x & l2 & -> & <- & _ & Hall).
      exists l1, (x :: l2). split_and!; [done| |simpl; lia|apply drop_app_length].
      clear -Hall. induction Hall as [|y l Hy _ IH]; [done|].
      rewrite be_value_cons, IH. apply negb_false_iff, bool_decide_eq_true in Hy as ->.
      done.
    - apply position_None in E.
      replace (length sig - 1)%nat with 7%nat by (rewrite Hlen; done).
      exists (take 7 sig), (drop 7 sig).
      split_and!; [by rewrite take_drop| |rewrite length_drop; lia|done].
      assert (Forall (fun y => y = zero_byte) (take 7 sig)) as Hz.
      { apply Forall_take. eapply Forall_impl; [done|]. simpl. intros y Hy.
        by apply negb_false_iff, bool_decide_eq_true in Hy. }
      induction Hz as [|y l -> _ IH]; [done|]. rewrite be_value_cons, IH. done. }
  exists b. split; [done|].
  apply (f_equal length) in Hsig as Hl. rewrite length_app in Hl. unfold zlen. split; [lia|].
  rewrite <- Hval, Hsig, be_value_app, Hpre. lia.
Qed.

Lemma config_byte n id :
  0 <= n <= 7 -> 0 <= id < 32 ->
  b2z (z2b (Z.lor (Z.shiftl n 5) id)) = n * 32 + id.
Proof.
  intros Hn Hid. rewrite lor_shiftl by lia. apply b2z_z2b_small. lia.
Qed.

Lemma parse_header_header k c body :
  u64 c -> b2z (sk_id k) < MAX_SENDERS ->
  parse_header (header k c ++ body) = Ok (sk_id k, c, zlen (header k c)) /\
  2 <= zlen (header k c) <= 9.
Proof.
  intros Hc Hid. unfold MAX_SENDERS in Hid. pose proof (b2z_range (sk_id k)).
  destruct (header_bytes k c Hc) as (b & -> & Hb & Hval).
  unfold parse_header. rewrite <- app_comm_cons, !zlen_cons, zlen_app.
  pose proof (zlen_nonneg body). unfold MIN_HEADER_LEN. case_cmp; [lia|].
  rewrite config_byte by lia.
  change 31 with (Z.ones 5). rewrite Z.land_ones, Z.shiftr_div_pow2 by lia.
  change (2 ^ 5) with 32.
  assert (((zlen b - 1) * 32 + b2z (sk_id k)) mod 32 = b2z (sk_id k)) as ->
    by (Z.div_mod_to_equations; lia).
  assert (((zlen b - 1) * 32 + b2z (sk_id k)) / 32 = zlen b - 1) as ->
    by (Z.div_mod_to_equations; lia).
  case_cmp; [lia|]. rewrite z2b_b2z.
  assert (take (Z.to_nat (zlen b - 1 + 1)) (b ++ body) = b) as ->.
  { apply take_app_length'. unfold zlen. lia. }
  unfold u64 in Hc. rewrite foldl_push_counter, Hval by lia.
  split; [|lia]. repeat f_equal; lia.
Qed.

(** ** Padding and nonces *)

Lemma zlen_pad frame to :
  zlen (pad frame to) = Z.max (default 0 to) (zlen frame + PAD_MARKER_LEN).
Proof.
  unfold pad, PAD_MARKER_LEN. pose proof (zlen_nonneg frame). unfold zlen in *.
  rewrite !length_app, length_replicate. simpl. lia.
Qed.

Lemma unpad_pad frame to : unpad (pad frame to) = Ok frame.
Proof.
  unfold unpad, pad. rewrite <- app_assoc. simpl.
  rewrite rposition_app_one; [|done|by apply Forall_replicate].
  rewrite list_lookup_middle, decide_True by done. by rewrite take_app_length.
Qed.

Lemma xor_byte_inj s a b : xor_byte s a = xor_byte s b -> a = b.
Proof.
  unfold xor_byte. intros H. apply (f_equal b2z) in H.
  pose proof (b2z_range s). pose proof (b2z_range a). pose proof (b2z_range b).
  rewrite !b2z_z2b_small in H by (apply (lxor_range _ _ 8); lia).
  rewrite !(Z.lxor_comm (b2z s)) in H. by apply lxor_cancel_r, b2z_inj in H.
Qed.

Lemma zip_xor_inj s a b :
  length a = length s -> length b = length s ->
  zip_with xor_byte s a = zip_with xor_byte s b -> a = b.
Proof.
  revert a b. induction s as [|x s IH]; intros [|y a] [|z b] Ha Hb; try done.
  simpl. intros [= Hx Hs]. f_equal; [by eapply xor_byte_inj|].
  apply IH; simpl in *; congruence || lia.
Qed.

Lemma nonce_inj k c d : u64 c -> u64 d -> nonce k c = nonce k d -> c = d.
Proof.
  intros Hc Hd H. unfold nonce in H. apply app_inv_head, zip_xor_inj in H.
  - apply be_bytes_inj in H; by try apply u64_pow.
  - rewrite length_be_bytes, length_drop, length_ab. done.
  - rewrite length_be_bytes, length_drop, length_ab. done.
Qed.

(** ** The replay bitmap, bit by bit *)

Definition bit (ws : list Z) (n : Z) : bool := Z.testbit (word ws (n / 64)) (n mod 64).

Definition words_ok (ws : list Z) : Prop :=
  length ws = REPLAY_WORDS /\ Forall u64 ws.

Lemma words_ok_zero : words_ok (replicate REPLAY_WORDS 0).
Proof. split; [done|]. apply Forall_replicate. int_lia. Qed.

Lemma bit_zero n : bit (replicate REPLAY_WORDS 0) n = false.
Proof.
  unfold bit, word. destruct (_ !! _) as [w|] eqn:E; simpl; [|apply Z.bits_0].
  apply lookup_replicate in E as [-> _]. apply Z.bits_0.
Qed.

Lemma was_seen_bit r behind : 1 <= behind -> was_seen r behind = bit (seen r) (behind - 1).
Proof.
  intros. unfold was_seen. apply land_bit, Z.mod_pos_bound. lia.
Qed.

Lemma u64_lor a b : u64 a -> u64 b -> u64 (Z.lor a b).
Proof.
  rewrite !u64_pow. change (256 ^ Z.of_nat 8) with (2 ^ 64). intros Ha Hb.
  split; [apply Z.lor_nonneg; lia|].
  destruct (decide (Z.lor a b = 0)) as [->|Hne]; [lia|].
  apply Z.log2_lt_pow2; [pose proof (Z.lor_nonneg a b); lia|].
  rewrite Z.log2_lor by lia. apply Z.max_lub_lt.
  - destruct (decide (a = 0)) as [->|]; [done|]. apply Z.log2_lt_pow2; lia.
  - destruct (decide (b = 0)) as [->|]; [done|]. apply Z.log2_lt_pow2; lia.
Qed.

Lemma u64_bit n : 0 <= n < 64 -> u64 (Z.shiftl 1 n).
Proof.
  intros Hn. rewrite Z.shiftl_1_l. rewrite u64_pow.
  change (256 ^ Z.of_nat 8) with (2 ^ 64). split; [lia|]. apply Z.pow_lt_mono_r; lia.
Qed.

Lemma word_u64 ws i : words_ok ws -> u64 (word ws i).
Proof.
  intros [_ Hall]. unfold word. destruct (ws !! _) eqn:E; simpl; [|int_lia].
  rewrite Forall_lookup in Hall. by eapply Hall.
Qed.

Lemma words_ok_insert ws i v : words_ok ws -> u64 v -> words_ok (<[i := v]> ws).
Proof.
  intros [Hl Hall] Hv. split; [by rewrite length_insert|].
  by apply Forall_insert.
Qed.

Lemma word_insert ws i j v :
  words_ok ws -> 0 <= i < 4 -> 0 <= j ->
  word (<[Z.to_nat i := v]> ws) j = if i =? j then v else word ws j.
Proof.
  intros [Hl _] Hi Hj. unfold word, REPLAY_WORDS in *. case_cmp.
  - subst. by rewrite list_lookup_insert_eq by lia.
  - by rewrite list_lookup_insert_ne by lia.
Qed.

Lemma mark_word_ok ws behind : words_ok ws -> words_ok (mark_word ws behind).
Proof.
  intros H. apply words_ok_insert; [done|].
  apply u64_lor; [by apply word_u64|]. apply u64_bit, Z.mod_pos_bound. lia.
Qed.

Lemma mark_word_bit ws behind n :
  words_ok ws -> 1 <= behind <= 256 -> 0 <= n < 256 ->
  bit (mark_word ws behind) n = (n =? behind - 1) || bit ws n.
Proof.
  intros Hws Hb Hn. unfold bit, mark_word.
  rewrite word_insert; [|done|Z.div_mod_to_equations; lia|Z.div_mod_to_equations; lia].
  destruct (Z.eqb_spec ((behind - 1) / 64) (n / 64)) as [He|He].
  - rewrite He, Z.lor_spec, Z.shiftl_1_l.
    rewrite Z.pow2_bits_eqb by (apply Z.mod_pos_bound; lia).
    rewrite orb_comm. f_equal. apply eq_bool_prop_intro.
    rewrite !Is_true_true, !Z.eqb_eq. Z.div_mod_to_equations. lia.
  - destruct (Z.eqb_spec n (behind - 1)) as [->|]; [done|]. done.
Qed.

(** ** Sliding the window *)

Definition shifted (words bits : Z) (ws : list Z) (i : Z) : Z :=
  let value := if words <=? i then word ws (i - words) else 0 in
  if 0 <? bits then
    let value := wrap64 (Z.shiftl value bits) in
    if words <? i
    then Z.lor value (Z.shiftr (word ws (i - words - 1)) (64 - bits))
    else value
  else value.

Lemma slide_word_shifted words bits ws i :
  slide_word words bits ws i = <[Z.to_nat i := shifted words bits ws i]> ws.
Proof. done. Qed.

Lemma shifted_ext words bits ws ws' i :
  0 <= words -> (forall k, 0 <= k <= i -> word ws' k = word ws k) ->
  shifted words bits ws' i = shifted words bits ws i.
Proof.
  intros Hw H. unfold shifted.
  assert ((if words <=? i then word ws' (i - words) else 0) =
          (if words <=? i then word ws (i - words) else 0)) as ->.
  { case_cmp; [|done]. apply H. lia. }
  destruct (0 <? bits); [|done]. case_cmp; [|done].
  by rewrite (H (i - words - 1)) by lia.
Qed.

Lemma shifted_u64 words bits ws i :
  words_ok ws -> 0 <= bits < 64 -> u64 (shifted words bits ws i).
Proof.
  intros Hws Hb. unfold shifted.
  assert (u64 (if words <=? i then word ws (i - words) else 0)) as Hbase.
  { case_cmp; [by apply word_u64|int_lia]. }
  assert (forall v, u64 (wrap64 v)) as Hwrap.
  { intros v. unfold wrap64. pose proof (Z.mod_pos_bound v 18446744073709551616). int_lia. }
  destruct (Z.ltb_spec 0 bits); [|done]. case_cmp; [|apply Hwrap].
  apply u64_lor; [apply Hwrap|]. pose proof (word_u64 ws (i - words - 1) Hws) as Hw.
  rewrite Z.shiftr_div_pow2 by lia. unfold u64 in *.
  assert (0 < 2 ^ (64 - bits)) by (apply Z.pow_pos_nonneg; lia).
  split; [apply Z.div_pos; lia|]. etrans; [|apply Hw].
  apply Z.div_le_upper_bound; nia.
Qed.

Lemma shifted_bit words bits ws i j :
  words_ok ws -> 0 <= words -> 0 <= bits < 64 -> 0 <= i -> 0 <= j < 64 ->
  Z.testbit (shifted words bits ws i) j =
  let m := 64 * i + j - (64 * words + bits) in
  if m <? 0 then false else bit ws m.
Proof.
  intros Hws Hw Hb Hi Hj. cbv zeta. set (m := 64 * i + j - (64 * words + bits)).
  assert (forall k, Z.testbit (word ws k) (j + 64 - bits) = true -> j < bits) as Hhigh.
  { intros k Hk. destruct (Z.ltb_spec j bits); [done|].
    pose proof (word_u64 ws k Hws) as Hu. apply u64_pow in Hu.
    rewrite (testbit_small _ 64) in Hk; [done|apply Hu|lia]. }
  assert (forall q r, m = 64 * q + r -> 0 <= q -> 0 <= r < 64 ->
    (if m <? 0 then false else bit ws m) = Z.testbit (word ws q) r) as Hm.
  { intros q r Heq Hq Hr. case_cmp; [lia|]. unfold bit.
    replace (m / 64) with q by (Z.div_mod_to_equations; lia).
    by replace (m mod 64) with r by (Z.div_mod_to_equations; lia). }
  unfold shifted. destruct (Z.ltb_spec 0 bits).
  2: { assert (bits = 0) by lia. destruct (Z.leb_spec words i).
    - symmetry. apply Hm; lia.
    - rewrite Z.bits_0. case_cmp; [done|lia]. }
  assert (Z.testbit (wrap64 (Z.shiftl (if words <=? i then word ws (i - words) else 0) bits)) j
    = (bits <=? j) && Z.testbit (if words <=? i then word ws (i - words) else 0) (j - bits))
    as Hlow.
  { unfold wrap64. change 18446744073709551616 with (2 ^ 64).
    rewrite Z.testbit_mod_pow2, (proj2 (Z.ltb_lt j 64)) by lia. simpl.
    destruct (Z.leb_spec bits j).
    - rewrite Z.shiftl_spec by lia. done.
    - rewrite Z.shiftl_spec_low by lia. done. }
  destruct (Z.ltb_spec words i).
  - rewrite Z.lor_spec, Hlow, Z.shiftr_spec by lia.
    rewrite (proj2 (Z.leb_le words i)) by lia.
    replace (j + (64 - bits)) with (j + 64 - bits) by lia.
    destruct (Z.leb_spec bits j); simpl.
    + rewrite (Hm (i - words) (j - bits)) by lia.
      specialize (Hhigh (i - words - 1)).
      destruct (Z.testbit (word ws (i - words - 1)) (j + 64 - bits)); [|apply orb_false_r].
      specialize (Hhigh eq_refl). lia.
    + symmetry. apply Hm; lia.
  - rewrite Hlow. destruct (Z.leb_spec bits j); simpl.
    + destruct (Z.leb_spec words i); [rewrite (Hm (i - words) (j - bits)) by lia; done|].
      rewrite Z.bits_0. destruct (Z.ltb_spec m 0); [done|lia].
    + destruct (Z.ltb_spec m 0); [done|lia].
Qed.

Lemma slide_loop words bits ws :
  words_ok ws -> 0 <= words -> 0 <= bits < 64 ->
  let ws' := foldl (slide_word words bits) ws [3; 2; 1; 0] in
  words_ok ws' /\ forall i, 0 <= i < 4 -> word ws' i = shifted words bits ws i.
Proof.
  intros Hws Hw Hb. cbn [foldl]. rewrite !slide_word_shifted.
  set (w3 := <[Z.to_nat 3 := _]> ws).
  assert (words_ok w3) as H3 by (apply words_ok_insert; [done|by apply shifted_u64]).
  set (w2 := <[Z.to_nat 2 := _]> w3).
  assert (words_ok w2) as H2 by (apply words_ok_insert; [done|by apply shifted_u64]).
  set (w1 := <[Z.to_nat 1 := _]> w2).
  assert (words_ok w1) as H1 by (apply words_ok_insert; [done|by apply shifted_u64]).
  split; [apply words_ok_insert; [done|by apply shifted_u64]|].
  assert (forall k, 0 <= k <= 2 -> word w3 k = word ws k) as E3.
  { intros k Hk. unfold w3. rewrite word_insert by (try done; lia). case_cmp; [lia|done]. }
  assert (forall k, 0 <= k <= 1 -> word w2 k = word ws k) as E2.
  { intros k Hk. unfold w2. rewrite word_insert by (try done; lia).
    case_cmp; [lia|apply E3; lia]. }
  assert (forall k, 0 <= k <= 0 -> word w1 k = word ws k) as E1.
  { intros k Hk. unfold w1. rewrite word_insert by (try done; lia).
    case_cmp; [lia|apply E2; lia]. }
  intros i Hi. rewrite word_insert by (try done; lia). case_cmp.
  { subst. by apply shifted_ext. }
  unfold w1. rewrite word_insert by (try done; lia). case_cmp.
  { subst. by apply shifted_ext. }
  unfold w2. rewrite word_insert by (try done; lia). case_cmp.
  { subst. by apply shifted_ext. }
  unfold w3. rewrite word_insert by (try done; lia). case_cmp; [by subst|lia].
Qed.

Lemma slide_bits r step :
  words_ok (seen r) -> 1 <= step ->
  words_ok (seen (slide r step)) /\
  forall n, 0 <= n < 255 ->
    bit (seen (slide r step)) n =
      (n =? step - 1) || ((step <=? n) && bit (seen r) (n - step)).
Proof.
  intros Hws Hs. unfold slide, REPLAY_WINDOW. destruct (Z.leb_spec 256 step).
  - simpl. split; [apply words_ok_zero|]. intros n Hn. rewrite bit_zero.
    repeat case_cmp; first [done|lia].
  - cbn [mark_seen seen].
    destruct (slide_loop (step / 64) (step mod 64) (seen r) Hws) as [Hok Hword];
      [apply Z.div_pos; lia|apply Z.mod_pos_bound; lia|].
    split; [by apply mark_word_ok|]. intros n Hn.
    rewrite mark_word_bit by (try done; lia). f_equal.
    unfold bit at 1. rewrite Hword by (Z.div_mod_to_equations; lia).
    rewrite shifted_bit; try done; try (Z.div_mod_to_equations; lia).
    cbv zeta. replace (64 * (n / 64) + n mod 64 - (64 * (step / 64) + step mod 64))
      with (n - step) by (pose proof (Z.div_mod n 64); pose proof (Z.div_mod step 64); lia).
    repeat case_cmp; first [done|lia].
Qed.

(** ** The abstract replay window

    What the bitmap stands for: the history of accepted counters.  A counter is
    fresh when it is newer than everything, or is within the window and was never
    accepted. *)

Module Window.

Definition newest (hist : list Z) : Z := foldr Z.max (-1) hist.

Definition fresh (hist : list Z) (c : Z) : bool :=
  match hist with
  | [] => true
  | _ => (newest hist <? c) ||
         ((newest hist - c <? REPLAY_WINDOW) && negb (bool_decide (c ∈ hist)))
  end.

Lemma newest_ge hist c : c ∈ hist -> c <= newest hist.
Proof.
  induction hist as [|x hist IH]; intros Hc; [by apply not_elem_of_nil in Hc|].
  simpl. apply elem_of_cons in Hc as [->|Hc]; [lia|]. specialize (IH Hc). lia.
Qed.

Lemma fresh_not_in hist c : fresh hist c = true -> c ∉ hist.
Proof.
  destruct hist as [|x hist]; [intros _; apply not_elem_of_nil|].
  unfold fresh. intros H Hin. apply orb_true_iff in H as [H|H].
  - apply newest_ge in Hin. lia.
  - apply andb_true_iff in H as [_ H]. apply negb_true_iff, bool_decide_eq_false in H. done.
Qed.

(** The simulation relation. *)
Record refines (r : Receiver) (hist : list Z) : Prop := {
  rf_words : words_ok (seen r);
  rf_hist : Forall u64 hist;
  rf_started : started r = match hist with [] => false | _ => true end;
  rf_highest : hist <> [] -> highest r = newest hist /\ highest r ∈ hist;
  rf_bits n : hist <> [] -> 0 <= n < 255 ->
    bit (seen r) n = bool_decide (highest r - 1 - n ∈ hist);
}.

Lemma refines_new k r : receiver_new k = Ok r -> refines r [].
Proof.
  unfold receiver_new. case_cmp; [done|]. intros [= <-].
  split; try done. apply words_ok_zero.
Qed.

Lemma check_fresh r hist c :
  refines r hist -> u64 c ->
  check_replay r c = if fresh hist c then Ok tt else Err (Replay c).
Proof.
  intros [Hw Hh Hst Hhi Hbits] Hc. unfold check_replay, fresh. rewrite Hst.
  destruct hist as [|x hist]; [done|]. simpl negb. cbv iota.
  destruct (Hhi ltac:(done)) as [Hnew Hin]. rewrite <- Hnew.
  destruct (Z.ltb_spec (highest r) c); [done|]. simpl.
  destruct (Z.leb_spec REPLAY_WINDOW (highest r - c)).
  { destruct (Z.ltb_spec (highest r - c) REPLAY_WINDOW); [lia|done]. }
  destruct (Z.ltb_spec (highest r - c) REPLAY_WINDOW); [|lia]. simpl.
  destruct (Z.eqb_spec (highest r - c) 0); simpl.
  - rewrite bool_decide_eq_true_2; [done|]. replace c with (highest r) by lia. done.
  - unfold REPLAY_WINDOW in *. rewrite was_seen_bit, Hbits by (done || lia).
    replace (highest r - 1 - (highest r - c - 1)) with c by lia.
    by destruct (bool_decide _).
Qed.

Lemma record_newer r hist c :
  refines r hist -> hist <> [] -> u64 c -> highest r < c -> refines (record r c) (c :: hist).
Proof.
  intros [Hw Hh Hst Hhi Hbits] Hne Hc Hlt. destruct (Hhi Hne) as [Hnew Hin].
  specialize (fun n => Hbits n Hne). unfold record.
  rewrite Hst. destruct hist as [|x hist]; [done|]. set (h := x :: hist) in *. clearbody h.
  simpl negb. cbv iota. rewrite (proj2 (Z.ltb_lt _ _)) by done.
  destruct (slide_bits r (c - highest r) Hw ltac:(lia)) as [Hok Hsl].
  split; simpl; try done.
  - by constructor.
  - unfold slide. destruct (_ <=? _); simpl; rewrite Hst; done.
  - intros _. split; [lia|left].
  - intros n _ Hn. rewrite Hsl by done. apply eq_bool_prop_intro.
    rewrite bool_decide_spec, elem_of_cons, Is_true_true, orb_true_iff, andb_true_iff.
    rewrite Z.eqb_eq, Z.leb_le. split.
    + intros [->|[Hle Hb]].
      * right. by replace (c - 1 - (c - highest r - 1)) with (highest r) by lia.
      * rewrite Hbits in Hb by lia. apply bool_decide_eq_true in Hb. right.
        by replace (c - 1 - n) with (highest r - 1 - (n - (c - highest r))) by lia.
    + intros [?|Hh']; [lia|]. pose proof (newest_ge _ _ Hh'). rewrite <- Hnew in *.
      destruct (decide (n = c - highest r - 1)); [by left|]. right. split; [lia|].
      rewrite Hbits by lia. apply bool_decide_eq_true.
      by replace (highest r - 1 - (n - (c - highest r))) with (c - 1 - n) by lia.
Qed.

Lemma record_older r hist c :
  refines r hist -> hist <> [] -> u64 c -> 1 <= highest r - c < 256 ->
  refines (record r c) (c :: hist).
Proof.
  intros [Hw Hh Hst Hhi Hbits] Hne Hc Hbehind. destruct (Hhi Hne) as [Hnew Hin].
  specialize (fun n => Hbits n Hne). unfold record.
  rewrite Hst. destruct hist as [|x hist]; [done|]. set (h := x :: hist) in *. clearbody h.
  simpl negb. cbv iota. rewrite (proj2 (Z.ltb_ge _ _)) by lia.
  rewrite (proj2 (Z.leb_le 1 _)), (proj2 (Z.ltb_lt _ REPLAY_WINDOW))
    by (unfold REPLAY_WINDOW; lia). simpl.
  split; simpl; try done.
  - by apply mark_word_ok.
  - by constructor.
  - intros _. split; [lia|by right].
  - intros n _ Hn. rewrite mark_word_bit, Hbits by (done || lia).
    apply eq_bool_prop_intro.
    rewrite bool_decide_spec, Is_true_true, orb_true_iff, elem_of_cons, Z.eqb_eq,
      bool_decide_eq_true.
    split; (intros [?|?]; [left; lia|by right]).
Qed.

Lemma record_refines r hist c :
  refines r hist -> u64 c -> fresh hist c = true -> refines (record r c) (c :: hist).
Proof.
  intros Hr Hc Hfresh. destruct (decide (hist = [])) as [->|Hne].
  - destruct Hr as [Hw Hh Hst Hhi Hbits]. unfold record. rewrite Hst. split; simpl; try done.
    + apply words_ok_zero.
    + by apply Forall_singleton.
    + intros _. unfold u64 in Hc. split; [lia|left].
    + intros n _ Hn. rewrite bit_zero, bool_decide_eq_false_2; [done|].
      rewrite list_elem_of_singleton. lia.
  - destruct (Z.lt_ge_cases (highest r) c); [by apply record_newer|].
    apply record_older; try done. pose proof (fresh_not_in _ _ Hfresh) as Hnin.
    destruct (rf_highest _ _ Hr Hne) as [Hnew Hin].
    assert ((newest hist <? c) || ((newest hist - c <? REPLAY_WINDOW) &&
      negb (bool_decide (c ∈ hist))) = true) as Hf by (by destruct hist).
    rewrite <- Hnew in Hf. apply orb_true_iff in Hf as [?|Hf]; [lia|].
    apply andb_true_iff in Hf as [Hf _]. unfold REPLAY_WINDOW in Hf.
    assert (highest r <> c) by (intros <-; done). lia.
Qed.

Lemma refines_keys r hist c :
  refines r hist -> r_keys (record r c) = r_keys r.
Proof.
  intros _. unfold record, slide. repeat case_match; done.
Qed.

End Window.

(** ** Runs *)

(** What a receiver does with a stream of counters, tags aside. *)
Fixpoint offer (r : Receiver) (cs : list Z) : list bool * Receiver :=
  match cs with
  | [] => ([], r)
  | c :: cs =>
      let ok := is_ok (check_replay r c) in
      let '(oks, r') := offer (if ok then record r c else r) cs in
      (ok :: oks, r')
  end.

Fixpoint window_offer (hist : list Z) (cs : list Z) : list bool :=
  match cs with
  | [] => []
  | c :: cs =>
      let ok := Window.fresh hist c in
      ok :: window_offer (if ok then c :: hist else hist) cs
  end.

Fixpoint unprotect_all `{CC : Aead} (r : Receiver) (ds : list bytes)
    : list (Result bytes MediaError) * Receiver :=
  match ds with
  | [] => ([], r)
  | d :: ds =>
      let '(res, r) := unprotect r d in
      let '(out, r) := unprotect_all r ds in
      (res :: out, r)
  end.

Fixpoint protect_all `{CC : Aead} (s : Sender) (fs : list bytes)
    : list (Result bytes MediaError) * Sender :=
  match fs with
  | [] => ([], s)
  | f :: fs =>
      let '(res, s) := protect s f in
      let '(out, s) := protect_all s fs in
      (res :: out, s)
  end.

(** The counters of the datagrams a receiver turned into audio. *)
Definition accepted_counters (ds : list bytes) (out : list (Result bytes MediaError))
    : list Z :=
  omap (fun '(d, res) =>
          match res, parse_header d with
          | Ok _, Ok (_, c, _) => Some c
          | _, _ => None
          end) (zip ds out).

Lemma u64_push_counter acc l : u64 acc -> u64 (foldl push_counter acc l).
Proof.
  revert acc. induction l as [|b l IH]; intros acc Hacc; [done|]. simpl. apply IH.
  unfold push_counter. apply u64_lor.
  - unfold wrap64. pose proof (Z.mod_pos_bound (Z.shiftl acc 8) 18446744073709551616). int_lia.
  - pose proof (b2z_range b). int_lia.
Qed.

Lemma parse_header_u64 d id c n : parse_header d = Ok (id, c, n) -> u64 c.
Proof.
  unfold parse_header. case_cmp; [done|]. destruct d; [done|]. case_cmp; [done|].
  intros [= _ <- _]. apply u64_push_counter. int_lia.
Qed.

(** One [unprotect], seen through the abstract window. *)
Lemma unprotect_refines `{CC : Aead} r hist d res r' :
  Window.refines r hist -> unprotect r d = (res, r') ->
  (r' = r /\ is_ok res = false) \/
  exists id c n, parse_header d = Ok (id, c, n) /\ u64 c /\
    Window.fresh hist c = true /\ Window.refines r' (c :: hist).
Proof.
  intros Hr. unfold unprotect.
  destruct (parse_header d) as [[[id c] n]|e] eqn:Ep; [|intros [= <- <-]; by left].
  destruct (negb _); [intros [= <- <-]; by left|].
  pose proof (parse_header_u64 _ _ _ _ Ep) as Hc.
  rewrite (Window.check_fresh _ _ _ Hr Hc).
  destruct (Window.fresh hist c) eqn:Ef; [|intros [= <- <-]; by left].
  destruct (aead_open _ _ _ _) as [plain|]; [|intros [= <- <-]; by left].
  intros [= <- <-]. right. exists id, c, n. split_and!; try done.
  by apply Window.record_refines.
Qed.

Lemma accepted_fresh `{CC : Aead} r hist ds :
  Window.refines r hist ->
  NoDup (accepted_counters ds (unprotect_all r ds).1) /\
  forall c, c ∈ accepted_counters ds (unprotect_all r ds).1 -> c ∉ hist.
Proof.
  revert r hist. induction ds as [|d ds IH]; intros r hist Hr; simpl.
  { split; [apply NoDup_nil_2|]. intros c Hc. by apply not_elem_of_nil in Hc. }
  destruct (unprotect r d) as [res r'] eqn:Eu.
  destruct (unprotect_all r' ds) as [out r''] eqn:Ea. unfold accepted_counters. csimpl.
  fold (accepted_counters ds out).
  apply (unprotect_refines r hist) in Eu as [[-> Hres]|(id & c & n & Hp & Hc & Hf & Hr')];
    [| |done].
  - destruct res; [done|]. specialize (IH r hist Hr). by rewrite Ea in IH.
  - specialize (IH r' _ Hr'). rewrite Ea in IH. simpl in IH. destruct IH as [Hnd Hin].
    rewrite Hp. destruct res; csimpl.
    + split.
      * apply NoDup_cons. split; [|done]. intros Hc'. apply (Hin c Hc'). left.
      * intros c' Hc'. apply elem_of_cons in Hc' as [->|Hc'].
        -- by apply Window.fresh_not_in.
        -- specialize (Hin c' Hc'). set_solver.
    + split; [done|]. intros c' Hc'. specialize (Hin c' Hc'). set_solver.
Qed.

Lemma advance_nth s n :
  s_counter s = 0 -> s_exhausted s = false ->
  let s' := Nat.iter n advance s in
  s_keys s' = s_keys s /\ s_pad_to s' = s_pad_to s /\
  s_counter s' = Z.min (Z.of_nat n) u64_max /\
  s_exhausted s' = (u64_max <? Z.of_nat n).
Proof.
  unfold u64_max. intros Hc He. induction n as [|n IH]; [by rewrite Nat2Z.inj_0|].
  rewrite Nat.iter_succ. destruct IH as (Hk & Hp & Hcnt & Hex).
  remember (Nat.iter n advance s) as s' eqn:Hs'. clear Hs'. cbv zeta.
  unfold advance, checked_add64, u64_max. rewrite Hcnt.
  rewrite Nat2Z.inj_succ.
  destruct (Z.leb_spec (Z.min (Z.of_nat n) 18446744073709551615 + 1) 18446744073709551615);
    simpl; rewrite ?Hex; split_and!; try done; try lia.
  - by rewrite !(proj2 (Z.ltb_ge _ _)) by lia.
  - symmetry. apply Z.ltb_lt. lia.
Qed.

Lemma protect_advance `{CC : Aead} s f :
  (protect s f).2 = if s_exhausted s then s else advance s.
Proof.
  unfold protect. destruct (s_exhausted s); [done|]. by destruct (aead_seal _ _ _ _).
Qed.

(** What the [i]-th of a run of protected frames is. *)
Lemma protect_all_lookup `{CC : Aead} s fs i d :
  s_exhausted s = false -> s_counter s + zlen fs <= u64_max + 1 ->
  (protect_all s fs).1 !! i = Some (Ok d) ->
  exists f sealed, fs !! i = Some f /\
    d = header (s_keys s) (s_counter s + Z.of_nat i) ++ sealed /\
    aead_seal (ab (sk_key (s_keys s))) (nonce (s_keys s) (s_counter s + Z.of_nat i))
      (header (s_keys s) (s_counter s + Z.of_nat i)) (pad f (s_pad_to s)) = Some sealed.
Proof.
  revert s i. induction fs as [|f fs IH]; intros s i He Hlen; [done|]. simpl.
  destruct (protect s f) as [res s'] eqn:Ep.
  destruct (protect_all s' fs) as [out s''] eqn:Ea.
  rewrite zlen_cons in Hlen. pose proof (zlen_nonneg fs).
  assert (s' = advance s) as Hs'.
  { pose proof (protect_advance s f) as H'. by rewrite Ep, He in H'. }
  destruct i as [|i]; simpl.
  - intros [= ->]. unfold protect in Ep. rewrite He in Ep.
    destruct (aead_seal _ _ _ _) as [sealed|] eqn:Es; [|done]. injection Ep as <- _.
    exists f, sealed. rewrite Z.add_0_r. by rewrite Es.
  - intros Hi. destruct fs as [|f' fs']; [by injection Ea as <- _|].
    assert (s_keys s' = s_keys s /\ s_pad_to s' = s_pad_to s /\
      s_counter s' = s_counter s + 1 /\ s_exhausted s' = false) as (Hk & Hp & Hc & Hex).
    { subst s'. unfold advance, checked_add64. rewrite zlen_cons in *.
      pose proof (zlen_nonneg fs'). case_cmp; [done|lia]. }
    specialize (IH s' i Hex). rewrite Ea, Hk, Hp, Hc in IH.
    destruct IH as (g & sealed & Hg & Hd & Hseal); [lia|done|].
    exists g, sealed. replace (s_counter s + Z.of_nat (S i))
      with (s_counter s + 1 + Z.of_nat i) by lia. done.
Qed.

(** A fresh, well-formed datagram opens to the frame that was protected. *)
Lemma unprotect_fresh `{CC : Aead} `{!AeadLaws CC} k r hist c f to sealed :
  r_keys r = k -> Window.refines r hist -> u64 c -> b2z (sk_id k) < MAX_SENDERS ->
  Window.fresh hist c = true ->
  aead_seal (ab (sk_key k)) (nonce k c) (header k c) (pad f to) = Some sealed ->
  unprotect r (header k c ++ sealed) = (Ok f, record r c).
Proof.
  intros Hk Hr Hc Hid Hf Hs. unfold unprotect.
  destruct (parse_header_header k c sealed Hc Hid) as [-> Hlen].
  assert (Z.to_nat (zlen (header k c)) = length (header k c)) as -> by (unfold zlen; lia).
  rewrite take_app_length, drop_app_length, Hk.
  rewrite bool_decide_eq_true_2 by done. simpl negb. cbv iota.
  rewrite (Window.check_fresh _ _ _ Hr Hc), Hf.
  rewrite (aead_open_seal _ _ _ _ _ Hs). by rewrite unpad_pad.
Qed.

(** ** Properties *)

(** C25: the four-word bitmap is the window it stands for.  Offered any sequence
    of counters, a new receiver accepts and refuses exactly as a receiver that
    remembers every accepted counter would: newer than all of them, or less than
    256 behind the newest and never accepted. *)
Theorem replay_window_refines k r cs :
  receiver_new k = Ok r -> Forall u64 cs -> (offer r cs).1 = window_offer [] cs.
Proof.
  intros Hr Hcs. apply Window.refines_new in Hr.
  revert r Hr. generalize (@nil Z) as hist.
  induction Hcs as [|c cs Hc _ IH]; intros hist r Hr; [done|]. simpl.
  rewrite (Window.check_fresh _ _ _ Hr Hc).
  destruct (Window.fresh hist c) eqn:Hf; simpl.
  - specialize (IH (c :: hist) (record r c)). destruct (offer (record r c) cs).
    simpl. f_equal. apply IH. by apply Window.record_refines.
  - specialize (IH hist r Hr). destruct (offer r cs). simpl. by f_equal.
Qed.

Definition toy_keys : SenderKeys := mkSenderKeys (z2b 3) (be_arr 32 11) (be_arr 12 12).
Definition toy_receiver : Receiver := mkReceiver toy_keys 0 [0; 0; 0; 0] false.
Definition toy_sender : Sender := mkSender toy_keys 0 false None.

Lemma replay_window_refines_witness :
  (offer toy_receiver [5; 300; 5; 44; 45; 45; 300]).1 =
  [true; true; false; false; true; false; false].
Proof.
  etrans.
  - apply (replay_window_refines toy_keys toy_receiver); [reflexivity|].
    repeat constructor; unfold u64_max; lia.
  - vm_compute. reflexivity.
Defined.

(** No frame is played twice.  Whatever datagrams arrive, forged, repeated or
    reordered, the counters of those a receiver opened are pairwise distinct. *)
Theorem no_replay `{CC : Aead} k r ds :
  receiver_new k = Ok r -> NoDup (accepted_counters ds (unprotect_all r ds).1).
Proof. intros Hr. eapply accepted_fresh, Window.refines_new, Hr. Qed.

Lemma no_replay_witness :
  let ds := omap rok (protect_all (CC := Toy.aead) toy_sender [[x01]; [x02]]).1 in
  let rep := ds ++ ds in
  accepted_counters rep (unprotect_all (CC := Toy.aead) toy_receiver rep).1 = [0; 1] /\
  NoDup (accepted_counters rep (unprotect_all (CC := Toy.aead) toy_receiver rep).1).
Proof.
  split; [vm_compute; reflexivity|].
  apply (no_replay (CC := Toy.aead) toy_keys toy_receiver). reflexivity.
Defined.

(** What a run of frames from a new sender seals. *)
Lemma protected_datagrams `{CC : Aead} k to fs ds :
  zlen fs <= u64_max + 1 ->
  (protect_all (pad_to (mkSender k 0 false None) to) fs).1 = Ok <$> ds ->
  forall i d, ds !! i = Some d -> exists f sealed, fs !! i = Some f /\
    d = header k (Z.of_nat i) ++ sealed /\ u64 (Z.of_nat i) /\
    aead_seal (ab (sk_key k)) (nonce k (Z.of_nat i)) (header k (Z.of_nat i)) (pad f to)
      = Some sealed.
Proof.
  intros Hlen Hds i d Hi. assert ((protect_all (pad_to (mkSender k 0 false None) to) fs).1 !! i
      = Some (Ok d)) as Hi' by (by rewrite Hds, list_lookup_fmap, Hi).
  apply protect_all_lookup in Hi' as (f & sealed & Hf & -> & Hseal); simpl; [|done|done].
  exists f, sealed. simpl in *. rewrite Z.add_0_l in *. split_and!; try done.
  apply lookup_lt_Some in Hf. unfold zlen in Hlen. int_lia.
Qed.

(** A counter not seen, and not a window behind any that was, is fresh. *)
Lemma within_window_fresh r hist c :
  Window.refines r hist ->
  (forall x, x ∈ hist -> x <> c /\ x - c < REPLAY_WINDOW) ->
  Window.fresh hist c = true.
Proof.
  intros Hr Hall. destruct hist as [|x hist]; [done|]. unfold Window.fresh.
  destruct (Window.rf_highest _ _ Hr ltac:(done)) as [Hnew Hmem]. rewrite <- Hnew.
  destruct (Hall _ Hmem) as [_ Hlt]. apply orb_true_iff. right.
  apply andb_true_iff. split; [by apply Z.ltb_lt|].
  apply negb_true_iff, bool_decide_eq_false. intros Hx. by destruct (Hall _ Hx).
Qed.

(** Reordering inside the window loses nothing.  Frames a sender protected and
    a receiver of the same call gets in any order, each at most once and none more
    than 255 behind the newest that came before it, all open to exactly what was
    protected, padding removed. *)
Theorem reordered_delivery `{CC : Aead} `{!AeadLaws CC} k s r to fs ds order :
  sender_new k = Ok s -> receiver_new k = Ok r -> zlen fs <= u64_max + 1 ->
  (protect_all (pad_to s to) fs).1 = Ok <$> ds ->
  NoDup order ->
  (forall i j x y, (i < j)%nat -> order !! i = Some x -> order !! j = Some y ->
     Z.of_nat x - Z.of_nat y < REPLAY_WINDOW) ->
  Forall (fun i => i < length ds)%nat order ->
  (unprotect_all r (omap (fun i => ds !! i) order)).1 =
  Ok <$> omap (fun i => fs !! i) order.
Proof.
  intros Hs Hr Hlen Hds Hnd Hwin Hin.
  assert (b2z (sk_id k) < MAX_SENDERS /\ s = mkSender k 0 false None) as [Hid ->].
  { unfold sender_new in Hs. case_cmp; [done|]. by injection Hs as <-. }
  assert (r_keys r = k) as Hk.
  { unfold receiver_new in Hr. case_cmp; [done|]. by injection Hr as <-. }
  apply Window.refines_new in Hr.
  pose proof (protected_datagrams k to fs ds Hlen Hds) as Hd.
  clear Hds Hs. set (hist := @nil Z) in Hr.
  assert (forall x, x ∈ hist -> forall j y, order !! j = Some y ->
    x <> Z.of_nat y /\ x - Z.of_nat y < REPLAY_WINDOW) as Hhist
    by (intros x Hx; by apply not_elem_of_nil in Hx).
  clearbody hist. revert r hist Hr Hk Hhist.
  induction order as [|i order IH]; intros r hist Hr Hk Hhist; [done|].
  apply NoDup_cons in Hnd as [Hnin Hnd]. apply Forall_cons in Hin as [Hi Hin].
  apply lookup_lt_is_Some in Hi as [d Hi].
  destruct (Hd i d Hi) as (f & sealed & Hf & -> & Hu & Hseal).
  assert (Window.fresh hist (Z.of_nat i) = true) as Hfresh.
  { apply (within_window_fresh r); [done|]. intros x Hx. by apply (Hhist x Hx 0%nat). }
  pose proof (unprotect_fresh k r hist _ f to sealed Hk Hr Hu Hid Hfresh Hseal) as Hop.
  csimpl. rewrite Hi, Hf. revert Hop. generalize (header k (Z.of_nat i) ++ sealed) as d.
  intros d Hop. csimpl. rewrite Hop.
  specialize (IH Hnd (fun a b x y Hab Ha Hb => Hwin (S a) (S b) x y ltac:(lia) Ha Hb) Hin
    (record r (Z.of_nat i)) (Z.of_nat i :: hist)).
  destruct (unprotect_all (record r (Z.of_nat i)) _) as [out r']. simpl in *.
  f_equal. apply IH.
  - by apply Window.record_refines.
  - by rewrite (Window.refines_keys _ _ _ Hr).
  - intros x Hx j y Hy. apply elem_of_cons in Hx as [->|Hx].
    + split; [|by apply (Hwin 0%nat (S j) i y); [lia| |]].
      intros Heq. apply Hnin. apply Nat2Z.inj in Heq as ->. by eapply list_elem_of_lookup_2.
    + by apply (Hhist x Hx (S j) y).
Qed.

Definition toy_frames : list bytes := [[x01]; [x02; x80]; []].
Definition toy_datagrams : list bytes :=
  omap rok (protect_all (CC := Toy.aead) (pad_to toy_sender (Some 6)) toy_frames).1.

Lemma reordered_delivery_witness :
  (unprotect_all (CC := Toy.aead) toy_receiver
     (omap (fun i => toy_datagrams !! i) [2; 0; 1]%nat)).1 =
  [Ok []; Ok [x01]; Ok [x02; x80]].
Proof.
  etrans.
  - apply (reordered_delivery (CC := Toy.aead) toy_keys toy_sender toy_receiver (Some 6)
      toy_frames); try reflexivity.
    + unfold zlen, u64_max. simpl. lia.
    + apply (bool_decide_unpack _). reflexivity.
    + intros i j x y _ Hx Hy. unfold REPLAY_WINDOW.
      destruct i as [|[|[|?]]]; simplify_eq/=;
        destruct j as [|[|[|?]]]; simplify_eq/=; lia.
    + apply (bool_decide_unpack _). reflexivity.
  - reflexivity.
Defined.

(** A sender is exhausted only once its counter is the last one. *)
Definition sender_ok (s : Sender) : Prop :=
  s_counter s <= u64_max /\ (s_exhausted s = true -> s_counter s = u64_max).

Lemma sender_ok_advance s : sender_ok s -> sender_ok (advance s).
Proof.
  unfold sender_ok, advance, checked_add64. intros [Hm He].
  destruct (Z.leb_spec (s_counter s + 1) u64_max); simpl; split; try done.
  - intros H'. specialize (He H'). lia.
  - intros _. lia.
Qed.

Lemma protect_state `{CC : Aead} s f : sender_ok s -> (protect s f).2 = advance s.
Proof.
  intros [_ He]. rewrite protect_advance. destruct (s_exhausted s) eqn:E; [|done].
  specialize (He eq_refl). unfold advance, checked_add64.
  destruct (Z.leb_spec (s_counter s + 1) u64_max); [lia|].
  destruct s. simpl in *. by rewrite E.
Qed.

Lemma protect_all_iter `{CC : Aead} s fs i f :
  sender_ok s -> fs !! i = Some f ->
  (protect_all s fs).1 !! i = Some (protect (Nat.iter i advance s) f).1.
Proof.
  revert s i. induction fs as [|g fs IH]; intros s i Hs Hf; [done|].
  simpl protect_all. pose proof (protect_state s g Hs) as Hst.
  destruct (protect s g) as [res s'] eqn:Ep. simpl in Hst. subst s'.
  destruct i as [|i].
  - injection Hf as ->. destruct (protect_all _ fs). simpl. by rewrite Ep.
  - rewrite Nat.iter_succ_r. specialize (IH (advance s) i (sender_ok_advance _ Hs) Hf).
    by destruct (protect_all _ fs).
Qed.

(** A key never sees the same nonce twice.  Of any run of frames, of any
    length, the [i]-th is sealed under the nonce of counter [i] and carries that
    counter in its header; the nonces of all 2^64 counters are pairwise distinct;
    and every frame after those is refused rather than sealed. *)
Theorem nonce_never_repeats `{CC : Aead} k s to fs :
  sender_new k = Ok s ->
  let out := (protect_all (pad_to s to) fs).1 in
  (forall i d, out !! i = Some (Ok d) ->
     Z.of_nat i <= u64_max /\
     exists f sealed, fs !! i = Some f /\ d = header k (Z.of_nat i) ++ sealed /\
       aead_seal (ab (sk_key k)) (nonce k (Z.of_nat i)) (header k (Z.of_nat i)) (pad f to)
       = Some sealed) /\
  (forall i, (i < length fs)%nat -> u64_max < Z.of_nat i ->
     out !! i = Some (Err CounterExhausted)) /\
  (forall i j, Z.of_nat i <= u64_max -> Z.of_nat j <= u64_max -> i <> j ->
     nonce k (Z.of_nat i) <> nonce k (Z.of_nat j)).
Proof.
  intros Hs out.
  assert (s = mkSender k 0 false None) as ->.
  { unfold sender_new in Hs. case_cmp; [done|]. by injection Hs as <-. }
  assert (forall i f, fs !! i = Some f -> out !! i = Some (protect
    (Nat.iter i advance (pad_to (mkSender k 0 false None) to)) f).1) as Hout.
  { intros i f Hf. apply protect_all_iter; [split; simpl; [int_lia|done]|done]. }
  assert (forall i, (i < length fs)%nat <-> is_Some (out !! i)) as Hlen.
  { intros i. rewrite lookup_lt_is_Some. unfold out. clear.
    generalize (pad_to (mkSender k 0 false None) to) as s.
    revert i. induction fs as [|f l IH]; intros i s; [done|]. simpl.
    destruct (protect s f) as [r s']. specialize (fun i => IH i s').
    destruct (protect_all s' l). simpl in *. destruct i; [lia|].
    rewrite <- !Nat.succ_lt_mono. apply IH. }
  assert (forall i, let s' := Nat.iter i advance (pad_to (mkSender k 0 false None) to) in
    s_keys s' = k /\ s_pad_to s' = to /\ s_counter s' = Z.min (Z.of_nat i) u64_max /\
    s_exhausted s' = (u64_max <? Z.of_nat i)) as Hit by (intros i; by apply advance_nth).
  split_and!.
  - intros i d Hi. assert (i < length fs)%nat as Hf by (apply Hlen; eauto).
    apply lookup_lt_is_Some in Hf as [f Hf]. rewrite (Hout i f Hf) in Hi.
    injection Hi as Hi. unfold protect in Hi. destruct (Hit i) as (Hk & Hp & Hc & He).
    rewrite Hk, Hp, Hc, He in Hi. destruct (Z.ltb_spec u64_max (Z.of_nat i)); [done|].
    rewrite Z.min_l in Hi by done. split; [done|].
    destruct (aead_seal _ _ _ _) as [sealed|] eqn:Es; [|done]. injection Hi as <-.
    by exists f, sealed.
  - intros i Hf Hi. apply lookup_lt_is_Some in Hf as [f Hf]. rewrite (Hout i f Hf).
    unfold protect. destruct (Hit i) as (_ & _ & _ & ->). by rewrite (proj2 (Z.ltb_lt _ _)).
  - intros i j Hi Hj Hij Hn. apply Hij, Nat2Z.inj. apply nonce_inj in Hn; [done| |]; int_lia.
Qed.

Lemma nonce_never_repeats_witness :
  let out := (protect_all (CC := Toy.aead) (pad_to toy_sender (Some 6)) toy_frames).1 in
  is_Some (out !! 2%nat ≫= rok) /\
  (forall i d, out !! i = Some (Ok d) -> Z.of_nat i <= u64_max /\
     exists f sealed, toy_frames !! i = Some f /\
       d = header toy_keys (Z.of_nat i) ++ sealed /\
       aead_seal (Aead := Toy.aead) (ab (sk_key toy_keys)) (nonce toy_keys (Z.of_nat i))
         (header toy_keys (Z.of_nat i)) (pad f (Some 6)) = Some sealed).
Proof.
  cbv zeta. split; [eexists; vm_compute; reflexivity|].
  apply (nonce_never_repeats (CC := Toy.aead) toy_keys toy_sender (Some 6) toy_frames).
  reflexivity.
Defined.

(** What a datagram's size gives away.  A protected frame is its header, the
    tag and the padded body, so every frame that fits the padding target makes a
    datagram of one and the same size, whatever it holds; and a frame no longer
    than [payload_budget] says makes a datagram no longer than asked, as long as
    the padding target is no more than that budget. *)
Theorem datagram_size `{CC : Aead} `{!AeadLaws CC} s f d s' :
  protect s f = (Ok d, s') ->
  zlen d = zlen (header (s_keys s) (s_counter s)) + TAG_LEN +
           Z.max (default 0 (s_pad_to s)) (zlen f + PAD_MARKER_LEN) /\
  (forall m, overhead s <= m -> zlen f <= payload_budget s m ->
     overhead s + default 0 (s_pad_to s) <= m + PAD_MARKER_LEN -> zlen d <= m).
Proof.
  unfold protect. destruct (s_exhausted s); [done|].
  destruct (aead_seal _ _ _ _) as [sealed|] eqn:Es; [|done]. intros H.
  assert (d = header (s_keys s) (s_counter s) ++ sealed) as Hd by congruence.
  assert (zlen d =
    zlen (header (s_keys s) (s_counter s)) + TAG_LEN +
    Z.max (default 0 (s_pad_to s)) (zlen f + PAD_MARKER_LEN)) as Hl.
  { rewrite Hd, zlen_app, (aead_seal_len _ _ _ _ _ Es), zlen_pad.
    unfold TAG_LEN, AEAD_TAG_LEN. lia. }
  split; [done|]. intros m Hm Hf Hp. rewrite Hl.
  unfold payload_budget, overhead, sat_sub, PAD_MARKER_LEN in *. lia.
Qed.

Lemma datagram_size_witness :
  exists d s', protect (CC := Toy.aead) (pad_to toy_sender (Some 6)) [x01] = (Ok d, s') /\
    zlen d = 2 + 16 + 6.
Proof.
  do 2 eexists. split; [vm_compute; reflexivity|].
  refine (proj1 (datagram_size (CC := Toy.aead) (pad_to toy_sender (Some 6)) [x01] _ _ _)).
  vm_compute. reflexivity.
Defined.
