(* ===== verification/Path.v ===== *)
(** * How a path is chosen

    [crates/rotelyx-path/src/lib.rs]: the policy the transport and the media layer
    read, and what each policy permits. *)

From S2P Require Import Prelude.

Inductive PathPolicy :=
| Fastest
| PreferDirect
| DirectOnceAvailable
| RelayOnly
| Chained.

#[export] Instance PathPolicy_eq_dec : EqDecision PathPolicy.
Proof. solve_decision. Defined.

Definition tolerates_relay_alongside_direct (p : PathPolicy) : bool :=
  match p with Fastest | RelayOnly | Chained => true | _ => false end.

Definition permits_direct (p : PathPolicy) : bool :=
  match p with RelayOnly | Chained => false | _ => true end.

Definition requires_chain (p : PathPolicy) : bool :=
  match p with Chained => true | _ => false end.

(** A policy that insists on a chain never takes a direct path. *)
Lemma requires_chain_relayed p : requires_chain p = true -> permits_direct p = false.
Proof. by destruct p. Qed.
