(* ===== verification/NetPath.v ===== *)
(** * Which path carries the traffic

    [crates/rotelyx-net/src/path.rs]: the selector of paths and the decision it makes
    for each policy; [config.rs]: what a relay policy allows; and of [endpoint.rs] what
    the transport is bound with.  A path of the transport ([FourTuple]) and whether it
    is one of addresses are its own, and so is a relay's url.  What is done with a
    selection is [select_path] of [net/rotelyx-transport]: an empty one keeps the path
    that was there, and the last connection closed clears it. *)

From S2P Require Import Prelude Path.

Class Tuples := {
  FourTuple : Type;
  is_ip : FourTuple -> bool;
  RelayUrl : Type;
  host_str : RelayUrl -> option bytes;
}.

(** ** What the endpoint is told *)

Section Net.
Context `{T : Tuples}.

Inductive RelayPolicy := DirectOnly | SelfHosted (l : list RelayUrl).

Definition urls (p : RelayPolicy) : list RelayUrl :=
  match p with DirectOnly => [] | SelfHosted l => l end.

Definition uses_relays (p : RelayPolicy) : bool := negb (match urls p with [] => true | _ => false end).

Record NetConfig := mkConfig { relays : RelayPolicy; paths : PathPolicy }.

Definition direct_only : NetConfig := mkConfig DirectOnly PreferDirect.

Definition permitted_hosts (c : NetConfig) : list bytes := omap host_str (urls (relays c)).

(** The relays the transport is bound with, and whether it has sockets of its own. *)
Record Bound := mkBound { relay_mode : list RelayUrl; ip_transports : bool; policy : PathPolicy }.

Definition bind (c : NetConfig) : Bound :=
  mkBound (urls (relays c)) (permits_direct (paths c)) (paths c).

(** ** The decision *)

Inductive Choice := Direct | Relayed | KeepCurrent.

Definition decide (p : PathPolicy) (best_direct best_relayed : option Z) (currently_direct : bool) : Choice :=
  match p with
  | Fastest =>
      match best_direct, best_relayed with
      | Some d, Some r => if d <=? r then Direct else Relayed
      | Some _, None => Direct
      | None, Some _ => Relayed
      | None, None => KeepCurrent
      end
  | PreferDirect =>
      match best_direct, best_relayed with
      | Some _, _ => Direct
      | None, Some _ => Relayed
      | None, None => KeepCurrent
      end
  | RelayOnly | Chained => match best_relayed with Some _ => Relayed | None => KeepCurrent end
  | DirectOnceAvailable =>
      match best_direct, best_relayed with
      | Some _, _ => Direct
      | None, Some _ => if currently_direct then KeepCurrent else Relayed
      | None, None => KeepCurrent
      end
  end.

(** ** The selection *)

(** A path on offer, and its round trip in nanoseconds; none when it has closed. *)
Record Offer := mkOffer { network_path : FourTuple; rtt : option Z }.

Definition U128_MAX : Z := 2 ^ 128 - 1.
Definition rtt_nanos (o : Offer) : Z := default U128_MAX (rtt o).

(** The first of the least. *)
Definition better (slot : option (Offer * Z)) (o : Offer) : option (Offer * Z) :=
  match slot with
  | None => Some (o, rtt_nanos o)
  | Some (_, best) => if rtt_nanos o <? best then Some (o, rtt_nanos o) else slot
  end.

Definition look (best : option (Offer * Z) * option (Offer * Z)) (o : Offer) :=
  if is_ip (network_path o) then (better best.1 o, best.2) else (best.1, better best.2 o).

Definition select (p : PathPolicy) (current : option FourTuple) (offers : list Offer) : option FourTuple :=
  let '(best_direct, best_relayed) := foldl look (None, None) offers in
  let currently_direct := from_option is_ip false current in
  match decide p (snd <$> best_direct) (snd <$> best_relayed) currently_direct with
  | Direct => network_path ∘ fst <$> best_direct
  | Relayed => network_path ∘ fst <$> best_relayed
  | KeepCurrent => None
  end.

(** ** A connection's path over time *)

Inductive Moment := Selects (offers : list Offer) | LastClosed.

Definition step (p : PathPolicy) (current : option FourTuple) (m : Moment) : option FourTuple :=
  match m with
  | Selects offers => match select p current offers with Some t => Some t | None => current end
  | LastClosed => None
  end.

Definition path_after (p : PathPolicy) (ms : list Moment) : option FourTuple := foldl (step p) None ms.
End Net.

(** ** What is chosen *)

Section Facts.
Context `{T : Tuples}.
Implicit Types (o : Offer) (t : FourTuple) (ms : list Moment).

(** [o] is one of the offers of its kind, and none of that kind is faster. *)
Definition least (ip : bool) (offers : list Offer) (o : Offer) : Prop :=
  o ∈ offers /\ is_ip (network_path o) = ip /\
  forall o', o' ∈ offers -> is_ip (network_path o') = ip -> rtt_nanos o <= rtt_nanos o'.

Definition best_of (ip : bool) (offers : list Offer) (slot : option (Offer * Z)) : Prop :=
  match slot with
  | None => forall o, o ∈ offers -> is_ip (network_path o) <> ip
  | Some (o, z) => z = rtt_nanos o /\ least ip offers o
  end.

Lemma best_of_other ip offers slot o :
  best_of ip offers slot -> is_ip (network_path o) <> ip -> best_of ip (offers ++ [o]) slot.
Proof.
  unfold best_of, least. intros H Ho.
  destruct slot as [[o1 z]|]; [|set_solver].
  destruct H as (-> & Hin & Hip & Hle). split_and!; auto; set_solver.
Qed.

Lemma best_of_better ip offers slot o :
  best_of ip offers slot -> is_ip (network_path o) = ip -> best_of ip (offers ++ [o]) (better slot o).
Proof.
  unfold best_of, least, better. intros H Ho.
  destruct slot as [[o1 z]|].
  - destruct H as (-> & Hin & Hip & Hle).
    destruct (Z.ltb_spec (rtt_nanos o) (rtt_nanos o1)); split_and!; auto; try set_solver;
      intros o' [Ho'|Ho'%list_elem_of_singleton]%elem_of_app Hip'; subst; auto; try lia.
    specialize (Hle o' Ho' Hip'). lia.
  - split_and!; auto; [set_solver|].
    intros o' [Ho'|Ho'%list_elem_of_singleton]%elem_of_app Hip'; subst; [by destruct (H o')|lia].
Qed.

Lemma look_best offers :
  best_of true offers (foldl look (None, None) offers).1 /\ best_of false offers (foldl look (None, None) offers).2.
Proof.
  induction offers as [|o offers [Hd Hr]] using rev_ind; [split; intros o Ho; set_solver|].
  rewrite foldl_app. simpl. set (b := foldl look (None, None) offers) in *. unfold look.
  destruct (is_ip (network_path o)) eqn:Ho; simpl; split;
    first [apply best_of_better; assumption | apply best_of_other; [assumption|congruence]].
Qed.

(** The best of each kind, and the decision between them. *)
Lemma select_cases p current offers :
  exists bd br, best_of true offers bd /\ best_of false offers br /\
    select p current offers =
      match decide p (snd <$> bd) (snd <$> br) (from_option is_ip false current) with
      | Direct => network_path ∘ fst <$> bd
      | Relayed => network_path ∘ fst <$> br
      | KeepCurrent => None
      end.
Proof.
  unfold select. pose proof (look_best offers) as [Hd Hr].
  destruct (foldl look (None, None) offers) as [bd br]. by exists bd, br.
Qed.

(** A selection is of the kind decided, and the least of that kind. *)
Ltac selecting offers :=
  match goal with |- context [select ?p ?c offers] =>
    let bd := fresh "bd" in let br := fresh "br" in
    let Hd := fresh "Hd" in let Hr := fresh "Hr" in
    destruct (select_cases p c offers) as (bd & br & Hd & Hr & ->);
    destruct bd as [[?d ?zd]|], br as [[?r ?zr]|]; simpl in Hd, Hr |- *;
    repeat match goal with H : _ = _ /\ least _ _ _ |- _ => destruct H as [-> H] end
  end.

Lemma step_relayed p current m :
  permits_direct p = false -> from_option is_ip false current = false ->
  from_option is_ip false (step p current m) = false.
Proof.
  intros Hp Hc. destruct m as [offers|]; [|done]. simpl.
  selecting offers; destruct p; try discriminate; simpl; auto;
    match goal with H : least false _ _ |- _ => by destruct H as (_ & -> & _) end.
Qed.

Lemma path_relayed p ms :
  permits_direct p = false -> from_option is_ip false (path_after p ms) = false.
Proof.
  intros Hp. induction ms as [|m ms IH] using rev_ind; [done|].
  unfold path_after in *. rewrite foldl_app. by apply step_relayed.
Qed.

(** C35: a policy keeps its word at every moment.  Over any history of paths offered
    and connections lost, a policy that forbids a direct path is never on one; at any
    later selection the path is as before or among those offered; under the two
    policies that prefer it a direct path is taken when there is one, the fastest of
    them, and one of the two does not leave it for a relay; and the policy that asks
    for the fastest has it, and a direct one of two as fast. *)
Theorem a_policy_keeps_its_word p ms offers :
  let now := path_after p ms in
  let next := step p now (Selects offers) in
  (permits_direct p = false -> from_option is_ip false now = false) /\
  (next = now \/ exists o, o ∈ offers /\ next = Some (network_path o)) /\
  (p = PreferDirect \/ p = DirectOnceAvailable -> (exists o, o ∈ offers /\ is_ip (network_path o) = true) ->
     exists o, next = Some (network_path o) /\ least true offers o) /\
  (p = DirectOnceAvailable -> from_option is_ip false now = true -> from_option is_ip false next = true) /\
  (p = Fastest -> offers <> [] ->
     exists o, o ∈ offers /\ next = Some (network_path o) /\
       forall o', o' ∈ offers -> rtt_nanos o <= rtt_nanos o' /\
         (rtt_nanos o' = rtt_nanos o -> is_ip (network_path o') = true -> is_ip (network_path o) = true)).
Proof.
  intros now next. subst next. simpl. split_and!.
  - apply path_relayed.
  - selecting offers; destruct (decide _ _ _ _) eqn:E; simpl; auto;
      right; eexists; (split; [|reflexivity]); match goal with H : least _ _ ?o |- ?o ∈ _ => apply H end.
  - intros Hp (o & Ho & Hip). selecting offers; try (by destruct (Hd o)); destruct Hp; subst p; simpl; eauto.
  - intros -> Hnow. selecting offers; simpl; rewrite ?Hnow; simpl; auto; apply Hd.
  - intros -> Hne. selecting offers; simpl.
    + destruct Hd as (Hdi & Hdk & Hdl), Hr as (Hri & Hrk & Hrl).
      destruct (Z.leb_spec (rtt_nanos d) (rtt_nanos r)); simpl; [exists d|exists r]; (split_and!; [done..|]);
        intros o' Ho'; destruct (is_ip (network_path o')) eqn:Hk;
        match goal with
        | Hl : forall o', _ -> is_ip _ = ?b -> _, Hk : is_ip (network_path o') = ?b |- _ => specialize (Hl o' Ho' Hk)
        end; split; intros; try lia; congruence.
    + destruct Hd as (Hdi & Hdk & Hdl). exists d. split_and!; [done..|]. intros o' Ho'.
      destruct (is_ip (network_path o')) eqn:Hk; [split; auto|by destruct (Hr o')].
    + destruct Hr as (Hri & Hrk & Hrl). exists r. split_and!; [done..|]. intros o' Ho'.
      destruct (is_ip (network_path o')) eqn:Hk; [by destruct (Hd o')|split; [auto|done]].
    + destruct offers as [|o offers]; [done|].
      destruct (is_ip (network_path o)) eqn:Hk; [destruct (Hd o)|destruct (Hr o)]; auto; set_solver.
Qed.
End Facts.

(** ** Two ends on a path that changes *)

Module NetPathExample.
#[export] Instance two : Tuples :=
  {| FourTuple := bool * Z; is_ip := fst; RelayUrl := bytes; host_str := fun u => Some u |}.

Definition direct (n : Z) : Offer := mkOffer (T := two) (true, n) (Some n).
Definition relayed (n : Z) : Offer := mkOffer (T := two) (false, n) (Some n).
Definition lost : Offer := mkOffer (T := two) (true, 9) None.

(** A relay answers first, then the other side directly, then only the relay. *)
Definition moments : list Moment :=
  [Selects [relayed 5]; Selects [relayed 5; direct 40; lost; direct 30]; Selects [relayed 5]].

Example paths_kept :
  (path_after RelayOnly moments, path_after PreferDirect moments, path_after DirectOnceAvailable moments,
   path_after Fastest (take 2 moments)) =
  (Some (false, 5), Some (false, 5), Some (true, 30), Some (false, 5)).
Proof. reflexivity. Qed.
End NetPathExample.
