(* ===== verification/Float.v ===== *)
(** * Double-precision arithmetic

    Rust's [f64] as the Standard Library's executable IEEE 754 specification,
    with 53 bits of precision and round to nearest, ties to even, and the
    saturating conversions [as u32] and [as u64]. *)

From S2P Require Import Prelude.
From Stdlib Require Import SpecFloat.

Abbreviation f64 := spec_float.

Definition f_prec : Z := 53.
Definition f_emax : Z := 1024.

(** An integer converted with [as f64]. *)
Definition f64_of_Z (z : Z) : f64 := binary_normalize f_prec f_emax z 0 false.

Definition fadd : f64 -> f64 -> f64 := SFadd f_prec f_emax.
Definition fsub : f64 -> f64 -> f64 := SFsub f_prec f_emax.
Definition fmul : f64 -> f64 -> f64 := SFmul f_prec f_emax.
Definition fdiv : f64 -> f64 -> f64 := SFdiv f_prec f_emax.
Definition flt : f64 -> f64 -> bool := SFltb.
Definition fle : f64 -> f64 -> bool := SFleb.

(** [f64::min] and [f64::max]: a NaN loses. *)
Definition fmin (a b : f64) : f64 :=
  match a, b with
  | S754_nan, _ => b
  | _, S754_nan => a
  | _, _ => if fle a b then a else b
  end.

Definition fmax (a b : f64) : f64 :=
  match a, b with
  | S754_nan, _ => b
  | _, S754_nan => a
  | _, _ => if fle b a then a else b
  end.

(** Truncation towards zero of a finite value. *)
Definition trunc_finite (s : bool) (m : positive) (e : Z) : Z :=
  cond_Zopp s (if 0 <=? e then Z.pos m * 2 ^ e else Z.pos m / 2 ^ (- e)).

(** [as uN] with largest value [top]: saturating, NaN is zero. *)
Definition as_unsigned (top : Z) (f : f64) : Z :=
  match f with
  | S754_zero _ | S754_nan => 0
  | S754_infinity s => if s then 0 else top
  | S754_finite s m e => Z.max 0 (Z.min top (trunc_finite s m e))
  end.

Definition as_u32 : f64 -> Z := as_unsigned u32_max.
Definition as_u64 : f64 -> Z := as_unsigned u64_max.

Lemma as_unsigned_range top f : 0 <= top -> 0 <= as_unsigned top f <= top.
Proof. intros. destruct f as [|[]| |]; simpl; lia. Qed.

Lemma as_u32_u32 f : u32 (as_u32 f).
Proof. apply as_unsigned_range. int_lia. Qed.
