(* ===== verification/Jitter.v ===== *)
(** * The jitter buffer

    [crates/rotelyx-media/src/jitter.rs].  Frames go in with their counter and
    arrival time and come out on the playback clock.  Arithmetic is that of the
    release profile: [u64] and [i64] wrap, [as u32] from a float saturates. *)

From S2P Require Import Prelude Float.
From Stdlib Require Import SpecFloat.

Definition FRAME_MS : Z := 20.
Definition MIN_DELAY_MS : Z := FRAME_MS.
Definition MAX_DELAY_MS : Z := 200.
Definition MAX_FIDELITY_DELAY_MS : Z := 5000.

Inductive Mode := Conversational | Fidelity.

#[global] Instance Mode_eq_dec : EqDecision Mode.
Proof. solve_decision. Defined.

Definition max_delay_ms (m : Mode) : Z :=
  match m with
  | Conversational => MAX_DELAY_MS
  | Fidelity => MAX_FIDELITY_DELAY_MS
  end.

Definition floor_ms (m : Mode) : Z :=
  match m with
  | Conversational => MIN_DELAY_MS
  | Fidelity => 2000
  end.

Inductive Playout :=
| Frame (f : bytes)
| Missing
| Starved
| Waiting.

#[global] Instance Playout_eq_dec : EqDecision Playout.
Proof. solve_decision. Defined.

Record JitterBuffer := mkJitter {
  mode : Mode;
  frames : gmap Z bytes;
  next : option Z;
  lowest_seen : option Z;
  target_ms : Z;
  jitter_ms : f64;
  previous : option (Z * Z);
  played : Z;
  missing : Z;
  late : Z;
}.

Definition with_mode (m : Mode) : JitterBuffer :=
  mkJitter m ∅ None None (Z.max (floor_ms m) (MIN_DELAY_MS * 2)) (S754_zero false) None 0 0 0.

Definition new : JitterBuffer := with_mode Conversational.

(** [i64] arithmetic: a [u64] reinterpreted, wrapping, absolute value included. *)
Definition as_i64 (z : Z) : Z :=
  let w := wrap64 z in if w <? 9223372036854775808 then w else w - 18446744073709551616.

Definition f16 : f64 := f64_of_Z 16.
Definition f3 : f64 := f64_of_Z 3.

Definition observe_jitter (b : JitterBuffer) (counter now_ms : Z) : JitterBuffer :=
  let '(target, jitter) :=
    match previous b with
    | Some (last_counter, last_arrival) =>
        let expected := as_i64 (as_i64 (as_i64 counter - as_i64 last_counter) * FRAME_MS) in
        let actual := as_i64 (as_i64 now_ms - as_i64 last_arrival) in
        let d := f64_of_Z (as_i64 (Z.abs (as_i64 (actual - expected)))) in
        let jitter := fadd (jitter_ms b) (fdiv (fsub d (jitter_ms b)) f16) in
        let wanted :=
          Z.min (Z.max (as_u32 (fmul jitter f3)) (floor_ms (mode b))) (max_delay_ms (mode b)) in
        (if target_ms b <? wanted then wanted
         else Z.max (sat_sub (target_ms b) 1) wanted, jitter)
    | None => (target_ms b, jitter_ms b)
    end in
  mkJitter (mode b) (frames b) (next b) (lowest_seen b) target jitter
    (Some (counter, now_ms)) (played b) (missing b) (late b).

Definition see (b : JitterBuffer) (counter : Z) : option Z :=
  Some (match lowest_seen b with
        | Some seen => Z.min seen counter
        | None => counter
        end).

Definition push (b : JitterBuffer) (counter now_ms : Z) (frame : bytes) : JitterBuffer :=
  let b := observe_jitter b counter now_ms in
  let seen := see b counter in
  let is_late := match next b with Some n => counter <? n | None => false end in
  if is_late then
    mkJitter (mode b) (frames b) (next b) seen (target_ms b) (jitter_ms b)
      (previous b) (played b) (missing b) (wrap64 (late b + 1))
  else
    mkJitter (mode b) (<[counter := frame]> (frames b)) (next b) seen (target_ms b)
      (jitter_ms b) (previous b) (played b) (missing b) (late b).

Definition buffered_ms (b : JitterBuffer) : Z :=
  sat_mul32 (wrap32 (Z.of_nat (size (frames b)))) FRAME_MS.

Definition may_wait (b : JitterBuffer) : bool :=
  bool_decide (mode b = Fidelity) && (buffered_ms b <? target_ms b).

(** Where playback stands, or starts once the buffer is deep enough. *)
Definition position_of (b : JitterBuffer) (lowest : Z) : option Z :=
  match next b with
  | Some n => Some n
  | None =>
      if buffered_ms b <? target_ms b then None
      else Some (Z.min (default lowest (lowest_seen b)) lowest)
  end.

Definition pop (b : JitterBuffer) : Playout * JitterBuffer :=
  match first_key (frames b) with
  | None => (match next b with Some _ => Missing | None => Starved end, b)
  | Some lowest =>
      match position_of b lowest with
      | None => (Starved, b)
      | Some n =>
          let at_ frames' n' played' missing' :=
            mkJitter (mode b) frames' (Some n') (lowest_seen b) (target_ms b) (jitter_ms b)
              (previous b) played' missing' (late b) in
          match frames b !! n with
          | Some f =>
              (Frame f, at_ (delete n (frames b)) (wrap64 (n + 1)) (wrap64 (played b + 1))
                          (missing b))
          | None =>
              if may_wait b then (Waiting, at_ (frames b) n (played b) (missing b))
              else (Missing, at_ (frames b) (wrap64 (n + 1)) (played b)
                               (wrap64 (missing b + 1)))
          end
      end
  end.

(** [from..=to]. *)
Definition range_incl (from to : Z) : list Z := seqZ from (to - from + 1).

Definition recoverable_between (b : JitterBuffer) (oldest_sent : option Z) (highest_sent : Z)
    : list Z :=
  if negb (bool_decide (mode b = Fidelity)) then []
  else
    let from :=
      match next b with
      | Some n => Some n
      | None =>
          match first_key (frames b) with
          | Some seen =>
              Some (match oldest_sent with Some o => Z.min o seen | None => seen end)
          | None => None
          end
      end in
    match from with
    | None => []
    | Some from =>
        retain (fun c => bool_decide (frames b !! c = None)) (range_incl from highest_sent)
    end.

Definition recoverable_through (b : JitterBuffer) (highest_sent : Z) : list Z :=
  recoverable_between b None highest_sent.

Definition recoverable (b : JitterBuffer) : list Z :=
  match last_key (frames b) with
  | Some highest => recoverable_through b highest
  | None => []
  end.

Definition counts (b : JitterBuffer) : Z * Z * Z := (played b, missing b, late b).

(** ** Runs *)

Inductive event :=
| EPush (counter now_ms : Z) (frame : bytes)
| EPop.

Definition step (b : JitterBuffer) (e : event) : option Playout * JitterBuffer :=
  match e with
  | EPush c now f => (None, push b c now f)
  | EPop => let '(p, b') := pop b in (Some p, b')
  end.

(** The slot a pop gave audio for, with that audio. *)
Definition played_slot (p : option Playout) (b' : JitterBuffer) : option (Z * bytes) :=
  match p, next b' with
  | Some (Frame f), Some n => Some (n - 1, f)
  | _, _ => None
  end.

Fixpoint run (b : JitterBuffer) (es : list event) : list (Z * bytes) * JitterBuffer :=
  match es with
  | [] => ([], b)
  | e :: es =>
      let '(p, b') := step b e in
      let '(out, b'') := run b' es in
      (option_list (played_slot p b') ++ out, b'')
  end.

Fixpoint pops (n : nat) (b : JitterBuffer) : list Playout :=
  match n with
  | O => []
  | S n => let '(p, b') := pop b in p :: pops n b'
  end.

Definition pushed_counters (es : list event) : list Z :=
  omap (fun e => match e with EPush c _ _ => Some c | EPop => None end) es.

Definition push_ok (e : event) : Prop :=
  match e with EPush c _ _ => 0 <= c < u64_max | EPop => True end.

(** ** Invariants *)

(** What holds of every buffer a session reaches: a target within the mode's
    limits, and a play head at or below everything buffered. *)
Record jitter_ok (b : JitterBuffer) : Prop := {
  jo_target : floor_ms (mode b) <= target_ms b <= max_delay_ms (mode b);
  jo_keys : forall k, is_Some (frames b !! k) -> 0 <= k < u64_max;
  jo_head : forall n, next b = Some n ->
    0 <= n <= u64_max /\ forall k, is_Some (frames b !! k) -> n <= k;
  jo_seen : forall s, lowest_seen b = Some s -> 0 <= s;
}.

Lemma with_mode_ok m : jitter_ok (with_mode m).
Proof.
  split; simpl; try done.
  - destruct m; vm_compute; split; congruence.
  - intros k [x Hx]. by rewrite lookup_empty in Hx.
Qed.

Lemma observe_fields b c now :
  let b' := observe_jitter b c now in
  mode b' = mode b /\ frames b' = frames b /\ next b' = next b /\
  lowest_seen b' = lowest_seen b /\ played b' = played b /\ missing b' = missing b /\
  late b' = late b.
Proof.
  unfold observe_jitter. destruct (previous b) as [[lc la]|]; cbv zeta; simpl; done.
Qed.

Lemma observe_target b c now :
  floor_ms (mode b) <= target_ms b <= max_delay_ms (mode b) ->
  floor_ms (mode b) <= target_ms (observe_jitter b c now) <= max_delay_ms (mode b).
Proof.
  unfold observe_jitter. destruct (previous b) as [[lc la]|]; cbv zeta; simpl; [|done].
  intros H. assert (0 <= floor_ms (mode b)) by (by destruct (mode b)).
  unfold sat_sub. generalize (as_u32 (fmul (fadd (jitter_ms b)
    (fdiv (fsub (f64_of_Z (as_i64 (Z.abs (as_i64 (as_i64 (as_i64 now - as_i64 la) -
      as_i64 (as_i64 (as_i64 c - as_i64 lc) * FRAME_MS)))))) (jitter_ms b)) f16)) f3)).
  intros u. case_cmp; lia.
Qed.

(** The frames after a push. *)
Lemma push_fields b c now f :
  let b' := push b c now f in
  let is_late := match next b with Some n => c <? n | None => false end in
  mode b' = mode b /\ next b' = next b /\ played b' = played b /\ missing b' = missing b /\
  frames b' = (if is_late then frames b else <[c := f]> (frames b)) /\
  late b' = (if is_late then wrap64 (late b + 1) else late b) /\
  lowest_seen b' = see b c.
Proof.
  cbv zeta. unfold push.
  destruct (observe_fields b c now) as (Hm & Hf & Hn & Hl & Hp & Hs & Hla).
  rewrite Hn. unfold see. rewrite Hl.
  destruct (match next b with Some n => c <? n | None => false end); simpl;
    rewrite ?Hm, ?Hf, ?Hn, ?Hl, ?Hp, ?Hs, ?Hla; done.
Qed.

Lemma push_target b c now f : target_ms (push b c now f) = target_ms (observe_jitter b c now).
Proof. unfold push. by destruct (match _ with Some _ => _ | None => _ end). Qed.

Lemma push_ok_ok b c now f :
  jitter_ok b -> 0 <= c < u64_max -> jitter_ok (push b c now f).
Proof.
  intros [Ht Hk Hh Hs] Hc. destruct (push_fields b c now f) as (Hm & Hn & _ & _ & Hf & _ & Hl).
  split.
  - rewrite Hm, push_target. by apply observe_target.
  - rewrite Hf. intros k. destruct (match next b with Some _ => _ | None => _ end); [apply Hk|].
    intros Hi. destruct (decide (k = c)) as [->|]; [done|].
    rewrite lookup_insert_ne in Hi by done. by apply Hk.
  - rewrite Hn, Hf. intros n Hn'. rewrite Hn'. destruct (Hh n Hn') as [H1 H2]. split; [done|].
    intros k Hi. destruct (Z.ltb_spec c n); [by apply H2|].
    destruct (decide (k = c)) as [->|]; [done|].
    rewrite lookup_insert_ne in Hi by done. by apply H2.
  - rewrite Hl. unfold see. intros s [= <-].
    destruct (lowest_seen b) as [s|] eqn:E; [|lia]. specialize (Hs s eq_refl). lia.
Qed.

(** What one pop does, when it gets past the start. *)
Lemma pop_cases b :
  (exists p, pop b = (p, b) /\ (p = Missing \/ p = Starved)) \/
  exists lowest n, first_key (frames b) = Some lowest /\ position_of b lowest = Some n /\
    ((exists f, frames b !! n = Some f /\
        pop b = (Frame f, mkJitter (mode b) (delete n (frames b)) (Some (wrap64 (n + 1)))
          (lowest_seen b) (target_ms b) (jitter_ms b) (previous b) (wrap64 (played b + 1))
          (missing b) (late b))) \/
     (frames b !! n = None /\ may_wait b = true /\
        pop b = (Waiting, mkJitter (mode b) (frames b) (Some n) (lowest_seen b) (target_ms b)
          (jitter_ms b) (previous b) (played b) (missing b) (late b))) \/
     (frames b !! n = None /\ may_wait b = false /\
        pop b = (Missing, mkJitter (mode b) (frames b) (Some (wrap64 (n + 1)))
          (lowest_seen b) (target_ms b) (jitter_ms b) (previous b) (played b)
          (wrap64 (missing b + 1)) (late b)))).
Proof.
  unfold pop. destruct (first_key (frames b)) as [lowest|].
  - destruct (position_of b lowest) as [n|] eqn:En.
    + right. exists lowest, n. split_and!; [done|done|].
      destruct (frames b !! n) as [f|] eqn:Ef; [left; by exists f|right].
      destruct (may_wait b); [left|right]; done.
    + left. exists Starved. split; [done|by right].
  - left. destruct (next b); eexists; split; eauto.
Qed.

Lemma position_ok b lowest n :
  jitter_ok b -> first_key (frames b) = Some lowest -> position_of b lowest = Some n ->
  0 <= n < u64_max /\ (forall k, is_Some (frames b !! k) -> n <= k) /\
  (forall m, next b = Some m -> n = m).
Proof.
  intros Hb Hl Hn. pose proof (first_key_spec (frames b)) as Hs. rewrite Hl in Hs.
  destruct Hs as [Hin Hmin]. pose proof (jo_keys _ Hb _ Hin).
  unfold position_of in Hn. destruct (next b) as [m|] eqn:E.
  - injection Hn as ->. destruct (jo_head _ Hb n E) as [H1 H2]. specialize (H2 _ Hin) as H3.
    split_and!; [lia|lia|done|congruence].
  - case_cmp; [done|]. injection Hn as <-.
    assert (0 <= default lowest (lowest_seen b)).
    { destruct (lowest_seen b) eqn:E'; simpl; [by apply (jo_seen _ Hb)|lia]. }
    split_and!; [lia|lia| |done]. intros k Hk. specialize (Hmin k Hk). lia.
Qed.

Lemma pop_ok b : jitter_ok b -> jitter_ok (pop b).2.
Proof.
  intros Hb. destruct (pop_cases b) as [(p & -> & _)|(l & n & Hl & Hn & Hc)]; [done|].
  destruct (position_ok b l n Hb Hl Hn) as (Hn1 & Hn2 & _). destruct Hb as [Ht Hk Hh Hs].
  assert (wrap64 (n + 1) = n + 1) as Hw by (unfold wrap64; rewrite Z.mod_small; int_lia).
  destruct Hc as [(f & Hf & ->)|[(Hf & _ & ->)|(Hf & _ & ->)]]; split; simpl; try done.
  - intros k. rewrite lookup_delete_is_Some. intros [_ ?]. by apply Hk.
  - intros m [= <-]. rewrite Hw. split; [lia|]. intros k. rewrite lookup_delete_is_Some.
    intros [Hne Hi]. specialize (Hn2 k Hi). lia.
  - intros m [= <-]. split; [lia|done].
  - intros m [= <-]. rewrite Hw. split; [lia|]. intros k Hi. specialize (Hn2 k Hi).
    destruct (decide (k = n)) as [->|]; [|lia]. rewrite Hf in Hi. by destruct Hi.
Qed.

Lemma run_ok b es : jitter_ok b -> Forall push_ok es -> jitter_ok (run b es).2.
Proof.
  intros Hb Hes. revert b Hb. induction Hes as [|e es He _ IH]; intros b Hb; [done|]. simpl.
  destruct (step b e) as [p b'] eqn:E.
  assert (jitter_ok b') as Hb'.
  { destruct e as [c now f|]; simpl in *.
    - injection E as _ <-. by apply push_ok_ok.
    - pose proof (pop_ok b Hb). destruct (pop b). injection E as _ <-. done. }
  specialize (IH b' Hb'). by destruct (run b' es).
Qed.

Lemma step_target b e :
  floor_ms (mode b) <= target_ms b <= max_delay_ms (mode b) ->
  mode (step b e).2 = mode b /\
  floor_ms (mode b) <= target_ms (step b e).2 <= max_delay_ms (mode b).
Proof.
  intros H. destruct e as [c now f|]; simpl.
  - rewrite push_target. split; [apply push_fields|by apply observe_target].
  - destruct (pop_cases b) as [(p & -> & _)|(l & n & _ & _ & Hc)]; [done|].
    destruct Hc as [(f & _ & ->)|[(_ & _ & ->)|(_ & _ & ->)]]; done.
Qed.

Lemma run_cons b e es :
  run b (e :: es) =
  (option_list (played_slot (step b e).1 (step b e).2) ++ (run (step b e).2 es).1,
   (run (step b e).2 es).2).
Proof. simpl. destruct (step b e) as [p b']. simpl. by destruct (run b' es). Qed.

Lemma run_order b es :
  jitter_ok b -> Forall push_ok es ->
  StronglySorted Z.lt ((run b es).1.*1) /\
  (forall n, next b = Some n -> Forall (fun c => n <= c) ((run b es).1.*1)) /\
  (forall c f, (c, f) ∈ (run b es).1 ->
     frames b !! c = Some f \/ exists now, EPush c now f ∈ es).
Proof.
  intros Hb Hes. revert b Hb. induction Hes as [|e es He _ IH]; intros b Hb.
  { simpl. split_and!; [constructor|intros; constructor|].
    intros c f Hc. by apply not_elem_of_nil in Hc. }
  rewrite run_cons. simpl. destruct e as [c now f|]; simpl.
  - pose proof (push_fields b c now f) as (_ & Hn & _ & _ & Hf & _).
    destruct (IH (push b c now f)) as (H1 & H2 & H3); [by apply push_ok_ok|].
    split_and!; [done|intros n Hn'; apply H2; congruence|].
    intros c' f' Hin. destruct (H3 c' f' Hin) as [Hl|[w Hw]].
    + rewrite Hf in Hl. destruct (match next b with Some _ => _ | None => _ end); [by left|].
      apply lookup_insert_Some in Hl as [[-> ->]|[_ ?]]; [right; exists now; left|by left].
    + right. exists w. by right.
  - pose proof (pop_ok b Hb) as Hb'. specialize (IH _ Hb').
    destruct (pop_cases b) as [(p & Hp & Hpp)|(l & n & Hl & Hn & Hc)].
    { rewrite Hp in IH |- *. simpl. destruct IH as (H1 & H2 & H3).
      destruct Hpp as [-> | ->]; simpl; (split_and!; [done|done|]);
        intros c f Hin; (destruct (H3 c f Hin) as [?|[w ?]]; [by left|]);
        right; exists w; by right. }
    destruct (position_ok b l n Hb Hl Hn) as (Hn1 & Hn2 & Hn3).
    assert (wrap64 (n + 1) = n + 1) as Hw by (unfold wrap64; rewrite Z.mod_small; int_lia).
    destruct Hc as [(f & Hf & Hp)|[(Hf & _ & Hp)|(Hf & _ & Hp)]];
      rewrite Hp in IH |- *; simpl in *; destruct IH as (H1 & H2 & H3).
    + rewrite Hw in *. specialize (H2 _ eq_refl). replace (n + 1 - 1) with n by lia.
      split_and!.
      * constructor; [done|]. eapply Forall_impl; [exact H2|]. simpl. lia.
      * intros m Hm. rewrite <- (Hn3 m Hm). constructor; [lia|].
        eapply Forall_impl; [exact H2|]. simpl. lia.
      * intros c g Hin. apply elem_of_cons in Hin as [[= -> ->]|Hin]; [by left|].
        destruct (H3 c g Hin) as [Hd|[w ?]]; [|right; exists w; by right].
        left. by apply lookup_delete_Some in Hd as [_ ?].
    + split_and!; [done| |].
      * intros m Hm. rewrite <- (Hn3 m Hm). by apply H2.
      * intros c g Hin. destruct (H3 c g Hin) as [?|[w ?]]; [by left|right; exists w; by right].
    + rewrite Hw in *. split_and!; [done| |].
      * intros m Hm. rewrite <- (Hn3 m Hm).
        eapply Forall_impl; [exact (H2 _ eq_refl)|]. simpl. lia.
      * intros c g Hin. destruct (H3 c g Hin) as [?|[w ?]]; [by left|right; exists w; by right].
Qed.

(** ** Counting *)

Definition accounted (b : JitterBuffer) : Z :=
  played b + late b + Z.of_nat (size (frames b)).

Lemma run_accounted b es :
  NoDup (pushed_counters es) ->
  (forall c, c ∈ pushed_counters es -> frames b !! c = None) ->
  0 <= played b -> 0 <= late b -> accounted b + zlen (pushed_counters es) <= u64_max ->
  accounted (run b es).2 = accounted b + zlen (pushed_counters es) /\
  0 <= played (run b es).2 /\ 0 <= late (run b es).2.
Proof.
  revert b. induction es as [|e es IH]; intros b Hnd Hfr Hp Hl Hmax.
  { simpl in *. unfold zlen. simpl. lia. }
  rewrite run_cons. simpl. unfold accounted in *.
  destruct e as [c now f|]; unfold pushed_counters in *; csimpl in *.
  - fold (pushed_counters es) in *. apply NoDup_cons in Hnd as [Hnin Hnd].
    rewrite zlen_cons in *. pose proof (zlen_nonneg (pushed_counters es)).
    destruct (push_fields b c now f) as (_ & _ & Hpl & _ & Hf & Hlate & _).
    assert (accounted (push b c now f) = accounted b + 1 /\ 0 <= late (push b c now f))
      as [Hacc Hl'].
    { unfold accounted. rewrite Hpl, Hf, Hlate.
      destruct (match next b with Some _ => _ | None => _ end).
      - unfold wrap64. rewrite Z.mod_small by int_lia. lia.
      - rewrite size_insert_fresh by (apply Hfr; left). lia. }
    unfold accounted in Hacc. destruct (IH (push b c now f)) as (H1 & H2 & H3);
      [done| |lia|done|lia|].
    + intros c' Hc'. rewrite Hf.
      destruct (match next b with Some _ => _ | None => _ end); [apply Hfr; by right|].
      rewrite lookup_insert_ne by (intros ->; done). apply Hfr. by right.
    + split_and!; [lia|done|done].
  - fold (pushed_counters es) in *. pose proof (zlen_nonneg (pushed_counters es)).
    destruct (pop_cases b) as [(p & -> & _)|(l & n & _ & _ & Hc)]; [by apply IH|].
    destruct Hc as [(f & Hf & ->)|[(Hf & _ & ->)|(Hf & _ & ->)]]; simpl;
      [|match goal with |- context [run ?b' es] => by apply (IH b') end..].
    assert (Z.of_nat (size (delete n (frames b))) = Z.of_nat (size (frames b)) - 1) as Hs
      by (apply size_delete_present; eauto).
    assert (wrap64 (played b + 1) = played b + 1) as Hw.
    { unfold wrap64. rewrite Z.mod_small; int_lia. }
    match goal with |- context [run ?b' es] => destruct (IH b') as (H1 & H2 & H3) end;
      simpl in *; rewrite ?Hs, ?Hw in *; try done; try lia.
    + intros c Hc. apply lookup_delete_None. right. by apply Hfr.
Qed.

(** ** Playing out what is there *)

Lemma pop_present b n f :
  jitter_ok b -> next b = Some n -> frames b !! n = Some f ->
  exists b', pop b = (Frame f, b') /\ next b' = Some (n + 1) /\ mode b' = mode b /\
    frames b' = delete n (frames b).
Proof.
  intros Hb Hn Hf. destruct (pop_cases b) as [(p & Hp & Hpp)|(l & m & Hl & Hm & Hc)].
  - unfold pop in Hp. destruct (first_key (frames b)) as [l|] eqn:El.
    + unfold position_of in Hp. rewrite Hn, Hf in Hp. destruct Hpp; congruence.
    + apply first_key_None in El. by rewrite El in Hf.
  - destruct (position_ok b l m Hb Hl Hm) as (Hn1 & _ & Hn3). specialize (Hn3 n Hn). subst m.
    assert (wrap64 (n + 1) = n + 1) as Hw by (unfold wrap64; rewrite Z.mod_small; int_lia).
    destruct Hc as [(g & Hg & ->)|[(Hg & _)|(Hg & _)]]; [|congruence|congruence].
    eexists. split; [by rewrite Hf in Hg; injection Hg as <-|]. simpl. by rewrite Hw.
Qed.

Lemma pops_contiguous b n fs :
  jitter_ok b -> next b = Some n ->
  (forall i f, fs !! i = Some f -> frames b !! (n + Z.of_nat i) = Some f) ->
  pops (length fs) b = Frame <$> fs.
Proof.
  revert b n. induction fs as [|f fs IH]; intros b n Hb Hn Hfs; [done|].
  destruct (pop_present b n f Hb Hn) as (b' & Hp & Hn' & _ & Hf').
  { rewrite <- (Hfs 0%nat f eq_refl). f_equal. lia. }
  simpl. rewrite Hp. f_equal. apply (IH b' (n + 1)); [|done|].
  - pose proof (pop_ok b Hb) as H. by rewrite Hp in H.
  - intros i g Hi. rewrite Hf', lookup_delete_ne by lia. rewrite <- (Hfs (S i) g Hi).
    f_equal. lia.
Qed.

(** Conversationally an empty slot is concealed and passed. *)
Lemma pop_conceals b n k :
  jitter_ok b -> mode b = Conversational -> next b = Some n ->
  is_Some (frames b !! k) ->
  exists b', (pop b).2 = b' /\ jitter_ok b' /\ next b' = Some (n + 1) /\
    mode b' = Conversational /\ frames b' = delete n (frames b).
Proof.
  intros Hb Hm Hn Hk. destruct (frames b !! n) as [f|] eqn:Hf.
  - destruct (pop_present b n f Hb Hn Hf) as (b' & Hp & Hn' & Hm' & Hf').
    pose proof (pop_ok b Hb) as Hok. rewrite Hp in Hok |- *. exists b'.
    split_and!; try done. congruence.
  - pose proof (pop_ok b Hb) as Hok.
    destruct (pop_cases b) as [(p & Hp & _)|(l & m & Hl & Hpos & Hc)].
    + unfold pop in Hp. destruct (first_key (frames b)) as [l|] eqn:El.
      * unfold position_of, may_wait in Hp. rewrite Hn, Hf, Hm in Hp. simpl in Hp.
        apply (f_equal (fun x => missing x.2)) in Hp. simpl in Hp. exfalso.
        unfold wrap64 in Hp. revert Hp. pose proof (Z.div_mod (missing b + 1) 18446744073709551616).
        lia.
      * apply first_key_None in El. rewrite El in Hk. by destruct Hk.
    + destruct (position_ok b l m Hb Hl Hpos) as (Hn1 & _ & Hn3).
      specialize (Hn3 n Hn). subst m.
      assert (wrap64 (n + 1) = n + 1) as Hw by (unfold wrap64; rewrite Z.mod_small; int_lia).
      destruct Hc as [(g & Hg & _)|[(_ & Hw' & _)|(_ & _ & Hp)]]; [congruence| |].
      * unfold may_wait in Hw'. by rewrite Hm in Hw'.
      * rewrite Hp in Hok |- *. eexists. split; [done|]. simpl in *. rewrite Hw in *.
        split_and!; try done. by rewrite delete_id.
Qed.

(** ** Properties *)

(** A frame is played at most once, in order, and is the one that was pushed.
    Over any run of pushes and pops, the slots audio came out of are strictly
    increasing, and the audio of each was pushed under exactly that counter. *)
Theorem playout_in_order m es :
  Forall push_ok es ->
  let out := (run (with_mode m) es).1 in
  StronglySorted Z.lt (out.*1) /\
  (forall c f, (c, f) ∈ out -> exists now, EPush c now f ∈ es).
Proof.
  intros Hes out. destruct (run_order (with_mode m) es (with_mode_ok m) Hes) as (H1 & _ & H3).
  split; [done|]. intros c f Hin. destruct (H3 c f Hin) as [Hl|?]; [|done].
  simpl in Hl. by rewrite lookup_empty in Hl.
Qed.

Definition jitter_run : list event :=
  [EPush 8 0 [x08]; EPush 7 5 [x07]; EPop; EPush 10 40 [x0a]; EPop; EPop; EPush 7 70 [x07];
   EPop].

Lemma playout_in_order_witness :
  (run (with_mode Conversational) jitter_run).1 = [(7, [x07]); (8, [x08]); (10, [x0a])] /\
  StronglySorted Z.lt ((run (with_mode Conversational) jitter_run).1.*1).
Proof.
  split; [vm_compute; reflexivity|].
  apply (playout_in_order Conversational jitter_run).
  repeat constructor; unfold u64_max; lia.
Defined.

(** The buffer's depth stays inside what the mode promises, whatever the
    network does: between 20 and 200 milliseconds in conversation, between two and
    five seconds for fidelity, and the mode itself never changes. *)
Theorem target_within_mode m es :
  let b := (run (with_mode m) es).2 in
  mode b = m /\ floor_ms m <= target_ms b <= max_delay_ms m.
Proof.
  cbv zeta. assert (forall b, floor_ms (mode b) <= target_ms b <= max_delay_ms (mode b) ->
    mode (run b es).2 = mode b /\
    floor_ms (mode b) <= target_ms (run b es).2 <= max_delay_ms (mode b)) as H.
  { induction es as [|e es IH]; intros b Hb; [done|].
    rewrite run_cons. simpl. destruct (step_target b e Hb) as [Hm Ht].
    rewrite <- Hm in Ht. destruct (IH _ Ht) as [Hm' Ht']. by rewrite Hm' in *; rewrite Hm in *. }
  apply (H (with_mode m)), with_mode_ok.
Qed.

(** Every frame is accounted for.  Of frames pushed under distinct counters,
    each was played, or refused as late, or is still in the buffer: their numbers
    add up. *)
Theorem frames_accounted m es :
  NoDup (pushed_counters es) -> zlen (pushed_counters es) <= u64_max ->
  let b := (run (with_mode m) es).2 in
  played b + late b + Z.of_nat (size (frames b)) = zlen (pushed_counters es).
Proof.
  intros Hnd Hmax. cbv zeta.
  destruct (run_accounted (with_mode m) es) as [H _]; try done.
Qed.

Lemma frames_accounted_witness :
  let es := [EPush 8 0 [x08]; EPush 7 5 [x07]; EPop; EPush 10 40 [x0a]; EPop; EPush 6 50 []] in
  let b := (run (with_mode Conversational) es).2 in
  played b + late b + Z.of_nat (size (frames b)) = 4.
Proof.
  cbv zeta. etrans.
  - apply (frames_accounted Conversational).
    + apply (bool_decide_unpack _). reflexivity.
    + unfold u64_max. vm_compute. congruence.
  - reflexivity.
Defined.

(** A conversational call keeps moving.  Once playback has begun, a buffered
    frame comes out exactly as many pops later as it lies slots ahead, whatever is
    missing before it. *)
Theorem conversation_reaches_frame b n k f :
  jitter_ok b -> mode b = Conversational -> next b = Some n -> frames b !! k = Some f ->
  pops (S (Z.to_nat (k - n))) b !! Z.to_nat (k - n) = Some (Frame f).
Proof.
  intros Hb Hm Hn Hk.
  assert (n <= k) as Hle by (apply (jo_head _ Hb n Hn); eauto).
  remember (Z.to_nat (k - n)) as d eqn:Hd. revert b n Hb Hm Hn Hk Hle Hd.
  induction d as [|d IH]; intros b n Hb Hm Hn Hk Hle Hd.
  - assert (n = k) as -> by lia.
    destruct (pop_present b k f Hb Hn Hk) as (b' & Hp & _). simpl. by rewrite Hp.
  - destruct (pop_conceals b n k Hb Hm Hn) as (b' & Hp & Hb' & Hn' & Hm' & Hf'); [eauto|].
    simpl pops. destruct (pop b) as [p b1] eqn:E. simpl in Hp. subst b1.
    change ((p :: pops (S d) b') !! S d) with (pops (S d) b' !! d).
    apply (IH b' (n + 1)); try done; try lia.
    rewrite Hf', lookup_delete_ne by lia. done.
Qed.

Definition jitter_started : JitterBuffer :=
  (run (with_mode Conversational)
     [EPush 7 0 [x07]; EPush 8 5 [x08]; EPop; EPush 11 40 [x0b]]).2.

Lemma conversation_reaches_frame_witness :
  pops 4 jitter_started !! 3%nat = Some (Frame [x0b]).
Proof.
  apply (conversation_reaches_frame jitter_started 8 11 [x0b]).
  - unfold jitter_started. apply run_ok; [apply with_mode_ok|].
    repeat constructor; unfold u64_max; lia.
  - reflexivity.
  - vm_compute. reflexivity.
  - vm_compute. reflexivity.
Defined.

(** Recovery asks for exactly what is missing, and getting it is enough.  In
    fidelity mode the counters asked for are those between the play head and the
    sender's last that are not buffered; once each has been pushed, every slot up
    to the last plays a frame, none is concealed and none waits. *)
Theorem recovery_fills_every_slot b n highest fs got :
  jitter_ok b -> mode b = Fidelity -> next b = Some n -> 0 <= n <= highest ->
  highest < u64_max ->
  (forall c, c ∈ recoverable_through b highest <->
     n <= c <= highest /\ frames b !! c = None) /\
  (got.*1 = recoverable_through b highest ->
   (forall c, n <= c <= highest ->
      (list_to_map got ∪ frames b) !! c = fs !! Z.to_nat (c - n)) ->
   Z.of_nat (length fs) = highest - n + 1 ->
   pops (length fs) (foldl (fun b cf => push b cf.1 0 cf.2) b got) = Frame <$> fs).
Proof.
  intros Hb Hm Hn Hle Hmax.
  assert (forall c, c ∈ recoverable_through b highest <->
     n <= c <= highest /\ frames b !! c = None) as Hrec.
  { intros c. unfold recoverable_through, recoverable_between, range_incl. rewrite Hm, Hn.
    simpl. rewrite elem_of_retain, bool_decide_eq_true, elem_of_seqZ. lia || naive_solver lia. }
  split; [done|]. intros Hgot Hfs Hlen.
  assert (NoDup got.*1) as Hnd.
  { rewrite Hgot. unfold recoverable_through, recoverable_between, range_incl, retain.
    rewrite Hm, Hn. simpl. apply NoDup_filter, NoDup_seqZ. }
  assert (Forall (fun cf => n <= cf.1 <= highest) got) as Hin.
  { apply Forall_forall. intros [c f] Hin. simpl. apply Hrec. rewrite <- Hgot.
    apply list_elem_of_fmap. by exists (c, f). }
  assert (forall b, jitter_ok b -> next b = Some n ->
    let b' := foldl (fun b cf => push b cf.1 0 cf.2) b got in
    jitter_ok b' /\ next b' = Some n /\
    forall c, frames b' !! c = (list_to_map got ∪ frames b) !! c) as Hpush.
  { clear -Hnd Hin Hle Hmax. induction got as [|[c f] got IH]; intros b Hb Hn; cbn [foldl].
    - split_and!; [done|done|]. intros c. simpl. by rewrite map_empty_union.
    - apply Forall_cons in Hin as [Hc Hin]. simpl in Hc.
      apply NoDup_cons in Hnd as [Hnin Hnd].
      destruct (push_fields b c 0 f) as (_ & Hn' & _ & _ & Hf & _ & _).
      rewrite Hn in Hf. destruct (Z.ltb_spec c n); [lia|].
      destruct (IH Hnd Hin (push b c 0 f)) as (H1 & H2 & H3);
        [apply push_ok_ok; [done|lia]|congruence|].
      split_and!; [done|done|]. intros d. simpl. rewrite H3, Hf.
      destruct (decide (d = c)) as [->|Hne].
      + rewrite !lookup_union, !lookup_insert_eq, not_elem_of_list_to_map_1 by done.
        by destruct (frames b !! c).
      + by rewrite !lookup_union, !lookup_insert_ne by done. }
  destruct (Hpush b Hb Hn) as (Hb' & Hn' & Hf').
  apply (pops_contiguous _ n); [done|done|].
  intros i f Hi. apply lookup_lt_Some in Hi as Hi'.
  rewrite Hf', Hfs by lia. rewrite <- Hi. f_equal. lia.
Qed.

Definition fidelity_gap : JitterBuffer :=
  mkJitter Fidelity (list_to_map [(4, [x04]); (6, [x06])]) (Some 4) (Some 3) 2000
    (S754_zero false) None 1 0 0.

Lemma recovery_fills_every_slot_witness :
  recoverable_through fidelity_gap 7 = [5; 7] /\
  pops 4 (foldl (fun b cf => push b cf.1 0 cf.2) fidelity_gap [(5, [x05]); (7, [x07])]) =
  Frame <$> [[x04]; [x05]; [x06]; [x07]].
Proof.
  split; [vm_compute; reflexivity|].
  refine (proj2 (recovery_fills_every_slot fidelity_gap 4 7 [[x04]; [x05]; [x06]; [x07]]
    [(5, [x05]); (7, [x07])] _ eq_refl eq_refl ltac:(lia) ltac:(unfold u64_max; lia)) _ _ _).
  - split; simpl.
    + unfold MAX_FIDELITY_DELAY_MS. lia.
    + intros k [x Hx]. apply lookup_insert_Some in Hx as [[<- _]|[_ Hx]];
        [unfold u64_max; lia|].
      apply lookup_insert_Some in Hx as [[<- _]|[_ Hx]]; [unfold u64_max; lia|].
      by rewrite lookup_empty in Hx.
    + intros n [= <-]. split; [unfold u64_max; lia|]. intros k [x Hx].
      apply lookup_insert_Some in Hx as [[<- _]|[_ Hx]]; [lia|].
      apply lookup_insert_Some in Hx as [[<- _]|[_ Hx]]; [lia|].
      by rewrite lookup_empty in Hx.
    + intros s [= <-]. lia.
  - vm_compute. reflexivity.
  - intros c Hc. assert (c = 4 \/ c = 5 \/ c = 6 \/ c = 7) as [->|[->|[->| ->]]] by lia;
      vm_compute; reflexivity.
  - reflexivity.
Defined.
