(* ===== verification/Forward.v ===== *)
(** * Routing a group call, and the rooms a relay holds

    [crates/rotelyx-media/src/forward.rs] (Module [Forwarder]) and
    [crates/rotelyx-relay/src/room.rs] (Section [Rooms]).  A connection is a
    parameter: the transport gives it, the rooms only keep and clone it. *)

From S2P Require Import Prelude Crypto MediaFrame.

Inductive ForwardError :=
| NotAJoin (len : Z)
| Full
| AlreadyJoined (id : byte)
| NotJoined (id : byte)
| ForwardWrongSender (claimed arrived_on : byte)
| ForwardMedia (e : MediaError).

(** ** The join datagram *)

Definition JOIN_MAGIC : bytes := String.list_byte_of_string "RXROOM1".
Definition ROOM_ID_LEN : nat := 32.

Record Join := mkJoin { j_room : arr ROOM_ID_LEN; j_seat : byte }.

#[export] Instance Join_eq_dec : EqDecision Join.
Proof. solve_decision. Defined.

Definition join_datagram (room : arr ROOM_ID_LEN) (seat : byte) : bytes :=
  JOIN_MAGIC ++ ab room ++ [seat].

Definition parse_join (datagram : bytes) : Result Join ForwardError :=
  let want := (length JOIN_MAGIC + ROOM_ID_LEN + 1)%nat in
  if negb (bool_decide (length datagram = want)) ||
     negb (bool_decide (slice datagram 0 (length JOIN_MAGIC) = JOIN_MAGIC))
  then Err (NotAJoin (zlen datagram))
  else
    let room := copy_from_slice ROOM_ID_LEN
      (slice datagram (length JOIN_MAGIC) (length JOIN_MAGIC + ROOM_ID_LEN)) in
    Ok (mkJoin room (default zero_byte (datagram !! (want - 1)%nat))).

Definition room_for `{Hkdf} (call : bytes) : arr ROOM_ID_LEN :=
  hkdf_expand (String.list_byte_of_string "rotelyx room v1") call
    (String.list_byte_of_string "room id") ROOM_ID_LEN.

Lemma parse_join_datagram room seat :
  parse_join (join_datagram room seat) = Ok (mkJoin room seat).
Proof.
  unfold parse_join, join_datagram.
  assert (length (JOIN_MAGIC ++ ab room ++ [seat]) = 40%nat) as Hl
    by (rewrite !length_app, length_ab; done).
  rewrite Hl. rewrite slice_app_l by done. rewrite bool_decide_eq_true_2 by done.
  rewrite bool_decide_eq_true_2 by done. simpl negb. cbv iota. f_equal. f_equal.
  - rewrite slice_app_mid; [apply copy_ab|done|by rewrite length_ab].
  - change (length JOIN_MAGIC + ROOM_ID_LEN + 1 - 1)%nat with 39%nat.
    rewrite lookup_app_r by (vm_compute; lia). change (length JOIN_MAGIC) with 7%nat.
    rewrite lookup_app_r by (rewrite length_ab; unfold ROOM_ID_LEN; lia).
    by rewrite length_ab.
Qed.

(** ** The forwarder *)

Definition byte_le (a b : byte) : Prop := b2z a <= b2z b.

#[export] Instance byte_le_dec : RelDecision byte_le.
Proof. intros a b. unfold byte_le. apply _. Defined.

Module Forwarder.

Record t := mk { seen : gmap byte Z; relay_silence : bool }.

Record Routed := mkRouted { to : list byte; from : byte; counter : Z }.

Definition new : t := mk ∅ false.

Definition set_relay_silence (f : t) (on : bool) : t := mk (seen f) on.

Definition join (f : t) (id : byte) : Result unit ForwardError * t :=
  if MAX_SENDERS <=? b2z id then (Err (ForwardMedia (SenderOutOfRange id)), f)
  else if bool_decide (is_Some (seen f !! id)) then (Err (AlreadyJoined id), f)
  else if MAX_SENDERS <=? Z.of_nat (size (seen f)) then (Err Full, f)
  else (Ok tt, mk (<[id := 0]> (seen f)) (relay_silence f)).

Definition leave (f : t) (id : byte) : Result unit ForwardError * t :=
  (match seen f !! id with Some _ => Ok tt | None => Err (NotJoined id) end,
   mk (delete id (seen f)) (relay_silence f)).

(** Ids in increasing order, as [sort_unstable] leaves distinct ones. *)
Definition sorted_ids (l : list byte) : list byte := merge_sort byte_le l.

Definition participants (f : t) : list byte := sorted_ids ((map_to_list (seen f)).*1).

Definition frames_seen (f : t) (id : byte) : option Z := seen f !! id.

Definition route (f : t) (arrived_on : byte) (datagram : bytes)
    : Result Routed ForwardError * t :=
  match parse_header datagram with
  | Err e => (Err (ForwardMedia e), f)
  | Ok (claimed, counter, _) =>
      if negb (bool_decide (is_Some (seen f !! arrived_on)))
      then (Err (NotJoined arrived_on), f)
      else if negb (bool_decide (claimed = arrived_on))
      then (Err (ForwardWrongSender claimed arrived_on), f)
      else
        let f' :=
          match seen f !! arrived_on with
          | Some count => mk (<[arrived_on := sat_add64 count 1]> (seen f)) (relay_silence f)
          | None => f
          end in
        let to := sorted_ids
          (retain (fun id => negb (bool_decide (id = arrived_on)))
             ((map_to_list (seen f')).*1)) in
        (Ok (mkRouted to arrived_on counter), f')
  end.

Definition wants_filler (f : t) (id : byte) : bool :=
  relay_silence f && bool_decide (is_Some (seen f !! id)).

(** ** Lemmas *)

Lemma elem_of_ids (m : gmap byte Z) id : id ∈ (map_to_list m).*1 <-> is_Some (m !! id).
Proof.
  rewrite list_elem_of_fmap. split.
  - intros ([i n] & -> & Hin). apply elem_of_map_to_list in Hin. simpl. eauto.
  - intros [n Hn]. exists (id, n). split; [done|]. by apply elem_of_map_to_list.
Qed.

Lemma elem_of_sorted l id : id ∈ sorted_ids l <-> id ∈ l.
Proof. unfold sorted_ids. by rewrite merge_sort_Permutation. Qed.

(** What routing a well-formed, honest datagram does. *)
Lemma route_ok f id d counter n :
  parse_header d = Ok (id, counter, n) -> is_Some (seen f !! id) ->
  exists r f', route f id d = (Ok r, f') /\ from r = id /\ Forwarder.counter r = counter /\
    NoDup (to r) /\
    (forall i, i ∈ to r <-> is_Some (seen f !! i) /\ i <> id) /\
    dom (seen f') = dom (seen f) /\ relay_silence f' = relay_silence f.
Proof.
  intros Hp Hs. unfold route. rewrite Hp.
  rewrite bool_decide_eq_true_2 by done. simpl negb. cbv iota.
  rewrite bool_decide_eq_true_2 by done. simpl negb. cbv iota.
  destruct Hs as [c Hc]. rewrite Hc. do 2 eexists. split; [done|]. simpl.
  split_and!; try done.
  - unfold sorted_ids. rewrite merge_sort_Permutation. unfold retain.
    apply NoDup_filter, NoDup_fst_map_to_list.
  - intros i. rewrite elem_of_sorted, elem_of_retain, elem_of_ids, negb_true_iff.
    rewrite bool_decide_eq_false, lookup_insert_is_Some. split.
    + intros [Hne [<-|[_ Hi]]]; [done|done].
    + intros [Hi Hne]. split; [done|]. right. done.
  - apply dom_insert_lookup_L. eauto.
Qed.

(** Whatever is refused changes nothing. *)
Lemma route_err f id d e f' : route f id d = (Err e, f') -> f' = f.
Proof.
  unfold route. destruct (parse_header d) as [[[claimed c] n]|]; [|by intros [= _ <-]].
  repeat case_match; intros; by simplify_eq.
Qed.

Lemma route_dom f id d : dom (seen (route f id d).2) = dom (seen f).
Proof.
  destruct (route f id d) as [[r|e] f'] eqn:E; [|by apply route_err in E as ->].
  unfold route in E. destruct (parse_header d) as [[[claimed c] n]|]; [|done].
  destruct (bool_decide (is_Some _)) eqn:Es; [|done]. apply bool_decide_eq_true in Es.
  destruct (negb (bool_decide (claimed = id))); simpl in E; [done|].
  destruct Es as [k Hk]. rewrite Hk in E. injection E as _ <-. simpl.
  apply dom_insert_lookup_L. eauto.
Qed.

End Forwarder.

(** ** Rooms *)

Definition MAX_ROOMS : Z := 256.

Inductive RoomError :=
| TooManyRooms
| SeatRefused (seat : byte) (e : ForwardError)
| RoomGone
| RouteRefused (e : ForwardError)
| JoinRefused (e : ForwardError).

Section Rooms.
Context {Conn : Type}.

Record Room := mkRoom {
  forwarder : Forwarder.t;
  legs : gmap byte Conn;
}.

Abbreviation Rooms := (gmap (arr ROOM_ID_LEN) Room).

(** [Rooms::join]: the entry is made before the seat is asked for. *)
Definition rooms_join (rs : Rooms) (j : Join) (c : Conn) : Result unit RoomError * Rooms :=
  if bool_decide (rs !! j_room j = None) && (MAX_ROOMS <=? Z.of_nat (size rs))
  then (Err TooManyRooms, rs)
  else
    let room := default (mkRoom Forwarder.new ∅) (rs !! j_room j) in
    match Forwarder.join (forwarder room) (j_seat j) with
    | (Err e, f) => (Err (SeatRefused (j_seat j) e), <[j_room j := mkRoom f (legs room)]> rs)
    | (Ok _, f) => (Ok tt, <[j_room j := mkRoom f (<[j_seat j := c]> (legs room))]> rs)
    end.

Definition rooms_leave (rs : Rooms) (j : Join) : Rooms :=
  match rs !! j_room j with
  | None => rs
  | Some room =>
      let f := (Forwarder.leave (forwarder room) (j_seat j)).2 in
      let legs := delete (j_seat j) (legs room) in
      if bool_decide (legs = ∅) then delete (j_room j) rs
      else <[j_room j := mkRoom f legs]> rs
  end.

Definition rooms_route (rs : Rooms) (j : Join) (datagram : bytes)
    : Result (Forwarder.Routed * list Conn) RoomError * Rooms :=
  match rs !! j_room j with
  | None => (Err RoomGone, rs)
  | Some room =>
      match Forwarder.route (forwarder room) (j_seat j) datagram with
      | (Err e, f) => (Err (RouteRefused e), <[j_room j := mkRoom f (legs room)]> rs)
      | (Ok routed, f) =>
          (Ok (routed, omap (fun seat => legs room !! seat) (Forwarder.to routed)),
           <[j_room j := mkRoom f (legs room)]> rs)
      end
  end.

(** *** The relay: participants, from their join to their end

    [participant] reads the join, seats the connection and carries datagrams until
    the connection ends, then leaves; a join that is refused ends it before that. *)

Record Relay := mkRelay {
  rooms : Rooms;
  seated : list (Join * Conn);
}.

Definition relay_new : Relay := mkRelay ∅ [].

(** [participant], up to [carry]. *)
Definition arrive (r : Relay) (first : bytes) (c : Conn) : Result unit RoomError * Relay :=
  match parse_join first with
  | Err e => (Err (JoinRefused e), r)
  | Ok j =>
      match rooms_join (rooms r) j c with
      | (Ok _, rs) => (Ok tt, mkRelay rs ((j, c) :: seated r))
      | (Err e, rs) => (Err e, mkRelay rs (seated r))
      end
  end.

(** One turn of [carry]: the connections the datagram is copied to. *)
Definition carry_one (r : Relay) (j : Join) (datagram : bytes) : list Conn * Relay :=
  match rooms_route (rooms r) j datagram with
  | (Ok (_, cs), rs) => (cs, mkRelay rs (seated r))
  | (Err _, rs) => ([], mkRelay rs (seated r))
  end.

(** The end of [participant]. *)
Definition depart (r : Relay) (j : Join) : Relay :=
  mkRelay (rooms_leave (rooms r) j)
    (retain (fun p => negb (bool_decide (p.1 = j))) (seated r)).

(** The participants' tasks interleave in any order; each holds the lock for one
    of these. *)
Inductive relay_step : Relay -> Relay -> Prop :=
| StepArrive r first c : relay_step r (arrive r first c).2
| StepCarry r j c d : (j, c) ∈ seated r -> relay_step r (carry_one r j d).2
| StepDepart r j c : (j, c) ∈ seated r -> relay_step r (depart r j).

Inductive relay_reachable : Relay -> Prop :=
| ReachNew : relay_reachable relay_new
| ReachStep r r' : relay_reachable r -> relay_step r r' -> relay_reachable r'.

(** The rooms hold exactly the seated connections, and a forwarder knows exactly
    the seats its room has legs for. *)
Record relay_ok (r : Relay) : Prop := {
  ro_count : Z.of_nat (size (rooms r)) <= MAX_ROOMS;
  ro_seats k room : rooms r !! k = Some room ->
    dom (Forwarder.seen (forwarder room)) = dom (legs room) /\
    Z.of_nat (size (legs room)) <= MAX_SENDERS;
  ro_legs j c : (j, c) ∈ seated r <->
    exists room, rooms r !! j_room j = Some room /\ legs room !! j_seat j = Some c;
}.

Lemma size_dom_eq {V W} (m : gmap byte V) (n : gmap byte W) :
  dom m = dom n -> size m = size n.
Proof. intros H. by rewrite <- (size_dom m), <- (size_dom n), H. Qed.

Lemma relay_new_ok : relay_ok relay_new.
Proof.
  split; simpl.
  - rewrite map_size_empty. done.
  - intros k room Hk. by rewrite lookup_empty in Hk.
  - intros j c. split; [intros H; by apply not_elem_of_nil in H|].
    intros (room & Hr & _). by rewrite lookup_empty in Hr.
Qed.

(** The room a join finds or makes. *)
Definition room_at (r : Relay) (j : Join) : Room :=
  default (mkRoom Forwarder.new ∅) (rooms r !! j_room j).

Lemma room_at_ok r j :
  relay_ok r ->
  dom (Forwarder.seen (forwarder (room_at r j))) = dom (legs (room_at r j)) /\
  Z.of_nat (size (legs (room_at r j))) <= MAX_SENDERS /\
  forall s d, (exists room, rooms r !! j_room j = Some room /\ legs room !! s = Some d) <->
    legs (room_at r j) !! s = Some d.
Proof.
  intros [Hc Hs Hl]. unfold room_at. destruct (rooms r !! j_room j) as [room|] eqn:E; simpl.
  - destruct (Hs _ _ E). split_and!; try done. intros s d.
    split; [by intros (? & [= <-] & ?)|eauto].
  - split_and!; [by rewrite !dom_empty_L|by rewrite map_size_empty|].
    intros s d. split; [by intros (? & ? & ?)|by rewrite lookup_empty].
Qed.

(** A refused join leaves the room it found or made. *)
Lemma refused_join_ok r j :
  relay_ok r -> (rooms r !! j_room j = None -> Z.of_nat (size (rooms r)) < MAX_ROOMS) ->
  relay_ok (mkRelay (<[j_room j := room_at r j]> (rooms r)) (seated r)).
Proof.
  intros Hr Hroom. destruct (room_at_ok r j Hr) as (Hdom & Hsz & Hlegs).
  destruct Hr as [Hc Hs Hl]. split; simpl.
  - by apply size_insert_le.
  - intros k room Hk. apply lookup_insert_Some in Hk as [[<- <-]|[_ Hk]]; [done|by eapply Hs].
  - intros j' c'. rewrite Hl. destruct (decide (j_room j = j_room j')) as [Heq|Hne].
    + rewrite <- Heq, Hlegs, lookup_insert_eq. split; [eauto|by intros (? & [= <-] & ?)].
    + by rewrite lookup_insert_ne.
Qed.

(** A granted one seats the connection. *)
Lemma granted_join_ok r j c f :
  relay_ok r -> (rooms r !! j_room j = None -> Z.of_nat (size (rooms r)) < MAX_ROOMS) ->
  Forwarder.seen (forwarder (room_at r j)) !! j_seat j = None ->
  Z.of_nat (size (Forwarder.seen (forwarder (room_at r j)))) < MAX_SENDERS ->
  Forwarder.seen f = <[j_seat j := 0]> (Forwarder.seen (forwarder (room_at r j))) ->
  relay_ok (mkRelay (<[j_room j := mkRoom f (<[j_seat j := c]> (legs (room_at r j)))]> (rooms r))
    ((j, c) :: seated r)).
Proof.
  intros Hr Hroom Hseat Hfull Hf. destruct (room_at_ok r j Hr) as (Hdom & Hsz & Hlegs).
  destruct Hr as [Hc Hs Hl]. split; simpl.
  - by apply size_insert_le.
  - intros k room' Hk. apply lookup_insert_Some in Hk as [[<- <-]|[_ Hk]]; [|by eapply Hs].
    simpl. rewrite Hf, !dom_insert_L, Hdom. split; [done|].
    apply size_insert_le; [done|]. intros _. by rewrite <- (size_dom_eq _ _ Hdom).
  - intros j' c'. rewrite elem_of_cons, Hl. setoid_rewrite lookup_insert_Some. split.
    + intros [[= -> ->]|(room' & Hr' & Hl')].
      * eexists. split; [left; done|]. simpl. apply lookup_insert_eq.
      * destruct (decide (j_room j = j_room j')) as [Heq|Hne].
        -- eexists. split; [left; done|]. simpl. apply lookup_insert_Some. right.
           rewrite <- Heq in Hr'. split; [|by apply Hlegs; eauto].
           intros Hsame. assert (legs (room_at r j) !! j_seat j = Some c') as Hx
             by (rewrite Hsame; apply Hlegs; eauto).
           assert (j_seat j ∈ dom (legs (room_at r j))) as Hin by (apply elem_of_dom; eauto).
           rewrite <- Hdom in Hin. apply elem_of_dom in Hin as [? Hin]. congruence.
        -- exists room'. split; [by right|done].
    + intros (room' & [[Hk <-]|[Hk Hr']] & Hl'); [|right; eauto].
      simpl in Hl'. apply lookup_insert_Some in Hl' as [[Hsame ->]|[Hsame Hl']].
      * left. destruct j, j'. simpl in *. congruence.
      * right. rewrite <- Hk. by apply Hlegs.
Qed.

Lemma arrive_ok r first c : relay_ok r -> relay_ok (arrive r first c).2.
Proof.
  intros Hr. unfold arrive. destruct (parse_join first) as [j|e]; [|done]. unfold rooms_join.
  destruct (bool_decide _ && _) eqn:Eg; [by destruct r|].
  assert (rooms r !! j_room j = None -> Z.of_nat (size (rooms r)) < MAX_ROOMS) as Hroom.
  { intros Hn. rewrite bool_decide_eq_true_2 in Eg by done. simpl in Eg. by apply Z.leb_gt. }
  pose proof (refused_join_ok r j Hr Hroom) as Hrefused.
  assert (mkRoom (forwarder (room_at r j)) (legs (room_at r j)) = room_at r j) as Heta
    by (by destruct (room_at r j)).
  fold (room_at r j). unfold Forwarder.join.
  destruct (Z.leb_spec MAX_SENDERS (b2z (j_seat j))); [by rewrite Heta|].
  destruct (bool_decide (is_Some _)) eqn:Eseat; [by rewrite Heta|].
  destruct (Z.leb_spec MAX_SENDERS (Z.of_nat (size (Forwarder.seen (forwarder (room_at r j))))));
    [by rewrite Heta|].
  apply bool_decide_eq_false, eq_None_not_Some in Eseat. by apply granted_join_ok.
Qed.

(** A datagram changes no room's seats or legs. *)
Lemma carry_rooms r j d k :
  match rooms r !! k, rooms (carry_one r j d).2 !! k with
  | Some a, Some b => legs b = legs a /\
      dom (Forwarder.seen (forwarder b)) = dom (Forwarder.seen (forwarder a))
  | None, None => True
  | _, _ => False
  end.
Proof.
  unfold carry_one, rooms_route. destruct (rooms r !! j_room j) as [room|] eqn:E; simpl.
  2: { by destruct (rooms r !! k). }
  pose proof (Forwarder.route_dom (forwarder room) (j_seat j) d) as Hd.
  destruct (Forwarder.route _ _ _) as [[routed|e] f]; simpl in *.
  all: destruct (decide (j_room j = k)) as [<-|Hne];
    [rewrite E, lookup_insert_eq; done|rewrite lookup_insert_ne by done].
  all: by destruct (rooms r !! k).
Qed.

Lemma carry_size r j d : size (rooms (carry_one r j d).2) = size (rooms r).
Proof.
  unfold carry_one, rooms_route. destruct (rooms r !! j_room j) as [room|] eqn:E; [|done].
  destruct (Forwarder.route _ _ _) as [[routed|e] f]; simpl;
    rewrite map_size_insert, E; done.
Qed.

Lemma carry_seated r j d : seated (carry_one r j d).2 = seated r.
Proof.
  unfold carry_one. by destruct (rooms_route _ _ _) as [[[routed cs]|e] rs].
Qed.

Lemma carry_ok r j d : relay_ok r -> relay_ok (carry_one r j d).2.
Proof.
  intros [Hc Hs Hl]. pose proof (carry_rooms r j d) as Hk. split.
  - by rewrite carry_size.
  - intros k room Hroom. specialize (Hk k). rewrite Hroom in Hk.
    destruct (rooms r !! k) as [a|] eqn:E; [|done]. destruct Hk as [-> ->]. by eapply Hs.
  - intros j' c. rewrite carry_seated, Hl. specialize (Hk (j_room j')).
    destruct (rooms r !! j_room j') as [a|], (rooms (carry_one r j d).2 !! j_room j') as [b|];
      try done.
    destruct Hk as [Hk _]. split; intros (? & [= <-] & ?); eexists; (split; [done|]); congruence.
Qed.

Lemma depart_ok r j c : relay_ok r -> (j, c) ∈ seated r -> relay_ok (depart r j).
Proof.
  intros [Hc Hs Hl] Hj. pose proof (proj1 (Hl j c) Hj) as (room & Hroom & Hseat).
  destruct (Hs _ _ Hroom) as [Hdom Hsz].
  unfold depart, rooms_leave. rewrite Hroom.
  assert (forall j' c', j' <> j -> j_room j' = j_room j ->
    legs room !! j_seat j' = Some c' <-> delete (j_seat j) (legs room) !! j_seat j' = Some c')
    as Hother.
  { intros j' c' Hne Heq. rewrite lookup_delete_ne; [done|].
    intros Hs'. apply Hne. destruct j, j'. simpl in *. congruence. }
  assert (forall j' c', (j', c') ∈ retain (fun p => negb (bool_decide (p.1 = j))) (seated r)
    <-> j' <> j /\ (j', c') ∈ seated r) as Hret.
  { intros j' c'. rewrite elem_of_retain, negb_true_iff, bool_decide_eq_false. done. }
  case_bool_decide as Hempty; split; simpl.
  - rewrite map_size_delete, Hroom. simpl. lia.
  - intros k room' Hk. apply lookup_delete_Some in Hk as [_ Hk]. by eapply Hs.
  - intros j' c'. rewrite Hret, Hl. destruct (decide (j_room j' = j_room j)) as [Heq|Hne].
    + rewrite Heq, lookup_delete_eq, Hroom. split; [|by intros (? & ? & _)].
      intros (Hne & ? & [= <-] & Hl'). apply (Hother j' c' Hne Heq) in Hl'.
      by rewrite Hempty, lookup_empty in Hl'.
    + rewrite lookup_delete_ne by done. split; [by intros [_ ?]|]. intros H'. split; [|done].
      by intros ->.
  - apply size_insert_le; [done|congruence].
  - intros k room' Hk. apply lookup_insert_Some in Hk as [[<- <-]|[_ Hk]]; [|by eapply Hs].
    simpl. rewrite !dom_delete_L, Hdom. split; [done|]. rewrite map_size_delete, Hseat.
    simpl. lia.
  - intros j' c'. rewrite Hret, Hl. destruct (decide (j_room j' = j_room j)) as [Heq|Hne].
    + rewrite Heq, lookup_insert_eq, Hroom. split.
      * intros (Hne & ? & [= <-] & Hl'). eexists. split; [done|]. by apply Hother.
      * intros (? & [= <-] & Hl'). simpl in Hl'.
        assert (j' <> j) as Hne by (intros ->; by rewrite lookup_delete_eq in Hl').
        split; [done|]. eexists. split; [done|]. by apply Hother.
    + rewrite lookup_insert_ne by done. split; [by intros [_ ?]|]. intros H'. split; [|done].
      by intros ->.
Qed.

Lemma relay_rooms_ok r : relay_reachable r -> relay_ok r.
Proof.
  induction 1 as [|r r' _ IH Hstep]; [apply relay_new_ok|].
  destruct Hstep; [by apply arrive_ok|by apply carry_ok|by eapply depart_ok].
Qed.

(** ** Properties *)

(** The relay's bounds and bookkeeping hold however its participants'
    arrivals, datagrams and departures interleave: at most 256 rooms, at most 32
    seats a room, and the legs of the rooms are exactly the seated connections. *)
Theorem relay_bookkeeping r :
  relay_reachable r ->
  Z.of_nat (size (rooms r)) <= MAX_ROOMS /\
  (forall k room, rooms r !! k = Some room ->
     dom (Forwarder.seen (forwarder room)) = dom (legs room) /\
     Z.of_nat (size (legs room)) <= MAX_SENDERS) /\
  (forall j c, (j, c) ∈ seated r <->
     exists room, rooms r !! j_room j = Some room /\ legs room !! j_seat j = Some c).
Proof. intros H. by destruct (relay_rooms_ok r H). Qed.

(** A datagram reaches everybody else in the room and nobody besides.  A seated
    participant's datagram that names its own seat is copied to exactly the other
    connections seated in that room; one that names another seat, or is no frame at
    all, is copied to nobody and changes nothing a later datagram could notice. *)
Theorem carry_reaches_the_others r j c d :
  relay_reachable r -> (j, c) ∈ seated r ->
  (forall counter n, parse_header d = Ok (j_seat j, counter, n) ->
     forall c', c' ∈ (carry_one r j d).1 <->
       exists j', (j', c') ∈ seated r /\ j_room j' = j_room j /\ j_seat j' <> j_seat j) /\
  ((forall counter n, parse_header d <> Ok (j_seat j, counter, n)) ->
     (carry_one r j d).1 = [] /\ rooms (carry_one r j d).2 = rooms r).
Proof.
  intros Hr Hj. destruct (relay_rooms_ok r Hr) as [_ Hs Hl].
  destruct (proj1 (Hl j c) Hj) as (room & Hroom & Hseat). destruct (Hs _ _ Hroom) as [Hdom _].
  assert (is_Some (Forwarder.seen (forwarder room) !! j_seat j)) as Hseen.
  { apply elem_of_dom. rewrite Hdom. apply elem_of_dom. eauto. }
  unfold carry_one, rooms_route. rewrite Hroom. split.
  - intros counter n Hp c'.
    destruct (Forwarder.route_ok _ _ _ _ _ Hp Hseen) as (rt & f' & -> & _ & _ & _ & Hto & _).
    simpl. rewrite list_elem_of_omap. split.
    + intros (s & Hin & Hc'). apply Hto in Hin as [_ Hne].
      exists (mkJoin (j_room j) s). split; [|done]. apply Hl. eauto.
    + intros (j' & Hin & Heq & Hne). apply Hl in Hin as (room' & Hr' & Hc').
      rewrite Heq in Hr'. rewrite Hroom in Hr'. injection Hr' as <-.
      exists (j_seat j'). split; [|done]. apply Hto. split; [|done].
      apply elem_of_dom. rewrite Hdom. apply elem_of_dom. eauto.
  - intros Hp. destruct (Forwarder.route _ _ _) as [[rt|e] f] eqn:E; simpl.
    + unfold Forwarder.route in E. destruct (parse_header d) as [[[claimed cnt] n]|]; [|done].
      rewrite bool_decide_eq_true_2 in E by done. simpl in E.
      case_bool_decide; simpl in E; [subst; by destruct (Hp cnt n)|done].
    + split; [done|]. apply Forwarder.route_err in E as ->.
      apply insert_id. rewrite Hroom. by destruct room.
Qed.

Lemma refused_arrive r k seat c :
  MAX_SENDERS <= b2z seat -> Z.of_nat (size (rooms r)) < MAX_ROOMS -> rooms r !! k = None ->
  arrive r (join_datagram k seat) c =
    (Err (SeatRefused seat (ForwardMedia (SenderOutOfRange seat))),
     mkRelay (<[k := mkRoom Forwarder.new ∅]> (rooms r)) (seated r)).
Proof.
  intros Hs Hn Hk. unfold arrive. rewrite parse_join_datagram. unfold rooms_join. simpl.
  rewrite (proj2 (Z.leb_gt _ _)) by done. rewrite andb_false_r, Hk. simpl.
  unfold Forwarder.join. by rewrite (proj2 (Z.leb_le _ _)).
Qed.

Lemma refused_arrivals r ks seat c :
  MAX_SENDERS <= b2z seat -> NoDup ks -> (forall k, k ∈ ks -> rooms r !! k = None) ->
  Z.of_nat (size (rooms r)) + zlen ks <= MAX_ROOMS -> relay_reachable r ->
  let r' := foldl (fun r k => (arrive r (join_datagram k seat) c).2) r ks in
  relay_reachable r' /\ seated r' = seated r /\
  Z.of_nat (size (rooms r')) = Z.of_nat (size (rooms r)) + zlen ks /\
  (forall k, k ∉ ks -> rooms r' !! k = rooms r !! k).
Proof.
  intros Hs. revert r. induction ks as [|k ks IH]; intros r Hnd Hfr Hn Hr; cbv zeta; simpl.
  { unfold zlen. simpl. split_and!; [done|done|lia|done]. }
  apply NoDup_cons in Hnd as [Hnin Hnd]. rewrite zlen_cons in *. pose proof (zlen_nonneg ks).
  assert (relay_reachable (arrive r (join_datagram k seat) c).2) as Hr'
    by (eapply ReachStep; [done|constructor]).
  assert (rooms r !! k = None) as Hk by (apply Hfr; left).
  rewrite refused_arrive in Hr' |- * by (done || lia). simpl in *.
  match type of Hr' with relay_reachable ?r' =>
    destruct (IH r' Hnd) as (H1 & H2 & H3 & H4); [| |done|]; simpl end.
  - intros k' Hk'. rewrite lookup_insert_ne by (intros ->; done). apply Hfr. by right.
  - rewrite map_size_insert_None by done. lia.
  - split_and!; [done|done| |].
    + rewrite H3. simpl. rewrite map_size_insert_None by done. lia.
    + intros k' Hk'. apply not_elem_of_cons in Hk' as [Hne Hk']. rewrite H4 by done.
      simpl. by rewrite lookup_insert_ne.
Qed.

(** Refused joins fill the relay.  A join whose seat is out of range is
    refused, yet the room made for it stays; nobody is seated in it, so nothing
    ever removes it.  After 256 of them under distinct room ids, nobody is seated
    and no new room can be opened by anybody. *)
Theorem refused_joins_fill_relay ks seat c :
  MAX_SENDERS <= b2z seat -> NoDup ks -> zlen ks = MAX_ROOMS ->
  let r := foldl (fun r k => (arrive r (join_datagram k seat) c).2) relay_new ks in
  relay_reachable r /\ seated r = [] /\
  forall k s c', k ∉ ks -> (arrive r (join_datagram k s) c').1 = Err TooManyRooms.
Proof.
  intros Hs Hnd Hlen r.
  destruct (refused_arrivals relay_new ks seat c Hs Hnd) as (H1 & H2 & H3 & H4).
  - intros k _. apply lookup_empty.
  - simpl. rewrite map_size_empty. lia.
  - constructor.
  - fold r in H1, H2, H3, H4. split_and!; [done|done|]. intros k s c' Hk.
    unfold arrive. rewrite parse_join_datagram. unfold rooms_join. simpl.
    rewrite H4 by done. simpl. rewrite lookup_empty, bool_decide_eq_true_2 by done.
    rewrite H3. simpl. rewrite map_size_empty, Hlen. done.
Qed.

Lemma arrive_seated r k s c :
  is_ok (arrive r (join_datagram k s) c).1 = true ->
  seated (arrive r (join_datagram k s) c).2 = (mkJoin k s, c) :: seated r.
Proof.
  unfold arrive. rewrite parse_join_datagram.
  by destruct (rooms_join (rooms r) (mkJoin k s) c) as [[u|e] rs].
Qed.
End Rooms.

Module RoomExample.
(** Two participants share room 1, a third is in room 2; connections are numbers. *)
Definition room1 : arr ROOM_ID_LEN := be_arr 32 1.
Definition room2 : arr ROOM_ID_LEN := be_arr 32 2.
Definition r1 : Relay := (arrive (Conn := Z) relay_new (join_datagram room1 x03) 30).2.
Definition r2 : Relay := (arrive r1 (join_datagram room1 x04) 40).2.
Definition r3 : Relay := (arrive r2 (join_datagram room2 x04) 50).2.
Definition datagram : bytes := [z2b 3; x00; x2a].

Lemma r3_reachable : relay_reachable r3.
Proof.
  do 3 (eapply ReachStep; [|constructor]). constructor.
Qed.

Lemma r3_seated :
  seated r3 = [(mkJoin room2 x04, 50); (mkJoin room1 x04, 40); (mkJoin room1 x03, 30)].
Proof.
  unfold r3, r2, r1. by rewrite !arrive_seated by (vm_compute; reflexivity).
Qed.
End RoomExample.

Import RoomExample.

Lemma relay_bookkeeping_witness :
  seated r3 = [(mkJoin room2 x04, 50); (mkJoin room1 x04, 40); (mkJoin room1 x03, 30)] /\
  Z.of_nat (size (rooms r3)) <= MAX_ROOMS.
Proof.
  split; [apply r3_seated|]. exact (proj1 (relay_bookkeeping r3 r3_reachable)).
Defined.

Lemma carry_reaches_the_others_witness :
  (carry_one r3 (mkJoin room1 x03) datagram).1 = [40] /\
  (40 ∈ (carry_one r3 (mkJoin room1 x03) datagram).1 <->
   exists j', (j', 40) ∈ seated r3 /\ j_room j' = room1 /\ j_seat j' <> x03).
Proof.
  split; [vm_compute; reflexivity|].
  apply (proj1 (carry_reaches_the_others r3 (mkJoin room1 x03) 30 datagram r3_reachable
    ltac:(rewrite r3_seated; right; right; left)) 0 2).
  vm_compute. reflexivity.
Defined.

Lemma refused_joins_fill_relay_witness :
  let r := foldl (fun r k => (arrive r (join_datagram k x20) 0).2) relay_new
             (be_arr 32 <$> seqZ 0 256) in
  (arrive r (join_datagram (be_arr 32 1000) x00) 1).1 = Err TooManyRooms.
Proof.
  cbv zeta. refine (proj2 (proj2 (refused_joins_fill_relay (be_arr 32 <$> seqZ 0 256) x20 0
    _ _ _)) _ _ _ _).
  - vm_compute. congruence.
  - apply NoDup_fmap_2_strong; [|apply NoDup_seqZ].
    intros a b Ha%elem_of_seqZ Hb%elem_of_seqZ. apply be_arr_inj; lia.
  - vm_compute. reflexivity.
  - intros (a & Ha & Hin%elem_of_seqZ)%list_elem_of_fmap.
    apply be_arr_inj in Ha; lia.
Defined.
