(* ===== verification/MediaTransport.v ===== *)
(** * A call's media over the transport

    [crates/rotelyx-media/src/transport.rs].  [MediaOut] protects frames and keeps
    the last ones for retransmission; [MediaIn] unprotects them into the jitter
    buffer.  Both refuse a connection whose policy permits a direct path. *)

From S2P Require Import Prelude Crypto Path MediaFrame.
From S2P Require Jitter.

Definition MAX_FRAME : Z := 1100.
Definition HISTORY : Z := 256.

Inductive TransportError :=
| DirectPathPermitted
| TooLarge (len : Z)
| Media (e : MediaError).

(** ** The sending half *)

Record MediaOut := mkOut {
  o_sender : Sender;
  o_mode : Jitter.Mode;
  history : gmap Z bytes;
}.

Definition out_with_mode (policy : PathPolicy) (keys : SenderKeys) (mode : Jitter.Mode)
    : Result MediaOut TransportError :=
  if permits_direct policy then Err DirectPathPermitted
  else
    let? s := map_err Media (sender_new keys) in
    Ok (mkOut s mode ∅).

Definition out_new (policy : PathPolicy) (keys : SenderKeys) : Result MediaOut TransportError :=
  out_with_mode policy keys Jitter.Conversational.

Definition resend (o : MediaOut) (counter : Z) : option bytes := history o !! counter.

Definition recoverable_frames (o : MediaOut) : Z := Z.of_nat (size (history o)).

Definition oldest_recoverable (o : MediaOut) : option Z := first_key (history o).

(** The [while] that drops the oldest frames; it runs at most once per frame held. *)
Fixpoint evict (fuel : nat) (h : gmap Z bytes) : gmap Z bytes :=
  match fuel with
  | O => h
  | S fuel =>
      if HISTORY <? Z.of_nat (size h) then
        match first_key h with
        | Some oldest => evict fuel (delete oldest h)
        | None => h
        end
      else h
  end.

Definition out_frame `{CC : Aead} (o : MediaOut) (audio : bytes)
    : Result bytes TransportError * MediaOut :=
  let counter := frames_sent (o_sender o) in
  let '(res, s) := protect (o_sender o) audio in
  let o := mkOut s (o_mode o) (history o) in
  match res with
  | Err e => (Err (Media e), o)
  | Ok protected =>
      if MAX_FRAME <? zlen protected then (Err (TooLarge (zlen protected)), o)
      else if bool_decide (o_mode o = Jitter.Fidelity) then
        let h := <[counter := protected]> (history o) in
        (Ok protected, mkOut s (o_mode o) (evict (size h) h))
      else (Ok protected, o)
  end.

Definition out_payload_budget (o : MediaOut) (datagram_bytes : Z) : Z :=
  payload_budget (o_sender o) datagram_bytes.

Definition out_frames_sent (o : MediaOut) : Z := frames_sent (o_sender o).

Fixpoint out_frames `{CC : Aead} (o : MediaOut) (fs : list bytes)
    : list (Result bytes TransportError) * MediaOut :=
  match fs with
  | [] => ([], o)
  | f :: fs =>
      let '(r, o) := out_frame o f in
      let '(rs, o) := out_frames o fs in
      (r :: rs, o)
  end.

(** ** The receiving half *)

Record MediaIn := mkIn {
  i_receiver : Receiver;
  buffer : Jitter.JitterBuffer;
  dropped : Z;
  skipped : Z;
}.

Definition in_with_mode (policy : PathPolicy) (keys : SenderKeys) (mode : Jitter.Mode)
    : Result MediaIn TransportError :=
  if permits_direct policy then Err DirectPathPermitted
  else
    let? r := map_err Media (receiver_new keys) in
    Ok (mkIn r (Jitter.with_mode mode) 0 0).

Definition in_new (policy : PathPolicy) (keys : SenderKeys) : Result MediaIn TransportError :=
  in_with_mode policy keys Jitter.Conversational.

Definition to_recover (i : MediaIn) : list Z := Jitter.recoverable (buffer i).

Definition to_recover_between (i : MediaIn) (oldest : option Z) (highest : Z) : list Z :=
  Jitter.recoverable_between (buffer i) oldest highest.

Definition to_recover_through (i : MediaIn) (highest : Z) : list Z :=
  Jitter.recoverable_through (buffer i) highest.

Definition accept `{CC : Aead} (i : MediaIn) (datagram : bytes) (now_ms : Z) : MediaIn :=
  match parse_header datagram with
  | Err _ => mkIn (i_receiver i) (buffer i) (sat_add64 (dropped i) 1) (skipped i)
  | Ok (_, counter, _) =>
      match unprotect (i_receiver i) datagram with
      | (Ok audio, r) =>
          mkIn r (Jitter.push (buffer i) counter now_ms audio) (dropped i) (skipped i)
      | (Err _, r) => mkIn r (buffer i) (sat_add64 (dropped i) 1) (skipped i)
      end
  end.

Definition play (i : MediaIn) : Jitter.Playout * MediaIn :=
  let '(p, b) := Jitter.pop (buffer i) in
  (p, mkIn (i_receiver i) b (dropped i) (skipped i)).

Definition in_frame `{CC : Aead} (i : MediaIn) (datagram : bytes) : option bytes * MediaIn :=
  let before := highest_accepted (i_receiver i) in
  match unprotect (i_receiver i) datagram with
  | (Ok audio, r) =>
      let skip :=
        match before, highest_accepted r with
        | Some was, Some now => if was <? now then now - was - 1 else 0
        | _, _ => 0
        end in
      (Some audio, mkIn r (buffer i) (dropped i) skip)
  | (Err _, r) => (None, mkIn r (buffer i) (sat_add64 (dropped i) 1) 0)
  end.

Definition delay_ms (i : MediaIn) : Z := Jitter.target_ms (buffer i).

(** ** The history *)

Lemma evict_spec fuel h lo n :
  (size h <= fuel)%nat -> 0 <= n ->
  (forall k, is_Some (h !! k) -> lo <= k < n) ->
  let h' := evict fuel h in
  Z.of_nat (size h') <= HISTORY /\
  (forall k d, h' !! k = Some d -> h !! k = Some d) /\
  (forall k d, h !! k = Some d -> n - HISTORY <= k -> h' !! k = Some d).
Proof.
  revert h. induction fuel as [|fuel IH]; intros h Hf Hn Hk; cbv zeta; simpl.
  { split_and!; try done. unfold HISTORY. lia. }
  destruct (Z.ltb_spec HISTORY (Z.of_nat (size h))) as [Hlt|?]; [|done].
  pose proof (first_key_spec h) as Hfk. destruct (first_key h) as [o|].
  2: { subst h. rewrite map_size_empty in Hlt. unfold HISTORY in Hlt. lia. }
  destruct Hfk as [Ho Hmin].
  assert (o < n - HISTORY) as Hold.
  { destruct (Z.ltb_spec o (n - HISTORY)); [done|].
    assert (dom h ⊆ list_to_set (seqZ (n - HISTORY) HISTORY)) as Hsub.
    { intros k Hin%elem_of_dom. apply elem_of_list_to_set, elem_of_seqZ.
      specialize (Hmin k Hin). specialize (Hk k Hin). lia. }
    apply subseteq_size in Hsub. rewrite size_dom in Hsub.
    rewrite size_list_to_set in Hsub by apply NoDup_seqZ.
    rewrite length_seqZ in Hsub. unfold HISTORY in *. lia. }
  destruct (IH (delete o h)) as (H1 & H2 & H3).
  - pose proof (size_delete_present h o Ho). lia.
  - done.
  - intros k. rewrite lookup_delete_is_Some. intros [_ ?]. by apply Hk.
  - split_and!; [done| |].
    + intros k d Hd. apply H2, lookup_delete_Some in Hd as [_ ?]. done.
    + intros k d Hd Hin. apply H3; [|done]. rewrite lookup_delete_ne by lia. done.
Qed.

(** What one [frame] does, while the counter lasts. *)
Lemma out_frame_cases `{CC : Aead} o f :
  s_exhausted (o_sender o) = false ->
  (exists e, out_frame o f = (Err e, mkOut (advance (o_sender o)) (o_mode o) (history o))) \/
  (exists p, zlen p <= MAX_FRAME /\ protect (o_sender o) f = (Ok p, advance (o_sender o)) /\
     out_frame o f = (Ok p, mkOut (advance (o_sender o)) (o_mode o)
       (if bool_decide (o_mode o = Jitter.Fidelity)
        then let h := <[s_counter (o_sender o) := p]> (history o) in evict (size h) h
        else history o))).
Proof.
  intros He. pose proof (protect_advance (o_sender o) f) as Hp. rewrite He in Hp.
  unfold out_frame. destruct (protect (o_sender o) f) as [[p|e] s]; simpl in *; subst s;
    [|left; eauto].
  destruct (Z.ltb_spec MAX_FRAME (zlen p)); [left; eauto|].
  right. exists p. split_and!; [done|done|]. by destruct (bool_decide _).
Qed.

Lemma advance_small s :
  s_exhausted s = false -> s_counter s < u64_max ->
  s_exhausted (advance s) = false /\ s_counter (advance s) = s_counter s + 1 /\
  s_keys (advance s) = s_keys s /\ s_pad_to (advance s) = s_pad_to s.
Proof.
  intros He Hc. unfold advance, checked_add64.
  destruct (Z.leb_spec (s_counter s + 1) u64_max); [done|lia].
Qed.

(** What the history holds, given what [frame] returned so far. *)
Record history_ok (o : MediaOut) (outs : list (Result bytes TransportError)) : Prop := {
  ho_live : s_exhausted (o_sender o) = false;
  ho_counter : s_counter (o_sender o) = zlen outs;
  ho_size : Z.of_nat (size (history o)) <= HISTORY;
  ho_conv : o_mode o = Jitter.Conversational -> history o = ∅;
  ho_sound c d : history o !! c = Some d -> 0 <= c /\ outs !! Z.to_nat c = Some (Ok d);
  ho_kept c d : o_mode o = Jitter.Fidelity -> zlen outs - HISTORY <= Z.of_nat c ->
    outs !! c = Some (Ok d) -> history o !! Z.of_nat c = Some d;
}.

Lemma out_frame_history `{CC : Aead} o f outs :
  history_ok o outs -> zlen outs < u64_max ->
  history_ok (out_frame o f).2 (outs ++ [(out_frame o f).1]).
Proof.
  intros [He Hc Hsz Hconv Hsound Hkept] Hmax.
  destruct (advance_small (o_sender o) He ltac:(lia)) as (He' & Hc' & _).
  assert (Z.to_nat (zlen outs) = length outs) as Hlen by (unfold zlen; lia).
  assert (forall r c d, history o !! c = Some d ->
    0 <= c /\ (outs ++ [r]) !! Z.to_nat c = Some (Ok d)) as Hsound'.
  { intros r c d Hd. destruct (Hsound c d Hd) as [? ?]. split; [done|].
    by apply lookup_app_l_Some. }
  assert (forall (r : Result bytes TransportError) c d, (outs ++ [r]) !! c = Some (Ok d) ->
    outs !! c = Some (Ok d) \/ (c = length outs /\ r = Ok d)) as Hsplit.
  { intros r c d Hd. apply lookup_app_Some in Hd as [?|[Hge Hd]]; [by left|right].
    apply list_lookup_singleton_Some in Hd as [? ->]. split; [lia|done]. }
  destruct (out_frame_cases o f He) as [[e ->]|(p & _ & _ & ->)]; simpl.
  { split; simpl; try done.
    - rewrite Hc', Hc, zlen_app, zlen_cons, zlen_nil. lia.
    - intros c d. apply Hsound'.
    - intros c d Hm Hin Hd. rewrite zlen_app, zlen_cons, zlen_nil in Hin.
      destruct (Hsplit _ _ _ Hd) as [Hd'|[_ ?]]; [|done]. apply Hkept; [done|lia|done]. }
  assert (zlen (outs ++ [Ok p]) = zlen outs + 1) as Hz
    by (rewrite zlen_app, zlen_cons, zlen_nil; lia).
  case_bool_decide as Hm.
  - rewrite Hc. set (h := <[zlen outs := p]> (history o)).
    destruct (evict_spec (size h) h 0 (zlen outs + 1)) as (H1 & H2 & H3); [done| | |].
    + pose proof (zlen_nonneg outs). lia.
    + intros k [d Hk]. apply lookup_insert_Some in Hk as [[<- _]|[_ Hk]].
      * pose proof (zlen_nonneg outs). lia.
      * destruct (Hsound _ _ Hk) as [? Hd]. apply lookup_lt_Some in Hd. unfold zlen in *. lia.
    + split; simpl; try done.
      * rewrite Hz. lia.
      * intros Hm'. rewrite Hm in Hm'. done.
      * intros c d Hd. apply H2, lookup_insert_Some in Hd as [[<- <-]|[_ Hd]]; [|by apply Hsound'].
        rewrite Hlen. split; [apply zlen_nonneg|].
        rewrite lookup_app_r by lia. by rewrite Nat.sub_diag.
      * intros c d _ Hin Hd. rewrite Hz in Hin. apply H3; [|done].
        destruct (Hsplit _ _ _ Hd) as [Hd'|[-> [= ->]]].
        -- apply lookup_lt_Some in Hd' as Hlt. unfold h.
           rewrite lookup_insert_ne by (unfold zlen; lia). apply Hkept; [done|lia|done].
        -- unfold h. change (Z.of_nat (length outs)) with (zlen outs).
           apply lookup_insert_eq.
  - split; simpl; try done.
    + rewrite Hz. lia.
    + intros c d. apply Hsound'.
Qed.

Lemma out_frames_history `{CC : Aead} o fs outs :
  history_ok o outs -> zlen outs + zlen fs <= u64_max ->
  history_ok (out_frames o fs).2 (outs ++ (out_frames o fs).1) /\
  o_mode (out_frames o fs).2 = o_mode o.
Proof.
  revert o outs. induction fs as [|f fs IH]; intros o outs Ho Hmax; simpl.
  { by rewrite app_nil_r. }
  rewrite zlen_cons in Hmax. pose proof (zlen_nonneg fs).
  pose proof (out_frame_history o f outs Ho ltac:(lia)) as Ho'.
  assert (o_mode (out_frame o f).2 = o_mode o) as Hm.
  { destruct (out_frame_cases o f (ho_live _ _ Ho)) as [[e ->]|(p & _ & _ & ->)]; done. }
  destruct (out_frame o f) as [r o1]. simpl in *.
  destruct (IH o1 _ Ho') as [H1 H2].
  { rewrite zlen_app, zlen_cons, zlen_nil. lia. }
  destruct (out_frames o1 fs) as [rs o2]. simpl in *.
  rewrite <- app_assoc in H1. split; [done|congruence].
Qed.

Lemma out_with_mode_ok policy keys mode o :
  out_with_mode policy keys mode = Ok o ->
  permits_direct policy = false /\ history_ok o [] /\ o_mode o = mode /\
  sender_new keys = Ok (o_sender o).
Proof.
  unfold out_with_mode. destruct (permits_direct policy); [done|].
  destruct (sender_new keys) as [s|] eqn:Es; simpl; [|done]. intros [= <-].
  unfold sender_new in Es. case_cmp; [done|]. injection Es as <-.
  split_and!; try done.
Qed.

(** ** Gaps, as the receiver counts them *)

Fixpoint in_frames `{CC : Aead} (i : MediaIn) (ds : list bytes) : list (option bytes * Z) :=
  match ds with
  | [] => []
  | d :: ds => let '(r, i) := in_frame i d in (r, skipped i) :: in_frames i ds
  end.

(** The frames lost before each of a rising sequence of counters. *)
Fixpoint gaps (last : option Z) (order : list nat) : list Z :=
  match order with
  | [] => []
  | n :: order =>
      (match last with Some l => Z.of_nat n - l - 1 | None => 0 end)
        :: gaps (Some (Z.of_nat n)) order
  end.

Lemma highest_refines r hist :
  Window.refines r hist ->
  highest_accepted r = match hist with [] => None | _ => Some (Window.newest hist) end.
Proof.
  intros Hr. unfold highest_accepted. rewrite (Window.rf_started _ _ Hr).
  destruct hist as [|x hist]; [done|].
  by destruct (Window.rf_highest _ _ Hr ltac:(done)) as [-> _].
Qed.

Lemma in_frames_rising `{CC : Aead} `{!AeadLaws CC} k to (fs ds : list bytes) order i hist :
  b2z (sk_id k) < MAX_SENDERS ->
  (forall n d, ds !! n = Some d -> exists f sealed, fs !! n = Some f /\
     d = header k (Z.of_nat n) ++ sealed /\ u64 (Z.of_nat n) /\
     aead_seal (ab (sk_key k)) (nonce k (Z.of_nat n)) (header k (Z.of_nat n)) (pad f to)
     = Some sealed) ->
  r_keys (i_receiver i) = k -> Window.refines (i_receiver i) hist ->
  StronglySorted lt order -> Forall (fun n => n < length ds)%nat order ->
  Forall (fun n => Window.newest hist < Z.of_nat n) order ->
  in_frames i (omap (fun n => ds !! n) order) =
  zip (Some <$> omap (fun n => fs !! n) order)
    (gaps (match hist with [] => None | _ => Some (Window.newest hist) end) order).
Proof.
  intros Hid Hd. revert i hist. induction order as [|n order IH]; intros i hist Hk Hr Hs Hin Hnew;
    [done|].
  apply StronglySorted_inv in Hs as [Hs Hall]. apply Forall_cons in Hin as [Hn Hin].
  apply Forall_cons in Hnew as [Hn' _].
  apply lookup_lt_is_Some in Hn as [d Hn]. destruct (Hd n d Hn) as (f & sealed & Hf & -> & Hu & Hseal).
  assert (Window.fresh hist (Z.of_nat n) = true) as Hfresh.
  { unfold Window.fresh. destruct hist; [done|]. apply orb_true_iff. left. by apply Z.ltb_lt. }
  pose proof (unprotect_fresh k _ hist _ f to sealed Hk Hr Hu Hid Hfresh Hseal) as Hop.
  pose proof (Window.record_refines _ _ _ Hr Hu Hfresh) as Hr'.
  csimpl. rewrite Hn, Hf. revert Hop.
  generalize (header k (Z.of_nat n) ++ sealed) as d. intros d Hop. csimpl.
  unfold in_frame. rewrite Hop, (highest_refines _ _ Hr), (highest_refines _ _ Hr'). simpl.
  assert (Window.newest (Z.of_nat n :: hist) = Z.of_nat n) as Hnn by (simpl; lia).
  f_equal.
  - f_equal. destruct hist; [done|]. rewrite Z.max_l by lia.
    by rewrite (proj2 (Z.ltb_lt _ _)).
  - rewrite IH with (hist := Z.of_nat n :: hist); simpl; try done.
    + by rewrite Z.max_l by lia.
    + by rewrite (Window.refines_keys _ _ _ Hr).
    + eapply Forall_impl; [exact Hall|]. simpl. intros m. lia.
Qed.

(** ** Properties *)

(** A retransmission is the identical datagram.  A sender exists only over a
    policy that permits no direct path; after any run of frames, what it resends
    for a counter is what it sent for that counter, within the datagram limit; it
    holds at most 256 frames, none in conversation, and for fidelity every frame
    sent among the last 256 counters. *)
Theorem resend_is_identical `{CC : Aead} policy keys mode o fs :
  out_with_mode policy keys mode = Ok o -> zlen fs <= u64_max ->
  let outs := (out_frames o fs).1 in
  let o' := (out_frames o fs).2 in
  permits_direct policy = false /\
  (forall c d, resend o' c = Some d -> 0 <= c /\ outs !! Z.to_nat c = Some (Ok d)) /\
  recoverable_frames o' <= HISTORY /\
  (mode = Jitter.Conversational -> forall c, resend o' c = None) /\
  (mode = Jitter.Fidelity -> forall c d, zlen outs - HISTORY <= Z.of_nat c ->
     outs !! c = Some (Ok d) -> resend o' (Z.of_nat c) = Some d).
Proof.
  intros Ho Hmax. destruct (out_with_mode_ok _ _ _ _ Ho) as (Hp & Hok & Hm & _).
  destruct (out_frames_history o fs [] Hok Hmax) as [Hok' Hm']. cbv zeta.
  unfold resend, recoverable_frames. split_and!; [done| | | |].
  - intros c d. apply (ho_sound _ _ Hok').
  - apply (ho_size _ _ Hok').
  - intros -> c. rewrite (ho_conv _ _ Hok') by congruence. apply lookup_empty.
  - intros -> c d. apply (ho_kept _ _ Hok'). congruence.
Qed.

Definition toy_out : MediaOut := mkOut toy_sender Jitter.Fidelity ∅.

Lemma resend_is_identical_witness :
  let run := out_frames (CC := Toy.aead) toy_out toy_frames in
  is_Some (resend run.2 1) /\
  (forall c d, resend run.2 c = Some d -> 0 <= c /\ run.1 !! Z.to_nat c = Some (Ok d)).
Proof.
  cbv zeta. split; [eexists; vm_compute; reflexivity|].
  refine (proj1 (proj2 (resend_is_identical (CC := Toy.aead) RelayOnly toy_keys
    Jitter.Fidelity toy_out toy_frames _ _))).
  - reflexivity.
  - unfold zlen, u64_max. simpl. lia.
Defined.

(** A receiver counts what never arrived.  Of the frames one sender protected,
    given in rising order with any of them lost, each that arrives opens to what
    was protected and is reported with exactly the number of frames lost since the
    one before it. *)
Theorem skipped_counts_the_lost `{CC : Aead} `{!AeadLaws CC} policy k mode s i to fs ds order :
  sender_new k = Ok s -> in_with_mode policy k mode = Ok i -> zlen fs <= u64_max + 1 ->
  (protect_all (pad_to s to) fs).1 = Ok <$> ds ->
  StronglySorted lt order -> Forall (fun n => n < length ds)%nat order ->
  in_frames i (omap (fun n => ds !! n) order) =
  zip (Some <$> omap (fun n => fs !! n) order) (gaps None order).
Proof.
  intros Hs Hi Hlen Hds Hord Hin.
  assert (b2z (sk_id k) < MAX_SENDERS /\ s = mkSender k 0 false None) as [Hid ->].
  { unfold sender_new in Hs. case_cmp; [done|]. by injection Hs as <-. }
  unfold in_with_mode in Hi. destruct (permits_direct policy); [done|].
  destruct (receiver_new k) as [r|] eqn:Er; [|done]. injection Hi as <-.
  apply (in_frames_rising k to fs ds order _ []); simpl; try done.
  - intros n d Hn. assert ((protect_all (pad_to (mkSender k 0 false None) to) fs).1 !! n
      = Some (Ok d)) as Hn' by (by rewrite Hds, list_lookup_fmap, Hn).
    apply protect_all_lookup in Hn' as (f & sealed & Hf & -> & Hseal); simpl; [|done|done].
    exists f, sealed. simpl in *. rewrite Z.add_0_l in *. split_and!; try done.
    apply lookup_lt_Some in Hf. unfold zlen in Hlen. int_lia.
  - unfold receiver_new in Er. case_cmp; [done|]. by injection Er as <-.
  - by eapply Window.refines_new.
  - apply Forall_true. lia.
Qed.

Definition toy_in : MediaIn := mkIn toy_receiver (Jitter.with_mode Jitter.Fidelity) 0 0.

Lemma skipped_counts_the_lost_witness :
  in_frames (CC := Toy.aead) toy_in (omap (fun n => toy_datagrams !! n) [0; 2]%nat) =
  [(Some [x01], 0); (Some [], 1)].
Proof.
  etrans.
  - apply (skipped_counts_the_lost (CC := Toy.aead) RelayOnly toy_keys Jitter.Fidelity
      toy_sender toy_in (Some 6) toy_frames toy_datagrams [0; 2]%nat);
      try reflexivity.
    + unfold zlen, u64_max. simpl. lia.
    + repeat constructor.
    + apply (bool_decide_unpack _). reflexivity.
  - reflexivity.
Defined.
