(* ===== verification/Access.v ===== *)
(** * Who may open a session

    [crates/rotelyx-core/src/access.rs]: proofs of work, invitations and their
    codes, the gate that admits a caller, and the evidence a caller presents.
    Curve arithmetic ([EndpointId::from_bytes], [SecretKey::public]) belongs to the
    transport library and is an interface here; time and randomness are arguments,
    as callers pass the first and the operating system the second. *)

From S2P Require Import Prelude Crypto.

Definition POW_CONTEXT : string := "rotelyx contact proof-of-work v1".
Definition INVITE_CONTEXT : bytes := String.list_byte_of_string "rotelyx invitation proof v1".
Definition CIRCUIT_KEY_FINGERPRINT_CONTEXT : string :=
  "rotelyx relay circuit key fingerprint v1".
Definition EPOCH_SECONDS : Z := 3600.

Definition epoch_at (unix_seconds : Z) : Z := unix_seconds / EPOCH_SECONDS.

Inductive AccessError :=
| WrongTarget
| StaleProof (got want tolerance : Z)
| InsufficientWork (required : Z)
| BadInvitation
| ExpiredInvitation (expired_at : Z)
| Malformed
| MalformedAdmission.

#[export] Instance AccessError_eq_dec : EqDecision AccessError.
Proof. solve_decision. Defined.

(** An identity or an address: thirty-two bytes that name a curve point. *)
Abbreviation RotelyxId := (arr 32).

Class Curve := {
  (** [SecretKey::from_bytes(..).public()] *)
  public_of : arr 32 -> arr 32;
  (** whether [EndpointId::from_bytes] takes these bytes *)
  is_point : arr 32 -> bool;
}.

Class CurveLaws `(Curve) : Prop := {
  public_is_point t : is_point (public_of t) = true;
}.

(** ** Proof of work *)

Record ContactProof := mkProof { p_nonce : Z; p_epoch : Z }.

#[export] Instance ContactProof_eq_dec : EqDecision ContactProof.
Proof. solve_decision. Defined.

(** [u8::leading_zeros]. *)
Definition byte_leading_zeros (b : byte) : Z :=
  if b2z b =? 0 then 8 else 7 - Z.log2 (b2z b).

(** The loop, with its early [break]. *)
Fixpoint leading_zero_bits (digest : bytes) : Z :=
  match digest with
  | [] => 0
  | b :: rest =>
      let z := byte_leading_zeros b in
      if z =? 8 then z + leading_zero_bits rest else z
  end.

Section Work.
Context `{BL : Blake3}.

Definition pow_digest (sender target : RotelyxId) (epoch nonce : Z) : arr 32 :=
  blake3_derive POW_CONTEXT
    (ab sender ++ ab target ++ be_bytes 8 epoch ++ be_bytes 8 nonce).

(** [solve]'s loop for at most [fuel] turns from [nonce]. *)
Fixpoint solve_from (fuel : nat) (sender target : RotelyxId) (epoch difficulty nonce : Z)
    : option ContactProof :=
  match fuel with
  | O => None
  | S fuel =>
      if difficulty <=? leading_zero_bits (ab (pow_digest sender target epoch nonce))
      then Some (mkProof nonce epoch)
      else solve_from fuel sender target epoch difficulty (wrap64 (nonce + 1))
  end.

Definition solve (fuel : nat) (sender target : RotelyxId) (epoch difficulty : Z)
    : option ContactProof :=
  solve_from fuel sender target epoch difficulty 0.

Definition verify_proof (proof : ContactProof) (sender target : RotelyxId)
    (current_epoch difficulty tolerance : Z) : Result unit AccessError :=
  if tolerance <? abs_diff (p_epoch proof) current_epoch
  then Err (StaleProof (p_epoch proof) current_epoch tolerance)
  else
    let digest := pow_digest sender target (p_epoch proof) (p_nonce proof) in
    if leading_zero_bits (ab digest) <? difficulty then Err (InsufficientWork difficulty)
    else Ok tt.
End Work.

(** ** Exit relays *)

Record ExitRelay := mkExit {
  relay : RotelyxId;
  key_hash : arr 32;
  url : rstring;
}.

Definition fingerprint `{BL : Blake3} (key : bytes) : arr 32 :=
  blake3_derive CIRCUIT_KEY_FINGERPRINT_CONTEXT key.

Definition accepts `{BL : Blake3} (e : ExitRelay) (key : bytes) : bool :=
  bool_decide (fingerprint key = key_hash e).

(** ** Invitations *)

Record Invitation := mkInvitation {
  secret : arr 32;
  expires_at_epoch : Z;
  address : RotelyxId;
  transport : arr 32;
}.

Record ReadCode := mkReadCode {
  rc_secret : arr 32;
  rc_address : RotelyxId;
  rc_exit : option ExitRelay;
}.

Section Invitations.
Context `{Curve}.

Definition address_of (t : arr 32) : RotelyxId := public_of t.

Definition invitation_from_parts (s t : arr 32) (expires : Z) : Invitation :=
  mkInvitation s expires (address_of t) t.

(** [random_secret] and [random_transport] are what [getrandom::fill] wrote. *)
Definition invitation_issue (random_secret random_transport : arr 32) (expires : Z)
    : Invitation :=
  mkInvitation random_secret expires (address_of random_transport) random_transport.

Definition invitation_from_secret (random_transport s : arr 32) (expires : Z) : Invitation :=
  mkInvitation s expires (address_of random_transport) random_transport.

(** The first identity in a roster that is not one's own. *)
Definition peer_identity (roster : list bytes) (me : RotelyxId) : option RotelyxId :=
  let ids := retain is_point (omap (try_into 32) roster) in
  head (retain (fun id => negb (bool_decide (id = me))) ids).

Definition code (i : Invitation) : bytes := ab (secret i) ++ ab (address i).

Definition code_with_exit (i : Invitation) (e : ExitRelay) : bytes :=
  code i ++ ab (relay e) ++ ab (key_hash e) ++ rs (url e).

Definition endpoint_from_bytes (a : arr 32) : Result RotelyxId AccessError :=
  if is_point a then Ok a else Err Malformed.

Definition read_code_full (c : bytes) : Result ReadCode AccessError :=
  if zlen c <? 64 then Err Malformed
  else
    let s := copy_from_slice 32 (slice c 0 32) in
    let addr := copy_from_slice 32 (slice c 32 64) in
    let? id := endpoint_from_bytes addr in
    let? exit :=
      if zlen c =? 64 then Ok None
      else if 128 <? zlen c then
        let r := copy_from_slice 32 (slice c 64 96) in
        let? r := endpoint_from_bytes r in
        let h := copy_from_slice 32 (slice c 96 128) in
        let? u := ok_or Malformed (from_utf8 (drop 128 c)) in
        Ok (Some (mkExit r h u))
      else Err Malformed in
    Ok (mkReadCode s id exit).

Definition read_code (c : bytes) : Result (arr 32 * RotelyxId) AccessError :=
  let? r := read_code_full c in
  Ok (rc_secret r, rc_address r).
End Invitations.

Section Proofs.
Context `{BL : Blake3}.

Definition prove (i : Invitation) (caller : RotelyxId) (epoch : Z) : arr 32 :=
  blake3_keyed (secret i) (INVITE_CONTEXT ++ ab caller ++ be_bytes 8 epoch).

Definition verify (i : Invitation) (proof : arr 32) (caller : RotelyxId)
    (epoch current_epoch : Z) : Result unit AccessError :=
  if expires_at_epoch i <? current_epoch then Err (ExpiredInvitation (expires_at_epoch i))
  else if bool_decide (prove i caller epoch = proof) then Ok tt else Err BadInvitation.

(** ** The gate *)

Inductive ReachabilityPolicy :=
| InvitationOnly
| ProofOfWork (difficulty : Z)
| Open.

Definition admits_strangers (p : ReachabilityPolicy) : bool :=
  match p with InvitationOnly => false | _ => true end.

Inductive Admission :=
| AInvitation (proof : arr 32) (epoch : Z)
| AProofOfWork (p : ContactProof)
| ANone.

Record Gate := mkGate {
  policy : ReachabilityPolicy;
  invitations : list Invitation;
  tolerance : Z;
}.

Definition gate_new (p : ReachabilityPolicy) : Gate := mkGate p [] 1.
Definition gate_invitation_only : Gate := gate_new InvitationOnly.

Definition add_invitation (g : Gate) (i : Invitation) : Gate :=
  mkGate (policy g) (invitations g ++ [i]) (tolerance g).

Definition revoke (g : Gate) (s : arr 32) : Z * Gate :=
  let kept := retain (fun i => negb (bool_decide (secret i = s))) (invitations g) in
  (zlen (invitations g) - zlen kept, mkGate (policy g) kept (tolerance g)).

Definition prune (g : Gate) (current_epoch : Z) : Z * Gate :=
  let kept := retain (fun i => current_epoch <=? expires_at_epoch i) (invitations g) in
  (zlen (invitations g) - zlen kept, mkGate (policy g) kept (tolerance g)).

Definition invitation_count (g : Gate) : Z := zlen (invitations g).

(** The [for] over the invitations. *)
Fixpoint admit_by_invitation (invs : list Invitation) (named : bool)
    (dialled : option RotelyxId) (proof : arr 32) (caller : RotelyxId)
    (epoch current_epoch : Z) : Result unit AccessError :=
  match invs with
  | [] => Err BadInvitation
  | i :: invs =>
      if named && negb (bool_decide (dialled = Some (address i)))
      then admit_by_invitation invs named dialled proof caller epoch current_epoch
      else if is_ok (verify i proof caller epoch current_epoch) then Ok tt
      else admit_by_invitation invs named dialled proof caller epoch current_epoch
  end.

Definition names_an_invitation (g : Gate) (dialled : option RotelyxId) : bool :=
  match dialled with
  | Some at_ => existsb (fun i => bool_decide (address i = at_)) (invitations g)
  | None => false
  end.

Definition gate_admit (g : Gate) (caller me : RotelyxId) (evidence : Admission)
    (current_epoch : Z) (dialled : option RotelyxId) : Result unit AccessError :=
  match policy g, evidence with
  | Open, _ => Ok tt
  | InvitationOnly, AInvitation proof epoch =>
      admit_by_invitation (invitations g) (names_an_invitation g dialled) dialled proof
        caller epoch current_epoch
  | InvitationOnly, _ => Err BadInvitation
  | ProofOfWork difficulty, AProofOfWork proof =>
      verify_proof proof caller me current_epoch difficulty (tolerance g)
  | ProofOfWork difficulty, _ => Err (InsufficientWork difficulty)
  end.
End Proofs.

(** ** Evidence on the wire *)

Definition admission_to_bytes (a : Admission) : bytes :=
  match a with
  | AInvitation proof epoch => z2b 1 :: ab proof ++ be_bytes 8 epoch
  | AProofOfWork p => z2b 2 :: be_bytes 8 (p_nonce p) ++ be_bytes 8 (p_epoch p)
  | ANone => [z2b 0]
  end.

Definition admission_from_bytes (l : bytes) : Result Admission AccessError :=
  match l with
  | [] => Err MalformedAdmission
  | b :: _ =>
      if (b2z b =? 0) && (zlen l =? 1) then Ok ANone
      else if (b2z b =? 1) && (zlen l =? 41) then
        Ok (AInvitation (copy_from_slice 32 (slice l 1 33)) (be_value (slice l 33 41)))
      else if (b2z b =? 2) && (zlen l =? 17) then
        Ok (AProofOfWork (mkProof (be_value (slice l 1 9)) (be_value (slice l 9 17))))
      else Err MalformedAdmission
  end.

(** ** Leading zeros *)

Lemma byte_leading_zeros_range b : 0 <= byte_leading_zeros b <= 8.
Proof.
  unfold byte_leading_zeros. pose proof (b2z_range b). case_cmp; [lia|].
  pose proof (Z.log2_nonneg (b2z b)). assert (Z.log2 (b2z b) < 8); [|lia].
  apply Z.log2_lt_pow2; [lia|]. change (2 ^ 8) with 256. lia.
Qed.

Lemma leading_zero_bits_nonneg l : 0 <= leading_zero_bits l.
Proof.
  induction l as [|b l IH]; simpl; [done|]. pose proof (byte_leading_zeros_range b).
  case_cmp; lia.
Qed.

(** Enough leading zero bits, as a bound on the digest read as a number. *)
Lemma leading_zero_bits_spec l k :
  0 <= k <= 8 * zlen l ->
  k <= leading_zero_bits l <-> be_value l < 2 ^ (8 * zlen l - k).
Proof.
  revert k. induction l as [|b l IH]; intros k Hk.
  { change (zlen []) with 0 in *. assert (k = 0) as -> by lia. done. }
  rewrite be_value_cons, zlen_cons in *. cbn [leading_zero_bits].
  change (Z.of_nat (length l)) with (zlen l).
  pose proof (b2z_range b). pose proof (be_value_range l) as Hv. pose proof (zlen_nonneg l).
  change (Z.of_nat (length l)) with (zlen l) in Hv.
  assert (256 ^ zlen l = 2 ^ (8 * zlen l)) as E.
  { change 256 with (2 ^ 8). by rewrite Z.pow_mul_r by lia. }
  rewrite E in *. set (P := 2 ^ (8 * zlen l)) in *. unfold byte_leading_zeros.
  destruct (Z.eqb_spec (b2z b) 0) as [->|Hb].
  - simpl Z.eqb. cbv iota. rewrite Z.mul_0_l, Z.add_0_l. pose proof (leading_zero_bits_nonneg l).
    destruct (Z.leb_spec k 8).
    + split; [intros _|lia].
      assert (P <= 2 ^ (8 * (1 + zlen l) - k)) by (apply Z.pow_le_mono_r; lia). lia.
    + specialize (IH (k - 8) ltac:(lia)).
      replace (8 * (1 + zlen l) - k) with (8 * zlen l - (k - 8)) by lia. rewrite <- IH. lia.
  - assert (0 < b2z b) as Hpos by lia. pose proof (Z.log2_nonneg (b2z b)).
    destruct (Z.eqb_spec (7 - Z.log2 (b2z b)) 8); [lia|].
    destruct (Z.leb_spec k 8).
    + pose proof (Z.log2_lt_pow2 (b2z b) (8 - k) Hpos) as Hlog.
      replace (8 * (1 + zlen l) - k) with ((8 - k) + 8 * zlen l) by lia.
      rewrite Z.pow_add_r by lia. fold P. nia.
    + assert (2 ^ (8 * (1 + zlen l) - k) <= P) by (apply Z.pow_le_mono_r; lia).
      split; [lia|nia].
Qed.

Section WorkLemmas.
Context `{BL : Blake3}.
Implicit Types s t : RotelyxId.

(** A difficulty of [d] bits is a digest below [2 ^ (256 - d)]. *)
Definition meets (s t : RotelyxId) (epoch difficulty nonce : Z) : Prop :=
  be_value (ab (pow_digest s t epoch nonce)) < 2 ^ (256 - difficulty).

Lemma work_spec s t epoch d nonce :
  0 <= d <= 256 ->
  d <= leading_zero_bits (ab (pow_digest s t epoch nonce)) <-> meets s t epoch d nonce.
Proof.
  intros Hd. unfold meets.
  rewrite leading_zero_bits_spec; rewrite zlen_ab; [done|lia].
Qed.

Lemma verify_proof_ok p s t now d tol :
  0 <= d <= 256 ->
  verify_proof p s t now d tol = Ok tt <->
  Z.abs (p_epoch p - now) <= tol /\ meets s t (p_epoch p) d (p_nonce p).
Proof.
  intros Hd. unfold verify_proof, abs_diff. rewrite <- work_spec by done.
  destruct (Z.ltb_spec tol (Z.abs (p_epoch p - now))); [naive_solver lia|].
  destruct (Z.ltb_spec (leading_zero_bits (ab (pow_digest s t (p_epoch p) (p_nonce p)))) d);
    naive_solver lia.
Qed.

Lemma solve_from_meets fuel s t epoch d nonce p :
  0 <= d <= 256 -> solve_from fuel s t epoch d nonce = Some p ->
  p_epoch p = epoch /\ meets s t epoch d (p_nonce p).
Proof.
  intros Hd. revert nonce. induction fuel as [|fuel IH]; intros nonce; simpl; [done|].
  destruct (Z.leb_spec d (leading_zero_bits (ab (pow_digest s t epoch nonce)))).
  - intros [= <-]. simpl. split; [done|]. by apply work_spec.
  - apply IH.
Qed.

Lemma solve_from_finds fuel s t epoch d nonce n :
  0 <= d <= 256 -> 0 <= nonce <= n -> n <= u64_max -> n - nonce < Z.of_nat fuel ->
  meets s t epoch d n ->
  exists p, solve_from fuel s t epoch d nonce = Some p /\ nonce <= p_nonce p <= n.
Proof.
  intros Hd. revert nonce. induction fuel as [|fuel IH]; intros nonce Hn Hmax Hf Hm; [lia|].
  simpl. destruct (Z.leb_spec d (leading_zero_bits (ab (pow_digest s t epoch nonce)))) as [Hl|Hl].
  - eexists. split; [done|]. simpl. lia.
  - assert (nonce <> n) as Hne.
    { intros ->. apply work_spec in Hm; [|done]. lia. }
    assert (wrap64 (nonce + 1) = nonce + 1) as ->.
    { unfold wrap64. rewrite Z.mod_small; int_lia. }
    destruct (IH (nonce + 1)) as (p & Hp & Hr); [lia|done|lia|done|].
    exists p. split; [done|lia].
Qed.
End WorkLemmas.

(** ** The gate's decision *)

Section GateLemmas.
Context `{BL : Blake3}.

(** Which invitations an address leaves eligible: the one answered there, or all
    of them when no invitation is. *)
Definition eligible (g : Gate) (dialled : option RotelyxId) (i : Invitation) : Prop :=
  dialled = Some (address i) \/ forall j, j ∈ invitations g -> dialled <> Some (address j).

Lemma verify_ok i proof caller epoch now :
  verify i proof caller epoch now = Ok tt <->
  now <= expires_at_epoch i /\ prove i caller epoch = proof.
Proof.
  unfold verify. destruct (Z.ltb_spec (expires_at_epoch i) now); [naive_solver lia|].
  case_bool_decide; naive_solver.
Qed.

Lemma names_an_invitation_spec g dialled :
  names_an_invitation g dialled = true <->
  exists j, j ∈ invitations g /\ dialled = Some (address j).
Proof.
  unfold names_an_invitation. destruct dialled as [a|]; [|naive_solver].
  rewrite existsb_exists. setoid_rewrite bool_decide_eq_true.
  split; intros (j & Hj & He); exists j; apply list_elem_of_In in Hj || apply list_elem_of_In;
    naive_solver.
Qed.

Lemma admit_by_invitation_ok invs named dialled proof caller epoch now :
  admit_by_invitation invs named dialled proof caller epoch now = Ok tt <->
  exists i, i ∈ invs /\ (named = true -> dialled = Some (address i)) /\
    now <= expires_at_epoch i /\ prove i caller epoch = proof.
Proof.
  induction invs as [|i invs IH]; simpl.
  { split; [done|]. intros (i & Hi & _). by apply not_elem_of_nil in Hi. }
  assert (forall P : Invitation -> Prop, (exists j, j ∈ i :: invs /\ P j) <->
    P i \/ exists j, j ∈ invs /\ P j) as Hcons.
  { intros P. setoid_rewrite elem_of_cons. naive_solver. }
  rewrite Hcons, <- IH. destruct (named && negb (bool_decide (dialled = Some (address i)))) eqn:E.
  - apply andb_true_iff in E as [-> E]. apply negb_true_iff, bool_decide_eq_false in E.
    split; [by right|]. intros [(Hel & _)|Hrest]; [by destruct (E (Hel eq_refl))|done].
  - assert (named = true -> dialled = Some (address i)) as Hel.
    { intros ->. apply negb_false_iff, bool_decide_eq_true in E. done. }
    pose proof (verify_ok i proof caller epoch now) as Hv.
    destruct (verify i proof caller epoch now) as [[]|e]; simpl; naive_solver.
Qed.

Lemma eligible_named g dialled i :
  i ∈ invitations g ->
  (names_an_invitation g dialled = true -> dialled = Some (address i)) <->
  eligible g dialled i.
Proof.
  intros Hi. unfold eligible. destruct (names_an_invitation g dialled) eqn:E.
  - apply names_an_invitation_spec in E as (j & Hj & ->). naive_solver.
  - split; [|done]. intros _. right. intros j Hj He.
    assert (names_an_invitation g dialled = true) by (apply names_an_invitation_spec; eauto).
    congruence.
Qed.
End GateLemmas.

(** ** Properties *)

(** Who is admitted.  A gate that asks for invitations admits exactly a caller
    whose proof is one that some unexpired invitation gives for that caller and the
    epoch it names, and only the invitation answered at the address that was
    called, when one is; a gate that asks for work admits exactly a proof for this
    pair of identities, within one epoch of now, whose digest is below
    [2 ^ (256 - difficulty)]; an open gate admits anybody. *)
Theorem admit_decision `{BL : Blake3} g caller me evidence now dialled :
  (forall d, policy g = ProofOfWork d -> 0 <= d <= 255) ->
  gate_admit g caller me evidence now dialled = Ok tt <->
  match policy g, evidence with
  | Open, _ => True
  | InvitationOnly, AInvitation proof epoch =>
      exists i, i ∈ invitations g /\ eligible g dialled i /\ now <= expires_at_epoch i /\
        proof = prove i caller epoch
  | ProofOfWork d, AProofOfWork p =>
      Z.abs (p_epoch p - now) <= tolerance g /\
      meets caller me (p_epoch p) d (p_nonce p)
  | _, _ => False
  end.
Proof.
  intros Hd. unfold gate_admit. destruct (policy g) as [|d|] eqn:Ep; [| |done].
  - destruct evidence as [proof epoch| |]; [|done|done].
    rewrite admit_by_invitation_ok.
    split; intros (i & Hi & He & Hexp & Hp); exists i; (split; [done|]);
      (split; [by apply (eligible_named g dialled i Hi)|done]).
  - destruct evidence as [|p|]; [done| |done].
    apply verify_proof_ok. specialize (Hd d eq_refl). lia.
Qed.

(** An invitation's proof does not go stale.  Whatever epoch it was made for, a
    proof made once is admitted at every later hour up to the invitation's expiry;
    the gate never compares the epoch it names with the current one. *)
Theorem invitation_proof_outlives_its_epoch `{BL : Blake3} g i caller me epoch now :
  policy g = InvitationOnly -> i ∈ invitations g -> now <= expires_at_epoch i ->
  gate_admit g caller me (AInvitation (prove i caller epoch) epoch) now (Some (address i)) = Ok tt.
Proof.
  intros Hp Hi Hn. unfold gate_admit. rewrite Hp. apply admit_by_invitation_ok.
  exists i. split_and!; done.
Qed.

(** Evidence survives the wire, and the wire has one spelling of it.  Parsing
    what was encoded gives the evidence back; and bytes that parse are exactly the
    encoding of what they parse to. *)
Theorem admission_wire_roundtrip a l :
  match a with
  | AInvitation _ e => u64 e
  | AProofOfWork p => u64 (p_nonce p) /\ u64 (p_epoch p)
  | ANone => True
  end ->
  admission_from_bytes l = Ok a <-> l = admission_to_bytes a.
Proof.
  intros Ha. split.
  - unfold admission_from_bytes. destruct l as [|b l]; [done|]. rewrite zlen_cons.
    destruct ((b2z b =? 0) && (1 + zlen l =? 1)) eqn:E0.
    { intros [= <-]. apply andb_true_iff in E0 as [Hb Hl]. assert (l = []) as ->.
      { destruct l; [done|]. rewrite zlen_cons in Hl. pose proof (zlen_nonneg l). lia. }
      simpl. f_equal. apply b2z_inj. rewrite b2z_z2b_small; lia. }
    destruct ((b2z b =? 1) && (1 + zlen l =? 41)) eqn:E1.
    { intros [= <-]. apply andb_true_iff in E1 as [Hb Hl].
      destruct (split_at l 32 8) as (x & y & -> & Hx & Hy); [unfold zlen in Hl; lia|].
      destruct (two_fields b x y 33 41) as [-> ->]; [lia|lia|]. unfold admission_to_bytes.
      rewrite ab_copy, <- Hy, be_bytes_value by done. f_equal.
      apply b2z_inj. rewrite b2z_z2b_small; lia. }
    destruct ((b2z b =? 2) && (1 + zlen l =? 17)) eqn:E2; [|done].
    intros [= <-]. apply andb_true_iff in E2 as [Hb Hl].
    destruct (split_at l 8 8) as (x & y & -> & Hx & Hy); [unfold zlen in Hl; lia|].
    destruct (two_fields b x y 9 17) as [-> ->]; [lia|lia|]. unfold admission_to_bytes.
    simpl p_nonce. simpl p_epoch.
    pose proof (be_bytes_value x) as Ex. pose proof (be_bytes_value y) as Ey.
    rewrite Hx in Ex. rewrite Hy in Ey. rewrite Ex, Ey. f_equal. apply b2z_inj. rewrite b2z_z2b_small; lia.
  - intros ->. destruct a as [proof e|[n e]|]; [| |done];
      unfold admission_to_bytes, admission_from_bytes; simpl p_nonce in *; simpl p_epoch in *;
      rewrite zlen_cons, zlen_app, ?zlen_ab, !zlen_be_bytes.
    + simpl Z.eqb. cbv [andb]. change (b2z (z2b 1) =? 0) with false. cbv iota.
      change (b2z (z2b 1) =? 1) with true. cbv iota.
      destruct (two_fields (z2b 1) (ab proof) (be_bytes 8 e) 33 41) as [-> ->];
        [by rewrite length_ab|by rewrite length_be_bytes|].
      rewrite copy_ab, be_value_bytes_small by (by apply u64_pow). done.
    + simpl Z.eqb. cbv [andb]. change (b2z (z2b 2) =? 0) with false. cbv iota.
      change (b2z (z2b 2) =? 1) with false. change (b2z (z2b 2) =? 2) with true. cbv iota.
      destruct (two_fields (z2b 2) (be_bytes 8 n) (be_bytes 8 e) 9 17) as [-> ->];
        [by rewrite length_be_bytes|by rewrite length_be_bytes|].
      rewrite !be_value_bytes_small by (apply u64_pow; naive_solver). done.
Qed.

(** A code reads back to what the issuer put in it.  The bare code gives the
    secret and the address; with an exit relay whose address is not empty, the
    relay, its key's hash and its address come back as well; any other length than
    64 bytes or more than 128 is refused. *)
Theorem invitation_code_roundtrip `{CV : Curve} `{!CurveLaws CV} s t expires e :
  let i := invitation_from_parts s t expires in
  read_code_full (code i) = Ok (mkReadCode s (public_of t) None) /\
  (is_point (relay e) = true -> rs (url e) <> [] ->
   read_code_full (code_with_exit i e) = Ok (mkReadCode s (public_of t) (Some e))) /\
  (forall c, zlen c < 64 \/ 64 < zlen c <= 128 -> is_ok (read_code_full c) = false).
Proof.
  cbv zeta. assert (forall (a b c d u : bytes), length a = 32%nat -> length b = 32%nat ->
    length c = 32%nat -> length d = 32%nat ->
    let x := (a ++ b) ++ c ++ d ++ u in
    slice x 0 32 = a /\ slice x 32 64 = b /\ slice x 64 96 = c /\ slice x 96 128 = d /\
    drop 128 x = u) as Hparts.
  { intros a b c d u Ha Hb Hc Hd. cbv zeta. rewrite <- app_assoc. split_and!.
    - by apply slice_app_l.
    - apply slice_app_mid; lia.
    - rewrite (app_assoc a b). apply slice_app_mid; rewrite length_app; lia.
    - rewrite (app_assoc a b), (app_assoc _ c).
      apply slice_app_mid; rewrite !length_app; lia.
    - rewrite !app_assoc. apply drop_app_length'. rewrite !length_app. lia. }
  split_and!.
  - unfold read_code_full, code. simpl. rewrite zlen_app, !zlen_ab. simpl.
    rewrite (slice_app_l (ab s) _ 32) by (by rewrite length_ab).
    rewrite (slice_app_r (ab s) _ 32 64) by (by rewrite ?length_ab).
    rewrite !copy_ab. unfold endpoint_from_bytes, address_of. by rewrite public_is_point.
  - intros Hp Hu. unfold read_code_full, code_with_exit, code. simpl secret. simpl address.
    rewrite !zlen_app, !zlen_ab.
    assert (0 < zlen (rs (url e))) as Hz.
    { destruct (rs (url e)); [done|]. rewrite zlen_cons. pose proof (zlen_nonneg l). lia. }
    destruct (Hparts (ab s) (ab (address_of t)) (ab (relay e)) (ab (key_hash e)) (rs (url e)))
      as (-> & -> & -> & -> & ->); try apply length_ab.
    rewrite (proj2 (Z.ltb_ge _ _)), (proj2 (Z.eqb_neq _ _)), (proj2 (Z.ltb_lt _ _)) by lia.
    rewrite !copy_ab, from_utf8_rs. unfold endpoint_from_bytes, address_of.
    rewrite public_is_point, Hp. simpl. by destruct e.
  - intros c Hc. unfold read_code_full. case_cmp; [done|].
    destruct (Z.eqb_spec (zlen c) 64); [lia|]. destruct (Z.ltb_spec 128 (zlen c)); [lia|].
    by destruct (endpoint_from_bytes _).
Qed.

(** Solving ends, and what it finds is accepted.  If any nonce at all does the
    work, the search from zero stops no later than there; and whatever it returns
    verifies, for the same two identities, at every time within the tolerance. *)
Theorem solve_then_verify `{BL : Blake3} s t epoch d :
  0 <= d <= 255 ->
  (forall n, u64 n -> meets s t epoch d n ->
     exists p, solve (S (Z.to_nat n)) s t epoch d = Some p /\ p_nonce p <= n) /\
  (forall fuel p now tol, solve fuel s t epoch d = Some p -> Z.abs (epoch - now) <= tol ->
     verify_proof p s t now d tol = Ok tt).
Proof.
  intros Hd. split.
  - intros n Hn Hm. destruct (solve_from_finds (S (Z.to_nat n)) s t epoch d 0 n)
      as (p & Hp & Hr); unfold u64 in Hn; [lia|lia|lia|lia|done|]. exists p. split; [done|lia].
  - intros fuel p now tol Hp Hnow. apply solve_from_meets in Hp as [He Hm]; [|lia].
    apply verify_proof_ok; [lia|]. by rewrite He.
Qed.

(** Retiring invitations.  After [revoke], no invitation with that secret is
    left and every other one is, in order; [prune] drops exactly the expired ones,
    and changes no decision about a caller whose address none of them answered. *)
Theorem retiring_invitations `{BL : Blake3} g s now :
  (forall i, i ∈ invitations (revoke g s).2 <-> i ∈ invitations g /\ secret i <> s) /\
  (forall i, i ∈ invitations (prune g now).2 <->
     i ∈ invitations g /\ now <= expires_at_epoch i) /\
  (forall caller me evidence dialled,
     (forall i, i ∈ invitations g -> expires_at_epoch i < now -> dialled <> Some (address i)) ->
     gate_admit (prune g now).2 caller me evidence now dialled = Ok tt <->
     gate_admit g caller me evidence now dialled = Ok tt).
Proof.
  assert (forall i, i ∈ invitations (prune g now).2 <->
     i ∈ invitations g /\ now <= expires_at_epoch i) as Hprune.
  { intros i. simpl. rewrite elem_of_retain, Z.leb_le. naive_solver. }
  split_and!; [|done|].
  - intros i. simpl. rewrite elem_of_retain, negb_true_iff, bool_decide_eq_false. naive_solver.
  - intros caller me evidence dialled Hd. unfold gate_admit. simpl policy. simpl tolerance.
    destruct (policy g); [|done|done]. destruct evidence as [proof epoch| |]; [|done|done].
    rewrite !admit_by_invitation_ok.
    assert (forall i, i ∈ invitations g -> now <= expires_at_epoch i ->
      eligible (prune g now).2 dialled i <-> eligible g dialled i) as Hel.
    { intros i Hi Hn. unfold eligible. split; (intros [?|Hall]; [by left|right]).
      - intros j Hj. destruct (Z.ltb_spec (expires_at_epoch j) now); [by apply Hd|].
        apply Hall, Hprune. done.
      - intros j [Hj _]%Hprune. by apply Hall. }
    split; intros (i & Hi & He & Hexp & Hp); exists i.
    + assert (i ∈ invitations g) as Hi' by (by apply Hprune in Hi as [? _]).
      split_and!; try done. apply (eligible_named g dialled i Hi'), Hel; [done|done|].
      by apply (eligible_named _ dialled i Hi).
    + assert (i ∈ invitations (prune g now).2) as Hi' by (by apply Hprune).
      split_and!; try done. apply (eligible_named _ dialled i Hi'), Hel; [done|done|].
      by apply (eligible_named g dialled i Hi).
Qed.

(** ** Examples the properties are applied at *)

Module AccessExample.
#[global] Instance curve : Curve := {| public_of t := t; is_point _ := true |}.
#[global] Instance curve_laws : CurveLaws curve.
Proof. by split. Qed.

Definition alice : RotelyxId := be_arr 32 1.
Definition bob : RotelyxId := be_arr 32 2.
Definition inv : Invitation := mkInvitation (be_arr 32 7) 100 (be_arr 32 8) (be_arr 32 8).
Definition gate : Gate := add_invitation gate_invitation_only inv.
Definition exit_url : rstring := RString [x61; xc3; xa9] I.
Definition exit : ExitRelay := mkExit (be_arr 32 9) (be_arr 32 10) exit_url.
End AccessExample.

Import AccessExample.

Lemma admit_decision_witness :
  let ev := AInvitation (prove (BL := Toy.blake3) inv alice 3) 3 in
  gate_admit (BL := Toy.blake3) gate alice bob ev 50 None = Ok tt <->
  exists i, i ∈ invitations gate /\ eligible gate None i /\ 50 <= expires_at_epoch i /\
    prove (BL := Toy.blake3) inv alice 3 = prove (BL := Toy.blake3) i alice 3.
Proof.
  refine (admit_decision (BL := Toy.blake3) gate alice bob
    (AInvitation (prove (BL := Toy.blake3) inv alice 3) 3) 50 None _).
  intros d Hd. discriminate Hd.
Defined.

Lemma invitation_proof_outlives_its_epoch_witness :
  gate_admit (BL := Toy.blake3) gate alice bob
    (AInvitation (prove (BL := Toy.blake3) inv alice 3) 3) 100 (Some (be_arr 32 8)) = Ok tt.
Proof.
  apply (invitation_proof_outlives_its_epoch (BL := Toy.blake3) gate inv alice bob 3 100).
  - reflexivity.
  - left.
  - simpl. lia.
Defined.

Lemma admission_wire_roundtrip_witness :
  admission_from_bytes (admission_to_bytes (AProofOfWork (mkProof 5 6))) =
  Ok (AProofOfWork (mkProof 5 6)).
Proof.
  apply (admission_wire_roundtrip (AProofOfWork (mkProof 5 6))); [|reflexivity].
  simpl. unfold u64, u64_max. lia.
Defined.

Lemma invitation_code_roundtrip_witness :
  read_code_full (code_with_exit (invitation_from_parts (be_arr 32 7) (be_arr 32 8) 100) exit) =
  Ok (mkReadCode (be_arr 32 7) (be_arr 32 8) (Some exit)).
Proof.
  refine (proj1 (proj2 (invitation_code_roundtrip (CV := curve) (be_arr 32 7) (be_arr 32 8) 100
    exit)) _ _); [reflexivity|discriminate].
Defined.

(** Difficulty one: half of all digests do. *)
Lemma solve_then_verify_witness :
  exists p, solve (BL := Toy.blake3) 5 alice bob 3 1 = Some p /\
    verify_proof (BL := Toy.blake3) p alice bob 4 1 1 = Ok tt.
Proof.
  exists (mkProof 0 3). assert (solve (BL := Toy.blake3) 5 alice bob 3 1 =
    Some (mkProof 0 3)) as Hs by (vm_compute; reflexivity).
  split; [exact Hs|].
  refine (proj2 (solve_then_verify (BL := Toy.blake3) alice bob 3 1 _) 5%nat _ 4 1 Hs _);
    lia.
Defined.
