(* ===== verification/Wire.v ===== *)
(** * Framing of the control stream

    [crates/rotelyx-core/src/wire.rs].  A stream is the bytes that are still to be
    read from it; [read_exact] past its end is an end-of-file error.  Writing gives
    the bytes handed to [write_all]. *)

From S2P Require Import Prelude.

Definition MAX_FRAME_LEN : Z := Z.shiftl 1 20.
Definition HEADER_LEN : nat := 4.

Inductive WireError :=
| WireIo
| FrameTooLarge (announced cap : Z)
| EmptyFrame
| UnknownKind (v : byte).

Inductive FrameKind :=
| Message | Handshake | CallControl | Ping | Pong | WAdmission | Hello | Resume.

#[export] Instance FrameKind_eq_dec : EqDecision FrameKind.
Proof. solve_decision. Defined.

(** The discriminants: [kind as u8]. *)
Definition kind_byte (k : FrameKind) : byte :=
  z2b (match k with
       | Message => 1 | Handshake => 2 | CallControl => 3 | Ping => 4
       | Pong => 5 | WAdmission => 6 | Hello => 8 | Resume => 7
       end).

Definition from_u8 (v : byte) : Result FrameKind WireError :=
  match b2z v with
  | 1 => Ok Message
  | 2 => Ok Handshake
  | 3 => Ok CallControl
  | 4 => Ok Ping
  | 5 => Ok Pong
  | 6 => Ok WAdmission
  | 7 => Ok Resume
  | 8 => Ok Hello
  | _ => Err (UnknownKind v)
  end.

Definition WIRE_VERSION : Z := 1.

Record Frame := mkFrame { f_kind : FrameKind; f_payload : bytes }.

Definition write (f : Frame) : Result bytes WireError :=
  let body_len := zlen (f_payload f) + 1 in
  if MAX_FRAME_LEN <? body_len then Err (FrameTooLarge body_len MAX_FRAME_LEN)
  else Ok (be_bytes 4 (wrap32 body_len) ++ kind_byte (f_kind f) :: f_payload f).

(** [AsyncReadExt::read_exact]: on a short stream everything is consumed. *)
Definition read_exact (n : nat) (s : bytes) : Result bytes WireError * bytes :=
  if decide (n <= length s)%nat then (Ok (take n s), drop n s) else (Err WireIo, []).

Definition read (s : bytes) : Result Frame WireError * bytes :=
  match read_exact HEADER_LEN s with
  | (Err e, s) => (Err e, s)
  | (Ok header, s) =>
      let body_len := be_value header in
      if body_len =? 0 then (Err EmptyFrame, s)
      else if MAX_FRAME_LEN <? body_len then (Err (FrameTooLarge body_len MAX_FRAME_LEN), s)
      else
        match read_exact 1 s with
        | (Err e, s) => (Err e, s)
        | (Ok kind, s) =>
            match from_u8 (default zero_byte (head kind)) with
            | Err e => (Err e, s)
            | Ok kind =>
                match read_exact (Z.to_nat (body_len - 1)) s with
                | (Err e, s) => (Err e, s)
                | (Ok payload, s) => (Ok (mkFrame kind payload), s)
                end
            end
        end
  end.

(** [n] frames read one after the other, stopping at the first error. *)
Fixpoint read_many (n : nat) (s : bytes) : Result (list Frame) WireError * bytes :=
  match n with
  | O => (Ok [], s)
  | S n =>
      match read s with
      | (Err e, s) => (Err e, s)
      | (Ok f, s) =>
          match read_many n s with
          | (Err e, s) => (Err e, s)
          | (Ok fs, s) => (Ok (f :: fs), s)
          end
      end
  end.

Lemma from_u8_kind v k : from_u8 v = Ok k <-> v = kind_byte k.
Proof.
  split; [|intros ->; by destruct k].
  intros H. unfold from_u8 in H. apply b2z_inj. pose proof (b2z_range v).
  destruct (b2z v) as [|p|p] eqn:E; [done| |lia].
  do 4 (destruct p; try done; try (injection H as <-; done)).
Qed.

Lemma read_exact_app n a s : length a = n -> read_exact n (a ++ s) = (Ok a, s).
Proof.
  intros <-. unfold read_exact. rewrite decide_True by (rewrite length_app; lia).
  by rewrite take_app_length, drop_app_length.
Qed.

Lemma read_exact_Ok n s a rest :
  read_exact n s = (Ok a, rest) -> s = a ++ rest /\ length a = n.
Proof.
  unfold read_exact. destruct (decide _); [|done]. intros [= <- <-].
  rewrite take_drop, length_take. split; [done|lia].
Qed.

Lemma read_write f w rest : write f = Ok w -> read (w ++ rest) = (Ok f, rest).
Proof.
  unfold write. destruct (Z.ltb_spec MAX_FRAME_LEN (zlen (f_payload f) + 1)) as [|Hl]; [done|].
  intros Hw. assert (w = be_bytes 4 (wrap32 (zlen (f_payload f) + 1)) ++
    kind_byte (f_kind f) :: f_payload f) as -> by congruence.
  unfold read. pose proof (zlen_nonneg (f_payload f)).
  change MAX_FRAME_LEN with 1048576 in *.
  assert (wrap32 (zlen (f_payload f) + 1) = zlen (f_payload f) + 1) as ->
    by (unfold wrap32; apply Z.mod_small; lia).
  rewrite <- app_assoc, (read_exact_app 4) by apply length_be_bytes.
  rewrite be_value_bytes_small by (change (256 ^ Z.of_nat 4) with 4294967296; lia).
  rewrite (proj2 (Z.eqb_neq _ _)), (proj2 (Z.ltb_ge _ _)) by lia.
  change ((kind_byte (f_kind f) :: f_payload f) ++ rest)
    with ([kind_byte (f_kind f)] ++ f_payload f ++ rest).
  rewrite (read_exact_app 1) by done.
  change (head [kind_byte (f_kind f)]) with (Some (kind_byte (f_kind f))).
  rewrite (proj2 (from_u8_kind _ (f_kind f))) by done.
  rewrite read_exact_app by (unfold zlen; lia). by destruct f.
Qed.

Lemma read_Ok s f rest : read s = (Ok f, rest) -> exists w, write f = Ok w /\ s = w ++ rest.
Proof.
  unfold read. destruct (read_exact HEADER_LEN s) as [[h|e] s1] eqn:E1; [|done].
  apply read_exact_Ok in E1 as [-> Hh].
  destruct (Z.eqb_spec (be_value h) 0) as [|Hne]; [done|].
  destruct (Z.ltb_spec MAX_FRAME_LEN (be_value h)) as [|Hle]; [done|].
  destruct (read_exact 1 s1) as [[k|e] s2] eqn:E2; [|done].
  apply read_exact_Ok in E2 as [-> Hk].
  destruct k as [|k [|]]; [done| |done]. simpl.
  destruct (from_u8 k) as [kind|] eqn:Ek; [|done]. apply from_u8_kind in Ek as ->.
  destruct (read_exact _ s2) as [[p|e] s3] eqn:E3; [|done].
  apply read_exact_Ok in E3 as [-> Hp]. intros [= <- <-].
  pose proof (be_value_range h) as Hr. rewrite Hh in Hr.
  assert (zlen p + 1 = be_value h) as Hz by (unfold zlen; lia).
  unfold write. simpl. rewrite Hz, (proj2 (Z.ltb_ge _ _)) by done.
  exists (be_bytes 4 (wrap32 (be_value h)) ++ kind_byte kind :: p). split; [done|].
  assert (wrap32 (be_value h) = be_value h) as ->.
  { unfold wrap32. apply Z.mod_small. change 4294967296 with (256 ^ Z.of_nat 4). done. }
  pose proof (be_bytes_value h) as Hb. rewrite Hh in Hb. unfold HEADER_LEN in Hb. rewrite Hb.
  by rewrite <- app_assoc.
Qed.

(** ** Properties *)

(** The frame format is exact.  A stream reads as a frame and a rest exactly
    when it is that frame's bytes followed by the rest: what one side writes the
    other reads, whatever comes after it, and there is one spelling of each frame,
    within the length cap. *)
Theorem frame_format_exact s f rest :
  read s = (Ok f, rest) <-> exists w, write f = Ok w /\ s = w ++ rest.
Proof.
  split; [apply read_Ok|]. intros (w & Hw & ->). by apply read_write.
Qed.

(** A stream of frames is read back in order.  Whatever frames were written one
    after the other, reading as many gives them back and leaves what follows; and
    a header that announces more than the cap is refused with nothing after those
    four bytes consumed. *)
Theorem stream_roundtrip fs ws rest :
  mapM (fun f => rok (write f)) fs = Some ws ->
  read_many (length fs) (concat ws ++ rest) = (Ok fs, rest) /\
  (forall h, MAX_FRAME_LEN < h <= u32_max ->
     read (be_bytes 4 h ++ rest) = (Err (FrameTooLarge h MAX_FRAME_LEN), rest)).
Proof.
  intros Hw. split.
  - revert ws Hw. induction fs as [|f fs IH]; intros ws Hw; simpl in Hw.
    { injection Hw as <-. done. }
    destruct (write f) as [w|] eqn:Ef; [|done]. simpl in Hw.
    destruct (mapM _ fs) as [ws'|]; [|done]. injection Hw as <-.
    simpl. rewrite <- app_assoc, (read_write f w _ Ef). by rewrite IH.
  - intros h Hh. unfold read. change MAX_FRAME_LEN with 1048576 in *.
    rewrite (read_exact_app 4) by apply length_be_bytes.
    rewrite be_value_bytes_small
      by (change (256 ^ Z.of_nat 4) with 4294967296; unfold u32_max in Hh; lia).
    by rewrite (proj2 (Z.eqb_neq _ _)), (proj2 (Z.ltb_lt _ _)) by lia.
Qed.

Lemma stream_roundtrip_witness :
  read_many 2 (concat [[x00; x00; x00; x02; x04; x2a]; [x00; x00; x00; x01; x08]] ++ [xff]) =
  (Ok [mkFrame Ping [x2a]; mkFrame Hello []], [xff]).
Proof.
  refine (proj1 (stream_roundtrip [mkFrame Ping [x2a]; mkFrame Hello []] _ [xff] _)).
  vm_compute. reflexivity.
Defined.
