(* ===== verification/Limits.v ===== *)
(** * Admission limits: token buckets and connection counts

    [crates/rotelyx-mailbox-server/src/limits.rs] (per address, Module [Server]) and
    [crates/rotelyx-relay/src/limits.rs] with [access.rs] (per identity, Module
    [Relay]).  The two files keep the same table; what they share is the Section
    [Table], what differs is each one's [admit].  An [Instant] is a number of
    nanoseconds and is an argument. *)

From S2P Require Import Prelude Float.
From Stdlib Require Import SpecFloat.

(** [Duration::as_secs_f64] of a duration in nanoseconds. *)
Definition as_secs_f64 (nanos : Z) : f64 :=
  fadd (f64_of_Z (nanos / 1000000000))
       (fdiv (f64_of_Z (nanos mod 1000000000)) (f64_of_Z 1000000000)).

(** [Instant::duration_since], which saturates. *)
Definition duration_since (now earlier : Z) : Z := sat_sub now earlier.

Definition FORGET_AFTER : Z := 600 * 1000000000.

Inductive Refusal := Concurrent | Rate | Total.

#[export] Instance Refusal_eq_dec : EqDecision Refusal.
Proof. solve_decision. Defined.

Record Bucket := mkBucket {
  tokens : f64;
  refilled : Z;
  open : Z;
}.

(** The constants of one table. *)
Record Policy := mkPolicy {
  connections : Z;
  per_minute : f64;
  burst : f64;
}.

Definition refill (p : Policy) (b : Bucket) (now : Z) : Bucket :=
  let elapsed := as_secs_f64 (duration_since now (refilled b)) in
  mkBucket
    (fmin (fadd (tokens b) (fdiv (fmul elapsed (per_minute p)) (f64_of_Z 60))) (burst p))
    now (open b).

(** Refill, then take a connection or say why not. *)
Definition take_token (p : Policy) (b : Bucket) (now : Z) : option Refusal * Bucket :=
  let b := refill p b now in
  if connections p <=? open b then (Some Concurrent, b)
  else if flt (tokens b) (f64_of_Z 1) then (Some Rate, b)
  else (None, mkBucket (fsub (tokens b) (f64_of_Z 1)) (refilled b) (open b + 1)).

Lemma take_token_open p b now :
  match take_token p b now with
  | (Some _, b') => open b' = open b
  | (None, b') => open b' = open b + 1 /\ open b < connections p
  end.
Proof.
  unfold take_token. cbv zeta. change (open (refill p b now)) with (open b).
  destruct (Z.leb_spec (connections p) (open b)); [done|].
  by destruct (flt (tokens (refill p b now)) (f64_of_Z 1)).
Qed.

Section Table.
Context `{Countable K}.

Record State := mkState {
  buckets : gmap K Bucket;
  total_open : Z;
  refused_rate : Z;
  refused_concurrent : Z;
  refused_total : Z;
}.

Definition state_default : State := mkState ∅ 0 0 0 0.

Definition kept (now : Z) (b : Bucket) : bool :=
  (0 <? open b) || (duration_since now (refilled b) <? FORGET_AFTER).

Definition forget_idle (now : Z) (m : gmap K Bucket) : gmap K Bucket :=
  base.filter (fun kv => Is_true (kept now kv.2)) m.

Definition refuse (s : State) (m : gmap K Bucket) (r : Refusal) : State :=
  match r with
  | Rate => mkState m (total_open s) (wrap64 (refused_rate s + 1)) (refused_concurrent s)
              (refused_total s)
  | Concurrent => mkState m (total_open s) (refused_rate s) (wrap64 (refused_concurrent s + 1))
                    (refused_total s)
  | Total => mkState m (total_open s) (refused_rate s) (refused_concurrent s)
               (wrap64 (refused_total s + 1))
  end.

Definition grant (s : State) (m : gmap K Bucket) : State :=
  mkState m (total_open s + 1) (refused_rate s) (refused_concurrent s) (refused_total s).

(** The part of [admit] after the total: sweep, find or make the bucket, take. *)
Definition take_slot (p : Policy) (sweep : bool) (s : State) (k : K) (now : Z)
    : Result unit Refusal * State :=
  let m := if sweep then forget_idle now (buckets s) else buckets s in
  let b := default (mkBucket (burst p) now 0) (m !! k) in
  match take_token p b now with
  | (Some r, b) => (Err r, refuse s (<[k := b]> m) r)
  | (None, b) => (Ok tt, grant s (<[k := b]> m))
  end.

(** [Drop for Slot], and [released]. *)
Definition release (s : State) (k : K) : State :=
  mkState
    (match buckets s !! k with
     | Some b => <[k := mkBucket (tokens b) (refilled b) (sat_sub (open b) 1)]> (buckets s)
     | None => buckets s
     end)
    (sat_sub (total_open s) 1) (refused_rate s) (refused_concurrent s) (refused_total s).

Definition refusals (s : State) : Z * Z * Z :=
  (refused_rate s, refused_concurrent s, refused_total s).

(** *** Counting the slots that are held *)

Definition held (k : K) (slots : list K) : Z := zlen (retain (fun x => bool_decide (x = k)) slots).

Definition open_at (s : State) (k : K) : Z := from_option open 0 (buckets s !! k).

(** [counted]: the keys the per-key limit applies to. *)
Record table_ok (p : Policy) (counted : K -> bool) (max_total : Z) (s : State)
    (slots : list K) : Prop := {
  to_total : total_open s = zlen slots;
  to_max : total_open s <= max_total;
  to_open k : counted k = true -> open_at s k = held k slots /\ held k slots <= connections p;
  to_exempt k : counted k = false -> buckets s !! k = None;
}.

Lemma held_cons k x slots :
  held k (x :: slots) = (if bool_decide (x = k) then 1 else 0) + held k slots.
Proof.
  unfold held, retain. rewrite filter_cons. case_bool_decide; simpl; [|done].
  rewrite zlen_cons. lia.
Qed.

Lemma held_Permutation k l1 l2 : l1 ≡ₚ l2 -> held k l1 = held k l2.
Proof. intros Hp. unfold held, retain, zlen. by rewrite Hp. Qed.

Lemma held_nonneg k l : 0 <= held k l.
Proof. apply zlen_nonneg. Qed.

Lemma forget_idle_lookup now (m : gmap K Bucket) k :
  forget_idle now m !! k =
  match m !! k with Some b => if kept now b then Some b else None | None => None end.
Proof.
  unfold forget_idle. destruct (m !! k) as [b|] eqn:E.
  - destruct (kept now b) eqn:Ek.
    + apply map_lookup_filter_Some. split; [done|].
      change (Is_true (kept now b)). by rewrite Ek.
    + apply map_lookup_filter_None. right. intros b' Hb'. assert (b' = b) as -> by congruence.
      change (~ Is_true (kept now b)). rewrite Ek. intros [].
  - apply map_lookup_filter_None. by left.
Qed.

Lemma open_sweep p counted mt s slots (sweep : bool) now k :
  table_ok p counted mt s slots -> counted k = true ->
  from_option open 0 ((if sweep then forget_idle now (buckets s) else buckets s) !! k) =
  held k slots.
Proof.
  intros Ht Hk. destruct (to_open _ _ _ _ _ Ht k Hk) as [Ho _]. unfold open_at in Ho.
  destruct sweep; [|done]. rewrite forget_idle_lookup. pose proof (held_nonneg k slots).
  destruct (buckets s !! k) as [b|]; [|done]. unfold kept. simpl in Ho.
  destruct (Z.ltb_spec 0 (open b)); [done|]. destruct (_ <? FORGET_AFTER); simpl; lia.
Qed.

(** Taking and giving back keep the books. *)
Lemma take_slot_ok p counted mt s slots sweep k now :
  table_ok p counted mt s slots -> counted k = true -> total_open s < mt ->
  let r := take_slot p sweep s k now in
  match r.1 with
  | Ok _ => table_ok p counted mt r.2 (k :: slots)
  | Err _ => table_ok p counted mt r.2 slots
  end.
Proof.
  intros Ht Hk Hlt. cbv zeta. unfold take_slot.
  set (m := if sweep then forget_idle now (buckets s) else buckets s).
  assert (forall j, counted j = true -> from_option open 0 (m !! j) = held j slots) as Hm
    by (intros j Hj; by eapply open_sweep).
  assert (forall j, counted j = false -> m !! j = None) as Hn.
  { intros j Hj. pose proof (to_exempt _ _ _ _ _ Ht j Hj) as H0. unfold m. destruct sweep; [|done].
    by rewrite forget_idle_lookup, H0. }
  set (b := default _ (m !! k)).
  assert (open b = held k slots) as Hb.
  { rewrite <- (Hm k Hk). subst b. by destruct (m !! k). }
  assert (forall b' extra j, open b' = held k slots + extra -> counted j = true ->
    from_option open 0 (<[k := b']> m !! j) =
    held j slots + if bool_decide (k = j) then extra else 0) as Hins.
  { intros b' extra j Hb' Hj. case_bool_decide as Hkj.
    - subst j. by rewrite lookup_insert_eq.
    - rewrite lookup_insert_ne by done. rewrite Hm by done. lia. }
  assert (forall b' j, counted j = false -> <[k := b']> m !! j = None) as Hex.
  { intros b' j Hj. rewrite lookup_insert_ne by congruence. by apply Hn. }
  pose proof (take_token_open p b now) as Hopen. rewrite Hb in Hopen.
  destruct Ht as [Htot Hmax Hto _]. clearbody m b.
  destruct (take_token p b now) as [[r|] b'].
  - cbn [fst snd]. split.
    + by destruct r.
    + by destruct r.
    + intros j Hj. assert (open_at (refuse s (<[k := b']> m) r) j =
        from_option open 0 (<[k := b']> m !! j)) as -> by (by destruct r).
      rewrite (Hins b' 0) by (done || lia). destruct (Hto j Hj).
      by case_bool_decide; rewrite Z.add_0_r.
    + intros j Hj. destruct r; by apply Hex.
  - destruct Hopen as [Ho Hc]. cbn [fst snd]. split.
    + cbn [grant total_open]. rewrite zlen_cons. lia.
    + cbn [grant total_open]. lia.
    + intros j Hj. change (open_at (grant s (<[k := b']> m)) j) with
        (from_option open 0 (<[k := b']> m !! j)).
      rewrite (Hins b' 1) by (done || lia). rewrite held_cons. destruct (Hto j Hj).
      case_bool_decide; [subst j|]; lia.
    + intros j Hj. by apply Hex.
Qed.

Lemma release_ok p counted mt s slots slots' k :
  table_ok p counted mt s slots -> slots ≡ₚ k :: slots' ->
  table_ok p counted mt (release s k) slots'.
Proof.
  intros [Htot Hmax Hopen Hex] Hp.
  assert (zlen slots = 1 + zlen slots') as Hz by (unfold zlen; rewrite Hp; simpl; lia).
  pose proof (zlen_nonneg slots').
  split; simpl; try (unfold sat_sub; lia).
  - intros j Hj. destruct (Hopen j Hj) as [Ho Hc].
    rewrite (held_Permutation _ _ _ Hp), held_cons in Ho, Hc. pose proof (held_nonneg j slots').
    unfold open_at in *. simpl. case_bool_decide as Hkj.
    + subst j. destruct (buckets s !! k) as [b|] eqn:E; simpl in Ho; [|lia].
      rewrite lookup_insert_eq. simpl. unfold sat_sub. lia.
    + destruct (buckets s !! k) as [b|]; [rewrite lookup_insert_ne by done|]; lia.
  - intros j Hj. specialize (Hex j Hj). destruct (buckets s !! k) as [b|] eqn:E; [|done].
    apply lookup_insert_None. split; [done|]. intros ->. congruence.
Qed.
End Table.

(** A bucket somebody else's attempt touches: it is as it was, or forgotten. *)
Lemma take_slot_other `{Countable K} p sweep (s : State) (k j : K) now :
  j <> k ->
  buckets (take_slot p sweep s k now).2 !! j =
  (if sweep then forget_idle now (buckets s) else buckets s) !! j.
Proof.
  intros Hj. unfold take_slot. destruct (take_token _ _ _) as [[r|] b]; simpl.
  - destruct r; simpl; by rewrite lookup_insert_ne.
  - by rewrite lookup_insert_ne.
Qed.

(** ** The mailbox server: per address *)

Module Server.

Definition PER_ADDRESS_CONNECTIONS : Z := 16.
Definition PER_ADDRESS_PER_MINUTE : f64 := f64_of_Z 60.
Definition PER_ADDRESS_BURST : f64 := f64_of_Z 20.
Definition TOTAL_CONNECTIONS : Z := 131072.

Definition policy : Policy :=
  mkPolicy PER_ADDRESS_CONNECTIONS PER_ADDRESS_PER_MINUTE PER_ADDRESS_BURST.

Section Server.
Context `{Countable Addr}.

Record Limits := mkLimits {
  state : State (K := Addr);
  max_total : Z;
  exempt : list Addr;
}.

Definition with_max (addresses : list Addr) (max : Z) : Limits :=
  mkLimits state_default (Z.max max 1) addresses.

Definition take_connection (l : Limits) (a : Addr) (now : Z) : Result unit Refusal * Limits :=
  let s := state l in
  if max_total l <=? total_open s
  then (Err Total, mkLimits (refuse s (buckets s) Total) (max_total l) (exempt l))
  else if bool_decide (a ∈ exempt l)
  then (Ok tt, mkLimits (grant s (buckets s)) (max_total l) (exempt l))
  else
    let '(r, s) := take_slot policy true s a now in
    (r, mkLimits s (max_total l) (exempt l)).

Definition drop_slot (l : Limits) (a : Addr) : Limits :=
  mkLimits (release (state l) a) (max_total l) (exempt l).

(** Connections come and go in any order; a slot is dropped once, by its holder. *)
Inductive step : Limits * list Addr -> Limits * list Addr -> Prop :=
| StepAdmit l slots a now l' :
    take_connection l a now = (Ok tt, l') -> step (l, slots) (l', a :: slots)
| StepRefuse l slots a now r l' :
    take_connection l a now = (Err r, l') -> step (l, slots) (l', slots)
| StepDrop l slots slots' a :
    slots ≡ₚ a :: slots' -> step (l, slots) (drop_slot l a, slots').

Inductive reachable (l0 : Limits) : Limits * list Addr -> Prop :=
| Reach0 : reachable l0 (l0, [])
| ReachS x y : reachable l0 x -> step x y -> reachable l0 y.

Definition counted (l : Limits) (a : Addr) : bool := negb (bool_decide (a ∈ exempt l)).

Lemma with_max_ok addresses max :
  let l := with_max addresses max in
  table_ok policy (counted l) (max_total l) (state l) [].
Proof.
  cbv zeta. split.
  - done.
  - simpl. lia.
  - intros a _. unfold open_at. simpl. by rewrite lookup_empty.
  - intros a _. simpl. apply lookup_empty.
Qed.

Lemma admit_config l a now :
  max_total (take_connection l a now).2 = max_total l /\ exempt (take_connection l a now).2 = exempt l.
Proof.
  unfold take_connection. destruct (_ <=? _); [done|]. destruct (bool_decide _); [done|].
  by destruct (take_slot _ _ _ _ _).
Qed.

Lemma server_admit_ok l a now slots :
  table_ok policy (counted l) (max_total l) (state l) slots ->
  table_ok policy (counted l) (max_total l) (state (take_connection l a now).2)
    (match (take_connection l a now).1 with Ok _ => a :: slots | Err _ => slots end).
Proof.
  intros Ht. unfold take_connection.
  destruct (Z.leb_spec (max_total l) (total_open (state l))).
  { destruct Ht as [? ? Ho He]. by split. }
  destruct (bool_decide (a ∈ exempt l)) eqn:Ee; cbn [fst snd].
  - destruct Ht as [Ht Hm Ho He]. split; cbn [state grant total_open buckets].
    + rewrite zlen_cons. lia.
    + lia.
    + intros j Hj. change (open_at (grant (state l) (buckets (state l))) j)
        with (open_at (state l) j).
      rewrite held_cons, (bool_decide_eq_false_2 (a = j)); [by apply Ho|].
      intros ->. unfold counted in Hj. by rewrite Ee in Hj.
    + done.
  - pose proof (take_slot_ok policy (counted l) (max_total l) (state l) slots true a now Ht) as H1.
    unfold counted in H1 at 1. rewrite Ee in H1. specialize (H1 eq_refl ltac:(lia)).
    destruct (take_slot policy true (state l) a now) as [[u|r] s]; exact H1.
Qed.

Lemma server_reachable_ok l0 x :
  table_ok policy (counted l0) (max_total l0) (state l0) [] -> reachable l0 x ->
  table_ok policy (counted l0) (max_total l0) (state x.1) x.2 /\
  max_total x.1 = max_total l0 /\ exempt x.1 = exempt l0.
Proof.
  intros H0 Hr. induction Hr as [|x y _ IH Hs]; [done|].
  destruct IH as (Ht & Hm & He).
  destruct Hs as [l slots a now l' Ha|l slots a now r l' Ha|l slots slots' a Hp]; simpl in *.
  all: assert (counted l = counted l0) as Hc by (unfold counted; by rewrite He).
  all: rewrite <- Hc, <- Hm in Ht |- *.
  - pose proof (server_admit_ok l a now slots Ht) as Hok. pose proof (admit_config l a now) as Hcfg.
    rewrite Ha in Hok, Hcfg. simpl in *. destruct Hcfg. split_and!; congruence || done.
  - pose proof (server_admit_ok l a now slots Ht) as Hok. pose proof (admit_config l a now) as Hcfg.
    rewrite Ha in Hok, Hcfg. simpl in *. destruct Hcfg. split_and!; congruence || done.
  - split_and!; [by eapply release_ok|done|done].
Qed.

End Server.
End Server.

(** ** The relay: per identity, behind an access list *)

Module Relay.

Definition PER_ENDPOINT_CONNECTIONS : Z := 8.
Definition PER_ENDPOINT_PER_MINUTE : f64 := f64_of_Z 30.
Definition PER_ENDPOINT_BURST : f64 := f64_of_Z 10.
Definition TOTAL_CONNECTIONS : Z := 4096.

Definition policy : Policy :=
  mkPolicy PER_ENDPOINT_CONNECTIONS PER_ENDPOINT_PER_MINUTE PER_ENDPOINT_BURST.

Section Relay.
Context `{Countable Endpoint}.

(** [Allowlist]: a set of identities. *)
Definition allowlist_new (allowed : list Endpoint) : gset Endpoint := list_to_set allowed.

Definition permits (allowed : gset Endpoint) (id : Endpoint) : bool :=
  bool_decide (id ∈ allowed).

Definition take_connection (s : State (K := Endpoint)) (e : Endpoint) (now : Z)
    : bool * State (K := Endpoint) :=
  if TOTAL_CONNECTIONS <=? total_open s then (false, refuse s (buckets s) Total)
  else
    let '(r, s) := take_slot policy (1024 <? Z.of_nat (size (buckets s))) s e now in
    (is_ok r, s).

(** [Limited::on_connect]: the inner decision first. *)
Definition on_connect (inner : Endpoint -> bool) (s : State (K := Endpoint)) (e : Endpoint)
    (now : Z) : bool * State (K := Endpoint) :=
  if negb (inner e) then (false, s) else take_connection s e now.

Definition on_disconnect (s : State (K := Endpoint)) (e : Endpoint) : State (K := Endpoint) :=
  release s e.

Inductive step (inner : Endpoint -> bool)
  : State (K := Endpoint) * list Endpoint -> State (K := Endpoint) * list Endpoint -> Prop :=
| StepConnect s slots e now :
    step inner (s, slots)
      ((on_connect inner s e now).2,
       if (on_connect inner s e now).1 then e :: slots else slots)
| StepDisconnect s slots slots' e :
    slots ≡ₚ e :: slots' -> step inner (s, slots) (on_disconnect s e, slots').

Inductive reachable (inner : Endpoint -> bool) : State (K := Endpoint) * list Endpoint -> Prop :=
| Reach0 : reachable inner (state_default, [])
| ReachS x y : reachable inner x -> step inner x y -> reachable inner y.

Lemma relay_admit_ok s e now slots :
  table_ok policy (fun _ => true) TOTAL_CONNECTIONS s slots ->
  table_ok policy (fun _ => true) TOTAL_CONNECTIONS (take_connection s e now).2
    (if (take_connection s e now).1 then e :: slots else slots).
Proof.
  intros Ht. unfold take_connection. destruct (Z.leb_spec TOTAL_CONNECTIONS (total_open s)).
  { destruct Ht as [? ? Ho He]. by split. }
  pose proof (take_slot_ok policy (fun _ => true) TOTAL_CONNECTIONS s slots
    (1024 <? Z.of_nat (size (buckets s))) e now Ht eq_refl ltac:(lia)) as H1.
  destruct (take_slot _ _ s e now) as [[u|r] s']; exact H1.
Qed.

Lemma relay_reachable_ok inner x :
  reachable inner x ->
  table_ok policy (fun _ => true) TOTAL_CONNECTIONS x.1 x.2 /\
  Forall (fun e => inner e = true) x.2.
Proof.
  induction 1 as [|x y _ [IH Hin] Hs].
  - split; [by split|constructor].
  - destruct Hs as [s slots e now|s slots slots' e Hp]; cbn [fst snd] in *.
    + unfold on_connect. destruct (inner e) eqn:Ei; simpl negb; cbv iota; [|done].
      split; [by apply relay_admit_ok|]. destruct (take_connection s e now) as [[] s']; [|done]. by constructor.
    + split; [by eapply release_ok|]. rewrite Hp in Hin. by apply Forall_cons in Hin as [_ ?].
Qed.

End Relay.
End Relay.

(** ** Properties *)

(** The mailbox server's books balance.  Whatever connections are admitted,
    refused and dropped, in any order, the total is the number of slots held and
    within the configured maximum; an address that is not excused holds exactly the
    connections its bucket counts, and at most sixteen. *)
Theorem server_slots_accounted `{Countable Addr} addresses max
    (x : Server.Limits (Addr := Addr) * list Addr) :
  Server.reachable (Server.with_max addresses max) x ->
  total_open (Server.state x.1) = zlen x.2 /\ zlen x.2 <= Z.max max 1 /\
  forall a, a ∉ addresses ->
    open_at (Server.state x.1) a = held a x.2 /\ held a x.2 <= Server.PER_ADDRESS_CONNECTIONS.
Proof.
  intros Hr. destruct (Server.server_reachable_ok _ x (Server.with_max_ok addresses max) Hr)
    as ([Ht Hm Ho _] & _ & _).
  split_and!; [done|by rewrite <- Ht|].
  intros a Ha. apply Ho. unfold Server.counted. simpl.
  by rewrite bool_decide_eq_false_2.
Qed.

(** The relay's books balance, and only the permitted are in them.  The total
    is the number of connections held, at most 4096; each identity's bucket counts
    exactly its own, at most eight; and every connection held belongs to an
    identity the access list permits. *)
Theorem relay_slots_accounted `{Countable Endpoint} inner
    (x : State (K := Endpoint) * list Endpoint) :
  Relay.reachable inner x ->
  total_open x.1 = zlen x.2 /\ zlen x.2 <= Relay.TOTAL_CONNECTIONS /\
  (forall e, open_at x.1 e = held e x.2 /\ held e x.2 <= Relay.PER_ENDPOINT_CONNECTIONS) /\
  (forall e, e ∈ x.2 -> inner e = true).
Proof.
  intros Hr. destruct (Relay.relay_reachable_ok inner x Hr) as [[Ht Hm Ho _] Hin].
  split_and!; [done|by rewrite <- Ht|by intros e; apply Ho|by apply Forall_forall].
Qed.

(** One address cannot spend another's allowance.  While the server is not
    full, whether an address is admitted depends only on its own bucket; and an
    attempt by another address leaves that bucket as it was, unless it had held
    nothing for ten minutes and is forgotten. *)
Theorem addresses_are_isolated `{Countable Addr} (l l' : Server.Limits (Addr := Addr)) a b now :
  total_open (Server.state l) < Server.max_total l ->
  total_open (Server.state l') < Server.max_total l' ->
  Server.exempt l' = Server.exempt l ->
  buckets (Server.state l') !! a = buckets (Server.state l) !! a ->
  (Server.take_connection l' a now).1 = (Server.take_connection l a now).1 /\
  (b <> a ->
   let after := buckets (Server.state (Server.take_connection l b now).2) !! a in
   after = buckets (Server.state l) !! a \/
   (after = None /\ forall k, buckets (Server.state l) !! a = Some k ->
      open k <= 0 /\ FORGET_AFTER <= duration_since now (refilled k))).
Proof.
  intros Hl Hl' He Hb. split.
  - unfold Server.take_connection. rewrite He, !(proj2 (Z.leb_gt _ _)) by done.
    destruct (bool_decide (a ∈ Server.exempt l)); [done|].
    unfold take_slot. rewrite !forget_idle_lookup, Hb.
    destruct (take_token _ _ _) as [[r|] k]; done.
  - intros Hne. unfold Server.take_connection. rewrite (proj2 (Z.leb_gt _ _)) by done.
    destruct (bool_decide (b ∈ Server.exempt l)); [by left|].
    pose proof (take_slot_other Server.policy true (Server.state l) b a now ltac:(done)) as Ho.
    cbv iota in Ho. rewrite forget_idle_lookup in Ho.
    destruct (take_slot Server.policy true (Server.state l) b now) as [r s]. simpl in *.
    rewrite Ho. destruct (buckets (Server.state l) !! a) as [k|]; [|by left].
    destruct (kept now k) eqn:Ek; [by left|]. right. split; [done|].
    intros k' [= <-]. unfold kept in Ek. apply orb_false_iff in Ek as [E1 E2]. lia.
Qed.

Definition server0 : Server.Limits (Addr := Z) := Server.with_max [9] 100.
Definition server1 : Server.Limits := (Server.take_connection server0 1 5).2.

Lemma server_slots_accounted_witness :
  total_open (Server.state server1) = 1 /\
  open_at (Server.state server1) 1 = held 1 [1] /\ held 1 [1] <= 16.
Proof.
  destruct (server_slots_accounted [9] 100 (server1, [1])) as (Ht & _ & Ha).
  - eapply Server.ReachS; [apply Server.Reach0|].
    apply (Server.StepAdmit server0 [] 1 5 server1). vm_compute. reflexivity.
  - split; [exact Ht|]. apply (Ha 1). apply (bool_decide_unpack _). reflexivity.
Defined.

Lemma relay_slots_accounted_witness :
  let s := (Relay.on_connect (fun e => e =? 4) (state_default (K := Z)) 4 5).2 in
  total_open s = 1 /\ open_at s 4 = held 4 [4].
Proof.
  cbv zeta. set (inner := fun e => e =? 4).
  destruct (relay_slots_accounted inner ((Relay.on_connect inner state_default 4 5).2, [4]))
    as (Ht & _ & Ho & _).
  - eapply Relay.ReachS; [apply Relay.Reach0|].
    apply (Relay.StepConnect inner state_default [] 4 5).
  - split; [exact Ht|]. apply (Ho 4).
Defined.

Lemma addresses_are_isolated_witness :
  (Server.take_connection server1 2 6).1 = (Server.take_connection server0 2 6).1.
Proof.
  apply (addresses_are_isolated server0 server1 2 1 6); vm_compute; reflexivity.
Defined.
