(* ===== verification/Tickets.v ===== *)
(** * Wake tickets left under mailbox tags

    [crates/rotelyx-mailbox-server/src/tickets.rs].  A table from a tag to the
    tickets left under it, oldest first.  [HashMap] iterates in an order of its own,
    so [decoys] takes that order as an argument: any list of the table's entries. *)

From S2P Require Import Prelude.

Definition MAX_PER_TAG : Z := 8.
Definition MAX_TAGS : Z := 200000.
Definition TICKET_TTL : Z := 48 * 3600.

Section Tickets.
Context `{Countable Tag} {Ticket : Type}.

Record Left := mkLeft { ticket : Ticket; at_ : Z }.

Definition fresh (now : Z) (l : Left) : bool := sat_sub now (at_ l) <? TICKET_TTL.

Abbreviation Tickets := (gmap Tag (list Left)).

Inductive Refused := Full.

(** The queue under one tag: stale ones out, the oldest out of a full one. *)
Definition leave_queue (held : list Left) (t : Ticket) (now : Z) : list Left :=
  let held := retain (fresh now) held in
  let held := if MAX_PER_TAG <=? zlen held then tail held else held in
  held ++ [mkLeft t now].

Definition leave (m : Tickets) (tag : Tag) (t : Ticket) (now : Z)
    : Result unit Refused * Tickets :=
  if bool_decide (m !! tag = None) && (MAX_TAGS <=? Z.of_nat (size m)) then (Err Full, m)
  else (Ok tt, <[tag := leave_queue (default [] (m !! tag)) t now]> m).

Definition for_tag (m : Tickets) (tag : Tag) (now : Z) : list Ticket :=
  match m !! tag with
  | Some held => ticket <$> retain (fresh now) held
  | None => []
  end.

(** [iter().cycle().skip(start).take(len)]. *)
Definition rotate_from {A} (start : nat) (l : list A) : list A := drop start l ++ take start l.

(** The [for] loop, with its [continue] and [break]. *)
Fixpoint pick (entries : list (Tag * list Left)) (avoid : Tag) (want : nat) (now : Z)
    : list Ticket :=
  match want, entries with
  | O, _ | _, [] => []
  | S want', (tag, held) :: entries =>
      if bool_decide (tag = avoid) then pick entries avoid want now
      else
        match List.find (fresh now) held with
        | Some l => ticket l :: pick entries avoid want' now
        | None => pick entries avoid want now
        end
  end.

Definition decoys (order : list (Tag * list Left)) (avoid : Tag) (want : Z) (now from : Z)
    : list Ticket :=
  match order with
  | [] => []
  | _ =>
      if want =? 0 then []
      else pick (rotate_from (Z.to_nat (from mod zlen order)) order) avoid (Z.to_nat want) now
  end.

Definition sweep_queue (now : Z) (held : list Left) : option (list Left) :=
  match retain (fresh now) held with
  | [] => None
  | kept => Some kept
  end.

Definition sweep (m : Tickets) (now : Z) : Tickets := omap (sweep_queue now) m.

(** ** Runs *)

Inductive op :=
| OLeave (tag : Tag) (t : Ticket) (now : Z)
| OSweep (now : Z).

Definition op_time (o : op) : Z := match o with OLeave _ _ n | OSweep n => n end.

(** The table after a run, with the tickets that were taken, oldest first. *)
Fixpoint run (m : Tickets) (os : list op) : Tickets * list (Tag * Left) :=
  match os with
  | [] => (m, [])
  | OLeave tag t now :: os =>
      let '(r, m) := leave m tag t now in
      let '(m', h) := run m os in
      (m', (if is_ok r then [(tag, mkLeft t now)] else []) ++ h)
  | OSweep now :: os => run (sweep m now) os
  end.

Definition under (tag : Tag) (h : list (Tag * Left)) : list Left :=
  omap (fun p => if bool_decide (p.1 = tag) then Some p.2 else None) h.

Definition last_n {A} (n : nat) (l : list A) : list A := drop (length l - n) l.

(** Every clock reading no earlier than [t] sees the same live tickets. *)
Definition agree (t : Z) (l k : list Left) : Prop :=
  forall now, t <= now -> retain (fresh now) l = retain (fresh now) k.

Lemma fresh_earlier now now' l : now <= now' -> fresh now' l = true -> fresh now l = true.
Proof. unfold fresh, sat_sub. intros. lia. Qed.

Lemma agree_retain t now l : now <= t -> agree t (retain (fresh now) l) l.
Proof.
  intros Hn now' Hn'. apply retain_retain. intros x _. apply fresh_earlier. lia.
Qed.

Lemma last_n_app_one {A} n (l : list A) x :
  last_n (S n) (l ++ [x]) = last_n n l ++ [x].
Proof.
  unfold last_n. rewrite length_app. simpl.
  replace (length l + 1 - S n)%nat with (length l - n)%nat by lia.
  apply drop_app_le. lia.
Qed.

Lemma last_n_S {A} n (l : list A) :
  last_n n l = if decide (length (last_n (S n) l) = S n) then tail (last_n (S n) l)
               else last_n (S n) l.
Proof.
  unfold last_n. rewrite length_drop. destruct (decide _).
  - replace (length l - n)%nat with (S (length l - S n)) by lia.
    destruct (drop (length l - S n) l) eqn:E.
    + apply (f_equal length) in E. rewrite length_drop in E. simpl in E. lia.
    + rewrite <- Nat.add_1_r, <- drop_drop, E. done.
  - f_equal. lia.
Qed.

(** Leaving a ticket is appending it to the history, as far as a reader can tell. *)
Lemma leave_queue_agree t now held h tk :
  t <= now -> agree t held (last_n 8 h) ->
  StronglySorted (fun a b => at_ a <= at_ b) h ->
  agree now (leave_queue held tk now) (last_n 8 (h ++ [mkLeft tk now])).
Proof.
  intros Ht Hag Hs. unfold leave_queue. cbv zeta. rewrite (Hag now Ht), last_n_app_one, (last_n_S 7).
  assert (StronglySorted (fun a b => at_ a <= at_ b) (last_n 8 h)) as Hs8.
  { unfold last_n. clear -Hs. generalize (length h - 8)%nat as n. intros n.
    revert n. induction Hs as [|x l Hs IH Hx]; intros [|n]; simpl; try by constructor.
    apply IH. }
  set (L := last_n 8 h) in *.
  assert (length L <= 8)%nat as HL by (unfold L, last_n; rewrite length_drop; lia).
  pose proof (length_retain_le (fresh now) L) as Hle.
  destruct (Z.leb_spec MAX_PER_TAG (zlen (retain (fresh now) L))) as [H8|H8];
    unfold MAX_PER_TAG, zlen in H8.
  - assert (retain (fresh now) L = L) as ->.
    { apply retain_full. lia. }
    rewrite decide_True by lia. intros now' _. done.
  - intros now' Hn'. rewrite !retain_app. f_equal.
    rewrite (retain_retain (fresh now') (fresh now)) by (intros x _; apply fresh_earlier; lia).
    destruct (decide (length L = 8%nat)) as [HL8|]; [|done].
    destruct L as [|x L']; [done|]. simpl tail.
    assert (fresh now' x = false) as Hx.
    { destruct (fresh now' x) eqn:E; [|done]. exfalso.
      apply (fresh_earlier now) in E; [|lia].
      assert (retain (fresh now) (x :: L') = x :: L') as Hr.
      { apply retain_all. intros y Hy. apply StronglySorted_inv in Hs8 as [_ Hall].
        apply elem_of_cons in Hy as [->|Hy]; [done|].
        rewrite Forall_forall in Hall. specialize (Hall y Hy).
        unfold fresh, sat_sub in *. lia. }
      rewrite Hr in H8. lia. }
    unfold retain. rewrite filter_cons, Hx. done.
Qed.

Lemma under_app tag h1 h2 : under tag (h1 ++ h2) = under tag h1 ++ under tag h2.
Proof. apply omap_app. Qed.

Lemma under_one tag tag' l : under tag' [(tag, l)] = if bool_decide (tag = tag') then [l] else [].
Proof. unfold under. simpl. by case_bool_decide. Qed.

Lemma leave_queue_length held t now :
  zlen held <= MAX_PER_TAG -> zlen (leave_queue held t now) <= MAX_PER_TAG.
Proof.
  intros Hh. unfold leave_queue, MAX_PER_TAG in *. cbv zeta. rewrite zlen_app, zlen_cons, zlen_nil.
  pose proof (length_retain_le (fresh now) held). unfold zlen in *.
  destruct (Z.leb_spec 8 (Z.of_nat (length (retain (fresh now) held)))); [|lia].
  destruct (retain (fresh now) held); simpl in *; lia.
Qed.

(** What holds of the table after the ticket history [h], at time [t]. *)
Record table_ok (m : Tickets) (h : list (Tag * Left)) (t : Z) : Prop := {
  tk_tags : Z.of_nat (size m) <= MAX_TAGS;
  tk_len tag held : m !! tag = Some held -> zlen held <= MAX_PER_TAG;
  tk_times tag : StronglySorted (fun a b => at_ a <= at_ b) (under tag h) /\
    Forall (fun l => at_ l <= t) (under tag h);
  tk_agree tag : agree t (default [] (m !! tag)) (last_n 8 (under tag h));
}.

Lemma table_ok_later m h t t' : t <= t' -> table_ok m h t -> table_ok m h t'.
Proof.
  intros Ht [H1 H2 H3 H4]. split; try done.
  - intros tag. destruct (H3 tag) as [? Hf]. split; [done|].
    eapply Forall_impl; [exact Hf|]. simpl. lia.
  - intros tag now Hn. apply H4. lia.
Qed.

Lemma sorted_snoc h l :
  StronglySorted (fun a b => at_ a <= at_ b) h -> Forall (fun a => at_ a <= at_ l) h ->
  StronglySorted (fun a b => at_ a <= at_ b) (h ++ [l]).
Proof.
  induction 1 as [|x h Hs IH Hx]; intros Hf; simpl; [repeat constructor|].
  apply Forall_cons in Hf as [Hxl Hf]. constructor; [by apply IH|].
  apply Forall_app. split; [done|]. by apply Forall_singleton.
Qed.

Lemma leave_ok m h t tag tk now :
  t <= now -> table_ok m h t ->
  table_ok (leave m tag tk now).2
    (h ++ if is_ok (leave m tag tk now).1 then [(tag, mkLeft tk now)] else []) now.
Proof.
  intros Ht Hm. apply (table_ok_later _ _ t now Ht) in Hm. unfold leave.
  destruct (bool_decide (m !! tag = None) && (MAX_TAGS <=? Z.of_nat (size m))) eqn:Eg.
  { simpl. by rewrite app_nil_r. }
  destruct Hm as [H1 H2 H3 H4]. simpl. split.
  - apply size_insert_le; [done|]. intros Hn. rewrite bool_decide_eq_true_2 in Eg by done.
    simpl in Eg. lia.
  - intros tag' held Hh. apply lookup_insert_Some in Hh as [[<- <-]|[_ Hh]]; [|by eapply H2].
    apply leave_queue_length. destruct (m !! tag) eqn:E; simpl; [by eapply H2|].
    unfold zlen, MAX_PER_TAG. simpl. lia.
  - intros tag'. rewrite under_app, under_one. destruct (H3 tag') as [Hs Hf]. clear Eg.
    case_bool_decide; [|by rewrite app_nil_r]. split.
    + by apply sorted_snoc.
    + apply Forall_app. split; [done|]. apply Forall_singleton. simpl. lia.
  - intros tag'. rewrite under_app, under_one. clear Eg.
    case_bool_decide as Htag.
    + subst tag'. rewrite lookup_insert_eq. simpl. destruct (H3 tag) as [Hs _].
      apply (leave_queue_agree now); [lia|apply H4|done].
    + rewrite app_nil_r, lookup_insert_ne by done. apply H4.
Qed.

Lemma sweep_ok m h t now : t <= now -> table_ok m h t -> table_ok (sweep m now) h now.
Proof.
  intros Ht Hm. apply (table_ok_later _ _ t now Ht) in Hm. destruct Hm as [H1 H2 H3 H4].
  unfold sweep. split; [| |done|].
  - assert (size (omap (sweep_queue now) m) <= size m)%nat; [|lia].
    rewrite <- !size_dom. apply subseteq_size, dom_omap_subseteq.
  - intros tag held Hh. apply lookup_omap_Some in Hh as (k & Hk & Hm').
    specialize (H2 tag k Hm'). unfold sweep_queue in Hk.
    pose proof (length_retain_le (fresh now) k). unfold zlen in *.
    destruct (retain (fresh now) k) eqn:E; [done|]. injection Hk as <-. lia.
  - intros tag now' Hn. rewrite lookup_omap. specialize (H4 tag now' Hn).
    destruct (m !! tag) as [held|]; simpl in *; [|done]. rewrite <- H4. unfold sweep_queue.
    rewrite <- (agree_retain now now held ltac:(lia) now' Hn).
    by destruct (retain (fresh now) held).
Qed.

Lemma run_table_ok m h t os :
  table_ok m h t -> StronglySorted Z.le (t :: (op_time <$> os)) ->
  table_ok (run m os).1 (h ++ (run m os).2) (foldl (fun _ o => op_time o) t os).
Proof.
  revert m h t. induction os as [|o os IH]; intros m h t Hm Hs; simpl.
  { by rewrite app_nil_r. }
  apply StronglySorted_inv in Hs as [Hs Hall]. simpl in Hs.
  assert (t <= op_time o) as Ht by (apply Forall_cons in Hall as [? _]; done).
  destruct o as [tag tk now|now]; simpl in *.
  - pose proof (leave_ok m h t tag tk now Ht Hm) as Hm'.
    destruct (leave m tag tk now) as [r m'] eqn:El. simpl in Hm'.
    specialize (IH m' _ now Hm' Hs). destruct (run m' os) as [m'' h']. simpl in *.
    by rewrite app_assoc.
  - apply IH; [|done]. by eapply sweep_ok.
Qed.

Lemma empty_ok t : table_ok ∅ [] t.
Proof.
  split.
  - rewrite map_size_empty. done.
  - intros tag held Hh. by rewrite lookup_empty in Hh.
  - intros tag. split; constructor.
  - intros tag now _. by rewrite lookup_empty.
Qed.

(** ** Decoys *)

Lemma pick_spec entries avoid want now :
  exists picked : list (Tag * Left),
    pick entries avoid want now = (fun p => ticket p.2) <$> picked /\
    (length picked <= want)%nat /\
    sublist (picked.*1) (entries.*1) /\
    (forall tag l, (tag, l) ∈ picked -> tag <> avoid /\ fresh now l = true /\
       exists held, (tag, held) ∈ entries /\ l ∈ held).
Proof.
  revert want. induction entries as [|[tag held] entries IH]; intros want.
  { exists []. destruct want; simpl; (split_and!; [done|lia|constructor|]);
      intros ? ? Hin; by apply not_elem_of_nil in Hin. }
  assert (forall (picked : list (Tag * Left)),
    (forall t l, (t, l) ∈ picked -> t <> avoid /\ fresh now l = true /\
       exists held, (t, held) ∈ entries /\ l ∈ held) ->
    forall t l, (t, l) ∈ picked -> t <> avoid /\ fresh now l = true /\
       exists h, (t, h) ∈ (tag, held) :: entries /\ l ∈ h) as Hweak.
  { intros picked Hp t l Hin. destruct (Hp t l Hin) as (? & ? & h & ? & ?).
    split_and!; [done|done|]. exists h. split; [by right|done]. }
  destruct want as [|want].
  { exists []. simpl. split_and!; [done|lia|apply sublist_nil_l|].
    intros ? ? Hin; by apply not_elem_of_nil in Hin. }
  simpl. case_bool_decide as Htag.
  { destruct (IH (S want)) as (picked & -> & H1 & H2 & H3). exists picked.
    split_and!; [done|done|by constructor|by apply Hweak]. }
  destruct (List.find (fresh now) held) as [l|] eqn:Ef.
  - destruct (IH want) as (picked & -> & H1 & H2 & H3). exists ((tag, l) :: picked).
    apply List.find_some in Ef as [Hin Hfr]. apply list_elem_of_In in Hin.
    split_and!; [done|simpl; lia|by constructor|].
    intros t k Hk. apply elem_of_cons in Hk as [[= -> ->]|Hk]; [|by apply (Hweak picked)].
    split_and!; [done|done|]. exists held. split; [left|done].
  - destruct (IH (S want)) as (picked & -> & H1 & H2 & H3). exists picked.
    split_and!; [done|done|by constructor|by apply Hweak].
Qed.

Lemma rotate_Permutation {A} n (l : list A) : rotate_from n l ≡ₚ l.
Proof.
  unfold rotate_from. rewrite (Permutation_app_comm (drop n l)). by rewrite take_drop.
Qed.

(** ** Properties *)

(** A tag answers with its last eight live tickets.  After any run whose clock
    does not go back, what [for_tag] returns is exactly the last eight tickets that
    were taken under that tag, those past their time left out, whatever was swept
    and when; no tag holds more than eight and no more than 200,000 tags hold any. *)
Theorem for_tag_is_last_eight os tag now :
  StronglySorted Z.le (op_time <$> os) -> Forall (fun t => t <= now) (op_time <$> os) ->
  let m := (run ∅ os).1 in
  for_tag m tag now =
    ticket <$> retain (fresh now) (last_n 8 (under tag (run ∅ os).2)) /\
  Z.of_nat (size m) <= MAX_TAGS /\
  (forall t held, m !! t = Some held -> zlen held <= MAX_PER_TAG).
Proof.
  intros Hs Hnow. cbv zeta.
  set (t0 := default now (head (op_time <$> os))).
  assert (StronglySorted Z.le (t0 :: (op_time <$> os))) as Hs0.
  { subst t0. destruct os as [|o os]; simpl in *; [repeat constructor|].
    constructor; [done|]. apply StronglySorted_inv in Hs as [_ ?]. by constructor. }
  pose proof (run_table_ok ∅ [] t0 os (empty_ok t0) Hs0) as [H1 H2 _ H4]. simpl in *.
  split_and!; [|done|done].
  assert (foldl (fun _ o => op_time o) t0 os <= now) as Hle.
  { assert (t0 <= now) as Ht0.
    { subst t0. destruct os; simpl; [lia|]. by apply Forall_cons in Hnow as [? _]. }
    clear -Hnow Ht0. clearbody t0. revert t0 Ht0.
    induction os as [|o os IH]; intros t0 Ht0; [done|].
    apply Forall_cons in Hnow as [Ho Hnow]. by apply IH. }
  specialize (H4 tag now Hle). unfold for_tag. rewrite <- H4.
  by destruct ((run ∅ os).1 !! tag).
Qed.

(** What a decoy is.  Walking the table in any order of its own, from any
    starting point, [decoys] gives at most as many tickets as asked for, each live,
    each left under a tag other than the real one, and no two under the same tag. *)
Theorem decoys_are_others (m : Tickets) order avoid want now from :
  order ≡ₚ map_to_list m -> 0 <= want ->
  exists picked : list (Tag * Left),
    decoys order avoid want now from = (fun p => ticket p.2) <$> picked /\
    zlen picked <= want /\ NoDup (picked.*1) /\
    (forall tag l, (tag, l) ∈ picked -> tag <> avoid /\ fresh now l = true /\
       exists held, m !! tag = Some held /\ l ∈ held).
Proof.
  intros Ho Hw.
  assert (exists picked : list (Tag * Left),
    decoys order avoid want now from = (fun p => ticket p.2) <$> picked /\
    zlen picked <= want /\ sublist (picked.*1)
      ((rotate_from (Z.to_nat (from mod zlen order)) order).*1) /\
    (forall tag l, (tag, l) ∈ picked -> tag <> avoid /\ fresh now l = true /\
       exists held, (tag, held) ∈ rotate_from (Z.to_nat (from mod zlen order)) order /\ l ∈ held))
    as (picked & Hd & Hl & Hsub & Hp).
  { unfold decoys. destruct order as [|e order]; [|destruct (Z.eqb_spec want 0)].
    - exists []. split_and!; [done|done|apply sublist_nil_l|].
      intros ? ? Hin; by apply not_elem_of_nil in Hin.
    - exists []. split_and!; [done|done|apply sublist_nil_l|].
      intros ? ? Hin; by apply not_elem_of_nil in Hin.
    - destruct (pick_spec (rotate_from (Z.to_nat (from mod zlen (e :: order))) (e :: order))
        avoid (Z.to_nat want) now) as (picked & H1 & H2 & H3 & H4).
      exists picked. split_and!; [done|unfold zlen; lia|done|done]. }
  exists picked. split_and!; [done|done| |].
  - eapply sublist_NoDup; [|exact Hsub]. rewrite rotate_Permutation, Ho.
    apply NoDup_fst_map_to_list.
  - intros tag l Hin. destruct (Hp tag l Hin) as (H1 & H2 & held & H3 & H4).
    split_and!; [done|done|]. exists held. split; [|done].
    rewrite rotate_Permutation, Ho in H3. by apply elem_of_map_to_list in H3.
Qed.
End Tickets.

Lemma for_tag_is_last_eight_witness :
  let os := [OLeave 1 10 0; OLeave 2 20 5; OLeave 1 11 100000; OSweep 200000] in
  for_tag (Tag := Z) (run ∅ os).1 1 200000 = [11].
Proof.
  cbv zeta. etrans.
  - refine (proj1 (for_tag_is_last_eight (Tag := Z)
      [OLeave 1 10 0; OLeave 2 20 5; OLeave 1 11 100000; OSweep 200000] 1 200000 _ _)).
    + repeat constructor; simpl; lia.
    + repeat constructor; simpl; lia.
  - vm_compute. reflexivity.
Defined.

Lemma decoys_are_others_witness :
  let m : gmap Z (list Left) := list_to_map [(1, [mkLeft 10 0]); (2, [mkLeft 20 0])] in
  decoys (map_to_list m) 1 4 50 7 = [20] /\
  exists picked, decoys (map_to_list m) 1 4 50 7 = (fun p => ticket p.2) <$> picked /\
    zlen picked <= 4 /\ NoDup (picked.*1) /\
    (forall tag l, (tag, l) ∈ picked -> tag <> 1 /\ fresh 50 l = true /\
       exists held, m !! tag = Some held /\ l ∈ held).
Proof.
  cbv zeta. split; [vm_compute; reflexivity|].
  apply decoys_are_others; [reflexivity|lia].
Defined.
