(* ===== verification/Entropy.v ===== *)
(** * The range coder and its adaptive models

    [crates/rotelyx-codec/src/entropy.rs].  The encoder keeps the bottom of an
    interval in [low], a byte held back in [cache] and a count of 0xff bytes queued
    behind it, so that a carry can still reach them; the decoder follows the same
    interval from the bytes.  [cache_size] counts bytes of output and is kept as an
    integer; every other number has its width. *)

From S2P Require Import Prelude.

Definition TOP : Z := Z.shiftl 1 24.
Definition MAX_TOTAL : Z := 2048.

(** ** The encoder *)

Record RangeEncoder := mkEncoder {
  low : Z;
  range : Z;
  cache : byte;
  cache_size : Z;
  out : bytes;
}.

Definition encoder_new : RangeEncoder := mkEncoder 0 u32_max zero_byte 1 [].

Definition shift (e : RangeEncoder) : RangeEncoder :=
  let carry := (low e / 4294967296) mod 256 in
  let low' := wrap32 (Z.shiftl (wrap32 (low e)) 8) in
  if negb (carry =? 0) || (wrap32 (low e) <? 4278190080) then
    mkEncoder low' (range e) (z2b (Z.shiftr (low e) 24)) 1
      (out e ++ z2b (b2z (cache e) + carry) ::
       replicate (Z.to_nat (cache_size e - 1)) (z2b (255 + carry)))
  else mkEncoder low' (range e) (cache e) (cache_size e + 1) (out e).

Definition set_range (e : RangeEncoder) (r : Z) : RangeEncoder :=
  mkEncoder (low e) r (cache e) (cache_size e) (out e).

(** [while self.range < TOP]; four turns are enough from any range of at least one. *)
Fixpoint renormalise (fuel : nat) (e : RangeEncoder) : RangeEncoder :=
  match fuel with
  | O => e
  | S fuel =>
      if range e <? TOP
      then renormalise fuel (set_range (shift e) (wrap32 (Z.shiftl (range e) 8)))
      else e
  end.

Definition LOOP_FUEL : nat := 4.

(** The interval of a symbol, before renormalising. *)
Definition narrow (e : RangeEncoder) (cum freq total : Z) : RangeEncoder :=
  let r := range e / total in
  mkEncoder (wrap64 (low e + r * cum)) (wrap32 (r * freq)) (cache e) (cache_size e) (out e).

Definition encode (e : RangeEncoder) (cum freq total : Z) : RangeEncoder :=
  renormalise LOOP_FUEL (narrow e cum freq total).

Definition finish (e : RangeEncoder) : bytes :=
  let out := out (Nat.iter 5 shift e) in
  match out with
  | [] => []
  | _ :: rest => rest
  end.

Definition encoder_len (e : RangeEncoder) : Z := zlen (out e).

(** ** The decoder *)

Record RangeDecoder := mkDecoder {
  code : Z;
  drange : Z;
  input : bytes;
  position : Z;
}.

Definition next_byte (d : RangeDecoder) : byte :=
  default zero_byte (input d !! Z.to_nat (position d)).

(** [self.code = (self.code << 8) | self.next() as u32]. *)
Definition pull (d : RangeDecoder) : RangeDecoder :=
  mkDecoder (Z.lor (wrap32 (Z.shiftl (code d) 8)) (b2z (next_byte d))) (drange d)
    (input d) (position d + 1).

Definition decoder_new (input : bytes) : RangeDecoder :=
  Nat.iter 4 pull (mkDecoder 0 u32_max input 0).

Definition target (d : RangeDecoder) (total : Z) : Z * RangeDecoder :=
  let r := drange d / total in
  (Z.min (code d / r) (total - 1), mkDecoder (code d) r (input d) (position d)).

Fixpoint drenormalise (fuel : nat) (d : RangeDecoder) : RangeDecoder :=
  match fuel with
  | O => d
  | S fuel =>
      if drange d <? TOP then
        let d' := pull d in
        drenormalise fuel
          (mkDecoder (code d') (wrap32 (Z.shiftl (drange d) 8)) (input d') (position d'))
      else d
  end.

Definition decoder_update (d : RangeDecoder) (cum freq : Z) : RangeDecoder :=
  drenormalise LOOP_FUEL
    (mkDecoder (wrap32 (code d - wrap32 (cum * drange d))) (wrap32 (drange d * freq))
       (input d) (position d)).

(** ** Models *)

Record Model := mkModel { counts : list Z; total : Z }.

Definition sum (l : list Z) : Z := foldr Z.add 0 l.

Definition model_new (symbols : nat) : Model :=
  mkModel (replicate symbols 1) (wrap32 (Z.of_nat symbols)).

Definition range_of (m : Model) (symbol : nat) : Z * Z :=
  (sum (take symbol (counts m)), default 0 (counts m !! symbol)).

(** The [for] of [symbol_at]: [symbol] and [cum] are the loop's. *)
Fixpoint symbol_loop (counts : list Z) (target : Z) (symbol : nat) (cum : Z)
    : option (nat * Z * Z) :=
  match counts with
  | [] => None
  | count :: counts =>
      if target <? cum + count then Some (symbol, cum, count)
      else symbol_loop counts target (S symbol) (cum + count)
  end.

Definition symbol_at (m : Model) (target : Z) : nat * Z * Z :=
  match symbol_loop (counts m) target 0 0 with
  | Some r => r
  | None =>
      let last := (length (counts m) - 1)%nat in
      let c := default 0 (counts m !! last) in
      (last, total m - c, c)
  end.

Definition halve (c : Z) : Z := Z.max (Z.shiftr c 1) 1.

Definition model_update (m : Model) (symbol : nat) : Model :=
  let counts := alter (fun c => c + 24) symbol (counts m) in
  let total := total m + 24 in
  if MAX_TOTAL <=? total then mkModel (halve <$> counts) (sum (halve <$> counts))
  else mkModel counts total.

Definition encode_symbol (e : RangeEncoder) (m : Model) (symbol : nat)
    : RangeEncoder * Model :=
  let '(cum, freq) := range_of m symbol in
  (encode e cum freq (total m), model_update m symbol).

Definition decode_symbol (d : RangeDecoder) (m : Model) : nat * RangeDecoder * Model :=
  let '(t, d) := target d (total m) in
  let '(symbol, cum, freq) := symbol_at m t in
  (symbol, decoder_update d cum freq, model_update m symbol).

(** A stream coded against several models: each symbol names the one it uses. *)
Fixpoint encode_all (e : RangeEncoder) (ms : list Model) (syms : list (nat * nat))
    : RangeEncoder :=
  match syms with
  | [] => e
  | (i, s) :: syms =>
      match ms !! i with
      | None => encode_all e ms syms
      | Some m =>
          let '(e, m) := encode_symbol e m s in
          encode_all e (<[i := m]> ms) syms
      end
  end.

Fixpoint decode_all (d : RangeDecoder) (ms : list Model) (which : list nat) : list nat :=
  match which with
  | [] => []
  | i :: which =>
      match ms !! i with
      | None => decode_all d ms which
      | Some m =>
          let '(s, d, m) := decode_symbol d m in
          s :: decode_all d (<[i := m]> ms) which
      end
  end.

(** ** Models stay in range *)

Record model_ok (m : Model) : Prop := {
  mo_counts : Forall (fun c => 1 <= c) (counts m);
  mo_total : total m = sum (counts m);
  mo_max : total m < MAX_TOTAL;
  mo_len : (0 < length (counts m) <= 2000)%nat;
}.

Lemma sum_app l k : sum (l ++ k) = sum l + sum k.
Proof. unfold sum. induction l; simpl in *; lia. Qed.

Lemma sum_nonneg l : Forall (fun c => 1 <= c) l -> 0 <= sum l.
Proof. unfold sum. induction 1; simpl; lia. Qed.

Lemma sum_split l i c :
  l !! i = Some c -> sum l = sum (take i l) + c + sum (drop (S i) l).
Proof.
  intros Hi. rewrite <- (take_drop_middle l i c Hi) at 1. rewrite sum_app. simpl. lia.
Qed.

Lemma sum_alter l i : (i < length l)%nat -> sum (alter (fun c => c + 24) i l) = sum l + 24.
Proof.
  unfold sum. revert i. induction l as [|x l IH]; intros [|i] Hi; simpl in *; [lia|lia|lia|].
  specialize (IH i ltac:(lia)). unfold alter in IH. lia.
Qed.

Lemma model_new_ok n : (0 < n <= 2000)%nat -> model_ok (model_new n).
Proof.
  intros Hn. unfold model_new, wrap32. split; simpl.
  - apply Forall_replicate. lia.
  - rewrite Z.mod_small by lia. clear. unfold sum.
    induction n; simpl; [done|]. rewrite Nat2Z.inj_succ. lia.
  - rewrite Z.mod_small by lia. unfold MAX_TOTAL. lia.
  - by rewrite length_replicate.
Qed.

Lemma halve_bounds c : 1 <= c -> 1 <= halve c /\ 2 * halve c <= c + 1.
Proof.
  intros Hc. unfold halve. rewrite Z.shiftr_div_pow2 by lia. change (2 ^ 1) with 2.
  Z.div_mod_to_equations. lia.
Qed.

Lemma sum_halve l :
  Forall (fun c => 1 <= c) l -> 2 * sum (halve <$> l) <= sum l + zlen l.
Proof.
  unfold sum. induction 1 as [|c l Hc _ IH]; csimpl; [done|].
  rewrite zlen_cons. pose proof (halve_bounds c Hc). lia.
Qed.

Lemma model_update_ok m s :
  model_ok m -> (s < length (counts m))%nat ->
  model_ok (model_update m s) /\ length (counts (model_update m s)) = length (counts m).
Proof.
  intros [Hc Ht Hm Hl] Hs. unfold model_update.
  assert (Forall (fun c => 1 <= c) (alter (fun c => c + 24) s (counts m))) as Hc'.
  { apply Forall_alter; [done|]. intros x _ Hx. lia. }
  pose proof (sum_alter (counts m) s Hs) as Hsum.
  destruct (Z.leb_spec MAX_TOTAL (total m + 24)).
  - pose proof (sum_halve _ Hc') as Hh. unfold zlen in Hh. rewrite length_alter in Hh.
    unfold MAX_TOTAL in *. split; [|simpl; by rewrite length_fmap, length_alter].
    split; simpl.
    + apply Forall_fmap. eapply Forall_impl; [exact Hc'|]. simpl. intros c Hx.
      by apply halve_bounds.
    + done.
    + unfold MAX_TOTAL. lia.
    + by rewrite length_fmap, length_alter.
  - split; [|simpl; by rewrite length_alter]. split; simpl.
    + done.
    + lia.
    + done.
    + by rewrite length_alter.
Qed.

(** The symbol a target falls in is the one whose interval holds it. *)
Lemma symbol_loop_range l t s0 cum0 i c :
  Forall (fun c => 1 <= c) l -> l !! i = Some c ->
  cum0 + sum (take i l) <= t < cum0 + sum (take i l) + c ->
  symbol_loop l t s0 cum0 = Some ((s0 + i)%nat, cum0 + sum (take i l), c).
Proof.
  intros Hl. revert s0 cum0 i. induction Hl as [|x l Hx Hl IH]; intros s0 cum0 i Hi Ht; [done|].
  destruct i as [|i]; simpl in *.
  - injection Hi as ->. rewrite (proj2 (Z.ltb_lt _ _)) by lia.
    rewrite Nat.add_0_r, Z.add_0_r. done.
  - assert (0 <= sum (take i l)) by (apply sum_nonneg, Forall_take, Hl).
    unfold sum in *. rewrite (proj2 (Z.ltb_ge _ _)) by lia.
    rewrite (IH (S s0) (cum0 + x) i Hi) by lia.
    replace (S s0 + i)%nat with (s0 + S i)%nat by lia.
    do 3 f_equal. lia.
Qed.

Lemma symbol_loop_Some l t s0 cum0 s cum c :
  symbol_loop l t s0 cum0 = Some (s, cum, c) -> cum0 <= t ->
  exists i, s = (s0 + i)%nat /\ l !! i = Some c /\ cum = cum0 + sum (take i l) /\
    cum <= t < cum + c.
Proof.
  revert s0 cum0. induction l as [|x l IH]; intros s0 cum0; simpl; [done|].
  destruct (Z.ltb_spec t (cum0 + x)).
  - intros [= <- <- <-] H0. exists 0%nat. simpl. rewrite Nat.add_0_r. split_and!; done || lia.
  - intros Hs _. destruct (IH _ _ Hs ltac:(lia)) as (i & -> & Hi & -> & Hr).
    exists (S i). simpl. unfold sum in *. split_and!; try done; lia.
Qed.

Lemma symbol_loop_None l t s0 cum0 :
  symbol_loop l t s0 cum0 = None -> cum0 + sum l <= t \/ l = [].
Proof.
  revert s0 cum0. induction l as [|x l IH]; intros s0 cum0; simpl; [by right|].
  destruct (Z.ltb_spec t (cum0 + x)); [done|]. intros Hn.
  destruct (IH _ _ Hn) as [?| ->]; unfold sum in *; simpl; left; lia.
Qed.

Lemma symbol_at_range m s c t :
  model_ok m -> counts m !! s = Some c ->
  sum (take s (counts m)) <= t < sum (take s (counts m)) + c ->
  symbol_at m t = (s, sum (take s (counts m)), c).
Proof.
  intros Hm Hs Ht. unfold symbol_at.
  rewrite (symbol_loop_range (counts m) t 0 0 s c (mo_counts _ Hm) Hs) by lia. done.
Qed.

(** Any target below the total falls in some symbol. *)
Lemma symbol_at_total m t :
  model_ok m -> 0 <= t < total m ->
  exists s c, counts m !! s = Some c /\ symbol_at m t = (s, sum (take s (counts m)), c) /\
    sum (take s (counts m)) <= t.
Proof.
  intros Hm Ht. unfold symbol_at.
  destruct (symbol_loop (counts m) t 0 0) as [[[s cum] c]|] eqn:E.
  - apply symbol_loop_Some in E as (i & -> & Hi & -> & Hr); [|lia].
    exists i, c. simpl in *. split_and!; try done; lia.
  - apply symbol_loop_None in E as [E|E].
    + rewrite (mo_total _ Hm) in Ht. lia.
    + pose proof (mo_len _ Hm) as Hl. rewrite E in Hl. simpl in Hl. lia.
Qed.

(** ** The number the encoder is writing

    The bytes already out, the byte held back and the 0xff bytes queued behind it,
    followed by [low]: adding to [low] is adding to this number, and [shift] only
    moves the point. *)

Definition B32 : Z := 4294967296.

Definition digits (e : RangeEncoder) : bytes :=
  out e ++ cache e :: replicate (Z.to_nat (cache_size e - 1)) xff.

Definition num (e : RangeEncoder) : Z := be_value (digits e) * B32 + low e.

(** An interval of width [R] above [num e] never carries past the byte held back. *)
Record enc_ok (e : RangeEncoder) (R : Z) : Prop := {
  eo_pos : 1 <= R;
  eo_low : 0 <= low e;
  eo_top : low e + R <= 2 * B32;
  eo_size : 1 <= cache_size e;
  eo_room : (b2z (cache e) + 1) * 256 ^ (cache_size e - 1) * B32 - B32 + low e + R
            <= 256 ^ cache_size e * B32;
}.

Lemma be_value_replicate b n :
  be_value (replicate n b) * 255 = b2z b * (256 ^ Z.of_nat n - 1).
Proof.
  induction n as [|n IH].
  { change (be_value (replicate 0 b)) with 0. change (256 ^ Z.of_nat 0) with 1. lia. }
  cbn [replicate]. rewrite be_value_cons, length_replicate, Nat2Z.inj_succ, Z.pow_succ_r by lia.
  lia.
Qed.

Lemma be_value_ff n : be_value (replicate n xff) = 256 ^ Z.of_nat n - 1.
Proof. pose proof (be_value_replicate xff n) as H. change (b2z xff) with 255 in H. lia. Qed.

Lemma be_value_00 n : be_value (replicate n x00) = 0.
Proof. pose proof (be_value_replicate x00 n) as H. change (b2z x00) with 0 in H. lia. Qed.

Lemma be_value_snoc l b : be_value (l ++ [b]) = be_value l * 256 + b2z b.
Proof. rewrite be_value_app, be_value_cons. change (be_value []) with 0. simpl. lia. Qed.

Lemma enc_ok_shrink e R d R' :
  enc_ok e R -> 0 <= d -> 1 <= R' -> d + R' <= R ->
  enc_ok (mkEncoder (low e + d) (range e) (cache e) (cache_size e) (out e)) R'.
Proof. intros [? ? ? ? ?] ? ? ?. split; simpl; lia. Qed.

Lemma enc_ok_range e R r : enc_ok e R -> enc_ok (set_range e r) R.
Proof. intros [? ? ? ? ?]. by split. Qed.

(** The three fields of [low] a shift looks at. *)
Lemma low_fields l :
  0 <= l < 2 * B32 ->
  exists c b r, l = c * B32 + b * 16777216 + r /\ 0 <= c <= 1 /\ 0 <= b < 256 /\
    0 <= r < 16777216 /\ (l / 4294967296) mod 256 = c /\ wrap32 l = b * 16777216 + r /\
    wrap32 (Z.shiftl (wrap32 l) 8) = r * 256 /\ b2z (z2b (Z.shiftr l 24)) = b.
Proof.
  intros Hl. unfold B32 in *.
  exists (l / 4294967296), ((l / 16777216) mod 256), (l mod 16777216).
  assert (0 <= l / 4294967296 <= 1) as Hc by (Z.div_mod_to_equations; lia).
  assert (wrap32 l = (l / 16777216) mod 256 * 16777216 + l mod 16777216) as Hw
    by (unfold wrap32; Z.div_mod_to_equations; lia).
  split_and!; try lia; try (Z.div_mod_to_equations; lia).
  - rewrite Hw, Z.shiftl_mul_pow2 by lia. change (2 ^ 8) with 256. unfold wrap32.
    Z.div_mod_to_equations. lia.
  - rewrite b2z_z2b, Z.shiftr_div_pow2 by lia. done.
Qed.

(** A carry reaches the byte held back and clears the queue behind it. *)
Lemma carry_digits l b n c :
  0 <= c <= 1 -> b2z b + c <= 255 ->
  be_value (l ++ z2b (b2z b + c) :: replicate n (z2b (255 + c))) =
  be_value (l ++ b :: replicate n xff) + c.
Proof.
  intros Hc Hb. pose proof (b2z_range b).
  rewrite !be_value_app, !be_value_cons. simpl length. rewrite !length_replicate.
  rewrite b2z_z2b_small, be_value_ff by lia.
  assert (c = 0 \/ c = 1) as [-> | ->] by lia.
  - change (z2b (255 + 0)) with xff. rewrite be_value_ff. lia.
  - change (z2b (255 + 1)) with x00. rewrite be_value_00. lia.
Qed.

Lemma shift_spec e R :
  enc_ok e R -> R <= TOP ->
  enc_ok (shift e) (256 * R) /\ num (shift e) = 256 * num e /\
  length (digits (shift e)) = S (length (digits e)) /\ range (shift e) = range e /\
  low (shift e) = (low e mod 16777216) * 256.
Proof.
  intros [Hpos Hlow Htop Hsize Hroom] HR. change TOP with 16777216 in HR.
  destruct (low_fields (low e)) as (c & b & r & Hl & Hc & Hb & Hr & Ec & Ew & Es & Ez);
    [unfold B32 in *; lia|].
  assert (low e mod 16777216 = r) as Hmod by (unfold B32 in *; Z.div_mod_to_equations; lia).
  set (q := cache_size e) in *. unfold B32 in *.
  assert (0 < 256 ^ (q - 1)) as Hq by (apply Z.pow_pos_nonneg; lia).
  assert (256 ^ q = 256 * 256 ^ (q - 1)) as Hq1.
  { rewrite <- Z.pow_succ_r by lia. f_equal. lia. }
  unfold shift, num, digits. rewrite Ec, Es, Ew, Hmod.
  destruct (negb (c =? 0) || (b * 16777216 + r <? 4278190080)) eqn:E; simpl;
    unfold B32; simpl.
  - (* bytes leave *)
    assert (b2z (cache e) + c <= 255) as Hcache.
    { pose proof (b2z_range (cache e)). destruct (Z.eqb_spec c 0); [lia|].
      assert (b2z (cache e) <> 255); [|lia]. intros Hff. rewrite Hff in Hroom. nia. }
    pose proof (b2z_range (cache e)) as Hcr.
    assert (0 <= b * 16777216 + r /\ b * 16777216 + r + R <= 4294967296) as [_ Hfit].
    { split; [lia|]. destruct (Z.eqb_spec c 0); simpl in E; [apply Z.ltb_lt in E|]; lia. }
    split_and!; try done.
    + split; simpl; try lia; unfold B32; lia.
    + rewrite be_value_snoc, Ez, (carry_digits _ _ _ c) by lia. rewrite Hl. lia.
    + rewrite !length_app. simpl. rewrite !length_replicate. lia.
  - (* one more 0xff is queued *)
    apply orb_false_iff in E as [E1 E2]. apply negb_false_iff, Z.eqb_eq in E1. subst c.
    apply Z.ltb_ge in E2. assert (b = 255) as -> by lia.
    assert (Z.to_nat (q + 1 - 1) = S (Z.to_nat (q - 1))) as Hn by lia.
    split_and!; try done.
    + change (cache_size e) with q. split; simpl; try lia; [unfold B32; lia|].
      unfold B32. replace (q + 1 - 1) with q by lia.
      rewrite Z.pow_add_r, Z.pow_1_r by lia. rewrite Hq1 in *. lia.
    + change (cache_size e) with q. rewrite Hn, replicate_S_end. change (cache e :: ?l ++ ?m) with ((cache e :: l) ++ m).
      rewrite app_assoc, be_value_snoc. change (b2z xff) with 255. rewrite Hl. lia.
    + change (cache_size e) with q. rewrite Hn, !length_app. simpl. lia.
Qed.

(** ** What the encoder preserves *)

Definition ndigits (e : RangeEncoder) : Z := zlen (digits e).

(** Between symbols: the interval has room, stays under the first byte, and is wide. *)
Record encoder_ok (e : RangeEncoder) (R : Z) : Prop := {
  ec_ok : enc_ok e R;
  ec_all : num e + R <= 256 ^ (ndigits e - 1) * B32;
}.

Lemma ndigits_pos e : 1 <= ndigits e.
Proof.
  unfold ndigits, digits. rewrite zlen_app, zlen_cons.
  pose proof (zlen_nonneg (out e)). pose proof (zlen_nonneg (replicate (Z.to_nat (cache_size e - 1)) xff)).
  lia.
Qed.

Lemma shift_ok e R :
  encoder_ok e R -> R <= TOP -> encoder_ok (shift e) (256 * R) /\
  num (shift e) = 256 * num e /\ ndigits (shift e) = ndigits e + 1.
Proof.
  intros [He Ha] HR. destruct (shift_spec e R He HR) as (H1 & H2 & H3 & _ & _).
  assert (ndigits (shift e) = ndigits e + 1) as Hn by (unfold ndigits, zlen; rewrite H3; lia).
  split_and!; [|done|done]. split; [done|]. rewrite H2, Hn. pose proof (ndigits_pos e).
  replace (ndigits e + 1 - 1) with (Z.succ (ndigits e - 1)) by lia.
  rewrite Z.pow_succ_r by lia. lia.
Qed.

Lemma encoder_ok_range e R r : encoder_ok e R -> encoder_ok (set_range e r) R.
Proof. intros [He Ha]. split; [by apply enc_ok_range|done]. Qed.

Lemma encoder_ok_narrow e cum freq total :
  encoder_ok e (range e) -> TOP <= range e <= u32_max ->
  0 <= cum -> 1 <= freq -> cum + freq <= total -> total <= MAX_TOTAL ->
  let r := range e / total in
  encoder_ok (narrow e cum freq total) (r * freq) /\ range (narrow e cum freq total) = r * freq /\
  num (narrow e cum freq total) = num e + r * cum /\
  digits (narrow e cum freq total) = digits e /\
  1 <= r /\ 1 <= r * freq <= u32_max /\ r * cum + r * freq <= range e.
Proof.
  intros [He Ha] Hr Hc Hf Hcf Ht r. change TOP with 16777216 in Hr. unfold MAX_TOTAL, u32_max in *.
  assert (1 <= r) as Hr1 by (apply Z.div_le_lower_bound; lia).
  assert (r * total <= range e) as Hrt by (rewrite Z.mul_comm; apply Z.mul_div_le; lia).
  assert (r * cum + r * freq <= range e) as Hsub by nia.
  assert (1 <= r * freq <= 4294967295) as Hrf by nia.
  assert (0 <= r * cum) by nia.
  assert (wrap64 (low e + r * cum) = low e + r * cum) as Hw.
  { unfold wrap64. apply Z.mod_small. destruct He. unfold B32 in *. lia. }
  assert (wrap32 (r * freq) = r * freq) as Hw2 by (unfold wrap32; apply Z.mod_small; lia).
  unfold narrow. fold r. rewrite Hw, Hw2. split_and!; try done; try lia.
  - split.
    + exact (enc_ok_range _ _ (r * freq)
        (enc_ok_shrink e (range e) (r * cum) (r * freq) He ltac:(lia) ltac:(lia) ltac:(lia))).
    + unfold num, ndigits, digits in *. simpl in *. lia.
  - unfold num, digits. simpl. lia.
Qed.

(** Renormalising multiplies the interval and its width by the same power. *)
Lemma renormalise_spec f e :
  encoder_ok e (range e) -> 1 <= range e <= u32_max -> TOP <= range e * 256 ^ Z.of_nat f ->
  let e' := renormalise f e in
  encoder_ok e' (range e') /\ TOP <= range e' <= u32_max /\
  exists k, 0 <= k /\ num e' = 256 ^ k * num e /\ range e' = 256 ^ k * range e /\
    ndigits e' = ndigits e + k.
Proof.
  revert e. induction f as [|f IH]; intros e He Hr Hf; cbn [renormalise].
  - change (256 ^ Z.of_nat 0) with 1 in Hf. split_and!; [done|lia|lia|].
    exists 0. change (256 ^ 0) with 1. lia.
  - destruct (Z.ltb_spec (range e) TOP) as [Hlt|Hge].
    + destruct (shift_ok e (range e) He ltac:(lia)) as (H1 & H2 & H3).
      assert (wrap32 (Z.shiftl (range e) 8) = 256 * range e) as Hw.
      { change TOP with 16777216 in Hlt. rewrite Z.shiftl_mul_pow2 by lia. change (2 ^ 8) with 256.
        unfold wrap32. rewrite Z.mod_small; lia. }
      rewrite Hw. rewrite Nat2Z.inj_succ, Z.pow_succ_r in Hf by lia.
      destruct (IH (set_range (shift e) (256 * range e))) as (G1 & G2 & k & Hk & G3 & G4 & G5).
      * by apply encoder_ok_range.
      * simpl. change TOP with 16777216 in Hlt. unfold u32_max. lia.
      * simpl. lia.
      * split_and!; [done|lia|lia|]. exists (Z.succ k). rewrite Z.pow_succ_r by lia.
        change (num (set_range (shift e) (256 * range e))) with (num (shift e)) in G3.
        change (ndigits (set_range (shift e) (256 * range e))) with (ndigits (shift e)) in G5.
        cbn [range set_range] in G4. split_and!; lia.
    + split_and!; [done|lia|lia|]. exists 0. change (256 ^ 0) with 1. lia.
Qed.

Lemma encode_ok e cum freq total :
  encoder_ok e (range e) -> TOP <= range e <= u32_max ->
  0 <= cum -> 1 <= freq -> cum + freq <= total -> total <= MAX_TOTAL ->
  encoder_ok (encode e cum freq total) (range (encode e cum freq total)) /\
  TOP <= range (encode e cum freq total) <= u32_max.
Proof.
  intros He Hr Hc Hf Hcf Ht.
  destruct (encoder_ok_narrow e cum freq total He Hr Hc Hf Hcf Ht)
    as (H1 & H2 & _ & _ & _ & H3 & _).
  rewrite <- H2 in H1, H3.
  destruct (renormalise_spec LOOP_FUEL (narrow e cum freq total) H1 H3) as (G1 & G2 & _);
    [change (256 ^ Z.of_nat LOOP_FUEL) with 4294967296; change TOP with 16777216; lia|done].
Qed.

(** ** The finished code *)

Lemma low_shifted l :
  0 <= l -> let s x := x mod 16777216 * 256 in s (s (s (s l))) = 0.
Proof.
  intros _. cbv beta zeta. set (a := l mod 16777216).
  assert (a * 256 mod 16777216 = a mod 65536 * 256) as ->
    by exact (Z.mul_mod_distr_r a 65536 256 ltac:(lia) ltac:(lia)).
  set (b := a mod 65536).
  assert (b * 256 * 256 mod 16777216 = b mod 256 * 65536) as ->.
  { rewrite <- Z.mul_assoc. exact (Z.mul_mod_distr_r b 256 65536 ltac:(lia) ltac:(lia)). }
  set (c := b mod 256).
  assert (c * 65536 * 256 mod 16777216 = 0) as ->; [|done].
  rewrite <- Z.mul_assoc. apply Z.mod_mul. lia.
Qed.

Lemma shift_one e :
  encoder_ok e 1 ->
  encoder_ok (shift e) 1 /\ num (shift e) = 256 * num e /\ ndigits (shift e) = ndigits e + 1 /\
  low (shift e) = low e mod 16777216 * 256.
Proof.
  intros He. assert (1 <= TOP) as HT by (vm_compute; congruence).
  destruct (shift_ok _ _ He HT) as (H1 & H2 & H3).
  destruct (shift_spec _ _ (ec_ok _ _ He) HT) as (_ & _ & _ & _ & H4).
  split_and!; [|done..]. destruct H1 as [[? ? ? ? ?] ?]. split; [split|]; lia.
Qed.

Lemma shift_flush e :
  low e = 0 -> digits (shift e) = out (shift e) ++ [x00] /\ low (shift e) = 0.
Proof. intros Hl. unfold shift, digits. rewrite Hl. done. Qed.

Lemma five_shifts e :
  encoder_ok e 1 ->
  let e' := shift (shift (shift (shift (shift e)))) in
  be_value (out e') = num e /\ zlen (out e') = ndigits e + 4.
Proof.
  intros H0. cbv zeta.
  destruct (shift_one _ H0) as (H1 & N1 & D1 & L1).
  destruct (shift_one _ H1) as (H2 & N2 & D2 & L2).
  destruct (shift_one _ H2) as (H3 & N3 & D3 & L3).
  destruct (shift_one _ H3) as (H4 & N4 & D4 & L4).
  destruct (shift_one _ H4) as (H5 & N5 & D5 & _).
  assert (low (shift (shift (shift (shift e)))) = 0) as Hlow.
  { rewrite L4, L3, L2, L1. apply low_shifted. apply (eo_low _ _ (ec_ok _ _ H0)). }
  destruct (shift_flush _ Hlow) as [Hd Hl5].
  generalize dependent (shift (shift (shift (shift (shift e))))). intros e5 H5 N5 D5 Hd Hl5.
  unfold num in N5 at 1. unfold ndigits in D5 at 1. rewrite Hd in N5, D5.
  rewrite be_value_snoc, Hl5 in N5. change (b2z x00) with 0 in N5.
  rewrite zlen_app, zlen_cons, zlen_nil in D5. unfold B32 in N5. lia.
Qed.

(** What [finish] gives is the encoder's number, in as many bytes as the decoder
    will have read. *)
Lemma finish_spec e :
  encoder_ok e 1 -> be_value (finish e) = num e /\ zlen (finish e) = ndigits e + 3.
Proof.
  intros He. destruct (five_shifts e He) as [Hval Hlen]. unfold finish. cbn [Nat.iter nat_rect].
  generalize dependent (shift (shift (shift (shift (shift e))))). intros e5 Hval Hlen.
  pose proof (ndigits_pos e). destruct (out e5) as [|b rest].
  { rewrite zlen_nil in Hlen. lia. }
  rewrite zlen_cons in Hlen. split; [|lia].
  rewrite be_value_cons in Hval. change (Z.of_nat (length rest)) with (zlen rest) in Hval.
  pose proof (ec_all _ _ He) as Hall. pose proof (be_value_range rest). pose proof (b2z_range b).
  assert (256 ^ zlen rest = 256 ^ (ndigits e - 1) * B32) as Hpow.
  { replace (zlen rest) with (ndigits e - 1 + 4) by lia. rewrite Z.pow_add_r by lia. done. }
  rewrite Hpow in Hval. assert (b2z b = 0); [|lia]. unfold B32 in *. nia.
Qed.

(** ** The decoder follows *)

(** Bytes the decoder has read when the encoder is at [e]. *)
Definition pos (e : RangeEncoder) : Z := ndigits e + 3.

(** The final code [w] lies in the encoder's interval. *)
Definition contains (e : RangeEncoder) (w : bytes) : Prop :=
  pos e <= zlen w /\
  num e * 256 ^ (zlen w - pos e) <= be_value w < (num e + range e) * 256 ^ (zlen w - pos e).

(** What the first [n] bytes of the code say. *)
Definition prefix (w : bytes) (n : Z) : Z := be_value (take (Z.to_nat n) w).

Record follows (e : RangeEncoder) (d : RangeDecoder) (w : bytes) : Prop := {
  fo_input : input d = w;
  fo_position : position d = pos e;
  fo_range : drange d = range e;
  fo_code : code d = prefix w (pos e) - num e;
}.

Lemma prefix_bounds w n :
  0 <= n <= zlen w ->
  prefix w n * 256 ^ (zlen w - n) <= be_value w < (prefix w n + 1) * 256 ^ (zlen w - n).
Proof.
  intros Hn. unfold prefix.
  assert (be_value w = be_value (take (Z.to_nat n) w) * 256 ^ (zlen w - n) +
    be_value (drop (Z.to_nat n) w)) as ->.
  { rewrite <- (take_drop (Z.to_nat n) w) at 1. rewrite be_value_app, length_drop.
    do 3 f_equal. unfold zlen in *. lia. }
  pose proof (be_value_range (drop (Z.to_nat n) w)) as Hr. rewrite length_drop in Hr.
  replace (Z.of_nat (length w - Z.to_nat n)) with (zlen w - n) in Hr by (unfold zlen in *; lia).
  lia.
Qed.

Lemma contains_code e w :
  contains e w -> 0 <= pos e -> num e <= prefix w (pos e) < num e + range e.
Proof.
  intros [Hp [Hlo Hhi]] H0. pose proof (prefix_bounds w (pos e) ltac:(lia)) as [Hl Hh].
  assert (0 < 256 ^ (zlen w - pos e)) by (apply Z.pow_pos_nonneg; lia). nia.
Qed.

Lemma pos_nonneg e : 0 <= pos e.
Proof. unfold pos. pose proof (ndigits_pos e). lia. Qed.

(** An interval inside this one, [k] bytes further on, contains no more codes. *)
Lemma contains_back e e' k d w :
  0 <= k -> 0 <= d -> pos e' = pos e + k -> num e' = 256 ^ k * (num e + d) ->
  range e' <= 256 ^ k * (range e - d) -> contains e' w -> contains e w.
Proof.
  intros Hk Hd Hp Hn Hr [Hpos [Hlo Hhi]]. unfold contains.
  assert (256 ^ (zlen w - pos e) = 256 ^ k * 256 ^ (zlen w - pos e')) as ->.
  { rewrite <- Z.pow_add_r by lia. f_equal. lia. }
  set (P := 256 ^ (zlen w - pos e')) in *. set (K := 256 ^ k) in *.
  assert (0 < P) by (apply Z.pow_pos_nonneg; lia).
  assert (0 < K) by (apply Z.pow_pos_nonneg; lia).
  split; [lia|]. rewrite Hn in *. split; [nia|].
  eapply Z.lt_le_trans; [exact Hhi|]. rewrite (Z.mul_comm K P), Z.mul_assoc, (Z.mul_comm _ K).
  transitivity (K * (num e + range e) * P); [apply Z.mul_le_mono_nonneg_r; nia|nia].
Qed.

Lemma prefix_next w n :
  0 <= n < zlen w ->
  prefix w (n + 1) = prefix w n * 256 + b2z (default zero_byte (w !! Z.to_nat n)).
Proof.
  intros Hn. unfold prefix. destruct (lookup_lt_is_Some_2 w (Z.to_nat n)) as [b Hb];
    [unfold zlen in *; lia|].
  replace (Z.to_nat (n + 1)) with (S (Z.to_nat n)) by lia.
  by rewrite (take_S_r _ _ _ Hb), be_value_snoc, Hb.
Qed.

(** Both loops take the same turns. *)
Lemma drenormalise_follows f e d w :
  encoder_ok e (range e) -> 1 <= range e <= u32_max -> TOP <= range e * 256 ^ Z.of_nat f ->
  follows e d w -> contains (renormalise f e) w ->
  follows (renormalise f e) (drenormalise f d) w.
Proof.
  revert e d. induction f as [|f IH]; intros e d He Hr Hf Hd Hc; cbn [renormalise drenormalise] in *;
    [done|]. rewrite (fo_range _ _ _ Hd).
  destruct (Z.ltb_spec (range e) TOP) as [Hlt|Hge]; [|done].
  destruct (shift_ok e (range e) He ltac:(lia)) as (H1 & H2 & H3).
  change TOP with 16777216 in Hlt.
  assert (wrap32 (Z.shiftl (range e) 8) = 256 * range e) as Hw.
  { rewrite Z.shiftl_mul_pow2 by lia. change (2 ^ 8) with 256.
    unfold wrap32. rewrite Z.mod_small; lia. }
  rewrite Hw in *. rewrite Nat2Z.inj_succ, Z.pow_succ_r in Hf by lia.
  set (e1 := set_range (shift e) (256 * range e)) in *.
  assert (encoder_ok e1 (range e1)) as He1 by (by apply encoder_ok_range).
  assert (range e1 = 256 * range e) as Hr1 by done.
  assert (num e1 = 256 * num e) as Hn1 by done.
  assert (pos e1 = pos e + 1) as Hp1.
  { unfold pos. change (ndigits e1) with (ndigits (shift e)). lia. }
  destruct (renormalise_spec f e1 He1) as (_ & _ & k & Hk & G1 & G2 & G3);
    [unfold u32_max in *; lia|lia|].
  assert (contains e1 w) as Hc1.
  { apply (contains_back e1 (renormalise f e1) k 0 w); try done; try lia;
      unfold pos in *; lia. }
  assert (contains e w) as Hc0.
  { apply (contains_back e e1 1 0 w); try done; try lia. }
  pose proof (contains_code e w Hc0 (pos_nonneg e)) as Hcode.
  apply IH; try done; [unfold u32_max in *; lia|lia|].
  destruct Hd as [Hin Hpo Hra Hco]. split; cbn [pull input position drange code].
  - done.
  - lia.
  - done.
  - unfold next_byte. rewrite Hin, Hpo, Hp1, Hn1.
    rewrite prefix_next by (destruct Hc1; pose proof (pos_nonneg e); lia).
    rewrite Z.shiftl_mul_pow2 by lia. change (2 ^ 8) with 256.
    assert (wrap32 (code d * 256) = code d * 256) as ->.
    { unfold wrap32. apply Z.mod_small. lia. }
    change 256 with (2 ^ 8) at 1. rewrite <- Z.shiftl_mul_pow2 by lia.
    rewrite lor_shiftl by (try lia; apply b2z_range). change (2 ^ 8) with 256. lia.
Qed.

(** One symbol: the target falls in its interval, and the decoder stays in step. *)
Lemma decode_follows e d w cum freq total :
  encoder_ok e (range e) -> TOP <= range e <= u32_max ->
  0 <= cum -> 1 <= freq -> cum + freq <= total -> total <= MAX_TOTAL ->
  follows e d w -> contains (encode e cum freq total) w ->
  cum <= (target d total).1 < cum + freq /\
  follows (encode e cum freq total) (decoder_update (target d total).2 cum freq) w /\
  contains e w.
Proof.
  intros He Hr Hc Hf Hcf Ht Hd Hcon.
  destruct (encoder_ok_narrow e cum freq total He Hr Hc Hf Hcf Ht)
    as (N1 & N2 & N3 & N4 & N5 & N6 & N7).
  set (r := range e / total) in *. rewrite <- N2 in N1, N6.
  assert (TOP <= range (narrow e cum freq total) * 256 ^ Z.of_nat LOOP_FUEL) as Hfuel.
  { change (256 ^ Z.of_nat LOOP_FUEL) with 4294967296. change TOP with 16777216. lia. }
  destruct (renormalise_spec LOOP_FUEL (narrow e cum freq total) N1 N6 Hfuel)
    as (_ & _ & k & Hk & G1 & G2 & G3).
  fold (encode e cum freq total) in G1, G2, G3.
  assert (pos (narrow e cum freq total) = pos e) as Hpos.
  { unfold pos, ndigits. by rewrite N4. }
  assert (contains (narrow e cum freq total) w) as Hcn.
  { apply (contains_back _ (encode e cum freq total) k 0 w); try done; try lia;
      unfold pos in *; lia. }
  assert (contains e w) as Hce.
  { apply (contains_back e (narrow e cum freq total) 0 (r * cum) w); try done;
      change (256 ^ 0) with 1; try nia. }
  pose proof (contains_code _ w Hcn (pos_nonneg _)) as Hcode. rewrite Hpos, N2, N3 in Hcode.
  destruct Hd as [Hin Hpo Hra Hco]. unfold target. rewrite Hra. fold r. cbn [fst snd].
  assert (r * cum <= code d < r * (cum + freq)) as Hrange by lia.
  assert (cum <= code d / r < cum + freq) as Hq.
  { split; [apply Z.div_le_lower_bound|apply Z.div_lt_upper_bound]; lia. }
  split_and!; [lia|lia| |done].
  apply drenormalise_follows; try done. cbn [code drange input position].
  unfold u32_max in *. rewrite N2 in N6.
  assert (0 <= cum * r < 4294967296) by nia.
  split; cbn [input position drange code]; [done|congruence| |].
  - rewrite N2. unfold wrap32. apply Z.mod_small. lia.
  - rewrite Hpos, N3. unfold wrap32. rewrite (Z.mod_small (cum * r)) by lia.
    rewrite Z.mod_small by lia. lia.
Qed.

Lemma range_of_ok m s :
  model_ok m -> (s < length (counts m))%nat ->
  let '(cum, freq) := range_of m s in
  0 <= cum /\ 1 <= freq /\ cum + freq <= total m /\ total m <= MAX_TOTAL /\
  counts m !! s = Some freq /\ cum = sum (take s (counts m)).
Proof.
  intros Hm Hs. unfold range_of. apply lookup_lt_is_Some in Hs as [c Hc]. rewrite Hc. simpl.
  pose proof (mo_counts _ Hm) as Hall. pose proof (mo_max _ Hm).
  pose proof (sum_nonneg _ (Forall_take _ s _ Hall)).
  pose proof (sum_nonneg _ (Forall_drop _ (S s) _ Hall)).
  rewrite (mo_total _ Hm) in *. pose proof (sum_split _ _ _ Hc).
  rewrite Forall_lookup in Hall. specialize (Hall s c Hc). split_and!; try done; lia.
Qed.

(** Every symbol names a model and a symbol of its alphabet. *)
Definition stream_ok (ms : list Model) (syms : list (nat * nat)) : Prop :=
  Forall (fun p => exists m, ms !! p.1 = Some m /\ p.2 < length (counts m))%nat syms.

Lemma stream_ok_update ms syms i m m' :
  ms !! i = Some m -> length (counts m') = length (counts m) ->
  stream_ok ms syms -> stream_ok (<[i := m']> ms) syms.
Proof.
  intros Hi Hl Hs. eapply Forall_impl; [exact Hs|]. intros [j s] (k & Hk & Hlt). simpl in *.
  destruct (decide (i = j)) as [->|].
  - exists m'. rewrite list_lookup_insert_eq by (by eapply lookup_lt_Some).
    split; [done|]. simplify_eq. lia.
  - exists k. by rewrite list_lookup_insert_ne.
Qed.

Lemma encode_all_ok ms syms e :
  Forall model_ok ms -> stream_ok ms syms -> encoder_ok e (range e) ->
  TOP <= range e <= u32_max ->
  encoder_ok (encode_all e ms syms) (range (encode_all e ms syms)) /\
  1 <= range (encode_all e ms syms).
Proof.
  revert ms e. induction syms as [|[i s] syms IH]; intros ms e Hms Hs He Hr.
  { simpl. change TOP with 16777216 in Hr. split; [done|lia]. }
  apply Forall_cons in Hs as [(m & Hi & Hlt) Hs]. simpl in Hi, Hlt.
  assert (model_ok m) as Hm by (rewrite Forall_lookup in Hms; by eapply Hms).
  cbn [encode_all]. rewrite Hi. unfold encode_symbol.
  pose proof (range_of_ok m s Hm Hlt) as Hro. destruct (range_of m s) as [cum freq].
  destruct Hro as (H1 & H2 & H3 & H4 & _ & _).
  destruct (encode_ok e cum freq (total m) He Hr H1 H2 H3 H4) as [He' Hr'].
  destruct (model_update_ok m s Hm Hlt) as [Hm' Hl'].
  apply IH; [by apply Forall_insert|by eapply stream_ok_update|done|done].
Qed.

Lemma decode_all_follows ms syms e d :
  Forall model_ok ms -> stream_ok ms syms -> encoder_ok e (range e) ->
  TOP <= range e <= u32_max ->
  let w := finish (encode_all e ms syms) in
  follows e d w -> decode_all d ms (syms.*1) = syms.*2 /\ contains e w.
Proof.
  revert ms e d. induction syms as [|[i s] syms IH]; intros ms e d Hms Hs He Hr; cbv zeta.
  - simpl. intros _. split; [done|]. change TOP with 16777216 in Hr.
    assert (encoder_ok e 1) as He1.
    { destruct He as [[? ? ? ? ?] ?]. split; [split|]; lia. }
    destruct (finish_spec e He1) as [Hv Hl]. unfold contains, pos. rewrite Hl, Hv, Z.sub_diag.
    change (256 ^ 0) with 1. lia.
  - apply Forall_cons in Hs as [(m & Hi & Hlt) Hs]. simpl in Hi, Hlt.
    assert (model_ok m) as Hm by (rewrite Forall_lookup in Hms; by eapply Hms).
    cbn [encode_all fmap list_fmap decode_all fst snd]. rewrite Hi.
    unfold encode_symbol, decode_symbol.
    pose proof (range_of_ok m s Hm Hlt) as Hro. destruct (range_of m s) as [cum freq] eqn:Ero.
    destruct Hro as (H1 & H2 & H3 & H4 & H5 & H6).
    destruct (encode_ok e cum freq (total m) He Hr H1 H2 H3 H4) as [He' Hr'].
    destruct (model_update_ok m s Hm Hlt) as [Hm' Hl'].
    set (ms' := <[i := model_update m s]> ms).
    assert (Forall model_ok ms') as Hms' by (by apply Forall_insert).
    assert (stream_ok ms' syms) as Hs' by (by eapply stream_ok_update).
    intros Hd. set (w := finish (encode_all (encode e cum freq (total m)) ms' syms)) in *.
    (* the rest of the stream stays inside this symbol's interval *)
    assert (contains (encode e cum freq (total m)) w) as Hcon.
    { set (e' := encode e cum freq (total m)) in *.
      destruct (IH ms' e' (mkDecoder (prefix w (pos e') - num e') (range e') w (pos e'))
        Hms' Hs' He' Hr') as [_ Hc]; [by split|exact Hc]. }
    destruct (decode_follows e d w cum freq (total m) He Hr H1 H2 H3 H4 Hd Hcon)
      as (Ht & Hfol & Hce).
    destruct (target d (total m)) as [t d'] eqn:Et. cbn [fst snd] in Ht, Hfol.
    rewrite (symbol_at_range m s freq t Hm H5) by lia. rewrite <- H6.
    destruct (IH ms' (encode e cum freq (total m)) (decoder_update d' cum freq) Hms' Hs' He' Hr')
      as [IHd _]; [exact Hfol|].
    split; [|done]. f_equal. exact IHd.
Qed.

Lemma encoder_new_ok :
  encoder_ok encoder_new (range encoder_new) /\ TOP <= range encoder_new <= u32_max.
Proof.
  split; [|vm_compute; split; congruence].
  split; [split|]; vm_compute; congruence.
Qed.

Lemma pull_prefix w c r n :
  c = prefix w n -> 0 <= n <= 3 -> n < zlen w ->
  pull (mkDecoder c r w n) = mkDecoder (prefix w (n + 1)) r w (n + 1).
Proof.
  intros -> Hn Hw. unfold pull, next_byte. cbn [code drange input position]. f_equal.
  rewrite prefix_next by lia.
  assert (0 <= prefix w n < 16777216) as Hp.
  { unfold prefix. pose proof (be_value_range (take (Z.to_nat n) w)) as Hr.
    rewrite length_take in Hr. split; [lia|]. eapply Z.lt_le_trans; [apply Hr|].
    change 16777216 with (256 ^ 3). apply Z.pow_le_mono_r; lia. }
  rewrite Z.shiftl_mul_pow2 by lia. change (2 ^ 8) with 256.
  assert (wrap32 (prefix w n * 256) = prefix w n * 256) as ->
    by (unfold wrap32; apply Z.mod_small; lia).
  change 256 with (2 ^ 8) at 1. rewrite <- Z.shiftl_mul_pow2 by lia.
  rewrite lor_shiftl by (try lia; apply b2z_range). done.
Qed.

Lemma decoder_new_follows w : 4 <= zlen w -> follows encoder_new (decoder_new w) w.
Proof.
  intros Hw. unfold decoder_new. cbn [Nat.iter nat_rect].
  rewrite (pull_prefix w 0 _ 0) by (done || lia). change (0 + 1) with 1.
  rewrite (pull_prefix w _ _ 1) by (done || lia). change (1 + 1) with 2.
  rewrite (pull_prefix w _ _ 2) by (done || lia). change (2 + 1) with 3.
  rewrite (pull_prefix w _ _ 3) by (done || lia). change (3 + 1) with 4.
  split; cbn [input position drange code]; [done|done|done|].
  change (pos encoder_new) with 4. change (num encoder_new) with 0. lia.
Qed.

(** ** The decoder on anything at all *)

Lemma drenormalise_range f d :
  1 <= drange d <= u32_max -> TOP <= drange d * 256 ^ Z.of_nat f -> 0 <= code d ->
  TOP <= drange (drenormalise f d) <= u32_max /\ 0 <= code (drenormalise f d).
Proof.
  revert d. induction f as [|f IH]; intros d Hr Hf Hc; cbn [drenormalise].
  - change (256 ^ Z.of_nat 0) with 1 in Hf. lia.
  - destruct (Z.ltb_spec (drange d) TOP) as [Hlt|Hge]; [|lia]. change TOP with 16777216 in Hlt.
    assert (wrap32 (Z.shiftl (drange d) 8) = 256 * drange d) as Hw.
    { rewrite Z.shiftl_mul_pow2 by lia. change (2 ^ 8) with 256.
      unfold wrap32. rewrite Z.mod_small; lia. }
    rewrite Nat2Z.inj_succ, Z.pow_succ_r in Hf by lia.
    apply IH; cbn [drange code pull]; rewrite ?Hw; unfold u32_max in *; [lia|lia|].
    apply Z.lor_nonneg. split; [|apply b2z_range].
    unfold wrap32. apply Z.mod_pos_bound. lia.
Qed.

(** A step from any decoder state: a symbol of the alphabet, no division by zero and
    no subtraction below zero. *)
Lemma decode_symbol_safe d m :
  model_ok m -> TOP <= drange d <= u32_max -> 0 <= code d ->
  let '(s, d', m') := decode_symbol d m in
  (s < length (counts m))%nat /\ TOP <= drange d' <= u32_max /\ 0 <= code d' /\
  1 <= drange d / total m /\
  (symbol_at m (target d (total m)).1).1.2 * (drange d / total m) <= code d /\
  model_ok m' /\ length (counts m') = length (counts m).
Proof.
  intros Hm Hr Hc. unfold decode_symbol, target. cbn [fst].
  pose proof (mo_max _ Hm) as Hmax. pose proof (mo_len _ Hm) as Hlen.
  assert (1 <= total m) as Ht1.
  { rewrite (mo_total _ Hm). pose proof (mo_counts _ Hm) as Hall.
    destruct (counts m) as [|c l]; [simpl in Hlen; lia|]. apply Forall_cons in Hall as [Hc0 Hl].
    apply sum_nonneg in Hl. unfold sum in *. simpl. lia. }
  unfold MAX_TOTAL, u32_max in *. change TOP with 16777216 in *.
  set (r := drange d / total m).
  assert (1 <= r) as Hr1 by (apply Z.div_le_lower_bound; lia).
  assert (r * total m <= drange d) as Hrt by (rewrite Z.mul_comm; apply Z.mul_div_le; lia).
  assert (0 <= code d / r) as Hq by (apply Z.div_pos; lia).
  assert (0 <= Z.min (code d / r) (total m - 1) < total m) as Ht by lia.
  destruct (symbol_at_total m _ Hm Ht) as (s & c & Hs & -> & Hle). cbn [fst snd].
  assert (s < length (counts m))%nat as Hlt by (by eapply lookup_lt_Some).
  pose proof (range_of_ok m s Hm Hlt) as Hro. unfold range_of in Hro. rewrite Hs in Hro.
  simpl in Hro. destruct Hro as (H1 & H2 & H3 & _ & _ & _).
  destruct (model_update_ok m s Hm Hlt) as [Hm' Hl'].
  assert (sum (take s (counts m)) * r <= code d) as Hsub.
  { transitivity (code d / r * r); [nia|]. rewrite Z.mul_comm. apply Z.mul_div_le. lia. }
  assert (1 <= r * c <= 4294967295) as Hrc by nia.
  assert (wrap32 (r * c) = r * c) as Hw by (unfold wrap32; apply Z.mod_small; lia).
  destruct (drenormalise_range LOOP_FUEL
    (mkDecoder (wrap32 (code d - wrap32 (sum (take s (counts m)) * r))) (wrap32 (r * c))
       (input d) (position d))) as [G1 G2]; cbn [drange code]; rewrite ?Hw.
  - unfold u32_max. lia.
  - change (256 ^ Z.of_nat LOOP_FUEL) with 4294967296. change TOP with 16777216. lia.
  - unfold wrap32. apply Z.mod_pos_bound. lia.
  - unfold decoder_update. cbn [code drange input position] in *. rewrite Hw in *.
    unfold u32_max in G1. change TOP with 16777216 in G1. split_and!; done || lia.
Qed.

(** ** Properties *)

(** C24: what the range coder writes, it reads.  Any stream of symbols, each coded
    against one of any number of adaptive models, is decoded symbol for symbol by a
    decoder that starts from the same models and is told only which model each
    symbol uses; carries, renormalisation and the halving of counts included. *)
Theorem range_coder_roundtrip ms syms :
  Forall model_ok ms -> stream_ok ms syms ->
  decode_all (decoder_new (finish (encode_all encoder_new ms syms))) ms (syms.*1) = syms.*2.
Proof.
  intros Hms Hs. destruct encoder_new_ok as [He Hr].
  set (w := finish (encode_all encoder_new ms syms)).
  assert (4 <= zlen w) as Hw.
  { destruct (encode_all_ok ms syms _ Hms Hs He Hr) as [[[? ? ? ? ?] ?] H1].
    destruct (finish_spec (encode_all encoder_new ms syms)) as [_ Hl].
    - split; [split|]; lia.
    - unfold w. pose proof (ndigits_pos (encode_all encoder_new ms syms)). lia. }
  by apply (decode_all_follows ms syms encoder_new (decoder_new w) Hms Hs He Hr),
    decoder_new_follows.
Qed.

(** A corrupted frame decodes to something.  Whatever bytes the decoder is given,
    however few, every symbol it gives is one of its model's alphabet, and there are
    as many as were asked for. *)
Theorem decoding_never_fails ms which input :
  Forall model_ok ms -> Forall (fun i => i < length ms)%nat which ->
  Forall2 (fun i s => exists m, ms !! i = Some m /\ s < length (counts m))%nat
    which (decode_all (decoder_new input) ms which).
Proof.
  intros Hms Hw.
  assert (TOP <= drange (decoder_new input) <= u32_max /\ 0 <= code (decoder_new input)) as [Hr Hc].
  { unfold decoder_new. cbn [Nat.iter nat_rect pull drange code]. split.
    - vm_compute. split; congruence.
    - apply Z.lor_nonneg. split; [|apply b2z_range]. unfold wrap32. apply Z.mod_pos_bound. lia. }
  revert ms Hms Hw Hr Hc. generalize (decoder_new input) as d.
  induction which as [|i which IH]; intros d ms Hms Hw Hr Hc; [constructor|].
  apply Forall_cons in Hw as [Hi Hw]. apply lookup_lt_is_Some in Hi as [m Hi].
  assert (model_ok m) as Hm by (rewrite Forall_lookup in Hms; by eapply Hms).
  cbn [decode_all]. rewrite Hi. pose proof (decode_symbol_safe d m Hm Hr Hc) as Hsafe.
  destruct (decode_symbol d m) as [[s d'] m'].
  destruct Hsafe as (H1 & H2 & H3 & _ & _ & H4 & H5). constructor; [eauto|].
  eapply Forall2_impl; [apply (IH d' (<[i := m']> ms)); try done|].
  - by apply Forall_insert.
  - eapply Forall_impl; [exact Hw|]. simpl. intros j. by rewrite length_insert.
  - intros j t (k & Hk & Hlt). destruct (decide (i = j)) as [->|].
    + rewrite list_lookup_insert_eq in Hk by (by eapply lookup_lt_Some). simplify_eq.
      exists m. split; [done|lia].
    + rewrite list_lookup_insert_ne in Hk by done. eauto.
Qed.

Definition two_models : list Model := [model_new 3; model_new 256].

Lemma two_models_ok : Forall model_ok two_models.
Proof.
  apply Forall_cons. split; [apply model_new_ok; lia|].
  apply Forall_singleton, model_new_ok. lia.
Qed.

Definition a_stream : list (nat * nat) :=
  [(0, 2); (1, 255); (1, 255); (0, 0); (1, 7); (1, 255)]%nat.

Lemma range_coder_roundtrip_witness :
  decode_all (decoder_new (finish (encode_all encoder_new two_models a_stream))) two_models
    [0; 1; 1; 0; 1; 1]%nat = [2; 255; 255; 0; 7; 255]%nat.
Proof.
  apply (range_coder_roundtrip two_models a_stream two_models_ok).
  repeat (constructor; [eexists; split; [reflexivity|simpl; lia]|]). constructor.
Defined.

Lemma decoding_never_fails_witness :
  Forall2 (fun i s => exists m, two_models !! i = Some m /\ s < length (counts m))%nat
    [0; 1; 0]%nat (decode_all (decoder_new [xff; xff]) two_models [0; 1; 0]%nat).
Proof.
  apply (decoding_never_fails two_models [0; 1; 0]%nat [xff; xff] two_models_ok).
  repeat constructor.
Defined.
