(* ===== verification/BitPacker.v ===== *)
(** * Packing bits into a frame

    [crates/rotelyx-codec/src/rangecoder.rs]: fixed-width fields, most significant
    bit first, and a reader that gives zeroes past the end. *)

From S2P Require Import Prelude.

Record Encoder := mkEncoder {
  enc_bytes : bytes;
  partial : Z;
  partial_bits : Z;
}.

Definition encoder_new : Encoder := mkEncoder [] 0 0.

(** One turn of the loop in [write_bits]. *)
Definition write_bit (e : Encoder) (bit : Z) : Encoder :=
  let partial := Z.lor ((Z.shiftl (partial e) 1) mod 256) bit in
  let partial_bits := partial_bits e + 1 in
  if partial_bits =? 8 then mkEncoder (enc_bytes e ++ [z2b partial]) 0 0
  else mkEncoder (enc_bytes e) partial partial_bits.

Definition write_bits (e : Encoder) (value : Z) (count : nat) : Encoder :=
  foldl (fun e i => write_bit e (Z.land (Z.shiftr value i) 1)) e
    (reverse (Z.of_nat <$> seq 0 count)).

Definition fold_signed (value : Z) : Z :=
  if 0 <=? value then value * 2 else (- value) * 2 - 1.

Definition write_signed (e : Encoder) (value : Z) (count : nat) : Encoder :=
  write_bits e (Z.min (fold_signed value) (Z.shiftl 1 (Z.of_nat count) - 1)) count.

Definition len_bits (e : Encoder) : Z := zlen (enc_bytes e) * 8 + partial_bits e.

Definition finish (e : Encoder) : bytes :=
  if 0 <? partial_bits e
  then enc_bytes e ++ [z2b (Z.shiftl (partial e) (8 - partial_bits e))]
  else enc_bytes e.

Record Decoder := mkDecoder { dec_bytes : bytes; position : Z }.

Definition decoder_new (l : bytes) : Decoder := mkDecoder l 0.

Definition bit_at (l : bytes) (p : Z) : Z :=
  match l !! Z.to_nat (p / 8) with
  | Some b => Z.land (Z.shiftr (b2z b) (7 - p mod 8)) 1
  | None => 0
  end.

Fixpoint read_loop (count : nat) (value : Z) (d : Decoder) : Z * Decoder :=
  match count with
  | O => (value, d)
  | S count =>
      read_loop count (Z.lor (wrap32 (Z.shiftl value 1)) (bit_at (dec_bytes d) (position d)))
        (mkDecoder (dec_bytes d) (position d + 1))
  end.

Definition read_bits (d : Decoder) (count : nat) : Z * Decoder := read_loop count 0 d.

(** [as i16]. *)
Definition as_i16 (z : Z) : Z :=
  let w := z mod 65536 in if w <? 32768 then w else w - 65536.

Definition read_signed (d : Decoder) (count : nat) : Z * Decoder :=
  let '(folded, d) := read_bits d count in
  (if folded mod 2 =? 0 then as_i16 (folded / 2)
   else as_i16 (- as_i16 ((folded + 1) / 2)), d).

(** ** Fields *)

Inductive field :=
| Bits (value : Z) (count : nat)
| Signed (value : Z) (count : nat).

Definition write_field (e : Encoder) (f : field) : Encoder :=
  match f with
  | Bits v n => write_bits e v n
  | Signed v n => write_signed e v n
  end.

Definition read_field (d : Decoder) (f : field) : Z * Decoder :=
  match f with
  | Bits _ n => read_bits d n
  | Signed _ n => read_signed d n
  end.

(** What a field's width holds. *)
Definition field_ok (f : field) : Prop :=
  match f with
  | Bits v n => (n <= 32)%nat /\ 0 <= v < 2 ^ Z.of_nat n
  | Signed v n => (n <= 31)%nat /\ -32768 <= v <= 32767 /\ fold_signed v < 2 ^ Z.of_nat n
  end.

Definition field_value (f : field) : Z := match f with Bits v _ | Signed v _ => v end.

Fixpoint read_fields (d : Decoder) (fs : list field) : list Z :=
  match fs with
  | [] => []
  | f :: fs => let '(v, d) := read_field d f in v :: read_fields d fs
  end.

(** ** The bits an encoder has taken *)

(** [n] bits of [v], most significant first. *)
Fixpoint to_bits (n : nat) (v : Z) : list bool :=
  match n with
  | O => []
  | S n => to_bits n (v / 2) ++ [Z.odd v]
  end.

Fixpoint of_bits (l : list bool) (acc : Z) : Z :=
  match l with
  | [] => acc
  | b :: l => of_bits l (2 * acc + Z.b2z b)
  end.

Definition byte_bits (l : bytes) : list bool := l ≫= (fun b => to_bits 8 (b2z b)).

Definition bits_of (e : Encoder) : list bool :=
  byte_bits (enc_bytes e) ++ to_bits (Z.to_nat (partial_bits e)) (partial e).

Record enc_ok (e : Encoder) : Prop := {
  eo_bits : 0 <= partial_bits e < 8;
  eo_partial : 0 <= partial e < 2 ^ partial_bits e;
}.

Lemma length_to_bits n v : length (to_bits n v) = n.
Proof.
  revert v. induction n as [|n IH]; intros v; [done|]. simpl. rewrite length_app, IH. simpl. lia.
Qed.

Lemma to_bits_double n v b :
  to_bits (S n) (2 * v + Z.b2z b) = to_bits n v ++ [b].
Proof.
  cbn [to_bits]. f_equal; [f_equal; destruct b; simpl; Z.div_mod_to_equations; lia|].
  f_equal. rewrite Z.add_comm, Z.odd_add_mul_2. by destruct b.
Qed.

Lemma of_bits_app l k acc : of_bits (l ++ k) acc = of_bits k (of_bits l acc).
Proof. revert acc. induction l; intros acc; simpl; auto. Qed.

Lemma of_to_bits n v acc :
  0 <= v < 2 ^ Z.of_nat n -> of_bits (to_bits n v) acc = acc * 2 ^ Z.of_nat n + v.
Proof.
  revert v acc. induction n as [|n IH]; intros v acc Hv.
  - change (2 ^ Z.of_nat 0) with 1 in *. simpl. lia.
  - rewrite Nat2Z.inj_succ, Z.pow_succ_r in * by lia. cbn [to_bits].
    rewrite of_bits_app, IH by (Z.div_mod_to_equations; lia). simpl.
    pose proof (Z.div2_odd v) as Hd. rewrite Z.div2_div in Hd. nia.
Qed.

Lemma write_bit_spec e b :
  enc_ok e -> enc_ok (write_bit e (Z.b2z b)) /\ bits_of (write_bit e (Z.b2z b)) = bits_of e ++ [b].
Proof.
  intros [Hb Hp]. unfold write_bit.
  assert (2 ^ partial_bits e <= 128) as Hpow.
  { change 128 with (2 ^ 7). apply Z.pow_le_mono_r; lia. }
  assert (Z.lor ((Z.shiftl (partial e) 1) mod 256) (Z.b2z b) = 2 * partial e + Z.b2z b) as ->.
  { rewrite Z.shiftl_mul_pow2 by lia. change (2 ^ 1) with 2. rewrite Z.mod_small by lia.
    replace (partial e * 2) with (Z.shiftl (partial e) 1)
      by (rewrite Z.shiftl_mul_pow2 by lia; done).
    rewrite lor_shiftl; [change (2 ^ 1) with 2; lia|lia|]. destruct b; simpl; lia. }
  assert (0 <= Z.b2z b <= 1) as Hb01 by (destruct b; simpl; lia).
  assert (2 ^ (partial_bits e + 1) = 2 * 2 ^ partial_bits e) as Hpow1
    by (rewrite Z.pow_add_r by lia; change (2 ^ 1) with 2; lia).
  unfold bits_of. assert (to_bits (Z.to_nat (partial_bits e + 1)) (2 * partial e + Z.b2z b) =
    to_bits (Z.to_nat (partial_bits e)) (partial e) ++ [b]) as Hbits.
  { replace (Z.to_nat (partial_bits e + 1)) with (S (Z.to_nat (partial_bits e))) by lia.
    apply to_bits_double. }
  destruct (Z.eqb_spec (partial_bits e + 1) 8) as [H8|H8]; simpl.
  - split; [split; simpl; lia|]. rewrite app_nil_r. unfold byte_bits at 1. rewrite bind_app.
    fold (byte_bits (enc_bytes e)). rewrite <- app_assoc. f_equal. rewrite <- Hbits, H8.
    cbn [mbind list_bind]. rewrite app_nil_r.
    assert (2 ^ (partial_bits e + 1) = 256) as H256 by (by rewrite H8).
    rewrite b2z_z2b_small by lia. done.
  - split; [split; simpl; lia|]. by rewrite Hbits, app_assoc.
Qed.

Lemma to_bits_shiftr n v :
  to_bits n v = (fun i => Z.testbit v i) <$> reverse (Z.of_nat <$> seq 0 n).
Proof.
  revert v. induction n as [|n IH]; intros v; [done|].
  cbn [to_bits]. rewrite IH. cbn [seq]. csimpl. rewrite <- fmap_S_seq, <- list_fmap_compose.
  rewrite reverse_cons, fmap_app, !fmap_reverse, <- !list_fmap_compose. f_equal.
  - f_equal. apply list_fmap_ext. intros _ i _. unfold compose.
    rewrite Nat2Z.inj_succ, <- Z.div2_div, Z.div2_spec, Z.shiftr_spec by lia. f_equal; lia.
Qed.

Lemma write_bits_spec e v n :
  enc_ok e -> enc_ok (write_bits e v n) /\ bits_of (write_bits e v n) = bits_of e ++ to_bits n v.
Proof.
  rewrite to_bits_shiftr. unfold write_bits. generalize (reverse (Z.of_nat <$> seq 0 n)) as l.
  intros l. revert e. induction l as [|i l IH]; intros e He; simpl; [by rewrite app_nil_r|].
  assert (Z.land (Z.shiftr v i) 1 = Z.b2z (Z.testbit v i)) as ->.
  { rewrite Z.testbit_odd. change 1 with (Z.ones 1). rewrite Z.land_ones by lia.
    change (2 ^ 1) with 2. rewrite Zmod_odd. by destruct (Z.odd _). }
  destruct (write_bit_spec e (Z.testbit v i) He) as [He' Hb'].
  destruct (IH _ He') as [He'' Hb'']. split; [done|]. by rewrite Hb'', Hb', <- app_assoc.
Qed.

(** ** The bits a decoder sees *)

Lemma to_bits_lookup n v i :
  (i < n)%nat -> to_bits n v !! i = Some (Z.testbit v (Z.of_nat (n - 1 - i))).
Proof.
  revert v i. induction n as [|n IH]; intros v i Hi; [lia|]. cbn [to_bits].
  destruct (decide (i < n)%nat).
  - rewrite lookup_app_l by (by rewrite length_to_bits). rewrite IH by done. f_equal.
    rewrite <- Z.div2_div, Z.div2_spec, Z.shiftr_spec by lia. f_equal. lia.
  - rewrite lookup_app_r by (rewrite length_to_bits; lia). rewrite length_to_bits.
    replace i with n by lia. rewrite Nat.sub_diag. simpl.
    replace (Z.of_nat (n - 0 - n)) with 0 by lia. by rewrite Z.bit0_odd.
Qed.

Lemma byte_bits_lookup l (i : nat) :
  byte_bits l !! i =
  (fun b => Z.testbit (b2z b) (7 - Z.of_nat i mod 8)) <$> l !! Z.to_nat (Z.of_nat i / 8).
Proof.
  revert i. induction l as [|b l IH]; intros i; [by rewrite !lookup_nil|].
  unfold byte_bits. rewrite bind_cons. fold (byte_bits l). destruct (decide (i < 8)%nat).
  - rewrite lookup_app_l by (by rewrite length_to_bits). rewrite to_bits_lookup by done.
    rewrite Z.div_small, Z.mod_small by lia. simpl. do 2 f_equal. lia.
  - rewrite lookup_app_r by (rewrite length_to_bits; lia). rewrite length_to_bits, IH.
    replace (Z.to_nat (Z.of_nat i / 8)) with (S (Z.to_nat (Z.of_nat (i - 8) / 8)))
      by (Z.div_mod_to_equations; lia).
    simpl. destruct (l !! _); [|done]. simpl. do 2 f_equal.
    Z.div_mod_to_equations. lia.
Qed.

Lemma bit_at_bits l p :
  0 <= p -> bit_at l p = Z.b2z (default false (byte_bits l !! Z.to_nat p)).
Proof.
  intros Hp. rewrite byte_bits_lookup, Z2Nat.id by done. unfold bit_at.
  destruct (l !! Z.to_nat (p / 8)) as [b|]; [|done]. simpl.
  change 1 with (Z.ones 1). rewrite Z.land_ones by lia. change (2 ^ 1) with 2.
  rewrite Zmod_odd, Z.testbit_odd. by destruct (Z.odd _).
Qed.

(** Reading what stands at the decoder's position. *)
Lemma read_loop_spec mid pre post acc d :
  byte_bits (dec_bytes d) = pre ++ mid ++ post -> position d = zlen pre ->
  0 <= acc -> (acc + 1) * 2 ^ zlen mid <= 4294967296 ->
  read_loop (length mid) acc d =
  (of_bits mid acc, mkDecoder (dec_bytes d) (position d + zlen mid)).
Proof.
  revert pre acc d. induction mid as [|b mid IH]; intros pre acc [l p] Hl Hp Ha Hmax; simpl in *.
  - change (zlen []) with 0. by rewrite Z.add_0_r.
  - rewrite zlen_cons in *. pose proof (zlen_nonneg mid). rewrite Z.pow_add_r in Hmax by lia.
    change (2 ^ 1) with 2 in Hmax.
    assert (1 <= 2 ^ zlen mid) by (pose proof (Z.pow_pos_nonneg 2 (zlen mid)); lia).
    assert (bit_at l p = Z.b2z b) as ->.
    { pose proof (zlen_nonneg pre). rewrite bit_at_bits, Hl, Hp by lia.
      rewrite lookup_app_r by (unfold zlen; lia).
      replace (Z.to_nat (zlen pre) - length pre)%nat with 0%nat by (unfold zlen; lia). done. }
    assert (wrap32 (Z.shiftl acc 1) = Z.shiftl acc 1) as ->.
    { rewrite Z.shiftl_mul_pow2 by lia. change (2 ^ 1) with 2. unfold wrap32.
      apply Z.mod_small. nia. }
    rewrite lor_shiftl by (destruct b; simpl; lia). change (2 ^ 1) with 2.
    replace (acc * 2 + Z.b2z b) with (2 * acc + Z.b2z b) by lia.
    assert (0 <= Z.b2z b <= 1) by (destruct b; simpl; lia).
    rewrite (IH (pre ++ [b])); cbn [dec_bytes position].
    + do 2 f_equal. lia.
    + by rewrite Hl, <- app_assoc.
    + rewrite zlen_app, zlen_cons, zlen_nil. lia.
    + lia.
    + nia.
Qed.

Lemma to_bits_shiftl n k v :
  to_bits (n + k) (v * 2 ^ Z.of_nat k) = to_bits n v ++ replicate k false.
Proof.
  induction k as [|k IH].
  - rewrite Nat.add_0_r, Z.mul_1_r. simpl. by rewrite app_nil_r.
  - rewrite Nat.add_succ_r, replicate_S_end, app_assoc, <- IH.
    rewrite Nat2Z.inj_succ, Z.pow_succ_r by lia.
    replace (v * (2 * 2 ^ Z.of_nat k)) with (2 * (v * 2 ^ Z.of_nat k) + Z.b2z false)
      by (simpl; lia).
    apply to_bits_double.
Qed.

Lemma finish_bits e :
  enc_ok e -> exists k, (k < 8)%nat /\ byte_bits (finish e) = bits_of e ++ replicate k false.
Proof.
  intros [Hb Hp]. unfold finish. destruct (Z.ltb_spec 0 (partial_bits e)).
  - exists (Z.to_nat (8 - partial_bits e)). split; [lia|].
    unfold byte_bits at 1. rewrite bind_app. fold (byte_bits (enc_bytes e)).
    unfold bits_of. rewrite <- app_assoc. f_equal. cbn [mbind list_bind]. rewrite app_nil_r.
    rewrite Z.shiftl_mul_pow2 by lia.
    assert (2 ^ partial_bits e * 2 ^ (8 - partial_bits e) = 256) as H256.
    { rewrite <- Z.pow_add_r by lia. by replace (_ + _) with 8 by lia. }
    assert (0 < 2 ^ (8 - partial_bits e)) by (apply Z.pow_pos_nonneg; lia).
    rewrite b2z_z2b_small by nia. rewrite <- to_bits_shiftl, Z2Nat.id by lia.
    f_equal. lia.
  - exists 0%nat. split; [lia|]. unfold bits_of.
    replace (partial_bits e) with 0 by lia. simpl. by rewrite !app_nil_r.
Qed.

(** ** Fields *)

Definition field_bits (f : field) : list bool :=
  match f with
  | Bits v n => to_bits n v
  | Signed v n => to_bits n (fold_signed v)
  end.

Lemma fold_signed_nonneg v : 0 <= fold_signed v.
Proof. unfold fold_signed. case_cmp; lia. Qed.

Lemma write_field_spec e f :
  enc_ok e -> field_ok f ->
  enc_ok (write_field e f) /\ bits_of (write_field e f) = bits_of e ++ field_bits f.
Proof.
  intros He Hf. destruct f as [v n|v n]; simpl; [by apply write_bits_spec|].
  unfold write_signed. destruct Hf as (Hn & Hv & Hlt).
  assert (Z.min (fold_signed v) (Z.shiftl 1 (Z.of_nat n) - 1) = fold_signed v) as ->.
  { rewrite Z.shiftl_1_l. lia. }
  by apply write_bits_spec.
Qed.

Lemma unfold_signed v :
  -32768 <= v <= 32767 ->
  (if fold_signed v mod 2 =? 0 then as_i16 (fold_signed v / 2)
   else as_i16 (- as_i16 ((fold_signed v + 1) / 2))) = v.
Proof.
  intros Hv. unfold fold_signed. destruct (Z.leb_spec 0 v).
  - rewrite Z.mod_mul, Z.div_mul by lia. simpl. unfold as_i16.
    rewrite Z.mod_small by lia. case_cmp; lia.
  - replace ((- v * 2 - 1) mod 2) with 1 by (Z.div_mod_to_equations; lia). simpl.
    replace ((- v * 2 - 1 + 1) / 2) with (- v) by (Z.div_mod_to_equations; lia).
    unfold as_i16. rewrite (Z.mod_small (- v)) by lia.
    destruct (Z.ltb_spec (- v) 32768).
    + rewrite Z.opp_involutive. rewrite <- (Z.mod_unique v 65536 (-1) (v + 65536)) by lia.
      case_cmp; lia.
    + assert (v = -32768) as -> by lia. done.
Qed.

Lemma read_field_spec f pre post l p :
  field_ok f -> byte_bits l = pre ++ field_bits f ++ post -> p = zlen pre ->
  read_field (mkDecoder l p) f = (field_value f, mkDecoder l (p + zlen (field_bits f))).
Proof.
  intros Hf Hl Hp.
  assert (forall v n, field_bits f = to_bits n v -> (n <= 32)%nat -> 0 <= v < 2 ^ Z.of_nat n ->
    read_bits (mkDecoder l p) n = (v, mkDecoder l (p + zlen (field_bits f)))) as Hread.
  { intros v n Hb Hn Hv. rewrite Hb in *. unfold read_bits.
    pose proof (read_loop_spec (to_bits n v) pre post 0 (mkDecoder l p) Hl Hp) as Hr.
    rewrite length_to_bits, of_to_bits in Hr by done. apply Hr; [lia|].
    unfold zlen. rewrite length_to_bits. change 4294967296 with (2 ^ 32).
    rewrite Z.mul_1_l. apply Z.pow_le_mono_r; lia. }
  destruct f as [v n|v n]; simpl in *.
  - destruct Hf. by apply Hread.
  - destruct Hf as (Hn & Hv & Hlt). pose proof (fold_signed_nonneg v).
    unfold read_signed. rewrite (Hread (fold_signed v) n) by (done || lia).
    f_equal. by apply unfold_signed.
Qed.

Lemma write_fields_spec fs e :
  Forall field_ok fs -> enc_ok e ->
  enc_ok (foldl write_field e fs) /\
  bits_of (foldl write_field e fs) = bits_of e ++ (fs ≫= field_bits).
Proof.
  intros Hfs. revert e. induction Hfs as [|f fs Hf _ IH]; intros e He; simpl;
    [by rewrite app_nil_r|].
  destruct (write_field_spec e f He Hf) as [He' Hb'].
  destruct (IH _ He') as [He'' Hb'']. split; [done|]. by rewrite Hb'', Hb', <- app_assoc.
Qed.

(** The bits of a finished frame, whatever follows it. *)
Lemma finished_bits fs tail :
  Forall field_ok fs ->
  exists post, byte_bits (finish (foldl write_field encoder_new fs) ++ tail) =
    [] ++ (fs ≫= field_bits) ++ post.
Proof.
  intros Hfs. destruct (write_fields_spec fs encoder_new Hfs) as [Hok Hbits]; [by split|].
  destruct (finish_bits _ Hok) as (k & _ & Hfin).
  unfold byte_bits at 1. rewrite bind_app. fold (byte_bits (finish (foldl write_field encoder_new fs))).
  rewrite Hfin, Hbits. change (bits_of encoder_new) with (@nil bool). rewrite <- app_assoc.
  eexists. done.
Qed.

(** ** Properties *)

(** Fields come back.  Any sequence of fields, unsigned of up to 32 bits and
    signed of up to 31, each within its width, reads back value for value from the
    finished bytes, whatever follows them; and the frame is as many bytes as the
    bits need. *)
Theorem fields_roundtrip fs tail :
  Forall field_ok fs ->
  let e := foldl write_field encoder_new fs in
  read_fields (decoder_new (finish e ++ tail)) fs = field_value <$> fs /\
  8 * (zlen (finish e) - 1) < len_bits e <= 8 * zlen (finish e).
Proof.
  intros Hfs. cbv zeta.
  destruct (write_fields_spec fs encoder_new Hfs) as [Hok Hbits]; [by split|].
  destruct (finished_bits fs tail Hfs) as [post Hb].
  set (e := foldl write_field encoder_new fs) in *. split.
  - clear Hbits Hok.
    unfold decoder_new. revert Hb. generalize (finish e ++ tail) as l. intros l.
    change 0 with (zlen (@nil bool)). generalize (@nil bool) as pre. clear -Hfs.
    induction Hfs as [|f fs Hf _ IH]; intros pre Hb; simpl; [done|].
    simpl in Hb. rewrite <- app_assoc in Hb.
    rewrite (read_field_spec f pre _ l (zlen pre) Hf Hb eq_refl). f_equal.
    rewrite <- zlen_app. apply IH. by rewrite <- app_assoc.
  - destruct Hok as [Hp _]. unfold finish, len_bits.
    destruct (Z.ltb_spec 0 (partial_bits e)); [rewrite zlen_app, zlen_cons, zlen_nil|]; lia.
Qed.

Lemma fields_roundtrip_witness :
  read_fields (decoder_new (finish (foldl write_field encoder_new
    [Bits 5 3; Signed (-7) 6; Bits 4294967295 32; Signed 2 9]) ++ [xff]))
    [Bits 5 3; Signed (-7) 6; Bits 4294967295 32; Signed 2 9] = [5; -7; 4294967295; 2].
Proof.
  refine (proj1 (fields_roundtrip [Bits 5 3; Signed (-7) 6; Bits 4294967295 32; Signed 2 9]
    [xff] _)).
  repeat (constructor; [unfold field_ok, fold_signed; simpl; lia|]). constructor.
Defined.
