(* ===== verification/Pvq.v ===== *)
(** * Pyramid vector quantisation: a codebook that is computed

    [crates/rotelyx-codec/src/pvq.rs], the stage planner of
    [crates/rotelyx-codec/src/rvq.rs] and the reading and writing of a stage in
    [crates/rotelyx-codec/src/layered.rs].  Counts are the saturating [u64] table
    of the code; positions are [nat].  The search over floating-point shapes and
    the gains are not modelled: a stage is its codeword, its gain level and its
    sign. *)

From S2P Require Import Prelude Float BitPacker.
From Stdlib Require Import SpecFloat.

Definition MAX_N : nat := 256.
Definition MAX_K : nat := 32.
Definition MAX_INDEX_BITS : Z := 62.

(** ** The table of counts *)

(** The inner loop of [build_table]: [prev] is the row above from [k - 1] on,
    [left] the entry just written. *)
Fixpoint fill_row (prev : list Z) (left : Z) : list Z :=
  match prev with
  | diagonal :: ((above :: _) as rest) =>
      let x := sat_add64 (sat_add64 above left) diagonal in
      x :: fill_row rest x
  | _ => []
  end.

Definition next_row (prev : list Z) : list Z := 1 :: fill_row prev 1.

Fixpoint rows_from (n : nat) (row : list Z) : list (list Z) :=
  match n with
  | O => [row]
  | S n => row :: rows_from n (next_row row)
  end.

Definition build_table : list (list Z) := rows_from MAX_N (1 :: replicate MAX_K 0).

Definition count (n k : nat) : Z :=
  match build_table !! n with
  | Some row => default 0 (row !! k)
  | None => 0
  end.

(** ** Rates *)

(** [f32]: 24 bits of precision. *)
Abbreviation f32 := spec_float.

Definition f32_of_Z (z : Z) : f32 := binary_normalize 24 128 z 0 false.

Definition is_finite (f : f32) : bool :=
  match f with
  | S754_zero _ | S754_finite _ _ _ => true
  | _ => false
  end.

(** [.ceil() as usize]. *)
Definition ceil_usize (f : f32) : Z :=
  match f with
  | S754_zero _ | S754_nan => 0
  | S754_infinity s => if s then 0 else u64_max
  | S754_finite s m e =>
      let v := if s then Z.neg m else Z.pos m in
      Z.max 0 (Z.min u64_max (if 0 <=? e then v * 2 ^ e else - ((- v) / 2 ^ (- e))))
  end.

(** [f32::log2], whose last bit the standard library leaves to the platform. *)
Class Log2 := log2 : f32 -> f32.

(** Clear of the point just above a power of two, where one unit in the last
    place decides which side of an integer the logarithm falls. *)
Definition clear_of_power (m : positive) : bool :=
  (Z.pos m =? 2 ^ Z.log2_up (Z.pos m))
  || (65537 * 2 ^ (Z.log2_up (Z.pos m) - 1) <=? 65536 * Z.pos m).

(** An accuracy of one unit in the last place: away from that point the
    logarithm of [m * 2 ^ e] is finite and rounds up to the exact one. *)
Class Log2Laws `(L : Log2) : Prop := {
  log2_finite : forall m e, is_finite (log2 (S754_finite false m e)) = true;
  log2_ceil : forall m e,
    clear_of_power m = true -> 0 <= e + Z.log2_up (Z.pos m) <= MAX_INDEX_BITS ->
    ceil_usize (log2 (S754_finite false m e)) = e + Z.log2_up (Z.pos m);
}.

Section Rates.
Context `{L : Log2}.

Definition bits (n k : nat) : f32 :=
  let c := count n k in
  if c <=? 1 then S754_zero false
  else if Z.shiftl 1 MAX_INDEX_BITS <=? c then S754_infinity false
  else log2 (f32_of_Z c).

(** [for k in 1..=MAX_K], with its two breaks. *)
Fixpoint pulses_loop (n : nat) (budget : Z) (ks : list nat) (best : nat) : nat :=
  match ks with
  | [] => best
  | k :: ks =>
      if count n k =? 0 then best
      else
        let cost := bits n k in
        if is_finite cost && SFleb cost (f32_of_Z budget) then pulses_loop n budget ks k
        else best
  end.

Definition pulses_for (n : nat) (budget : Z) : nat :=
  match n with
  | O => 0%nat
  | _ => pulses_loop n budget (seq 1 MAX_K) 0
  end.

(** ** Stages *)

Definition MAX_STAGES : nat := 4.
Definition GAIN_BITS : nat := 4.

Record Stage := mkStage {
  pulses : nat;
  st_index : Z;
  gain : Z;
  negative : bool;
}.

(** [Stage::bits], and the cost the planner charges. *)
Definition stage_bits (n k : nat) : Z :=
  wrap64 (ceil_usize (bits n k) + Z.of_nat GAIN_BITS + 1).

Fixpoint plan_loop (n : nat) (stages : list nat) (left : Z) : list nat :=
  match stages with
  | [] => []
  | stage :: rest =>
      if left =? 0 then []
      else
        let share := if (stage + 1 =? MAX_STAGES)%nat then left else left / 2 in
        let k := pulses_for n (Z.max share 1) in
        if (k =? 0)%nat then []
        else
          let cost := stage_bits n k in
          if left <? cost then []
          else k :: plan_loop n rest (left - cost)
  end.

Definition plan (n : nat) (budget : Z) : list nat := plan_loop n (seq 0 MAX_STAGES) budget.

(** The bound [encode] puts on a plan it was handed. *)
Fixpoint clamp_down (n k : nat) : nat :=
  match k with
  | O => O
  | S k' => if is_finite (bits n k) then k else clamp_down n k'
  end.

Definition clamp_plan (n : nat) (plan : list nat) : list nat :=
  retain (fun k => (0 <? k)%nat) ((fun k => clamp_down n (Nat.min k MAX_K)) <$> plan).

End Rates.

(** ** Enumeration *)

Definition l1 (y : list Z) : nat := foldr (fun v s => (Z.to_nat (Z.abs v) + s)%nat) 0%nat y.

(** [for smaller in 0..magnitude]. *)
Definition skip_smaller (remaining k magnitude : nat) (i : Z) : Z :=
  foldl (fun i smaller =>
    let ways := count remaining (k - smaller) in
    wrap64 (i + (if (smaller =? 0)%nat then ways else wrap64 (2 * ways))))
    i (seq 0 magnitude).

Fixpoint index_loop (y : list Z) (k : nat) (i : Z) : Z :=
  match y with
  | [] => i
  | value :: rest =>
      let remaining := length rest in
      let magnitude := Z.to_nat (Z.abs value) in
      let i := skip_smaller remaining k magnitude i in
      let i := if (0 <? magnitude)%nat && (0 <? value)
               then wrap64 (i + count remaining (k - magnitude)) else i in
      index_loop rest (k - magnitude) i
  end.

Definition index (y : list Z) : Z := index_loop y (l1 y) 0.

(** The loop over magnitudes of [deindex]; [spare] is [k - magnitude].  The result
    is the slot and what is left of the index. *)
Fixpoint find_slot (remaining spare magnitude : nat) (i : Z) : Z * Z :=
  let ways := count remaining spare in
  let block := if (magnitude =? 0)%nat then ways else wrap64 (2 * ways) in
  if i <? block then
    if (magnitude =? 0)%nat then (0, i)
    else if i <? ways then (- Z.of_nat magnitude, i)
    else (Z.of_nat magnitude, i - ways)
  else
    match spare with
    | O => (0, i - block)
    | S spare => find_slot remaining spare (S magnitude) (i - block)
    end.

Fixpoint deindex (n k : nat) (i : Z) : list Z :=
  match n with
  | O => []
  | S remaining =>
      let '(slot, i) := find_slot remaining k 0 i in
      slot :: deindex remaining (k - Z.to_nat (Z.abs slot)) i
  end.

(** ** A stage on the wire *)

Section Stages.
Context `{L : Log2}.

Definition write_stage (e : Encoder) (n : nat) (st : Stage) : Encoder :=
  let width := Z.to_nat (ceil_usize (bits n (pulses st))) in
  let e :=
    if (32 <? width)%nat
    then write_bits (write_bits e (wrap32 (Z.shiftr (st_index st) 32)) (width - 32))
           (wrap32 (st_index st)) 32
    else write_bits e (wrap32 (st_index st)) width in
  let e := write_bits e (gain st) GAIN_BITS in
  write_bits e (Z.b2z (negative st)) 1.

Definition read_stage (d : Decoder) (n k : nat) : Stage * Decoder :=
  let width := Z.to_nat (ceil_usize (bits n k)) in
  let '(i, d) :=
    if (32 <? width)%nat
    then let '(high, d) := read_bits d (width - 32) in
         let '(low, d) := read_bits d 32 in
         (Z.lor (Z.shiftl high 32) low, d)
    else read_bits d width in
  let total := count n k in
  let '(g, d) := read_bits d GAIN_BITS in
  let '(neg, d) := read_bits d 1 in
  (mkStage k (if 0 <? total then i mod total else 0) g (neg =? 1), d).

(** The stages of several bands, each with the band's width, one after another. *)
Definition write_stages (e : Encoder) (sts : list (nat * Stage)) : Encoder :=
  foldl (fun e st => write_stage e st.1 st.2) e sts.

Fixpoint read_stages (d : Decoder) (bands : list (nat * nat)) : list Stage :=
  match bands with
  | [] => []
  | (n, k) :: bands => let '(st, d) := read_stage d n k in st :: read_stages d bands
  end.

End Stages.

(** ** The numbers the table holds *)

(** How many vectors of [n] integers have [L1] norm [k], unbounded. *)
Fixpoint V (n : nat) : nat -> Z :=
  match n with
  | O => fun k => if (k =? 0)%nat then 1 else 0
  | S n => fix row (k : nat) : Z :=
      match k with
      | O => 1
      | S k => V n (S k) + row k + V n k
      end
  end.

Lemma V_0_r n : V n 0 = 1.
Proof. by destruct n. Qed.

Lemma V_S n k : V (S n) (S k) = V n (S k) + V (S n) k + V n k.
Proof. done. Qed.

#[global] Opaque V.

Lemma V_nonneg n k : 0 <= V n k.
Proof.
  revert k. induction n as [|n IH]; intros k; [by destruct k|].
  induction k as [|k IHk]; [by rewrite V_0_r|].
  rewrite V_S. pose proof (IH k). pose proof (IH (S k)). lia.
Qed.

Definition saturated (z : Z) : Z := Z.min u64_max z.

Lemma fill_row_spec n (prev : list Z) k l :
  (forall (i : nat) x, prev !! i = Some x -> x = saturated (V n (k + i))) ->
  l = saturated (V (S n) k) ->
  length (fill_row prev l) = Nat.pred (length prev) /\
  forall (i : nat) x, fill_row prev l !! i = Some x -> x = saturated (V (S n) (S (k + i))).
Proof.
  revert k l. induction prev as [|d [|u rest] IH]; intros k l Hp Hl; [by split|by split|].
  pose proof (Hp 0%nat d eq_refl) as Hd. pose proof (Hp 1%nat u eq_refl) as Hu.
  rewrite Nat.add_0_r in Hd. rewrite Nat.add_1_r in Hu.
  assert (sat_add64 (sat_add64 u l) d = saturated (V (S n) (S k))) as Hx.
  { rewrite V_S, Hd, Hu, Hl. unfold sat_add64, saturated, u64_max.
    pose proof (V_nonneg n k). pose proof (V_nonneg n (S k)). pose proof (V_nonneg (S n) k). lia. }
  destruct (IH (S k) (sat_add64 (sat_add64 u l) d)) as [Hlen Hrest]; [|done|].
  { intros i x Hi. rewrite Nat.add_succ_comm. by apply (Hp (S i)). }
  change (fill_row (d :: u :: rest) l) with
    (sat_add64 (sat_add64 u l) d :: fill_row (u :: rest) (sat_add64 (sat_add64 u l) d)).
  split; [cbn [length] in *; lia|]. intros [|i] x Hi.
  - rewrite Nat.add_0_r. simplify_eq/=. done.
  - rewrite <- Nat.add_succ_comm. by apply Hrest.
Qed.

Definition row_ok (n : nat) (row : list Z) : Prop :=
  length row = S MAX_K /\
  forall (k : nat) x, row !! k = Some x -> x = saturated (V n k).

Lemma next_row_ok n row : row_ok n row -> row_ok (S n) (next_row row).
Proof.
  intros [Hlen Hrow]. destruct (fill_row_spec n row 0 1 Hrow) as [Hl Hf]; [by rewrite V_0_r|].
  split; [cbn [next_row length]; rewrite Hl, Hlen; done|].
  intros [|k] x Hk; [by rewrite V_0_r; simplify_eq/=|]. by apply Hf.
Qed.

Lemma rows_from_ok m n row (i : nat) :
  row_ok n row -> (i <= m)%nat ->
  exists r, rows_from m row !! i = Some r /\ row_ok (n + i) r.
Proof.
  revert n row i. induction m as [|m IH]; intros n row i Hr Hi.
  - assert (i = 0)%nat as -> by lia. exists row. by rewrite Nat.add_0_r.
  - destruct i as [|i]; [exists row; by rewrite Nat.add_0_r|].
    destruct (IH (S n) (next_row row) i) as (r & Hri & Hok); [by apply next_row_ok|lia|].
    exists r. by rewrite <- Nat.add_succ_comm.
Qed.

Lemma first_row_ok : row_ok 0 (1 :: replicate MAX_K 0).
Proof.
  split; [done|]. intros [|k] x Hk; [by simplify_eq/=|].
  apply lookup_replicate in Hk as [-> _]. done.
Qed.

(** The table is the numbers themselves, cut off at the largest [u64]. *)
Lemma count_V n k : (n <= MAX_N)%nat -> (k <= MAX_K)%nat -> count n k = saturated (V n k).
Proof.
  intros Hn Hk. destruct (rows_from_ok MAX_N 0 _ n first_row_ok Hn) as (r & Hr & Hlen & Hrow).
  unfold count, build_table. rewrite Hr.
  destruct (lookup_lt_is_Some_2 r k) as [x Hx]; [lia|]. rewrite Hx. by apply Hrow.
Qed.

Lemma count_range n k : 0 <= count n k <= u64_max.
Proof.
  destruct (decide (n <= MAX_N)%nat) as [Hn|Hn].
  - destruct (decide (k <= MAX_K)%nat) as [Hk|Hk].
    + rewrite count_V by done. unfold saturated. pose proof (V_nonneg n k). int_lia.
    + destruct (rows_from_ok MAX_N 0 _ n first_row_ok Hn) as (r & Hr & Hlen & _).
      unfold count, build_table. rewrite Hr, (lookup_ge_None_2 r k) by lia. done.
  - unfold count, build_table. rewrite lookup_ge_None_2; [done|].
    enough (forall m row, length (rows_from m row) = S m) as -> by lia.
    induction m; intros row; simpl; auto.
Qed.

(** ** Positions in the codebook *)

Definition mag (v : Z) : nat := Z.to_nat (Z.abs v).

(** The vectors whose first entry has magnitude [m]. *)
Definition block (n k m : nat) : Z := if (m =? 0)%nat then V n k else 2 * V n (k - m).

(** The vectors whose first entry is smaller than [m] in magnitude. *)
Fixpoint below (n k m : nat) : Z :=
  match m with
  | O => 0
  | S m => below n k m + block n k m
  end.

Definition head (n k : nat) (v : Z) : Z :=
  below n k (mag v) + (if 0 <? v then V n (k - mag v) else 0).

Fixpoint rank (y : list Z) : Z :=
  match y with
  | [] => 0
  | v :: rest => head (length rest) (l1 y) v + rank rest
  end.

Lemma block_nonneg n k m : 0 <= block n k m.
Proof.
  unfold block. pose proof (V_nonneg n k). pose proof (V_nonneg n (k - m)).
  destruct (m =? 0)%nat; lia.
Qed.

Lemma below_mono n k a b : (a <= b)%nat -> below n k a <= below n k b.
Proof.
  induction 1 as [|b Hab IH]; [done|]. simpl. pose proof (block_nonneg n k b). lia.
Qed.

Lemma below_nonneg n k m : 0 <= below n k m.
Proof. apply (below_mono n k 0 m). lia. Qed.

Lemma below_shift n k m :
  below n (S k) (S (S m)) = V n (S k) + V n k + below n k (S m).
Proof.
  induction m as [|m IH].
  - simpl. unfold block. simpl. rewrite Nat.sub_0_r. lia.
  - change (below n (S k) (S (S m)) + block n (S k) (S (S m)) =
            V n (S k) + V n k + (below n k (S m) + block n k (S m))).
    rewrite IH. unfold block. simpl. lia.
Qed.

(** All the magnitudes together make the whole codebook. *)
Lemma below_total n k : below n k (S k) = V (S n) k.
Proof.
  induction k as [|k IH].
  - simpl. unfold block. simpl. by rewrite !V_0_r.
  - rewrite below_shift, IH, V_S. lia.
Qed.

Lemma block_le n k m : (m <= k)%nat -> block n k m <= V (S n) k.
Proof.
  intros Hm. rewrite <- below_total. pose proof (below_mono n k (S m) (S k)) as Hb.
  change (below n k (S m)) with (below n k m + block n k m) in Hb. pose proof (below_nonneg n k m). lia.
Qed.

Lemma V_le_block n k m : V n (k - m) <= block n k m.
Proof.
  unfold block. pose proof (V_nonneg n (k - m)).
  destruct (Nat.eqb_spec m 0) as [->|]; [rewrite Nat.sub_0_r|]; lia.
Qed.

Lemma head_range n k v i :
  (mag v <= k)%nat -> 0 <= i < V n (k - mag v) ->
  below n k (mag v) <= head n k v + i < below n k (S (mag v)).
Proof.
  intros Hv Hi. unfold head. cbn [below]. unfold block, mag in *.
  destruct (Z.ltb_spec 0 v); destruct (Nat.eqb_spec (Z.to_nat (Z.abs v)) 0) as [E|]; try lia.
  rewrite E, Nat.sub_0_r in *. lia.
Qed.

Lemma rank_range y : 0 <= rank y < V (length y) (l1 y).
Proof.
  induction y as [|v y IH]; [done|]. cbn [length].
  assert (l1 (v :: y) - mag v = l1 y)%nat as Hl by (simpl; unfold mag; lia).
  assert (mag v <= l1 (v :: y))%nat as Hv by (simpl; unfold mag; lia).
  cbn [rank]. pose proof (head_range (length y) (l1 (v :: y)) v (rank y) Hv) as Hh.
  rewrite Hl in Hh. specialize (Hh IH). rewrite <- below_total.
  pose proof (below_mono (length y) (l1 (v :: y)) (S (mag v)) (S (l1 (v :: y)))).
  pose proof (below_nonneg (length y) (l1 (v :: y)) (mag v)). lia.
Qed.

(** Every position belongs to exactly one first entry. *)
Lemma below_find n k m i :
  0 <= i < below n k m -> exists j, (j < m)%nat /\ below n k j <= i < below n k (S j).
Proof.
  induction m as [|m IH]; intros Hi; [simpl in Hi; lia|].
  destruct (Z.ltb_spec i (below n k m)).
  - destruct IH as (j & Hj & Hb); [lia|]. exists j. split; [lia|done].
  - exists m. split; [lia|]. split; [done|lia].
Qed.

Lemma head_cover n k i :
  0 <= i < V (S n) k ->
  exists v j, (mag v <= k)%nat /\ 0 <= j < V n (k - mag v) /\ i = head n k v + j.
Proof.
  rewrite <- below_total. intros Hi. destruct (below_find n k (S k) i Hi) as (m & Hm & Hb).
  cbn [below] in Hb. unfold block in Hb. destruct (Nat.eqb_spec m 0) as [->|Hm0].
  - exists 0, i. cbn [below] in Hb. unfold head, mag. simpl. rewrite Nat.sub_0_r. lia.
  - destruct (Z.ltb_spec (i - below n k m) (V n (k - m))).
    + exists (- Z.of_nat m), (i - below n k m). unfold head.
      assert (mag (- Z.of_nat m) = m) as -> by (unfold mag; lia).
      destruct (Z.ltb_spec 0 (- Z.of_nat m)); lia.
    + exists (Z.of_nat m), (i - below n k m - V n (k - m)). unfold head.
      assert (mag (Z.of_nat m) = m) as -> by (unfold mag; lia).
      destruct (Z.ltb_spec 0 (Z.of_nat m)); lia.
Qed.

Lemma rank_onto n k i :
  0 <= i < V n k -> exists y, length y = n /\ l1 y = k /\ rank y = i.
Proof.
  revert k i. induction n as [|n IH]; intros k i Hi.
  - exists []. destruct k as [|k]; [change (V 0 0) with 1 in Hi|change (V 0 (S k)) with 0 in Hi];
      simpl; lia.
  - destruct (head_cover n k i Hi) as (v & j & Hv & Hj & ->).
    destruct (IH _ _ Hj) as (y & Hlen & Hl1 & Hr). exists (v :: y).
    assert (l1 (v :: y) = k) as Hk.
    { change (mag v + l1 y = k)%nat. lia. }
    cbn [length rank]. rewrite Hk, Hlen, Hr. done.
Qed.

(** ** The code computes these positions *)

(** A codebook the [u64] arithmetic can address. *)
Definition addressable (n k : nat) : Prop :=
  (n <= MAX_N)%nat /\ (k <= MAX_K)%nat /\ V n k < 2 ^ MAX_INDEX_BITS.

Lemma addressable_rest n k m :
  addressable (S n) k -> (m <= k)%nat -> addressable n (k - m).
Proof.
  intros (Hn & Hk & HV) Hm. split; [lia|]. split; [lia|].
  pose proof (V_le_block n k m). pose proof (block_le n k m Hm). lia.
Qed.

Lemma addressable_count n k : addressable n k -> count n k = V n k.
Proof.
  intros (Hn & Hk & HV). rewrite count_V by done. unfold saturated, u64_max, MAX_INDEX_BITS in *.
  pose proof (V_nonneg n k). lia.
Qed.

Lemma counted_block n k m :
  addressable (S n) k -> (m <= k)%nat ->
  (if (m =? 0)%nat then count n (k - m) else wrap64 (2 * count n (k - m))) = block n k m.
Proof.
  intros Ha Hm. rewrite addressable_count by (by apply addressable_rest).
  destruct Ha as (_ & _ & HV). pose proof (block_le n k m Hm). pose proof (block_nonneg n k m).
  unfold block, MAX_INDEX_BITS in *.
  destruct (Nat.eqb_spec m 0) as [->|]; [by rewrite Nat.sub_0_r|].
  unfold wrap64. rewrite Z.mod_small; lia.
Qed.

Lemma skip_smaller_spec n k m i :
  addressable (S n) k -> (m <= S k)%nat -> 0 <= i -> i + below n k m <= u64_max ->
  skip_smaller n k m i = i + below n k m.
Proof.
  intros Ha. unfold skip_smaller. induction m as [|m IH]; intros Hm Hi Hb.
  - simpl. lia.
  - rewrite seq_S, foldl_app, Nat.add_0_l. cbn [foldl below] in *.
    pose proof (block_nonneg n k m). rewrite IH by lia. rewrite counted_block by (done || lia).
    unfold wrap64, u64_max in *. pose proof (below_nonneg n k m). rewrite Z.mod_small; lia.
Qed.

Lemma index_loop_spec y i :
  addressable (length y) (l1 y) -> 0 <= i -> i + V (length y) (l1 y) <= 2 ^ MAX_INDEX_BITS ->
  index_loop y (l1 y) i = i + rank y.
Proof.
  revert i. induction y as [|v y IH]; intros i Ha Hi Hmax; [simpl; lia|].
  pose proof (rank_range (v :: y)) as Hr.
  assert (l1 (v :: y) - mag v = l1 y)%nat as Hl by (simpl; unfold mag; lia).
  assert (mag v <= l1 (v :: y))%nat as Hv by (simpl; unfold mag; lia).
  cbn [length] in Ha, Hmax, Hr.
  pose proof (addressable_rest _ _ _ Ha Hv) as Ha'. rewrite Hl in Ha'.
  pose proof (rank_range y). cbn [rank] in Hr |- *. unfold head in *. rewrite Hl in *.
  pose proof (below_nonneg (length y) (l1 (v :: y)) (mag v)).
  pose proof (below_mono (length y) (l1 (v :: y)) (S (mag v)) (S (l1 (v :: y)))) as Hmono.
  rewrite below_total in Hmono. cbn [below] in Hmono.
  pose proof (V_le_block (length y) (l1 (v :: y)) (mag v)) as Hvb. rewrite Hl in Hvb.
  assert ((if 0 <? v then V (length y) (l1 y) else 0) + V (length y) (l1 y)
          <= block (length y) (l1 (v :: y)) (mag v)) as Hpair.
  { unfold block. rewrite Hl. unfold mag. pose proof (V_nonneg (length y) (l1 y)).
    destruct (Z.ltb_spec 0 v), (Nat.eqb_spec (Z.to_nat (Z.abs v)) 0) as [E|];
      try rewrite <- Hl; unfold mag; rewrite ?E, ?Nat.sub_0_r; try lia.
    all: unfold mag in Hl; rewrite Hl; lia. }
  unfold index_loop; fold index_loop. fold (mag v).
  assert (2 ^ MAX_INDEX_BITS <= u64_max) by done. pose proof (V_nonneg (length y) (l1 y)).
  rewrite skip_smaller_spec by (done || lia). rewrite Hl.
  rewrite addressable_count by done.
  assert (((0 <? mag v)%nat && (0 <? v)) = (0 <? v)) as ->.
  { unfold mag. destruct (Z.ltb_spec 0 v); [|by rewrite andb_false_r].
    rewrite andb_true_r. apply Nat.ltb_lt. lia. }
  generalize dependent (l1 (v :: y)). intros k. intros.
  destruct (0 <? v); [unfold wrap64; rewrite Z.mod_small by int_lia|];
    rewrite IH by (done || lia); lia.
Qed.

Lemma index_rank y : addressable (length y) (l1 y) -> index y = rank y.
Proof.
  intros Ha. unfold index. rewrite index_loop_spec; [done|done|done|].
  destruct Ha as (_ & _ & HV). lia.
Qed.

Lemma find_slot_found n s m i :
  i < (if (m =? 0)%nat then count n s else wrap64 (2 * count n s)) ->
  find_slot n s m i =
  if (m =? 0)%nat then (0, i)
  else if i <? count n s then (- Z.of_nat m, i) else (Z.of_nat m, i - count n s).
Proof. intros Hi. destruct s; cbn [find_slot]; by rewrite (proj2 (Z.ltb_lt _ _) Hi). Qed.

Lemma find_slot_next n s m i :
  (if (m =? 0)%nat then count n (S s) else wrap64 (2 * count n (S s))) <= i ->
  find_slot n (S s) m i =
  find_slot n s (S m) (i - (if (m =? 0)%nat then count n (S s) else wrap64 (2 * count n (S s)))).
Proof. intros Hi. cbn [find_slot]. by rewrite (proj2 (Z.ltb_ge _ _) Hi). Qed.

Lemma find_slot_spec t n k m v i :
  addressable (S n) k -> (mag v <= k)%nat -> (m + t = mag v)%nat ->
  0 <= i < V n (k - mag v) ->
  find_slot n (k - m) m (head n k v + i - below n k m) = (v, i).
Proof.
  revert m. induction t as [|t IH]; intros m Ha Hv Hm Hi.
  - pose proof (head_range n k v i Hv Hi) as Hh. cbn [below] in Hh.
    assert (m = mag v) as -> by lia.
    rewrite find_slot_found by (rewrite counted_block by done; lia).
    rewrite addressable_count by (by apply addressable_rest).
    unfold head in *. destruct (Nat.eqb_spec (mag v) 0); unfold mag in *.
    { f_equal; [lia|]. destruct (Z.ltb_spec 0 v); lia. }
    destruct (Z.ltb_spec 0 v).
    all: destruct (Z.ltb_spec (below n k (Z.to_nat (Z.abs v)) +
           (if 0 <? v then V n (k - Z.to_nat (Z.abs v)) else 0) + i
           - below n k (Z.to_nat (Z.abs v))) (V n (k - Z.to_nat (Z.abs v)))) as [Hlt|Hlt].
    all: destruct (0 <? v) eqn:Ev; try lia.
    all: rewrite ?(proj2 (Z.ltb_lt _ _) Hlt), ?(proj2 (Z.ltb_ge _ _) Hlt).
    all: f_equal; lia.
  - pose proof (head_range n k v i Hv Hi) as Hh.
    pose proof (below_mono n k (S m) (mag v)) as Hb. cbn [below] in Hb.
    pose proof (counted_block n k m Ha) as Hc.
    assert (k - m = S (k - S m))%nat as Es by lia. rewrite Es in *.
    rewrite find_slot_next by (rewrite Hc by lia; lia).
    rewrite Hc by lia. rewrite <- (IH (S m)) by (done || lia). f_equal. cbn [below]. lia.
Qed.

Lemma deindex_rank y :
  addressable (length y) (l1 y) -> deindex (length y) (l1 y) (rank y) = y.
Proof.
  induction y as [|v y IH]; intros Ha; [done|].
  assert (l1 (v :: y) - mag v = l1 y)%nat as Hl by (simpl; unfold mag; lia).
  assert (mag v <= l1 (v :: y))%nat as Hv by (simpl; unfold mag; lia).
  cbn [length] in *.
  pose proof (addressable_rest _ _ _ Ha Hv) as Ha'. rewrite Hl in Ha'.
  pose proof (rank_range y) as Hr. cbn [rank deindex].
  pose proof (find_slot_spec (mag v) (length y) (l1 (v :: y)) 0 v (rank y) Ha Hv) as Hf.
  rewrite Hl, Nat.sub_0_r in Hf. cbn [below] in Hf. rewrite Z.sub_0_r in Hf.
  rewrite Hf by (done || lia). fold (mag v). by rewrite Hl, IH.
Qed.

(** ** Any index *)

Definition slot_at (m : nat) (i ways : Z) : Z * Z :=
  if (m =? 0)%nat then (0, i) else if i <? ways then (- Z.of_nat m, i) else (Z.of_nat m, i - ways).

Lemma slot_mag m i ways : (mag (slot_at m i ways).1 <= m)%nat.
Proof. unfold slot_at, mag. destruct (m =? 0)%nat, (i <? ways); simpl; lia. Qed.

Lemma find_slot_mag n s m i :
  (mag (find_slot n s m i).1 <= m + s)%nat.
Proof.
  revert m i. induction s as [|s IH]; intros m i.
  - destruct (Z.lt_ge_cases i (if (m =? 0)%nat then count n 0 else wrap64 (2 * count n 0))).
    + rewrite find_slot_found by done. pose proof (slot_mag m i (count n 0)) as Hs.
      unfold slot_at in Hs. lia.
    + cbn [find_slot]. rewrite (proj2 (Z.ltb_ge _ _)) by done. simpl. unfold mag. lia.
  - destruct (Z.lt_ge_cases i (if (m =? 0)%nat then count n (S s) else wrap64 (2 * count n (S s)))).
    + rewrite find_slot_found by done. pose proof (slot_mag m i (count n (S s))) as Hs.
      unfold slot_at in Hs. lia.
    + rewrite find_slot_next by done. rewrite Nat.add_succ_r. apply (IH (S m)).
Qed.

Lemma deindex_bounded n k i : length (deindex n k i) = n /\ (l1 (deindex n k i) <= k)%nat.
Proof.
  revert k i. induction n as [|n IH]; intros k i; cbn [deindex]; [simpl; lia|].
  pose proof (find_slot_mag n k 0 i) as Hm.
  destruct (find_slot n k 0 i) as [v j]. cbn [fst] in Hm.
  destruct (IH (k - Z.to_nat (Z.abs v))%nat j) as [Hl Hk].
  cbn [length l1 foldr]. split; [by f_equal|]. fold (l1 (deindex n (k - Z.to_nat (Z.abs v)) j)).
  unfold mag in Hm. lia.
Qed.

(** ** Widths *)

(** What [bits] hands to the logarithm is clear of a power of two and keeps the
    count's binary order, for a count a codebook can have. *)
Definition width_ok (c : Z) : bool :=
  (c <=? 1) || (2 ^ MAX_INDEX_BITS <=? c)
  || match f32_of_Z c with
     | S754_finite false m e =>
         clear_of_power m && (e + Z.log2_up (Z.pos m) =? Z.log2_up c)
     | _ => false
     end.

Lemma table_widths : forallb (forallb width_ok) build_table = true.
Proof. vm_compute. reflexivity. Qed.

Lemma count_width_ok n k : width_ok (count n k) = true.
Proof.
  unfold count. destruct (build_table !! n) as [row|] eqn:Hrow; [|done].
  destruct (row !! k) as [c|] eqn:Hc; [|done]. simpl.
  pose proof table_widths as Ht. rewrite forallb_forall in Ht.
  specialize (Ht row). rewrite forallb_forall in Ht.
  apply Ht; apply list_elem_of_In; by eapply list_elem_of_lookup_2.
Qed.

Section Widths.
Context `{LL : Log2Laws}.

Lemma bits_addressable n k :
  (n <= MAX_N)%nat -> (k <= MAX_K)%nat -> is_finite (bits n k) = true -> addressable n k.
Proof.
  intros Hn Hk Hf. split; [done|]. split; [done|]. unfold bits in Hf.
  rewrite count_V in Hf by done. change (Z.shiftl 1 MAX_INDEX_BITS) with (2 ^ MAX_INDEX_BITS) in Hf.
  unfold saturated in Hf. assert (2 ^ MAX_INDEX_BITS <= u64_max) by done.
  destruct (Z.leb_spec (Z.min u64_max (V n k)) 1);
    [assert (1 < 2 ^ MAX_INDEX_BITS) by done; lia|].
  destruct (Z.leb_spec (2 ^ MAX_INDEX_BITS) (Z.min u64_max (V n k))); [done|lia].
Qed.

(** An addressable codebook is charged the binary order of its size. *)
Lemma bits_width n k :
  addressable n k -> is_finite (bits n k) = true /\ ceil_usize (bits n k) = Z.log2_up (count n k).
Proof.
  intros Ha. pose proof (addressable_count n k Ha) as Hc. destruct Ha as (_ & _ & HV).
  pose proof (count_width_ok n k) as Hw. pose proof (V_nonneg n k). unfold bits, width_ok in *.
  change (Z.shiftl 1 MAX_INDEX_BITS) with (2 ^ MAX_INDEX_BITS).
  destruct (Z.leb_spec (count n k) 1).
  { split; [done|]. assert (count n k = 0 \/ count n k = 1) as [->| ->] by lia; done. }
  destruct (Z.leb_spec (2 ^ MAX_INDEX_BITS) (count n k)); [lia|]. simpl in Hw.
  destruct (f32_of_Z (count n k)) as [| | |[] m e]; try done.
  apply andb_prop in Hw as [Hclear He%Z.eqb_eq].
  split; [apply log2_finite|]. rewrite log2_ceil; [done|done|]. rewrite He.
  split; [apply Z.log2_up_nonneg|]. apply Z.log2_up_le_pow2; lia.
Qed.

Lemma count_le_width n k :
  addressable n k -> count n k <= 2 ^ ceil_usize (bits n k) /\ 0 <= ceil_usize (bits n k) <= 62.
Proof.
  intros Ha. rewrite (proj2 (bits_width n k Ha)). pose proof (addressable_count n k Ha) as Hc.
  destruct Ha as (_ & _ & HV). pose proof (V_nonneg n k).
  pose proof (Z.log2_up_nonneg (count n k)). split.
  - destruct (Z.lt_ge_cases 1 (count n k)); [by apply Z.log2_up_spec|].
    pose proof (Z.pow_pos_nonneg 2 (Z.log2_up (count n k))). lia.
  - split; [done|]. destruct (Z.lt_ge_cases 0 (count n k)).
    + apply Z.log2_up_le_pow2; unfold MAX_INDEX_BITS in HV; lia.
    + by rewrite Z.log2_up_nonpos.
Qed.

(** ** Plans *)

Lemma addressable_0 n : (n <= MAX_N)%nat -> addressable n 0.
Proof.
  intros Hn. split; [done|]. split; [apply Nat.le_0_l|]. by rewrite V_0_r.
Qed.

Lemma pulses_loop_ok n budget ks best :
  (n <= MAX_N)%nat -> addressable n best -> Forall (fun k => (k <= MAX_K)%nat) ks ->
  addressable n (pulses_loop n budget ks best).
Proof.
  intros Hn Hb Hks. revert best Hb. induction Hks as [|k ks Hk _ IH]; intros best Hb; [done|].
  cbn [pulses_loop]. destruct (count n k =? 0); [done|].
  destruct (is_finite (bits n k)) eqn:Hf; [|done]. simpl.
  destruct (SFleb _ _); [|done]. apply IH. by apply bits_addressable.
Qed.

Lemma pulses_for_ok n budget : (n <= MAX_N)%nat -> addressable n (pulses_for n budget).
Proof.
  intros Hn. destruct n as [|n]; [by apply addressable_0|].
  unfold pulses_for. apply pulses_loop_ok; [done|by apply addressable_0|].
  apply Forall_forall. intros k [Hk1 Hk2]%elem_of_seq. lia.
Qed.

Lemma clamp_down_ok n k :
  (n <= MAX_N)%nat -> (k <= MAX_K)%nat ->
  addressable n (clamp_down n k) /\ (clamp_down n k <= k)%nat.
Proof.
  intros Hn. induction k as [|k IH]; intros Hk; [split; [by apply addressable_0|done]|].
  cbn [clamp_down]. destruct (is_finite (bits n (S k))) eqn:Hf.
  - split; [by apply bits_addressable|lia].
  - destruct IH; [lia|]. split; [done|lia].
Qed.

End Widths.

(** ** Stages as fields *)

Section StageWire.
Context `{LL : Log2Laws}.

Definition stage_fields (n : nat) (st : Stage) : list field :=
  let width := Z.to_nat (ceil_usize (bits n (pulses st))) in
  (if (32 <? width)%nat
   then [Bits (wrap32 (Z.shiftr (st_index st) 32)) (width - 32); Bits (wrap32 (st_index st)) 32]
   else [Bits (wrap32 (st_index st)) width])
  ++ [Bits (gain st) GAIN_BITS; Bits (Z.b2z (negative st)) 1].

(** A stage the quantiser makes: a codeword of an addressable codebook and a
    gain level of [GAIN_BITS] bits. *)
Record stage_ok (n : nat) (st : Stage) : Prop := {
  so_addressable : addressable n (pulses st);
  so_index : 0 <= st_index st < count n (pulses st);
  so_gain : 0 <= gain st < 16;
}.

Lemma write_stage_fields e n st :
  write_stage e n st = foldl write_field e (stage_fields n st).
Proof.
  unfold write_stage, stage_fields. generalize (Z.to_nat (ceil_usize (bits n (pulses st)))).
  intros w. rewrite foldl_app. destruct (32 <? w)%nat; cbn [foldl write_field]; reflexivity.
Qed.

Lemma wrap32_range z : 0 <= wrap32 z < 2 ^ 32.
Proof. unfold wrap32. change 4294967296 with (2 ^ 32). by apply Z.mod_pos_bound. Qed.

Lemma bits_field_ok v (n : nat) m :
  Z.of_nat n = m -> m <= 32 -> 0 <= v < 2 ^ m -> field_ok (Bits v n).
Proof. intros <- Hm Hv. split; [lia|done]. Qed.

Lemma stage_fields_ok n st : stage_ok n st -> Forall field_ok (stage_fields n st).
Proof.
  intros [Ha Hi Hg]. pose proof (count_le_width n _ Ha) as [Hw Hr]. unfold stage_fields.
  set (w := ceil_usize (bits n (pulses st))) in *. clearbody w.
  apply Forall_app. split.
  - destruct (Nat.ltb_spec 32 (Z.to_nat w)).
    + apply Forall_cons; split; [|apply Forall_singleton].
      * apply (bits_field_ok _ _ (w - 32)); [lia|lia|]. rewrite Z.shiftr_div_pow2 by lia.
        assert (0 <= st_index st / 2 ^ 32 < 2 ^ (w - 32)) as Hhi.
        { split; [apply Z.div_pos; lia|]. apply Z.div_lt_upper_bound; [done|].
          rewrite <- Z.pow_add_r by lia. replace (32 + (w - 32)) with w by lia. lia. }
        assert (2 ^ (w - 32) <= 2 ^ 32) by (apply Z.pow_le_mono_r; lia).
        unfold wrap32. change 4294967296 with (2 ^ 32). rewrite Z.mod_small; lia.
      * apply (bits_field_ok _ _ 32); [done|done|apply wrap32_range].
    + apply Forall_singleton. apply (bits_field_ok _ _ w); [lia|lia|].
      assert (2 ^ w <= 2 ^ 32) by (apply Z.pow_le_mono_r; lia).
      unfold wrap32. change 4294967296 with (2 ^ 32). rewrite Z.mod_small; lia.
  - apply Forall_cons; split; [|apply Forall_singleton].
    + by apply (bits_field_ok _ _ 4).
    + apply (bits_field_ok _ _ 1); [done|done|]. by destruct (negative st).
Qed.

Lemma index_halves i : 0 <= i < 2 ^ 64 ->
  Z.lor (Z.shiftl (wrap32 (Z.shiftr i 32)) 32) (wrap32 i) = i.
Proof.
  intros Hi. rewrite Z.shiftr_div_pow2 by lia.
  assert (0 <= i / 2 ^ 32 < 2 ^ 32) as Hhi.
  { split; [apply Z.div_pos; lia|]. apply Z.div_lt_upper_bound; [lia|].
    rewrite <- Z.pow_add_r by lia. apply Hi. }
  pose proof (wrap32_range i). rewrite lor_shiftl by (unfold wrap32 in *; lia).
  unfold wrap32. change 4294967296 with (2 ^ 32). rewrite (Z.mod_small (i / 2 ^ 32)) by lia.
  pose proof (Z.div_mod i (2 ^ 32)). lia.
Qed.

Lemma read_bits_spec v n pre post l p :
  field_ok (Bits v n) -> byte_bits l = pre ++ to_bits n v ++ post -> p = zlen pre ->
  read_bits (mkDecoder l p) n = (v, mkDecoder l (zlen (pre ++ to_bits n v))).
Proof.
  intros Hf Hl Hp. rewrite zlen_app, <- Hp. exact (read_field_spec (Bits v n) pre post l p Hf Hl Hp).
Qed.

Lemma read_stage_spec n st pre post l :
  stage_ok n st -> byte_bits l = pre ++ (stage_fields n st ≫= field_bits) ++ post ->
  read_stage (mkDecoder l (zlen pre)) n (pulses st) =
  (st, mkDecoder l (zlen (pre ++ (stage_fields n st ≫= field_bits)))).
Proof.
  intros Hst Hl. pose proof (stage_fields_ok n st Hst) as Hok.
  destruct Hst as [Ha Hi Hg]. pose proof (count_le_width n _ Ha) as [Hw Hr].
  unfold read_stage. unfold stage_fields in *.
  set (w := ceil_usize (bits n (pulses st))) in *.
  assert (2 ^ w <= 2 ^ 62) by (apply Z.pow_le_mono_r; lia).
  assert (mkStage (pulses st) (if 0 <? count n (pulses st)
      then st_index st mod count n (pulses st) else 0) (gain st) (Z.b2z (negative st) =? 1) = st)
    as Hstage.
  { rewrite Z.mod_small by done. destruct (Z.ltb_spec 0 (count n (pulses st))); [|lia].
    by destruct st as [? ? ? []]. }
  destruct (Nat.ltb_spec 32 (Z.to_nat w)).
  - cbn [app] in *. apply Forall_cons in Hok as [H1 Hok]. apply Forall_cons in Hok as [H2 Hok].
    apply Forall_cons in Hok as [H3 Hok]. apply Forall_cons in Hok as [H4 _].
    cbn [mbind list_bind field_bits] in *. rewrite app_nil_r in *.
    rewrite !app_assoc. rewrite <- !app_assoc in Hl.
    rewrite (read_bits_spec _ _ _ _ _ _ H1 Hl eq_refl). rewrite app_assoc in Hl.
    rewrite (read_bits_spec _ _ _ _ _ _ H2 Hl eq_refl). rewrite app_assoc in Hl.
    rewrite (read_bits_spec _ _ _ _ _ _ H3 Hl eq_refl). rewrite app_assoc in Hl.
    rewrite (read_bits_spec _ _ _ _ _ _ H4 Hl eq_refl).
    rewrite index_halves by (change (2 ^ 62) with 4611686018427387904 in *;
      change (2 ^ 64) with 18446744073709551616; lia).
    by rewrite Hstage.
  - cbn [app] in *. apply Forall_cons in Hok as [H1 Hok].
    apply Forall_cons in Hok as [H3 Hok]. apply Forall_cons in Hok as [H4 _].
    cbn [mbind list_bind field_bits] in *. rewrite app_nil_r in *.
    rewrite !app_assoc. rewrite <- !app_assoc in Hl.
    rewrite (read_bits_spec _ _ _ _ _ _ H1 Hl eq_refl). rewrite app_assoc in Hl.
    rewrite (read_bits_spec _ _ _ _ _ _ H3 Hl eq_refl). rewrite app_assoc in Hl.
    rewrite (read_bits_spec _ _ _ _ _ _ H4 Hl eq_refl).
    assert (wrap32 (st_index st) = st_index st) as ->; [|by rewrite Hstage].
    unfold wrap32. apply Z.mod_small. change 4294967296 with (2 ^ 32).
    assert (2 ^ w <= 2 ^ 32) by (apply Z.pow_le_mono_r; lia). lia.
Qed.

End StageWire.

(** ** Properties *)

Lemma V_pos n k : (0 < n)%nat -> 0 < V n k.
Proof.
  intros Hn. destruct n as [|n]; [lia|]. induction k as [|k IH]; [by rewrite V_0_r|].
  rewrite V_S. pose proof (V_nonneg n k). pose proof (V_nonneg n (S k)). lia.
Qed.

Lemma codeword_index y :
  addressable (length y) (l1 y) ->
  0 <= index y < count (length y) (l1 y) /\ deindex (length y) (l1 y) (index y) = y.
Proof.
  intros Ha. rewrite index_rank, addressable_count, deindex_rank by done.
  split; [apply rank_range|done].
Qed.

Lemma index_codeword n k i :
  addressable n k -> 0 <= i < count n k ->
  length (deindex n k i) = n /\ l1 (deindex n k i) = k /\ index (deindex n k i) = i.
Proof.
  intros Ha Hi. rewrite addressable_count in Hi by done.
  destruct (rank_onto n k i Hi) as (y & <- & <- & <-).
  rewrite deindex_rank by done. split; [done|]. split; [done|]. by apply index_rank.
Qed.

Lemma addressable_intro n k :
  (n <= MAX_N)%nat -> (k <= MAX_K)%nat -> count n k < 2 ^ MAX_INDEX_BITS -> addressable n k.
Proof.
  intros Hn Hk Hc. split; [done|]. split; [done|]. rewrite count_V in Hc by done.
  unfold saturated in Hc. assert (2 ^ MAX_INDEX_BITS <= u64_max) by done. lia.
Qed.

(** C39: the codebook is a numbering.  For every width the table covers and every
    pulse count whose codebook fits the 62 bits the code allows, [index] and
    [deindex] are inverse: a vector of [n] integers of norm [k] gets a position
    below [count n k] from which it is rebuilt, and every position below
    [count n k] is the position of the vector it is rebuilt to, which has [n]
    entries and norm [k].  No step of the [u64] arithmetic wraps. *)
Theorem codebook_is_a_numbering n k :
  (n <= MAX_N)%nat -> (k <= MAX_K)%nat -> count n k < 2 ^ MAX_INDEX_BITS ->
  (forall y, length y = n -> l1 y = k ->
    0 <= index y < count n k /\ deindex n k (index y) = y) /\
  (forall i, 0 <= i < count n k ->
    length (deindex n k i) = n /\ l1 (deindex n k i) = k /\ index (deindex n k i) = i).
Proof.
  intros Hn Hk Hc. pose proof (addressable_intro n k Hn Hk Hc) as Ha. split.
  - intros y <- <-. by apply codeword_index.
  - intros i Hi. by apply index_codeword.
Qed.

Lemma codebook_is_a_numbering_witness :
  deindex 5 3 (index [0; -2; 0; 1; 0]) = [0; -2; 0; 1; 0] /\ index (deindex 5 3 100) = 100.
Proof.
  destruct (codebook_is_a_numbering 5 3) as [H1 H2]; [vm_compute; lia|vm_compute; lia|done|].
  split; [by apply H1|]. apply H2. vm_compute. by split.
Defined.

Section Properties.
Context `{LL : Log2Laws}.

(** One band's coded shape: its codeword, gain level and sign. *)
Definition coded (c : list Z * Z * bool) : nat * Stage :=
  let '(y, g, s) := c in (length y, mkStage (l1 y) (index y) g s).

Definition coded_ok (c : list Z * Z * bool) : Prop :=
  let '(y, g, _) := c in
  (length y <= MAX_N)%nat /\ (l1 y <= MAX_K)%nat /\
  is_finite (bits (length y) (l1 y)) = true /\ 0 <= g < 16.

Lemma coded_stage_ok c : coded_ok c -> stage_ok (coded c).1 (coded c).2.
Proof.
  destruct c as [[y g] s]. intros (Hn & Hk & Hf & Hg). pose proof (bits_addressable _ _ Hn Hk Hf).
  split; [done| |done]. by apply codeword_index.
Qed.

Lemma write_stages_fields e sts :
  write_stages e sts = foldl write_field e (sts ≫= (fun st => stage_fields st.1 st.2)).
Proof.
  revert e. induction sts as [|[n st] sts IH]; intros e; [done|].
  unfold write_stages in *. cbn [foldl mbind list_bind fst snd].
  by rewrite foldl_app, <- write_stage_fields, IH.
Qed.

Lemma read_stages_spec sts pre post l :
  Forall (fun st => stage_ok st.1 st.2) sts ->
  byte_bits l = pre ++ ((sts ≫= (fun st => stage_fields st.1 st.2)) ≫= field_bits) ++ post ->
  read_stages (mkDecoder l (zlen pre)) ((fun st => (st.1, pulses st.2)) <$> sts) = snd <$> sts.
Proof.
  intros Hsts. revert pre. induction Hsts as [|[n st] sts Hst _ IH]; intros pre Hl; [done|].
  cbn [mbind list_bind fst snd] in Hl. change (list_bind ?A ?B ?f ?x) with (mbind f x) in Hl.
  rewrite bind_app, <- app_assoc in Hl.
  cbn [fmap list_fmap fst snd read_stages].
  rewrite (read_stage_spec n st pre _ l Hst Hl). f_equal.
  apply IH. by rewrite <- app_assoc.
Qed.

(** Shapes survive the wire.  Any sequence of codewords within the table, of
    codebooks [bits] calls affordable, with their gain levels and signs, written
    one after another into a frame and read back with the widths and pulse counts
    both sides derive, decode to the same vectors, levels and signs, whatever
    follows them in the frame. *)
Theorem shapes_survive_the_wire cs tail :
  Forall coded_ok cs ->
  let frame := finish (write_stages encoder_new (coded <$> cs)) in
  let bands := (fun c => (length c.1.1, l1 c.1.1)) <$> cs in
  zip_with (fun band st => (deindex band.1 (pulses st) (st_index st), gain st, negative st))
    bands (read_stages (decoder_new (frame ++ tail)) bands) = cs.
Proof.
  intros Hcs. cbv zeta.
  assert (Forall (fun st => stage_ok st.1 st.2) (coded <$> cs)) as Hsts.
  { apply Forall_fmap. eapply Forall_impl; [exact Hcs|]. intros c. apply coded_stage_ok. }
  rewrite write_stages_fields.
  destruct (finished_bits ((coded <$> cs) ≫= (fun st => stage_fields st.1 st.2)) tail) as [post Hb].
  { apply Forall_bind. eapply Forall_impl; [exact Hsts|]. intros st. apply stage_fields_ok. }
  pose proof (read_stages_spec (coded <$> cs) [] post _ Hsts Hb) as Hread.
  rewrite <- list_fmap_compose in Hread. change (zlen (@nil bool)) with 0 in Hread.
  assert ((fun c => (length c.1.1, l1 c.1.1)) <$> cs =
          ((fun st => (st.1, pulses st.2)) ∘ coded) <$> cs) as Hbands.
  { apply list_fmap_ext. by intros _ [[y g] s] _. }
  unfold decoder_new. rewrite Hbands, Hread. clear Hread Hb Hbands Hsts.
  induction Hcs as [|[[y g] s] cs Hc _ IH]; [done|]. cbn [fmap list_fmap zip_with].
  f_equal; [|exact IH]. destruct Hc as (Hn & Hk & Hf & Hg). simpl. f_equal. f_equal.
  apply codeword_index. by apply bits_addressable.
Qed.

(** Damage stays a codeword.  Whatever the bytes and wherever the decoder
    stands, the stage it reads names a position inside its codebook, and the
    vector rebuilt from it has the band's width and exactly the planned number of
    pulses. *)
Theorem damaged_stage_is_a_codeword d n k :
  (0 < n <= MAX_N)%nat -> (k <= MAX_K)%nat -> is_finite (bits n k) = true ->
  let st := (read_stage d n k).1 in
  0 <= st_index st < count n k /\
  length (deindex n k (st_index st)) = n /\ l1 (deindex n k (st_index st)) = k.
Proof.
  intros [Hn0 Hn] Hk Hf. pose proof (bits_addressable n k Hn Hk Hf) as Ha.
  assert (0 < count n k) as Hpos by (rewrite addressable_count by done; by apply V_pos).
  cbv zeta.
  assert (0 <= st_index (read_stage d n k).1 < count n k) as Hi.
  { unfold read_stage. destruct (if (32 <? _)%nat then _ else _) as [i d'].
    destruct (read_bits d' GAIN_BITS) as [g d'']. destruct (read_bits d'' 1) as [neg d3].
    cbn [fst st_index]. rewrite (proj2 (Z.ltb_lt _ _) Hpos). by apply Z.mod_pos_bound. }
  split; [done|]. destruct (index_codeword n k _ Ha Hi) as (Hl & H1 & _). by split.
Qed.

(** A plan is affordable.  For every band the table covers and every budget,
    the planner returns at most four stages, each of at least one pulse and of a
    codebook that can be indexed, whose codewords, gains and signs together fit
    the budget; and the encoder's guard leaves such a plan as it is. *)
Theorem plan_is_affordable n budget :
  (n <= MAX_N)%nat -> 0 <= budget ->
  let ks := plan n budget in
  (length ks <= MAX_STAGES)%nat /\
  Forall (fun k => (0 < k)%nat /\ addressable n k) ks /\
  foldr Z.add 0 (stage_bits n <$> ks) <= budget /\
  clamp_plan n ks = ks.
Proof.
  intros Hn Hb. cbv zeta. unfold plan.
  assert (forall stages left, 0 <= left ->
    (length (plan_loop n stages left) <= length stages)%nat /\
    Forall (fun k => (0 < k)%nat /\ addressable n k) (plan_loop n stages left) /\
    foldr Z.add 0 (stage_bits n <$> plan_loop n stages left) <= left) as Hloop.
  { induction stages as [|s stages IH]; intros left Hl; [simpl; repeat split; try lia; constructor|].
    cbn [plan_loop]. destruct (left =? 0); [simpl; repeat split; try lia; constructor|].
    cbv zeta. set (share := if (s + 1 =? MAX_STAGES)%nat then left else left / 2).
    pose proof (pulses_for_ok n (Z.max share 1) Hn) as Hk.
    destruct (Nat.eqb_spec (pulses_for n (Z.max share 1)) 0);
      [simpl; repeat split; try lia; constructor|].
    destruct (Z.ltb_spec left (stage_bits n (pulses_for n (Z.max share 1))));
      [simpl; repeat split; try lia; constructor|].
    destruct (IH (left - stage_bits n (pulses_for n (Z.max share 1)))) as (H1 & H2 & H3); [lia|].
    rewrite fmap_cons. cbn [length foldr]. split; [lia|]. split; [|lia].
    constructor; [|done]. split; [lia|done]. }
  destruct (Hloop (seq 0 MAX_STAGES) budget Hb) as (H1 & H2 & H3).
  split; [done|]. split; [done|]. split; [done|]. clear H1 H3 Hloop. unfold clamp_plan.
  induction H2 as [|k ks [Hk Ha] _ IH]; [done|]. cbn [fmap list_fmap].
  assert (clamp_down n (Nat.min k MAX_K) = k) as ->.
  { pose proof Ha as (_ & Hk32 & _). rewrite Nat.min_l by done.
    destruct k as [|k]; [lia|]. cbn [clamp_down]. by rewrite (proj1 (bits_width n (S k) Ha)). }
  unfold retain in *. rewrite filter_cons_True by (rewrite (proj2 (Nat.ltb_lt _ _)); done).
  by f_equal.
Qed.

End Properties.

(** ** Witnesses: a logarithm rounded up to an integer *)

Definition log2_example : Log2 := fun f =>
  match f with
  | S754_finite false m e => f32_of_Z (Z.max 0 (Z.min 100 (e + Z.log2_up (Z.pos m))))
  | _ => f
  end.

#[global] Instance log2_example_laws : Log2Laws log2_example.
Proof.
  assert (Forall (fun z => is_finite (f32_of_Z z) = true /\ ceil_usize (f32_of_Z z) = z)
            (seqZ 0 101)) as Hall by (apply (bool_decide_unpack _); vm_compute; exact I).
  assert (forall z, 0 <= z <= 100 -> is_finite (f32_of_Z z) = true /\ ceil_usize (f32_of_Z z) = z)
    as Hz.
  { intros z Hz. rewrite Forall_forall in Hall. apply Hall. apply elem_of_seqZ. lia. }
  split.
  - intros m e. apply Hz. lia.
  - intros m e _ He. unfold MAX_INDEX_BITS in He. unfold log2, log2_example.
    rewrite Z.min_r, Z.max_r by lia. apply Hz. lia.
Qed.

Lemma shapes_survive_the_wire_witness :
  let cs := [([0; 3; -5; 0], 7, true); ([1; 0; 0; 0; 0; -1; 2; 0], 15, false)] in
  let L := log2_example in
  let frame := finish (write_stages (L := L) encoder_new (coded <$> cs)) in
  let bands := (fun c => (length c.1.1, l1 c.1.1)) <$> cs in
  zip_with (fun band st => (deindex band.1 (pulses st) (st_index st), gain st, negative st))
    bands (read_stages (L := L) (decoder_new (frame ++ [xff])) bands) = cs.
Proof.
  refine (shapes_survive_the_wire (L := log2_example)
    [([0; 3; -5; 0], 7, true); ([1; 0; 0; 0; 0; -1; 2; 0], 15, false)] [xff] _).
  apply Forall_cons; split; [|apply Forall_singleton].
  all: split; [vm_compute; lia|]; split; [vm_compute; lia|]; split; [vm_compute; reflexivity|lia].
Defined.

Lemma damaged_stage_is_a_codeword_witness :
  let st := (read_stage (L := log2_example) (decoder_new [xff; xff; xff]) 8 4).1 in
  0 <= st_index st < count 8 4 /\
  length (deindex 8 4 (st_index st)) = 8%nat /\ l1 (deindex 8 4 (st_index st)) = 4%nat.
Proof.
  refine (damaged_stage_is_a_codeword (L := log2_example) (decoder_new [xff; xff; xff]) 8 4 _ _ _);
    [vm_compute; lia|vm_compute; lia|vm_compute; reflexivity].
Defined.

Lemma plan_is_affordable_witness :
  plan (L := log2_example) 16 60 = [10; 3]%nat /\
  foldr Z.add 0 (stage_bits (L := log2_example) 16 <$> plan (L := log2_example) 16 60) <= 60.
Proof.
  destruct (plan_is_affordable (L := log2_example) 16 60) as (H1 & H2 & H3 & H4);
    [vm_compute; lia|lia|]. split; [vm_compute; reflexivity|exact H3].
Defined.
