(* ===== verification/Capability.v ===== *)
(** * Capability tokens and the meter

    [crates/rotelyx-capability/src/lib.rs] (signed tokens, tiers, the meter and
    its file) and [blind.rs] (blind tokens and the state a redeemer puts away).
    The signature schemes, base64url and the serialised form of the signed claims
    and of the meter's table are third-party code and arguments of the
    definitions. *)

From S2P Require Import Prelude.

Definition TOKEN_CONTEXT : bytes := String.list_byte_of_string "rotelyx mailbox capability v1".
Definition PERIOD_HOURS : Z := 24.

Inductive TokenError := Encoding | Malformed | BadSignature | Expired | NoIssuer.

Inductive Tier := Free | Plus | PlusPlus.

#[export] Instance Tier_eq_dec : EqDecision Tier.
Proof. solve_decision. Defined.

Record Limits := mkLimits {
  ttl_seconds : Z;
  max_per_tag : Z;
  max_fanout : Z;
  max_payload : Z;
  bytes_per_period : Z;
}.

Definition limits_of (t : Tier) : Limits :=
  match t with
  | Free => mkLimits (7 * 24 * 3600) 64 25 (64 * 1024) (64 * 1024 * 1024)
  | Plus => mkLimits (30 * 24 * 3600) 256 256 (8 * 1024 * 1024) (8 * 1024 * 1024 * 1024)
  | PlusPlus => mkLimits (90 * 24 * 3600) 256 1000 (8 * 1024 * 1024) (64 * 1024 * 1024 * 1024)
  end.

Definition tier_name (t : Tier) : string :=
  match t with Free => "free" | Plus => "plus" | PlusPlus => "plus++" end.

Record Claims := mkClaims {
  c_id : arr 16;
  c_tier : Tier;
  expires_hour : Z;
  quota_bytes : Z;
}.

Record Capability := mkCap { id : arr 16; tier : Tier; limits : Limits }.

(** [random] is what [getrandom::fill] wrote. *)
Definition free (random : arr 16) : Capability := mkCap random Free (limits_of Free).

(** ** [str::trim] on the bytes of a string *)

Definition is_ascii_space (b : Z) : bool := ((9 <=? b) && (b <=? 13)) || (b =? 32).

Definition is_space2 (b c : Z) : bool := (b =? 194) && ((c =? 133) || (c =? 160)).

Definition is_space3 (b c d : Z) : bool :=
  ((b =? 225) && (c =? 154) && (d =? 128))
  || ((b =? 226) && (c =? 128) && (((128 <=? d) && (d <=? 138)) || (d =? 168) || (d =? 169) || (d =? 175)))
  || ((b =? 226) && (c =? 129) && (d =? 159))
  || ((b =? 227) && (c =? 128) && (d =? 128)).

(** The list without its first character, when that is white space. *)
Definition space_first (l : bytes) : option bytes :=
  match l with
  | b :: r =>
      if is_ascii_space (b2z b) then Some r
      else match r with
      | c :: r =>
          if is_space2 (b2z b) (b2z c) then Some r
          else match r with
          | d :: r => if is_space3 (b2z b) (b2z c) (b2z d) then Some r else None
          | [] => None
          end
      | [] => None
      end
  | [] => None
  end.

(** The same at the end, on the reversed list. *)
Definition space_last (l : bytes) : option bytes :=
  match l with
  | d :: r =>
      if is_ascii_space (b2z d) then Some r
      else match r with
      | c :: r =>
          if is_space2 (b2z c) (b2z d) then Some r
          else match r with
          | b :: r => if is_space3 (b2z b) (b2z c) (b2z d) then Some r else None
          | [] => None
          end
      | [] => None
      end
  | [] => None
  end.

Fixpoint strip (step : bytes -> option bytes) (fuel : nat) (l : bytes) : bytes :=
  match fuel with
  | O => l
  | S fuel => match step l with Some r => strip step fuel r | None => l end
  end.

Definition trim (l : bytes) : bytes :=
  let l := strip space_first (length l) l in
  reverse (strip space_last (length l) (reverse l)).

(** ** Signed tokens *)

Class Base64 := { b64_decode : bytes -> option bytes; b64_encode : bytes -> bytes }.

(** [ed25519_dalek] and the [postcard] form of [Claims]. *)
Class TokenScheme := {
  VerifyingKey : Type;
  Signature : Type;
  key_from_bytes : arr 32 -> option VerifyingKey;
  signature_from_slice : bytes -> option Signature;
  signature_verifies : VerifyingKey -> bytes -> Signature -> bool;
  claims_from_bytes : bytes -> option Claims;
}.

Section Signed.
Context `{B64 : Base64, TS : TokenScheme}.

Definition verify (key : VerifyingKey) (token : rstring) (now_hour : Z)
    : Result Capability TokenError :=
  let? raw := ok_or Encoding (b64_decode (trim (rs token))) in
  if zlen raw <=? 64 then Err Malformed
  else
    let body := take (length raw - 64) raw in
    let sig := drop (length raw - 64) raw in
    let? signature := ok_or Malformed (signature_from_slice sig) in
    let signed := TOKEN_CONTEXT ++ body in
    if negb (signature_verifies key signed signature) then Err BadSignature
    else
      let? claims := ok_or Malformed (claims_from_bytes body) in
      if expires_hour claims <=? now_hour then Err Expired
      else
        let l := limits_of (c_tier claims) in
        let l := if 0 <? quota_bytes claims
                 then mkLimits (ttl_seconds l) (max_per_tag l) (max_fanout l) (max_payload l)
                        (quota_bytes claims)
                 else l in
        Ok (mkCap (c_id claims) (c_tier claims) l).

End Signed.

(** ** Blind tokens *)

Definition ID_BYTES : nat := 16.
Definition RANDOMIZER_BYTES : nat := 32.

Inductive BlindError :=
| BadKey
| BEncoding
| BMalformed
| BBadSignature (tier : string)
| Generate (e : string)
| Blinding (e : string).

(** [blind_rsa_signatures]: keys, verification and the client's blinding state. *)
Class BlindScheme := {
  PublicKey : Type;
  blind_verify : PublicKey -> bytes -> arr 32 -> arr 16 -> bool;
}.

Record BlindingResult := mkBlinding {
  blind_message : bytes;
  secret : bytes;
  msg_randomizer : option (arr 32);
}.

Record Redeemer := mkRedeemer { r_id : arr 16; blinding : BlindingResult }.

Definition redeemer_to_bytes (r : Redeemer) : bytes :=
  ab (r_id r)
  ++ match msg_randomizer (blinding r) with
     | Some m => ab m
     | None => replicate RANDOMIZER_BYTES zero_byte
     end
  ++ secret (blinding r).

Definition redeemer_from_bytes (l : bytes) : Result Redeemer BlindError :=
  if zlen l <=? Z.of_nat (ID_BYTES + RANDOMIZER_BYTES) then Err BMalformed
  else
    let i := take ID_BYTES l in
    let rest := drop ID_BYTES l in
    let randomizer := take RANDOMIZER_BYTES rest in
    let s := drop RANDOMIZER_BYTES rest in
    let? i := ok_or BMalformed (try_into ID_BYTES i) in
    let? m := ok_or BMalformed (try_into RANDOMIZER_BYTES randomizer) in
    Ok (mkRedeemer i (mkBlinding [] s (Some m))).

Section Blind.
Context `{B64 : Base64, BS : BlindScheme}.

Fixpoint first_verifying (keys : list (Tier * PublicKey)) (sig : bytes) (randomizer : arr 32)
    (i : arr 16) : option Tier :=
  match keys with
  | [] => None
  | (t, pk) :: keys =>
      if blind_verify pk sig randomizer i then Some t
      else first_verifying keys sig randomizer i
  end.

Definition verify_blind (keys : list (Tier * PublicKey)) (token : rstring)
    : Result Capability BlindError :=
  let? raw := ok_or BEncoding (b64_decode (trim (rs token))) in
  if zlen raw <=? Z.of_nat (ID_BYTES + RANDOMIZER_BYTES) then Err BMalformed
  else
    let rest := drop ID_BYTES raw in
    let sig := drop RANDOMIZER_BYTES rest in
    let? i := ok_or BMalformed (try_into ID_BYTES (take ID_BYTES raw)) in
    let? randomizer := ok_or BMalformed (try_into RANDOMIZER_BYTES (take RANDOMIZER_BYTES rest)) in
    match first_verifying keys sig randomizer i with
    | Some t => Ok (mkCap i t (limits_of t))
    | None => Err (BBadSignature (from_option (fun k => tier_name k.1) "any"%string (head keys)))
    end.

End Blind.

(** ** The meter *)

Record Spent := mkSpent { period : Z; spent_bytes : Z }.

Abbreviation Meter := (gmap (arr 16) Spent).

Inductive Charge :=
| Allowed (remaining : Z)
| OverQuota (limit used : Z).

Definition charge (m : Meter) (cap : Capability) (n now_hour : Z) : Charge * Meter :=
  let limit := bytes_per_period (limits cap) in
  if limit =? 0 then (Allowed u64_max, m)
  else
    let p := now_hour / PERIOD_HOURS in
    let entry := default (mkSpent 0 0) (m !! id cap) in
    let entry := if period entry =? p then entry else mkSpent p 0 in
    let would_be := sat_add64 (spent_bytes entry) n in
    if limit <? would_be then (OverQuota limit (spent_bytes entry), <[id cap := entry]> m)
    else (Allowed (limit - would_be), <[id cap := mkSpent (period entry) would_be]> m).

Definition sweep (m : Meter) (now_hour : Z) : Meter :=
  base.filter (fun kv => period kv.2 = now_hour / PERIOD_HOURS) m.

Definition swept (m : Meter) (now_hour : Z) : Z :=
  Z.of_nat (size m) - Z.of_nat (size (sweep m now_hour)).

(** The serialised table. *)
Class MeterFormat := {
  meter_encode : Meter -> bytes;
  meter_decode : bytes -> option Meter;
}.

(** [load], of what the file held, [None] when there is no file; an undecodable
    file is an error. *)
Definition load `{MeterFormat} (file : option bytes) (now_hour : Z) : Result Meter unit :=
  match file with
  | None => Ok ∅
  | Some l =>
      let? m := ok_or tt (meter_decode l) in
      Ok (sweep m now_hour)
  end.

(** ** A history of charges

    What the meter is asked for in order: charges, sweeps, and restarts that save
    the table and load it again. *)

Inductive op :=
| OCharge (cap : Capability) (n now_hour : Z)
| OSweep (now_hour : Z)
| ORestart (now_hour : Z).

Definition op_hour (o : op) : Z :=
  match o with OCharge _ _ t | OSweep t | ORestart t => t end.

(** A grant of bytes to a token in a period. *)
Record grant := mkGrant { g_id : arr 16; g_period : Z; g_bytes : Z }.

Section Runs.
Context `{MF : MeterFormat}.

(** One request: the new meter and the history with what it granted against a
    limit. *)
Definition step (st : Meter * list grant) (o : op) : Meter * list grant :=
  let '(m, h) := st in
  match o with
  | OCharge cap n t =>
      match charge m cap n t with
      | (Allowed _, m') =>
          (m', if bytes_per_period (limits cap) =? 0 then h
               else h ++ [mkGrant (id cap) (t / PERIOD_HOURS) n])
      | (OverQuota _ _, m') => (m', h)
      end
  | OSweep t => (sweep m t, h)
  | ORestart t => (match load (Some (meter_encode m)) t with Ok m' => m' | Err _ => m end, h)
  end.

Definition run (os : list op) : Meter * list grant := foldl step (∅, []) os.

Definition granted (h : list grant) (i : arr 16) (p : Z) : Z :=
  foldr (fun g s => (if bool_decide (g_id g = i /\ g_period g = p) then g_bytes g else 0) + s) 0 h.

End Runs.

(** ** Lemmas *)

Lemma granted_app h k i p : granted (h ++ k) i p = granted h i p + granted k i p.
Proof. induction h as [|g h IH]; simpl; [lia|]. rewrite IH. lia. Qed.

Lemma granted_none h i p : Forall (fun g => g_period g <> p) h -> granted h i p = 0.
Proof.
  induction 1 as [|g h Hg _ IH]; [done|]. simpl. rewrite bool_decide_eq_false_2 by naive_solver.
  by rewrite IH.
Qed.

(** What an entry has spent in period [p]. *)
Definition spent_in (s : option Spent) (p : Z) : Z :=
  match s with
  | Some s => if period s =? p then spent_bytes s else 0
  | None => 0
  end.

(** The table holds, for the current period and those to come, what the history
    granted. *)
Record tracks (m : Meter) (h : list grant) (p : Z) : Prop := {
  tk_past : Forall (fun g => g_period g <= p) h;
  tk_entry : forall i s, m !! i = Some s -> period s <= p;
  tk_spent : forall i, spent_in (m !! i) p = granted h i p;
}.

Lemma tracks_later m h p q : tracks m h p -> p <= q -> tracks m h q.
Proof.
  intros [Hp He Hs] Hq. destruct (decide (p = q)) as [<-|Hne]; [done|]. split.
  - eapply Forall_impl; [exact Hp|]. simpl. lia.
  - intros i s Hi. pose proof (He i s Hi). lia.
  - intros i. rewrite granted_none.
    + unfold spent_in. destruct (m !! i) as [s|] eqn:Hi; [|done].
      pose proof (He i s Hi). case_cmp; lia.
    + eapply Forall_impl; [exact Hp|]. simpl. lia.
Qed.

Lemma sweep_lookup m t i :
  sweep m t !! i = (m !! i) ≫= (fun s => if period s =? t / PERIOD_HOURS then Some s else None).
Proof.
  unfold sweep. destruct (m !! i) as [s|] eqn:Hi; simpl.
  - destruct (Z.eqb_spec (period s) (t / PERIOD_HOURS)).
    + by apply map_lookup_filter_Some.
    + apply map_lookup_filter_None. right. naive_solver.
  - apply map_lookup_filter_None. by left.
Qed.

Lemma tracks_sweep m h t : tracks m h (t / PERIOD_HOURS) -> tracks (sweep m t) h (t / PERIOD_HOURS).
Proof.
  intros [Hp He Hs]. split; [done| |].
  - intros i s Hi. rewrite sweep_lookup in Hi. apply bind_Some in Hi as (s' & Hi & Hk).
    case_match; simplify_eq. by eapply He.
  - intros i. rewrite <- Hs, sweep_lookup. destruct (m !! i) as [s|]; [|done]. simpl.
    destruct (period s =? t / PERIOD_HOURS) eqn:E; simpl; by rewrite ?E.
Qed.

Lemma charge_spec m h cap n t :
  tracks m h (t / PERIOD_HOURS) -> 0 <= n ->
  0 < bytes_per_period (limits cap) < u64_max ->
  (forall i, granted h i (t / PERIOD_HOURS) <= u64_max) ->
  let used := granted h (id cap) (t / PERIOD_HOURS) in
  let limit := bytes_per_period (limits cap) in
  charge m cap n t =
    ((if used + n <=? limit then Allowed (limit - (used + n)) else OverQuota limit used),
     <[id cap := mkSpent (t / PERIOD_HOURS) (if used + n <=? limit then used + n else used)]> m).
Proof.
  intros Ht Hn Hl Hmax. cbv zeta. pose proof (tk_spent _ _ _ Ht (id cap)) as Hs.
  unfold charge. destruct (Z.eqb_spec (bytes_per_period (limits cap)) 0); [lia|].
  assert ((if period (default (mkSpent 0 0) (m !! id cap)) =? t / PERIOD_HOURS
           then default (mkSpent 0 0) (m !! id cap) else mkSpent (t / PERIOD_HOURS) 0) =
          mkSpent (t / PERIOD_HOURS) (granted h (id cap) (t / PERIOD_HOURS))) as ->.
  { rewrite <- Hs. unfold spent_in. destruct (m !! id cap) as [[p b]|]; simpl.
    - by destruct (Z.eqb_spec p (t / PERIOD_HOURS)) as [->|].
    - by destruct (t / PERIOD_HOURS). }
  cbn [spent_bytes period]. specialize (Hmax (id cap)). unfold sat_add64.
  destruct (Z.leb_spec (granted h (id cap) (t / PERIOD_HOURS) + n) (bytes_per_period (limits cap))).
  - rewrite Z.min_r by lia. destruct (Z.ltb_spec (bytes_per_period (limits cap))
      (granted h (id cap) (t / PERIOD_HOURS) + n)); [lia|done].
  - destruct (Z.ltb_spec (bytes_per_period (limits cap))
      (Z.min u64_max (granted h (id cap) (t / PERIOD_HOURS) + n))); [done|lia].
Qed.

Section Trace.
Context `{MF : MeterFormat}.
Context (Hformat : forall m : Meter, meter_decode (meter_encode m) = Some m).

(** Requests a server makes: byte counts that are lengths, limits below the
    largest [u64], a clock that does not go back. *)
Definition op_ok (o : op) : Prop :=
  match o with
  | OCharge cap n _ => 0 <= n /\ 0 <= bytes_per_period (limits cap) < u64_max
  | _ => True
  end.

Fixpoint hours_from (t : Z) (os : list op) : Prop :=
  match os with
  | [] => True
  | o :: os => t <= op_hour o /\ hours_from (op_hour o) os
  end.

Definition last_hour (t : Z) (os : list op) : Z := foldl (fun _ o => op_hour o) t os.

Record metered (st : Meter * list grant) (t : Z) : Prop := {
  me_tracks : tracks st.1 st.2 (t / PERIOD_HOURS);
  me_max : forall i p, granted st.2 i p <= u64_max;
}.

Lemma step_metered st t o :
  metered st t -> t <= op_hour o -> op_ok o -> metered (step st o) (op_hour o).
Proof.
  destruct st as [m h]. intros [Ht Hm] Hle Hok. simpl in Ht, Hm.
  apply (tracks_later m h _ (op_hour o / PERIOD_HOURS)) in Ht;
    [|apply Z.div_le_mono; [done|lia]].
  destruct o as [cap n now|now|now]; cbn [op_hour op_ok] in *.
  - destruct Hok as [Hn Hl]. unfold step. destruct (Z.eqb_spec (bytes_per_period (limits cap)) 0) as [E|].
    { unfold charge. rewrite E. simpl. by split. }
    rewrite (charge_spec m h cap n now Ht Hn) by (done || lia).
    set (p := now / PERIOD_HOURS) in *. set (used := granted h (id cap) p).
    assert (Hins : forall h' b, tracks m h p -> Forall (fun g => g_period g <= p) h' ->
      (forall i, granted h' i p = if decide (i = id cap) then b else granted h i p) ->
      tracks (<[id cap := mkSpent p b]> m) h' p).
    { intros h' b [Hp He Hs] Hp' Hg. split; [done| |].
      - intros i s. destruct (decide (i = id cap)) as [->|].
        + rewrite lookup_insert_eq. intros [= <-]. done.
        + rewrite lookup_insert_ne by done. apply He.
      - intros i. rewrite Hg. case_decide as Hi; [subst i|].
        + rewrite lookup_insert_eq. simpl. by rewrite Z.eqb_refl.
        + rewrite lookup_insert_ne by done. apply Hs. }
    destruct (Z.leb_spec (used + n) (bytes_per_period (limits cap))).
    + assert (forall i q, granted (h ++ [mkGrant (id cap) p n]) i q =
        granted h i q + (if bool_decide (id cap = i /\ p = q) then n else 0)) as Hg.
      { intros i q. rewrite granted_app. simpl. lia. }
      split; cbn [fst snd].
      * apply Hins; [done| |].
        -- apply Forall_app. split; [apply Ht|]. by apply Forall_singleton.
        -- intros i. rewrite Hg. case_decide as Hi.
           ++ subst i. rewrite bool_decide_eq_true_2 by done. done.
           ++ rewrite bool_decide_eq_false_2 by naive_solver. lia.
      * intros i q. rewrite Hg. pose proof (Hm i q).
        destruct (bool_decide_reflect (id cap = i /\ p = q)) as [[<- <-]|]; [|lia].
        fold used. lia.
    + split; cbn [fst snd]; [|done]. apply Hins; [done|apply Ht|].
      intros i. case_decide as Hi; [by subst|done].
  - split; [by apply tracks_sweep|done].
  - unfold step, load. rewrite Hformat. simpl. split; [by apply tracks_sweep|done].
Qed.

Lemma run_metered os t :
  hours_from t os -> Forall op_ok os -> metered (run os) (last_hour t os).
Proof.
  intros Hh Hok. unfold run.
  assert (metered (∅, []) t) as H0.
  { split; [|done]. split; [constructor| |]; intros i; [|done]. by intros s. }
  revert H0 Hh. generalize (∅ : Meter, @nil grant) as st. revert t.
  induction Hok as [|o os Ho _ IH]; intros t st Hst Hh; [done|].
  destruct Hh as [Hle Hh]. simpl. apply IH; [|done]. by apply (step_metered st t).
Qed.

End Trace.

(** ** Properties *)

Section Properties.
Context `{MF : MeterFormat}.

(** C27: an allowance is what the history leaves of it.  After any sequence of
    charges, sweeps and restarts, on a clock that does not go back, a metered
    charge is allowed exactly when everything granted to that token in the current
    period plus this charge fits its limit, it reports exactly what is left, and a
    refusal reports exactly what was granted; no other token's counter changes.
    So no order of requests, and no restart, buys a token more than its limit in
    a period. *)
Theorem allowance_is_kept os cap n t now :
  (forall m : Meter, meter_decode (meter_encode m) = Some m) ->
  hours_from t os -> Forall op_ok os -> last_hour t os <= now ->
  0 <= n -> 0 < bytes_per_period (limits cap) < u64_max ->
  let '(m, h) := run os in
  let used := granted h (id cap) (now / PERIOD_HOURS) in
  let limit := bytes_per_period (limits cap) in
  (charge m cap n now).1 =
    (if used + n <=? limit then Allowed (limit - (used + n)) else OverQuota limit used) /\
  (forall i, i <> id cap -> (charge m cap n now).2 !! i = m !! i).
Proof.
  intros Hf Hh Hok Hnow Hn Hl. destruct (run_metered Hf os t Hh Hok) as [Ht Hm].
  destruct (run os) as [m h]. simpl in Ht, Hm.
  apply (tracks_later m h _ (now / PERIOD_HOURS)) in Ht; [|apply Z.div_le_mono; [done|lia]].
  cbv zeta. rewrite (charge_spec m h cap n now Ht Hn Hl) by done. split; [done|].
  intros i Hi. by apply lookup_insert_ne.
Qed.

End Properties.

Section SignedProperties.
Context `{B64 : Base64, TS : TokenScheme}.

(** A token grants what was signed.  [verify] succeeds exactly on a token that
    decodes to a body and a 64-byte signature of the token context and that body,
    whose claims are read from that body and have not expired; what it grants is
    the claimed tier with that tier's limits, the metered allowance alone replaced
    by a claimed one. *)
Theorem token_grants_what_was_signed key token now cap :
  verify key token now = Ok cap <->
  exists body sig signature claims,
    b64_decode (trim (rs token)) = Some (body ++ sig) /\ body <> [] /\ zlen sig = 64 /\
    signature_from_slice sig = Some signature /\
    signature_verifies key (TOKEN_CONTEXT ++ body) signature = true /\
    claims_from_bytes body = Some claims /\ now < expires_hour claims /\
    id cap = c_id claims /\ tier cap = c_tier claims /\
    let l := limits_of (c_tier claims) in
    limits cap = mkLimits (ttl_seconds l) (max_per_tag l) (max_fanout l) (max_payload l)
      (if 0 <? quota_bytes claims then quota_bytes claims else bytes_per_period l).
Proof.
  unfold verify. destruct (b64_decode (trim (rs token))) as [raw|]; cbn [ok_or rbind].
  2:{ split; [done|]. by intros (? & ? & ? & ? & ? & _). }
  destruct (Z.leb_spec (zlen raw) 64) as [Hlen|Hlen].
  { split; [done|]. intros (body & sig & ? & ? & [= ->] & Hb & Hs & _).
    rewrite zlen_app in Hlen. destruct body; [done|]. rewrite zlen_cons in Hlen.
    pose proof (zlen_nonneg body). lia. }
  assert (raw = take (length raw - 64) raw ++ drop (length raw - 64) raw) as Hraw
    by (by rewrite take_drop).
  assert (zlen (drop (length raw - 64) raw) = 64) as Hsig by (unfold zlen in *; rewrite length_drop; lia).
  assert (forall body sig, raw = body ++ sig -> zlen sig = 64 ->
    body = take (length raw - 64) raw /\ sig = drop (length raw - 64) raw) as Hsplit.
  { intros body sig -> Hs. rewrite length_app.
    replace (length body + length sig - 64)%nat with (length body) by (unfold zlen in Hs; lia).
    by rewrite take_app_length, drop_app_length. }
  assert (take (length raw - 64) raw <> []) as Hbody.
  { intros E%(f_equal length). rewrite length_take in E. unfold zlen in Hlen. change (length []) with 0%nat in E. lia. }
  generalize dependent (take (length raw - 64) raw). intros body.
  generalize dependent (drop (length raw - 64) raw). intros sig Hs Hraw Hsplit Hbody.
  split.
  - destruct (signature_from_slice sig) as [s|] eqn:Es; [|done]. cbn [ok_or rbind].
    destruct (signature_verifies key (TOKEN_CONTEXT ++ body) s) eqn:Ev; [|done]. cbn [negb].
    destruct (claims_from_bytes body) as [c|] eqn:Ec; [|done]. cbn [ok_or rbind].
    destruct (Z.leb_spec (expires_hour c) now); [done|]. intros [= <-].
    exists body, sig, s, c. subst raw. repeat (split; [done|]). simpl.
    destruct (0 <? quota_bytes c); [done|]. by destruct (limits_of (c_tier c)).
  - intros (body' & sig' & s & c & [= Hraw'] & _ & Hs' & Es & Ev & Ec & Hexp & Hid & Htier & Hlim).
    destruct (Hsplit body' sig' Hraw' Hs') as [-> ->].
    rewrite Es. cbn [ok_or rbind]. rewrite Ev. cbn [negb]. rewrite Ec. cbn [ok_or rbind].
    destruct (Z.leb_spec (expires_hour c) now); [lia|]. destruct cap as [i t l]. simpl in *.
    subst i t l. do 2 f_equal. destruct (0 <? quota_bytes c); [done|]. by destruct (limits_of (c_tier c)).
Qed.

End SignedProperties.

Section BlindProperties.
Context `{B64 : Base64, BS : BlindScheme}.

Lemma first_verifying_Some keys sig m i t :
  first_verifying keys sig m i = Some t ->
  exists pk, (t, pk) ∈ keys /\ blind_verify pk sig m i = true.
Proof.
  induction keys as [|[t' pk] keys IH]; simpl; [done|].
  destruct (blind_verify pk sig m i) eqn:E.
  - intros [= ->]. exists pk. split; [apply list_elem_of_here|done].
  - intros Hf. destruct (IH Hf) as (pk' & Hin & Hv). exists pk'.
    split; [by apply list_elem_of_further|done].
Qed.

Lemma first_verifying_None keys sig m i :
  first_verifying keys sig m i = None <->
  (forall t pk, (t, pk) ∈ keys -> blind_verify pk sig m i = false).
Proof.
  induction keys as [|[t' pk'] keys IH]; simpl.
  - split; [|done]. intros _ t pk Hin. by apply not_elem_of_nil in Hin.
  - destruct (blind_verify pk' sig m i) eqn:E.
    + split; [done|]. intros Hall. rewrite (Hall t' pk') in E; [done|apply list_elem_of_here].
    + rewrite IH. split.
      * intros Hall t pk [[= -> ->]|Hin]%elem_of_cons; [done|by eapply Hall].
      * intros Hall t pk Hin. eapply Hall. by apply list_elem_of_further.
Qed.

(** The tier of a blind token is the key that signed it.  When a token's
    signature verifies under at most one configured tier, the server's answer to
    it is a capability exactly when some configured key verifies it, the
    capability is that key's tier with that tier's limits and the token's own id,
    and trying the keys in any other order gives the same capability. *)
Theorem tier_is_the_key keys keys' token i m sig :
  b64_decode (trim (rs token)) = Some (ab i ++ ab m ++ sig) -> sig <> [] ->
  (forall t t' pk pk', (t, pk) ∈ keys -> (t', pk') ∈ keys ->
    blind_verify pk sig m i = true -> blind_verify pk' sig m i = true -> t = t') ->
  keys ≡ₚ keys' ->
  rok (verify_blind keys token) = rok (verify_blind keys' token) /\
  (forall cap, verify_blind keys token = Ok cap <->
    exists t pk, (t, pk) ∈ keys /\ blind_verify pk sig m i = true /\
      cap = mkCap i t (limits_of t)).
Proof.
  intros Hraw Hsig Huniq Hperm.
  assert (forall ks, verify_blind ks token =
    match first_verifying ks sig m i with
    | Some t => Ok (mkCap i t (limits_of t))
    | None => Err (BBadSignature (from_option (fun k => tier_name k.1) "any"%string (head ks)))
    end) as Hv.
  { intros ks. unfold verify_blind, ID_BYTES, RANDOMIZER_BYTES. rewrite Hraw. cbn [ok_or rbind].
    rewrite (proj2 (Z.leb_gt _ _)).
    2:{ rewrite !zlen_app, !zlen_ab. destruct sig; [done|]. rewrite zlen_cons.
        pose proof (zlen_nonneg sig). lia. }
    rewrite (take_ab i), (drop_ab i), (take_ab m), (drop_ab m).
    rewrite (try_into_ab i), (try_into_ab m). done. }
  assert (forall t, first_verifying keys sig m i = Some t <->
    exists pk, (t, pk) ∈ keys /\ blind_verify pk sig m i = true) as Hk.
  { intros t. split; [apply first_verifying_Some|]. intros (pk & Hin & Hpk).
    destruct (first_verifying keys sig m i) as [t'|] eqn:E.
    - apply first_verifying_Some in E as (pk' & Hin' & Hpk'). f_equal. by eapply Huniq.
    - rewrite first_verifying_None in E. by rewrite (E t pk Hin) in Hpk. }
  split.
  - rewrite !Hv. destruct (first_verifying keys sig m i) as [t|] eqn:E.
    + destruct (first_verifying keys' sig m i) as [t'|] eqn:E'.
      * apply first_verifying_Some in E' as (pk' & Hin' & Hpk'). rewrite <- Hperm in Hin'.
        destruct (proj1 (Hk t) eq_refl) as (pk & Hin & Hpk).
        by rewrite (Huniq t t' pk pk').
      * rewrite first_verifying_None in E'. destruct (proj1 (Hk t) eq_refl) as (pk & Hin & Hpk).
        rewrite Hperm in Hin. by rewrite (E' _ _ Hin) in Hpk.
    + destruct (first_verifying keys' sig m i) as [t'|] eqn:E'; [|done].
      apply first_verifying_Some in E' as (pk' & Hin' & Hpk'). rewrite <- Hperm in Hin'.
      rewrite first_verifying_None in E. by rewrite (E _ _ Hin') in Hpk'.
  - intros cap. rewrite Hv. split.
    + destruct (first_verifying keys sig m i) as [t|] eqn:E; [|done]. intros [= <-].
      destruct (proj1 (Hk t) eq_refl) as (pk & Hin & Hpk). by exists t, pk.
    + intros (t & pk & Hin & Hpk & ->). by rewrite (proj2 (Hk t)) by eauto.
Qed.

End BlindProperties.

(** An order in flight can be put away.  A redeemer whose blinding kept its
    randomizer and its secret is restored from its bytes with the same id,
    randomizer and secret, the blinded message alone being dropped; and every
    string of bytes that restores is written out again unchanged. *)
Theorem redeemer_roundtrip r m :
  msg_randomizer (blinding r) = Some m -> secret (blinding r) <> [] ->
  redeemer_from_bytes (redeemer_to_bytes r) =
    Ok (mkRedeemer (r_id r) (mkBlinding [] (secret (blinding r)) (Some m))) /\
  (forall l r', redeemer_from_bytes l = Ok r' -> redeemer_to_bytes r' = l).
Proof.
  intros Hm Hs. unfold redeemer_to_bytes, redeemer_from_bytes, ID_BYTES, RANDOMIZER_BYTES in *.
  split.
  - rewrite Hm. rewrite (proj2 (Z.leb_gt _ _)).
    2:{ rewrite !zlen_app, !zlen_ab. destruct (secret (blinding r)) as [|b0 l0]; [done|]. rewrite zlen_cons.
        pose proof (zlen_nonneg l0). lia. }
    by rewrite (take_ab (r_id r)), (drop_ab (r_id r)), (take_ab m), (drop_ab m),
      (try_into_ab (r_id r)), (try_into_ab m).
  - intros l r' Hl. destruct (zlen l <=? Z.of_nat (16 + 32)); [done|].
    apply rbind_ok in Hl as (i & Hi & Hl). apply rbind_ok in Hl as (m' & Hm' & [= <-]).
    destruct (try_into 16 (take 16 l)) as [i'|] eqn:Ei; [|done].
    destruct (try_into 32 (take 32 (drop 16 l))) as [m2|] eqn:Em; [|done].
    simpl in Hi, Hm'. injection Hi as ->. injection Hm' as ->.
    apply try_into_Some in Ei. apply try_into_Some in Em. cbn [r_id blinding msg_randomizer secret].
    by rewrite Ei, Em, take_drop, take_drop.
Qed.

(** ** Witnesses *)

Module CapabilityExample.

(** A table as the bits of its standard encoding. *)
Fixpoint bits_of_positive (p : positive) : bytes :=
  match p with
  | xI p => x01 :: bits_of_positive p
  | xO p => x00 :: bits_of_positive p
  | xH => []
  end.

Fixpoint positive_of_bits (l : bytes) : positive :=
  match l with
  | x01 :: l => xI (positive_of_bits l)
  | _ :: l => xO (positive_of_bits l)
  | [] => xH
  end.

Lemma positive_of_bits_of p : positive_of_bits (bits_of_positive p) = p.
Proof. induction p; simpl; by f_equal. Qed.

Definition to_pairs (m : Meter) : list (arr 16 * (Z * Z)) :=
  (fun kv => (kv.1, (period kv.2, spent_bytes kv.2))) <$> map_to_list m.

Definition of_pairs (l : list (arr 16 * (Z * Z))) : Meter :=
  list_to_map ((fun kv => (kv.1, mkSpent kv.2.1 kv.2.2)) <$> l).

#[export] Instance format : MeterFormat := {|
  meter_encode m := bits_of_positive (encode (to_pairs m));
  meter_decode l := of_pairs <$> decode (positive_of_bits l);
|}.

Lemma format_ok (m : Meter) : meter_decode (meter_encode m) = Some m.
Proof.
  simpl. rewrite positive_of_bits_of, decode_encode. simpl. f_equal. unfold of_pairs, to_pairs.
  rewrite <- list_fmap_compose. rewrite <- (list_to_map_to_list m) at 2. f_equal.
  rewrite <- (list_fmap_id (map_to_list m)) at 2. apply list_fmap_ext. by intros _ [k [p b]] _.
Qed.

#[export] Instance base64 : Base64 := {| b64_decode l := Some l; b64_encode l := l |}.

#[export] Instance blind : BlindScheme := {|
  PublicKey := byte;
  blind_verify pk sig _ _ := bool_decide (sig = [pk]);
|}.

Definition holder : arr 16 := be_arr 16 7.
Definition cap : Capability := free holder.
Definition trace : list op :=
  [OCharge cap 60000000 5; ORestart 6; OCharge cap 60000000 7; OSweep 8; OCharge cap 5000000 9].

Definition token : rstring :=
  RString (ab holder ++ ab (be_arr 32 1) ++ [x41]) ltac:(vm_compute; exact I).

End CapabilityExample.

Lemma allowance_is_kept_witness :
  let '(m, h) := run (MF := CapabilityExample.format) CapabilityExample.trace in
  let used := granted h CapabilityExample.holder (10 / PERIOD_HOURS) in
  (charge m CapabilityExample.cap 4000000 10).1 =
    (if used + 4000000 <=? 67108864 then Allowed (67108864 - (used + 4000000))
     else OverQuota 67108864 used) /\
  (forall i, i <> CapabilityExample.holder ->
    (charge m CapabilityExample.cap 4000000 10).2 !! i = m !! i).
Proof.
  refine (allowance_is_kept (MF := CapabilityExample.format) CapabilityExample.trace
    CapabilityExample.cap 4000000 0 10 CapabilityExample.format_ok _ _ _ _ _).
  - simpl. lia.
  - repeat constructor; simpl; unfold u64_max; lia.
  - vm_compute. done.
  - lia.
  - simpl. unfold u64_max. lia.
Defined.

Lemma tier_is_the_key_witness :
  verify_blind (B64 := CapabilityExample.base64) (BS := CapabilityExample.blind)
    [(PlusPlus, x42); (Plus, x41)] CapabilityExample.token =
  Ok (mkCap CapabilityExample.holder Plus (limits_of Plus)).
Proof.
  refine (proj2 (proj2 (tier_is_the_key (B64 := CapabilityExample.base64)
    (BS := CapabilityExample.blind)
    [(PlusPlus, x42); (Plus, x41)] [(Plus, x41); (PlusPlus, x42)] CapabilityExample.token
    CapabilityExample.holder (be_arr 32 1) [x41] _ _ _ _) _) _).
  - vm_compute. reflexivity.
  - done.
  - intros t t' pk pk' [[= -> ->]|[[= -> ->]|H%not_elem_of_nil]%elem_of_cons]%elem_of_cons
      [[= -> ->]|[[= -> ->]|H'%not_elem_of_nil]%elem_of_cons]%elem_of_cons; done.
  - apply perm_swap.
  - exists Plus, x41. split; [by apply list_elem_of_further, list_elem_of_here|]. by split.
Defined.

Lemma redeemer_roundtrip_witness :
  let r := mkRedeemer (be_arr 16 3) (mkBlinding [x01] [x05; x06] (Some (be_arr 32 9))) in
  redeemer_from_bytes (redeemer_to_bytes r) =
    Ok (mkRedeemer (be_arr 16 3) (mkBlinding [] [x05; x06] (Some (be_arr 32 9)))).
Proof.
  refine (proj1 (redeemer_roundtrip
    (mkRedeemer (be_arr 16 3) (mkBlinding [x01] [x05; x06] (Some (be_arr 32 9)))) (be_arr 32 9)
    _ _)).
  - reflexivity.
  - done.
Defined.
