(* ===== verification/Hybrid.v ===== *)
(** * Hybrid post-quantum secrets: bindings, wraps and circuit descriptors

    [crates/rotelyx-crypto/src/hybrid.rs] (the binding of a pre-shared key, a
    group secret wrapped and signed for one member) and
    [crates/rotelyx-crypto/src/circuit.rs] (the descriptor a first relay carries
    for an exit relay).  X-Wing, XChaCha20-Poly1305, BLAKE3 and Ed25519 are
    third-party: interfaces with the laws the code relies on.  What the code draws
    from the operating system is an argument. *)

From S2P Require Import Prelude Crypto.

(** ** Key encapsulation and signatures *)

(** X-Wing's sizes, as [hybrid.rs] states them. *)
Definition CIPHERTEXT_LEN : nat := 1120.

Class XWing := {
  PublicKey : Type;
  SecretKey : Type;
  public : SecretKey -> PublicKey;
  (** the ciphertext and the shared secret, from the randomness drawn *)
  encapsulate : PublicKey -> bytes -> arr CIPHERTEXT_LEN * arr 32;
  (** infallible: a ciphertext for another key gives an unrelated secret *)
  decapsulate : SecretKey -> arr CIPHERTEXT_LEN -> arr 32;
}.

Class XWingLaws `(XWing) : Prop :=
  decapsulate_encapsulate : forall sk r,
    decapsulate sk (encapsulate (public sk) r).1 = (encapsulate (public sk) r).2.

Class Ed25519 := {
  valid_key : arr 32 -> bool;
  verify_strict : arr 32 -> bytes -> arr 64 -> bool;
}.

Inductive HybridError :=
| BadPublicKey | BadSecretKey | BadCiphertext | Decapsulation | Unsigned | WrongSender | Entropy.

(** ** Bindings *)

Definition PSK_CONTEXT : string := "rotelyx hybrid-pq psk v1".
Definition WRAP_CONTEXT : string := "rotelyx pq group secret wrap v1".
Definition WRAP_LABEL : bytes := String.list_byte_of_string "rotelyx pq group secret wrap v2".

Definition be64 (z : Z) : bytes := be_bytes 8 z.

Definition psk_binding (label group_id : bytes) (epoch : Z) : bytes :=
  label ++ group_id ++ be64 epoch.

(** What [derive_psk] hashes. *)
Definition psk_input (secret : arr 32) (binding : bytes) : bytes :=
  ab secret ++ be64 (zlen binding) ++ binding.

Definition derive_psk `{Blake3} (secret : arr 32) (binding : bytes) : arr 32 :=
  blake3_derive PSK_CONTEXT (psk_input secret binding).

Definition to_psk_bytes `{Blake3} (secret : arr 32) (binding : bytes) : arr 32 :=
  derive_psk secret binding.

Record PqBinding := mkBinding {
  group_id : bytes;
  epoch : Z;
  recipient : bytes;
  sender : bytes;
}.

#[export] Instance PqBinding_eq_dec : EqDecision PqBinding.
Proof. solve_decision. Defined.

Definition binding_new (group_id : bytes) (epoch : Z) (recipient sender : bytes) : PqBinding :=
  mkBinding group_id epoch recipient sender.

Definition to_aad (b : PqBinding) : bytes :=
  be64 (zlen WRAP_LABEL) ++ WRAP_LABEL
  ++ be64 (zlen (group_id b)) ++ group_id b
  ++ be64 (epoch b)
  ++ be64 (zlen (recipient b)) ++ recipient b
  ++ be64 (zlen (sender b)) ++ sender b.

(** ** Wraps *)

Record WrappedPqSecret := mkWrapped {
  kem : arr CIPHERTEXT_LEN;
  nonce : arr 24;
  sealed : bytes;
  signature : bytes;
}.

Definition WRAPPED_SECRET_LEN : nat := CIPHERTEXT_LEN + 24 + 32 + 16.

Definition body_bytes (w : WrappedPqSecret) : bytes := ab (kem w) ++ ab (nonce w) ++ sealed w.

Definition wrapped_to_bytes (w : WrappedPqSecret) : bytes := body_bytes w ++ signature w.

Definition wrapped_from_bytes (l : bytes) : Result WrappedPqSecret HybridError :=
  if zlen l <? Z.of_nat WRAPPED_SECRET_LEN then Err BadCiphertext
  else
    let body := take WRAPPED_SECRET_LEN l in
    let sig := drop WRAPPED_SECRET_LEN l in
    let k := take CIPHERTEXT_LEN body in
    let rest := drop CIPHERTEXT_LEN body in
    let n := take 24 rest in
    let s := drop 24 rest in
    let? k := ok_or BadCiphertext (try_into CIPHERTEXT_LEN k) in
    let? n := ok_or BadCiphertext (try_into 24 n) in
    Ok (mkWrapped k n s sig).

(** What a wrap's signature covers. *)
Definition signing_payload (b : PqBinding) (w : WrappedPqSecret) : bytes :=
  let aad := to_aad b in
  let body := body_bytes w in
  be64 (zlen aad) ++ aad ++ be64 (zlen body) ++ body.

Section Wraps.
Context `{BL : Blake3, AE : Aead, XW : XWing, ED : Ed25519}.

Definition derive_key (kem_secret : arr 32) (context : string) : arr 32 :=
  blake3_derive context (ab kem_secret).

Definition wrapping_key (kem_secret : arr 32) : arr 32 :=
  blake3_derive WRAP_CONTEXT (ab kem_secret).

(** [random] and [fresh] are what the encapsulation and [getrandom::fill] drew. *)
Definition wrap_for (secret : arr 32) (to : PublicKey) (b : PqBinding) (random : bytes)
    (fresh : arr 24) : Result WrappedPqSecret HybridError :=
  let '(k, kem_secret) := encapsulate to random in
  let key := wrapping_key kem_secret in
  let? s := ok_or BadCiphertext (aead_seal (ab key) (ab fresh) (to_aad b) (ab secret)) in
  Ok (mkWrapped k fresh s []).

Definition wrap_and_sign (secret : arr 32) (to : PublicKey) (b : PqBinding)
    (sign : bytes -> option bytes) (random : bytes) (fresh : arr 24)
    : Result WrappedPqSecret HybridError :=
  let? w := wrap_for secret to b random fresh in
  let? sig := ok_or BadCiphertext (sign (signing_payload b w)) in
  Ok (mkWrapped (kem w) (nonce w) (sealed w) sig).

Definition unwrap_pq (sk : SecretKey) (w : WrappedPqSecret) (b : PqBinding)
    : Result (arr 32) HybridError :=
  let key := wrapping_key (decapsulate sk (kem w)) in
  let? plain := ok_or BadCiphertext (aead_open (ab key) (ab (nonce w)) (to_aad b) (sealed w)) in
  ok_or BadCiphertext (try_into 32 plain).

Definition unwrap_pq_signed (sk : SecretKey) (w : WrappedPqSecret) (b : PqBinding)
    : Result (arr 32) HybridError :=
  match signature w with
  | [] => Err Unsigned
  | _ =>
      let? key := ok_or WrongSender (try_into 32 (sender b)) in
      if negb (valid_key key) then Err WrongSender
      else
        let? sig := ok_or WrongSender (try_into 64 (signature w)) in
        if negb (verify_strict key (signing_payload b w) sig) then Err WrongSender
        else unwrap_pq sk w b
  end.

End Wraps.

(** ** Circuit descriptors *)

Definition CIRCUIT_CONTEXT : string := "rotelyx relay circuit v1".
Definition CIRCUIT_LABEL : bytes := String.list_byte_of_string "rotelyx relay circuit v1".
Definition NEXT_RELAY_LEN : nat := 96.
Definition CIRCUIT_BODY_LEN : nat := 32 + 32 + NEXT_RELAY_LEN + 8.
Definition SEALED_HOP_LEN : nat := CIPHERTEXT_LEN + 24 + CIRCUIT_BODY_LEN + 16.

Record SealedHop := mkSealedHop {
  h_kem : arr CIPHERTEXT_LEN;
  h_nonce : arr 24;
  h_sealed : bytes;
}.

Record Hop := mkHop {
  destination : arr 32;
  next_relay : option rstring;
  return_key : arr 32;
  hour : Z;
}.

Definition circuit_binding (exit_id : arr 32) (h : Z) : bytes :=
  be64 (zlen CIRCUIT_LABEL) ++ CIRCUIT_LABEL
  ++ be64 (zlen (ab exit_id)) ++ ab exit_id ++ be64 h.

(** The padded next relay, or a refusal of an address that cannot be carried. *)
Definition padded_next (url : option rstring) : Result bytes HybridError :=
  match url with
  | None => Ok (replicate NEXT_RELAY_LEN zero_byte)
  | Some u =>
      if bool_decide (rs u = []) || (Z.of_nat NEXT_RELAY_LEN <? zlen (rs u)) then Err BadCiphertext
      else Ok (rs u ++ replicate (NEXT_RELAY_LEN - length (rs u)) zero_byte)
  end.

Definition hop_body (hop : Hop) (next : bytes) : bytes :=
  ab (destination hop) ++ ab (return_key hop) ++ next ++ be64 (hour hop).

(** What an opened body says, when it was opened at hour [h]. *)
Definition read_body (body : bytes) (h : Z) : Result Hop HybridError :=
  if negb (zlen body =? Z.of_nat CIRCUIT_BODY_LEN) then Err BadCiphertext
  else
    let d := copy_from_slice 32 (slice body 0 32) in
    let r := copy_from_slice 32 (slice body 32 64) in
    let padded := slice body 64 (64 + NEXT_RELAY_LEN) in
    let stop := default NEXT_RELAY_LEN (position (fun b => bool_decide (b = zero_byte)) padded) in
    let? next :=
      match stop with
      | O => Ok None
      | _ =>
          if existsb (fun b => negb (bool_decide (b = zero_byte))) (drop stop padded)
          then Err BadCiphertext
          else let? u := ok_or BadCiphertext (from_utf8 (take stop padded)) in Ok (Some u)
      end in
    let inner := be_value (slice body (64 + NEXT_RELAY_LEN) CIRCUIT_BODY_LEN) in
    if negb (inner =? h) then Err BadCiphertext
    else Ok (mkHop d next r h).

Section Circuits.
Context `{BL : Blake3, AE : Aead, XW : XWing}.

Definition circuit_key (kem_secret : arr 32) : arr 32 := derive_key kem_secret CIRCUIT_CONTEXT.

Definition hop_seal (exit_key : PublicKey) (exit_id : arr 32) (hop : Hop) (random : bytes)
    (fresh : arr 24) : Result SealedHop HybridError :=
  let '(k, kem_secret) := encapsulate exit_key random in
  let key := circuit_key kem_secret in
  let? next := padded_next (next_relay hop) in
  let? s := ok_or BadCiphertext
    (aead_seal (ab key) (ab fresh) (circuit_binding exit_id (hour hop)) (hop_body hop next)) in
  Ok (mkSealedHop k fresh s).

(** [for hour in hours], first opening wins. *)
Fixpoint open_at_hours (key : arr 32) (w : SealedHop) (exit_id : arr 32) (hours : list Z)
    : Result Hop HybridError :=
  match hours with
  | [] => Err BadCiphertext
  | h :: hours =>
      match aead_open (ab key) (ab (h_nonce w)) (circuit_binding exit_id h) (h_sealed w) with
      | None => open_at_hours key w exit_id hours
      | Some body => read_body body h
      end
  end.

Definition hop_open (w : SealedHop) (exit_secret : SecretKey) (exit_id : arr 32) (now_hour : Z)
    : Result Hop HybridError :=
  let key := circuit_key (decapsulate exit_secret (h_kem w)) in
  open_at_hours key w exit_id [now_hour; wrap64 (now_hour - 1); wrap64 (now_hour + 1)].

End Circuits.

Definition hop_to_bytes (w : SealedHop) : bytes := ab (h_kem w) ++ ab (h_nonce w) ++ h_sealed w.

Definition hop_from_bytes (l : bytes) : Result SealedHop HybridError :=
  if negb (zlen l =? Z.of_nat SEALED_HOP_LEN) then Err BadCiphertext
  else
    let? k := ok_or BadCiphertext (try_into CIPHERTEXT_LEN (take CIPHERTEXT_LEN l)) in
    let n := copy_from_slice 24 (slice l CIPHERTEXT_LEN (CIPHERTEXT_LEN + 24)) in
    Ok (mkSealedHop k n (drop (CIPHERTEXT_LEN + 24) l)).

(** ** Length-prefixed fields *)

Lemma be64_inj a b : u64 a -> u64 b -> be64 a = be64 b -> a = b.
Proof. intros Ha Hb. apply be_bytes_inj; by apply u64_pow. Qed.

Lemma length_be64 z : length (be64 z) = 8%nat.
Proof. apply length_be_bytes. Qed.

Lemma framed_inj a b r s :
  u64 (zlen a) -> u64 (zlen b) ->
  be64 (zlen a) ++ a ++ r = be64 (zlen b) ++ b ++ s -> a = b /\ r = s.
Proof.
  intros Ha Hb [Hl Hrest]%app_inj_1; [|by rewrite !length_be64].
  apply be64_inj in Hl; [|done|done]. apply app_inj_1; [unfold zlen in Hl; lia|done].
Qed.

Lemma be64_app_inj a b r s :
  u64 a -> u64 b -> be64 a ++ r = be64 b ++ s -> a = b /\ r = s.
Proof.
  intros Ha Hb [Hl Hrest]%app_inj_1; [|by rewrite !length_be64]. split; [|done].
  by apply be64_inj.
Qed.

Definition binding_ok (b : PqBinding) : Prop :=
  u64 (zlen (group_id b)) /\ u64 (epoch b) /\ u64 (zlen (recipient b)) /\ u64 (zlen (sender b)).

Lemma to_aad_inj b b' : binding_ok b -> binding_ok b' -> to_aad b = to_aad b' -> b = b'.
Proof.
  intros (Hg & He & Hr & Hs) (Hg' & He' & Hr' & Hs') Heq. unfold to_aad in Heq.
  apply app_inv_head in Heq. apply app_inv_head in Heq.
  apply framed_inj in Heq as [Heqg Heq]; [|done|done].
  apply be64_app_inj in Heq as [Heqe Heq]; [|done|done].
  apply framed_inj in Heq as [Heqr Heq]; [|done|done].
  rewrite <- (app_nil_r (sender b)), <- (app_nil_r (sender b')) in Heq.
  rewrite (zlen_app (sender b)), (zlen_app (sender b')), zlen_nil, !Z.add_0_r in Heq.
  apply framed_inj in Heq as [Heqs _]; [|done|done].
  destruct b, b'; simpl in *; by subst.
Qed.

Lemma signing_payload_inj b b' w w' :
  binding_ok b -> binding_ok b' -> u64 (zlen (to_aad b)) -> u64 (zlen (to_aad b')) ->
  u64 (zlen (body_bytes w)) -> u64 (zlen (body_bytes w')) ->
  signing_payload b w = signing_payload b' w' -> b = b' /\ body_bytes w = body_bytes w'.
Proof.
  intros Hb Hb' Ha Ha' Hw Hw' Heq. unfold signing_payload in Heq.
  apply framed_inj in Heq as [Haad Heq]; [|done|done].
  rewrite <- (app_nil_r (body_bytes w)), <- (app_nil_r (body_bytes w')) in Heq.
  rewrite (zlen_app (body_bytes w)), (zlen_app (body_bytes w')), zlen_nil, !Z.add_0_r in Heq.
  apply framed_inj in Heq as [Hbody _]; [|done|done]. split; [by apply to_aad_inj|done].
Qed.

Lemma circuit_binding_inj e e' h h' :
  u64 h -> u64 h' -> circuit_binding e h = circuit_binding e' h' -> e = e' /\ h = h'.
Proof.
  intros Hh Hh' Heq. unfold circuit_binding in Heq.
  do 2 apply app_inv_head in Heq. rewrite !zlen_ab in Heq. apply app_inv_head in Heq.
  apply app_inj_1 in Heq as [He Heq]; [|by rewrite !length_ab].
  split; [by apply arr_eq|]. by apply be64_inj.
Qed.

Lemma psk_binding_inj l g g' e e' :
  u64 e -> u64 e' -> psk_binding l g e = psk_binding l g' e' -> g = g' /\ e = e'.
Proof.
  intros He He' Heq. unfold psk_binding in Heq. apply app_inv_head in Heq.
  apply app_inj_2 in Heq as [Hg Hb]; [|by rewrite !length_be64]. split; [done|]. by apply be64_inj.
Qed.

Lemma psk_input_inj s s' b b' : psk_input s b = psk_input s' b' -> s = s' /\ b = b'.
Proof.
  intros Heq. unfold psk_input in Heq. apply app_inj_1 in Heq as [Hs Heq]; [|by rewrite !length_ab].
  apply app_inj_1 in Heq as [_ Hb]; [|by rewrite !length_be64]. split; [by apply arr_eq|done].
Qed.

(** ** Wire forms *)

Definition wrapped_ok (w : WrappedPqSecret) : Prop := zlen (sealed w) = 48.

Lemma zlen_body w : wrapped_ok w -> zlen (body_bytes w) = Z.of_nat WRAPPED_SECRET_LEN.
Proof. intros Hw. unfold body_bytes. rewrite !zlen_app, !zlen_ab, Hw. done. Qed.

Lemma wrapped_roundtrip w :
  wrapped_ok w -> wrapped_from_bytes (wrapped_to_bytes w) = Ok w.
Proof.
  intros Hw. pose proof (zlen_body w Hw) as Hl. unfold wrapped_from_bytes, wrapped_to_bytes.
  rewrite (proj2 (Z.ltb_ge _ _)) by (rewrite zlen_app, Hl; pose proof (zlen_nonneg (signature w)); lia).
  assert (WRAPPED_SECRET_LEN = length (body_bytes w)) as -> by (unfold zlen in Hl; lia).
  rewrite take_app_length, drop_app_length. unfold body_bytes.
  rewrite (take_ab (kem w)), (drop_ab (kem w)), (take_ab (nonce w)), (drop_ab (nonce w)).
  rewrite (try_into_ab (kem w)), (try_into_ab (nonce w)). by destruct w.
Qed.

Definition hop_ok (w : SealedHop) : Prop := zlen (h_sealed w) = Z.of_nat (CIRCUIT_BODY_LEN + 16).

Lemma length_hop w : hop_ok w -> zlen (hop_to_bytes w) = Z.of_nat SEALED_HOP_LEN.
Proof. intros Hw. unfold hop_to_bytes. rewrite !zlen_app, !zlen_ab, Hw. done. Qed.

Lemma hop_roundtrip w : hop_ok w -> hop_from_bytes (hop_to_bytes w) = Ok w.
Proof.
  intros Hw. unfold hop_from_bytes. rewrite length_hop, Z.eqb_refl by done. cbn [negb].
  unfold hop_to_bytes. rewrite (take_ab (h_kem w)), (try_into_ab (h_kem w)). cbn [ok_or rbind].
  assert (slice (ab (h_kem w) ++ ab (h_nonce w) ++ h_sealed w) CIPHERTEXT_LEN
    (CIPHERTEXT_LEN + 24) = ab (h_nonce w)) as ->.
  { apply slice_app_mid; by rewrite ?length_ab. }
  rewrite copy_ab, <- drop_drop, (drop_ab (h_kem w)), (drop_ab (h_nonce w)). by destruct w.
Qed.

(** ** Reading a body back *)

Definition no_nul (l : bytes) : Prop := Forall (fun b => b <> zero_byte) l.

Lemma stop_at_padding l n :
  no_nul l ->
  default (length l + n)%nat
    (position (fun b => bool_decide (b = zero_byte)) (l ++ replicate n zero_byte)) = length l.
Proof.
  induction 1 as [|b l Hb _ IH].
  - destruct n; [done|]. done.
  - cbn [app position length]. rewrite bool_decide_eq_false_2 by done.
    destruct (position _ (l ++ _)) as [i|] eqn:E; simpl in *; lia.
Qed.

Lemma existsb_zeros n :
  existsb (fun b => negb (bool_decide (b = zero_byte))) (replicate n zero_byte) = false.
Proof. by induction n. Qed.

Lemma read_body_padded hop u h :
  no_nul u -> (length u <= NEXT_RELAY_LEN)%nat -> u64 (hour hop) ->
  read_body (hop_body hop (u ++ replicate (NEXT_RELAY_LEN - length u) zero_byte)) h =
  (let? next := match u with
                | [] => Ok None
                | _ => let? s := ok_or BadCiphertext (from_utf8 u) in Ok (Some s)
                end in
   if hour hop =? h then Ok (mkHop (destination hop) next (return_key hop) h)
   else Err BadCiphertext).
Proof.
  intros Hu Hlen Hh. unfold read_body, hop_body.
  set (pad := u ++ replicate (NEXT_RELAY_LEN - length u) zero_byte).
  assert (length pad = NEXT_RELAY_LEN) as Hpad.
  { unfold pad. rewrite length_app, length_replicate. lia. }
  assert (zlen (ab (destination hop) ++ ab (return_key hop) ++ pad ++ be64 (hour hop)) =
    Z.of_nat CIRCUIT_BODY_LEN) as ->.
  { rewrite !zlen_app, !zlen_ab. unfold zlen. rewrite Hpad, length_be64. done. }
  rewrite Z.eqb_refl. cbn [negb].
  assert (slice (ab (destination hop) ++ ab (return_key hop) ++ pad ++ be64 (hour hop)) 0 32
    = ab (destination hop)) as -> by (apply slice_app_l; by rewrite length_ab).
  assert (slice (ab (destination hop) ++ ab (return_key hop) ++ pad ++ be64 (hour hop)) 32 64
    = ab (return_key hop)) as -> by (apply slice_app_mid; by rewrite !length_ab).
  rewrite !copy_ab.
  assert (slice (ab (destination hop) ++ ab (return_key hop) ++ pad ++ be64 (hour hop)) 64
    (64 + NEXT_RELAY_LEN) = pad) as ->.
  { rewrite app_assoc. apply slice_app_mid; rewrite ?Hpad, length_app, !length_ab; done. }
  assert (slice (ab (destination hop) ++ ab (return_key hop) ++ pad ++ be64 (hour hop))
    (64 + NEXT_RELAY_LEN) CIRCUIT_BODY_LEN = be64 (hour hop)) as ->.
  { rewrite !app_assoc. apply slice_app_r; rewrite !length_app, !length_ab, Hpad;
      [done|by rewrite length_be64]. }
  unfold be64. rewrite be_value_bytes_small by (by apply u64_pow).
  assert (default NEXT_RELAY_LEN (position (fun b => bool_decide (b = zero_byte)) pad) = length u)
    as ->.
  { unfold pad. rewrite <- (stop_at_padding u (NEXT_RELAY_LEN - length u) Hu) at 2.
    f_equal. lia. }
  assert (drop (length u) pad = replicate (NEXT_RELAY_LEN - length u) zero_byte) as ->
    by apply drop_app_length.
  assert (take (length u) pad = u) as -> by apply take_app_length.
  rewrite existsb_zeros. clear. destruct u as [|b u].
  - simpl. by destruct (hour hop =? h).
  - cbn [length]. destruct (from_utf8 (b :: u)); [|done]. cbn [ok_or rbind].
    by destruct (hour hop =? h).
Qed.

Definition next_ok (hop : Hop) : Prop :=
  match next_relay hop with Some u => no_nul (rs u) | None => True end.

Lemma read_hop_body hop next :
  padded_next (next_relay hop) = Ok next -> next_ok hop -> u64 (hour hop) ->
  read_body (hop_body hop next) (hour hop) = Ok hop.
Proof.
  intros Hnext Hok Hh. unfold padded_next, next_ok in *.
  destruct (next_relay hop) as [u|] eqn:Eu.
  - destruct (bool_decide_reflect (rs u = [])); [done|]. simpl in Hnext.
    destruct (Z.ltb_spec (Z.of_nat NEXT_RELAY_LEN) (zlen (rs u))); [done|]. injection Hnext as <-.
    rewrite read_body_padded; [|done|unfold zlen in *; lia|done].
    rewrite Z.eqb_refl. destruct (rs u) as [|b l] eqn:El; [done|]. rewrite <- El, from_utf8_rs.
    simpl. destruct hop; simpl in *; by subst.
  - assert (next = replicate NEXT_RELAY_LEN zero_byte) as -> by congruence. clear Hnext.
    pose proof (read_body_padded hop [] (hour hop)) as Hr.
    rewrite app_nil_l, Nat.sub_0_r in Hr. rewrite Hr; [|constructor|apply Nat.le_0_l|done].
    rewrite Z.eqb_refl. destruct hop; simpl in *; by subst.
Qed.

(** ** Properties *)

Section Properties.
Context `{BL : Blake3, AL : AeadLaws, XL : XWingLaws, ED : Ed25519}.

(** A circuit descriptor opens at its relay, in its hour.  What an exit relay
    opens is exactly the hop that was sealed, through the wire form and with the
    fixed length every descriptor has, when the relay is the one it was sealed for
    and its clock is within an hour of the descriptor's; at any other relay's id
    or hour it is refused.  The cipher is assumed to refuse, at the hours tried,
    associated data other than the sealed one. *)
Theorem circuit_opens_in_its_hour sk exit_id exit_id' hop r fresh w now :
  hop_seal (public sk) exit_id hop r fresh = Ok w ->
  next_ok hop -> u64 (hour hop) -> 0 < now < u64_max ->
  (forall h, now - 1 <= h <= now + 1 ->
    circuit_binding exit_id' h <> circuit_binding exit_id (hour hop) ->
    aead_open (ab (circuit_key (decapsulate sk (h_kem w)))) (ab (h_nonce w))
      (circuit_binding exit_id' h) (h_sealed w) = None) ->
  zlen (hop_to_bytes w) = Z.of_nat SEALED_HOP_LEN /\
  hop_from_bytes (hop_to_bytes w) = Ok w /\
  hop_open w sk exit_id' now =
    if bool_decide (exit_id' = exit_id) && (abs_diff now (hour hop) <=? 1)
    then Ok hop else Err BadCiphertext.
Proof.
  intros Hseal Hnext Hh Hnow Hauth. unfold hop_seal in Hseal.
  pose proof (decapsulate_encapsulate sk r) as Hkem.
  destruct (encapsulate (public sk) r) as [k s]. simpl in Hkem.
  apply rbind_ok in Hseal as (next & Hpad & Hseal).
  apply rbind_ok in Hseal as (ct & Hct & [= <-]).
  destruct (aead_seal (ab (circuit_key s)) (ab fresh) (circuit_binding exit_id (hour hop))
    (hop_body hop next)) as [ct'|] eqn:Eseal; simpl in Hct; [|done]. injection Hct as ->.
  pose proof (aead_open_seal _ _ _ _ _ Eseal) as Hopen.
  pose proof (aead_seal_len _ _ _ _ _ Eseal) as Hctlen.
  pose proof (read_hop_body hop next Hpad Hnext Hh) as Hread.
  assert (hop_ok (mkSealedHop k fresh ct)) as Hok.
  { unfold hop_ok. cbn [h_sealed]. rewrite Hctlen.
    destruct (Z.eqb_spec (zlen (hop_body hop next)) (Z.of_nat CIRCUIT_BODY_LEN)) as [E|E].
    - rewrite E. done.
    - unfold read_body in Hread. by rewrite (proj2 (Z.eqb_neq _ _) E) in Hread. }
  split; [by apply length_hop|]. split; [by apply hop_roundtrip|].
  unfold hop_open. cbn [h_kem h_nonce h_sealed] in *. rewrite Hkem in *.
  assert (wrap64 (now - 1) = now - 1) as -> by (unfold wrap64; rewrite Z.mod_small; int_lia).
  assert (wrap64 (now + 1) = now + 1) as -> by (unfold wrap64; rewrite Z.mod_small; int_lia).
  assert (forall h, now - 1 <= h <= now + 1 -> u64 h) as Hu by (intros; int_lia).
  assert (forall h, now - 1 <= h <= now + 1 ->
    aead_open (ab (circuit_key s)) (ab fresh) (circuit_binding exit_id' h) ct =
    if decide (exit_id' = exit_id /\ h = hour hop) then Some (hop_body hop next) else None) as Hat.
  { intros h Hwin. destruct (decide (exit_id' = exit_id /\ h = hour hop)) as [[-> ->]|Hne]; [done|].
    apply Hauth; [done|]. intros Heq. apply Hne. apply circuit_binding_inj; auto. }
  cbn [open_at_hours h_nonce h_sealed]. rewrite !Hat by lia. unfold abs_diff.
  destruct (bool_decide_reflect (exit_id' = exit_id)) as [->|Hne]; simpl.
  2:{ rewrite !decide_False by naive_solver. done. }
  destruct (decide (exit_id = exit_id /\ now = hour hop)) as [[_ ->]|Hn0].
  { destruct (Z.leb_spec (Z.abs (hour hop - hour hop)) 1); [done|lia]. }
  destruct (decide (exit_id = exit_id /\ now - 1 = hour hop)) as [[_ Hn1]|Hn1].
  { rewrite Hn1. destruct (Z.leb_spec (Z.abs (now - hour hop)) 1); [done|lia]. }
  destruct (decide (exit_id = exit_id /\ now + 1 = hour hop)) as [[_ Hn2]|Hn2].
  { rewrite Hn2. destruct (Z.leb_spec (Z.abs (now - hour hop)) 1); [done|lia]. }
  destruct (Z.leb_spec (Z.abs (now - hour hop)) 1) as [Hle|]; [|done]. exfalso.
  assert (now = hour hop \/ now - 1 = hour hop \/ now + 1 = hour hop) as [?|[?|?]] by lia; auto.
Qed.

(** A wrap is usable in one place, by one member, from one sender.  A group
    secret wrapped and signed under a binding is recovered, through its wire form,
    under that same binding; under a binding naming another group, another epoch
    or another recipient it is refused before anything is decrypted, because the
    bytes the signature covers are different.  The signature is assumed to verify
    for the message signed and for no other. *)
Theorem wrap_is_bound sk secret b b' sign r fresh w key sig :
  wrap_and_sign secret (public sk) b sign r fresh = Ok w ->
  binding_ok b -> binding_ok b' -> u64 (zlen (to_aad b)) -> u64 (zlen (to_aad b')) ->
  sender b = ab key -> sender b' = sender b -> valid_key key = true ->
  signature w = ab sig ->
  (forall msg, verify_strict key msg sig = true <-> msg = signing_payload b w) ->
  wrapped_from_bytes (wrapped_to_bytes w) = Ok w /\
  (unwrap_pq_signed sk w b' = Ok secret <-> b' = b) /\
  (b' <> b -> unwrap_pq_signed sk w b' = Err WrongSender).
Proof.
  intros Hwrap Hb Hb' Ha Ha' Hkey Hsender Hvalid Hsigw Hver.
  unfold wrap_and_sign in Hwrap. apply rbind_ok in Hwrap as (w0 & Hw0 & Hwrap).
  apply rbind_ok in Hwrap as (sg & Hsg & Hwrap).
  destruct (sign (signing_payload b w0)) as [sg'|] eqn:Esign; [|done]. injection Hsg as ->.
  unfold wrap_for in Hw0. pose proof (decapsulate_encapsulate sk r) as Hkem.
  destruct (encapsulate (public sk) r) as [k s]. simpl in Hkem.
  apply rbind_ok in Hw0 as (ct & Hct & Hw0). injection Hw0 as <-.
  destruct (aead_seal (ab (wrapping_key s)) (ab fresh) (to_aad b) (ab secret)) as [ct'|] eqn:Eseal;
    [|done]. injection Hct as ->. injection Hwrap as <-.
  pose proof (aead_open_seal _ _ _ _ _ Eseal) as Hopen.
  pose proof (aead_seal_len _ _ _ _ _ Eseal) as Hlen. rewrite zlen_ab in Hlen.
  cbn [kem nonce sealed signature] in *. subst sg.
  set (w := mkWrapped k fresh ct (ab sig)) in *.
  assert (wrapped_ok w) as Hok by exact Hlen.
  assert (u64 (zlen (body_bytes w))) as Hbody by (rewrite zlen_body by done; done).
  assert (forall c, sender c = ab key ->
    unwrap_pq_signed sk w c =
    if verify_strict key (signing_payload c w) sig then unwrap_pq sk w c
    else Err WrongSender) as Hunwrap.
  { intros c Hc. unfold unwrap_pq_signed. unfold w. cbn [signature].
    destruct (ab sig) as [|x l] eqn:El.
    { pose proof (length_ab sig) as Hl. by rewrite El in Hl. }
    rewrite <- !El, Hc, (try_into_ab key). cbn [ok_or rbind]. rewrite Hvalid. cbn [negb].
    rewrite (try_into_ab sig). cbn [ok_or rbind].
    by destruct (verify_strict key _ sig). }
  assert (b' <> b -> unwrap_pq_signed sk w b' = Err WrongSender) as Hrefuse.
  { intros Hne. rewrite Hunwrap by congruence. 
    destruct (verify_strict key (signing_payload b' w) sig) eqn:Ev; [|done].
    apply Hver in Ev. exfalso. apply Hne. by apply (signing_payload_inj b' b w w). }
  split; [by apply wrapped_roundtrip|]. split; [|done]. split.
  - intros Hun. destruct (decide (b' = b)); [done|]. by rewrite Hrefuse in Hun.
  - intros ->. rewrite Hunwrap by done. rewrite (proj2 (Hver (signing_payload b w)) eq_refl).
    unfold unwrap_pq, w. cbn [kem nonce sealed]. rewrite Hkem, Hopen. cbn [ok_or rbind].
    by rewrite (try_into_ab secret).
Qed.

End Properties.

(** No two contexts share their bytes.  A pre-shared key's binding determines
    the group and the epoch, what is hashed to derive it determines the secret and
    the binding, a wrap's associated data determines every field of its binding,
    what its signature covers determines the binding and the sealed bytes, and a
    circuit's associated data determines the relay and the hour. *)
Theorem bindings_are_unambiguous :
  (forall l g g' e e', u64 e -> u64 e' -> psk_binding l g e = psk_binding l g' e' -> g = g' /\ e = e') /\
  (forall s s' b b', psk_input s b = psk_input s' b' -> s = s' /\ b = b') /\
  (forall b b', binding_ok b -> binding_ok b' -> to_aad b = to_aad b' -> b = b') /\
  (forall b b' w w', binding_ok b -> binding_ok b' ->
    u64 (zlen (to_aad b)) -> u64 (zlen (to_aad b')) -> wrapped_ok w -> wrapped_ok w' ->
    signing_payload b w = signing_payload b' w' -> b = b' /\ body_bytes w = body_bytes w') /\
  (forall e e' h h', u64 h -> u64 h' -> circuit_binding e h = circuit_binding e' h' ->
    e = e' /\ h = h').
Proof.
  split; [exact psk_binding_inj|]. split; [exact psk_input_inj|]. split; [exact to_aad_inj|].
  split; [|exact circuit_binding_inj]. intros b b' w w' Hb Hb' Ha Ha' Hw Hw'.
  apply signing_payload_inj; try done; rewrite zlen_body by done; done.
Qed.

(** An address ending in a NUL is carried as a different address.  [seal]
    takes a next relay whose address ends in a zero byte, and what the exit relay
    reads out is the address without it: padding and content are not told apart. *)
Theorem nul_ended_address_is_shortened hop u v next :
  next_relay hop = Some u -> rs u = rs v ++ [zero_byte] -> rs v <> [] -> no_nul (rs v) ->
  u64 (hour hop) -> padded_next (next_relay hop) = Ok next ->
  u <> v /\
  read_body (hop_body hop next) (hour hop) =
    Ok (mkHop (destination hop) (Some v) (return_key hop) (hour hop)).
Proof.
  intros Hn Hu Hv Hnul Hh Hpad. rewrite Hn in Hpad. unfold padded_next in Hpad.
  destruct (bool_decide (rs u = [])); [done|]. simpl in Hpad.
  destruct (Z.ltb_spec (Z.of_nat NEXT_RELAY_LEN) (zlen (rs u))) as [|Hlen]; [done|].
  rewrite Hu, zlen_app, zlen_cons, zlen_nil in Hlen. split.
  { intros ->. apply (f_equal length) in Hu. rewrite length_app in Hu. simpl in Hu. lia. }
  assert (next = rs v ++ replicate (NEXT_RELAY_LEN - length (rs v)) zero_byte) as ->.
  { assert (next = rs u ++ replicate (NEXT_RELAY_LEN - length (rs u)) zero_byte) as -> by congruence.
    rewrite Hu, <- app_assoc. f_equal. rewrite length_app. simpl length. unfold zlen in Hlen.
    replace (NEXT_RELAY_LEN - length (rs v))%nat
      with (S (NEXT_RELAY_LEN - (length (rs v) + 1)))%nat by lia. done. }
  rewrite read_body_padded; [|done|unfold zlen in Hlen; lia|done].
  rewrite Z.eqb_refl. destruct (rs v) as [|b l] eqn:El; [done|]. by rewrite <- El, from_utf8_rs.
Qed.

(** ** Witnesses *)

Import Toy.

Module HybridExample.

(** A key pair of one array, whose shared secret is a sum. *)
#[export] Instance xwing : XWing := {|
  PublicKey := arr 32;
  SecretKey := arr 32;
  public sk := sk;
  encapsulate pk r :=
    let ct := be_arr CIPHERTEXT_LEN (Toy.sum r) in (ct, be_arr 32 (Toy.sum (ab pk ++ ab ct)));
  decapsulate sk ct := be_arr 32 (Toy.sum (ab sk ++ ab ct));
|}.

#[export] Instance xwing_laws : XWingLaws xwing.
Proof. done. Qed.

Definition sk : arr 32 := be_arr 32 77.
Definition exit_id : arr 32 := be_arr 32 5.
Definition relay_url : rstring := RString [x68; x3a; x2f] ltac:(vm_compute; exact I).
Definition nul_url : rstring := RString [x68; x3a; x2f; x00] ltac:(vm_compute; exact I).
Definition hop : Hop := mkHop (be_arr 32 8) (Some relay_url) (be_arr 32 9) 1000.
Definition fresh : arr 24 := be_arr 24 3.

Definition descriptor : SealedHop :=
  match hop_seal sk exit_id hop [x01] fresh with
  | Ok w => w
  | Err _ => mkSealedHop (be_arr _ 0) fresh []
  end.

Definition binding : PqBinding := mkBinding [x01; x02] 7 [x03] (ab (be_arr 32 4)).
Definition later : PqBinding := mkBinding [x01; x02] 8 [x03] (ab (be_arr 32 4)).
Definition secret : arr 32 := be_arr 32 99.
Definition sig : arr 64 := be_arr 64 6.

Definition unsigned : WrappedPqSecret :=
  match wrap_for secret sk binding [x01] fresh with
  | Ok w => w
  | Err _ => mkWrapped (be_arr _ 0) fresh [] []
  end.

Definition payload : bytes := signing_payload binding unsigned.
Definition sign (msg : bytes) : option bytes := Some (ab sig).

(** A scheme in which that one message verifies. *)
#[export] Instance ed25519 : Ed25519 := {|
  valid_key _ := true;
  verify_strict _ msg s := bool_decide (msg = payload);
|}.

Definition wrapped : WrappedPqSecret :=
  mkWrapped (kem unsigned) (nonce unsigned) (sealed unsigned) (ab sig).

End HybridExample.

Export (hints) HybridExample.

Lemma circuit_opens_in_its_hour_witness :
  hop_open HybridExample.descriptor HybridExample.sk HybridExample.exit_id 1001 =
    Ok HybridExample.hop.
Proof.
  refine (proj2 (proj2 (circuit_opens_in_its_hour (XL := HybridExample.xwing_laws)
    HybridExample.sk HybridExample.exit_id HybridExample.exit_id HybridExample.hop [x01]
    HybridExample.fresh HybridExample.descriptor 1001 _ _ _ _ _))).
  - vm_compute. reflexivity.
  - repeat constructor; done.
  - vm_compute. split; discriminate.
  - vm_compute. split; reflexivity.
  - intros h Hh Hne. assert (h = 1000 \/ h = 1001 \/ h = 1002) as [->|[->| ->]] by lia.
    + by destruct Hne.
    + vm_compute. reflexivity.
    + vm_compute. reflexivity.
Defined.

Lemma wrap_is_bound_witness :
  unwrap_pq_signed HybridExample.sk HybridExample.wrapped HybridExample.later = Err WrongSender.
Proof.
  refine (proj2 (proj2 (wrap_is_bound (XL := HybridExample.xwing_laws)
    HybridExample.sk HybridExample.secret HybridExample.binding HybridExample.later
    HybridExample.sign [x01] HybridExample.fresh HybridExample.wrapped (be_arr 32 4)
    HybridExample.sig _ _ _ _ _ _ _ _ _ _)) _).
  - vm_compute. reflexivity.
  - vm_compute. repeat split; discriminate.
  - vm_compute. repeat split; discriminate.
  - vm_compute. repeat split; discriminate.
  - vm_compute. repeat split; discriminate.
  - reflexivity.
  - reflexivity.
  - reflexivity.
  - reflexivity.
  - intros msg. cbn [verify_strict HybridExample.ed25519]. rewrite bool_decide_eq_true. done.
  - discriminate.
Defined.

Lemma nul_ended_address_is_shortened_witness :
  read_body (hop_body (mkHop (be_arr 32 8) (Some HybridExample.nul_url) (be_arr 32 9) 1000)
    ([x68; x3a; x2f; x00] ++ replicate 92 zero_byte)) 1000 =
  Ok (mkHop (be_arr 32 8) (Some HybridExample.relay_url) (be_arr 32 9) 1000).
Proof.
  refine (proj2 (nul_ended_address_is_shortened
    (mkHop (be_arr 32 8) (Some HybridExample.nul_url) (be_arr 32 9) 1000)
    HybridExample.nul_url HybridExample.relay_url _ _ _ _ _ _ _)).
  - reflexivity.
  - reflexivity.
  - discriminate.
  - repeat constructor; discriminate.
  - vm_compute. split; discriminate.
  - reflexivity.
Defined.
