(* ===== verification/AtRest.v ===== *)
(** * Sealing at rest: the mailbox vault and the identity file

    [crates/rotelyx-mailbox-server/src/vault.rs] (Module [Vault]: a file sealed
    under an operator's passphrase, with a cache of derived keys shared by the
    process) and [crates/rotelyx-core/src/sealed.rs] (Module [Sealed]: the same
    construction for an identity or any bytes).  Argon2id and XChaCha20-Poly1305
    are third-party.  A file is [option bytes]; reading, writing and renaming it
    are not modelled beyond its contents.  What [getrandom::fill] wrote is an
    argument. *)

From S2P Require Import Prelude Crypto.

(** Argon2id at the cost both files ask for (64 MiB, three passes, one lane), from
    a password and a salt. *)
Class Argon2 := argon2id : bytes -> bytes -> option (arr 32).

Definition MEMORY_KIB : Z := 64 * 1024.
Definition PASSES : Z := 3.

(** A header [magic ++ version ++ salt ++ nonce]. *)
Definition header (magic : bytes) (version : byte) (salt : arr 16) (nonce : arr 24) : bytes :=
  magic ++ [version] ++ ab salt ++ ab nonce.

Module Vault.

Definition MAGIC : bytes := String.list_byte_of_string "ROTELYXMB".
Definition VERSION : byte := x01.
Definition CACHE_BINDING : string := "rotelyx vault cache binding v1".
Definition SLOTS : nat := 16.

Inductive VaultError :=
| TooShort | NotAVault | WrongVersion (found : byte) | DerivingFailed | SealingFailed
| DidNotDecrypt.

(** A salt, a binding to the passphrase, and the key. *)
Definition Entry : Type := arr 16 * arr 32 * arr 32.

(** What the process keeps: the cache, and how many times it has derived a key. *)
Record Process := mkProcess { cache : list Entry; derivations : Z }.

Section Vault.
Context `{BL : Blake3, AE : Aead, KD : Argon2}.

Definition binding_of (passphrase : bytes) : arr 32 := blake3_derive CACHE_BINDING passphrase.

(** The first entry for this passphrase, and for this salt when one is named. *)
Fixpoint find_entry (b : arr 32) (salt : option (arr 16)) (entries : list Entry)
    : option (arr 16 * arr 32) :=
  match entries with
  | [] => None
  | (cached_salt, cached_binding, key) :: entries =>
      if bool_decide (b = cached_binding)
         && match salt with Some wanted => bool_decide (wanted = cached_salt) | None => true end
      then Some (cached_salt, key)
      else find_entry b salt entries
  end.

Definition push_entry (entries : list Entry) (e : Entry) : list Entry :=
  (if (SLOTS <=? length entries)%nat then drop 1 entries else entries) ++ [e].

Definition derive (p : Process) (passphrase : bytes) (salt : arr 16)
    : Result (arr 32) VaultError * Process :=
  (ok_or DerivingFailed (argon2id passphrase (ab salt)),
   mkProcess (cache p) (wrap64 (derivations p + 1))).

Definition cached_key (p : Process) (passphrase : bytes) (salt : option (arr 16))
    (fresh : arr 16) : Result (arr 16 * arr 32) VaultError * Process :=
  let b := binding_of passphrase in
  match find_entry b salt (cache p) with
  | Some (cached_salt, key) => (Ok (cached_salt, key), p)
  | None =>
      let s := default fresh salt in
      match derive p passphrase s with
      | (Err e, p) => (Err e, p)
      | (Ok key, p) => (Ok (s, key), mkProcess (push_entry (cache p) (s, b, key)) (derivations p))
      end
  end.

(** [seal]: the file's new contents. *)
Definition seal (p : Process) (passphrase plaintext : bytes) (fresh : arr 16) (nonce : arr 24)
    : Result bytes VaultError * Process :=
  match cached_key p passphrase None fresh with
  | (Err e, p) => (Err e, p)
  | (Ok (salt, key), p) =>
      let h := header MAGIC VERSION salt nonce in
      (let? sealed := ok_or SealingFailed (aead_seal (ab key) (ab nonce) h plaintext) in
       Ok (h ++ sealed), p)
  end.

Definition header_len : nat := length MAGIC + 1 + 16 + 24.

Definition open (p : Process) (passphrase : bytes) (file : option bytes)
    : Result (option bytes) VaultError * Process :=
  match file with
  | None => (Ok None, p)
  | Some raw =>
      if zlen raw <? Z.of_nat (header_len + 16) then (Err TooShort, p)
      else
        let h := take header_len raw in
        let body := drop header_len raw in
        if negb (bool_decide (take (length MAGIC) h = MAGIC)) then (Err NotAVault, p)
        else
          let version := default zero_byte (h !! length MAGIC) in
          if negb (bool_decide (version = VERSION)) then (Err (WrongVersion version), p)
          else
            let salt := copy_from_slice 16 (slice h (length MAGIC + 1) (length MAGIC + 17)) in
            let nonce := copy_from_slice 24 (drop (length MAGIC + 17) h) in
            match cached_key p passphrase (Some salt) salt with
            | (Err e, p) => (Err e, p)
            | (Ok (_, key), p) =>
                (let? plain := ok_or DidNotDecrypt (aead_open (ab key) (ab nonce) h body) in
                 Ok (Some plain), p)
            end
  end.

(** ** Runs of one process *)

Inductive op :=
| OSeal (passphrase plaintext : bytes) (fresh : arr 16) (nonce : arr 24)
| OOpen (passphrase : bytes) (file : option bytes).

Definition op_passphrase (o : op) : bytes :=
  match o with OSeal p _ _ _ | OOpen p _ => p end.

Definition step (p : Process) (o : op) : Process :=
  match o with
  | OSeal pass plaintext fresh nonce => (seal p pass plaintext fresh nonce).2
  | OOpen pass file => (open p pass file).2
  end.

Definition start : Process := mkProcess [] 0.
Definition run (os : list op) : Process := foldl step start os.

End Vault.
End Vault.

Module Sealed.

Definition MAGIC : bytes := String.list_byte_of_string "ROTELYX" ++ [x01].
Definition VERSION : byte := x01.
Definition SALT_LEN : nat := 16.
Definition NONCE_LEN : nat := 24.
Definition SECRET_LEN : nat := 32.
Definition KDF_CONTEXT : bytes := String.list_byte_of_string "rotelyx sealed identity v1".
Definition MIN_BYTES_LEN : Z := zlen MAGIC + 1 + 16 + 24 + 16.

Inductive SealError :=
| BadMagic
| UnsupportedVersion (found understood : byte)
| Truncated (len min : Z)
| Unopenable
| Kdf
| Entropy.

Section Sealed.
Context `{AE : Aead, KD : Argon2}.

Definition derive_key (passphrase salt : bytes) : Result (arr 32) SealError :=
  ok_or Kdf (argon2id (KDF_CONTEXT ++ passphrase) salt).

Definition seal_bytes (plaintext passphrase : bytes) (salt : arr 16) (nonce : arr 24)
    : Result bytes SealError :=
  let? key := derive_key passphrase (ab salt) in
  let h := header MAGIC VERSION salt nonce in
  let? ciphertext := ok_or Kdf (aead_seal (ab key) (ab nonce) h plaintext) in
  Ok (h ++ ciphertext).

Definition open_bytes (l passphrase : bytes) : Result bytes SealError :=
  if zlen l <? MIN_BYTES_LEN then Err (Truncated (zlen l) MIN_BYTES_LEN)
  else if negb (bool_decide (take (length MAGIC) l = MAGIC)) then Err BadMagic
  else
    let version := default zero_byte (l !! length MAGIC) in
    if negb (bool_decide (version = VERSION)) then Err (UnsupportedVersion version VERSION)
    else
      let salt_at := (length MAGIC + 1)%nat in
      let nonce_at := (salt_at + SALT_LEN)%nat in
      let body_at := (nonce_at + NONCE_LEN)%nat in
      let salt := slice l salt_at nonce_at in
      let nonce := slice l nonce_at body_at in
      let h := slice l 0 body_at in
      let? key := derive_key passphrase salt in
      let? n := ok_or Unopenable (try_into 24 nonce) in
      ok_or Unopenable (aead_open (ab key) (ab n) h (drop body_at l)).

(** [seal] and [open] of an identity, by its storage bytes. *)
Definition seal (identity : arr 32) (passphrase : bytes) (salt : arr 16) (nonce : arr 24)
    : Result bytes SealError :=
  seal_bytes (ab identity) passphrase salt nonce.

Definition open (l passphrase : bytes) : Result (arr 32) SealError :=
  let? plain := open_bytes l passphrase in
  ok_or (Truncated (zlen plain) (Z.of_nat SECRET_LEN)) (try_into SECRET_LEN plain).

Definition is_sealed (l : bytes) : bool :=
  (zlen MAGIC <=? zlen l) && bool_decide (take (length MAGIC) l = MAGIC).

End Sealed.
End Sealed.

(** ** Headers *)

Lemma length_header magic v salt nonce :
  length (header magic v salt nonce) = (length magic + 41)%nat.
Proof. unfold header. rewrite !length_app, !length_ab. simpl. lia. Qed.

Lemma take_header magic v salt nonce l :
  take (length magic) (header magic v salt nonce ++ l) = magic.
Proof. unfold header. rewrite <- !app_assoc. apply take_app_length. Qed.

Lemma header_version magic v salt nonce l :
  (header magic v salt nonce ++ l) !! length magic = Some v.
Proof.
  unfold header. rewrite <- !app_assoc. rewrite lookup_app_r by done. by rewrite Nat.sub_diag.
Qed.

Lemma header_salt magic v salt nonce l :
  slice (header magic v salt nonce ++ l) (length magic + 1) (length magic + 17) = ab salt.
Proof.
  unfold header. rewrite <- !app_assoc, (app_assoc magic).
  apply slice_app_mid; rewrite length_app, ?length_ab; simpl; lia.
Qed.

Lemma header_nonce magic v salt nonce l :
  slice (header magic v salt nonce ++ l) (length magic + 17) (length magic + 41) = ab nonce.
Proof.
  unfold header. rewrite <- !app_assoc, (app_assoc magic), (app_assoc (magic ++ [v])).
  apply slice_app_mid; rewrite !length_app, !length_ab; simpl; lia.
Qed.

Module VaultLemmas.
Import Vault.

Section Lemmas.
Context `{BL : Blake3, AL : AeadLaws, KD : Argon2}.

(** Every cached key is the key of a passphrase used, at the cached salt. *)
Definition cache_ok (ps : list bytes) (c : list Entry) : Prop :=
  Forall (fun e => exists q, q ∈ ps /\ e.1.2 = binding_of q /\ argon2id q (ab e.1.1) = Some e.2) c.

Lemma find_entry_Some b salt c s k :
  find_entry b salt c = Some (s, k) ->
  (s, b, k) ∈ c /\ match salt with Some w => w = s | None => True end.
Proof.
  induction c as [|[[s' b'] k'] c IH]; [done|]. cbn [find_entry].
  destruct (bool_decide_reflect (b = b')) as [->|]; simpl.
  - destruct salt as [w|]; [destruct (bool_decide_reflect (w = s')) as [->|]|].
    + intros [= -> ->]. split; [apply list_elem_of_here|done].
    + intros Hf. destruct (IH Hf). split; [by apply list_elem_of_further|done].
    + intros [= -> ->]. split; [apply list_elem_of_here|done].
  - intros Hf. destruct (IH Hf). split; [by apply list_elem_of_further|done].
Qed.

(** No two passphrases in use share a binding. *)
Definition bindings_differ (ps : list bytes) : Prop :=
  forall p q, p ∈ ps -> q ∈ ps -> binding_of p = binding_of q -> p = q.

Lemma cached_key_spec ps p pass salt fresh :
  bindings_differ ps -> pass ∈ ps -> cache_ok ps (cache p) ->
  match cached_key p pass salt fresh with
  | (Ok (s, k), p') => argon2id pass (ab s) = Some k /\ cache_ok ps (cache p') /\
      match salt with Some w => s = w | None => True end
  | (Err e, p') => e = DerivingFailed /\ cache p' = cache p /\
      argon2id pass (ab (default fresh salt)) = None
  end.
Proof.
  intros Hinj Hin Hc. unfold cached_key.
  destruct (find_entry (binding_of pass) salt (cache p)) as [[s k]|] eqn:Ef.
  - apply find_entry_Some in Ef as [Hmem Hs]. unfold cache_ok in Hc.
    pose proof Hc as Hall. rewrite Forall_forall in Hall.
    destruct (Hall _ Hmem) as (q & Hq & Hb & Hk). simpl in Hb, Hk.
    assert (pass = q) as <- by (by apply Hinj). split; [done|]. split; [done|]. by destruct salt.
  - unfold derive. destruct (argon2id pass (ab (default fresh salt))) as [k|] eqn:Ek; simpl;
      [|by split_and!].
    split; [done|]. split; [|by destruct salt]. unfold push_entry, cache_ok. apply Forall_app. split.
    + destruct (SLOTS <=? length (cache p))%nat; [by apply Forall_drop|done].
    + apply Forall_singleton. by exists pass.
Qed.

Lemma step_cache ps p o :
  bindings_differ ps -> op_passphrase o ∈ ps -> cache_ok ps (cache p) ->
  cache_ok ps (cache (step p o)).
Proof.
  intros Hinj Hin Hc. destruct o as [pass m fresh nonce|pass file]; simpl in Hin |- *.
  - unfold seal. pose proof (cached_key_spec ps p pass None fresh Hinj Hin Hc) as Hk.
    destruct (cached_key p pass None fresh) as [[[s k]|e] p']; simpl; [apply Hk|].
    by destruct Hk as (_ & -> & _).
  - unfold open. destruct file as [raw|]; [|done].
    repeat (match goal with |- context [if ?c then _ else _] => destruct c end; try done).
    pose proof (cached_key_spec ps p pass
      (Some (copy_from_slice 16 (slice (take header_len raw) (length MAGIC + 1) (length MAGIC + 17))))
      (copy_from_slice 16 (slice (take header_len raw) (length MAGIC + 1) (length MAGIC + 17)))
      Hinj Hin Hc) as Hk.
    destruct (cached_key p pass _ _) as [[[s k]|e] p']; simpl; [apply Hk|].
    by destruct Hk as (_ & -> & _).
Qed.

Lemma run_cache os ps :
  bindings_differ ps -> (forall o, o ∈ os -> op_passphrase o ∈ ps) -> cache_ok ps (cache (run os)).
Proof.
  intros Hinj. unfold run. assert (cache_ok ps (cache start)) as H0 by constructor.
  revert H0. generalize start as p. induction os as [|o os IH]; intros p Hp Hin; [done|].
  simpl. apply IH.
  - apply step_cache; [done| |done]. apply Hin, list_elem_of_here.
  - intros o' Ho'. by apply Hin, list_elem_of_further.
Qed.

End Lemmas.
End VaultLemmas.

(** ** Properties *)

Section Properties.
Context `{BL : Blake3, AL : AeadLaws, KD : Argon2}.

(** The key cache changes nothing but the cost.  Whatever files a process has
    sealed and opened before, under whatever passphrases, opening a file gives the
    answer a process with an empty cache gives: a key derived for one passphrase
    is never used for another.  The bindings of the passphrases in use are assumed
    to differ. *)
Theorem cache_is_transparent os pass file :
  VaultLemmas.bindings_differ (pass :: (Vault.op_passphrase <$> os)) ->
  (Vault.open (Vault.run os) pass file).1 = (Vault.open Vault.start pass file).1.
Proof.
  intros Hinj. set (ps := pass :: (Vault.op_passphrase <$> os)) in *.
  assert (VaultLemmas.cache_ok ps (Vault.cache (Vault.run os))) as Hc.
  { apply VaultLemmas.run_cache; [done|]. intros o Ho.
    apply list_elem_of_further, list_elem_of_fmap. by exists o. }
  assert (VaultLemmas.cache_ok ps (Vault.cache Vault.start)) as Hs by constructor.
  unfold Vault.open. destruct file as [raw|]; [|done].
  repeat (match goal with |- context [if ?c then _ else _] => destruct c end; try done).
  set (salt := copy_from_slice 16 _).
  pose proof (VaultLemmas.cached_key_spec ps _ pass (Some salt) salt Hinj
    (list_elem_of_here pass _) Hc) as Hk.
  pose proof (VaultLemmas.cached_key_spec ps _ pass (Some salt) salt Hinj
    (list_elem_of_here pass _) Hs) as Hk0.
  change (default salt (Some salt)) with salt in *.
  destruct (Vault.cached_key (Vault.run os) pass (Some salt) salt) as [[[s k]|e] p'];
    destruct Hk as (Hk & _ & Hs');
    destruct (Vault.cached_key Vault.start pass (Some salt) salt) as [[[s0 k0]|e0] p0];
    destruct Hk0 as (Hk0 & _ & Hs0); [| | |by rewrite Hk, Hk0].
  - rewrite Hs' in Hk. rewrite Hs0, Hk in Hk0. by injection Hk0 as ->.
  - by rewrite Hs', Hs0 in Hk.
  - by rewrite Hs0, Hs' in Hk0.
Qed.

(** Opening what [seal] writes, with a cache that holds the keys of passphrases in
    use. *)
Lemma open_written ps q pass s k nonce ct plaintext :
  VaultLemmas.bindings_differ ps -> pass ∈ ps -> VaultLemmas.cache_ok ps (Vault.cache q) ->
  argon2id pass (ab s) = Some k ->
  aead_seal (ab k) (ab nonce) (header Vault.MAGIC Vault.VERSION s nonce) plaintext = Some ct ->
  (Vault.open q pass (Some (header Vault.MAGIC Vault.VERSION s nonce ++ ct))).1 =
    Ok (Some plaintext).
Proof.
  intros Hinj Hin Hq Hk Eseal.
  pose proof (aead_open_seal _ _ _ _ _ Eseal) as Hopen.
  pose proof (aead_seal_len _ _ _ _ _ Eseal) as Hlen.
  pose proof (length_header Vault.MAGIC Vault.VERSION s nonce) as Hhl.
  pose proof (take_header Vault.MAGIC Vault.VERSION s nonce []) as H1.
  pose proof (header_version Vault.MAGIC Vault.VERSION s nonce []) as H2.
  pose proof (header_salt Vault.MAGIC Vault.VERSION s nonce []) as H3.
  pose proof (header_nonce Vault.MAGIC Vault.VERSION s nonce []) as H4.
  set (h := header Vault.MAGIC Vault.VERSION s nonce) in *. rewrite app_nil_r in *.
  change (length Vault.MAGIC + 41)%nat with Vault.header_len in *.
  unfold Vault.open.
  assert (take Vault.header_len (h ++ ct) = h) as -> by (rewrite <- Hhl; apply take_app_length).
  assert (drop Vault.header_len (h ++ ct) = ct) as -> by (rewrite <- Hhl; apply drop_app_length).
  rewrite (proj2 (Z.ltb_ge _ _)).
  2:{ rewrite zlen_app, Hlen. unfold zlen. rewrite Hhl.
      pose proof (zlen_nonneg plaintext). unfold zlen, AEAD_TAG_LEN in *. lia. }
  assert (drop (length Vault.MAGIC + 17) h = ab nonce) as H5.
  { rewrite <- H4. unfold slice. rewrite take_ge; [done|]. rewrite length_drop, Hhl. done. }
  rewrite H1, bool_decide_eq_true_2 by done. cbn [negb].
  rewrite H2. cbn [default]. rewrite bool_decide_eq_true_2 by done. cbn [negb].
  rewrite H3, H5, !copy_ab.
  pose proof (VaultLemmas.cached_key_spec ps q pass (Some s) s Hinj Hin Hq) as Hkq.
  destruct (Vault.cached_key q pass (Some s) s) as [[[s' k']|e] q'].
  - destruct Hkq as (Hk' & _ & ->). rewrite Hk in Hk'. injection Hk' as <-. by rewrite Hopen.
  - destruct Hkq as (_ & _ & Hk'). simpl in Hk'. by rewrite Hk in Hk'.
Qed.

(** A sealed vault opens.  A file a process sealed opens under the same
    passphrase to the same bytes in that process and after a restart, and its
    header carries the format, the salt and the nonce drawn for this write. *)
Theorem sealed_vault_opens os pass plaintext fresh nonce file p :
  VaultLemmas.bindings_differ (pass :: (Vault.op_passphrase <$> os)) ->
  Vault.seal (Vault.run os) pass plaintext fresh nonce = (Ok file, p) ->
  (Vault.open p pass (Some file)).1 = Ok (Some plaintext) /\
  (Vault.open Vault.start pass (Some file)).1 = Ok (Some plaintext) /\
  exists salt, take Vault.header_len file = header Vault.MAGIC Vault.VERSION salt nonce.
Proof.
  intros Hinj Hseal. set (ps := pass :: (Vault.op_passphrase <$> os)) in *.
  assert (VaultLemmas.cache_ok ps (Vault.cache (Vault.run os))) as Hc.
  { apply VaultLemmas.run_cache; [done|]. intros o Ho.
    apply list_elem_of_further, list_elem_of_fmap. by exists o. }
  unfold Vault.seal in Hseal.
  pose proof (VaultLemmas.cached_key_spec ps _ pass None fresh Hinj
    (list_elem_of_here pass _) Hc) as Hk.
  destruct (Vault.cached_key (Vault.run os) pass None fresh) as [[[s k]|e] p']; [|done].
  destruct Hk as (Hk & Hc' & _). apply pair_equal_spec in Hseal as [Hfile Hp]. subst p'.
  set (h := header Vault.MAGIC Vault.VERSION s nonce) in *.
  destruct (aead_seal (ab k) (ab nonce) h plaintext) as [ct|] eqn:Eseal; [|done].
  cbn [ok_or rbind] in Hfile. assert (file = h ++ ct) as -> by congruence.
  assert (forall q, VaultLemmas.cache_ok ps (Vault.cache q) ->
    (Vault.open q pass (Some (h ++ ct))).1 = Ok (Some plaintext)) as Hany
    by (intros q Hq; eapply (open_written ps); eauto using list_elem_of_here).
  split; [by apply Hany|]. split; [apply Hany; constructor|]. exists s.
  fold h. assert (Vault.header_len = length h) as -> by (unfold h; by rewrite length_header).
  apply take_app_length.
Qed.

(** A passphrase is paid for once.  After a process has sealed a file under a
    passphrase, sealing under it again, any number of times, derives no key. *)
Theorem resealing_derives_nothing p pass plaintext fresh nonce file p1
    (writes : list (bytes * arr 16 * arr 24)) :
  Vault.seal p pass plaintext fresh nonce = (Ok file, p1) ->
  foldl (fun q w => (Vault.seal q pass w.1.1 w.1.2 w.2).2) p1 writes = p1.
Proof.
  intros Hseal.
  assert (exists s k, Vault.find_entry (Vault.binding_of pass) None (Vault.cache p1) = Some (s, k))
    as (s & k & Hf).
  { unfold Vault.seal in Hseal. unfold Vault.cached_key in Hseal.
    destruct (Vault.find_entry (Vault.binding_of pass) None (Vault.cache p)) as [[s k]|] eqn:Ef.
    - injection Hseal as _ <-. by exists s, k.
    - unfold Vault.derive in Hseal. destruct (argon2id pass (ab (default fresh None))) as [k|];
        [|done]. simpl in Hseal. injection Hseal as _ <-. exists fresh, k. simpl.
      assert (Vault.find_entry (Vault.binding_of pass) None
        (if (Vault.SLOTS <=? length (Vault.cache p))%nat then drop 1 (Vault.cache p)
         else Vault.cache p) = None) as Hnone.
      { destruct (Vault.SLOTS <=? length (Vault.cache p))%nat; [|done].
        destruct (Vault.cache p) as [|[[s b] k'] c]; [done|]. cbn [Vault.find_entry] in Ef.
        by destruct (bool_decide (Vault.binding_of pass = b)). }
      unfold Vault.push_entry. revert Hnone.
      generalize (if (Vault.SLOTS <=? length (Vault.cache p))%nat then drop 1 (Vault.cache p)
         else Vault.cache p) as c. clear.
      induction c as [|[[s b] k'] c IH]; cbn [app Vault.find_entry]; intros Hnone.
      + by rewrite bool_decide_eq_true_2.
      + destruct (bool_decide (Vault.binding_of pass = b)); [done|]. by apply IH. }
  clear Hseal. induction writes as [|w ws IH]; [done|]. cbn [foldl].
  assert ((Vault.seal p1 pass w.1.1 w.1.2 w.2).2 = p1) as ->; [|done].
  unfold Vault.seal, Vault.cached_key. by rewrite Hf.
Qed.

(** What [seal_bytes] writes opens under the same passphrase. *)
Lemma seal_bytes_opens m pass salt nonce file :
  Sealed.seal_bytes m pass salt nonce = Ok file ->
  Sealed.open_bytes file pass = Ok m /\ Sealed.is_sealed file = true /\
  zlen file = zlen m + Sealed.MIN_BYTES_LEN.
Proof.
  intros Hseal. unfold Sealed.seal_bytes in Hseal.
  apply rbind_ok in Hseal as (k & Hk & Hseal). apply rbind_ok in Hseal as (ct & Hct & Hfile).
  destruct (aead_seal (ab k) (ab nonce) (header Sealed.MAGIC Sealed.VERSION salt nonce) m)
    as [ct'|] eqn:Eseal; [|done].
  assert (ct' = ct) as -> by (simpl in Hct; congruence). clear Hct.
  assert (file = header Sealed.MAGIC Sealed.VERSION salt nonce ++ ct) as -> by congruence.
  pose proof (aead_open_seal _ _ _ _ _ Eseal) as Hopen.
  pose proof (aead_seal_len _ _ _ _ _ Eseal) as Hlen.
  pose proof (length_header Sealed.MAGIC Sealed.VERSION salt nonce) as Hhl.
  pose proof (take_header Sealed.MAGIC Sealed.VERSION salt nonce ct) as H1.
  pose proof (header_version Sealed.MAGIC Sealed.VERSION salt nonce ct) as H2.
  pose proof (header_salt Sealed.MAGIC Sealed.VERSION salt nonce ct) as H3.
  pose proof (header_nonce Sealed.MAGIC Sealed.VERSION salt nonce ct) as H4.
  set (h := header Sealed.MAGIC Sealed.VERSION salt nonce) in *.
  assert (zlen (h ++ ct) = zlen m + Sealed.MIN_BYTES_LEN) as Hz.
  { rewrite zlen_app, Hlen. unfold zlen at 1. rewrite Hhl. unfold AEAD_TAG_LEN.
    change (Z.of_nat (length Sealed.MAGIC + 41)) with 49. change Sealed.MIN_BYTES_LEN with 65. lia. }
  split; [|split; [|done]].
  - unfold Sealed.open_bytes. rewrite Hz, (proj2 (Z.ltb_ge _ _)) by (pose proof (zlen_nonneg m); lia).
    rewrite H1, bool_decide_eq_true_2 by done. cbn [negb].
    rewrite H2. cbn [default]. rewrite bool_decide_eq_true_2 by done. cbn [negb].
    change (length Sealed.MAGIC + 1 + Sealed.SALT_LEN)%nat with (length Sealed.MAGIC + 17)%nat.
    change (length Sealed.MAGIC + 17 + Sealed.NONCE_LEN)%nat with (length Sealed.MAGIC + 41)%nat.
    rewrite H3, H4, Hk. cbn [rbind]. rewrite (try_into_ab nonce). cbn [ok_or rbind].
    rewrite <- Hhl, drop_app_length, (slice_app_l h ct _ eq_refl), Hopen. done.
  - unfold Sealed.is_sealed. rewrite H1, bool_decide_eq_true_2, andb_true_r by done.
    apply Z.leb_le. rewrite Hz. pose proof (zlen_nonneg m). change (zlen Sealed.MAGIC) with 8.
    change Sealed.MIN_BYTES_LEN with 65. lia.
Qed.

(** A sealed identity opens.  What [seal_bytes] writes is recognised as
    sealed, is 65 bytes longer than what it holds, and opens under the same
    passphrase to the same bytes, whatever their length; and a sealed identity
    opens to that identity. *)
Theorem sealed_identity_opens identity plaintext pass salt nonce f g :
  Sealed.seal_bytes plaintext pass salt nonce = Ok f ->
  Sealed.seal identity pass salt nonce = Ok g ->
  Sealed.open_bytes f pass = Ok plaintext /\ Sealed.is_sealed f = true /\
  zlen f = zlen plaintext + Sealed.MIN_BYTES_LEN /\ Sealed.open g pass = Ok identity.
Proof.
  intros Hf Hg. destruct (seal_bytes_opens _ _ _ _ _ Hf) as (H1 & H2 & H3). split; [done|]. split; [done|].
  split; [done|]. unfold Sealed.seal in Hg. destruct (seal_bytes_opens _ _ _ _ _ Hg) as (Ho & _ & _).
  unfold Sealed.open. rewrite Ho. cbn [rbind]. unfold Sealed.SECRET_LEN.
  by rewrite (try_into_ab identity).
Qed.

End Properties.

(** ** Witnesses *)

Import Toy.

Module AtRestExample.

#[export] Instance argon2 : Argon2 := fun pass salt => Some (be_arr 32 (Toy.sum (pass ++ salt))).

Definition pass : bytes := [x70; x61].
Definition other : bytes := [x71].
Definition salt : arr 16 := be_arr 16 11.
Definition nonce : arr 24 := be_arr 24 12.
Definition os : list Vault.op := [Vault.OSeal other [x01; x02] salt nonce; Vault.OOpen pass None].
Definition file : bytes :=
  match (Vault.seal (Vault.run os) pass [x05; x06] salt nonce).1 with Ok f => f | Err _ => [] end.
Definition sealed : bytes :=
  match Sealed.seal_bytes [x05] pass salt nonce with Ok f => f | Err _ => [] end.
Definition identity : bytes :=
  match Sealed.seal (be_arr 32 9) pass salt nonce with Ok f => f | Err _ => [] end.

Lemma differ : VaultLemmas.bindings_differ (pass :: (Vault.op_passphrase <$> os)).
Proof.
  intros p q Hp Hq Heq. apply list_elem_of_In in Hp, Hq. simpl in Hp, Hq.
  destruct Hp as [<-|[<-|[<-|[]]]], Hq as [<-|[<-|[<-|[]]]]; try reflexivity;
    vm_compute in Heq; discriminate.
Qed.

End AtRestExample.

Export (hints) AtRestExample.

Lemma cache_is_transparent_witness :
  (Vault.open (Vault.run AtRestExample.os) AtRestExample.pass (Some AtRestExample.file)).1 =
  (Vault.open Vault.start AtRestExample.pass (Some AtRestExample.file)).1.
Proof.
  exact (cache_is_transparent AtRestExample.os AtRestExample.pass (Some AtRestExample.file)
    AtRestExample.differ).
Defined.

Lemma sealed_vault_opens_witness :
  (Vault.open Vault.start AtRestExample.pass (Some AtRestExample.file)).1 = Ok (Some [x05; x06]).
Proof.
  refine (proj1 (proj2 (sealed_vault_opens AtRestExample.os AtRestExample.pass [x05; x06]
    AtRestExample.salt AtRestExample.nonce AtRestExample.file
    (Vault.seal (Vault.run AtRestExample.os) AtRestExample.pass [x05; x06] AtRestExample.salt
      AtRestExample.nonce).2 AtRestExample.differ _))).
  vm_compute. reflexivity.
Defined.

Lemma resealing_derives_nothing_witness :
  let p1 := (Vault.seal Vault.start AtRestExample.pass [x01] AtRestExample.salt
    AtRestExample.nonce).2 in
  foldl (fun q w => (Vault.seal q AtRestExample.pass w.1.1 w.1.2 w.2).2) p1
    [([x02], be_arr 16 1, be_arr 24 2); ([x03], be_arr 16 3, be_arr 24 4)] = p1.
Proof.
  refine (resealing_derives_nothing Vault.start AtRestExample.pass [x01] AtRestExample.salt
    AtRestExample.nonce
    (match (Vault.seal Vault.start AtRestExample.pass [x01] AtRestExample.salt
      AtRestExample.nonce).1 with Ok f => f | Err _ => [] end) _ _ _).
  vm_compute. reflexivity.
Defined.

Lemma sealed_identity_opens_witness :
  Sealed.open_bytes AtRestExample.sealed AtRestExample.pass = Ok [x05] /\
  Sealed.open AtRestExample.identity AtRestExample.pass = Ok (be_arr 32 9).
Proof.
  destruct (sealed_identity_opens (be_arr 32 9) [x05] AtRestExample.pass AtRestExample.salt
    AtRestExample.nonce AtRestExample.sealed AtRestExample.identity) as (H1 & _ & _ & H4);
    [vm_compute; reflexivity|vm_compute; reflexivity|].
  split; [exact H1|exact H4].
Defined.
