(* ===== verification/Directory.v ===== *)
(** * The constellation directory, and where a tag is placed

    [crates/rotelyx-directory/src/lib.rs].  Rendezvous hashing: every mailbox is
    scored against the tag, and the best few hold it.  Reading and writing the
    directory's JSON is [serde_json]'s and is left out. *)

From S2P Require Import Prelude Crypto.

Record Mailbox := mkMailbox { id : rstring; url : rstring }.

#[export] Instance Mailbox_eq_dec : EqDecision Mailbox.
Proof. solve_decision. Defined.

Record Directory := mkDirectory {
  version : Z;
  replicas : Z;
  mailboxes : list Mailbox;
}.

Section Placement.
  Context `{BH : Blake3Hash}.

Definition score (i : rstring) (tag : arr 32) : Z :=
  be_value (slice (ab (blake3_hash (be_bytes 8 (zlen (rs i)) ++ rs i ++ ab tag))) 0 8).

(** The comparison [placement] sorts by: [b.0.cmp(&a.0).then_with(|| id.cmp)] is
    not [Greater]. *)
Definition ranks (a b : Z * Mailbox) : bool :=
  (b.1 <? a.1) || ((a.1 =? b.1) && bytes_le (rs (id a.2)) (rs (id b.2))).

Definition placement (d : Directory) (tag : arr 32) : list Mailbox :=
  let scored := (fun m => (score (id m) tag, m)) <$> mailboxes d in
  snd <$> take (Z.to_nat (replicas d)) (sort_by ranks scored).

Record PlacementDelta := mkDelta {
  added : list Mailbox;
  removed : list Mailbox;
  kept : list Mailbox;
}.

Definition is_unchanged (p : PlacementDelta) : bool :=
  bool_decide (added p = []) && bool_decide (removed p = []).

Definition supersedes (d current : Directory) : bool := version current <? version d.

(** Membership in a set of ids. *)
Definition holds_id (l : list Mailbox) (m : Mailbox) : bool := bool_decide (id m ∈ id <$> l).

Definition placement_delta (d next : Directory) (tag : arr 32) : PlacementDelta :=
  let before := placement d tag in
  let after := placement next tag in
  mkDelta (retain (fun m => negb (holds_id before m)) after)
    (retain (fun m => negb (holds_id after m)) before)
    (retain (holds_id before) after).

(** ** Lemmas *)

Lemma ranks_iff a b :
  ranks a b = true <->
  b.1 < a.1 \/ (a.1 = b.1 /\ bytes_le (rs (id a.2)) (rs (id b.2)) = true).
Proof. unfold ranks. by rewrite orb_true_iff, andb_true_iff, Z.ltb_lt, Z.eqb_eq. Qed.

Lemma ranks_total a b : ranks a b = true \/ ranks b a = true.
Proof.
  rewrite !ranks_iff. pose proof (bytes_le_total (rs (id a.2)) (rs (id b.2))).
  destruct (Z.lt_trichotomy a.1 b.1) as [|[|]]; intuition.
Qed.

Lemma ranks_trans a b c : ranks a b = true -> ranks b c = true -> ranks a c = true.
Proof.
  rewrite !ranks_iff. intros [H1|[H1 H1']] [H2|[H2 H2']]; [left; lia..|right].
  split; [lia|]. by eapply bytes_le_trans.
Qed.

Hint Resolve ranks_total ranks_trans : rx.

(** The order as one on mailboxes, for one tag. *)
Definition before_for (tag : arr 32) (m n : Mailbox) : bool :=
  ranks (score (id m) tag, m) (score (id n) tag, n).

Lemma before_for_total tag m n : before_for tag m n = true \/ before_for tag n m = true.
Proof. apply ranks_total. Qed.

Lemma before_for_trans tag m n o :
  before_for tag m n = true -> before_for tag n o = true -> before_for tag m o = true.
Proof. apply ranks_trans. Qed.

Lemma before_for_antisym tag m n :
  before_for tag m n = true -> before_for tag n m = true -> id m = id n.
Proof.
  unfold before_for. rewrite !ranks_iff. simpl. intros [H1|[H1 H1']] [H2|[H2 H2']]; try lia.
  by apply rstring_eq, bytes_le_antisym.
Qed.

(** Scores are computed once and carried; sorting with them is sorting by them. *)
Lemma sort_scored tag l :
  snd <$> sort_by ranks ((fun m => (score (id m) tag, m)) <$> l) = sort_by (before_for tag) l.
Proof.
  assert (forall k : list Mailbox, snd <$> ((fun m => (score (id m) tag, m)) <$> k) = k) as Hsnd.
  { intros k. induction k as [|m k IH]; [done|]. cbn. by f_equal. }
  enough (sort_by ranks ((fun m => (score (id m) tag, m)) <$> l) =
    (fun m => (score (id m) tag, m)) <$> sort_by (before_for tag) l) as -> by apply Hsnd.
  induction l as [|m l IH]; [done|]. cbn [fmap list_fmap]. simpl. rewrite IH.
  generalize (sort_by (before_for tag) l) as k. clear. intros k.
  induction k as [|n k IH]; [done|]. simpl. unfold before_for at 1.
  destruct (ranks _ _); [done|]. simpl. f_equal. exact IH.
Qed.

Definition ordered (d : Directory) (tag : arr 32) : list Mailbox :=
  sort_by (before_for tag) (mailboxes d).

Lemma placement_ordered d tag :
  placement d tag = take (Z.to_nat (replicas d)) (ordered d tag).
Proof. unfold placement, ordered. by rewrite fmap_take, sort_scored. Qed.

Lemma placement_sub d tag m : m ∈ placement d tag -> m ∈ mailboxes d.
Proof.
  rewrite placement_ordered. intros H. apply (elem_of_sort_by (before_for tag)).
  rewrite <- (take_drop (Z.to_nat (replicas d))). apply elem_of_app. by left.
Qed.

(** A mailbox keeps its id for life. *)
Definition distinct_ids (d : Directory) : Prop := NoDup (id <$> mailboxes d).

Lemma distinct_ids_inj d m n :
  distinct_ids d -> m ∈ mailboxes d -> n ∈ mailboxes d -> id m = id n -> m = n.
Proof.
  intros Hd [i Hi]%list_elem_of_lookup [j Hj]%list_elem_of_lookup He.
  assert (i = j) as ->; [|congruence].
  eapply (NoDup_lookup (id <$> mailboxes d)); [done|rewrite list_lookup_fmap, Hi; done|].
  rewrite list_lookup_fmap, Hj. simpl. by rewrite He.
Qed.

Lemma ordered_unique d tag k :
  distinct_ids d -> StronglySorted (fun a b => before_for tag a b = true) k ->
  k ≡ₚ mailboxes d -> k = ordered d tag.
Proof.
  intros Hd. apply sort_by_unique.
  - apply before_for_total.
  - apply before_for_trans.
  - intros x y Hx Hy H1 H2. apply (distinct_ids_inj d); try done.
    by eapply before_for_antisym.
Qed.

Lemma ordered_sorted d tag :
  StronglySorted (fun a b => before_for tag a b = true) (ordered d tag).
Proof. apply sort_by_sorted; [apply before_for_total|apply before_for_trans]. Qed.
End Placement.

(** ** Properties *)

Section Properties.
Context `{BH : Blake3Hash}.

(** Placement is the top of the ranking, whatever order the directory lists its
    mailboxes in.  It names exactly [replicas] mailboxes, or all of them when there
    are fewer, without repetition and best first; every mailbox placed outranks every
    one that is not; and a directory listing the same mailboxes in another order
    places every tag on the same ones, in the same order. *)
Theorem placement_is_the_top d tag :
  distinct_ids d -> 0 <= replicas d ->
  zlen (placement d tag) = Z.min (replicas d) (zlen (mailboxes d)) /\
  NoDup (id <$> placement d tag) /\
  StronglySorted (fun a b => before_for tag a b = true) (placement d tag) /\
  (forall m n, m ∈ placement d tag -> n ∈ mailboxes d -> n ∉ placement d tag ->
     before_for tag m n = true) /\
  (forall ms, ms ≡ₚ mailboxes d ->
     placement (mkDirectory (version d) (replicas d) ms) tag = placement d tag).
Proof.
  intros Hd Hr. rewrite placement_ordered. pose proof (ordered_sorted d tag) as Hs.
  assert (ordered d tag ≡ₚ mailboxes d) as Hp by apply sort_by_perm.
  set (n := Z.to_nat (replicas d)). split_and!.
  - unfold zlen. rewrite length_take, (Permutation_length Hp). lia.
  - rewrite fmap_take. eapply sublist_NoDup; [|apply sublist_take].
    by rewrite Hp.
  - rewrite <- (take_drop n (ordered d tag)) in Hs. by apply StronglySorted_app_1_l in Hs.
  - intros x y Hx Hy Hny. rewrite <- (take_drop n (ordered d tag)) in Hs.
    apply StronglySorted_app in Hs as (Hs & _ & _). apply Hs; [done|].
    rewrite <- Hp, <- (take_drop n (ordered d tag)), elem_of_app in Hy. by destruct Hy.
  - intros ms Hms. rewrite placement_ordered. f_equal. apply ordered_unique; [done|..].
    + apply ordered_sorted.
    + transitivity ms; [apply sort_by_perm|done].
Qed.

Definition is_not (x m : Mailbox) : bool := negb (bool_decide (m = x)).

Lemma is_not_iff x m : is_not x m = true <-> m <> x.
Proof. unfold is_not. by rewrite negb_true_iff, bool_decide_eq_false. Qed.

Lemma retain_is_not_absent x k : x ∉ k -> retain (is_not x) k = k.
Proof. intros Hx. apply retain_all. intros m Hm. apply is_not_iff. by intros ->. Qed.

Lemma retain_is_not_cons x k : x ∉ k -> retain (is_not x) (x :: k) = k.
Proof.
  intros Hx. unfold retain. rewrite filter_cons.
  assert (is_not x x = false) as -> by (unfold is_not; by rewrite bool_decide_eq_true_2).
  simpl. by apply retain_is_not_absent.
Qed.

Lemma retain_one_short x k :
  NoDup k -> (length k <= S (length (retain (is_not x) k)))%nat.
Proof.
  intros Hk. destruct (decide (x ∈ k)) as [Hx|Hx]; [|rewrite retain_is_not_absent by done; lia].
  apply elem_of_Permutation in Hx as [k' Hp]. unfold retain.
  rewrite Hp in Hk |- *. apply NoDup_cons in Hk as [Hx _].
  pose proof (retain_is_not_cons x k' Hx) as E. unfold retain in E. rewrite E. simpl. lia.
Qed.

(** A mailbox joining a constellation moves no tag between the others.  Every
    other mailbox that holds the tag afterwards held it before, in the same order; at
    most one gives it up, and only when the newcomer took its place. *)
Theorem growth_moves_nothing_else d x ms tag :
  distinct_ids d -> id x ∉ id <$> mailboxes d -> ms ≡ₚ x :: mailboxes d ->
  let d' := mkDirectory (version d + 1) (replicas d) ms in
  exists n, retain (is_not x) (placement d' tag) = take n (placement d tag) /\
    (length (placement d tag) <= S n)%nat /\
    (x ∉ placement d' tag -> placement d' tag = placement d tag).
Proof.
  intros Hd Hx Hms d'. rewrite !placement_ordered. cbn [replicas d'].
  set (r := Z.to_nat (replicas d)).
  assert (distinct_ids d') as Hd'.
  { unfold distinct_ids. simpl. rewrite Hms. simpl. by apply NoDup_cons. }
  assert (ordered d' tag ≡ₚ x :: mailboxes d) as Hp by (rewrite <- Hms; apply sort_by_perm).
  assert (retain (is_not x) (ordered d' tag) = ordered d tag) as Hrest.
  { apply ordered_unique; [done| |].
    - apply StronglySorted_retain, ordered_sorted.
    - assert (x ∉ mailboxes d) as Hnx.
      { intros Hin. apply Hx, list_elem_of_fmap. by exists x. }
      unfold retain. rewrite Hp. pose proof (retain_is_not_cons x _ Hnx) as E.
      unfold retain in E. by rewrite E. }
  pose proof (retain_take (is_not x) r (ordered d' tag)) as Ht. rewrite Hrest in Ht.
  assert (length (retain (is_not x) (take r (ordered d' tag))) <= r)%nat as Hlen.
  { etransitivity; [apply length_retain_le|]. rewrite length_take. lia. }
  exists (length (retain (is_not x) (take r (ordered d' tag)))). split_and!.
  - rewrite take_take, Nat.min_l by done. done.
  - etransitivity; [|apply retain_one_short].
    + rewrite !length_take, (Permutation_length Hp).
      unfold ordered. rewrite length_sort_by. simpl. lia.
    + eapply sublist_NoDup; [|apply sublist_take]. rewrite Hp. apply (NoDup_fmap_1 id). simpl. by apply NoDup_cons.
  - intros Hnx. rewrite retain_is_not_absent in Ht by done.
    rewrite Ht. rewrite length_take, <- take_take. f_equal.
    unfold ordered at 2. rewrite (Permutation_length Hp). 
    rewrite take_ge; [done|]. unfold ordered. rewrite length_sort_by. simpl. lia.
Qed.

(** Sorting looks at ids only. *)
Lemma ordered_ids tag l k :
  id <$> l = id <$> k ->
  id <$> sort_by (before_for tag) l = id <$> sort_by (before_for tag) k.
Proof.
  assert (forall x y l k, id x = id y -> id <$> l = id <$> k ->
    id <$> sort_insert (before_for tag) x l = id <$> sort_insert (before_for tag) y k) as Hins.
  { intros x y l'. induction l' as [|m l' IH]; intros [|n k'] Hx Hl; csimpl; try done.
    - by rewrite Hx.
    - injection Hl as Hm Hl. change (id <$> l' = id <$> k') in Hl.
      assert (before_for tag x m = before_for tag y n) as ->
        by (unfold before_for, ranks; simpl; by rewrite Hx, Hm).
      destruct (before_for tag y n); csimpl; [by rewrite Hx, Hm, Hl|].
      rewrite Hm. f_equal. by apply IH. }
  revert k. induction l as [|x l IH]; intros [|y k] Hl; csimpl; try done.
  injection Hl as Hx Hl. apply Hins; [done|]. by apply IH.
Qed.

Lemma holds_id_iff l m : holds_id l m = true <-> id m ∈ id <$> l.
Proof. unfold holds_id. by rewrite bool_decide_eq_true. Qed.

Lemma retain_nil {A} (p : A -> bool) l : retain p l = [] <-> forall x, x ∈ l -> p x = false.
Proof.
  split.
  - intros H x Hx. destruct (p x) eqn:E; [|done].
    assert (x ∈ retain p l) as Hin by (by apply elem_of_retain).
    rewrite H in Hin. by apply not_elem_of_nil in Hin.
  - intros H. destruct (retain p l) as [|x k] eqn:E; [done|].
    assert (x ∈ retain p l) as [Hp Hx]%elem_of_retain by (rewrite E; left).
    rewrite H in Hp; done.
Qed.

Lemma ids_not_held l k :
  retain (fun m => negb (holds_id l m)) k = [] <-> (forall i, i ∈ id <$> k -> i ∈ id <$> l).
Proof.
  rewrite retain_nil. setoid_rewrite negb_false_iff. setoid_rewrite holds_id_iff. split.
  - intros H i (m & -> & Hm)%list_elem_of_fmap. by apply H.
  - intros H m Hm. apply H. by apply list_elem_of_fmap_2.
Qed.

(** A client that applies a delta is where the new directory puts it.  What it
    adds and what it keeps are together exactly the new placement, with the new
    addresses; what it drops held the tag and does not any more; nothing is both
    added and already held; and the delta is empty exactly when the same mailboxes
    hold the tag.  A directory in which only addresses changed moves no tag. *)
Theorem delta_reconciles d next tag :
  let p := placement_delta d next tag in
  added p ++ kept p ≡ₚ placement next tag /\
  (forall m, m ∈ kept p <-> m ∈ placement next tag /\ id m ∈ id <$> placement d tag) /\
  (forall m, m ∈ removed p <-> m ∈ placement d tag /\ id m ∉ id <$> placement next tag) /\
  (forall m, m ∈ added p -> id m ∉ id <$> placement d tag) /\
  (is_unchanged p = true <->
     forall i, i ∈ id <$> placement d tag <-> i ∈ id <$> placement next tag) /\
  (id <$> mailboxes d = id <$> mailboxes next -> replicas d = replicas next ->
     is_unchanged p = true /\ kept p = placement next tag).
Proof.
  intros p. subst p. unfold placement_delta. cbn [added removed kept]. split_and!.
  - rewrite (Permutation_app_comm). unfold retain.
    induction (placement next tag) as [|m l IH]; [done|]. rewrite !filter_cons.
    destruct (holds_id (placement d tag) m); simpl; [by constructor|].
    by rewrite <- Permutation_middle, IH.
  - intros m. rewrite elem_of_retain, holds_id_iff. naive_solver.
  - intros m. rewrite elem_of_retain, negb_true_iff. unfold holds_id.
    rewrite bool_decide_eq_false. naive_solver.
  - intros m. rewrite elem_of_retain, negb_true_iff. unfold holds_id.
    rewrite bool_decide_eq_false. naive_solver.
  - unfold is_unchanged. cbn [added removed]. rewrite andb_true_iff, !bool_decide_eq_true.
    rewrite !ids_not_held. naive_solver.
  - intros Hids Hr.
    assert (id <$> placement d tag = id <$> placement next tag) as Hsame.
    { rewrite !placement_ordered, !fmap_take, Hr. f_equal. by apply ordered_ids. }
    split.
    + unfold is_unchanged. cbn [added removed]. rewrite andb_true_iff, !bool_decide_eq_true.
      rewrite !ids_not_held, Hsame. done.
    + apply retain_all. intros m Hm. rewrite holds_id_iff, Hsame.
      by apply list_elem_of_fmap_2.
Qed.
End Properties.

Module DirectoryExample.
Import Toy.
Definition name (b : byte) : rstring :=
  match from_utf8 [b] with Some s => s | None => RString [] I end.
Definition box (b : byte) : Mailbox := mkMailbox (name b) (name b).
Definition three : Directory := mkDirectory 1 2 [box x61; box x62; box x63].
Definition tag : arr 32 := be_arr 32 5.
Definition moved : Directory :=
  mkDirectory 2 2 [mkMailbox (name x61) (name x7a); box x62; box x63].
End DirectoryExample.

Import DirectoryExample.

Lemma placement_is_the_top_witness :
  zlen (placement (BH := Toy.blake3_plain) three tag) = 2 /\
  placement (BH := Toy.blake3_plain) (mkDirectory 1 2 [box x63; box x61; box x62]) tag =
    placement (BH := Toy.blake3_plain) three tag.
Proof.
  assert (distinct_ids three) as Hd by (apply (bool_decide_unpack _); vm_compute; exact I).
  destruct (placement_is_the_top (BH := Toy.blake3_plain) three tag Hd
    ltac:(vm_compute; congruence)) as (Hn & _ & _ & _ & Hp).
  split; [exact Hn|]. apply Hp. apply (Permutation_app_comm [box x63] [box x61; box x62]).
Defined.

Lemma growth_moves_nothing_else_witness :
  exists n, retain (is_not (box x64))
      (placement (BH := Toy.blake3_plain)
        (mkDirectory 2 2 [box x64; box x61; box x62; box x63]) tag) =
    take n (placement (BH := Toy.blake3_plain) three tag).
Proof.
  destruct (growth_moves_nothing_else (BH := Toy.blake3_plain) three (box x64)
    [box x64; box x61; box x62; box x63] tag) as (n & Hn & _).
  - apply (bool_decide_unpack _). vm_compute. exact I.
  - apply (bool_decide_unpack _). vm_compute. exact I.
  - reflexivity.
  - exists n. exact Hn.
Defined.
