(* ===== verification/Group.v ===== *)
(** * Conversations: what is decided around the group protocol

    [crates/rotelyx-crypto/src/group.rs].  The group itself is OpenMLS, which is not
    in the repository: the class [Mls] lists the operations [Conversation] calls.
    What is modelled is what the code adds to it: sequence numbers and the window of
    those spent (Module [Seen]), identities and administrators in credentials and
    extensions, commits held unmerged and the race between two of them, and the rules
    on who may admit somebody. *)

From S2P Require Import Prelude Crypto.

Definition SEQ_LEN : nat := 8.
Definition MAX_PERSON_LEN : Z := 255.
Definition ADMINS_EXTENSION : Z := 61441.

Inductive GroupError :=
| MlsFailed
| Codec
| UnexpectedMessage
| NoSuchMember
| PersonTooLong (len : Z)
| CannotRemoveSelf
| AddedWithoutASecondMember
| NothingToConfirm
| TheGroupHasSplit (theirs ours : Z)
| TooManyAdmins (count : Z)
| AddedBySomebodyWhoIsNotAnAdmin
| RestoredAndNotRekeyed
| NoSequence
| SequenceSpent (seq : Z)
| UnattributedMessage.

(** ** Sequence numbers spent by one sender at one epoch *)

Module Seen.

Definition REPLAY_WINDOW : Z := 64.

Record SeenFrom := mkSeen { high : Z; window : Z }.

Definition none : SeenFrom := mkSeen 0 0.

(** [u64 << s] drops what leaves the word. *)
Definition admits (s : SeenFrom) (seq : Z) : bool * SeenFrom :=
  if high s <? seq then
    let step := seq - high s in
    let w :=
      if REPLAY_WINDOW <? step then 0
      else if step =? REPLAY_WINDOW then Z.shiftl 1 (REPLAY_WINDOW - 1)
      else Z.lor (wrap64 (Z.shiftl (window s) step)) (Z.shiftl 1 (step - 1)) in
    (true, mkSeen seq w)
  else
    let back := high s - seq in
    if (back =? 0) || (REPLAY_WINDOW <? back) then (false, s)
    else
      let bit := Z.shiftl 1 (back - 1) in
      if negb (Z.land (window s) bit =? 0) then (false, s)
      else (true, mkSeen (high s) (Z.lor (window s) bit)).

(** The reference: every number spent, zero among them from the start. *)
Definition reference_admits (spent : list Z) (seq : Z) : bool :=
  bool_decide (seq ∉ spent) && (foldr Z.max 0 spent - seq <=? REPLAY_WINDOW).

Fixpoint run (s : SeenFrom) (seqs : list Z) : list bool :=
  match seqs with
  | [] => []
  | q :: qs => let '(b, s) := admits s q in b :: run s qs
  end.

Fixpoint reference_run (spent : list Z) (seqs : list Z) : list bool :=
  match seqs with
  | [] => []
  | q :: qs =>
      let b := reference_admits spent q in
      b :: reference_run (if b then q :: spent else spent) qs
  end.

(** The mark is the largest number spent, and bit [i] says whether the number
    [i + 1] below it is. *)
Record covers (s : SeenFrom) (spent : list Z) : Prop := {
  co_high : high s ∈ spent;
  co_max : forall q, q ∈ spent -> 0 <= q <= high s;
  co_bits : forall i, 0 <= i < 64 -> Z.testbit (window s) i = bool_decide (high s - 1 - i ∈ spent);
}.

Lemma covers_none : covers none [0].
Proof.
  split; simpl.
  - left.
  - intros q ->%list_elem_of_singleton. lia.
  - intros i Hi. rewrite Z.bits_0, bool_decide_eq_false_2; [done|].
    intros H%list_elem_of_singleton. lia.
Qed.

Lemma covers_max s spent : covers s spent -> foldr Z.max 0 spent = high s.
Proof.
  intros [Hh Hm _].
  assert (forall l, (forall q, q ∈ l -> 0 <= q <= high s) ->
    0 <= foldr Z.max 0 l <= high s /\ forall q, q ∈ l -> q <= foldr Z.max 0 l) as H.
  { induction l as [|x l IH]; intros Hl; simpl.
    - split; [specialize (Hm _ Hh); lia|]. intros q Hq. by apply not_elem_of_nil in Hq.
    - destruct IH as [IH1 IH2]; [intros q Hq; apply Hl; by right|].
      specialize (Hl x ltac:(left)). split; [lia|].
      intros q [->|Hq]%elem_of_cons; [lia|]. specialize (IH2 q Hq). lia. }
  destruct (H spent Hm) as [H1 H2]. specialize (H2 _ Hh). lia.
Qed.

(** The window after a jump of [step]. *)
Lemma jump_bit w step i :
  0 < step -> 0 <= i < 64 ->
  Z.testbit
    (if REPLAY_WINDOW <? step then 0
     else if step =? REPLAY_WINDOW then Z.shiftl 1 (REPLAY_WINDOW - 1)
     else Z.lor (wrap64 (Z.shiftl w step)) (Z.shiftl 1 (step - 1))) i =
  (i =? step - 1) || ((step <=? i) && Z.testbit w (i - step)).
Proof.
  intros Hs Hi. unfold REPLAY_WINDOW. case_cmp.
  - rewrite Z.bits_0, (proj2 (Z.eqb_neq _ _)), (proj2 (Z.leb_gt _ _)) by lia. done.
  - destruct (Z.eqb_spec step 64) as [->|Hne].
    + rewrite Z.shiftl_1_l, (Z.pow2_bits_eqb (64 - 1) i), Z.eqb_sym by lia.
      rewrite (proj2 (Z.leb_gt 64 i)) by lia. simpl. by rewrite orb_false_r.
    + rewrite Z.lor_spec, Z.shiftl_1_l, (Z.pow2_bits_eqb (step - 1) i), Z.eqb_sym by lia.
      rewrite orb_comm. f_equal. unfold wrap64.
      change 18446744073709551616 with (2 ^ 64). rewrite Z.mod_pow2_bits_low by lia.
      destruct (Z.leb_spec step i); simpl.
      * by rewrite Z.shiftl_spec by lia.
      * by rewrite Z.shiftl_spec_low.
Qed.

Lemma jump_covers s spent seq :
  covers s spent -> high s < seq ->
  covers (mkSeen seq
    (let step := seq - high s in
     if REPLAY_WINDOW <? step then 0
     else if step =? REPLAY_WINDOW then Z.shiftl 1 (REPLAY_WINDOW - 1)
     else Z.lor (wrap64 (Z.shiftl (window s) step)) (Z.shiftl 1 (step - 1)))) (seq :: spent).
Proof.
  intros [Hh Hm Hb] Hlt. pose proof (Hm _ Hh). split; cbn [high window]; cbv zeta.
  - left.
  - intros q [->|Hin]%elem_of_cons; [lia|]. specialize (Hm _ Hin). lia.
  - intros i Hi. rewrite jump_bit by lia.
    assert (seq - 1 - i <> seq) as Hne by lia.
    destruct (Z.eqb_spec i (seq - high s - 1)) as [->|Hi1]; simpl.
    + symmetry. apply bool_decide_eq_true_2. right.
      by replace (seq - 1 - (seq - high s - 1)) with (high s) by lia.
    + destruct (Z.leb_spec (seq - high s) i); simpl.
      * rewrite Hb by lia. replace (high s - 1 - (i - (seq - high s))) with (seq - 1 - i) by lia.
        apply bool_decide_ext. rewrite elem_of_cons. naive_solver.
      * symmetry. apply bool_decide_eq_false_2. intros [?|Hin]%elem_of_cons; [lia|].
        specialize (Hm _ Hin). lia.
Qed.

Lemma below_covers s spent seq :
  covers s spent -> 0 < high s - seq <= REPLAY_WINDOW -> 0 <= seq ->
  covers (mkSeen (high s) (Z.lor (window s) (Z.shiftl 1 (high s - seq - 1)))) (seq :: spent).
Proof.
  unfold REPLAY_WINDOW. intros [Hh Hm Hb] Hback Hq. split; cbn [high window].
  - by right.
  - intros q [->|Hin]%elem_of_cons; [lia|]. by apply Hm.
  - intros i Hi. rewrite Z.lor_spec, Z.shiftl_1_l, Z.pow2_bits_eqb, Hb by lia.
    destruct (Z.eqb_spec (high s - seq - 1) i) as [<-|Hi1].
    + rewrite orb_true_r. symmetry. apply bool_decide_eq_true_2.
      replace (high s - 1 - (high s - seq - 1)) with seq by lia. left.
    + rewrite orb_false_r. apply bool_decide_ext. rewrite elem_of_cons.
      split; [by right|]. intros [?|]; [lia|done].
Qed.

Lemma admits_covers s spent seq :
  covers s spent -> 0 <= seq ->
  (admits s seq).1 = reference_admits spent seq /\
  covers (admits s seq).2 (if reference_admits spent seq then seq :: spent else spent).
Proof.
  intros Hc Hq. pose proof (covers_max _ _ Hc) as Hmax. pose proof Hc as [Hh Hm Hb].
  unfold reference_admits. rewrite Hmax. unfold admits.
  destruct (Z.ltb_spec (high s) seq) as [Hlt|Hge].
  - rewrite bool_decide_eq_true_2 by (intros Hin; specialize (Hm _ Hin); lia).
    rewrite (proj2 (Z.leb_le _ _)) by (unfold REPLAY_WINDOW; lia). split; [done|].
    by apply jump_covers.
  - cbv zeta. destruct (Z.eqb_spec (high s - seq) 0) as [H0|H0]; simpl.
    + rewrite bool_decide_eq_false_2; [done|]. intros Hn. apply Hn.
      by replace seq with (high s) by lia.
    + destruct (Z.ltb_spec REPLAY_WINDOW (high s - seq)) as [H64|H64].
      * rewrite (proj2 (Z.leb_gt _ _)) by lia. by rewrite andb_false_r.
      * rewrite (proj2 (Z.leb_le _ _)), andb_true_r by lia.
        rewrite land_bit by lia. unfold REPLAY_WINDOW in *. rewrite Hb by lia.
        replace (high s - 1 - (high s - seq - 1)) with seq by lia.
        destruct (decide (seq ∈ spent)) as [Hin|Hin].
        -- rewrite (bool_decide_eq_true_2 (seq ∈ spent)) by done.
           rewrite bool_decide_eq_false_2; [done|]. intros Hn. by apply Hn.
        -- rewrite (bool_decide_eq_false_2 (seq ∈ spent)) by done.
           rewrite bool_decide_eq_true_2 by done. split; [done|].
           apply below_covers; [done|unfold REPLAY_WINDOW; lia|done].
Qed.

Lemma run_covers s spent seqs :
  covers s spent -> Forall (fun q => 0 <= q) seqs -> run s seqs = reference_run spent seqs.
Proof.
  intros Hc Hq. revert s spent Hc. induction Hq as [|q seqs Hq _ IH]; intros s spent Hc; [done|].
  simpl. destruct (admits_covers s spent q Hc Hq) as [Hb Hs].
  destruct (admits s q) as [b s']. simpl in *. rewrite Hb. f_equal. by apply IH.
Qed.

(** A number is admitted once. *)
Lemma admits_spent s spent seq :
  covers s spent -> 0 <= seq -> (admits s seq).1 = true -> seq ∉ spent.
Proof.
  intros Hc Hq Ha. rewrite (proj1 (admits_covers _ _ _ Hc Hq)) in Ha.
  unfold reference_admits in Ha. apply andb_prop in Ha as [Ha _]. by apply bool_decide_eq_true in Ha.
Qed.

End Seen.

(** ** Identities and administrators, in bytes *)

Fixpoint encode_each (admins : list bytes) : Result bytes GroupError :=
  match admins with
  | [] => Ok []
  | who :: rest =>
      if 255 <? zlen who then Err (PersonTooLong (zlen who))
      else let? more := encode_each rest in Ok (z2b (zlen who) :: who ++ more)
  end.

Definition encode_admins (admins : list bytes) : Result bytes GroupError :=
  if 255 <? zlen admins then Err (TooManyAdmins (zlen admins))
  else let? out := encode_each admins in Ok (z2b (zlen admins) :: out).

(** The [for] loop of [decode_admins]; what is left of the bytes stands for [at]. *)
Fixpoint decode_each (count : nat) (l : bytes) : option (list bytes * bytes) :=
  match count, l with
  | O, _ => Some ([], l)
  | S _, [] => None
  | S count, len :: l =>
      let n := Z.to_nat (b2z len) in
      if (length l <? n)%nat then None
      else
        out ← decode_each count (drop n l);
        Some (take n l :: out.1, out.2)
  end.

Definition decode_admins (l : bytes) : option (list bytes) :=
  match l with
  | [] => None
  | count :: l =>
      out ← decode_each (Z.to_nat (b2z count)) l;
      match out.2 with [] => Some out.1 | _ => None end
  end.

Definition encode_identity (person device : bytes) : Result bytes GroupError :=
  if MAX_PERSON_LEN <? zlen person then Err (PersonTooLong (zlen person))
  else Ok (z2b (zlen person) :: person ++ device).

Definition decode_identity (credential : bytes) : option (bytes * bytes) :=
  match credential with
  | [] => None
  | len :: rest =>
      let n := Z.to_nat (b2z len) in
      if (length rest <? n)%nat then None else Some (take n rest, drop n rest)
  end.

Record Participant := mkParticipant {
  identity : bytes;
  device : bytes;
  signature_key : bytes;
  well_formed : bool;
}.

#[export] Instance Participant_eq_dec : EqDecision Participant.
Proof. solve_decision. Defined.

Definition from_credential (credential signature_key : bytes) : Participant :=
  match decode_identity credential with
  | Some (person, device) => mkParticipant person device signature_key true
  | None => mkParticipant credential [] signature_key false
  end.

Definition same_person_as (a b : Participant) : bool :=
  well_formed a && well_formed b && bool_decide (identity a = identity b).

Definition split_sequence (l : bytes) : Result (Z * bytes) GroupError :=
  if (length l <? SEQ_LEN)%nat then Err NoSequence
  else Ok (be_value (take SEQ_LEN l), drop SEQ_LEN l).

Lemma split_sequence_framed seq body :
  u64 seq -> split_sequence (be_bytes 8 seq ++ body) = Ok (seq, body).
Proof.
  intros Hs. unfold split_sequence, SEQ_LEN.
  rewrite (proj2 (Nat.ltb_ge _ _)) by (rewrite length_app, length_be_bytes; lia).
  rewrite take_app_length', drop_app_length' by (symmetry; apply length_be_bytes).
  by rewrite be_value_bytes_small by (by apply u64_pow).
Qed.

(** A length byte and what it counts. *)
Lemma counted_split (who rest : bytes) :
  zlen who <= 255 ->
  let n := Z.to_nat (b2z (z2b (zlen who))) in
  (length (who ++ rest) <? n)%nat = false /\
  take n (who ++ rest) = who /\ drop n (who ++ rest) = rest.
Proof.
  intros H n. assert (n = length who) as ->.
  { unfold n. rewrite b2z_z2b_small; unfold zlen in *; lia. }
  rewrite take_app_length, drop_app_length. split; [|done].
  apply Nat.ltb_ge. rewrite length_app. lia.
Qed.

Lemma decode_encode_each admins out rest :
  encode_each admins = Ok out -> decode_each (length admins) (out ++ rest) = Some (admins, rest).
Proof.
  revert out. induction admins as [|who admins IH]; intros out; simpl; [by intros [= <-]|].
  destruct (Z.ltb_spec 255 (zlen who)); [done|].
  rewrite rbind_ok. intros (more & Hm & [= <-]). simpl. rewrite <- app_assoc.
  destruct (counted_split who (more ++ rest)) as (-> & -> & ->); [done|].
  by rewrite (IH more Hm).
Qed.

Lemma encode_decode_each n l admins rest :
  decode_each n l = Some (admins, rest) ->
  length admins = n /\ exists out, encode_each admins = Ok out /\ l = out ++ rest.
Proof.
  revert l admins. induction n as [|n IH]; intros l admins; simpl.
  { intros [= <- <-]. eauto. }
  destruct l as [|len l]; [done|]. destruct (Nat.ltb_spec (length l) (Z.to_nat (b2z len))); [done|].
  intros ([ads r] & Hd & [= <- <-])%bind_Some. destruct (IH _ _ Hd) as (Hn & out & Ho & Hl).
  simpl in *. split; [by rewrite Hn|].
  assert (zlen (take (Z.to_nat (b2z len)) l) = b2z len) as Hz.
  { pose proof (b2z_range len). unfold zlen. rewrite length_take. lia. }
  rewrite Hz, (proj2 (Z.ltb_ge _ _)) by (pose proof (b2z_range len); lia).
  rewrite Ho, z2b_b2z. simpl. eexists. split; [done|].
  rewrite <- app_comm_cons, <- app_assoc, <- Hl. by rewrite take_drop.
Qed.

Theorem admins_exact l admins :
  decode_admins l = Some admins <-> encode_admins admins = Ok l.
Proof.
  unfold decode_admins, encode_admins. split.
  - destruct l as [|count l]; [done|]. intros ([ads r] & Hd & Hr)%bind_Some. simpl in Hr.
    destruct r; [|done]. injection Hr as <-.
    destruct (encode_decode_each _ _ _ _ Hd) as (Hn & out & Ho & ->).
    assert (zlen ads = b2z count) as -> by (pose proof (b2z_range count); unfold zlen; lia).
    rewrite (proj2 (Z.ltb_ge _ _)) by (pose proof (b2z_range count); lia).
    by rewrite Ho, z2b_b2z, app_nil_r.
  - destruct (Z.ltb_spec 255 (zlen admins)); [done|]. rewrite rbind_ok.
    intros (out & Ho & [= <-]).
    assert (Z.to_nat (b2z (z2b (zlen admins))) = length admins) as ->.
    { rewrite b2z_z2b_small; unfold zlen in *; lia. }
    pose proof (decode_encode_each admins out [] Ho) as Hd. rewrite app_nil_r in Hd.
    by rewrite Hd.
Qed.

Theorem identity_exact credential person device :
  decode_identity credential = Some (person, device) <->
  encode_identity person device = Ok credential.
Proof.
  unfold decode_identity, encode_identity, MAX_PERSON_LEN. split.
  - destruct credential as [|len rest]; [done|]. pose proof (b2z_range len).
    destruct (Nat.ltb_spec (length rest) (Z.to_nat (b2z len))); [done|]. intros [= <- <-].
    assert (zlen (take (Z.to_nat (b2z len)) rest) = b2z len) as ->.
    { unfold zlen. rewrite length_take. lia. }
    rewrite (proj2 (Z.ltb_ge _ _)) by lia. by rewrite take_drop, z2b_b2z.
  - destruct (Z.ltb_spec 255 (zlen person)); [done|]. intros [= <-].
    by destruct (counted_split person device) as (-> & -> & ->).
Qed.

(** ** The group protocol, as the code calls it

    [MlsGroup] is the group together with the provider its keys are stored in, both
    OpenMLS's.  An operation answers [None] when the library refuses, and leaves
    whatever group it leaves. *)

Inductive MlsSender := SMember (index : Z) | SOther.

Record MemberRow := mkRow { m_index : Z; m_credential : bytes; m_signature_key : bytes }.

(** An [Add] in a staged commit: who proposed it, and the joiner's credential. *)
Record AddProposal := mkAdd { add_sender : MlsSender; add_credential : bytes }.

Inductive Extension := Unknown (id : Z) (data : bytes) | OtherExtension.

Inductive ContentType := CtApplication | CtProposal | CtCommit.

Inductive Content (S P : Type) :=
| ApplicationMessage (bytes : bytes)
| StagedCommitMessage (staged : S)
| ProposalMessage (proposal : P)
| OtherContent.
Arguments ApplicationMessage {S P} bytes.
Arguments StagedCommitMessage {S P} staged.
Arguments ProposalMessage {S P} proposal.
Arguments OtherContent {S P}.

Class Mls := {
  MlsGroup : Type;
  Signer : Type;
  MessageIn : Type;
  MessageOut : Type;
  Protocol : Type;
  Staged : Type;
  Proposal : Type;
  KeyPackage : Type;
  signer_public : Signer -> bytes;
  mls_epoch : MlsGroup -> Z;
  members : MlsGroup -> list MemberRow;
  extensions : MlsGroup -> list Extension;
  add_or_replace : list Extension -> Extension -> list Extension;
  tls_deserialize : bytes -> option MessageIn;
  tls_serialize : MessageOut -> option bytes;
  into_protocol : MessageIn -> option Protocol;
  content_type : Protocol -> ContentType;
  protocol_epoch : Protocol -> Z;
  process_message : MlsGroup -> Protocol -> option (MlsSender * Content Staged Proposal) * MlsGroup;
  add_proposals : Staged -> list AddProposal;
  (** the joiner's credential, when the proposal is an [Add] *)
  proposal_add : Proposal -> option bytes;
  pending_proposals : MlsGroup -> list Proposal;
  store_pending_proposal : MlsGroup -> Proposal -> option unit * MlsGroup;
  remove_pending_proposal : MlsGroup -> Proposal -> option unit * MlsGroup;
  merge_staged_commit : MlsGroup -> Staged -> option unit * MlsGroup;
  merge_pending_commit : MlsGroup -> option unit * MlsGroup;
  clear_pending_commit : MlsGroup -> option unit * MlsGroup;
  create_message : MlsGroup -> Signer -> bytes -> option MessageOut * MlsGroup;
  add_members : MlsGroup -> Signer -> KeyPackage -> option (MessageOut * MessageOut) * MlsGroup;
  propose_add_member : MlsGroup -> Signer -> KeyPackage -> option MessageOut * MlsGroup;
  commit_to_pending_proposals :
    MlsGroup -> Signer -> option (MessageOut * option MessageOut) * MlsGroup;
  remove_members : MlsGroup -> Signer -> list Z -> option MessageOut * MlsGroup;
  update_group_context_extensions :
    MlsGroup -> Signer -> list Extension -> option MessageOut * MlsGroup;
  (** [commit_builder().load_psks(..).build(..).stage_commit(..)] *)
  rekey_commit : MlsGroup -> Signer -> option MessageOut * MlsGroup;
}.

Record MembershipChange := mkChange {
  ch_added : list Participant;
  ch_removed : list Participant;
  ch_by : option Participant;
}.

Inductive Received :=
| Message (sender : option Z) (body : bytes)
| MembershipChanged (change : MembershipChange)
| AdditionProposed (by_ : option Participant) (joining : list Participant)
| Nothing
| OurCommitLost (instead : Received)
| TheirCommitLost.

Section Conversations.
Context `{BH : Blake3Hash, ML : Mls}.

Record Conversation := mkConversation {
  group : MlsGroup;
  restored_needs_rekey : bool;
  seq_epoch : Z;
  sent_seq : Z;
  seen_seq : gmap Z Seen.SeenFrom;
  last_applied : option (arr 32);
  pending : option bytes;
}.

Definition opened (g : MlsGroup) (restored : bool) : Conversation :=
  mkConversation g restored (mls_epoch g) 0 ∅ None None.

Definition epoch (c : Conversation) : Z := mls_epoch (group c).

Definition with_group (c : Conversation) (g : MlsGroup) : Conversation :=
  mkConversation g (restored_needs_rekey c) (seq_epoch c) (sent_seq c) (seen_seq c)
    (last_applied c) (pending c).

Definition with_pending (c : Conversation) (p : option bytes) : Conversation :=
  mkConversation (group c) (restored_needs_rekey c) (seq_epoch c) (sent_seq c) (seen_seq c)
    (last_applied c) p.

Definition with_applied (c : Conversation) (h : arr 32) : Conversation :=
  mkConversation (group c) (restored_needs_rekey c) (seq_epoch c) (sent_seq c) (seen_seq c)
    (Some h) (pending c).

Definition with_rekey (c : Conversation) (owed : bool) : Conversation :=
  mkConversation (group c) owed (seq_epoch c) (sent_seq c) (seen_seq c)
    (last_applied c) (pending c).

Definition with_sent (c : Conversation) (n : Z) : Conversation :=
  mkConversation (group c) (restored_needs_rekey c) (seq_epoch c) n (seen_seq c)
    (last_applied c) (pending c).

Definition with_seen (c : Conversation) (i : Z) (s : Seen.SeenFrom) : Conversation :=
  mkConversation (group c) (restored_needs_rekey c) (seq_epoch c) (sent_seq c)
    (<[i := s]> (seen_seq c)) (last_applied c) (pending c).

(** A call into the library, its refusal mapped to [e]. *)
Definition on_group {A} (op : MlsGroup -> option A * MlsGroup) (e : GroupError) (c : Conversation)
    : Result A GroupError * Conversation :=
  let '(r, g) := op (group c) in (ok_or e r, with_group c g).

Definition sync_seq_epoch (c : Conversation) : Conversation :=
  if epoch c =? seq_epoch c then c
  else mkConversation (group c) (restored_needs_rekey c) (epoch c) 0 ∅ (last_applied c) (pending c).

Definition row_participant (m : MemberRow) : Participant :=
  from_credential (m_credential m) (m_signature_key m).

Definition roster (g : MlsGroup) : list Participant := row_participant <$> members g.

Definition participant_at (g : MlsGroup) (i : Z) : option Participant :=
  row_participant <$> List.find (fun m => m_index m =? i) (members g).

Definition added_on_one_authority (g : MlsGroup) (staged : Staged) (committer : option Z) : bool :=
  if zlen (members g) <=? 1 then false
  else
    let committer_person :=
      match committer ≫= participant_at g with
      | Some p => if well_formed p then Some p else None
      | None => None
      end in
    existsb (fun add =>
      let proposed_by_committer :=
        match add_sender add with
        | SMember proposer => bool_decide (Some proposer = committer)
        | SOther => true
        end in
      if negb proposed_by_committer then false
      else
        let joining := from_credential (add_credential add) [] in
        match committer_person with
        | Some who => negb (same_person_as who joining)
        | None => true
        end) (add_proposals staged).

(** [Iterator::find_map]. *)
Fixpoint find_map {A B} (f : A -> option B) (l : list A) : option B :=
  match l with
  | [] => None
  | x :: l => match f x with Some y => Some y | None => find_map f l end
  end.

Definition admins (g : MlsGroup) : list bytes :=
  default [] (find_map (fun e =>
    match e with
    | Unknown i data => if i =? ADMINS_EXTENSION then decode_admins data else None
    | OtherExtension => None
    end) (extensions g)).

Definition admin_rule_applies (g : MlsGroup) : option (list bytes) :=
  match admins g with
  | [] => None
  | named =>
      if existsb (fun who =>
           existsb (fun p => well_formed p && bool_decide (identity p = who)) (roster g)) named
      then Some named else None
  end.

Definition added_by_somebody_who_may_not (g : MlsGroup) (staged : Staged) (committer : option Z)
    : bool :=
  match add_proposals staged with
  | [] => false
  | _ =>
      match admin_rule_applies g with
      | None => false
      | Some named =>
          match committer ≫= participant_at g with
          | None => true
          | Some who => negb (well_formed who && bool_decide (identity who ∈ named))
          end
      end
  end.

(** *** Commits of one's own *)

Definition settle (c : Conversation) : Result bool GroupError * Conversation :=
  match pending c with
  | None => (Ok false, c)
  | Some ours =>
      let c := with_applied (with_pending c None) (blake3_hash ours) in
      let! (_, c) := on_group merge_pending_commit MlsFailed c in
      (Ok true, c)
  end.

Definition hold (c : Conversation) (l : bytes) : Result unit GroupError * Conversation :=
  let! (_, c) := match pending c with Some _ => settle c | None => (Ok false, c) end in
  (Ok tt, with_pending c (Some l)).

Definition serialize (m : MessageOut) (c : Conversation) : Result bytes GroupError * Conversation :=
  (ok_or Codec (tls_serialize m), c).

(** Serialise a commit just made, and hold it. *)
Definition hold_commit (m : MessageOut) (c : Conversation) : Result bytes GroupError * Conversation :=
  let! (l, c) := serialize m c in
  let! (_, c) := hold c l in
  (Ok l, c).

Definition invite (c : Conversation) (by_ : Signer) (kp : KeyPackage)
    : Result (bytes * bytes) GroupError * Conversation :=
  let! (m, c) := on_group (fun g => add_members g by_ kp) MlsFailed c in
  let! (l, c) := hold_commit m.1 c in
  let! (w, c) := serialize m.2 c in
  (Ok (l, w), c).

Definition propose_invite (c : Conversation) (by_ : Signer) (kp : KeyPackage)
    : Result bytes GroupError * Conversation :=
  let! (m, c) := on_group (fun g => propose_add_member g by_ kp) MlsFailed c in
  serialize m c.

Definition confirm_additions (c : Conversation) (by_ : Signer)
    : Result (bytes * option bytes) GroupError * Conversation :=
  match pending_proposals (group c) with
  | [] => (Err NothingToConfirm, c)
  | _ =>
      let! (m, c) := on_group (fun g => commit_to_pending_proposals g by_) MlsFailed c in
      let! (w, c) :=
        match m.2 with
        | None => (Ok None, c)
        | Some w => let! (l, c) := serialize w c in (Ok (Some l), c)
        end in
      let! (l, c) := hold_commit m.1 c in
      (Ok (l, w), c)
  end.

Definition remove (c : Conversation) (by_ : Signer) (key : bytes)
    : Result bytes GroupError * Conversation :=
  match List.find (fun m => bool_decide (m_signature_key m = key)) (members (group c)) with
  | None => (Err NoSuchMember, c)
  | Some target =>
      if bool_decide (m_signature_key target = signer_public by_) then (Err CannotRemoveSelf, c)
      else
        let! (m, c) := on_group (fun g => remove_members g by_ [m_index target]) MlsFailed c in
        hold_commit m c
  end.

Definition set_admins (c : Conversation) (by_ : Signer) (named : list bytes)
    : Result bytes GroupError * Conversation :=
  match encode_admins named with
  | Err e => (Err e, c)
  | Ok encoded =>
      let exts := add_or_replace (extensions (group c)) (Unknown ADMINS_EXTENSION encoded) in
      let! (m, c) := on_group (fun g => update_group_context_extensions g by_ exts) MlsFailed c in
      hold_commit m c
  end.

Definition rekey_after_restore (c : Conversation) (by_ : Signer)
    : Result bytes GroupError * Conversation :=
  let! (m, c) := on_group (fun g => rekey_commit g by_) MlsFailed c in
  let! (l, c) := hold_commit m c in
  (Ok l, with_rekey c false).

(** *** Sending *)

Fixpoint each_proposal (op : MlsGroup -> Proposal -> option unit * MlsGroup) (ps : list Proposal)
    (c : Conversation) : Result unit GroupError * Conversation :=
  match ps with
  | [] => (Ok tt, c)
  | p :: ps =>
      let! (_, c) := on_group (fun g => op g p) MlsFailed c in
      each_proposal op ps c
  end.

Definition send (c : Conversation) (by_ : Signer) (plaintext : bytes)
    : Result bytes GroupError * Conversation :=
  if restored_needs_rekey c then (Err RestoredAndNotRekeyed, c)
  else
    let c := sync_seq_epoch c in
    let c := with_sent c (wrap64 (sent_seq c + 1)) in
    let framed := be_bytes 8 (sent_seq c) ++ plaintext in
    let parked := pending_proposals (group c) in
    if existsb (fun p => negb (bool_decide (is_Some (proposal_add p)))) parked then
      let! (m, c) := on_group (fun g => create_message g by_ framed) MlsFailed c in
      serialize m c
    else
      let! (_, c) := each_proposal remove_pending_proposal parked c in
      let '(created, g) := create_message (group c) by_ framed in
      let! (_, c) := each_proposal store_pending_proposal parked (with_group c g) in
      match created with
      | None => (Err MlsFailed, c)
      | Some m => serialize m c
      end.

(** *** Receiving *)

Definition wins (theirs ours : bytes) : bool :=
  negb (bytes_le (ab (blake3_hash ours)) (ab (blake3_hash theirs))).

Definition incoming (l : bytes) : Result Protocol GroupError :=
  let? m := ok_or Codec (tls_deserialize l) in
  ok_or MlsFailed (into_protocol m).

Definition sender_index (s : MlsSender) : option Z :=
  match s with SMember i => Some i | SOther => None end.

Definition receive_application (c : Conversation) (sender : option Z) (m : bytes)
    : Result Received GroupError * Conversation :=
  match split_sequence m with
  | Err e => (Err e, c)
  | Ok (seq, body) =>
      match sender with
      | None => (Err UnattributedMessage, c)
      | Some index =>
          let '(fresh, s) := Seen.admits (default Seen.none (seen_seq c !! index)) seq in
          let c := with_seen c index s in
          if fresh then (Ok (Message sender body), c) else (Err (SequenceSpent seq), c)
      end
  end.

(** Those of [l] whose signature key is nowhere in [k]. *)
Definition not_among (k l : list Participant) : list Participant :=
  retain (fun p => negb (existsb (fun q => bool_decide (signature_key q = signature_key p)) k)) l.

Definition receive_commit (c : Conversation) (l : bytes) (sender : option Z) (staged : Staged)
    : Result Received GroupError * Conversation :=
  let before := roster (group c) in
  let by_ := sender ≫= participant_at (group c) in
  if added_on_one_authority (group c) staged sender then (Err AddedWithoutASecondMember, c)
  else if added_by_somebody_who_may_not (group c) staged sender
  then (Err AddedBySomebodyWhoIsNotAnAdmin, c)
  else
    let! (_, c) := on_group (fun g => merge_staged_commit g staged) MlsFailed c in
    let c := with_rekey (with_applied c (blake3_hash l)) false in
    let after := roster (group c) in
    let added := not_among before after in
    let removed := not_among after before in
    match added, removed with
    | [], [] => (Ok Nothing, c)
    | _, _ => (Ok (MembershipChanged (mkChange added removed by_)), c)
    end.

Definition receive_proposal (c : Conversation) (sender : option Z) (p : Proposal)
    : Result Received GroupError * Conversation :=
  let by_ := sender ≫= participant_at (group c) in
  let! (_, c) := on_group (fun g => store_pending_proposal g p) MlsFailed c in
  match proposal_add p with
  | None => (Ok Nothing, c)
  | Some credential => (Ok (AdditionProposed by_ [from_credential credential []]), c)
  end.

Definition take_message (c : Conversation) (l : bytes) (p : Protocol)
    : Result Received GroupError * Conversation :=
  let! (processed, c) := on_group (fun g => process_message g p) MlsFailed c in
  let sender := sender_index processed.1 in
  match processed.2 with
  | ApplicationMessage m => receive_application c sender m
  | StagedCommitMessage staged => receive_commit c l sender staged
  | ProposalMessage p => receive_proposal c sender p
  | OtherContent => (Ok Nothing, c)
  end.

Definition is_commit (p : Protocol) : bool :=
  match content_type p with CtCommit => true | _ => false end.

(** [receive] calls itself after dropping a commit of its own; [again] is that call. *)
Definition receive_with
    (again : Conversation -> bytes -> Result Received GroupError * Conversation)
    (c : Conversation) (l : bytes) : Result Received GroupError * Conversation :=
  let c := sync_seq_epoch c in
  match incoming l with
  | Err e => (Err e, c)
  | Ok p =>
      if is_commit p && (protocol_epoch p <? epoch c) then
        if bool_decide (last_applied c = Some (blake3_hash l)) then (Ok Nothing, c)
        else (Err (TheGroupHasSplit (protocol_epoch p) (epoch c)), c)
      else
        match pending c with
        | Some ours =>
            if is_commit p then
              if wins l ours then
                let! (_, c) := on_group clear_pending_commit MlsFailed c in
                let! (taken, c) := again (with_pending c None) l in
                (Ok (OurCommitLost taken), c)
              else
                let! (_, c) := settle c in
                (Ok TheirCommitLost, c)
            else take_message c l p
        | None => take_message c l p
        end
  end.

(** The call inside holds no commit, so it makes no call of its own. *)
Definition receive : Conversation -> bytes -> Result Received GroupError * Conversation :=
  receive_with (receive_with (fun c _ => (Err Codec, c))).

Fixpoint receive_all (c : Conversation) (ls : list bytes)
    : list (Result Received GroupError) * Conversation :=
  match ls with
  | [] => ([], c)
  | l :: ls =>
      let '(r, c) := receive c l in
      let '(rs, c) := receive_all c ls in
      (r :: rs, c)
  end.
End Conversations.

(** ** Lemmas on receiving *)

Section Receiving.
Context `{BH : Blake3Hash, ML : Mls}.

Lemma sync_fields c :
  group (sync_seq_epoch c) = group c /\ pending (sync_seq_epoch c) = pending c /\
  last_applied (sync_seq_epoch c) = last_applied c /\ seq_epoch (sync_seq_epoch c) = epoch c.
Proof. unfold sync_seq_epoch. destruct (Z.eqb_spec (epoch c) (seq_epoch c)); done. Qed.

Lemma receive_with_unheld again again' c l :
  pending c = None -> receive_with again c l = receive_with again' c l.
Proof.
  intros Hp. unfold receive_with. destruct (sync_fields c) as (_ & -> & _). by rewrite Hp.
Qed.

Lemma receive_with_ext again again' c l :
  (forall c, pending c = None -> again c l = again' c l) ->
  receive_with again c l = receive_with again' c l.
Proof.
  intros Ha. unfold receive_with. destruct (incoming l) as [p|]; [|done].
  destruct (is_commit p && _); [done|].
  destruct (pending _) as [ours|]; [|done]. destruct (is_commit p); [|done].
  destruct (wins l ours); [|done]. unfold on_group, sbind.
  destruct (clear_pending_commit _) as [[u|] g]; [|done]. simpl. by rewrite Ha.
Qed.


(** *** Who a commit admits *)

Lemma existsb_false {A} (f : A -> bool) l :
  existsb f l = false <-> forall x, x ∈ l -> f x = false.
Proof.
  rewrite <- not_true_iff_false, existsb_exists. setoid_rewrite <- list_elem_of_In. split.
  - intros H x Hx. destruct (f x) eqn:E; [|done]. destruct H. by exists x.
  - intros H (x & Hx & Hf). by rewrite H in Hf.
Qed.

(** The rule on additions, as a person would say it. *)
Definition may_add (g : MlsGroup) (committer : option Z) (add : AddProposal) : Prop :=
  (exists proposer, add_sender add = SMember proposer /\ Some proposer <> committer) \/
  exists who, committer ≫= participant_at g = Some who /\
    same_person_as who (from_credential (add_credential add) []) = true.

Lemma one_authority_false g staged committer :
  added_on_one_authority g staged committer = false <->
  zlen (members g) <= 1 \/ forall add, add ∈ add_proposals staged -> may_add g committer add.
Proof.
  unfold added_on_one_authority. destruct (Z.leb_spec (zlen (members g)) 1) as [H1|H1].
  { split; [by left|done]. }
  rewrite existsb_false. split.
  - intros H. right. intros add Hadd. specialize (H add Hadd). unfold may_add.
    destruct (add_sender add) as [proposer|] eqn:Es; simpl in H.
    + case_bool_decide as Hc; simpl in H; [|left; eauto]. right.
      destruct (committer ≫= participant_at g) as [who|]; [|done].
      destruct (well_formed who); [|done]. exists who. by apply negb_false_iff in H.
    + right. destruct (committer ≫= participant_at g) as [who|]; [|done].
      destruct (well_formed who); [|done]. exists who. by apply negb_false_iff in H.
  - intros [|H]; [lia|]. intros add Hadd. specialize (H add Hadd).
    destruct H as [(proposer & -> & Hne)|(who & -> & Hsame)].
    + by rewrite bool_decide_eq_false_2.
    + assert (well_formed who = true) as ->.
      { unfold same_person_as in Hsame. by destruct (well_formed who). }
      rewrite Hsame. simpl. by destruct (negb _).
Qed.

Definition may_commit_additions (g : MlsGroup) (committer : option Z) : Prop :=
  forall named, admin_rule_applies g = Some named ->
    exists who, committer ≫= participant_at g = Some who /\ well_formed who = true /\
      identity who ∈ named.

Lemma may_not_false g staged committer :
  added_by_somebody_who_may_not g staged committer = false <->
  add_proposals staged = [] \/ may_commit_additions g committer.
Proof.
  unfold added_by_somebody_who_may_not, may_commit_additions.
  destruct (add_proposals staged); [naive_solver|].
  destruct (admin_rule_applies g) as [named|]; [|split; [by right|done]].
  destruct (committer ≫= participant_at g) as [who|].
  - rewrite negb_false_iff, andb_true_iff, bool_decide_eq_true. naive_solver.
  - naive_solver.
Qed.

(** A commit the rules allow and the library merges. *)
Lemma receive_commit_merges c l sender staged g :
  added_on_one_authority (group c) staged sender = false ->
  added_by_somebody_who_may_not (group c) staged sender = false ->
  merge_staged_commit (group c) staged = (Some tt, g) ->
  exists r, receive_commit c l sender staged =
    (Ok r, with_rekey (with_applied (with_group c g) (blake3_hash l)) false).
Proof.
  intros H1 H2 Hm. unfold receive_commit. rewrite H1, H2. unfold on_group, sbind. rewrite Hm.
  simpl. destruct (not_among (roster (group c)) (roster g)); [|eauto].
  destruct (not_among (roster g) (roster (group c))); eauto.
Qed.

End Receiving.

(** ** Two commits at one epoch

    [shared] is what members of one group hold in common: its key schedule.  The
    definitions below say of one member that it holds a commit leading to [v], and
    that it would take another's leading to [v]; that a commit leads both its maker
    and its receivers to one state is what MLS promises. *)

Section Race.
Context `{BH : Blake3Hash, ML : Mls} {V : Type} (shared : MlsGroup -> V).

(** [c] holds its own commit [l], and applying it leads to [v]. *)
Definition made (c : Conversation) (l : bytes) (v : V) : Prop :=
  pending c = Some l /\
  exists g, merge_pending_commit (group c) = (Some tt, g) /\
    shared g = v /\ mls_epoch g = mls_epoch (group c) + 1.

(** [l] is a commit for the epoch [c] is at. *)
Definition commit_for (c : Conversation) (l : bytes) : Prop :=
  exists p, incoming l = Ok p /\ is_commit p = true /\ protocol_epoch p = epoch c.

(** Its own dropped, [c] can process [l] and the group's rules allow it. *)
Definition takes (c : Conversation) (l : bytes) (v : V) : Prop :=
  exists p g0 g1 g2 sender staged,
    incoming l = Ok p /\ is_commit p = true /\ protocol_epoch p = epoch c /\
    clear_pending_commit (group c) = (Some tt, g0) /\ mls_epoch g0 = mls_epoch (group c) /\
    process_message g0 p = (Some (sender, StagedCommitMessage staged), g1) /\
    added_on_one_authority g1 staged (sender_index sender) = false /\
    added_by_somebody_who_may_not g1 staged (sender_index sender) = false /\
    merge_staged_commit g1 staged = (Some tt, g2) /\
    shared g2 = v /\ mls_epoch g2 = mls_epoch (group c) + 1.

Lemma takes_commit_for c l v : takes c l v -> commit_for c l.
Proof. intros (p & g0 & g1 & g2 & s & st & H1 & H2 & H3 & _). by exists p. Qed.

Lemma epoch_sync c : epoch (sync_seq_epoch c) = epoch c.
Proof. unfold epoch. by destruct (sync_fields c) as (-> & _). Qed.

(** Theirs loses: ours is applied, theirs is not read. *)
Lemma receive_loser c ours theirs v :
  made c ours v -> commit_for c theirs -> wins theirs ours = false ->
  exists c', receive c theirs = (Ok TheirCommitLost, c') /\ shared (group c') = v /\
    epoch c' = epoch c + 1 /\ pending c' = None /\ last_applied c' = Some (blake3_hash ours).
Proof.
  intros (Hp & g & Hg & Hv & He) (p & Hin & Hc & Hpe) Hw.
  unfold receive, receive_with at 1. destruct (sync_fields c) as (Sg & Sp & Sl & _).
  rewrite epoch_sync, Hin, Hc, Hpe, Z.ltb_irrefl, Sp, Hp, Hw. simpl.
  unfold settle. rewrite Sp, Hp. unfold on_group, sbind. simpl. rewrite Sg, Hg. simpl.
  eexists. split; [done|]. simpl. done.
Qed.

(** Theirs wins: ours is dropped and theirs applied. *)
Lemma receive_winner c ours theirs v :
  pending c = Some ours -> takes c theirs v -> wins theirs ours = true ->
  exists r c', receive c theirs = (Ok (OurCommitLost r), c') /\ shared (group c') = v /\
    epoch c' = epoch c + 1 /\ pending c' = None /\ last_applied c' = Some (blake3_hash theirs).
Proof.
  intros Hp (p & g0 & g1 & g2 & s & st & Hin & Hc & Hpe & Hclr & He0 & Hproc & H1 & H2 & Hm & Hv & He) Hw.
  unfold receive, receive_with at 1. destruct (sync_fields c) as (Sg & Sp & Sl & _).
  rewrite epoch_sync, Hin, Hc, Hpe, Z.ltb_irrefl, Sp, Hp, Hw. simpl.
  unfold on_group, sbind. rewrite Sg, Hclr. simpl.
  set (c0 := with_pending _ None). unfold receive_with.
  destruct (sync_fields c0) as (Tg & Tp & Tl & _). rewrite epoch_sync, Hin, Hc, Hpe.
  assert (epoch c0 = epoch c) as -> by exact He0. rewrite Z.ltb_irrefl, Tp. simpl.
  unfold take_message, on_group, sbind. rewrite Tg. simpl. rewrite Hproc. simpl.
  destruct (receive_commit_merges (with_group (sync_seq_epoch c0) g1) theirs (sender_index s) st g2
    H1 H2 Hm) as [r Hr]. rewrite Hr.
  exists r. eexists. split; [done|].
  cbn [group pending last_applied with_rekey with_applied with_group epoch].
  split_and!; try done; exact Tp.
Qed.

Lemma wins_antisym a b :
  blake3_hash a <> blake3_hash b -> wins a b = negb (wins b a).
Proof.
  intros Hne. unfold wins. rewrite negb_involutive. apply bytes_lt_not_le.
  intros Heq. by apply Hne, arr_eq.
Qed.

Lemma wins_asym a b : wins a b = true -> wins b a = false.
Proof.
  unfold wins. rewrite negb_true_iff, negb_false_iff. intros H.
  by destruct (bytes_le_total (ab (blake3_hash a)) (ab (blake3_hash b))); [|congruence].
Qed.


(** A commit for an epoch already left, not the one last applied. *)
Lemma receive_stale c l p :
  incoming l = Ok p -> is_commit p = true -> protocol_epoch p < epoch c ->
  last_applied c <> Some (blake3_hash l) ->
  receive c l = (Err (TheGroupHasSplit (protocol_epoch p) (epoch c)), sync_seq_epoch c).
Proof.
  intros Hin Hc Hlt Hla. unfold receive, receive_with at 1.
  destruct (sync_fields c) as (_ & _ & Sl & _).
  rewrite epoch_sync, Hin, Hc, (proj2 (Z.ltb_lt _ _)) by done. simpl.
  by rewrite Sl, bool_decide_eq_false_2.
Qed.

(** Three commits at one epoch can split the group.  With the hashes in the order
    c, a, b, the member holding a applies it as soon as b arrives, and the member
    holding c applies that when a arrives; when c then reaches the first, it is
    refused as a split.  The two have left the epoch for different states, and each
    did what the comparison told it. *)
Theorem three_commits_split a c la lb lc va vc :
  epoch a = epoch c -> wins lc la = true -> wins la lb = true ->
  made a la va -> made c lc vc ->
  commit_for a lb -> commit_for a lc -> commit_for c la ->
  exists a' c',
    receive a lb = (Ok TheirCommitLost, a') /\ shared (group a') = va /\
    receive c la = (Ok TheirCommitLost, c') /\ shared (group c') = vc /\
    receive a' lc = (Err (TheGroupHasSplit (epoch a) (epoch a + 1)), sync_seq_epoch a').
Proof.
  intros He Hca Hab Ma Mc Cb Cc Ca.
  pose proof (wins_asym _ _ Hab) as Hba. pose proof (wins_asym _ _ Hca) as Hac.
  destruct (receive_loser a la lb va Ma Cb Hba) as (a' & Ra & Va & Ea & Pa & La).
  destruct (receive_loser c lc la vc Mc Ca Hac) as (c' & Rc & Vc & Ec & Pc & Lc).
  exists a', c'. split_and!; try done.
  destruct Cc as (p & Hin & Hc & Hpe). rewrite (receive_stale a' lc p); [|done..| |].
  - by rewrite Hpe, Ea.
  - lia.
  - rewrite La. intros [= Heq]. unfold wins in Hca. rewrite Heq, bytes_le_refl in Hca. done.
Qed.

(** A commit that cannot be applied still costs a member its own.  Once the bytes
    parse as a commit of this epoch and their hash is the lower, the member drops the
    commit it holds before the library has checked anything; when the library then
    refuses them, the member is left with neither. *)
Theorem refused_winner_costs_our_commit c ours theirs p g0 g1 :
  pending c = Some ours -> incoming theirs = Ok p -> is_commit p = true ->
  epoch c <= protocol_epoch p -> wins theirs ours = true ->
  clear_pending_commit (group c) = (Some tt, g0) -> mls_epoch g0 = mls_epoch (group c) ->
  process_message g0 p = (None, g1) ->
  exists c', receive c theirs = (Err MlsFailed, c') /\ pending c' = None /\ group c' = g1 /\
    (settle c').1 = Ok false.
Proof.
  intros Hp Hin Hc Hpe Hw Hclr He0 Hproc.
  unfold receive, receive_with at 1. destruct (sync_fields c) as (Sg & Sp & Sl & _).
  rewrite epoch_sync, Hin, Hc, (proj2 (Z.ltb_ge _ _)), Sp, Hp, Hw by done. simpl.
  unfold on_group, sbind. rewrite Sg, Hclr. simpl.
  set (c0 := with_pending _ None). unfold receive_with.
  destruct (sync_fields c0) as (Tg & Tp & Tl & _). rewrite epoch_sync, Hin, Hc.
  assert (epoch c0 = epoch c) as -> by exact He0. rewrite (proj2 (Z.ltb_ge _ _)), Tp by done. simpl.
  unfold take_message, on_group, sbind. rewrite Tg. simpl. rewrite Hproc. simpl.
  eexists. split; [done|]. simpl. unfold settle. simpl. by rewrite Tp.
Qed.
End Race.

(** ** No message twice *)

Section Sequence.
Context `{BH : Blake3Hash, ML : Mls}.

(** Operations of the library never take a group back to an epoch it has left. *)
Class EpochsGrow : Prop := {
  grow_process g p : mls_epoch g <= mls_epoch (process_message g p).2;
  grow_merge g s : mls_epoch g <= mls_epoch (merge_staged_commit g s).2;
  grow_pending g : mls_epoch g <= mls_epoch (merge_pending_commit g).2;
  grow_clear g : mls_epoch g <= mls_epoch (clear_pending_commit g).2;
  grow_store g p : mls_epoch g <= mls_epoch (store_pending_proposal g p).2;
  grow_unstore g p : mls_epoch g <= mls_epoch (remove_pending_proposal g p).2;
  grow_create g s m : mls_epoch g <= mls_epoch (create_message g s m).2;
  grow_add g s k : mls_epoch g <= mls_epoch (add_members g s k).2;
  grow_propose g s k : mls_epoch g <= mls_epoch (propose_add_member g s k).2;
  grow_confirm g s : mls_epoch g <= mls_epoch (commit_to_pending_proposals g s).2;
  grow_remove g s l : mls_epoch g <= mls_epoch (remove_members g s l).2;
  grow_extensions g s l :
    mls_epoch g <= mls_epoch (update_group_context_extensions g s l).2;
  grow_rekey g s : mls_epoch g <= mls_epoch (rekey_commit g s).2;
}.

(** Epoch, sender and number of the application message in [l], if it is one. *)
Definition application_of (c : Conversation) (l : bytes) : option (Z * Z * Z) :=
  match incoming l with
  | Err _ => None
  | Ok p =>
      match (process_message (group c) p).1 with
      | Some (SMember i, ApplicationMessage m) =>
          match split_sequence m with
          | Ok (seq, _) => Some (epoch c, i, seq)
          | Err _ => None
          end
      | _ => None
      end
  end.

(** What one call handed the application. *)
Definition delivered (c : Conversation) (l : bytes) : list (Z * Z * Z) :=
  match (receive c l).1 with
  | Ok (Message _ _) => option_list (application_of c l)
  | _ => []
  end.

(** Everything a member does with a conversation. *)
Inductive event :=
| EReceive (l : bytes)
| ESettle
| ESend (by_ : Signer) (plaintext : bytes)
| EInvite (by_ : Signer) (kp : KeyPackage)
| EPropose (by_ : Signer) (kp : KeyPackage)
| EConfirm (by_ : Signer)
| ERemove (by_ : Signer) (key : bytes)
| ESetAdmins (by_ : Signer) (named : list bytes)
| ERekey (by_ : Signer).

Definition step (c : Conversation) (e : event) : list (Z * Z * Z) * Conversation :=
  match e with
  | EReceive l => (delivered c l, (receive c l).2)
  | ESettle => ([], (settle c).2)
  | ESend by_ plaintext => ([], (send c by_ plaintext).2)
  | EInvite by_ kp => ([], (invite c by_ kp).2)
  | EPropose by_ kp => ([], (propose_invite c by_ kp).2)
  | EConfirm by_ => ([], (confirm_additions c by_).2)
  | ERemove by_ key => ([], (remove c by_ key).2)
  | ESetAdmins by_ named => ([], (set_admins c by_ named).2)
  | ERekey by_ => ([], (rekey_after_restore c by_).2)
  end.

Fixpoint deliveries (c : Conversation) (es : list event) : list (Z * Z * Z) :=
  match es with
  | [] => []
  | e :: es => let '(new, c) := step c e in new ++ deliveries c es
  end.

(** The windows know every number delivered at the epoch they are for, and nothing
    was delivered at a later one. *)
Definition accounts_for (c : Conversation) (log : list (Z * Z * Z)) : Prop :=
  seq_epoch c <= epoch c /\
  exists spent : Z -> list Z,
    (forall i, Seen.covers (default Seen.none (seen_seq c !! i)) (spent i)) /\
    forall e i q, (e, i, q) ∈ log -> e <= seq_epoch c /\ (e = seq_epoch c -> q ∈ spent i).

Lemma accounts_opened g restored : accounts_for (opened g restored) [].
Proof.
  split; [done|]. exists (fun _ => [0]). split.
  - intros i. simpl. rewrite lookup_empty. apply Seen.covers_none.
  - intros e i q H. by apply not_elem_of_nil in H.
Qed.

Lemma accounts_sync c log : accounts_for c log -> accounts_for (sync_seq_epoch c) log.
Proof.
  intros (He & spent & Hc & Hl). unfold sync_seq_epoch.
  destruct (Z.eqb_spec (epoch c) (seq_epoch c)); [by split; [|exists spent]|].
  split; [done|]. exists (fun _ => [0]). split.
  - intros i. simpl. rewrite lookup_empty. apply Seen.covers_none.
  - simpl. intros e i q Hin. destruct (Hl _ _ _ Hin). lia.
Qed.

(** Only the group, the windows and their epoch matter; the group may only advance. *)
Lemma accounts_later c c' log :
  accounts_for c log -> seq_epoch c' = seq_epoch c -> seen_seq c' = seen_seq c ->
  epoch c <= epoch c' -> accounts_for c' log.
Proof.
  intros (He & spent & Hc & Hl) H1 H2 H3. split; [lia|]. exists spent. by rewrite H1, H2.
Qed.

Lemma accounts_application c i m log :
  accounts_for c log ->
  let '(r, c') := receive_application c (Some i) m in
  match r, split_sequence m with
  | Ok (Message _ _), Ok (seq, _) =>
      ((seq_epoch c, i, seq) ∉ log) /\ accounts_for c' ((seq_epoch c, i, seq) :: log)
  | Ok _, _ => False
  | Err _, _ => accounts_for c' log
  end.
Proof.
  intros (He & spent & Hc & Hl). unfold receive_application.
  destruct (split_sequence m) as [[seq body]|e] eqn:Es; [|by split; [|exists spent]].
  assert (0 <= seq) as Hq.
  { unfold split_sequence in Es. destruct (_ <? _)%nat; [done|]. injection Es as <- _.
    apply be_value_range. }
  pose proof (Seen.admits_covers _ _ seq (Hc i) Hq) as [Hb Hs].
  destruct (Seen.admits _ seq) as [fresh s] eqn:Ea. simpl in Hb, Hs.
  assert (forall j, Seen.covers (default Seen.none (<[i := s]> (seen_seq c) !! j))
    (if bool_decide (j = i) then (if fresh then seq :: spent i else spent i) else spent j)) as Hc'.
  { intros j. case_bool_decide as Hj.
    - subst j. rewrite lookup_insert_eq. simpl. by rewrite Hb.
    - by rewrite lookup_insert_ne. }
  destruct fresh.
  - split.
    + intros Hin. destruct (Hl _ _ _ Hin) as [_ Hsp]. specialize (Hsp eq_refl).
      unfold Seen.reference_admits in Hb. symmetry in Hb. apply andb_prop in Hb as [Hb _].
      by apply bool_decide_eq_true in Hb.
    + split; [done|]. eexists. split; [exact Hc'|]. simpl. intros e j q [[= -> -> ->]|Hin]%elem_of_cons.
      * split; [lia|]. intros _. rewrite bool_decide_eq_true_2 by done. left.
      * destruct (Hl _ _ _ Hin) as [Hle Hsp]. split; [done|]. intros Hee. specialize (Hsp Hee).
        case_bool_decide as Hj; [subst j; by right|done].
  - split; [done|]. eexists. split; [exact Hc'|]. simpl. intros e j q Hin.
    destruct (Hl _ _ _ Hin) as [Hle Hsp]. split; [done|]. intros Hee. specialize (Hsp Hee).
    case_bool_decide as Hj; [by subst j|done].
Qed.

Context `{EG : EpochsGrow}.

(** Computations that keep the account, composed as the code composes them. *)
Definition keeps {A} (m : Result A GroupError * Conversation) (log : list (Z * Z * Z)) : Prop :=
  accounts_for m.2 log.

Lemma keeps_bind {A B} (m : Result A GroupError * Conversation)
    (k : A -> Conversation -> Result B GroupError * Conversation) log :
  keeps m log -> (forall a c, accounts_for c log -> keeps (k a c) log) -> keeps (sbind m k) log.
Proof. destruct m as [[a|e] c]; [intros Hm Hk; by apply Hk|done]. Qed.

Lemma keeps_ret {A} (r : Result A GroupError) c log : accounts_for c log -> keeps (r, c) log.
Proof. done. Qed.

Lemma keeps_on_group {A} (op : MlsGroup -> option A * MlsGroup) e c log :
  (forall g, mls_epoch g <= mls_epoch (op g).2) -> accounts_for c log ->
  keeps (on_group op e c) log.
Proof.
  intros He Ha. unfold on_group, keeps. specialize (He (group c)).
  destruct (op (group c)) as [r g]. simpl in *. eapply accounts_later; [done..|]. done.
Qed.

Lemma accounts_pending c p log : accounts_for c log -> accounts_for (with_pending c p) log.
Proof. intros Ha. by eapply accounts_later. Qed.
Lemma accounts_applied c h log : accounts_for c log -> accounts_for (with_applied c h) log.
Proof. intros Ha. by eapply accounts_later. Qed.
Lemma accounts_rekey c b log : accounts_for c log -> accounts_for (with_rekey c b) log.
Proof. intros Ha. by eapply accounts_later. Qed.
Lemma accounts_sent c n log : accounts_for c log -> accounts_for (with_sent c n) log.
Proof. intros Ha. by eapply accounts_later. Qed.

Create HintDb keeps.
Hint Resolve keeps_ret accounts_pending accounts_applied accounts_rekey accounts_sent
  accounts_sync grow_process grow_merge grow_pending grow_clear grow_store grow_unstore
  grow_create grow_add grow_propose grow_confirm grow_remove grow_extensions grow_rekey : keeps.

(** Follow the code's binds. *)
Ltac keep :=
  repeat first
    [ apply keeps_bind; [|intros]
    | apply keeps_on_group; [intros; auto with keeps|]
    | progress auto with keeps
    | match goal with
      | |- keeps (match ?x with _ => _ end) _ => destruct x eqn:?
      | |- keeps (if ?x then _ else _) _ => destruct x eqn:?
      end ].

Lemma keeps_settle c log : accounts_for c log -> keeps (settle c) log.
Proof. intros Ha. unfold settle. keep. Qed.

Hint Resolve keeps_settle : keeps.

Lemma keeps_hold_commit m c log : accounts_for c log -> keeps (hold_commit m c) log.
Proof. intros Ha. unfold hold_commit, serialize, hold. keep. Qed.

Lemma keeps_commit c l sender staged log :
  accounts_for c log -> keeps (receive_commit c l sender staged) log.
Proof. intros Ha. unfold receive_commit. keep. Qed.

Lemma keeps_each op ps c log :
  (forall g p, mls_epoch g <= mls_epoch (op g p).2) -> accounts_for c log ->
  keeps (each_proposal op ps c) log.
Proof.
  intros Hop. revert c. induction ps as [|p ps IH]; intros c Ha; simpl; [done|].
  apply keeps_bind; [by apply keeps_on_group|]. auto.
Qed.

Lemma keeps_send c by_ plaintext log : accounts_for c log -> keeps (send c by_ plaintext) log.
Proof.
  intros Ha. unfold send, serialize. destruct (restored_needs_rekey c); [done|]. cbv zeta.
  set (c1 := with_sent _ _). assert (accounts_for c1 log) as H1 by (unfold c1; auto with keeps).
  destruct (existsb _ _); [by keep|].
  apply keeps_bind; [apply keeps_each; [apply grow_unstore|done]|]. intros _ c2 H2.
  pose proof (grow_create (group c2) by_ (be_bytes 8 (sent_seq c1) ++ plaintext)) as Hg.
  destruct (create_message _ _ _) as [created g]. simpl in Hg.
  apply keeps_bind.
  - apply keeps_each; [apply grow_store|]. eapply accounts_later; [done..|]. done.
  - intros _ c3 H3. by destruct created.
Qed.

Lemma not_message_commit c l sender staged s b c' :
  receive_commit c l sender staged <> (Ok (Message s b), c').
Proof.
  unfold receive_commit. destruct (added_on_one_authority _ _ _); [done|].
  destruct (added_by_somebody_who_may_not _ _ _); [done|]. unfold sbind.
  destruct (on_group _ _ _) as [[x|x] c'']; [|done].
  by destruct (not_among _ _), (not_among _ _).
Qed.

(** One message taken: what it delivers is new, and is accounted for. *)
Lemma accounts_take c l p log :
  accounts_for c log -> seq_epoch c = epoch c ->
  incoming l = Ok p ->
  let new := match (take_message c l p).1 with
             | Ok (Message _ _) => option_list (application_of c l)
             | _ => []
             end in
  (forall x, x ∈ new -> x ∉ log) /\ NoDup new /\ accounts_for (take_message c l p).2 (new ++ log).
Proof.
  intros Ha He Hin. unfold take_message, application_of. rewrite Hin. unfold sbind.
  pose proof (keeps_on_group (fun g => process_message g p) MlsFailed c log
    (fun g => grow_process g p) Ha) as H.
  unfold keeps, on_group in *. destruct (process_message (group c) p) as [[[snd content]|] g] eqn:Ep; simpl.
  2: { split_and!; [|constructor|done]. intros x Hx. by apply not_elem_of_nil in Hx. }
  simpl in H. set (c1 := with_group c g) in *.
  assert (forall new : list (Z * Z * Z), new = [] -> forall c2, accounts_for c2 log ->
    (forall x, x ∈ new -> x ∉ log) /\ NoDup new /\ accounts_for c2 (new ++ log)) as Hnil.
  { intros new -> c2 H2. split_and!; [|constructor|done]. intros x Hx. by apply not_elem_of_nil in Hx. }
  destruct content as [m|staged|pr|].
  - destruct snd as [i|]; simpl.
    + pose proof (accounts_application c1 i m log H) as Happ.
      destruct (receive_application c1 (Some i) m) as [[r|e] c2]; simpl in *.
      * destruct r; try done. destruct (split_sequence m) as [[seq body']|]; [|done].
        destruct Happ as [Hn Hacc]. simpl. rewrite <- He.
        split_and!; [|apply NoDup_singleton|done]. intros x ->%list_elem_of_singleton. done.
      * apply Hnil; [done|]. by destruct (split_sequence m).
    + unfold receive_application. destruct (split_sequence m) as [[seq body]|]; by apply Hnil.
  - pose proof (keeps_commit c1 l (sender_index snd) staged log H) as Hcm. unfold keeps in Hcm.
    destruct (receive_commit _ _ _ _) as [[r|e] c2] eqn:Er; simpl in *; [|by apply Hnil].
    destruct r; try (by apply Hnil). by apply not_message_commit in Er.
  - unfold receive_proposal, sbind.
    pose proof (keeps_on_group (fun g => store_pending_proposal g pr) MlsFailed c1 log
      (fun g => grow_store g pr) H) as Hst. unfold keeps in Hst.
    destruct (on_group _ _ _) as [[x|x] c2]; simpl in *; [|by apply Hnil].
    destruct (proposal_add pr); by apply Hnil.
  - by apply Hnil.
Qed.

Lemma accounts_fewer c log log' :
  accounts_for c log -> (forall x, x ∈ log' -> x ∈ log) -> accounts_for c log'.
Proof. intros (He & spent & Hc & Hl) Hsub. split; [done|]. exists spent. split; [done|]. auto. Qed.

Lemma application_of_sync c l : application_of (sync_seq_epoch c) l = application_of c l.
Proof. unfold application_of. destruct (sync_fields c) as (-> & _). by rewrite epoch_sync. Qed.

(** A call that holds no commit, seen from the state it synchronises. *)
Lemma accounts_unheld again c l log :
  accounts_for c log -> pending c = None ->
  let new := match (receive_with again c l).1 with
             | Ok (Message _ _) => option_list (application_of c l)
             | _ => []
             end in
  (forall x, x ∈ new -> x ∉ log) /\ NoDup new /\
  accounts_for (receive_with again c l).2 (new ++ log).
Proof.
  intros Ha Hp. apply accounts_sync in Ha. unfold receive_with.
  destruct (sync_fields c) as (Sg & Sp & Sl & Se). rewrite Sp, Hp, <- application_of_sync.
  destruct (incoming l) as [p|e] eqn:Hin.
  2: { split_and!; [|constructor|done]. intros x Hx. by apply not_elem_of_nil in Hx. }
  destruct (is_commit p && _).
  { destruct (bool_decide _); (split_and!; [|constructor|done]); intros x Hx;
      by apply not_elem_of_nil in Hx. }
  apply accounts_take; [done| |done]. by rewrite Se, epoch_sync.
Qed.

Lemma accounts_receive c l log :
  accounts_for c log ->
  (forall x, x ∈ delivered c l -> x ∉ log) /\ NoDup (delivered c l) /\
  accounts_for (receive c l).2 (delivered c l ++ log).
Proof.
  intros Ha. destruct (pending c) as [ours|] eqn:Hp; [|by apply accounts_unheld].
  pose proof (accounts_sync _ _ Ha) as Hs. unfold delivered.
  assert (forall r : Result Received GroupError * Conversation,
    (forall s b, r.1 <> Ok (Message s b)) -> accounts_for r.2 log ->
    let new := match r.1 with Ok (Message _ _) => option_list (application_of c l) | _ => [] end in
    (forall x, x ∈ new -> x ∉ log) /\ NoDup new /\ accounts_for r.2 (new ++ log)) as Hnil.
  { intros [[[]|e] c'] Hr Hacc; simpl in *; try (by destruct (Hr sender body));
      (split_and!; [|constructor|done]); intros x Hx; by apply not_elem_of_nil in Hx. }
  remember (receive c l) as R eqn:ER. unfold receive, receive_with at 1 in ER.
  destruct (sync_fields c) as (Sg & Sp & Sl & Se). rewrite Sp, Hp in ER.
  destruct (incoming l) as [p|e] eqn:Hin; [|subst R; by apply Hnil].
  destruct (is_commit p && _); [destruct (bool_decide _); subst R; by apply Hnil|].
  destruct (is_commit p).
  2: { subst R. rewrite <- application_of_sync. apply accounts_take; [done| |done].
       by rewrite Se, epoch_sync. }
  destruct (wins l ours); unfold sbind in ER.
  - pose proof (keeps_on_group clear_pending_commit MlsFailed (sync_seq_epoch c) log
      grow_clear Hs) as Hclr. unfold keeps in Hclr.
    destruct (on_group _ _ _) as [[x|x] c1]; simpl in Hclr; [|subst R; by apply Hnil].
    destruct (accounts_unheld (fun c _ => (Err Codec, c)) (with_pending c1 None) l log)
      as (_ & _ & Hin'); [by eapply accounts_later|done|].
    apply (accounts_fewer _ _ log) in Hin'; [|intros y Hy; apply elem_of_app; by right].
    destruct (receive_with _ _ _) as [[taken|e] c2]; subst R; by apply Hnil.
  - pose proof (keeps_settle _ _ Hs) as Hset. unfold keeps in Hset.
    destruct (settle _) as [[x|x] c1]; subst R; by apply Hnil.
Qed.

Lemma accounts_step c e log :
  accounts_for c log ->
  (forall x, x ∈ (step c e).1 -> x ∉ log) /\ NoDup (step c e).1 /\
  accounts_for (step c e).2 ((step c e).1 ++ log).
Proof.
  intros Ha. destruct e; simpl; [by apply accounts_receive|..];
    (split_and!; [intros x Hx; by apply not_elem_of_nil in Hx|constructor|]).
  - by apply keeps_settle.
  - by apply keeps_send.
  - enough (keeps (invite c by_ kp) log) by done. unfold invite, serialize. keep.
  - enough (keeps (propose_invite c by_ kp) log) by done. unfold propose_invite, serialize. keep.
  - enough (keeps (confirm_additions c by_) log) by done.
    unfold confirm_additions, serialize. keep.
  - enough (keeps (remove c by_ key) log) by done. unfold remove. keep.
  - enough (keeps (set_admins c by_ named) log) by done. unfold set_admins. keep.
  - enough (keeps (rekey_after_restore c by_) log) by done. unfold rekey_after_restore. keep.
Qed.

(** C17: no message is handed over twice.  Whatever bytes a conversation is given, in
    whatever order and however often, and whatever it sends, proposes, commits and
    settles in between, no two of the application messages it hands over have the
    same epoch, sender and sequence number. *)
Theorem no_message_twice g restored es : NoDup (deliveries (opened g restored) es).
Proof.
  assert (forall c log, accounts_for c log ->
    NoDup (deliveries c es) /\ forall x, x ∈ deliveries c es -> x ∉ log) as H.
  { induction es as [|e es IH]; intros c log Ha; simpl.
    - split; [constructor|]. intros x Hx. by apply not_elem_of_nil in Hx.
    - destruct (accounts_step c e log Ha) as (Hn & Hd & Hacc).
      destruct (step c e) as [new c']. simpl in *.
      destruct (IH _ _ Hacc) as [Hd' Hn']. split.
      + apply NoDup_app. split_and!; [done| |done]. intros x Hx Hx'.
        destruct (Hn' x Hx'). apply elem_of_app. by left.
      + intros x [Hx|Hx]%elem_of_app; [by apply Hn|]. intros Hl. destruct (Hn' x Hx).
        apply elem_of_app. by right. }
  apply (H (opened g restored) []), accounts_opened.
Qed.
End Sequence.

(** The window of spent numbers, a mark and sixty-four bits, answers every number
    exactly as a receiver would that remembers all of them: once each, and none more
    than sixty-four below the largest. *)
Theorem spent_window_refines seqs :
  Forall (fun q => 0 <= q) seqs -> Seen.run Seen.none seqs = Seen.reference_run [0] seqs.
Proof. apply Seen.run_covers, Seen.covers_none. Qed.

(** ** A concrete group

    A message is a kind, an epoch and a leaf, then a body; a group is the commits it
    has applied.  It stands for no protocol: it shows that what the theorems ask of
    one can be met. *)

Module ToyGroup.
Import Toy.

Record t := mk {
  at_ : Z;
  applied : list bytes;
  staged : option bytes;
  rows : list MemberRow;
}.

Definition kind (l : bytes) : ContentType :=
  match l with
  | x01 :: _ => CtCommit
  | x02 :: _ => CtProposal
  | _ => CtApplication
  end.

Definition advance (g : t) (l : bytes) : t := mk (at_ g + 1) (l :: applied g) None (rows g).
Definition body (l : bytes) : bytes := drop 3 l.
Definition leaf (l : bytes) : Z := b2z (default x00 (l !! 2%nat)).
Definition of_epoch (l : bytes) : Z := b2z (default x00 (l !! 1%nat)).

Definition process (g : t) (l : bytes) : option (MlsSender * Content bytes bytes) * t :=
  (if of_epoch l =? at_ g then
     match kind l with
     | CtApplication => Some (SMember (leaf l), ApplicationMessage (body l))
     | CtCommit => match body l with [] => None | _ => Some (SMember (leaf l), StagedCommitMessage l) end
     | CtProposal => Some (SMember (leaf l), ProposalMessage l)
     end
   else None, g).

Definition adds (l : bytes) : list AddProposal :=
  match body l with
  | xff :: credential => [mkAdd (SMember (leaf l)) credential]
  | _ => []
  end.

Definition stage (g : t) (b : bytes) : option bytes * t :=
  let l := [x01; z2b (at_ g); x00] ++ b in
  (Some l, mk (at_ g) (applied g) (Some l) (rows g)).

#[export] Instance mls : Mls := {|
  MlsGroup := t; Signer := byte; MessageIn := bytes; MessageOut := bytes; Protocol := bytes;
  Staged := bytes; Proposal := bytes; KeyPackage := bytes;
  signer_public b := [b];
  mls_epoch := at_;
  members := rows;
  extensions _ := [];
  add_or_replace es e := e :: es;
  tls_deserialize l := Some l;
  tls_serialize l := Some l;
  into_protocol l := Some l;
  content_type := kind;
  protocol_epoch := of_epoch;
  process_message := process;
  add_proposals := adds;
  proposal_add l := Some (body l);
  pending_proposals _ := [];
  store_pending_proposal g _ := (Some tt, g);
  remove_pending_proposal g _ := (Some tt, g);
  merge_staged_commit g l := (Some tt, advance g l);
  merge_pending_commit g :=
    (Some tt, match staged g with Some l => advance g l | None => g end);
  clear_pending_commit g := (Some tt, mk (at_ g) (applied g) None (rows g));
  create_message g _ m := (Some ([x00; z2b (at_ g); x00] ++ m), g);
  add_members g _ k := let '(l, g) := stage g (xff :: k) in ((fun m => (m, k)) <$> l, g);
  propose_add_member g _ k := (Some ([x02; z2b (at_ g); x00] ++ k), g);
  commit_to_pending_proposals g _ := let '(l, g) := stage g [x00] in ((fun m => (m, None)) <$> l, g);
  remove_members g _ _ := stage g [x01];
  update_group_context_extensions g _ _ := stage g [x02];
  rekey_commit g _ := stage g [x03];
|}.

#[export] Instance epochs_grow : EpochsGrow.
Proof.
  split; intros; simpl; try lia. destruct (staged g); simpl; lia.
Qed.

Definition two : list MemberRow :=
  [mkRow 0 [x01; x61] [x0a]; mkRow 1 [x01; x62] [x0b]].
Definition start : t := mk 5 [] None two.
Definition begin_ : Conversation (ML := mls) := opened (ML := mls) start false.

(** A member at the start, holding the commit [l]. *)
Definition holding (l : bytes) : Conversation (ML := mls) :=
  with_pending (ML := mls) (opened (ML := mls) (mk 5 [] (Some l) two) false) (Some l).

Definition la : bytes := [x01; x05; x00; x07].
Definition lb : bytes := [x01; x05; x01; x08].
Definition lc : bytes := [x01; x05; x00; x01].
Definition broken : bytes := [x01; x05; x01].

(** A commit of leaf 0 that lets in the person [x63] on its own. *)
Definition alone : bytes := [x01; x05; x00; xff; x01; x63].
Definition message (n : Z) : bytes := [x00; x05; x01] ++ be_bytes 8 n ++ [x2a].
End ToyGroup.

Import ToyGroup.

Lemma spent_window_refines_witness :
  Seen.run Seen.none [3; 1; 3; 70; 6; 5; 1] = [true; true; false; true; true; false; false] /\
  Seen.run Seen.none [3; 1; 3; 70; 6; 5; 1] = Seen.reference_run [0] [3; 1; 3; 70; 6; 5; 1].
Proof.
  split; [vm_compute; reflexivity|]. apply spent_window_refines. repeat constructor; lia.
Defined.


Lemma made_holding l :
  made (ML := mls) applied (holding l) l [l].
Proof. split; [done|]. eexists. split; [reflexivity|]. done. Qed.

Lemma commit_for_holding l k b :
  k = [x01; x05] ++ b -> commit_for (ML := mls) (holding l) k.
Proof. intros ->. exists ([x01; x05] ++ b). done. Qed.

Lemma takes_holding l i x b :
  i <> xff -> x <> xff -> takes (ML := mls) applied (holding l) ([x01; x05; i; x] ++ b) [[x01; x05; i; x] ++ b].
Proof.
  intros _ Hx. do 6 eexists.
  split_and!; [reflexivity|reflexivity|reflexivity|reflexivity|reflexivity|reflexivity| | |
    reflexivity|reflexivity|reflexivity].
  - unfold added_on_one_authority. simpl. unfold adds. simpl. by destruct x.
  - unfold added_by_somebody_who_may_not. simpl. unfold adds. simpl. by destruct x.
Qed.


Lemma three_commits_split_witness :
  exists a' c',
    receive (BH := Toy.blake3_plain) (ML := mls) (holding la) lb = (Ok TheirCommitLost, a') /\
    receive (BH := Toy.blake3_plain) (ML := mls) (holding lc) la = (Ok TheirCommitLost, c') /\
    applied (group (ML := mls) a') <> applied (group (ML := mls) c').
Proof.
  destruct (three_commits_split (BH := Toy.blake3_plain) (ML := mls) applied (holding la) (holding lc) la lb lc
    [la] [lc]) as (a' & c' & H1 & H2 & H3 & H4 & _).
  - reflexivity.
  - vm_compute. reflexivity.
  - vm_compute. reflexivity.
  - apply made_holding.
  - apply made_holding.
  - by eapply commit_for_holding.
  - by eapply commit_for_holding.
  - by eapply commit_for_holding.
  - exists a', c'. split_and!; [exact H1|exact H3|]. rewrite H2, H4. vm_compute. discriminate.
Defined.

Lemma refused_winner_costs_our_commit_witness :
  exists c',
    receive (BH := Toy.blake3_plain) (ML := mls) (holding lb) broken = (Err MlsFailed, c') /\ pending (ML := mls) c' = None.
Proof.
  destruct (refused_winner_costs_our_commit (BH := Toy.blake3_plain) (ML := mls) (holding lb) lb broken broken
    (mk 5 [] None two) (mk 5 [] None two)) as (c' & H1 & H2 & _).
  - reflexivity.
  - reflexivity.
  - reflexivity.
  - vm_compute. discriminate.
  - vm_compute. reflexivity.
  - reflexivity.
  - reflexivity.
  - vm_compute. reflexivity.
  - exists c'. split; [exact H1|exact H2].
Defined.

Lemma no_message_twice_witness :
  deliveries (BH := Toy.blake3_plain) (ML := mls) begin_
    [EReceive (message 1); EReceive (message 2); EReceive (message 1); ERekey x00;
     EReceive (message 2)] = [(5, 1, 1); (5, 1, 2)] /\
  NoDup (deliveries (BH := Toy.blake3_plain) (ML := mls) begin_
    [EReceive (message 1); EReceive (message 2); EReceive (message 1); ERekey x00;
     EReceive (message 2)]).
Proof.
  split; [vm_compute; reflexivity|].
  apply (no_message_twice (BH := Toy.blake3_plain) (ML := mls) (EG := epochs_grow) start false).
Defined.
