(* ===== verification/Hex.v ===== *)
(** * Hexadecimal strings

    Thirty-two bytes written as sixty-four digits: [parse_tag] and [parse_digest]
    of [crates/rotelyx-mailbox-server/src/main.rs], with what [u8::from_str_radix]
    and the indexing of a [str] do, and the lower-case printing the crates share.
    A [str] is indexed by bytes and panics inside a character: a panic is [None]. *)

From S2P Require Import Prelude Crypto Envelope Capability.

(** ** Printing: [format!] of one byte as two lower-case digits *)

Definition hex_digit (n : Z) : byte := z2b (if n <? 10 then 48 + n else 87 + n).
Definition hex_byte (b : byte) : bytes := [hex_digit (b2z b / 16); hex_digit (b2z b mod 16)].
Definition hex_lower (l : bytes) : bytes := l ≫= hex_byte.

(** ** Reading *)

(** [char::to_digit(16)]. *)
Definition to_digit (b : byte) : option Z :=
  if in_range 48 57 b then Some (b2z b - 48)
  else if in_range 97 102 b then Some (b2z b - 87)
  else if in_range 65 70 b then Some (b2z b - 55)
  else None.

Fixpoint radix_digits (acc : Z) (l : bytes) : option Z :=
  match l with
  | [] => Some acc
  | b :: l =>
      d ← to_digit b;
      if u8_max <? acc * 16 + d then None else radix_digits (acc * 16 + d) l
  end.

(** [u8::from_str_radix(_, 16)]: a leading plus is a sign. *)
Definition from_str_radix (l : bytes) : option Z :=
  match l with
  | [] => None
  | b :: r =>
      if b2z b =? 43 then match r with [] => None | _ => radix_digits 0 r end
      else radix_digits 0 l
  end.

(** [str::is_char_boundary]. *)
Definition is_char_boundary (l : bytes) (i : nat) : bool :=
  match l !! i with
  | Some b => (i =? 0)%nat || negb (is_cont b)
  | None => (i =? length l)%nat
  end.

(** [&hex[i..j]]. *)
Definition str_slice (l : bytes) (i j : nat) : option bytes :=
  if (i <=? j)%nat && is_char_boundary l i && is_char_boundary l j then Some (slice l i j)
  else None.

(** [map(..).collect::<Result<Vec<u8>, _>>()]: the first error ends it. *)
Fixpoint hex_pairs (l : bytes) (starts : list nat) : option (option bytes) :=
  match starts with
  | [] => Some (Some [])
  | i :: starts =>
      pair ← str_slice l i (i + 2);
      match from_str_radix pair with
      | None => Some None
      | Some v => rest ← hex_pairs l starts; Some (cons (z2b v) <$> rest)
      end
  end.

(** [(0..64).step_by(2)]. *)
Definition starts : list nat := (fun i => 2 * i)%nat <$> seq 0 32.

Definition parse_digest (hex : rstring) : option (option (arr 32)) :=
  if negb (zlen (rs hex) =? 64) then Some None
  else
    r ← hex_pairs (rs hex) starts;
    Some (l ← r; try_into 32 l).

Definition parse_tag (hex : rstring) : option (option Tag) :=
  if negb (zlen (rs hex) =? 64) then Some None
  else
    r ← hex_pairs (rs hex) starts;
    Some (l ← r; rok (tag_from_bytes l)).

(** [encode_hex] and [decode_hex] of [crates/rotelyx-capability/src/lib.rs]. *)
Definition encode_hex (l : bytes) : bytes := hex_lower l.

Definition decode_hex (hex : rstring) (expected : Z) : option (option bytes) :=
  let l := trim (rs hex) in
  if negb (zlen l =? expected * 2) then Some None
  else hex_pairs l ((fun i => 2 * i)%nat <$> seq 0 (Z.to_nat ((zlen l + 1) / 2))).

(** [tag_from_hex] of [crates/rotelyx-wasm/src/lib.rs]; the errors are strings. *)
Definition tag_from_hex (hex : rstring) : option (Result Tag string) :=
  if negb (zlen (rs hex) =? 64) then Some (Err "a tag is 64 hex characters"%string)
  else
    r ← hex_pairs (rs hex) starts;
    Some (let? l := ok_or "not valid hex"%string r in
          map_err (fun _ => "BadTag"%string) (tag_from_bytes l)).

(** ** Lemmas *)

Lemma parse_digest_tag hex : parse_digest hex = parse_tag hex.
Proof.
  unfold parse_digest, parse_tag, tag_from_bytes. case_match; [done|].
  destruct (hex_pairs _ _) as [[l|]|]; simpl; try done.
  by destruct (try_into 32 l).
Qed.

Lemma length_hex_lower l : length (hex_lower l) = (2 * length l)%nat.
Proof. unfold hex_lower. induction l as [|b l IH]; [done|]. csimpl. rewrite IH. lia. Qed.

Lemma hex_lower_app l k : hex_lower (l ++ k) = hex_lower l ++ hex_lower k.
Proof. unfold hex_lower. by rewrite bind_app. Qed.

Lemma from_str_radix_hex_byte b : from_str_radix (hex_byte b) = Some (b2z b).
Proof. destruct b; vm_compute; reflexivity. Qed.

Lemma hex_byte_inj a b : hex_byte a = hex_byte b -> a = b.
Proof.
  intros H. apply (f_equal from_str_radix) in H. rewrite !from_str_radix_hex_byte in H.
  apply b2z_inj. congruence.
Qed.

Lemma hex_lower_inj l k : hex_lower l = hex_lower k -> l = k.
Proof.
  revert k. induction l as [|a l IH]; intros [|b k]; try done.
  change (hex_lower (?x :: ?y)) with (hex_byte x ++ hex_lower y). intros H.
  apply app_inj_1 in H as [Hb Hl]; [|done]. f_equal; [by apply hex_byte_inj|by apply IH].
Qed.

Lemma hex_byte_ascii b : Forall (fun c => b2z c < 128) (hex_byte b).
Proof. destruct b; repeat constructor. Qed.

Lemma hex_lower_ascii l : Forall (fun c => b2z c < 128) (hex_lower l).
Proof.
  induction l as [|b l IH]; [constructor|]. apply Forall_app. split; [apply hex_byte_ascii|done].
Qed.

Lemma ascii_utf8 l : Forall (fun c => b2z c < 128) l -> Is_true (utf8_valid l).
Proof. induction 1 as [|b k Hb _ IH]; [done|]. simpl. by rewrite (proj2 (Z.ltb_lt _ _)). Qed.

Lemma ascii_not_cont b : b2z b < 128 -> is_cont b = false.
Proof. unfold is_cont, in_range. intros. case_cmp; [lia|done]. Qed.

Lemma ascii_boundary l i :
  Forall (fun c => b2z c < 128) l -> (i <= length l)%nat -> is_char_boundary l i = true.
Proof.
  intros Hl Hi. unfold is_char_boundary. destruct (l !! i) as [b|] eqn:E.
  - rewrite ascii_not_cont by (by eapply Forall_lookup_1 in Hl). by rewrite orb_true_r.
  - apply lookup_ge_None in E. apply Nat.eqb_eq. lia.
Qed.

Lemma ascii_slice l i j :
  Forall (fun c => b2z c < 128) l -> (i <= j <= length l)%nat ->
  str_slice l i j = Some (slice l i j).
Proof.
  intros Hl Hij. unfold str_slice. rewrite !ascii_boundary by (done || lia).
  by rewrite (proj2 (Nat.leb_le i j)) by lia.
Qed.

Lemma slice_hex_lower l k b i :
  length l = i -> slice (hex_lower (l ++ b :: k)) (2 * i) (2 * i + 2) = hex_byte b.
Proof.
  intros <-. rewrite hex_lower_app.
  change (hex_lower (b :: k)) with (hex_byte b ++ hex_lower k).
  rewrite <- length_hex_lower. replace 2%nat with (length (hex_byte b)) by done.
  by rewrite slice_app_mid.
Qed.

Lemma hex_pairs_from l k :
  hex_pairs (hex_lower (l ++ k)) ((fun i => 2 * i)%nat <$> seq (length l) (length k)) = Some (Some k).
Proof.
  revert l. induction k as [|b k IH]; intros l; [done|]. cbn [length seq]. rewrite fmap_cons. cbn [hex_pairs].
  rewrite ascii_slice.
  2: apply hex_lower_ascii.
  2: rewrite length_hex_lower, length_app; simpl; lia.
  cbn [mbind option_bind]. rewrite slice_hex_lower by done.
  rewrite from_str_radix_hex_byte. specialize (IH (l ++ [b])).
  rewrite <- app_assoc, length_app in IH. cbn [app length] in IH.
  rewrite Nat.add_1_r in IH. rewrite IH. cbn. by rewrite z2b_b2z.
Qed.

(** A printed tag is read back, whatever its bytes. *)
Lemma parse_tag_printed (t : Tag) s : rs s = hex_lower (ab t) -> parse_tag s = Some (Some t).
Proof.
  intros Hs. unfold parse_tag. rewrite Hs.
  assert (length (ab t) = 32%nat) as Hl by apply length_ab.
  unfold zlen. rewrite length_hex_lower, Hl. cbn [negb Z.eqb].
  pose proof (hex_pairs_from [] (ab t)) as H. rewrite Hl in H. cbn [app length] in H.
  unfold starts. rewrite H. cbn. unfold tag_from_bytes. by rewrite try_into_ab.
Qed.

Lemma hex_pairs_ascii l ks :
  Forall (fun c => b2z c < 128) l -> Forall (fun i => i + 2 <= length l)%nat ks ->
  exists r, hex_pairs l ks = Some r.
Proof.
  intros Hl Hks. induction Hks as [|i ks Hi _ [r IH]]; simpl; [by eexists|].
  rewrite ascii_slice by (done || lia). cbn. destruct (from_str_radix _); [|by eexists].
  rewrite IH. by eexists.
Qed.

(** No string of ASCII characters panics. *)
Lemma parse_tag_ascii s :
  Forall (fun c => b2z c < 128) (rs s) -> exists r, parse_tag s = Some r.
Proof.
  intros Hs. unfold parse_tag. destruct (Z.eqb_spec (zlen (rs s)) 64) as [Hn|Hn]; [|by eexists].
  destruct (hex_pairs_ascii (rs s) starts Hs) as [r ->]; [|by eexists].
  assert (length (rs s) = 64%nat) as -> by (unfold zlen in Hn; lia).
  by repeat constructor; vm_compute; lia.
Qed.

(** ** What the reader takes that is not sixty-four digits *)

(** A euro sign is three bytes: index two is inside it. *)
Definition euro : bytes := [z2b 226; z2b 130; z2b 172].
Definition euro_then_zeros : bytes := euro ++ replicate 61 (z2b 48).
Definition panicking : rstring := RString euro_then_zeros I.

Lemma parse_tag_panics : parse_tag panicking = None.
Proof. vm_compute. reflexivity. Qed.

(** A plus before a digit is a sign. *)
Definition plus_digits : bytes := concat (replicate 32 [z2b 43; z2b 102]).
Definition signed : rstring := RString plus_digits I.

Lemma parse_tag_signed :
  exists t, parse_tag signed = Some (Some t) /\ ab t = replicate 32 (z2b 15).
Proof. eexists. split; vm_compute; reflexivity. Qed.
