(* ===== verification/Wake.v ===== *)
(** * Devices to wake, and the registry that holds them

    [Device] and [hash] of [crates/rotelyx-push/src/lib.rs], and
    [crates/rotelyx-mailbox-server/src/wake.rs].  Strings are their bytes: nothing
    here can tell more of them.  Calling Apple and Google is left out; what they
    answered for a device is an argument. *)

From S2P Require Import Prelude Hex.

(** [Sha256::digest]. *)
Class Sha256 := { sha256 : bytes -> arr 32 }.

(** ** Devices *)

Definition TOKEN_MIN : Z := 32.
Definition TOKEN_MAX : Z := 200.

Record Device := mkDevice {
  token : bytes;
  kind : bytes;
  revoke_hash : bytes;
  on_schedule : bool;
}.

#[export] Instance Device_eq_dec : EqDecision Device.
Proof. solve_decision. Defined.

Definition APNS : bytes := String.list_byte_of_string "apns".
Definition FCM : bytes := String.list_byte_of_string "fcm".

(** [u8::is_ascii_hexdigit]. *)
Definition is_hexdigit (b : byte) : bool :=
  in_range 48 57 b || in_range 97 102 b || in_range 65 70 b.

Definition valid (d : Device) : bool :=
  if negb ((TOKEN_MIN <=? zlen (token d)) && (zlen (token d) <=? TOKEN_MAX)) then false
  else if negb (forallb is_hexdigit (token d)) then false
  else if negb (bool_decide (revoke_hash d = [])) && negb (zlen (revoke_hash d) =? 64) then false
  else bool_decide (kind d = APNS) || bool_decide (kind d = FCM).

(** A [BTreeSet]: in order, each once. *)
Abbreviation Registry := (list Device).

Section Devices.
Context `{SH : Sha256}.

Definition hash (secret : bytes) : bytes := hex_lower (ab (sha256 secret)).

Definition choosing (tok knd secret : bytes) (scheduled : bool) : Device :=
  mkDevice tok knd (match secret with [] => [] | _ => hash secret end) scheduled.

Definition registering (tok knd secret : bytes) : Device := choosing tok knd secret true.

(** The order [derive(Ord)] gives: field by field. *)
Definition bool_le (a b : bool) : bool := negb a || b.

Definition lex {A} `{EqDecision A} (le : A -> A -> bool) (x y : A) (rest : bool) : bool :=
  if bool_decide (x = y) then rest else le x y.

Definition device_le (a b : Device) : bool :=
  lex bytes_le (token a) (token b)
    (lex bytes_le (kind a) (kind b)
      (lex bytes_le (revoke_hash a) (revoke_hash b) (bool_le (on_schedule a) (on_schedule b)))).

(** ** The registry *)

Definition WAKE_EVERY_DEFAULT : Z := 300.
Definition MAX_DEVICES : Z := 100000.
Definition MIN_SECRET_LEN : Z := 32.
Definition MAX_ROWS_PER_TOKEN : Z := 4.

Definition secret_is_long_enough (secret : bytes) : bool :=
  bool_decide (secret = []) || (MIN_SECRET_LEN <=? zlen secret).

Fixpoint set_insert (d : Device) (l : Registry) : Registry :=
  match l with
  | [] => [d]
  | x :: l' =>
      if bool_decide (d = x) then l
      else if device_le d x then d :: l
      else x :: set_insert d l'
  end.

Definition secrets_match (a b : bytes) : bool := bool_decide (a = b).

(** The caller's own row: the same token, under a secret it can produce. *)
Definition same_row (d x : Device) : bool :=
  bool_decide (token x = token d) && secrets_match (revoke_hash x) (revoke_hash d).

Definition register (r : Registry) (d : Device) : bool * Registry :=
  if negb (valid d) then (false, r)
  else if existsb (same_row d) r
  then (true, set_insert d (retain (fun x => negb (same_row d x)) r))
  else
    let for_this_token := zlen (retain (fun x => bool_decide (token x = token d)) r) in
    if (MAX_ROWS_PER_TOKEN <=? for_this_token) || (MAX_DEVICES <=? zlen r) then (true, r)
    else (true, set_insert d r).

Definition forget_token (r : Registry) (tok : bytes) : bool * Registry :=
  let r' := retain (fun x => negb (bool_decide (token x = tok))) r in
  (negb (zlen r =? zlen r'), r').

Definition revoke (r : Registry) (secret : bytes) : bool * Registry :=
  let wanted := hash secret in
  let r' := retain (fun x => negb (secrets_match (revoke_hash x) wanted)) r in
  (negb (zlen r =? zlen r'), r').

(** Keep the first row of each token: [seen] is the set the filter closes over. *)
Fixpoint first_of_each (seen : list bytes) (l : list Device) : list Device :=
  match l with
  | [] => []
  | d :: l =>
      if bool_decide (token d ∈ seen) then first_of_each seen l
      else d :: first_of_each (token d :: seen) l
  end.

Definition to_wake (r : Registry) : list Device := first_of_each [] (retain on_schedule r).

Definition snapshot (r : Registry) : list Device := r.

Definition restore (devices : list Device) : Registry :=
  foldl (fun r d => set_insert d r) [] (retain valid devices).

(** [DeviceBefore], a row written before a device could decline the schedule. *)
Record DeviceBefore := mkBefore { b_token : bytes; b_kind : bytes; b_revoke_hash : bytes }.

Definition from_before (old : DeviceBefore) : Device :=
  mkDevice (b_token old) (b_kind old) (b_revoke_hash old) true.

(** [restore_from], after the vault: the two readings of the bytes are postcard's. *)
Definition restore_from (decode : bytes -> option (list Device))
    (decode_before : bytes -> option (list DeviceBefore)) (file : option bytes)
    : Result Registry unit :=
  match file with
  | None => Ok []
  | Some l =>
      match decode l with
      | Some devices => Ok (restore devices)
      | None =>
          match decode_before l with
          | Some old => Ok (restore (from_before <$> old))
          | None => Err tt
          end
      end
  end.

(** *** Sweeping: [sweep], and what the timer does with it *)

Inductive Pushed := Woke | Gone | Failed.

(** Whether a service answers for a kind, and how: [None] when none is configured. *)
Fixpoint sweep (answer : Device -> option Pushed) (devices : list Device) : list bytes :=
  match devices with
  | [] => []
  | d :: ds =>
      match answer d with
      | Some Gone => token d :: sweep answer ds
      | _ => sweep answer ds
      end
  end.

Definition forget_all (r : Registry) (dead : list bytes) : Registry :=
  foldl (fun r t => (forget_token r t).2) r dead.

Definition scheduled_wake (answer : Device -> option Pushed) (r : Registry) : Registry :=
  forget_all r (sweep answer (to_wake r)).
End Devices.

(** ** Lemmas *)

Lemma lex_total {A} `{EqDecision A} (le : A -> A -> bool) x y r s :
  (forall x y, le x y = true \/ le y x = true) -> (r = true \/ s = true) ->
  lex le x y r = true \/ lex le y x s = true.
Proof.
  intros Ht Hrs. unfold lex. destruct (decide (x = y)) as [->|Hne].
  - by rewrite !bool_decide_eq_true_2.
  - by rewrite !bool_decide_eq_false_2.
Qed.

Lemma lex_trans {A} `{EqDecision A} (le : A -> A -> bool) x y z r s t :
  (forall x y z, le x y = true -> le y z = true -> le x z = true) ->
  (forall x y, le x y = true -> le y x = true -> x = y) ->
  lex le x y r = true -> lex le y z s = true -> (r = true -> s = true -> t = true) ->
  lex le x z t = true.
Proof.
  intros Ht Ha. unfold lex. destruct (decide (x = y)) as [->|Hxy].
  - rewrite bool_decide_eq_true_2 by done. by case_bool_decide; auto.
  - rewrite bool_decide_eq_false_2 by done. intros H1.
    destruct (decide (y = z)) as [->|Hyz].
    + by rewrite (bool_decide_eq_false_2 (x = z)).
    + rewrite (bool_decide_eq_false_2 (y = z)) by done. intros H2 _. case_bool_decide as Hxz.
      * subst. by destruct Hxy; apply Ha.
      * by eapply Ht.
Qed.

Lemma lex_antisym {A} `{EqDecision A} (le : A -> A -> bool) x y r s :
  (forall x y, le x y = true -> le y x = true -> x = y) ->
  lex le x y r = true -> lex le y x s = true -> x = y /\ r = true /\ s = true.
Proof.
  intros Ha. unfold lex. destruct (decide (x = y)) as [->|Hne].
  - by rewrite bool_decide_eq_true_2.
  - rewrite !bool_decide_eq_false_2 by done. intros. by destruct Hne; apply Ha.
Qed.

Lemma device_le_total a b : device_le a b = true \/ device_le b a = true.
Proof.
  unfold device_le. do 3 (apply lex_total; [apply bytes_le_total|]).
  destruct (on_schedule a), (on_schedule b); auto.
Qed.

Lemma device_le_trans a b c :
  device_le a b = true -> device_le b c = true -> device_le a c = true.
Proof.
  unfold device_le. intros H1 H2.
  eapply lex_trans; [apply bytes_le_trans|apply bytes_le_antisym|exact H1|exact H2|].
  clear H1 H2. intros H1 H2.
  eapply lex_trans; [apply bytes_le_trans|apply bytes_le_antisym|exact H1|exact H2|].
  clear H1 H2. intros H1 H2.
  eapply lex_trans; [apply bytes_le_trans|apply bytes_le_antisym|exact H1|exact H2|].
  by destruct (on_schedule a), (on_schedule b), (on_schedule c).
Qed.

Lemma device_le_antisym a b : device_le a b = true -> device_le b a = true -> a = b.
Proof.
  unfold device_le. intros H1 H2.
  destruct (lex_antisym _ _ _ _ _ bytes_le_antisym H1 H2) as (Ht & K1 & K2).
  destruct (lex_antisym _ _ _ _ _ bytes_le_antisym K1 K2) as (Hk & L1 & L2).
  destruct (lex_antisym _ _ _ _ _ bytes_le_antisym L1 L2) as (Hr & M1 & M2).
  destruct a as [ta ka ra sa], b as [tb kb rb sb]. simpl in *. subst. f_equal.
  by destruct sa, sb.
Qed.

(** In order and without repetition, as a [BTreeSet] is walked. *)
Definition in_order (r : Registry) : Prop :=
  StronglySorted (fun a b => device_le a b = true) r /\ NoDup r.

Lemma elem_of_set_insert d r x : x ∈ set_insert d r <-> x = d \/ x ∈ r.
Proof.
  induction r as [|y r IH]; simpl.
  - by rewrite elem_of_cons.
  - case_bool_decide as Hd; [subst; rewrite elem_of_cons; naive_solver|].
    destruct (device_le d y); rewrite !elem_of_cons, ?IH; naive_solver.
Qed.

Lemma set_insert_new d r :
  d ∉ r -> set_insert d r ≡ₚ d :: r.
Proof.
  induction r as [|y r IH]; simpl; [done|]. intros [Hne Hn]%not_elem_of_cons.
  rewrite bool_decide_eq_false_2 by done. destruct (device_le d y); [done|].
  rewrite IH by done. apply Permutation_swap.
Qed.

Lemma set_insert_in_order d r : in_order r -> in_order (set_insert d r).
Proof.
  intros [Hs Hn]. induction Hs as [|y r Hs IH Hy]; simpl.
  { split; repeat constructor. by intros ?%elem_of_nil. }
  apply NoDup_cons in Hn as [Hyr Hn]. specialize (IH Hn) as [IH1 IH2].
  case_bool_decide as Hd; [subst; split; by constructor|].
  destruct (device_le d y) eqn:E.
  - split; constructor; try (by constructor).
    + constructor; [done|]. eapply Forall_impl; [exact Hy|]. intros z. by apply device_le_trans.
    + intros [->|Hin]%elem_of_cons; [done|]. rewrite Forall_forall in Hy.
      by apply Hd, device_le_antisym; [|apply Hy].
  - split; constructor; try done.
    + apply Forall_forall. intros z [->|Hz]%elem_of_set_insert.
      * destruct (device_le_total d y); congruence.
      * rewrite Forall_forall in Hy. by apply Hy.
    + rewrite elem_of_set_insert. naive_solver.
Qed.

Lemma retain_in_order p r : in_order r -> in_order (retain p r).
Proof.
  intros [Hs Hn]. split; [by apply StronglySorted_retain|]. by apply NoDup_filter.
Qed.

Lemma count_insert (p : Device -> bool) d r :
  d ∉ r -> zlen (retain p (set_insert d r)) = (if p d then 1 else 0) + zlen (retain p r).
Proof.
  intros Hd. unfold retain, zlen. rewrite (set_insert_new d r Hd), filter_cons.
  destruct (p d); simpl; lia.
Qed.

Lemma zlen_retain_le {A} (p : A -> bool) l : zlen (retain p l) <= zlen l.
Proof. unfold zlen. pose proof (length_retain_le p l). lia. Qed.

Lemma zlen_retain_retain {A} (p q : A -> bool) l :
  zlen (retain p (retain q l)) <= zlen (retain p l).
Proof.
  unfold zlen, retain. induction l as [|x l IH]; simpl; [lia|]. rewrite !filter_cons.
  destruct (q x); simpl; rewrite ?filter_cons; destruct (p x); simpl; lia.
Qed.

(** ** Runs *)

Section Runs.
Context `{SH : Sha256}.

Inductive op :=
| ORegister (d : Device)
| OForget (tok : bytes)
| ORevoke (secret : bytes).

Definition apply_op (r : Registry) (o : op) : Registry :=
  match o with
  | ORegister d => (register r d).2
  | OForget tok => (forget_token r tok).2
  | ORevoke secret => (revoke r secret).2
  end.

Definition run (r : Registry) (os : list op) : Registry := foldl apply_op r os.

Definition rows_of (tok : bytes) (r : Registry) : list Device :=
  retain (fun x => bool_decide (token x = tok)) r.

Lemma same_row_iff d x :
  same_row d x = true <-> token x = token d /\ revoke_hash x = revoke_hash d.
Proof. unfold same_row, secrets_match. by rewrite andb_true_iff, !bool_decide_eq_true. Qed.

(** What a registry reached by any run looks like. *)
Record registry_ok (r : Registry) : Prop := {
  re_order : in_order r;
  re_valid : forall d, d ∈ r -> valid d = true;
  re_size : zlen r <= MAX_DEVICES;
  re_rows : forall tok, zlen (rows_of tok r) <= MAX_ROWS_PER_TOKEN;
  re_once : forall a b, a ∈ r -> b ∈ r -> same_row a b = true -> a = b;
}.

Lemma ok_retain p r : registry_ok r -> registry_ok (retain p r).
Proof.
  intros [H1 H2 H3 H4 H5]. split.
  - by apply retain_in_order.
  - intros d [_ Hd]%elem_of_retain. auto.
  - pose proof (zlen_retain_le p r). lia.
  - intros tok. specialize (H4 tok). unfold rows_of in *.
    pose proof (zlen_retain_retain (fun x => bool_decide (token x = tok)) p r). lia.
  - intros a b [_ Ha]%elem_of_retain [_ Hb]%elem_of_retain. auto.
Qed.

Lemma ok_insert d r :
  registry_ok r -> valid d = true -> zlen r < MAX_DEVICES ->
  zlen (rows_of (token d) r) < MAX_ROWS_PER_TOKEN ->
  (forall x, x ∈ r -> same_row d x = false) -> registry_ok (set_insert d r).
Proof.
  intros [H1 H2 H3 H4 H5] Hv Hsz Hrows Hnew.
  assert (d ∉ r) as Hd.
  { intros Hin. specialize (Hnew d Hin). rewrite (proj2 (same_row_iff d d)) in Hnew; done. }
  split.
  - by apply set_insert_in_order.
  - intros x [->|Hx]%elem_of_set_insert; auto.
  - unfold zlen. rewrite (Permutation_length (set_insert_new d r Hd)). unfold zlen in Hsz. simpl. lia.
  - intros tok. unfold rows_of in *. rewrite count_insert by done. specialize (H4 tok).
    case_bool_decide as Ht; [subst tok|]; lia.
  - intros a b [->|Ha]%elem_of_set_insert [->|Hb]%elem_of_set_insert Hab; [done| | |by auto].
    + by rewrite Hnew in Hab.
    + apply same_row_iff in Hab. assert (same_row d a = true) as Hx by (apply same_row_iff; naive_solver).
      by rewrite Hnew in Hx.
Qed.

Lemma retain_drops_one (p q : Device -> bool) r x :
  x ∈ r -> q x = true -> p x = false -> zlen (retain q (retain p r)) < zlen (retain q r).
Proof.
  intros (l & k & ->)%list_elem_of_split Hq Hp. rewrite !retain_app.
  assert (retain p (x :: k) = retain p k) as ->
    by (unfold retain; rewrite filter_cons; by rewrite Hp).
  assert (retain q (x :: k) = x :: retain q k) as ->
    by (unfold retain; rewrite filter_cons; by rewrite Hq).
  rewrite !zlen_app, zlen_cons. pose proof (zlen_retain_retain q p l).
  pose proof (zlen_retain_retain q p k). lia.
Qed.

Lemma retain_true {A} (l : list A) : retain (fun _ => true) l = l.
Proof. by apply retain_all. Qed.

Lemma ok_register r d : registry_ok r -> registry_ok (register r d).2.
Proof.
  intros Hr. unfold register. destruct (valid d) eqn:Hv; simpl; [|done].
  destruct (existsb (same_row d) r) eqn:Em; simpl.
  - apply existsb_exists in Em as (x & Hx%list_elem_of_In & Hs).
    pose proof (proj1 (same_row_iff _ _) Hs) as [Ht _].
    assert (negb (same_row d x) = false) as Hneg by by rewrite Hs.
    pose proof (retain_drops_one (fun y => negb (same_row d y)) (fun _ => true) r x Hx eq_refl Hneg) as L1.
    pose proof (retain_drops_one (fun y => negb (same_row d y))
      (fun y => bool_decide (token y = token d)) r x Hx ltac:(by apply bool_decide_eq_true_2) Hneg) as L2.
    rewrite !retain_true in L1. destruct Hr as [H1 H2 H3 H4 H5] eqn:E. clear E.
    apply ok_insert; [by apply ok_retain; split|done|lia| |].
    + specialize (H4 (token d)). unfold rows_of in *. lia.
    + intros y [Hy _]%elem_of_retain. by apply negb_true_iff in Hy.
  - destruct (Z.leb_spec MAX_ROWS_PER_TOKEN
      (zlen (retain (fun x => bool_decide (token x = token d)) r))); simpl; [done|].
    destruct (Z.leb_spec MAX_DEVICES (zlen r)); simpl; [done|].
    apply ok_insert; try done. intros x Hx. destruct (same_row d x) eqn:E; [|done].
    assert (existsb (same_row d) r = true); [|congruence].
    apply existsb_exists. exists x. split; [by apply list_elem_of_In|done].
Qed.

Lemma ok_run os r : registry_ok r -> registry_ok (run r os).
Proof.
  revert r. induction os as [|o os IH]; intros r Hr; [done|]. apply IH.
  destruct o; simpl; [by apply ok_register|by apply ok_retain|by apply ok_retain].
Qed.

Lemma ok_empty : registry_ok [].
Proof.
  split; simpl; try done.
  - split; constructor.
  - intros d H. by apply not_elem_of_nil in H.
  - intros a b H. by apply not_elem_of_nil in H.
Qed.

Lemma elem_of_first_of_each seen l tok :
  tok ∈ token <$> first_of_each seen l <-> tok ∉ seen /\ tok ∈ token <$> l.
Proof.
  revert seen. induction l as [|d l IH]; intros seen; csimpl.
  { rewrite elem_of_nil. naive_solver. }
  case_bool_decide as Hd; csimpl; rewrite ?elem_of_cons, IH.
  - naive_solver.
  - rewrite not_elem_of_cons. destruct (decide (tok = token d)); naive_solver.
Qed.

Lemma first_of_each_nodup seen l : NoDup (token <$> first_of_each seen l).
Proof.
  revert seen. induction l as [|d l IH]; intros seen; csimpl; [constructor|].
  case_bool_decide; csimpl; [apply IH|]. constructor; [|apply IH].
  rewrite elem_of_first_of_each. intros [Hn _]. apply Hn. left.
Qed.

Lemma elem_of_to_wake r tok :
  tok ∈ token <$> to_wake r <-> exists d, d ∈ r /\ token d = tok /\ on_schedule d = true.
Proof.
  unfold to_wake. rewrite elem_of_first_of_each, list_elem_of_fmap.
  setoid_rewrite elem_of_retain. split.
  - intros (_ & d & -> & Hs & Hd). eauto.
  - intros (d & Hd & <- & Hs). split; [by apply not_elem_of_nil|]. eauto.
Qed.

(** The registry stays within its bounds, and wakes each phone once.  After any run
    of registrations, revocations and tokens found dead it is in order without
    repetition, holds valid devices only, no more than the maximum, at most four to a
    token and one to a token and secret; and the schedule wakes each token that has a
    row on the schedule, once. *)
Theorem registry_bounds os :
  let r := run [] os in
  in_order r /\ (forall d, d ∈ r -> valid d = true) /\ zlen r <= MAX_DEVICES /\
  (forall tok, zlen (rows_of tok r) <= MAX_ROWS_PER_TOKEN) /\
  (forall a b, a ∈ r -> b ∈ r -> same_row a b = true -> a = b) /\
  NoDup (token <$> to_wake r) /\
  (forall tok, tok ∈ token <$> to_wake r <->
     exists d, d ∈ r /\ token d = tok /\ on_schedule d = true).
Proof.
  intros r. destruct (ok_run os [] ok_empty) as [H1 H2 H3 H4 H5].
  split_and!; try done.
  - apply first_of_each_nodup.
  - intros tok. apply elem_of_to_wake.
Qed.

(** What may take a row away: its own token and stored secret registered again, its
    secret, or the push service saying its token is dead. *)
Definition may_drop (d : Device) (o : op) : Prop :=
  match o with
  | ORegister d' => same_row d' d = true
  | OForget tok => tok = token d
  | ORevoke secret => hash secret = revoke_hash d
  end.

(** A row belongs to its secret.  No run of operations removes or alters it unless
    it contains one that names the row's own stored secret, or forgets its token:
    knowing somebody's token takes nothing from them. *)
Theorem a_row_belongs_to_its_secret r os d :
  d ∈ r -> Forall (fun o => ~ may_drop d o) os -> d ∈ run r os.
Proof.
  intros Hd Hos. revert r Hd. induction Hos as [|o os Ho _ IH]; intros r Hd; [done|].
  apply IH. destruct o as [d'|tok|secret]; simpl in *.
  - unfold register. destruct (valid d'); simpl; [|done].
    destruct (existsb (same_row d') r); simpl.
    + apply elem_of_set_insert. right. apply elem_of_retain. split; [|done].
      apply negb_true_iff. by destruct (same_row d' d).
    + destruct (_ || _); simpl; [done|]. apply elem_of_set_insert. by right.
  - apply elem_of_retain. split; [|done]. apply negb_true_iff, bool_decide_eq_false. naive_solver.
  - apply elem_of_retain. split; [|done]. unfold secrets_match.
    apply negb_true_iff, bool_decide_eq_false. naive_solver.
Qed.
End Runs.

(** ** What a token without its secret is worth *)

Section Strangers.
Context `{SH : Sha256}.

Lemma length_hex l : length (hex_lower l) = (2 * length l)%nat.
Proof. unfold hex_lower. induction l as [|b l IH]; csimpl; [done|]. rewrite IH. lia. Qed.

Lemma hash_64 s : zlen (hash s) = 64.
Proof. unfold hash, zlen. rewrite length_hex, length_ab. done. Qed.

Lemma choosing_valid tok knd secret b :
  TOKEN_MIN <= zlen tok <= TOKEN_MAX -> forallb is_hexdigit tok = true ->
  knd = APNS \/ knd = FCM -> valid (choosing tok knd secret b) = true.
Proof.
  intros [H1 H2] Hx Hk. unfold valid, choosing. cbn [token kind revoke_hash].
  rewrite (proj2 (Z.leb_le _ _) H1), (proj2 (Z.leb_le _ _) H2), Hx. simpl.
  assert (negb (bool_decide (match secret with [] => [] | _ => hash secret end = [])) &&
    negb (zlen match secret with [] => [] | _ => hash secret end =? 64) = false) as ->.
  { destruct secret; [by rewrite bool_decide_eq_true_2|]. by rewrite hash_64, andb_false_r. }
  destruct Hk as [->| ->]; by vm_compute.
Qed.

Definition is_token (tok : bytes) : Prop :=
  TOKEN_MIN <= zlen tok <= TOKEN_MAX /\ forallb is_hexdigit tok = true.

(** A row registered without a secret can be taken over by anybody who knows its
    token.  Registering the token again, also without a secret, replaces the row,
    though no revocation could remove it: a stranger that declines the schedule takes
    the phone off it. *)
Theorem open_row_can_be_silenced r tok knd :
  is_token tok -> knd = APNS \/ knd = FCM ->
  let row := choosing tok knd [] true in
  row ∈ r -> (forall x, x ∈ r -> token x = tok -> x = row) ->
  let '(accepted, r') := register r (choosing tok knd [] false) in
  tok ∈ token <$> to_wake r /\ accepted = true /\ tok ∉ token <$> to_wake r' /\
  forall secret, row ∈ (revoke r secret).2.
Proof.
  intros [Hl Hx] Hk row Hrow Honly. unfold register.
  rewrite choosing_valid by done. cbn [negb].
  assert (existsb (same_row (choosing tok knd [] false)) r = true) as ->.
  { apply existsb_exists. exists row. split; [by apply list_elem_of_In|]. by apply same_row_iff. }
  split_and!; [|done| |].
  - apply elem_of_to_wake. by exists row.
  - rewrite elem_of_to_wake. intros (d & Hd & Ht & Hs).
    apply elem_of_set_insert in Hd as [->|[Hn Hd]%elem_of_retain]; [done|].
    rewrite (Honly d Hd Ht) in Hn. by rewrite (proj2 (same_row_iff _ row)) in Hn.
  - intros secret. apply elem_of_retain. split; [|done]. unfold secrets_match.
    apply negb_true_iff, bool_decide_eq_false. simpl. intros H.
    pose proof (hash_64 secret) as H64. by rewrite <- H in H64.
Qed.

(** Rows of a token, all declining the schedule, under the hashes [hs]. *)
Record crowded (tok : bytes) (hs : list bytes) (r : Registry) : Prop := {
  cr_count : zlen (rows_of tok r) = zlen hs;
  cr_rows : forall x, x ∈ r -> token x = tok -> on_schedule x = false /\ revoke_hash x ∈ hs;
}.

Lemma choosing_hash tok knd s b : s <> [] -> revoke_hash (choosing tok knd s b) = hash s.
Proof. by destruct s. Qed.

Lemma register_stranger r tok knd s hs :
  is_token tok -> knd = APNS \/ knd = FCM -> s <> [] -> hash s ∉ hs -> crowded tok hs r ->
  zlen hs < MAX_ROWS_PER_TOKEN -> zlen r < MAX_DEVICES ->
  let r' := (register r (choosing tok knd s false)).2 in
  crowded tok (hash s :: hs) r' /\ zlen r' = zlen r + 1.
Proof.
  intros [Hl Hx] Hk Hs Hh [Hc Hr] Hn Hsz. unfold register.
  rewrite choosing_valid by done. cbn [negb].
  set (d := choosing tok knd s false).
  assert (revoke_hash d = hash s) as Hd by by apply choosing_hash.
  assert (d ∉ r) as Hnew.
  { intros Hin. destruct (Hr d Hin eq_refl) as [_ Hin']. by rewrite Hd in Hin'. }
  assert (existsb (same_row d) r = false) as ->.
  { apply not_true_iff_false. rewrite existsb_exists. intros (x & Hx'%list_elem_of_In & Hsame).
    apply same_row_iff in Hsame as [Ht Hsame]. destruct (Hr x Hx' Ht) as [_ Hin].
    by rewrite Hsame, Hd in Hin. }
  assert (zlen (retain (fun x => bool_decide (token x = token d)) r) = zlen hs) as -> by exact Hc.
  rewrite (proj2 (Z.leb_gt _ _)), (proj2 (Z.leb_gt _ _)) by done. cbn [orb snd].
  split; [split|].
  - unfold rows_of. rewrite count_insert, zlen_cons by done.
    rewrite bool_decide_eq_true_2 by done. unfold rows_of in Hc. lia.
  - intros x [->|Hin]%elem_of_set_insert Ht.
    + rewrite Hd. split; [done|left].
    + destruct (Hr x Hin Ht). split; [done|by right].
  - unfold zlen. rewrite (Permutation_length (set_insert_new d r Hnew)). simpl. lia.
Qed.

Lemma register_strangers r tok knd ss hs :
  is_token tok -> knd = APNS \/ knd = FCM -> Forall (fun s => s <> []) ss ->
  NoDup (reverse (hash <$> ss) ++ hs) -> crowded tok hs r ->
  zlen ss + zlen hs <= MAX_ROWS_PER_TOKEN -> zlen r + zlen ss <= MAX_DEVICES ->
  crowded tok (reverse (hash <$> ss) ++ hs)
    (foldl (fun r s => (register r (choosing tok knd s false)).2) r ss).
Proof.
  intros Ht Hk Hss. revert r hs. induction Hss as [|s ss Hs _ IH]; intros r hs Hnd Hc Hn Hsz; [done|].
  csimpl in *. rewrite reverse_cons, <- app_assoc in *. rewrite zlen_cons in *.
  pose proof (zlen_nonneg ss).
  destruct (register_stranger r tok knd s hs) as [Hc' Hsz']; try done; [|lia|lia|].
  { apply NoDup_app in Hnd as (_ & _ & Hnd). by apply NoDup_cons in Hnd as [Hnd _]. }
  apply (IH _ (hash s :: hs)); [done|done|rewrite zlen_cons; lia|lia].
Qed.

(** A token whose rows are taken is never woken.  Four registrations by strangers
    under secrets of their own, each declining the schedule, fill a token's rows; the
    owner's registration is then answered like any other and not stored, so the
    schedule never wakes the phone. *)
Theorem crowded_token_is_never_woken r tok knd ss owner scheduled :
  is_token tok -> knd = APNS \/ knd = FCM ->
  Forall (fun s => s <> []) ss -> zlen ss = MAX_ROWS_PER_TOKEN -> NoDup (hash <$> ss) ->
  (forall x, x ∈ r -> token x <> tok) -> zlen r + MAX_ROWS_PER_TOKEN <= MAX_DEVICES ->
  owner <> [] -> hash owner ∉ hash <$> ss ->
  let r' := foldl (fun r s => (register r (choosing tok knd s false)).2) r ss in
  register r' (choosing tok knd owner scheduled) = (true, r') /\
  tok ∉ token <$> to_wake r'.
Proof.
  intros Ht Hk Hss Hn Hnd Hfree Hsz Ho Hh r'.
  assert (crowded tok [] r) as Hc0.
  { split; [|intros x Hx Hxt; by destruct (Hfree x Hx)]. unfold rows_of.
    destruct (retain _ r) as [|x l] eqn:E; [done|].
    assert (x ∈ retain (fun x => bool_decide (token x = tok)) r) as [Hxt Hx]%elem_of_retain
      by (rewrite E; left).
    apply bool_decide_eq_true in Hxt. by destruct (Hfree x Hx). }
  assert (crowded tok (reverse (hash <$> ss) ++ []) r') as [Hc Hr].
  { apply register_strangers; try done; [|by rewrite Hn|by rewrite Hn].
    rewrite app_nil_r. by rewrite reverse_Permutation. }
  rewrite app_nil_r in *. split.
  - unfold register. destruct Ht as [Hl Hx]. rewrite choosing_valid by done. cbn [negb].
    set (d := choosing tok knd owner scheduled).
    assert (revoke_hash d = hash owner) as Hd by by apply choosing_hash.
    assert (existsb (same_row d) r' = false) as ->.
    { apply not_true_iff_false. rewrite existsb_exists. intros (x & Hx'%list_elem_of_In & Hsame).
      apply same_row_iff in Hsame as [Htx Hsame]. destruct (Hr x Hx' Htx) as [_ Hin].
      rewrite Hsame, Hd, elem_of_reverse in Hin. done. }
    assert (zlen (retain (fun x => bool_decide (token x = token d)) r') = MAX_ROWS_PER_TOKEN) as ->.
    { change (zlen (rows_of tok r') = MAX_ROWS_PER_TOKEN). rewrite Hc, <- Hn. unfold zlen.
      by rewrite length_reverse, length_fmap. }
    by rewrite Z.leb_refl.
  - rewrite elem_of_to_wake. intros (d & Hd & Hdt & Hs). destruct (Hr d Hd Hdt). congruence.
Qed.
End Strangers.

Module WakeExample.
(** A digest for the examples: the input's length and first byte, thirty-two wide. *)
#[export] Instance toy_sha : Sha256 := {| sha256 l := be_arr 32 (be_value (take 8 l)) |}.
Definition phone : bytes := replicate 64 x61.
Definition secret (b : byte) : bytes := replicate 32 b.
Definition mine : Device := choosing phone APNS (secret x31) true.
End WakeExample.

Import WakeExample.

Lemma a_row_belongs_to_its_secret_witness :
  mine ∈ run [mine] [ORegister (choosing phone APNS (secret x32) false); ORevoke (secret x33);
    ORevoke phone; OForget (secret x61)].
Proof.
  apply a_row_belongs_to_its_secret; [left|]. repeat constructor; vm_compute; discriminate.
Defined.

Lemma open_row_can_be_silenced_witness :
  let '(accepted, r') := register [choosing phone APNS [] true] (choosing phone APNS [] false) in
  accepted = true /\ phone ∉ token <$> to_wake r'.
Proof.
  destruct (open_row_can_be_silenced [choosing phone APNS [] true] phone APNS)
    as (_ & H2 & H3 & _).
  - split; [vm_compute; split; discriminate|vm_compute; reflexivity].
  - by left.
  - left.
  - by intros x ->%list_elem_of_singleton.
  - split; [exact H2|exact H3].
Defined.

Lemma crowded_token_is_never_woken_witness :
  let r' := foldl (fun r s => (register r (choosing phone APNS s false)).2) []
    [secret x32; secret x33; secret x34; secret x35] in
  register r' mine = (true, r') /\ phone ∉ token <$> to_wake r'.
Proof.
  apply (crowded_token_is_never_woken [] phone APNS
    [secret x32; secret x33; secret x34; secret x35] (secret x31) true).
  - split; [vm_compute; split; discriminate|vm_compute; reflexivity].
  - by left.
  - repeat constructor; discriminate.
  - reflexivity.
  - apply (bool_decide_unpack _). vm_compute. exact I.
  - intros x Hx. by apply not_elem_of_nil in Hx.
  - vm_compute. discriminate.
  - discriminate.
  - apply (bool_decide_unpack _). vm_compute. exact I.
Defined.
