(* ===== verification/WakeTicket.v ===== *)
(** * Wake tickets and the notifier that spends them

    [crates/rotelyx-crypto/src/wake_ticket.rs] (a push token sealed to the
    notifier) and the [wake] handler of [crates/rotelyx-notifier/src/main.rs].
    The encapsulation, the cipher, the hash and base64 are the interfaces of
    [Crypto], [Hybrid] and [Capability]; what Apple and Google answer is an
    argument. *)

From S2P Require Import Prelude Crypto Capability Hex Wake Hybrid.

Definition TICKET_CONTEXT : string := "rotelyx wake ticket v1".
Definition TICKET_LABEL : bytes := String.list_byte_of_string "rotelyx wake ticket v1".
Definition TOKEN_ROOM : nat := 256.
Definition TICKET_BODY_LEN : nat := 1 + 2 + TOKEN_ROOM + 8.
Definition SEALED_TICKET_LEN : nat := CIPHERTEXT_LEN + 24 + TICKET_BODY_LEN + 16.
Definition TICKET_MAX_AGE_HOURS : Z := 48.

Inductive TicketKind := Apns | Fcm.

#[export] Instance TicketKind_eq_dec : EqDecision TicketKind.
Proof. solve_decision. Defined.

Definition code (k : TicketKind) : byte := match k with Apns => z2b 1 | Fcm => z2b 2 end.

Definition from_code (c : byte) : option TicketKind :=
  if b2z c =? 1 then Some Apns else if b2z c =? 2 then Some Fcm else None.

Definition as_str (k : TicketKind) : bytes := match k with Apns => APNS | Fcm => FCM end.

Record Woken := mkWoken { w_kind : TicketKind; w_token : rstring }.

Record WakeTicket := mkTicket {
  t_kem : arr CIPHERTEXT_LEN;
  t_nonce : arr 24;
  t_sealed : bytes;
}.

Definition ticket_body (k : TicketKind) (token : bytes) (minted_hour : Z) : bytes :=
  [code k] ++ be_bytes 2 (zlen token)
  ++ (token ++ replicate (TOKEN_ROOM - length token) zero_byte)
  ++ be_bytes 8 minted_hour.

(** What [open] reads in the decrypted body. *)
Definition read_ticket (body : bytes) (now_hour : Z) : Result Woken HybridError :=
  if negb (zlen body =? Z.of_nat TICKET_BODY_LEN) then Err BadCiphertext
  else
    let? k := ok_or BadCiphertext (c ← body !! 0%nat; from_code c) in
    let len := be_value (slice body 1 3) in
    if (len =? 0) || (Z.of_nat TOKEN_ROOM <? len) then Err BadCiphertext
    else
      let minted := be_value (drop (3 + TOKEN_ROOM) body) in
      if (TICKET_MAX_AGE_HOURS <? sat_sub now_hour minted) || (now_hour + 1 <? minted)
      then Err BadCiphertext
      else
        let? token := ok_or BadCiphertext (from_utf8 (slice body 3 (3 + Z.to_nat len))) in
        Ok (mkWoken k token).

Section Tickets.
Context `{BL : Blake3, AE : Aead, XW : XWing}.

Definition ticket_key (kem_secret : arr 32) : arr 32 := derive_key kem_secret TICKET_CONTEXT.

(** [random] and [fresh] are what the encapsulation and [getrandom::fill] drew. *)
Definition ticket_seal (notifier : PublicKey) (k : TicketKind) (token : rstring)
    (minted_hour : Z) (random : bytes) (fresh : option (arr 24)) : Result WakeTicket HybridError :=
  if bool_decide (rs token = []) || (Z.of_nat TOKEN_ROOM <? zlen (rs token)) then Err BadCiphertext
  else
    let '(kem, kem_secret) := encapsulate notifier random in
    let key := ticket_key kem_secret in
    let? nonce := ok_or Entropy fresh in
    let? s := ok_or BadCiphertext
      (aead_seal (ab key) (ab nonce) TICKET_LABEL (ticket_body k (rs token) minted_hour)) in
    Ok (mkTicket kem nonce s).

Definition ticket_open (t : WakeTicket) (notifier : SecretKey) (now_hour : Z)
    : Result Woken HybridError :=
  let key := ticket_key (decapsulate notifier (t_kem t)) in
  let? body := ok_or Decapsulation (aead_open (ab key) (ab (t_nonce t)) TICKET_LABEL (t_sealed t)) in
  read_ticket body now_hour.

End Tickets.

Definition ticket_to_bytes (t : WakeTicket) : bytes := ab (t_kem t) ++ ab (t_nonce t) ++ t_sealed t.

Definition ticket_from_bytes (l : bytes) : Result WakeTicket HybridError :=
  if negb (zlen l =? Z.of_nat SEALED_TICKET_LEN) then Err BadCiphertext
  else
    let? k := ok_or BadCiphertext (try_into CIPHERTEXT_LEN (take CIPHERTEXT_LEN l)) in
    let n := copy_from_slice 24 (slice l CIPHERTEXT_LEN (CIPHERTEXT_LEN + 24)) in
    Ok (mkTicket k n (drop (CIPHERTEXT_LEN + 24) l)).

(** ** The notifier *)

Inductive Status := OK | FORBIDDEN | PAYLOAD_TOO_LARGE.

Section Notifier.
Context `{BL : Blake3, AE : Aead, XW : XWing, B64 : Base64}.

(** [apns] and [fcm] say how a configured service answers; [None] is a service
    the notifier was started without. *)
Record Notifier := mkNotifier {
  key : SecretKey;
  apns : option (Device -> bool);
  fcm : option (Device -> bool);
  caller_secret : option bytes;
  max_per_request : Z;
}.

Definition service (s : Notifier) (k : TicketKind) : option (Device -> bool) :=
  match k with Apns => apns s | Fcm => fcm s end.

(** The device the handler makes of an opened ticket. *)
Definition device_of (opened : Woken) : Device :=
  mkDevice (rs (w_token opened)) (as_str (w_kind opened)) [] false.

(** The body of the loop up to the call: the device pushed to, if any. *)
Definition opens_to (s : Notifier) (sealed : bytes) (hour : Z) : option (TicketKind * Device) :=
  l ← b64_decode sealed;
  t ← rok (ticket_from_bytes l);
  opened ← rok (ticket_open t (key s) hour);
  Some (w_kind opened, device_of opened).

(** The loop: how many were pushed, and every device a service was called for. *)
Fixpoint wake_each (s : Notifier) (tickets : list bytes) (hour : Z) : Z * list Device :=
  match tickets with
  | [] => (0, [])
  | sealed :: tickets =>
      let '(woken, called) := wake_each s tickets hour in
      match opens_to s sealed hour with
      | None => (woken, called)
      | Some (k, device) =>
          match service s k with
          | None => (woken, called)
          | Some push => (if push device then woken + 1 else woken, device :: called)
          end
      end
  end.

Definition caller_ok (s : Notifier) (given : option bytes) : bool :=
  match caller_secret s with
  | None => true
  | Some expected => bool_decide (default [] given = expected)
  end.

Definition wake (s : Notifier) (given : option bytes) (tickets : list bytes) (hour : Z)
    : Status * Z * list Device :=
  if negb (caller_ok s given) then (FORBIDDEN, 0, [])
  else if max_per_request s <? zlen tickets then (PAYLOAD_TOO_LARGE, 0, [])
  else let (woken, called) := wake_each s tickets hour in (OK, woken, called).
End Notifier.

(** [Apns::wake] addresses Apple by the device's token. *)
Definition apns_url (host : bytes) (d : Device) : bytes :=
  host ++ String.list_byte_of_string "/3/device/" ++ token d.

(** ** Lemmas *)

Lemma from_code_code k : from_code (code k) = Some k.
Proof. by destruct k. Qed.

Lemma zlen_ticket_body k token minted :
  (length token <= TOKEN_ROOM)%nat -> zlen (ticket_body k token minted) = Z.of_nat TICKET_BODY_LEN.
Proof.
  intros Hl. unfold ticket_body, zlen. rewrite !length_app, !length_be_bytes, length_replicate.
  unfold TICKET_BODY_LEN. simpl length. lia.
Qed.

(** What the notifier reads in a body it opened, at any hour. *)
Lemma read_ticket_body k (token : rstring) minted now :
  rs token <> [] -> zlen (rs token) <= Z.of_nat TOKEN_ROOM -> u64 minted ->
  read_ticket (ticket_body k (rs token) minted) now =
  if (TICKET_MAX_AGE_HOURS <? sat_sub now minted) || (now + 1 <? minted)
  then Err BadCiphertext else Ok (mkWoken k token).
Proof.
  intros Hne Hlen Hm. unfold read_ticket.
  assert (length (rs token) <= TOKEN_ROOM)%nat as Hl by (unfold zlen in Hlen; lia).
  rewrite zlen_ticket_body, Z.eqb_refl by done. cbn [negb].
  set (room := rs token ++ replicate (TOKEN_ROOM - length (rs token)) zero_byte).
  assert (length room = TOKEN_ROOM) as Hroom.
  { unfold room. rewrite length_app, length_replicate. lia. }
  unfold ticket_body. fold room.
  change ([code k] ++ be_bytes 2 (zlen (rs token)) ++ room ++ be_bytes 8 minted)
    with (code k :: be_bytes 2 (zlen (rs token)) ++ room ++ be_bytes 8 minted).
  cbn [lookup list_lookup mbind option_bind]. rewrite from_code_code. cbn [ok_or rbind].
  change (code k :: ?l) with ([code k] ++ l).
  rewrite (slice_app_mid [code k] (be_bytes 2 _)) by (by rewrite ?length_be_bytes).
  rewrite be_value_bytes_small by (change (Z.of_nat TOKEN_ROOM) with 256 in Hlen; change (256 ^ Z.of_nat 2) with 65536;
      pose proof (zlen_nonneg (rs token)); lia).
  assert (0 < zlen (rs token)) as Hpos by (destruct (rs token); [done|rewrite zlen_cons; pose proof (zlen_nonneg l); lia]).
  rewrite (proj2 (Z.eqb_neq _ _)) by lia. rewrite (proj2 (Z.ltb_ge _ _)) by lia. cbn [orb].
  rewrite !app_assoc. rewrite drop_app_length'.
  2: { rewrite !length_app, length_be_bytes, Hroom. done. }
  rewrite be_value_bytes_small by (by apply u64_pow).
  destruct (_ || _); [done|]. unfold room. rewrite <- !app_assoc, (app_assoc [code k]).
  rewrite slice_app_mid; [|by rewrite length_app, length_be_bytes|].
  2: { rewrite length_app, length_be_bytes. unfold zlen. simpl. lia. }
  by rewrite from_utf8_rs.
Qed.

Lemma ticket_roundtrip t :
  zlen (t_sealed t) = Z.of_nat (TICKET_BODY_LEN + 16) ->
  zlen (ticket_to_bytes t) = Z.of_nat SEALED_TICKET_LEN /\
  ticket_from_bytes (ticket_to_bytes t) = Ok t.
Proof.
  intros Ht.
  assert (zlen (ticket_to_bytes t) = Z.of_nat SEALED_TICKET_LEN) as Hl
    by (unfold ticket_to_bytes; rewrite !zlen_app, !zlen_ab, Ht; done).
  split; [done|]. unfold ticket_from_bytes. rewrite Hl, Z.eqb_refl. cbn [negb].
  unfold ticket_to_bytes. rewrite (take_ab (t_kem t)), (try_into_ab (t_kem t)). cbn [ok_or rbind].
  assert (slice (ab (t_kem t) ++ ab (t_nonce t) ++ t_sealed t) CIPHERTEXT_LEN
    (CIPHERTEXT_LEN + 24) = ab (t_nonce t)) as -> by (apply slice_app_mid; by rewrite ?length_ab).
  rewrite copy_ab, <- drop_drop, (drop_ab (t_kem t)), (drop_ab (t_nonce t)). by destruct t.
Qed.

Section Facts.
Context `{BL : Blake3, AL : AeadLaws, XL : XWingLaws}.

Lemma seal_inv pk k token minted r fresh t :
  ticket_seal pk k token minted r fresh = Ok t ->
  rs token <> [] /\ zlen (rs token) <= Z.of_nat TOKEN_ROOM /\
  aead_seal (ab (ticket_key (encapsulate pk r).2)) (ab (t_nonce t)) TICKET_LABEL
    (ticket_body k (rs token) minted) = Some (t_sealed t) /\
  t_kem t = (encapsulate pk r).1.
Proof.
  unfold ticket_seal. destruct (bool_decide_reflect (rs token = [])) as [|Hne]; [done|]. simpl.
  destruct (Z.ltb_spec (Z.of_nat TOKEN_ROOM) (zlen (rs token))); [done|].
  destruct (encapsulate pk r) as [kem s]. intros (nonce & Hn & Hrest)%rbind_ok.
  apply rbind_ok in Hrest as (ct & Hct & [= <-]). destruct fresh; [injection Hn as ->|done].
  destruct (aead_seal _ _ _ _) eqn:E; [injection Hct as ->|done]. done.
Qed.

Lemma sealed_ticket_opens sk k token minted r fresh t now :
  ticket_seal (public sk) k token minted r fresh = Ok t -> u64 minted ->
  ticket_open t sk now =
    if (TICKET_MAX_AGE_HOURS <? sat_sub now minted) || (now + 1 <? minted)
    then Err BadCiphertext else Ok (mkWoken k token).
Proof.
  intros (Hne & Hlen & Hs & Hk)%seal_inv Hm. unfold ticket_open. rewrite Hk.
  rewrite decapsulate_encapsulate, (aead_open_seal _ _ _ _ _ Hs). cbn [ok_or rbind].
  by apply read_ticket_body.
Qed.

Lemma sealed_ticket_wire pk k token minted r fresh t :
  ticket_seal pk k token minted r fresh = Ok t ->
  zlen (ticket_to_bytes t) = Z.of_nat SEALED_TICKET_LEN /\
  ticket_from_bytes (ticket_to_bytes t) = Ok t.
Proof.
  intros (Hne & Hlen & Hs & Hk)%seal_inv. apply ticket_roundtrip.
  rewrite (aead_seal_len _ _ _ _ _ Hs), zlen_ticket_body; [done|]. unfold zlen in Hlen. lia.
Qed.

(** A wake ticket has one length, whatever the push token in it, and survives
    its wire form; the notifier it was sealed to reads back exactly the token and
    the service, from an hour before it was minted until forty-eight hours after,
    and at no other hour. *)
Theorem ticket_opens_while_fresh sk k token minted r fresh t now :
  ticket_seal (public sk) k token minted r fresh = Ok t -> u64 minted -> 0 <= now ->
  zlen (ticket_to_bytes t) = Z.of_nat SEALED_TICKET_LEN /\
  ticket_from_bytes (ticket_to_bytes t) = Ok t /\
  (ticket_open t sk now = Ok (mkWoken k token) <->
    minted - 1 <= now <= minted + TICKET_MAX_AGE_HOURS) /\
  (ticket_open t sk now <> Ok (mkWoken k token) -> ticket_open t sk now = Err BadCiphertext).
Proof.
  intros Hs Hm Hnow. rewrite (sealed_ticket_opens _ _ _ _ _ _ _ now Hs Hm).
  destruct (sealed_ticket_wire _ _ _ _ _ _ _ Hs) as [Hl Hr]. split; [done|]. split; [done|].
  unfold sat_sub, TICKET_MAX_AGE_HOURS, u64 in *.
  destruct (Z.ltb_spec 48 (Z.max 0 (now - minted))); simpl.
  { split; [|done]. split; [done|]. intros. exfalso. lia. }
  destruct (Z.ltb_spec (now + 1) minted); (split; [|done]); split; try done; intros; lia.
Qed.

End Facts.

Section NotifierFacts.
Context `{BL : Blake3, AE : Aead, XW : XWing, B64 : Base64}.

(** The device a service is called for, when one is configured. *)
Definition called_for (s : Notifier) (hour : Z) (sealed : bytes) : option (TicketKind * Device) :=
  kd ← opens_to s sealed hour; _ ← service s kd.1; Some kd.

Definition answered (s : Notifier) (kd : TicketKind * Device) : bool :=
  match service s kd.1 with Some push => push kd.2 | None => false end.

Lemma wake_each_spec s ts hour :
  wake_each s ts hour =
  (zlen (retain (answered s) (omap (called_for s hour) ts)), snd <$> omap (called_for s hour) ts).
Proof.
  induction ts as [|x ts IH]; [done|]. cbn [wake_each omap list_omap]. rewrite IH. unfold called_for.
  destruct (opens_to s x hour) as [[k d]|]; simpl; [|done].
  destruct (service s k) as [push|] eqn:E; simpl; [|done].
  f_equal. unfold retain, answered. rewrite filter_cons. simpl. rewrite E. destruct (push d); simpl.
  - rewrite zlen_cons, Z.add_comm. done.
  - done.
Qed.
End NotifierFacts.

(** The notifier answers with how many it pushed and nothing else that depends
    on a ticket.  A caller without the secret, or with too many tickets, makes no
    call; otherwise each ticket is taken on its own, in order: one that does not
    decode, does not open or names a service that is not configured is passed
    over, every other is called for once, and the count is of those whose push
    succeeded. *)
Theorem notifier_calls_exactly `{Blake3, Aead, XWing, Base64} s given ts hour :
  wake s given ts hour =
  if negb (caller_ok s given) then (FORBIDDEN, 0, [])
  else if max_per_request s <? zlen ts then (PAYLOAD_TOO_LARGE, 0, [])
  else (OK, zlen (retain (answered s) (omap (called_for s hour) ts)),
        snd <$> omap (called_for s hour) ts).
Proof.
  unfold wake. destruct (negb _); [done|]. destruct (_ <? _); [done|]. by rewrite wake_each_spec.
Qed.

(** The notifier puts in Apple's address whatever the ticket says.  A mailbox
    refuses a device whose token is not hexadecimal because the token becomes part
    of a path; a ticket's token is not looked at: any text of one to two hundred
    and fifty-six bytes, sealed by anybody who has the notifier's public key,
    reaches the path of the call. *)
Theorem ticket_token_is_not_checked
    `{BL : Blake3, AL : AeadLaws, XL : XWingLaws, B64 : Base64} s push token r fresh t hour sealed :
  ticket_seal (public (key s)) Apns token hour r fresh = Ok t ->
  b64_decode sealed = Some (ticket_to_bytes t) ->
  u64 hour -> apns s = Some push -> caller_secret s = None -> 1 <= max_per_request s ->
  forallb is_hexdigit (rs token) = false ->
  exists d, (wake s None [sealed] hour).2 = [d] /\ valid d = false /\
            forall host, apns_url host d = host ++ String.list_byte_of_string "/3/device/" ++ rs token.
Proof.
  intros Hs Hb Hh Hp Hc Hmax Hhex. exists (device_of (mkWoken Apns token)).
  pose proof (sealed_ticket_wire _ _ _ _ _ _ _ Hs) as [_ Hw].
  pose proof (sealed_ticket_opens _ _ _ _ _ _ _ hour Hs Hh) as Ho.
  unfold sat_sub, TICKET_MAX_AGE_HOURS in Ho. rewrite Z.sub_diag in Ho.
  change (48 <? Z.max 0 0) with false in Ho. rewrite (proj2 (Z.ltb_ge (hour + 1) hour)) in Ho by lia.
  split; [|split; [|done]].
  - unfold wake, caller_ok. rewrite Hc. cbn [negb]. rewrite zlen_cons, zlen_nil.
    rewrite (proj2 (Z.ltb_ge _ _)) by lia. rewrite wake_each_spec. cbn [snd].
    cbn [omap list_omap]. unfold called_for, opens_to. rewrite Hb. cbn. rewrite Hw. cbn.
    rewrite Ho. cbn. by rewrite Hp.
  - unfold valid. cbn [Wake.token device_of w_token]. destruct (negb (_ && _)); [done|]. by rewrite Hhex.
Qed.

(** ** Witnesses *)

Import Toy.

Module WakeTicketExample.

Definition slash : rstring :=
  RString (String.list_byte_of_string "../../3/device/0000000000000000000000000000") I.

(** The empty transport encoding. *)
#[export] Instance base64 : Base64 := {| b64_decode := Some; b64_encode l := l |}.

Definition fresh : option (arr 24) := Some (be_arr 24 3).

Definition ticket : WakeTicket :=
  match ticket_seal (XW := HybridExample.xwing) HybridExample.sk Apns slash 100 [x01] fresh with
  | Ok t => t
  | Err _ => mkTicket (be_arr _ 0) (be_arr 24 0) []
  end.

Definition notifier : Notifier (XW := HybridExample.xwing) :=
  mkNotifier (XW := HybridExample.xwing) HybridExample.sk (Some (fun _ => true)) None None 64.

End WakeTicketExample.

Import (hints) WakeTicketExample.

Lemma ticket_opens_while_fresh_witness :
  ticket_open (XW := HybridExample.xwing) WakeTicketExample.ticket HybridExample.sk 148
    = Ok (mkWoken Apns WakeTicketExample.slash) /\
  ticket_open (XW := HybridExample.xwing) WakeTicketExample.ticket HybridExample.sk 149
    <> Ok (mkWoken Apns WakeTicketExample.slash).
Proof.
  assert (forall now, 0 <= now -> ticket_open (XW := HybridExample.xwing) WakeTicketExample.ticket
    HybridExample.sk now = Ok (mkWoken Apns WakeTicketExample.slash) <-> 99 <= now <= 148) as H.
  { intros now Hnow.
    refine (proj1 (proj2 (proj2 (ticket_opens_while_fresh (XL := HybridExample.xwing_laws)
      HybridExample.sk Apns WakeTicketExample.slash 100 [x01] WakeTicketExample.fresh
      WakeTicketExample.ticket now _ _ Hnow)))).
    - vm_compute. reflexivity.
    - vm_compute. split; discriminate. }
  split; [apply H; lia|]. rewrite H by lia. lia.
Defined.

Lemma ticket_token_is_not_checked_witness :
  exists d, (wake WakeTicketExample.notifier None
               [ticket_to_bytes WakeTicketExample.ticket] 100).2 = [d] /\ valid d = false.
Proof.
  destruct (ticket_token_is_not_checked (XL := HybridExample.xwing_laws)
    WakeTicketExample.notifier (fun _ => true) WakeTicketExample.slash [x01]
    WakeTicketExample.fresh WakeTicketExample.ticket 100
    (ticket_to_bytes WakeTicketExample.ticket)) as (d & Hd & Hv & _).
  - vm_compute. reflexivity.
  - reflexivity.
  - vm_compute. split; discriminate.
  - reflexivity.
  - reflexivity.
  - vm_compute. discriminate.
  - vm_compute. reflexivity.
  - exists d. split; [exact Hd|exact Hv].
Defined.
