(* ===== verification/Listening.v ===== *)
(** * What one connection listens on

    [Listening] of [crates/rotelyx-mailbox-server/src/main.rs]: a set of tags
    beside the order they were asked for in, bounded by dropping the oldest. *)

From S2P Require Import Prelude Envelope.

Definition MAX_TAGS_PER_SUBSCRIPTION : Z := 64.
Definition MAX_TAGS_PER_CONNECTION : Z := 256.

Record Listening := mkListening {
  set : gset Tag;
  order : list Tag;
}.

(** [Listening::default]. *)
Definition listening_default : Listening := mkListening ∅ [].

Definition contains (l : Listening) (tag : Tag) : bool := bool_decide (tag ∈ set l).

Definition len (l : Listening) : Z := Z.of_nat (size (set l)).

Definition tags (l : Listening) : list Tag := order l.

Definition add (l : Listening) (tag : Tag) : Listening :=
  if bool_decide (tag ∈ set l) then l
  else mkListening ({[tag]} ∪ set l) (order l ++ [tag]).

Definition remove (l : Listening) (tag : Tag) : Listening :=
  if bool_decide (tag ∈ set l)
  then mkListening (set l ∖ {[tag]}) (retain (fun held => negb (bool_decide (held = tag))) (order l))
  else l.

(** The [while] loop pops the queue: it ends with the queue at the latest. *)
Fixpoint drop_oldest (s : gset Tag) (order : list Tag) (wanted cap : Z) : Z * Listening :=
  if cap <? Z.of_nat (size s) + wanted then
    match order with
    | oldest :: order =>
        let '(dropped, l) := drop_oldest (s ∖ {[oldest]}) order wanted cap in
        (dropped + 1, l)
    | [] => (0, mkListening s [])
    end
  else (0, mkListening s order).

Definition make_room_for (l : Listening) (wanted cap : Z) : Z * Listening :=
  drop_oldest (set l) (order l) wanted cap.

(** The set and the queue hold the same tags, each once. *)
Record well_formed (l : Listening) : Prop := {
  wf_nodup : NoDup (order l);
  wf_set : set l = list_to_set (order l);
}.

Lemma wf_elem l t : well_formed l -> t ∈ set l <-> t ∈ order l.
Proof. intros [_ ->]. apply elem_of_list_to_set. Qed.

Lemma wf_len l : well_formed l -> len l = zlen (order l).
Proof. intros [Hn Hs]. unfold len, zlen. by rewrite Hs, size_list_to_set. Qed.

Lemma wf_default : well_formed listening_default.
Proof. split; [constructor|done]. Qed.

Lemma wf_add l t : well_formed l -> well_formed (add l t).
Proof.
  intros Hl. unfold add. case_bool_decide as Ht; [done|]. pose proof Ht as Ht'.
  rewrite wf_elem in Ht' by done. destruct Hl as [Hn Hs]. split; simpl.
  - apply NoDup_app. split; [done|]. split; [|apply NoDup_singleton].
    intros x Hx ->%list_elem_of_singleton. done.
  - rewrite list_to_set_app_L. simpl. set_solver.
Qed.

Lemma wf_remove l t : well_formed l -> well_formed (remove l t).
Proof.
  intros Hl. unfold remove. case_bool_decide as Ht; [|done]. destruct Hl as [Hn Hs].
  split; simpl; [by apply NoDup_filter|]. apply set_eq. intros x.
  rewrite elem_of_list_to_set, elem_of_retain, negb_true_iff, bool_decide_eq_false, Hs. set_solver.
Qed.

Lemma elem_of_add l t x : well_formed l -> x ∈ order (add l t) <-> x ∈ order l \/ x = t.
Proof.
  intros Hl. unfold add. case_bool_decide as Ht; simpl.
  - rewrite wf_elem in Ht by done. naive_solver.
  - by rewrite elem_of_app, list_elem_of_singleton.
Qed.

(** What is left after making room is the newest part of the queue, the longest
    one that fits. *)
Lemma drop_oldest_spec s o wanted cap d l :
  NoDup o -> s = list_to_set o -> drop_oldest s o wanted cap = (d, l) ->
  0 <= d <= zlen o /\ order l = drop (Z.to_nat d) o /\ set l = list_to_set (order l) /\
  (zlen (order l) + wanted <= cap \/ order l = []) /\
  (0 < d -> cap < zlen (order l) + 1 + wanted).
Proof.
  intros Hn -> H. revert d l H. induction o as [|t o IH]; intros d l; simpl.
  - case_match; intros [= <- <-]; unfold zlen in *; simpl; repeat split; auto; try lia.
  - apply NoDup_cons in Hn as [Ht Hn].
    assert (({[t]} ∪ list_to_set o) ∖ {[t]} = (list_to_set o : gset Tag)) as -> by set_solver.
    assert (Z.of_nat (size ({[t]} ∪ list_to_set o : gset Tag)) = zlen (t :: o)) as ->.
    { change ({[t]} ∪ list_to_set o : gset Tag) with (list_to_set (t :: o) : gset Tag).
      unfold zlen. rewrite size_list_to_set; [done|by constructor]. }
    rewrite !zlen_cons. destruct (Z.ltb_spec cap (1 + zlen o + wanted)).
    + destruct (drop_oldest _ o wanted cap) as [d' l'] eqn:E. intros [= <- <-].
      destruct (IH Hn _ _ eq_refl) as (Hd & Ho & Hs & Hfit & Hmax).
      replace (Z.to_nat (d' + 1)) with (S (Z.to_nat d')) by lia. simpl.
      repeat split; try done; try lia. intros _. destruct (Z.eq_dec d' 0) as [->|]; [|lia].
      simpl in Ho. rewrite Ho, drop_0. lia.
    + intros [= <- <-]. simpl. rewrite zlen_cons. pose proof (zlen_nonneg o). repeat split; lia || auto.
Qed.

Lemma wf_make_room l wanted cap : well_formed l -> well_formed (make_room_for l wanted cap).2.
Proof.
  intros [Hn Hs]. unfold make_room_for.
  destruct (drop_oldest _ _ _ _) as [d l'] eqn:E.
  destruct (drop_oldest_spec _ _ _ _ _ _ Hn Hs E) as (_ & Ho & Hs' & _). split; [|done].
  simpl. rewrite Ho. rewrite <- (take_drop (Z.to_nat d) (order l)) in Hn.
  by apply NoDup_app in Hn as (_ & _ & ?).
Qed.

(** Adding several: at most one more each, and all of them are there. *)
Lemma wf_add_all ts l : well_formed l -> well_formed (foldl add l ts).
Proof. revert l. induction ts as [|t ts IH]; intros l Hl; simpl; auto using wf_add. Qed.

Lemma len_add l t : well_formed l -> len (add l t) <= len l + 1.
Proof.
  intros Hl. rewrite !wf_len by auto using wf_add. unfold add. case_bool_decide; [lia|].
  simpl. rewrite zlen_app, zlen_cons, zlen_nil. lia.
Qed.

Lemma len_add_all ts l : well_formed l -> len (foldl add l ts) <= len l + zlen ts.
Proof.
  revert l. induction ts as [|t ts IH]; intros l Hl; simpl; [rewrite zlen_nil; lia|].
  rewrite zlen_cons. pose proof (len_add l t Hl). specialize (IH _ (wf_add _ t Hl)). lia.
Qed.

Lemma elem_of_add_all ts l x :
  well_formed l -> x ∈ order (foldl add l ts) <-> x ∈ order l \/ x ∈ ts.
Proof.
  revert l. induction ts as [|t ts IH]; intros l Hl; simpl; [set_solver|].
  rewrite IH by auto using wf_add. rewrite elem_of_add by done. set_solver.
Qed.

(** A subscription, as the handler composes it. *)
Definition listen (l : Listening) (parsed : list Tag) : Listening :=
  foldl add (make_room_for l (zlen parsed) MAX_TAGS_PER_CONNECTION).2 parsed.

Lemma wf_listen l ts : well_formed l -> well_formed (listen l ts).
Proof. intros Hl. apply wf_add_all, wf_make_room, Hl. Qed.

Lemma len_remove l t : well_formed l -> len (remove l t) <= len l.
Proof.
  intros Hl. rewrite !wf_len by auto using wf_remove. unfold remove, zlen.
  case_bool_decide; simpl; [|lia]. apply Nat2Z.inj_le, length_retain_le.
Qed.

Lemma len_listen l ts :
  well_formed l -> zlen ts <= MAX_TAGS_PER_SUBSCRIPTION -> len (listen l ts) <= MAX_TAGS_PER_CONNECTION.
Proof.
  intros Hl Hts. pose proof (wf_make_room l (zlen ts) MAX_TAGS_PER_CONNECTION Hl) as Hr.
  unfold listen, make_room_for in *. destruct (drop_oldest _ _ _ _) as [d l'] eqn:E. simpl in *.
  destruct (drop_oldest_spec _ _ _ _ _ _ (wf_nodup _ Hl) (wf_set _ Hl) E) as (_ & _ & _ & Hfit & _).
  pose proof (len_add_all ts l' Hr) as Hlen. rewrite (wf_len l' Hr) in Hlen. destruct Hfit as [|Hnil]; [lia|].
  rewrite Hnil, zlen_nil in Hlen. unfold MAX_TAGS_PER_SUBSCRIPTION, MAX_TAGS_PER_CONNECTION in *. lia.
Qed.

(** A subscription of at most sixty-four tags leaves a connection listening
    on every one of them and on no more than two hundred and fifty-six in all; of
    what it listened on before, it keeps the newest, and drops no more of the
    oldest than the count of the request asks for. *)
Theorem subscription_is_held l ts :
  well_formed l -> zlen ts <= MAX_TAGS_PER_SUBSCRIPTION ->
  well_formed (listen l ts) /\ len (listen l ts) <= MAX_TAGS_PER_CONNECTION /\
  (forall t, t ∈ ts -> contains (listen l ts) t = true) /\
  exists d, 0 <= d /\ (forall t, t ∈ drop (Z.to_nat d) (order l) -> contains (listen l ts) t = true) /\
            (forall t, contains (listen l ts) t = true -> t ∈ drop (Z.to_nat d) (order l) ++ ts) /\
            (0 < d -> MAX_TAGS_PER_CONNECTION < len l - d + 1 + zlen ts).
Proof.
  intros Hl Hts. pose proof (wf_listen l ts Hl) as Hwf. split; [done|].
  split; [by apply len_listen|].
  assert (forall t, contains (listen l ts) t = true <-> t ∈ order (listen l ts)) as Hc.
  { intros t. unfold contains. by rewrite bool_decide_eq_true, wf_elem. }
  unfold listen in *. pose proof (wf_make_room l (zlen ts) MAX_TAGS_PER_CONNECTION Hl) as Hr.
  unfold make_room_for in *. destruct (drop_oldest _ _ _ _) as [d l'] eqn:E. simpl in *.
  destruct (drop_oldest_spec _ _ _ _ _ _ (wf_nodup _ Hl) (wf_set _ Hl) E)
    as (Hd & Ho & _ & Hfit & Hmax).
  split.
  - intros t Ht. apply Hc, elem_of_add_all; auto.
  - exists d. split; [lia|]. split; [|split].
    + intros t Ht. apply Hc, elem_of_add_all; [done|]. left. by rewrite Ho.
    + intros t Ht%Hc. apply elem_of_add_all in Ht; [|done]. rewrite Ho in Ht. by apply elem_of_app.
    + intros H0. rewrite wf_len by done. specialize (Hmax H0). rewrite Ho in Hmax.
      unfold zlen in *. rewrite length_drop in Hmax. lia.
Qed.

Module ListeningExample.
Definition two_hundred_and_fifty_six : Listening := foldl add listening_default (be_arr 32 <$> seqZ 0 256).
End ListeningExample.

Lemma subscription_is_held_witness :
  well_formed ListeningExample.two_hundred_and_fifty_six /\
  contains (listen ListeningExample.two_hundred_and_fifty_six [be_arr 32 300]) (be_arr 32 300) = true /\
  contains (listen ListeningExample.two_hundred_and_fifty_six [be_arr 32 300]) (be_arr 32 0) = false.
Proof.
  assert (well_formed ListeningExample.two_hundred_and_fifty_six) as H
    by apply wf_add_all, wf_default.
  split; [exact H|]. split; [|vm_compute; reflexivity].
  eapply (subscription_is_held _ [be_arr 32 300] H); [vm_compute; discriminate|].
  apply list_elem_of_singleton. reflexivity.
Defined.

(** Asking again for tags that are already held still makes room for all of
    them: a connection at its cap loses its oldest tags and gains none. *)
Theorem asking_again_drops :
  exists l ts t,
    well_formed l /\ len l <= MAX_TAGS_PER_CONNECTION /\ zlen ts <= MAX_TAGS_PER_SUBSCRIPTION /\
    (forall x, x ∈ ts -> contains l x = true) /\
    contains l t = true /\ contains (listen l ts) t = false.
Proof.
  exists ListeningExample.two_hundred_and_fifty_six, [be_arr 32 255; be_arr 32 254], (be_arr 32 0).
  split; [apply wf_add_all, wf_default|]. split; [vm_compute; discriminate|].
  split; [vm_compute; discriminate|]. split.
  - intros x [->|Hx]%elem_of_cons; [vm_compute; reflexivity|].
    apply list_elem_of_singleton in Hx as ->. vm_compute. reflexivity.
  - split; vm_compute; reflexivity.
Qed.
