(* ===== verification/Session.v ===== *)
(** * One session with the mailbox server

    [run_session], [handle_request], [tier_reply] and [notify] of
    [crates/rotelyx-mailbox-server/src/main.rs].  A handler takes the world it
    runs in, the shared state of the server and one connection, and returns the
    world it leaves, with what it asked of the rest of the process, and the reply
    still to be sent.  A panic is [None].

    Each place where the code reads the clock, random bytes or a timer has a field
    of its own in [Env]; the two base64 functions, the signature schemes and the
    hashes are classes.  Strings of a frame are [rstring]; the messages of a refusal
    are constructors. *)

From S2P Require Import Prelude Crypto Envelope MailboxStore Tickets Capability Hex Wake Listening.
From S2P Require WakeTicket.

Definition MAX_FRAME_BYTES : Z := 12 * 1024 * 1024.

(** [4 * SEALED_TICKET_LEN.div_ceil(3) + 4]. *)
Definition MAX_TICKET_CHARS : Z := 4 * ((Z.of_nat WakeTicket.SEALED_TICKET_LEN + 2) / 3) + 4.

(** ** The wire protocol *)

Record TagTicket := mkTagTicket { tt_tag : rstring; tt_ticket : rstring }.

Inductive Request :=
| Subscribe (tags : list rstring)
| Unsubscribe (tags : list rstring)
| Collected (digests : list rstring)
| Deposit (envelope : rstring)
| Auth (token : rstring)
| AuthBlind (token : rstring)
| RegisterWake (token kind secret : rstring) (on_schedule : bool)
| RevokeWake (secret : rstring)
| LeaveTickets (tickets : list TagTicket).

(** The text of an error, by where it is written. *)
Inductive Message :=
| FrameTooLarge
| MalformedRequest
| TokenRefused (e : TokenError)
| BlindRefused (e : BlindError)
| NoBlindKey
| CannotWake
| ShortSecret
| NotAPushToken
| TooManyTags
| NotATag
| TooManyReceipts
| NotAReceipt
| TooManyTickets
| NotATicket
| NotBase64
| NotAnEnvelope (e : EnvelopeError)
| PayloadTooLarge (t : Tier) (max : Z).

Inductive Reply :=
| Ready (waiting : Z)
| REnvelope (envelope : bytes)
| Stored
| TicketsLeft (taken : Z)
| Dropped (listening : Z)
| WakeRegistered (every_seconds : Z)
| RTier (tier : string) (max_fanout max_payload retention_days bytes_remaining : Z)
| ROverQuota (limit used : Z) (tier : string)
| Error (message : Message).

(** The transport of a session: what was written, and how many more writes it
    takes before the other end is found gone ([None] when it stays). *)
Record Wire := mkWire { written : list Reply; room : option nat }.

Definition send (w : Wire) (r : Reply) : bool * Wire :=
  match room w with
  | None => (true, mkWire (written w ++ [r]) None)
  | Some O => (false, w)
  | Some (S n) => (true, mkWire (written w ++ [r]) (Some n))
  end.

(** Standard base64, as the frames carry it. *)
Class FrameBase64 := { frame_encode : bytes -> bytes; frame_decode : bytes -> option bytes }.

Class FrameBase64Laws `(FrameBase64) : Prop :=
  frame_decode_encode : forall l, frame_decode (frame_encode l) = Some l.

(** ** The state *)

Record Counters := mkCounters {
  connections_open : Z;
  connections_total : Z;
  deposits : Z;
  delivered : Z;
  c_expired : Z;
  c_refused : Z;
}.

Definition count_delivered (c : Counters) (n : Z) : Counters :=
  mkCounters (connections_open c) (connections_total c) (deposits c) (wrap64 (delivered c + n))
    (c_expired c) (c_refused c).
Definition count_deposit (c : Counters) : Counters :=
  mkCounters (connections_open c) (connections_total c) (wrap64 (deposits c + 1)) (delivered c)
    (c_expired c) (c_refused c).
Definition count_refused (c : Counters) : Counters :=
  mkCounters (connections_open c) (connections_total c) (deposits c) (delivered c)
    (c_expired c) (wrap64 (c_refused c + 1)).

Abbreviation TicketTable := (gmap Tag (list (@Left rstring))).

(** What the process changes while it runs. *)
Record State := mkState {
  mailbox : Mailbox;
  deposit_micros : Z;
  tickets : TicketTable;
  next_connection : Z;
  wake_registry : Registry;
  meter : Meter;
  counters : Counters;
}.

Definition with_mailbox (s : State) (m : Mailbox) : State :=
  mkState m (deposit_micros s) (tickets s) (next_connection s) (wake_registry s) (meter s) (counters s).
Definition with_micros (s : State) (x : Z) : State :=
  mkState (mailbox s) x (tickets s) (next_connection s) (wake_registry s) (meter s) (counters s).
Definition with_tickets (s : State) (t : TicketTable) : State :=
  mkState (mailbox s) (deposit_micros s) t (next_connection s) (wake_registry s) (meter s) (counters s).
Definition with_registry (s : State) (r : Registry) : State :=
  mkState (mailbox s) (deposit_micros s) (tickets s) (next_connection s) r (meter s) (counters s).
Definition with_meter (s : State) (m : Meter) : State :=
  mkState (mailbox s) (deposit_micros s) (tickets s) (next_connection s) (wake_registry s) m (counters s).
Definition with_counters (s : State) (c : Counters) : State :=
  mkState (mailbox s) (deposit_micros s) (tickets s) (next_connection s) (wake_registry s) (meter s) c.

(** A wake: a tag and the connection that deposited. *)
Record WakeEvent := mkWake { wake_tag : Tag; from : Z }.

(** What a handler asks of the rest of the process. *)
Inductive Effect :=
| Broadcast (w : WakeEvent)
| SaveWake (r : Registry)
| PostTickets (t : list rstring).

Record Conn := mkConn {
  subscribed : Listening;
  cap : Capability;
  socket : Wire;
}.

Definition with_listening (c : Conn) (l : Listening) : Conn := mkConn l (cap c) (socket c).
Definition with_cap (c : Conn) (k : Capability) : Conn := mkConn (subscribed c) k (socket c).
Definition with_socket (c : Conn) (w : Wire) : Conn := mkConn (subscribed c) (cap c) w.

(** The readings of one frame: the clock where the meter, the store and the
    notifier read it, the time a deposit took, the order a hash map is walked in
    and the bytes drawn for the shuffle. *)
Record Env := mkEnv {
  now_metered : Z;
  now : Z;
  now_notify : Z;
  took_micros : Z;
  walk : TicketTable -> list (Tag * list (@Left rstring));
  random : nat -> option bytes;
}.

Section Session.
Context `{BL : Blake3, SH : Sha256, FB : FrameBase64, B64 : Base64, TS : TokenScheme, BS : BlindScheme}.

(** What the process was started with. *)
Record Config := mkConfig {
  tokens : option VerifyingKey;
  blind : list (Tier * PublicKey);
  pushers_any : bool;
  wake_every : Z;
  decoy_count : option Z;
}.

Definition Handled : Type := State * Conn * list Effect * option Reply.

(** [return Some(reply)] with nothing else to do. *)
Definition say (s : State) (c : Conn) (r : Reply) : Handled := (s, c, [], Some r).
Definition refuse (s : State) (c : Conn) (m : Message) : Handled := say s c (Error m).

(** *** Credentials *)

Definition tier_reply (e : Env) (s : State) (k : Capability) : Reply * State :=
  let '(charged, m) := charge (meter s) k 0 (now_metered e / 3600) in
  let remaining := match charged with Allowed r => r | OverQuota _ _ => 0 end in
  (RTier (tier_name (tier k)) (max_fanout (limits k)) (max_payload (limits k))
     (Capability.ttl_seconds (limits k) / 86400) remaining,
   with_meter s m).

Definition auth (g : Config) (e : Env) (s : State) (c : Conn) (token : rstring) : Handled :=
  match tokens g with
  | None => refuse s c (TokenRefused NoIssuer)
  | Some verifier =>
      match verify verifier token (now e / 3600) with
      | Ok granted =>
          let '(r, s) := tier_reply e s granted in say s (with_cap c granted) r
      | Err x => refuse s c (TokenRefused x)
      end
  end.

Definition auth_blind (g : Config) (e : Env) (s : State) (c : Conn) (token : rstring) : Handled :=
  match blind g with
  | [] => refuse s c NoBlindKey
  | keys =>
      match verify_blind keys token with
      | Ok granted =>
          let '(r, s) := tier_reply e s granted in say s (with_cap c granted) r
      | Err x => refuse s c (BlindRefused x)
      end
  end.

(** *** Wake registrations *)

Definition register_wake (g : Config) (s : State) (c : Conn) (token kind secret : rstring)
    (scheduled : bool) : Handled :=
  if negb (pushers_any g) then refuse s c CannotWake
  else if negb (secret_is_long_enough (rs secret)) then refuse s c ShortSecret
  else
    let device := choosing (rs token) (rs kind) (rs secret) scheduled in
    let '(accepted, r) := register (wake_registry s) device in
    let s := with_registry s r in
    if negb accepted then refuse s c NotAPushToken
    else (s, c, [SaveWake r], Some (WakeRegistered (if scheduled then wake_every g else 0))).

Definition revoke_wake (g : Config) (s : State) (c : Conn) (secret : rstring) : Handled :=
  let r := (revoke (wake_registry s) (rs secret)).2 in
  (with_registry s r, c, [SaveWake r], Some (WakeRegistered (wake_every g))).

(** *** Subscriptions *)

(** The loop that parses: [Some None] is the early return. *)
Fixpoint parse_tags (l : list rstring) : option (option (list Tag)) :=
  match l with
  | [] => Some (Some [])
  | x :: l =>
      t ← parse_tag x;
      match t with
      | None => Some None
      | Some t => r ← parse_tags l; Some (option_map (cons t) r)
      end
  end.

Definition envelope_reply (x : Envelope) : Reply := REnvelope (frame_encode (envelope_to_bytes x)).

(** The delivery loop; [false] when a write fails. *)
Fixpoint deliver (w : Wire) (l : list Envelope) : bool * Wire :=
  match l with
  | [] => (true, w)
  | x :: l =>
      let '(sent, w) := send w (envelope_reply x) in
      if sent then deliver w l else (false, w)
  end.

Definition subscribe (e : Env) (s : State) (c : Conn) (tags : list rstring) : option Handled :=
  if MAX_TAGS_PER_SUBSCRIPTION <? zlen tags then Some (refuse s c TooManyTags)
  else
    parsed ← parse_tags tags;
    match parsed with
    | None => Some (refuse s c NotATag)
    | Some parsed =>
        let c := with_listening c (listen (subscribed c) parsed) in
        let waiting := peek_many (mailbox s) parsed (now e) in
        let s := with_counters s (count_delivered (counters s) (zlen waiting)) in
        let '(sent, w) := deliver (socket c) waiting in
        let c := with_socket c w in
        if negb sent then Some (s, c, [], None)
        else Some (say s c (Ready (zlen waiting)))
    end.

(** The loop over receipts: what it removed so far stays removed when it returns
    early. *)
Fixpoint take_receipts (m : Mailbox) (listening : list Tag) (digests : list rstring)
    : option (option Z * Mailbox) :=
  match digests with
  | [] => Some (Some 0, m)
  | d :: digests =>
      x ← parse_digest d;
      match x with
      | None => Some (None, m)
      | Some d =>
          let '(hit, m) := remove_acknowledged m listening d in
          r ← take_receipts m listening digests;
          Some (option_map (fun n => if hit : bool then n + 1 else n) r.1, r.2)
      end
  end.

Definition collected (s : State) (c : Conn) (digests : list rstring) : option Handled :=
  if MAX_TAGS_PER_CONNECTION <? zlen digests then Some (refuse s c TooManyReceipts)
  else
    r ← take_receipts (mailbox s) (Listening.tags (subscribed c)) digests;
    let s := with_mailbox s r.2 in
    match r.1 with
    | None => Some (refuse s c NotAReceipt)
    | Some removed => Some (say s c (Dropped removed))
    end.

Fixpoint unsubscribe_each (l : Listening) (tags : list rstring) : option Listening :=
  match tags with
  | [] => Some l
  | x :: tags =>
      t ← parse_tag x;
      unsubscribe_each (match t with Some t => remove l t | None => l end) tags
  end.

Definition unsubscribe (s : State) (c : Conn) (tags : list rstring) : option Handled :=
  l ← unsubscribe_each (subscribed c) tags;
  Some (say s (with_listening c l) (Dropped (len l))).

(** *** Tickets *)

(** [Some (inl taken)] at the end of the list, [Some (inr message)] on an early
    return; the table is what it was left as. *)
Fixpoint take_tickets (t : TicketTable) (l : list TagTicket) (time : Z)
    : option ((Z + Message) * TicketTable) :=
  match l with
  | [] => Some (inl 0, t)
  | p :: l =>
      tag ← parse_tag (tt_tag p);
      match tag with
      | None => Some (inr NotATag, t)
      | Some tag =>
          if MAX_TICKET_CHARS <? zlen (rs (tt_ticket p)) then Some (inr NotATicket, t)
          else
            let '(answer, t) := leave t tag (tt_ticket p) time in
            r ← take_tickets t l time;
            Some (match r.1 with
                  | inl n => inl (if is_ok answer then n + 1 else n)
                  | inr m => inr m
                  end, r.2)
      end
  end.

Definition leave_tickets (e : Env) (s : State) (c : Conn) (l : list TagTicket) : option Handled :=
  if MAX_TAGS_PER_SUBSCRIPTION <? zlen l then Some (refuse s c TooManyTickets)
  else
    r ← take_tickets (tickets s) l (now e);
    let s := with_tickets s r.2 in
    match r.1 with
    | inl taken => Some (say s c (TicketsLeft taken))
    | inr m => Some (refuse s c m)
    end.

(** *** Deposits *)

(** [slice::swap]. *)
Definition swap {A} (l : list A) (i j : nat) : list A :=
  match l !! i, l !! j with
  | Some x, Some y => <[i := y]> (<[j := x]> l)
  | _, _ => l
  end.

(** [u64::from_le_bytes] of the [i]-th eight bytes. *)
Definition le_word (l : bytes) (i : nat) : Z := be_value (reverse (slice l (i * 8) ((i + 1) * 8))).

(** [for i in (1..len).rev()]. *)
Fixpoint fisher_yates {A} (drawn : bytes) (i : nat) (l : list A) : list A :=
  match i with
  | O => l
  | S i' => fisher_yates drawn i' (swap l i (Z.to_nat (le_word drawn i mod (Z.of_nat i + 1))))
  end.

Definition shuffle {A} (drawn : option bytes) (l : list A) : list A :=
  match drawn with
  | Some b => fisher_yates b (length l - 1) l
  | None => l
  end.

Definition notify (g : Config) (e : Env) (s : State) (tag : Tag) : list Effect :=
  match decoy_count g with
  | None => []
  | Some n =>
      match for_tag (tickets s) tag (now_notify e) with
      | [] => []
      | real =>
          let chosen := real ++ decoys (walk e (tickets s)) tag n (now_notify e) (next_connection s) in
          [PostTickets (shuffle (random e (length chosen * 8)) chosen)]
      end
  end.

Definition deposit_envelope (g : Config) (e : Env) (s : State) (c : Conn) (me : Z)
    (text : rstring) : option Handled :=
  match frame_decode (trim (rs text)) with
  | None => Some (refuse s c NotBase64)
  | Some l =>
      match envelope_from_bytes l with
      | Err x => Some (refuse s c (NotAnEnvelope x))
      | Ok x =>
          if max_payload (limits (cap c)) <? zlen (payload x)
          then Some (refuse s c (PayloadTooLarge (tier (cap c)) (max_payload (limits (cap c)))))
          else
            let '(charged, m) := charge (meter s) (cap c) (zlen (payload x)) (now_metered e / 3600) in
            let s := with_meter s m in
            match charged with
            | OverQuota limit used =>
                Some (say (with_counters s (count_refused (counters s))) c
                        (ROverQuota limit used (tier_name (tier (cap c)))))
            | Allowed _ =>
                b ← deposit_with (mailbox s) x (now e) (Capability.ttl_seconds (limits (cap c)))
                      (max_per_tag (limits (cap c)));
                let s := with_mailbox s b in
                let took := Z.min (took_micros e) u32_max in
                let s := with_micros s ((wrap64 (wrap64 (deposit_micros s * 7) + took)) / 8) in
                let posted := notify g e s (env_tag x) in
                let s := with_counters s (count_deposit (counters s)) in
                Some (s, c, Broadcast (mkWake (env_tag x) me) :: posted, Some Stored)
            end
      end
  end.

(** ** Frames and wakes *)

Definition handle_request (g : Config) (e : Env) (s : State) (c : Conn) (me : Z) (r : Request)
    : option Handled :=
  match r with
  | Auth token => Some (auth g e s c token)
  | AuthBlind token => Some (auth_blind g e s c token)
  | RegisterWake token kind secret scheduled =>
      Some (register_wake g s c token kind secret scheduled)
  | RevokeWake secret => Some (revoke_wake g s c secret)
  | Subscribe tags => subscribe e s c tags
  | Collected digests => collected s c digests
  | Unsubscribe tags => unsubscribe s c tags
  | LeaveTickets l => leave_tickets e s c l
  | Deposit text => deposit_envelope g e s c me text
  end.

(** The [incoming] arm of [run_session]: [parse] is [serde_json::from_str].  The
    boolean says whether the session goes on. *)
Definition on_frame (parse : rstring -> option Request) (g : Config) (e : Env) (s : State)
    (c : Conn) (me : Z) (text : rstring) : option (State * Conn * list Effect * bool) :=
  if MAX_FRAME_BYTES <? zlen (rs text) then
    Some (s, with_socket c (send (socket c) (Error FrameTooLarge)).2, [], true)
  else
    '(s, c, fx, reply) ←
      match parse text with
      | Some r => handle_request g e s c me r
      | None => Some (refuse s c MalformedRequest)
      end;
    match reply with
    | None => Some (s, c, fx, true)
    | Some r =>
        let '(sent, w) := send (socket c) r in
        Some (s, with_socket c w, fx, sent)
    end.

(** The [wake.recv()] arm. *)
Definition on_wake (e : Env) (s : State) (c : Conn) (me : Z) (w : WakeEvent) : State * Conn * bool :=
  if (from w =? me) || negb (contains (subscribed c) (wake_tag w)) then (s, c, true)
  else
    let '(envelopes, m) := collect (mailbox s) (wake_tag w) (now e) in
    let s := with_mailbox s m in
    let s := with_counters s (count_delivered (counters s) (zlen envelopes)) in
    let '(sent, wire) := deliver (socket c) envelopes in
    (s, with_socket c wire, sent).

End Session.

(** ** The shuffle *)

Definition transpose (i j k : nat) : nat :=
  if decide (k = i) then j else if decide (k = j) then i else k.

#[export] Instance transpose_inj i j : Inj (=) (=) (transpose i j).
Proof. intros x y. unfold transpose. repeat case_decide; congruence. Qed.

Lemma swap_perm {A} (l : list A) i j : swap l i j ≡ₚ l.
Proof.
  unfold swap. destruct (l !! i) as [x|] eqn:Ei; [|done]. destruct (l !! j) as [y|] eqn:Ej; [|done].
  apply Permutation_inj. split; [by rewrite !length_insert|].
  exists (transpose i j). split; [apply _|]. intros k. unfold transpose.
  pose proof (lookup_lt_Some _ _ _ Ei) as Li. pose proof (lookup_lt_Some _ _ _ Ej) as Lj.
  destruct (decide (k = i)) as [->|Hi].
  - rewrite list_lookup_insert_eq; [done|]. by rewrite length_insert.
  - rewrite list_lookup_insert_ne by done. destruct (decide (k = j)) as [->|Hj].
    + by rewrite list_lookup_insert_eq.
    + by rewrite list_lookup_insert_ne.
Qed.

Lemma fisher_yates_perm {A} drawn i (l : list A) : fisher_yates drawn i l ≡ₚ l.
Proof.
  revert l. induction i as [|i IH]; intros l; simpl; [done|]. rewrite IH. apply swap_perm.
Qed.

Lemma shuffle_perm {A} drawn (l : list A) : shuffle drawn l ≡ₚ l.
Proof. destruct drawn; [apply fisher_yates_perm|done]. Qed.

Section Notify.
Context `{BL : Blake3, SH : Sha256, FB : FrameBase64, B64 : Base64, TS : TokenScheme, BS : BlindScheme}.

(** What the notifier is handed.  With no notifier, or with no live ticket
    under the tag, nothing is sent; otherwise one list is, holding every live ticket
    under the tag and the decoys drawn from other tags, each as often as it is held,
    in an order that the random bytes and not the position decide.  It is a list of
    tickets: the tag is not in it. *)
Theorem notifier_is_handed_tickets g e s tag :
  match decoy_count g, for_tag (tickets s) tag (now_notify e) with
  | Some n, (_ :: _) as real =>
      exists posted, notify g e s tag = [PostTickets posted] /\
        posted ≡ₚ real ++ decoys (walk e (tickets s)) tag n (now_notify e) (next_connection s)
  | _, _ => notify g e s tag = []
  end.
Proof.
  unfold notify. destruct (decoy_count g) as [n|]; [|done].
  destruct (for_tag _ _ _) as [|t ts]; [done|]. eexists. split; [done|]. apply shuffle_perm.
Qed.
End Notify.
