(* ===== verification/Server.v ===== *)
(** * The mailbox server: sessions over one store

    The process of [crates/rotelyx-mailbox-server/src/main.rs]: any number of
    sessions, each with its end of the broadcast channel, over the shared state,
    and the two timers [router_stateful] starts.  A step is one turn of one task;
    tasks interleave between turns, as the locks let them.  [None] is a panic,
    which in the release profile ends the process. *)

From S2P Require Import Prelude Crypto Envelope MailboxStore Tickets Capability Hex Wake Listening.
From S2P Require Import Session.

(** [broadcast::channel(1024)]. *)
Definition WAKE_CAPACITY : nat := 1024.

Record Seat := mkSeat { conn : Conn; queue : list WakeEvent }.

Record System := mkSystem { state : State; seats : gmap Z Seat }.

Section Server.
Context `{BL : Blake3, SH : Sha256, FB : FrameBase64, B64 : Base64, TS : TokenScheme, BS : BlindScheme}.
Context (parse : rstring -> option Request) (g : Config).

(** A receiver that falls behind loses the oldest. *)
Definition push_wake (w : WakeEvent) (q : list WakeEvent) : list WakeEvent :=
  let q := q ++ [w] in drop (length q - WAKE_CAPACITY) q.

Definition broadcast (w : WakeEvent) (m : gmap Z Seat) : gmap Z Seat :=
  (fun x => mkSeat (conn x) (push_wake w (queue x))) <$> m.

Definition perform (m : gmap Z Seat) (fx : list Effect) : gmap Z Seat :=
  foldl (fun m f => match f with Broadcast w => broadcast w m | _ => m end) m fx.

Definition with_next (s : State) (n : Z) : State :=
  mkState (mailbox s) (deposit_micros s) (tickets s) n (wake_registry s) (meter s) (counters s).

Definition count_open (c : Counters) : Counters :=
  mkCounters (wrap64 (connections_open c + 1)) (wrap64 (connections_total c + 1)) (deposits c)
    (delivered c) (c_expired c) (c_refused c).
Definition count_closed (c : Counters) : Counters :=
  mkCounters (wrap64 (connections_open c - 1)) (connections_total c) (deposits c)
    (delivered c) (c_expired c) (c_refused c).
Definition count_expired (c : Counters) (n : Z) : Counters :=
  mkCounters (connections_open c) (connections_total c) (deposits c)
    (delivered c) (wrap64 (c_expired c + n)) (c_refused c).

(** The start of [run_session], up to its loop. *)
Definition open_seat (y : System) (fresh : arr 16) (room : option nat) : System :=
  let s := state y in
  let me := next_connection s in
  let s := with_counters (with_next s (wrap64 (me + 1))) (count_open (counters s)) in
  mkSystem s (<[me := mkSeat (mkConn listening_default (free fresh) (mkWire [] room)) []]> (seats y)).

(** The session returns, and [OpenGuard] is dropped. *)
Definition close_seat (y : System) (me : Z) : System :=
  match seats y !! me with
  | None => y
  | Some _ =>
      mkSystem (with_counters (state y) (count_closed (counters (state y)))) (delete me (seats y))
  end.

(** What a turn leaves of its session: the session itself, or nothing. *)
Definition settle_turn (y : System) (me : Z) (s : State) (x : Seat) (goes_on : bool)
    (fx : list Effect) : System :=
  let y := mkSystem s (perform (<[me := x]> (seats y)) fx) in
  if goes_on then y else close_seat y me.

Definition frame_turn (y : System) (me : Z) (e : Env) (text : rstring) : option System :=
  match seats y !! me with
  | None => Some y
  | Some x =>
      '(s, c, fx, goes_on) ← on_frame parse g e (state y) (conn x) me text;
      Some (settle_turn y me s (mkSeat c (queue x)) goes_on fx)
  end.

Definition wake_turn (y : System) (me : Z) (e : Env) : System :=
  match seats y !! me with
  | Some (mkSeat c (w :: q)) =>
      let '(s, c, goes_on) := on_wake e (state y) c me w in
      settle_turn y me s (mkSeat c q) goes_on []
  | _ => y
  end.

(** The reclaiming timer. *)
Definition sweep_turn (y : System) (e : Env) : System :=
  let s := state y in
  let '(dropped, m) := MailboxStore.sweep (mailbox s) (now e) in
  let s := with_counters (with_mailbox s m) (count_expired (counters s) dropped) in
  let s := with_meter s (Capability.sweep (meter s) (now_metered e / 3600)) in
  mkSystem (with_tickets s (Tickets.sweep (tickets s) (now_notify e))) (seats y).

(** The waking timer, started when a push service is configured and an interval is. *)
Definition waking_turn (y : System) (answer : Device -> option Pushed) : System :=
  if pushers_any g && negb (wake_every g =? 0)
  then mkSystem (with_registry (state y) (scheduled_wake answer (wake_registry (state y)))) (seats y)
  else y.

Inductive Event :=
| EOpen (fresh : arr 16) (room : option nat)
| EFrame (me : Z) (e : Env) (text : rstring)
| EWake (me : Z) (e : Env)
| EClose (me : Z)
| ESweep (e : Env)
| EWaking (answer : Device -> option Pushed).

Definition step (y : System) (v : Event) : option System :=
  match v with
  | EOpen fresh room => Some (open_seat y fresh room)
  | EFrame me e text => frame_turn y me e text
  | EWake me e => Some (wake_turn y me e)
  | EClose me => Some (close_seat y me)
  | ESweep e => Some (sweep_turn y e)
  | EWaking answer => Some (waking_turn y answer)
  end.

Fixpoint run (y : System) (vs : list Event) : option System :=
  match vs with
  | [] => Some y
  | v :: vs => y ← step y v; run y vs
  end.

(** [router_stateful]: what the process starts with. *)
Definition started (m : Mailbox) (r : Registry) (k : Meter) : System :=
  mkSystem (mkState m 0 ∅ 0 r k (mkCounters 0 0 0 0 0 0)) ∅.

(** ** Well-formedness *)

Record seat_ok (x : Seat) : Prop := {
  so_listening : well_formed (subscribed (conn x));
  so_len : len (subscribed (conn x)) <= MAX_TAGS_PER_CONNECTION;
  so_ceiling : 1 <= max_per_tag (limits (cap (conn x)));
}.

Record system_ok (y : System) : Prop := {
  sy_seats : map_Forall (fun _ x => seat_ok x) (seats y);
  sy_store : store_inv (mailbox (state y));
  sy_tags : all_stored (fun t s => env_tag (envelope s) = t) (mailbox (state y));
  sy_registry : registry_ok (wake_registry (state y));
}.

(** What a turn of one session did to the state it shares. *)
Record turn_ok (s : State) (s' : State) : Prop := {
  tu_store : store_inv (mailbox s) -> store_inv (mailbox s');
  tu_tags : all_stored (fun t x => env_tag (envelope x) = t) (mailbox s) ->
            all_stored (fun t x => env_tag (envelope x) = t) (mailbox s');
  tu_registry : registry_ok (wake_registry s) -> registry_ok (wake_registry s');
}.

Definition conn_ok (c : Conn) : Prop := seat_ok (mkSeat c []).

Lemma turn_same s s' :
  mailbox s' = mailbox s -> wake_registry s' = wake_registry s -> turn_ok s s'.
Proof. intros Hm Hr. split; by rewrite ?Hm, ?Hr. Qed.

Lemma conn_same c c' :
  subscribed c' = subscribed c -> cap c' = cap c -> conn_ok c -> conn_ok c'.
Proof. intros Hl Hc [H1 H2 H3]. simpl in *. split; simpl; by rewrite ?Hl, ?Hc. Qed.

Lemma conn_listening c l :
  conn_ok c -> well_formed l -> len l <= MAX_TAGS_PER_CONNECTION -> conn_ok (with_listening c l).
Proof. intros [_ _ H3] Hl Hn. by split. Qed.

Lemma limits_of_ceiling t : 1 <= max_per_tag (limits_of t).
Proof. by destruct t. Qed.

Lemma verify_ceiling key token h k :
  verify key token h = Ok k -> 1 <= max_per_tag (limits k).
Proof.
  unfold verify. intros (raw & _ & H)%rbind_ok. destruct (_ <=? _); [done|].
  apply rbind_ok in H as (sig & _ & H). destruct (negb _); [done|].
  apply rbind_ok in H as (cl & _ & H). destruct (_ <=? _); [done|]. injection H as <-. simpl.
  destruct (0 <? quota_bytes cl); simpl; apply limits_of_ceiling.
Qed.

Lemma verify_blind_ceiling keys token k :
  verify_blind keys token = Ok k -> 1 <= max_per_tag (limits k).
Proof.
  unfold verify_blind. intros (raw & _ & H)%rbind_ok. destruct (_ <=? _); [done|].
  apply rbind_ok in H as (i & _ & H). apply rbind_ok in H as (r & _ & H).
  destruct (first_verifying _ _ _ _); [|done]. injection H as <-. apply limits_of_ceiling.
Qed.

Definition handled_ok (s : State) (c : Conn) (h : Handled) : Prop :=
  turn_ok s h.1.1.1 /\ (conn_ok c -> conn_ok h.1.1.2).

Lemma handled_say s c s' c' fx r :
  turn_ok s s' -> (conn_ok c -> conn_ok c') -> handled_ok s c (s', c', fx, r).
Proof. by split. Qed.

Lemma handled_refuse s c m : handled_ok s c (refuse s c m).
Proof. apply handled_say; [by apply turn_same|done]. Qed.

Lemma tier_reply_turn e s k : turn_ok s (tier_reply e s k).2.
Proof. unfold tier_reply. destruct (charge _ _ _ _). by apply turn_same. Qed.

Lemma auth_ok e s c token : handled_ok s c (auth g e s c token).
Proof.
  unfold auth. destruct (tokens g) as [v|]; [|apply handled_refuse].
  destruct (verify v token _) as [k|] eqn:E; [|apply handled_refuse].
  pose proof (tier_reply_turn e s k). destruct (tier_reply e s k). apply handled_say; [done|].
  intros [H1 H2 _]. split; try done. by apply verify_ceiling in E.
Qed.

Lemma auth_blind_ok e s c token : handled_ok s c (auth_blind g e s c token).
Proof.
  unfold auth_blind. destruct (blind g) as [|k0 ks]; [apply handled_refuse|].
  destruct (verify_blind _ token) as [k|] eqn:E; [|apply handled_refuse].
  pose proof (tier_reply_turn e s k). destruct (tier_reply e s k). apply handled_say; [done|].
  intros [H1 H2 _]. split; try done. by apply verify_blind_ceiling in E.
Qed.

Lemma register_wake_ok s c t k x b : handled_ok s c (register_wake g s c t k x b).
Proof.
  unfold register_wake. destruct (negb (pushers_any g)); [apply handled_refuse|].
  destruct (negb (secret_is_long_enough _)); [apply handled_refuse|].
  pose proof (ok_register (wake_registry s) (choosing (rs t) (rs k) (rs x) b)) as H.
  destruct (register _ _) as [accepted r]. simpl in H.
  assert (turn_ok s (with_registry s r)) as Ht by by split.
  destruct (negb accepted); by apply handled_say.
Qed.

Lemma revoke_wake_ok s c x : handled_ok s c (revoke_wake g s c x).
Proof.
  unfold revoke_wake. apply handled_say; [|done]. split; try done. simpl. apply ok_retain.
Qed.

Lemma deliver_conn c w : conn_ok c -> conn_ok (with_socket c w).
Proof. by apply conn_same. Qed.

Lemma parse_tags_zlen l ts : parse_tags l = Some (Some ts) -> zlen ts = zlen l.
Proof.
  revert ts. induction l as [|x l IH]; simpl; intros ts; [by intros [= <-]|].
  intros ([t|] & _ & H)%bind_Some; [|done]. apply bind_Some in H as ([r|] & Hr & H); [|done].
  injection H as <-. rewrite !zlen_cons. by rewrite (IH r).
Qed.

Lemma subscribe_ok e s c l h : subscribe e s c l = Some h -> handled_ok s c h.
Proof.
  unfold subscribe. destruct (Z.ltb_spec MAX_TAGS_PER_SUBSCRIPTION (zlen l)).
  { intros [= <-]. apply handled_refuse. }
  intros (parsed & Hp & H1)%bind_Some. destruct parsed as [ts|]; [|injection H1 as <-; apply handled_refuse].
  pose proof (parse_tags_zlen l ts Hp) as Hz.
  assert (conn_ok c -> conn_ok (with_listening c (listen (subscribed c) ts))) as Hc.
  { intros Hc. destruct Hc as [Hw Hl Hk] eqn:E. clear E. simpl in *.
    apply conn_listening; [done|by apply wf_listen|]. apply len_listen; [done|lia]. }
  destruct (deliver _ _) as [sent w]. destruct (negb sent); injection H1 as <-;
    (apply handled_say; [by apply turn_same|intros Hok; by apply deliver_conn, Hc]).
Qed.

Lemma take_receipts_store m tags l r :
  take_receipts m tags l = Some r ->
  (store_inv m -> store_inv r.2) /\
  (forall P, all_stored P m -> all_stored P r.2).
Proof.
  revert m r. induction l as [|x l IH]; intros m r; simpl; [by intros [= <-]|].
  intros ([d|] & _ & H)%bind_Some; [|by injection H as <-].
  pose proof (store_inv_ack m tags d) as Hi. pose proof (fun P => all_stored_ack P m tags d) as Ha.
  destruct (remove_acknowledged m tags d) as [hit m1].
  apply bind_Some in H as (r1 & Hr & [= <-]). destruct (IH _ _ Hr). simpl in *. auto.
Qed.

Lemma collected_ok s c l h : collected s c l = Some h -> handled_ok s c h.
Proof.
  unfold collected. destruct (_ <? _); [intros [= <-]; apply handled_refuse|].
  intros (r & Hr & H)%bind_Some. apply take_receipts_store in Hr as [Hi Ha].
  assert (turn_ok s (with_mailbox s r.2)) as Ht by (split; [exact Hi|exact (Ha _)|done]).
  destruct r.1; injection H as <-; by apply handled_say.
Qed.

Lemma unsubscribe_each_ok l ts l' :
  unsubscribe_each l ts = Some l' -> well_formed l -> well_formed l' /\ len l' <= len l.
Proof.
  revert l. induction ts as [|x ts IH]; intros l; simpl; [intros [= ->]; split; [done|lia]|].
  intros ([t|] & _ & H)%bind_Some Hl; [|by apply IH].
  destruct (IH _ H (wf_remove _ t Hl)) as [? ?]. pose proof (len_remove l t Hl). split; [done|lia].
Qed.

Lemma unsubscribe_ok s c l h : unsubscribe s c l = Some h -> handled_ok s c h.
Proof.
  unfold unsubscribe. intros (l' & Hl & [= <-])%bind_Some. apply handled_say; [by apply turn_same|].
  intros Hc. destruct Hc as [Hw Hn Hk] eqn:E. clear E. simpl in *.
  apply unsubscribe_each_ok in Hl as [??]; [|done]. apply conn_listening; [done|done|lia].
Qed.

Lemma leave_tickets_ok e s c l h : leave_tickets e s c l = Some h -> handled_ok s c h.
Proof.
  unfold leave_tickets. destruct (_ <? _); [intros [= <-]; apply handled_refuse|].
  intros (r & Hr & H)%bind_Some.
  destruct r.1; injection H as <-; by (apply handled_say; [apply turn_same|]).
Qed.

Lemma deposit_ok e s c me text h :
  deposit_envelope g e s c me text = Some h -> handled_ok s c h.
Proof.
  unfold deposit_envelope.
  destruct (frame_decode _) as [l|]; [|intros [= <-]; apply handled_refuse].
  destruct (envelope_from_bytes l) as [x|]; [|intros [= <-]; apply handled_refuse].
  destruct (_ <? _); [intros [= <-]; apply handled_refuse|].
  destruct (charge _ _ _ _) as [[r|lim used] m].
  - intros (b & Hb & [= <-])%bind_Some. apply handled_say; [|done]. split; try done; simpl.
    + intros Hs. by eapply store_inv_deposit.
    + intros Hs. by eapply all_stored_deposit.
  - intros [= <-]. apply handled_say; [by apply turn_same|done].
Qed.

Lemma handle_request_ok e s c me r h :
  handle_request g e s c me r = Some h -> handled_ok s c h.
Proof.
  destruct r; simpl; first
    [apply subscribe_ok|apply unsubscribe_ok|apply collected_ok|apply deposit_ok
    |apply leave_tickets_ok|intros [= <-]].
  - apply auth_ok.
  - apply auth_blind_ok.
  - apply register_wake_ok.
  - apply revoke_wake_ok.
Qed.

Lemma on_frame_ok e s c me text s' c' fx b :
  on_frame parse g e s c me text = Some (s', c', fx, b) ->
  turn_ok s s' /\ (conn_ok c -> conn_ok c').
Proof.
  unfold on_frame. destruct (_ <? _).
  { intros [= <- <- _ _]. split; [by apply turn_same|apply deliver_conn]. }
  intros ([[[s1 c1] fx1] reply] & Hh & H)%bind_Some.
  assert (handled_ok s c (s1, c1, fx1, reply)) as [Ht Hc].
  { destruct (parse text); [by eapply handle_request_ok|]. injection Hh as <- <- <- <-. apply handled_refuse. }
  simpl in *. destruct reply as [r|]; [|by injection H as <- <- _ _].
  destruct (send _ _) as [sent w]. injection H as <- <- _ _. split; [done|].
  intros. by apply deliver_conn, Hc.
Qed.

Lemma on_wake_ok e s c me w :
  turn_ok s (on_wake e s c me w).1.1 /\ (conn_ok c -> conn_ok (on_wake e s c me w).1.2).
Proof.
  unfold on_wake. destruct (_ || _); [by split; [apply turn_same|]|].
  destruct (collect _ _ _) as [es m] eqn:E. destruct (deliver _ _) as [sent wire]. simpl.
  split; [|apply deliver_conn].
  assert (m = (collect (mailbox s) (wake_tag w) (now e)).2) as -> by by rewrite E.
  split; simpl; try done.
  - apply store_inv_collect.
  - intros Hall. unfold collect. destruct (slots (mailbox s) !! wake_tag w); simpl; [|done].
    by apply map_Forall_delete.
Qed.

(** *** The system *)

Lemma perform_lookup m fx i :
  match perform m fx !! i with
  | Some x => exists x0, m !! i = Some x0 /\ conn x = conn x0
  | None => m !! i = None
  end.
Proof.
  revert m. induction fx as [|f fx IH]; intros m; simpl.
  { destruct (m !! i); [by eexists|done]. }
  specialize (IH (match f with Broadcast w => broadcast w m | _ => m end)).
  destruct f as [w| |]; try done. unfold broadcast in *. rewrite lookup_fmap in IH.
  destruct (m !! i) as [x0|] eqn:E; simpl in IH; destruct (perform _ _ !! i) as [x|]; try done.
  destruct IH as (x1 & [= <-] & Hx). by exists x0.
Qed.

Lemma seat_conn x : seat_ok x <-> conn_ok (conn x).
Proof. split; intros [H1 H2 H3]; by split. Qed.

Lemma perform_seats m fx :
  map_Forall (fun _ x => seat_ok x) m -> map_Forall (fun _ x => seat_ok x) (perform m fx).
Proof.
  intros Hm i x Hx. pose proof (perform_lookup m fx i) as H. rewrite Hx in H.
  destruct H as (x0 & H0 & Hc). apply seat_conn. rewrite Hc. exact (proj1 (seat_conn x0) (Hm _ _ H0)).
Qed.

Lemma ok_close y me : system_ok y -> system_ok (close_seat y me).
Proof.
  intros [H1 H2 H3 H4]. unfold close_seat. destruct (seats y !! me); [|by split].
  split; try done. simpl. by apply map_Forall_delete.
Qed.

Lemma ok_settle_turn y me s x b fx :
  system_ok y -> turn_ok (state y) s -> seat_ok x -> system_ok (settle_turn y me s x b fx).
Proof.
  intros [H1 H2 H3 H4] [T1 T2 T3] Hx. unfold settle_turn.
  assert (system_ok (mkSystem s (perform (<[me:=x]> (seats y)) fx))) as Hy.
  { split; simpl; auto. apply perform_seats. by apply map_Forall_insert_2. }
  destruct b; [done|]. by apply ok_close.
Qed.

Lemma ok_step y v y' : system_ok y -> step y v = Some y' -> system_ok y'.
Proof.
  intros Hy. destruct v as [fresh room|me e text|me e|me|e|answer]; simpl.
  - intros [= <-]. destruct Hy as [H1 H2 H3 H4]. split; simpl; try done.
    apply map_Forall_insert_2; [|done]. split; simpl; [apply wf_default|done|done].
  - unfold frame_turn. destruct (seats y !! me) as [x|] eqn:E; [|by intros [= <-]].
    intros ([[[s c] fx] b] & Hf & [= <-])%bind_Some. apply on_frame_ok in Hf as [Ht Hc].
    apply ok_settle_turn; [done|done|]. apply seat_conn, Hc. exact (proj1 (seat_conn x) (sy_seats y Hy _ _ E)).
  - intros [= <-]. unfold wake_turn. destruct (seats y !! me) as [[c [|w q]]|] eqn:E; try done.
    pose proof (on_wake_ok e (state y) c me w) as [Ht Hc].
    destruct (on_wake _ _ _ _ _) as [[s c'] b]. apply ok_settle_turn; [done|done|].
    apply seat_conn, Hc. exact (proj1 (seat_conn (mkSeat c (w :: q))) (sy_seats y Hy _ _ E)).
  - intros [= <-]. by apply ok_close.
  - intros [= <-]. unfold sweep_turn. destruct (MailboxStore.sweep _ _) as [n m] eqn:E.
    assert (m = (MailboxStore.sweep (mailbox (state y)) (now e)).2) as -> by by rewrite E.
    destruct Hy as [H1 H2 H3 H4].
    split; simpl; [done|apply store_inv_sweep|by apply all_stored_keep|done].
  - intros [= <-]. unfold waking_turn. destruct (_ && _); [|done].
    destruct Hy as [H1 H2 H3 H4]. split; simpl; try done.
    unfold scheduled_wake, forget_all. generalize (Wake.sweep answer (to_wake (wake_registry (state y)))).
    intros l. revert H4. generalize (wake_registry (state y)).
    induction l as [|t l IH]; intros r Hr; simpl; [done|]. apply IH. by apply ok_retain.
Qed.

Lemma ok_run_system y vs y' : system_ok y -> run y vs = Some y' -> system_ok y'.
Proof.
  revert y. induction vs as [|v vs IH]; intros y Hy; simpl; [by intros [= <-]|].
  intros (y1 & Hs & H)%bind_Some. apply ok_step in Hs; [|done]. by eapply IH.
Qed.

Lemma ok_started r k ttl : registry_ok r -> system_ok (started (mailbox_new ttl) r k).
Proof.
  intros Hr. split; simpl; [apply map_Forall_empty|apply store_inv_new|apply map_Forall_empty|done].
Qed.

(** C26: whatever the clients send and in whatever order the tasks run, every
    session listens on at most two hundred and fifty-six tags, its set and its
    queue agreeing; every capability a session holds allows at least one envelope
    under a tag; no queue of the store is empty and every envelope is under its own
    tag; and the wake registry keeps its bounds. *)
Theorem server_invariant r k ttl vs y :
  registry_ok r -> run (started (mailbox_new ttl) r k) vs = Some y -> system_ok y.
Proof. intros Hr. by apply ok_run_system, ok_started. Qed.

(** *** What can stop it *)

(** The strings of a frame read as hexadecimal. *)
Definition hex_fields (r : Request) : list rstring :=
  match r with
  | Subscribe l | Unsubscribe l | Collected l => l
  | LeaveTickets l => tt_tag <$> l
  | _ => []
  end.

Lemma parse_tags_None l : parse_tags l = None -> exists x, x ∈ l /\ parse_tag x = None.
Proof.
  induction l as [|x l IH]; simpl; [done|]. destruct (parse_tag x) as [[t|]|] eqn:E; simpl; try done.
  - destruct (parse_tags l); [done|]. intros _. destruct IH as (y & ? & ?); [done|].
    exists y. split; [by right|done].
  - intros _. exists x. split; [by left|done].
Qed.

Lemma unsubscribe_None l ts : unsubscribe_each l ts = None -> exists x, x ∈ ts /\ parse_tag x = None.
Proof.
  revert l. induction ts as [|x ts IH]; intros l; simpl; [done|].
  destruct (parse_tag x) as [t|] eqn:E; simpl.
  - intros (y & ? & ?)%IH. exists y. split; [by right|done].
  - intros _. exists x. split; [by left|done].
Qed.

Lemma take_receipts_None m tags l :
  take_receipts m tags l = None -> exists x, x ∈ l /\ parse_tag x = None.
Proof.
  revert m. induction l as [|x l IH]; intros m; simpl; [done|]. rewrite parse_digest_tag.
  destruct (parse_tag x) as [[d|]|] eqn:E; simpl; try done.
  - destruct (remove_acknowledged m tags d) as [hit m1]. 
    destruct (take_receipts m1 tags l) eqn:E'; simpl; [done|]. intros _.
    apply IH in E' as (y & ? & ?). exists y. split; [by right|done].
  - intros _. exists x. split; [by left|done].
Qed.

Lemma take_tickets_None t l n :
  take_tickets t l n = None -> exists x, x ∈ tt_tag <$> l /\ parse_tag x = None.
Proof.
  revert t. induction l as [|p l IH]; intros t; csimpl; [done|].
  destruct (parse_tag (tt_tag p)) as [[d|]|] eqn:E; simpl; try done.
  - destruct (_ <? _); [done|]. destruct (leave _ _ _ _) as [a t1].
    destruct (take_tickets t1 l n) eqn:E'; simpl; [done|]. intros _.
    apply IH in E' as (y & ? & ?). exists y. split; [by right|done].
  - intros _. exists (tt_tag p). split; [by left|done].
Qed.

Lemma handle_request_None e s c me r :
  conn_ok c -> handle_request g e s c me r = None ->
  exists x, x ∈ hex_fields r /\ parse_tag x = None.
Proof.
  intros Hc. destruct r; simpl; try done.
  - unfold subscribe. destruct (_ <? _); [done|]. destruct (parse_tags tags) as [[ts|]|] eqn:E; simpl.
    + destruct (deliver _ _) as [sent w]. by destruct (negb sent).
    + done.
    + intros _. by apply parse_tags_None.
  - unfold unsubscribe. destruct (unsubscribe_each _ _) eqn:E; simpl; [done|]. intros _.
    by eapply unsubscribe_None.
  - unfold collected. destruct (_ <? _); [done|].
    destruct (take_receipts _ _ _) as [[[n|] m]|] eqn:E; simpl; try done. intros _.
    by eapply take_receipts_None.
  - unfold deposit_envelope. destruct (frame_decode _) as [l|]; [|done].
    destruct (envelope_from_bytes l) as [x|]; [|done]. destruct (_ <? _); [done|].
    destruct (charge _ _ _ _) as [[a|lim used] m]; [|done]. intros H. exfalso.
    unfold deposit_with in H.
    destruct (slot_deposit_total (default [] (slots (mailbox (with_meter s m)) !! env_tag x))
      (mkStored x (now e) (Capability.ttl_seconds (limits (cap c)))) (now e)
      (Z.min (max_per_tag (limits (cap c))) MailboxStore.MAX_PER_TAG)) as [slot Hslot].
    { destruct Hc as [_ _ Hc]. simpl in Hc. unfold MailboxStore.MAX_PER_TAG. lia. }
    rewrite Hslot in H. done.
  - unfold leave_tickets. destruct (_ <? _); [done|].
    destruct (take_tickets _ _ _) as [[[n|msg] t]|] eqn:E; simpl; try done. intros _.
    by eapply take_tickets_None.
Qed.

(** The only thing a client can send that stops the server is a tag or a
    receipt of sixty-four bytes that are not ASCII: every other frame, wake, sweep
    and closing is handled and leaves a server running. *)
Theorem only_a_broken_hex_string_stops_it y v :
  system_ok y -> step y v = None ->
  exists me e text r x, v = EFrame me e text /\ parse text = Some r /\ x ∈ hex_fields r /\
    zlen (rs x) = 64 /\ ~ Forall (fun b => b2z b < 128) (rs x).
Proof.
  intros Hy. destruct v as [fresh room|me e text|me e|me|e|answer]; simpl; try done.
  unfold frame_turn. destruct (seats y !! me) as [x|] eqn:E; [|done].
  destruct (on_frame _ _ _ _ _ _ _) as [[[[s c] fx] b]|] eqn:Hf; [done|]. intros _.
  unfold on_frame in Hf. destruct (_ <? _); [done|]. destruct (parse text) as [r|] eqn:Er.
  2: { unfold refuse, say in Hf. simpl in Hf. by destruct (send _ _). }
  destruct (handle_request _ _ _ _ _ _) as [[[[s c] fx] [reply|]]|] eqn:Hh; simpl in Hf.
  { by destruct (send _ _). } { done. }
  apply handle_request_None in Hh as (z & Hz & Hp); [|exact (proj1 (seat_conn x) (sy_seats y Hy _ _ E))].
  exists me, e, text, r, z. do 3 (split; [done|]). split.
  - unfold parse_tag in Hp. destruct (Z.eqb_spec (zlen (rs z)) 64); [done|]. done.
  - intros Ha. destruct (parse_tag_ascii z Ha) as [t Ht]. congruence.
Qed.

(** *** What can remove an envelope *)

(** Why a turn took the entry [x] out of the queue of [t]. *)
Inductive cause (y : System) (t : Tag) (x : MailboxStore.Stored) : Event -> Prop :=
| by_receipt me e text ds d c :
    seats y !! me = Some c -> contains (subscribed (conn c)) t = true ->
    parse text = Some (Collected ds) -> d ∈ ds ->
    parse_digest d = Some (Some (digest (envelope x))) ->
    cause y t x (EFrame me e text)
| by_deposit me e text c z l n :
    seats y !! me = Some c -> parse text = Some (Deposit z) ->
    frame_decode (trim (rs z)) = Some l -> envelope_from_bytes l = Ok n -> env_tag n = t ->
    (is_expired x (now e) = true \/
     Z.min (max_per_tag (limits (cap (conn c)))) MailboxStore.MAX_PER_TAG
       <= pending (mailbox (state y)) t (now e)) ->
    cause y t x (EFrame me e text)
| by_wake me e c w q :
    seats y !! me = Some (mkSeat c (w :: q)) -> wake_tag w = t -> from w <> me ->
    contains (subscribed c) t = true ->
    cause y t x (EWake me e)
| by_sweep e : is_expired x (now e) = true -> cause y t x (ESweep e).

Lemma take_receipts_keeps m tags l r t x :
  take_receipts m tags l = Some r -> x ∈ entries m t ->
  x ∈ entries r.2 t \/
  t ∈ tags /\ exists d, d ∈ l /\ parse_digest d = Some (Some (digest (envelope x))).
Proof.
  revert m r. induction l as [|z l IH]; intros m r; simpl; [intros [= <-]; auto|].
  intros ([d|] & Hd & H)%bind_Some Hx; [|injection H as <-; auto].
  pose proof (ack_keeps m tags d t x Hx) as Hk.
  destruct (remove_acknowledged m tags d) as [hit m1]. simpl in Hk.
  apply bind_Some in H as (r1 & Hr & [= <-]).
  destruct (decide (t ∈ tags)) as [Ht|]; [|destruct (IH _ _ Hr) as [|(? & d' & ? & ?)]; [by auto|by left|done]].
  destruct (decide (digest (envelope x) = d)) as [He|Hne].
  - right. split; [done|]. exists z. split; [by left|]. by rewrite He.
  - destruct (IH _ _ Hr) as [|(? & d' & ? & ?)]; [by auto|by left|].
    right. split; [done|]. exists d'. split; [by right|done].
Qed.

Lemma other_frames_keep e s c me r s' c' fx reply :
  handle_request g e s c me r = Some (s', c', fx, reply) ->
  match r with Deposit _ | Collected _ => True | _ => mailbox s' = mailbox s end.
Proof.
  destruct r; simpl; try done.
  - unfold subscribe. destruct (_ <? _); [by intros [= <- _ _ _]|].
    intros ([ts|] & _ & H)%bind_Some; [|by injection H as <- _ _ _].
    destruct (deliver _ _) as [sent w]. by destruct (negb sent); injection H as <- _ _ _.
  - unfold unsubscribe. by intros (l & _ & [= <- _ _ _])%bind_Some.
  - unfold auth. destruct (tokens g) as [v|]; [|by intros [= <- _ _ _]].
    destruct (verify _ _ _); [|by intros [= <- _ _ _]]. unfold tier_reply.
    destruct (charge _ _ _ _). by intros [= <- _ _ _].
  - unfold auth_blind. destruct (blind g); [by intros [= <- _ _ _]|].
    destruct (verify_blind _ _); [|by intros [= <- _ _ _]]. unfold tier_reply.
    destruct (charge _ _ _ _). by intros [= <- _ _ _].
  - unfold register_wake. destruct (negb (pushers_any g)); [by intros [= <- _ _ _]|].
    destruct (negb (secret_is_long_enough _)); [by intros [= <- _ _ _]|].
    destruct (register _ _) as [a r]. destruct (negb a); by intros [= <- _ _ _].
  - by intros [= <- _ _ _].
  - unfold leave_tickets. destruct (_ <? _); [by intros [= <- _ _ _]|].
    intros (r & _ & H)%bind_Some. by destruct r.1; injection H as <- _ _ _.
Qed.

Lemma settle_state y me s x b fx : mailbox (state (settle_turn y me s x b fx)) = mailbox s.
Proof.
  unfold settle_turn. destruct b; [done|]. unfold close_seat. by destruct (_ !! me).
Qed.

Lemma frame_removal y me e text y' t x :
  system_ok y -> frame_turn y me e text = Some y' ->
  x ∈ entries (mailbox (state y)) t -> x ∉ entries (mailbox (state y')) t ->
  cause y t x (EFrame me e text).
Proof.
  intros Hy. unfold frame_turn. destruct (seats y !! me) as [c|] eqn:E; [|by intros [= <-]].
  intros ([[[s k] fx] b] & Hf & [= <-])%bind_Some Hx. rewrite settle_state.
  unfold on_frame in Hf. destruct (_ <? _); [by injection Hf as <- _ _ _|].
  apply bind_Some in Hf as ([[[s1 c1] fx1] reply] & Hh & Hf).
  assert (mailbox s = mailbox s1) as -> by
    (destruct reply; [destruct (send _ _)|]; by injection Hf as <- _ _ _).
  clear Hf. destruct (parse text) as [r|] eqn:Er; [|by injection Hh as <- _ _ _].
  pose proof (other_frames_keep _ _ _ _ _ _ _ _ _ Hh) as Ho.
  destruct r; try (intros; congruence); simpl in Hh; clear Ho; intros Hn.
  - unfold collected in Hh. destruct (_ <? _); [by injection Hh as <- _ _ _|].
    apply bind_Some in Hh as (r & Hr & Hh).
    assert (mailbox s1 = r.2) as Hm by (destruct r.1; by injection Hh as <- _ _ _).
    rewrite Hm in Hn. destruct (take_receipts_keeps _ _ _ _ t x Hr Hx) as [|(Ht & d & Hd & Hp)]; [done|].
    eapply by_receipt; try done. unfold contains. apply bool_decide_eq_true.
    apply wf_elem; [|exact Ht]. exact (so_listening _ (sy_seats y Hy _ _ E)).
  - unfold deposit_envelope in Hh.
    destruct (frame_decode _) as [l|] eqn:El; [|by injection Hh as <- _ _ _].
    destruct (envelope_from_bytes l) as [n|] eqn:En; [|by injection Hh as <- _ _ _].
    destruct (_ <? _); [by injection Hh as <- _ _ _|].
    destruct (charge _ _ _ _) as [[a|lim used] m]; [|by injection Hh as <- _ _ _].
    apply bind_Some in Hh as (b' & Hb & Hh).
    assert (mailbox s1 = b') as Hm by by injection Hh as <- _ _ _. rewrite Hm in Hn.
    destruct (deposit_keeps _ _ _ _ _ _ t x Hb Hx) as [|[Ht Hc]]; [done|].
    by eapply by_deposit.
Qed.

(** C1: an envelope leaves the store for one of four reasons.  A session that
    listens on its tag named its digest in a receipt; a session that listens on its
    tag was woken by somebody else's deposit and took the queue; a deposit under
    the same tag found the queue full, or the envelope expired; or a sweep found it
    expired.  In particular nobody who has not the tag can remove it, but by
    filling its queue, which takes the tag too. *)
Theorem removal_has_a_cause y v y' t x :
  system_ok y -> step y v = Some y' ->
  x ∈ entries (mailbox (state y)) t -> x ∉ entries (mailbox (state y')) t -> cause y t x v.
Proof.
  intros Hy. destruct v as [fresh room|me e text|me e|me|e|answer]; simpl.
  - by intros [= <-].
  - by apply frame_removal.
  - intros [= <-] Hx. unfold wake_turn. destruct (seats y !! me) as [[c [|w q]]|] eqn:E; try done.
    destruct (on_wake e (state y) c me w) as [[s c'] b] eqn:Ew. rewrite settle_state. intros Hn.
    unfold on_wake in Ew. destruct (Z.eqb_spec (from w) me) as [|Hne]; [by injection Ew as <- _ _|].
    destruct (contains (subscribed c) (wake_tag w)) eqn:Ec; simpl in Ew; [|by injection Ew as <- _ _].
    destruct (collect _ _ _) as [es m] eqn:Em. destruct (deliver _ _). injection Ew as <- _ _.
    simpl in Hn. destruct (decide (t = wake_tag w)) as [->|Hd]; [by eapply by_wake|].
    destruct Hn. pose proof (collect_keeps _ (wake_tag w) (now e) t x Hx Hd) as Hk.
    by rewrite Em in Hk.
  - intros [= <-] Hx. unfold close_seat. by destruct (seats y !! me).
  - intros [= <-] Hx. unfold sweep_turn. destruct (MailboxStore.sweep _ _) as [n m] eqn:Em. simpl.
    intros Hn. destruct (is_expired x (now e)) eqn:Ex; [by apply by_sweep|]. destruct Hn.
    pose proof (sweep_keeps _ (now e) t x Hx Ex) as Hk. by rewrite Em in Hk.
  - intros [= <-] Hx. unfold waking_turn. by destruct (_ && _).
Qed.

(** *** What is delivered *)

Lemma deliver_open w l :
  room w = None -> deliver w l = (true, mkWire (written w ++ (envelope_reply <$> l)) None).
Proof.
  revert w. induction l as [|x l IH]; intros w Hw; simpl.
  - rewrite app_nil_r. destruct w. simpl in *. by subst.
  - unfold send. rewrite Hw. rewrite IH by done. simpl. by rewrite <- app_assoc.
Qed.

(** A subscription delivers everything that waits.  On an open connection a
    subscription to tags that parse writes out every live envelope under them, tag
    by tag and oldest first, then says how many; it leaves the store as it was and
    the connection listening on all of them. *)
Theorem subscription_delivers_all e s c l ts :
  zlen l <= MAX_TAGS_PER_SUBSCRIPTION -> parse_tags l = Some (Some ts) ->
  room (socket c) = None -> well_formed (subscribed c) ->
  exists s' c',
    subscribe e s c l = Some (s', c', [], Some (Ready (zlen (peek_many (mailbox s) ts (now e))))) /\
    mailbox s' = mailbox s /\
    written (socket c') =
      written (socket c) ++ (envelope_reply <$> peek_many (mailbox s) ts (now e)) /\
    forall t, t ∈ ts -> contains (subscribed c') t = true.
Proof.
  intros Hl Hts Hw Hwf. unfold subscribe. rewrite (proj2 (Z.ltb_ge _ _)) by done. rewrite Hts.
  cbn [mbind option_bind]. rewrite deliver_open by done. cbn [negb].
  do 2 eexists. split; [done|]. split; [done|]. split; [done|]. intros t Ht. simpl.
  unfold contains. apply bool_decide_eq_true, wf_elem; [by apply wf_listen|].
  apply elem_of_add_all; [by apply wf_make_room|by right].
Qed.

Lemma deposit_last m n now ttl max m' :
  deposit_with m n now ttl max = Some m' -> mkStored n now ttl ∈ entries m' (env_tag n).
Proof.
  unfold deposit_with, slot_deposit. intros (slot & Hs & [= <-])%bind_Some.
  apply bind_Some in Hs as (mid & _ & [= <-]). unfold entries. simpl.
  rewrite lookup_insert_eq. simpl. set_solver.
Qed.

Lemma peek_entry m t x now :
  x ∈ entries m t -> live now x = true -> envelope x ∈ peek_many m [t] now.
Proof.
  intros Hx Hl. rewrite peek_one. apply list_elem_of_fmap. exists x. split; [done|].
  apply elem_of_retain. by split.
Qed.

Lemma peek_mono m t ts now x : t ∈ ts -> x ∈ peek_many m [t] now -> x ∈ peek_many m ts now.
Proof.
  intros (l & k & ->)%list_elem_of_split Hx. rewrite (cons_middle t), !peek_many_app, !elem_of_app. auto.
Qed.


(** A deposit that is refused costs nothing but what the meter counts.  Any
    answer but [stored] leaves the store, the tickets, the registry and the
    connection as they were and wakes nobody; a full queue is not a refusal, so
    [stored] is the answer to every well-formed envelope within the tier's size and
    allowance. *)
Theorem refused_deposit_changes_nothing e s c me text s1 c1 fx r :
  deposit_envelope g e s c me text = Some (s1, c1, fx, r) ->
  (r = Some Stored <->
    exists l n rest, frame_decode (trim (rs text)) = Some l /\ envelope_from_bytes l = Ok n /\
      zlen (payload n) <= max_payload (limits (cap c)) /\
      (charge (meter s) (cap c) (zlen (payload n)) (now_metered e / 3600)).1 = Allowed rest) /\
  (r <> Some Stored -> mailbox s1 = mailbox s /\ tickets s1 = tickets s /\
    wake_registry s1 = wake_registry s /\ c1 = c /\ fx = []).
Proof.
  unfold deposit_envelope. destruct (frame_decode _) as [l|] eqn:El.
  2: { intros [= <- <- <- <-]. split; [|done]. split; [done|]. by intros (? & ? & ? & ? & _). }
  destruct (envelope_from_bytes l) as [n|] eqn:En.
  2: { intros [= <- <- <- <-]. split; [|done]. split; [done|].
       intros (? & ? & ? & [= <-] & ? & _). congruence. }
  destruct (Z.ltb_spec (max_payload (limits (cap c))) (zlen (payload n))) as [Hbig|Hfit].
  { intros [= <- <- <- <-]. split; [|done]. split; [done|].
    intros (? & ? & ? & [= <-] & H & Hle & _). assert (x0 = n) as -> by congruence. lia. }
  destruct (charge _ _ _ _) as [[a|lim used] m] eqn:Ec.
  - intros (b & Hb & [= <- <- <- <-])%bind_Some. split; [|done]. split; [|done]. intros _.
    exists l, n, a. do 3 (split; [done|]). by rewrite Ec.
  - intros [= <- <- <- <-]. split; [|done]. split; [done|].
    intros (? & ? & ? & [= <-] & H & _ & Hc). assert (x0 = n) as -> by congruence.
    by rewrite Ec in Hc.
Qed.

End Server.

(** ** Runs of a small server *)

Import Toy.

Module ServerExample.

#[export] Instance frames : FrameBase64 := {| frame_encode l := l; frame_decode := Some |}.
#[export] Instance base64 : Base64 := {| b64_decode := Some; b64_encode l := l |}.
#[export] Instance hashes : Sha256 := {| sha256 l := be_arr 32 (be_value (take 8 l)) |}.
#[export] Instance tokens : TokenScheme := {|
  VerifyingKey := unit;
  Signature := unit;
  key_from_bytes _ := None;
  signature_from_slice _ := None;
  signature_verifies _ _ _ := false;
  claims_from_bytes _ := None;
|}.
#[export] Instance blinds : BlindScheme := {|
  PublicKey := unit;
  blind_verify _ _ _ _ := false;
|}.

Definition tag : Tag := be_arr 32 1.

(** Envelopes that are ASCII, to be carried as they are. *)
Definition envelope_of (n : Z) : Envelope := mkEnvelope tag (z2b n :: replicate 1023 zero_byte).
Definition text_of (l : bytes) : rstring := default (RString [] I) (from_utf8 l).
Definition deposit_of (n : Z) : Request := Deposit (text_of (envelope_to_bytes (envelope_of n))).
Definition tag_text : rstring := text_of (hex_lower (ab tag)).

(** A frame is its length in this parser. *)
Definition requests : list Request :=
  [deposit_of 1; deposit_of 2; Subscribe [tag_text]; Subscribe [panicking];
   Collected [tag_text; panicking]].
Definition parse (t : rstring) : option Request := requests !! length (rs t).
Definition frame (i : nat) : rstring := text_of (replicate i (z2b 97)).

Definition config : Config := mkConfig None [] false 300 None.
Definition env : Env := mkEnv 1000 1000 1000 5 map_to_list (fun _ => None).
Definition start : System := started (mailbox_new 604800) [] ∅.

Definition holder (n : Z) : arr 16 := be_arr 16 n.

Definition written_to (y : System) (me : Z) : list Reply :=
  from_option (fun x => written (socket (conn x))) [] (seats y !! me).

End ServerExample.

Import (hints) ServerExample.

Section Examples.
Import ServerExample.

Abbreviation go := (run parse config start).

Lemma ran {A} (f : System -> A) vs v :
  option_map f (go vs) = Some v -> exists y, go vs = Some y /\ f y = v.
Proof. destruct (go vs) as [y|]; [|done]. intros [= <-]. by exists y. Qed.

(** A message can be lost to a connection that is gone.  A deposit is
    answered [stored]; a subscriber whose socket no longer takes anything is woken;
    the envelope has left the store, was written to nobody, no receipt named it and
    its term has not passed. *)
Theorem a_wake_can_lose_a_message :
  exists vs y,
    go vs = Some y /\
    written_to y 0 = [Stored] /\
    seats y !! 1 = None /\
    slots (mailbox (state y)) = ∅ /\
    Forall (fun v => match v with EFrame _ e text => parse text = Some (deposit_of 1) \/
                       parse text = Some (Subscribe [tag_text])
                     | ESweep _ => False | _ => True end) vs.
Proof.
  pose (vs := [EOpen (holder 1) None; EOpen (holder 2) (Some 1%nat); EFrame 1 env (frame 2);
          EFrame 0 env (frame 0); EWake 1 env]).
  destruct (ran (fun y => (written_to y 0, bool_decide (seats y !! 1 = None),
    bool_decide (slots (mailbox (state y)) = ∅))) vs ([Stored], true, true)) as (y & Hy & [= H0 H1 H2]).
  - vm_compute. reflexivity.
  - exists vs, y. split; [exact Hy|]. split; [exact H0|].
    split; [exact (bool_decide_eq_true_1 _ H1)|]. split; [exact (bool_decide_eq_true_1 _ H2)|].
    do 2 (apply Forall_cons; split; [done|]). apply Forall_cons; split; [right; reflexivity|].
    apply Forall_cons; split; [left; reflexivity|]. apply Forall_cons; split; [done|constructor].
Qed.

(** A session can be handed its own deposit back, and the other side never
    gets it.  A listener deposits; a second client, that has not subscribed yet,
    deposits under the same tag; the first is woken and is written both envelopes,
    its own among them; the second subscribes and nothing waits. *)
Theorem own_deposit_comes_back :
  exists vs y,
    go vs = Some y /\
    written_to y 0 = [Ready 0; Stored; envelope_reply (envelope_of 1); envelope_reply (envelope_of 2)] /\
    written_to y 1 = [Stored; Ready 0].
Proof.
  pose (vs := [EOpen (holder 1) None; EFrame 0 env (frame 2); EFrame 0 env (frame 0); EWake 0 env;
          EOpen (holder 2) None; EFrame 1 env (frame 1); EWake 0 env; EFrame 1 env (frame 2)]).
  destruct (ran (fun y => (written_to y 0, written_to y 1)) vs
    ([Ready 0; Stored; envelope_reply (envelope_of 1); envelope_reply (envelope_of 2)],
     [Stored; Ready 0])) as (y & Hy & [= H0 H1]).
  - vm_compute. reflexivity.
  - exists vs, y. split; [exact Hy|]. by split.
Qed.

(** One frame stops the server.  A subscription to a tag that is a euro sign
    and sixty-one digits, sixty-four bytes, indexes inside a character: whatever the
    state of the server, the step of the session that receives it is a panic. *)
Theorem one_frame_stops_the_server y me x e :
  seats y !! me = Some x -> step parse config y (EFrame me e (frame 3)) = None.
Proof.
  intros Hx. simpl. unfold frame_turn. rewrite Hx. unfold on_frame.
  assert ((MAX_FRAME_BYTES <? zlen (rs (frame 3))) = false) as -> by (vm_compute; reflexivity).
  assert (parse (frame 3) = Some (Subscribe [panicking])) as -> by (vm_compute; reflexivity).
  cbn [handle_request]. unfold subscribe. 
  assert ((MAX_TAGS_PER_SUBSCRIPTION <? zlen [panicking]) = false) as -> by (vm_compute; reflexivity).
  cbn [parse_tags]. rewrite parse_tag_panics. reflexivity.
Qed.

Lemma one_frame_stops_the_server_witness :
  step parse config (open_seat start (holder 1) None) (EFrame 0 env (frame 3)) = None.
Proof.
  apply (one_frame_stops_the_server _ 0
    (mkSeat (mkConn listening_default (free (holder 1)) (mkWire [] None)) []) env).
  reflexivity.
Defined.

Definition listening_trace : list Event :=
  [EOpen (holder 1) None; EFrame 0 env (frame 2); EFrame 0 env (frame 0)].

Lemma listening_runs : exists y, go listening_trace = Some y /\ (len <$> (subscribed ∘ conn <$> (seats y !! 0))) = Some 1.
Proof. apply (ran (fun y => len <$> (subscribed ∘ conn <$> (seats y !! 0)))). vm_compute. reflexivity. Qed.

Definition listening_system : System := default start (go listening_trace).

Lemma listening_system_runs : go listening_trace = Some listening_system.
Proof. unfold listening_system. destruct listening_runs as (y & -> & _). done. Qed.

Lemma listening_system_ok : system_ok listening_system.
Proof.
  exact (ok_run_system parse config _ _ _ (ok_started [] ∅ 604800 ok_empty) listening_system_runs).
Qed.

Lemma server_invariant_witness : system_ok listening_system.
Proof.
  exact (server_invariant parse config [] ∅ 604800 _ _ ok_empty listening_system_runs).
Defined.

Lemma only_a_broken_hex_string_stops_it_witness :
  exists me e text r x, EFrame 0 env (frame 3) = EFrame me e text /\ parse text = Some r /\
    x ∈ hex_fields r /\ zlen (rs x) = 64 /\ ~ Forall (fun b => b2z b < 128) (rs x).
Proof.
  apply (only_a_broken_hex_string_stops_it parse config (open_seat start (holder 1) None)
    (EFrame 0 env (frame 3))).
  - exact (ok_step parse config start (EOpen (holder 1) None) _ (ok_started [] ∅ 604800 ok_empty)
      eq_refl).
  - vm_compute. reflexivity.
Defined.

Lemma tag_text_parses : parse_tags [tag_text] = Some (Some [tag]).
Proof.
  cbn [parse_tags]. rewrite (parse_tag_printed tag tag_text) by (vm_compute; reflexivity).
  reflexivity.
Qed.

Definition fresh_conn : Conn := mkConn listening_default (free (holder 3)) (mkWire [] None).

Lemma subscription_delivers_all_witness :
  exists s' c',
    subscribe env (state listening_system) fresh_conn [tag_text] =
      Some (s', c', [], Some (Ready (zlen (peek_many (mailbox (state listening_system)) [tag] 1000)))) /\
    contains (subscribed c') tag = true.
Proof.
  destruct (subscription_delivers_all env (state listening_system) fresh_conn [tag_text] [tag])
    as (s' & c' & Hs & _ & _ & Hw).
  - vm_compute. discriminate.
  - exact tag_text_parses.
  - reflexivity.
  - apply wf_default.
  - exists s', c'. split; [exact Hs|]. apply Hw. by left.
Defined.

(** A queue whose one envelope is taken by the session that listens. *)
Definition stored_one : Mailbox :=
  mkMailbox {[ tag := [mkStored (envelope_of 1) 1000 604800] ]} 604800.

Definition woken_system : System :=
  mkSystem (mkState stored_one 0 ∅ 2 [] ∅ (mkCounters 0 0 0 0 0 0))
    {[ 0 := mkSeat (mkConn (add listening_default tag) (free (holder 1)) (mkWire [] None))
              [mkWake tag 1] ]}.

Lemma woken_system_ok : system_ok woken_system.
Proof.
  split; unfold woken_system, store_inv, all_stored; cbn [seats state mailbox wake_registry].
  - apply map_Forall_singleton. split; cbn [conn subscribed cap];
      [apply wf_add, wf_default|vm_compute; discriminate|vm_compute; discriminate].
  - unfold stored_one. cbn [slots]. apply map_Forall_singleton. discriminate.
  - unfold stored_one. cbn [slots]. apply map_Forall_singleton, Forall_singleton. reflexivity.
  - apply ok_empty.
Qed.

Lemma removal_has_a_cause_witness :
  cause parse woken_system tag (mkStored (envelope_of 1) 1000 604800) (EWake 0 env).
Proof.
  apply (removal_has_a_cause parse config woken_system (EWake 0 env)
    (wake_turn woken_system 0 env) tag).
  - exact woken_system_ok.
  - reflexivity.
  - left.
  - vm_compute. intros H. inversion H.
Defined.


Lemma refused_deposit_changes_nothing_witness :
  exists s1 c1 fx r,
    deposit_envelope config env (state start) fresh_conn 0 tag_text = Some (s1, c1, fx, r) /\
    mailbox s1 = mailbox (state start) /\ fx = [].
Proof.
  destruct (deposit_envelope config env (state start) fresh_conn 0 tag_text)
    as [[[[s1 c1] fx] r]|] eqn:E.
  - exists s1, c1, fx, r. split; [reflexivity|].
    destruct (refused_deposit_changes_nothing config env (state start) fresh_conn 0 tag_text
      s1 c1 fx r E) as [_ H].
    destruct H as (Hm & _ & _ & _ & Hfx).
    { apply (f_equal (option_map snd)) in E. vm_compute in E. injection E as <-. discriminate. }
    split; [exact Hm|exact Hfx].
  - exfalso. apply (f_equal (fun o => bool_decide (is_Some o))) in E. vm_compute in E. discriminate.
Defined.
End Examples.
