(* ===== verification/FrontSession.v ===== *)
(** * A sealed session between a phone and the mailbox

    [crates/rotelyx-crypto/src/front.rs]: the hello a phone sends, the two keys
    both ends derive from it, and frames sealed and opened in order under them. *)

From S2P Require Import Prelude Crypto Capability Hex Hybrid.

Definition UP_CONTEXT : string := "rotelyx front session up v1".
Definition DOWN_CONTEXT : string := "rotelyx front session down v1".
Definition SESSION_ID_LEN : nat := 8.
Definition HELLO_LEN : nat := CIPHERTEXT_LEN + SESSION_ID_LEN.

Inductive Direction := Up | Down.

#[export] Instance Direction_eq_dec : EqDecision Direction.
Proof. solve_decision. Defined.

Definition context (d : Direction) : string := match d with Up => UP_CONTEXT | Down => DOWN_CONTEXT end.

Record Hello := mkHello { hello_kem : arr CIPHERTEXT_LEN; hello_id : arr SESSION_ID_LEN }.

Definition hello_to_bytes (h : Hello) : bytes := ab (hello_kem h) ++ ab (hello_id h).

Definition hello_from_bytes (l : bytes) : Result Hello HybridError :=
  if negb (zlen l =? Z.of_nat HELLO_LEN) then Err BadCiphertext
  else
    let? k := ok_or BadCiphertext (try_into CIPHERTEXT_LEN (take CIPHERTEXT_LEN l)) in
    Ok (mkHello k (copy_from_slice SESSION_ID_LEN (drop CIPHERTEXT_LEN l))).

(** [nonce_for]. *)
Definition nonce_for (counter : Z) : bytes := replicate 16 zero_byte ++ be_bytes 8 counter.

(** The context string of a key: the direction's, a space and the id in digits. *)
Definition binding (d : Direction) (i : arr SESSION_ID_LEN) : string :=
  String.append (context d)
    (String.append " " (String.string_of_list_byte (hex_lower (ab i)))).

Record Session := mkSession {
  up : arr 32;
  down : arr 32;
  session_id : arr SESSION_ID_LEN;
  seal_dir : Direction;
  seal_counter : Z;
  open_counter : Z;
}.

Section Sessions.
Context `{BL : Blake3, AE : Aead, XW : XWing}.

Definition keyed (secret : arr 32) (i : arr SESSION_ID_LEN) (d : Direction) : Session :=
  mkSession (derive_key secret (binding Up i)) (derive_key secret (binding Down i)) i d 0 0.

Definition open_to (mailbox_key : PublicKey) (i : arr SESSION_ID_LEN) (random : bytes)
    : Result (Session * Hello) HybridError :=
  let '(kem, secret) := encapsulate mailbox_key random in
  Ok (keyed secret i Up, mkHello kem i).

Definition accept (mailbox_secret : SecretKey) (h : Hello) : Result Session HybridError :=
  Ok (keyed (decapsulate mailbox_secret (hello_kem h)) (hello_id h) Down).

(** The key a session seals under, and the one it opens under. *)
Definition seal_key (s : Session) : arr 32 := match seal_dir s with Up => up s | Down => down s end.
Definition open_key (s : Session) : arr 32 := match seal_dir s with Up => down s | Down => up s end.

Definition with_seal (s : Session) (n : Z) : Session :=
  mkSession (up s) (down s) (session_id s) (seal_dir s) n (open_counter s).
Definition with_open (s : Session) (n : Z) : Session :=
  mkSession (up s) (down s) (session_id s) (seal_dir s) (seal_counter s) n.

(** The counter moves after the cipher has run, and only when it can. *)
Definition seal (s : Session) (plaintext : bytes) : Result bytes HybridError * Session :=
  match aead_seal (ab (seal_key s)) (nonce_for (seal_counter s)) (ab (session_id s)) plaintext with
  | None => (Err BadCiphertext, s)
  | Some sealed =>
      match checked_add64 (seal_counter s) 1 with
      | None => (Err BadCiphertext, s)
      | Some n => (Ok sealed, with_seal s n)
      end
  end.

Definition open (s : Session) (sealed : bytes) : Result bytes HybridError * Session :=
  match aead_open (ab (open_key s)) (nonce_for (open_counter s)) (ab (session_id s)) sealed with
  | None => (Err BadCiphertext, s)
  | Some plaintext =>
      match checked_add64 (open_counter s) 1 with
      | None => (Err BadCiphertext, s)
      | Some n => (Ok plaintext, with_open s n)
      end
  end.

(** ** Two ends and the frames between them

    Each end seals when it has something to say; what it sealed waits, in order,
    for the other end to open. *)

Record Duplex := mkDuplex {
  phone : Session;
  mailbox : Session;
  going_up : list bytes;
  going_down : list bytes;
  said_up : list bytes;
  said_down : list bytes;
  heard_up : list bytes;
  heard_down : list bytes;
}.

Inductive Turn := SayUp (m : bytes) | SayDown (m : bytes) | HearUp | HearDown.

(** [None] when a cipher refuses: the session is over. *)
Definition turn (x : Duplex) (t : Turn) : option Duplex :=
  match t with
  | SayUp m =>
      let '(r, p) := seal (phone x) m in
      ct ← rok r;
      Some (mkDuplex p (mailbox x) (going_up x ++ [ct]) (going_down x)
              (said_up x ++ [m]) (said_down x) (heard_up x) (heard_down x))
  | SayDown m =>
      let '(r, b) := seal (mailbox x) m in
      ct ← rok r;
      Some (mkDuplex (phone x) b (going_up x) (going_down x ++ [ct])
              (said_up x) (said_down x ++ [m]) (heard_up x) (heard_down x))
  | HearUp =>
      match going_up x with
      | [] => Some x
      | ct :: rest =>
          let '(r, b) := open (mailbox x) ct in
          m ← rok r;
          Some (mkDuplex (phone x) b rest (going_down x)
                  (said_up x) (said_down x) (heard_up x ++ [m]) (heard_down x))
      end
  | HearDown =>
      match going_down x with
      | [] => Some x
      | ct :: rest =>
          let '(r, p) := open (phone x) ct in
          m ← rok r;
          Some (mkDuplex p (mailbox x) (going_up x) rest
                  (said_up x) (said_down x) (heard_up x) (heard_down x ++ [m]))
      end
  end.

Fixpoint turns (x : Duplex) (ts : list Turn) : option Duplex :=
  match ts with
  | [] => Some x
  | t :: ts => x ← turn x t; turns x ts
  end.

Definition duplex (p b : Session) : Duplex := mkDuplex p b [] [] [] [] [] [].
End Sessions.

(** ** Contexts *)

Lemma nonce_for_inj a b : u64 a -> u64 b -> nonce_for a = nonce_for b -> a = b.
Proof. intros Ha Hb H. apply app_inv_head in H. by apply be64_inj. Qed.

Lemma length_nonce_for n : length (nonce_for n) = 24%nat.
Proof. unfold nonce_for. by rewrite length_app, length_be_bytes. Qed.

Lemma string_of_list_byte_inj l k :
  String.string_of_list_byte l = String.string_of_list_byte k -> l = k.
Proof.
  intros H. apply (f_equal String.list_byte_of_string) in H.
  by rewrite !String.list_byte_of_string_of_list_byte in H.
Qed.

Lemma append_inj c s t : String.append c s = String.append c t -> s = t.
Proof. induction c as [|x c IH]; simpl; [done|]. intros [= H]. by apply IH. Qed.

(** No two sessions and no two directions share the domain of a key. *)
Lemma binding_inj d d' i i' : binding d i = binding d' i' -> d = d' /\ i = i'.
Proof.
  intros H. assert (d = d') as <- by (destruct d, d'; [done|discriminate H|discriminate H|done]).
  split; [done|]. unfold binding in H. do 2 apply append_inj in H.
  apply string_of_list_byte_inj, hex_lower_inj in H. by apply arr_eq.
Qed.

Section Facts.
Context `{BL : Blake3, AL : AeadLaws, XL : XWingLaws}.

(** [cts] are [ms] sealed in order from the counter [n]. *)
Fixpoint carried (k : arr 32) (i : arr SESSION_ID_LEN) (n : Z) (cts ms : list bytes) : Prop :=
  match cts, ms with
  | [], [] => True
  | ct :: cts, m :: ms =>
      aead_seal (ab k) (nonce_for n) (ab i) m = Some ct /\ carried k i (n + 1) cts ms
  | _, _ => False
  end.

Lemma carried_snoc k i n cts ms ct m :
  carried k i n cts ms -> aead_seal (ab k) (nonce_for (n + zlen cts)) (ab i) m = Some ct ->
  carried k i n (cts ++ [ct]) (ms ++ [m]).
Proof.
  revert n ms. induction cts as [|c cts IH]; intros n [|m' ms]; try done; simpl.
  - rewrite zlen_nil, Z.add_0_r. done.
  - intros [Hc Hr] Hs. split; [done|]. apply IH; [done|]. rewrite zlen_cons in Hs.
    by replace (n + 1 + zlen cts) with (n + (1 + zlen cts)) by lia.
Qed.

(** One direction of a duplex: what was said is what was heard and what is on its
    way, and the two counters say so. *)
Record flow (k : arr 32) (i : arr SESSION_ID_LEN) (sealed opened : Z)
    (going said heard : list bytes) : Prop := {
  fl_sealed : sealed = zlen said;
  fl_opened : opened = zlen heard;
  fl_bound : zlen said <= u64_max;
  fl_said : exists rest, said = heard ++ rest /\ carried k i opened going rest;
}.

Lemma carried_length k i n cts ms : carried k i n cts ms -> length cts = length ms.
Proof.
  revert n ms. induction cts as [|c cts IH]; intros n [|m ms]; try done; simpl.
  intros [_ Hr]. by rewrite (IH _ _ Hr).
Qed.

Lemma flow_say k i n o going said heard m ct n' :
  flow k i n o going said heard -> aead_seal (ab k) (nonce_for n) (ab i) m = Some ct ->
  checked_add64 n 1 = Some n' ->
  flow k i n' o (going ++ [ct]) (said ++ [m]) heard.
Proof.
  intros [Hn Ho Hb (rest & Hs & Hc)] Hct Hadd. unfold checked_add64 in Hadd.
  destruct (Z.leb_spec (n + 1) u64_max) as [Hle|]; [|done]. injection Hadd as <-.
  split.
  - rewrite zlen_app, zlen_cons, zlen_nil. lia.
  - done.
  - rewrite zlen_app, zlen_cons, zlen_nil. lia.
  - exists (rest ++ [m]). split; [by rewrite Hs, app_assoc|]. apply carried_snoc; [done|].
    assert (o + zlen going = n) as ->; [|done].
    rewrite Hn, Ho, Hs, zlen_app. apply carried_length in Hc. unfold zlen. lia.
Qed.

Lemma flow_hear k i n o ct going said heard :
  flow k i n o (ct :: going) said heard ->
  exists m, aead_open (ab k) (nonce_for o) (ab i) ct = Some m /\
            checked_add64 o 1 = Some (o + 1) /\
            flow k i n (o + 1) going said (heard ++ [m]).
Proof.
  intros [Hn Ho Hb (rest & Hs & Hc)]. destruct rest as [|m rest]; [done|]. simpl in Hc.
  destruct Hc as [Hct Hc]. exists m. split; [by apply aead_open_seal|].
  assert (o + 1 <= zlen said) as Hle.
  { rewrite Hs, zlen_app, zlen_cons, Ho. pose proof (zlen_nonneg rest). lia. }
  split.
  - unfold checked_add64. destruct (Z.leb_spec (o + 1) u64_max); [done|lia].
  - split; [done| |done|].
    + rewrite zlen_app, zlen_cons, zlen_nil. lia.
    + exists rest. split; [by rewrite Hs, <- app_assoc|done].
Qed.

(** The two ends of one session. *)
Record paired (x : Duplex) : Prop := {
  pa_up : up (phone x) = up (mailbox x);
  pa_down : down (phone x) = down (mailbox x);
  pa_id : session_id (phone x) = session_id (mailbox x);
  pa_phone : seal_dir (phone x) = Up;
  pa_mailbox : seal_dir (mailbox x) = Down;
  pa_going_up : flow (up (phone x)) (session_id (phone x)) (seal_counter (phone x))
    (open_counter (mailbox x)) (going_up x) (said_up x) (heard_up x);
  pa_going_down : flow (down (phone x)) (session_id (phone x)) (seal_counter (mailbox x))
    (open_counter (phone x)) (going_down x) (said_down x) (heard_down x);
}.

Lemma flow_start k i : flow k i 0 0 [] [] [].
Proof. split; [done|done|done|]. by exists []. Qed.

Lemma paired_start sk i r p h b :
  open_to (public sk) i r = Ok (p, h) -> accept sk h = Ok b -> paired (duplex p b).
Proof.
  unfold open_to, accept. pose proof (decapsulate_encapsulate sk r) as Hk.
  destruct (encapsulate (public sk) r) as [kem secret]. simpl in Hk.
  intros [= <- <-] [= <-]. simpl. rewrite Hk. split; try done; apply flow_start.
Qed.

Lemma paired_turn x t x' : paired x -> turn x t = Some x' -> paired x'.
Proof.
  intros [H1 H2 H3 H4 H5 H6 H7]. destruct t as [m|m| |]; simpl.
  - unfold seal, seal_key. rewrite H4.
    destruct (aead_seal _ _ _ _) as [ct|] eqn:E; [|done].
    destruct (checked_add64 _ _) as [n|] eqn:En; [|done]. intros [= <-].
    split; try done. simpl. by eapply flow_say.
  - unfold seal, seal_key. rewrite H5.
    destruct (aead_seal _ _ _ _) as [ct|] eqn:E; [|done].
    destruct (checked_add64 _ _) as [n|] eqn:En; [|done]. intros [= <-].
    rewrite <- H2, <- H3 in E. split; try done. simpl. by eapply flow_say.
  - destruct (going_up x) as [|ct rest] eqn:Eg; [intros [= <-]; split; rewrite ?Eg; done|].
    apply flow_hear in H6 as (m & Ho & Ha & Hf). rewrite H1, H3 in Ho.
    unfold open, open_key. rewrite H5, Ho, Ha. simpl. intros [= <-]. by split.
  - destruct (going_down x) as [|ct rest] eqn:Eg; [intros [= <-]; split; rewrite ?Eg; done|].
    apply flow_hear in H7 as (m & Ho & Ha & Hf).
    unfold open, open_key. rewrite H4, Ho, Ha. simpl. intros [= <-]. by split.
Qed.

Lemma paired_turns x ts x' : paired x -> turns x ts = Some x' -> paired x'.
Proof.
  revert x. induction ts as [|t ts IH]; intros x Hx; simpl; [by intros [= <-]|].
  intros (x1 & Ht & Hr)%bind_Some. eapply IH; [|done]. by eapply paired_turn.
Qed.

Lemma paired_hears x t : paired x -> t = HearUp \/ t = HearDown -> exists x', turn x t = Some x'.
Proof.
  intros [H1 H2 H3 H4 H5 H6 H7] [-> | ->]; simpl.
  - destruct (going_up x) as [|ct rest]; [by eexists|].
    apply flow_hear in H6 as (m & Ho & Ha & Hf). rewrite H1, H3 in Ho.
    unfold open, open_key. rewrite H5, Ho, Ha. by eexists.
  - destruct (going_down x) as [|ct rest]; [by eexists|].
    apply flow_hear in H7 as (m & Ho & Ha & Hf).
    unfold open, open_key. rewrite H4, Ho, Ha. by eexists.
Qed.

(** C38: a front session carries both directions in order.  After the hello, which
    survives its wire form, and however the two ends' sealing and opening
    interleave: each end has heard a prefix of what the other said, byte for byte;
    a frame that is on its way is never refused; and the [n]-th frame of a direction
    is the one sealed under counter [n], each counter once. *)
Theorem front_session_is_in_order sk i r p h b ts x :
  open_to (public sk) i r = Ok (p, h) -> accept sk h = Ok b -> turns (duplex p b) ts = Some x ->
  hello_from_bytes (hello_to_bytes h) = Ok h /\
  heard_up x `prefix_of` said_up x /\ heard_down x `prefix_of` said_down x /\
  seal_counter (phone x) = zlen (said_up x) /\ open_counter (mailbox x) = zlen (heard_up x) /\
  (exists x', turn x HearUp = Some x') /\ (exists x', turn x HearDown = Some x').
Proof.
  intros Hp Hb Hx. pose proof (paired_turns _ _ _ (paired_start _ _ _ _ _ _ Hp Hb) Hx) as Hok.
  split.
  { unfold hello_from_bytes, hello_to_bytes. rewrite zlen_app, !zlen_ab. cbn [negb].
    rewrite (proj2 (Z.eqb_eq _ _)) by done. cbn [negb].
    rewrite take_ab, drop_ab, (try_into_ab (hello_kem h)). cbn [ok_or rbind]. rewrite copy_ab.
    by destruct h. }
  pose proof (pa_going_up _ Hok) as [Hn Ho _ (rest & Hup & _)].
  pose proof (pa_going_down _ Hok) as [_ _ _ (rest' & Hdown & _)].
  split; [by exists rest|]. split; [by exists rest'|].
  split; [done|]. split; [done|]. split; apply paired_hears; auto.
Qed.

(** Only the next frame opens.  When what the phone sealed opens under its own
    key, nonce and session and no other, the mailbox opens it when it is the next
    frame it expects and refuses it otherwise, whether it was skipped to, replayed
    or moved from another session; a frame the phone sent does not open at the
    phone; and a refusal leaves the counter where it was. *)
Theorem only_the_next_frame_opens p b m ct p' :
  seal p m = (Ok ct, p') -> seal_dir p = Up -> seal_dir b = Down -> up p <> down p ->
  0 <= open_counter b < u64_max -> u64 (seal_counter p) ->
  (forall k n a pt, aead_open k n a ct = Some pt ->
    k = ab (up p) /\ n = nonce_for (seal_counter p) /\ a = ab (session_id p)) ->
  ((open b ct).1 = Ok m <->
    up b = up p /\ session_id b = session_id p /\ open_counter b = seal_counter p) /\
  ((open b ct).1 <> Ok m -> open b ct = (Err BadCiphertext, b)) /\
  open p ct = (Err BadCiphertext, p).
Proof.
  intros Hs Hdp Hdb Hud Ho Hn Hauth. unfold seal, seal_key in Hs. rewrite Hdp in Hs.
  destruct (aead_seal _ _ _ _) as [ct'|] eqn:E; [|done].
  destruct (checked_add64 _ _) as [n|]; [|done]. injection Hs as -> _.
  apply aead_open_seal in E. unfold open, open_key. rewrite Hdp, Hdb.
  assert (checked_add64 (open_counter b) 1 = Some (open_counter b + 1)) as ->.
  { unfold checked_add64. destruct (Z.leb_spec (open_counter b + 1) u64_max); [done|lia]. }
  split; [|split].
  - destruct (aead_open (ab (up b)) _ _ _) as [pt|] eqn:Eo; simpl.
    + apply Hauth in Eo as Heq. destruct Heq as (Hk & Hc & Hi). rewrite Hk, Hc, Hi, E in Eo.
      injection Eo as <-. split; [intros _|done]. apply arr_eq in Hk, Hi.
      apply nonce_for_inj in Hc; [done|unfold u64; lia|done].
    + split; [done|]. intros (Hk & Hi & Hc). rewrite Hk, Hi, Hc, E in Eo. done.
  - destruct (aead_open (ab (up b)) _ _ _) as [pt|] eqn:Eo; simpl; [|done].
    apply Hauth in Eo as Heq. destruct Heq as (Hk & Hc & Hi). rewrite Hk, Hc, Hi, E in Eo.
    injection Eo as <-. done.
  - destruct (aead_open (ab (down p)) _ _ _) as [pt|] eqn:Eo; [|done].
    apply Hauth in Eo as (Hk & _). apply arr_eq in Hk. congruence.
Qed.

(** No two sessions share a key's domain, no two directions of a session, and no
    two frames of a direction a nonce. *)
Theorem front_contexts_are_unambiguous :
  (forall d d' i i', binding d i = binding d' i' -> d = d' /\ i = i') /\
  (forall a b, u64 a -> u64 b -> nonce_for a = nonce_for b -> a = b).
Proof. split; [exact binding_inj|exact nonce_for_inj]. Qed.
End Facts.

(** ** Witnesses *)

Import (hints) Toy.

Module FrontSessionExample.

Abbreviation XW := HybridExample.xwing.
Definition sid : arr SESSION_ID_LEN := be_arr SESSION_ID_LEN 7.

Definition opened : Result (Session * Hello) HybridError :=
  open_to (XW := XW) HybridExample.sk sid [x01].
Definition phone0 : Session :=
  match opened with Ok (p, _) => p | Err _ => mkSession (be_arr 32 0) (be_arr 32 0) sid Up 0 0 end.
Definition hello0 : Hello :=
  match opened with Ok (_, h) => h | Err _ => mkHello (be_arr _ 0) sid end.
Definition mailbox0 : Session :=
  match accept (XW := XW) HybridExample.sk hello0 with Ok b => b | Err _ => phone0 end.

Definition talk : list Turn :=
  [SayUp [x41]; SayUp [x42]; SayDown [x43]; HearUp; SayUp [x44]; HearDown; HearUp].

(** A cipher whose tag marks one key, nonce and session. *)
Definition keys : Session := mkSession (be_arr 32 1) (be_arr 32 2) sid Up 3 0.
Definition other_end : Session := mkSession (be_arr 32 1) (be_arr 32 2) sid Down 0 2.

Definition mark (key nonce aad : bytes) : bytes :=
  replicate 16 (if bool_decide (key = ab (be_arr 32 1) /\ nonce = nonce_for 3 /\ aad = ab sid)
                then x01 else x00).

Definition once : Aead := {|
  aead_seal key nonce aad msg := Some (msg ++ mark key nonce aad);
  aead_open key nonce aad ct :=
    if bool_decide (drop (length ct - 16) ct = mark key nonce aad)
    then Some (take (length ct - 16) ct) else None;
|}.

Lemma once_laws : AeadLaws once.
Proof.
  split; intros key nonce aad msg ct [= <-].
  - assert (length (mark key nonce aad) = 16%nat) as Hm by apply length_replicate.
    simpl. rewrite length_app, Hm, Nat.add_sub, take_app_length, drop_app_length.
    by rewrite bool_decide_eq_true_2.
  - rewrite zlen_app. unfold mark. by rewrite zlen_replicate.
Qed.
End FrontSessionExample.

Lemma front_session_is_in_order_witness :
  exists x, turns (duplex FrontSessionExample.phone0 FrontSessionExample.mailbox0)
              FrontSessionExample.talk = Some x /\
            heard_up x `prefix_of` said_up x /\ heard_up x = [[x41]; [x42]].
Proof.
  destruct (turns (duplex FrontSessionExample.phone0 FrontSessionExample.mailbox0)
    FrontSessionExample.talk) as [x|] eqn:E.
  - exists x. split; [reflexivity|]. split.
    + refine (proj1 (proj2 (front_session_is_in_order (XL := HybridExample.xwing_laws)
        HybridExample.sk FrontSessionExample.sid [x01] FrontSessionExample.phone0
        FrontSessionExample.hello0 FrontSessionExample.mailbox0 FrontSessionExample.talk x _ _ E)));
        reflexivity.
    + assert (option_map heard_up (turns (duplex FrontSessionExample.phone0
        FrontSessionExample.mailbox0) FrontSessionExample.talk) = Some [[x41]; [x42]]) as Hh
        by (vm_compute; reflexivity).
      rewrite E in Hh. by injection Hh.
  - exfalso. apply (f_equal (fun o => bool_decide (is_Some o))) in E. vm_compute in E. discriminate.
Defined.

Lemma only_the_next_frame_opens_witness :
  @open FrontSessionExample.once FrontSessionExample.other_end ([x41] ++ replicate 16 x01) =
    (Err BadCiphertext, FrontSessionExample.other_end).
Proof.
  refine (proj1 (proj2 (@only_the_next_frame_opens FrontSessionExample.once
    FrontSessionExample.once_laws FrontSessionExample.keys FrontSessionExample.other_end [x41]
    ([x41] ++ replicate 16 x01) (with_seal FrontSessionExample.keys 4) _ _ _ _ _ _ _)) _).
  - vm_compute. reflexivity.
  - reflexivity.
  - reflexivity.
  - vm_compute. discriminate.
  - vm_compute. split; [discriminate|reflexivity].
  - vm_compute. split; discriminate.
  - intros k n a pt. cbn [aead_open FrontSessionExample.once].
    destruct (bool_decide_reflect (drop (length ([x41] ++ replicate 16 x01) - 16)
      ([x41] ++ replicate 16 x01) = FrontSessionExample.mark k n a)) as [Hm|]; [|done].
    intros _. unfold FrontSessionExample.mark in Hm.
    destruct (bool_decide_reflect (k = ab (be_arr 32 1) /\ n = nonce_for 3 /\
      a = ab FrontSessionExample.sid)) as [Hk|]; [exact Hk|discriminate Hm].
  - vm_compute. discriminate.
Defined.
