(* ===== verification/FrontServer.v ===== *)
(** * The mailbox's end of a front's connection

    [run_front] of [crates/rotelyx-mailbox-server/src/main.rs].  One socket carries the
    sessions of many phones: the task that owns it opens the frames that come and seals
    those that go ([FrontSession]); each session runs as a task of its own, which is
    told requests and says replies over channels that hold so many and no more, and a
    second task carries what it says to the one queue of replies.  A step is one turn of
    one task; a task that sends on a full channel waits, and the first of them waits
    with every session behind it.  What a session answers a request with is an argument
    ([run_session] is [Server] and [ClientServer]), and so are base64 and the JSON. *)

From S2P Require Import Prelude Crypto Capability Hybrid.
From S2P Require FrontSession.
Import FrontSession (Hello, hello_from_bytes, SESSION_ID_LEN).

Definition MAX_SESSIONS : nat := 256.
Definition REPLIES : nat := 256.
Definition CHANNEL : nat := 64.

Abbreviation Id := (arr SESSION_ID_LEN).

Record FrontFrame := mkFrame { s : bytes; hello : option bytes; b : option bytes; close : bool }.

(** [serde_json] of a frame that comes, and of one that goes. *)
Class FrontJson := { parse_frame : bytes -> option FrontFrame; print_frame : bytes -> bytes -> bytes }.

Record FrontStream := mkStream { session : FrontSession.Session; to_session : nat; label : bytes }.

(** A session's task and the one that carries what it says.  [t_in] is what it has been
    told and has not read, [t_saying] what it has to say to what it read last, [t_out]
    what waits to be carried and [t_hand] what is being; [t_fed] says whether there is
    anybody left to tell it more.  [t_said] is a record of all it ever had to say. *)
Record Task (St : Type) := mkTask {
  t_id : Id;
  t_st : St;
  t_in : list bytes;
  t_saying : list bytes;
  t_out : list bytes;
  t_hand : option bytes;
  t_fed : bool;
  t_alive : bool;
  t_said : list bytes;
}.
Arguments mkTask {St}. Arguments t_id {St}. Arguments t_st {St}. Arguments t_in {St}. Arguments t_saying {St}.
Arguments t_out {St}. Arguments t_hand {St}. Arguments t_fed {St}. Arguments t_alive {St}. Arguments t_said {St}.

(** [socket_got] is the frames written, and [wrote] a record of them: of which session,
    what they say, and as they were sealed. *)
Record Front (St : Type) := mkFront {
  streams : gmap Id FrontStream;
  tasks : list (Task St);
  replies : list (Id * bytes);
  waiting : option (Id * bytes);
  up : bool;
  wrote : list (Id * bytes * bytes);
  socket_got : list bytes;
}.
Arguments mkFront {St}. Arguments streams {St}. Arguments tasks {St}. Arguments replies {St}.
Arguments waiting {St}. Arguments up {St}. Arguments wrote {St}. Arguments socket_got {St}.

Section FrontServer.
Context `{BL : Blake3, AE : Aead, XW : XWing, B64 : Base64, FJ : FrontJson}.
Context {St : Type} (begin_ : St) (serve : St -> bytes -> St * list bytes) (front_key : SecretKey).

Definition with_task (y : Front St) (n : nat) (t : Task St) : Front St :=
  mkFront (streams y) (<[n := t]> (tasks y)) (replies y) (waiting y) (up y) (wrote y) (socket_got y).

Definition with_streams (y : Front St) (m : gmap Id FrontStream) : Front St :=
  mkFront m (tasks y) (replies y) (waiting y) (up y) (wrote y) (socket_got y).

Definition unfed (t : Task St) : Task St :=
  mkTask (t_id t) (t_st t) (t_in t) (t_saying t) (t_out t) (t_hand t) false (t_alive t) (t_said t).

Definition told (t : Task St) (l : bytes) : Task St :=
  mkTask (t_id t) (t_st t) (t_in t ++ [l]) (t_saying t) (t_out t) (t_hand t) (t_fed t) (t_alive t) (t_said t).

(** [streams.remove]: the sender is dropped with it. *)
Definition forget (y : Front St) (i : Id) : Front St :=
  match streams y !! i with
  | None => y
  | Some x =>
      let y := with_streams y (delete i (streams y)) in
      match tasks y !! to_session x with Some t => with_task y (to_session x) (unfed t) | None => y end
  end.

(** A session begins: a task that has been told nothing. *)
Definition spawn (y : Front St) (i : Id) (session : FrontSession.Session) (l : bytes) : Front St :=
  mkFront (<[i := mkStream session (length (tasks y)) l]> (streams y))
    (tasks y ++ [mkTask i begin_ [] [] [] None true true []]) (replies y) (waiting y) (up y) (wrote y) (socket_got y).

(** [to_session.send]: what there is no room for is waited with. *)
Definition tell (y : Front St) (i : Id) (n : nat) (l : bytes) : Front St :=
  match tasks y !! n with
  | None => y
  | Some t =>
      if negb (t_alive t) then forget y i
      else if decide (length (t_in t) < CHANNEL)%nat then
        mkFront (streams y) (<[n := told t l]> (tasks y)) (replies y) None (up y) (wrote y) (socket_got y)
      else mkFront (streams y) (tasks y) (replies y) (Some (i, l)) (up y) (wrote y) (socket_got y)
  end.

Definition with_session (y : Front St) (i : Id) (x : FrontStream) (session : FrontSession.Session) : Front St :=
  with_streams y (<[i := mkStream session (to_session x) (label x)]> (streams y)).

Definition said_hello (y : Front St) (i : Id) (f : FrontFrame) (hello_b64 : bytes) : Front St :=
  if bool_decide (is_Some (streams y !! i)) || (MAX_SESSIONS <=? size (streams y))%nat then y
  else
    match (l ← b64_decode hello_b64; h ← rok (hello_from_bytes l); rok (FrontSession.accept front_key h)) with
    | None => y
    | Some session => spawn y i session (s f)
    end.

Definition said_body (y : Front St) (i : Id) (body_b64 : bytes) : Front St :=
  match b64_decode body_b64 with
  | None => y
  | Some sealed =>
      match streams y !! i with
      | None => y
      | Some x =>
          match FrontSession.open (session x) sealed with
          | (Err _, _) => forget y i
          | (Ok plaintext, session) =>
              let y := with_session y i x session in
              match from_utf8 plaintext with
              | None => forget y i
              | Some _ => tell y i (to_session x) plaintext
              end
          end
      end
  end.

(** A text frame that came. *)
Definition incoming (y : Front St) (text : bytes) : Front St :=
  match (f ← parse_frame text; l ← b64_decode (s f); i ← try_into SESSION_ID_LEN l; Some (f, i)) with
  | None => y
  | Some (f, i) =>
      if close f then forget y i
      else
        match hello f with
        | Some h => said_hello y i f h
        | None => match b f with None => y | Some body => said_body y i body end
        end
  end.

(** The socket is gone: the task returns, and what it owned is dropped. *)
Definition hang_up (y : Front St) : Front St := mkFront ∅ (unfed <$> tasks y) [] None false (wrote y) (socket_got y).

(** The next reply, sealed and written; [taken] says whether the socket takes it. *)
Definition reply (y : Front St) (taken : bool) : option (Front St) :=
  match replies y with
  | [] => None
  | (i, plaintext) :: rest =>
      let y := mkFront (streams y) (tasks y) rest (waiting y) (up y) (wrote y) (socket_got y) in
      match streams y !! i with
      | None => Some y
      | Some x =>
          match FrontSession.seal (session x) plaintext with
          | (Err _, session) => Some (forget (with_session y i x session) i)
          | (Ok sealed, session) =>
              let y := with_session y i x session in
              Some (if taken then
                      mkFront (streams y) (tasks y) (replies y) (waiting y) (up y) (wrote y ++ [(i, plaintext, sealed)])
                        (socket_got y ++ [print_frame (label x) (b64_encode sealed)])
                    else hang_up y)
          end
      end
  end.

(** ** Turns *)

Definition with_saying (t : Task St) (st : St) (rest : list bytes) (saying : list bytes) : Task St :=
  mkTask (t_id t) st rest saying (t_out t) (t_hand t) (t_fed t) (t_alive t) (t_said t ++ saying).

(** The session reads a request, or is woken, and has [saying] to say. *)
Definition reads (t : Task St) : option (Task St) :=
  match t_alive t, t_saying t, t_in t with
  | true, [], l :: rest => let '(st, saying) := serve (t_st t) l in Some (with_saying t st rest saying)
  | _, _, _ => None
  end.

Definition woken (t : Task St) (saying : list bytes) : option (Task St) :=
  match t_alive t, t_saying t with true, [] => Some (with_saying t (t_st t) (t_in t) saying) | _, _ => None end.

Definition says (t : Task St) : option (Task St) :=
  match t_saying t with
  | [] => None
  | m :: rest =>
      if decide (length (t_out t) < CHANNEL)%nat then
        Some (mkTask (t_id t) (t_st t) (t_in t) rest (t_out t ++ [m]) (t_hand t) (t_fed t) (t_alive t) (t_said t))
      else None
  end.

(** With nobody to tell it more, and nothing more to read. *)
Definition ends (t : Task St) : option (Task St) :=
  match t_alive t, t_fed t, t_saying t, t_in t with
  | true, false, [], [] => Some (mkTask (t_id t) (t_st t) [] [] (t_out t) (t_hand t) false false (t_said t))
  | _, _, _, _ => None
  end.

Definition carries (t : Task St) : option (Task St) :=
  match t_hand t, t_out t with
  | None, m :: rest => Some (mkTask (t_id t) (t_st t) (t_in t) (t_saying t) rest (Some m) (t_fed t) (t_alive t) (t_said t))
  | _, _ => None
  end.

Definition delivers (y : Front St) (n : nat) (t : Task St) : option (Front St) :=
  m ← t_hand t;
  if up y && bool_decide (length (replies y) < REPLIES)%nat then
    Some (mkFront (streams y)
      (<[n := mkTask (t_id t) (t_st t) (t_in t) (t_saying t) (t_out t) None (t_fed t) (t_alive t) (t_said t)]> (tasks y))
      (replies y ++ [(t_id t, m)]) (waiting y) (up y) (wrote y) (socket_got y))
  else None.

Inductive Event :=
| FrameCame (text : bytes)
| ReplyGoes (taken : bool)
| SocketEnds
| RoomAtLast
| Reads (n : nat)
| Woken (n : nat) (saying : list bytes)
| Says (n : nat)
| Ends (n : nat)
| Carries (n : nat)
| Delivers (n : nat).

(** The task of the socket does one thing at a time, and nothing while it waits. *)
Definition listening (y : Front St) : bool := up y && bool_decide (waiting y = None).

Definition step (y : Front St) (v : Event) : option (Front St) :=
  let on_task n (f : Task St -> option (Task St)) := t ← tasks y !! n; t ← f t; Some (with_task y n t) in
  match v with
  | FrameCame text => if listening y then Some (incoming y text) else None
  | ReplyGoes taken => if listening y then reply y taken else None
  | SocketEnds => if listening y then Some (hang_up y) else None
  | RoomAtLast =>
      '(i, l) ← waiting y;
      x ← streams y !! i;
      t ← tasks y !! to_session x;
      if decide (length (t_in t) < CHANNEL)%nat then Some (tell y i (to_session x) l) else None
  | Reads n => on_task n reads
  | Woken n saying => on_task n (fun t => woken t saying)
  | Says n => on_task n says
  | Ends n => on_task n ends
  | Carries n => on_task n carries
  | Delivers n => t ← tasks y !! n; delivers y n t
  end.

Fixpoint run (y : Front St) (vs : list Event) : option (Front St) :=
  match vs with [] => Some y | v :: vs => y ← step y v; run y vs end.

Definition started : Front St := mkFront ∅ [] [] None true [] [].
End FrontServer.

(** ** What is written under an id *)

Section Facts.
Context `{BL : Blake3, AE : Aead, XW : XWing, B64 : Base64, FJ : FrontJson}.
Context {St : Type} (begin_ : St) (serve : St -> bytes -> St * list bytes) (front_key : SecretKey).

Definition texts (i : Id) (y : Front St) : list bytes := (fun w => w.1.2) <$> filter (fun w => w.1.1 = i) (wrote y).
Definition sealed (i : Id) (y : Front St) : list bytes := (fun w => w.2) <$> filter (fun w => w.1.1 = i) (wrote y).
Definition queued (i : Id) (y : Front St) : list bytes := snd <$> filter (fun r => r.1 = i) (replies y).
Definition on_way (t : Task St) : list bytes := option_list (t_hand t) ++ t_out t ++ t_saying t.

(** The stream of a session as long as it is held: where its seal has got to, and that
    what its task said is written, queued or on its way. *)
Record live (y : Front St) (n : nat) (t : Task St) (s0 : FrontSession.Session) (x : FrontStream) : Prop := {
  lv_task : to_session x = n;
  lv_key : FrontSession.down (session x) = FrontSession.down s0;
  lv_id : FrontSession.session_id (session x) = FrontSession.session_id s0;
  lv_dir : FrontSession.seal_dir (session x) = FrontSession.Down;
  lv_counter : FrontSession.seal_counter (session x) = zlen (texts (t_id t) y);
  lv_said : t_said t = texts (t_id t) y ++ queued (t_id t) y ++ on_way t;
}.

Definition in_order (y : Front St) (n : nat) (t : Task St) : Prop :=
  texts (t_id t) y `prefix_of` t_said t /\
  exists s0 h, FrontSession.accept front_key h = Ok s0 /\
    FrontSession.carried (FrontSession.down s0) (FrontSession.session_id s0) 0 (sealed (t_id t) y) (texts (t_id t) y) /\
    forall x, streams y !! t_id t = Some x -> live y n t s0 x.

Definition unused (y : Front St) (i : Id) : Prop := forall n t, tasks y !! n = Some t -> t_id t <> i.

Record keeps_apart (y : Front St) : Prop := {
  ka_tasks n t : tasks y !! n = Some t -> in_order y n t;
  ka_streams i x : streams y !! i = Some x -> exists t, tasks y !! to_session x = Some t /\ t_id t = i;
  ka_unused i : unused y i -> texts i y = [] /\ queued i y = [];
}.

Lemma apart_started : keeps_apart started.
Proof. by split. Qed.

Lemma in_order_same y y' n t :
  texts (t_id t) y' = texts (t_id t) y -> sealed (t_id t) y' = sealed (t_id t) y -> queued (t_id t) y' = queued (t_id t) y ->
  (forall x, streams y' !! t_id t = Some x -> streams y !! t_id t = Some x) ->
  in_order y n t -> in_order y' n t.
Proof.
  intros Et Es Eq Hx [Hp (s0 & h & Ha & Hc & Hl)]. unfold in_order. rewrite Et, Es. split; [done|].
  exists s0, h. split; [done|]. split; [done|]. intros x [H1 H2 H3 H4 H5 H6]%Hx%Hl. by split; rewrite ?Et, ?Eq.
Qed.

(** A task that says more, has more to say, or passes on what it had. *)
Lemma apart_task y n t t' more :
  keeps_apart y -> tasks y !! n = Some t -> t_id t' = t_id t ->
  t_said t' = t_said t ++ more -> on_way t' = on_way t ++ more ->
  keeps_apart (with_task y n t').
Proof.
  intros [Ht Hs Hu] Hn Hid Hsaid Hway. split; cbn [with_task tasks streams].
  - intros k u [(<- & <- & _)|[Hne Hk]]%list_lookup_insert_Some; [|by apply (in_order_same y); [..|apply Ht]].
    destruct (Ht n t Hn) as [Hp (s0 & h & Ha & Hc & Hl)]. unfold in_order. rewrite Hid, Hsaid.
    split; [by apply prefix_app_r|]. exists s0, h. split; [done|]. split; [done|].
    intros x [H1 H2 H3 H4 H5 H6]%Hl. split; rewrite ?Hid, ?Hsaid, ?Hway; [done..|]. rewrite H6.
    change (texts (t_id t) (with_task y n t')) with (texts (t_id t) y).
    change (queued (t_id t) (with_task y n t')) with (queued (t_id t) y). by rewrite <- !app_assoc.
  - intros i x Hx. destruct (Hs i x Hx) as (u & Hk & Hi). destruct (decide (to_session x = n)) as [E|E].
    + exists t'. rewrite E, list_lookup_insert_eq by (by eapply lookup_lt_Some). split; [done|].
      rewrite E, Hn in Hk. injection Hk as <-. by rewrite Hid.
    + exists u. by rewrite list_lookup_insert_ne.
  - intros i Hi. apply Hu. intros k u Hk Hik. destruct (decide (k = n)) as [->|E].
    + rewrite Hn in Hk. injection Hk as <-. eapply (Hi n t'); [|by rewrite Hid].
      apply list_lookup_insert_eq. by eapply lookup_lt_Some.
    + eapply (Hi k u); [|done]. cbn. by rewrite list_lookup_insert_ne.
Qed.

(** Fewer streams, or the same with the seal where it was. *)
Lemma apart_streams y m :
  keeps_apart y ->
  (forall i x, m !! i = Some x -> exists x', streams y !! i = Some x' /\ to_session x = to_session x' /\
     exists k, session x = FrontSession.with_open (session x') k) ->
  keeps_apart (with_streams y m).
Proof.
  intros [Ht Hs Hu] Hm. split; cbn [with_streams tasks streams].
  - intros n t Hn. destruct (Ht n t Hn) as [Hp (s0 & h & Ha & Hc & Hl)]. split; [done|].
    exists s0, h. split; [done|]. split; [done|]. intros x (x' & Hx' & Hto & k & Hse)%Hm.
    destruct (Hl x' Hx') as [H1 H2 H3 H4 H5 H6]. by split; rewrite ?Hse, ?Hto.
  - intros i x (x' & Hx' & Hto & _)%Hm. rewrite Hto. by apply Hs.
  - done.
Qed.

Lemma apart_forget y i : keeps_apart y -> keeps_apart (forget y i).
Proof.
  intros Hk. unfold forget. destruct (streams y !! i) as [x|] eqn:E; [|done].
  assert (keeps_apart (with_streams y (delete i (streams y)))) as Hd.
  { apply apart_streams; [done|]. intros j u [_ Hj]%lookup_delete_Some. exists u. split; [done|]. split; [done|].
    exists (FrontSession.open_counter (session u)). by destruct (session u). }
  change (tasks (with_streams y (delete i (streams y)))) with (tasks y).
  destruct (tasks y !! to_session x) as [t|] eqn:Et; [|done].
  eapply (apart_task _ _ t (unfed t) []); [exact Hd|exact Et|done|..]; by rewrite app_nil_r.
Qed.

Lemma apart_spawn y i se l :
  keeps_apart y -> unused y i -> (exists h, FrontSession.accept front_key h = Ok se) ->
  keeps_apart (spawn begin_ y i se l).
Proof.
  intros [Ht Hs Hu] Hi [h Ha]. destruct (Hu i Hi) as [Et Eq]. split; cbn [spawn tasks streams].
  - intros n t Hn. apply lookup_app_Some in Hn as [Hn|[Hn E]].
    + apply (in_order_same y); [done..| |by apply Ht]. intros x. cbn. by rewrite lookup_insert_ne by (intros ->; by eapply Hi).
    + apply list_lookup_singleton_Some in E as [En <-]. assert (n = length (tasks y)) as -> by lia.
      assert (sealed i y = []) as Es.
      { unfold sealed, texts in *. apply fmap_nil_inv in Et. by rewrite Et. }
      unfold in_order. cbn [t_id]. change (texts i _) with (texts i y). change (sealed i _) with (sealed i y).
      rewrite Et, Es. split; [done|]. exists se, h. split; [done|]. split; [done|].
      intros x Hx. cbn in Hx. rewrite lookup_insert_eq in Hx. injection Hx as <-.
      assert (FrontSession.seal_dir se = FrontSession.Down /\ FrontSession.seal_counter se = 0) as [Hd Hc].
      { unfold FrontSession.accept in Ha. by injection Ha as <-. }
      split; cbn [t_id t_said session to_session]; try done.
      * change (texts i _) with (texts i y). by rewrite Et, Hc.
      * change (texts i _) with (texts i y). change (queued i _) with (queued i y). by rewrite Et, Eq.
  - intros j x [(<- & <-)|[Hne Hx]]%lookup_insert_Some.
    + eexists. cbn. by rewrite lookup_app_r, Nat.sub_diag.
    + destruct (Hs j x Hx) as (t & Hk & Hj). exists t. split; [|done]. by apply lookup_app_l_Some.
  - intros j Hj. apply Hu. intros n t Hn. eapply (Hj n t). by apply lookup_app_l_Some.
Qed.

Definition ids (y : Front St) : list Id := t_id <$> tasks y.

Lemma ids_lookup y n t : tasks y !! n = Some t -> ids y !! n = Some (t_id t).
Proof. intros H. unfold ids. by rewrite list_lookup_fmap, H. Qed.

Lemma filter_id_app {A} (f : A -> Id) i l x :
  filter (fun r => f r = i) (l ++ [x]) = filter (fun r => f r = i) l ++ (if decide (f x = i) then [x] else []).
Proof. rewrite filter_app. by rewrite filter_cons, filter_nil. Qed.

Lemma apart_delivers y n t y' :
  NoDup (ids y) -> keeps_apart y -> tasks y !! n = Some t -> delivers y n t = Some y' -> keeps_apart y'.
Proof.
  intros Hnd [Ht Hs Hu] Hn. unfold delivers. destruct (t_hand t) as [m|] eqn:Em; cbn; [|done].
  case_match; [|done]. intros [= <-].
  set (t' := mkTask _ _ _ _ _ _ _ _ _). set (y' := mkFront _ _ _ _ _ _ _).
  assert (forall i, queued i y' = queued i y ++ (if decide (t_id t = i) then [m] else [])) as Hq.
  { intros i. unfold queued, y'. cbn [replies]. rewrite (filter_id_app fst), fmap_app. cbn [fst]. by destruct (decide _). }
  assert (Hlt := lookup_lt_Some _ _ _ Hn). split.
  - intros k u Hk. cbn in Hk. apply list_lookup_insert_Some in Hk as [(<- & <- & _)|[Hne Hk]].
    + destruct (Ht n t Hn) as [Hp (s0 & h & Ha & Hc & Hl)]. split; [done|]. exists s0, h. split; [done|]. split; [done|].
      intros x [H1 H2 H3 H4 H5 H6]%Hl. split; try done. cbn [t_said t_id t']. rewrite H6.
      change (texts (t_id t) y') with (texts (t_id t) y). rewrite Hq, decide_True by done.
      unfold on_way. rewrite Em. cbn. by rewrite <- app_assoc.
    + apply (in_order_same y); [done..| |done|by apply Ht]. rewrite Hq, decide_False; [by rewrite app_nil_r|].
      intros E. apply Hne. eapply NoDup_lookup; [done|by apply ids_lookup|]. rewrite E. by apply ids_lookup.
  - intros i x Hx. destruct (Hs i x Hx) as (u & Hk & Hi). cbn. destruct (decide (to_session x = n)) as [E|E].
    + exists t'. rewrite E, list_lookup_insert_eq by done. split; [done|]. rewrite E, Hn in Hk. injection Hk as <-. done.
    + exists u. by rewrite list_lookup_insert_ne.
  - intros i Hi. assert (unused y i) as Hi'.
    { intros k u Hk Hik. destruct (decide (k = n)) as [->|E].
      - rewrite Hn in Hk. injection Hk as <-. eapply (Hi n t'); [|done]. cbn. by apply list_lookup_insert_eq.
      - eapply (Hi k u); [|done]. cbn. by rewrite list_lookup_insert_ne. }
    change (texts i y') with (texts i y). rewrite Hq, decide_False by (by eapply Hi'). rewrite app_nil_r. by apply Hu.
Qed.

Lemma apart_hang_up y y' :
  keeps_apart y -> tasks y' = tasks y -> wrote y' = wrote y -> keeps_apart (hang_up y').
Proof.
  intros [Ht Hs Hu] Et Ew. unfold hang_up. rewrite Et, Ew. split; cbn [tasks streams].
  - intros n t Hn. rewrite list_lookup_fmap in Hn. destruct (tasks y !! n) as [u|] eqn:E; [|done]. injection Hn as <-.
    destruct (Ht n u E) as [Hp (s0 & h & Ha & Hc & _)]. split; [done|]. exists s0, h. split; [done|]. by split.
  - done.
  - intros i Hi. split; [|done]. apply Hu. intros n t Hn. eapply (Hi n (unfed t)). cbn. by rewrite list_lookup_fmap, Hn.
Qed.

Definition popped (y : Front St) (rest : list (Id * bytes)) (m : gmap Id FrontStream) : Front St :=
  mkFront m (tasks y) rest (waiting y) (up y) (wrote y) (socket_got y).

Lemma queued_cons y i p rest j :
  replies y = (i, p) :: rest -> queued j y = (if decide (i = j) then [p] else []) ++ (snd <$> filter (fun r => r.1 = j) rest).
Proof. intros E. unfold queued. rewrite E, filter_cons. cbn [fst]. by destruct (decide (i = j)). Qed.

Lemma apart_popped y i p rest :
  keeps_apart y -> replies y = (i, p) :: rest -> keeps_apart (popped y rest (delete i (streams y))).
Proof.
  intros [Ht Hs Hu] E. split; cbn [popped tasks streams].
  - intros n t Hn. destruct (Ht n t Hn) as [Hp (s0 & h & Ha & Hc & Hl)]. split; [done|].
    exists s0, h. split; [done|]. split; [done|]. cbn [popped streams]. intros x [Hne Hx]%lookup_delete_Some.
    destruct (Hl x Hx) as [H1 H2 H3 H4 H5 H6]. split; try done. rewrite H6. f_equal. f_equal.
    rewrite (queued_cons _ _ _ _ _ E). by rewrite decide_False.
  - intros j x [_ Hx]%lookup_delete_Some. by apply Hs.
  - intros j Hj. destruct (Hu j Hj) as [H1 H2]. split; [done|]. rewrite (queued_cons _ _ _ _ _ E) in H2.
    by apply app_nil in H2 as [_ ?].
Qed.

Lemma apart_unfed y n t : keeps_apart y -> tasks y !! n = Some t -> keeps_apart (with_task y n (unfed t)).
Proof. intros Hk Ht. eapply (apart_task _ _ t (unfed t) []); [done..|by rewrite app_nil_r|by rewrite app_nil_r]. Qed.

Lemma apart_sealed y i p rest x ct se :
  keeps_apart y -> replies y = (i, p) :: rest -> streams y !! i = Some x -> FrontSession.seal (session x) p = (Ok ct, se) ->
  forall got, keeps_apart
    (mkFront (<[i := mkStream se (to_session x) (label x)]> (streams y)) (tasks y) rest (waiting y) (up y)
       (wrote y ++ [(i, p, ct)]) got).
Proof.
  intros [Ht Hs Hu] E Hx Hse got. set (y' := mkFront _ _ _ _ _ _ _).
  assert (forall j, texts j y' = texts j y ++ (if decide (i = j) then [p] else [])) as Et.
  { intros j. unfold texts, y'. cbn [wrote]. rewrite (filter_id_app (fun w => w.1.1)), fmap_app. cbn [fst]. by destruct (decide _). }
  assert (forall j, sealed j y' = sealed j y ++ (if decide (i = j) then [ct] else [])) as Es.
  { intros j. unfold sealed, y'. cbn [wrote]. rewrite (filter_id_app (fun w => w.1.1)), fmap_app. cbn [fst]. by destruct (decide _). }
  assert (forall j, queued j y = (if decide (i = j) then [p] else []) ++ queued j y') as Eq
    by (intros j; by rewrite (queued_cons _ _ _ _ _ E)).
  split; cbn [tasks streams y'].
  - intros n t Hn. destruct (decide (i = t_id t)) as [->|Hne].
    + destruct (Ht n t Hn) as [Hp (s0 & h & Ha & Hc & Hl)]. destruct (Hl x Hx) as [H1 H2 H3 H4 H5 H6].
      unfold FrontSession.seal in Hse. destruct (aead_seal _ _ _ _) as [ct'|] eqn:Ec; [|done].
      destruct (checked_add64 _ 1) as [k|] eqn:Ek; [|done]. injection Hse as -> <-.
      unfold in_order. rewrite Et, Es, !decide_True by done. split.
      { rewrite H6, (Eq (t_id t)), decide_True by done. rewrite !app_assoc. by do 2 apply prefix_app_r. }
      exists s0, h. split; [done|]. split.
      { apply FrontSession.carried_snoc; [done|]. unfold FrontSession.seal_key in Ec. rewrite H4, H2, H3, H5 in Ec.
        rewrite <- Ec. do 2 f_equal. unfold zlen. by rewrite (FrontSession.carried_length _ _ _ _ _ Hc). }
      intros x' Hx'. cbn in Hx'. rewrite lookup_insert_eq in Hx'. injection Hx' as <-.
      split; cbn [session to_session FrontSession.with_seal FrontSession.down FrontSession.session_id FrontSession.seal_dir
        FrontSession.seal_counter]; try done.
      * rewrite Et, decide_True, zlen_app by done. unfold checked_add64 in Ek. case_match; [|done]. injection Ek as <-. by rewrite H5.
      * rewrite Et, decide_True by done. rewrite H6, (Eq (t_id t)), decide_True by done. by rewrite <- !app_assoc.
    + apply (in_order_same y); [..|by apply Ht].
      * by rewrite Et, decide_False, app_nil_r.
      * by rewrite Es, decide_False, app_nil_r.
      * by rewrite (Eq (t_id t)), decide_False.
      * intros u. cbn. by rewrite lookup_insert_ne.
  - intros j u [(<- & <-)|[Hne Hj]]%lookup_insert_Some; [by apply (Hs i x)|by apply Hs].
  - intros j Hj. destruct (Hu j Hj) as [H1 H2]. rewrite (Eq j) in H2. apply app_nil in H2 as [H2 H3].
    rewrite Et, H1. by destruct (decide (i = j)).
Qed.

Lemma apart_reply y taken y' : keeps_apart y -> reply y taken = Some y' -> keeps_apart y'.
Proof.
  intros Hk. unfold reply. destruct (replies y) as [|[i p] rest] eqn:E; [done|]. cbn [streams].
  pose proof (apart_popped y i p rest Hk E) as Hpop.
  destruct (streams y !! i) as [x|] eqn:Ex.
  2:{ intros [= <-]. unfold popped in Hpop. by rewrite delete_id in Hpop. }
  destruct (FrontSession.seal (session x) p) as [[ct|e] se] eqn:Ese.
  - intros [= <-]. destruct taken; [by apply (apart_sealed y i p rest x ct se)|by apply (apart_hang_up y)].
  - intros [= <-]. unfold forget, with_session. cbn [with_streams streams]. rewrite lookup_insert_eq.
    rewrite delete_insert_eq. unfold with_streams. cbn [tasks replies waiting up wrote socket_got to_session].
    destruct (tasks y !! to_session x) as [t|] eqn:Et; [|exact Hpop].
    apply (apart_unfed (popped y rest (delete i (streams y))) _ t Hpop Et).
Qed.

Lemma apart_same y y' :
  streams y' = streams y -> tasks y' = tasks y -> replies y' = replies y -> wrote y' = wrote y ->
  keeps_apart y -> keeps_apart y'.
Proof.
  intros Es Et Er Ew [Ht Hs Hu].
  assert (forall i, texts i y' = texts i y /\ sealed i y' = sealed i y /\ queued i y' = queued i y) as Hsame
    by (intros i; unfold texts, sealed, queued; by rewrite Ew, Er).
  split; rewrite ?Es, ?Et.
  - intros n t Hn. destruct (Hsame (t_id t)) as (H1 & H2 & H3). apply (in_order_same y); try done; [by rewrite Es|by apply Ht].
  - done.
  - intros i Hi. destruct (Hsame i) as (H1 & _ & H3). rewrite H1, H3. apply Hu. intros n t Hn. apply (Hi n). by rewrite Et.
Qed.

Lemma apart_tell y i n l : keeps_apart y -> keeps_apart (tell y i n l).
Proof.
  intros Hk. unfold tell. destruct (tasks y !! n) as [t|] eqn:Et; [|done].
  destruct (t_alive t); [|by apply apart_forget]. cbn [negb]. destruct (decide _).
  - apply (apart_same (with_task y n (told t l))); [done..|].
    eapply (apart_task _ _ t (told t l) []); [done..|by rewrite app_nil_r|by rewrite app_nil_r].
  - by apply (apart_same y).
Qed.

Lemma apart_body y i body : keeps_apart y -> keeps_apart (said_body y i body).
Proof.
  intros Hk. unfold said_body. destruct (b64_decode body); [|done]. destruct (streams y !! i) as [x|] eqn:Ex; [|done].
  destruct (FrontSession.open _ _) as [[plain|e] se] eqn:Eo; [|by apply apart_forget].
  assert (keeps_apart (with_session y i x se)) as Hs.
  { apply apart_streams; [done|]. intros j u [(<- & <-)|[Hne Hj]]%lookup_insert_Some.
    - exists x. split; [done|]. split; [done|]. unfold FrontSession.open in Eo. repeat case_match; try done.
      injection Eo as _ <-. by eexists.
    - exists u. split; [done|]. split; [done|]. exists (FrontSession.open_counter (session u)). by destruct (session u). }
  destruct (from_utf8 plain); [by apply apart_tell|by apply apart_forget].
Qed.

Lemma ids_task y n t t' : tasks y !! n = Some t -> t_id t' = t_id t -> ids (with_task y n t') = ids y.
Proof.
  intros Hn Hi. unfold ids, with_task. cbn [tasks]. rewrite list_fmap_insert, Hi. apply list_insert_id.
  by apply ids_lookup in Hn.
Qed.

Lemma ids_forget y i : ids (forget y i) = ids y.
Proof.
  unfold forget. destruct (streams y !! i) as [x|]; [|done].
  change (tasks (with_streams y (delete i (streams y)))) with (tasks y).
  destruct (tasks y !! to_session x) as [t|] eqn:Et; [|done]. by apply (ids_task (with_streams y _) _ t).
Qed.

Lemma ids_tell y i n l : ids (tell y i n l) = ids y.
Proof.
  unfold tell. destruct (tasks y !! n) as [t|] eqn:Et; [|done]. case_match; [apply ids_forget|].
  case_match; [|done]. by apply (ids_task y n t).
Qed.

Lemma ids_body y i body : ids (said_body y i body) = ids y.
Proof.
  unfold said_body. repeat case_match; try done; rewrite ?ids_tell, ?ids_forget; done.
Qed.

Lemma incoming_apart y text :
  let y' := incoming begin_ front_key y text in
  ids y `prefix_of` ids y' /\ (NoDup (ids y') -> keeps_apart y -> keeps_apart y').
Proof.
  cbv zeta. unfold incoming. destruct (_ ≫= _) as [[f i]|]; [|done].
  destruct (close f); [rewrite ids_forget; by split; [|intros _; apply apart_forget]|].
  destruct (hello f) as [h|].
  - unfold said_hello. case_match; [done|]. destruct (_ ≫= _) as [se|] eqn:Ese; [|done].
    assert (ids (spawn begin_ y i se (s f)) = ids y ++ [i]) as ->
      by (unfold ids, spawn; cbn [tasks]; by rewrite fmap_app).
    split; [by apply prefix_app_r|]. intros [_ [Hni _]]%NoDup_app Hk. apply apart_spawn; [done| |].
    + intros n t Hn Hi. apply (Hni i); [|by left]. rewrite <- Hi. apply list_elem_of_lookup. exists n. by apply ids_lookup.
    + apply bind_Some in Ese as (l & _ & (hl & _ & Ha)%bind_Some). exists hl. by destruct (FrontSession.accept _ _); [injection Ha as ->|].
  - destruct (b f); [|done]. rewrite ids_body. split; [done|]. intros _. apply apart_body.
Qed.

Lemma ids_reply y taken y' : reply y taken = Some y' -> ids y' = ids y.
Proof.
  unfold reply. destruct (replies y) as [|[i p] rest]; [done|]. cbv zeta. cbn [streams].
  destruct (streams y !! i); [|by intros [= <-]]. destruct (FrontSession.seal _ _) as [[ct|e] se].
  - intros [= <-]. destruct taken; [done|]. unfold ids, hang_up. cbn [tasks]. rewrite <- list_fmap_compose. done.
  - intros [= <-]. by rewrite ids_forget.
Qed.

(** What a session's own turn leaves of it. *)
Definition passes (t t' : Task St) : Prop :=
  t_id t' = t_id t /\ exists more, t_said t' = t_said t ++ more /\ on_way t' = on_way t ++ more.

Lemma passes_nothing t t' : t_id t' = t_id t -> t_said t' = t_said t -> on_way t' = on_way t -> passes t t'.
Proof. intros H1 H2 H3. split; [done|]. exists []. by rewrite H2, H3, !app_nil_r. Qed.

Lemma passes_says t st rest saying : t_saying t = [] -> passes t (with_saying t st rest saying).
Proof. intros E. split; [done|]. exists saying. split; [done|]. unfold on_way. cbn. rewrite E. by rewrite <- !app_assoc. Qed.

Lemma reads_passes t t' : reads serve t = Some t' -> passes t t'.
Proof.
  unfold reads. destruct (t_alive t); [|done]. destruct (t_saying t) eqn:E; [|done]. destruct (t_in t); [done|].
  destruct (serve _ _). intros [= <-]. by apply passes_says.
Qed.

Lemma woken_passes t saying t' : woken t saying = Some t' -> passes t t'.
Proof. unfold woken. destruct (t_alive t); [|done]. destruct (t_saying t) eqn:E; [|done]. intros [= <-]. by apply passes_says. Qed.

Lemma says_passes t t' : says t = Some t' -> passes t t'.
Proof.
  unfold says. destruct (t_saying t) eqn:E; [done|]. destruct (decide _); [|done]. intros [= <-].
  apply passes_nothing; [done..|]. unfold on_way. cbn. by rewrite E, <- app_assoc.
Qed.

Lemma ends_passes t t' : ends t = Some t' -> passes t t'.
Proof.
  unfold ends. destruct (t_alive t), (t_fed t), (t_saying t) eqn:E, (t_in t); try done. intros [= <-].
  apply passes_nothing; [done..|]. unfold on_way. cbn. by rewrite E.
Qed.

Lemma carries_passes t t' : carries t = Some t' -> passes t t'.
Proof.
  unfold carries. destruct (t_hand t) eqn:E, (t_out t) eqn:Eo; try done. intros [= <-].
  apply passes_nothing; [done..|]. unfold on_way. cbn. by rewrite E, Eo.
Qed.

Lemma apart_passes y n t t' :
  tasks y !! n = Some t -> passes t t' ->
  ids y `prefix_of` ids (with_task y n t') /\ (keeps_apart y -> keeps_apart (with_task y n t')).
Proof.
  intros Hn (Hi & more & H1 & H2). rewrite (ids_task y n t) by done. split; [done|]. intros Hk. by apply (apart_task y n t t' more).
Qed.

Lemma step_apart y v y' :
  step begin_ serve front_key y v = Some y' -> ids y `prefix_of` ids y' /\ (NoDup (ids y') -> keeps_apart y -> keeps_apart y').
Proof.
  assert (forall n (f : Task St -> option (Task St)), (forall t t', f t = Some t' -> passes t t') ->
    (t ← tasks y !! n; t ← f t; Some (with_task y n t)) = Some y' ->
    ids y `prefix_of` ids y' /\ (NoDup (ids y') -> keeps_apart y -> keeps_apart y')) as Htask.
  { intros n f Hf (t & Hn & (t' & Ht & [= <-])%bind_Some)%bind_Some.
    destruct (apart_passes y n t t' Hn (Hf t t' Ht)) as [H1 H2]. split; [done|]. by intros _. }
  destruct v as [text|taken| | |n|n saying|n|n|n|n]; cbn [step].
  - case_match; [|done]. intros [= <-]. apply incoming_apart.
  - case_match; [|done]. intros Hr. rewrite (ids_reply _ _ _ Hr). split; [done|]. intros _ Hk. by eapply apart_reply.
  - case_match; [|done]. intros [= <-]. split; [|intros _ Hk; by apply (apart_hang_up y)].
    unfold ids, hang_up. cbn [tasks]. by rewrite <- list_fmap_compose.
  - intros ([i l] & _ & (x & _ & (t & _ & Hy)%bind_Some)%bind_Some)%bind_Some. case_match; [|done]. injection Hy as <-.
    rewrite ids_tell. split; [done|]. intros _. apply apart_tell.
  - apply Htask, reads_passes.
  - apply Htask. intros t t'. apply woken_passes.
  - apply Htask, says_passes.
  - apply Htask, ends_passes.
  - apply Htask, carries_passes.
  - intros (t & Hn & Hd)%bind_Some.
    assert (ids y' = ids y) as E.
    { unfold delivers in Hd. apply bind_Some in Hd as (m & _ & Hd). case_match; [|done]. injection Hd as <-.
      by apply (ids_task (mkFront (streams y) (tasks y) (replies y ++ [(t_id t, m)]) (waiting y) (up y) (wrote y) (socket_got y)) n t). }
    rewrite E. split; [done|]. intros Hnd Hk. by eapply apart_delivers.
Qed.

Lemma run_apart vs : forall y y',
  run begin_ serve front_key y vs = Some y' -> ids y `prefix_of` ids y' /\ (NoDup (ids y') -> keeps_apart y -> keeps_apart y').
Proof.
  induction vs as [|v vs IH]; intros y y'; cbn [run]; [by intros [= <-]|].
  intros (y1 & Hs & Hr)%bind_Some. destruct (step_apart _ _ _ Hs) as [P1 K1]. destruct (IH _ _ Hr) as [P2 K2].
  split; [by etrans|]. intros Hnd Hk. apply K2; [done|]. apply K1; [|done].
  destruct P2 as [k E]. rewrite E in Hnd. by apply NoDup_app in Hnd as [? _].
Qed.

(** Opening one frame after the other. *)
Fixpoint hears (p : FrontSession.Session) (cts : list bytes) : option (list bytes) :=
  match cts with
  | [] => Some []
  | ct :: cts => match FrontSession.open p ct with (Ok m, p) => ms ← hears p cts; Some (m :: ms) | (Err _, _) => None end
  end.

Lemma carried_heard `{AL : !AeadLaws AE} k i cts : forall p n ms,
  FrontSession.open_key p = k -> FrontSession.session_id p = i -> FrontSession.open_counter p = n ->
  0 <= n -> n + zlen cts <= u64_max -> FrontSession.carried k i n cts ms -> hears p cts = Some ms.
Proof.
  induction cts as [|ct cts IH]; intros p n [|m ms] Hk Hi Hn H0 Hb; try done. intros [Hs Hc]. cbn [hears].
  rewrite zlen_cons in Hb. pose proof (zlen_nonneg cts). unfold FrontSession.open. rewrite Hk, Hi, Hn, (aead_open_seal _ _ _ _ _ Hs).
  unfold checked_add64. rewrite (proj2 (Z.leb_le _ _)) by lia.
  rewrite (IH (FrontSession.with_open p (n + 1)) (n + 1) ms); [done|by destruct p|by destruct p|done|lia|lia|done].
Qed.

(** C13: phones behind one front do not hear one another, and miss nothing in the middle.
    While no id is opened twice on the connection, and whatever the order in which its
    tasks take their turns, what was written under the id of a session is a beginning of
    what that session's own task had to say, in its order, and it was sealed in order
    under the one session its hello began: a phone that holds the other end of it
    opens exactly that. *)
Theorem a_front_keeps_sessions_apart `{AL : !AeadLaws AE} vs y n t :
  run begin_ serve front_key started vs = Some y -> NoDup (ids y) -> tasks y !! n = Some t ->
  texts (t_id t) y `prefix_of` t_said t /\
  exists s0 hello, FrontSession.accept front_key hello = Ok s0 /\
    forall p, FrontSession.open_key p = FrontSession.down s0 -> FrontSession.session_id p = FrontSession.session_id s0 ->
      FrontSession.open_counter p = 0 -> zlen (sealed (t_id t) y) <= u64_max ->
      hears p (sealed (t_id t) y) = Some (texts (t_id t) y).
Proof.
  intros Hr Hnd Hn. destruct (run_apart _ _ _ Hr) as [_ Hk]. specialize (Hk Hnd apart_started).
  destruct (ka_tasks _ Hk n t Hn) as [Hp (s0 & h & Ha & Hc & _)]. split; [done|]. exists s0, h. split; [done|].
  intros p Ek Ei Ec Hb. by apply (carried_heard _ _ _ p 0 _ Ek Ei Ec).
Qed.

(** ** An id that is opened again *)

(** An id opened again hears what its last session was told.  A reply that is still
    on its way when the front closes a session, and opens one of its own making under
    the same id, is sealed to the front: the relay between phones and the mailbox reads
    what the mailbox answered a phone. *)
Theorem an_id_opened_again_hears_the_last y i x m rest t_close t_hello l f f' hl h s' ct :
  listening y = true -> streams y !! i = Some x -> (size (streams y) <= MAX_SESSIONS)%nat -> replies y = (i, m) :: rest ->
  parse_frame t_close = Some f -> close f = true -> s f = l -> b64_decode l = Some (ab i) ->
  parse_frame t_hello = Some f' -> close f' = false -> s f' = l -> hello f' = Some hl ->
  (k ← b64_decode hl; rok (hello_from_bytes k)) = Some h -> FrontSession.accept front_key h = Ok s' ->
  (FrontSession.seal s' m).1 = Ok ct ->
  exists y', run begin_ serve front_key y [FrameCame t_close; FrameCame t_hello; ReplyGoes true] = Some y' /\
    wrote y' = wrote y ++ [(i, m, ct)] /\ socket_got y' = socket_got y ++ [print_frame l (b64_encode ct)].
Proof.
  intros Hl Hx Hsz Hr P1 C1 S1 B1 P2 C2 S2 H2 Hh Ha Hs. cbn [run step]. rewrite Hl. cbn [mbind option_bind].
  assert (incoming begin_ front_key y t_close = forget y i) as ->.
  { unfold incoming. rewrite P1. cbn [mbind option_bind]. rewrite S1, B1. cbn [mbind option_bind]. rewrite try_into_ab. cbn [mbind option_bind]. by rewrite C1. }
  assert (listening (forget y i) = true /\ streams (forget y i) = delete i (streams y) /\ wrote (forget y i) = wrote y /\
    replies (forget y i) = replies y /\ socket_got (forget y i) = socket_got y) as (Hl1 & Es1 & Ew1 & Er1 & Eg1).
  { unfold forget. rewrite Hx. unfold listening in *. cbn [with_streams tasks streams].
    by destruct (tasks y !! to_session x). }
  rewrite Hl1. set (y1 := forget y i) in *.
  assert (incoming begin_ front_key y1 t_hello = spawn begin_ y1 i s' l) as ->.
  { unfold incoming. rewrite P2. cbn [mbind option_bind]. rewrite S2, B1. cbn [mbind option_bind]. rewrite try_into_ab.
    cbn [mbind option_bind]. rewrite C2, H2. unfold said_hello. rewrite Es1, lookup_delete_eq.
    rewrite bool_decide_eq_false_2 by (by intros [? ?]). cbn [orb].
    rewrite (proj2 (Nat.leb_gt _ _)).
    - destruct (b64_decode hl) as [k|]; [|done]. cbn [mbind option_bind] in Hh |- *. rewrite Hh. cbn [mbind option_bind]. by rewrite Ha, S2.
    - rewrite map_size_delete_Some by done. assert (0 < size (streams y))%nat; [|lia].
      enough (size (streams y) <> 0%nat) by lia. intros Hz. apply map_size_empty_inv in Hz. by rewrite Hz in Hx. }
  cbn [mbind option_bind]. assert (listening (spawn begin_ y1 i s' l) = true) as -> by exact Hl1. unfold reply, spawn. cbn [replies streams].
  rewrite Er1, Hr, lookup_insert_eq. cbn [session]. destruct (FrontSession.seal s' m) as [r se]. cbn in Hs. subst r.
  cbn [mbind option_bind]. eexists. split; [done|]. cbn. by rewrite Ew1, Eg1.
Qed.

(** ** A connection that stands still *)

(** The task of the socket waits to tell a session something, the session to say
    something, what it said to be carried, and what is carried for the task of the
    socket. *)
Record stalled (y : Front St) : Prop := {
  st_full : (REPLIES <= length (replies y))%nat;
  st_waits : exists i l x t m saying hand, waiting y = Some (i, l) /\ streams y !! i = Some x /\
    tasks y !! to_session x = Some t /\ (CHANNEL <= length (t_in t))%nat /\ (CHANNEL <= length (t_out t))%nat /\
    t_saying t = m :: saying /\ t_hand t = Some hand;
}.

Definition is_stalled (y : Front St) : bool :=
  (REPLIES <=? length (replies y))%nat &&
  match ('(i, _) ← waiting y; x ← streams y !! i; tasks y !! to_session x) with
  | None => false
  | Some t =>
      (CHANNEL <=? length (t_in t))%nat && (CHANNEL <=? length (t_out t))%nat &&
      match t_saying t, t_hand t with _ :: _, Some _ => true | _, _ => false end
  end.

Lemma is_stalled_holds y : is_stalled y = true -> stalled y.
Proof.
  unfold is_stalled. intros [Hr H]%andb_prop. apply Nat.leb_le in Hr. split; [done|].
  destruct (waiting y) as [[i l]|] eqn:Ew; cbn [mbind option_bind] in H; [|done].
  destruct (streams y !! i) as [x|] eqn:Ex; cbn [mbind option_bind] in H; [|done]. destruct (tasks y !! to_session x) as [t|] eqn:Et; [|done].
  apply andb_prop in H as [[Hi%Nat.leb_le Ho%Nat.leb_le]%andb_prop H].
  destruct (t_saying t) as [|m saying] eqn:Es; [done|]. destruct (t_hand t) as [hand|] eqn:Eh; [|done].
  by exists i, l, x, t, m, saying, hand.
Qed.

Lemma stalled_task y n (f : Task St -> option (Task St)) y' :
  (forall t, (CHANNEL <= length (t_in t))%nat -> (CHANNEL <= length (t_out t))%nat -> t_saying t <> [] -> t_hand t <> None -> f t = None) ->
  stalled y -> (t ← tasks y !! n; t ← f t; Some (with_task y n t)) = Some y' ->
  stalled y' /\ wrote y' = wrote y /\ streams y' = streams y.
Proof.
  intros Hf [Hr (i & l & x & t & m & saying & hand & Hw & Hx & Ht & H1 & H2 & H3 & H4)].
  intros (u & Hn & (u' & Hu & [= <-])%bind_Some)%bind_Some. split; [|done]. split; [done|].
  exists i, l, x, t, m, saying, hand. split; [done|]. split; [done|]. split; [|done].
  cbn. rewrite list_lookup_insert_ne; [done|]. intros ->. rewrite Hn in Ht. injection Ht as ->.
  by rewrite Hf in Hu by (done || congruence).
Qed.

Lemma stalled_step y v y' :
  stalled y -> step begin_ serve front_key y v = Some y' -> stalled y' /\ wrote y' = wrote y /\ streams y' = streams y.
Proof.
  intros Hst. pose proof Hst as [Hr (i & l & x & t & m & saying & hand & Hw & Hx & Ht & H1 & H2 & H3 & H4)].
  assert (listening y = false) as Hl by (unfold listening; rewrite Hw; apply andb_false_r).
  destruct v as [text|taken| | |n|n ms|n|n|n|n]; cbn [step]; rewrite ?Hl; try done.
  - rewrite Hw. cbn. rewrite Hx. cbn. rewrite Ht. cbn. by rewrite decide_False by (unfold CHANNEL in *; lia).
  - apply stalled_task; [|done]. intros u _ _ Hs _. unfold reads. by destruct (t_alive u), (t_saying u).
  - apply stalled_task; [|done]. intros u _ _ Hs _. unfold woken. by destruct (t_alive u), (t_saying u).
  - apply stalled_task; [|done]. intros u _ Ho _ _. unfold says. destruct (t_saying u); [done|].
    by rewrite decide_False by (unfold CHANNEL in *; lia).
  - apply stalled_task; [|done]. intros u _ _ Hs _. unfold ends. by destruct (t_alive u), (t_fed u), (t_saying u).
  - apply stalled_task; [|done]. intros u _ _ _ Hh. unfold carries. by destruct (t_hand u).
  - intros (u & _ & Hd)%bind_Some. unfold delivers in Hd. apply bind_Some in Hd as (k & _ & Hd).
    rewrite bool_decide_eq_false_2, andb_false_r in Hd; [done|]. unfold REPLIES in *. lia.
Qed.

(** A connection that has once come to stand still stands still for ever, with all
    of its sessions: nothing is written for any of them again, whatever comes and
    whichever of its tasks take a turn. *)
Theorem a_stalled_front_stays y vs y' :
  stalled y -> run begin_ serve front_key y vs = Some y' -> stalled y' /\ wrote y' = wrote y /\ streams y' = streams y.
Proof.
  revert y. induction vs as [|v vs IH]; intros y Hy; cbn [run]; [by intros [= <-]|].
  intros (y1 & Hs & Hr)%bind_Some. destruct (stalled_step _ _ _ Hy Hs) as (H1 & H2 & H3).
  destruct (IH _ H1 Hr) as (H4 & H5 & H6). split; [done|]. split; congruence.
Qed.
End Facts.

(** ** A connection with two sessions on it *)

Import (hints) Toy.
#[local] Existing Instance HybridExample.xwing.

Module FrontServerExample.
Import FrontSession.FrontSessionExample.

#[export] Instance b64 : Base64 := {| b64_decode := Some; b64_encode := fun l => l |}.

#[export] Instance Hello_eq_dec : EqDecision Hello.
Proof. solve_decision. Defined.

(** A frame as its kind, its eight bytes of id and what else it holds. *)
#[export] Instance json : FrontJson := {|
  parse_frame l :=
    match l with
    | x01 :: l => Some (mkFrame (take 8 l) (Some (drop 8 l)) None false)
    | x02 :: l => Some (mkFrame (take 8 l) None (Some (drop 8 l)) false)
    | x03 :: l => Some (mkFrame (take 8 l) None None true)
    | _ => None
    end;
  print_frame l sealed := l ++ sealed;
|}.

Definition id1 : Id := be_arr SESSION_ID_LEN 1.
Definition id2 : Id := be_arr SESSION_ID_LEN 2.

Definition hello_frame (i : Id) (h : Hello) : bytes := x01 :: ab i ++ FrontSession.hello_to_bytes h.
Definition body_frame (i : Id) (ct : bytes) : bytes := x02 :: ab i ++ ct.
Definition close_frame (i : Id) : bytes := x03 :: ab i.

(** What a phone seals, the same letter over and over. *)
Fixpoint asks (n : nat) (p : FrontSession.Session) : list bytes :=
  match n with
  | O => []
  | S n => match FrontSession.seal p [x41] with (Ok ct, p) => ct :: asks n p | (Err _, _) => [] end
  end.

(** A session that says back what it is told. *)
Definition echo (st : unit) (l : bytes) : unit * list bytes := (tt, [l]).

Definition go : list Event -> option (Front unit) := run tt echo HybridExample.sk started.

Definition greet : list Event := [FrameCame (hello_frame id1 hello0); FrameCame (hello_frame id2 hello0)].

Definition ask (i : Id) (ct : bytes) (vs : list Event) : list Event := FrameCame (body_frame i ct) :: vs.
Definition first_ask : bytes := default [] (head (asks 1 phone0)).

Definition both : list Event :=
  greet ++ ask id1 first_ask [] ++ ask id2 first_ask [Woken 1 []; Reads 1; Reads 0; Says 1; Says 0; Carries 0; Carries 1;
    Delivers 1; Delivers 0; ReplyGoes true; ReplyGoes true].

(** A session has a few hundred envelopes to hand over, and its phone goes on asking. *)
Definition flood : list Event :=
  [FrameCame (hello_frame id1 hello0); Woken 0 (replicate 322 [])] ++
  concat (replicate 256 [Says 0; Carries 0; Delivers 0]) ++ [Says 0; Carries 0] ++ replicate 64 (Says 0) ++
  ((fun ct => FrameCame (body_frame id1 ct)) <$> asks 65 phone0).

(** The front's own session, and a connection with an answer on its way to a phone. *)
Definition answered : Front unit :=
  default started (go ([FrameCame (hello_frame id1 hello0)] ++ ask id1 first_ask [Reads 0; Says 0; Carries 0; Delivers 0])).
Definition fronts_own : Hello :=
  match FrontSession.open_to (XW := HybridExample.xwing) HybridExample.sk sid [x02] with Ok (_, h) => h | Err _ => hello0 end.
Definition at_the_mailbox : FrontSession.Session :=
  match FrontSession.accept (XW := HybridExample.xwing) HybridExample.sk fronts_own with Ok x => x | Err _ => phone0 end.
End FrontServerExample.

Import FrontServerExample.

Lemma a_front_keeps_sessions_apart_witness :
  exists y t, go both = Some y /\ tasks y !! 1%nat = Some t /\ texts (t_id t) y = [[x41]] /\ texts (t_id t) y `prefix_of` t_said t.
Proof.
  assert (match go both with Some y => bool_decide (NoDup (ids y)) && bool_decide (texts id2 y = [[x41]]) &&
    match tasks y !! 1%nat with Some t => bool_decide (t_id t = id2) | None => false end | None => false end = true) as Hc
    by (vm_compute; reflexivity).
  destruct (go both) as [y|] eqn:Hy; [|done]. unfold go in Hy. generalize dependent both. intros vs Hy.
  destruct (tasks y !! 1%nat) as [t|] eqn:Et; [|by rewrite andb_false_r in Hc].
  apply andb_prop in Hc as [[Hnd%bool_decide_eq_true Htx%bool_decide_eq_true]%andb_prop Hi%bool_decide_eq_true].
  exists y, t. split; [done|]. split; [done|]. split; [by rewrite Hi|].
  exact (proj1 (a_front_keeps_sessions_apart (XW := HybridExample.xwing) tt echo HybridExample.sk vs y 1 t Hy Hnd Et)).
Defined.

Lemma an_id_opened_again_hears_the_last_witness :
  exists y' ct, run tt echo HybridExample.sk answered
      [FrameCame (close_frame id1); FrameCame (hello_frame id1 fronts_own); ReplyGoes true] = Some y' /\
    wrote y' = wrote answered ++ [(id1, [x41], ct)] /\ (FrontSession.seal at_the_mailbox [x41]).1 = Ok ct.
Proof.
  destruct (streams answered !! id1) as [x|] eqn:Ex; [|by vm_compute in Ex].
  destruct (FrontSession.seal at_the_mailbox [x41]) as [[ct|e] se] eqn:Es; [|by vm_compute in Es].
  destruct (an_id_opened_again_hears_the_last (XW := HybridExample.xwing) tt echo HybridExample.sk answered id1 x [x41] []
    (close_frame id1) (hello_frame id1 fronts_own) (ab id1)
    (mkFrame (ab id1) None None true) (mkFrame (ab id1) (Some (FrontSession.hello_to_bytes fronts_own)) None false)
    (FrontSession.hello_to_bytes fronts_own) fronts_own at_the_mailbox ct) as (y' & H1 & H2 & _).
  all: try exact Ex.
  all: try (rewrite Es; reflexivity).
  all: try (vm_compute; reflexivity).
  - apply Nat.leb_le. vm_compute. reflexivity.
  - apply (bool_decide_eq_true_1 _). vm_compute. reflexivity.
  - apply (bool_decide_eq_true_1 _). vm_compute. reflexivity.
  - exists y', ct. split; [exact H1|]. split; [exact H2|]. reflexivity.
Defined.

Lemma a_stalled_front_stays_witness :
  exists y, go flood = Some y /\
    forall vs y', run tt echo HybridExample.sk y vs = Some y' -> stalled y' /\ wrote y' = [].
Proof.
  assert (match go flood with Some y => is_stalled y && bool_decide (wrote y = []) | None => false end = true) as H
    by (vm_compute; reflexivity).
  destruct (go flood) as [y|]; [|done]. apply andb_prop in H as [Hs Hw%bool_decide_eq_true].
  exists y. split; [done|]. intros vs y' Hr.
  destruct (a_stalled_front_stays (XW := HybridExample.xwing) tt echo HybridExample.sk y vs y' (is_stalled_holds _ Hs) Hr)
    as (H1 & H2 & _).
  split; [exact H1|]. rewrite H2. exact Hw.
Defined.
