(* ===== verification/FrontProxy.v ===== *)
(** * The front: phones' sessions multiplexed onto a few connections

    [crates/rotelyx-mailbox-server/src/front.rs].  A phone names its sessions; the
    front gives each an id of its own, rewrites the one to the other on the way to
    the mailbox and back, and holds a pool of connections to carry them.  Each
    phone and each connection of the pool is a task; the two kinds talk through
    channels that hold two hundred and fifty-six messages, and a task that sends
    on a full one waits.  A step is one turn of one task: [None] says the turn is
    not enabled.  Frames are the decoded JSON; base64 is an argument. *)

From S2P Require Import Prelude Crypto Session.

Definition UPSTREAM_POOL : nat := 8.
Definition CHANNEL : nat := 256.

Record Frame := mkFrame {
  fr_s : bytes;
  fr_hello : option bytes;
  fr_b : option bytes;
  fr_close : bool;
}.

(** What is written to a phone's socket. *)
Inductive ToPhone := Text (s b : bytes) | CloseSocket.

Record PhoneSlot := mkSlot { inbox : Z; phone_id : bytes }.

Record Route := mkRoute { r_upstream : nat; r_id : Z }.

(** Where the task of a connection to the mailbox is. *)
Inductive UpTask :=
| UDown
| UReady
| UDelivering (slot : PhoneSlot) (m : ToPhone)
| UStranding (l : list PhoneSlot).

Record Upstream := mkUpstream {
  out : list Frame;
  routes : gmap Z PhoneSlot;
  alive : bool;
  u_task : UpTask;
  mailbox_got : list Frame;
}.

(** Where the task of a phone is; after a send, a session that was closed is
    deregistered. *)
Inductive PhoneTask :=
| PReady
| PSending (u : nat) (f : Frame) (after : option Route)
| PLeaving (l : list Route).

Record Phone := mkPhone {
  own : gmap bytes Route;
  from_upstreams : list ToPhone;
  p_task : PhoneTask;
  phone_got : list ToPhone;
}.

Record Front := mkFront {
  upstreams : list Upstream;
  next_id : Z;
  cursor : Z;
  phones : gmap Z Phone;
  next_phone : Z;
}.

Definition set_upstream (y : Front) (u : nat) (x : Upstream) : Front :=
  mkFront (<[u := x]> (upstreams y)) (next_id y) (cursor y) (phones y) (next_phone y).
Definition set_phone (y : Front) (p : Z) (x : Phone) : Front :=
  mkFront (upstreams y) (next_id y) (cursor y) (<[p := x]> (phones y)) (next_phone y).
Definition set_task (x : Phone) (t : PhoneTask) : Phone :=
  mkPhone (own x) (from_upstreams x) t (phone_got x).
Definition set_u_task (x : Upstream) (t : UpTask) : Upstream :=
  mkUpstream (out x) (routes x) (alive x) t (mailbox_got x).

Section Front.
Context `{FB : FrameBase64}.

(** [upstream_label] and [upstream_id_of]. *)
Definition upstream_label (id : Z) : bytes := frame_encode (be_bytes 8 id).

Definition upstream_id_of (label : bytes) : option Z :=
  l ← frame_decode label; a ← try_into 8 l; Some (be_value (ab a)).

(** [pick_upstream]: the first that is alive from the cursor on, round robin. *)
Fixpoint find_alive (l : list Upstream) (start : Z) (ks : list nat) : option nat :=
  match ks with
  | [] => None
  | k :: ks =>
      let i := Z.to_nat (wrap64 (start + Z.of_nat k) mod zlen l) in
      match l !! i with
      | Some x => if alive x then Some i else find_alive l start ks
      | None => None
      end
  end.

Definition pick_upstream (y : Front) : option nat * Front :=
  match upstreams y with
  | [] => (None, y)
  | l =>
      (find_alive l (cursor y) (seq 0 (length l)),
       mkFront l (next_id y) (wrap64 (cursor y + 1)) (phones y) (next_phone y))
  end.

Definition has_mailbox (y : Front) : bool := existsb alive (upstreams y).

Definition fresh_id (y : Front) : Z * Front :=
  (next_id y,
   mkFront (upstreams y) (wrap64 (next_id y + 1)) (cursor y) (phones y) (next_phone y)).

(** The frame [forward] sends: the id rewritten, a close never carried. *)
Definition forwarded (id : Z) (f : Frame) : Frame :=
  mkFrame (upstream_label id) (fr_hello f) (fr_b f) false.

Definition close_frame (id : Z) : Frame := mkFrame (upstream_label id) None None true.

Definition deregister (y : Front) (r : Route) : option Front :=
  x ← upstreams y !! r_upstream r;
  Some (set_upstream y (r_upstream r)
          (mkUpstream (out x) (delete (r_id r) (routes x)) (alive x) (u_task x) (mailbox_got x))).

(** [out.send(..).await], when there is room. *)
Definition send_out (y : Front) (u : nat) (f : Frame) : option Front :=
  x ← upstreams y !! u;
  if decide (length (out x) < CHANNEL)%nat
  then Some (set_upstream y u (mkUpstream (out x ++ [f]) (routes x) (alive x) (u_task x) (mailbox_got x)))
  else None.

(** [inbox.send(..).await]: an error when the phone is gone, which is ignored. *)
Definition send_inbox (y : Front) (p : Z) (m : ToPhone) : option Front :=
  match phones y !! p with
  | None => Some y
  | Some x =>
      if decide (length (from_upstreams x) < CHANNEL)%nat
      then Some (set_phone y p (mkPhone (own x) (from_upstreams x ++ [m]) (p_task x) (phone_got x)))
      else None
  end.

(** *** The phone's side: [phone_handler] and [serve_phone] *)

Definition connect_phone (y : Front) : option Front :=
  if has_mailbox y then
    Some (mkFront (upstreams y) (next_id y) (cursor y)
            (<[next_phone y := mkPhone ∅ [] PReady []]> (phones y)) (next_phone y + 1))
  else None.

(** Out of the loop: every session is closed. *)
Definition leaving (x : Phone) : PhoneTask := PLeaving (snd <$> map_to_list (own x)).

Definition phone_hello (y : Front) (p : Z) (x : Phone) (f : Frame) : option Front :=
  if bool_decide (is_Some (own x !! fr_s f)) then Some y
  else
    let '(picked, y) := pick_upstream y in
    match picked with
    | None => Some (set_phone y p (set_task x (leaving x)))
    | Some u =>
        let '(id, y) := fresh_id y in
        k ← upstreams y !! u;
        let y := set_upstream y u (mkUpstream (out k) (<[id := mkSlot p (fr_s f)]> (routes k))
                                     (alive k) (u_task k) (mailbox_got k)) in
        Some (set_phone y p
                (mkPhone (<[fr_s f := mkRoute u id]> (own x)) (from_upstreams x)
                   (PSending u (forwarded id f) None) (phone_got x)))
    end.

Definition phone_frame (y : Front) (p : Z) (f : Frame) : option Front :=
  x ← phones y !! p;
  match p_task x with
  | PReady =>
      if fr_close f then
        match own x !! fr_s f with
        | None => Some y
        | Some r =>
            Some (set_phone y p
                    (mkPhone (delete (fr_s f) (own x)) (from_upstreams x)
                       (PSending (r_upstream r) (close_frame (r_id r)) (Some r)) (phone_got x)))
        end
      else if bool_decide (is_Some (fr_hello f)) then phone_hello y p x f
      else
        match own x !! fr_s f with
        | None => Some y
        | Some r =>
            Some (set_phone y p
                    (set_task x (PSending (r_upstream r) (forwarded (r_id r) f) None)))
        end
  | _ => None
  end.

(** The send completes. *)
Definition phone_sent (y : Front) (p : Z) : option Front :=
  x ← phones y !! p;
  match p_task x with
  | PSending u f after =>
      y ← send_out y u f;
      y ← match after with Some r => deregister y r | None => Some y end;
      Some (set_phone y p (set_task x PReady))
  | _ => None
  end.

(** A reply is taken from the channel and written, or the write fails. *)
Definition phone_reply (y : Front) (p : Z) (written : bool) : option Front :=
  x ← phones y !! p;
  match p_task x, from_upstreams x with
  | PReady, m :: rest =>
      if written
      then Some (set_phone y p (mkPhone (own x) rest PReady (phone_got x ++ [m])))
      else Some (set_phone y p (mkPhone (own x) rest (leaving x) (phone_got x)))
  | _, _ => None
  end.

Definition phone_gone (y : Front) (p : Z) : option Front :=
  x ← phones y !! p;
  match p_task x with
  | PReady => Some (set_phone y p (set_task x (leaving x)))
  | _ => None
  end.

(** One session of a phone that leaves; after the last the task ends. *)
Definition phone_leave (y : Front) (p : Z) : option Front :=
  x ← phones y !! p;
  match p_task x with
  | PLeaving [] =>
      Some (mkFront (upstreams y) (next_id y) (cursor y) (delete p (phones y)) (next_phone y))
  | PLeaving (r :: rest) =>
      y ← send_out y (r_upstream r) (close_frame (r_id r));
      y ← deregister y r;
      Some (set_phone y p (set_task x (PLeaving rest)))
  | _ => None
  end.

(** *** The mailbox's side: the task of [spawn_upstream] *)

Definition up_connect (y : Front) (u : nat) : option Front :=
  x ← upstreams y !! u;
  match u_task x with
  | UDown => Some (set_upstream y u (mkUpstream [] (routes x) true UReady (mailbox_got x)))
  | _ => None
  end.

Definition up_write (y : Front) (u : nat) : option Front :=
  x ← upstreams y !! u;
  match u_task x, out x with
  | UReady, f :: rest =>
      Some (set_upstream y u (mkUpstream rest (routes x) (alive x) UReady (mailbox_got x ++ [f])))
  | _, _ => None
  end.

(** A frame of the mailbox's: to whom it goes, and what is written. *)
Definition routed (x : Upstream) (f : Frame) : option (PhoneSlot * ToPhone) :=
  id ← upstream_id_of (fr_s f);
  slot ← routes x !! id;
  b ← fr_b f;
  Some (slot, Text (phone_id slot) b).

Definition up_read (y : Front) (u : nat) (f : Frame) : option Front :=
  x ← upstreams y !! u;
  match u_task x with
  | UReady =>
      match routed x f with
      | None => Some y
      | Some (slot, m) => Some (set_upstream y u (set_u_task x (UDelivering slot m)))
      end
  | _ => None
  end.

Definition up_deliver (y : Front) (u : nat) : option Front :=
  x ← upstreams y !! u;
  match u_task x with
  | UDelivering slot m =>
      y ← send_inbox y (inbox slot) m;
      Some (set_upstream y u (set_u_task x UReady))
  | _ => None
  end.

Definition up_lost (y : Front) (u : nat) : option Front :=
  x ← upstreams y !! u;
  match u_task x with
  | UReady =>
      Some (set_upstream y u
              (mkUpstream (out x) ∅ false (UStranding (snd <$> map_to_list (routes x))) (mailbox_got x)))
  | _ => None
  end.

Definition up_strand (y : Front) (u : nat) : option Front :=
  x ← upstreams y !! u;
  match u_task x with
  | UStranding [] => Some (set_upstream y u (set_u_task x UDown))
  | UStranding (slot :: l) =>
      y ← send_inbox y (inbox slot) CloseSocket;
      Some (set_upstream y u (set_u_task x (UStranding l)))
  | _ => None
  end.

(** *** Steps *)

Inductive Event :=
| EConnect
| EFrame (p : Z) (f : Frame)
| ESent (p : Z)
| EReply (p : Z) (written : bool)
| EGone (p : Z)
| ELeave (p : Z)
| EUp (u : nat)
| EWrite (u : nat)
| ERead (u : nat) (f : Frame)
| EDeliver (u : nat)
| ELost (u : nat)
| EStrand (u : nat).

Definition step (y : Front) (v : Event) : option Front :=
  match v with
  | EConnect => connect_phone y
  | EFrame p f => phone_frame y p f
  | ESent p => phone_sent y p
  | EReply p w => phone_reply y p w
  | EGone p => phone_gone y p
  | ELeave p => phone_leave y p
  | EUp u => up_connect y u
  | EWrite u => up_write y u
  | ERead u f => up_read y u f
  | EDeliver u => up_deliver y u
  | ELost u => up_lost y u
  | EStrand u => up_strand y u
  end.

Fixpoint run (y : Front) (vs : list Event) : option Front :=
  match vs with
  | [] => Some y
  | v :: vs => y ← step y v; run y vs
  end.

(** [connect_with], before any connection is up. *)
Definition started (pool : nat) : Front :=
  mkFront (replicate (Nat.max pool 1) (mkUpstream [] ∅ false UDown [])) 1 0 ∅ 0.

(** ** What happened

    The sessions the front gave ids to, what the mailbox said on each, and what
    the phones asked. *)

Record Story := mkStory {
  given : gmap Z (Z * bytes);
  said : list (Z * bytes);
  asked : list (Z * Frame);
}.

Definition told (y : Front) (h : Story) (v : Event) : Story :=
  match v with
  | EFrame p f =>
      let h := mkStory (given h) (said h) ((p, f) :: asked h) in
      match phones y !! p with
      | Some x =>
          if negb (fr_close f) && bool_decide (is_Some (fr_hello f))
             && negb (bool_decide (is_Some (own x !! fr_s f)))
             && bool_decide (is_Some (pick_upstream y).1)
          then mkStory (<[next_id y := (p, fr_s f)]> (given h)) (said h) (asked h)
          else h
      | None => h
      end
  | ERead u f =>
      match upstream_id_of (fr_s f), fr_b f with
      | Some id, Some b => mkStory (given h) ((id, b) :: said h) (asked h)
      | _, _ => h
      end
  | _ => h
  end.

Fixpoint telling (y : Front) (h : Story) (vs : list Event) : option (Front * Story) :=
  match vs with
  | [] => Some (y, h)
  | v :: vs => y' ← step y v; telling y' (told y h v) vs
  end.
End Front.

(** ** No crossing *)

Section NoCrossing.
Context `{FB : FrameBase64}.

Definition heard (h : Story) (p : Z) (m : ToPhone) : Prop :=
  match m with
  | Text s b => exists id, given h !! id = Some (p, s) /\ (id, b) ∈ said h
  | CloseSocket => True
  end.

Definition sent (h : Story) (f : Frame) : Prop :=
  exists id p s, fr_s f = upstream_label id /\ given h !! id = Some (p, s) /\
    (f = close_frame id \/ exists f0, (p, f0) ∈ asked h /\ fr_s f0 = s /\ f = forwarded id f0).

Definition owned (h : Story) (p : Z) (r : Route) : Prop := exists s, given h !! r_id r = Some (p, s).

Record upstream_ok (h : Story) (x : Upstream) : Prop := {
  uo_routes id slot : routes x !! id = Some slot -> given h !! id = Some (inbox slot, phone_id slot);
  uo_out f : f ∈ out x \/ f ∈ mailbox_got x -> sent h f;
  uo_task : match u_task x with UDelivering slot m => heard h (inbox slot) m | _ => True end;
}.

Record phone_ok (h : Story) (p : Z) (x : Phone) : Prop := {
  po_own s r : own x !! s = Some r -> given h !! r_id r = Some (p, s);
  po_got m : m ∈ from_upstreams x \/ m ∈ phone_got x -> heard h p m;
  po_task : match p_task x with
            | PSending _ f _ => sent h f
            | PLeaving l => forall r, r ∈ l -> owned h p r
            | PReady => True
            end;
}.

Record inv (y : Front) (h : Story) : Prop := {
  in_next id v : given h !! id = Some v -> id < next_id y;
  in_ups u x : upstreams y !! u = Some x -> upstream_ok h x;
  in_phones p x : phones y !! p = Some x -> phone_ok h p x;
}.

(** What happened only grows. *)
Record later (h h' : Story) : Prop := {
  la_given id v : given h !! id = Some v -> given h' !! id = Some v;
  la_said x : x ∈ said h -> x ∈ said h';
  la_asked x : x ∈ asked h -> x ∈ asked h';
}.

Lemma later_refl h : later h h.
Proof. by split. Qed.

Lemma later_trans h1 h2 h3 : later h1 h2 -> later h2 h3 -> later h1 h3.
Proof. intros [? ? ?] [? ? ?]. split; auto. Qed.

Lemma heard_later h h' p m : later h h' -> heard h p m -> heard h' p m.
Proof. intros [Hg Hs _]. destruct m as [s b|]; [|done]. intros (id & ? & ?). exists id. auto. Qed.

Lemma sent_later h h' f : later h h' -> sent h f -> sent h' f.
Proof.
  intros [Hg _ Ha] (id & p & s & Hf & Hgi & Hor). exists id, p, s. split; [done|]. split; [auto|].
  destruct Hor as [|(f0 & ? & ? & ?)]; [by left|right; exists f0; auto].
Qed.

Lemma owned_later h h' p r : later h h' -> owned h p r -> owned h' p r.
Proof. intros [Hg _ _] [s Hs]. exists s. auto. Qed.

Lemma upstream_later h h' x : later h h' -> upstream_ok h x -> upstream_ok h' x.
Proof.
  intros Hl [H1 H2 H3]. split; intros.
  - apply (la_given _ _ Hl). auto.
  - eapply sent_later; [done|auto].
  - destruct (u_task x); try done. by eapply heard_later.
Qed.

Lemma phone_later h h' p x : later h h' -> phone_ok h p x -> phone_ok h' p x.
Proof.
  intros Hl [H1 H2 H3]. split; intros.
  - apply (la_given _ _ Hl). auto.
  - eapply heard_later; [done|auto].
  - destruct (p_task x); try done; [by eapply sent_later|]. intros r Hr. eapply owned_later; [done|auto].
Qed.

Lemma inv_later y h h' :
  later h h' -> (forall id v, given h' !! id = Some v -> id < next_id y) -> inv y h -> inv y h'.
Proof.
  intros Hl Hn [H1 H2 H3]. split; [done|..]; intros.
  - eapply upstream_later; [done|by eapply H2].
  - eapply phone_later; [done|by eapply H3].
Qed.

Lemma inv_set_upstream y h u x : inv y h -> upstream_ok h x -> inv (set_upstream y u x) h.
Proof.
  intros [H1 H2 H3] Hx. split; try done. simpl. intros v z.
  rewrite list_lookup_insert_Some. intros [(_ & <- & _)|[_ Hz]]; [done|by eapply H2].
Qed.

Lemma inv_set_phone y h p x : inv y h -> phone_ok h p x -> inv (set_phone y p x) h.
Proof.
  intros [H1 H2 H3] Hx. split; try done. simpl. intros q z.
  rewrite lookup_insert_Some. intros [[<- <-]|[_ Hz]]; [done|by eapply H3].
Qed.

Lemma inv_send_out y h u f y' : inv y h -> sent h f -> send_out y u f = Some y' -> inv y' h.
Proof.
  intros Hy Hf. unfold send_out. intros (x & Hx & H)%bind_Some. destruct (decide _); [|done].
  injection H as <-. apply inv_set_upstream; [done|]. destruct (in_ups _ _ Hy _ _ Hx) as [H1 H2 H3].
  split; simpl; try done. intros g. rewrite elem_of_app, list_elem_of_singleton.
  intros [[?| ->]|?]; auto.
Qed.

Lemma inv_send_inbox y h p m y' : inv y h -> heard h p m -> send_inbox y p m = Some y' -> inv y' h.
Proof.
  intros Hy Hm. unfold send_inbox. destruct (phones y !! p) as [x|] eqn:E; [|by intros [= <-]].
  destruct (decide _); [|done]. intros [= <-]. apply inv_set_phone; [done|].
  destruct (in_phones _ _ Hy _ _ E) as [H1 H2 H3]. split; simpl; try done.
  intros n. rewrite elem_of_app, list_elem_of_singleton. intros [[?| ->]|?]; auto.
Qed.

Lemma inv_deregister y h r y' : inv y h -> deregister y r = Some y' -> inv y' h.
Proof.
  intros Hy. unfold deregister. intros (x & Hx & [= <-])%bind_Some. apply inv_set_upstream; [done|].
  destruct (in_ups _ _ Hy _ _ Hx) as [H1 H2 H3]. split; simpl; try done.
  intros id slot [_ Hs]%lookup_delete_Some. auto.
Qed.

Lemma inv_task y h p x t :
  inv y h -> phone_ok h p x ->
  match t with
  | PSending _ f _ => sent h f | PLeaving l => forall r, r ∈ l -> owned h p r | PReady => True
  end -> inv (set_phone y p (set_task x t)) h.
Proof. intros Hy [H1 H2 _] Ht. apply inv_set_phone; [done|]. by split. Qed.

Lemma leaving_owned h p x : phone_ok h p x ->
  match leaving x with PLeaving l => forall r, r ∈ l -> owned h p r | _ => True end.
Proof.
  intros [H1 _ _]. unfold leaving. intros r ([s r'] & -> & Hin)%list_elem_of_fmap.
  apply elem_of_map_to_list in Hin. exists s. by apply H1.
Qed.

Lemma phones_send_out y u f y' : send_out y u f = Some y' -> phones y' = phones y.
Proof. unfold send_out. intros (x & _ & H)%bind_Some. by destruct (decide _); [injection H as <-|]. Qed.

Lemma pick_fields y : let y' := (pick_upstream y).2 in
  upstreams y' = upstreams y /\ next_id y' = next_id y /\ phones y' = phones y.
Proof. unfold pick_upstream. destruct (upstreams y) eqn:E; simpl; auto. Qed.

Lemma inv_pick y h : inv y h -> inv (pick_upstream y).2 h.
Proof.
  intros [H1 H2 H3]. destruct (pick_fields y) as (Hu & Hn & Hp).
  split; [by rewrite Hn|by rewrite Hu|by rewrite Hp].
Qed.

Lemma wrap64_next n : 0 <= n < u64_max -> wrap64 (n + 1) = n + 1.
Proof. intros. unfold wrap64. rewrite Z.mod_small; unfold u64_max in *; lia. Qed.

(** The new session of a phone. *)
Lemma inv_hello y h p x f y' :
  inv y h -> phones y !! p = Some x -> p_task x = PReady -> 0 <= next_id y < u64_max ->
  (p, f) ∈ asked h -> phone_hello y p x f = Some y' ->
  inv y' (if negb (bool_decide (is_Some (own x !! fr_s f))) && bool_decide (is_Some (pick_upstream y).1)
          then mkStory (<[next_id y := (p, fr_s f)]> (given h)) (said h) (asked h) else h).
Proof.
  intros Hy Hx Ht Hn Ha. unfold phone_hello.
  destruct (bool_decide (is_Some (own x !! fr_s f))); [by intros [= <-]|]. cbn [negb andb].
  pose proof (inv_pick y h Hy) as Hp. destruct (pick_fields y) as (Hu & Hnx & Hph).
  destruct (pick_upstream y) as [[u|] y1]; simpl in *.
  2: { intros [= <-]. apply inv_task; [done|by eapply in_phones; [exact Hy|]|].
       apply (leaving_owned h p x). by eapply in_phones; [exact Hy|]. }
  intros (k & Hk & [= <-])%bind_Some. rewrite Hnx, wrap64_next by done. 
  set (h' := mkStory (<[next_id y := (p, fr_s f)]> (given h)) (said h) (asked h)).
  assert (later h h') as Hl.
  { split; try done. intros id v Hv. simpl. rewrite lookup_insert_ne; [done|].
    apply (in_next _ _ Hy) in Hv. lia. }
  assert (inv (mkFront (upstreams y1) (next_id y + 1) (cursor y1) (phones y1) (next_phone y1)) h') as Hy'.
  { apply (inv_later _ h); [done| |].
    - intros id v. simpl. rewrite lookup_insert_Some. intros [[<- _]|[_ Hv]]; [lia|].
      apply (in_next _ _ Hy) in Hv. lia.
    - destruct Hp as [H1 H2 H3]. split; try done. intros id v Hv. apply H1 in Hv. simpl. lia. }
  apply inv_set_phone.
  - apply inv_set_upstream; [exact Hy'|]. destruct (in_ups _ _ Hy' _ _ Hk) as [U1 U2 U3].
    split; simpl; try done. intros id slot. rewrite lookup_insert_Some.
    intros [[<- <-]|[_ Hs]]; [by rewrite lookup_insert_eq|by apply U1].
  - assert (phone_ok h' p x) as [P1 P2 P3].
    { eapply in_phones; [exact Hy'|]. simpl. by rewrite Hph. }
    split; simpl; [| |].
    + intros s r. rewrite lookup_insert_Some. intros [[<- <-]|[_ Hs]]; [by rewrite lookup_insert_eq|by apply P1].
    + exact P2.
    + exists (next_id y), p, (fr_s f). split; [done|].
      split; [by unfold h'; simpl; rewrite lookup_insert_eq|].
      right. by exists f.
Qed.

Lemma later_told y h v : inv y h -> 0 <= next_id y -> later h (told y h v).
Proof.
  intros Hy Hn. destruct v as [|p f|p|p w|p|p|u|u|u f|u|u|u]; simpl; try apply later_refl.
  - assert (later h (mkStory (given h) (said h) ((p, f) :: asked h))) as Hl
      by (split; simpl; auto; intros z Hz; by right).
    destruct (phones y !! p) as [x|]; [|done]. destruct (_ && _); [|done].
    split; simpl; try apply Hl. intros id v Hv. rewrite lookup_insert_ne; [done|].
    apply (in_next _ _ Hy) in Hv. lia.
  - destruct (upstream_id_of _) as [id|]; [|apply later_refl].
    destruct (fr_b f); [|apply later_refl]. split; simpl; auto. intros z Hz. by right.
Qed.

Lemma inv_asked y h p f : inv y h -> inv y (mkStory (given h) (said h) ((p, f) :: asked h)).
Proof.
  intros Hy. apply (inv_later _ h); [|by apply Hy|done].
  split; simpl; auto. intros z Hz. by right.
Qed.

Lemma inv_phone_frame y h p f y' :
  inv y h -> 0 <= next_id y < u64_max -> phone_frame y p f = Some y' ->
  inv y' (told y h (EFrame p f)).
Proof.
  intros Hy Hn. unfold phone_frame, told. intros (x & Hx & H)%bind_Some. rewrite Hx.
  destruct (p_task x) eqn:Et; try done.
  apply (inv_asked _ _ p f) in Hy. set (h1 := mkStory _ _ ((p, f) :: asked h)) in *.
  assert ((p, f) ∈ asked h1) as Ha by by left.
  pose proof (in_phones _ _ Hy _ _ Hx) as Hph. pose proof Hph as [H1 H2 _].
  destruct (fr_close f); cbn [negb andb].
  - destruct (own x !! fr_s f) as [r|] eqn:Er; injection H as <-; [|done].
    apply inv_set_phone; [done|]. split; simpl.
    + intros s r' [_ Hs]%lookup_delete_Some. auto.
    + done.
    + exists (r_id r), p, (fr_s f). split; [done|]. split; [by apply H1|by left].
  - destruct (bool_decide (is_Some (fr_hello f))); cbn [andb].
    + by apply (inv_hello y h1 p x f y').
    + destruct (own x !! fr_s f) as [r|] eqn:Er; injection H as <-; [|done].
      apply inv_task; [done|done|]. exists (r_id r), p, (fr_s f). split; [done|].
      split; [by apply H1|]. right. by exists f.
Qed.

Lemma inv_read y h u f y' :
  inv y h -> up_read y u f = Some y' -> inv y' (told y h (ERead u f)).
Proof.
  intros Hy. unfold up_read, told. intros (x & Hx & H)%bind_Some.
  destruct (u_task x) eqn:Et; try done. unfold routed in H.
  destruct (upstream_id_of (fr_s f)) as [id|]; simpl in H; [|by injection H as <-].
  destruct (fr_b f) as [b|]; [|destruct (routes x !! id); by injection H as <-].
  assert (inv y (mkStory (given h) ((id, b) :: said h) (asked h))) as Hy'.
  { apply (inv_later _ h); [|by apply Hy|done]. split; simpl; auto. intros z Hz. by right. }
  destruct (routes x !! id) as [slot|] eqn:Er; simpl in H; injection H as <-; [|done].
  apply inv_set_upstream; [done|]. destruct (in_ups _ _ Hy' _ _ Hx) as [H1 H2 _].
  split; simpl; try done. exists id. split; [by apply H1|by left].
Qed.

Lemma inv_step y h v y' :
  inv y h -> 0 <= next_id y < u64_max -> step y v = Some y' -> inv y' (told y h v).
Proof.
  intros Hy Hn Hs. destruct v as [|p f|p|p w|p|p|u|u|u f|u|u|u]; simpl in Hs.
  - unfold connect_phone in Hs. destruct (has_mailbox y); [|done]. injection Hs as <-.
    destruct Hy as [H1 H2 H3]. split; try done. simpl. intros q z. rewrite lookup_insert_Some.
    intros [[<- <-]|[_ Hz]]; [|by apply H3]. split; simpl; [done| |done].
    intros m [Hm|Hm]; by apply not_elem_of_nil in Hm.
  - by apply inv_phone_frame.
  - unfold phone_sent in Hs. apply bind_Some in Hs as (x & Hx & Hs).
    pose proof (in_phones _ _ Hy _ _ Hx) as Hph. destruct (p_task x) as [|u f after|] eqn:Et; try done.
    apply bind_Some in Hs as (y1 & H1 & Hs). apply bind_Some in Hs as (y2 & H2 & [= <-]).
    assert (inv y1 h) as Hy1 by (eapply inv_send_out; [done| |done]; destruct Hph as [_ _ Ht]; by rewrite Et in Ht).
    apply inv_task; [|done|done]. destruct after; [by eapply inv_deregister|by injection H2 as <-].
  - unfold phone_reply in Hs. apply bind_Some in Hs as (x & Hx & Hs).
    pose proof (in_phones _ _ Hy _ _ Hx) as Hph. pose proof (leaving_owned _ _ _ Hph) as Hlv.
    destruct (p_task x), (from_upstreams x) as [|m rest] eqn:Em; try done. destruct Hph as [H1 H2 _].
    rewrite Em in H2. destruct w; injection Hs as <-; (apply inv_set_phone; [done|]); split; simpl; try done.
    + intros n. rewrite elem_of_app, list_elem_of_singleton. intros [?|[?| ->]]; apply H2; [left; by right|by right|left; by left].
    + intros n [?|?]; apply H2; [left; by right|by right].
  - unfold phone_gone in Hs. apply bind_Some in Hs as (x & Hx & Hs).
    pose proof (in_phones _ _ Hy _ _ Hx) as Hph. destruct (p_task x); try done. injection Hs as <-.
    apply inv_task; [done|done|]. exact (leaving_owned _ _ _ Hph).
  - unfold phone_leave in Hs. apply bind_Some in Hs as (x & Hx & Hs).
    pose proof (in_phones _ _ Hy _ _ Hx) as Hph. destruct (p_task x) as [| |[|r rest]] eqn:Et; try done.
    + injection Hs as <-. destruct Hy as [H1 H2 H3]. split; try done. simpl.
      intros q z [_ Hz]%lookup_delete_Some. by apply H3.
    + pose proof (po_task _ _ _ Hph) as Ht. rewrite Et in Ht.
      destruct (Ht r ltac:(by left)) as [s Hsr].
      apply bind_Some in Hs as (y1 & H1 & Hs). apply bind_Some in Hs as (y2 & H2 & [= <-]).
      apply inv_task; [|done|intros r' Hr'; apply Ht; by right].
      eapply inv_deregister; [|done]. eapply inv_send_out; [done| |done].
      exists (r_id r), p, s. split; [done|]. split; [done|by left].
  - unfold up_connect in Hs. apply bind_Some in Hs as (x & Hx & Hs). destruct (u_task x); try done.
    injection Hs as <-. apply inv_set_upstream; [done|]. destruct (in_ups _ _ Hy _ _ Hx) as [H1 H2 _].
    split; simpl; try done. intros f [Hf|?]; [by apply not_elem_of_nil in Hf|auto].
  - unfold up_write in Hs. apply bind_Some in Hs as (x & Hx & Hs).
    destruct (u_task x), (out x) as [|f rest] eqn:Eo; try done. injection Hs as <-.
    apply inv_set_upstream; [done|]. destruct (in_ups _ _ Hy _ _ Hx) as [H1 H2 _]. rewrite Eo in H2.
    split; simpl; try done. intros g. rewrite elem_of_app, list_elem_of_singleton.
    intros [?|[?| ->]]; apply H2; [left; by right|by right|left; by left].
  - by apply inv_read.
  - unfold up_deliver in Hs. apply bind_Some in Hs as (x & Hx & Hs).
    destruct (u_task x) as [| |slot m|] eqn:Et; try done. apply bind_Some in Hs as (y1 & H1 & [= <-]).
    pose proof (in_ups _ _ Hy _ _ Hx) as [U1 U2 U3]. rewrite Et in U3.
    apply inv_set_upstream; [by eapply inv_send_inbox|]. by split.
  - unfold up_lost in Hs. apply bind_Some in Hs as (x & Hx & Hs). destruct (u_task x); try done.
    injection Hs as <-. apply inv_set_upstream; [done|]. destruct (in_ups _ _ Hy _ _ Hx) as [H1 H2 _].
    by split.
  - unfold up_strand in Hs. apply bind_Some in Hs as (x & Hx & Hs).
    pose proof (in_ups _ _ Hy _ _ Hx) as [U1 U2 U3]. destruct (u_task x) as [| | |[|slot l]] eqn:Et; try done.
    + injection Hs as <-. apply inv_set_upstream; [done|]. by split.
    + apply bind_Some in Hs as (y1 & H1 & [= <-]). apply inv_set_upstream; [|by split].
      by apply (inv_send_inbox y h (inbox slot) CloseSocket y1).
Qed.

Lemma next_step y v y' :
  step y v = Some y' -> 0 <= next_id y < u64_max -> next_id y <= next_id y' <= next_id y + 1.
Proof.
  assert (forall u f y1 y2, send_out y1 u f = Some y2 -> next_id y2 = next_id y1) as Hout.
  { intros u f y1 y2. unfold send_out. intros (x & _ & H)%bind_Some.
    by destruct (decide _); [injection H as <-|]. }
  assert (forall q m y1 y2, send_inbox y1 q m = Some y2 -> next_id y2 = next_id y1) as Hin.
  { intros q m y1 y2. unfold send_inbox. destruct (phones y1 !! q); [|by intros [= <-]].
    destruct (decide _); [|done]. by intros [= <-]. }
  assert (forall r y1 y2, deregister y1 r = Some y2 -> next_id y2 = next_id y1) as Hdr.
  { intros r y1 y2. unfold deregister. by intros (x & _ & [= <-])%bind_Some. }
  intros Hs Hn. destruct v as [|p f|p|p w|p|p|u|u|u f|u|u|u]; simpl in Hs;
    try (lazymatch type of Hs with phone_frame _ _ _ = _ => fail
         | _ => assert (next_id y' = next_id y) as ->; [|lia] end).
  - unfold connect_phone in Hs. destruct (has_mailbox y); [|done]. by injection Hs as <-.
  - unfold phone_frame in Hs. apply bind_Some in Hs as (x & _ & Hs). destruct (p_task x); try done.
    destruct (fr_close f); [destruct (own x !! _); injection Hs as <-; simpl; lia|].
    destruct (bool_decide _); [|destruct (own x !! _); injection Hs as <-; simpl; lia].
    unfold phone_hello in Hs. destruct (bool_decide _); [injection Hs as <-; lia|].
    destruct (pick_fields y) as (_ & Hnx & _). destruct (pick_upstream y) as [[u|] y1]; simpl in *.
    + apply bind_Some in Hs as (k & _ & [= <-]). simpl. rewrite Hnx, wrap64_next by done. lia.
    + injection Hs as <-. simpl. lia.
  - unfold phone_sent in Hs. apply bind_Some in Hs as (x & _ & Hs). destruct (p_task x); try done.
    apply bind_Some in Hs as (y1 & H1 & Hs). apply bind_Some in Hs as (y2 & H2 & [= <-]). simpl.
    apply Hout in H1. destruct after; [apply Hdr in H2|injection H2 as <-]; congruence.
  - unfold phone_reply in Hs. apply bind_Some in Hs as (x & _ & Hs).
    destruct (p_task x), (from_upstreams x), w; try done; by injection Hs as <-.
  - unfold phone_gone in Hs. apply bind_Some in Hs as (x & _ & Hs).
    destruct (p_task x); try done; by injection Hs as <-.
  - unfold phone_leave in Hs. apply bind_Some in Hs as (x & _ & Hs).
    destruct (p_task x) as [| |[|r rest]]; try done; [by injection Hs as <-|].
    apply bind_Some in Hs as (y1 & H1 & Hs). apply bind_Some in Hs as (y2 & H2 & [= <-]). simpl.
    apply Hout in H1. apply Hdr in H2. congruence.
  - unfold up_connect in Hs. apply bind_Some in Hs as (x & _ & Hs). destruct (u_task x); try done; by injection Hs as <-.
  - unfold up_write in Hs. apply bind_Some in Hs as (x & _ & Hs). destruct (u_task x), (out x); try done; by injection Hs as <-.
  - unfold up_read in Hs. apply bind_Some in Hs as (x & _ & Hs). destruct (u_task x); try done.
    destruct (routed x f) as [[slot m]|]; by injection Hs as <-.
  - unfold up_deliver in Hs. apply bind_Some in Hs as (x & _ & Hs). destruct (u_task x); try done.
    apply bind_Some in Hs as (y1 & H1 & [= <-]). by apply Hin in H1.
  - unfold up_lost in Hs. apply bind_Some in Hs as (x & _ & Hs). destruct (u_task x); try done; by injection Hs as <-.
  - unfold up_strand in Hs. apply bind_Some in Hs as (x & _ & Hs).
    destruct (u_task x) as [| | |[|slot l]]; try done; [by injection Hs as <-|].
    apply bind_Some in Hs as (y1 & H1 & [= <-]). by apply Hin in H1.
Qed.

Lemma inv_telling y h vs y' h' :
  inv y h -> 0 <= next_id y -> next_id y + zlen vs < u64_max ->
  telling y h vs = Some (y', h') -> inv y' h' /\ later h h'.
Proof.
  revert y h. induction vs as [|v vs IH]; intros y h Hy H0 Hn; simpl.
  { intros [= <- <-]. split; [done|apply later_refl]. }
  rewrite zlen_cons in Hn. pose proof (zlen_nonneg vs).
  intros (y1 & Hs & Hr)%bind_Some. pose proof (next_step _ _ _ Hs ltac:(lia)).
  pose proof (inv_step _ _ _ _ Hy ltac:(lia) Hs) as Hy1.
  destruct (IH _ _ Hy1 ltac:(lia) ltac:(lia) Hr) as [? ?]. split; [done|].
  eapply later_trans; [by apply (later_told y h v)|done].
Qed.

Lemma next_telling y h vs y' h' :
  0 <= next_id y -> next_id y + zlen vs < u64_max -> telling y h vs = Some (y', h') ->
  0 <= next_id y' <= next_id y + zlen vs.
Proof.
  revert y h. induction vs as [|v vs IH]; intros y h H0 Hn; simpl.
  - intros [= <- _]. unfold zlen. simpl. lia.
  - rewrite zlen_cons in *. pose proof (zlen_nonneg vs). intros (y1 & Hs & Hr)%bind_Some.
    pose proof (next_step _ _ _ Hs ltac:(lia)). apply IH in Hr; lia.
Qed.

Lemma inv_started pool : inv (started pool) (mkStory ∅ [] []).
Proof.
  split; simpl.
  - done.
  - intros u x [-> _]%lookup_replicate. split; simpl; try done.
    intros f [Hf|Hf]; by apply not_elem_of_nil in Hf.
  - done.
Qed.

(** C2: the front never crosses two phones, nor two sessions of one.  Over any
    interleaving of its tasks, with connections lost and made again: what a phone is
    written under a session's id is what the mailbox said on an id the front gave to
    that session of that phone; what the mailbox is sent under an id is a frame that
    phone asked to be sent in that session, or its closing; and an id, once given,
    is never given to another. *)
Theorem front_never_crosses pool vs y h :
  zlen vs < u64_max - 1 -> telling (started pool) (mkStory ∅ [] []) vs = Some (y, h) ->
  (forall p x s b, phones y !! p = Some x -> Text s b ∈ phone_got x ->
    exists id, given h !! id = Some (p, s) /\ (id, b) ∈ said h) /\
  (forall u x f, upstreams y !! u = Some x -> f ∈ mailbox_got x ->
    exists id p s, fr_s f = upstream_label id /\ given h !! id = Some (p, s) /\
      (f = close_frame id \/ exists f0, (p, f0) ∈ asked h /\ fr_s f0 = s /\ f = forwarded id f0)) /\
  (forall ws y' h' id v, zlen vs + zlen ws < u64_max - 1 -> telling y h ws = Some (y', h') ->
    given h !! id = Some v -> given h' !! id = Some v).
Proof.
  intros Hn Ht.
  destruct (inv_telling (started pool) (mkStory ∅ [] []) vs y h (inv_started pool)
    ltac:(simpl; lia) ltac:(simpl; lia) Ht) as [Hy _].
  pose proof (next_telling (started pool) (mkStory ∅ [] []) vs y h ltac:(simpl; lia)
    ltac:(simpl; lia) Ht) as Hnx. simpl in Hnx.
  split; [|split].
  - intros p x s b Hx Hm. exact (po_got _ _ _ (in_phones _ _ Hy _ _ Hx) _ (or_intror Hm)).
  - intros u x f Hx Hf. exact (uo_out _ _ (in_ups _ _ Hy _ _ Hx) _ (or_intror Hf)).
  - intros ws y' h' id v Hws Hr. destruct (inv_telling y h ws y' h' Hy ltac:(lia) ltac:(lia) Hr) as [_ Hl].
    apply (la_given _ _ Hl).
Qed.
End NoCrossing.

(** ** Two tasks that wait for each other *)

Section Locked.
Context `{FB : FrameBase64}.

(** A phone's task waits to send to a connection whose channel is full; the task of
    that connection waits to deliver to the phone, whose channel is full. *)
Record locked (y : Front) (p : Z) (u : nat) (got : list ToPhone) (passed : list Frame) : Prop := {
  lk_phone : exists x f after, phones y !! p = Some x /\ p_task x = PSending u f after /\
    (CHANNEL <= length (from_upstreams x))%nat /\ phone_got x = got;
  lk_upstream : exists k slot m, upstreams y !! u = Some k /\ u_task k = UDelivering slot m /\
    inbox slot = p /\ (CHANNEL <= length (out k))%nat /\ mailbox_got k = passed;
  lk_id : p < next_phone y;
}.

Lemma locked_set_phone y p u got passed q x :
  locked y p u got passed -> q <> p -> locked (set_phone y q x) p u got passed.
Proof.
  intros [(x0 & f & a & Hx & H1) H2 H3] Hne. split; [|done|done]. exists x0, f, a. simpl.
  by rewrite lookup_insert_ne.
Qed.

Lemma locked_set_upstream y p u got passed v k k' :
  locked y p u got passed -> upstreams y !! v = Some k ->
  (v = u -> u_task k' = u_task k /\ out k' = out k /\ mailbox_got k' = mailbox_got k) ->
  locked (set_upstream y v k') p u got passed.
Proof.
  intros [H1 (k0 & slot & m & Hk & Ht & Hi & Ho & Hg) H3] Hv Hsame. split; [done| |done].
  destruct (decide (v = u)) as [->|Hne].
  - assert (k0 = k) as -> by congruence. destruct (Hsame eq_refl) as (E1 & E2 & E3).
    exists k', slot, m. simpl. rewrite list_lookup_insert_eq by (by eapply lookup_lt_Some).
    by rewrite E1, E2, E3.
  - exists k0, slot, m. simpl. by rewrite list_lookup_insert_ne.
Qed.

Lemma locked_send_out y p u got passed v f y' :
  locked y p u got passed -> send_out y v f = Some y' -> locked y' p u got passed.
Proof.
  intros Hl. unfold send_out. intros (k & Hk & H)%bind_Some. destruct (decide _) as [Hlt|]; [|done].
  injection H as <-. apply (locked_set_upstream _ _ _ _ _ _ k); [done|done|]. intros ->.
  destruct Hl as [_ (k0 & slot & m & Hk0 & _ & _ & Ho & _) _]. assert (k0 = k) as -> by congruence. lia.
Qed.

Lemma locked_send_inbox y p u got passed q m y' :
  locked y p u got passed -> send_inbox y q m = Some y' -> locked y' p u got passed.
Proof.
  intros Hl. unfold send_inbox. destruct (phones y !! q) as [x|] eqn:E; [|by intros [= <-]].
  destruct (decide _) as [Hlt|]; [|done]. intros [= <-]. apply locked_set_phone; [done|]. intros ->.
  destruct Hl as [(x0 & f & a & Hx & _ & Hf & _) _ _]. assert (x0 = x) as -> by congruence. lia.
Qed.

Lemma locked_deregister y p u got passed r y' :
  locked y p u got passed -> deregister y r = Some y' -> locked y' p u got passed.
Proof.
  intros Hl. unfold deregister. intros (k & Hk & [= <-])%bind_Some.
  by apply (locked_set_upstream _ _ _ _ _ _ k).
Qed.

(** The phone's own turns and the connection's own turns are not enabled. *)
Lemma locked_sending y p u got passed : locked y p u got passed ->
  exists x f after, phones y !! p = Some x /\ p_task x = PSending u f after /\ send_out y u f = None.
Proof.
  intros [(x & f & a & Hx & Ht & _) (k & slot & m & Hk & _ & _ & Ho & _) _]. exists x, f, a.
  split; [done|]. split; [done|]. unfold send_out. rewrite Hk. simpl. rewrite decide_False by lia. done.
Qed.

Lemma locked_phone_frame y p u got passed q f y' :
  locked y p u got passed -> phone_frame y q f = Some y' -> locked y' p u got passed.
Proof.
  intros Hl. unfold phone_frame. intros (x & Hx & H)%bind_Some.
  destruct (p_task x) eqn:Et; try done.
  assert (q <> p) as Hne.
  { intros ->. destruct (locked_sending _ _ _ _ _ Hl) as (x0 & g & a & Hx0 & Ht & _). congruence. }
  destruct (fr_close f); [destruct (own x !! _); injection H as <-; [by apply locked_set_phone|done]|].
  destruct (bool_decide _); [|destruct (own x !! _); injection H as <-; [by apply locked_set_phone|done]].
  unfold phone_hello in H. destruct (bool_decide _); [by injection H as <-|].
  destruct (pick_fields y) as (Hu & _ & Hp).
  assert (locked (pick_upstream y).2 p u got passed) as Hl1.
  { destruct Hl as [H1 H2 H3]. split; [by rewrite Hp|by rewrite Hu|].
    unfold pick_upstream. by destruct (upstreams y). }
  destruct (pick_upstream y) as [[v|] y1]; simpl in *; [|injection H as <-; by apply locked_set_phone].
  apply bind_Some in H as (k & Hk & [= <-]). apply locked_set_phone; [|done].
  apply (locked_set_upstream _ _ _ _ _ _ k); [|done|done]. destruct Hl1 as [H1 H2 H3]. by split.
Qed.

Lemma locked_step y p u got passed v y' :
  locked y p u got passed -> step y v = Some y' -> locked y' p u got passed.
Proof.
  intros Hl Hs. pose proof (locked_sending _ _ _ _ _ Hl) as (x0 & g & a & Hx0 & Ht0 & Hno).
  assert (forall q x, phones y !! q = Some x -> (forall w f b, p_task x <> PSending w f b) -> q <> p) as Hnp
    by (intros q x Hq Hns ->; eapply Hns; assert (x = x0) as -> by congruence; exact Ht0).
  assert (forall w k, upstreams y !! w = Some k -> (forall s m, u_task k <> UDelivering s m) -> w <> u) as Hnu.
  { intros w k Hw Hnd ->. destruct Hl as [_ (k0 & s & m & Hk & Ht & _) _].
    assert (k = k0) as -> by congruence. by eapply Hnd. }
  destruct v as [|q f|q|q w|q|q|w|w|w f|w|w|w]; simpl in Hs.
  - unfold connect_phone in Hs. destruct (has_mailbox y); [|done]. injection Hs as <-.
    destruct Hl as [(x & f & b & Hx & H1) H2 H3]. split; [|done|simpl; lia]. exists x, f, b. simpl.
    by rewrite lookup_insert_ne by lia.
  - by eapply locked_phone_frame.
  - unfold phone_sent in Hs. apply bind_Some in Hs as (x & Hx & Hs).
    destruct (p_task x) as [|w f b|] eqn:Et; try done. apply bind_Some in Hs as (y1 & H1 & Hs).
    apply bind_Some in Hs as (y2 & H2 & [= <-]). apply locked_set_phone.
    + destruct b; [eapply locked_deregister; [|done]|injection H2 as <-]; by eapply locked_send_out.
    + intros ->. assert (x = x0) as -> by congruence. rewrite Ht0 in Et. injection Et as <- <- <-. congruence.
  - unfold phone_reply in Hs. apply bind_Some in Hs as (x & Hx & Hs).
    destruct (p_task x) eqn:Et, (from_upstreams x); try done.
    assert (q <> p) by (apply (Hnp q x Hx); congruence).
    destruct w; injection Hs as <-; by apply locked_set_phone.
  - unfold phone_gone in Hs. apply bind_Some in Hs as (x & Hx & Hs). destruct (p_task x) eqn:Et; try done.
    injection Hs as <-. apply locked_set_phone; [done|]. apply (Hnp q x Hx). congruence.
  - unfold phone_leave in Hs. apply bind_Some in Hs as (x & Hx & Hs).
    assert (p_task x <> PReady -> forall w f b, p_task x = PSending w f b -> False) as _ by
      (intros _ w f b E; rewrite E in Hs; done).
    assert (q <> p) as Hne by (apply (Hnp q x Hx); intros w f b E; by rewrite E in Hs).
    destruct (p_task x) as [| |[|r rest]] eqn:Et; try done.
    + injection Hs as <-. destruct Hl as [(x1 & f & b & Hx1 & H1) H2 H3]. split; [|done|done].
      exists x1, f, b. simpl. by rewrite lookup_delete_ne.
    + apply bind_Some in Hs as (y1 & H1 & Hs). apply bind_Some in Hs as (y2 & H2 & [= <-]).
      apply locked_set_phone; [|done]. eapply locked_deregister; [|done]. by eapply locked_send_out.
  - unfold up_connect in Hs. apply bind_Some in Hs as (k & Hk & Hs). destruct (u_task k) eqn:Et; try done.
    injection Hs as <-. apply (locked_set_upstream _ _ _ _ _ _ k); [done|done|].
    intros ->. exfalso. apply (Hnu u k Hk); [congruence|done].
  - unfold up_write in Hs. apply bind_Some in Hs as (k & Hk & Hs).
    destruct (u_task k) eqn:Et, (out k); try done. injection Hs as <-.
    apply (locked_set_upstream _ _ _ _ _ _ k); [done|done|].
    intros ->. exfalso. apply (Hnu u k Hk); [congruence|done].
  - unfold up_read in Hs. apply bind_Some in Hs as (k & Hk & Hs). destruct (u_task k) eqn:Et; try done.
    destruct (routed k f) as [[s m]|]; injection Hs as <-; [|done].
    apply (locked_set_upstream _ _ _ _ _ _ k); [done|done|].
    intros ->. exfalso. apply (Hnu u k Hk); [congruence|done].
  - unfold up_deliver in Hs. apply bind_Some in Hs as (k & Hk & Hs).
    destruct (u_task k) as [| |s m|] eqn:Et; try done. apply bind_Some in Hs as (y1 & H1 & [= <-]).
    assert (upstreams y1 = upstreams y) as Hu.
    { unfold send_inbox in H1. destruct (phones y !! _); [|by injection H1 as <-].
      destruct (decide _); [|done]. by injection H1 as <-. }
    apply (locked_set_upstream _ _ _ _ _ _ k); [by eapply locked_send_inbox|by rewrite Hu|].
    intros ->. exfalso. destruct Hl as [(x & f & b & Hx & _ & Hf & _) (k0 & s0 & m0 & Hk0 & Ht & Hi & _) _].
    assert (k0 = k) as -> by congruence. rewrite Ht in Et. injection Et as <- <-.
    unfold send_inbox in H1. rewrite Hi, Hx in H1. rewrite decide_False in H1 by lia. done.
  - unfold up_lost in Hs. apply bind_Some in Hs as (k & Hk & Hs). destruct (u_task k) eqn:Et; try done.
    injection Hs as <-. apply (locked_set_upstream _ _ _ _ _ _ k); [done|done|].
    intros ->. exfalso. apply (Hnu u k Hk); [congruence|done].
  - unfold up_strand in Hs. apply bind_Some in Hs as (k & Hk & Hs).
    destruct (u_task k) as [| | |[|s l]] eqn:Et; try done.
    + injection Hs as <-. apply (locked_set_upstream _ _ _ _ _ _ k); [done|done|].
      intros ->. exfalso. apply (Hnu u k Hk); [congruence|done].
    + apply bind_Some in Hs as (y1 & H1 & [= <-]).
      assert (upstreams y1 = upstreams y) as Hu.
      { unfold send_inbox in H1. destruct (phones y !! _); [|by injection H1 as <-].
        destruct (decide _); [|done]. by injection H1 as <-. }
      apply (locked_set_upstream _ _ _ _ _ _ k); [by eapply locked_send_inbox|by rewrite Hu|].
      intros ->. exfalso. apply (Hnu u k Hk); [congruence|done].
Qed.

Lemma locked_run y p u got passed vs y' :
  locked y p u got passed -> run y vs = Some y' -> locked y' p u got passed.
Proof.
  revert y. induction vs as [|v vs IH]; intros y Hl; simpl; [by intros [= <-]|].
  intros (y1 & Hs & Hr)%bind_Some. eapply IH; [|done]. by eapply locked_step.
Qed.
End Locked.

Module FrontProxyExample.

#[export] Instance plain : FrameBase64 := {| frame_encode l := l; frame_decode := Some |}.

Definition sid : bytes := [x41].
Definition hello : Frame := mkFrame sid (Some [x01]) None false.
Definition body : Frame := mkFrame sid None (Some [x02]) false.
Definition answer : Frame := mkFrame (be_bytes 8 1) None (Some [x03]) false.

(** A session is opened; the mailbox answers while the phone's socket is slow, and
    then the phone sends. *)
Definition opening : list Event := [EUp 0; EConnect; EFrame 0 hello; ESent 0].
Definition trace : list Event :=
  opening ++ concat (replicate CHANNEL [ERead 0 answer; EDeliver 0]) ++ [ERead 0 answer]
  ++ concat (replicate (CHANNEL - 1) [EFrame 0 body; ESent 0]) ++ [EFrame 0 body].

Definition waiting (y : Front) : bool :=
  match phones y !! 0, upstreams y !! 0%nat with
  | Some x, Some k =>
      match p_task x, u_task k with
      | PSending 0 _ _, UDelivering slot _ =>
          (CHANNEL <=? length (from_upstreams x))%nat && (CHANNEL <=? length (out k))%nat
          && (inbox slot =? 0) && (0 <? next_phone y)
          && (length (phone_got x) =? 0)%nat && (length (mailbox_got k) =? 0)%nat
      | _, _ => false
      end
  | _, _ => false
  end.
End FrontProxyExample.

Import (hints) FrontProxyExample.

Lemma waiting_locked y : FrontProxyExample.waiting y = true -> locked y 0 0 [] [].
Proof.
  unfold FrontProxyExample.waiting. destruct (phones y !! 0) as [x|] eqn:Ex; [|done].
  destruct (upstreams y !! 0%nat) as [k|] eqn:Ek; [|done].
  destruct (p_task x) as [|[|u] f a|] eqn:Et; try done. destruct (u_task k) as [| |slot m|] eqn:Eu; try done.
  rewrite !andb_true_iff, !Nat.leb_le, !Nat.eqb_eq, Z.eqb_eq, Z.ltb_lt.
  intros [[[[[H1 H2] H3] H4] H5%length_zero_iff_nil] H6%length_zero_iff_nil].
  split; [by exists x, f, a|by exists k, slot, m|done].
Qed.

(** A phone and a connection to the mailbox can wait for each other, for ever.
    A phone's task that sends to a full channel does not read its own; the task
    that would drain the one is delivering into the other.  From a fresh front such
    a state is reached by one session that is answered faster than the phone reads,
    and goes on sending; and once it is reached, whatever anybody does, the phone is
    written nothing more and nothing more passes to the mailbox on that connection,
    which other phones' sessions share. *)
Theorem front_can_lock :
  (exists y, run (started UPSTREAM_POOL) FrontProxyExample.trace = Some y /\ locked y 0 0 [] []) /\
  forall y p u got passed vs y',
    locked y p u got passed -> run y vs = Some y' ->
    exists x k, phones y' !! p = Some x /\ phone_got x = got /\
                upstreams y' !! u = Some k /\ mailbox_got k = passed.
Proof.
  split.
  - assert (option_map FrontProxyExample.waiting (run (started UPSTREAM_POOL) FrontProxyExample.trace) =
      Some true) as H by (vm_compute; reflexivity).
    destruct (run (started UPSTREAM_POOL) FrontProxyExample.trace) as [y|]; [|done].
    exists y. split; [done|]. apply waiting_locked. by injection H.
  - intros y p u got passed vs y' Hl Hr.
    destruct (locked_run _ _ _ _ _ _ _ Hl Hr) as [(x & f & a & Hx & _ & _ & Hg) (k & s & m & Hk & _ & _ & _ & Hp) _].
    by exists x, k.
Qed.

Lemma front_never_crosses_witness :
  exists y h, telling (started 2) (mkStory ∅ [] [])
      (FrontProxyExample.opening ++ [EWrite 0; ERead 0 FrontProxyExample.answer; EDeliver 0; EReply 0 true])
      = Some (y, h) /\
    forall x s b, phones y !! 0 = Some x -> Text s b ∈ phone_got x ->
      exists id, given h !! id = Some (0, s) /\ (id, b) ∈ said h.
Proof.
  destruct (telling (started 2) (mkStory ∅ [] [])
    (FrontProxyExample.opening ++ [EWrite 0; ERead 0 FrontProxyExample.answer; EDeliver 0; EReply 0 true]))
    as [[y h]|] eqn:E.
  - exists y, h. split; [reflexivity|]. intros x s b Hx Hm.
    refine (proj1 (front_never_crosses 2 _ y h _ E) 0 x s b Hx Hm). vm_compute. reflexivity.
  - exfalso. apply (f_equal (fun o => bool_decide (is_Some o))) in E. vm_compute in E. discriminate.
Defined.
