(* ===== verification/MailboxClient.v ===== *)
(** * The client of a mailbox, and of a constellation of them

    [crates/rotelyx-mailbox-client/src/lib.rs].  A [Mailbox] of the code is one of
    two things: one connection ([connect]), here a [Link], or several
    ([connect_constellation]), here a [Constellation] whose peers are links; each
    method is a definition for either, and one on [Mailbox] that asks [spread].

    A websocket is what will have arrived on it: [inbox], in order, with a far end
    that says, for every request written, whether the write succeeded and what
    arrives after it.  An operation that waits for something that never comes is
    [None].  JSON is [serde_json]'s: a text is the reply it parses to, if any.  The
    deadline of [next_envelope] is the number of turns it leaves time for. *)

From S2P Require Import Prelude Crypto Envelope Capability Hex Directory.
From S2P Require Session.
Import Session (FrameBase64, frame_encode, frame_decode).

Definition BLIND_TOKEN_MINIMUM : Z := 240.
Definition TIER_REFUSAL : bytes := String.list_byte_of_string "tier allows at most".
Definition SEEN_AT_MOST : Z := 4000.

(** [data_encoding]'s [HEXLOWER] and [HEXLOWER_PERMISSIVE]. *)
Class HexLower := {
  hexlower_encode : bytes -> bytes;
  hexlower_permissive : bytes -> option bytes;
}.

Class HexLowerLaws `(HexLower) : Prop := {
  hexlower_is l : hexlower_encode l = hex_lower l;
  permissive_printed l : hexlower_permissive (hex_lower l) = Some l;
}.

(** A [String] made of bytes that are ASCII. *)
Definition text (l : bytes) : rstring := default (RString [] I) (from_utf8 l).

(** [str::contains]. *)
Definition str_contains (l k : bytes) : bool :=
  existsb (fun i => bool_decide (take (length k) (drop i l) = k)) (seq 0 (S (length l))).

(** ** The protocol, as the client has it *)

Inductive Request :=
| Subscribe (tags : list rstring)
| Collected (digests : list rstring)
| Unsubscribe (tags : list rstring)
| Deposit (envelope : rstring)
| Auth (token : rstring)
| AuthBlind (token : rstring).

Inductive Reply :=
| Ready (waiting : Z)
| Envelope (envelope : rstring)
| Stored
| Error (message : rstring)
| OverQuota (limit used : Z) (tier : rstring)
| Tier (tier : rstring) (max_fanout max_payload retention_days bytes_remaining : Z)
| Other.

Record Granted := mkGranted {
  g_tier : rstring;
  g_max_fanout : Z;
  g_max_payload : Z;
  g_retention_days : Z;
  g_bytes_remaining : Z;
}.

(** Why an operation failed, by where the code says so. *)
Inductive Failure :=
| Gone
| Unexpected
| SubscriptionRefused (message : rstring)
| EnvelopeRefused (message : rstring)
| AllowanceSpent (limit used : Z) (tier : rstring)
| TokenRefused (message : rstring)
| ExpectedATier (got : Reply)
| MailboxSaid (message : rstring)
| NoneStored
| NoneAccepted
| NoneAnswered.

Definition is_gone (e : Failure) : bool := match e with Gone => true | _ => false end.

Inductive Deposited :=
| DStored
| RefusedByTier (why : Failure)
| Refused (why : Failure).

(** What a read of the websocket gives: a text, something else, a closing frame
    or an error. *)
Inductive Incoming :=
| Text (parsed : option Reply)
| Ignored
| Closed
| Failed.

(** An answer, [None] while it has not come, and what the operation left. *)
Definition Op (A S : Type) : Type := option (Result A Failure * S).

Definition obind {A B S} (r : Op A S) (k : A -> S -> Op B S) : Op B S :=
  match r with
  | Some (Ok a, s) => k a s
  | Some (Err e, s) => Some (Err e, s)
  | None => None
  end.

Notation "'let*' ( x , s ) ':=' r 'in' k" := (obind r (fun x s => k))
  (at level 10, x name, s name, r at level 100, k at level 200) : rotelyx_scope.

(** What a client is asked for. *)

Inductive Call :=
| CSubscribe (tags : list rstring)
| CCollected (envelopes : list rstring)
| CUnsubscribe (tags : list rstring)
| CDeposit (envelope : rstring)
| CAuthenticate (t : rstring)
| CHold (t : rstring)
| CNext (waits : list nat).

Section Client.
Context `{BL : Blake3, BH : Blake3Hash, FB : FrameBase64, HL : HexLower}.
Context {W : Type} (far : W -> Request -> bool * list Incoming * W).

(** After a closing frame or an error a stream gives nothing more. *)
Record Socket := mkSocket { inbox : list Incoming; ended : bool; far_end : W }.

(** One connection. *)
Record Link := mkLink {
  socket : Socket;
  url : rstring;
  pending : list rstring;
  token : option rstring;
  presented : bool;
}.

Definition with_socket (l : Link) (s : Socket) : Link :=
  mkLink s (url l) (pending l) (token l) (presented l).
Definition with_pending (l : Link) (p : list rstring) : Link :=
  mkLink (socket l) (url l) p (token l) (presented l).

Definition connect (opens : rstring -> option Socket) (u : rstring) : option Link :=
  s ← opens u; Some (mkLink s u [] None false).

(** ** The socket *)

Definition send (l : Link) (r : Request) : Op unit Link :=
  let s := socket l in
  let '(written, arrives, w) := far (far_end s) r in
  let l := with_socket l (mkSocket (inbox s ++ arrives) (ended s) w) in
  Some (if written : bool then Ok tt else Err Gone, l).

(** The loop of [next_reply] over the messages that have come. *)
Fixpoint read_text (l : list Incoming) : option (Result Reply Failure * (list Incoming * bool)) :=
  match l with
  | [] => None
  | Text (Some r) :: l => Some (Ok r, (l, false))
  | Text None :: l => Some (Err Unexpected, (l, false))
  | Ignored :: l => read_text l
  | (Closed | Failed) :: l => Some (Err Gone, (l, true))
  end.

Definition next_reply (l : Link) : Op Reply Link :=
  let s := socket l in
  if ended s then Some (Err Gone, l)
  else
    '(r, (rest, e)) ← read_text (inbox s);
    Some (r, with_socket l (mkSocket rest e (far_end s))).

(** ** One connection *)

Fixpoint await_ready (fuel : nat) (l : Link) (waiting : list rstring) : Op (list rstring) Link :=
  match fuel with
  | O => None
  | S fuel =>
      let* (r, l) := next_reply l in
      match r with
      | Envelope e => await_ready fuel l (waiting ++ [e])
      | Ready _ => Some (Ok waiting, l)
      | Error m => Some (Err (SubscriptionRefused m), l)
      | _ => await_ready fuel l waiting
      end
  end.

(** A reply takes at least one message, so the messages there are bound the loop. *)
Definition turns_left (l : Link) : nat := S (length (inbox (socket l))).

Definition link_subscribe (l : Link) (tags : list rstring) : Op (list rstring) Link :=
  let* (_, l) := send l (Subscribe tags) in
  await_ready (turns_left l) l [].

Definition receipt (b64 : rstring) : option rstring :=
  raw ← frame_decode (rs b64);
  e ← rok (envelope_from_bytes raw);
  Some (text (hexlower_encode (ab (digest e)))).

Definition link_collected (l : Link) (envelopes : list rstring) : Op unit Link :=
  match envelopes with
  | [] => Some (Ok tt, l)
  | _ =>
      match omap receipt envelopes with
      | [] => Some (Ok tt, l)
      | digests => send l (Collected digests)
      end
  end.

Definition link_unsubscribe (l : Link) (tags : list rstring) : Op unit Link :=
  send l (Unsubscribe tags).

Fixpoint await_stored (fuel : nat) (l : Link) : Op Deposited Link :=
  match fuel with
  | O => None
  | S fuel =>
      let* (r, l) := next_reply l in
      match r with
      | Stored => Some (Ok DStored, l)
      | Error m =>
          if str_contains (rs m) TIER_REFUSAL
          then Some (Ok (RefusedByTier (EnvelopeRefused m)), l)
          else Some (Ok (Refused (EnvelopeRefused m)), l)
      | OverQuota limit used tier => Some (Ok (RefusedByTier (AllowanceSpent limit used tier)), l)
      | Envelope e => await_stored fuel (with_pending l (pending l ++ [e]))
      | _ => await_stored fuel l
      end
  end.

Definition deposit_once (l : Link) (envelope : rstring) : Op Deposited Link :=
  let* (_, l) := send l (Deposit envelope) in
  await_stored (turns_left l) l.

Fixpoint await_tier (fuel : nat) (l : Link) : Op Granted Link :=
  match fuel with
  | O => None
  | S fuel =>
      let* (r, l) := next_reply l in
      match r with
      | Tier t fanout payload days bytes => Some (Ok (mkGranted t fanout payload days bytes), l)
      | Error m => Some (Err (TokenRefused m), l)
      | Envelope e => await_tier fuel (with_pending l (pending l ++ [e]))
      | other => Some (Err (ExpectedATier other), l)
      end
  end.

Definition link_authenticate (l : Link) (t : rstring) : Op Granted Link :=
  let t := text (trim (rs t)) in
  let request := if BLIND_TOKEN_MINIMUM <=? zlen (rs t) then AuthBlind t else Auth t in
  let* (_, l) := send l request in
  await_tier (turns_left l) l.

Definition link_hold_token (l : Link) (t : rstring) : Link :=
  mkLink (socket l) (url l) (pending l) (Some t) (presented l).

Definition present_held_token (l : Link) : Op bool Link :=
  if presented l then Some (Ok false, l)
  else
    match token l with
    | None => Some (Ok false, l)
    | Some t =>
        let* (_, l) := link_authenticate l t in
        Some (Ok true, mkLink (socket l) (url l) (pending l) (token l) true)
    end.

(** [for attempt in 0..2], [tries] of them to go; [None] with none left is
    [unreachable!]. *)
Fixpoint attempts (tries : nat) (attempt : Z) (l : Link) (envelope : rstring) : Op unit Link :=
  match tries with
  | O => None
  | S tries =>
      let* (d, l) := deposit_once l envelope in
      match d with
      | DStored => Some (Ok tt, l)
      | RefusedByTier why =>
          if attempt =? 0 then
            let* (shown, l) := present_held_token l in
            if shown : bool then attempts tries (attempt + 1) l envelope else Some (Err why, l)
          else Some (Err why, l)
      | Refused why => Some (Err why, l)
      end
  end.

Definition link_deposit (l : Link) (envelope : rstring) : Op unit Link := attempts 2 0 l envelope.

(** The loop over replies, while there is time; when nothing more arrives the
    timeout fires. *)
Fixpoint poll (turns : nat) (l : Link) : Result (option rstring) Failure * Link :=
  match turns with
  | O => (Ok None, l)
  | S turns =>
      match next_reply l with
      | None => (Ok None, l)
      | Some (Err e, l) => (Err e, l)
      | Some (Ok (Envelope e), l) => (Ok (Some e), l)
      | Some (Ok (Error m), l) => (Err (MailboxSaid m), l)
      | Some (Ok _, l) => poll turns l
      end
  end.

Definition link_next (turns : nat) (l : Link) : Result (option rstring) Failure * Link :=
  match pending l with
  | e :: p => (Ok (Some e), with_pending l p)
  | [] => poll turns l
  end.

(** The envelopes a call hands to its caller. *)
Definition link_call (l : Link) (c : Call) : Op (list rstring) Link :=
  let quiet {A} (r : Op A Link) : Op (list rstring) Link := let* (_, l) := r in Some (Ok [], l) in
  match c with
  | CSubscribe tags => link_subscribe l tags
  | CCollected es => quiet (link_collected l es)
  | CUnsubscribe tags => quiet (link_unsubscribe l tags)
  | CDeposit e => quiet (link_deposit l e)
  | CAuthenticate t => quiet (link_authenticate l t)
  | CHold t => Some (Ok [], link_hold_token l t)
  | CNext waits =>
      let '(r, l) := link_next (sum_list waits) l in
      Some (match r with Ok e => Ok (option_list e) | Err x => Err x end, l)
  end.

Fixpoint link_run (l : Link) (cs : list Call) : option (list (Result (list rstring) Failure) * Link) :=
  match cs with
  | [] => Some ([], l)
  | c :: cs =>
      '(r, l) ← link_call l c;
      '(rs, l) ← link_run l cs;
      Some (r :: rs, l)
  end.

(** ** A constellation *)

Record Constellation := mkConstellation {
  peers : list Link;
  directory : Directory;
  seen : gset bytes;
  seen_order : list rstring;
  next_peer : Z;
}.

Definition with_peers (c : Constellation) (p : list Link) : Constellation :=
  mkConstellation p (directory c) (seen c) (seen_order c) (next_peer c).

Definition connect_constellation (opens : rstring -> option Socket) (d : Directory)
    : Result Constellation Failure :=
  match omap (fun m => connect opens (Directory.url m)) (mailboxes d) with
  | [] => Err NoneAnswered
  | peers => Ok (mkConstellation peers d ∅ [] 0)
  end.

(** [tag_from_hex] and [tag_of_envelope] of the client. *)
Definition tag_of_hex (s : rstring) : option Tag :=
  l ← hexlower_permissive (rs s); try_into 32 l.

Definition tag_of_envelope (envelope_b64 : rstring) : option rstring :=
  raw ← frame_decode (rs envelope_b64);
  e ← rok (envelope_from_bytes raw);
  Some (text (hexlower_encode (ab (env_tag e)))).

Definition placed_at (c : Constellation) (tag : Tag) (p : Link) : bool :=
  existsb (fun m => bool_decide (Directory.url m = url p)) (placement (directory c) tag).

Definition holders_of (c : Constellation) (tag_hex : rstring) : list nat :=
  let all := seq 0 (length (peers c)) in
  match tag_of_hex tag_hex with
  | None => all
  | Some tag =>
      match placement (directory c) tag with
      | [] => all
      | _ =>
          match retain (fun i => from_option (placed_at c tag) false (peers c !! i)) all with
          | [] => all
          | picked => picked
          end
      end
  end.

Definition first_sight (c : Constellation) (e : rstring) : bool * Constellation :=
  if bool_decide (rs e ∈ seen c) then (false, c)
  else
    let s := {[rs e]} ∪ seen c in
    let o := seen_order c ++ [e] in
    let keep s o := mkConstellation (peers c) (directory c) s o (next_peer c) in
    if SEEN_AT_MOST <? zlen o then
      match o with
      | old :: o => (true, keep (s ∖ {[rs old]}) o)
      | [] => (true, keep s o)
      end
    else (true, keep s o).

(** The loop that keeps the envelopes seen for the first time. *)
Fixpoint sift (c : Constellation) (l : list rstring) : list rstring * Constellation :=
  match l with
  | [] => ([], c)
  | e :: l =>
      let '(first, c) := first_sight c e in
      let '(out, c) := sift c l in
      (if first : bool then e :: out else out, c)
  end.

(** [grouped[i].push(tag)] for each tag and each of its holders. *)
Definition grouped (c : Constellation) (tags : list rstring) : list (list rstring) :=
  foldl (fun g tag => foldl (fun g i => alter (fun its => its ++ [tag]) i g) g (holders_of c tag))
    (replicate (length (peers c)) []) tags.

Fixpoint subscribe_each (p : list Link) (g : list (list rstring)) : option (list rstring * list Link) :=
  match p, g with
  | l :: p, [] :: g => r ← subscribe_each p g; Some (r.1, l :: r.2)
  | l :: p, its :: g =>
      '(found, l) ← link_subscribe l its;
      r ← subscribe_each p g;
      Some (default [] (rok found) ++ r.1, l :: r.2)
  | _, _ => Some ([], p)
  end.

Definition many_subscribe (c : Constellation) (tags : list rstring)
    : option (list rstring * Constellation) :=
  '(waiting, p) ← subscribe_each (peers c) (grouped c tags);
  Some (sift (with_peers c p) waiting).

(** [let _ = peer.method(..).await] for each peer in turn. *)
Fixpoint for_each_peer {A} (f : Link -> Op A Link) (p : list Link) : option (list Link) :=
  match p with
  | [] => Some []
  | l :: p => '(_, l) ← f l; p ← for_each_peer f p; Some (l :: p)
  end.

Definition many_collected (c : Constellation) (envelopes : list rstring) : option Constellation :=
  match envelopes with
  | [] => Some c
  | _ => p ← for_each_peer (fun l => link_collected l envelopes) (peers c); Some (with_peers c p)
  end.

Fixpoint unsubscribe_each (p : list Link) (g : list (list rstring)) : option (list Link) :=
  match p, g with
  | l :: p, [] :: g => p ← unsubscribe_each p g; Some (l :: p)
  | l :: p, its :: g => '(_, l) ← link_unsubscribe l its; p ← unsubscribe_each p g; Some (l :: p)
  | _, _ => Some p
  end.

Definition many_unsubscribe (c : Constellation) (tags : list rstring) : option Constellation :=
  p ← unsubscribe_each (peers c) (grouped c tags); Some (with_peers c p).

(** The loop over the holders, with the last refusal. *)
Fixpoint deposit_each (p : list Link) (holders : list nat) (envelope : rstring)
    : option (nat * option Failure * list Link) :=
  match holders with
  | [] => Some (0%nat, None, p)
  | i :: holders =>
      l ← p !! i;
      '(r, l) ← link_deposit l envelope;
      '(stored, refused, p) ← deposit_each (<[i := l]> p) holders envelope;
      Some (match r with
            | Ok _ => (S stored, refused, p)
            | Err e => (stored, match refused with Some e' => Some e' | None => Some e end, p)
            end)
  end.

Definition many_deposit (c : Constellation) (envelope : rstring) : Op unit Constellation :=
  let holders :=
    match tag_of_envelope envelope with
    | Some tag => holders_of c tag
    | None => seq 0 (length (peers c))
    end in
  '(stored, refused, p) ← deposit_each (peers c) holders envelope;
  Some (if (0 <? stored)%nat then Ok tt else Err (default NoneStored refused), with_peers c p).

Definition many_hold_token (c : Constellation) (t : rstring) : Constellation :=
  with_peers c (flip link_hold_token t <$> peers c).

(** The loop over the peers, with the last grant and the last refusal. *)
Fixpoint authenticate_each (p : list Link) (t : rstring)
    : option (option Granted * option Failure * list Link) :=
  match p with
  | [] => Some (None, None, [])
  | l :: p =>
      '(r, l) ← link_authenticate l t;
      '(granted, refused, p) ← authenticate_each p t;
      Some (match r with
            | Ok g => (match granted with Some g' => Some g' | None => Some g end, refused, l :: p)
            | Err e => (granted, match refused with Some e' => Some e' | None => Some e end, l :: p)
            end)
  end.

Definition many_authenticate (c : Constellation) (t : rstring) : Op Granted Constellation :=
  '(granted, refused, p) ← authenticate_each (peers c) t;
  Some (match granted with
        | Some g => Ok g
        | None => Err (default NoneAccepted refused)
        end, with_peers c p).

(** Round robin until the deadline: [waits] has one entry for each turn there is
    time for, what that turn waits.  An error of a peer is passed over. *)
Fixpoint round_robin (waits : list nat) (c : Constellation)
    : Result (option rstring) Failure * Constellation :=
  match waits with
  | [] => (Ok None, c)
  | wait :: waits =>
      let i := Z.to_nat (next_peer c mod zlen (peers c)) in
      let c := mkConstellation (peers c) (directory c) (seen c) (seen_order c)
                 (wrap64 (next_peer c + 1)) in
      match peers c !! i with
      | None => (Ok None, c)
      | Some l =>
          let '(r, l) := link_next wait l in
          let c := with_peers c (<[i := l]> (peers c)) in
          match r with
          | Ok (Some e) =>
              let '(first, c) := first_sight c e in
              if first : bool then (Ok (Some e), c) else round_robin waits c
          | Ok None | Err _ => round_robin waits c
          end
      end
  end.

(** ** Either *)

Inductive Mailbox :=
| Single (l : Link)
| Spread (c : Constellation).

Definition spread (m : Mailbox) : bool := match m with Spread _ => true | Single _ => false end.

(** The constellation compiled in. *)
Definition CONSTELLATION : Directory :=
  let row n u := Directory.mkMailbox (text (String.list_byte_of_string n))
                   (text (String.list_byte_of_string u)) in
  mkDirectory 1 2
    [row "orvexa" "wss://orvexa.telyx.me/mailbox"; row "caelix" "wss://caelix.telyx.me/mailbox";
     row "nyxara" "wss://nyxara.telyx.me/mailbox"]%string.

Definition in_constellation (u : rstring) : bool :=
  existsb (fun m => bool_decide (Directory.url m = u)) (mailboxes CONSTELLATION).

Definition connect_for (opens : rstring -> option Socket) (u : rstring) : Result Mailbox Failure :=
  if in_constellation u then
    let? c := connect_constellation opens CONSTELLATION in Ok (Spread c)
  else let? l := ok_or NoneAnswered (connect opens u) in Ok (Single l).

Definition subscribe (m : Mailbox) (tags : list rstring) : Op (list rstring) Mailbox :=
  match m with
  | Single l => '(r, l) ← link_subscribe l tags; Some (r, Single l)
  | Spread c => '(r, c) ← many_subscribe c tags; Some (Ok r, Spread c)
  end.

Definition collected (m : Mailbox) (envelopes : list rstring) : Op unit Mailbox :=
  match m with
  | Single l => '(r, l) ← link_collected l envelopes; Some (r, Single l)
  | Spread c => c ← many_collected c envelopes; Some (Ok tt, Spread c)
  end.

Definition unsubscribe (m : Mailbox) (tags : list rstring) : Op unit Mailbox :=
  match m with
  | Single l => '(r, l) ← link_unsubscribe l tags; Some (r, Single l)
  | Spread c => c ← many_unsubscribe c tags; Some (Ok tt, Spread c)
  end.

Definition deposit (m : Mailbox) (envelope : rstring) : Op unit Mailbox :=
  match m with
  | Single l => '(r, l) ← link_deposit l envelope; Some (r, Single l)
  | Spread c => '(r, c) ← many_deposit c envelope; Some (r, Spread c)
  end.

Definition hold_token (m : Mailbox) (t : rstring) : Mailbox :=
  match m with
  | Single l => Single (link_hold_token l t)
  | Spread c => Spread (many_hold_token c t)
  end.

Definition authenticate (m : Mailbox) (t : rstring) : Op Granted Mailbox :=
  match m with
  | Single l => '(r, l) ← link_authenticate l t; Some (r, Single l)
  | Spread c => '(r, c) ← many_authenticate c t; Some (r, Spread c)
  end.

(** [waits] is the time there is; a single mailbox has as many turns as it says. *)
Definition next_envelope (m : Mailbox) (waits : list nat) : Result (option rstring) Failure * Mailbox :=
  match m with
  | Single l => let '(r, l) := link_next (sum_list waits) l in (r, Single l)
  | Spread c => let '(r, c) := round_robin waits c in (r, Spread c)
  end.

End Client.

(** ** What a connection gives *)

(** The envelopes among what arrived. *)
Definition carried (i : Incoming) : option rstring :=
  match i with Text (Some (Envelope e)) => Some e | _ => None end.

Definition envs (l : list Incoming) : list rstring := omap carried l.

Lemma envs_app l k : envs (l ++ k) = envs l ++ envs k.
Proof. apply omap_app. Qed.

Section Calls.
Context `{BL : Blake3, BH : Blake3Hash, FB : FrameBase64, HL : HexLower}.

(** A far end that is remembered: each request written, with what arrived after
    it. *)
Definition Log : Type := list (Request * list Incoming).

Definition logged {W} (far : W -> Request -> bool * list Incoming * W)
    (w : W * Log) (r : Request) : bool * list Incoming * (W * Log) :=
  let '(b, arrives, w') := far w.1 r in (b, arrives, (w', w.2 ++ [(r, arrives)])).

Context {W : Type} (far0 : W -> Request -> bool * list Incoming * W).

Abbreviation far := (logged far0).
Abbreviation TheLink := (@Link (W * Log)).

Definition log (l : TheLink) : Log := (far_end (socket l)).2.
Definition handed (rs : list (Result (list rstring) Failure)) : list rstring :=
  rs ≫= (fun r => default [] (rok r)).

(** [l'] is [l] after some reading and writing in which [out] left it. *)
Definition conserves (out : list rstring) (l l' : TheLink) : Prop :=
  exists d, log l' = log l ++ d /\
    out ++ pending l' ++ envs (inbox (socket l')) ≡ₚ
      pending l ++ envs (inbox (socket l)) ++ envs (concat d.*2).

Lemma conserves_refl l : conserves [] l l.
Proof. exists []. rewrite !app_nil_r. by split. Qed.

Lemma conserves_trans o1 o2 l1 l2 l3 :
  conserves o1 l1 l2 -> conserves o2 l2 l3 -> conserves (o1 ++ o2) l1 l3.
Proof.
  intros (d1 & L1 & P1) (d2 & L2 & P2). exists (d1 ++ d2). rewrite L2, L1, app_assoc. split; [done|].
  rewrite fmap_app, concat_app, envs_app, <- app_assoc, P2.
  rewrite (app_assoc (pending l2)), (app_assoc o1), P1. by rewrite <- !app_assoc.
Qed.

Lemma conserves_step l1 l2 l3 o : conserves [] l1 l2 -> conserves o l2 l3 -> conserves o l1 l3.
Proof. apply (conserves_trans []). Qed.

(** Putting what was read at the back of [pending]. *)
Lemma conserves_keep e l l' :
  conserves [e] l l' -> conserves [] l (with_pending l' (pending l' ++ [e])).
Proof.
  intros (d & L & P). exists d. split; [done|]. rewrite <- P. simpl.
  rewrite <- app_assoc. simpl. by rewrite <- Permutation_middle.
Qed.

Lemma read_text_spec l r rest e :
  read_text l = Some (r, (rest, e)) ->
  envs l = match r with Ok (Envelope x) => [x] | _ => [] end ++ envs rest /\
  (length rest < length l)%nat.
Proof.
  induction l as [|[[r'|]| | |] l IH]; simpl; [done|..].
  - intros [= <- <- <-]. split; [by destruct r'|lia].
  - intros [= <- <- <-]. split; [done|lia].
  - intros H. apply IH in H as [? ?]. split; [done|lia].
  - intros [= <- <- <-]. split; [done|lia].
  - intros [= <- <- <-]. split; [done|lia].
Qed.

(** What a read takes out of a link. *)
Definition taken (r : Result Reply Failure) : list rstring :=
  match r with Ok (Envelope x) => [x] | _ => [] end.

Lemma next_reply_conserves (l : TheLink) r l' : next_reply l = Some (r, l') -> conserves (taken r) l l'.
Proof.
  unfold next_reply. destruct (ended _).
  - intros [= <- <-]. apply conserves_refl.
  - destruct (read_text _) as [[r' [rest e]]|] eqn:E; [|done]. simpl. intros [= <- <-].
    apply read_text_spec in E as [E _]. exists []. rewrite app_nil_r. split; [done|]. simpl.
    rewrite E, app_nil_r. apply Permutation_app_swap_app.
Qed.

Lemma send_conserves l r o l' : send far l r = Some (o, l') -> conserves [] l l'.
Proof.
  unfold send, logged. destruct (far0 _ _) as [[b arrives] w] eqn:E. intros [= <- <-].
  exists [(r, arrives)]. split; [done|]. simpl. by rewrite app_nil_r, envs_app.
Qed.

(** [let*] in a goal about what an operation left. *)
Lemma obind_Some {A B S} (r : Op A S) (k : A -> S -> Op B S) b s' :
  obind r k = Some (b, s') ->
  (exists a s, r = Some (Ok a, s) /\ k a s = Some (b, s')) \/ (exists e, r = Some (Err e, s') /\ b = Err e).
Proof. destruct r as [[[a|e] s]|]; simpl; [left; by exists a, s|intros [= <- <-]; right; by exists e|done]. Qed.

Lemma await_ready_conserves fuel l w o l' :
  await_ready fuel l w = Some (o, l') ->
  exists more, conserves more l l' /\ (forall out, o = Ok out -> out = w ++ more).
Proof.
  revert l w. induction fuel as [|fuel IH]; intros l w; simpl; [done|].
  intros [(r & l1 & Hr & H)|(e & Hr & ->)]%obind_Some; apply next_reply_conserves in Hr; [|by exists []].
  assert (forall w', await_ready fuel l1 w' = Some (o, l') -> w' = w ++ taken (Ok r) ->
    exists more, conserves more l l' /\ (forall out, o = Ok out -> out = w ++ more)) as Hmore.
  { intros w' (more & Hm & Ho)%IH ->. exists (taken (Ok r) ++ more).
    split; [by eapply conserves_trans|]. intros out Hout. by rewrite app_assoc, (Ho out Hout). }
  destruct r as [n|e| |m| | |]; simpl in Hr; try (apply (Hmore _ H); by rewrite ?app_nil_r).
  - injection H as <- <-. exists []. split; [done|]. intros out [= <-]. by rewrite app_nil_r.
  - injection H as <- <-. by exists [].
Qed.

Lemma await_stored_conserves fuel l o l' : await_stored fuel l = Some (o, l') -> conserves [] l l'.
Proof.
  revert l. induction fuel as [|fuel IH]; intros l; simpl; [done|].
  intros [(r & l1 & Hr & H)|(e & Hr & ->)]%obind_Some; apply next_reply_conserves in Hr; [|done].
  destruct r as [n|e| |m| | |]; simpl in Hr; try (injection H as <- <-; exact Hr);
    try (apply IH in H; by eapply conserves_step).
  - apply IH in H. eapply conserves_step; [|done]. by apply conserves_keep.
  - destruct (str_contains _ _); by injection H as <- <-.
Qed.

Lemma await_tier_conserves fuel l o l' : await_tier fuel l = Some (o, l') -> conserves [] l l'.
Proof.
  revert l. induction fuel as [|fuel IH]; intros l; simpl; [done|].
  intros [(r & l1 & Hr & H)|(e & Hr & ->)]%obind_Some; apply next_reply_conserves in Hr; [|done].
  destruct r as [n|e| |m| | |]; simpl in Hr; try (injection H as <- <-; exact Hr).
  apply IH in H. eapply conserves_step; [|done]. by apply conserves_keep.
Qed.

Lemma deposit_once_conserves l e o l' : deposit_once far l e = Some (o, l') -> conserves [] l l'.
Proof.
  intros [(r & l1 & Hr & H)|(x & Hr & ->)]%obind_Some; apply send_conserves in Hr; [|done].
  apply await_stored_conserves in H. by eapply conserves_step.
Qed.

Lemma authenticate_conserves l t o l' : link_authenticate far l t = Some (o, l') -> conserves [] l l'.
Proof.
  intros [(r & l1 & Hr & H)|(x & Hr & ->)]%obind_Some; apply send_conserves in Hr; [|done].
  apply await_tier_conserves in H. by eapply conserves_step.
Qed.

Lemma present_conserves l o l' : present_held_token far l = Some (o, l') -> conserves [] l l'.
Proof.
  unfold present_held_token. destruct (presented l); [intros [= <- <-]; apply conserves_refl|].
  destruct (token l) as [t|]; [|intros [= <- <-]; apply conserves_refl].
  intros [(g & l1 & Hr & H)|(x & Hr & ->)]%obind_Some; apply authenticate_conserves in Hr; [|done].
  by injection H as <- <-.
Qed.

Lemma attempts_conserves n a l e o l' : attempts far n a l e = Some (o, l') -> conserves [] l l'.
Proof.
  revert a l. induction n as [|n IH]; intros a l; simpl; [done|].
  intros [(d & l1 & Hr & H)|(x & Hr & ->)]%obind_Some; apply deposit_once_conserves in Hr; [|done].
  destruct d as [|why|why]; try (by injection H as <- <-).
  destruct (a =? 0); [|by injection H as <- <-].
  apply obind_Some in H as [(shown & l2 & Hp & H)|(x & Hp & ->)]; apply present_conserves in Hp.
  - eapply conserves_step; [done|]. destruct shown; [|by injection H as <- <-].
    apply IH in H. by eapply conserves_step.
  - by eapply conserves_step.
Qed.

Lemma collected_conserves l es o l' : link_collected far l es = Some (o, l') -> conserves [] l l'.
Proof.
  unfold link_collected. destruct es; [intros [= <- <-]; apply conserves_refl|].
  destruct (omap _ _); [intros [= <- <-]; apply conserves_refl|]. apply send_conserves.
Qed.

Lemma poll_conserves turns (l : TheLink) r l' :
  poll turns l = (r, l') -> conserves (match r with Ok e => option_list e | Err _ => [] end) l l'.
Proof.
  revert l. induction turns as [|turns IH]; intros l; simpl; [intros [= <- <-]; apply conserves_refl|].
  destruct (next_reply l) as [[[x|x] l1]|] eqn:E; [| |intros [= <- <-]; apply conserves_refl].
  - apply next_reply_conserves in E. destruct x; simpl in E; intros H; try (injection H as <- <-; exact E);
      apply IH in H; by eapply conserves_step.
  - apply next_reply_conserves in E. by intros [= <- <-].
Qed.

Lemma link_next_conserves turns (l : TheLink) r l' :
  link_next turns l = (r, l') -> conserves (match r with Ok e => option_list e | Err _ => [] end) l l'.
Proof.
  unfold link_next. destruct (pending l) as [|e p] eqn:E; [apply poll_conserves|].
  intros [= <- <-]. exists []. rewrite app_nil_r. split; [done|]. rewrite E. simpl. by rewrite app_nil_r.
Qed.

Lemma quiet_conserves {A} (r : Op A TheLink) l o l' :
  (forall x l', r = Some (x, l') -> conserves [] l l') ->
  (let* (_, l) := r in Some (Ok [], l)) = Some (o, l') ->
  conserves (default [] (rok o)) l l'.
Proof.
  intros Hr [(a & l1 & E & [= <- <-])|(e & E & ->)]%obind_Some; by apply Hr in E.
Qed.

Lemma link_call_conserves l c o l' :
  link_call far l c = Some (o, l') -> (forall tags, c = CSubscribe tags -> is_ok o = true) ->
  conserves (default [] (rok o)) l l'.
Proof.
  destruct c as [tags|es|tags|e|t|t|waits]; simpl; intros H Hok.
  - apply obind_Some in H as [(u & l1 & Hs & H)|(e & Hs & ->)]; apply send_conserves in Hs; [|done].
    apply await_ready_conserves in H as (more & Hm & Ho).
    destruct o as [out|e]; [|by specialize (Hok _ eq_refl)]. rewrite (Ho out) by done. by eapply conserves_step.
  - revert H. apply quiet_conserves. intros ? ?. apply collected_conserves.
  - revert H. apply quiet_conserves. intros ? ?. apply send_conserves.
  - revert H. apply quiet_conserves. intros ? ?. apply attempts_conserves.
  - revert H. apply quiet_conserves. intros ? ?. apply authenticate_conserves.
  - injection H as <- <-. exists []. rewrite app_nil_r. split; [done|]. simpl. by rewrite app_nil_r.
  - destruct (link_next (sum_list waits) l) as [r l1] eqn:E. injection H as <- <-.
    apply link_next_conserves in E. by destruct r.
Qed.

(** Nothing that reaches a client is dropped by it.  Over any run of calls in
    which no subscription failed, what was handed to the caller, what is kept aside
    and what is still unread are together exactly the envelopes that arrived, each
    as often as it did: none is lost in front of the answer to something else. *)
Theorem nothing_is_dropped l cs rs l' :
  link_run far l cs = Some (rs, l') ->
  (forall k tags, cs !! k = Some (CSubscribe tags) -> exists out, rs !! k = Some (Ok out)) ->
  exists d, log l' = log l ++ d /\
    handed rs ++ pending l' ++ envs (inbox (socket l')) ≡ₚ
      pending l ++ envs (inbox (socket l)) ++ envs (concat d.*2).
Proof.
  change (link_run far l cs = Some (rs, l') -> (forall k tags, cs !! k = Some (CSubscribe tags) ->
    exists out, rs !! k = Some (Ok out)) -> conserves (handed rs) l l').
  revert l rs. induction cs as [|c cs IH]; intros l rs; simpl.
  { intros [= <- <-] _. apply conserves_refl. }
  intros ([r l1] & Hc & ([rs1 l2] & Hr & [= <- <-])%bind_Some)%bind_Some Hok. simpl.
  eapply conserves_trans.
  - apply (link_call_conserves _ _ _ _ Hc). intros tags ->.
    destruct (Hok 0%nat tags eq_refl) as [out [= ->]]. done.
  - apply (IH _ _ Hr). intros k tags Hk. exact (Hok (S k) tags Hk).
Qed.
End Calls.

(** ** Copies of one envelope *)

Section Copies.
Context `{BL : Blake3, BH : Blake3Hash, FB : FrameBase64, HL : HexLower}.
Context {W : Type} (far : W -> Request -> bool * list Incoming * W).

Definition many_call (c : Constellation) (k : Call) : option (list rstring * @Constellation W) :=
  match k with
  | CSubscribe tags => many_subscribe far c tags
  | CCollected es => c ← many_collected far c es; Some ([], c)
  | CUnsubscribe tags => c ← many_unsubscribe far c tags; Some ([], c)
  | CDeposit e => '(_, c) ← many_deposit far c e; Some ([], c)
  | CAuthenticate t => '(_, c) ← many_authenticate far c t; Some ([], c)
  | CHold t => Some ([], many_hold_token c t)
  | CNext waits =>
      let '(r, c) := round_robin waits c in
      Some (match r with Ok e => option_list e | Err _ => [] end, c)
  end.

Fixpoint many_run (c : Constellation) (ks : list Call) : option (list rstring * @Constellation W) :=
  match ks with
  | [] => Some ([], c)
  | k :: ks => '(out, c) ← many_call c k; '(more, c) ← many_run c ks; Some (out ++ more, c)
  end.

(** The last [SEEN_AT_MOST] of a history. *)
Definition recent {A} (h : list A) : list A := drop (length h - Z.to_nat SEEN_AT_MOST) h.

(** A constellation remembers the last it handed over, and nothing else. *)
Record remembers (c : @Constellation W) (h : list rstring) : Prop := {
  rem_order : seen_order c = recent h;
  rem_set : seen c = list_to_set (rs <$> seen_order c);
  rem_apart : forall i j e, h !! i = Some e -> h !! j = Some e -> (i < j)%nat ->
                (Z.to_nat SEEN_AT_MOST < j - i)%nat;
}.

Lemma recent_snoc {A} (h : list A) e :
  recent (h ++ [e]) =
  if SEEN_AT_MOST <? zlen (recent h ++ [e]) then drop 1 (recent h ++ [e]) else recent h ++ [e].
Proof.
  unfold recent. rewrite zlen_app, length_app. unfold zlen. rewrite length_drop. cbn [length].
  case_cmp; rewrite drop_app.
  - rewrite (proj2 (Nat.sub_0_le _ (length h))) by (unfold SEEN_AT_MOST in *; lia).
    rewrite drop_app, drop_drop, !drop_0.
    rewrite length_drop, (proj2 (Nat.sub_0_le 1 _)) by (unfold SEEN_AT_MOST in *; lia).
    rewrite drop_0. do 2 f_equal. unfold SEEN_AT_MOST in *. lia.
  - rewrite (proj2 (Nat.sub_0_le _ (length h))) by (unfold SEEN_AT_MOST in *; lia).
    rewrite !drop_0. do 2 f_equal. unfold SEEN_AT_MOST in *. lia.
Qed.

Lemma recent_NoDup (h : list rstring) :
  (forall i j e, h !! i = Some e -> h !! j = Some e -> (i < j)%nat -> (Z.to_nat SEEN_AT_MOST < j - i)%nat) ->
  NoDup (recent h).
Proof.
  intros H. apply NoDup_alt. intros i j e Hi Hj. unfold recent in *. rewrite lookup_drop in Hi, Hj.
  pose proof (lookup_lt_Some _ _ _ Hi). pose proof (lookup_lt_Some _ _ _ Hj).
  destruct (Nat.lt_trichotomy i j) as [Hlt|[->|Hlt]]; [|done|].
  - pose proof (H _ _ _ Hi Hj). lia.
  - pose proof (H _ _ _ Hj Hi). lia.
Qed.

Lemma first_sight_remembers c h e b c' :
  remembers c h -> first_sight c e = (b, c') ->
  peers c' = peers c /\ remembers c' (if b then h ++ [e] else h) /\
  (b = false <-> e ∈ recent h).
Proof.
  intros [Ho Hs Ha]. unfold first_sight.
  assert (rs e ∈ seen c <-> e ∈ recent h) as Hin.
  { rewrite Hs, elem_of_list_to_set, list_elem_of_fmap, Ho. split; [|by exists e].
    intros (x & Hx & ?). by rewrite (rstring_eq e x). }
  case_bool_decide as Hd; [intros [= <- <-]; split; [done|]; split; [done|by split; [intros _; apply Hin|]]|].
  assert (forall i j x, (h ++ [e]) !! i = Some x -> (h ++ [e]) !! j = Some x -> (i < j)%nat ->
    (Z.to_nat SEEN_AT_MOST < j - i)%nat) as Ha'.
  { intros i j x Hi Hj Hlt. apply lookup_snoc_Some in Hj as [[Hj Hj']|[-> <-]].
    - rewrite lookup_app_l in Hi by lia. by eapply Ha.
    - rewrite lookup_app_l in Hi by done. destruct (decide (length h - i <= Z.to_nat SEEN_AT_MOST)%nat); [|lia].
      destruct Hd. apply Hin. apply list_elem_of_lookup. exists (i - (length h - Z.to_nat SEEN_AT_MOST))%nat.
      unfold recent. rewrite lookup_drop, <- Hi. f_equal. lia. }
  assert (list_to_set (rs <$> (seen_order c ++ [e])) = {[rs e]} ∪ seen c) as Hset.
  { rewrite fmap_app, list_to_set_app_L, Hs. simpl. set_solver. }
  assert (e ∉ recent h) as Hne by (by rewrite <- Hin).
  destruct (SEEN_AT_MOST <? zlen (seen_order c ++ [e])) eqn:E.
  - destruct (seen_order c ++ [e]) as [|old o] eqn:Eo; [by destruct (seen_order c)|].
    intros [= <- <-]. split; [done|]. split; [|done].
    split; simpl; [by rewrite recent_snoc, <- Ho, Eo, E| |done].
    rewrite <- Hset. simpl. assert (NoDup (old :: o)) as [Hold _]%NoDup_cons.
    { rewrite <- Eo. apply NoDup_app. rewrite Ho. split; [by apply recent_NoDup|].
      split; [|apply NoDup_singleton]. intros x Hx ->%list_elem_of_singleton. done. }
    assert (rs old ∉ (list_to_set (rs <$> o) : gset bytes)); [|set_solver].
    rewrite elem_of_list_to_set, list_elem_of_fmap. intros (x & Hx & ?). apply Hold.
    by rewrite (rstring_eq old x).
  - intros [= <- <-]. split; [done|]. split; [|done].
    split; simpl; [by rewrite recent_snoc, <- Ho, E|by rewrite Hset|done].
Qed.
Lemma remembers_peers c h p n :
  remembers c h -> remembers (mkConstellation p (directory c) (seen c) (seen_order c) n) h.
Proof. intros [? ? ?]. by split. Qed.

Lemma sift_remembers c h l out c' :
  remembers c h -> sift c l = (out, c') ->
  remembers c' (h ++ out) /\ peers c' = peers c /\ (forall e, e ∈ l -> e ∈ recent h ++ out).
Proof.
  revert c h out. induction l as [|e l IH]; intros c h out Hc; simpl.
  { intros [= <- <-]. rewrite app_nil_r. split; [done|]. split; [done|]. by intros e ?%not_elem_of_nil. }
  destruct (first_sight c e) as [b c1] eqn:E. destruct (sift c1 l) as [out1 c2] eqn:E1. intros [= <- <-].
  apply (first_sight_remembers _ h) in E as (Hp & H1 & Hb); [|done].
  apply (IH _ _ _ H1) in E1 as (H2 & Hp2 & Hin). rewrite <- Hp.
  destruct b; rewrite <- ?app_assoc in H2; (split; [done|]; split; [done|]).
  - intros x [->|Hx]%elem_of_cons; [set_solver|]. specialize (Hin x Hx). rewrite recent_snoc in Hin.
    destruct (_ <? _); [|set_solver]. destruct (recent h); simpl in Hin; set_solver.
  - intros x [->|Hx]%elem_of_cons; [apply elem_of_app; left; by apply Hb|by apply Hin].
Qed.

Lemma round_robin_remembers waits c h r c' :
  remembers c h -> round_robin waits c = (r, c') ->
  remembers c' (h ++ match r with Ok e => option_list e | Err _ => [] end).
Proof.
  revert c. induction waits as [|n waits IH]; intros c Hc; cbn [round_robin].
  { intros [= <- <-]. by rewrite app_nil_r. }
  cbv zeta. cbn [peers]. destruct (peers c !! _) as [l|].
  2: { intros [= <- <-]. simpl. rewrite app_nil_r. by apply remembers_peers. }
  destruct (link_next n l) as [[[e|]|x] l1].
  2, 3: intros H; by eapply IH in H; [|by do 2 apply remembers_peers].
  destruct (first_sight _ e) as [b c1] eqn:E.
  apply (first_sight_remembers _ h) in E as (_ & H1 & _); [|by do 2 apply remembers_peers].
  destruct b; [by intros [= <- <-]|]. by apply IH.
Qed.

Lemma many_call_remembers c h k out c' :
  remembers c h -> many_call c k = Some (out, c') -> remembers c' (h ++ out).
Proof.
  intros Hc. destruct k as [tags|es|tags|e|t|t|waits]; simpl.
  - unfold many_subscribe. intros ([w p] & _ & [= H])%bind_Some.
    eapply sift_remembers in H as [H _]; [exact H|]. by apply remembers_peers.
  - unfold many_collected. destruct es; [intros [= <- <-]; by rewrite app_nil_r|].
    intros (c1 & (p & _ & [= <-])%bind_Some & [= <- <-])%bind_Some. rewrite app_nil_r. by apply remembers_peers.
  - intros (c1 & (p & _ & [= <-])%bind_Some & [= <- <-])%bind_Some. rewrite app_nil_r. by apply remembers_peers.
  - intros ([r c1] & ([[n f] p] & _ & [= _ <-])%bind_Some & [= <- <-])%bind_Some. rewrite app_nil_r.
    by apply remembers_peers.
  - intros ([r c1] & ([[n f] p] & _ & [= _ <-])%bind_Some & [= <- <-])%bind_Some. rewrite app_nil_r.
    by apply remembers_peers.
  - intros [= <- <-]. rewrite app_nil_r. by apply remembers_peers.
  - destruct (round_robin waits c) as [r c1] eqn:E. intros [= <- <-].
    by apply (round_robin_remembers _ _ h) in E.
Qed.

(** Two holders of one envelope are one envelope.  Whatever a constellation is
    asked and however its members answer, between two copies of one envelope that
    it hands over lie at least four thousand others; so no message is handed over
    twice while the second copy arrives within four thousand messages. *)
Theorem copies_are_dropped d p n ks out c :
  many_run (mkConstellation p d ∅ [] n) ks = Some (out, c) ->
  forall i j e, out !! i = Some e -> out !! j = Some e -> (i < j)%nat ->
    SEEN_AT_MOST < Z.of_nat j - Z.of_nat i.
Proof.
  assert (forall ks c h out c', remembers c h -> many_run c ks = Some (out, c') ->
    remembers c' (h ++ out)) as Hrun.
  { clear. intros ks. induction ks as [|k ks IH]; intros c h out c' Hc; simpl.
    - intros [= <- <-]. by rewrite app_nil_r.
    - intros ([o1 c1] & H1 & ([o2 c2] & H2 & [= <- <-])%bind_Some)%bind_Some.
      apply (many_call_remembers _ _ _ _ _ Hc) in H1. apply (IH _ _ _ _ H1) in H2. by rewrite app_assoc. }
  intros H%(Hrun _ _ []); [|split; [done|done|by intros i j e; rewrite lookup_nil]].
  intros i j e Hi Hj Hlt. pose proof (rem_apart _ _ H _ _ _ Hi Hj Hlt). unfold SEEN_AT_MOST in *. lia.
Qed.
End Copies.

(** ** When the token is shown *)

Definition is_auth (r : Request) : bool := match r with Auth _ | AuthBlind _ => true | _ => false end.

(** A reply that says a bigger tier would have taken the envelope. *)
Definition is_refusal (i : Incoming) : bool :=
  match i with
  | Text (Some (Error m)) => str_contains (rs m) TIER_REFUSAL
  | Text (Some (OverQuota _ _ _)) => true
  | _ => false
  end.

Definition auths (d : Log) : Z := zlen (retain is_auth d.*1).
Definition refusals (l : list Incoming) : Z := zlen (retain is_refusal l).

Lemma auths_app d d' : auths (d ++ d') = auths d + auths d'.
Proof. unfold auths. by rewrite fmap_app, retain_app, zlen_app. Qed.

Lemma refusals_app l k : refusals (l ++ k) = refusals l + refusals k.
Proof. unfold refusals. by rewrite retain_app, zlen_app. Qed.

Lemma refusals_nonneg l : 0 <= refusals l.
Proof. apply zlen_nonneg. Qed.

Section Tokens.
Context `{BL : Blake3, BH : Blake3Hash, FB : FrameBase64, HL : HexLower}.
Context {W : Type} (far0 : W -> Request -> bool * list Incoming * W).

Abbreviation far := (logged far0).
Abbreviation TheLink := (@Link (W * Log)).

(** Between [l] and [l'] the refusals read, but [k] of them, pay for the tokens
    shown. *)
Definition pays (k : Z) (l l' : TheLink) : Prop :=
  (presented l = true -> presented l' = true) /\
  exists d, log l' = log l ++ d /\
    auths d + k + refusals (inbox (socket l')) <= refusals (inbox (socket l)) + refusals (concat d.*2) /\
    (presented l = true -> auths d = 0).

Lemma pays_refl l : pays 0 l l.
Proof. split; [done|]. exists []. rewrite app_nil_r. split; [done|]. split; [|done].
  change (auths []) with 0. change (refusals (concat ([] : Log).*2)) with 0. lia. Qed.

Lemma pays_trans j k l1 l2 l3 : pays j l1 l2 -> pays k l2 l3 -> pays (j + k) l1 l3.
Proof.
  intros (P1 & d1 & L1 & H1 & A1) (P2 & d2 & L2 & H2 & A2). split; [auto|]. exists (d1 ++ d2).
  rewrite L2, L1, app_assoc. split; [done|]. rewrite fmap_app, concat_app, refusals_app, auths_app.
  split; [lia|]. intros Hp. specialize (A1 Hp). specialize (A2 (P1 Hp)). lia.
Qed.

Lemma pays_le j k l l' : j <= k -> pays k l l' -> pays j l l'.
Proof. intros Hle (? & d & ? & ? & ?). split; [done|]. exists d. split; [done|]. split; [lia|done]. Qed.

(** Composition where the second part pays for nothing. *)
Lemma pays_then j l1 l2 l3 : pays 0 l1 l2 -> pays j l2 l3 -> pays j l1 l3.
Proof. apply (pays_trans 0 j). Qed.

Lemma read_text_refusals l r rest e :
  read_text l = Some (r, (rest, e)) ->
  Z.b2z (match r with Ok x => is_refusal (Text (Some x)) | Err _ => false end) + refusals rest <= refusals l.
Proof.
  assert (forall i k, refusals (i :: k) = Z.b2z (is_refusal i) + refusals k) as Hc.
  { intros i k. unfold refusals, retain. rewrite filter_cons. destruct (is_refusal i); simpl; [|lia].
    rewrite zlen_cons. lia. }
  induction l as [|[[r'|]| | |] l IH]; [done|..]; cbn [read_text]; rewrite Hc.
  - intros [= <- <- <-]. lia.
  - intros [= <- <- <-]. simpl. lia.
  - intros H. apply IH in H. change (is_refusal Ignored) with false. cbn [Z.b2z]. lia.
  - intros [= <- <- <-]. simpl. lia.
  - intros [= <- <- <-]. simpl. lia.
Qed.

Lemma next_reply_pays (l : TheLink) r l' :
  next_reply l = Some (r, l') ->
  pays (Z.b2z (match r with Ok x => is_refusal (Text (Some x)) | Err _ => false end)) l l'.
Proof.
  unfold next_reply. destruct (ended _); [intros [= <- <-]; apply pays_refl|].
  destruct (read_text _) as [[r' [rest e]]|] eqn:E; [|done]. cbn [mbind option_bind].
  intros [= <- <-]. apply read_text_refusals in E. split; [done|]. exists []. rewrite app_nil_r. split; [done|].
  split; [|done]. change (auths []) with 0. change (refusals (concat ([] : Log).*2)) with 0.
  cbn [with_socket socket inbox]. lia.
Qed.

Lemma send_pays l r o l' :
  send far l r = Some (o, l') -> (presented l = true -> is_auth r = false) ->
  pays (- Z.b2z (is_auth r)) l l'.
Proof.
  unfold send, logged. destruct (far0 _ _) as [[b arrives] w]. intros [= <- <-] Ha. split; [done|].
  exists [(r, arrives)]. split; [done|]. simpl. rewrite app_nil_r, refusals_app.
  assert (auths [(r, arrives)] = Z.b2z (is_auth r)) as ->.
  { unfold auths, retain. simpl. rewrite filter_cons. by destruct (is_auth r). }
  split; [lia|]. intros Hp. by rewrite (Ha Hp).
Qed.

Lemma read_keeps (l : TheLink) r l' : next_reply l = Some (r, l') -> pays 0 l l'.
Proof. intros H. apply next_reply_pays in H. eapply pays_le; [|exact H].
  generalize (match r with Ok x => is_refusal (Text (Some x)) | Err _ => false end). by intros []. Qed.

Lemma pending_pays k l l' p : pays k l l' -> pays k l (with_pending l' p).
Proof. done. Qed.

Lemma await_ready_pays fuel l w o l' : await_ready fuel l w = Some (o, l') -> pays 0 l l'.
Proof.
  revert l w. induction fuel as [|fuel IH]; intros l w; simpl; [done|].
  intros [(r & l1 & Hr & H)|(e & Hr & ->)]%obind_Some; apply read_keeps in Hr; [|done].
  destruct r; try (by injection H as <- <-); apply IH in H; by eapply pays_then.
Qed.

(** The deposit's answer: a refusal by tier has been read. *)
Lemma await_stored_pays fuel l o l' :
  await_stored fuel l = Some (o, l') ->
  pays (match o with Ok (RefusedByTier _) => 1 | _ => 0 end) l l'.
Proof.
  revert l. induction fuel as [|fuel IH]; intros l; simpl; [done|].
  intros [(r & l1 & Hr & H)|(e & Hr & ->)]%obind_Some; [|by apply read_keeps in Hr].
  pose proof (read_keeps _ _ _ Hr) as Hk. apply next_reply_pays in Hr. simpl in Hr.
  destruct r as [n|e| |m| | |]; try (apply IH in H; by eapply pays_then).
  - by injection H as <- <-.
  - destruct (str_contains _ _); by injection H as <- <-.
  - by injection H as <- <-.
Qed.

Lemma await_tier_pays fuel l o l' : await_tier fuel l = Some (o, l') -> pays 0 l l'.
Proof.
  revert l. induction fuel as [|fuel IH]; intros l; simpl; [done|].
  intros [(r & l1 & Hr & H)|(e & Hr & ->)]%obind_Some; apply read_keeps in Hr; [|done].
  destruct r; try (by injection H as <- <-). apply IH in H. by eapply pays_then.
Qed.

Lemma deposit_once_pays l e o l' :
  deposit_once far l e = Some (o, l') -> pays (match o with Ok (RefusedByTier _) => 1 | _ => 0 end) l l'.
Proof.
  intros [(r & l1 & Hr & H)|(x & Hr & ->)]%obind_Some; apply send_pays in Hr; try done.
  apply await_stored_pays in H. by eapply pays_then.
Qed.

Lemma authenticate_pays l t o l' :
  link_authenticate far l t = Some (o, l') -> presented l = false -> pays (-1) l l'.
Proof.
  unfold link_authenticate. set (q := if _ <=? _ then _ else _). intros H Hp.
  assert (is_auth q = true) as Hq by (unfold q; by destruct (_ <=? _)).
  apply obind_Some in H as [(u & l1 & Hs & Hr)|(y & Hs & ->)]; apply send_pays in Hs; try (by rewrite Hp).
  all: rewrite Hq in Hs; try exact Hs.
  apply await_tier_pays in Hr. by apply (pays_trans (-1) 0 _ _ _ Hs).
Qed.

Lemma present_pays l o l' : present_held_token far l = Some (o, l') -> pays (-1) l l'.
Proof.
  unfold present_held_token. destruct (presented l) eqn:Ep; [intros [= <- <-]; by eapply pays_le, pays_refl|].
  destruct (token l) as [t|]; [|intros [= <- <-]; by eapply pays_le, pays_refl].
  intros [(g & l1 & Hr & [= <- <-])|(x & Hr & ->)]%obind_Some; apply authenticate_pays in Hr; try done.
  destruct Hr as (_ & d & L & H1 & H2). split; [done|]. exists d. split; [done|]. split; [exact H1|].
  by rewrite Ep.
Qed.

Lemma attempts_pays n a l e o l' : attempts far n a l e = Some (o, l') -> pays 0 l l'.
Proof.
  revert a l. induction n as [|n IH]; intros a l; simpl; [done|].
  intros [(d & l1 & Hr & H)|(x & Hr & ->)]%obind_Some; apply deposit_once_pays in Hr; [|done].
  destruct d as [|why|why]; try (by injection H as <- <-).
  destruct (a =? 0); [|injection H as <- <-; by apply (pays_le 0 1)].
  apply obind_Some in H as [(shown & l2 & Hp & H)|(x & Hp & ->)]; apply present_pays in Hp;
    pose proof (pays_trans _ _ _ _ _ Hr Hp) as Ht; [|done].
  destruct shown; [|by injection H as <- <-]. apply IH in H. by eapply pays_then.
Qed.

Lemma collected_pays l es o l' : link_collected far l es = Some (o, l') -> pays 0 l l'.
Proof.
  unfold link_collected. destruct es; [intros [= <- <-]; apply pays_refl|].
  destruct (omap _ _); [intros [= <- <-]; apply pays_refl|]. intros H. by apply send_pays in H.
Qed.

Lemma link_next_pays turns (l : TheLink) r l' : link_next turns l = (r, l') -> pays 0 l l'.
Proof.
  unfold link_next. destruct (pending l) as [|e p]; [|by intros [= <- <-]; apply pending_pays, pays_refl].
  revert l. induction turns as [|turns IH]; intros l; simpl; [intros [= <- <-]; apply pays_refl|].
  destruct (next_reply l) as [[[x|x] l1]|] eqn:E; [| |intros [= <- <-]; apply pays_refl];
    apply read_keeps in E; [|by intros [= <- <-]].
  destruct x; try (intros H; by injection H as <- <-); intros H; apply IH in H; by eapply pays_then.
Qed.

Lemma quiet_pays {A} (r : Op A TheLink) l o l' :
  (forall x l', r = Some (x, l') -> pays 0 l l') ->
  (let* (_, l) := r in Some (Ok ([] : list rstring), l)) = Some (o, l') -> pays 0 l l'.
Proof. intros Hr [(a & l1 & E & [= <- <-])|(e & E & ->)]%obind_Some; by apply Hr in E. Qed.

Lemma link_call_pays l c o l' :
  link_call far l c = Some (o, l') -> (forall t, c <> CAuthenticate t) -> pays 0 l l'.
Proof.
  destruct c as [tags|es|tags|e|t|t|waits]; simpl; intros H Hc.
  - apply obind_Some in H as [(u & l1 & Hs & H)|(e & Hs & ->)]; apply send_pays in Hs; try done.
    apply await_ready_pays in H. by eapply pays_then.
  - revert H. apply quiet_pays. intros ? ?. apply collected_pays.
  - revert H. apply quiet_pays. intros ? ? H. by apply send_pays in H.
  - revert H. apply quiet_pays. intros ? ?. apply attempts_pays.
  - by destruct (Hc t).
  - injection H as <- <-. exact (pays_refl l).
  - destruct (link_next (sum_list waits) l) as [r l1] eqn:E. injection H as <- <-. by apply link_next_pays in E.
Qed.

(** A token waits until it is needed.  Over any run of calls that does not
    authenticate outright, a connection writes its token at most once for each
    answer that says a bigger tier would have taken the envelope, and not at all
    once it has been accepted; a caller whose deposits all fit is never linked. *)
Theorem a_token_waits l cs rs l' :
  link_run far l cs = Some (rs, l') -> Forall (fun c => forall t, c <> CAuthenticate t) cs ->
  exists d, log l' = log l ++ d /\
    auths d <= refusals (inbox (socket l)) + refusals (concat d.*2) /\
    (presented l = true -> auths d = 0).
Proof.
  assert (forall cs l rs, link_run far l cs = Some (rs, l') ->
    Forall (fun c => forall t, c <> CAuthenticate t) cs -> pays 0 l l') as Hrun.
  { clear. intros cs. induction cs as [|c cs IH]; intros l rs; simpl; [intros [= <- <-] _; apply pays_refl|].
    intros ([r l1] & Hc & ([rs1 l2] & Hr & [= <- <-])%bind_Some)%bind_Some [H1 H2]%Forall_cons.
    apply link_call_pays in Hc; [|done]. apply IH in Hr; [|done]. by eapply pays_then. }
  intros H Hcs. destruct (Hrun _ _ _ H Hcs) as (_ & d & L & H1 & H2). exists d. split; [done|].
  split; [|done]. pose proof (refusals_nonneg (inbox (socket l'))). lia.
Qed.
End Tokens.

(** ** What a constellation does not say *)

Section Silence.
Context `{BL : Blake3, BH : Blake3Hash, FB : FrameBase64, HL : HexLower}.
Context {W : Type} (far : W -> Request -> bool * list Incoming * W).

(** A connection that is gone, with nothing kept aside. *)
Definition lost (l : @Link W) : Prop := ended (socket l) = true /\ pending l = [].

Lemma lost_next n l : lost l -> link_next (S n) l = (Err Gone, l).
Proof. intros [He Hp]. unfold link_next. rewrite Hp. cbn [poll]. unfold next_reply. by rewrite He. Qed.

Lemma lost_next_any n l : lost l -> exists r, link_next n l = (r, l) /\ forall e, r <> Ok (Some e).
Proof.
  intros Hl. destruct n as [|n]; [|exists (Err Gone); by rewrite lost_next].
  exists (Ok None). unfold link_next. by rewrite (proj2 Hl).
Qed.

(** A constellation that has lost every member does not say so.  One
    connection that is gone answers the next wait with [Gone], by which a caller
    knows to connect again; a constellation all of whose connections are gone waits
    out every deadline as if nothing had been sent, for ever, and a subscription
    succeeds with nothing waiting. *)
Theorem a_lost_constellation_is_silent (c : @Constellation W) waits tags :
  Forall lost (peers c) ->
  (forall l n, l ∈ peers c -> link_next (S n) l = (Err Gone, l)) /\
  (exists c', round_robin waits c = (Ok None, c') /\ Forall lost (peers c')) /\
  (exists c', many_subscribe far c tags = Some ([], c')).
Proof.
  intros Hl. split; [|split].
  - intros l n Hin. apply lost_next. by eapply Forall_forall in Hl.
  - revert c Hl. induction waits as [|n waits IH]; intros c Hl; cbn [round_robin]; [by exists c|].
    cbv zeta. cbn [peers]. destruct (peers c !! _) as [l|] eqn:E; [|by eexists].
    pose proof (Forall_lookup_1 _ _ _ _ Hl E) as Hx. destruct (lost_next_any n l Hx) as (r & Hr & Hne).
    rewrite Hr. destruct r as [[e|]|x]; [by destruct (Hne e)|..]; apply IH; simpl;
      by rewrite list_insert_id by exact E.
  - unfold many_subscribe. enough (forall p gs, Forall lost p ->
      exists p', subscribe_each far p gs = Some ([], p')) as H.
    { destruct (H (peers c) (grouped c tags) Hl) as [p' ->]. by eexists. }
    clear. induction p as [|l p IH]; intros gs Hl; [by eexists|].
    apply Forall_cons in Hl as [[He Hp] Hl]. destruct gs as [|its gs]; [by eexists|].
    destruct (IH gs Hl) as [p' Hs]. destruct its as [|t its]; cbn [subscribe_each].
    + rewrite Hs. by eexists.
    + unfold link_subscribe, send.
      destruct (far _ _) as [[[] i] w]; cbn [obind turns_left await_ready]; [|simpl; rewrite Hs; by eexists].
      unfold next_reply. simpl. rewrite He. simpl. rewrite Hs. by eexists.
Qed.

(** Falling back to every member can miss the reader.  A writer connected to
    none of the members a tag is placed on writes to all it has; a reader connected
    to one of those members reads only from such, and never from any the writer
    wrote to. *)
Theorem fallback_misses_the_reader (cw cr : @Constellation W) t tag :
  directory cw = directory cr -> tag_of_hex t = Some tag ->
  (forall l, l ∈ peers cw -> placed_at cw tag l = false) ->
  (exists l, l ∈ peers cr /\ placed_at cr tag l = true) ->
  holders_of cw t = seq 0 (length (peers cw)) /\
  forall i l j k, peers cw !! i = Some l -> j ∈ holders_of cr t -> peers cr !! j = Some k ->
    url l <> url k.
Proof.
  intros Hd Ht Hw (lr & Hlr & Hpr). split.
  - unfold holders_of. rewrite Ht. destruct (placement _ _) as [|m ms]; [done|].
    destruct (retain _ _) as [|i is_] eqn:E; [done|].
    assert (i ∈ i :: is_) as Hi by (by left). rewrite <- E in Hi. apply elem_of_retain in Hi as [Hi _].
    destruct (peers cw !! i) as [l|] eqn:El; [|done]. simpl in Hi.
    rewrite Hw in Hi; [done|]. by eapply list_elem_of_lookup_2.
  - intros i l j k Hi Hj Hk Hu.
    assert (placed_at cw tag l = false) as Hf by (apply Hw; by eapply list_elem_of_lookup_2).
    assert (placed_at cr tag k = true) as Htrue.
    { unfold holders_of in Hj. rewrite Ht in Hj.
      destruct (placement (directory cr) tag) eqn:Ep; [unfold placed_at in Hpr; by rewrite Ep in Hpr|].
      destruct (retain _ _) as [|i0 is_] eqn:E.
      - apply list_elem_of_lookup in Hlr as [n Hn]. exfalso.
        assert (n ∈ retain (fun i => from_option (placed_at cr tag) false (peers cr !! i))
          (seq 0 (length (peers cr)))) as Hin.
        { apply elem_of_retain. rewrite Hn. split; [done|]. apply elem_of_seq.
          apply lookup_lt_Some in Hn. lia. }
        rewrite E in Hin. by apply not_elem_of_nil in Hin.
      - rewrite <- E in Hj. apply elem_of_retain in Hj as [Hj _]. by rewrite Hk in Hj. }
    unfold placed_at in *. rewrite Hd, Hu in Hf. congruence.
Qed.

(** A reply nobody waited for stands in front of the tier. *)
Lemma an_unread_reply_hides_the_tier (l : @Link W) t i :
  ended (socket l) = false -> inbox (socket l) = Text (Some Other) :: i ->
  (forall r, (far (far_end (socket l)) r).1.1 = true) ->
  exists l', link_authenticate far l t = Some (Err (ExpectedATier Other), l') /\ presented l' = presented l.
Proof.
  intros Ho Hi Hf. unfold link_authenticate, send. set (q := if _ <=? _ then _ else _).
  specialize (Hf q). destruct (far _ q) as [[b arrives] w]. simpl in Hf. subst b. cbn [obind].
  rewrite Ho, Hi. unfold turns_left. simpl. by eexists.
Qed.
End Silence.

(** ** A scripted far end *)

Import Toy.

Module ClientScript.

#[export] Instance frames : FrameBase64 := {| frame_encode l := l; frame_decode := Some |}.
#[export] Instance hexes : HexLower := {| hexlower_encode := hex_lower; hexlower_permissive := Some |}.

Definition word (s : string) : rstring := text (String.list_byte_of_string s).

(** It pushes an envelope, answers, and pushes another; a first deposit is over the
    allowance. *)
Definition script (n : nat) (r : Request) : bool * list Incoming * nat :=
  (true,
   match r with
   | Subscribe _ => [Text (Some (Envelope (word "first"))); Text (Some (Ready 1))]
   | Deposit _ =>
       [Text (Some (Envelope (word "second")));
        Text (Some (if (n =? 1)%nat then OverQuota 10 10 (word "free") else Stored))]
   | Auth _ | AuthBlind _ => [Ignored; Text (Some (Tier (word "plus") 1 1 1 1))]
   | Collected _ | Unsubscribe _ => [Text (Some Other)]
   end, S n).

Definition fresh : @Link (nat * Log) := mkLink (mkSocket [] false (0%nat, [])) (word "a") [] None false.

Definition calls : list Call :=
  [CSubscribe [word "t"]; CHold (word "token"); CDeposit (word "e"); CUnsubscribe [word "t"]; CNext [1%nat]].

Definition outcome : list (Result (list rstring) Failure) * @Link (nat * Log) :=
  default ([], fresh) (link_run (logged script) fresh calls).

Lemma script_runs : link_run (logged script) fresh calls = Some (outcome.1, outcome.2).
Proof. vm_compute. reflexivity. Qed.

Definition gone (u : rstring) : @Link nat := mkLink (mkSocket [] true 0%nat) u [] None false.
Definition at_ (u : rstring) : @Link nat := mkLink (mkSocket [] false 0%nat) u [] None false.
Definition among (p : list (@Link nat)) : @Constellation nat := mkConstellation p CONSTELLATION ∅ [] 0.

(** Thirty-two bytes that the toy decoder reads as a tag. *)
Definition somewhere : rstring := text (replicate 32 (z2b 97)).
Definition somewhere_tag : Tag := copy_from_slice 32 (replicate 32 (z2b 97)).

(** The members the tag is placed on, and the others. *)
Definition places (b : bool) : list rstring :=
  Directory.url <$> retain (fun m => Bool.eqb b (bool_decide (m ∈ placement CONSTELLATION somewhere_tag)))
    (mailboxes CONSTELLATION).

End ClientScript.

Import (hints) ClientScript.

Section Witnesses.
Import ClientScript.

Lemma nothing_is_dropped_witness :
  exists d : Log, handed outcome.1 ++ pending outcome.2 ++ envs (inbox (socket outcome.2)) ≡ₚ envs (concat d.*2) /\
    handed outcome.1 = [word "first"; word "second"] /\ pending outcome.2 = [word "second"].
Proof.
  destruct (nothing_is_dropped script fresh calls outcome.1 outcome.2) as (d & _ & Hp).
  - exact script_runs.
  - intros k tags Hk. destruct k as [|k]; [|by do 5 (destruct k as [|k]; [discriminate Hk|])].
    exists [word "first"]. vm_compute. reflexivity.
  - exists d. split; [exact Hp|]. split; vm_compute; reflexivity.
Defined.

Lemma a_token_waits_witness : exists d, log outcome.2 = log fresh ++ d /\ auths d <= 1.
Proof.
  destruct (a_token_waits script fresh calls outcome.1 outcome.2) as (d & Hd & Ha & _).
  - exact script_runs.
  - by repeat (apply Forall_cons; split; [intros ?; discriminate|]).
  - exists d. split; [exact Hd|]. change (log outcome.2 = d) in Hd. subst d.
    assert (refusals (inbox (socket fresh)) + refusals (concat (log outcome.2).*2) = 1) as Hone
      by (vm_compute; reflexivity).
    rewrite Hone in Ha. exact Ha.
Defined.

(** Two members that each give the same envelope. *)
Lemma copies_are_dropped_witness :
  exists out c, many_run script (among [at_ (word "a"); at_ (word "b")]) [CSubscribe [word "t"]] = Some (out, c) /\
    length out = 1%nat /\
    forall i j e, out !! i = Some e -> out !! j = Some e -> (i < j)%nat -> SEEN_AT_MOST < Z.of_nat j - Z.of_nat i.
Proof.
  destruct (many_run script (among [at_ (word "a"); at_ (word "b")]) [CSubscribe [word "t"]])
    as [[out c]|] eqn:E.
  - exists out, c. split; [reflexivity|].
    split; [apply (f_equal (option_map (fun x => length x.1))) in E; vm_compute in E; by injection E|].
    apply (copies_are_dropped script _ _ _ _ _ _ E).
  - apply (f_equal (option_map (fun x => length x.1))) in E. vm_compute in E. discriminate E.
Defined.

Lemma a_lost_constellation_is_silent_witness :
  exists c', round_robin [1; 1; 1]%nat (among [gone (word "a"); gone (word "b")]) = (Ok None, c').
Proof.
  destruct (a_lost_constellation_is_silent script (among [gone (word "a"); gone (word "b")]) [1; 1; 1]%nat
    [word "t"]) as (_ & (c' & H & _) & _).
  - by repeat constructor.
  - exists c'. exact H.
Defined.

(** A writer that reached only the third member, and a reader that reached one of
    the two. *)
Lemma fallback_misses_the_reader_witness :
  holders_of (among (at_ <$> places false)) somewhere = seq 0 1 /\
  holders_of (among (at_ <$> places true)) somewhere = seq 0 2.
Proof.
  destruct (fallback_misses_the_reader (among (at_ <$> places false)) (among (at_ <$> places true))
    somewhere somewhere_tag) as [H _].
  - reflexivity.
  - apply try_into_Some. vm_compute. reflexivity.
  - intros l (u & -> & Hu)%list_elem_of_fmap. revert u Hu. apply Forall_forall.
    apply (bool_decide_unpack _). vm_compute. exact I.
  - exists (at_ (default (word "a") (head (places true)))). split; [|vm_compute; reflexivity].
    apply list_elem_of_fmap_2. apply (bool_decide_unpack _). vm_compute. exact I.
  - split; [exact H|]. vm_compute. reflexivity.
Defined.
End Witnesses.
