(* ===== verification/ClientServer.v ===== *)
(** * A client and its mailbox, together

    The client of [MailboxClient] over the server of [Server]: each request it
    writes becomes a frame of its session, and what that session writes is what the
    client reads.  Between two requests the server takes any turns it likes, other
    clients', its timers' and the wakes of this session among them.

    JSON is a pair of functions that agree.  The error messages of the server are a
    function of the refusal; what is used of them is which contain the words the
    client looks for. *)

From S2P Require Import Prelude Crypto Envelope MailboxStore Tickets Capability Hex Wake Listening.
From S2P Require Import Session Server.
From S2P Require Directory MailboxClient.
Module C := MailboxClient.
Import (hints) MailboxClient.

(** What [serde_json] makes of each server reply in the client's [Reply]. *)
Definition to_client (message : Message -> rstring) (r : Reply) : C.Reply :=
  let name t := C.text (String.list_byte_of_string t) in
  match r with
  | Ready n => C.Ready n
  | REnvelope l => C.Envelope (C.text l)
  | Stored => C.Stored
  | TicketsLeft _ | Dropped _ | WakeRegistered _ => C.Other
  | RTier t fanout payload days bytes => C.Tier (name t) fanout payload days bytes
  | ROverQuota limit used t => C.OverQuota limit used (name t)
  | Error m => C.Error (message m)
  end.

Definition to_server (r : C.Request) : Request :=
  match r with
  | C.Subscribe l => Subscribe l
  | C.Collected l => Collected l
  | C.Unsubscribe l => Unsubscribe l
  | C.Deposit e => Deposit e
  | C.Auth t => Auth t
  | C.AuthBlind t => AuthBlind t
  end.

(** Writing a request and reading it. *)
Class Serde := { to_text : Request -> rstring; from_text : rstring -> option Request }.
Class SerdeLaws `(Serde) : Prop := { parse_written r : from_text (to_text r) = Some r }.

(** What the server does around one request: the readings of its frame, the turns
    it takes before it and those it takes after. *)
Record Turn := mkTurn { t_env : Env; t_before : list Event; t_after : list Event }.

Record World := mkWorld { system : System; seat : Z; plan : list Turn }.

Definition wire_of (y : System) (me : Z) : option Wire :=
  (fun x => Session.socket (conn x)) <$> seats y !! me.

Section Together.
Context `{BL : Blake3, BH : Blake3Hash, SH : Sha256, FB : FrameBase64, B64 : Base64, TS : TokenScheme}.
Context `{BS : BlindScheme, HL : C.HexLower, SD : Serde}.
Context (g : Config) (message : Message -> rstring) (idle : Env).

Definition next_turn (w : World) : Turn := hd (mkTurn idle [] []) (plan w).

Definition arrivals (y y' : System) (me : Z) : list C.Incoming :=
  match wire_of y me, wire_of y' me with
  | Some w, Some w' =>
      (fun r => C.Text (Some (to_client message r))) <$> drop (length (written w)) (written w')
  | _, _ => [C.Closed]
  end.

Definition far (w : World) (r : C.Request) : bool * list C.Incoming * World :=
  let t := next_turn w in
  match Server.run from_text g (system w)
          (t_before t ++ EFrame (seat w) (t_env t) (to_text (to_server r)) :: t_after t) with
  | None => (true, [C.Failed], w)
  | Some y => (true, arrivals (system w) y (seat w), mkWorld y (seat w) (tl (plan w)))
  end.

(** What the server answers a request with. *)
Definition answer (w : World) (r : C.Request) : option Reply :=
  let t := next_turn w in
  y ← Server.run from_text g (system w) (t_before t);
  x ← seats y !! seat w;
  h ← handle_request g (t_env t) (state y) (conn x) (seat w) (to_server r);
  h.2.

Abbreviation Link := (@C.Link World).

(** ** The server's side *)

(** [y'] is [y] with [new] written on an open connection. *)
Definition wrote (y y' : System) (me : Z) (new : list Reply) : Prop :=
  forall l, wire_of y me = Some (mkWire l None) -> wire_of y' me = Some (mkWire (l ++ new) None).

Lemma wrote_refl y me : wrote y y me [].
Proof. intros l. by rewrite app_nil_r. Qed.

Lemma wrote_trans y1 y2 y3 me a b : wrote y1 y2 me a -> wrote y2 y3 me b -> wrote y1 y3 me (a ++ b).
Proof. intros H1 H2 l H. rewrite app_assoc. by apply H2, H1. Qed.

(** The turns the rest of the world may take: any but this session's own, whose
    frames come from this client, and none that would stop the server. *)
Definition calm (me : Z) (v : Event) : Prop :=
  match v with
  | EFrame j e text =>
      j <> me /\ forall r x, from_text text = Some r -> x ∈ hex_fields r -> Forall (fun b => b2z b < 128) (rs x)
  | EClose j => j <> me
  | _ => True
  end.

Lemma wire_perform (m : gmap Z Seat) fx i :
  (fun x => Session.socket (conn x)) <$> perform m fx !! i = (fun x => Session.socket (conn x)) <$> m !! i.
Proof.
  pose proof (perform_lookup m fx i) as H. destruct (perform m fx !! i) as [x|].
  - destruct H as (x0 & -> & Hx). simpl. by rewrite Hx.
  - by rewrite H.
Qed.

Lemma wire_close y i me : i <> me -> wire_of (close_seat y i) me = wire_of y me.
Proof.
  intros H. unfold close_seat, wire_of. destruct (seats y !! i); [|done]. simpl. by rewrite lookup_delete_ne.
Qed.

Lemma wire_settle_other y i s x b fx me :
  i <> me -> wire_of (settle_turn y i s x b fx) me = wire_of y me.
Proof.
  intros H. unfold settle_turn. destruct b; [|rewrite wire_close by done];
    unfold wire_of; simpl; rewrite wire_perform; by rewrite lookup_insert_ne.
Qed.

Lemma wire_settle_mine y me s x fx :
  wire_of (settle_turn y me s x true fx) me = Some (Session.socket (conn x)).
Proof. unfold settle_turn, wire_of. simpl. rewrite wire_perform. by rewrite lookup_insert_eq. Qed.

Lemma delivered_open l es :
  deliver (mkWire l None) es = (true, mkWire (l ++ (envelope_reply <$> es)) None).
Proof. by rewrite Server.deliver_open. Qed.

(** A turn of the rest of the world writes this session envelopes at most. *)
Lemma calm_step y v y' me :
  calm me v -> me <> next_connection (state y) -> step from_text g y v = Some y' ->
  exists es, wrote y y' me (envelope_reply <$> es).
Proof.
  intros Hv Hn. destruct v as [fresh rm|i e text|i e|i|e|ans]; simpl in Hv |- *.
  - intros [= <-]. exists []. intros l. unfold wire_of. simpl. rewrite lookup_insert_ne by done.
    by rewrite app_nil_r.
  - unfold frame_turn. destruct (seats y !! i) as [x|]; [|intros [= <-]; exists []; apply wrote_refl].
    intros ([[[s c] fx] b] & _ & [= <-])%bind_Some. exists []. intros l Hl.
    rewrite wire_settle_other by apply Hv. by rewrite app_nil_r.
  - intros [= <-]. unfold wake_turn. destruct (seats y !! i) as [[c [|w q]]|] eqn:E;
      try (exists []; apply wrote_refl).
    destruct (on_wake e (state y) c i w) as [[s c'] b] eqn:Ew.
    destruct (decide (i = me)) as [->|Hi].
    2: { exists []. intros l Hl. rewrite wire_settle_other by done. by rewrite app_nil_r. }
    unfold on_wake in Ew. destruct (_ || _).
    { injection Ew as <- <- <-. exists []. intros l Hl. rewrite wire_settle_mine.
      unfold wire_of in Hl. rewrite E in Hl. simpl in Hl. by rewrite app_nil_r. }
    destruct (collect _ _ _) as [es m]. exists es. intros l Hl. unfold wire_of in Hl. rewrite E in Hl.
    injection Hl as Hl. rewrite Hl, delivered_open in Ew. injection Ew as <- <- <-.
    by rewrite wire_settle_mine.
  - intros [= <-]. exists []. intros l Hl. rewrite wire_close by done. by rewrite app_nil_r.
  - intros [= <-]. exists []. unfold sweep_turn. destruct (MailboxStore.sweep _ _). intros l. by rewrite app_nil_r.
  - intros [= <-]. exists []. unfold waking_turn. destruct (_ && _); intros l; by rewrite app_nil_r.
Qed.

(** The replies a request may have. *)
Definition kind (r : Request) (a : Reply) : Prop :=
  match r, a with
  | Subscribe _, (Ready _ | Error _) => True
  | Unsubscribe _, Dropped _ => True
  | Collected l, Dropped _ => True
  | Collected l, Error _ => MAX_TAGS_PER_CONNECTION < zlen l \/ exists x, x ∈ l /\ parse_digest x = Some None
  | Deposit _, (Stored | Error _ | ROverQuota _ _ _) => True
  | (Auth _ | AuthBlind _), (RTier _ _ _ _ _ | Error _) => True
  | (RegisterWake _ _ _ _ | RevokeWake _ | LeaveTickets _), _ => True
  | _, _ => False
  end.

(** What a handler writes before its reply: a subscription, what waits. *)
Definition served (e : Env) (s : State) (r : Request) (es : list Envelope) (a : Reply) : Prop :=
  kind r a /\
  match r with
  | Subscribe tags => forall ts, zlen tags <= MAX_TAGS_PER_SUBSCRIPTION -> parse_tags tags = Some (Some ts) ->
      (exists n, a = Ready n) /\ es = peek_many (mailbox s) ts (now e)
  | _ => True
  end.

(** On an open connection a handler writes envelopes, and leaves one reply to be
    written. *)
Definition replies (e : Env) (s : State) (w : Wire) (r : Request) (h : Handled) : Prop :=
  next_connection h.1.1.1 = next_connection s /\
  forall l, w = mkWire l None -> exists es a, h.2 = Some a /\ served e s r es a /\
    Session.socket h.1.1.2 = mkWire (l ++ (envelope_reply <$> es)) None.

Lemma replies_plain e s w r s' c fx a :
  next_connection s' = next_connection s -> Session.socket c = w -> served e s r [] a ->
  replies e s w r (s', c, fx, Some a).
Proof. intros Hn <- Hk. split; [done|]. intros l Hl. exists [], a. by rewrite app_nil_r. Qed.

Lemma receipts_refused m tags l n :
  take_receipts m tags l = Some (None, n) -> exists x, x ∈ l /\ parse_digest x = Some None.
Proof.
  revert m n. induction l as [|x l IH]; intros m n; simpl; [done|].
  destruct (parse_digest x) as [[d|]|] eqn:E; simpl; [|intros _; exists x; split; [by left|done]|done].
  destruct (remove_acknowledged _ _ _) as [hit m1]. destruct (take_receipts m1 tags l) as [[o k]|] eqn:Et; [|done].
  simpl. destruct o as [z|]; [done|]. intros _. destruct (IH _ _ Et) as (y & Hy & Hd).
  exists y. split; [by right|done].
Qed.

Lemma handle_replies e s c me r h :
  handle_request g e s c me r = Some h -> replies e s (Session.socket c) r h.
Proof.
  destruct r; cbn [handle_request].
  - unfold subscribe. destruct (Z.ltb_spec MAX_TAGS_PER_SUBSCRIPTION (zlen tags)).
    { intros [= <-]. apply replies_plain; [done..|]. split; [done|]. intros ts Hle. lia. }
    destruct (parse_tags tags) as [[ts|]|] eqn:Et; cbn [mbind option_bind]; [|intros [= <-]|done].
    2: { apply replies_plain; [done..|]. split; [done|]. intros ts _ Hts. congruence. }
    destruct (deliver _ _) as [b w] eqn:Ed.
    intros Hh. split; [by destruct b; injection Hh as <-|]. intros l Hl. cbn [with_listening Session.socket] in Ed.
    rewrite Hl, delivered_open in Ed. injection Ed as <- <-. injection Hh as <-.
    exists (peek_many (mailbox s) ts (now e)). eexists. split; [done|]. split; [|done]. split; [done|].
    intros ts' _ Hts. assert (ts' = ts) as -> by congruence. split; [by eexists|done].
  - intros (k & _ & [= <-])%bind_Some. by apply replies_plain.
  - unfold collected. destruct (Z.ltb_spec MAX_TAGS_PER_CONNECTION (zlen digests)).
    { intros [= <-]. apply replies_plain; [done|done|]. split; [by left|done]. }
    intros ([o m] & Ht & H1)%bind_Some. simpl in H1. destruct o; injection H1 as <-; apply replies_plain; try done.
    split; [|done]. right. by eapply receipts_refused.
  - unfold deposit_envelope. destruct (frame_decode _); [|intros [= <-]; by apply replies_plain].
    destruct (envelope_from_bytes _); [|intros [= <-]; by apply replies_plain].
    destruct (_ <? _); [intros [= <-]; by apply replies_plain|].
    destruct (charge _ _ _ _) as [[a|lim used] m]; [|intros [= <-]; by apply replies_plain].
    intros (k & _ & [= <-])%bind_Some. by apply replies_plain.
  - intros [= <-]. unfold auth, tier_reply. destruct (tokens g); [|by apply replies_plain].
    destruct (verify _ _ _); [|by apply replies_plain]. destruct (charge _ _ _ _). by apply replies_plain.
  - intros [= <-]. unfold auth_blind, tier_reply. destruct (blind g); [by apply replies_plain|].
    destruct (verify_blind _ _); [|by apply replies_plain]. destruct (charge _ _ _ _). by apply replies_plain.
  - intros [= <-]. unfold register_wake. destruct (negb _); [by apply replies_plain|].
    destruct (negb _); [by apply replies_plain|]. destruct (register _ _) as [b r'].
    destruct (negb b); by apply replies_plain.
  - intros [= <-]. by apply replies_plain.
  - unfold leave_tickets. destruct (_ <? _); [intros [= <-]; by apply replies_plain|].
    intros ([o t] & _ & H1)%bind_Some. simpl in H1. destruct o; injection H1 as <-; by apply replies_plain.
Qed.

Definition ascii (x : rstring) : Prop := Forall (fun b => b2z b < 128) (rs x).

Lemma handle_total e s c me r :
  conn_ok c -> (forall x, x ∈ hex_fields r -> ascii x) -> exists h, handle_request g e s c me r = Some h.
Proof.
  intros Hc Hr. destruct (handle_request g e s c me r) as [h|] eqn:E; [by exists h|].
  apply handle_request_None in E as (x & Hx & Hp); [|done].
  destruct (parse_tag_ascii x (Hr x Hx)). congruence.
Qed.

Lemma calm_total me y v : system_ok y -> calm me v -> exists y', step from_text g y v = Some y'.
Proof.
  intros Hy. destruct v as [fresh rm|i e text|i e|i|e|ans]; simpl; try (by eexists).
  intros [_ Hr]. unfold frame_turn. destruct (seats y !! i) as [x|] eqn:E; [|by eexists].
  unfold on_frame. destruct (_ <? _); [by eexists|]. destruct (from_text text) as [r|] eqn:Er.
  - destruct (handle_total e (state y) (conn x) i r) as [[[[s c] fx] o] ->].
    + exact (proj1 (seat_conn x) (sy_seats y Hy _ _ E)).
    + by intros; eapply Hr.
    + simpl. destruct o as [o|]; [|by eexists]. destruct (send _ _). by eexists.
  - unfold refuse, say. simpl. destruct (send _ _). by eexists.
Qed.

(** How many connections a list of turns opens. *)
Definition opens (vs : list Event) : Z :=
  zlen (retain (fun v => match v with EOpen _ _ => true | _ => false end) vs).

Lemma opens_cons v vs : opens (v :: vs) = (match v with EOpen _ _ => 1 | _ => 0 end) + opens vs.
Proof. unfold opens, retain. rewrite filter_cons. destruct v; simpl; rewrite ?zlen_cons; lia. Qed.

Lemma opens_app vs ws : opens (vs ++ ws) = opens vs + opens ws.
Proof. unfold opens. by rewrite retain_app, zlen_app. Qed.

Lemma opens_nonneg vs : 0 <= opens vs.
Proof. apply zlen_nonneg. Qed.

Lemma next_settle y i s x b fx : next_connection (state (settle_turn y i s x b fx)) = next_connection s.
Proof. unfold settle_turn. destruct b; [done|]. unfold close_seat. by destruct (seats _ !! i). Qed.

Lemma next_frame y i e text s c fx b x :
  on_frame from_text g e (state y) x i text = Some (s, c, fx, b) ->
  next_connection s = next_connection (state y).
Proof.
  unfold on_frame. destruct (_ <? _); [by intros [= <- _ _ _]|].
  intros ([[[s1 c1] fx1] o] & Hh & H)%bind_Some.
  assert (next_connection s1 = next_connection (state y)) as <-.
  { destruct (from_text text); [by apply handle_replies in Hh as [Hn _]|by injection Hh as <- _ _ _]. }
  destruct o as [o|]; [|by injection H as <- _ _ _]. destruct (send _ _). by injection H as <- _ _ _.
Qed.

Lemma seats_step y v y' :
  step from_text g y v = Some y' ->
  next_connection (state y') =
  match v with EOpen _ _ => wrap64 (next_connection (state y) + 1) | _ => next_connection (state y) end.
Proof.
  destruct v as [fresh rm|i e text|i e|i|e|ans]; simpl.
  - by intros [= <-].
  - unfold frame_turn. destruct (seats y !! i) as [x|]; [|by intros [= <-]].
    intros ([[[s c] fx] b] & Hf & [= <-])%bind_Some. rewrite next_settle. by eapply next_frame.
  - intros [= <-]. unfold wake_turn. destruct (seats y !! i) as [[c [|w q]]|]; try done.
    unfold on_wake. destruct (_ || _); [by rewrite next_settle|].
    destruct (collect _ _ _). destruct (deliver _ _). by rewrite next_settle.
  - intros [= <-]. unfold close_seat. by destruct (seats y !! i).
  - intros [= <-]. unfold sweep_turn. by destruct (MailboxStore.sweep _ _).
  - intros [= <-]. unfold waking_turn. by destruct (_ && _).
Qed.

Lemma step_ok y v y' : system_ok y -> step from_text g y v = Some y' -> system_ok y'.
Proof. intros Hy Hs. eapply ok_step; [exact Hy|exact Hs]. Qed.

(** A server with an open connection, and room to number the connections that
    will be opened. *)
Record ready (y : System) (me : Z) (left : Z) : Prop := {
  rd_ok : system_ok y;
  rd_wire : exists l, wire_of y me = Some (mkWire l None);
  rd_me : 0 <= me < next_connection (state y);
  rd_left : next_connection (state y) + left <= u64_max;
}.

Lemma ready_next y y' me left n :
  ready y me left -> system_ok y' -> (exists new, wrote y y' me new) ->
  next_connection (state y') = next_connection (state y) + n -> 0 <= n -> ready y' me (left - n).
Proof.
  intros [H1 [l Hl] H3 H4] Hok [new Hw] Hn Hp. split; [done|by eexists; apply Hw|lia|lia].
Qed.

Lemma calm_ready y me left v :
  ready y me left -> calm me v -> opens [v] <= left ->
  exists y' es, step from_text g y v = Some y' /\ wrote y y' me (envelope_reply <$> es) /\
    ready y' me (left - opens [v]).
Proof.
  intros Hr Hv Hleft. destruct (calm_total me y v (rd_ok _ _ _ Hr) Hv) as [y' Hs].
  destruct (calm_step y v y' me Hv) as [es Hw]; [destruct (rd_me _ _ _ Hr); lia|done|].
  exists y', es. split; [done|]. split; [done|]. apply (ready_next y); [done|by apply (step_ok y v y' (rd_ok _ _ _ Hr))|by eexists| |apply opens_nonneg].
  apply seats_step in Hs. rewrite Hs. rewrite opens_cons in Hleft |- *. change (opens []) with 0 in *.
  destruct Hr as [_ _ H3 H4]. destruct v; try lia. unfold wrap64. rewrite Z.mod_small; [lia|].
  unfold u64_max in *. lia.
Qed.

Lemma calm_run y me left vs :
  ready y me left -> Forall (calm me) vs -> opens vs <= left ->
  exists y' es, Server.run from_text g y vs = Some y' /\ wrote y y' me (envelope_reply <$> es) /\
    ready y' me (left - opens vs).
Proof.
  revert y left. induction vs as [|v vs IH]; intros y left Hr Hvs Hleft.
  { exists y, []. split; [done|]. split; [apply wrote_refl|]. change (opens []) with 0. by rewrite Z.sub_0_r. }
  apply Forall_cons in Hvs as [Hv Hvs]. rewrite opens_cons in Hleft. pose proof (opens_nonneg vs).
  assert (opens [v] = match v with EOpen _ _ => 1 | _ => 0 end) as Ho by (rewrite opens_cons; change (opens []) with 0; lia).
  destruct (calm_ready y me left v Hr Hv) as (y1 & es1 & Hs1 & Hw1 & Hr1); [lia|].
  destruct (IH y1 (left - opens [v]) Hr1 Hvs) as (y2 & es2 & Hs2 & Hw2 & Hr2); [lia|].
  exists y2, (es1 ++ es2). split; [cbn [Server.run]; by rewrite Hs1|]. split.
  - rewrite fmap_app. by eapply wrote_trans.
  - rewrite opens_cons, <- Ho. by replace (left - (opens [v] + opens vs)) with (left - opens [v] - opens vs) by lia.
Qed.

(** This session's own frame: envelopes, then the reply. *)
Lemma own_frame y me left e r :
  SerdeLaws SD -> ready y me left -> (forall x, x ∈ hex_fields r -> ascii x) ->
  zlen (rs (to_text r)) <= MAX_FRAME_BYTES ->
  exists x h y' es a, seats y !! me = Some x /\
    handle_request g e (state y) (conn x) me r = Some h /\ h.2 = Some a /\ served e (state y) r es a /\
    step from_text g y (EFrame me e (to_text r)) = Some y' /\
    wrote y y' me ((envelope_reply <$> es) ++ [a]) /\ ready y' me left.
Proof.
  intros Hlaw Hrd Hx Hfits. pose proof Hrd as [Hok [l Hl] Hme Hleft]. pose proof Hl as Hwire.
  unfold wire_of in Hwire. destruct (seats y !! me) as [x|] eqn:E; [|done]. injection Hwire as Hwire.
  destruct (handle_total e (state y) (conn x) me r) as [h Hh];
    [exact (proj1 (seat_conn x) (sy_seats y Hok _ _ E))|done|].
  pose proof (handle_replies _ _ _ _ _ _ Hh) as [Hn Hrep].
  destruct (Hrep l Hwire) as (es & a & Ha & Hk & Hw). destruct h as [[[s c] fx] o]. simpl in *. subst o.
  assert (step from_text g y (EFrame me e (to_text r)) = Some
    (settle_turn y me s (mkSeat (with_socket c (mkWire (l ++ (envelope_reply <$> es) ++ [a]) None)) (queue x)) true fx)) as Hs.
  { simpl. unfold frame_turn. rewrite E. unfold on_frame. rewrite (proj2 (Z.ltb_ge _ _)) by done.
    rewrite parse_written, Hh. simpl. unfold send. rewrite Hw. simpl. by rewrite <- app_assoc. }
  assert (wrote y (settle_turn y me s (mkSeat (with_socket c (mkWire (l ++ (envelope_reply <$> es) ++ [a]) None))
    (queue x)) true fx) me ((envelope_reply <$> es) ++ [a])) as Hwr.
  { intros l' Hl'. rewrite Hl in Hl'. injection Hl' as <-. by rewrite wire_settle_mine. }
  eexists x, (s, c, fx, Some a), _, es, a. do 5 (split; [done|]). split; [exact Hwr|].
  replace left with (left - 0) by lia. apply (ready_next y); [done|by apply (step_ok _ _ _ Hok Hs)|by eexists| |lia].
  rewrite next_settle, Hn. lia.
Qed.

Definition around (t : Turn) : list Event := t_before t ++ t_after t.

(** A world that goes on answering. *)
Record good (w : World) : Prop := {
  gd_ready : ready (system w) (seat w) (opens (plan w ≫= around));
  gd_calm : Forall (fun t => Forall (calm (seat w)) (around t)) (plan w);
}.

(** A request the server can read without harm. *)
Definition readable (r : C.Request) : Prop :=
  (forall x, x ∈ hex_fields (to_server r) -> ascii x) /\
  zlen (rs (to_text (to_server r))) <= MAX_FRAME_BYTES.

Definition pushed (es : list Envelope) : list C.Incoming :=
  (fun x => C.Text (Some (C.Envelope (C.text (frame_encode (envelope_to_bytes x)))))) <$> es.

Lemma turns_app y vs ws : Server.run from_text g y (vs ++ ws) = (y' ← Server.run from_text g y vs; Server.run from_text g y' ws).
Proof. revert y. induction vs as [|v vs IH]; intros y; simpl; [done|]. destruct (step _ _ _ _); simpl; auto. Qed.

Lemma texts_pushed es :
  (fun r => C.Text (Some (to_client message r))) <$> (envelope_reply <$> es) = pushed es.
Proof. unfold pushed. by rewrite <- list_fmap_compose. Qed.

Lemma far_good w r :
  SerdeLaws SD -> good w -> readable r ->
  exists pre a post w',
    far w r = (true, pushed pre ++ C.Text (Some (to_client message a)) :: pushed post, w') /\
    answer w r = Some a /\ kind (to_server r) a /\ good w' /\
    exists y es es1, Server.run from_text g (system w) (t_before (next_turn w)) = Some y /\ pre = es1 ++ es /\
      served (t_env (next_turn w)) (state y) (to_server r) es a.
Proof.
  intros Hlaw [Hr Hc] [Hx Hfits]. unfold far, answer.
  assert (exists t p, next_turn w = t /\ tl (plan w) = p /\ Forall (calm (seat w)) (around t) /\
    Forall (fun t => Forall (calm (seat w)) (around t)) p /\
    opens (plan w ≫= around) = opens (t_before t) + opens (t_after t) + opens (p ≫= around)) as
    (t & p & Ht & Hp & Hct & Hcp & Ho).
  { unfold next_turn. destruct (plan w) as [|t p]; simpl.
    - exists (mkTurn idle [] []), []. do 2 (split; [done|]). split; [constructor|]. by split.
    - apply Forall_cons in Hc as [Hct Hcp]. exists t, p. do 2 (split; [done|]). split; [done|]. split; [done|].
      unfold around. by rewrite !opens_app. }
  rewrite Ht, Hp. apply Forall_app in Hct as [Hcb Hca].
  pose proof (opens_nonneg (t_before t)). pose proof (opens_nonneg (t_after t)).
  pose proof (opens_nonneg (p ≫= around)).
  destruct (calm_run _ _ _ _ Hr Hcb) as (y1 & es1 & Hr1 & Hw1 & Hd1); [lia|].
  destruct (own_frame y1 (seat w) _ (t_env t) (to_server r) Hlaw Hd1 Hx Hfits)
    as (x & h & y2 & es2 & a & Hs & Hh & Ha & Hk & Hst & Hw2 & Hd2).
  destruct (calm_run _ _ _ _ Hd2 Hca) as (y3 & es3 & Hr3 & Hw3 & Hd3); [lia|].
  rewrite turns_app, Hr1. cbn [mbind option_bind Server.run]. rewrite Hst. cbn [mbind option_bind]. rewrite Hr3.
  rewrite Hs. cbn [mbind option_bind]. rewrite Hh. cbn [mbind option_bind].
  exists (es1 ++ es2), a, es3, (mkWorld y3 (seat w) p).
  split; [|split; [done|]; split; [by apply Hk|]; split; [|by exists y1, es2, es1]].
  - f_equal. f_equal. unfold arrivals. destruct (rd_wire _ _ _ Hr) as [l Hl].
    pose proof (wrote_trans _ _ _ _ _ _ (wrote_trans _ _ _ _ _ _ Hw1 Hw2) Hw3) as Hw.
    rewrite Hl, (Hw l Hl). cbn [written]. rewrite drop_app_length, !fmap_app.
    rewrite !texts_pushed. unfold pushed. by rewrite fmap_app, <- !app_assoc.
  - split; [|done]. simpl.
    by replace (opens (p ≫= around)) with
      (opens (plan w ≫= around) - opens (t_before t) - opens (t_after t)) by lia.
Qed.

(** ** The client's side *)

(** Nothing unread but envelopes and what a client passes over. *)
Definition quiet (i : C.Incoming) : Prop :=
  match i with C.Text (Some (C.Envelope _ | C.Other)) => True | _ => False end.

Record in_step (l : Link) : Prop := {
  st_open : C.ended (C.socket l) = false;
  st_quiet : Forall quiet (C.inbox (C.socket l));
  st_good : good (C.far_end (C.socket l));
}.

Lemma pushed_quiet es : Forall quiet (pushed es).
Proof. apply Forall_fmap, Forall_true. done. Qed.

(** [l] with [i] to read, and [p] kept aside. *)
Definition reading (l : Link) (i : list C.Incoming) (p : list rstring) : Link :=
  C.mkLink (C.mkSocket i false (C.far_end (C.socket l))) (C.url l) p (C.token l) (C.presented l).

Lemma next_text l r i p : C.next_reply (reading l (C.Text (Some r) :: i) p) = Some (Ok r, reading l i p).
Proof. done. Qed.

(** Each of the three loops reads through what is quiet to the answer. *)
Lemma await_ready_answer fuel l pre a post w :
  Forall quiet pre -> (length pre < fuel)%nat ->
  match a with C.Ready _ | C.Error _ => True | _ => False end ->
  C.await_ready fuel (reading l (pre ++ C.Text (Some a) :: post) (C.pending l)) w =
    Some (match a with C.Error m => Err (C.SubscriptionRefused m) | _ => Ok (w ++ C.envs pre) end,
          reading l post (C.pending l)).
Proof.
  intros Hpre. revert fuel w. induction Hpre as [|i pre Hi _ IH]; intros fuel w Hf Ha.
  - destruct fuel; [simpl in Hf; lia|]. cbn [C.await_ready app]. rewrite next_text. simpl.
    rewrite app_nil_r. by destruct a.
  - destruct fuel; [simpl in Hf; lia|]. cbn [length] in Hf. destruct i as [[r|]| | |]; try done.
    cbn [C.await_ready app]. rewrite next_text. cbn [C.obind].
    destruct r; try done; rewrite IH by (done || lia); [|done].
    change (C.envs (C.Text (Some (C.Envelope envelope)) :: pre)) with (envelope :: C.envs pre).
    by rewrite <- app_assoc.
Qed.

Definition verdict (a : C.Reply) : C.Deposited :=
  match a with
  | C.Stored => C.DStored
  | C.OverQuota limit used t => C.RefusedByTier (C.AllowanceSpent limit used t)
  | C.Error m =>
      if C.str_contains (rs m) C.TIER_REFUSAL then C.RefusedByTier (C.EnvelopeRefused m)
      else C.Refused (C.EnvelopeRefused m)
  | _ => C.Refused C.Unexpected
  end.

Lemma await_stored_answer fuel l pre a post p :
  Forall quiet pre -> (length pre < fuel)%nat ->
  match a with C.Stored | C.Error _ | C.OverQuota _ _ _ => True | _ => False end ->
  C.await_stored fuel (reading l (pre ++ C.Text (Some a) :: post) p) =
    Some (Ok (verdict a), reading l post (p ++ C.envs pre)).
Proof.
  intros Hpre. revert fuel p. induction Hpre as [|i pre Hi _ IH]; intros fuel p Hf Ha.
  - destruct fuel; [simpl in Hf; lia|]. cbn [C.await_stored app]. rewrite next_text. simpl.
    rewrite app_nil_r. destruct a; try done. simpl. by destruct (C.str_contains _ _).
  - destruct fuel; [simpl in Hf; lia|]. cbn [length] in Hf. destruct i as [[r|]| | |]; try done.
    cbn [C.await_stored app]. rewrite next_text. cbn [C.obind].
    destruct r; try done; [|by rewrite IH by (done || lia)].
    change (C.with_pending (reading l ?i p) (C.pending (reading l ?i p) ++ [envelope]))
      with (reading l i (p ++ [envelope])). rewrite IH by (done || lia).
    change (C.envs (C.Text (Some (C.Envelope envelope)) :: pre)) with (envelope :: C.envs pre).
    by rewrite <- app_assoc.
Qed.

Lemma await_tier_answer fuel l es a post p :
  (length es < fuel)%nat ->
  match a with C.Tier _ _ _ _ _ | C.Error _ => True | _ => False end ->
  exists r, C.await_tier fuel (reading l (pushed es ++ C.Text (Some a) :: post) p) =
    Some (r, reading l post (p ++ C.envs (pushed es))).
Proof.
  revert fuel p. induction es as [|x es IH]; intros fuel p Hf Ha.
  - destruct fuel; [simpl in Hf; lia|]. cbn [C.await_tier pushed fmap list_fmap app]. rewrite next_text. simpl.
    rewrite app_nil_r. destruct a; try done; by eexists.
  - destruct fuel; [simpl in Hf; lia|]. cbn [length] in Hf.
    cbn [C.await_tier pushed fmap list_fmap app]. rewrite next_text. cbn [C.obind].
    destruct (IH fuel (p ++ [C.text (frame_encode (envelope_to_bytes x))])) as [r Hr]; [lia|done|].
    exists r. etransitivity; [exact Hr|]. by rewrite <- app_assoc.
Qed.

(** A link is itself, reading its inbox. *)
Lemma as_reading l :
  C.ended (C.socket l) = false -> l = reading l (C.inbox (C.socket l)) (C.pending l).
Proof. destruct l as [[i e w] u p t b]. simpl. by intros ->. Qed.

Lemma asked l r :
  SerdeLaws SD -> in_step l -> readable r ->
  exists pre a post w',
    C.send far l r = Some (Ok tt, C.with_socket l (C.mkSocket
      (C.inbox (C.socket l) ++ pushed pre ++ C.Text (Some (to_client message a)) :: pushed post) false w')) /\
    answer (C.far_end (C.socket l)) r = Some a /\ kind (to_server r) a /\ good w'.
Proof.
  intros Hlaw [Ho Hq Hg] Hr. destruct (far_good _ r Hlaw Hg Hr) as (pre & a & post & w' & Hf & Ha & Hk & Hg' & _).
  exists pre, a, post, w'. unfold C.send. rewrite Hf, Ho. done.
Qed.

Lemma reading_in_step l i p : good (C.far_end (C.socket l)) -> Forall quiet i -> in_step (reading l i p).
Proof. by split. Qed.

Lemma answer_deposit a e :
  kind (Deposit e) a ->
  match to_client message a with C.Stored | C.Error _ | C.OverQuota _ _ _ => True | _ => False end.
Proof. by destruct a. Qed.

(** A deposit is told the answer to itself. *)
Lemma deposit_once_answer l e :
  SerdeLaws SD -> in_step l -> readable (C.Deposit e) ->
  exists a l', C.deposit_once far l e = Some (Ok (verdict (to_client message a)), l') /\
    answer (C.far_end (C.socket l)) (C.Deposit e) = Some a /\ in_step l' /\
    C.token l' = C.token l /\ C.presented l' = C.presented l /\
    exists es, C.inbox (C.socket l') = pushed es.
Proof.
  intros Hlaw Hl Hr. destruct (asked l _ Hlaw Hl Hr) as (pre & a & post & w' & Hs & Ha & Hk & Hg).
  unfold C.deposit_once. rewrite Hs. cbn [C.obind]. set (l1 := C.with_socket l _).
  assert (C.inbox (C.socket l1) = (C.inbox (C.socket l) ++ pushed pre) ++
    C.Text (Some (to_client message a)) :: pushed post) as E by (subst l1; simpl; by rewrite <- app_assoc).
  exists a, (reading l1 (pushed post) (C.pending l1 ++ C.envs (C.inbox (C.socket l) ++ pushed pre))).
  remember (C.turns_left l1) as n eqn:Hn.
  rewrite (as_reading l1 eq_refl) at 1. rewrite E, await_stored_answer.
  - split; [done|]. split; [done|]. split; [by apply reading_in_step, pushed_quiet|].
    split; [done|]. split; [done|]. by exists post.
  - apply Forall_app. split; [apply Hl|apply pushed_quiet].
  - subst n. unfold C.turns_left. rewrite E, !length_app. simpl. lia.
  - by apply answer_deposit in Hk.
Qed.

(** A subscription is told the answer to itself, and all that came before it. *)
Lemma subscribe_answer l tags :
  SerdeLaws SD -> in_step l -> readable (C.Subscribe tags) ->
  exists a r l', C.link_subscribe far l tags = Some (r, l') /\
    answer (C.far_end (C.socket l)) (C.Subscribe tags) = Some a /\ in_step l' /\
    C.token l' = C.token l /\ (is_ok r = true <-> exists n, a = Ready n).
Proof.
  intros Hlaw Hl Hr. destruct (asked l _ Hlaw Hl Hr) as (pre & a & post & w' & Hs & Ha & Hk & Hg).
  unfold C.link_subscribe. rewrite Hs. cbn [C.obind]. set (l1 := C.with_socket l _).
  assert (C.inbox (C.socket l1) = (C.inbox (C.socket l) ++ pushed pre) ++
    C.Text (Some (to_client message a)) :: pushed post) as E by (subst l1; simpl; by rewrite <- app_assoc).
  exists a. eexists _, (reading l1 (pushed post) (C.pending l1)).
  remember (C.turns_left l1) as n eqn:Hn.
  rewrite (as_reading l1 eq_refl) at 1. rewrite E, await_ready_answer.
  - split; [done|]. split; [done|]. split; [by apply reading_in_step, pushed_quiet|]. split; [done|].
    destruct a; try done; (split; [by eauto|by intros [? [= ]]]).
  - apply Forall_app. split; [apply Hl|apply pushed_quiet].
  - subst n. unfold C.turns_left. rewrite E, !length_app. simpl. lia.
  - by destruct a.
Qed.

(** A request whose reply is passed over leaves the link in step. *)
Lemma unheard l r :
  SerdeLaws SD -> in_step l -> readable r ->
  (forall a, kind (to_server r) a -> quiet (C.Text (Some (to_client message a)))) ->
  exists l', C.send far l r = Some (Ok tt, l') /\ in_step l' /\ C.token l' = C.token l.
Proof.
  intros Hlaw Hl Hr Hk. destruct (asked l _ Hlaw Hl Hr) as (pre & a & post & w' & -> & Ha & Hka & Hg).
  eexists. split; [done|]. split; [|done]. split; [done| |done]. simpl.
  apply Forall_app. split; [apply Hl|]. apply Forall_app. split; [apply pushed_quiet|].
  apply Forall_cons. split; [by apply Hk|apply pushed_quiet].
Qed.

(** What a token is shown as. *)
Definition shown_as (t : rstring) : C.Request :=
  let t := C.text (trim (rs t)) in
  if C.BLIND_TOKEN_MINIMUM <=? zlen (rs t) then C.AuthBlind t else C.Auth t.

Lemma authenticate_answer l t es :
  SerdeLaws SD -> in_step l -> C.inbox (C.socket l) = pushed es -> readable (shown_as t) ->
  exists r l', C.link_authenticate far l t = Some (r, l') /\ in_step l' /\
    C.token l' = C.token l /\ exists es', C.inbox (C.socket l') = pushed es'.
Proof.
  intros Hlaw Hl Hes Hr. destruct (asked l _ Hlaw Hl Hr) as (pre & a & post & w' & Hs & Ha & Hk & Hg).
  unfold C.link_authenticate. fold (shown_as t). rewrite Hs. cbn [C.obind]. set (l1 := C.with_socket l _).
  assert (C.inbox (C.socket l1) = pushed (es ++ pre) ++ C.Text (Some (to_client message a)) :: pushed post) as E.
  { subst l1. simpl. unfold pushed at 3. rewrite fmap_app, Hes. by rewrite <- app_assoc. }
  destruct (await_tier_answer (C.turns_left l1) l1 (es ++ pre) (to_client message a) (pushed post) (C.pending l1))
    as [r Hrd].
  - unfold C.turns_left. rewrite E, !length_app. unfold pushed. rewrite !length_fmap, length_app. simpl. lia.
  - unfold shown_as in Hk. destruct (_ <=? _) in Hk; by destruct a.
  - rewrite <- E, <- (as_reading l1 eq_refl) in Hrd. rewrite Hrd. do 2 eexists. split; [done|].
    split; [by apply reading_in_step, pushed_quiet|]. split; [done|]. by exists post.
Qed.

Definition token_fits (l : Link) : Prop := forall t, C.token l = Some t -> readable (shown_as t).

Lemma verdict_stored a e :
  kind (Deposit e) a -> (verdict (to_client message a) = C.DStored <-> a = Stored).
Proof. destruct a; simpl; try done. by destruct (C.str_contains _ _). Qed.

Lemma attempts_S n k l e :
  C.attempts far (S n) k l e =
  C.obind (C.deposit_once far l e) (fun d l =>
    match d with
    | C.DStored => Some (Ok tt, l)
    | C.RefusedByTier why =>
        if k =? 0 then
          C.obind (C.present_held_token far l) (fun shown l =>
            if shown : bool then C.attempts far n (k + 1) l e else Some (Err why, l))
        else Some (Err why, l)
    | C.Refused why => Some (Err why, l)
    end).
Proof. done. Qed.

Lemma answer_kind w r a : SerdeLaws SD -> good w -> readable r -> answer w r = Some a -> kind (to_server r) a.
Proof.
  intros Hlaw Hg Hr Ha. destruct (far_good w r Hlaw Hg Hr) as (? & b & ? & ? & _ & Hb & Hk & _). congruence.
Qed.

Lemma present_in_step l es :
  SerdeLaws SD -> in_step l -> token_fits l -> C.inbox (C.socket l) = pushed es ->
  exists r l', C.present_held_token far l = Some (r, l') /\ in_step l' /\ C.token l' = C.token l.
Proof.
  intros Hlaw Hl Ht Hes. unfold C.present_held_token. destruct (C.presented l); [by eexists _, l|].
  destruct (C.token l) as [t|] eqn:Et; [|by eexists _, l].
  destruct (authenticate_answer l t es Hlaw Hl Hes (Ht t Et)) as (r & l1 & Ha & Hl1 & Ht1 & _).
  rewrite Ha. destruct r as [gr|x]; cbn [C.obind].
  - eexists _, _. split; [done|]. split; [|simpl; congruence]. by destruct Hl1.
  - eexists _, l1. split; [done|]. split; [done|congruence].
Qed.

(** A deposit returns, and says stored when its last attempt was answered so. *)
Lemma deposit_answer l e :
  SerdeLaws SD -> in_step l -> readable (C.Deposit e) -> token_fits l ->
  exists r l' l1 a, C.link_deposit far l e = Some (r, l') /\ in_step l' /\ C.token l' = C.token l /\
    in_step l1 /\ answer (C.far_end (C.socket l1)) (C.Deposit e) = Some a /\ (is_ok r = true <-> a = Stored).
Proof.
  intros Hlaw Hl Hr Ht. unfold C.link_deposit. rewrite attempts_S.
  destruct (deposit_once_answer l e Hlaw Hl Hr) as (a & l1 & -> & Ha & Hl1 & Ht1 & _ & es & Hes).
  pose proof (answer_kind _ _ _ Hlaw (st_good _ Hl) Hr Ha) as Hk. cbn [C.obind].
  pose proof (verdict_stored a e Hk) as Hv. destruct (verdict _) as [|why|why].
  - eexists _, l1, l, a. do 5 (split; [done|]). split; [by intros _; apply Hv|done].
  - cbn [Z.eqb]. destruct (present_in_step l1 es Hlaw Hl1) as (shown & l2 & -> & Hl2 & Ht2); [|done|].
    { intros t. rewrite Ht1. apply Ht. }
    assert (a <> Stored) as Hns by (intros ->; destruct Hv as [_ Hv]; by specialize (Hv eq_refl)).
    destruct shown as [[|]|x]; cbn [C.obind].
    + rewrite attempts_S. destruct (deposit_once_answer l2 e Hlaw Hl2 Hr) as (b & l3 & -> & Hb & Hl3 & Ht3 & _ & _).
      pose proof (answer_kind _ _ _ Hlaw (st_good _ Hl2) Hr Hb) as Hkb. cbn [C.obind].
      pose proof (verdict_stored b e Hkb) as Hvb.
      destruct (verdict _); eexists _, l3, l2, b; (split; [done|]); (split; [done|]);
        (split; [congruence|]); do 2 (split; [done|]); (split; [|by intros ?%Hvb]); try done.
      by intros _; apply Hvb.
    + eexists _, l2, l, a. split; [done|]. split; [done|]. split; [congruence|]. by do 2 (split; [done|]).
    + eexists _, l2, l, a. split; [done|]. split; [done|]. split; [congruence|]. by do 2 (split; [done|]).
  - assert (a <> Stored) as Hns by (intros ->; destruct Hv as [_ Hv]; by specialize (Hv eq_refl)).
    eexists _, l1, l, a. by do 5 (split; [done|]).
Qed.

(** Calls whose requests the server can read; presenting a token outright is left
    to [MailboxClient.an_unread_reply_hides_the_tier]. *)
Definition polite (c : C.Call) : Prop :=
  match c with
  | C.CSubscribe tags => readable (C.Subscribe tags)
  | C.CCollected es =>
      zlen es <= MAX_TAGS_PER_CONNECTION /\
      zlen (rs (to_text (Collected (omap C.receipt es)))) <= MAX_FRAME_BYTES
  | C.CUnsubscribe tags => readable (C.Unsubscribe tags)
  | C.CDeposit e => readable (C.Deposit e)
  | C.CAuthenticate _ => False
  | C.CHold t => readable (shown_as t)
  | C.CNext _ => True
  end.

Lemma hex_text (x : arr 32) : C.HexLowerLaws HL -> rs (C.text (C.hexlower_encode (ab x))) = hex_lower (ab x).
Proof.
  intros [Hh _]. rewrite Hh. unfold C.text. destruct (from_utf8 (hex_lower (ab x))) as [t|] eqn:E.
  - by apply from_utf8_Some in E.
  - exfalso. unfold from_utf8 in E. destruct (decide _) as [|Hn]; [done|].
    apply Hn, ascii_utf8, hex_lower_ascii.
Qed.

Lemma receipt_readable e d : C.HexLowerLaws HL -> C.receipt e = Some d -> ascii d /\ parse_digest d <> Some None.
Proof.
  intros Hhl. unfold C.receipt. intros (raw & _ & (n & _ & [= <-])%bind_Some)%bind_Some.
  split; [unfold ascii; rewrite hex_text by done; apply hex_lower_ascii|].
  rewrite parse_digest_tag. by rewrite (parse_tag_printed (digest n)) by (by apply hex_text).
Qed.

Lemma poll_in_step n l : in_step l -> exists r l', C.poll n l = (r, l') /\ in_step l' /\ C.token l' = C.token l.
Proof.
  revert l. induction n as [|n IH]; intros l Hl; [by eexists _, l|].
  cbn [C.poll]. pose proof Hl as [Ho Hq Hg].
  pose proof (f_equal C.next_reply (as_reading l Ho)) as ->.
  destruct (C.inbox (C.socket l)) as [|[[r|]| | |] i] eqn:Ei; try (by apply Forall_cons in Hq as [? _]).
  - cbn. by eexists _, l.
  - apply Forall_cons in Hq as [Hr Hi]. rewrite next_text.
    destruct r; try done; [by eexists _, (reading l i _)|]. apply (IH (reading l i (C.pending l))).
    by apply reading_in_step.
Qed.

Lemma link_call_in_step l c :
  SerdeLaws SD -> C.HexLowerLaws HL -> in_step l -> token_fits l -> polite c ->
  exists r l', C.link_call far l c = Some (r, l') /\ in_step l' /\ token_fits l'.
Proof.
  intros Hlaw Hhl Hl Ht Hc. destruct c as [tags|es|tags|e|t|t|waits]; cbn [C.link_call]; [..|done| |].
  - destruct (subscribe_answer l tags Hlaw Hl Hc) as (a & r & l' & H & _ & Hl' & Htok & _).
    exists r, l'. split; [done|]. split; [done|]. intros t. rewrite Htok. apply Ht.
  - destruct Hc as [Hn Hfits]. unfold C.link_collected.
    destruct es as [|e es]; [by eexists _, l|].
    destruct (omap C.receipt (e :: es)) as [|d ds] eqn:Ed; [by eexists _, l|].
    assert (forall x, x ∈ d :: ds -> ascii x /\ parse_digest x <> Some None) as Hx.
    { intros x. rewrite <- Ed. intros (y & _ & Hy)%list_elem_of_omap. by eapply receipt_readable. }
    destruct (unheard l (C.Collected (d :: ds)) Hlaw Hl) as (l' & -> & Hl' & Htok).
    + split; [intros x Hin; by apply Hx|exact Hfits].
    + intros a. destruct a; try done. intros [Hbig|(x & Hin & Hbad)].
      * pose proof (length_omap_le C.receipt (e :: es)). rewrite Ed in *. unfold zlen in *. lia.
      * by destruct (proj2 (Hx x Hin)).
    + eexists _, l'. split; [done|]. split; [done|]. intros t. rewrite Htok. apply Ht.
  - unfold C.link_unsubscribe. destruct (unheard l (C.Unsubscribe tags) Hlaw Hl Hc) as (l' & -> & Hl' & Htok).
    { by intros []. }
    eexists _, l'. split; [done|]. split; [done|]. intros t. rewrite Htok. apply Ht.
  - destruct (deposit_answer l e Hlaw Hl Hc Ht) as (r & l' & _ & _ & -> & Hl' & Htok & _).
    destruct r; eexists _, l'; (split; [done|]); (split; [done|]); intros t; rewrite Htok; apply Ht.
  - eexists _, _. split; [done|]. split; [by destruct Hl|]. intros t' [= <-]. done.
  - unfold C.link_next. destruct (C.pending l) as [|e p].
    + destruct (poll_in_step (sum_list waits) l Hl) as (r & l' & -> & Hl' & Htok).
      eexists _, l'. split; [done|]. split; [done|]. intros t. rewrite Htok. apply Ht.
    + eexists _, _. split; [done|]. split; [by destruct Hl|]. done.
Qed.


(** *** Constellations *)

Abbreviation Constellation := (@C.Constellation World).

(** The text a client reads an envelope as. *)
Definition shown (x : Envelope) : rstring := C.text (frame_encode (envelope_to_bytes x)).

Lemma envs_pushed es : C.envs (pushed es) = shown <$> es.
Proof. induction es as [|x es IH]; [done|]. cbn. by f_equal. Qed.

(** A subscription hands over what waits at the server, and all that was read on
    the way to its answer. *)
Lemma subscribe_reads l tags ts y :
  SerdeLaws SD -> in_step l -> readable (C.Subscribe tags) ->
  zlen tags <= MAX_TAGS_PER_SUBSCRIPTION -> parse_tags tags = Some (Some ts) ->
  let w := C.far_end (C.socket l) in
  Server.run from_text g (system w) (t_before (next_turn w)) = Some y ->
  exists out l', C.link_subscribe far l tags = Some (Ok out, l') /\
    forall x, x ∈ peek_many (mailbox (state y)) ts (now (t_env (next_turn w))) -> shown x ∈ out.
Proof.
  intros Hlaw Hl Hr Hn Hts w Hy. destruct (far_good w _ Hlaw (st_good _ Hl) Hr)
    as (pre & a & post & w' & Hf & _ & Hk & Hg & y' & es & es1 & Hy' & -> & _ & Hd).
  assert (y' = y) as -> by congruence. destruct (Hd ts Hn Hts) as [[n ->] ->].
  unfold C.link_subscribe, C.send. fold w. rewrite Hf. cbn [C.obind]. set (l1 := C.with_socket l _).
  set (pe := es1 ++ _) in *.
  assert (C.inbox (C.socket l1) = (C.inbox (C.socket l) ++ pushed pe) ++ C.Text (Some (C.Ready n)) :: pushed post)
    as E by (subst l1; simpl; by rewrite <- app_assoc).
  exists (C.envs (C.inbox (C.socket l) ++ pushed pe)), (reading l1 (pushed post) (C.pending l1)).
  remember (C.turns_left l1) as k eqn:Hkn. rewrite (as_reading l1 (st_open _ Hl)) at 1. rewrite E, await_ready_answer.
  - split; [done|]. intros x Hx. rewrite C.envs_app, envs_pushed. apply elem_of_app. right.
    apply list_elem_of_fmap. exists x. split; [done|]. subst pe. apply elem_of_app. by right.
  - apply Forall_app. split; [apply Hl|apply pushed_quiet].
  - subst k. unfold C.turns_left. rewrite E, !length_app. simpl. lia.
  - done.
Qed.

(** A connection that is gone answers nothing, and says so. *)
Lemma lost_subscribe l tags :
  C.ended (C.socket l) = true -> exists l', C.link_subscribe far l tags = Some (Err C.Gone, l').
Proof.
  intros Hl. unfold C.link_subscribe, C.send. destruct (far _ _) as [[b i] w'] eqn:E.
  assert (b = true) as -> by (unfold far in E; destruct (Server.run _ _ _ _) in E; by injection E as <- _ _).
  cbn [C.obind C.turns_left C.await_ready]. unfold C.next_reply. simpl. rewrite Hl. by eexists.
Qed.

Lemma subscribe_returns l tags :
  SerdeLaws SD -> in_step l \/ C.ended (C.socket l) = true -> readable (C.Subscribe tags) ->
  exists r l', C.link_subscribe far l tags = Some (r, l').
Proof.
  intros Hlaw [Hl|Hl] Hr.
  - destruct (subscribe_answer l tags Hlaw Hl Hr) as (_ & r & l' & H & _). by exists r, l'.
  - destruct (lost_subscribe l tags Hl) as [l' H]. by eexists _, l'.
Qed.

(** A constellation whose every group returns, hands over what any of them does. *)
Lemma subscribe_each_In (p : list Link) gs :
  (forall l its, l ∈ p -> its ∈ gs -> its <> [] -> exists r l', C.link_subscribe far l its = Some (r, l')) ->
  exists out p', C.subscribe_each far p gs = Some (out, p') /\
    forall i l its found l', p !! i = Some l -> gs !! i = Some its -> its <> [] ->
      C.link_subscribe far l its = Some (Ok found, l') -> forall e, e ∈ found -> e ∈ out.
Proof.
  revert gs. induction p as [|l p IH]; intros gs H; [by exists [], []|].
  destruct gs as [|its gs]; [by exists [], (l :: p)|].
  destruct (IH gs) as (out & p' & Hs & Hin).
  { intros l0 its0 Hl0 Hits0. apply H; by right. }
  destruct its as [|t its]; cbn [C.subscribe_each].
  - rewrite Hs. cbn. do 2 eexists. split; [done|]. intros [|i] l0 its0 found l' Hl Hi Hne Hf e He.
    + simpl in Hi. congruence.
    + simpl in Hl, Hi. by eapply Hin.
  - destruct (H l (t :: its)) as (r & l' & Hr); [by left|by left|done|]. rewrite Hr. cbn. rewrite Hs. cbn.
    do 2 eexists. split; [done|]. intros [|i] l0 its0 found l1 Hl Hi Hne Hf e He; simpl in Hl, Hi.
    + injection Hl as <-. injection Hi as <-. rewrite Hr in Hf. injection Hf as -> _. simpl. set_solver.
    + apply elem_of_app. right. by eapply Hin.
Qed.

Lemma push_each (hs : list nat) (g0 : list (list rstring)) t i its :
  NoDup hs -> foldl (fun g i => alter (fun its => its ++ [t]) i g) g0 hs !! i = Some its ->
  exists k, g0 !! i = Some k /\ its = if bool_decide (i ∈ hs) then k ++ [t] else k.
Proof.
  revert g0. induction hs as [|h hs IH]; intros g0 Hnd; cbn [foldl].
  { intros H. exists its. by rewrite bool_decide_eq_false_2 by apply not_elem_of_nil. }
  apply NoDup_cons in Hnd as [Hh Hnd]. intros H. apply IH in H as (k & Hk & ->); [|done].
  destruct (decide (i = h)) as [->|Hi].
  - rewrite list_lookup_alter_eq in Hk. apply fmap_Some in Hk as (k0 & Hk0 & ->). exists k0. split; [done|].
    rewrite bool_decide_eq_false_2 by done. by rewrite bool_decide_eq_true_2 by (by left).
  - rewrite list_lookup_alter_ne in Hk by done. exists k. split; [done|].
    by rewrite (bool_decide_ext (i ∈ h :: hs) (i ∈ hs)) by set_solver.
Qed.

Lemma holders_NoDup (c : Constellation) t : NoDup (C.holders_of c t).
Proof.
  unfold C.holders_of. pose proof (NoDup_seq 0 (length (C.peers c))).
  destruct (C.tag_of_hex t); [|done]. destruct (Directory.placement _ _); [done|].
  destruct (retain _ _) eqn:E; [done|]. rewrite <- E. by apply NoDup_filter.
Qed.

(** One tag: its holders are asked for it, and nobody else for anything. *)
Lemma grouped_one (c : Constellation) t i its :
  C.grouped c [t] !! i = Some its -> its = if bool_decide (i ∈ C.holders_of c t) then [t] else [].
Proof.
  unfold C.grouped. cbn [foldl]. intros H. apply push_each in H as (k & Hk & ->); [|apply holders_NoDup].
  by apply lookup_replicate in Hk as [-> _].
Qed.

Lemma length_grouped (c : Constellation) tags : length (C.grouped c tags) = length (C.peers c).
Proof.
  unfold C.grouped. rewrite <- (length_replicate (length (C.peers c)) (@nil rstring)) at 2.
  generalize (replicate (length (C.peers c)) (@nil rstring)). induction tags as [|t tags IH]; intros gs; [done|].
  cbn [foldl]. rewrite IH. clear IH. generalize (C.holders_of c t). intros hs. revert gs.
  induction hs as [|h hs IH]; intros gs; [done|]. cbn [foldl]. rewrite IH. apply length_alter.
Qed.

(** A peer at the address of a mailbox the tag is placed on is a holder of it. *)
Lemma placed_is_holder (c : Constellation) t tag i l m :
  C.tag_of_hex t = Some tag -> C.peers c !! i = Some l ->
  m ∈ Directory.placement (C.directory c) tag -> Directory.url m = C.url l -> i ∈ C.holders_of c t.
Proof.
  intros Ht Hi Hm Hu. unfold C.holders_of. rewrite Ht.
  destruct (Directory.placement _ _) as [|m0 ms] eqn:Ep; [by apply not_elem_of_nil in Hm|].
  assert (i ∈ retain (fun i => from_option (C.placed_at c tag) false (C.peers c !! i)) (seq 0 (length (C.peers c)))) as Hin.
  { apply elem_of_retain. rewrite Hi. split.
    - simpl. unfold C.placed_at. rewrite Ep. apply existsb_exists. exists m.
      split; [by apply list_elem_of_In|by apply bool_decide_eq_true].
    - apply elem_of_seq. pose proof (lookup_lt_Some _ _ _ Hi). lia. }
  destruct (retain _ _); [by apply not_elem_of_nil in Hin|done].
Qed.

End Together.

(** ** A small instance *)

Import Toy ServerExample.

Module ClientExample.

(** Two digits at a time. *)
Fixpoint unhex (l : bytes) : option bytes :=
  match l with
  | [] => Some []
  | a :: b :: l => x ← to_digit a; y ← to_digit b; r ← unhex l; Some (z2b (x * 16 + y) :: r)
  | _ => None
  end.

Lemma unhex_lower l : unhex (hex_lower l) = Some l.
Proof.
  induction l as [|b l IH]; [done|]. change (hex_lower (b :: l)) with (hex_byte b ++ hex_lower l).
  unfold hex_byte. cbn [app unhex]. rewrite IH. by destruct b.
Qed.

#[export] Instance hexes : C.HexLower := {| C.hexlower_encode := hex_lower; C.hexlower_permissive := unhex |}.
#[export] Instance hexes_laws : C.HexLowerLaws hexes.
Proof. split; [done|apply unhex_lower]. Qed.

(** A request as a number and the strings it holds. *)
Definition fields (r : Request) : nat * list bytes :=
  match r with
  | Subscribe l => (0%nat, rs <$> l)
  | Unsubscribe l => (1%nat, rs <$> l)
  | Collected l => (2%nat, rs <$> l)
  | Deposit e => (3%nat, [rs e])
  | Auth t => (4%nat, [rs t])
  | AuthBlind t => (5%nat, [rs t])
  | RegisterWake t k s b => (6%nat, [rs t; rs k; rs s; if b then [x00] else []])
  | RevokeWake s => (7%nat, [rs s])
  | LeaveTickets l => (8%nat, l ≫= (fun p => [rs (tt_tag p); rs (tt_ticket p)]))
  end.

Fixpoint pairs (l : list bytes) : option (list TagTicket) :=
  match l with
  | [] => Some []
  | a :: b :: l => x ← from_utf8 a; y ← from_utf8 b; r ← pairs l; Some (mkTagTicket x y :: r)
  | _ => None
  end.

Definition request (f : nat * list bytes) : option Request :=
  match f.1, f.2 with
  | 0%nat, l => Subscribe <$> mapM from_utf8 l
  | 1%nat, l => Unsubscribe <$> mapM from_utf8 l
  | 2%nat, l => Collected <$> mapM from_utf8 l
  | 3%nat, [e] => Deposit <$> from_utf8 e
  | 4%nat, [t] => Auth <$> from_utf8 t
  | 5%nat, [t] => AuthBlind <$> from_utf8 t
  | 6%nat, [t; k; s; b] =>
      t ← from_utf8 t; k ← from_utf8 k; s ← from_utf8 s;
      Some (RegisterWake t k s (bool_decide (b <> [])))
  | 7%nat, [s] => RevokeWake <$> from_utf8 s
  | 8%nat, l => LeaveTickets <$> pairs l
  | _, _ => None
  end.

Lemma mapM_utf8 l : mapM from_utf8 (rs <$> l) = Some l.
Proof. apply mapM_Some, Forall2_fmap_l, Forall_Forall2_diag, Forall_true, from_utf8_rs. Qed.

Lemma request_fields r : request (fields r) = Some r.
Proof.
  destruct r; unfold request; simpl; rewrite ?mapM_utf8, ?from_utf8_rs; try done.
  - simpl. by destruct on_schedule.
  - enough (pairs (tickets ≫= (fun p => [rs (tt_tag p); rs (tt_ticket p)])) = Some tickets) as -> by done.
    induction tickets as [|[a b] l IH]; [done|]. cbn. rewrite !from_utf8_rs. cbn. by rewrite IH.
Qed.

(** A number written as ones and zeroes. *)
Fixpoint bits (p : positive) : bytes :=
  match p with
  | xH => []
  | xO p => z2b 48 :: bits p
  | xI p => z2b 49 :: bits p
  end.

Fixpoint unbits (l : bytes) : positive :=
  match l with
  | [] => xH
  | b :: l => if b2z b =? 48 then xO (unbits l) else xI (unbits l)
  end.

Lemma unbits_bits p : unbits (bits p) = p.
Proof. induction p as [p IH|p IH|]; simpl; [by rewrite IH|by rewrite IH|done]. Qed.

Lemma bits_ascii p : Forall (fun b => b2z b < 128) (bits p).
Proof. by induction p as [p IH|p IH|]; simpl; constructor. Qed.

#[export] Instance serde : Serde := {|
  to_text r := C.text (bits (encode (fields r)));
  from_text t := decode (unbits (rs t)) ≫= request;
|}.

#[export] Instance serde_laws : SerdeLaws serde.
Proof.
  split. intros r. simpl. unfold C.text.
  destruct (from_utf8 (bits (encode (fields r)))) as [t|] eqn:E.
  - apply from_utf8_Some in E. simpl. rewrite E, unbits_bits, decode_encode. apply request_fields.
  - exfalso. unfold from_utf8 in E. destruct (decide _) as [|Hn]; [done|]. apply Hn, ascii_utf8, bits_ascii.
Qed.

Definition message (m : Message) : rstring :=
  C.text (String.list_byte_of_string (match m with PayloadTooLarge _ _ => "tier allows at most" | _ => "no" end)).

Definition turn : Turn := mkTurn env [] [EWake 0 env; EOpen (holder 2) None].
Definition world : World := mkWorld woken_system 0 [turn].
Definition link (u : rstring) : @C.Link World := C.mkLink (C.mkSocket [] false world) u [] None false.
Definition dead (u : rstring) : @C.Link World := C.mkLink (C.mkSocket [] true world) u [] None false.

(** A member the constellation places the tag on, and a reader that has lost the
    others. *)
Definition chosen : Directory.Mailbox :=
  default (Directory.mkMailbox (text_of []) (text_of [])) (head (Directory.placement C.CONSTELLATION tag)).
Definition reader : @C.Constellation World :=
  C.mkConstellation [dead (text_of []); link (Directory.url chosen); dead (text_of [])] C.CONSTELLATION ∅ [] 0.

End ClientExample.

Import (hints) ClientExample.

Section Witnesses.
Import ClientExample.

Lemma world_good : good world.
Proof.
  split; [split|].
  - exact woken_system_ok.
  - by exists [].
  - simpl. lia.
  - vm_compute. discriminate.
  - by repeat constructor.
Qed.

Lemma link_in_step u : in_step (link u).
Proof. split; [done|constructor|exact world_good]. Qed.

Lemma tag_text_ascii : Forall (fun b => b2z b < 128) (rs tag_text).
Proof. apply (bool_decide_unpack _). vm_compute. exact I. Qed.

Lemma subscription_readable : readable (C.Subscribe [tag_text]).
Proof.
  split.
  - intros x ->%list_elem_of_singleton. exact tag_text_ascii.
  - vm_compute. discriminate.
Qed.


End Witnesses.
