(* ===== verification/Text.v ===== *)
(** * Small text files: lines, words and decimal numbers

    What the standard library does for the files the crates keep as text
    ([rotelyx-core/src/store.rs] and [backup.rs], [rotelyx-status/src/lib.rs]):
    [str::lines], [str::split_whitespace], [u64]'s [Display] and [FromStr]; with the
    lemmas that a line built of plain words reads back to them.  [trim] and the
    white space it knows are in [Capability].  The names of files beside one another, for
    [rotelyx-meeting/src/chats.rs] and the status file, are here too. *)

From S2P Require Import Prelude Capability.

Definition NEWLINE : byte := z2b 10.
Definition CARRIAGE : byte := z2b 13.
Definition SPACE : byte := z2b 32.
Definition HASH : byte := z2b 35.
Definition PLUS : byte := z2b 43.

(** ** Lines *)

Definition strip_carriage (l : bytes) : bytes :=
  match last l with
  | Some b => if bool_decide (b = CARRIAGE) then take (length l - 1) l else l
  | None => l
  end.

(** [str::lines], with the line read so far. *)
Fixpoint lines_from (acc l : bytes) : list bytes :=
  match l with
  | [] => match acc with [] => [] | _ => [acc] end
  | b :: l =>
      if bool_decide (b = NEWLINE) then strip_carriage acc :: lines_from [] l
      else lines_from (acc ++ [b]) l
  end.

Definition lines (l : bytes) : list bytes := lines_from [] l.

(** ** Words *)

(** The bytes before the first white space. *)
Fixpoint first_word (l : bytes) : bytes * bytes :=
  match l with
  | [] => ([], [])
  | b :: r =>
      match space_first l with
      | Some _ => ([], l)
      | None => let '(w, rest) := first_word r in (b :: w, rest)
      end
  end.

(** [str::split_whitespace]; every turn takes at least a byte. *)
Fixpoint words (fuel : nat) (l : bytes) : list bytes :=
  match fuel with
  | O => []
  | S fuel =>
      match first_word (strip space_first (length l) l) with
      | ([], _) => []
      | (w, rest) => w :: words fuel rest
      end
  end.

Definition split_whitespace (l : bytes) : list bytes := words (S (length l)) l.

(** [line.split('#').next()]. *)
Fixpoint before_hash (l : bytes) : bytes :=
  match l with
  | [] => []
  | b :: l => if bool_decide (b = HASH) then [] else b :: before_hash l
  end.

(** ** Names of files

    What [std::path] does with names, a path being its bytes. *)

Definition SLASH : byte := x2f.
Definition DOT : byte := x2e.

(** The last [b] of a name, and what is around it. *)
Fixpoint rsplit (b : byte) (l : bytes) : option (bytes * bytes) :=
  match l with
  | [] => None
  | c :: l =>
      match rsplit b l with
      | Some (before, after) => Some (c :: before, after)
      | None => if bool_decide (c = b) then Some ([], l) else None
      end
  end.

(** [Path::file_stem] of a name: a dot at its start begins no extension. *)
Definition file_stem (name : bytes) : bytes :=
  match rsplit DOT name with Some ([], _) | None => name | Some (before, _) => before end.

Definition extension (name : bytes) : option bytes :=
  match rsplit DOT name with Some ([], _) | None => None | Some (_, after) => Some after end.

(** [PathBuf::set_extension], of a path that ends in a name. *)
Definition set_extension (p : bytes) (ext : bytes) : bytes :=
  match rsplit SLASH p with
  | Some (parent, name) => parent ++ [SLASH] ++ file_stem name ++ [DOT] ++ ext
  | None => file_stem p ++ [DOT] ++ ext
  end.

(** [Path::join]: an absolute path replaces. *)
Definition join_path (p : bytes) (q : bytes) : bytes :=
  if bool_decide (head q = Some SLASH) then q else p ++ [SLASH] ++ q.

(** ** Numbers *)

Definition digit (z : Z) : byte := z2b (48 + z).

(** [u64]'s [Display]: at most twenty digits. *)
Fixpoint decimal (fuel : nat) (z : Z) : bytes :=
  match fuel with
  | O => []
  | S fuel => (if z <? 10 then [] else decimal fuel (z / 10)) ++ [digit (z mod 10)]
  end.

Definition print_u64 (z : Z) : bytes := decimal 20 z.

Fixpoint digits_value (acc : Z) (l : bytes) : option Z :=
  match l with
  | [] => Some acc
  | b :: l =>
      if (48 <=? b2z b) && (b2z b <=? 57) then
        let n := acc * 10 + (b2z b - 48) in
        if u64_max <? n then None else digits_value n l
      else None
  end.

(** [u64]'s [FromStr]: a leading plus is a sign. *)
Definition parse_u64 (l : bytes) : option Z :=
  match l with
  | [] => None
  | b :: r =>
      if bool_decide (b = PLUS) then match r with [] => None | _ => digits_value 0 r end
      else digits_value 0 l
  end.

(** ** A number reads back *)

Lemma b2z_digit z : 0 <= z < 10 -> b2z (digit z) = 48 + z.
Proof. intros. unfold digit. apply b2z_z2b_small. lia. Qed.

Lemma digits_value_app acc l k :
  digits_value acc (l ++ k) = (n ← digits_value acc l; digits_value n k).
Proof.
  revert acc. induction l as [|b l IH]; intros acc; [done|]. cbn [app digits_value].
  destruct (_ && _); [|done]. destruct (_ <? _); [done|]. apply IH.
Qed.

Lemma digits_value_decimal fuel z :
  0 <= z <= u64_max -> z < 10 ^ Z.of_nat fuel -> digits_value 0 (decimal fuel z) = Some z.
Proof.
  revert z. induction fuel as [|fuel IH]; intros z Hz Hf; [simpl in Hf; by replace z with 0 by lia|]. cbn [decimal].
  pose proof (Z.mod_pos_bound z 10 ltac:(lia)) as Hm. pose proof (Z.div_mod z 10 ltac:(lia)) as Hd.
  assert (digits_value (z / 10) [digit (z mod 10)] = Some z) as Hlast.
  { cbn [digits_value]. rewrite b2z_digit by lia.
    rewrite (proj2 (Z.leb_le _ _)), (proj2 (Z.leb_le _ _)) by lia. cbn [andb].
    replace (z / 10 * 10 + (48 + z mod 10 - 48)) with z by lia.
    by rewrite (proj2 (Z.ltb_ge _ _)) by lia. }
  destruct (Z.ltb_spec z 10).
  - rewrite Z.div_small in Hlast by lia. exact Hlast.
  - rewrite digits_value_app, IH; [exact Hlast|lia|].
    rewrite Nat2Z.inj_succ, Z.pow_succ_r in Hf by lia. apply Z.div_lt_upper_bound; lia.
Qed.

Lemma decimal_digits fuel z b : 0 <= z -> b ∈ decimal fuel z -> 48 <= b2z b <= 57.
Proof.
  revert z. induction fuel as [|fuel IH]; intros z Hz; [by intros ?%not_elem_of_nil|]. cbn [decimal].
  pose proof (Z.mod_pos_bound z 10 ltac:(lia)). intros [Hb|Hb%list_elem_of_singleton]%elem_of_app.
  - destruct (z <? 10); [by apply not_elem_of_nil in Hb|]. apply (IH (z / 10)); [|done]. by apply Z.div_pos.
  - subst b. rewrite b2z_digit by lia. lia.
Qed.

Lemma print_digits z b : 0 <= z -> b ∈ print_u64 z -> 48 <= b2z b <= 57.
Proof. apply decimal_digits. Qed.

Lemma print_not_nil z : print_u64 z <> [].
Proof.
  change (print_u64 z) with ((if z <? 10 then [] else decimal 19 (z / 10)) ++ [digit (z mod 10)]).
  by intros [_ ?]%app_nil.
Qed.

Lemma parse_printed z : 0 <= z <= u64_max -> parse_u64 (print_u64 z) = Some z.
Proof.
  intros Hz. pose proof (print_digits z) as Hd. pose proof (print_not_nil z) as Hn.
  assert (digits_value 0 (print_u64 z) = Some z) as H.
  { apply digits_value_decimal; [done|]. unfold u64_max in Hz. cbn. lia. }
  unfold parse_u64. destruct (print_u64 z) as [|b r] eqn:E; [done|].
  rewrite bool_decide_eq_false_2; [done|]. intros ->.
  assert (48 <= b2z PLUS <= 57) as [Hp _] by (apply Hd; [lia|by left]). by vm_compute in Hp.
Qed.

(** ** Plain words *)

(** A byte that ends no line, no word and no field. *)
Definition plain (b : byte) : bool :=
  (33 <=? b2z b) && (b2z b <? 127) && negb (bool_decide (b = HASH)).

Definition plain_word (l : bytes) : Prop := l <> [] /\ Forall (fun b => plain b = true) l.

Lemma plain_not_space b l : plain b = true -> space_first (b :: l) = None.
Proof.
  unfold plain. intros [[H1%Z.leb_le H2%Z.ltb_lt]%andb_true_iff _]%andb_true_iff.
  assert (is_ascii_space (b2z b) = false) as E.
  { apply not_true_iff_false. unfold is_ascii_space. rewrite orb_true_iff, andb_true_iff, !Z.leb_le, Z.eqb_eq. lia. }
  cbn [space_first]. rewrite E. destruct l as [|c l]; [done|]. unfold is_space2, is_space3.
  rewrite (proj2 (Z.eqb_neq (b2z b) 194)), (proj2 (Z.eqb_neq (b2z b) 225)), (proj2 (Z.eqb_neq (b2z b) 226)),
    (proj2 (Z.eqb_neq (b2z b) 227)) by lia. by destruct l.
Qed.

Lemma space_is_space l : space_first (SPACE :: l) = Some l.
Proof. done. Qed.

Lemma first_word_plain w rest :
  Forall (fun b => plain b = true) w ->
  first_word (w ++ SPACE :: rest) = (w, SPACE :: rest) /\ first_word w = (w, []).
Proof.
  induction 1 as [|b w Hb _ [IH1 IH2]]; [done|]. split.
  - cbn [app first_word]. by rewrite plain_not_space, IH1 by done.
  - cbn [first_word]. by rewrite plain_not_space, IH2 by done.
Qed.

Lemma strip_plain fuel b l : plain b = true -> strip space_first fuel (b :: l) = b :: l.
Proof. intros Hb. destruct fuel; [done|]. cbn [strip]. by rewrite plain_not_space. Qed.

(** Words with one space between any two. *)
Definition spaced (ws : list bytes) : bytes :=
  match ws with
  | [] => []
  | w :: ws => w ++ (ws ≫= cons SPACE)
  end.

Lemma words_spaced ws fuel :
  Forall plain_word ws -> (length ws < fuel)%nat -> words fuel (spaced ws) = ws.
Proof.
  intros Hws. revert fuel. induction Hws as [|w ws [Hne Hw] Hws IH]; intros fuel Hf.
  { destruct fuel; [simpl in Hf; lia|done]. }
  destruct fuel as [|fuel]; [simpl in Hf; lia|]. cbn [length] in Hf. cbn [words spaced].
  destruct w as [|b w]; [done|]. pose proof Hw as [Hb _]%Forall_cons.
  cbn [app]. rewrite strip_plain by done. destruct ws as [|w' ws].
  - cbn [mbind list_bind]. rewrite app_nil_r.
    destruct (first_word_plain (b :: w) [] Hw) as [_ ->]. f_equal. destruct fuel; [done|]. done.
  - cbn [mbind list_bind]. rewrite app_comm_cons.
    destruct (first_word_plain (b :: w) (w' ++ (ws ≫= cons SPACE)) Hw) as [E _].
    cbn [app] in E |- *. rewrite E. f_equal. destruct fuel as [|fuel]; [simpl in Hf; lia|].
    specialize (IH (S fuel) ltac:(lia)). cbn [words spaced] in IH |- *.
    cbn [length strip]. rewrite space_is_space. exact IH.
Qed.

(** ** Lines read back *)

Definition line_ok (l : bytes) : Prop := (NEWLINE ∉ l) /\ (last l <> Some CARRIAGE).

Lemma strip_carriage_ok l : last l <> Some CARRIAGE -> strip_carriage l = l.
Proof.
  intros H. unfold strip_carriage. destruct (last l) as [b|]; [|done].
  rewrite bool_decide_eq_false_2; [done|]. by intros ->.
Qed.

Lemma lines_from_newline acc l rest :
  NEWLINE ∉ l -> lines_from acc (l ++ NEWLINE :: rest) = strip_carriage (acc ++ l) :: lines_from [] rest.
Proof.
  revert acc. induction l as [|b l IH]; intros acc Hl.
  - cbn [app lines_from]. rewrite bool_decide_eq_true_2 by done. by rewrite app_nil_r.
  - apply not_elem_of_cons in Hl as [Hb Hl]. cbn [app lines_from].
    rewrite bool_decide_eq_false_2 by congruence. rewrite IH by done. by rewrite <- app_assoc.
Qed.

Lemma lines_from_end acc l :
  NEWLINE ∉ l -> lines_from acc l = match acc ++ l with [] => [] | m => [m] end.
Proof.
  revert acc. induction l as [|b l IH]; intros acc Hl.
  - rewrite app_nil_r. by destruct acc.
  - apply not_elem_of_cons in Hl as [Hb Hl]. cbn [lines_from].
    rewrite bool_decide_eq_false_2 by congruence. rewrite IH by done. by rewrite <- app_assoc.
Qed.

(** Each line ended. *)
Lemma lines_ended ls rest :
  Forall line_ok ls -> lines ((ls ≫= (fun l => l ++ [NEWLINE])) ++ rest) = ls ++ lines rest.
Proof.
  induction 1 as [|l ls [H1 H2] _ IH]; [done|]. cbn [mbind list_bind].
  rewrite <- !app_assoc. cbn [app]. unfold lines in *. rewrite lines_from_newline by done.
  rewrite strip_carriage_ok by done. by rewrite IH.
Qed.

(** [join] with newlines between. *)
Definition join_lines (ls : list bytes) : bytes :=
  match ls with
  | [] => []
  | l :: ls => l ++ (ls ≫= cons NEWLINE)
  end.

Lemma lines_joined ls : Forall (fun l => line_ok l /\ l <> []) ls -> lines (join_lines ls) = ls.
Proof.
  induction 1 as [|l ls [[H1 H2] H3] Hls IH]; [done|]. cbn [join_lines]. unfold lines in *.
  destruct ls as [|l' ls].
  - cbn [mbind list_bind]. rewrite app_nil_r, lines_from_end by done. by destruct l.
  - cbn [mbind list_bind]. cbn [app]. rewrite lines_from_newline by done.
    rewrite strip_carriage_ok by done. cbn [app]. f_equal. exact IH.
Qed.

(** ** Plain lines *)

Lemma plain_not_newline b : plain b = true -> b <> NEWLINE /\ b <> CARRIAGE /\ b <> HASH.
Proof.
  unfold plain. intros [[H1%Z.leb_le H2%Z.ltb_lt]%andb_true_iff H3]%andb_true_iff.
  apply negb_true_iff, bool_decide_eq_false in H3.
  split; [|split; [|done]]; intros ->; vm_compute in H1; by destruct H1.
Qed.

Lemma spaced_bytes ws b :
  Forall plain_word ws -> b ∈ spaced ws -> plain b = true \/ b = SPACE.
Proof.
  intros Hws. assert (forall w, w ∈ ws -> b ∈ w -> plain b = true) as Hp.
  { intros w Hw Hb. eapply Forall_forall in Hws as [_ Hws]; [|exact Hw]. by eapply Forall_forall in Hws. }
  destruct ws as [|w ws]; [by intros ?%not_elem_of_nil|]. cbn [spaced].
  intros [Hb|(w' & [->|Hb]%elem_of_cons & Hw)%list_elem_of_bind]%elem_of_app; [|by right|].
  - left. by apply (Hp w); [left|].
  - left. by apply (Hp w'); [right|].
Qed.

Lemma last_bind_cons (w : bytes) (ws : list bytes) :
  w <> [] -> Forall (fun v => v <> []) ws ->
  exists v, v ∈ w :: ws /\ last (w ++ (ws ≫= cons SPACE)) = last v.
Proof.
  revert w. induction ws as [|v ws IH]; intros w Hw Hws.
  - exists w. split; [by left|]. cbn. by rewrite app_nil_r.
  - apply Forall_cons in Hws as [Hv Hws]. destruct (IH v Hv Hws) as (u & Hu & Hl). exists u.
    split; [by right|]. cbn [mbind list_bind]. rewrite last_app. cbn [app].
    change (SPACE :: v ++ mbind (cons SPACE) ws) with ([SPACE] ++ (v ++ mbind (cons SPACE) ws)).
    rewrite last_app, Hl. destruct u as [|b u _] using rev_ind.
    + exfalso. apply elem_of_cons in Hu as [<-|Hu]; [done|]. by eapply Forall_forall in Hws.
    + by rewrite last_snoc.
Qed.

Lemma spaced_last ws :
  Forall plain_word ws -> ws <> [] -> exists b, last (spaced ws) = Some b /\ plain b = true.
Proof.
  intros Hws Hne. destruct ws as [|w ws]; [done|]. cbn [spaced].
  destruct (last_bind_cons w ws) as (v & Hv & Hl).
  - by apply Forall_cons in Hws as [[? _] _].
  - apply Forall_cons in Hws as [_ Hws]. eapply Forall_impl; [exact Hws|]. by intros ? [? _].
  - eapply Forall_forall in Hws as [Hnv Hpv]; [|exact Hv]. rewrite Hl.
    destruct v as [|b v _] using rev_ind; [done|]. exists b. rewrite last_snoc. split; [done|].
    eapply Forall_forall in Hpv; [exact Hpv|]. apply elem_of_app. right. by left.
Qed.

Lemma spaced_line ws : Forall plain_word ws -> ws <> [] -> line_ok (spaced ws).
Proof.
  intros Hws Hne. split.
  - by intros [H|H]%spaced_bytes.
  - destruct (spaced_last ws Hws Hne) as (b & -> & Hb). intros [= ->].
    by apply plain_not_newline in Hb as (_ & ? & _).
Qed.

Lemma before_hash_none l : HASH ∉ l -> before_hash l = l.
Proof.
  induction l as [|b l IH]; [done|]. intros [Hb Hl]%not_elem_of_cons. cbn [before_hash].
  rewrite bool_decide_eq_false_2 by congruence. by rewrite IH.
Qed.

Lemma spaced_no_hash ws : Forall plain_word ws -> before_hash (spaced ws) = spaced ws.
Proof.
  intros Hws. apply before_hash_none. by intros [H|H]%spaced_bytes.
Qed.

Lemma plain_not_last b l : plain b = true -> space_last (b :: l) = None.
Proof.
  unfold plain. intros [[H1%Z.leb_le H2%Z.ltb_lt]%andb_true_iff _]%andb_true_iff.
  assert (is_ascii_space (b2z b) = false) as E.
  { apply not_true_iff_false. unfold is_ascii_space. rewrite orb_true_iff, andb_true_iff, !Z.leb_le, Z.eqb_eq. lia. }
  cbn [space_last]. rewrite E. destruct l as [|c l]; [done|]. unfold is_space2.
  rewrite (proj2 (Z.eqb_neq (b2z b) 133)), (proj2 (Z.eqb_neq (b2z b) 160)) by lia.
  rewrite andb_false_r. destruct l as [|d l]; [done|]. unfold is_space3.
  rewrite (proj2 (Z.eqb_neq (b2z b) 128)), (proj2 (Z.leb_gt 128 (b2z b))), (proj2 (Z.eqb_neq (b2z b) 168)),
    (proj2 (Z.eqb_neq (b2z b) 169)), (proj2 (Z.eqb_neq (b2z b) 175)), (proj2 (Z.eqb_neq (b2z b) 159)) by lia.
  by rewrite !andb_false_r.
Qed.

Lemma strip_last_plain fuel b l : plain b = true -> strip space_last fuel (b :: l) = b :: l.
Proof. intros Hb. destruct fuel; [done|]. cbn [strip]. by rewrite plain_not_last. Qed.

(** Nothing is trimmed from text that begins and ends plainly. *)
Lemma trim_plain l b c : head l = Some b -> last l = Some c -> plain b = true -> plain c = true -> trim l = l.
Proof.
  intros Hh Hl Hb Hc. unfold trim. destruct l as [|b' l]; [done|]. injection Hh as ->.
  rewrite strip_plain by done. destruct (b :: l) as [|c' m _] eqn:E using rev_ind; [done|].
  rewrite last_snoc in Hl. injection Hl as ->. rewrite reverse_snoc, strip_last_plain by done.
  by rewrite <- reverse_snoc, reverse_involutive.
Qed.

Lemma trim_spaced ws : Forall plain_word ws -> ws <> [] -> trim (spaced ws) = spaced ws.
Proof.
  intros Hws Hne. destruct (spaced_last ws Hws Hne) as (c & Hl & Hc).
  destruct ws as [|[|b w] ws]; [done|by apply Forall_cons in Hws as [[? _] _]|].
  apply (trim_plain _ b c); try done. apply Forall_cons in Hws as [[_ Hw] _]. by apply Forall_cons in Hw as [? _].
Qed.

Lemma split_spaced ws : Forall plain_word ws -> split_whitespace (spaced ws) = ws.
Proof.
  intros Hws. apply words_spaced; [done|]. destruct ws as [|w ws]; [simpl; lia|]. cbn [spaced length].
  apply Forall_cons in Hws as [[Hw _] _]. rewrite length_app. destruct w as [|b w]; [done|]. cbn [length].
  assert (length ws <= length (ws ≫= cons SPACE))%nat; [|lia].
  clear. induction ws as [|v ws IH]; [done|]. rewrite bind_cons, length_app. cbn [length]. lia.
Qed.

Lemma print_plain z : 0 <= z -> plain_word (print_u64 z).
Proof.
  intros Hz. split; [apply print_not_nil|]. apply Forall_forall. intros b Hb.
  apply print_digits in Hb; [|done]. unfold plain.
  rewrite (proj2 (Z.leb_le _ _)), (proj2 (Z.ltb_lt _ _)) by lia. rewrite bool_decide_eq_false_2; [done|].
  intros ->. vm_compute in Hb. by destruct Hb.
Qed.

(** ** Characters *)

(** [l] with its first byte a continuation byte, or as [p] has it. *)
Definition head_is (p : byte -> bool) (l : bytes) : bool :=
  match l with b :: _ => p b | [] => false end.

(** What the second byte of a longer sequence may be, by the first. *)
Definition second_ok (a : byte) : byte -> bool :=
  if b2z a =? 224 then in_range 160 191
  else if b2z a =? 237 then in_range 128 159
  else if b2z a =? 240 then in_range 144 191
  else if b2z a =? 244 then in_range 128 143
  else is_cont.

(** The first character of [l]: whether it is one, and how many bytes it, or the
    longest beginning of one there is, takes. *)
Definition next_char (l : bytes) : bool * nat :=
  match l with
  | [] => (true, 0%nat)
  | a :: l1 =>
      if b2z a <? 128 then (true, 1%nat)
      else if in_range 194 223 a then if head_is is_cont l1 then (true, 2%nat) else (false, 1%nat)
      else if in_range 224 244 a then
        if negb (head_is (second_ok a) l1) then (false, 1%nat)
        else if negb (head_is is_cont (drop 1 l1)) then (false, 2%nat)
        else if in_range 224 239 a then (true, 3%nat)
        else if head_is is_cont (drop 2 l1) then (true, 4%nat)
        else (false, 3%nat)
      else (false, 1%nat)
  end.

(** [str::chars], each as its bytes; every turn takes at least one. *)
Fixpoint chars_from (fuel : nat) (l : bytes) : list bytes :=
  match fuel, l with
  | O, _ | _, [] => []
  | S fuel, _ => let n := (next_char l).2 in take n l :: chars_from fuel (drop n l)
  end.

Definition chars (l : bytes) : list bytes := chars_from (length l) l.

(** U+FFFD. *)
Definition REPLACEMENT : bytes := [z2b 239; z2b 191; z2b 189].

Fixpoint lossy_from (fuel : nat) (l : bytes) : bytes :=
  match fuel, l with
  | O, _ | _, [] => []
  | S fuel, _ =>
      let '(valid, n) := next_char l in
      (if valid then take n l else REPLACEMENT) ++ lossy_from fuel (drop n l)
  end.

(** [String::from_utf8_lossy]. *)
Definition from_utf8_lossy (l : bytes) : bytes := lossy_from (length l) l.

Lemma next_char_pos l : l <> [] -> (1 <= (next_char l).2)%nat.
Proof.
  destruct l as [|a l]; [done|]. intros _. unfold next_char.
  repeat match goal with |- context [if ?b then _ else _] => destruct b end; simpl; lia.
Qed.

(** One character of a string, and the string after it. *)
Lemma next_char_valid l :
  l <> [] -> utf8_valid l = true -> exists n, next_char l = (true, n) /\ utf8_valid (drop n l) = true.
Proof.
  destruct l as [|a l1]; [done|]. intros _. unfold next_char. cbn [utf8_valid].
  destruct (b2z a <? 128) eqn:Ha; [intros H; by exists 1%nat|]. destruct l1 as [|b l2]; [done|]. cbn [head_is].
  destruct (in_range 194 223 a) eqn:H2; [intros [-> H]%andb_true_iff; by exists 2%nat|].
  destruct l2 as [|c l3]; [done|]. cbn [drop head_is].
  destruct (in_range 224 239 a) eqn:H3.
  - assert (in_range 224 244 a = true) as ->.
    { unfold in_range in *. apply andb_true_iff in H3 as [?%Z.leb_le ?%Z.leb_le]. apply andb_true_iff.
      split; apply Z.leb_le; lia. }
    intros [[H Hc]%andb_true_iff Hv]%andb_true_iff. assert (second_ok a b = true) as ->.
    { unfold second_ok. unfold in_range in H3. apply andb_true_iff in H3 as [?%Z.leb_le ?%Z.leb_le].
      destruct (b2z a =? 224); [done|]. destruct (b2z a =? 237); [done|].
      rewrite (proj2 (Z.eqb_neq _ 240)), (proj2 (Z.eqb_neq _ 244)) by lia. done. }
    rewrite Hc. cbn [negb]. by exists 3%nat.
  - destruct l3 as [|d l4]; [done|]. destruct (in_range 240 244 a) eqn:H4; [|done].
    intros [[[H Hc]%andb_true_iff Hd]%andb_true_iff Hv]%andb_true_iff.
    unfold in_range in H4. apply andb_true_iff in H4 as [?%Z.leb_le ?%Z.leb_le].
    assert (in_range 224 244 a = true) as ->.
    { unfold in_range. apply andb_true_iff. split; apply Z.leb_le; lia. }
    assert (second_ok a b = true) as ->.
    { unfold second_ok. rewrite (proj2 (Z.eqb_neq _ 224)), (proj2 (Z.eqb_neq _ 237)) by lia.
      destruct (b2z a =? 240); [done|]. by destruct (b2z a =? 244). }
    rewrite Hc. cbn [negb drop head_is]. rewrite Hd. by exists 4%nat.
Qed.

(** A string is what it says. *)
Lemma lossy_valid (s : rstring) : from_utf8_lossy (rs s) = rs s.
Proof.
  destruct s as [l Hs]. pose proof (Is_true_eq_true _ Hs) as Hl. cbn [rs]. clear Hs. unfold from_utf8_lossy.
  enough (forall fuel l, (length l <= fuel)%nat -> utf8_valid l = true -> lossy_from fuel l = l) as H by by apply H.
  clear l Hl. induction fuel as [|fuel IH]; intros l Hf Hl; [by destruct l; [|simpl in Hf; lia]|].
  destruct l as [|a l]; [done|]. set (k := a :: l) in *.
  assert (k <> []) as Hk by (by subst k).
  destruct (next_char_valid k Hk Hl) as (n & Hn & Hv). pose proof (next_char_pos k Hk) as Hp.
  change (lossy_from (S fuel) k) with
    (let '(valid, n) := next_char k in (if valid then take n k else REPLACEMENT) ++ lossy_from fuel (drop n k)).
  rewrite Hn. rewrite Hn in Hp. cbn [snd] in Hp. cbn iota.
  rewrite IH; [apply take_drop| |done]. rewrite length_drop. subst k. simpl in *. lia.
Qed.

Lemma chars_from_ascii fuel l :
  (length l <= fuel)%nat -> Forall (fun b => b2z b < 128) l -> chars_from fuel l = (fun b => [b]) <$> l.
Proof.
  revert l. induction fuel as [|fuel IH]; intros l Hf Hl; [by destruct l; [|simpl in Hf; lia]|].
  destruct l as [|a l]; [done|]. apply Forall_cons in Hl as [Ha Hl].
  cbn [chars_from next_char]. rewrite (proj2 (Z.ltb_lt _ _)) by done. cbn [snd take drop fmap list_fmap].
  f_equal. apply IH; [simpl in Hf; lia|done].
Qed.

Lemma chars_ascii l : Forall (fun b => b2z b < 128) l -> chars l = (fun b => [b]) <$> l.
Proof. by apply chars_from_ascii. Qed.
