(* ===== verification/DeviceStore.v ===== *)
(** * What a device keeps on its disk: invitations, conversations, backups

    [crates/rotelyx-core/src/store.rs] and [backup.rs], over the text of [Text] and
    the seal of [AtRest].  A disk is a map from paths to
    contents.  A read finds the file or not, and may fail; a write may be refused, be
    torn (the file is truncated before it is written, and the rest does not come),
    or be written and then not restricted to its owner: what happens is an argument
    of the operation. *)

From S2P Require Import Prelude Crypto Capability Hex Text.
From S2P Require AtRest.
Import AtRest (Argon2).

Abbreviation Path := bytes.
Abbreviation Disk := (gmap Path bytes).

(** [BASE64URL_NOPAD] of [data_encoding]. *)
Class Base64Url := { url_encode : bytes -> bytes; url_decode : bytes -> option bytes }.
Class Base64UrlLaws `(Base64Url) : Prop := {
  url_decode_encode l : url_decode (url_encode l) = Some l;
  url_plain l : l <> [] -> plain_word (url_encode l);
}.

Inductive Fate := Written | Refused | Torn (n : nat) | Unrestricted.

Inductive StoreError :=
| Read (p : Path)
| Write (p : Path)
| Malformed (p : Path) (line : Z) (reason : string).

(** [std::fs::read_to_string] of a file that exists. *)
Definition read_to_string (d : Disk) (p : Path) (readable : bool) : option (Result bytes StoreError) :=
  l ← d !! p;
  Some (if readable && is_ok (ok_or tt (from_utf8 l)) then Ok l else Err (Read p)).

(** [std::fs::write], then [restrict]. *)
Definition write_restricted (d : Disk) (p : Path) (contents : bytes) (fate : Fate)
    : Result unit StoreError * Disk :=
  match fate with
  | Written => (Ok tt, <[p := contents]> d)
  | Unrestricted => (Err (Write p), <[p := contents]> d)
  | Torn n => (Err (Write p), <[p := take n contents]> d)
  | Refused => (Err (Write p), d)
  end.

(** ** Invitations *)

Record StoredInvitation := mkStored { secret : arr 32; transport : arr 32; expires_at_epoch : Z }.

#[export] Instance StoredInvitation_eq_dec : EqDecision StoredInvitation.
Proof. solve_decision. Defined.

Definition INVITATIONS_HEADING : bytes :=
  String.list_byte_of_string "# Rotelyx invitations. `secret transport expiry-epoch` per line." ++ [NEWLINE] ++
  String.list_byte_of_string "         # The secret authorises and the transport key is the address it is" ++ [NEWLINE] ++
  String.list_byte_of_string "         # answered on. Both are secrets: treat this file as a keyring." ++ [NEWLINE].

Section Invitations.
Context `{BU : Base64Url}.

Definition decode32 (p : Path) (n : Z) (l : bytes) (not_base64 not_32 : string)
    : Result (arr 32) StoreError :=
  let? raw := ok_or (Malformed p n not_base64) (url_decode l) in
  ok_or (Malformed p n not_32) (try_into 32 raw).

(** One line: nothing to keep, or an invitation. *)
Definition load_line (p : Path) (now_epoch n : Z) (line : bytes)
    : Result (option StoredInvitation) StoreError :=
  let line := trim (before_hash line) in
  match line with
  | [] => Ok None
  | _ =>
      match split_whitespace line with
      | code :: transport :: expiry :: _ =>
          let? s := decode32 p n code "secret is not valid base64" "secret is not 32 bytes" in
          let? t := decode32 p n transport "transport key is not valid base64" "transport key is not 32 bytes" in
          let? e := ok_or (Malformed p n "expiry is not a number") (parse_u64 (trim expiry)) in
          Ok (if now_epoch <=? e then Some (mkStored s t e) else None)
      | _ => Ok None
      end
  end.

Fixpoint load_lines (p : Path) (now_epoch n : Z) (l : list bytes)
    : Result (list StoredInvitation) StoreError :=
  match l with
  | [] => Ok []
  | line :: l =>
      let? x := load_line p now_epoch (n + 1) line in
      let? rest := load_lines p now_epoch (n + 1) l in
      Ok (option_list x ++ rest)
  end.

Definition load_invitations (d : Disk) (p : Path) (now_epoch : Z) (readable : bool)
    : Result (list StoredInvitation) StoreError :=
  match read_to_string d p readable with
  | None => Ok []
  | Some r => let? text := r in load_lines p now_epoch 0 (lines text)
  end.

Definition invitation_line (i : StoredInvitation) : bytes :=
  url_encode (ab (secret i)) ++ [SPACE] ++ url_encode (ab (transport i)) ++ [SPACE]
  ++ print_u64 (expires_at_epoch i) ++ [NEWLINE].

Definition save_invitations (d : Disk) (p : Path) (l : list StoredInvitation) (fate : Fate)
    : Result unit StoreError * Disk :=
  write_restricted d p (INVITATIONS_HEADING ++ (l ≫= invitation_line)) fate.

Definition add_invitation (d : Disk) (p : Path) (i : StoredInvitation) (now_epoch : Z)
    (readable : bool) (fate : Fate) : Result unit StoreError * Disk :=
  match load_invitations d p now_epoch readable with
  | Err e => (Err e, d)
  | Ok all => save_invitations d p (all ++ [i]) fate
  end.

Definition revoke_invitation (d : Disk) (p : Path) (s : arr 32) (now_epoch : Z)
    (readable : bool) (fate : Fate) : Result bool StoreError * Disk :=
  match load_invitations d p now_epoch readable with
  | Err e => (Err e, d)
  | Ok all =>
      let kept := retain (fun i => negb (bool_decide (secret i = s))) all in
      if (length kept =? length all)%nat then (Ok false, d)
      else
        match save_invitations d p kept fate with
        | (Ok _, d) => (Ok true, d)
        | (Err e, d) => (Err e, d)
        end
  end.

End Invitations.

(** ** Conversations *)

Section Conversations.
Context `{AE : Aead, KD : Argon2}.

(** A seal that fails is a write that failed, and one that does not open a read. *)
Definition save_conversation (d : Disk) (p : Path) (st passphrase : bytes) (salt : arr 16)
    (nonce : arr 24) (fate : Fate) : Result unit StoreError * Disk :=
  match AtRest.Sealed.seal_bytes st passphrase salt nonce with
  | Err _ => (Err (Write p), d)
  | Ok sealed => write_restricted d p sealed fate
  end.

Definition load_conversation (d : Disk) (p : Path) (passphrase : bytes) (readable : bool)
    : Result (option bytes) StoreError :=
  match d !! p with
  | None => Ok None
  | Some l =>
      if readable then
        match AtRest.Sealed.open_bytes l passphrase with
        | Ok st => Ok (Some st)
        | Err _ => Err (Read p)
        end
      else Err (Read p)
  end.

(** Removing what is not there is no error; [removable] says whether the system
    lets it. *)
Definition forget_conversation (d : Disk) (p : Path) (removable : bool) : Result unit StoreError * Disk :=
  match d !! p with
  | None => (Ok tt, d)
  | Some _ => if removable then (Ok tt, delete p d) else (Err (Write p), d)
  end.

(** ** Backups *)

Definition BACKUP_MAGIC : bytes := String.list_byte_of_string "RTLXBAK" ++ [x00].
Definition BACKUP_VERSION : byte := x01.
Definition HEADER_LEN : nat := 37.

Inductive BackupError :=
| BadMagic
| UnsupportedVersion (found understood : byte)
| Truncated (len min : Z)
| Rollback (backup seen : Z)
| BSeal (e : AtRest.Sealed.SealError)
| BStore (e : StoreError).

Record Backup := mkBackup { sequence : Z; epoch : Z; created_at_epoch : Z; st_bytes : bytes }.

Definition backup_payload (b : Backup) : bytes :=
  BACKUP_MAGIC ++ [BACKUP_VERSION] ++ be_bytes 8 (sequence b) ++ be_bytes 8 (epoch b)
  ++ be_bytes 8 (created_at_epoch b) ++ be_bytes 4 (zlen (st_bytes b)) ++ st_bytes b.

Definition seal (b : Backup) (passphrase : bytes) (salt : arr 16) (nonce : arr 24) : Result bytes BackupError :=
  map_err BSeal (AtRest.Sealed.seal_bytes (backup_payload b) passphrase salt nonce).

Definition read_payload (l : bytes) : Result Backup BackupError :=
  if zlen l <? Z.of_nat HEADER_LEN then Err (Truncated (zlen l) (Z.of_nat HEADER_LEN))
  else if negb (bool_decide (take 8 l = BACKUP_MAGIC)) then Err BadMagic
  else
    let version := default zero_byte (l !! 8%nat) in
    if negb (bool_decide (version = BACKUP_VERSION)) then Err (UnsupportedVersion version BACKUP_VERSION)
    else
      let u64_at at_ := be_value (slice l at_ (at_ + 8)) in
      let len := be_value (slice l 33 37) in
      if zlen l <? Z.of_nat HEADER_LEN + len
      then Err (Truncated (zlen l) (Z.of_nat HEADER_LEN + len))
      else Ok (mkBackup (u64_at 9%nat) (u64_at 17%nat) (u64_at 25%nat)
                 (slice l HEADER_LEN (HEADER_LEN + Z.to_nat len))).

Definition open (l passphrase : bytes) : Result Backup BackupError :=
  let? payload := map_err BSeal (AtRest.Sealed.open_bytes l passphrase) in read_payload payload.

Definition high_water (d : Disk) (p : Path) (readable : bool) : Result Z BackupError :=
  match read_to_string d p readable with
  | None => Ok 0
  | Some r => let? text := map_err BStore r in Ok (default 0 (parse_u64 (trim text)))
  end.

Definition record_epoch (d : Disk) (p : Path) (e : Z) (readable : bool) (fate : Fate)
    : Result unit BackupError * Disk :=
  match high_water d p readable with
  | Err x => (Err x, d)
  | Ok seen =>
      if e <=? seen then (Ok tt, d)
      else let '(r, d) := write_restricted d p (print_u64 e ++ [NEWLINE]) fate in (map_err BStore r, d)
  end.

Definition refuse_rollback (d : Disk) (p : Path) (b : Backup) (readable : bool) : Result unit BackupError :=
  let? seen := high_water d p readable in
  if epoch b <? seen then Err (Rollback (epoch b) seen) else Ok tt.

End Conversations.

(** ** Invitations read back *)

Section InvitationLemmas.
Context `{BU : Base64Url, BL : !Base64UrlLaws BU}.

Definition fields_of (i : StoredInvitation) : list bytes :=
  [url_encode (ab (secret i)); url_encode (ab (transport i)); print_u64 (expires_at_epoch i)].

Definition expiry_ok (i : StoredInvitation) : Prop := u64 (expires_at_epoch i).

Lemma arr32_not_nil (a : arr 32) : ab a <> [].
Proof. intros H. pose proof (length_ab a) as Hl. by rewrite H in Hl. Qed.

Lemma fields_plain i : expiry_ok i -> Forall plain_word (fields_of i).
Proof.
  intros He. unfold fields_of. repeat (apply Forall_cons; split); try done.
  - apply url_plain, arr32_not_nil.
  - apply url_plain, arr32_not_nil.
  - apply print_plain. apply He.
Qed.

Lemma invitation_line_spaced i : invitation_line i = spaced (fields_of i) ++ [NEWLINE].
Proof. unfold invitation_line, fields_of, spaced. cbn [mbind list_bind]. by rewrite app_nil_r, <- !app_assoc. Qed.

Lemma load_line_written p now n i :
  expiry_ok i ->
  load_line p now n (spaced (fields_of i)) =
    Ok (if now <=? expires_at_epoch i then Some i else None).
Proof.
  intros He. pose proof (fields_plain i He) as Hp. unfold load_line.
  rewrite (spaced_no_hash _ Hp), (trim_spaced _ Hp) by done. rewrite (split_spaced _ Hp).
  destruct (spaced (fields_of i)) as [|b l] eqn:E.
  { apply (f_equal split_whitespace) in E. rewrite split_spaced in E by done. done. }
  unfold fields_of, decode32. rewrite !url_decode_encode. cbn [ok_or rbind]. rewrite !try_into_ab. cbn [ok_or rbind].
  assert (trim (print_u64 (expires_at_epoch i)) = print_u64 (expires_at_epoch i)) as ->.
  { apply Forall_cons in Hp as [_ [_ Hp]%Forall_cons]. pose proof (trim_spaced _ Hp ltac:(done)) as H.
    cbn [spaced mbind list_bind] in H. by rewrite app_nil_r in H. }
  rewrite parse_printed by (unfold expiry_ok, u64, u64_max in *; lia). cbn [ok_or rbind]. by destruct i.
Qed.

Lemma load_written p now n l :
  Forall expiry_ok l ->
  load_lines p now n ((fun i => spaced (fields_of i)) <$> l) =
    Ok (retain (fun i => now <=? expires_at_epoch i) l).
Proof.
  intros Hl. revert n. induction Hl as [|i l Hi _ IH]; intros n; [done|]. rewrite fmap_cons. cbn [load_lines].
  rewrite load_line_written by done. cbn [rbind]. rewrite IH. cbn [rbind].
  unfold retain. rewrite filter_cons. by destruct (_ <=? _).
Qed.

Definition heading_lines : list bytes := lines INVITATIONS_HEADING.

Lemma heading_skipped p now n : load_lines p now n heading_lines = Ok [].
Proof.
  assert (Forall (fun l => trim (before_hash l) = []) heading_lines) as H
    by (apply (bool_decide_unpack _); vm_compute; exact I).
  revert n. induction H as [|l ls Hl _ IH]; intros n; [done|]. cbn [load_lines]. unfold load_line.
  rewrite Hl. cbn [rbind]. by rewrite IH.
Qed.

Lemma load_lines_app p now n l k :
  load_lines p now n (l ++ k) =
  (let? a := load_lines p now n l in let? b := load_lines p now (n + zlen l) k in Ok (a ++ b)).
Proof.
  revert n. induction l as [|x l IH]; intros n; cbn [app load_lines rbind].
  - rewrite Z.add_0_r. by destruct (load_lines _ _ _ _).
  - destruct (load_line _ _ _ _); [|done]. cbn [rbind]. rewrite IH, zlen_cons.
    replace (n + 1 + zlen l) with (n + (1 + zlen l)) by lia.
    destruct (load_lines p now (n + 1) l); [|done]. cbn [rbind].
    destruct (load_lines _ _ _ k); [|done]. cbn [rbind]. by rewrite app_assoc.
Qed.

Lemma load_text p now l :
  Forall expiry_ok l ->
  load_lines p now 0 (lines (INVITATIONS_HEADING ++ (l ≫= invitation_line))) =
    Ok (retain (fun i => now <=? expires_at_epoch i) l).
Proof.
  intros Hl. assert (INVITATIONS_HEADING = heading_lines ≫= (fun l => l ++ [NEWLINE])) as -> by (vm_compute; reflexivity).
  rewrite lines_ended.
  2: { apply (bool_decide_unpack _). vm_compute. exact I. }
  assert ((l ≫= invitation_line) =
    (((fun i => spaced (fields_of i)) <$> l) ≫= (fun l => l ++ [NEWLINE])) ++ []) as ->.
  { rewrite app_nil_r. induction l as [|i l IH]; [done|]. apply Forall_cons in Hl as [_ Hl].
    rewrite fmap_cons, !bind_cons, invitation_line_spaced. f_equal. by apply IH. }
  rewrite lines_ended, app_nil_r.
  - rewrite load_lines_app, heading_skipped. cbn [rbind]. rewrite load_written by done. done.
  - apply Forall_fmap. eapply Forall_impl; [exact Hl|]. intros i Hi. by apply spaced_line; [apply fields_plain|].
Qed.
Lemma plain_ascii b : plain b = true -> b2z b < 128.
Proof. unfold plain. intros [[_ H%Z.ltb_lt]%andb_true_iff _]%andb_true_iff. lia. Qed.

Lemma saved_text_valid l :
  Forall expiry_ok l -> is_ok (ok_or tt (from_utf8 (INVITATIONS_HEADING ++ (l ≫= invitation_line)))) = true.
Proof.
  intros Hl. unfold from_utf8. destruct (decide _) as [|Hn]; [done|]. destruct Hn. apply ascii_utf8, Forall_app. split.
  - apply (bool_decide_unpack _). vm_compute. exact I.
  - apply Forall_forall. intros b (i & Hb & Hi)%list_elem_of_bind. eapply Forall_forall in Hl; [|exact Hi].
    rewrite invitation_line_spaced in Hb. apply elem_of_app in Hb as [Hb| ->%list_elem_of_singleton]; [|done].
    apply spaced_bytes in Hb as [Hb| ->]; [by apply plain_ascii|done|by apply fields_plain].
Qed.

Lemma saved_reads d p l now :
  Forall expiry_ok l ->
  load_invitations (<[p := INVITATIONS_HEADING ++ (l ≫= invitation_line)]> d) p now true =
    Ok (retain (fun i => now <=? expires_at_epoch i) l).
Proof.
  intros Hl. unfold load_invitations, read_to_string. rewrite lookup_insert_eq. cbn [mbind option_bind].
  rewrite saved_text_valid by done. cbn [andb rbind]. by apply load_text.
Qed.

(** The invitations a device wrote are the ones it finds.  A file that was
    written loads, at any hour, to exactly the invitations put in it that have not
    expired by then, in order, with their secrets, their transport keys and their
    expiries. *)
Theorem invitations_roundtrip d p l now :
  Forall expiry_ok l ->
  load_invitations (save_invitations d p l Written).2 p now true =
    Ok (retain (fun i => now <=? expires_at_epoch i) l).
Proof. apply saved_reads. Qed.

(** What is read from any file fits its width. *)
Lemma digits_value_range acc l z : 0 <= acc <= u64_max -> digits_value acc l = Some z -> 0 <= z <= u64_max.
Proof.
  revert acc. induction l as [|b l IH]; intros acc Ha; cbn [digits_value]; [by intros [= <-]|].
  destruct (Z.leb_spec 48 (b2z b)); [|done]. destruct (Z.leb_spec (b2z b) 57); [|done]. cbn [andb].
  destruct (Z.ltb_spec u64_max (acc * 10 + (b2z b - 48))); [done|]. apply IH. lia.
Qed.

Lemma parse_u64_range l z : parse_u64 l = Some z -> u64 z.
Proof.
  intros H. assert (0 <= z <= u64_max); [|unfold u64, u64_max in *; lia]. unfold parse_u64 in H.
  destruct l as [|b r]; [done|]. destruct (bool_decide _).
  - destruct r; [done|]. by apply digits_value_range in H.
  - by apply digits_value_range in H.
Qed.

Lemma loaded_expiries p now n l k : load_lines p now n l = Ok k -> Forall expiry_ok k.
Proof.
  revert n k. induction l as [|x l IH]; intros n k; cbn [load_lines]; [by intros [= <-]|].
  destruct (load_line p now (n + 1) x) as [o|] eqn:E; [|done]. cbn [rbind].
  destruct (load_lines p now (n + 1) l) as [m|] eqn:El; [|done]. cbn [rbind]. intros [= <-].
  apply Forall_app. split; [|by eapply IH]. destruct o as [i|]; [|done]. apply Forall_singleton.
  unfold load_line in E. destruct (trim (before_hash x)) as [|b t]; [done|].
  destruct (split_whitespace (b :: t)) as [|c1 [|c2 [|c3 ws]]]; try done.
  apply rbind_ok in E as (s & _ & (t' & _ & E)%rbind_ok). destruct (parse_u64 (trim c3)) as [z|] eqn:Ez; [|done].
  cbn [ok_or rbind] in E. destruct (now <=? z); [|done]. injection E as <-. by eapply parse_u64_range.
Qed.
(** A withdrawn invitation is gone.  Withdrawing one by its secret says whether
    a live invitation has it; when one does and the write succeeds, every later load
    finds the others that are still live, and none with that secret; when none does,
    or the file cannot be read or written, the disk is as it was. *)
Theorem revoked_is_gone d p s now fate :
  let '(r, d') := revoke_invitation d p s now true fate in
  match load_invitations d p now true with
  | Err e => r = Err e /\ d' = d
  | Ok all =>
      if existsb (fun i => bool_decide (secret i = s)) all then
        (fate = Written -> r = Ok true /\
          forall later, load_invitations d' p later true =
            Ok (retain (fun i => later <=? expires_at_epoch i)
                 (retain (fun i => negb (bool_decide (secret i = s))) all))) /\
        (fate = Refused -> is_ok r = false /\ d' = d)
      else r = Ok false /\ d' = d
  end.
Proof.
  unfold revoke_invitation. destruct (load_invitations d p now true) as [all|e] eqn:E; [|done].
  assert (Forall expiry_ok all) as Hall.
  { unfold load_invitations in E. destruct (read_to_string d p true) as [[t|]|]; [|done|by injection E as <-].
    by eapply loaded_expiries. }
  set (kept := retain _ all). destruct (Nat.eqb_spec (length kept) (length all)) as [Hlen|Hlen].
  - assert (existsb (fun i => bool_decide (secret i = s)) all = false) as ->; [|done].
    apply not_true_iff_false. intros (i & Hi%list_elem_of_In & Hs)%existsb_exists.
    assert (i ∈ kept) as Hk.
    { assert (kept = all) as ->; [|done]. apply retain_full; fold kept; lia. }
    apply elem_of_retain in Hk as [Hk _]. by rewrite Hs in Hk.
  - assert (existsb (fun i => bool_decide (secret i = s)) all = true) as ->.
    { apply not_false_iff_true. intros Hf. apply Hlen. subst kept. rewrite retain_all; [done|].
      intros i Hi. apply negb_true_iff, not_true_iff_false. intros Hs. apply not_true_iff_false in Hf.
      apply Hf, existsb_exists. exists i. by split; [apply list_elem_of_In|]. }
    destruct fate; simpl; (split; [intros Hf; try done|intros Hf; try done]).
    split; [done|]. intros later. apply saved_reads. subst kept. apply Forall_forall.
    intros i [_ Hi]%elem_of_retain. by eapply Forall_forall in Hall.
Qed.
End InvitationLemmas.

(** ** Backups *)

Section BackupLemmas.
Context `{AL : AeadLaws, KD : Argon2}.

Lemma saved_conversation_loads d p st pass salt nonce d' :
  save_conversation d p st pass salt nonce Written = (Ok tt, d') ->
  load_conversation d' p pass true = Ok (Some st) /\ (forall q, q <> p -> d' !! q = d !! q) /\
  (let '(r, gone) := forget_conversation d' p true in
   r = Ok tt /\ load_conversation gone p pass true = Ok None /\ forget_conversation gone p true = (Ok tt, gone)).
Proof.
  unfold save_conversation. destruct (AtRest.Sealed.seal_bytes _ _ _ _) as [f|] eqn:E; [|done].
  simpl. intros [= <-]. apply AtRest.seal_bytes_opens in E as (Ho & _ & _).
  unfold load_conversation, forget_conversation. rewrite lookup_insert_eq, Ho. split; [done|].
  split; [intros q Hq; by rewrite lookup_insert_ne|]. by rewrite lookup_delete_eq.
Qed.

(** A conversation put away comes back.  What was saved loads to the same bytes
    under the same passphrase until it is forgotten, and then to nothing; neither
    touches another file, and forgetting twice is no error. *)
Theorem conversation_roundtrip d p st pass salt nonce d' :
  save_conversation d p st pass salt nonce Written = (Ok tt, d') ->
  load_conversation d' p pass true = Ok (Some st) /\
  (forall q, q <> p -> d' !! q = d !! q /\ (forget_conversation d' p true).2 !! q = d !! q) /\
  (let '(r, gone) := forget_conversation d' p true in
   r = Ok tt /\ load_conversation gone p pass true = Ok None /\ forget_conversation gone p true = (Ok tt, gone)).
Proof.
  intros Hs. destruct (saved_conversation_loads _ _ _ _ _ _ _ Hs) as (Hl & Ho & Hg). split; [done|]. split; [|done].
  intros q Hq. split; [by apply Ho|]. unfold forget_conversation. destruct (d' !! p); [|by apply Ho].
  cbn [snd]. rewrite lookup_delete_ne by done. by apply Ho.
Qed.

Definition backup_ok (b : Backup) : Prop := u64 (sequence b) /\ u64 (epoch b) /\ u64 (created_at_epoch b).

Lemma be_value_u64 z : u64 z -> be_value (be_bytes 8 z) = z.
Proof. intros Hz. apply be_value_bytes_small. by apply u64_pow. Qed.

(** The fields of a payload, where the reader looks for them. *)
Lemma payload_fields b :
  let l := backup_payload b in
  zlen l = Z.of_nat HEADER_LEN + zlen (st_bytes b) /\ take 8 l = BACKUP_MAGIC /\ l !! 8%nat = Some BACKUP_VERSION /\
  slice l 9 17 = be_bytes 8 (sequence b) /\ slice l 17 25 = be_bytes 8 (epoch b) /\
  slice l 25 33 = be_bytes 8 (created_at_epoch b) /\ slice l 33 37 = be_bytes 4 (zlen (st_bytes b)) /\
  drop HEADER_LEN l = st_bytes b.
Proof.
  destruct b as [a b c st]. unfold backup_payload. cbn [sequence epoch created_at_epoch st_bytes].
  pose proof (length_be_bytes 8 a) as Ha. pose proof (length_be_bytes 8 b) as Hb.
  pose proof (length_be_bytes 8 c) as Hc. pose proof (length_be_bytes 4 (zlen st)) as Hd.
  generalize dependent (be_bytes 8 a). generalize dependent (be_bytes 8 b). generalize dependent (be_bytes 8 c).
  generalize dependent (be_bytes 4 (zlen st)). clear a b c. intros d Hd c Hc b Hb a Ha. cbv zeta.
  split; [rewrite !zlen_app; unfold zlen; rewrite Ha, Hb, Hc, Hd; unfold HEADER_LEN; simpl length; lia|].
  do 8 (destruct a as [|? a]; [discriminate Ha|]). destruct a; [|discriminate Ha].
  do 8 (destruct b as [|? b]; [discriminate Hb|]). destruct b; [|discriminate Hb].
  do 8 (destruct c as [|? c]; [discriminate Hc|]). destruct c; [|discriminate Hc].
  do 4 (destruct d as [|? d]; [discriminate Hd|]). destruct d; [|discriminate Hd].
  repeat split.
Qed.

(** A backup restores what it was made of, up to four gigabytes.  A sealed backup
    opens under its passphrase to the same sequence, epoch and date and to the same
    state; the length of the state is written in thirty-two bits, so of a state of
    four gigabytes or more only the remainder comes back, and no error says so. *)
Theorem backup_opens b pass salt nonce f :
  seal b pass salt nonce = Ok f -> backup_ok b ->
  open f pass = Ok (mkBackup (sequence b) (epoch b) (created_at_epoch b)
    (take (Z.to_nat (zlen (st_bytes b) mod 2 ^ 32)) (st_bytes b))) /\
  (zlen (st_bytes b) < 2 ^ 32 -> open f pass = Ok b).
Proof.
  unfold seal. intros Hs (H1 & H2 & H3).
  destruct (AtRest.Sealed.seal_bytes _ _ _ _) as [g|] eqn:E; [|done]. injection Hs as ->.
  apply AtRest.seal_bytes_opens in E as (Ho & _ & _).
  destruct (payload_fields b) as (Hl & Hm & Hv & Fa & Fb & Fc & Fd & Hr).
  assert (open f pass = Ok (mkBackup (sequence b) (epoch b) (created_at_epoch b)
    (take (Z.to_nat (zlen (st_bytes b) mod 2 ^ 32)) (st_bytes b)))) as Hopen.
  { unfold open. rewrite Ho. cbn [map_err rbind]. unfold read_payload.
    pose proof (zlen_nonneg (st_bytes b)). pose proof (Z.mod_le (zlen (st_bytes b)) (2 ^ 32)).
    pose proof (Z.mod_pos_bound (zlen (st_bytes b)) (2 ^ 32)).
    rewrite Hl, (proj2 (Z.ltb_ge _ _)) by lia. rewrite Hm, bool_decide_eq_true_2 by done. cbn [negb].
    rewrite Hv. cbn [default]. rewrite bool_decide_eq_true_2 by done. cbn [negb].
    cbn [Nat.add]. rewrite Fa, Fb, Fc, Fd, !be_value_u64, be_value_bytes by done.
    change (256 ^ Z.of_nat 4) with (2 ^ 32). rewrite (proj2 (Z.ltb_ge _ _)) by lia.
    do 2 f_equal. unfold slice. rewrite Hr. f_equal. lia. }
  split; [done|]. intros Hsmall. rewrite Hopen, Z.mod_small by (split; [apply zlen_nonneg|done]).
  destruct b as [a e c st]. cbn [sequence epoch created_at_epoch st_bytes] in *. do 2 f_equal. apply take_ge. unfold zlen. lia.
Qed.

(** *** The mark *)

Lemma mark_written d p e : u64 e -> high_water (<[p := print_u64 e ++ [NEWLINE]]> d) p true = Ok e.
Proof.
  intros He. unfold high_water, read_to_string. rewrite lookup_insert_eq. cbn [mbind option_bind].
  assert (0 <= e) as He0 by (unfold u64 in He; lia). pose proof (print_plain e He0) as Hp.
  assert (is_ok (ok_or tt (from_utf8 (print_u64 e ++ [NEWLINE]))) = true) as ->.
  { unfold from_utf8. destruct (decide _) as [|Hn]; [done|]. destruct Hn. apply ascii_utf8, Forall_app.
    split; [|by repeat constructor]. apply Forall_forall. intros b Hb. apply print_digits in Hb; lia. }
  cbn [andb map_err rbind]. assert (trim (print_u64 e ++ [NEWLINE]) = print_u64 e) as ->.
  { unfold trim. destruct Hp as [Hne Hp]. destruct (print_u64 e) as [|b l] eqn:E; [done|].
    pose proof Hp as [Hb _]%Forall_cons. cbn [app]. rewrite strip_plain by done.
    change (b :: l ++ [NEWLINE]) with ((b :: l) ++ [NEWLINE]). rewrite reverse_snoc. rewrite length_app, Nat.add_1_r.
    cbn [strip]. change (space_last (NEWLINE :: reverse (b :: l))) with (Some (reverse (b :: l))). cbn iota.
    destruct (b :: l) as [|c m _] eqn:E2 using rev_ind; [done|]. rewrite reverse_snoc, strip_last_plain.
    - by rewrite <- reverse_snoc, reverse_involutive.
    - rewrite Forall_app in Hp. by destruct Hp as [_ [? _]%Forall_cons]. }
  by rewrite parse_printed by (unfold u64, u64_max in *; lia).
Qed.

(** What a history of recordings, refused or not but none of them torn, should leave. *)
Definition furthest (es : list (Z * Fate)) : Z :=
  foldl (fun m e => match e.2 with Refused => m | _ => Z.max m e.1 end) 0 es.

Definition recorded (d : Disk) (p : Path) (es : list (Z * Fate)) : Disk :=
  foldl (fun d e => (record_epoch d p e.1 true e.2).2) d es.

Lemma record_mark d p m e f :
  high_water d p true = Ok m -> u64 e -> (forall n, f <> Torn n) ->
  high_water (record_epoch d p e true f).2 p true = Ok (match f with Refused => m | _ => Z.max m e end).
Proof.
  intros Hm He Hf. unfold record_epoch. rewrite Hm. destruct (Z.leb_spec e m) as [Hle|Hlt].
  - simpl. rewrite Hm. f_equal. destruct f; lia.
  - destruct f as [| |n|]; simpl; [|done|by destruct (Hf n)|]; rewrite mark_written by done; f_equal; lia.
Qed.

Lemma recorded_mark es : forall d p m,
  high_water d p true = Ok m -> Forall (fun e => u64 e.1 /\ forall n, e.2 <> Torn n) es ->
  high_water (recorded d p es) p true =
    Ok (foldl (fun m e => match e.2 with Refused => m | _ => Z.max m e.1 end) m es).
Proof.
  induction es as [|[e f] es IH]; intros d p m Hm Hes; [done|].
  apply Forall_cons in Hes as [[He Hf] Hes]. by apply IH, Hes; apply record_mark.
Qed.

(** The mark only rises.  From a device with no mark, after any history of epochs
    reached, in any order and with any of the writes refused, the mark is the
    furthest that was written, and a backup is refused exactly when it is older. *)
Theorem mark_only_rises d p es b :
  d !! p = None -> Forall (fun e => u64 e.1 /\ forall n, e.2 <> Torn n) es ->
  high_water (recorded d p es) p true = Ok (furthest es) /\
  refuse_rollback (recorded d p es) p b true =
    (if epoch b <? furthest es then Err (Rollback (epoch b) (furthest es)) else Ok tt).
Proof.
  intros Hd Hes. assert (high_water d p true = Ok 0) as H0 by (unfold high_water, read_to_string; by rewrite Hd).
  unfold refuse_rollback, furthest. by rewrite (recorded_mark es d p 0 H0 Hes).
Qed.

(** A torn mark lets a rollback through.  The mark is written over itself; when
    the write of a further epoch tears at its start, the mark that was there is gone,
    and a backup of any epoch, older than the one the device had reached too, is let
    through. *)
Theorem torn_mark_forgets d p seen e b :
  high_water d p true = Ok seen -> seen < e -> 0 <= epoch b ->
  refuse_rollback (record_epoch d p e true (Torn 0)).2 p b true = Ok tt.
Proof.
  intros Hs He Hb. unfold record_epoch. rewrite Hs, (proj2 (Z.leb_gt _ _)) by done. cbn [write_restricted snd take].
  assert (high_water (<[p := []]> d) p true = Ok 0) as Hz.
  { unfold high_water, read_to_string. by rewrite lookup_insert_eq. }
  unfold refuse_rollback. replace (<[p := _]> d) with (<[p := []]> d : Disk) by done. rewrite Hz. cbn [rbind]. by rewrite (proj2 (Z.ltb_ge _ _)).
Qed.
End BackupLemmas.

(** ** Witnesses *)

Import (hints) Toy AtRest.AtRestExample.

Module DeviceStoreExample.

(** Two letters for a byte. *)
Fixpoint letters (l : bytes) : option bytes :=
  match l with
  | [] => Some []
  | h :: lo :: l => rest ← letters l; Some (z2b (b2z h mod 16 * 16 + b2z lo mod 16) :: rest)
  | _ => None
  end.
#[export] Instance base64url : Base64Url := {|
  url_encode l := l ≫= (fun b => [z2b (64 + b2z b / 16); z2b (64 + b2z b mod 16)]);
  url_decode := letters |}.

Lemma letter_spec b : letters [z2b (64 + b2z b / 16); z2b (64 + b2z b mod 16)] = Some [b].
Proof. by destruct b; vm_compute. Qed.

Lemma letter_plain b : Forall (fun c => plain c = true) [z2b (64 + b2z b / 16); z2b (64 + b2z b mod 16)].
Proof. apply (bool_decide_unpack _). by destruct b; vm_compute. Qed.

#[export] Instance base64url_laws : Base64UrlLaws base64url.
Proof.
  split.
  - induction l as [|b l IH]; [done|]. pose proof (letter_spec b) as H. cbn [url_encode url_decode base64url] in *.
    rewrite bind_cons. cbn [app letters mbind option_bind] in *. by rewrite IH; injection H as ->.
  - intros l Hl. split; [by destruct l|]. cbn [url_encode base64url]. apply Forall_bind, Forall_true.
    apply letter_plain.
Qed.

Definition path : Path := [x2f; x61].
Definition first_inv : StoredInvitation := mkStored (be_arr 32 7) (be_arr 32 8) 500.
Definition expired : StoredInvitation := mkStored (be_arr 32 9) (be_arr 32 10) 3.
Definition kept : Backup := mkBackup 7 41 480000 [x01; x02; x03].
Definition salt : arr 16 := be_arr 16 11.
Definition nonce : arr 24 := be_arr 24 12.
Definition file : bytes :=
  match seal kept AtRest.AtRestExample.pass salt nonce with Ok f => f | Err _ => [] end.
Definition invited : Disk := (save_invitations ∅ path [first_inv] Written).2.
Definition marked : Disk := <[path := print_u64 45 ++ [NEWLINE]]> ∅.

End DeviceStoreExample.

Export (hints) DeviceStoreExample.

Lemma invitations_roundtrip_witness :
  load_invitations (save_invitations ∅ DeviceStoreExample.path
    [DeviceStoreExample.first_inv; DeviceStoreExample.expired] Written).2 DeviceStoreExample.path 100 true =
  Ok [DeviceStoreExample.first_inv].
Proof.
  refine (invitations_roundtrip ∅ DeviceStoreExample.path
    [DeviceStoreExample.first_inv; DeviceStoreExample.expired] 100 _).
  repeat (apply Forall_cons; split); try apply Forall_nil; vm_compute; split; congruence.
Defined.

Lemma revoked_is_gone_witness :
  let '(r, d') := revoke_invitation DeviceStoreExample.invited DeviceStoreExample.path (be_arr 32 7) 100 true Written in
  r = Ok true /\ load_invitations d' DeviceStoreExample.path 100 true = Ok [].
Proof.
  pose proof (revoked_is_gone DeviceStoreExample.invited DeviceStoreExample.path (be_arr 32 7) 100 Written) as H.
  assert (load_invitations DeviceStoreExample.invited DeviceStoreExample.path 100 true =
    Ok [DeviceStoreExample.first_inv]) as E.
  { refine (saved_reads ∅ DeviceStoreExample.path [DeviceStoreExample.first_inv] 100 _).
    rewrite Forall_singleton. unfold expiry_ok, u64, u64_max. cbn [expires_at_epoch DeviceStoreExample.first_inv]. lia. }
  destruct (revoke_invitation _ _ _ _ _ _) as [r d']. rewrite E in H.
  cbn [existsb] in H. rewrite bool_decide_eq_true_2 in H by reflexivity. cbn [orb] in H.
  destruct (proj1 H eq_refl) as [Hr Hl]. split; [exact Hr|]. rewrite (Hl 100). vm_compute. reflexivity.
Defined.

Lemma conversation_roundtrip_witness :
  let d := (save_conversation ∅ DeviceStoreExample.path [x01; x02] AtRest.AtRestExample.pass
    DeviceStoreExample.salt DeviceStoreExample.nonce Written).2 in
  load_conversation d DeviceStoreExample.path AtRest.AtRestExample.pass true = Ok (Some [x01; x02]).
Proof.
  refine (proj1 (conversation_roundtrip ∅ DeviceStoreExample.path [x01; x02] AtRest.AtRestExample.pass
    DeviceStoreExample.salt DeviceStoreExample.nonce _ _)).
  vm_compute. reflexivity.
Defined.

Lemma backup_opens_witness :
  open DeviceStoreExample.file AtRest.AtRestExample.pass = Ok DeviceStoreExample.kept.
Proof.
  refine (proj2 (backup_opens DeviceStoreExample.kept AtRest.AtRestExample.pass DeviceStoreExample.salt
    DeviceStoreExample.nonce DeviceStoreExample.file _ _) _).
  - vm_compute. reflexivity.
  - split; [|split]; vm_compute; split; congruence.
  - vm_compute. reflexivity.
Defined.

Lemma mark_only_rises_witness :
  refuse_rollback (recorded ∅ DeviceStoreExample.path [(41, Written); (45, Written); (50, Refused); (43, Written)])
    DeviceStoreExample.path DeviceStoreExample.kept true = Err (Rollback 41 45).
Proof.
  refine (proj2 (mark_only_rises ∅ DeviceStoreExample.path
    [(41, Written); (45, Written); (50, Refused); (43, Written)] DeviceStoreExample.kept _ _)).
  - reflexivity.
  - rewrite !Forall_cons, Forall_nil. repeat split; cbn; (lia || done || (unfold u64, u64_max; lia)).
Defined.

Lemma torn_mark_forgets_witness :
  refuse_rollback (record_epoch DeviceStoreExample.marked DeviceStoreExample.path 50 true (Torn 0)).2
    DeviceStoreExample.path DeviceStoreExample.kept true = Ok tt.
Proof.
  refine (torn_mark_forgets DeviceStoreExample.marked DeviceStoreExample.path 45 50 DeviceStoreExample.kept _ _ _).
  - vm_compute. reflexivity.
  - lia.
  - vm_compute. congruence.
Defined.
