(* ===== verification/Status.v ===== *)
(** * Availability, recorded and drawn

    [crates/rotelyx-status/src/lib.rs]: the file of half-hour buckets a service keeps
    of itself, the heartbeat that writes it, and the strip that is drawn from it.  The
    clock, whether the file could be read, and what became of writing the temporary
    file and of renaming it are arguments.  [sort_unstable_by_key] is any sort; the
    binary search is the standard library's. *)

From S2P Require Import Prelude Capability Text.
From S2P Require DeviceStore Hex.
Import DeviceStore (Fate(..), write_restricted, read_to_string).

Abbreviation Path := bytes.
Abbreviation Disk := (gmap Path bytes).

Definition str (s : string) : bytes := String.list_byte_of_string s.

Definition BUCKETS : nat := 96.
Definition BUCKET_MINUTES : Z := 30.

(** ** Levels *)

Inductive Level := Operational | Busy | Strained.
#[export] Instance Level_eq_dec : EqDecision Level.
Proof. solve_decision. Defined.

(** The derived order. *)
Definition level_code (l : Level) : Z := match l with Operational => 0 | Busy => 1 | Strained => 2 end.
Definition level_le (a b : Level) : bool := level_code a <=? level_code b.
Definition level_max (a b : Level) : Level := if level_le b a then a else b.

Definition level_class (l : Level) : bytes :=
  match l with Operational => str "up" | Busy => str "busy" | Strained => str "strained" end.
Definition level_text (l : Level) : bytes :=
  match l with Operational => str "Operational" | Busy => str "Busy" | Strained => str "Under strain" end.
Definition from_code (code : Z) : Level :=
  if code =? 2 then Strained else if code =? 1 then Busy else Operational.

(** ** The record on disk *)

Abbreviation Record_ := (list (Z * Level)).

(** The instant it started, the file it records to, and the word last reported. *)
Record Status := mkStatus { started : option Z; file : option Path; level_now : Z }.

Definition status_new : Status := mkStatus None None 0.
Definition report (s : Status) (l : Level) : Status := mkStatus (started s) (file s) (level_code l).
Definition level (s : Status) : Level := from_code (level_now s).

(** A [OnceLock] keeps the first. *)
Definition started_now (s : Status) (now : Z) : Status :=
  mkStatus (Some (default now (started s))) (file s) (level_now s).
Definition record_at (s : Status) (p : Path) : Status :=
  mkStatus (started s) (Some (default p (file s))) (level_now s).

(** The clock is none before 1970. *)
Definition current_bucket (clock : option Z) : Z := from_option (fun s => s / (BUCKET_MINUTES * 60)) 0 clock.

Definition read_line (l : bytes) : option (Z * Level) :=
  match split_whitespace l with
  | [] => None
  | b :: rest =>
      bucket ← parse_u64 b;
      Some (bucket, default Operational (from_code <$> (c ← head rest; parse_u64 c)))
  end.

Definition recorded_in (d : Disk) (p : Path) (readable : bool) : Record_ :=
  match read_to_string d p readable with
  | Some (Ok t) => omap read_line (lines t)
  | _ => []
  end.

Definition recorded (s : Status) (d : Disk) (readable : bool) : Record_ :=
  match file s with Some p => recorded_in d p readable | None => [] end.

Definition recorded_count (s : Status) (d : Disk) (readable : bool) : nat := length (recorded s d readable).

(** ** The heartbeat *)

Class UnstableSort := sort_by_bucket : Record_ -> Record_.
Class UnstableSortLaws `(UnstableSort) : Prop := {
  sort_permutes r : sort_by_bucket r ≡ₚ r;
  sort_sorts r : StronglySorted (fun a b => a.1 <= b.1) (sort_by_bucket r);
}.

(** [dedup_by_key]: the first of those in a row. *)
Fixpoint dedup_buckets (r : Record_) : Record_ :=
  match r with
  | [] => []
  | x :: r' =>
      match dedup_buckets r' with
      | y :: r'' => if x.1 =? y.1 then x :: r'' else x :: y :: r''
      | [] => [x]
      end
  end.

Definition line_of (x : Z * Level) : bytes :=
  match x.2 with
  | Operational => print_u64 x.1
  | l => print_u64 x.1 ++ [SPACE] ++ print_u64 (level_code l)
  end.

(** What is on record with this bucket in it; none when nothing changes. *)
Definition noted (seen : Record_) (now : Z) (l : Level) : option Record_ :=
  match last seen with
  | Some (bucket, worst) =>
      if bucket =? now then
        if level_le l worst then None else Some (take (length seen - 1) seen ++ [(bucket, l)])
      else Some (seen ++ [(now, l)])
  | None => Some [(now, l)]
  end.

(** [std::fs::rename]. *)
Definition rename (d : Disk) (from to : Path) (done : bool) : Disk :=
  match d !! from with
  | Some c => if done then <[to := c]> (delete from d) else d
  | None => d
  end.

Section Beating.
Context `{US : UnstableSort}.

Definition file_text (seen : Record_) : bytes :=
  let seen := dedup_buckets (sort_by_bucket seen) in
  join_lines (line_of <$> drop (length seen - BUCKETS * 2) seen).

Definition heartbeat (s : Status) (d : Disk) (clock : option Z) (readable : bool) (fate : Fate) (renamed : bool) : Disk :=
  match file s with
  | None => d
  | Some p =>
      match noted (recorded s d readable) (current_bucket clock) (level s) with
      | None => d
      | Some seen =>
          let temp := set_extension p (str "tmp") in
          let '(r, d) := write_restricted d temp (file_text seen) fate in
          if is_ok r then rename d temp p renamed else d
      end
  end.
End Beating.

(** ** The strip *)

(** [binary_search_by]: [base] is where a match would be among the [size] from it. *)
Fixpoint search_from (fuel : nat) (r : Record_) (bucket : Z) (base size : nat) : nat :=
  match fuel with
  | O => base
  | S fuel =>
      if (1 <? size)%nat then
        let half := (size / 2)%nat in
        let mid := (base + half)%nat in
        let greater := from_option (fun x => bucket <? x.1) false (r !! mid) in
        search_from fuel r bucket (if greater then base else mid) (size - half)
      else base
  end.

Definition binary_search (r : Record_) (bucket : Z) : option nat :=
  match r with
  | [] => None
  | _ =>
      let base := search_from (length r) r bucket 0 (length r) in
      x ← r !! base;
      if x.1 =? bucket then Some base else None
  end.

(** The class of a bar and the word on it. *)
Definition bar (r : Record_) (known_from : Z) (reported : Level) (now bucket : Z) : bytes * bytes :=
  let found := binary_search r bucket in
  let level_at i := from_option snd Operational (r !! i) in
  if bucket =? now then
    let worst := level_max (from_option level_at Operational found) reported in
    (str "part " ++ level_class worst, level_text worst)
  else
    match found with
    | Some i => (level_class (level_at i), level_text (level_at i))
    | None =>
        if known_from <=? bucket then (str "down", str "Not serving") else (str "unknown", str "No record")
    end.

(** [{:02}]. *)
Definition two_digits (z : Z) : bytes := (if z <? 10 then [z2b 48] else []) ++ print_u64 z.

Definition QUOTE : bytes := [z2b 34].

Definition bar_html (bucket : Z) (b : bytes * bytes) : bytes :=
  let start := bucket * BUCKET_MINUTES * 60 in
  let end_ := start + BUCKET_MINUTES * 60 in
  let clock t := two_digits (t / 3600 mod 24) ++ str ":" ++ two_digits (t / 60 mod 60) in
  str "<i class=" ++ QUOTE ++ b.1 ++ QUOTE ++ str " title=" ++ QUOTE ++ clock start ++ str " to " ++ clock end_
    ++ str " UTC: " ++ b.2 ++ QUOTE ++ str "></i>".

Definition slots (now : Z) : list Z := (fun slot => sat_sub now (Z.of_nat (BUCKETS - 1 - slot))) <$> seq 0 BUCKETS.

Definition known_from (r : Record_) (now : Z) : Z := from_option fst now (head r).

Definition bars (s : Status) (d : Disk) (clock : option Z) (readable : bool) : list (Z * (bytes * bytes)) :=
  let now := current_bucket clock in
  let r := recorded s d readable in
  (fun b => (b, bar r (known_from r now) (level s) now b)) <$> slots now.

Definition strip (s : Status) (d : Disk) (clock : option Z) (readable : bool) : bytes :=
  str "<div class=" ++ QUOTE ++ str "bars" ++ QUOTE ++ str ">"
    ++ (bars s d clock readable ≫= (fun x => bar_html x.1 x.2)) ++ str "</div>".

(** ** Uptime *)

(** Seconds since the start, of a clock that only rises. *)
Definition uptime (s : Status) (now : Z) : Z := from_option (fun t => sat_sub now t) 0 (started s).

Definition uptime_text (s : Status) (now : Z) : bytes :=
  let t := uptime s now in
  let d := t / 86400 in
  let h := t mod 86400 / 3600 in
  let m := t mod 3600 / 60 in
  if 0 <? d then print_u64 d ++ str "d " ++ print_u64 h ++ str "h"
  else if 0 <? h then print_u64 h ++ str "h " ++ print_u64 m ++ str "m"
  else print_u64 m ++ str "m".

Definition headline (s : Status) (now : Z) : bytes :=
  str "<div class=" ++ QUOTE ++ str "status " ++ level_class (level s) ++ QUOTE ++ str "><span class=" ++ QUOTE
    ++ str "dot" ++ QUOTE ++ str "></span><b>" ++ level_text (level s) ++ str "</b><span>up "
    ++ uptime_text s now ++ str "</span></div>".

(** ** What is written reads back *)

Section Facts.
Context `{US : UnstableSort} `{UL : !UnstableSortLaws US}.

Definition rising (r : Record_) : Prop := StronglySorted (fun a b => a.1 < b.1) r.
Definition in_u64 (r : Record_) : Prop := Forall (fun x => u64 x.1) r.
Definition up_to (now : Z) (r : Record_) : Prop := Forall (fun x => x.1 <= now) r.

Definition words_of (x : Z * Level) : list bytes :=
  print_u64 x.1 :: match x.2 with Operational => [] | l => [print_u64 (level_code l)] end.

Lemma line_is_spaced x : line_of x = spaced (words_of x).
Proof. destruct x as [b []]; cbn; by rewrite ?app_nil_r. Qed.

Lemma words_plain x : u64 x.1 -> Forall plain_word (words_of x).
Proof.
  intros Hb. constructor; [apply print_plain; by destruct Hb|]. destruct x.2; repeat constructor; by apply print_plain.
Qed.

Lemma read_line_written x : u64 x.1 -> read_line (line_of x) = Some x.
Proof.
  intros H. unfold read_line. rewrite line_is_spaced, split_spaced by by apply words_plain.
  cbn [words_of]. rewrite parse_printed by (unfold u64, u64_max in *; lia). cbn.
  by destruct x as [b []].
Qed.

Lemma lines_read r : in_u64 r -> omap read_line (lines (join_lines (line_of <$> r))) = r.
Proof.
  intros H. rewrite lines_joined.
  - induction H as [|x r Hx _ IH]; [done|]. rewrite fmap_cons. cbn [omap list_omap].
    by rewrite read_line_written, IH.
  - apply Forall_fmap. eapply Forall_impl; [exact H|]. intros x Hx. cbn. rewrite line_is_spaced. split.
    + apply spaced_line; [by apply words_plain|done].
    + cbn [words_of spaced]. pose proof (print_not_nil x.1). by destruct (print_u64 x.1).
Qed.

Lemma joined_bytes ls b : b ∈ join_lines ls -> b = NEWLINE \/ exists l, l ∈ ls /\ b ∈ l.
Proof.
  destruct ls as [|l ls]; cbn [join_lines]; [set_solver|].
  intros [Hb|(l' & Hb & Hl)%list_elem_of_bind]%elem_of_app; [right; exists l; set_solver|].
  apply elem_of_cons in Hb as [->|Hb]; [by left|right; exists l'; set_solver].
Qed.

Lemma text_valid r : in_u64 r -> exists H, from_utf8 (join_lines (line_of <$> r)) = Some (RString (join_lines (line_of <$> r)) H).
Proof.
  intros Hr. unfold from_utf8. destruct (decide _) as [H|Hn]; [by exists H|]. destruct Hn.
  apply Hex.ascii_utf8, Forall_forall. intros b [->|(l & (x & -> & Hx)%list_elem_of_fmap & Hb)]%joined_bytes; [done|].
  eapply Forall_forall in Hr; [|exact Hx]. rewrite line_is_spaced in Hb.
  apply spaced_bytes in Hb as [Hb| ->]; [|done|by apply words_plain].
  apply DeviceStore.plain_ascii. exact Hb.
Qed.

Lemma recorded_written d p r : in_u64 r -> recorded_in (<[p := join_lines (line_of <$> r)]> d) p true = r.
Proof.
  intros Hr. unfold recorded_in, read_to_string. rewrite lookup_insert_eq. cbn [mbind option_bind].
  destruct (text_valid r Hr) as [H ->]. cbn. by apply lines_read.
Qed.

(** *** The sort and the search find what is there *)

Lemma rising_unique r a b : rising r -> a ∈ r -> b ∈ r -> a.1 = b.1 -> a = b.
Proof.
  induction 1 as [|x r Hr IH Hx]; [set_solver|]. rewrite Forall_forall in Hx.
  intros [->|Ha]%elem_of_cons [->|Hb]%elem_of_cons E; auto; [specialize (Hx b Hb)|specialize (Hx a Ha)]; lia.
Qed.

Lemma sort_rising r : rising r -> sort_by_bucket r = r.
Proof.
  intros Hr. apply (StronglySorted_unique_strong (fun a b : Z * Level => a.1 <= b.1)); [|apply UL| |apply UL].
  - intros a b Ha Hb H1 H2. apply (rising_unique r); [done| |done|lia]. by rewrite <- (sort_permutes r).
  - clear -Hr. induction Hr as [|x r _ IH Hx]; constructor; [done|]. eapply Forall_impl; [exact Hx|]. cbn. lia.
Qed.

Lemma dedup_rising r : rising r -> dedup_buckets r = r.
Proof.
  induction 1 as [|x r Hr IH Hx]; [done|]. cbn [dedup_buckets]. rewrite IH.
  destruct r as [|y r]; [done|]. apply Forall_cons in Hx as [Hy _]. cbn in Hy.
  by rewrite (proj2 (Z.eqb_neq _ _)) by lia.
Qed.

Lemma rising_lookup r i j x y : rising r -> r !! i = Some x -> r !! j = Some y -> (i < j)%nat -> x.1 < y.1.
Proof.
  intros Hr. revert i j. induction Hr as [|z r Hr IH Hz]; [done|]. intros i j Hx Hy Hij.
  destruct j as [|j]; [lia|]. cbn in Hy. destruct i as [|i]; cbn in Hx.
  - injection Hx as ->. eapply Forall_forall in Hz; [exact Hz|]. by eapply list_elem_of_lookup_2.
  - eapply IH; eauto; lia.
Qed.

(** A match is never outside what is still searched. *)
Lemma search_finds fuel r bucket base size i x :
  rising r -> r !! i = Some x -> x.1 = bucket -> (base <= i < base + size)%nat -> (base + size <= length r)%nat ->
  (size <= fuel)%nat -> search_from fuel r bucket base size = i.
Proof.
  intros Hr Hi Hx. revert base size. induction fuel as [|fuel IH]; intros base size Hb Hl Hf; [lia|]. cbn [search_from].
  destruct (Nat.ltb_spec 1 size); [|lia].
  pose proof (Nat.div_mod_eq size 2). pose proof (Nat.mod_upper_bound size 2 ltac:(lia)).
  set (mid := (base + size / 2)%nat). destruct (lookup_lt_is_Some_2 r mid ltac:(lia)) as [y Hy]. rewrite Hy. cbn [from_option].
  destruct (Z.ltb_spec bucket y.1).
  - apply IH; [|lia|lia]. destruct (decide (i < mid)%nat); [lia|].
    destruct (decide (i = mid)) as [->|]; [rewrite Hi in Hy; injection Hy as ->; lia|].
    pose proof (rising_lookup r mid i y x Hr Hy Hi). lia.
  - apply IH; [|lia|lia]. destruct (decide (mid <= i)%nat); [lia|].
    pose proof (rising_lookup r i mid x y Hr Hi Hy). lia.
Qed.

Lemma binary_search_spec r bucket :
  rising r ->
  match binary_search r bucket with
  | Some i => exists l, r !! i = Some (bucket, l)
  | None => forall l, (bucket, l) ∉ r
  end.
Proof.
  intros Hr. unfold binary_search. destruct r as [|z r]; [set_solver|].
  set (base := search_from _ _ _ _ _). destruct ((z :: r) !! base) as [[b l]|] eqn:E; cbn.
  - destruct (Z.eqb_spec b bucket) as [->|Hb]; [by exists l|].
    intros l' (i & Hi)%list_elem_of_lookup_1. pose proof (lookup_lt_Some _ _ _ Hi).
    assert (base = i) as -> by (apply (search_finds _ (z :: r) bucket 0 _ i (bucket, l')); auto; lia).
    rewrite Hi in E. by injection E as <-.
  - intros l' (i & Hi)%list_elem_of_lookup_1. pose proof (lookup_lt_Some _ _ _ Hi).
    assert (base = i) as Hbi by (apply (search_finds _ (z :: r) bucket 0 _ i (bucket, l')); auto; lia).
    rewrite Hbi in E. by rewrite Hi in E.
Qed.

(** *** What a record is of *)

(** The worst word said in a bucket, of what was said and when. *)
Definition said_in (b : Z) (acc : option Level) (x : Z * Level) : option Level :=
  if x.1 =? b then Some (from_option (fun w => level_max w x.2) x.2 acc) else acc.
Definition worst (bs : list (Z * Level)) (b : Z) : option Level := foldl (said_in b) None bs.

Lemma worst_snoc bs x b : worst (bs ++ [x]) b = said_in b (worst bs b) x.
Proof. unfold worst. by rewrite foldl_app. Qed.

Lemma worst_Some bs b l : worst bs b = Some l -> exists x, x ∈ bs /\ x.1 = b.
Proof.
  revert l. induction bs as [|x bs IH] using rev_ind; [done|]. intros l. rewrite worst_snoc. unfold said_in.
  destruct (Z.eqb_spec x.1 b); [intros _; exists x; set_solver|]. intros H%IH. set_solver.
Qed.

(** The last [BUCKETS * 2]. *)
Definition few (r : Record_) : Record_ := drop (length r - BUCKETS * 2) r.

(** [r] is what there is to remember of [bs]: the worst word of each bucket, of all of
    them or of the last. *)
Definition record_of (bs : list (Z * Level)) (r : Record_) : Prop :=
  rising r /\ (length r <= BUCKETS * 2)%nat /\
  (forall b l, (b, l) ∈ r -> worst bs b = Some l) /\
  (forall b l, worst bs b = Some l -> (b, l) ∈ r \/ (length r = (BUCKETS * 2)%nat /\ Forall (fun x => b < x.1) r)).

Definition beat (r : Record_) (now : Z) (l : Level) : Record_ :=
  match noted r now l with None => r | Some r' => few r' end.

Lemma rising_snoc r x : rising r -> Forall (fun y => y.1 < x.1) r -> rising (r ++ [x]).
Proof.
  intros Hr Hx. apply StronglySorted_app. split_and!; [|done|repeat constructor].
  intros a b Ha ->%list_elem_of_singleton. by eapply Forall_forall in Hx.
Qed.

(** The entry of this bucket, if there is one, is the last. *)
Lemma noted_cases r now l :
  rising r -> up_to now r ->
  exists r0 w, Forall (fun x => x.1 < now) r0 /\ rising r0 /\
    r = r0 ++ from_option (fun w => [(now, w)]) [] w /\
    noted r now l =
      match w with
      | Some w => if level_le l w then None else Some (r0 ++ [(now, l)])
      | None => Some (r0 ++ [(now, l)])
      end.
Proof.
  intros Hr Hu. destruct r as [|[b w] r0 _] using rev_ind; [exists [], None; by repeat split|].
  unfold noted. rewrite last_snoc. apply StronglySorted_app in Hr as (H1 & H2 & _).
  apply Forall_app in Hu as [Hu [Hb _]%Forall_cons]. cbn in Hb.
  assert (Forall (fun x => x.1 < b) r0) as Hlt by (apply Forall_forall; intros x Hx; apply (H1 x (b, w)); set_solver).
  destruct (Z.eqb_spec b now) as [->|Hn].
  - exists r0, (Some w). split_and!; [done..|]. rewrite length_app. cbn [length].
    replace (length r0 + 1 - 1)%nat with (length r0) by lia. by rewrite take_app_length.
  - exists (r0 ++ [(b, w)]), None. split_and!; [|by apply rising_snoc|by rewrite app_nil_r|done].
    apply Forall_app. split; [eapply Forall_impl; [exact Hlt|]; cbn; lia|]. repeat constructor. cbn. lia.
Qed.

Lemma rising_few r : rising r -> rising (few r).
Proof.
  intros H. unfold few. rewrite <- (take_drop (length r - BUCKETS * 2) r) in H. by apply StronglySorted_app in H as (_ & _ & H).
Qed.

Lemma length_few r : length (few r) = (length r `min` (BUCKETS * 2))%nat.
Proof. unfold few. rewrite length_drop. lia. Qed.

Lemma few_or_before r x : rising r -> x ∈ r -> x ∈ few r \/ (length (few r) = (BUCKETS * 2)%nat /\ Forall (fun y => x.1 < y.1) (few r)).
Proof.
  intros Hr Hx. rewrite <- (take_drop (length r - BUCKETS * 2) r) in Hx. apply elem_of_app in Hx as [Hx|Hx]; [|by left].
  right. split.
  - rewrite length_few. destruct (decide (length r <= BUCKETS * 2)%nat); [|lia].
    replace (length r - BUCKETS * 2)%nat with O in Hx by lia. set_solver.
  - rewrite <- (take_drop (length r - BUCKETS * 2) r) in Hr. apply StronglySorted_app in Hr as (Hr & _ & _).
    apply Forall_forall. intros y Hy. by apply Hr.
Qed.

Lemma few_last r x : few (r ++ [x]) = drop (length (r ++ [x]) - BUCKETS * 2) r ++ [x].
Proof.
  unfold few. rewrite drop_app_le; [done|]. rewrite length_app. cbn [length]. unfold BUCKETS. lia.
Qed.

(** A beat is the record of what was said with this said last. *)
Lemma beat_record bs r now l :
  record_of bs r -> Forall (fun x => x.1 <= now) bs -> record_of (bs ++ [(now, l)]) (beat r now l).
Proof.
  intros (Hr & Hlen & Hin & Hall) Hbs.
  assert (up_to now r) as Hu.
  { apply Forall_forall. intros [b w] Hx. apply Hin, worst_Some in Hx as (x & Hx & <-). exact (proj1 (Forall_forall _ _) Hbs x Hx). }
  destruct (noted_cases r now l Hr Hu) as (r0 & w & Hlt & Hr0 & -> & Hnoted).
  set (m := from_option (fun w => level_max w l) l w).
  assert (beat (r0 ++ from_option (fun w => [(now, w)]) [] w) now l = few (r0 ++ [(now, m)])) as ->.
  { unfold beat, m. rewrite Hnoted. destruct w as [w|]; [|done]. cbn [from_option] in *. unfold level_max.
    destruct (level_le l w); [|done]. unfold few. by replace (_ - _)%nat with O by lia. }
  assert (worst bs now = w) as Hw.
  { destruct w as [w|]; [apply Hin; set_solver|]. cbn [from_option] in *. rewrite app_nil_r in *.
    destruct (worst bs now) as [w|] eqn:E; [|done]. apply Hall in E as [E|[E1 E2]].
    - eapply Forall_forall in Hlt; [|exact E]. cbn in Hlt. lia.
    - destruct r0 as [|x r0]; [done|]. apply Forall_cons in Hlt as [H1 _], E2 as [H2 _]. lia. }
  assert (rising (r0 ++ [(now, m)])) as Hr' by by apply rising_snoc.
  split_and!.
  - by apply rising_few.
  - rewrite length_few. lia.
  - intros b l' Hb. assert ((b, l') ∈ r0 ++ [(now, m)]) as Hb'.
    { rewrite <- (take_drop (length (r0 ++ [(now, m)]) - BUCKETS * 2)). set_solver. }
    rewrite worst_snoc. unfold said_in. cbn [fst snd].
    apply elem_of_app in Hb' as [Hb'|[= -> ->]%list_elem_of_singleton].
    + eapply Forall_forall in Hlt as Hb2; [|exact Hb']. cbn in Hb2. rewrite (proj2 (Z.eqb_neq now b)) by lia.
      apply Hin. set_solver.
    + rewrite Z.eqb_refl, Hw. by destruct w.
  - intros b l'. rewrite worst_snoc. unfold said_in. cbn [fst snd]. destruct (Z.eqb_spec now b) as [->|Hn].
    + intros [= <-]. left. rewrite Hw. rewrite few_last. destruct w; set_solver.
    + intros E. apply Hall in E as [E|[E1 E2]].
      * apply few_or_before; [done|]. destruct w; cbn in E; set_solver.
      * right. rewrite length_few, length_app. split; [destruct w; cbn in E1; rewrite length_app in E1; cbn in E1; cbn; lia|].
        apply Forall_forall. intros x Hx. assert (x ∈ r0 ++ [(now, m)]) as Hx'.
        { rewrite <- (take_drop (length (r0 ++ [(now, m)]) - BUCKETS * 2)). set_solver. }
        apply Forall_app in E2 as [E2 E3]. apply elem_of_app in Hx' as [Hx'| ->%list_elem_of_singleton].
        -- by eapply Forall_forall in E2.
        -- cbn [fst]. destruct w as [w|]; [by apply Forall_cons in E3 as [E3 _]|].
           destruct r0 as [|y r0]; [done|]. apply Forall_cons in E2 as [E2 _], Hlt as [Hlt _]. lia.
Qed.

(** *** The heartbeat keeps it on disk *)

Definition landed (fate : Fate) (renamed : bool) : bool :=
  match fate with Written => renamed | _ => false end.

Lemma text_of_rising r : rising r -> file_text r = join_lines (line_of <$> few r).
Proof. intros Hr. unfold file_text. by rewrite sort_rising, dedup_rising. Qed.

Lemma noted_rising r now l r' : rising r -> up_to now r -> noted r now l = Some r' -> rising r'.
Proof.
  intros Hr Hu E. destruct (noted_cases r now l Hr Hu) as (r0 & w & Hlt & Hr0 & _ & Hn).
  rewrite Hn in E. destruct w as [w|]; [destruct (level_le l w); [done|]|]; injection E as <-; by apply rising_snoc.
Qed.

Lemma noted_u64 r now l r' : in_u64 r -> u64 now -> noted r now l = Some r' -> in_u64 r'.
Proof.
  intros Hr Hn. unfold noted. destruct (last r) as [[b w]|]; [|intros [= <-]; by apply Forall_singleton].
  destruct (Z.eqb_spec b now) as [->|]; [destruct (level_le l w); [done|]|]; intros [= <-]; apply Forall_app;
    (split; [first [done|by apply Forall_take]|by apply Forall_singleton]).
Qed.

Lemma untouched d p q c readable : q <> p -> recorded_in (<[q := c]> d) p readable = recorded_in d p readable.
Proof. intros H. unfold recorded_in, read_to_string. by rewrite lookup_insert_ne. Qed.

Lemma heartbeat_record s d p clock fate renamed r :
  file s = Some p -> set_extension p (str "tmp") <> p -> recorded_in d p true = r ->
  rising r -> in_u64 r -> u64 (current_bucket clock) -> up_to (current_bucket clock) r -> (length r <= BUCKETS * 2)%nat ->
  recorded_in (heartbeat s d clock true fate renamed) p true =
    (if landed fate renamed then beat r (current_bucket clock) (level s) else r) /\
  in_u64 (beat r (current_bucket clock) (level s)).
Proof.
  intros Hf Ht Hd Hr Hu Hnow Hup Hlen. unfold heartbeat, recorded, beat. rewrite Hf, Hd.
  destruct (noted r _ (level s)) as [r'|] eqn:E; [|by destruct (landed fate renamed)].
  assert (rising r') as Hr' by by eapply noted_rising. assert (in_u64 r') as Hu' by by eapply noted_u64.
  assert (in_u64 (few r')) as Hf' by by apply Forall_drop.
  split; [|done]. rewrite text_of_rising by done.
  destruct fate; cbn [write_restricted landed is_ok]; try (by rewrite ?untouched).
  unfold rename. rewrite lookup_insert_eq. destruct renamed; [by apply recorded_written|by rewrite untouched].
Qed.

(** *** The life of a service *)

(** What the service said, when it beat, and what became of the writing. *)
Record Beat := mkBeat { b_clock : option Z; b_level : Level; b_fate : Fate; b_renamed : bool }.

Definition after (s : Status) (d : Disk) (l : list Beat) : Disk :=
  foldl (fun d x => heartbeat (report s (b_level x)) d (b_clock x) true (b_fate x) (b_renamed x)) d l.

Definition on_disk (l : list Beat) : list (Z * Level) :=
  (fun x => (current_bucket (b_clock x), b_level x)) <$> retain (fun x => landed (b_fate x) (b_renamed x)) l.

(** The clock does not go back. *)
Definition in_time (l : list Beat) : Prop := StronglySorted (fun a b => current_bucket (b_clock a) <= current_bucket (b_clock b)) l.
Definition within (now : Z) (l : list Beat) : Prop := Forall (fun x => 0 <= current_bucket (b_clock x) <= now) l.

Lemma level_reported s l : level (report s l) = l.
Proof. by destruct l. Qed.

Lemma after_snoc s d l x :
  after s d (l ++ [x]) = heartbeat (report s (b_level x)) (after s d l) (b_clock x) true (b_fate x) (b_renamed x).
Proof. unfold after. by rewrite foldl_app. Qed.

Lemma on_disk_snoc l x :
  on_disk (l ++ [x]) =
    on_disk l ++ (if landed (b_fate x) (b_renamed x) then [(current_bucket (b_clock x), b_level x)] else []).
Proof.
  unfold on_disk. rewrite retain_app, fmap_app. f_equal. unfold retain. cbn. by destruct (landed _ _).
Qed.

Lemma life_recorded s d p l now :
  file s = Some p -> set_extension p (str "tmp") <> p -> d !! p = None -> in_time l -> within now l -> u64 now ->
  record_of (on_disk l) (recorded_in (after s d l) p true) /\ in_u64 (recorded_in (after s d l) p true).
Proof.
  intros Hf Ht Hd Htime Hwithin Hnow. induction l as [|x l IH] using rev_ind.
  { assert (recorded_in (after s d []) p true = []) as -> by (unfold recorded_in, read_to_string, after; cbn [foldl]; by rewrite Hd).
    split; [|constructor]. split_and!; [constructor|cbn; lia|set_solver|done]. }
  apply StronglySorted_app in Htime as (Hle & Htime & _). apply Forall_app in Hwithin as [Hwithin [[Hx1 Hx2] _]%Forall_cons].
  destruct (IH Htime Hwithin) as [Hrec Hu]. set (r := recorded_in (after s d l) p true) in *.
  set (b := current_bucket (b_clock x)) in *.
  assert (Forall (fun y => y.1 <= b) (on_disk l)) as Hb.
  { apply Forall_fmap, Forall_forall. intros y [_ Hy]%elem_of_retain. cbn. apply Hle; [done|set_solver]. }
  assert (up_to b r) as Hup.
  { apply Forall_forall. intros [c w] Hc. apply Hrec, worst_Some in Hc as (y & Hy & <-).
    exact (proj1 (Forall_forall _ _) Hb y Hy). }
  destruct (heartbeat_record (report s (b_level x)) (after s d l) p (b_clock x) (b_fate x) (b_renamed x) r) as [E Eu];
    [done|done|done|apply Hrec|done|unfold u64 in *; fold b; lia|done|apply Hrec|].
  rewrite after_snoc, on_disk_snoc, E, level_reported in *. fold b in Eu |- *.
  destruct (landed _ _); [|by rewrite app_nil_r]. split; [|done]. by apply beat_record.
Qed.

(** *** What a bar says *)

(** The bar of a bucket, of what was written down, what is said now, and the time. *)
Definition bar_says (bs : list (Z * Level)) (reported : Level) (now b : Z) : bytes * bytes :=
  if b =? now then
    let w := level_max (default Operational (worst bs b)) reported in (str "part " ++ level_class w, level_text w)
  else
    match worst bs b with
    | Some l => (level_class l, level_text l)
    | None =>
        if existsb (fun x => x.1 <? b) bs then (str "down", str "Not serving") else (str "unknown", str "No record")
    end.

(** A strictly rising list between two bounds is no longer than they are apart. *)
Lemma rising_room r lo hi :
  rising r -> Forall (fun x => lo < x.1 <= hi) r -> (Z.of_nat (length r) <= Z.max 0 (hi - lo)).
Proof.
  intros Hr. revert lo. induction Hr as [|x r Hr IH Hx]; intros lo Hlo; [cbn; lia|].
  apply Forall_cons in Hlo as [[H1 H2] Hlo]. cbn [length]. rewrite Nat2Z.inj_succ.
  assert (Forall (fun y => x.1 < y.1 <= hi) r) as H.
  { apply Forall_forall. intros y Hy. rewrite Forall_forall in Hx, Hlo. split; [by apply Hx|by apply Hlo]. }
  specialize (IH _ H). lia.
Qed.

Lemma first_known bs r now b :
  record_of bs r -> Forall (fun x => x.1 <= now) bs -> b < now < b + Z.of_nat BUCKETS -> worst bs b = None ->
  (known_from r now <=? b) = existsb (fun x => x.1 <? b) bs.
Proof.
  intros (Hr & Hlen & Hin & Hall) Hbs Hb Hw. apply eq_bool_prop_intro. rewrite !Is_true_true, Z.leb_le.
  unfold known_from. split.
  - destruct r as [|x r]; cbn; [lia|]. intros Hx. apply existsb_exists.
    destruct (worst_Some bs x.1 x.2) as (y & Hy & E); [apply Hin; rewrite <- surjective_pairing; set_solver|].
    exists y. split; [by apply list_elem_of_In|]. apply Z.ltb_lt.
    destruct (Z.eq_dec x.1 b) as [Eb|]; [|lia].
    rewrite (Hin b x.2) in Hw; [done|]. rewrite <- Eb, <- surjective_pairing. set_solver.
  - intros (y & Hy%list_elem_of_In & Hlt%Z.ltb_lt)%existsb_exists.
    assert (exists l, worst bs y.1 = Some l) as [l Hl].
    { clear -Hy. induction bs as [|x bs IH] using rev_ind; [set_solver|]. rewrite worst_snoc. unfold said_in.
      apply elem_of_app in Hy as [Hy| ->%list_elem_of_singleton]; [|rewrite Z.eqb_refl; eauto].
      destruct (x.1 =? y.1); eauto. }
    apply Hall in Hl as [Hl|[Hl1 Hl2]]; destruct r as [|x r]; [set_solver| |done|]; cbn.
    + apply StronglySorted_inv in Hr as [_ Hx]. apply elem_of_cons in Hl as [<-|Hl]; [cbn; lia|].
      apply (proj1 (Forall_forall _ _) Hx) in Hl. cbn in Hl. lia.
    + destruct (Z.le_gt_cases x.1 b) as [|Hgt]; [done|].
      assert (Forall (fun z => b < z.1 <= now) (x :: r)) as Hz.
      { apply Forall_forall. intros z Hz. split.
        - apply StronglySorted_inv in Hr as [_ Hx]. apply elem_of_cons in Hz as [->|Hz]; [lia|].
          apply (proj1 (Forall_forall _ _) Hx) in Hz. lia.
        - destruct (worst_Some bs z.1 z.2) as (u & Hu & <-); [apply Hin; by rewrite <- surjective_pairing|].
          exact (proj1 (Forall_forall _ _) Hbs u Hu). }
      apply (rising_room _ _ _ Hr) in Hz. rewrite Hl1 in Hz. unfold BUCKETS in *. lia.
Qed.

Lemma bar_of_record bs r reported now b :
  record_of bs r -> Forall (fun x => x.1 <= now) bs -> b <= now < b + Z.of_nat BUCKETS ->
  bar r (known_from r now) reported now b = bar_says bs reported now b.
Proof.
  intros Hrec Hbs Hb. pose proof Hrec as (Hr & Hlen & Hin & Hall). unfold bar, bar_says.
  pose proof (binary_search_spec r b Hr) as Hs. destruct (binary_search r b) as [i|].
  - destruct Hs as [l Hl]. cbn [from_option]. rewrite Hl. cbn [from_option snd].
    assert (worst bs b = Some l) as -> by (apply Hin; by eapply list_elem_of_lookup_2). done.
  - assert (worst bs b = None) as Hw.
    { destruct (worst bs b) as [l|] eqn:E; [|done]. apply Hall in E as [E|[E1 E2]]; [by apply Hs in E|].
      assert (Forall (fun z => b < z.1 <= now) r) as Hz.
      { apply Forall_forall. intros z Hz. split; [exact (proj1 (Forall_forall _ _) E2 z Hz)|].
        destruct (worst_Some bs z.1 z.2) as (u & Hu & <-); [apply Hin; by rewrite <- surjective_pairing|].
        exact (proj1 (Forall_forall _ _) Hbs u Hu). }
      apply (rising_room _ _ _ Hr) in Hz. rewrite E1 in Hz. unfold BUCKETS in *. lia. }
    rewrite Hw. destruct (Z.eqb_spec b now) as [->|]; [done|]. rewrite (first_known bs) by (auto; lia). done.
Qed.

(** C36: the strip says what was written down, and only that.  Over any run of
    heartbeats in time, whatever became of writing each, every bar of the strip is that
    of its half hour: a half hour in which a heartbeat landed shows the worst word said
    in one, one without is red exactly when a heartbeat had landed before it and grey
    otherwise, and the last is the worse of what was written in it and what is said
    now.  And what a torn write leaves is never read. *)
Theorem a_bar_says_what_was_written s d p l clock :
  file s = Some p -> set_extension p (str "tmp") <> p -> d !! p = None ->
  in_time l -> within (current_bucket clock) l -> u64 (current_bucket clock) ->
  bars s (after s d l) clock true =
    (fun b => (b, bar_says (on_disk l) (level s) (current_bucket clock) b)) <$> slots (current_bucket clock).
Proof.
  intros Hf Ht Hd Htime Hwithin Hnow. destruct (life_recorded s d p l _ Hf Ht Hd Htime Hwithin Hnow) as [Hrec _].
  unfold bars, recorded. rewrite Hf. apply list_fmap_ext. intros i b Hb. f_equal. apply (bar_of_record (on_disk l)).
  - exact Hrec.
  - apply Forall_fmap, Forall_forall. intros x [_ Hx]%elem_of_retain. by apply (proj1 (Forall_forall _ _) Hwithin) in Hx as [].
  - apply list_elem_of_lookup_2, list_elem_of_fmap in Hb as (slot & -> & Hs%elem_of_seq). destruct Hnow.
    unfold sat_sub, BUCKETS in *. lia.
Qed.

(** A file that cannot be read once is lost.  When a heartbeat cannot read the
    record, it takes it for empty and writes one bucket over it: every bar before goes
    from what it said to grey. *)
Theorem an_unreadable_record_is_lost s d p clock :
  file s = Some p -> set_extension p (str "tmp") <> p -> u64 (current_bucket clock) ->
  recorded_in (heartbeat s d clock false Written true) p true = [(current_bucket clock, level s)].
Proof.
  intros Hf Ht Hnow. unfold heartbeat, recorded. rewrite Hf.
  assert (recorded_in d p false = []) as -> by (unfold recorded_in, read_to_string; by destruct (d !! p)).
  cbn [noted last]. rewrite text_of_rising by (repeat constructor). cbn [write_restricted is_ok]. unfold rename.
  rewrite lookup_insert_eq. apply (recorded_written _ _ [_]). by apply Forall_singleton.
Qed.
End Facts.

(** ** A service that is down for an hour *)

Module StatusExample.
Fixpoint place (x : Z * Level) (r : Record_) : Record_ :=
  match r with [] => [x] | y :: r => if x.1 <=? y.1 then x :: y :: r else y :: place x r end.
#[export] Instance sort : UnstableSort := foldr place [].

Lemma place_perm x r : place x r ≡ₚ x :: r.
Proof. induction r as [|y r IH]; [done|]. cbn. destruct (x.1 <=? y.1); [done|]. rewrite IH. apply Permutation_swap. Qed.

Lemma place_sorted x r :
  StronglySorted (fun a b : Z * Level => a.1 <= b.1) r -> StronglySorted (fun a b => a.1 <= b.1) (place x r).
Proof.
  induction 1 as [|y r Hr IH Hy]; cbn; [repeat constructor|]. destruct (Z.leb_spec x.1 y.1); constructor; auto.
  - by constructor.
  - constructor; [done|]. eapply Forall_impl; [exact Hy|]. cbn. lia.
  - rewrite place_perm. constructor; [lia|done].
Qed.

#[export] Instance sort_laws : UnstableSortLaws sort.
Proof.
  split; intros r; induction r as [|x r IH]; [done| |constructor|].
  - change (place x (sort r) ≡ₚ x :: r). by rewrite place_perm, IH.
  - by apply place_sorted.
Qed.

Definition p : Path := str "/var/status".
Definition s : Status := report (record_at status_new p) Busy.
Definition at_half_hour (n : Z) : option Z := Some (1800 * (1000 + n)).

(** It beats twice in one half hour, fails to write in the next, is down for one, and
    is under strain in the one after. *)
Definition day : list Beat :=
  [mkBeat (at_half_hour 0) Operational Written true; mkBeat (at_half_hour 0) Busy Written true;
   mkBeat (at_half_hour 1) Strained (Torn 3) true; mkBeat (at_half_hour 3) Strained Written true;
   mkBeat (at_half_hour 3) Operational Written true].

Example drawn :
  (fun x => x.2.1) <$> drop 90 (bars s (after s ∅ day) (at_half_hour 4) true) =
    [str "unknown"; str "busy"; str "down"; str "down"; str "strained"; str "part busy"].
Proof. vm_compute. reflexivity. Qed.
End StatusExample.
Import StatusExample.

Lemma a_bar_says_what_was_written_witness :
  bars s (after s ∅ day) (at_half_hour 4) true =
    (fun b => (b, bar_says (on_disk day) (level s) 1004 b)) <$> slots 1004.
Proof.
  apply (a_bar_says_what_was_written s ∅ p day (at_half_hour 4)); try done.
  - repeat constructor; by vm_compute.
  - repeat constructor; by vm_compute.
Defined.

Lemma an_unreadable_record_is_lost_witness :
  recorded_in (heartbeat s (after s ∅ day) (at_half_hour 4) false Written true) p true = [(1004, Busy)].
Proof. apply (an_unreadable_record_is_lost s (after s ∅ day) p (at_half_hour 4)); done. Defined.
