(* ===== verification/GroupLife.v ===== *)
(** * Conversations: members, creating, joining, exporting and coming back

    The rest of [crates/rotelyx-crypto/src/group.rs]: the [Member] a device is, how a
    [Conversation] begins and is joined, what is exported from it, the post-quantum
    secret mixed into it, and what of a member is written down and read back.

    [OpenMlsRustCrypto], the provider a member owns, is a [Store]; a group holds the
    one it was made over.  Keys and nonces that are drawn at random are arguments. *)

From S2P Require Import Prelude Crypto Group.
From S2P Require Hybrid.
Import Hybrid (XWing, PublicKey, SecretKey, decapsulate, public, psk_binding, to_psk_bytes, CIPHERTEXT_LEN,
  Ed25519, HybridError, PqBinding, binding_new, WrappedPqSecret).

Definition PSK_LABEL : bytes := String.list_byte_of_string "rotelyx-pq-psk-v1".
Definition MAILBOX_TAG_KEY_LABEL : string := "rotelyx mailbox tag key v1".
Definition MEDIA_KEY_LABEL : string := "rotelyx media base key v1".

(** What of OpenMLS these operations call.  A key package read is validated; whether
    it is for the suite of this deployment is asked apart. *)
Class MlsLife `{ML : Mls} := {
  Store : Type;
  KeyPackageIn : Type;
  Welcome : Type;
  RatchetTree : Type;
  fresh_store : Store;
  store_of : MlsGroup -> Store;
  with_store : MlsGroup -> Store -> MlsGroup;
  store_signer : Store -> Signer -> option Store;
  new_group : Store -> Signer -> bytes -> option MlsGroup * Store;
  build_key_package : Store -> Signer -> bytes -> bytes -> option KeyPackage * Store;
  kp_serialize : KeyPackage -> option bytes;
  kp_deserialize : bytes -> option KeyPackageIn;
  kp_validate : KeyPackageIn -> option KeyPackage;
  kp_suite_is_ours : KeyPackage -> bool;
  welcome_of : MessageIn -> option Welcome;
  tree_deserialize : bytes -> option RatchetTree;
  group_from_welcome : Store -> Welcome -> RatchetTree -> option MlsGroup * Store;
  tree_serialize : MlsGroup -> option bytes;
  mls_group_id : MlsGroup -> bytes;
  export_secret : MlsGroup -> string -> option bytes;
  psk_store : MlsGroup -> bytes -> bytes -> option unit * MlsGroup;
  (** [commit_builder().add_proposal(psk).load_psks(..).build(..).stage_commit(..)] *)
  psk_commit : MlsGroup -> Signer -> bytes -> bytes -> option MessageOut * MlsGroup;
  (** [Some None] when the store has no such group *)
  load_group : Store -> bytes -> option (option MlsGroup);
  store_values : Store -> list (bytes * bytes);
  store_from : list (bytes * bytes) -> Store;
  signer_to_bytes : Signer -> option bytes;
  signer_from_bytes : bytes -> option Signer;
  signer_sign : Signer -> bytes -> option bytes;
}.

(** X-Wing keys as they are put away and sent. *)
Class XWingStorage `{XW : XWing} := {
  pk_to_bytes : PublicKey -> bytes;
  pk_from_bytes : bytes -> option PublicKey;
  secret_to_storage : SecretKey -> arr 32;
  secret_from_storage : arr 32 -> SecretKey;
}.

Section Life.
Context `{BL : Blake3, BH : Blake3Hash, AE : Aead, ED : Ed25519}.
Context `{ML : Mls, LF : @MlsLife ML, XW : XWing, XS : @XWingStorage XW}.

(** ** Members *)

Record Member := mkMember {
  m_store : Store;
  signer : Signer;
  credential : bytes;
  credential_key : bytes;
  hybrid_sk : SecretKey;
}.

(** [generated] and [sk] are the key pairs drawn. *)
Definition member_for_device (generated : option Signer) (sk : SecretKey) (person device : bytes)
    : Result Member GroupError :=
  let? s := ok_or MlsFailed generated in
  let? st := ok_or MlsFailed (store_signer fresh_store s) in
  let? credential := encode_identity person device in
  Ok (mkMember st s credential (signer_public s) sk).

Definition member_new (generated : option Signer) (sk : SecretKey) (identity : bytes)
    : Result Member GroupError :=
  member_for_device generated sk identity [].

Definition member_signature_key (m : Member) : bytes := signer_public (signer m).

Definition hybrid_public_key (m : Member) : PublicKey := public (hybrid_sk m).

Definition member_open_pq (m : Member) (ct : arr CIPHERTEXT_LEN) : arr 32 := decapsulate (hybrid_sk m) ct.

Definition with_m_store (m : Member) (st : Store) : Member :=
  mkMember st (signer m) (credential m) (credential_key m) (hybrid_sk m).

(** The key package, and the store its private keys are in, which is the one
    given. *)
Definition member_key_package (m : Member) (st : Store) : Result KeyPackage GroupError * Store :=
  let '(r, st) := build_key_package st (signer m) (credential m) (credential_key m) in
  (ok_or MlsFailed r, st).

Definition serialize_key_package (kp : KeyPackage) : Result bytes GroupError := ok_or Codec (kp_serialize kp).

Definition deserialize_key_package (l : bytes) : Result KeyPackage GroupError :=
  let? msg := ok_or Codec (kp_deserialize l) in
  let? validated := ok_or MlsFailed (kp_validate msg) in
  if kp_suite_is_ours validated then Ok validated else Err MlsFailed.

(** *** A secret for every member *)

Definition unwrap_group_pq (m : Member) (w : WrappedPqSecret) (b : PqBinding) : Result (arr 32) HybridError :=
  Hybrid.unwrap_pq (hybrid_sk m) w b.

(** The first member of the roster whose signature it is. *)
Fixpoint unwrap_from (m : Member) (w : WrappedPqSecret) (id : bytes) (at_ : Z) (last : HybridError)
    (roster : list bytes) : Result (arr 32) HybridError :=
  match roster with
  | [] => Err last
  | sender :: roster =>
      match Hybrid.unwrap_pq_signed (hybrid_sk m) w (binding_new id at_ (member_signature_key m) sender) with
      | Ok secret => Ok secret
      | Err e => unwrap_from m w id at_ e roster
      end
  end.

Definition unwrap_group_pq_from_member (m : Member) (w : WrappedPqSecret) (id : bytes) (at_ : Z)
    (roster : list bytes) : Result (arr 32) HybridError :=
  unwrap_from m w id at_ Hybrid.WrongSender roster.

Definition wrap_group_pq_signed (m : Member) (secret : arr 32) (to : PublicKey) (id : bytes) (at_ : Z)
    (recipient : bytes) (random : bytes) (fresh : arr 24) : Result WrappedPqSecret HybridError :=
  Hybrid.wrap_and_sign secret to (binding_new id at_ recipient (member_signature_key m))
    (signer_sign (signer m)) random fresh.

Record MemberState := mkMemberState {
  ms_identity : bytes;
  ms_signature_public : bytes;
  ms_signer : bytes;
  ms_hybrid_secret : arr 32;
  ms_storage : list (bytes * bytes);
}.

(** [st] is the store as it is now; a lock that is poisoned is not modelled. *)
Definition member_export (m : Member) (st : Store) : Result MemberState GroupError :=
  let? s := ok_or MlsFailed (signer_to_bytes (signer m)) in
  Ok (mkMemberState (credential m) (member_signature_key m) s (secret_to_storage (hybrid_sk m)) (store_values st)).

Definition member_restore (s : MemberState) : Result Member GroupError :=
  let? sg := ok_or MlsFailed (signer_from_bytes (ms_signer s)) in
  Ok (mkMember (store_from (ms_storage s)) sg (ms_identity s) (ms_signature_public s)
        (secret_from_storage (ms_hybrid_secret s))).

(** ** A conversation begins *)

Definition create (m : Member) : Result Conversation GroupError * Store :=
  let '(g, st) := new_group (m_store m) (signer m) (credential m) in
  (let? g := ok_or MlsFailed g in Ok (opened g false), st).

Definition join (m : Member) (welcome tree : bytes) : Result Conversation GroupError * Store :=
  match (let? msg := ok_or Codec (tls_deserialize welcome) in
         let? w := ok_or UnexpectedMessage (welcome_of msg) in
         let? t := ok_or Codec (tree_deserialize tree) in Ok (w, t)) with
  | Err e => (Err e, m_store m)
  | Ok (w, t) =>
      let '(g, st) := group_from_welcome (m_store m) w t in
      (let? g := ok_or MlsFailed g in Ok (opened g false), st)
  end.

Definition reopen (m : Member) (id : bytes) : Result (option Conversation) GroupError :=
  let? maybe := ok_or MlsFailed (load_group (m_store m) id) in
  Ok ((fun g => opened g true) <$> maybe).

Definition trust_restored_state (c : Conversation) : Conversation := with_rekey c false.
Definition needs_rekey (c : Conversation) : bool := restored_needs_rekey c.

(** ** What is taken from it *)

Definition export_key (c : Conversation) (label : string) : Result (arr 32) GroupError :=
  let? l := ok_or MlsFailed (export_secret (group c) label) in
  ok_or MlsFailed (try_into 32 l).

Definition mailbox_tag_key (c : Conversation) : Result (arr 32) GroupError := export_key c MAILBOX_TAG_KEY_LABEL.
Definition media_base_key (c : Conversation) : Result (arr 32) GroupError := export_key c MEDIA_KEY_LABEL.

Definition group_id (c : Conversation) : bytes := mls_group_id (group c).
Definition member_count (c : Conversation) : Z := zlen (members (group c)).
Definition is_holding_a_commit (c : Conversation) : bool := bool_decide (is_Some (pending c)).
Definition ratchet_tree (c : Conversation) : Result bytes GroupError := ok_or Codec (tree_serialize (group c)).

(** ** The post-quantum secret *)

Definition conversation_psk_binding (c : Conversation) : bytes :=
  psk_binding PSK_LABEL (group_id c) (epoch c).

Definition stage_pq_secret (c : Conversation) (secret : arr 32) : Result unit GroupError * Conversation :=
  let b := conversation_psk_binding c in
  on_group (fun g => psk_store g b (ab (to_psk_bytes secret b))) MlsFailed c.

(** [nonce] is what [getrandom::fill] wrote. *)
Definition commit_pq_secret (c : Conversation) (by_ : Signer) (secret : arr 32) (nonce : option (arr 32))
    : Result bytes GroupError * Conversation :=
  let b := conversation_psk_binding c in
  match nonce with
  | None => (Err MlsFailed, c)
  | Some n =>
      let! (_, c) := on_group (fun g => psk_store g b (ab (to_psk_bytes secret b))) MlsFailed c in
      let! (m, c) := on_group (fun g => psk_commit g by_ b (ab n)) MlsFailed c in
      hold_commit m c
  end.

End Life.
