(* ===== verification/Handshake.v ===== *)
(** * Two devices open a conversation over a session

    [crates/rotelyx-cli/src/handshake.rs] (its copies in [rotelyx-web] and
    [rotelyx-desktop] differ in comments): what the listener and the dialer say to one
    another until each holds a conversation, new or carried across a restart.  Each
    side is a [Talk], a program that sends and awaits frames; the session between two
    is two queues of frames ([Wire] has the frames as bytes), and the two sides move in
    any order. *)

From S2P Require Import Prelude Crypto Group GroupLife.
From S2P Require Hybrid AtRest Wire.
Import Hybrid (XWing, SecretKey, Ed25519).
Import Wire (Frame, mkFrame, f_kind, f_payload, WIRE_VERSION).
#[local] Existing Instance Wire.FrameKind_eq_dec.

(** ** Programs that talk *)

Inductive Fault :=
| OfGroup (e : GroupError)
| Truncated
| OlderBuild
| NotAVersion
| OtherVersion (theirs : Z)
| Expected (k : Wire.FrameKind)
| OtherConversation
| NotSent (e : Wire.WireError)
| SessionGone.

Inductive Talk (A : Type) : Type :=
| Done (r : Result A Fault)
| Send (f : Frame) (k : Talk A)
| Hear (k : Frame -> Talk A).
Arguments Done {A} r.
Arguments Send {A} f k.
Arguments Hear {A} k.

Fixpoint then_ {A B} (t : Talk A) (k : A -> Talk B) : Talk B :=
  match t with
  | Done (Ok a) => k a
  | Done (Err e) => Done (Err e)
  | Send f t => Send f (then_ t k)
  | Hear h => Hear (fun f => then_ (h f) k)
  end.

Notation "'let@' x ':=' t 'in' k" := (then_ t (fun x => k))
  (at level 10, x binder, t at level 100, k at level 200) : rotelyx_scope.

Definition send (f : Frame) : Talk unit := Send f (Done (Ok tt)).
Definition recv : Talk Frame := Hear (fun f => Done (Ok f)).
Definition given {A} (r : Result A Fault) : Talk A := Done r.
Definition group_says {A} (r : Result A GroupError) : Talk A := Done (map_err OfGroup r).

(** ** The welcome on the wire *)

Definition encode_welcome (welcome tree : bytes) : bytes :=
  be_bytes 4 (wrap32 (zlen welcome)) ++ welcome ++ be_bytes 4 (wrap32 (zlen tree)) ++ tree.

Definition decode_welcome (l : bytes) : Result (bytes * bytes) Fault :=
  if (length l <? 4)%nat then Err Truncated
  else
    let w_len := be_value (take 4 l) in
    let rest := drop 4 l in
    if zlen rest <? w_len + 4 then Err Truncated
    else
      let welcome := take (Z.to_nat w_len) rest in
      let rest := drop (Z.to_nat w_len) rest in
      let t_len := be_value (take 4 rest) in
      let rest := drop 4 rest in
      if zlen rest <? t_len then Err Truncated else Ok (welcome, take (Z.to_nat t_len) rest).

(** ** Which wire *)

Definition our_hello : Frame := mkFrame Wire.Hello (be_bytes 2 WIRE_VERSION).
Definition say_hello : Talk unit := send our_hello.

Definition check_hello (f : Frame) : Result unit Fault :=
  if negb (bool_decide (f_kind f = Wire.Hello)) then Err OlderBuild
  else
    match f_payload f with
    | [a; b] => let theirs := be_value [a; b] in if theirs =? WIRE_VERSION then Ok tt else Err (OtherVersion theirs)
    | _ => Err NotAVersion
    end.

Section Handshake.
Context `{BL : Blake3, BH : Blake3Hash, AE : Aead, ED : Ed25519}.
Context `{ML : Mls, LF : @MlsLife ML, XW : XWing, XS : @XWingStorage XW}.

Inductive Opened :=
| Fresh (c : Conversation)
| Resumed (m : Member) (c : Conversation).

(** ** The dialer *)

(** The key package, and the member with its private keys in its store. *)
Definition offer (me : Member) : Result (bytes * Member) GroupError :=
  let '(kp, st) := member_key_package me (m_store me) in
  let? kp := kp in
  let? encoded := serialize_key_package kp in
  Ok (encoded, with_m_store me st).

Definition join (me : Member) : Talk Conversation :=
  let@ x := group_says (offer me) in
  let@ _ := send (mkFrame Wire.Handshake x.1) in
  let@ f := recv in
  if negb (bool_decide (f_kind f = Wire.Handshake)) then given (Err (Expected Wire.Handshake))
  else
    let@ wt := given (decode_welcome (f_payload f)) in
    group_says (GroupLife.join x.2 wt.1 wt.2).1.

Definition join_resuming (me : Member) (saved : option (Member * Conversation)) : Talk Opened :=
  let@ _ := say_hello in
  let@ hello := recv in
  let@ _ := given (check_hello hello) in
  match saved with
  | None => let@ c := join me in given (Ok (Fresh c))
  | Some (saved_member, c) =>
      let@ _ := send (mkFrame Wire.Resume (group_id c)) in
      let@ f := recv in
      if negb (bool_decide (f_kind f = Wire.Resume)) then given (Err (Expected Wire.Resume))
      else
        match f_payload f with
        | [] => let@ c := join me in given (Ok (Fresh c))
        | commit =>
            let '(r, c) := receive c commit in
            let@ _ := group_says r in given (Ok (Resumed saved_member c))
        end
  end.

(** ** The listener *)

(** A conversation with whoever the key package is of, and what it takes to join. *)
Definition invited (me : Member) (payload : bytes) : Result (Conversation * bytes * bytes) GroupError :=
  let? kp := deserialize_key_package payload in
  let? c := (create me).1 in
  let '(r, c) := invite c (signer me) kp in
  let? cw := r in
  let '(r, c) := settle c in
  let? _ := r in
  let? tree := ratchet_tree c in
  Ok (c, cw.2, tree).

Definition host_from_key_package (me : Member) (payload : bytes) : Talk Conversation :=
  let@ x := group_says (invited me payload) in
  let '(c, welcome, tree) := x in
  let@ _ := send (mkFrame Wire.Handshake (encode_welcome welcome tree)) in
  given (Ok c).

Definition host_resuming (me : Member) (saved : option (Member * Conversation)) : Talk Opened :=
  let@ hello := recv in
  let@ _ := given (check_hello hello) in
  let@ _ := say_hello in
  let@ f := recv in
  match f_kind f with
  | Wire.Handshake => let@ c := host_from_key_package me (f_payload f) in given (Ok (Fresh c))
  | Wire.Resume =>
      match saved with
      | None =>
          let@ _ := send (mkFrame Wire.Resume []) in
          let@ f := recv in
          if negb (bool_decide (f_kind f = Wire.Handshake)) then given (Err (Expected Wire.Handshake))
          else let@ c := host_from_key_package me (f_payload f) in given (Ok (Fresh c))
      | Some (saved_member, c) =>
          if negb (bool_decide (f_payload f = group_id c)) then given (Err OtherConversation)
          else
            let '(r, c) := rekey_after_restore c (signer saved_member) in
            let@ commit := group_says r in
            let@ _ := send (mkFrame Wire.Resume commit) in
            let '(r, c) := settle c in
            let@ _ := group_says r in
            given (Ok (Resumed saved_member c))
      end
  | _ => given (Err (Expected Wire.Handshake))
  end.
End Handshake.

(** ** A session between two *)

Record Session (A : Type) := mkSession { here : Talk A; there : Talk A; to_here : list Frame; to_there : list Frame }.
Arguments mkSession {A} here there to_here to_there.
Arguments here {A} s. Arguments there {A} s. Arguments to_here {A} s. Arguments to_there {A} s.

Definition failed {A} (t : Talk A) : bool := match t with Done (Err _) => true | _ => false end.

(** One side's next step, of what it says, what waits for it and whether the other has
    given up: what is left of it and of the queue, and what it sends. *)
Definition moves {A} (t : Talk A) (waiting : list Frame) (gone : bool) : option (Talk A * list Frame * list Frame) :=
  match t with
  | Done _ => None
  | Send f k =>
      match Wire.write f with
      | Ok _ => Some (k, waiting, [f])
      | Err e => Some (Done (Err (NotSent e)), waiting, [])
      end
  | Hear k =>
      match waiting with
      | f :: waiting => Some (k f, waiting, [])
      | [] => if gone then Some (Done (Err SessionGone), [], []) else None
      end
  end.

Inductive Side := Here | There.

Definition move {A} (x : Side) (s : Session A) : option (Session A) :=
  match x with
  | Here =>
      '(t, q, out) ← moves (here s) (to_here s) (failed (there s));
      Some (mkSession t (there s) q (to_there s ++ out))
  | There =>
      '(t, q, out) ← moves (there s) (to_there s) (failed (here s));
      Some (mkSession (here s) t (to_here s ++ out) q)
  end.

Definition turn {A} (s s' : Session A) : Prop := exists x, move x s = Some s'.

Definition begins {A} (h g : Talk A) : Session A := mkSession h g [] [].

(** ** The order of steps does not matter *)

(** A relation whose forks close in one step each ends the same way, and after as many
    steps, in whatever order they are taken. *)
Lemma random_descent {T} (R : relation T) :
  (forall x y z, R x y -> R x z -> y = z \/ exists w, R y w /\ R z w) ->
  forall n x f, nsteps R n x f -> nf R f ->
  forall m y, nsteps R m x y -> (m <= n)%nat /\ nsteps R (n - m) y f.
Proof.
  intros HR. assert (forall n x f, nsteps R n x f -> nf R f -> forall y, R x y ->
    exists n', n = S n' /\ nsteps R n' y f) as Hstep.
  { induction n as [|n IH]; intros x f Hn Hf y Hy.
    - inversion Hn; subst. destruct Hf. by exists y.
    - inversion Hn as [|? ? z ? Hz Hn']; subst. exists n. split; [done|].
      destruct (HR x y z Hy Hz) as [->|(w & Hyw & Hzw)]; [done|].
      destruct (IH z f Hn' Hf w Hzw) as (n' & -> & Hw). by econstructor. }
  intros n x f Hn Hf m. revert n x Hn. induction m as [|m IH]; intros n x Hn y Hm.
  - inversion Hm; subst. split; [lia|]. by rewrite Nat.sub_0_r.
  - inversion Hm as [|? ? z ? Hz Hm']; subst. destruct (Hstep n x f Hn Hf z Hz) as (n' & -> & Hn').
    destruct (IH n' z Hn' y Hm') as [H1 H2]. split; [lia|exact H2].
Qed.

Lemma moves_more {A} (t t' : Talk A) q q' out b :
  moves t q false = Some (t', q', out) -> moves t (q ++ b) false = Some (t', q' ++ b, out).
Proof.
  destruct t as [|f k|k]; cbn; [done| |].
  - destruct (Wire.write f); by intros [= <- <- <-].
  - by destruct q as [|f q]; [|intros [= <- <- <-]].
Qed.

Lemma moves_active {A} (t : Talk A) q gone x : moves t q gone = Some x -> failed t = false.
Proof. by destruct t. Qed.

Lemma moves_still {A} (t t' : Talk A) q q' out gone :
  moves t q false = Some (t', q', out) -> moves t q gone = Some (t', q', out).
Proof. destruct t as [|f k|k]; cbn; [done|done|]. by destruct q. Qed.

Lemma moves_both {A} (s y z : Session A) :
  move Here s = Some y -> move There s = Some z -> exists w, move There y = Some w /\ move Here z = Some w.
Proof.
  destruct s as [h g qh qg]. unfold move. cbn [here there to_here to_there].
  destruct (moves h qh (failed g)) as [[[h' qh'] oh]|] eqn:Eh; [|done].
  destruct (moves g qg (failed h)) as [[[g' qg'] og]|] eqn:Eg; [|done].
  intros [= <-] [= <-]. cbn [here there to_here to_there].
  rewrite (moves_active _ _ _ _ Eg) in Eh. rewrite (moves_active _ _ _ _ Eh) in Eg.
  exists (mkSession h' g' (qh' ++ og) (qg' ++ oh)). split.
  - by rewrite (moves_still _ _ _ _ _ _ (moves_more _ _ _ _ _ oh Eg)).
  - by rewrite (moves_still _ _ _ _ _ _ (moves_more _ _ _ _ _ og Eh)).
Qed.

Lemma turn_forks {A} (s y z : Session A) : turn s y -> turn s z -> y = z \/ exists w, turn y w /\ turn z w.
Proof.
  intros [[] Hy] [[] Hz]; [left; congruence| | |left; congruence]; right.
  - destruct (moves_both s y z Hy Hz) as (w & H1 & H2). exists w. split; by eexists.
  - destruct (moves_both s z y Hz Hy) as (w & H1 & H2). exists w. split; by eexists.
Qed.

(** Both are done, and there is nothing left to hear. *)
Definition ended {A} (h g : Result A Fault) : Session A := mkSession (Done h) (Done g) [] [].

Lemma ended_nf {A} (h g : Result A Fault) qh qg : nf turn (mkSession (Done h) (Done g) qh qg).
Proof. intros [s [[] H]]; done. Qed.

(** The sides that move, in their order. *)
Fixpoint follow {A} (l : list Side) (s : Session A) : option (Session A) :=
  match l with [] => Some s | x :: l => s ← move x s; follow l s end.

Lemma follow_turns {A} l (s s' : Session A) : follow l s = Some s' -> rtc turn s s'.
Proof.
  revert s. induction l as [|x l IH]; intros s; cbn; [by intros [= ->]|].
  intros (s1 & Hm & H)%bind_Some. eapply rtc_l; [by exists x|by apply IH].
Qed.

(** One says what the other waits for: what both come to, and in how many moves. *)
Fixpoint lockstep {A} (fuel : nat) (h g : Talk A) : option (nat * Result A Fault * Result A Fault) :=
  match fuel with
  | O => None
  | S fuel =>
      match h, g with
      | Done rh, Done rg => Some (O, rh, rg)
      | Done (Err e), Hear _ => Some (1%nat, Err e, Err SessionGone)
      | Hear _, Done (Err e) => Some (1%nat, Err SessionGone, Err e)
      | Send f h, Hear g =>
          match Wire.write f with
          | Ok _ => '(n, rh, rg) ← lockstep fuel h (g f); Some (S (S n), rh, rg)
          | Err e => Some (2%nat, Err (NotSent e), Err SessionGone)
          end
      | Hear h, Send f g =>
          match Wire.write f with
          | Ok _ => '(n, rh, rg) ← lockstep fuel (h f) g; Some (S (S n), rh, rg)
          | Err e => Some (2%nat, Err SessionGone, Err (NotSent e))
          end
      | _, _ => None
      end
  end.

Ltac moves_by x := eapply nsteps_l; [exists x; cbn; try reflexivity; by rewrite ?app_nil_r|].

Lemma lockstep_runs {A} fuel : forall (h g : Talk A) n rh rg,
  lockstep fuel h g = Some (n, rh, rg) -> nsteps turn n (begins h g) (ended rh rg).
Proof.
  induction fuel as [|fuel IH]; intros h g n rh rg; [done|]. cbn [lockstep].
  destruct h as [rh'|f h|h], g as [rg'|f' g|g].
  - assert (Some (0%nat, rh', rg') = Some (n, rh, rg) -> nsteps turn n (begins (Done rh') (Done rg')) (ended rh rg))
      as H by (intros [= <- <- <-]; constructor). by destruct rh'.
  - by destruct rh'.
  - destruct rh' as [a|e]; [done|]. intros [= <- <- <-]. moves_by There. constructor.
  - done.
  - done.
  - destruct (Wire.write f) eqn:E.
    + intros ([[n' a] b] & H & [= <- <- <-])%bind_Some. specialize (IH _ _ _ _ _ H).
      eapply nsteps_l; [exists Here; cbn; by rewrite E|]. moves_by There. done.
    + intros [= <- <- <-]. eapply nsteps_l; [exists Here; cbn; by rewrite E|]. moves_by There. constructor.
  - destruct rg' as [a|e]; [done|]. intros [= <- <- <-]. moves_by Here. constructor.
  - destruct (Wire.write f') eqn:E.
    + intros ([[n' a] b] & H & [= <- <- <-])%bind_Some. specialize (IH _ _ _ _ _ H).
      eapply nsteps_l; [exists There; cbn; by rewrite E|]. moves_by Here. done.
    + intros [= <- <- <-]. eapply nsteps_l; [exists There; cbn; by rewrite E|]. moves_by Here. constructor.
  - done.
Qed.

(** However the two are scheduled they come to it, and no later. *)
Definition comes_to {A} (n : nat) (h g : Talk A) (rh rg : Result A Fault) : Prop :=
  forall m s, nsteps turn m (begins h g) s -> (m <= n)%nat /\ nsteps turn (n - m) s (ended rh rg).

Lemma lockstep_comes_to {A} fuel (h g : Talk A) n rh rg :
  lockstep fuel h g = Some (n, rh, rg) -> comes_to n h g rh rg.
Proof.
  intros H m s Hm. apply lockstep_runs in H.
  exact (random_descent turn turn_forks _ _ _ H (ended_nf _ _ _ _) _ _ Hm).
Qed.

(** ** What a welcome is read as *)

Lemma welcome_read w t f :
  Wire.write (mkFrame Wire.Handshake (encode_welcome w t)) = Ok f -> decode_welcome (encode_welcome w t) = Ok (w, t).
Proof.
  unfold Wire.write. cbn [f_payload f_kind]. destruct (Z.ltb_spec Wire.MAX_FRAME_LEN (zlen (encode_welcome w t) + 1)) as [|Hl]; [done|].
  intros _. change Wire.MAX_FRAME_LEN with 1048576 in Hl. unfold encode_welcome in *.
  rewrite !zlen_app in Hl. pose proof (zlen_nonneg w). pose proof (zlen_nonneg t).
  pose proof (zlen_nonneg (be_bytes 4 (wrap32 (zlen w)))). pose proof (zlen_nonneg (be_bytes 4 (wrap32 (zlen t)))).
  unfold decode_welcome.
  rewrite (proj2 (Nat.ltb_ge _ _)) by (rewrite length_app, length_be_bytes; lia).
  rewrite take_app_length', drop_app_length' by (by rewrite length_be_bytes).
  assert (forall l : bytes, zlen l <= 1048576 -> be_value (be_bytes 4 (wrap32 (zlen l))) = zlen l) as Hv.
  { intros l Hz. pose proof (zlen_nonneg l). unfold wrap32. rewrite Z.mod_small by lia.
    apply be_value_bytes_small. change (256 ^ Z.of_nat 4) with 4294967296. lia. }
  rewrite Hv by lia. rewrite (proj2 (Z.ltb_ge _ _)).
  2:{ rewrite !zlen_app. unfold zlen at 3. rewrite length_be_bytes. lia. }
  rewrite take_app_length', drop_app_length' by (unfold zlen; lia).
  rewrite take_app_length', drop_app_length' by (by rewrite length_be_bytes).
  rewrite Hv, Z.ltb_irrefl by lia. by rewrite take_ge by (unfold zlen; lia).
Qed.

(** ** Both come to the same conversation, or to none *)

#[local] Arguments Wire.write : simpl never.
#[local] Arguments check_hello : simpl never.
#[local] Arguments decode_welcome : simpl never.
#[local] Arguments encode_welcome : simpl never.

Lemma hello_written : exists w, Wire.write our_hello = Ok w.
Proof. eexists. vm_compute. reflexivity. Qed.
Lemma nothing_written : exists w, Wire.write (mkFrame Wire.Resume []) = Ok w.
Proof. eexists. vm_compute. reflexivity. Qed.
Lemma hello_checked : check_hello our_hello = Ok tt.
Proof. vm_compute. reflexivity. Qed.

#[local] Opaque our_hello.

Section Agreement.
Context `{BL : Blake3, BH : Blake3Hash, AE : Aead, ED : Ed25519}.
Context `{ML : Mls, LF : @MlsLife ML, XW : XWing, XS : @XWingStorage XW}.

(** What the listener ends with and what the dialer does, of what each brought. *)
Definition together (mh mg : Member) (sh sg : option (Member * Conversation)) (rh rg : Result Opened Fault) : Prop :=
  match rh, rg with
  | Ok (Fresh ch), Ok (Fresh cg) =>
      (sh = None \/ sg = None) /\
      exists kp g w t,
        offer mg = Ok (kp, g) /\ invited mh kp = Ok (ch, w, t) /\ (GroupLife.join g w t).1 = Ok cg
  | Ok (Resumed m ch), Ok (Resumed m' cg) =>
      exists ch0 cg0 commit ch1 b r,
        sh = Some (m, ch0) /\ sg = Some (m', cg0) /\ group_id ch0 = group_id cg0 /\
        rekey_after_restore ch0 (signer m) = (Ok commit, ch1) /\ settle ch1 = (Ok b, ch) /\
        receive cg0 commit = (Ok r, cg)
  | Ok _, Ok _ => False
  | Ok _, Err e | Err e, Ok _ => exists e', e = OfGroup e'
  | Err e, Err e' => e <> SessionGone \/ e' <> SessionGone
  end.

Ltac over :=
  do 3 eexists; split; [reflexivity|]; split; [lia|]; cbn; first [by left|by right|by eexists|idtac].

Definition brought_together (mh mg : Member) (sh sg : option (Member * Conversation)) (fuel : nat) (h g : Talk Opened) : Prop :=
  exists n rh rg, lockstep fuel h g = Some (n, rh, rg) /\ (n <= 2 * fuel)%nat /\ together mh mg sh sg rh rg.

(** The key package and the welcome, from where the listener waits for the one. *)
Lemma founding mh mg sh sg fuel k : (sh = None \/ sg = None) -> (3 <= fuel)%nat ->
  (forall p, k (mkFrame Wire.Handshake p) = let@ c := host_from_key_package mh p in given (Ok (Fresh c))) ->
  brought_together mh mg sh sg fuel (Hear k) (let@ c := join mg in given (Ok (Fresh c))).
Proof.
  intros Hs Hf Hk. destruct fuel as [|[|[|fuel]]]; [lia..|].
  unfold brought_together, join, group_says.
  destruct (offer mg) as [[kp g]|e] eqn:Eo; cbn; [|over].
  destruct (Wire.write _) as [w1|e] eqn:E1; [|over].
  rewrite Hk. unfold host_from_key_package, group_says.
  destruct (invited mh kp) as [[[ch w] t]|e] eqn:Ei; cbn; [|over].
  destruct (Wire.write (mkFrame _ (encode_welcome w t))) as [w2|e] eqn:E2; [|over].
  cbn. rewrite (welcome_read _ _ _ E2). cbn.
  destruct (GroupLife.join g w t) as [[cg|e] st] eqn:Ej; cbn; over.
  split; [done|]. exists kp, g, w, t. by rewrite Ej.
Qed.

Lemma brought_on mh mg sh sg fuel h g f w :
  Wire.write f = Ok w -> brought_together mh mg sh sg fuel h (g f) ->
  brought_together mh mg sh sg (S fuel) (Send f h) (Hear g).
Proof.
  intros Hw (n & rh & rg & H & Hn & Ht). unfold brought_together. cbn. rewrite Hw, H. by over.
Qed.

Lemma brought_back mh mg sh sg fuel h g f w :
  Wire.write f = Ok w -> brought_together mh mg sh sg fuel (h f) g ->
  brought_together mh mg sh sg (S fuel) (Hear h) (Send f g).
Proof.
  intros Hw (n & rh & rg & H & Hn & Ht). unfold brought_together. cbn. rewrite Hw, H. by over.
Qed.

(** A commit is never of no bytes: the dialer takes those for a refusal. *)
Definition commits_have_bytes : Prop :=
  forall g by_ o g' l, rekey_commit g by_ = (Some o, g') -> tls_serialize o = Some l -> l <> [].

Lemma rekeyed_bytes c by_ l c' :
  commits_have_bytes -> rekey_after_restore c by_ = (Ok l, c') -> l <> [].
Proof.
  intros Hser. unfold rekey_after_restore, on_group, hold_commit, serialize.
  destruct (rekey_commit (group c) by_) as [[o|] g] eqn:Eg; cbn; [|done].
  destruct (tls_serialize o) as [l'|] eqn:E; cbn; [|done].
  destruct (hold _ _) as [[]]; cbn; [|done]. intros [= <- _]. by eapply Hser.
Qed.

Lemma carrying_on mh mg m ch m' cg :
  commits_have_bytes ->
  brought_together mh mg (Some (m, ch)) (Some (m', cg)) 8
    (host_resuming mh (Some (m, ch))) (join_resuming mg (Some (m', cg))).
Proof.
  intros Hser. destruct hello_written as [w Hw]. unfold host_resuming, join_resuming.
  cbn. eapply brought_back; [exact Hw|]. rewrite hello_checked. cbn.
  eapply brought_on; [exact Hw|]. rewrite hello_checked. cbn.
  destruct (Wire.write (mkFrame Wire.Resume (group_id cg))) as [w1|e] eqn:E1.
  2:{ unfold brought_together. cbn. rewrite E1. over. }
  eapply brought_back; [exact E1|]. cbn.
  destruct (bool_decide (group_id cg = group_id ch)) eqn:Eg; cbn; [|unfold brought_together; cbn; over].
  apply bool_decide_eq_true in Eg. unfold brought_together.
  destruct (rekey_after_restore ch (signer m)) as [[commit|e] ch1] eqn:Er; cbn; [|over].
  destruct (Wire.write (mkFrame Wire.Resume commit)) as [w2|e] eqn:E2; [|over]. cbn.
  assert (commit <> []) as Hc by by eapply rekeyed_bytes.
  destruct commit as [|b commit]; [done|]. 
  destruct (settle ch1) as [[b1|e] ch2] eqn:Es, (receive cg (b :: commit)) as [[r|e'] cg'] eqn:Ec; cbn; over.
  by exists ch, cg, (b :: commit), ch1, b1, r.
Qed.

(** C15: a listener and a dialer that open a conversation end, after at most sixteen
    moves and whatever the order of them, in one way: both with a new conversation,
    which the dialer joined by the welcome the listener made for its key package, and
    only when one of them had brought none; or both carrying on the one they had
    brought, the dialer having taken the commit the listener settled.  It never ends
    with one side at the new and the other at the old; where only one side fails it is
    for its own group's refusal, and where both do one has a cause of its own. *)
Theorem openings_agree mh mg sh sg :
  commits_have_bytes ->
  exists n rh rg,
    (n <= 16)%nat /\ comes_to n (host_resuming mh sh) (join_resuming mg sg) rh rg /\ together mh mg sh sg rh rg.
Proof.
  intros Hser.
  enough (brought_together mh mg sh sg 8 (host_resuming mh sh) (join_resuming mg sg)) as (n & rh & rg & H & Hn & Ht).
  { exists n, rh, rg. split; [lia|]. split; [|done]. by eapply lockstep_comes_to. }
  destruct sh as [[m ch]|], sg as [[m' cg]|]; [by apply carrying_on| | |].
  all: destruct hello_written as [w Hw], nothing_written as [w0 Hw0].
  all: unfold host_resuming, join_resuming; cbn; eapply brought_back; [exact Hw|]; rewrite hello_checked; cbn.
  all: eapply brought_on; [exact Hw|]; rewrite hello_checked; cbn.
  - by apply founding; [right|lia|].
  - destruct (Wire.write (mkFrame Wire.Resume (group_id cg))) as [w1|e] eqn:E1.
    2:{ unfold brought_together. cbn. rewrite E1. over. }
    eapply brought_back; [exact E1|]. cbn. eapply brought_on; [exact Hw0|]. cbn.
    by apply founding; [left|lia|].
  - by apply founding; [left|lia|].
Qed.

(** *** A resumption cut in the middle *)

Context `{EG : !EpochsGrow}.

(** A commit says the epoch it was made at, and a group takes none of another. *)
Definition epochs_are_checked : Prop :=
  (forall g by_ o g' l p,
     rekey_commit g by_ = (Some o, g') -> tls_serialize o = Some l -> incoming l = Ok p ->
     protocol_epoch p = mls_epoch g) /\
  (forall g p, protocol_epoch p <> mls_epoch g -> (process_message g p).1 = None).

Lemma rekeyed_epoch c by_ l c' :
  pending c = None -> epochs_are_checked -> rekey_after_restore c by_ = (Ok l, c') ->
  epoch c <= epoch c' /\ forall p, incoming l = Ok p -> protocol_epoch p = epoch c.
Proof.
  intros Hp [Hmade _]. unfold rekey_after_restore, on_group, hold_commit, serialize, hold.
  pose proof (grow_rekey (group c) by_) as Hg.
  destruct (rekey_commit (group c) by_) as [[o|] g] eqn:Eg; cbn; [|done].
  destruct (tls_serialize o) as [l'|] eqn:E; cbn; [|done]. rewrite Hp. cbn. intros [= <- <-].
  split; [exact Hg|]. intros p Hl. by eapply Hmade.
Qed.

Lemma settled_epoch c r c' : settle c = (r, c') -> epoch c <= epoch c'.
Proof.
  unfold settle. destruct (pending c); [|intros [= _ <-]; lia]. unfold on_group.
  match goal with |- context [merge_pending_commit ?g] => pose proof (grow_pending g) as Hg;
    destruct (merge_pending_commit g) as [[]] end; cbn in *; by intros [= _ <-].
Qed.

Lemma receive_ahead c l :
  pending c = None -> epochs_are_checked -> (forall p, incoming l = Ok p -> epoch c < protocol_epoch p) ->
  exists e, (receive c l).1 = Err e.
Proof.
  intros Hp [_ Hch] Hl. unfold receive, receive_with.
  assert (epoch (sync_seq_epoch c) = epoch c /\ group (sync_seq_epoch c) = group c /\ pending (sync_seq_epoch c) = None)
    as (He & Hg & Hp') by (unfold sync_seq_epoch; by case_match).
  destruct (incoming l) as [p|e]; [|by eexists]. specialize (Hl p eq_refl).
  rewrite He, (proj2 (Z.ltb_ge _ _)), andb_false_r, Hp' by lia.
  unfold take_message, on_group. rewrite Hg. specialize (Hch (group c) p).
  destruct (process_message (group c) p) as [r g]. cbn in Hch |- *.
  rewrite Hch by (unfold epoch in *; lia). by eexists.
Qed.

(** C33: a resumption that is cut after the listener has sent its commit, and before the
    dialer has it, is not made up for.  The listener has settled and its file is an
    epoch ahead of the dialer's.  However they are scheduled every later attempt
    fails for the dialer, which keeps what it had, and one that the listener counts as
    a success leaves the listener ahead as before. *)
Theorem a_cut_resumption_lasts mh mg m ch m' cg :
  commits_have_bytes -> epochs_are_checked ->
  pending ch = None -> pending cg = None -> group_id cg = group_id ch -> epoch cg < epoch ch ->
  exists n rh e,
    comes_to n (host_resuming mh (Some (m, ch))) (join_resuming mg (Some (m', cg))) rh (Err e) /\
    (forall c, rh = Ok (Fresh c) -> False) /\ (forall m c, rh = Ok (Resumed m c) -> epoch cg < epoch c).
Proof.
  intros Hser Hch Hph Hpg Hid Hlt.
  enough (exists n rh e, lockstep 8 (host_resuming mh (Some (m, ch))) (join_resuming mg (Some (m', cg))) = Some (n, rh, Err e) /\
    (forall c, rh = Ok (Fresh c) -> False) /\ (forall m c, rh = Ok (Resumed m c) -> epoch cg < epoch c))
    as (n & rh & e & H & Hr).
  { exists n, rh, e. split; [|done]. by eapply lockstep_comes_to. }
  destruct hello_written as [w Hw]. unfold host_resuming, join_resuming. cbn.
  rewrite Hw, hello_checked. cbn. rewrite Hw, hello_checked. cbn.
  destruct (Wire.write (mkFrame Wire.Resume (group_id cg))) as [w1|]; cbn; [|by do 3 eexists].
  rewrite bool_decide_eq_true_2 by done. cbn.
  destruct (rekey_after_restore ch (signer m)) as [[l|] c1] eqn:Er; cbn; [|by do 3 eexists].
  destruct (Wire.write (mkFrame Wire.Resume l)); cbn; [|by do 3 eexists].
  destruct l as [|b l]; [by destruct (rekeyed_bytes _ _ _ _ Hser Er)|].
  destruct (rekeyed_epoch _ _ _ _ Hph Hch Er) as [He Hl].
  destruct (receive_ahead cg (b :: l) Hpg Hch) as [e Hrec]; [intros p Hp; rewrite (Hl p Hp); lia|].
  destruct (receive cg (b :: l)) as [r cg']. cbn in Hrec. subst r.
  destruct (settle c1) as [[x|e'] c2] eqn:Es; cbn; do 3 eexists; (split; [done|]); (split; [done|]); [|done].
  intros ? ? [= <- <-]. pose proof (settled_epoch _ _ _ Es). lia.
Qed.
End Agreement.

(** ** Two devices *)

Import Toy.
Import (hints) AtRest.AtRestExample Hybrid.HybridExample.

(** [ToyGroup] with a store that is the one group in it; a welcome is the group's epoch. *)
Module HandshakeExample.
Import ToyGroup.

Definition alone_at (n : Z) : t := mk n [] None [mkRow 0 [x01; x61] [x0a]].

(** One that makes no commit whose epoch does not fit the byte it is written in. *)
#[export] Instance mls : Mls := {|
  MlsGroup := t; Signer := byte; MessageIn := bytes; MessageOut := bytes; Protocol := bytes;
  Staged := bytes; Proposal := bytes; KeyPackage := bytes;
  signer_public b := [b];
  mls_epoch := at_;
  members := ToyGroup.rows;
  extensions _ := [];
  add_or_replace es e := e :: es;
  tls_deserialize := Some;
  tls_serialize := Some;
  into_protocol := Some;
  content_type := kind;
  protocol_epoch := of_epoch;
  process_message := process;
  add_proposals := adds;
  proposal_add l := Some (body l);
  pending_proposals _ := [];
  store_pending_proposal g _ := (Some tt, g);
  remove_pending_proposal g _ := (Some tt, g);
  merge_staged_commit g l := (Some tt, advance g l);
  merge_pending_commit g := (Some tt, match staged g with Some l => advance g l | None => g end);
  clear_pending_commit g := (Some tt, mk (at_ g) (applied g) None (ToyGroup.rows g));
  create_message g _ m := (Some m, g);
  add_members g _ k := let '(l, g) := stage g (xff :: k) in ((fun m => (m, k)) <$> l, g);
  propose_add_member g _ k := (Some k, g);
  commit_to_pending_proposals g _ := (None, g);
  remove_members g _ _ := (None, g);
  update_group_context_extensions g _ _ := (None, g);
  rekey_commit g _ := if (0 <=? at_ g) && (at_ g <? 256) then stage g [x03] else (None, g);
|}.

#[export] Instance epochs_grow : EpochsGrow.
Proof. split; intros; simpl; try lia; [destruct (staged g); simpl; lia|by case_match]. Qed.

#[export] Instance life : @MlsLife mls := {|
  Store := list t; KeyPackageIn := bytes; Welcome := bytes; RatchetTree := bytes;
  fresh_store := [];
  store_of g := [g];
  with_store g _ := g;
  store_signer st _ := Some st;
  new_group st _ _ := (Some (alone_at 0), st);
  build_key_package st _ credential _ := (Some credential, st);
  kp_serialize := Some;
  kp_deserialize := Some;
  kp_validate := Some;
  kp_suite_is_ours _ := true;
  welcome_of := Some;
  tree_deserialize := Some;
  group_from_welcome st w _ := (Some (mk 1 [w] None two), st);
  tree_serialize g := Some [z2b (at_ g)];
  mls_group_id _ := [x67];
  export_secret _ _ := None;
  psk_store g _ _ := (Some tt, g);
  psk_commit g _ _ _ := (None, g);
  load_group st _ := Some (head st);
  store_values _ := [];
  store_from _ := [];
  signer_to_bytes b := Some [b];
  signer_from_bytes l := head l;
  signer_sign _ _ := Some [];
|}.

#[export] Instance keys : @XWingStorage Hybrid.HybridExample.xwing :=
  @Build_XWingStorage Hybrid.HybridExample.xwing (fun k => ab k) (try_into 32) (fun k => k) (fun k => k).

Definition device (b : byte) : Member := mkMember [] b [x01; b] [b] (copy_from_slice 32 []).
Definition kept (n : Z) (b : byte) : Member * Conversation := (device b, opened (mk n [] None two) true).

Definition opening (sh sg : option (Member * Conversation)) : Session Opened :=
  begins (host_resuming (device x61) sh) (join_resuming (device x62) sg).

Definition epochs (r : Result Opened Fault) : Result Z Fault :=
  match r with Ok (Fresh c) | Ok (Resumed _ c) => Ok (epoch c) | Err e => Err e end.

Definition outcome (sh sg : option (Member * Conversation)) : option (nat * Result Z Fault * Result Z Fault) :=
  '(n, rh, rg) ← lockstep 8 (host_resuming (device x61) sh) (join_resuming (device x62) sg);
  Some (n, epochs rh, epochs rg).

Example neither_has_one : outcome None None = Some (8%nat, Ok 1, Ok 1).
Proof. vm_compute. reflexivity. Qed.
Example only_the_dialer_has_one : outcome None (Some (kept 5 x62)) = Some (12%nat, Ok 1, Ok 1).
Proof. vm_compute. reflexivity. Qed.
Example both_carry_on : outcome (Some (kept 5 x61)) (Some (kept 5 x62)) = Some (8%nat, Ok 6, Ok 6).
Proof. vm_compute. reflexivity. Qed.
Example the_dialer_is_behind : outcome (Some (kept 6 x61)) (Some (kept 5 x62)) = Some (8%nat, Ok 7, Err (OfGroup MlsFailed)).
Proof. vm_compute. reflexivity. Qed.

(** The listener is done, at the sixth epoch, and what it sent is still on its way. *)
Example a_cut_happens :
  exists s m c, rtc turn (opening (Some (kept 5 x61)) (Some (kept 5 x62))) s /\
    here s = Done (Ok (Resumed m c)) /\ epoch c = 6 /\ length (to_there s) = 1%nat.
Proof.
  do 3 eexists. split; [eapply (follow_turns [There; Here; Here; There; There; Here; Here]); reflexivity|].
  split; [reflexivity|]. by split.
Qed.

Lemma commits : commits_have_bytes.
Proof. intros g by_ o g' l. cbn. case_match; [|done]. by intros [= <- <-] [= <-]. Qed.

Lemma checked : epochs_are_checked.
Proof.
  split.
  - intros g by_ o g' l p. cbn. destruct (Z.leb_spec 0 (at_ g)), (Z.ltb_spec (at_ g) 256); cbn; try done.
    intros [= <- <-] [= <-] [= <-].
    change (b2z (z2b (at_ g)) = at_ g). apply b2z_z2b_small. lia.
  - intros g p. cbn. unfold process. by destruct (Z.eqb_spec (of_epoch p) (at_ g)).
Qed.
End HandshakeExample.

Import HandshakeExample.

Lemma openings_agree_witness :
  exists n rh rg,
    (n <= 16)%nat /\ comes_to n (host_resuming (device x61) None) (join_resuming (device x62) (Some (kept 5 x62))) rh rg /\
    together (device x61) (device x62) None (Some (kept 5 x62)) rh rg.
Proof. apply (openings_agree (ML := mls) (LF := life)). exact commits. Defined.

Lemma a_cut_resumption_lasts_witness :
  exists n rh e,
    comes_to n (host_resuming (device x61) (Some (kept 6 x61))) (join_resuming (device x62) (Some (kept 5 x62))) rh (Err e) /\
    (forall c, rh = Ok (Fresh c) -> False) /\ (forall m c, rh = Ok (Resumed m c) -> 5 < epoch c).
Proof.
  apply (a_cut_resumption_lasts (ML := mls) (LF := life) (device x61) (device x62) (kept 6 x61).1 (kept 6 x61).2
    (kept 5 x62).1 (kept 5 x62).2 commits checked); reflexivity.
Defined.
