(* ===== verification/ClientSession.v ===== *)
(** * A client's session

    [Session] of [crates/rotelyx-wasm/src/lib.rs], what every client is built on: a
    [Member] with at most one [Conversation], the mailbox keys of the last epochs, and
    what is sealed to whom.  [GroupLife] and [Group] are the crate under it and
    [Envelope] the envelopes.

    Base64 text is bytes.  Where the code answers JSON made of names, numbers and
    labels, the answer here is the value it is written from ([Told]).  Nonces and
    secrets drawn at random are arguments. *)

From S2P Require Import Prelude Crypto Envelope Capability Hex Group GroupLife Text.
From S2P Require Session AtRest Hybrid MediaFrame Forward.
Import Session (FrameBase64, frame_encode, frame_decode, FrameBase64Laws).
Import Hybrid (XWing, PublicKey, SecretKey, encapsulate, CIPHERTEXT_LEN, Ed25519, HybridError,
  wrapped_to_bytes, wrapped_from_bytes).
Import AtRest (Argon2, argon2id, header).

Definition TAG_EPOCH_MEMORY : nat := 3.
Definition MAX_MEMBERS : Z := 1000.

(** Why something was not done, in place of the words of the message. *)
Inductive Error :=
| NotBase64 | NoConversation | AlreadyHasConversation | Full | AdmitsNobody
| NoTagKey | NoPreviousEpoch | NothingStaged | AlreadyStaged | KeyForEveryMember
| NotInWindow | NotUnderAnyKey | NotUtf8 | NoMemberCalled (label : bytes)
| NotInRoster | SeatPastTheCall (seat : Z)
| OfGroup (e : GroupError) | OfHybrid (e : HybridError) | OfEnvelope (e : EnvelopeError)
| OfMedia (e : MediaFrame.MediaError) | NotATag | NotASession | TooShortToBeSealed | FormatVersion (found : byte) | WrongKeyOrAltered
| SealingFailed | DerivingFailed | ShortPassphrase | PlatformKeyLength | Encoding
| ShortPhrase | NotACode | CodeLength | CodeLetters | NoRandomness.

Definition decode `{FB : FrameBase64} (s : bytes) : Result bytes Error :=
  ok_or NotBase64 (frame_decode (trim s)).

Definition label (identity : bytes) : bytes := from_utf8_lossy identity.

Definition binding_id (id : bytes) (e : Z) : bytes := id ++ be_bytes 8 e.

Record Invitation := mkInvitation { commit : bytes; welcome : bytes; inv_tree : bytes }.

(** What [receive] answers. *)
Inductive Told :=
| TMessage (text : rstring) (from : option (bytes * bytes))
| TMembership (added removed : list bytes) (members : Z) (by_ : option bytes)
| TProposed (by_ : option bytes) (joining : list bytes)
| TSuperseded (change : option (list bytes * list bytes * Z))
| TNothing
| TRefused (why : GroupError).

(** [Vec::dedup] after a sort. *)
Fixpoint dedup (l : list bytes) : list bytes :=
  match l with
  | x :: (y :: _) as k => if bool_decide (x = y) then dedup k else x :: dedup k
  | _ => l
  end.

(** [join(" ")] of what [f] makes of each. *)
Definition bytes_join {A} (f : A -> bytes) (l : list A) : bytes :=
  match l with
  | [] => []
  | x :: l => f x ++ (l ≫= (fun y => SPACE :: f y))
  end.

Section Session.
Context `{BL : Blake3, BH : Blake3Hash, AE : Aead, ED : Ed25519, FB : FrameBase64, HK : Hkdf}.
Context `{ML : Mls, LF : @MlsLife ML, XW : XWing, XS : @XWingStorage XW}.

(** A member's store is the conversation's once there is one. *)
Record CSession := mkSession {
  member : Member;
  conversation : option Conversation;
  tag_keys : list (Z * arr 32);
  pending_pq : option (arr 32);
  staged_pq : list bytes;
}.

Definition with_conversation (s : CSession) (c : Conversation) : CSession :=
  mkSession (member s) (Some c) (tag_keys s) (pending_pq s) (staged_pq s).
Definition with_member (s : CSession) (m : Member) : CSession :=
  mkSession m (conversation s) (tag_keys s) (pending_pq s) (staged_pq s).
Definition with_tag_keys (s : CSession) (k : list (Z * arr 32)) : CSession :=
  mkSession (member s) (conversation s) k (pending_pq s) (staged_pq s).
Definition with_pending_pq (s : CSession) (p : option (arr 32)) : CSession :=
  mkSession (member s) (conversation s) (tag_keys s) p (staged_pq s).
Definition with_staged_pq (s : CSession) (l : list bytes) : CSession :=
  mkSession (member s) (conversation s) (tag_keys s) (pending_pq s) l.

Definition store (s : CSession) : Store :=
  match conversation s with Some c => store_of (group c) | None => m_store (member s) end.

(** A step of the conversation, when there is one. *)
Definition in_group {A} (s : CSession) (op : Conversation -> Result A GroupError * Conversation)
    : Result A Error * CSession :=
  match conversation s with
  | None => (Err NoConversation, s)
  | Some c => let '(r, c) := op c in (map_err OfGroup r, with_conversation s c)
  end.

(** ** Beginning *)

Definition for_device (generated : option Signer) (sk : SecretKey) (person dev : bytes) : Result CSession Error :=
  let? m := map_err OfGroup (member_for_device generated sk person dev) in
  Ok (mkSession m None [] None []).

Definition new (generated : option Signer) (sk : SecretKey) (name : bytes) : Result CSession Error :=
  for_device generated sk name [].

Definition key_package (s : CSession) : Result bytes Error * CSession :=
  let '(r, st) := member_key_package (member s) (store s) in
  let s :=
    match conversation s with
    | None => with_member s (with_m_store (member s) st)
    | Some c => with_conversation s (with_group c (with_store (group c) st))
    end in
  ((let? kp := map_err OfGroup r in
    let? l := map_err OfGroup (serialize_key_package kp) in Ok (frame_encode l)), s).

Definition hybrid_public_key_text (s : CSession) : bytes := frame_encode (pk_to_bytes (hybrid_public_key (member s))).

Definition found (s : CSession) : Result unit Error * CSession :=
  match conversation s with
  | Some _ => (Err AlreadyHasConversation, s)
  | None =>
      match create (member s) with
      | (Ok c, st) => (Ok tt, with_conversation (with_member s (with_m_store (member s) st)) c)
      | (Err e, st) => (Err (OfGroup e), with_member s (with_m_store (member s) st))
      end
  end.

Definition session_epoch (s : CSession) : Z := from_option epoch 0 (conversation s).
Definition session_member_count (s : CSession) : Z := from_option member_count 0 (conversation s).
Definition holding (s : CSession) : bool := from_option is_holding_a_commit false (conversation s).

(** ** The mailbox keys of the last epochs *)

Definition sync_tag_keys (s : CSession) : Result unit Error * CSession :=
  let e := session_epoch s in
  if bool_decide (fst <$> last (tag_keys s) = Some e) then (Ok tt, s)
  else
    match conversation s with
    | None => (Err NoConversation, s)
    | Some c =>
        match mailbox_tag_key c with
        | Err x => (Err (OfGroup x), s)
        | Ok key =>
            let keys := tag_keys s ++ [(e, key)] in
            (Ok tt, with_tag_keys s (if (TAG_EPOCH_MEMORY <? length keys)%nat then drop 1 keys else keys))
        end
    end.

Definition tag_key (s : CSession) : Result (arr 32) Error := ok_or NoTagKey (snd <$> last (tag_keys s)).

Definition my_tags (s : CSession) (now lookback : Z) : Result (list Tag) Error :=
  match tag_keys s with
  | [] => Err NoTagKey
  | keys =>
      let mine := member_signature_key (member s) in
      Ok (keys ≫= (fun k => polling_tags (for_member k.2 mine) now lookback))
  end.

(** ** Who is in it *)

Definition read_key_package (l : bytes) : Result KeyPackage Error :=
  let? raw := decode l in map_err OfGroup (deserialize_key_package raw).

Definition lift {A} (r : Result A Error) (s : CSession) : Result A Error * CSession := (r, s).

(** What a commit that admits somebody is handed over with. *)
Definition hand_over (s : CSession) (commit welcome : bytes) : Result Invitation Error * CSession :=
  let! (_, s) := in_group s (fun c => settle c) in
  let! (tree, s) := in_group s (fun c => (ratchet_tree c, c)) in
  let! (_, s) := sync_tag_keys s in
  (Ok (mkInvitation (frame_encode commit) (frame_encode welcome) (frame_encode tree)), s).

Definition invite (s : CSession) (key_package_b64 : bytes) : Result Invitation Error * CSession :=
  if MAX_MEMBERS <=? session_member_count s then (Err Full, s)
  else
    let! (kp, s) := lift (read_key_package key_package_b64) s in
    let! (m, s) := in_group s (fun c => Group.invite c (signer (member s)) kp) in
    hand_over s m.1 m.2.

Definition propose (s : CSession) (key_package_b64 : bytes) : Result bytes Error * CSession :=
  if MAX_MEMBERS <=? session_member_count s then (Err Full, s)
  else
    let! (kp, s) := lift (read_key_package key_package_b64) s in
    let! (l, s) := in_group s (fun c => propose_invite c (signer (member s)) kp) in
    (Ok (frame_encode l), s).

(** The commit is applied before it is asked whether there is a welcome. *)
Definition confirm (s : CSession) : Result Invitation Error * CSession :=
  let! (m, s) := in_group s (fun c => confirm_additions c (signer (member s))) in
  let! (_, s) := in_group s (fun c => settle c) in
  match m.2 with
  | None => (Err AdmitsNobody, s)
  | Some w =>
      let! (tree, s) := in_group s (fun c => (ratchet_tree c, c)) in
      let! (_, s) := sync_tag_keys s in
      (Ok (mkInvitation (frame_encode m.1) (frame_encode w) (frame_encode tree)), s)
  end.

Definition session_join (s : CSession) (welcome_b64 tree_b64 : bytes) : Result unit Error * CSession :=
  match conversation s with
  | Some _ => (Err AlreadyHasConversation, s)
  | None =>
      let! (w, s) := lift (decode welcome_b64) s in
      let! (t, s) := lift (decode tree_b64) s in
      match join (member s) w t with
      | (Err e, st) => (Err (OfGroup e), with_member s (with_m_store (member s) st))
      | (Ok c, st) => sync_tag_keys (with_conversation (with_member s (with_m_store (member s) st)) c)
      end
  end.

Definition session_settle (s : CSession) : Result bool Error * CSession :=
  let! (settled, s) := in_group s (fun c => settle c) in
  if settled : bool then let! (_, s) := sync_tag_keys s in (Ok settled, s) else (Ok settled, s).

Definition session_admins (s : CSession) : Result (list bytes) Error :=
  let? c := ok_or NoConversation (conversation s) in Ok (label <$> admins (group c)).

(** Each name is looked for among the labels of the roster. *)
Fixpoint admins_named (r : list Participant) (wanted : list bytes) (named : list bytes) : Result (list bytes) Error :=
  match wanted with
  | [] => Ok named
  | w :: wanted =>
      match List.find (fun p => well_formed p && bool_decide (label (identity p) = w)) r with
      | None => Err (NoMemberCalled w)
      | Some p => admins_named r wanted (if bool_decide (identity p ∈ named) then named else named ++ [identity p])
      end
  end.

Definition session_set_admins (s : CSession) (wanted : list bytes) : Result bytes Error * CSession :=
  match conversation s with
  | None => (Err NoConversation, s)
  | Some c =>
      let! (named, s) := lift (admins_named (roster (group c)) wanted []) s in
      let! (l, s) := in_group s (fun c => set_admins c (signer (member s)) named) in
      let! (_, s) := sync_tag_keys s in
      (Ok (frame_encode l), s)
  end.

Definition remove_member (s : CSession) (key_b64 : bytes) : Result bytes Error * CSession :=
  let! (key, s) := lift (decode key_b64) s in
  let! (l, s) := in_group s (fun c => remove c (signer (member s)) key) in
  (Ok (frame_encode l), s).

Definition session_roster (s : CSession) : Result (list bytes) Error :=
  let? c := ok_or NoConversation (conversation s) in
  Ok ((fun p => from_utf8_lossy (identity p)) <$> roster (group c)).

(** Label, key and device. *)
Definition roster_detail (s : CSession) : Result (list (bytes * bytes * bytes)) Error :=
  let? c := ok_or NoConversation (conversation s) in
  Ok ((fun p => (from_utf8_lossy (identity p), frame_encode (signature_key p), from_utf8_lossy (device p)))
        <$> roster (group c)).

Definition session_group_id (s : CSession) : Result bytes Error :=
  let? c := ok_or NoConversation (conversation s) in Ok (hex_lower (group_id c)).

(** [Iterator::position]. *)
Definition seat_index (s : CSession) : Result nat Error :=
  let? c := ok_or NoConversation (conversation s) in
  ok_or NotInRoster
    (position (fun p => bool_decide (signature_key p = member_signature_key (member s))) (roster (group c))).

Definition session_media_base_key (s : CSession) : Result (arr 32) Error :=
  let? c := ok_or NoConversation (conversation s) in map_err OfGroup (media_base_key c).

Definition room_join (s : CSession) (call : bytes) : Result bytes Error :=
  let? binding := map_err OfMedia (MediaFrame.call_binding_new call) in
  let? seat := seat_index s in
  if MediaFrame.MAX_SENDERS <=? Z.of_nat seat then Err (SeatPastTheCall (Z.of_nat seat))
  else Ok (frame_encode (Forward.join_datagram (Forward.room_for binding) (z2b (Z.of_nat seat)))).

(** ** The post-quantum secret *)

Definition hybrid_key (b64 : bytes) : Result PublicKey Error :=
  let? raw := decode b64 in ok_or (OfHybrid Hybrid.BadPublicKey) (pk_from_bytes raw).

(** [random] is what the encapsulation drew. *)
Definition encapsulate_to (s : CSession) (key_b64 random : bytes) : Result bytes Error * CSession :=
  let! (pk, s) := lift (hybrid_key key_b64) s in
  let '(ct, secret) := encapsulate pk random in
  (Ok (frame_encode (ab ct)), with_pending_pq s (Some secret)).

Definition open_pq (s : CSession) (ciphertext_b64 : bytes) : Result unit Error * CSession :=
  let! (raw, s) := lift (decode ciphertext_b64) s in
  let! (ct, s) := lift (ok_or (OfHybrid Hybrid.BadCiphertext) (try_into CIPHERTEXT_LEN raw)) s in
  let secret := member_open_pq (member s) ct in
  in_group s (fun c => stage_pq_secret c secret).

(** One wrap for each other member, in the order of the roster. *)
Fixpoint wrap_each (m : Member) (secret : arr 32) (id : bytes) (at_ : Z) (draws : nat -> bytes * arr 24)
    (k : nat) (keys recipients : list bytes) : Result (list bytes) Error :=
  match keys, recipients with
  | encoded :: keys, recipient :: recipients =>
      let? pk := hybrid_key encoded in
      let? w := map_err OfHybrid
        (wrap_group_pq_signed m secret pk id at_ recipient (draws k).1 (draws k).2) in
      let? rest := wrap_each m secret id at_ draws (S k) keys recipients in
      Ok (frame_encode (wrapped_to_bytes w) :: rest)
  | _, _ => Ok []
  end.

Definition others (s : CSession) (c : Conversation) : list bytes :=
  retain (fun k => negb (bool_decide (k = member_signature_key (member s)))) (signature_key <$> roster (group c)).

(** [secret] and [draws] are what was drawn. *)
Definition begin_group_pq (s : CSession) (keys : list bytes) (secret : arr 32) (draws : nat -> bytes * arr 24)
    : Result (list bytes) Error * CSession :=
  match conversation s with
  | None => (Err NoConversation, s)
  | Some c =>
      if negb (length (others s c) =? length keys)%nat then (Err KeyForEveryMember, s)
      else
        match wrap_each (member s) secret (group_id c) (epoch c) draws 0 keys (others s c) with
        | Err e => (Err e, s)
        | Ok wrapped => (Ok wrapped, with_pending_pq s (Some secret))
        end
  end.

Definition open_group_pq (s : CSession) (wrapped_b64 : bytes) : Result unit Error * CSession :=
  let! (raw, s) := lift (decode wrapped_b64) s in
  let! (w, s) := lift (map_err OfHybrid (wrapped_from_bytes raw)) s in
  match conversation s with
  | None => (Err NoConversation, s)
  | Some c =>
      let! (secret, s) := lift (map_err OfHybrid
        (unwrap_group_pq_from_member (member s) w (group_id c) (epoch c) (signature_key <$> roster (group c)))) s in
      if bool_decide (binding_id (group_id c) (epoch c) ∈ staged_pq s) then (Err AlreadyStaged, s)
      else
        let! (_, s) := in_group s (fun c => stage_pq_secret c secret) in
        (Ok tt, with_staged_pq s (staged_pq s ++ [binding_id (group_id c) (epoch c)]))
  end.

(** The secret is taken before it is asked whether there is a conversation. *)
Definition commit_pq (s : CSession) (nonce : option (arr 32)) : Result bytes Error * CSession :=
  match pending_pq s with
  | None => (Err NothingStaged, s)
  | Some secret =>
      let s := with_pending_pq s None in
      let! (l, s) := in_group s (fun c => commit_pq_secret c (signer (member s)) secret nonce) in
      let! (_, s) := sync_tag_keys s in
      (Ok (frame_encode l), s)
  end.

(** ** Messages *)

Definition session_send (s : CSession) (text : rstring) : Result bytes Error * CSession :=
  let! (l, s) := in_group s (fun c => Group.send c (signer (member s)) (rs text)) in
  (Ok (frame_encode l), s).

Definition labels (l : list Participant) : list bytes := (fun p => label (identity p)) <$> l.

(** What is told of what was received, in the conversation as it then is. *)
Definition tell (s : CSession) (r : Received) : Result Told Error :=
  match r with
  | Message sender body =>
      let? text := ok_or NotUtf8 (from_utf8 body) in
      let who := i ← sender; c ← conversation s; participant_at (group c) i in
      Ok (TMessage text ((fun p => (from_utf8_lossy (identity p), frame_encode (signature_key p))) <$> who))
  | MembershipChanged ch =>
      Ok (TMembership (labels (ch_added ch)) (labels (ch_removed ch)) (session_member_count s)
            ((fun p => label (identity p)) <$> ch_by ch))
  | AdditionProposed by_ joining => Ok (TProposed ((fun p => label (identity p)) <$> by_) (labels joining))
  | OurCommitLost (MembershipChanged ch) =>
      Ok (TSuperseded (Some (labels (ch_added ch), labels (ch_removed ch), session_member_count s)))
  | OurCommitLost _ => Ok (TSuperseded None)
  | TheirCommitLost | Nothing => Ok TNothing
  end.

Definition session_receive (s : CSession) (message_b64 : bytes) : Result Told Error * CSession :=
  let! (l, s) := lift (decode message_b64) s in
  match conversation s with
  | None => (Err NoConversation, s)
  | Some c =>
      let '(outcome, c) := receive c l in
      let s := with_conversation s c in
      match outcome with
      | Err ((AddedWithoutASecondMember | AddedBySomebodyWhoIsNotAnAdmin) as refusal) => (Ok (TRefused refusal), s)
      | Err other => (Err (OfGroup other), s)
      | Ok outcome =>
          let! (_, s) := sync_tag_keys s in
          (tell s outcome, s)
      end
  end.

(** ** Envelopes *)

(** One envelope for each other member of the roster, each under that member's tag
    for the hour; [nonces] is what was drawn for each. *)
Fixpoint seal_each (key : arr 32) (mine plaintext : bytes) (now : Z) (nonces : nat -> option (arr NONCE_LEN))
    (k : nat) (r : list Participant) : Result (list bytes) Error :=
  match r with
  | [] => Ok []
  | p :: r =>
      if bool_decide (signature_key p = mine) then seal_each key mine plaintext now nonces k r
      else
        let tag := tag_for_epoch (for_member key (signature_key p)) now in
        let? sealed := map_err OfEnvelope (payload_seal (payload_key key) (nonces k) (Some tag) plaintext) in
        let? e := map_err OfEnvelope (envelope_seal tag sealed) in
        let? rest := seal_each key mine plaintext now nonces (S k) r in
        Ok (frame_encode (envelope_to_bytes e) :: rest)
  end.

Definition seal_with (s : CSession) (key : arr 32) (payload_b64 : bytes) (now : Z)
    (nonces : nat -> option (arr NONCE_LEN)) : Result (list bytes) Error :=
  let? c := ok_or NoConversation (conversation s) in
  let? plaintext := decode payload_b64 in
  seal_each key (member_signature_key (member s)) plaintext now nonces 0 (roster (group c)).

Definition seal_for_group (s : CSession) (ciphertext_b64 : bytes) (now : Z)
    (nonces : nat -> option (arr NONCE_LEN)) : Result (list bytes) Error :=
  let? _ := ok_or NoConversation (conversation s) in
  let? key := tag_key s in
  seal_with s key ciphertext_b64 now nonces.

(** The key of the epoch before, where whoever has not applied a commit still is. *)
Definition previous_key (s : CSession) : Result (arr 32) Error :=
  if (length (tag_keys s) <? 2)%nat then Err NoPreviousEpoch
  else ok_or NoPreviousEpoch (snd <$> tag_keys s !! (length (tag_keys s) - 2)%nat).

(** A commit still held has moved nobody: the current epoch is where all are. *)
Definition seal_commit_for_group (s : CSession) (commit_b64 : bytes) (now : Z)
    (nonces : nat -> option (arr NONCE_LEN)) : Result (list bytes) Error :=
  let? key :=
    if holding s then ok_or NoConversation (snd <$> last (tag_keys s)) else previous_key s in
  seal_with s key commit_b64 now nonces.

Definition tags_with (s : CSession) (key : arr 32) (now : Z) : Result (list bytes) Error :=
  let? c := ok_or NoConversation (conversation s) in
  let mine := member_signature_key (member s) in
  Ok ((fun p => hex_lower (ab (tag_for_epoch (for_member key (signature_key p)) now))) <$>
        retain (fun p => negb (bool_decide (signature_key p = mine))) (roster (group c))).

Definition recipient_tags (s : CSession) (now : Z) : Result (list bytes) Error :=
  let? key := tag_key s in tags_with s key now.

Definition commit_recipient_tags (s : CSession) (now : Z) : Result (list bytes) Error :=
  let? key := previous_key s in tags_with s key now.

(** The keys are tried newest first, bound to the tag and then unbound. *)
Fixpoint open_any (keys : list (Z * arr 32)) (tag : Tag) (sealed : bytes) : Result bytes Error :=
  match keys with
  | [] => Err NotUnderAnyKey
  | (_, key) :: keys =>
      let pk := payload_key key in
      match payload_open pk (Some tag) sealed with
      | Ok plain => Ok (frame_encode plain)
      | Err _ =>
          match payload_open pk None sealed with
          | Ok plain => Ok (frame_encode plain)
          | Err _ => open_any keys tag sealed
          end
      end
  end.

Definition read_envelope (envelope_b64 : bytes) : Result Envelope Error :=
  let? raw := decode envelope_b64 in map_err OfEnvelope (envelope_from_bytes raw).

Definition open_mine (s : CSession) (envelope_b64 : bytes) (now lookback : Z) : Result bytes Error :=
  let? e := read_envelope envelope_b64 in
  let? tags := my_tags s now lookback in
  if negb (bool_decide (env_tag e ∈ tags)) then Err NotInWindow
  else open_any (reverse (tag_keys s)) (env_tag e) (payload e).

(** The pair that shares one tag. *)
Definition session_seal (s : CSession) (ciphertext_b64 : bytes) (now : Z) (nonce : option (arr NONCE_LEN))
    : Result bytes Error :=
  let? key := tag_key s in
  let tag := tag_for_epoch key now in
  let? plaintext := decode ciphertext_b64 in
  let? sealed := map_err OfEnvelope (payload_seal (payload_key key) nonce (Some tag) plaintext) in
  let? e := map_err OfEnvelope (envelope_seal tag sealed) in
  Ok (frame_encode (envelope_to_bytes e)).

Definition session_open (s : CSession) (envelope_b64 : bytes) (now lookback : Z) : Result bytes Error :=
  let? e := read_envelope envelope_b64 in
  let? key := tag_key s in
  if negb (bool_decide (env_tag e ∈ polling_tags key now lookback)) then Err NotInWindow
  else open_any (reverse (tag_keys s)) (env_tag e) (payload e).

Definition padded_payload (s : CSession) (ciphertext_b64 : bytes) (nonce : option (arr NONCE_LEN))
    : Result bytes Error :=
  let? key := tag_key s in
  let? plaintext := decode ciphertext_b64 in
  let? sealed := map_err OfEnvelope (payload_seal (payload_key key) nonce None plaintext) in
  let? e := map_err OfEnvelope (envelope_seal (copy_from_slice 32 (replicate 32 zero_byte)) sealed) in
  Ok (frame_encode (payload e)).

Definition my_tag (s : CSession) (now : Z) : Result bytes Error :=
  let? key := tag_key s in
  Ok (hex_lower (ab (tag_for_epoch (for_member key (member_signature_key (member s))) now))).

Definition my_polling_tags (s : CSession) (now lookback : Z) : Result (list bytes) Error :=
  let? tags := my_tags s now lookback in
  Ok (dedup (sort_by bytes_le ((fun t => hex_lower (ab t)) <$> tags))).

Definition tag_for (s : CSession) (now : Z) : Result bytes Error :=
  let? key := tag_key s in Ok (hex_lower (ab (tag_for_epoch key now))).

Definition session_polling_tags (s : CSession) (now lookback : Z) : Result (list bytes) Error :=
  let? key := tag_key s in Ok ((fun t => hex_lower (ab t)) <$> polling_tags key now lookback).

(** ** Coming back *)

Definition session_trust_restored_state (s : CSession) : Result unit Error * CSession :=
  in_group s (fun c => (Ok tt, trust_restored_state c)).

Definition needs_rekey_after_restore (s : CSession) : bool := from_option needs_rekey false (conversation s).

Definition session_rekey_after_restore (s : CSession) : Result bytes Error * CSession :=
  let! (l, s) := in_group s (fun c => Group.rekey_after_restore c (signer (member s))) in
  let! (_, s) := sync_tag_keys s in
  (Ok (frame_encode l), s).

(** ** A session sealed *)

Record SessionState := mkState {
  st_member : MemberState;
  st_group_id : option bytes;
  st_tag_keys : list (Z * arr 32);
}.

(** [postcard]. *)
Class StateFormat := {
  state_to_bytes : SessionState -> option bytes;
  state_from_bytes : bytes -> option SessionState;
}.
Class StateFormatLaws `(StateFormat) : Prop :=
  state_read_written : forall st l, state_to_bytes st = Some l -> state_from_bytes l = Some st.

Definition SEAL_MAGIC : bytes := String.list_byte_of_string "ROTELYXS".
Definition SEAL_VERSION : byte := x01.
Definition SEAL_HEADER_LEN : nat := 8 + 1 + 16 + 24.

Record SessionKey := mkSessionKey { sk_key : arr 32; sk_salt : arr 16 }.

(** *** Keys *)

Context `{KD : Argon2}.

Definition seal_key (passphrase : bytes) (salt : arr 16) : Result (arr 32) Error :=
  ok_or DerivingFailed (argon2id passphrase (ab salt)).

Definition sessionkey_create (passphrase : bytes) (salt : option (arr 16)) : Result SessionKey Error :=
  if zlen passphrase <? 8 then Err ShortPassphrase
  else
    let? salt := ok_or NoRandomness salt in
    let? key := seal_key passphrase salt in
    Ok (mkSessionKey key salt).

Definition from_platform_key (key : bytes) (salt : option (arr 16)) : Result SessionKey Error :=
  let? key := ok_or PlatformKeyLength (try_into 32 key) in
  let? salt := ok_or NoRandomness salt in
  Ok (mkSessionKey key salt).

(** The salt in the header of something sealed. *)
Definition salt_of (blob_b64 : bytes) : Result (arr 16) Error :=
  let? raw := decode blob_b64 in
  if zlen raw <? 25 then Err TooShortToBeSealed
  else if negb (bool_decide (take 8 raw = SEAL_MAGIC)) then Err NotASession
  else ok_or NotASession (try_into 16 (slice raw 9 25)).

Definition unlock_with_platform_key (key blob_b64 : bytes) : Result SessionKey Error :=
  let? key := ok_or PlatformKeyLength (try_into 32 key) in
  let? salt := salt_of blob_b64 in
  Ok (mkSessionKey key salt).

Definition unlock (passphrase blob_b64 : bytes) : Result SessionKey Error :=
  let? salt := salt_of blob_b64 in
  let? key := seal_key passphrase salt in
  Ok (mkSessionKey key salt).

(** *** Bytes under a key *)

Definition seal_bytes (k : SessionKey) (plain : bytes) (nonce : option (arr 24)) : Result bytes Error :=
  let? nonce := ok_or NoRandomness nonce in
  let h := header SEAL_MAGIC SEAL_VERSION (sk_salt k) nonce in
  let? sealed := ok_or SealingFailed (aead_seal (ab (sk_key k)) (ab nonce) h plain) in
  Ok (h ++ sealed).

Definition open_bytes (k : SessionKey) (raw : bytes) : Result bytes Error :=
  if zlen raw <? Z.of_nat (SEAL_HEADER_LEN + 16) then Err TooShortToBeSealed
  else
    let h := take SEAL_HEADER_LEN raw in
    if negb (bool_decide (take 8 h = SEAL_MAGIC)) then Err NotASession
    else
      let version := default zero_byte (h !! 8%nat) in
      if negb (bool_decide (version = SEAL_VERSION)) then Err (FormatVersion version)
      else
        ok_or WrongKeyOrAltered
          (aead_open (ab (sk_key k)) (drop 25 h) h (drop SEAL_HEADER_LEN raw)).

Definition seal_blob (k : SessionKey) (data_b64 : bytes) (nonce : option (arr 24)) : Result bytes Error :=
  let? raw := decode data_b64 in
  let? sealed := seal_bytes k raw nonce in
  Ok (frame_encode sealed).

Definition open_blob (k : SessionKey) (blob_b64 : bytes) : Result bytes Error :=
  let? raw := decode blob_b64 in
  let? plain := open_bytes k raw in
  Ok (frame_encode plain).

(** *** The session *)

Context `{SF : StateFormat}.

Definition seal_session (s : CSession) (k : SessionKey) (nonce : option (arr 24)) : Result bytes Error :=
  let? m := map_err OfGroup (member_export (member s) (store s)) in
  let? plain := ok_or Encoding (state_to_bytes (mkState m (group_id <$> conversation s) (tag_keys s))) in
  let? sealed := seal_bytes k plain nonce in
  Ok (frame_encode sealed).

Definition unseal_session (blob_b64 : bytes) (k : SessionKey) : Result CSession Error :=
  let? raw := decode blob_b64 in
  let? plain := open_bytes k raw in
  let? st := ok_or Encoding (state_from_bytes plain) in
  let? m := map_err OfGroup (member_restore (st_member st)) in
  let? c := match st_group_id st with
            | Some id => map_err OfGroup (reopen m id)
            | None => Ok None
            end in
  Ok (mkSession m c (st_tag_keys st) None []).

(** ** Numbers to compare *)

Definition SAFETY_CONTEXT : string := "rotelyx conversation fingerprint v2".
Definition CONFIRMATION_CONTEXT : string := "rotelyx device confirmation v1".

(** [format!("{:05}", n % 100_000)] of five bytes. *)
Definition group_of_five (l : bytes) : bytes :=
  let n := be_value l mod 100000 in
  digit <$> [n / 10000; n / 1000 mod 10; n / 100 mod 10; n / 10 mod 10; n mod 10].

Definition in_fives (l : bytes) (k : nat) : bytes :=
  bytes_join (fun i => group_of_five (slice l (5 * i) (5 * i + 5))) (seq 0 k).

(** The keys of the roster, sorted and without repetitions, each after its length
    in thirty-two bits. *)
Definition safety_input (keys : list bytes) : bytes :=
  dedup (sort_by bytes_le keys) ≫= (fun k => be_bytes 4 (zlen k) ++ k).

Definition safety_number (s : CSession) : Result bytes Error :=
  let? c := ok_or NoConversation (conversation s) in
  Ok (in_fives (take 30 (ab (blake3_derive SAFETY_CONTEXT (safety_input (signature_key <$> roster (group c)))))) 6).

Definition device_confirmation (key_package_b64 : bytes) : Result bytes Error :=
  let? raw := decode key_package_b64 in
  match raw with
  | [] => Err Encoding
  | _ => Ok (in_fives (take 15 (ab (blake3_derive CONFIRMATION_CONTEXT (be_bytes 8 (zlen raw) ++ raw)))) 3)
  end.

End Session.
