(* ===== verification/SessionFacts.v ===== *)
(** * What a client's session keeps

    The theorems about [ClientSession]: who can open what is sealed for the group, the
    mailbox keys held after anything a client does, a session sealed and opened again,
    and the numbers two people compare. *)

From S2P Require Import Prelude Crypto Envelope Capability Hex Group GroupLife Text ClientSession.
From S2P Require Session AtRest Hybrid DeviceStore.
Import Session (FrameBase64, frame_encode, frame_decode, FrameBase64Laws).
Import Hybrid (XWing, SecretKey, Ed25519).
Import AtRest (Argon2, argon2id, header).

(** Base64 text holds no white space. *)
Class Base64Trim `(FrameBase64) : Prop := frame_trim l : trim (frame_encode l) = frame_encode l.

Section Addressing.
Context `{BL : Blake3, BH : Blake3Hash, AE : Aead, ED : Ed25519, FB : FrameBase64}.
Context `{AL : !AeadLaws AE, FL : !FrameBase64Laws FB, FT : !Base64Trim FB}.
Context `{ML : Mls, LF : @MlsLife ML, XW : XWing, XS : @XWingStorage XW}.

Lemma decode_frame l : decode (frame_encode l) = Ok l.
Proof. unfold decode. by rewrite frame_trim, FL. Qed.

Lemma seal_each_spec key mine m now nonces k r es :
  seal_each key mine m now nonces k r = Ok es ->
  let rest := retain (fun p => negb (bool_decide (signature_key p = mine))) r in
  length es = length rest /\
  forall i p, rest !! i = Some p ->
    exists n sealed e, nonces (k + i)%nat = Some n /\
      payload_seal (payload_key key) (Some n) (Some (tag_for_epoch (for_member key (signature_key p)) now)) m = Ok sealed /\
      envelope_seal (tag_for_epoch (for_member key (signature_key p)) now) sealed = Ok e /\
      es !! i = Some (frame_encode (envelope_to_bytes e)).
Proof.
  revert k es. induction r as [|q r IH]; intros k es; cbn [seal_each]; [by intros [= <-]|].
  cbv zeta. unfold retain. rewrite filter_cons. destruct (bool_decide _) eqn:Eq; cbn [negb]; [by apply IH|].
  intros (sealed & Hs & (e & He & (rest & Hr & [= <-])%rbind_ok)%rbind_ok)%rbind_ok.
  destruct (IH (S k) rest Hr) as [Hl Hi]. split; [cbn [length]; by rewrite Hl|].
  intros [|i] p; cbn [lookup list_lookup].
  - intros [= <-]. destruct (payload_seal _ _ _ _) as [sl|] eqn:Es; [|done]. injection Hs as ->.
    destruct (envelope_seal _ _) as [e'|] eqn:Ee; [|done]. injection He as ->.
    rewrite Nat.add_0_r. destruct (payload_seal_Ok _ _ _ _ _ Es) as (n & _ & Hn & _).
    exists n, sealed, e. by rewrite <- Hn.
  - intros Hp. destruct (Hi i p Hp) as (n & sl & e' & Hn & H). exists n, sl, e'.
    by replace (k + S i)%nat with (S k + i)%nat by lia.
Qed.

(** None of the other keys held opens what was sealed under this one. *)
Definition apart (key : arr 32) (keys : list (Z * arr 32)) : Prop :=
  forall k n a a' m ct, k ∈ keys.*2 -> k <> key ->
    aead_seal (ab (payload_key key)) n a m = Some ct -> aead_open (ab (payload_key k)) n a' ct = None.

Lemma open_other key k n bind bind' tag m s e :
  (forall a a' m ct nn, aead_seal (ab (payload_key key)) nn a m = Some ct -> aead_open (ab (payload_key k)) nn a' ct = None) ->
  payload_seal (payload_key key) (Some n) bind m = Ok s -> envelope_seal tag s = Ok e ->
  exists x, payload_open (payload_key k) bind' (payload e) = Err x.
Proof.
  intros Ha Hs He. pose proof (envelope_seal_Ok _ _ _ He) as (_ & _ & j & Hp).
  apply payload_seal_Ok in Hs as (n' & ct & _ & Hct & ->). rewrite Hp, payload_open_body.
  destruct (_ <? _); [by eexists|]. erewrite Ha by done. by eexists.
Qed.

Lemma open_any_sealed key n tag m s e keys :
  m <> [] -> payload_seal (payload_key key) (Some n) (Some tag) m = Ok s -> envelope_seal tag s = Ok e ->
  apart key keys -> key ∈ keys.*2 -> open_any keys tag (payload e) = Ok (frame_encode m).
Proof.
  intros Hm Hs He Ha Hin. induction keys as [|[at_ k] keys IH]; [by apply not_elem_of_nil in Hin|].
  cbn [open_any]. destruct (decide (k = key)) as [->|Hne].
  - destruct (payload_roundtrip _ n (Some tag) tag m s e Hm Hs He) as (_ & _ & _ & ->). done.
  - assert (forall a a' m ct nn, aead_seal (ab (payload_key key)) nn a m = Some ct ->
      aead_open (ab (payload_key k)) nn a' ct = None) as Hk.
    { intros a a' m' ct nn Hct. apply (Ha k nn a a' m' ct); [by left|done|done]. }
    destruct (open_other key k n (Some tag) (Some tag) tag m s e Hk Hs He) as [x ->].
    destruct (open_other key k n (Some tag) None tag m s e Hk Hs He) as [y ->].
    apply IH; [|by apply elem_of_cons in Hin as [->|Hin]].
    intros k' nn a a' m' ct Hk'. apply Ha. by right.
Qed.

Lemma apart_reverse key keys : apart key keys -> apart key (reverse keys).
Proof. intros H k n a a' m ct Hk. apply H. by rewrite fmap_reverse, elem_of_reverse in Hk. Qed.

Lemma others_retain s c :
  others s c = signature_key <$>
    retain (fun p => negb (bool_decide (signature_key p = member_signature_key (member s)))) (roster (group c)).
Proof.
  unfold others. induction (roster (group c)) as [|p l IH]; [done|]. unfold retain in *.
  rewrite fmap_cons, !filter_cons. destruct (bool_decide (signature_key p = _)); cbn [negb];
    rewrite ?decide_True, ?decide_False by (exact I || intros []); [done|].
  rewrite fmap_cons. by f_equal.
Qed.

(** What one member sealed under a key the other holds opens there. *)
Lemma sealed_opens s c key b64 m now nonces es r i later back :
  conversation s = Some c -> decode b64 = Ok m -> m <> [] ->
  seal_with s key b64 now nonces = Ok es ->
  others s c !! i = Some (member_signature_key (member r)) ->
  key ∈ (tag_keys r).*2 -> apart key (tag_keys r) -> 0 <= now -> now <= later <= now + back ->
  length es = length (others s c) /\
  exists x, es !! i = Some x /\ open_mine r x later back = Ok (frame_encode m).
Proof.
  intros Hc Hd Hm Hs Hi Hk Ha Hn Hl. unfold seal_with in Hs. rewrite Hc, Hd in Hs. cbn [ok_or rbind] in Hs.
  apply seal_each_spec in Hs as [Hlen Hs]. rewrite others_retain in Hi |- *. rewrite length_fmap. split; [done|].
  apply list_lookup_fmap_Some in Hi as (p & Hp & Hip). destruct (Hs i p Hip) as (n & sealed & e & _ & Hse & He & Hx).
  eexists. split; [exact Hx|]. destruct (payload_roundtrip _ n _ _ m sealed e Hm Hse He) as (Hw & Ht & _ & _).
  unfold open_mine, read_envelope. rewrite decode_frame. cbn [rbind]. rewrite Hw. cbn [map_err rbind].
  assert (env_tag e ∈ (tag_keys r ≫= (fun k => polling_tags (for_member k.2 (member_signature_key (member r))) later back))) as Hin.
  { apply list_elem_of_fmap in Hk as (k & -> & Hk). apply list_elem_of_bind. exists k. split; [|done].
    rewrite Ht, Hp. by apply polling_tags_elem. }
  unfold my_tags. destruct (tag_keys r) as [|k0 ks] eqn:Ek; [by apply not_elem_of_nil in Hk|]. cbn [rbind].
  rewrite bool_decide_eq_true_2 by exact Hin. cbn [negb]. rewrite Ht.
  rewrite <- Ek in *. eapply open_any_sealed; [done|exact Hse|exact He|by apply apart_reverse|].
  by rewrite fmap_reverse, elem_of_reverse.
Qed.

(** C18: a message is sealed once for every other member, and each can open its copy.
    What is sealed for the group is one envelope for each other member in the order
    of the roster; a member that holds the key it was sealed under, be it of its own
    last three epochs, opens the copy at its own place to exactly what was sealed, at
    any hour from the sender's to as many later as it looks back. *)
Theorem a_copy_for_every_member s c b64 m now nonces es :
  conversation s = Some c -> decode b64 = Ok m -> m <> [] -> 0 <= now ->
  seal_for_group s b64 now nonces = Ok es ->
  length es = length (others s c) /\
  forall i r later back key,
    others s c !! i = Some (member_signature_key (member r)) -> tag_key s = Ok key ->
    key ∈ (tag_keys r).*2 -> apart key (tag_keys r) -> now <= later <= now + back ->
    exists x, es !! i = Some x /\ open_mine r x later back = Ok (frame_encode m).
Proof.
  intros Hc Hd Hm Hn. unfold seal_for_group. rewrite Hc. cbn [ok_or rbind].
  intros (key & Hk & Hs)%rbind_ok. split.
  - unfold seal_with in Hs. rewrite Hc, Hd in Hs. cbn [ok_or rbind] in Hs.
    apply seal_each_spec in Hs as [Hl _]. by rewrite others_retain, length_fmap.
  - intros i r later back key' Hi Hk' Hin Ha Hl. rewrite Hk in Hk'. injection Hk' as <-.
    by apply (sealed_opens s c key b64 m now nonces es r i later back).
Qed.

(** A commit goes to where those it has to move still are.  Sealed before it is
    applied, it is under the key of the epoch the sender is at; sealed after, under
    the one before; and a member of the roster that is there opens its copy. *)
Theorem a_commit_reaches_who_is_behind s c b64 m now nonces es i r later back key :
  conversation s = Some c -> decode b64 = Ok m -> m <> [] -> 0 <= now ->
  seal_commit_for_group s b64 now nonces = Ok es ->
  others s c !! i = Some (member_signature_key (member r)) ->
  (if is_holding_a_commit c then tag_key s = Ok key else previous_key s = Ok key) ->
  snd <$> last (tag_keys r) = Some key -> apart key (tag_keys r) -> now <= later <= now + back ->
  exists x, es !! i = Some x /\ open_mine r x later back = Ok (frame_encode m).
Proof.
  intros Hc Hd Hm Hn Hs Hi Hk Hlast Ha Hl. unfold seal_commit_for_group in Hs.
  apply rbind_ok in Hs as (key' & Hkey & Hs).
  assert (key' = key) as ->.
  { unfold holding in Hkey. rewrite Hc in Hkey. cbn [from_option] in Hkey. destruct (is_holding_a_commit c).
    - unfold tag_key in Hk. destruct (snd <$> last (tag_keys s)); [|done]. cbn [ok_or] in *. congruence.
    - congruence. }
  assert (key ∈ (tag_keys r).*2) as Hin.
  { apply fmap_Some in Hlast as (k & Hlast & ->). apply list_elem_of_fmap. exists k. split; [done|].
    by apply last_Some_elem_of. }
  by apply (sealed_opens s c key b64 m now nonces es r i later back).
Qed.
End Addressing.

(** ** The keys remembered *)

Section Memory.
Context `{BL : Blake3, BH : Blake3Hash, AE : Aead, ED : Ed25519, FB : FrameBase64, HK : Hkdf}.
Context `{ML : Mls, LF : @MlsLife ML, XW : XWing, XS : @XWingStorage XW}.

(** What a client does with a session that changes it. *)
Inductive Doing :=
| DKeyPackage | DFound | DInvite (kp : bytes) | DPropose (kp : bytes) | DConfirm
| DJoin (w t : bytes) | DSettle | DSetAdmins (l : list bytes) | DRemove (k : bytes)
| DEncapsulate (k random : bytes) | DOpenPq (ct : bytes)
| DBeginGroupPq (keys : list bytes) (secret : arr 32) (draws : nat -> bytes * arr 24)
| DOpenGroupPq (w : bytes) | DCommitPq (nonce : option (arr 32)) | DSend (text : rstring)
| DReceive (l : bytes) | DTrust | DRekey.

Definition outcome {A} (fresh : A -> bool) (r : Result A Error * CSession) : bool * CSession :=
  (match r.1 with Ok a => fresh a | Err _ => false end, r.2).

(** Whether it has then brought the keys up to date, and the session. *)
Definition does (s : CSession) (d : Doing) : bool * CSession :=
  let quiet {A} := outcome (fun _ : A => false) in
  let moves {A} := outcome (fun _ : A => true) in
  match d with
  | DKeyPackage => quiet (key_package s)
  | DFound => quiet (found s)
  | DInvite kp => moves (invite s kp)
  | DPropose kp => quiet (propose s kp)
  | DConfirm => moves (confirm s)
  | DJoin w t => moves (session_join s w t)
  | DSettle => outcome (fun settled : bool => settled) (session_settle s)
  | DSetAdmins l => moves (session_set_admins s l)
  | DRemove k => quiet (remove_member s k)
  | DEncapsulate k r => quiet (encapsulate_to s k r)
  | DOpenPq ct => quiet (open_pq s ct)
  | DBeginGroupPq keys secret draws => quiet (begin_group_pq s keys secret draws)
  | DOpenGroupPq w => quiet (open_group_pq s w)
  | DCommitPq n => moves (commit_pq s n)
  | DSend t => quiet (session_send s t)
  | DReceive l => outcome (fun t => match t with TRefused _ => false | _ => true end) (session_receive s l)
  | DTrust => quiet (session_trust_restored_state s)
  | DRekey => moves (session_rekey_after_restore s)
  end.

Fixpoint do_all (s : CSession) (ds : list Doing) : CSession :=
  match ds with [] => s | d :: ds => do_all (does s d).2 ds end.

(** The exporter of some state of the group at that epoch. *)
Definition genuine (k : Z * arr 32) : Prop := exists c, epoch c = k.1 /\ mailbox_tag_key c = Ok k.2.

(** [h] is every key there was, in the order they came. *)
Record remembers (h : list (Z * arr 32)) (s : CSession) : Prop := {
  re_last : tag_keys s = drop (length h - TAG_EPOCH_MEMORY) h;
  re_genuine : Forall genuine h;
  re_moved : forall i a b, h !! i = Some a -> h !! S i = Some b -> a.1 <> b.1;
}.

Definition follows_on (s s' : CSession) : Prop :=
  forall h, remembers h s -> exists h', h `prefix_of` h' /\ remembers h' s'.

(** The last key is of the epoch the session is at. *)
Definition current (s : CSession) : Prop := fst <$> last (tag_keys s) = Some (session_epoch s).

Lemma follows_refl s : follows_on s s.
Proof. intros h Hh. by exists h. Qed.

Lemma follows_same s s' : tag_keys s' = tag_keys s -> follows_on s s'.
Proof. intros H h [H1 H2 H3]. exists h. split; [done|]. split; by rewrite ?H. Qed.

Lemma follows_trans s s' s'' : follows_on s s' -> follows_on s' s'' -> follows_on s s''.
Proof.
  intros H1 H2 h Hh. destruct (H1 h Hh) as (h' & Hp & Hh'). destruct (H2 h' Hh') as (h'' & Hp' & Hh'').
  exists h''. split; [by etrans|done].
Qed.

Lemma follows_bind {A B} s (m : Result A Error * CSession) (k : A -> CSession -> Result B Error * CSession) :
  follows_on s m.2 -> (forall a s', follows_on s' (k a s').2) -> follows_on s (sbind m k).2.
Proof. destruct m as [[a|e] s']; intros H1 H2; simpl; [eapply follows_trans; [exact H1|apply H2]|done]. Qed.

Lemma fresh_bind {A B} (m : Result A Error * CSession) (k : A -> CSession -> Result B Error * CSession)
    (P : B -> bool) :
  (forall a s', (outcome P (k a s')).1 = true -> current (outcome P (k a s')).2) ->
  (outcome P (sbind m k)).1 = true -> current (outcome P (sbind m k)).2.
Proof. destruct m as [[a|e] s']; intros H; simpl; [apply H|done]. Qed.

Lemma follows_in_group {A} s (op : Conversation -> Result A GroupError * Conversation) :
  follows_on s (in_group s op).2.
Proof. apply follows_same. unfold in_group. destruct (conversation s); [|done]. by destruct (op _). Qed.

Lemma last_drop {A} n (l : list A) : (n < length l)%nat -> last (drop n l) = last l.
Proof. intros H. rewrite !last_lookup, lookup_drop, length_drop. f_equal. lia. Qed.

Lemma last_drop_few {A} (l : list A) : last (drop (length l - TAG_EPOCH_MEMORY) l) = last l.
Proof. destruct l as [|x l]; [done|]. apply last_drop. unfold TAG_EPOCH_MEMORY. simpl. lia. Qed.

Lemma remembers_push h s e k :
  remembers h s -> fst <$> last (tag_keys s) <> Some e -> genuine (e, k) ->
  remembers (h ++ [(e, k)])
    (with_tag_keys s (let keys := tag_keys s ++ [(e, k)] in
       if (TAG_EPOCH_MEMORY <? length keys)%nat then drop 1 keys else keys)).
Proof.
  intros [H1 H2 H3] Hne Hg. split.
  - cbn [tag_keys with_tag_keys]. rewrite H1. cbv zeta. unfold TAG_EPOCH_MEMORY.
    rewrite !length_app, length_drop. cbn [length].
    destruct (Nat.ltb_spec 3 (length h - (length h - 3) + 1)) as [Hl|Hl].
    + rewrite drop_app_le, drop_drop by (rewrite length_drop; lia).
      rewrite drop_app_le by lia. do 2 f_equal. lia.
    + rewrite drop_app_le by lia. do 2 f_equal. lia.
  - apply Forall_app. split; [done|]. by apply Forall_singleton.
  - intros i a b Ha Hb. rewrite H1, last_drop_few in Hne.
    destruct (decide (S i < length h)%nat) as [Hi|Hi].
    + rewrite lookup_app_l in Ha, Hb by lia. by eapply H3.
    + assert (S i = length h) as Hlen.
      { apply lookup_lt_Some in Hb. rewrite length_app in Hb. simpl in Hb. lia. }
      rewrite lookup_app_l in Ha by lia. rewrite lookup_app_r in Hb by lia.
      rewrite Hlen, Nat.sub_diag in Hb. injection Hb as <-. intros Heq. apply Hne.
      rewrite last_lookup. replace (pred (length h)) with i by lia. rewrite Ha. simpl. by rewrite Heq.
Qed.

Lemma sync_follows s : follows_on s (sync_tag_keys s).2.
Proof.
  unfold sync_tag_keys. case_bool_decide as Hl; [apply follows_refl|].
  destruct (conversation s) as [c|] eqn:Ec; [|apply follows_refl].
  destruct (mailbox_tag_key c) as [k|] eqn:Ek; [|apply follows_refl].
  intros h Hh. exists (h ++ [(session_epoch s, k)]). split; [by apply prefix_app_r|].
  apply remembers_push; [done|done|]. exists c. split; [|done]. simpl. unfold session_epoch. by rewrite Ec.
Qed.

Lemma sync_current s : is_ok (sync_tag_keys s).1 = true -> current (sync_tag_keys s).2.
Proof.
  unfold sync_tag_keys. case_bool_decide as Hl; [done|].
  destruct (conversation s) as [c|] eqn:Ec; [|done]. destruct (mailbox_tag_key c) as [k|]; [|done].
  intros _. unfold current. cbn [snd with_tag_keys tag_keys]. change (session_epoch (with_tag_keys s _)) with (session_epoch s).
  destruct (Nat.ltb_spec TAG_EPOCH_MEMORY (length (tag_keys s ++ [(session_epoch s, k)]))) as [Hlt|_].
  - rewrite last_drop by (unfold TAG_EPOCH_MEMORY in Hlt; lia). by rewrite last_snoc.
  - by rewrite last_snoc.
Qed.

Lemma follows_match {A B} (o : option A) s (f : A -> Result B Error * CSession) g :
  follows_on s g.2 -> (forall a, o = Some a -> follows_on s (f a).2) ->
  follows_on s (match o with Some a => f a | None => g end).2.
Proof. destruct o; naive_solver. Qed.

Ltac follows_step :=
  match goal with
  | |- follows_on ?s (sbind (lift _ _) _).2 => apply follows_bind; [apply follows_refl|intros]
  | |- follows_on ?s (sbind _ _).2 => apply follows_bind; [|intros]
  | |- follows_on _ (in_group _ _).2 => apply follows_in_group
  | |- follows_on _ (sync_tag_keys _).2 => apply sync_follows
  | |- follows_on ?s (_, ?s').2 => apply follows_same; reflexivity
  | |- follows_on _ (if ?b then _ else _).2 => destruct b
  | |- follows_on _ (match ?o with _ => _ end).2 => destruct o
  | |- follows_on _ (let '(_, _) := ?p in _).2 => destruct p
  end.
Ltac follows_all := repeat (cbv beta zeta; follows_step).

Lemma does_follows s d : follows_on s (does s d).2.
Proof.
  destruct d; cbn [does outcome snd];
    unfold key_package, found, invite, hand_over, propose, confirm, session_join, session_settle,
      session_set_admins, remove_member, encapsulate_to, open_pq, begin_group_pq, open_group_pq, commit_pq,
      session_send, session_receive, session_trust_restored_state, session_rekey_after_restore; follows_all.
  - apply follows_same. by destruct (conversation s).
  - eapply follows_trans; [|apply sync_follows]. by apply follows_same.
  - eapply follows_trans; [|apply follows_in_group]. by apply follows_same.
  - eapply follows_trans; [|apply sync_follows]. by apply follows_same.
Qed.

Lemma sync_then {B} (P : B -> bool) s (b : B) :
  (outcome P (sbind (sync_tag_keys s) (fun _ s => (Ok b, s)))).1 = true ->
  current (outcome P (sbind (sync_tag_keys s) (fun _ s => (Ok b, s)))).2.
Proof. pose proof (sync_current s) as H. destruct (sync_tag_keys s) as [[u|e] s']; intros; [by apply H|done]. Qed.

Lemma does_current s d : (does s d).1 = true -> current (does s d).2.
Proof.
  destruct d; try (cbn [does]; unfold outcome; cbn [fst snd];
    match goal with |- context [match ?r with _ => _ end] => by destruct r end); cbn [does].
  - unfold invite. destruct (_ <=? _); [done|]. apply fresh_bind. intros kp1 s1. apply fresh_bind. intros m s2.
    unfold hand_over. apply fresh_bind. intros u s3. apply fresh_bind. intros tree s4. apply sync_then.
  - unfold confirm. apply fresh_bind. intros m s1. apply fresh_bind. intros u s2.
    destruct m.2; [|done]. apply fresh_bind. intros tree s3. apply sync_then.
  - unfold session_join. destruct (conversation s); [done|]. apply fresh_bind. intros w1 s1.
    apply fresh_bind. intros t1 s2. destruct (join _ _ _) as [[c|e] st]; [|done].
    pose proof (sync_current (with_conversation (with_member s2 (with_m_store (member s2) st)) c)) as H.
    unfold outcome. destruct (sync_tag_keys _) as [[u|e] s3]; [by intros _; apply H|done].
  - unfold session_settle. apply fresh_bind. intros [] s1; [apply sync_then|done].
  - unfold session_set_admins. destruct (conversation s); [|done]. apply fresh_bind. intros named s1.
    apply fresh_bind. intros m s2. apply sync_then.
  - unfold commit_pq. destruct (pending_pq s); [|done]. apply fresh_bind. intros m s2. apply sync_then.
  - unfold session_receive. apply fresh_bind. intros m s1. destruct (conversation s1); [|done].
    destruct (receive _ _) as [[r|e] c']; [|by destruct e].
    pose proof (sync_current (with_conversation s1 c')) as H.
    destruct (sync_tag_keys _) as [[u|e] s3]; [|done]. intros _. by apply H.
  - unfold session_rekey_after_restore. apply fresh_bind. intros m s1. apply sync_then.
Qed.

End Memory.

(** ** Coming back *)

(** What a store, a signer and an X-Wing secret are put away as reads back, and a
    group is found under its identifier in the store it was kept in. *)
Class KeptLaws `{ML : Mls} (LF : @MlsLife ML) `{XW : XWing} (XS : @XWingStorage XW) : Prop := {
  store_read_back st : store_from (store_values st) = st;
  signer_read_back s l : signer_to_bytes s = Some l -> signer_from_bytes l = Some s;
  secret_read_back sk : secret_from_storage (secret_to_storage sk) = sk;
  group_read_back g : load_group (store_of g) (mls_group_id g) = Some (Some g);
}.

Section ComingBack.
Context `{BL : Blake3, BH : Blake3Hash, AE : Aead, ED : Ed25519, FB : FrameBase64, KD : Argon2, SF : StateFormat}.
Context `{AL : !AeadLaws AE, FL : !FrameBase64Laws FB, FT : !Base64Trim FB, SL : !StateFormatLaws SF}.
Context `{ML : Mls, LF : @MlsLife ML, XW : XWing, XS : @XWingStorage XW, KL : !KeptLaws LF XS}.

(** What sealing under a key writes, and what it is read back as. *)
Lemma seal_bytes_reads k plain nonce raw :
  seal_bytes k plain nonce = Ok raw ->
  open_bytes k raw = Ok plain /\ salt_of (frame_encode raw) = Ok (sk_salt k).
Proof.
  intros (n & _ & (ct & Hct & Hraw)%rbind_ok)%rbind_ok.
  assert (raw = header SEAL_MAGIC SEAL_VERSION (sk_salt k) n ++ ct) as -> by congruence. clear Hraw.
  destruct (aead_seal _ _ _ _) as [ct'|] eqn:E; [|done]. injection Hct as ->.
  pose proof (aead_open_seal _ _ _ _ _ E) as Ho. pose proof (aead_seal_len _ _ _ _ _ E) as Hl.
  pose proof (AtRest.length_header SEAL_MAGIC SEAL_VERSION (sk_salt k) n) as Hh.
  pose proof (AtRest.take_header SEAL_MAGIC SEAL_VERSION (sk_salt k) n) as Hm.
  pose proof (AtRest.header_version SEAL_MAGIC SEAL_VERSION (sk_salt k) n) as Hv.
  pose proof (AtRest.header_salt SEAL_MAGIC SEAL_VERSION (sk_salt k) n ct) as Hs.
  set (h := header SEAL_MAGIC SEAL_VERSION (sk_salt k) n) in *.
  change (length SEAL_MAGIC + 41)%nat with SEAL_HEADER_LEN in Hh.
  assert (zlen (h ++ ct) = zlen plain + 65) as Hz.
  { rewrite zlen_app, Hl. unfold zlen at 1. rewrite Hh. unfold AEAD_TAG_LEN, SEAL_HEADER_LEN. lia. }
  pose proof (zlen_nonneg plain). split.
  - unfold open_bytes. rewrite Hz, (proj2 (Z.ltb_ge _ _)) by (unfold SEAL_HEADER_LEN; lia).
    assert (drop 25 h = ab n) as Hn.
    { pose proof (AtRest.header_nonce SEAL_MAGIC SEAL_VERSION (sk_salt k) n []) as Hn.
      rewrite app_nil_r in Hn. fold h in Hn. rewrite <- Hn. unfold slice.
      change (length SEAL_MAGIC + 17)%nat with 25%nat. rewrite take_ge; [done|].
      rewrite length_drop, Hh. unfold SEAL_HEADER_LEN. simpl. lia. }
    rewrite <- Hh, take_app_length, drop_app_length, Hn.
    pose proof (Hm []) as Hm'. pose proof (Hv []) as Hv'. rewrite app_nil_r in Hm', Hv'. fold h in Hm', Hv'.
    assert (take 8 h = SEAL_MAGIC) as -> by exact Hm'. assert (h !! 8%nat = Some SEAL_VERSION) as -> by exact Hv'.
    rewrite !bool_decide_eq_true_2 by done. cbn [negb default].
    exact (f_equal (ok_or WrongKeyOrAltered) Ho).
  - unfold salt_of. rewrite decode_frame. cbn [rbind]. rewrite Hz, (proj2 (Z.ltb_ge _ _)) by lia.
    assert (take 8 (h ++ ct) = SEAL_MAGIC) as -> by exact (Hm ct).
    rewrite bool_decide_eq_true_2 by done. cbn [negb].
    assert (slice (h ++ ct) 9 25 = ab (sk_salt k)) as -> by exact Hs. by rewrite try_into_ab.
Qed.

(** What [seal] writes of a session and what it opens to. *)
Lemma sealed_session_opens s k nonce blob :
  seal_session s k nonce = Ok blob ->
  salt_of blob = Ok (sk_salt k) /\
  unseal_session blob k = Ok (mkSession
    (mkMember (store s) (signer (member s)) (credential (member s)) (member_signature_key (member s)) (hybrid_sk (member s)))
    ((fun c => opened (group c) true) <$> conversation s) (tag_keys s) None []).
Proof.
  intros Hs. unfold seal_session in Hs.
  apply rbind_ok in Hs as (m & Hm & (plain & Hp & (raw & Hr & [= <-])%rbind_ok)%rbind_ok).
  destruct (seal_bytes_reads _ _ _ _ Hr) as [Ho Hsalt]. split; [done|].
  destruct (state_to_bytes _) as [plain'|] eqn:Est; [|done]. injection Hp as ->.
  destruct (member_export _ _) as [m'|] eqn:Em; [|done]. injection Hm as ->.
  unfold member_export in Em. apply rbind_ok in Em as (l & Hl & [= <-]).
  destruct (signer_to_bytes _) as [l'|] eqn:Esg; [|done]. injection Hl as ->.
  unfold unseal_session. rewrite decode_frame. cbn [rbind]. rewrite Ho. cbn [rbind].
  rewrite (state_read_written _ _ Est). cbn [ok_or rbind st_member st_group_id st_tag_keys].
  unfold member_restore. cbn [ms_signer ms_storage ms_identity ms_signature_public ms_hybrid_secret].
  rewrite (signer_read_back _ _ Esg), store_read_back, secret_read_back. cbn [ok_or rbind map_err].
  destruct (conversation s) as [c|] eqn:Ec; cbn [fmap option_fmap option_map]; [|done].
  unfold reopen, store, group_id. cbn [m_store]. by rewrite Ec, group_read_back.
Qed.

(** What is sealed with [seal_blob] opens. *)
Lemma sealed_blob_opens k data nonce blob :
  seal_blob k (frame_encode data) nonce = Ok blob ->
  open_blob k blob = Ok (frame_encode data) /\ salt_of blob = Ok (sk_salt k) /\ exists raw, blob = frame_encode raw.
Proof.
  unfold seal_blob. rewrite decode_frame. cbn [rbind]. intros (raw & Hr & [= <-])%rbind_ok.
  destruct (seal_bytes_reads _ _ _ _ Hr) as [Ho Hs]. split; [|split; [done|by eexists]].
  unfold open_blob. rewrite decode_frame. cbn [rbind]. by rewrite Ho.
Qed.

(** The key a phrase makes is the one it unlocks what was sealed under. *)
Lemma created_unlocks passphrase drawn k blob :
  sessionkey_create passphrase drawn = Ok k -> salt_of blob = Ok (sk_salt k) -> unlock passphrase blob = Ok k.
Proof.
  intros Hk Hs. unfold unlock. rewrite Hs. cbn [rbind]. unfold sessionkey_create in Hk.
  destruct (_ <? _); [done|]. apply rbind_ok in Hk as (salt & _ & (key & Hkey & [= <-])%rbind_ok).
  cbn [sk_salt]. by rewrite Hkey.
Qed.

(** A session comes back as it was put away, except for what it must not trust.
    What [seal] writes unlocks with the passphrase its key was made from and opens to
    the same member, keys of the last epochs and group; the conversation comes back
    with no commit held and owing a rekey, so nothing is sent in it until then; and
    what was staged of a post-quantum secret, and which epochs one was staged for, is
    not kept. *)
Theorem a_session_comes_back s k nonce passphrase drawn blob :
  sessionkey_create passphrase drawn = Ok k -> seal_session s k nonce = Ok blob ->
  unlock passphrase blob = Ok k /\
  exists s', unseal_session blob k = Ok s' /\
    member s' = mkMember (store s) (signer (member s)) (credential (member s))
                  (member_signature_key (member s)) (hybrid_sk (member s)) /\
    tag_keys s' = tag_keys s /\ conversation s' = (fun c => opened (group c) true) <$> conversation s /\
    pending_pq s' = None /\ staged_pq s' = [] /\ holding s' = false /\
    forall text, conversation s <> None -> session_send s' text = (Err (OfGroup RestoredAndNotRekeyed), s').
Proof.
  intros Hk Hs. destruct (sealed_session_opens _ _ _ _ Hs) as [Hsalt Ho].
  split; [by eapply created_unlocks|]. eexists. split; [exact Ho|]. do 5 (split; [done|]).
  destruct (conversation s); [|by split]. split; [done|]. by intros text _.
Qed.
End ComingBack.

(** ** Numbers to compare *)

Section Numbers.
Context `{BL : Blake3, BH : Blake3Hash, AE : Aead, ED : Ed25519}.
Context `{ML : Mls, LF : @MlsLife ML, XW : XWing, XS : @XWingStorage XW}.

Lemma dedup_elem l x : x ∈ dedup l <-> x ∈ l.
Proof.
  induction l as [|y l IH]; [done|]. cbn [dedup]. destruct l as [|z l]; [done|].
  case_bool_decide as Hyz; [subst z; rewrite IH, !elem_of_cons; tauto|].
  by rewrite elem_of_cons, IH, (elem_of_cons _ _ y).
Qed.

(** Sorted and then without neighbours alike is strictly increasing. *)
Lemma dedup_sorted l :
  StronglySorted (fun a b => bytes_le a b = true) l ->
  StronglySorted (fun a b => bytes_le a b = true /\ a <> b) (dedup l).
Proof.
  induction 1 as [|y l Hs IH Hy]; [constructor|]. cbn [dedup]. destruct l as [|z l]; [by repeat constructor|].
  case_bool_decide as Hyz; [done|]. constructor; [done|]. apply Forall_forall. intros x Hx.
  rewrite dedup_elem in Hx. rewrite Forall_forall in Hy. split; [by apply Hy|]. intros <-.
  apply Hyz. apply bytes_le_antisym; [apply Hy; by left|].
  apply elem_of_cons in Hx as [->|Hx]; [apply bytes_le_refl|].
  apply StronglySorted_inv in Hs as [_ Hs]. rewrite Forall_forall in Hs. by apply Hs.
Qed.

Lemma StronglySorted_weaken {A} (R S : A -> A -> Prop) l :
  (forall a b, R a b -> S a b) -> StronglySorted R l -> StronglySorted S l.
Proof.
  intros HRS. induction 1 as [|a l Hs IH Ha]; constructor; [done|].
  eapply Forall_impl; [exact Ha|apply HRS].
Qed.

Lemma strictly_sorted_NoDup l :
  StronglySorted (fun a b => bytes_le a b = true /\ a <> b) l -> NoDup l.
Proof.
  induction 1 as [|a l Hs IH Ha]; constructor; [|done]. intros Hin.
  rewrite Forall_forall in Ha. by destruct (Ha a Hin).
Qed.

Lemma strictly_sorted_unique l k :
  StronglySorted (fun a b => bytes_le a b = true /\ a <> b) l ->
  StronglySorted (fun a b => bytes_le a b = true /\ a <> b) k ->
  (forall x, x ∈ l <-> x ∈ k) -> l = k.
Proof.
  intros Hl Hk Hx. apply (StronglySorted_unique_strong (fun a b => bytes_le a b = true)).
  - intros a b Ha Hb. by apply bytes_le_antisym.
  - eapply StronglySorted_weaken; [|exact Hl]. naive_solver.
  - eapply StronglySorted_weaken; [|exact Hk]. naive_solver.
  - by apply NoDup_Permutation; [apply strictly_sorted_NoDup..|].
Qed.

(** Each piece after its length: nothing else reads the same. *)
Lemma keys_framed_inj l k :
  Forall (fun x => zlen x < 2 ^ 32) l -> Forall (fun x => zlen x < 2 ^ 32) k ->
  (l ≫= (fun x => be_bytes 4 (zlen x) ++ x)) = (k ≫= (fun x => be_bytes 4 (zlen x) ++ x)) -> l = k.
Proof.
  intros Hl. revert k. induction Hl as [|x l Hx Hl IH]; intros [|y k] Hk Heq; [done..|].
  apply Forall_cons in Hk as [Hy Hk]. rewrite !bind_cons, <- !app_assoc in Heq.
  apply app_inj_1 in Heq as [Hlen Heq]; [|by rewrite !length_be_bytes].
  apply be_bytes_inj in Hlen; [|split; [apply zlen_nonneg|done]..].
  apply app_inj_1 in Heq as [-> Heq]; [|unfold zlen in Hlen; lia]. f_equal. by apply IH.
Qed.

(** What the number is made of determines the keys, and the other way round. *)
Lemma safety_input_iff ks ks' :
  Forall (fun k => zlen k < 2 ^ 32) ks -> Forall (fun k => zlen k < 2 ^ 32) ks' ->
  safety_input ks = safety_input ks' <-> forall k, k ∈ ks <-> k ∈ ks'.
Proof.
  assert (forall ks, Forall (fun k => zlen k < 2 ^ 32) ks ->
    Forall (fun k => zlen k < 2 ^ 32) (dedup (sort_by bytes_le ks))) as Hf.
  { intros l. rewrite !Forall_forall. intros Hx x Hin. apply Hx.
    by rewrite dedup_elem, elem_of_sort_by in Hin. }
  assert (forall ks x, x ∈ dedup (sort_by bytes_le ks) <-> x ∈ ks) as He.
  { intros l x. by rewrite dedup_elem, elem_of_sort_by. }
  intros H1 H2. unfold safety_input. split.
  - intros Heq%keys_framed_inj; [|by apply Hf..]. intros k. by rewrite <- (He ks), Heq, He.
  - intros Heq. enough (dedup (sort_by bytes_le ks) = dedup (sort_by bytes_le ks')) as -> by done.
    apply strictly_sorted_unique.
    1, 2: apply dedup_sorted, sort_by_sorted; [apply bytes_le_total|apply bytes_le_trans].
    intros x. by rewrite !He.
Qed.

Lemma length_in_fives l k : length (in_fives l (S k)) = (6 * k + 5)%nat.
Proof.
  unfold in_fives, bytes_join. cbn [seq]. rewrite length_app. change (length (group_of_five _)) with 5%nat.
  enough (forall n m, length (seq n m ≫= (fun i => SPACE :: group_of_five (slice l (5 * i) (5 * i + 5)))) = (6 * m)%nat) as ->
    by lia.
  intros n m. revert n. induction m as [|m IH]; intros n; [done|]. simpl. rewrite IH. lia.
Qed.

(** The safety number names the keys in the conversation and nothing else.  Two
    clients whose rosters hold the same keys, in whatever order and however often, read
    the same number, of thirty digits in six groups; and two whose rosters differ hash
    different inputs, no key of one running into the next. *)
Theorem safety_number_names_the_keys s s' c c' :
  conversation s = Some c -> conversation s' = Some c' ->
  let keys := signature_key <$> roster (group c) in
  let keys' := signature_key <$> roster (group c') in
  Forall (fun k => zlen k < 2 ^ 32) keys -> Forall (fun k => zlen k < 2 ^ 32) keys' ->
  ((forall k, k ∈ keys <-> k ∈ keys') -> safety_number s = safety_number s') /\
  (~ (forall k, k ∈ keys <-> k ∈ keys') ->
     exists i i', i <> i' /\
       safety_number s = Ok (in_fives (take 30 (ab (blake3_derive SAFETY_CONTEXT i))) 6) /\
       safety_number s' = Ok (in_fives (take 30 (ab (blake3_derive SAFETY_CONTEXT i'))) 6)) /\
  exists n, safety_number s = Ok n /\ length n = 35%nat.
Proof.
  intros Hc Hc' keys keys' Hl Hl'. unfold safety_number. rewrite Hc, Hc'. cbn [ok_or rbind].
  fold keys keys'. split; [|split].
  - intros Hk. by rewrite (proj2 (safety_input_iff keys keys' Hl Hl') Hk).
  - intros Hne. exists (safety_input keys), (safety_input keys'). split; [|done].
    intros Heq. by apply Hne, safety_input_iff.
  - eexists. split; [done|]. apply (length_in_fives _ 5).
Qed.
End Numbers.

(** ** Witnesses *)

Import Toy.
Import (hints) AtRest.AtRestExample Hybrid.HybridExample.

(** A group that is its own store; a cipher whose tag is a sum of the key alone. *)
Module SessionExample.

Definition Kept : Type := list (bytes * bytes).
Definition advanced (g : Kept) : Kept := g ++ [([x01], [x02])].
Definition rows : list MemberRow := [mkRow 0 [x01; x61] [x0a]; mkRow 1 [x01; x62] [x0b]].

#[export] Instance mls : Mls := {|
  MlsGroup := Kept; Signer := byte; MessageIn := bytes; MessageOut := bytes; Protocol := bytes;
  Staged := bytes; Proposal := bytes; KeyPackage := bytes;
  signer_public b := [b];
  mls_epoch := zlen;
  members _ := rows;
  extensions _ := [];
  add_or_replace es e := e :: es;
  tls_deserialize := Some;
  tls_serialize := Some;
  into_protocol := Some;
  content_type _ := CtApplication;
  protocol_epoch _ := 0;
  process_message g l := (Some (SMember 0, ApplicationMessage l), g);
  add_proposals _ := [];
  proposal_add := Some;
  pending_proposals _ := [];
  store_pending_proposal g _ := (Some tt, g);
  remove_pending_proposal g _ := (Some tt, g);
  merge_staged_commit g _ := (Some tt, advanced g);
  merge_pending_commit g := (Some tt, advanced g);
  clear_pending_commit g := (Some tt, g);
  create_message g _ m := (Some m, g);
  add_members g _ k := (Some ([x02], k), g);
  propose_add_member g _ k := (Some k, g);
  commit_to_pending_proposals g _ := (Some ([x03], None), g);
  remove_members g _ _ := (Some [x04], g);
  update_group_context_extensions g _ _ := (Some [x05], g);
  rekey_commit g _ := (Some [x06], g);
|}.

#[export] Instance life : @MlsLife mls := {|
  Store := Kept; KeyPackageIn := bytes; Welcome := bytes; RatchetTree := bytes;
  fresh_store := [];
  store_of g := g;
  with_store _ st := st;
  store_signer st _ := Some st;
  new_group st _ _ := (Some st, st);
  build_key_package st _ credential _ := (Some credential, st);
  kp_serialize := Some;
  kp_deserialize := Some;
  kp_validate := Some;
  kp_suite_is_ours _ := true;
  welcome_of := Some;
  tree_deserialize := Some;
  group_from_welcome st _ _ := (Some st, st);
  tree_serialize _ := Some [];
  mls_group_id _ := [x67];
  export_secret g _ := Some (be_bytes 32 (100 + zlen g));
  psk_store g _ _ := (Some tt, g);
  psk_commit g _ _ _ := (Some [x07], g);
  load_group st _ := Some (Some st);
  store_values st := st;
  store_from l := l;
  signer_to_bytes b := Some [b];
  signer_from_bytes l := head l;
  signer_sign _ _ := Some [];
|}.

#[export] Instance keys : @XWingStorage Hybrid.HybridExample.xwing :=
  @Build_XWingStorage Hybrid.HybridExample.xwing (fun k => ab k) (try_into 32) (fun k => k) (fun k => k).

#[export] Instance kept : KeptLaws life keys.
Proof. split; try done. by intros s l [= <-]. Qed.

Definition tag (key : bytes) : bytes := be_bytes 16 (be_value key).
Definition shut (key n a m : bytes) : option bytes := Some (m ++ tag key).
Definition unshut (key n a ct : bytes) : option bytes :=
  let k := (length ct - 16)%nat in
  if bool_decide (drop k ct = tag key) then Some (take k ct) else None.

#[export] Instance aead : Aead := {| aead_seal := shut; aead_open := unshut |}.

#[export] Instance aead_laws : AeadLaws aead.
Proof.
  assert (forall key, length (tag key) = 16%nat) as Ht by (intros; apply length_be_bytes).
  split; intros key n a m ct [= <-].
  - simpl. unfold unshut. rewrite length_app, Ht, Nat.add_sub, drop_app_length, take_app_length.
    by rewrite bool_decide_eq_true_2.
  - rewrite zlen_app. unfold zlen at 2. by rewrite Ht.
Qed.

Lemma shut_apart key k n a a' m ct :
  tag k <> tag key -> aead_seal key n a m = Some ct -> aead_open k n a' ct = None.
Proof.
  intros Hne [= <-]. simpl. unfold unshut.
  rewrite length_app, (length_be_bytes 16 _ : length (tag key) = 16%nat), Nat.add_sub, drop_app_length.
  by rewrite bool_decide_eq_false_2.
Qed.

Lemma apart_by_tag key ks :
  (forall k, k ∈ ks.*2 -> k = key \/ tag (ab (payload_key k)) <> tag (ab (payload_key key))) -> apart key ks.
Proof.
  intros H k n a a' m ct Hk Hne. destruct (H k Hk) as [->|Ht]; [done|]. by apply shut_apart.
Qed.

#[export] Instance frames : FrameBase64 := {|
  frame_encode := DeviceStore.url_encode (Base64Url := DeviceStore.DeviceStoreExample.base64url);
  frame_decode := DeviceStore.url_decode (Base64Url := DeviceStore.DeviceStoreExample.base64url) |}.

#[export] Instance frames_laws : FrameBase64Laws frames.
Proof. intros l. apply (DeviceStore.url_decode_encode (Base64UrlLaws := DeviceStore.DeviceStoreExample.base64url_laws)). Qed.

#[export] Instance frames_trim : Base64Trim frames.
Proof.
  intros l. destruct l as [|b l]; [done|].
  assert (plain_word (frame_encode (b :: l))) as H
    by (apply (DeviceStore.url_plain (Base64UrlLaws := DeviceStore.DeviceStoreExample.base64url_laws)); done).
  pose proof (trim_spaced [frame_encode (b :: l)] (proj2 (Forall_singleton _ _) H) ltac:(done)) as E.
  change (spaced [frame_encode (b :: l)]) with (frame_encode (b :: l) ++ []) in E. by rewrite app_nil_r in E.
Qed.

(** A state as its pieces, each after its length in a byte; one that would not read
    back is not written. *)
Definition pieces (st : SessionState) : list bytes :=
  let m := st_member st in
  [ms_identity m; ms_signature_public m; ms_signer m; ab (ms_hybrid_secret m); default [] (st_group_id st);
   replicate (length (ms_storage m)) x00]
  ++ (ms_storage m ≫= (fun k => [k.1; k.2])) ++ (st_tag_keys st ≫= (fun k => [be_bytes 8 k.1; ab k.2])).

Fixpoint cut (fuel : nat) (l : bytes) : list bytes :=
  match fuel, l with
  | S fuel, n :: l => take (Z.to_nat (b2z n)) l :: cut fuel (drop (Z.to_nat (b2z n)) l)
  | _, _ => []
  end.

Fixpoint pairs (l : list bytes) : list (bytes * bytes) :=
  match l with a :: b :: l => (a, b) :: pairs l | _ => [] end.

Definition state_of (l : bytes) : option SessionState :=
  match cut (length l) l with
  | id :: pub :: sg :: h :: g :: n :: rest =>
      Some (mkState (mkMemberState id pub sg (copy_from_slice 32 h) (take (length n) (pairs rest)))
              (match g with [] => None | _ => Some g end)
              ((fun k => (be_value k.1, copy_from_slice 32 k.2)) <$> drop (length n) (pairs rest)))
  | _ => None
  end.

#[export] Instance MemberState_eq_dec : EqDecision MemberState.
Proof. solve_decision. Defined.
#[export] Instance SessionState_eq_dec : EqDecision SessionState.
Proof. solve_decision. Defined.

#[export] Instance format : StateFormat := {|
  state_to_bytes st :=
    let l := pieces st ≫= (fun x => z2b (zlen x) :: x) in
    if bool_decide (state_of l = Some st) then Some l else None;
  state_from_bytes := state_of |}.

#[export] Instance format_laws : StateFormatLaws format.
Proof. intros st l. cbn [state_to_bytes format]. cbv zeta. case_bool_decide; [|done]. by intros [= <-]. Qed.

End SessionExample.

Export (hints) SessionExample.

Module Talking.
Import SessionExample.

Definition sk (n : Z) : @SecretKey Hybrid.HybridExample.xwing := be_arr 32 n.
Definition key4 : arr 32 := be_arr 32 104.
Definition key5 : arr 32 := be_arr 32 105.
Definition her : CSession :=
  mkSession (mkMember [] x0a [x01; x61] [x0a] (sk 1)) (Some (opened (ML := mls) [([x01], [x02])] false))
    [(4, key4); (5, key5)] None [].
Definition him : CSession :=
  mkSession (mkMember [] x0b [x01; x62] [x0b] (sk 2)) (Some (opened (ML := mls) [([x01], [x02])] false))
    [(3, be_arr 32 103); (4, key4); (5, key5)] None [].
Definition behind : CSession :=
  mkSession (mkMember [] x0b [x01; x62] [x0b] (sk 2)) (Some (opened (ML := mls) [] false)) [(4, key4)] None [].
Definition said : bytes := frame_encode [x07; x08].
Definition nonces (_ : nat) : option (arr NONCE_LEN) := Some (be_arr NONCE_LEN 3).
Definition copies : list bytes :=
  match seal_for_group her said 7200 nonces with Ok es => es | Err _ => [] end.
Definition commit_copies : list bytes :=
  match seal_commit_for_group her said 7200 nonces with Ok es => es | Err _ => [] end.
Definition alone : CSession := mkSession (member her) None [] None [].
Definition doings : list Doing :=
  [DFound; DInvite said; DInvite said; DTrust; DInvite said; DEncapsulate (frame_encode (ab (sk 3))) []; DInvite said].
Definition phrase : bytes := replicate 9 x61.
Definition got_or {A E} (d : A) (r : Result A E) : A := match r with Ok a => a | Err _ => d end.
Lemma got {A E} (d : A) (r : Result A E) : is_ok r = true -> r = Ok (got_or d r).
Proof. by destruct r. Qed.
Definition sealing_key : SessionKey := mkSessionKey (be_arr 32 (Toy.sum (phrase ++ ab (be_arr 16 9)))) (be_arr 16 9).
Definition put_away : bytes := got_or [] (seal_session her sealing_key (Some (be_arr 24 5))).
End Talking.

Lemma a_copy_for_every_member_witness :
  exists x, Talking.copies !! 0%nat = Some x /\ open_mine Talking.him x 9000 7200 = Ok Talking.said.
Proof.
  refine (proj2 (a_copy_for_every_member Talking.her (opened (ML := SessionExample.mls) [([x01], [x02])] false)
    Talking.said [x07; x08] 7200 Talking.nonces Talking.copies _ _ _ _ _) 0%nat Talking.him 9000 7200 Talking.key5 _ _ _ _ _).
  - reflexivity.
  - vm_compute. reflexivity.
  - discriminate.
  - lia.
  - vm_compute. reflexivity.
  - vm_compute. reflexivity.
  - reflexivity.
  - by right; right; left.
  - apply SessionExample.apart_by_tag. intros k Hk. apply elem_of_cons in Hk as [->|Hk]; [right; vm_compute; discriminate|].
    apply elem_of_cons in Hk as [->|Hk]; [right; vm_compute; discriminate|]. apply list_elem_of_singleton in Hk as ->. by left.
  - lia.
Defined.

Lemma a_commit_reaches_who_is_behind_witness :
  exists x, Talking.commit_copies !! 0%nat = Some x /\ open_mine Talking.behind x 9000 7200 = Ok Talking.said.
Proof.
  refine (a_commit_reaches_who_is_behind Talking.her (opened (ML := SessionExample.mls) [([x01], [x02])] false)
    Talking.said [x07; x08] 7200 Talking.nonces Talking.commit_copies 0%nat Talking.behind 9000 7200 Talking.key4
    _ _ _ _ _ _ _ _ _ _).
  - reflexivity.
  - vm_compute. reflexivity.
  - discriminate.
  - lia.
  - vm_compute. reflexivity.
  - vm_compute. reflexivity.
  - reflexivity.
  - reflexivity.
  - apply SessionExample.apart_by_tag. intros k Hk. apply list_elem_of_singleton in Hk as ->. by left.
  - lia.
Defined.


Lemma a_session_comes_back_witness :
  unlock Talking.phrase Talking.put_away = Ok Talking.sealing_key.
Proof.
  refine (proj1 (a_session_comes_back Talking.her Talking.sealing_key (Some (be_arr 24 5)) Talking.phrase
    (Some (be_arr 16 9)) Talking.put_away _ _)).
  - vm_compute. reflexivity.
  - apply Talking.got. vm_compute. reflexivity.
Defined.

Lemma safety_number_names_the_keys_witness :
  safety_number Talking.her = safety_number Talking.him /\ exists n, safety_number Talking.her = Ok n.
Proof.
  pose proof (safety_number_names_the_keys Talking.her Talking.him
    (opened (ML := SessionExample.mls) [([x01], [x02])] false)
    (opened (ML := SessionExample.mls) [([x01], [x02])] false) eq_refl eq_refl) as H.
  cbv zeta in H. destruct H as (H & _ & n & Hn & _).
  - by repeat apply Forall_cons_2; [..|apply Forall_nil_2].
  - by repeat apply Forall_cons_2; [..|apply Forall_nil_2].
  - split; [apply H; intros k; reflexivity|by exists n].
Defined.
