(* ===== verification/Resume.v ===== *)
(** * Who a device is, and a conversation carried across a restart

    [crates/rotelyx-core/src/identity.rs]: the identity of a device, the name it shows
    in one conversation, and the number two identities are compared by.  The paths of
    [store.rs].  And [crates/rotelyx-cli/src/resume.rs] (copied in [rotelyx-desktop],
    and with a key for a passphrase in [rotelyx-web]): the file a conversation is kept
    in, named after the address it was reached at. *)

From S2P Require Import Prelude Crypto Hex Text Group GroupLife SessionFacts.
From S2P Require ClientSession.
Import ClientSession (SessionState, mkState, st_member, st_group_id, StateFormat, state_to_bytes, state_from_bytes, state_read_written).
From S2P Require Hybrid AtRest DeviceStore.
Import Hybrid (XWing, Ed25519).
Import AtRest (Argon2).
Import DeviceStore (Path, Disk, Fate, Written, StoreError, save_conversation, load_conversation, forget_conversation).

(** ** Identities *)

(** The public half of an Ed25519 secret key, and BLAKE3's output of any length. *)
Class KeyPair := { public_of : arr 32 -> arr 32 }.
Class Blake3Xof := { blake3_xof : string -> bytes -> forall n : nat, arr n }.

Definition NAME_CONTEXT : string := "rotelyx per-conversation name v1".
Definition NUMBER_CONTEXT : string := "rotelyx safety-number v1".
Definition GROUPS : nat := 12.

Section Identities.
Context `{BL : Blake3, KP : KeyPair, BX : Blake3Xof}.

Record RotelyxId := mkId { endpoint_id : arr 32 }.

Definition id_text (a : RotelyxId) : bytes := hex_lower (ab (endpoint_id a)).

(** The first six characters and the last six, an ellipsis between. *)
Definition ELLIPSIS : bytes := [z2b 226; z2b 128; z2b 166].
Definition short (a : RotelyxId) : bytes :=
  let hex := id_text a in take 6 hex ++ ELLIPSIS ++ drop (length hex - 6) hex.

Record Identity := mkIdentity { id_secret : arr 32; id : RotelyxId }.

Definition from_bytes (secret : arr 32) : Identity := mkIdentity secret (mkId (public_of secret)).
Definition to_storage_bytes (me : Identity) : arr 32 := id_secret me.

Definition name_input (secret : arr 32) (shared : bytes) : bytes :=
  ab secret ++ be_bytes 8 (wrap64 (zlen shared)) ++ shared.

Definition in_conversation (me : Identity) (shared : bytes) : RotelyxId :=
  mkId (public_of (blake3_derive NAME_CONTEXT (name_input (id_secret me) shared))).

(** [format!("{:05}", v % 100_000)] *)
Definition five_digits (v : Z) : bytes :=
  let l := print_u64 (v mod 100000) in replicate (5 - length l) (z2b 48) ++ l.

Definition words_of (l : bytes) (n : nat) : list Z :=
  (fun i => be_value (take 4 (drop (4 * i) l))) <$> seq 0 n.

Definition safety_number (a b : RotelyxId) : bytes :=
  let '(lo, hi) := if bytes_le (ab (endpoint_id a)) (ab (endpoint_id b)) then (a, b) else (b, a) in
  let l := ab (blake3_xof NUMBER_CONTEXT (ab (endpoint_id lo) ++ ab (endpoint_id hi)) (GROUPS * 4)) in
  spaced (five_digits <$> words_of l GROUPS).
End Identities.

(** ** Paths *)

Record Paths := mkPaths { identity_path : Path; invitations_path : Path; conversation_path : Path }.

Definition from_identity (identity : Path) : Paths :=
  mkPaths identity (set_extension identity (String.list_byte_of_string "invites")) (set_extension identity (String.list_byte_of_string "conversation")).

Definition conversation_at (p : Paths) (address : RotelyxId) : Path :=
  set_extension (conversation_path p) (take 16 (id_text address) ++ String.list_byte_of_string ".conversation").

(** ** Carrying a conversation across a restart *)

Section Resume.
Context `{BL : Blake3, BH : Blake3Hash, AE : Aead, ED : Ed25519, KD : Argon2}.
Context `{ML : Mls, LF : @MlsLife ML, XW : XWing, XS : @XWingStorage XW}.

Record Saved := mkSaved { sv_member : MemberState; sv_group_id : bytes }.

(** The postcard encoding of [Saved]. *)
Class SavedFormat := { encode_saved : Saved -> option bytes; decode_saved : bytes -> option Saved }.
Class SavedFormatLaws (SF : SavedFormat) : Prop :=
  saved_read_back s l : encode_saved s = Some l -> decode_saved l = Some s.

Inductive ResumeError :=
| OfGroup (e : GroupError)
| Encoding
| Decoding
| OfStore (e : StoreError).

Context `{SF : SavedFormat}.

Definition save (d : Disk) (p : Paths) (address : RotelyxId) (m : Member) (c : Conversation) (passphrase : bytes)
    (salt : arr 16) (nonce : arr 24) (fate : Fate) : Result unit ResumeError * Disk :=
  match (let? st := map_err OfGroup (member_export m (store_of (group c))) in
         ok_or Encoding (encode_saved (mkSaved st (group_id c)))) with
  | Err e => (Err e, d)
  | Ok l =>
      let '(r, d) := save_conversation d (conversation_at p address) l passphrase salt nonce fate in
      (map_err OfStore r, d)
  end.

Definition reopen (d : Disk) (p : Paths) (address : RotelyxId) (passphrase : bytes) (readable : bool)
    : Result (option (Member * Conversation)) ResumeError :=
  let? found := map_err OfStore (load_conversation d (conversation_at p address) passphrase readable) in
  match found with
  | None => Ok None
  | Some l =>
      let? saved := ok_or Decoding (decode_saved l) in
      let? m := map_err OfGroup (member_restore (sv_member saved)) in
      let? maybe := map_err OfGroup (GroupLife.reopen m (sv_group_id saved)) in
      Ok ((fun c => (m, c)) <$> maybe)
  end.

Definition forget (d : Disk) (p : Paths) (address : RotelyxId) (removable : bool) : Result unit ResumeError * Disk :=
  let '(r, d) := forget_conversation d (conversation_at p address) removable in (map_err OfStore r, d).
End Resume.

(** ** Which file *)

Lemma take_hex l n : take (2 * n) (hex_lower l) = hex_lower (take n l).
Proof.
  revert n. induction l as [|b l IH]; intros [|n]; [done..|].
  specialize (IH n). replace (2 * S n)%nat with (S (S (2 * n))) by lia.
  generalize dependent (2 * n)%nat. intros k IH. change (hex_digit (b2z b / 16) :: hex_digit (b2z b mod 16) :: take k (hex_lower l) =
    hex_digit (b2z b / 16) :: hex_digit (b2z b mod 16) :: hex_lower (take n l)). by rewrite IH.
Qed.

Lemma set_extension_inj p e e' : set_extension p e = set_extension p e' -> e = e'.
Proof.
  unfold set_extension. destruct (rsplit SLASH p) as [[]|]; rewrite ?app_assoc; apply app_inv_head.
Qed.

(** Sixteen characters of an address are eight bytes of it. *)
Lemma conversation_at_iff p a a' :
  conversation_at p a = conversation_at p a' <-> take 8 (ab (endpoint_id a)) = take 8 (ab (endpoint_id a')).
Proof.
  unfold conversation_at, id_text. change 16%nat with (2 * 8)%nat. rewrite !take_hex. split; [|by intros ->].
  intros H%set_extension_inj. apply hex_lower_inj. by apply app_inv_tail in H.
Qed.

(** ** Carried on *)

Section CarriedOn.
Context `{BL : Blake3, BH : Blake3Hash, AE : Aead, ED : Ed25519, KD : Argon2, AL : !AeadLaws AE}.
Context `{ML : Mls, LF : @MlsLife ML, XW : XWing, XS : @XWingStorage XW, KL : !KeptLaws LF XS}.
Context `{SF : SavedFormat, SL : !SavedFormatLaws SF}.

Lemma saved_loads d p a m c pass salt nonce d' :
  save d p a m c pass salt nonce Written = (Ok tt, d') ->
  exists st l, member_export m (store_of (group c)) = Ok st /\ encode_saved (mkSaved st (group_id c)) = Some l /\
    save_conversation d (conversation_at p a) l pass salt nonce Written = (Ok tt, d').
Proof.
  unfold save. destruct (member_export _ _) as [st|] eqn:Em; cbn [map_err rbind]; [|done].
  destruct (encode_saved _) as [l|] eqn:El; cbn [ok_or]; [|done].
  destruct (save_conversation _ _ _ _ _ _ _) as [[[]|e] d1] eqn:Es; [|done]. intros [= <-]. by exists st, l.
Qed.

Lemma restored_member m st s :
  member_export m st = Ok s ->
  member_restore s = Ok (mkMember st (signer m) (credential m) (member_signature_key m) (hybrid_sk m)).
Proof.
  unfold member_export. intros (l & Hl & [= <-])%rbind_ok. destruct (signer_to_bytes _) as [l'|] eqn:E; [|done].
  injection Hl as ->. unfold member_restore. cbn [ms_signer ms_storage ms_identity ms_signature_public ms_hybrid_secret].
  by rewrite (signer_read_back _ _ E), store_read_back, secret_read_back.
Qed.

(** C34: a conversation that was saved is the one reopened at its address: the same
    group and the same signing key, nothing held unmerged, and not a word said in it
    before it has rekeyed.  Any other address reopens what it did before, unless its
    first eight bytes are the same, and then it reopens this one.  Once forgotten there
    is nothing at either. *)
Theorem what_is_saved_is_reopened d p a m c pass salt nonce d' :
  save d p a m c pass salt nonce Written = (Ok tt, d') ->
  (exists m' c',
     reopen d' p a pass true = Ok (Some (m', c')) /\ group c' = group c /\ signer m' = signer m /\ pending c' = None /\
     forall by_ text, send c' by_ text = (Err RestoredAndNotRekeyed, c')) /\
  (forall a', reopen d' p a' pass true =
     reopen (if decide (take 8 (ab (endpoint_id a')) = take 8 (ab (endpoint_id a))) then d' else d) p
       (if decide (take 8 (ab (endpoint_id a')) = take 8 (ab (endpoint_id a))) then a else a') pass true) /\
  exists gone, forget d' p a true = (Ok tt, gone) /\ reopen gone p a pass true = Ok None.
Proof.
  intros (st & l & Hm & Hl & Hs)%saved_loads.
  destruct (DeviceStore.saved_conversation_loads _ _ _ _ _ _ _ Hs) as (Hload & Hother & Hgone).
  split; [|split].
  - exists (mkMember (store_of (group c)) (signer m) (credential m) (member_signature_key m) (hybrid_sk m)), (opened (group c) true).
    split; [|done]. unfold reopen. rewrite Hload. cbn [map_err rbind].
    rewrite (saved_read_back _ _ Hl). cbn [ok_or rbind sv_member sv_group_id]. rewrite (restored_member _ _ _ Hm).
    cbn [map_err rbind]. unfold GroupLife.reopen, group_id. cbn [m_store]. by rewrite group_read_back.
  - intros a'. unfold reopen. case_decide as E.
    + by rewrite (proj2 (conversation_at_iff p a' a) E).
    + unfold load_conversation. rewrite Hother; [done|]. by rewrite conversation_at_iff.
  - unfold forget. destruct (forget_conversation _ _ _) as [r gone]. destruct Hgone as (-> & Hg & _).
    exists gone. split; [done|]. unfold reopen. by rewrite Hg.
Qed.
End CarriedOn.

(** ** Numbers *)

Lemma length_decimal f k z : 0 <= z < 10 ^ Z.of_nat (S k) -> (length (decimal f z) <= S k)%nat.
Proof.
  revert k z. induction f as [|f IH]; intros k z Hz; [cbn; lia|]. cbn [decimal]. rewrite length_app. cbn [length].
  destruct (Z.ltb_spec z 10); [cbn; lia|]. destruct k as [|k]; [cbn in Hz; lia|].
  enough (length (decimal f (z / 10)) <= S k)%nat by lia. apply IH.
  rewrite (Nat2Z.inj_succ (S k)), Z.pow_succ_r in Hz by lia. split; [apply Z.div_pos; lia|].
  apply Z.div_lt_upper_bound; lia.
Qed.

Lemma length_five_digits v : length (five_digits v) = 5%nat.
Proof.
  unfold five_digits. rewrite length_app, length_replicate.
  enough (length (print_u64 (v mod 100000)) <= 5)%nat by lia.
  apply length_decimal. change (10 ^ Z.of_nat 5) with 100000. apply Z.mod_pos_bound. lia.
Qed.

Lemma length_spaced_five l : (0 < length l)%nat -> length (spaced (five_digits <$> l)) = (6 * length l - 1)%nat.
Proof.
  destruct l as [|v l]; [cbn; lia|]. intros _. cbn [fmap list_fmap spaced]. rewrite length_app, length_five_digits.
  enough (length ((five_digits <$> l) ≫= cons SPACE) = (6 * length l)%nat) as -> by (cbn [length]; lia).
  induction l as [|w l IH]; [done|]. cbn [fmap list_fmap mbind list_bind]. rewrite length_app, IH.
  cbn [length]. rewrite length_five_digits. lia.
Qed.

(** Two identities are compared by one number, whichever of the two shows it:
    twelve groups of five digits. *)
Theorem number_is_for_the_pair `{BX : Blake3Xof} a b :
  safety_number a b = safety_number b a /\ length (safety_number a b) = 71%nat.
Proof.
  unfold safety_number. split.
  - destruct (bytes_le_total (ab (endpoint_id a)) (ab (endpoint_id b))) as [H|H].
    + rewrite H. destruct (bytes_le (ab (endpoint_id b)) (ab (endpoint_id a))) eqn:E; [|done].
      destruct a as [a], b as [b]. by rewrite (arr_eq _ _ (bytes_le_antisym _ _ H E)).
    + rewrite H. destruct (bytes_le (ab (endpoint_id a)) (ab (endpoint_id b))) eqn:E; [|done].
      destruct a as [a], b as [b]. by rewrite (arr_eq _ _ (bytes_le_antisym _ _ H E)).
  - destruct (if bytes_le _ _ then _ else _) as [lo hi]. cbv zeta.
    rewrite length_spaced_five; unfold words_of; rewrite length_fmap, length_seq; unfold GROUPS; lia.
Qed.

(** A name shown in one conversation is of this device's secret and what that
    conversation shares, the one not running into the other. *)
Lemma name_input_inj s s' k k' : name_input s k = name_input s' k' -> s = s' /\ k = k'.
Proof.
  intros H. apply app_inj_1 in H as [Hs H]; [|by rewrite !length_ab].
  apply app_inj_1 in H as [_ H]; [|by rewrite !length_be_bytes]. split; [by apply arr_eq|done].
Qed.

(** ** Witness *)

Import Toy.
Import (hints) AtRest.AtRestExample Hybrid.HybridExample.

Module ResumeExample.
Import SessionExample.
#[local] Existing Instance SessionExample.aead | 0.

(** A saved conversation is written as the state of a session that has no more to it. *)
Definition state (s : Saved) : SessionState := mkState (sv_member s) (Some (sv_group_id s)) [].
Definition unstate (st : SessionState) : Saved := mkSaved (st_member st) (default [] (st_group_id st)).

#[export] Instance saved_format : SavedFormat :=
  {| encode_saved s := state_to_bytes (state s); decode_saved l := unstate <$> state_from_bytes l |}.

#[export] Instance saved_format_laws : SavedFormatLaws saved_format.
Proof.
  intros s l H. cbn [encode_saved saved_format] in H. cbn [decode_saved saved_format].
  rewrite (state_read_written _ _ H). by destruct s.
Qed.

Definition paths : Paths := from_identity (String.list_byte_of_string "home/alice.key").
Definition here : RotelyxId := mkId (be_arr 32 (2 ^ 250 + 7)).
Definition elsewhere : RotelyxId := mkId (be_arr 32 (2 ^ 250 + 8)).
Definition apart : RotelyxId := mkId (be_arr 32 (2 ^ 251)).
Definition pass : bytes := AtRest.AtRestExample.pass.
Definition me : Member := mkMember [] x0a [x01; x61] [x0a] (be_arr 32 1).
Definition talking : Conversation := opened (ML := mls) [([x01], [x02])] false.
Definition saving : Result unit ResumeError * Disk := save ∅ paths here me talking pass (be_arr 16 5) (be_arr 24 6) Written.

Example where_it_is : conversation_at paths here = String.list_byte_of_string "home/alice.0400000000000000.conversation".
Proof. vm_compute. reflexivity. Qed.
End ResumeExample.

Import ResumeExample.
Import SessionExample.
#[local] Existing Instance SessionExample.aead | 0.

Lemma what_is_saved_is_reopened_witness :
  exists d' m' c',
    saving = (Ok tt, d') /\ reopen d' paths here pass true = Ok (Some (m', c')) /\ group (ML := mls) c' = ([([x01], [x02])] : Kept) /\
    reopen d' paths elsewhere pass true = Ok (Some (m', c')) /\ reopen d' paths apart pass true = Ok None.
Proof.
  assert (fst saving = Ok tt) as H by (vm_compute; reflexivity).
  destruct saving as [r d'] eqn:E. cbn [fst] in H. subst r.
  destruct (what_is_saved_is_reopened (ML := mls) (LF := life) (KL := kept) ∅ paths here me talking pass
    (be_arr 16 5) (be_arr 24 6) d' E) as ((m' & c' & Hr & Hg & _) & Hother & _).
  exists d', m', c'. split; [done|]. split; [exact Hr|]. split; [exact Hg|]. split.
  - rewrite (Hother elsewhere), decide_True by (vm_compute; reflexivity).
    rewrite decide_True by (vm_compute; reflexivity). exact Hr.
  - rewrite (Hother apart), !decide_False by (vm_compute; discriminate). reflexivity.
Defined.
