(* ===== verification/MeetingCode.v ===== *)
(** * The meeting place

    How two people who share nothing but a code find each other: the codes, the tag a
    phrase names and the envelopes left under it, of
    [crates/rotelyx-wasm/src/lib.rs].  The bytes of a code are what [getrandom]
    wrote.  A panic is [None]. *)

From S2P Require Import Prelude Crypto Envelope Capability Hex Text ClientSession SessionFacts.
From S2P Require Session Group GroupLife.
Import Session (FrameBase64, frame_encode, frame_decode, FrameBase64Laws).

(** The upper-case table of Unicode: what [char::to_uppercase] makes of a character,
    each as its bytes. *)
Class Unicode := to_uppercase : bytes -> bytes.

Definition ascii_upper (b : byte) : byte := if in_range 97 122 b then z2b (b2z b - 32) else b.

Class UnicodeLaws `(Unicode) : Prop :=
  uppercase_ascii : forall b, b2z b < 128 -> to_uppercase [b] = [ascii_upper b].

(** ** Codes *)

Definition MEETING_PREFIX : bytes := String.list_byte_of_string "RTLX1".
Definition MEETING_ALPHABET : bytes := String.list_byte_of_string "ABCDEFGHIJKLMNOPQRSTUVWXYZ234567".
Definition MEETING_ENTROPY : nat := 15.
Definition MEETING_BODY : nat := MEETING_ENTROPY * 8 / 5.

Definition letter (z : Z) : byte := default x00 (MEETING_ALPHABET !! Z.to_nat z).

(** [while bits >= 5]: every turn takes five. *)
Fixpoint drain (fuel : nat) (buffer bits : Z) : bytes * Z :=
  match fuel with
  | O => ([], bits)
  | S fuel =>
      if 5 <=? bits then
        let '(out, rest) := drain fuel buffer (bits - 5) in
        (letter (Z.land (Z.shiftr buffer (bits - 5)) 31) :: out, rest)
      else ([], bits)
  end.

(** One byte into the thirty-two bits of the buffer, and the letters it completes. *)
Definition take_byte (st : bytes * Z * Z) (b : byte) : bytes * Z * Z :=
  let '(out, buffer, bits) := st in
  let buffer := Z.lor (wrap32 (Z.shiftl buffer 8)) (b2z b) in
  let bits := bits + 8 in
  let '(letters, bits) := drain (Z.to_nat bits) buffer bits in
  (out ++ letters, buffer, bits).

Definition letters_of (l : bytes) : bytes := (foldl take_byte ([], 0, 0) l).1.1.

Definition new_meeting_code (random : option (arr MEETING_ENTROPY)) : Result bytes Error :=
  let? r := ok_or NoRandomness random in
  Ok (MEETING_PREFIX ++ letters_of (ab r)).

Definition SCHEME : bytes := String.list_byte_of_string "rotelyx://".

Definition eq_ignore_ascii_case (a b : bytes) : bool :=
  let lower (c : byte) := if in_range 65 90 c then z2b (b2z c + 32) else c in
  bool_decide (lower <$> a = lower <$> b).

(** [str::strip_prefix]. *)
Definition strip_prefix (p l : bytes) : option bytes :=
  if bool_decide (take (length p) l = p) then Some (drop (length p) l) else None.

(** [char::is_whitespace] of one character. *)
Definition is_whitespace (c : bytes) : bool := bool_decide (is_Some (space_first c)).

Section Codes.
Context `{U : Unicode}.

(** [&text[..SCHEME.len()]] panics inside a character. *)
Definition without_scheme (text : bytes) : option bytes :=
  if zlen SCHEME <=? zlen text then
    head ← str_slice text 0 (length SCHEME);
    if eq_ignore_ascii_case head SCHEME then Some (drop (length SCHEME) text) else Some text
  else Some text.

Definition cleaned (text : bytes) : bytes :=
  retain (fun c => negb (is_whitespace c) && negb (bool_decide (c = [x2d]))) (chars text) ≫= to_uppercase.

Definition read_meeting_code (input : rstring) : option (Result bytes Error) :=
  text ← without_scheme (trim (rs input));
  Some
    (let? body := ok_or NotACode (strip_prefix MEETING_PREFIX (cleaned text)) in
     if negb (length body =? MEETING_BODY)%nat then Err CodeLength
     else if negb (forallb (fun b => bool_decide (b ∈ MEETING_ALPHABET)) body) then Err CodeLetters
     else Ok (MEETING_PREFIX ++ body)).
End Codes.

Fixpoint in_fours (at_ : nat) (cs : list bytes) : bytes :=
  match cs with
  | [] => []
  | c :: cs => (if (at_ mod 4 =? 0)%nat then [SPACE] else []) ++ c ++ in_fours (S at_) cs
  end.

Definition pretty_meeting_code (code : bytes) : bytes :=
  MEETING_PREFIX ++ in_fours 0 (chars (default code (strip_prefix MEETING_PREFIX code))).

(** ** The place a phrase names *)

Section Places.
Context `{BL : Blake3, FB : FrameBase64}.

Definition RENDEZVOUS_CONTEXT : string := "rotelyx browser rendezvous v1".

Definition rendezvous_tag (passphrase : bytes) : Result bytes Error :=
  let phrase := trim passphrase in
  if zlen phrase <? 8 then Err ShortPhrase
  else Ok (hex_lower (ab (blake3_derive RENDEZVOUS_CONTEXT phrase))).

Definition tag_or_not (hex : rstring) : option (Result Tag Error) :=
  map_err (fun _ => NotATag) <$> tag_from_hex hex.

Definition seal_under (tag_hex : rstring) (payload_b64 : bytes) : option (Result bytes Error) :=
  r ← tag_or_not tag_hex;
  Some
    (let? tag := r in
     let? payload := decode payload_b64 in
     let? e := map_err OfEnvelope (envelope_seal tag payload) in
     Ok (frame_encode (envelope_to_bytes e))).

(** The zero bytes at the end come off. *)
Definition open_under (envelope_b64 : bytes) (tag_hex : rstring) : option (Result bytes Error) :=
  r ← tag_or_not tag_hex;
  Some
    (let? expected := r in
     let? e := read_envelope envelope_b64 in
     if negb (bool_decide (env_tag e = expected)) then Err NotInWindow
     else
       let end_ := match rposition (fun b => negb (bool_decide (b = zero_byte))) (payload e) with
                   | None => O
                   | Some last => S last
                   end in
       Ok (frame_encode (take end_ (payload e)))).

Definition receipt_for (envelope_b64 : bytes) : Result bytes Error :=
  let? e := read_envelope envelope_b64 in Ok (hex_lower (ab (digest e))).

Definition tag_of (envelope_b64 : bytes) : Result bytes Error :=
  let? e := read_envelope envelope_b64 in Ok (hex_lower (ab (env_tag e))).
End Places.

(** ** Lemmas *)

(** *** Five bits at a time *)

(** The [i]th group of five bits of [v], of those [n] bytes make. *)
Definition group (v : Z) (n i : nat) : Z := v / 2 ^ (8 * Z.of_nat n - 5 * Z.of_nat (S i)) mod 32.

Lemma land_31 z k : 0 <= k -> Z.land (Z.shiftr z k) 31 = z / 2 ^ k mod 32.
Proof. intros Hk. rewrite Z.shiftr_div_pow2 by done. change 31 with (Z.ones 5). by rewrite Z.land_ones. Qed.

Lemma push_value v b :
  0 <= v -> Z.lor (wrap32 (Z.shiftl (wrap32 v) 8)) (b2z b) = wrap32 (v * 256 + b2z b).
Proof.
  intros Hv. pose proof (b2z_range b) as Hb. pose proof (Z.mod_pos_bound v 16777216 ltac:(lia)) as Hm. unfold wrap32.
  assert (Z.shiftl (v mod 4294967296) 8 mod 4294967296 = Z.shiftl (v mod 16777216) 8) as ->.
  { rewrite !Z.shiftl_mul_pow2 by done. change (2 ^ 8) with 256. rewrite Zmult_mod_idemp_l.
    change 4294967296 with (16777216 * 256). by rewrite Z.mul_mod_distr_r. }
  rewrite lor_shiftl by (change (2 ^ 8) with 256; lia). change (2 ^ 8) with 256.
  change 4294967296 with (16777216 * 256) at 1. pose proof (Z.div_mod v 16777216 ltac:(lia)).
  apply (Z.mod_unique _ _ (v / 16777216)); lia.
Qed.

Lemma wrap32_group v j : 0 <= j <= 27 -> wrap32 v / 2 ^ j mod 32 = v / 2 ^ j mod 32.
Proof.
  intros Hj. enough (forall k, k = 5 -> (v mod 2 ^ 32) / 2 ^ j mod 2 ^ k = v / 2 ^ j mod 2 ^ k) as H by by apply (H 5).
  intros k Hk. apply Z.bits_inj'. intros i Hi. destruct (Z.lt_ge_cases i k) as [H|H].
  - rewrite !Z.mod_pow2_bits_low, !Z.div_pow2_bits by lia. by rewrite Z.mod_pow2_bits_low by lia.
  - by rewrite !Z.mod_pow2_bits_high by lia.
Qed.

Lemma drain_spec fuel v n k m rest :
  8 * Z.of_nat n = 5 * Z.of_nat (k + m) + rest -> 0 <= rest < 5 -> 5 * Z.of_nat m + rest <= 32 -> (m <= fuel)%nat ->
  drain fuel (wrap32 v) (5 * Z.of_nat m + rest) = ((fun i => letter (group v n i)) <$> seq k m, rest).
Proof.
  revert k m. induction fuel as [|fuel IH]; intros k m Hn Hr Hm Hf.
  { destruct m; [|lia]. done. }
  cbn [drain]. destruct m as [|m].
  { rewrite (proj2 (Z.leb_gt _ _)) by lia. done. }
  rewrite (proj2 (Z.leb_le _ _)) by lia.
  replace (5 * Z.of_nat (S m) + rest - 5) with (5 * Z.of_nat m + rest) by lia.
  rewrite (IH (S k) m) by lia. cbn [seq]. rewrite fmap_cons. do 3 f_equal.
  rewrite land_31, wrap32_group by lia. unfold group. do 3 f_equal. lia.
Qed.

(** The groups already out are those of the longer number too. *)
Lemma group_more v n i b : 5 * Z.of_nat (S i) <= 8 * Z.of_nat n -> group (v * 256 + b2z b) (S n) i = group v n i.
Proof.
  intros Hi. unfold group. replace (8 * Z.of_nat (S n) - 5 * Z.of_nat (S i))
    with (8 + (8 * Z.of_nat n - 5 * Z.of_nat (S i))) by lia.
  rewrite Z.pow_add_r by lia. rewrite <- Z.div_div by lia. change (2 ^ 8) with 256.
  rewrite Z.div_add_l, (Z.div_small (b2z b)), Z.add_0_r by (lia || apply b2z_range). done.
Qed.

Lemma letters_of_spec l :
  foldl take_byte ([], 0, 0) l =
    ((fun i => letter (group (be_value l) (length l) i)) <$> seq 0 (8 * length l / 5),
     wrap32 (be_value l), Z.of_nat (8 * length l mod 5)).
Proof.
  induction l as [|b l IH] using rev_ind; [done|]. rewrite foldl_snoc, IH. cbn [take_byte].
  pose proof (be_value_range l) as Hv. rewrite push_value by lia.
  rewrite be_value_app, length_app. cbn [length]. rewrite Nat.add_1_r. change (be_value [b]) with (b2z b).
  change (256 ^ Z.of_nat 1) with 256.
  set (n := length l) in *. set (v := be_value l) in *.
  pose proof (Nat.div_mod (8 * n) 5 ltac:(lia)) as H1. pose proof (Nat.mod_upper_bound (8 * n) 5 ltac:(lia)) as H2.
  pose proof (Nat.div_mod (8 * S n) 5 ltac:(lia)) as H3. pose proof (Nat.mod_upper_bound (8 * S n) 5 ltac:(lia)) as H4.
  set (k := (8 * n / 5)%nat) in *. set (r := (8 * n mod 5)%nat) in *.
  set (k' := (8 * S n / 5)%nat) in *. set (r' := (8 * S n mod 5)%nat) in *.
  replace (Z.of_nat r + 8) with (5 * Z.of_nat (k' - k) + Z.of_nat r') by lia.
  rewrite (drain_spec _ (v * 256 + b2z b) (S n) k (k' - k) (Z.of_nat r')) by lia.
  replace k' with (k + (k' - k))%nat at 2 by lia. rewrite seq_app, fmap_app. do 3 f_equal.
  apply list_fmap_ext. intros i j Hi. apply lookup_seq in Hi as [-> Hi]. by rewrite group_more by lia.
Qed.

Lemma letters_of_all l : letters_of l = (fun i => letter (group (be_value l) (length l) i)) <$> seq 0 (8 * length l / 5).
Proof. unfold letters_of. by rewrite letters_of_spec. Qed.

Lemma letter_in z : 0 <= z < 32 -> letter z ∈ MEETING_ALPHABET.
Proof.
  intros Hz. unfold letter. destruct (MEETING_ALPHABET !! Z.to_nat z) as [b|] eqn:E; [by eapply list_elem_of_lookup_2|].
  apply lookup_ge_None in E. change (length MEETING_ALPHABET) with 32%nat in E. lia.
Qed.

Lemma alphabet_plain b : b ∈ MEETING_ALPHABET -> plain b = true /\ ascii_upper b = b /\ b <> x2d /\ b2z b < 128.
Proof.
  assert (Forall (fun b => plain b = true /\ ascii_upper b = b /\ b <> x2d /\ b2z b < 128) MEETING_ALPHABET) as H.
  { repeat (apply Forall_cons_2; [by repeat split|]). apply Forall_nil_2. }
  rewrite Forall_forall in H. apply H.
Qed.

Lemma letter_inj a b : 0 <= a < 32 -> 0 <= b < 32 -> letter a = letter b -> a = b.
Proof.
  intros Ha Hb. assert (NoDup MEETING_ALPHABET) as Hn by (apply (bool_decide_unpack _); vm_compute; exact I).
  unfold letter. destruct (MEETING_ALPHABET !! Z.to_nat a) as [x|] eqn:Ex.
  2: { apply lookup_ge_None in Ex. change (length MEETING_ALPHABET) with 32%nat in Ex. lia. }
  destruct (MEETING_ALPHABET !! Z.to_nat b) as [y|] eqn:Ey.
  2: { apply lookup_ge_None in Ey. change (length MEETING_ALPHABET) with 32%nat in Ey. lia. }
  cbn. intros ->. pose proof (NoDup_lookup _ _ _ _ Hn Ex Ey). lia.
Qed.

(** Numbers with the same digits. *)
Lemma digits_determine v w m :
  (forall i, (i < m)%nat -> v / 2 ^ (5 * Z.of_nat i) mod 32 = w / 2 ^ (5 * Z.of_nat i) mod 32) ->
  v mod 2 ^ (5 * Z.of_nat m) = w mod 2 ^ (5 * Z.of_nat m).
Proof.
  induction m as [|m IH]; intros H; [by rewrite !Z.mod_1_r|].
  specialize (IH ltac:(intros; apply H; lia)). specialize (H m ltac:(lia)).
  replace (5 * Z.of_nat (S m)) with (5 * Z.of_nat m + 5) by lia. rewrite Z.pow_add_r by lia. change (2 ^ 5) with 32.
  rewrite !(Z.rem_mul_r _ (2 ^ (5 * Z.of_nat m))) by lia. by rewrite IH, H.
Qed.

(** Fifteen bytes are twenty-four letters, and no other bytes are the same. *)
Lemma letters_of_code (r : arr MEETING_ENTROPY) :
  length (letters_of (ab r)) = MEETING_BODY /\ Forall (fun b => b ∈ MEETING_ALPHABET) (letters_of (ab r)) /\
  forall r' : arr MEETING_ENTROPY, letters_of (ab r) = letters_of (ab r') -> r = r'.
Proof.
  rewrite !letters_of_all, length_ab. change (8 * MEETING_ENTROPY / 5)%nat with 24%nat.
  split; [by rewrite length_fmap, length_seq|]. split.
  - apply Forall_fmap, Forall_true. intros i. apply letter_in. apply Z.mod_pos_bound. lia.
  - intros r'. rewrite letters_of_all, length_ab. change (8 * MEETING_ENTROPY / 5)%nat with 24%nat. intros H.
    apply arr_eq. rewrite <- (be_bytes_value (ab r)), <- (be_bytes_value (ab r')), !length_ab. f_equal.
    pose proof (be_value_range (ab r)) as H1. pose proof (be_value_range (ab r')) as H2. rewrite length_ab in H1, H2.
    change (256 ^ Z.of_nat MEETING_ENTROPY) with (2 ^ (5 * Z.of_nat 24)) in H1, H2.
    rewrite <- (Z.mod_small _ _ H1), <- (Z.mod_small _ _ H2). apply digits_determine. intros i Hi.
    apply (f_equal (fun l => l !! (23 - i)%nat)) in H.
    rewrite !list_lookup_fmap, !lookup_seq_lt in H by lia. injection H as H.
    apply letter_inj in H; [|apply Z.mod_pos_bound; lia..]. unfold group in H. cbn [Nat.add] in H.
    replace (8 * Z.of_nat MEETING_ENTROPY - 5 * Z.of_nat (S (23 - i))) with (5 * Z.of_nat i) in H
      by (unfold MEETING_ENTROPY; lia). exact H.
Qed.

(** *** What is read of a code *)

Definition ascii (l : bytes) : Prop := Forall (fun b => b2z b < 128) l.
Definition spacing (b : byte) : bool := is_ascii_space (b2z b) || bool_decide (b = x2d).

(** [t] is the code, but for its case and for white space and hyphens put in. *)
Definition spells (t code : bytes) : Prop :=
  ascii t /\ ascii_upper <$> retain (fun b => negb (spacing b)) t = code.

Lemma ascii_not_space2 b c : b2z b < 128 -> is_space2 (b2z b) c = false.
Proof. intros. unfold is_space2. by rewrite (proj2 (Z.eqb_neq (b2z b) 194)) by lia. Qed.

Lemma ascii_not_space3 b c d : b2z b < 128 -> is_space3 (b2z b) c d = false.
Proof.
  intros. unfold is_space3. by rewrite (proj2 (Z.eqb_neq (b2z b) 225)), (proj2 (Z.eqb_neq (b2z b) 226)),
    (proj2 (Z.eqb_neq (b2z b) 227)) by lia.
Qed.

Lemma space_first_ascii b l :
  b2z b < 128 -> space_first (b :: l) = if is_ascii_space (b2z b) then Some l else None.
Proof.
  intros Hb. cbn [space_first]. destruct (is_ascii_space _); [done|]. destruct l as [|c l]; [done|].
  rewrite ascii_not_space2 by done. destruct l as [|d l]; [done|]. by rewrite ascii_not_space3.
Qed.

Lemma space_last_ascii b l :
  ascii (b :: l) -> space_last (b :: l) = if is_ascii_space (b2z b) then Some l else None.
Proof.
  intros [Hb Hl]%Forall_cons. cbn [space_last]. destruct (is_ascii_space _); [done|]. destruct l as [|c l]; [done|].
  apply Forall_cons in Hl as [Hc Hl]. rewrite ascii_not_space2 by done. destruct l as [|d l]; [done|].
  apply Forall_cons in Hl as [Hd _]. by rewrite ascii_not_space3.
Qed.

Definition bare (l : bytes) : bytes := retain (fun b => negb (spacing b)) l.

Lemma bare_app l k : bare (l ++ k) = bare l ++ bare k.
Proof. apply retain_app. Qed.

Lemma bare_space b l : is_ascii_space (b2z b) = true -> bare (b :: l) = bare l.
Proof. intros Hb. unfold bare, retain. rewrite filter_cons, decide_False; [done|]. unfold spacing. rewrite Hb. intros []. Qed.

(** Trimming takes white space only. *)
Lemma strip_bare step fuel l :
  (forall b l, ascii (b :: l) -> step (b :: l) = if is_ascii_space (b2z b) then Some l else None) -> step [] = None ->
  ascii l -> bare (strip step fuel l) = bare l /\ ascii (strip step fuel l).
Proof.
  intros Hs Hn. revert l. induction fuel as [|fuel IH]; intros l Hl; [done|]. cbn [strip].
  destruct l as [|b l]; [by rewrite Hn|]. rewrite Hs by done. destruct (is_ascii_space (b2z b)) eqn:Eb; [|done].
  rewrite bare_space by done. apply Forall_cons in Hl as [_ Hl]. by apply IH.
Qed.

Lemma bare_reverse l : bare (reverse l) = reverse (bare l).
Proof.
  induction l as [|b l IH]; [done|]. rewrite reverse_cons, bare_app, IH. unfold bare, retain. rewrite !filter_cons.
  destruct (decide _); [by rewrite reverse_cons|]. by rewrite app_nil_r.
Qed.

Lemma trim_bare l : ascii l -> bare (trim l) = bare l /\ ascii (trim l).
Proof.
  intros Hl. unfold trim.
  destruct (strip_bare space_first (length l) l) as [H1 A1]; [|done..|].
  { intros b k Hk. apply space_first_ascii. by apply Forall_cons in Hk as [? _]. }
  set (m := strip _ _ l) in *.
  destruct (strip_bare space_last (length m) (reverse m)) as [H2 A2]; [apply space_last_ascii|done| |].
  { by apply Forall_reverse. }
  rewrite bare_reverse, H2, bare_reverse, reverse_involutive. split; [done|]. by apply Forall_reverse.
Qed.

Section Reading.
Context `{U : Unicode, UL : !UnicodeLaws U}.

Lemma cleaned_ascii l : ascii l -> cleaned l = ascii_upper <$> bare l.
Proof.
  intros Hl. unfold cleaned. rewrite chars_ascii by done.
  induction Hl as [|b l Hb _ IH]; [done|]. unfold bare, retain in *. rewrite fmap_cons, !filter_cons.
  assert (negb (is_whitespace [b]) && negb (bool_decide ([b] = [x2d])) = negb (spacing b)) as ->.
  { unfold spacing, is_whitespace. rewrite space_first_ascii, negb_orb by done. f_equal.
    - by destruct (is_ascii_space _).
    - f_equal. apply bool_decide_ext. naive_solver. }
  destruct (negb (spacing b)); [|exact IH]. rewrite !decide_True by exact I.
  rewrite bind_cons, fmap_cons, uppercase_ascii by done. cbn [app]. by f_equal.
Qed.

Lemma without_scheme_ascii l :
  ascii l -> exists l', without_scheme l = Some l' /\
    l' = if (zlen SCHEME <=? zlen l) && eq_ignore_ascii_case (take 10 l) SCHEME then drop 10 l else l.
Proof.
  intros Hl. unfold without_scheme. destruct (Z.leb_spec (zlen SCHEME) (zlen l)) as [Hn|Hn]; [|by eexists].
  unfold str_slice. change (length SCHEME) with 10%nat. unfold zlen in Hn. change (length SCHEME) with 10%nat in Hn.
  rewrite !ascii_boundary by (done || lia). cbn [Nat.leb andb mbind option_bind]. unfold slice. rewrite drop_0, Nat.sub_0_r.
  destruct (eq_ignore_ascii_case _ _); by eexists.
Qed.

Definition lower (c : byte) : byte := if in_range 65 90 c then z2b (b2z c + 32) else c.

Lemma ignore_case a b : eq_ignore_ascii_case a b = true <-> lower <$> a = lower <$> b.
Proof. unfold eq_ignore_ascii_case. by rewrite bool_decide_eq_true. Qed.

Lemma lower_ascii c d : lower c = d -> b2z d < 128 -> b2z c < 128.
Proof. intros <-. unfold lower. by destruct c. Qed.

Lemma lower_o c : lower c = x6f -> spacing c = false /\ ascii_upper c = x4f.
Proof. by destruct c. Qed.

Lemma lower_r c : lower c = x72 -> spacing c = false /\ is_ascii_space (b2z c) = false.
Proof. by destruct c. Qed.

Lemma bare_cons b l : spacing b = false -> bare (b :: l) = b :: bare l.
Proof. intros Hb. unfold bare, retain. rewrite filter_cons, decide_True; [done|]. by rewrite Hb. Qed.

(** What spells a code does not begin as a link does. *)
Lemma no_link l body :
  ascii_upper <$> bare l = MEETING_PREFIX ++ body -> eq_ignore_ascii_case (take 10 l) SCHEME = false.
Proof.
  intros Hb. apply not_true_iff_false. rewrite ignore_case. intros Hl.
  destruct l as [|a [|b l]]; [done..|]. cbn [take] in Hl. rewrite !fmap_cons in Hl.
  change (lower <$> SCHEME) with (x72 :: x6f :: drop 2 (lower <$> SCHEME)) in Hl. injection Hl as Ha Ho _.
  apply lower_r in Ha as [Ha _]. apply lower_o in Ho as [Ho Hu].
  rewrite !bare_cons, !fmap_cons, Hu in Hb by done.
  change (MEETING_PREFIX ++ body) with (x52 :: x54 :: (drop 2 MEETING_PREFIX ++ body)) in Hb. by injection Hb.
Qed.

Definition is_code (code : bytes) : Prop :=
  exists body, code = MEETING_PREFIX ++ body /\ length body = MEETING_BODY /\ Forall (fun b => b ∈ MEETING_ALPHABET) body.

Lemma read_of_text input text code :
  without_scheme (trim (rs input)) = Some text -> spells text code -> is_code code ->
  read_meeting_code input = Some (Ok code).
Proof.
  intros Ht [Ha Hs] (body & -> & Hl & Hb). unfold read_meeting_code. rewrite Ht. cbn [mbind option_bind].
  rewrite cleaned_ascii by done. unfold bare. rewrite Hs. unfold strip_prefix.
  rewrite take_app_length, bool_decide_eq_true_2, drop_app_length by done. cbn [ok_or rbind].
  rewrite Hl, Nat.eqb_refl. cbn [negb].
  assert (forallb (fun b => bool_decide (b ∈ MEETING_ALPHABET)) body = true) as ->; [|done].
  apply forallb_forall. intros b Hin. rewrite Forall_forall in Hb. apply bool_decide_eq_true_2, Hb. by apply list_elem_of_In.
Qed.

Lemma spelled_reads input code : spells (rs input) code -> is_code code -> read_meeting_code input = Some (Ok code).
Proof.
  intros [Ha Hs] Hc. destruct (trim_bare _ Ha) as [Hb Ht].
  destruct (without_scheme_ascii _ Ht) as (text & Hw & ->). eapply read_of_text; [exact Hw| |done].
  destruct Hc as (body & -> & _). rewrite (no_link _ body), andb_false_r by (rewrite Hb; exact Hs).
  split; [done|]. unfold bare in Hb. by rewrite Hb.
Qed.

(** White space comes off the end of what does not end in it. *)
Lemma strip_last_stops fuel a h :
  ascii (a ++ h) -> (forall b, head h = Some b -> is_ascii_space (b2z b) = false) -> h <> [] ->
  exists a', strip space_last fuel (a ++ h) = a' ++ h /\ bare a' = bare a /\ ascii a'.
Proof.
  intros Ha Hh Hne. revert a Ha. induction fuel as [|fuel IH]; intros a Ha.
  { exists a. split; [done|]. split; [done|]. by apply Forall_app in Ha as [? _]. }
  cbn [strip]. destruct a as [|b a].
  - exists []. cbn [app]. destruct h as [|c h]; [done|]. rewrite space_last_ascii by done.
    rewrite (Hh c eq_refl). repeat split. constructor.
  - cbn [app] in *. rewrite space_last_ascii by done. destruct (is_ascii_space (b2z b)) eqn:Eb.
    + rewrite bare_space by done. apply Forall_cons in Ha as [_ Ha]. by apply IH.
    + exists (b :: a). split; [done|]. split; [done|]. rewrite app_comm_cons in Ha. by apply Forall_app in Ha as [? _].
Qed.

Lemma link_reads input h rest code :
  rs input = h ++ rest -> eq_ignore_ascii_case h SCHEME = true -> spells rest code -> is_code code ->
  read_meeting_code input = Some (Ok code).
Proof.
  intros Hi Hh [Ha Hs] Hc. pose proof (proj1 (ignore_case h SCHEME) Hh) as Hl.
  assert (length h = 10%nat) as Hlen by (apply (f_equal length) in Hl; by rewrite !length_fmap in Hl).
  assert (ascii h) as Hah.
  { apply Forall_forall. intros b Hb. apply (list_elem_of_fmap_2 lower) in Hb. rewrite Hl in Hb.
    apply (lower_ascii b (lower b) eq_refl).
    assert (Forall (fun b => b2z b < 128) (lower <$> SCHEME)) as H by (repeat (apply Forall_cons_2; [done|]); apply Forall_nil_2).
    rewrite Forall_forall in H. by apply H. }
  destruct h as [|c h0] eqn:Eh; [done|]. rewrite <- Eh in *.
  assert (lower c = x72) as Hr by (rewrite Eh in Hl; by injection Hl).
  apply lower_r in Hr as [_ Hr].
  assert (last h = Some x2f) as Hlast.
  { apply (f_equal last) in Hl. rewrite fmap_last in Hl. destruct (last h) as [z|]; [|done].
    change (last (lower <$> SCHEME)) with (Some x2f) in Hl. injection Hl as Hz. f_equal. revert Hz. clear. by destruct z. }
  assert (ascii (h ++ rest)) as Hall by (by apply Forall_app).
  destruct (strip_last_stops (length (h ++ rest)) (reverse rest) (reverse h)) as (a' & Ht & Hb & Ha').
  { rewrite <- reverse_app. by apply Forall_reverse. }
  { intros b. rewrite head_reverse, Hlast. by intros [= <-]. }
  { by rewrite Eh, reverse_cons; destruct (reverse h0). }
  assert (trim (rs input) = h ++ reverse a') as E.
  { rewrite Hi. unfold trim.
    assert (strip space_first (length (h ++ rest)) (h ++ rest) = h ++ rest) as ->.
    { rewrite Eh. cbn [app length strip]. rewrite space_first_ascii, Hr; [done|].
      rewrite Eh in Hah. by apply Forall_cons in Hah as [? _]. }
    rewrite reverse_app, Ht, reverse_app. by rewrite reverse_involutive. }
  assert (ascii (h ++ reverse a')) as Hta by (apply Forall_app; split; [done|by apply Forall_reverse]).
  destruct (without_scheme_ascii _ Hta) as (text & Hw & Hx). rewrite <- E in Hw.
  rewrite (take_app_length' h), Hh, (drop_app_length' h) in Hx by done.
  rewrite (proj2 (Z.leb_le _ _)) in Hx by (rewrite zlen_app; pose proof (zlen_nonneg (reverse a')); unfold zlen at 2; rewrite Hlen; change (zlen SCHEME) with 10; lia).
  cbn [andb] in Hx. rewrite Hx in Hw. eapply read_of_text; [exact Hw| |done]. split; [by apply Forall_reverse|].
  fold (bare (reverse a')). rewrite bare_reverse, Hb, bare_reverse, reverse_involutive. exact Hs.
Qed.
End Reading.

Lemma bare_letters l : Forall (fun b => b ∈ MEETING_ALPHABET) l -> bare l = l /\ ascii_upper <$> l = l /\ ascii l.
Proof.
  induction 1 as [|b l Hb _ (H1 & H2 & H3)]; [by repeat constructor|].
  destruct (alphabet_plain b Hb) as (Hp & Hu & Hd & Ha). split; [|split; [|by constructor]].
  - rewrite bare_cons, H1; [done|]. unfold spacing. rewrite bool_decide_eq_false_2, orb_false_r by done.
    apply plain_not_space with (l := []) in Hp. rewrite space_first_ascii in Hp by done. by destruct (is_ascii_space _).
  - by rewrite fmap_cons, Hu, H2.
Qed.

Lemma bare_fours k l : Forall (fun b => b ∈ MEETING_ALPHABET) l ->
  bare (in_fours k ((fun b => [b]) <$> l)) = l /\ ascii (in_fours k ((fun b => [b]) <$> l)).
Proof.
  intros Hl. revert k. induction Hl as [|b l Hb Hl IH]; intros k; [by repeat constructor|]. rewrite fmap_cons. cbn [in_fours app].
  destruct (IH (S k)) as [H1 H2]. destruct (bare_letters [b] ltac:(by constructor)) as (Hb' & _ & Ha).
  split; [|by apply Forall_app; split; [destruct (_ =? _)%nat; repeat constructor|constructor; [by apply Forall_cons in Ha as [? _]|]]].
  rewrite bare_app. change (b :: in_fours (S k) ((fun b => [b]) <$> l)) with ([b] ++ in_fours (S k) ((fun b => [b]) <$> l)).
  rewrite bare_app, H1, Hb'. by destruct (_ =? _)%nat.
Qed.

Lemma prefix_bare : bare MEETING_PREFIX = MEETING_PREFIX /\ ascii_upper <$> MEETING_PREFIX = MEETING_PREFIX /\ ascii MEETING_PREFIX.
Proof. repeat split; repeat constructor. Qed.

Lemma code_spells code : is_code code -> spells code code /\ spells (pretty_meeting_code code) code.
Proof.
  intros (body & -> & Hl & Hb). destruct prefix_bare as (P1 & P2 & P3). destruct (bare_letters _ Hb) as (B1 & B2 & B3).
  split; (split; [|]).
  - by apply Forall_app.
  - fold (bare (MEETING_PREFIX ++ body)). by rewrite bare_app, P1, B1, fmap_app, P2, B2.
  - unfold pretty_meeting_code, strip_prefix. rewrite take_app_length, bool_decide_eq_true_2, drop_app_length by done.
    cbn [from_option id]. rewrite chars_ascii by done. apply Forall_app. split; [done|]. by apply bare_fours.
  - unfold pretty_meeting_code, strip_prefix. rewrite take_app_length, bool_decide_eq_true_2, drop_app_length by done.
    cbn [from_option id]. rewrite chars_ascii by done.
    pose proof (proj1 (bare_fours 0 body Hb)) as F. unfold bare in P1, F.
    rewrite retain_app, P1, fmap_app, P2. f_equal. by transitivity (ascii_upper <$> body); [f_equal|].
Qed.

Section Properties.
Context `{U : Unicode, UL : !UnicodeLaws U}.

Lemma minted_is_code r code : new_meeting_code (Some r) = Ok code -> is_code code.
Proof.
  intros [= <-]. destruct (letters_of_code r) as (Hl & Hb & _). by exists (letters_of (ab r)).
Qed.

(** A code is read back however it was passed on.  What is minted from fifteen
    bytes is twenty-nine characters long and no other bytes give it; whatever spells
    it, in any case, with white space and hyphens put anywhere, with or without the
    scheme of a link before it, is read as that code; and so is what is shown. *)
Theorem a_code_is_read_back r code :
  new_meeting_code (Some r) = Ok code ->
  length code = 29%nat /\
  (forall r', new_meeting_code (Some r') = Ok code -> r' = r) /\
  (forall t, spells (rs t) code -> read_meeting_code t = Some (Ok code)) /\
  (forall t h rest, rs t = h ++ rest -> eq_ignore_ascii_case h SCHEME = true -> spells rest code ->
     read_meeting_code t = Some (Ok code)) /\
  (forall t, rs t = pretty_meeting_code code -> read_meeting_code t = Some (Ok code)).
Proof.
  intros Hm. pose proof (minted_is_code _ _ Hm) as Hc. split; [|split; [|split; [|split]]].
  - destruct Hc as (body & -> & Hl & _). rewrite length_app, Hl. done.
  - intros r' Hr'. assert (MEETING_PREFIX ++ letters_of (ab r') = MEETING_PREFIX ++ letters_of (ab r)) as Heq
      by (cbn [new_meeting_code ok_or rbind] in *; congruence).
    apply app_inj_1 in Heq as [_ Heq]; [|done]. by destruct (letters_of_code r') as (_ & _ & H); apply H.
  - intros t Ht. by apply spelled_reads.
  - intros t h rest. intros. by eapply link_reads.
  - intros t Ht. apply spelled_reads; [|done]. rewrite Ht. by apply code_spells.
Qed.

(** Reading is strict about what comes out and can stop the client.  What is read
    is the prefix and twenty-four letters of the alphabet, and reads as itself; and the
    only inputs that panic are those in which, once trimmed, the tenth byte falls
    inside a character. *)
Theorem what_is_read_is_a_code input :
  (forall code, read_meeting_code input = Some (Ok code) ->
     is_code code /\ forall t, rs t = code -> read_meeting_code t = Some (Ok code)) /\
  (read_meeting_code input = None <->
     10 <= zlen (trim (rs input)) /\ is_char_boundary (trim (rs input)) 10 = false).
Proof.
  split.
  - intros code H. assert (is_code code) as Hc.
    { unfold read_meeting_code in H. destruct (without_scheme _) as [text|]; [|done]. injection H as H.
      apply rbind_ok in H as (body & _ & H). destruct (Nat.eqb_spec (length body) MEETING_BODY) as [Hl|]; [|done].
      cbn [negb] in H. destruct (forallb _ body) eqn:Ef; [|done]. injection H as <-. exists body. split; [done|]. split; [done|].
      rewrite forallb_forall in Ef. apply Forall_forall. intros b Hb. apply (bool_decide_eq_true_1 _ (Ef b (proj1 (list_elem_of_In _ _) Hb))). }
    split; [done|]. intros t Ht. apply spelled_reads; [|done]. rewrite Ht. by apply code_spells.
  - unfold read_meeting_code, without_scheme. change (zlen SCHEME) with 10. change (length SCHEME) with 10%nat.
    destruct (Z.leb_spec 10 (zlen (trim (rs input)))) as [Hl|Hl]; [|split; [done|lia]].
    unfold str_slice. cbn [Nat.leb andb]. assert (is_char_boundary (trim (rs input)) 0 = true) as ->.
    { unfold is_char_boundary. destruct (trim (rs input)) as [|b l]; [done|]. done. }
    destruct (is_char_boundary _ 10); cbn [andb mbind option_bind].
    + split; [|by intros [_ ?]]. by destruct (eq_ignore_ascii_case _ _).
    + done.
Qed.
End Properties.

Section Meeting.
Context `{BL : Blake3, FB : FrameBase64, FL : !FrameBase64Laws FB, FT : !Base64Trim FB}.

Lemma tag_printed (t : Tag) s : rs s = hex_lower (ab t) -> tag_or_not s = Some (Ok t).
Proof.
  intros Hs. unfold tag_or_not, tag_from_hex. rewrite Hs.
  assert (length (ab t) = 32%nat) as Hl by apply length_ab.
  unfold zlen. rewrite length_hex_lower, Hl. cbn [negb Z.eqb].
  pose proof (hex_pairs_from [] (ab t)) as H. rewrite Hl in H. cbn [app length] in H.
  unfold starts. rewrite H. cbn. unfold tag_from_bytes. by rewrite try_into_ab.
Qed.

(** What is before the zero bytes at the end. *)
Lemma unpadded l n :
  (forall b, last l = Some b -> b <> zero_byte) ->
  take (match rposition (fun b => negb (bool_decide (b = zero_byte))) (l ++ replicate n zero_byte) with
        | None => O | Some last => S last end) (l ++ replicate n zero_byte) = l.
Proof.
  intros Hl. destruct l as [|b l _] using rev_ind.
  - assert (rposition (fun b => negb (bool_decide (b = zero_byte))) (replicate n zero_byte) = None) as H.
    { induction n as [|n IH]; [done|]. cbn [replicate rposition]. by rewrite IH. }
    cbn [app]. by rewrite H.
  - rewrite last_snoc in Hl. specialize (Hl b eq_refl). rewrite <- app_assoc. cbn [app].
    rewrite rposition_app_one.
    + rewrite cons_middle, app_assoc. apply take_app_length'. rewrite length_app. simpl. lia.
    + by rewrite bool_decide_eq_false_2.
    + apply Forall_replicate. by rewrite bool_decide_eq_true_2.
Qed.

(** What is sealed under a tag is filed under it and opens under it. *)
Lemma sealed_under_opens hex payload_b64 p e :
  decode payload_b64 = Ok p -> (forall b, last p = Some b -> b <> zero_byte) ->
  seal_under hex payload_b64 = Some (Ok e) ->
  exists t env, tag_or_not hex = Some (Ok t) /\ read_envelope e = Ok env /\ env_tag env = t /\
    open_under e hex = Some (Ok (frame_encode p)).
Proof.
  intros Hd Hp Hs. unfold seal_under in Hs. destruct (tag_or_not hex) as [[t|]|] eqn:Ht; [|done..].
  rewrite Hd in Hs. cbn [mbind option_bind rbind] in Hs. injection Hs as Hs.
  apply rbind_ok in Hs as (env & He & [= <-]). destruct (envelope_seal t p) as [env'|] eqn:Ee; [|done].
  injection He as ->. pose proof (envelope_seal_Ok _ _ _ Ee) as (Htag & Hin & n & Hpay).
  assert (read_envelope (frame_encode (envelope_to_bytes env)) = Ok env) as Hread.
  { unfold read_envelope. rewrite decode_frame. cbn [rbind].
    by rewrite (proj2 (envelope_wire_canonical _ env) (conj eq_refl Hin)). }
  exists t, env. split; [done|]. split; [done|]. split; [done|].
  unfold open_under. rewrite Hread, Ht. cbn [mbind option_bind rbind]. rewrite Htag, bool_decide_eq_true_2 by done.
  cbn [negb]. by rewrite Hpay, unpadded.
Qed.

(** Two who hold one code meet.  A code names a tag; what is sealed under it is
    filed under it and opens under it to the text that was sealed, so long as that does
    not end in a zero byte; and under any other tag it does not open. *)
Theorem they_meet code payload_b64 p (hex : rstring) e :
  is_code code -> rendezvous_tag code = Ok (rs hex) ->
  decode payload_b64 = Ok p -> (forall b, last p = Some b -> b <> zero_byte) ->
  seal_under hex payload_b64 = Some (Ok e) ->
  tag_of e = Ok (rs hex) /\ open_under e hex = Some (Ok (frame_encode p)) /\
  forall (t : Tag) other, rs other = hex_lower (ab t) -> rs other <> rs hex -> open_under e other = Some (Err NotInWindow).
Proof.
  intros Hc Hr Hd Hp Hs. unfold rendezvous_tag in Hr. destruct (_ <? _); [done|]. injection Hr as Hr.
  pose proof (tag_printed _ hex (eq_sym Hr)) as Ht.
  destruct (sealed_under_opens _ _ _ _ Hd Hp Hs) as (t & env & Ht' & Hread & Htag & Ho).
  rewrite Ht in Ht'. injection Ht' as <-. unfold tag_of. rewrite Hread. cbn [rbind]. rewrite Htag.
  split; [by rewrite Hr|]. split; [done|]. intros t' other Hot Hne. unfold open_under.
  rewrite (tag_printed t' other Hot), Hread. cbn [mbind option_bind rbind]. rewrite Htag.
  rewrite bool_decide_eq_false_2; [done|]. intros Heq. apply Hne. by rewrite Hot, <- Heq.
Qed.
End Meeting.

(** ** Witnesses *)

Import Toy.

Module CodeExample.
Import (hints) SessionExample.

(** The ASCII half of the table. *)
#[export] Instance upper : Unicode := fun c => match c with [b] => [ascii_upper b] | _ => c end.
#[export] Instance upper_laws : UnicodeLaws upper.
Proof. by intros b. Qed.

Definition drawn : arr MEETING_ENTROPY := be_arr MEETING_ENTROPY (2 ^ 119 + 12345678901234567).
Definition code : bytes := match new_meeting_code (Some drawn) with Ok c => c | Err _ => [] end.
Definition str (l : bytes) : rstring := default (RString [] I) (from_utf8 l).

(** Copied in lower case, in two lines, with a hyphen. *)
Definition copied : bytes := take 3 (lower <$> code) ++ [x0a; x20] ++ drop 3 (lower <$> code) ++ [x2d; x20].
Definition linked : bytes := String.list_byte_of_string "Rotelyx://" ++ copied.

Definition place : bytes := match rendezvous_tag code with Ok h => h | Err _ => [] end.
Definition said : bytes := frame_encode [x7b; x7d].
Definition left_there : bytes := match seal_under (str place) said with Some (Ok e) => e | _ => [] end.

(** Nine letters and one of two bytes. *)
Definition accented : rstring := RString (String.list_byte_of_string "abcdefghi" ++ [xc3; xa9]) ltac:(vm_compute; exact I).
End CodeExample.

Export (hints) SessionExample CodeExample.

Lemma a_code_is_read_back_witness :
  read_meeting_code (CodeExample.str CodeExample.copied) = Some (Ok CodeExample.code) /\
  read_meeting_code (CodeExample.str CodeExample.linked) = Some (Ok CodeExample.code).
Proof.
  destruct (a_code_is_read_back CodeExample.drawn CodeExample.code) as (_ & _ & H1 & H2 & _); [vm_compute; reflexivity|].
  assert (spells CodeExample.copied CodeExample.code) as Hs.
  { split; [|vm_compute; reflexivity]. apply (bool_decide_unpack _). vm_compute. exact I. }
  split.
  - apply H1. exact Hs.
  - apply (H2 (CodeExample.str CodeExample.linked) (String.list_byte_of_string "Rotelyx://") CodeExample.copied);
      [vm_compute; reflexivity|vm_compute; reflexivity|exact Hs].
Defined.

(** A pasted word of eleven bytes stops the client. *)
Lemma what_is_read_is_a_code_witness : read_meeting_code CodeExample.accented = None.
Proof.
  apply (proj2 (what_is_read_is_a_code CodeExample.accented)). split; [discriminate|vm_compute; reflexivity].
Defined.

Lemma they_meet_witness :
  open_under CodeExample.left_there (CodeExample.str CodeExample.place) = Some (Ok CodeExample.said).
Proof.
  refine (proj1 (proj2 (they_meet CodeExample.code CodeExample.said [x7b; x7d] (CodeExample.str CodeExample.place)
    CodeExample.left_there _ _ _ _ _))).
  - apply (minted_is_code CodeExample.drawn). vm_compute. reflexivity.
  - vm_compute. reflexivity.
  - vm_compute. reflexivity.
  - intros b [= <-]. discriminate.
  - vm_compute. reflexivity.
Defined.
