(* ===== verification/Chats.v ===== *)
(** * The conversations a client keeps between runs

    [crates/rotelyx-meeting/src/chats.rs], over the disk of [DeviceStore] and the seal
    of [ClientSession].  A directory is made and restricted with the file in it; what
    [read_dir] gives, the clock, salts and nonces are arguments. *)

From S2P Require Import Prelude Crypto Envelope Capability Hex Text Group GroupLife ClientSession SessionFacts.
From S2P Require Session AtRest Hybrid DeviceStore.
Import Session (FrameBase64, frame_encode, frame_decode, FrameBase64Laws).
Import Hybrid (XWing, SecretKey, Ed25519).
Import AtRest (Argon2, argon2id).
Import DeviceStore (Fate(..), write_restricted).

Abbreviation Path := bytes.
Abbreviation Disk := (gmap Path bytes).

Record Row := mkRow { row_id : bytes; row_label : bytes; row_last : bytes; row_at : Z; row_members : Z }.
Record Line := mkLine { l_text : bytes; l_mine : bool; l_at : Z }.
Record Meta := mkMeta { mt_label : bytes; mt_mailbox : bytes; mt_members : Z; mt_at : Z; mt_lines : list Line }.
Record Kept := mkKept { k_session : bytes; k_meta : bytes }.

(** [serde_json]. *)
Class ChatJson := {
  meta_to_json : Meta -> bytes;
  meta_from_json : bytes -> option Meta;
  kept_to_json : Kept -> bytes;
  kept_from_json : bytes -> option Kept;
}.
Class ChatJsonLaws `(ChatJson) : Prop := {
  meta_read_written m : meta_from_json (meta_to_json m) = Some m;
  kept_read_written k : kept_from_json (kept_to_json k) = Some k;
  nothing_is_kept : kept_from_json [] = None;
}.

Inductive ChatError :=
| Io (p : Path) | NotAConversationFile | NotMeta | NotText | TokenNotBase64
| OfSession (e : Error) | DifferentPassphrase (e : Error).

(** ** Where things are *)

Definition dir (identity : Path) : Path := set_extension identity (String.list_byte_of_string "conversations").
Definition chat_file (identity : Path) (id : bytes) : Path :=
  join_path (dir identity) (id ++ String.list_byte_of_string ".chat").
Definition anchor (identity : Path) : Path := join_path (dir identity) (String.list_byte_of_string "anchor").
Definition token_file (identity : Path) : Path := join_path (dir identity) (String.list_byte_of_string "token").

Definition written {A : Type} (r : Result unit DeviceStore.StoreError * Disk) (p : Path) (a : A) : Result A ChatError * Disk :=
  let '(r, d) := r in (map_err (fun _ => Io p) (let? _ := r in Ok a), d).

(** [read_to_string(..).ok()]: one that is not text is not read. *)
Definition read_text (d : Disk) (p : Path) (readable : bool) : option bytes :=
  if readable then l ← d !! p; rs <$> from_utf8 l else None.

(** [std::fs::remove_file]; [removable] says whether the system lets it. *)
Definition remove (d : Disk) (p : Path) (removable : bool) : Result unit ChatError * Disk :=
  match d !! p with
  | None => (Ok tt, d)
  | Some _ => if removable then (Ok tt, delete p d) else (Err (Io p), d)
  end.

Section Chats.
Context `{BL : Blake3, BH : Blake3Hash, AE : Aead, ED : Ed25519, FB : FrameBase64, KD : Argon2, SF : StateFormat}.
Context `{ML : Mls, LF : @MlsLife ML, XW : XWing, XS : @XWingStorage XW, CJ : ChatJson}.

(** ** The key of the door *)

Definition ANCHOR : bytes := String.list_byte_of_string "rotelyx".

(** An anchor that is there is what the key is found by; otherwise one is made. *)
Definition chats_key (d : Disk) (identity : Path) (passphrase : bytes) (readable : bool)
    (salt : option (arr 16)) (nonce : option (arr 24)) (fate : Fate) : Result SessionKey ChatError * Disk :=
  match read_text d (anchor identity) readable with
  | Some existing => (map_err DifferentPassphrase (unlock passphrase (trim existing)), d)
  | None =>
      match (let? fresh := sessionkey_create passphrase salt in
             let? marker := seal_blob fresh (frame_encode ANCHOR) nonce in Ok (fresh, marker)) with
      | Err e => (Err (OfSession e), d)
      | Ok (fresh, marker) => written (write_restricted d (anchor identity) marker fate) (anchor identity) fresh
      end
  end.

(** ** The token *)

Definition save_token (d : Disk) (identity : Path) (k : SessionKey) (token : bytes) (nonce : option (arr 24))
    (fate : Fate) : Result unit ChatError * Disk :=
  match seal_blob k (frame_encode (trim token)) nonce with
  | Err e => (Err (OfSession e), d)
  | Ok sealed => written (write_restricted d (token_file identity) sealed fate) (token_file identity) tt
  end.

Definition load_token (d : Disk) (identity : Path) (k : SessionKey) (readable : bool) : Result (option rstring) ChatError :=
  match read_text d (token_file identity) readable with
  | None => Ok None
  | Some sealed =>
      let? opened := map_err OfSession (open_blob k (trim sealed)) in
      let? l := ok_or TokenNotBase64 (frame_decode opened) in
      let? token := ok_or NotText (from_utf8 l) in
      Ok (Some token)
  end.

Definition forget_token (d : Disk) (identity : Path) (removable : bool) : Result unit ChatError * Disk :=
  remove d (token_file identity) removable.

(** ** Conversations *)

(** [char::is_ascii_alphanumeric]. *)
Definition is_ascii_alphanumeric (b : byte) : bool :=
  in_range 48 57 b || in_range 65 90 b || in_range 97 122 b.

Definition id_of (s : CSession) : Result bytes ChatError :=
  let? id := map_err OfSession (session_group_id s) in
  Ok (take 32 (retain is_ascii_alphanumeric id)).

(** What is written of a conversation, and under what name. *)
Definition kept_of (k : SessionKey) (s : CSession) (m : Meta) (nonce nonce' : option (arr 24))
    : Result (bytes * bytes) ChatError :=
  let? id := id_of s in
  let? sealed := map_err OfSession (seal_session s k nonce) in
  let? meta_sealed := map_err OfSession (seal_blob k (frame_encode (meta_to_json m)) nonce') in
  Ok (id, kept_to_json (mkKept sealed meta_sealed)).

Definition save (d : Disk) (identity : Path) (k : SessionKey) (s : CSession) (label_ mailbox : bytes) (members_ : Z)
    (ls : list Line) (now_ : Z) (nonce nonce' : option (arr 24)) (fate : Fate) : Result bytes ChatError * Disk :=
  match kept_of k s (mkMeta label_ mailbox members_ now_ ls) nonce nonce' with
  | Err e => (Err e, d)
  | Ok (id, contents) => written (write_restricted d (chat_file identity id) contents fate) (chat_file identity id) id
  end.

Definition read_kept (d : Disk) (p : Path) (readable : bool) : Result Kept ChatError :=
  let? raw := ok_or (Io p) (if readable then d !! p else None) in
  ok_or NotAConversationFile (kept_from_json raw).

Definition read_meta (d : Disk) (p : Path) (k : SessionKey) (readable : bool) : Result Meta ChatError :=
  let? kept := read_kept d p readable in
  let? opened := map_err OfSession (open_blob k (k_meta kept)) in
  let? l := ok_or NotMeta (frame_decode opened) in
  ok_or NotMeta (meta_from_json l).

(** [names] is what [read_dir] gives of the directory; a file that does not open is
    passed over. *)
Definition list_chats (d : Disk) (identity : Path) (k : SessionKey) (names : list bytes) (readable : bytes -> bool)
    : list Row :=
  let rows :=
    omap (fun name =>
      m ← rok (read_meta d (join_path (dir identity) name) k (readable name));
      Some (mkRow (from_utf8_lossy (file_stem name)) (mt_label m) (default [] (l_text <$> last (mt_lines m)))
              (mt_at m) (mt_members m)))
      (retain (fun name => bool_decide (extension name = Some (String.list_byte_of_string "chat"))) names) in
  sort_by (fun a b => row_at b <=? row_at a) rows.

(** The file is read twice. *)
Definition reopen_chat (d : Disk) (identity : Path) (k : SessionKey) (id : bytes) (readable : bool)
    : Result (CSession * bytes * list Line * bytes) ChatError :=
  let p := chat_file identity id in
  let? kept := read_kept d p readable in
  let? s := map_err OfSession (unseal_session (k_session kept) k) in
  let? m := read_meta d p k readable in
  Ok (s, mt_label m, mt_lines m, mt_mailbox m).

Definition forget_chat (d : Disk) (identity : Path) (id : bytes) (removable : bool) : Result unit ChatError * Disk :=
  remove d (chat_file identity id) removable.
End Chats.

(** ** Lemmas *)

(** Base64 text is text, and no text decodes to nothing. *)
Class Base64Text `(FrameBase64) : Prop := {
  frame_text l : utf8_valid (frame_encode l) = true;
  frame_nothing : frame_decode [] = Some [];
}.

Section Properties.
Context `{BL : Blake3, BH : Blake3Hash, AE : Aead, ED : Ed25519, FB : FrameBase64, KD : Argon2, SF : StateFormat}.
Context `{ML : Mls, LF : @MlsLife ML, XW : XWing, XS : @XWingStorage XW, CJ : ChatJson}.
Context `{AL : !AeadLaws AE, FL : !FrameBase64Laws FB, FT : !Base64Trim FB, SL : !StateFormatLaws SF}.
Context `{KL : !KeptLaws LF XS, JL : !ChatJsonLaws CJ, BT : !Base64Text FB}.

Lemma read_back d p l : utf8_valid l = true -> read_text (<[p := l]> d) p true = Some l.
Proof.
  intros Hl. unfold read_text. rewrite lookup_insert_eq. cbn [mbind option_bind]. unfold from_utf8.
  destruct (decide _) as [H|H]; [done|]. by destruct H; rewrite Hl.
Qed.

(** The passphrase opens the door again, unless the anchor was torn.  The key made
    for a directory that has none is found again by the same passphrase whatever else
    is written since, and what it sealed opens; but when the first writing of the
    anchor tears at its start, every later attempt is told the passphrase is wrong. *)
Theorem the_passphrase_opens_again d identity passphrase salt nonce k d' data sealed n :
  read_text d (anchor identity) true = None ->
  chats_key d identity passphrase true salt nonce Written = (Ok k, d') ->
  seal_blob k (frame_encode data) n = Ok sealed ->
  (forall d'' salt' nonce' fate, d'' !! anchor identity = d' !! anchor identity ->
     chats_key d'' identity passphrase true salt' nonce' fate = (Ok k, d'')) /\
  open_blob k sealed = Ok (frame_encode data) /\
  forall d1 salt' nonce' fate,
    d1 = (chats_key d identity passphrase true salt nonce (Torn 0)).2 ->
    exists e, chats_key d1 identity passphrase true salt' nonce' fate = (Err (DifferentPassphrase e), d1).
Proof.
  intros Hnone Hk Hs. unfold chats_key in Hk |- *. rewrite Hnone in Hk |- *.
  destruct (rbind (sessionkey_create passphrase salt) _) as [[fresh marker]|] eqn:Em; [|done].
  apply rbind_ok in Em as (fresh' & Hf & (marker' & Hm & [= -> ->])%rbind_ok). cbn in Hk. injection Hk as -> <-.
  destruct (sealed_blob_opens _ _ _ _ Hm) as (_ & Hsalt & raw & ->). split; [|split].
  - intros d'' salt' nonce' fate Hd. rewrite lookup_insert_eq in Hd.
    assert (read_text d'' (anchor identity) true = Some (frame_encode raw)) as ->.
    { unfold read_text. rewrite Hd. cbn [mbind option_bind]. unfold from_utf8.
      destruct (decide _) as [H|H]; [done|]. by destruct H; rewrite frame_text. }
    rewrite frame_trim. by rewrite (created_unlocks _ _ _ _ Hf Hsalt).
  - by apply (sealed_blob_opens k data n).
  - intros d1 salt' nonce' fate ->. cbn [snd written write_restricted take]. rewrite read_back by done.
    change (trim []) with (@nil byte). unfold unlock, salt_of, decode. change (trim []) with (@nil byte).
    rewrite frame_nothing. by eexists.
Qed.

Lemma kept_of_opens d p k s m nonce nonce' id contents :
  kept_of k s m nonce nonce' = Ok (id, contents) -> d !! p = Some contents ->
  exists kept, read_kept d p true = Ok kept /\
    unseal_session (k_session kept) k = Ok (mkSession
      (mkMember (store s) (signer (member s)) (credential (member s)) (member_signature_key (member s)) (hybrid_sk (member s)))
      ((fun c => opened (group c) true) <$> conversation s) (tag_keys s) None []) /\
    read_meta d p k true = Ok m.
Proof.
  unfold kept_of. intros (id' & _ & (sealed & Hs & (ms & Hm & Hk)%rbind_ok)%rbind_ok)%rbind_ok Hp.
  destruct (seal_session s k nonce) as [sealed'|] eqn:Es; [|done]. injection Hs as ->.
  destruct (seal_blob k _ nonce') as [ms'|] eqn:Em; [|done]. injection Hm as ->. injection Hk as _ <-.
  assert (read_kept d p true = Ok (mkKept sealed ms)) as Hr.
  { unfold read_kept. rewrite Hp. cbn [ok_or rbind]. by rewrite kept_read_written. }
  exists (mkKept sealed ms). split; [done|]. split; [by apply (sealed_session_opens s k nonce)|].
  unfold read_meta. rewrite Hr. cbn [rbind k_meta].
  rewrite (proj1 (sealed_blob_opens _ _ _ _ Em)). cbn [map_err rbind].
  rewrite FL. cbn [ok_or rbind]. by rewrite meta_read_written.
Qed.

(** A conversation comes back from its file, and only from its file.  What is
    saved is reopened, under the name it was saved as, to the session as it was, owing
    a rekey, and to the label, lines and mailbox given; it is among those listed, with
    its last line; and a save that tears at its start leaves nothing to reopen, though
    an earlier save had succeeded. *)
Theorem a_conversation_is_kept d identity k s who mailbox n ls at_ nonce nonce' id d' :
  save d identity k s who mailbox n ls at_ nonce nonce' Written = (Ok id, d') ->
  (exists s', reopen_chat d' identity k id true = Ok (s', who, ls, mailbox) /\
     tag_keys s' = tag_keys s /\ conversation s' = (fun c => opened (group c) true) <$> conversation s /\
     member_signature_key (member s') = member_signature_key (member s)) /\
  (forall names, id ++ String.list_byte_of_string ".chat" ∈ names -> id <> [] -> DOT ∉ id -> SLASH ∉ id ->
     mkRow (from_utf8_lossy id) who (default [] (l_text <$> last ls)) at_ n ∈
       list_chats d' identity k names (fun _ => true)) /\
  forall s2 who2 n2 ls2 at2,
    id_of s2 = Ok id -> is_ok (kept_of k s2 (mkMeta who2 mailbox n2 at2 ls2) nonce nonce') = true ->
    reopen_chat (save d' identity k s2 who2 mailbox n2 ls2 at2 nonce nonce' (Torn 0)).2 identity k id true =
      Err NotAConversationFile.
Proof.
  intros Hs. unfold save in Hs.
  destruct (kept_of _ _ _ _ _) as [[id' contents]|] eqn:Ek; [|done]. cbn in Hs. injection Hs as -> <-.
  destruct (kept_of_opens (<[chat_file identity id := contents]> d) (chat_file identity id) k s _ nonce nonce' id contents Ek)
    as (kept & Hr & Hu & Hm); [apply lookup_insert_eq|]. split; [|split].
  - eexists. split; [unfold reopen_chat; rewrite Hr; cbn [rbind]; rewrite Hu; cbn [map_err rbind]; rewrite Hm; done|done].
  - intros names Hin Hne Hdot Hslash. unfold list_chats. apply elem_of_sort_by. apply list_elem_of_omap.
    assert (rsplit DOT (id ++ String.list_byte_of_string ".chat") = Some (id, String.list_byte_of_string "chat")) as Hsplit.
    { clear -Hdot. induction id as [|b l IH]; [done|]. cbn [app rsplit]. rewrite IH; [done|]. set_solver. }
    exists (id ++ String.list_byte_of_string ".chat"). split.
    + apply list_elem_of_filter. split; [|done]. apply Is_true_eq_left, bool_decide_eq_true_2. unfold extension.
      rewrite Hsplit. by destruct id.
    + change (join_path (dir identity) (id ++ String.list_byte_of_string ".chat")) with (chat_file identity id).
      rewrite Hm. cbn [rok mbind option_bind mt_label mt_lines mt_at mt_members].
      unfold file_stem. rewrite Hsplit. by destruct id.
  - intros s2 who2 n2 ls2 at2 Hid Hok. unfold save.
    destruct (kept_of k s2 _ _ _) as [[id2 c2]|] eqn:Ek2; [|done].
    assert (id2 = id) as ->.
    { unfold kept_of in Ek2. rewrite Hid in Ek2. cbn [rbind] in Ek2.
      apply rbind_ok in Ek2 as (x & _ & (y & _ & H)%rbind_ok). congruence. }
    cbn [written write_restricted snd take]. unfold reopen_chat, read_kept. rewrite lookup_insert_eq.
    cbn [ok_or rbind]. by rewrite nothing_is_kept.
Qed.
End Properties.

(** ** Witnesses *)

Import Toy.
Import (hints) AtRest.AtRestExample Hybrid.HybridExample SessionExample.

Module ChatsExample.

(** A state as the digits of its number. *)
Fixpoint digits_of (p : positive) : bytes :=
  match p with xH => [] | xO p => x00 :: digits_of p | xI p => x01 :: digits_of p end.
Fixpoint number_of (l : bytes) : positive :=
  match l with [] => xH | x00 :: l => xO (number_of l) | _ :: l => xI (number_of l) end.

Lemma number_of_digits p : number_of (digits_of p) = p.
Proof. by induction p as [p IH|p IH|]; cbn [digits_of number_of]; rewrite ?IH. Qed.

Definition flat_line (l : Line) := (l_text l, l_mine l, l_at l).
Definition flat (m : Meta) : bytes * bytes * Z * Z * list (bytes * bool * Z) :=
  (mt_label m, mt_mailbox m, mt_members m, mt_at m, flat_line <$> mt_lines m).
Definition unflat (x : bytes * bytes * Z * Z * list (bytes * bool * Z)) : Meta :=
  let '(a, b, c, d, e) := x in mkMeta a b c d ((fun y => mkLine y.1.1 y.1.2 y.2) <$> e).

(** Each byte of the first after a mark, and then the second. *)
Definition two_texts (k : Kept) : bytes := (k_session k ≫= (fun b => [x01; b])) ++ x00 :: k_meta k.
Fixpoint texts (acc l : bytes) : option Kept :=
  match l with
  | x00 :: l => Some (mkKept acc l)
  | _ :: b :: l => texts (acc ++ [b]) l
  | _ => None
  end.

Lemma texts_read acc k m : texts acc ((k ≫= (fun b => [x01; b])) ++ x00 :: m) = Some (mkKept (acc ++ k) m).
Proof.
  revert acc. induction k as [|b k IH]; intros acc; [by rewrite app_nil_r|].
  rewrite bind_cons. cbn [app texts]. by rewrite IH, <- app_assoc.
Qed.

#[export] Instance json : ChatJson := {|
  meta_to_json m := digits_of (encode (flat m));
  meta_from_json l := unflat <$> countable.decode (number_of l);
  kept_to_json := two_texts;
  kept_from_json := texts [] |}.

#[export] Instance json_laws : ChatJsonLaws json.
Proof.
  split.
  - intros [a b c d e]. cbn [meta_from_json meta_to_json json]. rewrite number_of_digits, decode_encode.
    cbn. f_equal. f_equal. induction e as [|[x y z] e IH]; [done|]. rewrite !fmap_cons, IH. done.
  - intros [a b]. apply texts_read.
  - done.
Qed.

#[export] Instance base64_text : Base64Text SessionExample.frames.
Proof.
  split; [|done]. intros [|b l]; [done|]. apply Is_true_true, ascii_utf8.
  assert (plain_word (frame_encode (b :: l))) as [_ H]
    by (apply (DeviceStore.url_plain (Base64UrlLaws := DeviceStore.DeviceStoreExample.base64url_laws)); done).
  eapply Forall_impl; [exact H|]. intros c Hc. unfold plain in Hc.
  apply andb_true_iff in Hc as [[_ Hc%Z.ltb_lt]%andb_true_iff _]. lia.
Qed.

Definition home : Path := String.list_byte_of_string "/h/me.identity".
Definition k : SessionKey := Talking.sealing_key.
Definition first_line : Line := mkLine [x68] true 7.
Definition saved := save ∅ home k Talking.her [x42] [x77] 2 [first_line] 9 (Some (be_arr 24 5)) (Some (be_arr 24 6)) Written.
Definition id : bytes := match saved.1 with Ok id => id | Err _ => [] end.
Definition opened_door := chats_key ∅ home Talking.phrase true (Some (be_arr 16 9)) (Some (be_arr 24 4)) Written.
Definition sealed : bytes := match seal_blob k (frame_encode [x01]) (Some (be_arr 24 4)) with Ok l => l | Err _ => [] end.
End ChatsExample.

Export (hints) ChatsExample.

Lemma the_passphrase_opens_again_witness :
  chats_key ChatsExample.opened_door.2 ChatsExample.home Talking.phrase true None None Refused =
    (Ok ChatsExample.k, ChatsExample.opened_door.2).
Proof.
  refine (proj1 (the_passphrase_opens_again ∅ ChatsExample.home Talking.phrase (Some (be_arr 16 9)) (Some (be_arr 24 4))
    ChatsExample.k ChatsExample.opened_door.2 [x01] ChatsExample.sealed (Some (be_arr 24 4)) _ _ _)
    ChatsExample.opened_door.2 None None Refused eq_refl).
  - reflexivity.
  - assert (ChatsExample.opened_door.1 = Ok ChatsExample.k) as H by (vm_compute; reflexivity).
    transitivity ChatsExample.opened_door; [reflexivity|]. rewrite <- H. apply surjective_pairing.
  - vm_compute. reflexivity.
Defined.

Lemma a_conversation_is_kept_witness :
  exists s', reopen_chat ChatsExample.saved.2 ChatsExample.home ChatsExample.k ChatsExample.id true =
    Ok (s', [x42], [ChatsExample.first_line], [x77]).
Proof.
  destruct (a_conversation_is_kept ∅ ChatsExample.home ChatsExample.k Talking.her [x42] [x77] 2 [ChatsExample.first_line] 9
    (Some (be_arr 24 5)) (Some (be_arr 24 6)) ChatsExample.id ChatsExample.saved.2) as ((s' & H & _) & _).
  - assert (is_ok ChatsExample.saved.1 = true) as H by (vm_compute; reflexivity).
    unfold ChatsExample.id, ChatsExample.saved in H |- *. destruct (save _ _ _ _ _ _ _ _ _ _ _ _) as [[r|e] d]; [reflexivity|discriminate H].
  - exists s'. exact H.
Defined.
