(* ===== verification/Meeting.v ===== *)
(** * Meeting through a mailbox, and the conversation that comes out of it

    [crates/rotelyx-meeting/src/lib.rs]: the loop a client runs over a [Session] of
    [ClientSession], a mailbox and a file of [Chats].

    What is outside the process is an interface, [Outside]: the mailbox, the clock, what
    is drawn at random, the disk, the sockets and sound of a call, and the channel of
    commands.  What happens there happens when it is asked.  An operation answers, or
    waits for what never comes (or for more turns than it was given), or panics: [Run].
    JSON is [serde_json]'s, by the fields that are looked at.  The words of a status or an
    error are not kept apart from what they say: an error shown is the [Fault] it is of. *)

From S2P Require Import Prelude Crypto Envelope Capability Hex Text Group GroupLife ClientSession MeetingCode Chats.
From S2P Require Session AtRest Hybrid MediaFrame Forward DeviceStore.
From S2P Require MailboxClient.
Import Session (FrameBase64, frame_encode, frame_decode).
Import Hybrid (XWing, PublicKey, SecretKey, Ed25519).
Import AtRest (Argon2).
Import MailboxClient (Failure(..), is_gone, text).

Inductive Role := Host | Guest.
#[export] Instance Role_eq_dec : EqDecision Role.
Proof. solve_decision. Defined.

Inductive Command :=
| Send (t : rstring) | StartCall | EndCall | Hangup | Remove (key : bytes) | WhoIsHere
| Confirm | Dismiss | Picture (png : bytes).

(** Why something failed. *)
Inductive Fault :=
| FBox (f : Failure)
| FSession (e : Error)
| FChats (e : ChatError)
| FNoCopy (first : Fault)
| FNobodyProposed | FNoConversationYet | FNoRandomness | FBefore1970 | FCannotCarryOn (e : Error)
| FStopped | FNoMailbox | FNoRelay | FNotARelay | FBusy | FNoRoom | FNeverConnected | FNoAddress | FNotReached
| FSenderIndex | FCallName | FNoMicrophone.

(** [error.chain()] finds the socket gone where the error was passed on, and not where
    its words were put in another. *)
Definition is_gone_fault (f : Fault) : bool := match f with FBox e => is_gone e | _ => false end.

Inductive Event :=
| EStatus (what : bytes)
| EConnected (peer safety_number : bytes) (direct : bool) (members epoch : Z)
| EMessage (t : rstring) (from : option bytes)
| ECallStarted (kbit : Z) (mono : bool)
| EGroupChanged (members : Z) (added removed : list bytes) (by_ : option bytes)
| EAdditionProposed (by_ : option bytes) (name : bytes)
| ERefused (why : GroupError)
| EMembers (l : list (bytes * bytes))
| EError (why : Fault).

(** What is left at a meeting place, by the fields it may hold. *)
Record Payload := mkPayload {
  p_t : option bytes;
  p_name : option bytes;
  p_key_package : option bytes;
  p_hybrid : option bytes;
  p_welcome : option bytes;
  p_tree : option bytes;
  p_pq : option bytes;
  p_commit : option bytes;
}.

Class PayloadJson := { payload_to_json : Payload -> bytes; payload_from_json : bytes -> option Payload }.

(** [DefaultHasher], whose algorithm is not specified. *)
Class Hasher64 := hash64 : bytes -> Z.

Record Pending := mkPending { pe_tag : rstring; pe_name : bytes }.

Definition str (s : string) : bytes := String.list_byte_of_string s.
Definition SIGNAL_MARKER : bytes := str "rx-signal".
Definition SIGNAL_SEP : byte := x1f.

Definition is_control (body : bytes) : bool :=
  let prefix := SIGNAL_MARKER ++ [SIGNAL_SEP] in bool_decide (take (length prefix) body = prefix).

(** [str::split] at a character of one byte. *)
Fixpoint split_at (b : byte) (acc l : bytes) : list bytes :=
  match l with
  | [] => [acc]
  | c :: l => if bool_decide (c = b) then acc :: split_at b [] l else split_at b (acc ++ [c]) l
  end.

Definition LOOKBACK : Z := 2.
Definition REKEY_GRACE : Z := 2000.
Definition REKEY_SPREAD_MS : Z := 12000.
Definition SEEN_AT_MOST : nat := 512.

(** ** Running

    What an operation comes to: an answer and what it left, a wait for what never comes
    (or longer than the turns it was given), or a panic. *)

Inductive Run (W A : Type) := Did (r : Result A Fault) (w : W) | Waits | Panics.
Arguments Did {W A} r w.
Arguments Waits {W A}.
Arguments Panics {W A}.

Definition M (W A : Type) : Type := W -> Run W A.

Definition ret {W A} (a : A) : M W A := fun w => Did (Ok a) w.
Definition raise {W A} (e : Fault) : M W A := fun w => Did (Err e) w.
Definition bind {W A B} (m : M W A) (k : A -> M W B) : M W B := fun w =>
  match m w with
  | Did (Ok a) w => k a w
  | Did (Err e) w => Did (Err e) w
  | Waits => Waits
  | Panics => Panics
  end.

(** The answer, an error too, as a value. *)
Definition attempt {W A} (m : M W A) : M W (Result A Fault) := fun w =>
  match m w with Did r w => Did (Ok r) w | Waits => Waits | Panics => Panics end.

Definition answer {W A} (r : Result A Fault) : M W A := fun w => Did r w.
Definition or_panic {W A} (o : option A) : M W A := fun w => match o with Some a => Did (Ok a) w | None => Panics end.

Notation "'let%' x ':=' m 'in' k" := (bind m (fun x => k))
  (at level 10, x binder, m at level 100, k at level 200) : rotelyx_scope.
Notation "m ;; k" := (bind m (fun _ => k)) (at level 100, right associativity, k at level 200) : rotelyx_scope.

Fixpoint for_each {W A} (f : A -> M W unit) (l : list A) : M W unit :=
  match l with [] => ret tt | x :: l => f x ;; for_each f l end.

(** A loop, in the turns it is given: [true] is another turn. *)
Fixpoint turns {W} (n : nat) (step : M W bool) : M W unit :=
  match n with
  | O => fun _ => Waits
  | S n => let% again := step in if again : bool then turns n step else ret tt
  end.

(** ** What is outside *)

Inductive Received_command := RCommand (c : Command) | REmpty | RDisconnected.

Section Meeting.
Context `{BL : Blake3, BH : Blake3Hash, AE : Aead, ED : Ed25519, FB : FrameBase64, HK : Hkdf, KD : Argon2, SF : StateFormat}.
Context `{ML : Mls, LF : @MlsLife ML, XW : XWing, XS : @XWingStorage XW, CJ : ChatJson, PJ : PayloadJson, H64 : Hasher64, UC : Unicode}.

(** The operations of a mailbox answer [None] when they wait for ever. *)
Class Outside := {
  Out : Type;
  o_connect : bytes -> Out -> bool * Out;
  o_hold_token : bytes -> Out -> Out;
  o_subscribe : list bytes -> Out -> option (Result (list bytes) Failure * Out);
  o_unsubscribe : list bytes -> Out -> option (Result unit Failure * Out);
  o_collected : list bytes -> Out -> option (Result unit Failure * Out);
  o_deposit : bytes -> Out -> option (Result unit Failure * Out);
  o_next : Out -> option (Result (option bytes) Failure * Out);
  (** milliseconds since 1970, when the clock is past it, and of a clock that only rises *)
  unix_ms : Out -> option Z;
  instant : Out -> Z;
  o_sleep : Z -> Out -> Out;
  o_fill : nat -> Out -> option bytes * Out;
  o_random : Out -> bytes * Out;
  o_nonces : Out -> (nat -> option (arr NONCE_LEN)) * Out;
  o_keys : Out -> option Signer * SecretKey * Out;
  o_disk : Out -> Disk;
  o_with_disk : Disk -> Out -> Out;
  o_fate : Out -> DeviceStore.Fate;
  o_readable : Out -> bool;
  o_recv : Out -> Received_command * Out;
  (** binding to a relay: [None] when it is not one or cannot be bound, and whether it
      was online in time *)
  o_bind : bytes -> Out -> option bool * Out;
  (** the address to publish, without those of this machine *)
  o_address : bytes -> Out -> option bytes;
  o_dial : bytes -> bytes -> Out -> bool * Out;
  o_accept : Out -> bool * Out;
  o_start_call : arr 32 -> byte -> bytes -> Out -> option (Z * bool) * Out;
}.
Context {OU : Outside}.

(** ** The state *)

Record Meeting := mkMeeting {
  mt_tag : rstring;
  mt_role : Role;
  mt_session : CSession;
  mt_joined : bool;
  mt_name : bytes;
  mt_at_meeting : bool;
  mt_pending : option Pending;
  mt_picture : option bytes;
  mt_keeping : option (Path * SessionKey);
  mt_mailbox : bytes;
  mt_label : bytes;
  mt_lines : list Line;
  mt_relay : option bytes;
  mt_room : option bytes;
  mt_endpoint : bool;
  mt_call_id : bytes;
  mt_call_stop : bool;
  mt_receipts : bool;
  mt_listening : list bytes;
  mt_admitted : list bytes;
  mt_queued : list bytes;
  mt_bucket : Z;
  mt_settle_by : option Z;
  mt_seen : list Z;
}.

Definition set_session (x : CSession) (m : Meeting) : Meeting :=
  mkMeeting (mt_tag m) (mt_role m) x (mt_joined m) (mt_name m) (mt_at_meeting m) (mt_pending m) (mt_picture m)
    (mt_keeping m) (mt_mailbox m) (mt_label m) (mt_lines m) (mt_relay m) (mt_room m) (mt_endpoint m)
    (mt_call_id m) (mt_call_stop m) (mt_receipts m) (mt_listening m) (mt_admitted m) (mt_queued m) (mt_bucket m)
    (mt_settle_by m) (mt_seen m).
Definition set_joined (x : bool) (m : Meeting) : Meeting :=
  mkMeeting (mt_tag m) (mt_role m) (mt_session m) x (mt_name m) (mt_at_meeting m) (mt_pending m) (mt_picture m)
    (mt_keeping m) (mt_mailbox m) (mt_label m) (mt_lines m) (mt_relay m) (mt_room m) (mt_endpoint m)
    (mt_call_id m) (mt_call_stop m) (mt_receipts m) (mt_listening m) (mt_admitted m) (mt_queued m) (mt_bucket m)
    (mt_settle_by m) (mt_seen m).
Definition set_at_meeting (x : bool) (m : Meeting) : Meeting :=
  mkMeeting (mt_tag m) (mt_role m) (mt_session m) (mt_joined m) (mt_name m) x (mt_pending m) (mt_picture m)
    (mt_keeping m) (mt_mailbox m) (mt_label m) (mt_lines m) (mt_relay m) (mt_room m) (mt_endpoint m)
    (mt_call_id m) (mt_call_stop m) (mt_receipts m) (mt_listening m) (mt_admitted m) (mt_queued m) (mt_bucket m)
    (mt_settle_by m) (mt_seen m).
Definition set_pending (x : option Pending) (m : Meeting) : Meeting :=
  mkMeeting (mt_tag m) (mt_role m) (mt_session m) (mt_joined m) (mt_name m) (mt_at_meeting m) x (mt_picture m)
    (mt_keeping m) (mt_mailbox m) (mt_label m) (mt_lines m) (mt_relay m) (mt_room m) (mt_endpoint m)
    (mt_call_id m) (mt_call_stop m) (mt_receipts m) (mt_listening m) (mt_admitted m) (mt_queued m) (mt_bucket m)
    (mt_settle_by m) (mt_seen m).
Definition set_picture (x : option bytes) (m : Meeting) : Meeting :=
  mkMeeting (mt_tag m) (mt_role m) (mt_session m) (mt_joined m) (mt_name m) (mt_at_meeting m) (mt_pending m) x
    (mt_keeping m) (mt_mailbox m) (mt_label m) (mt_lines m) (mt_relay m) (mt_room m) (mt_endpoint m)
    (mt_call_id m) (mt_call_stop m) (mt_receipts m) (mt_listening m) (mt_admitted m) (mt_queued m) (mt_bucket m)
    (mt_settle_by m) (mt_seen m).
Definition set_label (x : bytes) (m : Meeting) : Meeting :=
  mkMeeting (mt_tag m) (mt_role m) (mt_session m) (mt_joined m) (mt_name m) (mt_at_meeting m) (mt_pending m)
    (mt_picture m) (mt_keeping m) (mt_mailbox m) x (mt_lines m) (mt_relay m) (mt_room m) (mt_endpoint m)
    (mt_call_id m) (mt_call_stop m) (mt_receipts m) (mt_listening m) (mt_admitted m) (mt_queued m) (mt_bucket m)
    (mt_settle_by m) (mt_seen m).
Definition set_lines (x : list Line) (m : Meeting) : Meeting :=
  mkMeeting (mt_tag m) (mt_role m) (mt_session m) (mt_joined m) (mt_name m) (mt_at_meeting m) (mt_pending m)
    (mt_picture m) (mt_keeping m) (mt_mailbox m) (mt_label m) x (mt_relay m) (mt_room m) (mt_endpoint m)
    (mt_call_id m) (mt_call_stop m) (mt_receipts m) (mt_listening m) (mt_admitted m) (mt_queued m) (mt_bucket m)
    (mt_settle_by m) (mt_seen m).
Definition set_endpoint (x : bool) (m : Meeting) : Meeting :=
  mkMeeting (mt_tag m) (mt_role m) (mt_session m) (mt_joined m) (mt_name m) (mt_at_meeting m) (mt_pending m)
    (mt_picture m) (mt_keeping m) (mt_mailbox m) (mt_label m) (mt_lines m) (mt_relay m) (mt_room m) x
    (mt_call_id m) (mt_call_stop m) (mt_receipts m) (mt_listening m) (mt_admitted m) (mt_queued m) (mt_bucket m)
    (mt_settle_by m) (mt_seen m).
Definition set_call_id (x : bytes) (m : Meeting) : Meeting :=
  mkMeeting (mt_tag m) (mt_role m) (mt_session m) (mt_joined m) (mt_name m) (mt_at_meeting m) (mt_pending m)
    (mt_picture m) (mt_keeping m) (mt_mailbox m) (mt_label m) (mt_lines m) (mt_relay m) (mt_room m)
    (mt_endpoint m) x (mt_call_stop m) (mt_receipts m) (mt_listening m) (mt_admitted m) (mt_queued m)
    (mt_bucket m) (mt_settle_by m) (mt_seen m).
Definition set_call_stop (x : bool) (m : Meeting) : Meeting :=
  mkMeeting (mt_tag m) (mt_role m) (mt_session m) (mt_joined m) (mt_name m) (mt_at_meeting m) (mt_pending m)
    (mt_picture m) (mt_keeping m) (mt_mailbox m) (mt_label m) (mt_lines m) (mt_relay m) (mt_room m)
    (mt_endpoint m) (mt_call_id m) x (mt_receipts m) (mt_listening m) (mt_admitted m) (mt_queued m)
    (mt_bucket m) (mt_settle_by m) (mt_seen m).
Definition set_listening (x : list bytes) (m : Meeting) : Meeting :=
  mkMeeting (mt_tag m) (mt_role m) (mt_session m) (mt_joined m) (mt_name m) (mt_at_meeting m) (mt_pending m)
    (mt_picture m) (mt_keeping m) (mt_mailbox m) (mt_label m) (mt_lines m) (mt_relay m) (mt_room m)
    (mt_endpoint m) (mt_call_id m) (mt_call_stop m) (mt_receipts m) x (mt_admitted m) (mt_queued m)
    (mt_bucket m) (mt_settle_by m) (mt_seen m).
Definition set_admitted (x : list bytes) (m : Meeting) : Meeting :=
  mkMeeting (mt_tag m) (mt_role m) (mt_session m) (mt_joined m) (mt_name m) (mt_at_meeting m) (mt_pending m)
    (mt_picture m) (mt_keeping m) (mt_mailbox m) (mt_label m) (mt_lines m) (mt_relay m) (mt_room m)
    (mt_endpoint m) (mt_call_id m) (mt_call_stop m) (mt_receipts m) (mt_listening m) x (mt_queued m)
    (mt_bucket m) (mt_settle_by m) (mt_seen m).
Definition set_queued (x : list bytes) (m : Meeting) : Meeting :=
  mkMeeting (mt_tag m) (mt_role m) (mt_session m) (mt_joined m) (mt_name m) (mt_at_meeting m) (mt_pending m)
    (mt_picture m) (mt_keeping m) (mt_mailbox m) (mt_label m) (mt_lines m) (mt_relay m) (mt_room m)
    (mt_endpoint m) (mt_call_id m) (mt_call_stop m) (mt_receipts m) (mt_listening m) (mt_admitted m) x
    (mt_bucket m) (mt_settle_by m) (mt_seen m).
Definition set_bucket (x : Z) (m : Meeting) : Meeting :=
  mkMeeting (mt_tag m) (mt_role m) (mt_session m) (mt_joined m) (mt_name m) (mt_at_meeting m) (mt_pending m)
    (mt_picture m) (mt_keeping m) (mt_mailbox m) (mt_label m) (mt_lines m) (mt_relay m) (mt_room m)
    (mt_endpoint m) (mt_call_id m) (mt_call_stop m) (mt_receipts m) (mt_listening m) (mt_admitted m)
    (mt_queued m) x (mt_settle_by m) (mt_seen m).
Definition set_settle_by (x : option Z) (m : Meeting) : Meeting :=
  mkMeeting (mt_tag m) (mt_role m) (mt_session m) (mt_joined m) (mt_name m) (mt_at_meeting m) (mt_pending m)
    (mt_picture m) (mt_keeping m) (mt_mailbox m) (mt_label m) (mt_lines m) (mt_relay m) (mt_room m)
    (mt_endpoint m) (mt_call_id m) (mt_call_stop m) (mt_receipts m) (mt_listening m) (mt_admitted m)
    (mt_queued m) (mt_bucket m) x (mt_seen m).
Definition set_seen (x : list Z) (m : Meeting) : Meeting :=
  mkMeeting (mt_tag m) (mt_role m) (mt_session m) (mt_joined m) (mt_name m) (mt_at_meeting m) (mt_pending m)
    (mt_picture m) (mt_keeping m) (mt_mailbox m) (mt_label m) (mt_lines m) (mt_relay m) (mt_room m)
    (mt_endpoint m) (mt_call_id m) (mt_call_stop m) (mt_receipts m) (mt_listening m) (mt_admitted m)
    (mt_queued m) (mt_bucket m) (mt_settle_by m) x.

(** The meeting, what is outside, and the events said so far. *)
Record World := mkWorld { meeting : Meeting; out : Out; said : list Event }.

Local Notation "'IO' A" := (M World A) (at level 10).

(** *** Touching the parts *)

Definition get {A} (f : Meeting -> A) : IO A := fun w => Did (Ok (f (meeting w))) w.
Definition put (f : Meeting -> Meeting) : IO unit := fun w => Did (Ok tt) (mkWorld (f (meeting w)) (out w) (said w)).
Definition say (e : Event) : IO unit := fun w => Did (Ok tt) (mkWorld (meeting w) (out w) (said w ++ [e])).
Definition with_out (o : Out) (w : World) : World := mkWorld (meeting w) o (said w).

(** An operation of the mailbox. *)
Definition box {A} (op : Out -> option (Result A Failure * Out)) : IO A := fun w =>
  match op (out w) with
  | Some (r, o) => Did (map_err FBox r) (with_out o w)
  | None => Waits
  end.
Definition asks {A} (f : Out -> A) : IO A := fun w => Did (Ok (f (out w))) w.
Definition draws {A} (f : Out -> A * Out) : IO A := fun w => let '(a, o) := f (out w) in Did (Ok a) (with_out o w).
Definition changes (f : Out -> Out) : IO unit := fun w => Did (Ok tt) (with_out (f (out w)) w).

(** An operation of the session. *)
Definition in_session {A} (op : CSession -> Result A Error * CSession) : IO A := fun w =>
  let '(r, s) := op (mt_session (meeting w)) in
  Did (map_err FSession r) (mkWorld (set_session s (meeting w)) (out w) (said w)).
Definition of_session {A} (f : CSession -> Result A Error) : IO A := fun w =>
  Did (map_err FSession (f (mt_session (meeting w)))) w.

Definition draw_exactly (n : nat) : IO (option (arr n)) :=
  let% l := draws (o_fill n) in ret (l ← l; try_into n l).

(** ** Small things *)

Definition le_value (l : bytes) : Z := be_value (reverse l).

Definition shuffle {A} (l : list A) : IO (list A) :=
  if (length l <? 2)%nat then ret l
  else
    let% drawn := draws (o_fill (length l * 8)) in
    match drawn with
    | None => raise FNoRandomness
    | Some drawn => ret (Session.fisher_yates drawn (length l - 1) l)
    end.

Definition bucket : IO Z :=
  let% ms := asks unix_ms in
  match ms with None => raise FBefore1970 | Some ms => ret (bucket_at (ms / 1000)) end.

Definition deposit (e : bytes) : IO unit := box (o_deposit e).

(** [seal_under] of the payload, and the deposit. *)
Definition deposit_at (tag : rstring) (p : Payload) : IO unit :=
  let% r := or_panic (seal_under tag (frame_encode (payload_to_json p))) in
  let% sealed := answer (map_err FSession r) in
  deposit sealed.

Definition deposit_rendezvous (p : Payload) : IO unit :=
  let% tag := get mt_tag in deposit_at tag p.

(** ** Written down *)

Definition write_down : IO unit :=
  let% joined := get mt_joined in
  let% keeping := get mt_keeping in
  match joined, keeping with
  | true, Some (identity, key) =>
      let% m := get (fun m => m) in
      let% n := draw_exactly 24 in
      let% n' := draw_exactly 24 in
      let% ms := asks unix_ms in
      let% d := asks o_disk in
      let% fate := asks o_fate in
      let '(r, d) := save d identity key (mt_session m) (mt_label m) (mt_mailbox m)
                       (session_member_count (mt_session m)) (mt_lines m) (from_option (fun ms => ms / 1000) 0 ms) n n' fate in
      changes (o_with_disk d) ;;
      match r with Ok _ => ret tt | Err e => say (EError (FChats e)) end
  | _, _ => ret tt
  end.

Definition remember (t : bytes) (mine : bool) : IO unit :=
  let% ms := asks unix_ms in
  put (fun m => set_lines (mt_lines m ++ [mkLine t mine (from_option (fun ms => ms / 1000) 0 ms)]) m) ;;
  write_down.

(** ** Listening *)

Definition resubscribe : IO unit :=
  let% b := bucket in
  let% now := of_session (fun s => my_polling_tags s b LOOKBACK) in
  let% listening := get mt_listening in
  let fresh := retain (fun t => negb (bool_decide (t ∈ listening))) now in
  match fresh with
  | [] => ret tt
  | _ =>
      let% waiting := box (o_subscribe fresh) in
      put (fun m => set_queued (mt_queued m ++ waiting) (set_listening (mt_listening m ++ fresh) m))
  end ;;
  put (set_bucket b).

Definition settle_held : IO unit :=
  put (set_settle_by None) ;;
  let% settled := in_session session_settle in
  if settled : bool then write_down ;; resubscribe else ret tt.

(** ** A message to everybody else *)

(** Every envelope is tried; what was refused is kept. *)
Fixpoint deposit_all (l : list bytes) : IO (list Fault) :=
  match l with
  | [] => ret []
  | e :: l =>
      let% r := attempt (deposit e) in
      let% refused := deposit_all l in
      ret (match r with Ok _ => refused | Err f => f :: refused end)
  end.

Definition deposit_message (body : rstring) : IO unit :=
  let% settle_by := get mt_settle_by in
  (if bool_decide (is_Some settle_by) then settle_held else ret tt) ;;
  let% ciphertext := in_session (fun s => session_send s body) in
  (if is_control (rs body) then ret tt else remember (rs body) true) ;;
  let% b := bucket in
  let% nonces := draws o_nonces in
  let% envelopes := of_session (fun s => seal_for_group s ciphertext b nonces) in
  let% envelopes := shuffle envelopes in
  let wanted := length envelopes in
  let% refused := deposit_all envelopes in
  match refused with
  | first :: _ => if (length refused =? wanted)%nat && (0 <? wanted)%nat then raise (FNoCopy first) else ret tt
  | [] => ret tt
  end.

(** A signal: its kind and fields, after the marker. *)
Definition signal (fields : list bytes) : rstring := text (SIGNAL_MARKER ++ (fields ≫= (fun f => SIGNAL_SEP :: f))).

Definition show_my_picture : IO unit :=
  let% picture := get mt_picture in
  match picture with
  | None => ret tt
  | Some png => deposit_message (signal [str "profile"; frame_encode png])
  end.

Definition say_who_is_here : IO unit :=
  let% r := attempt (of_session roster_detail) in
  match r with
  | Err e => say (EError e)
  | Ok l => say (EMembers ((fun x => (x.1.1, x.1.2)) <$> l))
  end.

(** The commit, to whoever has not applied it. *)
Definition seal_commit (commit : bytes) : IO (list bytes) :=
  let% b := bucket in
  let% nonces := draws o_nonces in
  of_session (fun s => seal_commit_for_group s commit b nonces).

(** ** Calls *)

Definition endpoint : IO bytes :=
  let% bound := get mt_endpoint in
  let% relay := get mt_relay in
  let r := default [] (trim <$> relay) in
  (if bound : bool then ret tt
   else
     match r with
     | [] => raise FNoRelay
     | _ =>
         let% online := draws (o_bind r) in
         match online with
         | None => raise FNotARelay
         | Some online =>
             (if online : bool then ret tt
              else say (EStatus (str "the relay has not answered yet, so a call may not connect"))) ;;
             put (set_endpoint true)
         end
     end) ;;
  ret r.

Definition my_address : IO bytes :=
  let% r := endpoint in
  let% a := asks (o_address r) in
  match a with Some a => ret a | None => raise FNoAddress end.

Definition signal_call (what id address : bytes) : IO unit :=
  deposit_message (signal [str "call"; what; id; address]).

Definition call_keys : IO (arr 32 * byte) :=
  let% base := of_session session_media_base_key in
  let% index := of_session seat_index in
  if u8_max <? Z.of_nat index then raise FSenderIndex else ret (base, z2b (Z.of_nat index)).

Definition in_a_room (m : Meeting) : bool :=
  match mt_room m with Some (_ :: _) => 2 <? session_member_count (mt_session m) | _ => false end.

Definition dial (address first : bytes) : IO unit :=
  let% ok := draws (o_dial address first) in if ok : bool then ret tt else raise FNotReached.

Definition join_room (id : bytes) : IO unit :=
  let% room := get mt_room in
  match room with
  | Some ((_ :: _) as room) =>
      let% join := of_session (fun s => room_join s id) in
      let% l := answer (ok_or (FSession NotBase64) (frame_decode join)) in
      let% _ := endpoint in
      dial room l
  | _ => raise FNoRoom
  end.

(** The call runs in a task of its own until [mt_call_stop] is dropped. *)
Definition begin_call (keys : arr 32 * byte) : IO unit :=
  let% id := get mt_call_id in
  let% binding := answer (map_err (fun _ => FCallName) (MediaFrame.call_binding_new id)) in
  let% r := draws (o_start_call keys.1 keys.2 binding) in
  match r with
  | None => raise FNoMicrophone
  | Some (kbit, mono) => say (ECallStarted kbit mono) ;; put (set_call_stop true)
  end.

Definition end_call (tell_them : bool) : IO unit :=
  let% was := get mt_call_stop in
  if was : bool then
    put (set_call_stop false) ;;
    let% id := get mt_call_id in
    (if tell_them && bool_decide (id <> []) then signal_call (str "ended") id [] else ret tt) ;;
    put (set_call_id [])
  else ret tt.

Definition call_id : IO bytes :=
  let% l := draws (o_fill 16) in
  match l with None => raise FNoRandomness | Some l => ret (hex_lower l) end.

Definition place_call : IO unit :=
  let% on := get mt_call_stop in
  if on : bool then raise FBusy
  else
    let% address := my_address in
    let% id := call_id in
    put (set_call_id id) ;;
    signal_call (str "ringing") id address ;;
    say (EStatus (str "ringing")).

Definition answer_call (id : bytes) : IO unit :=
  let% on := get mt_call_stop in
  if on : bool then signal_call (str "declined") id []
  else
    let% keys := call_keys in
    let% mine := my_address in
    put (set_call_id id) ;;
    signal_call (str "answered") id mine ;;
    let% room := get in_a_room in
    if room : bool then join_room id ;; begin_call keys
    else
      let% _ := endpoint in
      let% came := draws o_accept in
      if came : bool then begin_call keys else raise FNeverConnected.

Definition take_call (id address : bytes) : IO unit :=
  let% on := get mt_call_stop in
  let% mine := get mt_call_id in
  if on || negb (bool_decide (mine = id)) then ret tt
  else
    let% keys := call_keys in
    let% room := get in_a_room in
    if room : bool then join_room id ;; begin_call keys
    else
      match address with
      | [] => raise FNoAddress
      | _ => let% _ := endpoint in dial address [] ;; begin_call keys
      end.

(** ** Signals *)

Definition call_state (what id address : bytes) : IO unit :=
  if bool_decide (what = str "ringing") then
    match address with
    | [] => ret tt
    | _ => say (EStatus (str "they are calling")) ;; answer_call id
    end
  else if bool_decide (what = str "answered") then take_call id address
  else if bool_decide (what = str "declined") then say (EStatus (str "they declined")) ;; end_call false
  else if bool_decide (what = str "ended") then end_call false
  else ret tt.

Definition on_control (body : rstring) (from : option bytes) : IO unit :=
  let parts := split_at SIGNAL_SEP [] (rs body) in
  let part i : bytes := default [] (parts !! i) in
  match parts !! 1%nat with
  | None => ret tt
  | Some kind =>
      if bool_decide (kind = str "pendingAddition") then
        let tag := text (part 2%nat) in
        let name := default [] (encoded ← parts !! 3%nat; from_utf8_lossy <$> frame_decode encoded) in
        if negb (zlen (rs tag) =? 64) then ret tt
        else
          put (set_pending (Some (mkPending tag name))) ;;
          say (EAdditionProposed from name)
      else if negb (bool_decide (kind = str "call")) then ret tt
      else
        let% outcome := attempt (call_state (part 2%nat) (part 3%nat) (part 4%nat)) in
        match outcome with
        | Ok _ => ret tt
        | Err e => say (EError e) ;; let% _ := attempt (end_call false) in ret tt
        end
  end.

(** ** The meeting place *)

Definition return_to_the_meeting_place : IO unit :=
  let% m := get (fun m => m) in
  if negb (bool_decide (mt_role m = Host)) || mt_at_meeting m || bool_decide (rs (mt_tag m) = []) then ret tt
  else
    let% waiting := box (o_subscribe [rs (mt_tag m)]) in
    put (fun m => set_at_meeting true (set_queued (mt_queued m ++ waiting) m)).

Definition leave_the_meeting_place : IO unit :=
  let% tag := get mt_tag in
  box (o_unsubscribe [rs tag]) ;;
  put (set_at_meeting false).

Definition enter (peer : bytes) : IO unit :=
  let% role := get mt_role in
  (if bool_decide (role = Guest) then leave_the_meeting_place else ret tt) ;;
  put (fun m => set_label peer (set_joined true m)) ;;
  write_down ;;
  let% relay := get mt_relay in
  (match relay with
   | None => ret tt
   | Some _ =>
       let% r := attempt endpoint in
       match r with Ok _ => ret tt | Err e => say (EStatus (str "calls are not available")) end
   end) ;;
  let% number := of_session safety_number in
  let% s := get mt_session in
  say (EConnected peer number false (session_member_count s) (session_epoch s)) ;;
  resubscribe ;;
  show_my_picture.

Definition welcome_payload (name welcome tree : bytes) (pq : option bytes) : Payload :=
  mkPayload (Some (str "welcome")) (Some name) None None (Some welcome) (Some tree) pq None.
Definition commit_payload (commit : bytes) : Payload :=
  mkPayload (Some (str "commit")) None None None None None None (Some commit).
Definition hello_payload (name key_package hybrid : bytes) : Payload :=
  mkPayload (Some (str "hello")) (Some name) (Some key_package) (Some hybrid) None None None None.

Definition propose (name key_package : bytes) : IO unit :=
  let% proposal := in_session (fun s => ClientSession.propose s key_package) in
  let% b := bucket in
  let% nonces := draws o_nonces in
  let% envelopes := of_session (fun s => seal_for_group s proposal b nonces) in
  for_each deposit envelopes ;;
  let% tag := get mt_tag in
  deposit_message (signal [str "pendingAddition"; rs tag; frame_encode name]) ;;
  let% there := get mt_at_meeting in
  (if there : bool then leave_the_meeting_place else ret tt) ;;
  say (EStatus (str "asked the others to let " ++ name ++ str " in. It happens when one of them agrees.")).

Definition confirm : IO unit :=
  let% pending := get mt_pending in
  match pending with
  | None => raise FNobodyProposed
  | Some pending =>
      let% i := in_session ClientSession.confirm in
      let% mine := get mt_name in
      deposit_at (pe_tag pending) (welcome_payload mine (welcome i) (inv_tree i) None) ;;
      let% envelopes := seal_commit (commit i) in
      for_each deposit envelopes ;;
      put (set_pending None) ;;
      let% s := get mt_session in
      say (EGroupChanged (session_member_count s) [pe_name pending] [] (Some mine)) ;;
      write_down ;;
      resubscribe ;;
      show_my_picture ;;
      say_who_is_here
  end.

(** The first of the others: a post-quantum secret is mixed in at once. *)
Definition admit_first (name : bytes) (i : Invitation) (hybrid : bytes) : IO unit :=
  let% random := draws o_random in
  let% pq := in_session (fun s => encapsulate_to s hybrid random) in
  let% mine := get mt_name in
  deposit_rendezvous (welcome_payload mine (welcome i) (inv_tree i) (Some pq)) ;;
  let% nonce := draw_exactly 32 in
  let% commit := in_session (fun s => commit_pq s nonce) in
  deposit_rendezvous (commit_payload commit) ;;
  let% b := bucket in
  let% nonces := draws o_nonces in
  let% r := attempt (of_session (fun s => seal_commit_for_group s commit b nonces)) in
  (match r with
   | Ok envelopes => for_each deposit envelopes ;; let% _ := in_session session_settle in ret tt
   | Err _ => ret tt
   end) ;;
  enter name.

Definition let_in (name key_package hybrid : bytes) : IO unit :=
  let% founding := get (fun m => negb (mt_joined m)) in
  let% members := get (fun m => session_member_count (mt_session m)) in
  if negb founding && (1 <? members) then propose name key_package
  else
    let% i := in_session (fun s => ClientSession.invite s key_package) in
    let% _ := in_session session_settle in
    let% mine := get mt_name in
    let% s := get mt_session in
    say (EGroupChanged (session_member_count s) [name] [] (Some mine)) ;;
    if founding : bool then admit_first name i hybrid
    else
      deposit_rendezvous (welcome_payload mine (welcome i) (inv_tree i) None) ;;
      let% envelopes := seal_commit (commit i) in
      for_each deposit envelopes ;;
      resubscribe ;;
      show_my_picture.

(** Whether it was this side's to act on. *)
Definition knocked (p : Payload) : IO bool :=
  match p_key_package p, p_hybrid p with
  | Some key_package, Some hybrid =>
      let% let_in_already := get mt_admitted in
      if bool_decide (key_package ∈ let_in_already) then ret false
      else
        put (set_admitted (let_in_already ++ [key_package])) ;;
        let_in (default (str "anon") (p_name p)) key_package hybrid ;;
        ret true
  | _, _ => ret false
  end.

Definition welcomed (p : Payload) : IO bool :=
  match p_welcome p, p_tree p with
  | Some w, Some tree =>
      in_session (fun s => session_join s w tree) ;;
      (match p_pq p with Some pq => in_session (fun s => open_pq s pq) | None => ret tt end) ;;
      enter (default (str "anon") (p_name p)) ;;
      ret true
  | _, _ => ret false
  end.

Definition committed (p : Payload) : IO bool :=
  match p_commit p with
  | None => ret false
  | Some commit =>
      let% r := attempt (in_session (fun s => session_receive s commit)) in
      (match r with Ok _ => resubscribe | Err _ => ret tt end) ;;
      ret true
  end.

Definition by_kind (p : Payload) : IO bool :=
  let% m := get (fun m => m) in
  if bool_decide (p_t p = Some (str "hello")) && bool_decide (mt_role m = Host) then knocked p
  else if bool_decide (p_t p = Some (str "welcome")) && bool_decide (mt_role m = Guest) && negb (mt_joined m) then welcomed p
  else if bool_decide (p_t p = Some (str "commit")) && bool_decide (mt_role m = Guest) then committed p
  else ret false.

Definition rendezvous (payload_b64 : bytes) : IO bool :=
  match l ← frame_decode payload_b64; payload_from_json l with
  | None => ret false
  | Some p => by_kind p
  end.

(** ** The conversation *)

(** What a person wrote: shown, written down, and said to have been read if this side
    says so. *)
Definition heard (t : rstring) (from : option bytes) : IO unit :=
  say (EMessage t from) ;;
  remember (rs t) false ;;
  let% receipts := get mt_receipts in
  if receipts : bool then
    let% ms := asks unix_ms in
    let% _ := attempt (deposit_message (signal [str "read"; print_u64 (default 0 ms)])) in ret tt
  else ret tt.

Definition changed (added removed : list bytes) (by_ : option bytes) : IO unit :=
  put (set_settle_by None) ;;
  if bool_decide (added = []) && bool_decide (removed = []) then write_down ;; resubscribe
  else
    let% s := get mt_session in
    say (EGroupChanged (session_member_count s) added removed by_) ;;
    write_down ;;
    resubscribe ;;
    (if bool_decide (added = []) then ret tt
     else put (set_pending None) ;; return_to_the_meeting_place ;; show_my_picture) ;;
    say_who_is_here.

Definition told (t : Told) : IO unit :=
  match t with
  | TMessage text_ who =>
      let from := fst <$> who in
      if is_control (rs text_) then on_control text_ from else heard text_ from
  | TMembership added removed _ by_ => changed added removed by_
  | TSuperseded (Some (added, removed, _)) => changed added removed None
  | TSuperseded None => changed [] [] None
  | TProposed _ _ => write_down
  | TRefused why => say (ERefused why)
  | TNothing => write_down ;; resubscribe
  end.

Definition conversation (envelope : bytes) : IO bool :=
  let% joined := get mt_joined in
  if negb joined then ret false
  else
    let% b := bucket in
    let% opened := attempt (of_session (fun s => open_mine s envelope b LOOKBACK)) in
    match opened with
    | Err _ => ret false
    | Ok payload =>
        let% received := attempt (in_session (fun s => session_receive s payload)) in
        match received with
        | Err e => say (EError e) ;; ret true
        | Ok t => told t ;; ret true
        end
    end.

(** ** One envelope *)

Definition acknowledge (envelope : bytes) : IO unit := box (o_collected [envelope]).

Definition act_on (envelope : bytes) : IO bool :=
  let% tag := get mt_tag in
  let% r := or_panic (open_under envelope tag) in
  match r with Ok payload => rendezvous payload | Err _ => conversation envelope end.

Definition see (digest : Z) (seen : list Z) : list Z :=
  let seen := seen ++ [digest] in if (SEEN_AT_MOST <? length seen)%nat then drop 1 seen else seen.

Definition incoming (envelope : bytes) : IO unit :=
  let digest := hash64 envelope in
  let% seen := get mt_seen in
  if bool_decide (digest ∈ seen) then acknowledge envelope
  else
    put (set_seen (see digest seen)) ;;
    let% handled := act_on envelope in
    if handled : bool then acknowledge envelope else ret tt.

Definition incoming_each (l : list bytes) : IO unit := for_each incoming l.

(** What a subscribe handed back, until there is none. *)
Definition drain_queue (n : nat) : IO unit :=
  turns n
    (let% queued := get mt_queued in
     match queued with
     | [] => ret false
     | _ => put (set_queued []) ;; incoming_each queued ;; ret true
     end).

(** ** Commands *)

Definition expel (key : bytes) : IO unit :=
  let% commit := in_session (fun s => remove_member s key) in
  let% envelopes := seal_commit commit in
  for_each deposit envelopes ;;
  in_session session_settle ;;
  resubscribe ;;
  say_who_is_here.

Definition when_joined (k : IO unit) : IO unit :=
  let% joined := get mt_joined in if joined : bool then k else raise FNoConversationYet.

Definition command (c : Command) : IO unit :=
  match c with
  | Send t => when_joined (deposit_message t)
  | StartCall =>
      let% r := attempt place_call in
      match r with Ok _ => ret tt | Err e => say (EError e) end
  | EndCall | Hangup => end_call true
  | WhoIsHere => say_who_is_here
  | Confirm => when_joined confirm
  | Dismiss => put (set_pending None)
  | Picture png =>
      put (set_picture (Some png)) ;;
      let% joined := get mt_joined in
      if joined : bool then show_my_picture else ret tt
  | Remove key => when_joined (expel key)
  end.

(** The commands there are; [false] when nobody can send one any more. *)
Fixpoint commands (n : nat) : IO bool :=
  match n with
  | O => fun _ => Waits
  | S n =>
      let% c := draws o_recv in
      match c with
      | RCommand c => command c ;; commands n
      | REmpty => ret true
      | RDisconnected => ret false
      end
  end.

(** ** The loop *)

Definition settle_if_due : IO unit :=
  let% due := get mt_settle_by in
  let% now := asks instant in
  match due with
  | Some at_ => if at_ <=? now then settle_held else ret tt
  | None => ret tt
  end.

Definition follow_the_hour : IO unit :=
  let% joined := get mt_joined in
  if joined : bool then
    let% b := bucket in
    let% known := get mt_bucket in
    if b =? known then ret tt else resubscribe
  else ret tt.

Definition one_turn (n : nat) : IO bool :=
  let% goes_on := commands n in
  if negb goes_on then ret false
  else
    drain_queue n ;;
    let% e := box o_next in
    (match e with Some e => incoming e | None => ret tt end) ;;
    follow_the_hour ;;
    settle_if_due ;;
    ret true.

Definition WAITS : list Z := [2; 6; 20; 60].

Definition hold_what_is_kept : IO unit :=
  let% keeping := get mt_keeping in
  match keeping with
  | None => ret tt
  | Some (identity, key) =>
      let% d := asks o_disk in
      let% readable := asks o_readable in
      match load_token d identity key readable with
      | Ok (Some t) => changes (o_hold_token (rs t))
      | Ok None => ret tt
      | Err _ => ret tt
      end
  end.

(** Back on the new socket, or not. *)
Definition pick_up : IO bool :=
  put (set_listening []) ;;
  let% joined := get mt_joined in
  let% back := (if joined : bool then let% r := attempt resubscribe in ret (is_ok r) else ret true) in
  if negb back then ret false
  else
    let% m := get (fun m => m) in
    if mt_at_meeting m && negb (bool_decide (rs (mt_tag m) = [])) then
      let% r := attempt (box (o_subscribe [rs (mt_tag m)])) in
      match r with
      | Ok waiting => put (fun m => set_queued (mt_queued m ++ waiting) m) ;; ret true
      | Err _ => ret false
      end
    else ret true.

(** Each attempt waits and looks whether the caller has stopped; a command it finds
    there is not kept. *)
Fixpoint reconnect (n attempt_ : nat) : IO unit :=
  match n with
  | O => fun _ => Waits
  | S n =>
      changes (o_sleep (1000 * default 60 (WAITS !! (attempt_ `min` (length WAITS - 1))%nat))) ;;
      let% c := draws o_recv in
      match c with
      | RDisconnected => raise FStopped
      | RCommand _ | REmpty =>
          let% url := get mt_mailbox in
          let% connected := draws (o_connect url) in
          if negb connected then reconnect n (S attempt_)
          else
            hold_what_is_kept ;;
            let% back := pick_up in
            if back : bool then say (EStatus (str "back on the mailbox")) else reconnect n (S attempt_)
      end
  end.

Definition turn (n : nat) : IO unit :=
  turns n
    (let% r := attempt (one_turn n) in
     match r with
     | Ok goes_on => ret goes_on
     | Err e =>
         if is_gone_fault e then
           say (EStatus (str "the mailbox connection dropped")) ;; reconnect n 0 ;; ret true
         else raise e
     end).

(** ** Beginning *)

(** Before there is a meeting. *)
Definition Pre (A : Type) : Type := M (Out * list Event) A.

Definition pre_say (e : Event) : Pre unit := fun w => Did (Ok tt) (w.1, w.2 ++ [e]).
Definition pre_asks {A} (f : Out -> A) : Pre A := fun w => Did (Ok (f w.1)) w.
Definition pre_draws {A} (f : Out -> A * Out) : Pre A := fun w => let '(a, o) := f w.1 in Did (Ok a) (o, w.2).
Definition pre_box {A} (op : Out -> option (Result A Failure * Out)) : Pre A := fun w =>
  match op w.1 with Some (r, o) => Did (map_err FBox r) (o, w.2) | None => Waits end.

Definition within {A} (m : Meeting) (k : IO A) : Pre A := fun w =>
  match k (mkWorld m w.1 w.2) with
  | Did r w => Did r (out w, said w)
  | Waits => Waits
  | Panics => Panics
  end.

Definition connect_to (url : bytes) : Pre unit :=
  let% connected := pre_draws (o_connect url) in
  if connected : bool then ret tt else raise FNoMailbox.

Definition pre_bucket : Pre Z :=
  let% ms := pre_asks unix_ms in
  match ms with None => raise FBefore1970 | Some ms => ret (bucket_at (ms / 1000)) end.

(** Waiting for somebody else's rekey, until this side's time has come. *)
Definition await_a_rekey (n : nat) (until : Z) : IO unit :=
  turns n
    (let% now := asks instant in
     if until <=? now then ret false
     else
       let% e := attempt (box o_next) in
       match e with
       | Ok e =>
           (match e with Some e => incoming e | None => ret tt end) ;;
           let% s := get mt_session in
           ret (needs_rekey_after_restore s)
       | Err f => if is_gone_fault f then ret false else raise f
       end).

Definition rekey_and_hold : IO unit :=
  let% commit := in_session session_rekey_after_restore in
  let% b := bucket in
  let% nonces := draws o_nonces in
  let% s := get mt_session in
  match seal_commit_for_group s commit b nonces with
  | Ok envelopes =>
      for_each deposit envelopes ;;
      let% now := asks instant in
      put (set_settle_by (Some (now + REKEY_GRACE)))
  | Err e => raise (FCannotCarryOn e)
  end.

Definition resumed (n : nat) : IO unit :=
  resubscribe ;;
  drain_queue n ;;
  let% s := get mt_session in
  (if needs_rekey_after_restore s then
     let% l := draws (o_fill 2) in
     let jitter := le_value (default [x00; x00] l) mod REKEY_SPREAD_MS in
     let% now := asks instant in
     await_a_rekey n (now + jitter)
   else ret tt) ;;
  let% s := get mt_session in
  (if needs_rekey_after_restore s then rekey_and_hold else ret tt) ;;
  let% number := of_session safety_number in
  let% m := get (fun m => m) in
  say (EConnected (mt_label m) number false (session_member_count (mt_session m)) (session_epoch (mt_session m))) ;;
  say_who_is_here ;;
  show_my_picture ;;
  let% tag := get mt_tag in
  (if bool_decide (rs tag = []) then ret tt
   else
     let% waiting := box (o_subscribe [rs tag]) in
     put (fun m => set_at_meeting true (set_queued (mt_queued m ++ waiting) m)) ;;
     say (EStatus (str "waiting at a new meeting place as well"))) ;;
  turn n.

Definition resume (n : nat) (identity : Path) (key : SessionKey) (id : bytes) (relay room picture : option bytes)
    (host_at : option bytes) : Pre unit :=
  let% d := pre_asks o_disk in
  let% readable := pre_asks o_readable in
  let% kept := answer (map_err FChats (reopen_chat d identity key id readable)) in
  let '(s, label_, lines_, url) := kept in
  let% tag := answer (map_err FSession (match host_at with Some code => rendezvous_tag code | None => Ok [] end)) in
  pre_say (EStatus (str "opening the conversation with " ++ label_)) ;;
  connect_to url ;;
  let% t := answer (map_err FChats (load_token d identity key readable)) in
  let% _ := pre_draws (fun o => (tt, match t with Some t => o_hold_token (rs t) o | None => o end)) in
  let% b := pre_bucket in
  within
    (mkMeeting (text tag) Host s true label_ false None picture (Some (identity, key)) url label_ lines_ relay room
       false [] false false [] [] [] b None [])
    (resumed n).

Definition met (n : nat) (waiting : list bytes) : IO unit :=
  let% m := get (fun m => m) in
  (if bool_decide (mt_role m = Guest) then
     let% key_package := in_session key_package in
     deposit_rendezvous (hello_payload (mt_name m) key_package (hybrid_public_key_text (mt_session m)))
   else ret tt) ;;
  incoming_each waiting ;;
  turn n.

Definition run (n : nat) (code : rstring) (display_name mailbox_url : bytes) (role : Role) (receipts : bool)
    (relay room : option bytes) (keeping : option (Path * SessionKey)) (picture : option bytes) : Pre unit :=
  let% r := or_panic (read_meeting_code code) in
  let% code := answer (map_err FSession r) in
  let% tag := answer (map_err FSession (rendezvous_tag code)) in
  let% drawn := pre_draws o_keys in
  let% s := answer (map_err FSession (new drawn.1 drawn.2 display_name)) in
  let% s := answer (map_err FSession
    (if bool_decide (role = Host) then match found s with (Ok _, s) => Ok s | (Err e, _) => Err e end else Ok s)) in
  pre_say (EStatus (str "connecting to the mailbox at " ++ mailbox_url)) ;;
  connect_to mailbox_url ;;
  let% d := pre_asks o_disk in
  let% readable := pre_asks o_readable in
  let% t := answer (map_err FChats
    (match keeping with Some (identity, key) => load_token d identity key readable | None => Ok None end)) in
  let% _ := pre_draws (fun o => (tt, match t with Some t => o_hold_token (rs t) o | None => o end)) in
  let% waiting := pre_box (o_subscribe [tag]) in
  pre_say (EStatus (match role with
                    | Host => str "waiting at the meeting place"
                    | Guest => str "knocking at the meeting place"
                    end)) ;;
  let% b := pre_bucket in
  within
    (mkMeeting (text tag) role s false display_name true None picture keeping mailbox_url [] [] relay room
       false [] false receipts [] [] [] b None [])
    (met n waiting).
End Meeting.
