(* ===== verification/MeetingFacts.v ===== *)
(** * What a meeting does and does not do

    The theorems about [Meeting].  [follows] is what no operation but the handling of an
    envelope breaks; the rest is built on it. *)

From S2P Require Import Prelude Crypto Envelope Capability Hex Text Group GroupLife.
From S2P Require Import ClientSession SessionFacts MeetingCode Chats Meeting.
From S2P Require Session AtRest Hybrid MediaFrame Forward DeviceStore.
From S2P Require MailboxClient.
Import Session (FrameBase64, frame_encode, frame_decode, FrameBase64Laws).
Import Hybrid (XWing, PublicKey, SecretKey, Ed25519).
Import AtRest (Argon2).
Import MailboxClient (Failure(..), is_gone, text).

Section Follows.
Context `{BL : Blake3, BH : Blake3Hash, AE : Aead, ED : Ed25519, FB : FrameBase64, HK : Hkdf, KD : Argon2, SF : StateFormat}.
Context `{ML : Mls, LF : @MlsLife ML, XW : XWing, XS : @XWingStorage XW, CJ : ChatJson, PJ : PayloadJson,
  H64 : Hasher64, UC : Unicode}.
Context {OU : Outside}.

(** ** What stays *)

Record follows (w w' : World) : Prop := {
  f_tag : mt_tag (meeting w') = mt_tag (meeting w);
  f_role : mt_role (meeting w') = mt_role (meeting w);
  f_name : mt_name (meeting w') = mt_name (meeting w);
  f_keeping : mt_keeping (meeting w') = mt_keeping (meeting w);
  f_seen : mt_seen (meeting w') = mt_seen (meeting w);
  f_admitted : mt_admitted (meeting w) `prefix_of` mt_admitted (meeting w');
  f_joined : mt_joined (meeting w) = true -> mt_joined (meeting w') = true;
  f_said : said w `prefix_of` said w';
}.

#[export] Instance follows_preorder : PreOrder follows.
Proof.
  split; [by split|]. intros a b c [] []. split; try congruence; try (by etrans). by auto.
Qed.

(** An operation that keeps to it, however it ends. *)
Definition goes {A} (m : M World A) : Prop := forall w r w', m w = Did r w' -> follows w w'.

Lemma goes_bind {A B} (m : M World A) (k : A -> M World B) : goes m -> (forall a, goes (k a)) -> goes (bind m k).
Proof.
  intros Hm Hk w r w'. unfold bind. destruct (m w) as [[a|e] w1| |] eqn:E; try done.
  - intros H. etrans; [by eapply Hm|by eapply Hk].
  - intros [= <- <-]. by eapply Hm.
Qed.

Lemma goes_ret {A} (a : A) : goes (ret a).
Proof. by intros w r w' [= <- <-]. Qed.
Lemma goes_raise {A} e : goes (raise (A := A) e).
Proof. by intros w r w' [= <- <-]. Qed.
Lemma goes_answer {A} (x : Result A Fault) : goes (answer x).
Proof. by intros w r w' [= <- <-]. Qed.
Lemma goes_or_panic {A} (x : option A) : goes (or_panic x).
Proof. intros w r w'. unfold or_panic. destruct x; [by intros [= <- <-]|done]. Qed.
Lemma goes_attempt {A} (m : M World A) : goes m -> goes (attempt m).
Proof. intros Hm w r w'. unfold attempt. destruct (m w) eqn:E; try done. intros [= <- <-]. by eapply Hm. Qed.
Lemma goes_get {A} (f : Meeting.Meeting -> A) : goes (get f).
Proof. by intros w r w' [= <- <-]. Qed.
Lemma goes_asks {A} (f : Out -> A) : goes (asks f).
Proof. by intros w r w' [= <- <-]. Qed.
Lemma goes_of_session {A} (f : CSession -> Result A Error) : goes (of_session f).
Proof. by intros w r w' [= <- <-]. Qed.
Lemma goes_box {A} (op : Out -> option (Result A Failure * Out)) : goes (box op).
Proof. intros w r w'. unfold box. destruct (op _) as [[x o]|]; [|done]. intros [= <- <-]. by split. Qed.
Lemma goes_draws {A} (f : Out -> A * Out) : goes (draws f).
Proof. intros w r w'. unfold draws. destruct (f _). intros [= <- <-]. by split. Qed.
Lemma goes_changes (f : Out -> Out) : goes (changes f).
Proof. intros w r w' [= <- <-]. by split. Qed.
Lemma goes_in_session {A} (f : CSession -> Result A Error * CSession) : goes (in_session f).
Proof. intros w r w'. unfold in_session. destruct (f _). intros [= <- <-]. by split. Qed.
Lemma goes_say e : goes (say e).
Proof. intros w r w' [= <- <-]. split; try done. simpl. by apply prefix_app_r. Qed.
Lemma goes_put f :
  (forall m w, meeting w = m -> follows w (mkWorld (f m) (out w) (said w))) -> goes (put f).
Proof. intros Hf w r w' [= <- <-]. by apply Hf. Qed.

Lemma goes_for_each {A} (f : A -> M World unit) l : (forall x, goes (f x)) -> goes (for_each f l).
Proof. intros Hf. induction l as [|x l IH]; [apply goes_ret|]. by apply goes_bind. Qed.
Lemma goes_turns n (step : M World bool) : goes step -> goes (turns n step).
Proof.
  intros Hs. induction n as [|n IH]; [by intros w r w'|]. apply goes_bind; [done|]. intros []; [done|apply goes_ret].
Qed.
Lemma goes_let {A B} (x : A) (k : A -> M World B) : (forall a, goes (k a)) -> goes (let a := x in k a).
Proof. intros H. apply H. Qed.
End Follows.

Create HintDb goes.
#[export] Hint Resolve goes_ret goes_raise goes_answer goes_or_panic goes_get goes_asks goes_of_session goes_box
  goes_draws goes_changes goes_in_session goes_say : goes.

(** Down to what is known. *)
Ltac goes_step :=
  match goal with
  | |- goes (bind _ _) => apply goes_bind; [|intros]
  | |- goes (attempt _) => apply goes_attempt
  | |- goes (for_each _ _) => apply goes_for_each; intros
  | |- goes (turns _ _) => apply goes_turns
  | |- goes (put _) => apply goes_put; intros ? ? <-; by split
  | |- goes (match ?x with _ => _ end) => destruct x
  | |- goes (let _ := _ in _) => cbv zeta
  | |- goes _ => solve [auto with goes]
  end.
Ltac goes_all := repeat goes_step.

Section Operations.
Context `{BL : Blake3, BH : Blake3Hash, AE : Aead, ED : Ed25519, FB : FrameBase64, HK : Hkdf, KD : Argon2, SF : StateFormat}.
Context `{ML : Mls, LF : @MlsLife ML, XW : XWing, XS : @XWingStorage XW, CJ : ChatJson, PJ : PayloadJson,
  H64 : Hasher64, UC : Unicode}.
Context {OU : Outside}.

Lemma goes_draw_exactly n : goes (draw_exactly n).
Proof. unfold draw_exactly. goes_all. Qed.
Hint Resolve goes_draw_exactly : goes.
Lemma goes_bucket : goes bucket.
Proof. unfold bucket. goes_all. Qed.
Hint Resolve goes_bucket : goes.
Lemma goes_write_down : goes write_down.
Proof. unfold write_down. goes_all. Qed.
Hint Resolve goes_write_down : goes.
Lemma goes_resubscribe : goes resubscribe.
Proof. unfold resubscribe. goes_all. Qed.
Hint Resolve goes_resubscribe : goes.
Lemma goes_settle_held : goes settle_held.
Proof. unfold settle_held. goes_all. Qed.
Hint Resolve goes_settle_held : goes.
Lemma goes_deposit e : goes (deposit e).
Proof. unfold deposit. goes_all. Qed.
Hint Resolve goes_deposit : goes.
Lemma goes_deposit_all l : goes (deposit_all l).
Proof. induction l; cbn [deposit_all]; goes_all. Qed.
Hint Resolve goes_deposit_all : goes.
Lemma goes_deposit_at t p : goes (deposit_at t p).
Proof. unfold deposit_at. goes_all. Qed.
Hint Resolve goes_deposit_at : goes.
Lemma goes_deposit_rendezvous p : goes (deposit_rendezvous p).
Proof. unfold deposit_rendezvous. goes_all. Qed.
Hint Resolve goes_deposit_rendezvous : goes.
Lemma goes_deposit_message b : goes (deposit_message b).
Proof. unfold deposit_message, remember, shuffle. goes_all. Qed.
Hint Resolve goes_deposit_message : goes.
Lemma goes_show_my_picture : goes show_my_picture.
Proof. unfold show_my_picture. goes_all. Qed.
Hint Resolve goes_show_my_picture : goes.
Lemma goes_say_who_is_here : goes say_who_is_here.
Proof. unfold say_who_is_here. goes_all. Qed.
Hint Resolve goes_say_who_is_here : goes.
Lemma goes_endpoint : goes Meeting.endpoint.
Proof. unfold Meeting.endpoint. goes_all. Qed.
Hint Resolve goes_endpoint : goes.
Lemma goes_my_address : goes my_address.
Proof. unfold my_address. goes_all. Qed.
Hint Resolve goes_my_address : goes.
Lemma goes_signal_call a b c : goes (signal_call a b c).
Proof. unfold signal_call. goes_all. Qed.
Hint Resolve goes_signal_call : goes.
Lemma goes_call_keys : goes call_keys.
Proof. unfold call_keys. goes_all. Qed.
Hint Resolve goes_call_keys : goes.
Lemma goes_dial a b : goes (dial a b).
Proof. unfold dial. goes_all. Qed.
Hint Resolve goes_dial : goes.
Lemma goes_join_room a : goes (join_room a).
Proof. unfold join_room. goes_all. Qed.
Hint Resolve goes_join_room : goes.
Lemma goes_begin_call k : goes (begin_call k).
Proof. unfold begin_call. goes_all. Qed.
Hint Resolve goes_begin_call : goes.
Lemma goes_end_call b : goes (end_call b).
Proof. unfold end_call. goes_all. Qed.
Hint Resolve goes_end_call : goes.
Lemma goes_call_id : goes call_id.
Proof. unfold call_id. goes_all. Qed.
Hint Resolve goes_call_id : goes.
Lemma goes_place_call : goes place_call.
Proof. unfold place_call. goes_all. Qed.
Hint Resolve goes_place_call : goes.
Lemma goes_answer_call a : goes (answer_call a).
Proof. unfold answer_call. goes_all. Qed.
Hint Resolve goes_answer_call : goes.
Lemma goes_take_call a b : goes (take_call a b).
Proof. unfold take_call. goes_all. Qed.
Hint Resolve goes_take_call : goes.
Lemma goes_call_state a b c : goes (call_state a b c).
Proof. unfold call_state. goes_all. Qed.
Hint Resolve goes_call_state : goes.
Lemma goes_on_control b f : goes (on_control b f).
Proof. unfold on_control. goes_all. Qed.
Hint Resolve goes_on_control : goes.
Lemma goes_return_to_the_meeting_place : goes return_to_the_meeting_place.
Proof. unfold return_to_the_meeting_place. goes_all. Qed.
Hint Resolve goes_return_to_the_meeting_place : goes.
Lemma goes_leave_the_meeting_place : goes leave_the_meeting_place.
Proof. unfold leave_the_meeting_place. goes_all. Qed.
Hint Resolve goes_leave_the_meeting_place : goes.
Lemma goes_seal_commit c : goes (seal_commit c).
Proof. unfold seal_commit. goes_all. Qed.
Hint Resolve goes_seal_commit : goes.
Lemma goes_enter p : goes (enter p).
Proof. unfold enter. goes_all. Qed.
Hint Resolve goes_enter : goes.
Lemma goes_propose a b : goes (Meeting.propose a b).
Proof. unfold Meeting.propose. goes_all. Qed.
Hint Resolve goes_propose : goes.
Lemma goes_confirm : goes Meeting.confirm.
Proof. unfold Meeting.confirm. goes_all. Qed.
Hint Resolve goes_confirm : goes.
Lemma goes_admit_first a i h : goes (admit_first a i h).
Proof. unfold admit_first. goes_all. Qed.
Hint Resolve goes_admit_first : goes.
Lemma goes_let_in a b c : goes (let_in a b c).
Proof. unfold let_in. goes_all. Qed.
Hint Resolve goes_let_in : goes.
Lemma goes_knocked p : goes (knocked p).
Proof.
  unfold knocked. destruct (p_key_package p) as [kp|]; [|goes_all]. destruct (p_hybrid p) as [h|]; [|goes_all].
  intros w r w' Hrun. unfold bind at 1, get in Hrun. case_bool_decide; [by eapply goes_ret|].
  set (w1 := mkWorld (set_admitted (mt_admitted (meeting w) ++ [kp]) (meeting w)) (out w) (said w)).
  assert (follows w w1) as Hw by (split; try done; simpl; by apply prefix_app_r).
  assert (goes (let_in (default (str "anon") (p_name p)) kp h ;; ret true)) as Hg by goes_all.
  etrans; [exact Hw|]. exact (Hg w1 r w' Hrun).
Qed.
Hint Resolve goes_knocked : goes.
Lemma goes_welcomed p : goes (welcomed p).
Proof. unfold welcomed. goes_all. Qed.
Hint Resolve goes_welcomed : goes.
Lemma goes_committed p : goes (committed p).
Proof. unfold committed. goes_all. Qed.
Hint Resolve goes_committed : goes.
Lemma goes_by_kind p : goes (by_kind p).
Proof. unfold by_kind. goes_all. Qed.
Hint Resolve goes_by_kind : goes.
Lemma goes_rendezvous p : goes (rendezvous p).
Proof. unfold rendezvous. goes_all. Qed.
Hint Resolve goes_rendezvous : goes.
Lemma goes_heard t f : goes (heard t f).
Proof. unfold heard, remember. goes_all. Qed.
Hint Resolve goes_heard : goes.
Lemma goes_changed a r b : goes (changed a r b).
Proof. unfold changed. goes_all. Qed.
Hint Resolve goes_changed : goes.
Lemma goes_told t : goes (told t).
Proof. unfold told. goes_all. Qed.
Hint Resolve goes_told : goes.
Lemma goes_conversation e : goes (conversation e).
Proof. unfold conversation. goes_all. Qed.
Hint Resolve goes_conversation : goes.
Lemma goes_acknowledge e : goes (acknowledge e).
Proof. unfold acknowledge. goes_all. Qed.
Hint Resolve goes_acknowledge : goes.
Lemma goes_act_on e : goes (act_on e).
Proof. unfold act_on. goes_all. Qed.
Hint Resolve goes_act_on : goes.
Lemma goes_expel k : goes (expel k).
Proof. unfold expel. goes_all. Qed.
Hint Resolve goes_expel : goes.
Lemma goes_command c : goes (command c).
Proof. unfold command, when_joined. goes_all. Qed.
Hint Resolve goes_command : goes.
Lemma goes_hold_what_is_kept : goes hold_what_is_kept.
Proof. unfold hold_what_is_kept. goes_all. Qed.
Hint Resolve goes_hold_what_is_kept : goes.
Lemma goes_pick_up : goes pick_up.
Proof. unfold pick_up. goes_all. Qed.
Hint Resolve goes_pick_up : goes.
Lemma goes_rekey_and_hold : goes rekey_and_hold.
Proof. unfold rekey_and_hold. goes_all. Qed.
Hint Resolve goes_rekey_and_hold : goes.
Lemma goes_follow_the_hour : goes follow_the_hour.
Proof. unfold follow_the_hour. goes_all. Qed.
Hint Resolve goes_follow_the_hour : goes.
Lemma goes_settle_if_due : goes settle_if_due.
Proof. unfold settle_if_due. goes_all. Qed.
Hint Resolve goes_settle_if_due : goes.

(** ** Any run of what a meeting does *)

Inductive Move :=
| VIncoming (e : bytes) | VCommand (c : Command) | VSettleIfDue | VFollowTheHour | VPickUp | VEnqueue (l : list bytes).

Definition move (v : Move) : M World unit :=
  match v with
  | VIncoming e => incoming e
  | VCommand c => command c
  | VSettleIfDue => settle_if_due
  | VFollowTheHour => follow_the_hour
  | VPickUp => hold_what_is_kept ;; let% _ := pick_up in ret tt
  | VEnqueue l => put (set_queued l)
  end.

(** One after another, whatever errors they answer, as long as they return. *)
Fixpoint play (vs : list Move) (w : World) : option World :=
  match vs with
  | [] => Some w
  | v :: vs => match move v w with Did _ w => play vs w | _ => None end
  end.

Definition arrivals (vs : list Move) : nat := length (omap (fun v => match v with VIncoming e => Some e | _ => None end) vs).

Lemma incoming_seen e w r w' :
  incoming e w = Did r w' ->
  mt_seen (meeting w') = (if bool_decide (hash64 e ∈ mt_seen (meeting w)) then mt_seen (meeting w)
                          else see (hash64 e) (mt_seen (meeting w))) /\
  mt_admitted (meeting w) `prefix_of` mt_admitted (meeting w').
Proof.
  unfold incoming. unfold bind at 1, get. case_bool_decide as Hd; intros Hr.
  - apply goes_acknowledge in Hr. split; [apply Hr|apply Hr].
  - unfold bind at 1, put in Hr.
    set (w1 := mkWorld (set_seen (see (hash64 e) (mt_seen (meeting w))) (meeting w)) (out w) (said w)) in Hr.
    assert (goes (let% handled := act_on e in if handled : bool then acknowledge e else ret tt)) as Hg by goes_all.
    specialize (Hg w1 r w' Hr). split; [by rewrite (f_seen _ _ Hg)|]. exact (f_admitted _ _ Hg).
Qed.

Lemma move_quiet v w r w' :
  (forall e, v <> VIncoming e) -> move v w = Did r w' -> follows w w'.
Proof.
  intros Hv. assert (goes (move v)) as Hg; [|apply Hg].
  destruct v; cbn [move]; [by destruct (Hv e)|..]; goes_all.
Qed.

Lemma play_admitted vs w w' : play vs w = Some w' -> mt_admitted (meeting w) `prefix_of` mt_admitted (meeting w').
Proof.
  revert w. induction vs as [|v vs IH]; intros w; [by intros [= <-]|]. cbn [play].
  destruct (move v w) as [r w1| |] eqn:E; [|done..]. intros H. etrans; [|by apply IH].
  destruct v as [e| | | | |]; [by apply (incoming_seen e w r w1 E)|..];
    eapply f_admitted, move_quiet; try exact E; intros ? [=].
Qed.

(** Seen, with so many since. *)
Definition seen_within (d : Z) (k : nat) (l : list Z) : Prop := exists pre post, l = pre ++ d :: post /\ (length post <= k)%nat.

Lemma see_within d k x l : (k < 511)%nat -> seen_within d k l -> seen_within d (S k) (see x l).
Proof.
  intros Hk (pre & post & -> & Hl). unfold see, SEEN_AT_MOST. rewrite <- app_assoc. cbn [app].
  destruct (Nat.ltb_spec 512 (length (pre ++ d :: post ++ [x]))) as [H|H].
  - destruct pre as [|p pre]; [cbn [app length] in H; rewrite length_app in H; simpl in H; lia|].
    exists pre, (post ++ [x]). split; [done|]. rewrite length_app. simpl. lia.
  - exists pre, (post ++ [x]). split; [done|]. rewrite length_app. simpl. lia.
Qed.

Lemma play_seen d vs w w' k :
  play vs w = Some w' -> seen_within d k (mt_seen (meeting w)) -> (k + arrivals vs <= 511)%nat ->
  seen_within d (k + arrivals vs) (mt_seen (meeting w')).
Proof.
  revert w k. induction vs as [|v vs IH]; intros w k; [by intros [= <-] ? _; rewrite Nat.add_0_r|]. cbn [play].
  destruct (move v w) as [r w1| |] eqn:E; [|done..]. intros Hp Hs Hk.
  assert ((exists e, v = VIncoming e) \/ forall e, v <> VIncoming e) as [[e ->]|Hv] by (destruct v; eauto; by right; intros ? [=]).
  - change (arrivals (VIncoming e :: vs)) with (S (arrivals vs)) in *.
    destruct (incoming_seen e w r w1 E) as [Hseen _].
    assert (seen_within d (S k) (mt_seen (meeting w1))) as Hs1.
    { rewrite Hseen. case_bool_decide; [|by apply see_within; [lia|]].
      destruct Hs as (pre & post & Heq & Hl). exists pre, post. split; [done|lia]. }
    rewrite Nat.add_succ_r. apply (IH w1 (S k)); [done|done|lia].
  - assert (arrivals (v :: vs) = arrivals vs) as Ha by (destruct v; [by destruct (Hv e)|done..]).
    rewrite Ha in *. apply (IH w1 k); [done| |done]. by rewrite (f_seen _ _ (move_quiet v w r w1 Hv E)).
Qed.



(** ** A message to everybody else *)

Lemma bind_did {W A B} (m : M W A) (k : A -> M W B) w r w' :
  bind m k w = Did r w' ->
  (exists a w1, m w = Did (Ok a) w1 /\ k a w1 = Did r w') \/ (exists e, m w = Did (Err e) w' /\ r = Err e).
Proof.
  unfold bind. destruct (m w) as [[a|e] w1| |]; [|intros [= <- <-]|done..]; [left|right]; by eauto.
Qed.

(** The results of the deposits, one after another. *)
Fixpoint outcomes (l : list bytes) (o : Out) : option (list (Result unit Failure) * Out) :=
  match l with
  | [] => Some ([], o)
  | e :: l =>
      '(r, o) ← o_deposit e o;
      '(rs, o) ← outcomes l o;
      Some (r :: rs, o)
  end.

Definition refusals (rs : list (Result unit Failure)) : list Fault :=
  omap (fun r => match r with Ok _ => None | Err f => Some (FBox f) end) rs.

Lemma deposit_all_outcomes l w :
  deposit_all l w =
    match outcomes l (out w) with Some (rs, o) => Did (Ok (refusals rs)) (with_out o w) | None => Waits end.
Proof.
  revert w. induction l as [|e l IH]; intros [m o s]; [done|]. cbn [deposit_all outcomes out].
  unfold bind at 1, attempt, deposit, box. cbn [out]. destruct (o_deposit e o) as [[r o1]|]; [|done].
  cbn [mbind option_bind]. unfold bind at 1. rewrite IH. unfold with_out. cbn [out meeting said].
  destruct (outcomes l o1) as [[rs o2]|]; [|done]. by destruct r.
Qed.

Lemma refusals_all rs :
  length (refusals rs) = length rs <-> Forall (fun r => is_ok r = false) rs.
Proof.
  assert (forall rs, (length (refusals rs) <= length rs)%nat) as Hle by (intros; apply length_omap_le).
  induction rs as [|[u|f] rs IH]; [by split|..]; unfold refusals in *; cbn [omap list_omap length].
  - split; [|by intros [H _]%Forall_cons]. intros H. specialize (Hle rs). lia.
  - rewrite Forall_cons, <- IH. cbn [length]. split; [intros [= H]; by split|intros [_ H]; by rewrite H].
Qed.

Lemma outcomes_length l o rs o' : outcomes l o = Some (rs, o') -> length rs = length l.
Proof.
  revert o rs. induction l as [|e l IH]; intros o rs; [by intros [= <- _]|]. cbn [outcomes].
  destruct (o_deposit e o) as [[r o1]|]; [|done]. cbn [mbind option_bind].
  destruct (outcomes l o1) as [[rs1 o2]|] eqn:E; [|done]. intros [= <- <-]. simpl. by rewrite (IH _ _ E).
Qed.

Lemma shuffle_did {A} (l : list A) w r w' :
  shuffle l w = Did r w' -> meeting w' = meeting w /\ ((exists l', r = Ok l' /\ l' ≡ₚ l) \/ r = Err FNoRandomness).
Proof.
  unfold shuffle. destruct (_ <? _)%nat; [intros [= <- <-]; split; [done|]; left; by exists l|].
  unfold bind, draws. destruct (o_fill _ _) as [[drawn|] o]; intros [= <- <-]; (split; [done|]); [|by right].
  left. eexists. split; [done|]. apply Session.fisher_yates_perm.
Qed.

Lemma write_down_did w r w' : write_down w = Did r w' -> r = Ok tt /\ meeting w' = meeting w.
Proof.
  unfold write_down. unfold bind at 1 2, get. destruct (mt_joined (meeting w)); [|by intros [= <- <-]].
  destruct (mt_keeping (meeting w)) as [[identity key]|]; [|by intros [= <- <-]].
  unfold bind, draw_exactly, asks, draws, changes, bind, ret, say. destruct w as [m o es]. cbn [out meeting said].
  destruct (o_fill 24 o) as [l1 o1]. cbn [out meeting said with_out]. destruct (o_fill 24 o1) as [l2 o2].
  cbn [out meeting said with_out]. destruct (save _ _ _ _ _ _ _ _ _ _ _ _) as [[x|e] d]; by intros [= <- <-].
Qed.

Lemma remember_did t mine w r w' :
  remember t mine w = Did r w' -> r = Ok tt /\ mt_session (meeting w') = mt_session (meeting w).
Proof.
  unfold remember. unfold bind at 1 2, asks, put. intros [-> Hm]%write_down_did. split; [done|]. by rewrite Hm.
Qed.

(** What is answered when all that was tried is known. *)
Lemma the_refused rs :
  let r := match refusals rs with
     | first :: _ => if (length (refusals rs) =? length rs)%nat && (0 <? length rs)%nat then Err (FNoCopy first) else Ok tt
     | [] => Ok tt end in
  (r = Ok tt <-> rs = [] \/ Exists (fun x => is_ok x = true) rs) /\
  (forall e, r = Err e -> Forall (fun x => is_ok x = false) rs /\
     exists f rest, rs = Err f :: rest /\ e = FNoCopy (FBox f) /\ is_gone_fault e = false).
Proof.
  cbv zeta. pose proof (refusals_all rs) as Hall. destruct (Nat.eqb_spec (length (refusals rs)) (length rs)) as [Heq|Hne].
  - pose proof (proj1 Hall Heq) as Hno. destruct rs as [|[u|f] rest]; [|by apply Forall_cons in Hno as [? _]|].
    { split; [split; [by left|done]|done]. }
    assert (~ Exists (fun x => is_ok x = true) (@Err unit Failure f :: rest)) as Hex.
    { intros Hex. apply Exists_exists in Hex as (x & Hx & Hok). rewrite Forall_forall in Hno. specialize (Hno x Hx). congruence. }
    unfold refusals at 1. cbn [omap list_omap andb length Nat.ltb Nat.leb]. split.
    + split; [done|]. intros [?|?]; done.
    + intros e [= <-]. split; [done|]. exists f, rest. done.
  - assert (Exists (fun x => is_ok x = true) rs) as Hex.
    { destruct (decide (Forall (fun x => is_ok x = false) rs)) as [Hf|Hf]; [by apply Hall in Hf|].
      apply not_Forall_Exists in Hf; [|apply _]. eapply Exists_impl; [exact Hf|]. intros x Hx. cbn in Hx. destruct (is_ok x); [done|by destruct Hx]. }
    cbn [andb]. destruct (refusals rs); (split; [split; [by right|done]|done]).
Qed.

(** A message is tried for everybody, and is lost only when nobody was reached.
    Unless something before the first deposit failed, what is deposited is one envelope
    for every other member, in an order that is drawn; each is tried whatever became of
    the others; and sending fails exactly when there was somebody to reach and every
    copy was refused, with what the first was refused for in words, so that a socket
    that is gone is not told from a refusal. *)
Theorem a_message_is_tried_for_everybody body w r w' :
  mt_settle_by (meeting w) = None -> deposit_message body w = Did r w' ->
  (exists e, r = Err e /\ forall f, e <> FNoCopy f) \/
  exists ct s b nonces es es' o rs,
    session_send (mt_session (meeting w)) body = (Ok ct, s) /\
    seal_for_group s ct b nonces = Ok es /\ es' ≡ₚ es /\ outcomes es' o = Some (rs, out w') /\
    length rs = length es /\
    (r = Ok tt <-> rs = [] \/ Exists (fun x => is_ok x = true) rs) /\
    (forall e, r = Err e -> Forall (fun x => is_ok x = false) rs /\
       exists f rest, rs = Err f :: rest /\ e = FNoCopy (FBox f) /\ is_gone_fault e = false).
Proof.
  intros Hs Hd. unfold deposit_message in Hd. unfold bind at 1, get in Hd. rewrite Hs in Hd. cbn in Hd.
  unfold bind at 1, in_session in Hd. destruct (session_send _ body) as [[ct|e] s] eqn:Esend; cbn [map_err] in Hd;
    [|injection Hd as <- <-; left; by eexists].
  set (w0 := mkWorld (set_session s (meeting w)) (out w) (said w)) in Hd.
  assert (exists w1, mt_session (meeting w1) = s /\
    (let% b := bucket in let% nonces := draws o_nonces in
     let% envelopes := of_session (fun s => seal_for_group s ct b nonces) in
     let% envelopes := shuffle envelopes in
     let% refused := deposit_all envelopes in
     match refused with
     | first :: _ =>
         if (length refused =? length envelopes)%nat && (0 <? length envelopes)%nat then raise (FNoCopy first) else ret tt
     | [] => ret tt
     end) w1 = Did r w') as (w1 & Hses & Hrest).
  { apply bind_did in Hd as [([] & w1 & Hrem & Hd)|(e & He & ->)].
    - exists w1. split; [|exact Hd]. destruct (is_control _); [by injection Hrem as <-|].
      by apply remember_did in Hrem as [_ ->].
    - destruct (is_control _); [done|]. by apply remember_did in He as [? _]. }
  clear Hd. unfold bind at 1, bucket, bind at 1, asks in Hrest.
  destruct (unix_ms (out w1)) as [ms|]; cbn in Hrest; [|injection Hrest as <- <-; left; by eexists].
  unfold bind at 1, draws in Hrest. destruct (o_nonces (out w1)) as [nonces o1].
  unfold bind at 1, of_session in Hrest. cbn [meeting with_out] in Hrest. rewrite Hses in Hrest.
  destruct (seal_for_group s ct _ nonces) as [es|e] eqn:Eseal; cbn [map_err] in Hrest;
    [|injection Hrest as <- <-; left; by eexists].
  apply bind_did in Hrest as [(es' & w2 & Hsh & Hrest)|(e & He & ->)].
  2: { apply shuffle_did in He as [_ [(l' & ? & _)| [= ->]]]; [done|]. left. by eexists. }
  apply shuffle_did in Hsh as [_ [(l' & [= <-] & Hperm)|?]]; [|done]. right.
  unfold bind at 1 in Hrest. rewrite deposit_all_outcomes in Hrest.
  destruct (outcomes es' (out w2)) as [[rs o3]|] eqn:Eout; [|done].
  pose proof (outcomes_length _ _ _ _ Eout) as Hlen. pose proof (refusals_all rs) as Hall. rewrite <- Hlen in Hrest.
  exists ct, s, (bucket_at (ms / 1000)), nonces, es, es', (out w2), rs.
  split; [done|]. split; [done|]. split; [done|].
  assert (w' = with_out o3 w2 /\ r = match refusals rs with
     | first :: _ => if (length (refusals rs) =? length rs)%nat && (0 <? length rs)%nat then Err (FNoCopy first) else Ok tt
     | [] => Ok tt end) as [-> ->].
  { destruct (refusals rs) as [|f l]; [by injection Hrest as <- <-|].
    destruct (_ && _); injection Hrest as <- <-; by split. }
  split; [done|]. split; [by rewrite Hlen, Hperm|]. clear Hrest. apply the_refused.
Qed.

(** ** Listening where one is written to *)

Context `{AL : !AeadLaws AE, FL : !FrameBase64Laws FB, FT : !Base64Trim FB}.

Lemma resubscribe_listens w w' ms :
  resubscribe w = Did (Ok tt) w' -> unix_ms (out w) = Some ms ->
  exists tags, my_polling_tags (mt_session (meeting w)) (bucket_at (ms / 1000)) LOOKBACK = Ok tags /\
    (forall t, t ∈ tags -> t ∈ mt_listening (meeting w')) /\ mt_bucket (meeting w') = bucket_at (ms / 1000).
Proof.
  unfold resubscribe. unfold bind at 1, bucket, bind at 1, asks. intros H Hms. rewrite Hms in H. cbn in H.
  unfold bind at 1, of_session in H. destruct (my_polling_tags _ _ _) as [tags|]; cbn [map_err] in H; [|done].
  exists tags. split; [done|]. unfold bind at 1, get in H.
  set (fresh := retain _ tags) in H.
  assert (forall t, t ∈ tags -> t ∈ mt_listening (meeting w) ++ fresh) as Hin.
  { intros t Ht. destruct (decide (t ∈ mt_listening (meeting w))) as [Hl|Hl]; [set_solver|].
    apply elem_of_app. right. apply list_elem_of_filter. split; [|done]. by rewrite bool_decide_eq_false_2. }
  destruct fresh as [|f fresh].
  - cbn in H. injection H as <-. split; [|done]. intros t Ht. specialize (Hin t Ht). by rewrite app_nil_r in Hin.
  - unfold bind, box in H. destruct (o_subscribe _ _) as [[[waiting|] o]|]; cbn in H; [|done..].
    injection H as <-. split; [|done]. intros t Ht. by apply Hin.
Qed.


(** ** The meeting place *)

Class PayloadJsonLaws : Prop := {
  payload_read_written p : payload_from_json (payload_to_json p) = Some p;
  payload_ends p b : last (payload_to_json p) = Some b -> b <> zero_byte;
}.

(** What is left at a meeting place is acted on by whoever is there as what it is.
    A payload that was deposited is one envelope the mailbox took; and a client that
    meets at that tag acts on that envelope as on the payload: a host on a knock, a
    guest on a welcome or a commit. *)
Theorem what_is_left_is_acted_on (PL : PayloadJsonLaws) tag p w w' :
  deposit_at tag p w = Did (Ok tt) w' ->
  exists e, o_deposit e (out w) = Some (Ok tt, out w') /\
    forall w2, mt_tag (meeting w2) = tag -> act_on e w2 = by_kind p w2.
Proof.
  unfold deposit_at, bind at 1, or_panic. destruct (seal_under _ _) as [r|] eqn:Es; [|done].
  unfold bind, answer. destruct r as [e|x]; cbn [map_err]; [|done]. unfold deposit, box.
  destruct (o_deposit e (out w)) as [[[[]|f] o]|] eqn:Ed; cbn [map_err]; [|done..]. intros [= <-].
  exists e. split; [done|]. intros w2 Ht. unfold act_on, bind at 1, get. rewrite Ht.
  destruct (sealed_under_opens tag (frame_encode (payload_to_json p)) (payload_to_json p) e) as (_ & _ & _ & _ & _ & Ho);
    [apply decode_frame|apply payload_ends|done|].
  unfold bind, or_panic. rewrite Ho. unfold rendezvous. rewrite FL. cbn [mbind option_bind].
  by rewrite payload_read_written.
Qed.

(** ** A message that arrives *)

Lemma write_down_said w r w' : write_down w = Did r w' -> said w `prefix_of` said w'.
Proof. intros H. by apply goes_write_down, f_said in H. Qed.

(** A message that arrives is shown, kept, and only then said to have arrived.  An
    envelope this client had not seen, that is not for the meeting place and opens in the
    window to a message a person wrote, is shown as it was written with who wrote it,
    becomes the last line of the transcript, moves the session on, and is acknowledged
    last. *)
Theorem a_message_is_shown e w x t from payload s who ms w' :
  hash64 e ∉ mt_seen (meeting w) -> open_under e (mt_tag (meeting w)) = Some (Err x) ->
  mt_joined (meeting w) = true -> mt_receipts (meeting w) = false -> unix_ms (out w) = Some ms ->
  open_mine (mt_session (meeting w)) e (bucket_at (ms / 1000)) LOOKBACK = Ok payload ->
  session_receive (mt_session (meeting w)) payload = (Ok (TMessage t who), s) ->
  is_control (rs t) = false -> from = fst <$> who ->
  incoming e w = Did (Ok tt) w' ->
  EMessage t from ∈ said w' /\ last (mt_lines (meeting w')) = Some (mkLine (rs t) false (ms / 1000)) /\
  mt_session (meeting w') = s /\ exists o, o_collected [e] o = Some (Ok tt, out w').
Proof.
  intros Hseen Hu Hj Hrc Hms Ho Hrec Hctl -> Hi. unfold incoming, bind at 1, get in Hi.
  rewrite bool_decide_eq_false_2 in Hi by done. unfold bind at 1, put in Hi.
  set (w1 := mkWorld _ _ _) in Hi. unfold act_on in Hi. unfold bind at 1, bind at 1, get in Hi.
  cbn [w1 meeting set_seen mt_tag] in Hi. unfold bind at 1, or_panic in Hi. rewrite Hu in Hi.
  unfold conversation, bind at 1, get in Hi. cbn [w1 meeting set_seen mt_joined] in Hi. rewrite Hj in Hi. cbn [negb] in Hi.
  unfold bind at 1, bucket, bind at 1, asks in Hi. cbn [w1 out] in Hi. rewrite Hms in Hi. cbn [ret] in Hi.
  unfold bind at 1, bind at 1, attempt, of_session in Hi. cbn [w1 meeting set_seen mt_session] in Hi. rewrite Ho in Hi.
  cbn [map_err] in Hi. unfold bind at 1, attempt, in_session in Hi. cbn [w1 meeting set_seen mt_session] in Hi.
  rewrite Hrec in Hi. cbn [map_err] in Hi. unfold told, heard in Hi. rewrite Hctl in Hi.
  unfold bind at 1, say in Hi. cbn [w1 meeting out said] in Hi.
  set (w2 := mkWorld _ (out w) (said w ++ _)) in Hi.
  unfold bind at 1, remember in Hi. unfold bind at 1 2, asks, put in Hi. cbn [w2 out] in Hi. rewrite Hms in Hi.
  cbn [from_option w2 meeting out said] in Hi.
  match type of Hi with context [write_down ?x] => set (w3 := x) in Hi end.
  destruct (write_down w3) as [rr w4| |] eqn:Ew; [|done..].
  pose proof (write_down_said _ _ _ Ew) as [more Hsaid]. destruct (write_down_did _ _ _ Ew) as [-> Hm].
  unfold bind at 1, get in Hi. rewrite Hm in Hi. cbn [w3 meeting set_lines set_session set_seen mt_receipts] in Hi.
  rewrite Hrc in Hi. unfold ret, acknowledge, box in Hi.
  destruct (o_collected [e] (out w4)) as [[[[]|f] o]|] eqn:Ec; cbn [map_err] in Hi; [|done..]. injection Hi as <-.
  unfold with_out. cbn [meeting out said]. rewrite Hsaid, Hm. cbn [w3 meeting said set_lines mt_lines mt_session set_session].
  split; [set_solver|]. split; [by rewrite last_snoc|]. split; [done|]. by exists (out w4).
Qed.

(** ** What stops a client *)

Lemma split_at_app b acc a l : b ∉ a -> split_at b acc (a ++ b :: l) = (acc ++ a) :: split_at b [] l.
Proof.
  revert acc. induction a as [|c a IH]; intros acc Hb; cbn [app split_at].
  - by rewrite bool_decide_eq_true_2, app_nil_r.
  - rewrite bool_decide_eq_false_2 by set_solver. rewrite IH by set_solver. by rewrite <- app_assoc.
Qed.

Lemma split_at_last b acc a : b ∉ a -> split_at b acc a = [acc ++ a].
Proof.
  revert acc. induction a as [|c a IH]; intros acc Hb; cbn [split_at]; [by rewrite app_nil_r|].
  rewrite bool_decide_eq_false_2 by set_solver. rewrite IH by set_solver. by rewrite <- app_assoc.
Qed.

(** A signal from the other side can stop a client, and a lost socket ends a meeting
    that is being written in.  Whatever text of sixty-four bytes a member names as
    the place a newcomer waits is kept as it is; when it is such that reading it as a tag
    panics, so does agreeing to the addition.  And a turn in which a message typed found
    no copy taken, be it that the socket is gone, ends the loop, which comes back from
    a socket found gone anywhere else. *)
Theorem a_client_can_be_stopped :
  (forall body tag name who w i s,
     rs body = SIGNAL_MARKER ++ SIGNAL_SEP :: str "pendingAddition" ++ SIGNAL_SEP :: rs tag ++ SIGNAL_SEP :: name ->
     zlen (rs tag) = 64 -> SIGNAL_SEP ∉ rs tag -> SIGNAL_SEP ∉ name -> tag_from_hex tag = None ->
     ClientSession.confirm (mt_session (meeting w)) = (Ok i, s) ->
     exists w1, on_control body who w = Did (Ok tt) w1 /\ Meeting.confirm w1 = Panics) /\
  (forall n t w o f w2,
     o_recv (out w) = (RCommand (Send t), o) -> mt_joined (meeting w) = true ->
     deposit_message t (with_out o w) = Did (Err (FNoCopy f)) w2 ->
     turn (S n) w = Did (Err (FNoCopy f)) w2).
Proof.
  split.
  - intros body tag name who w i s Hb Hl Ht Hn Hp Hc. unfold on_control. rewrite Hb.
    rewrite split_at_app by (apply (bool_decide_unpack _); vm_compute; exact I). rewrite split_at_app by (apply (bool_decide_unpack _); vm_compute; exact I).
    rewrite split_at_app, split_at_last by done. cbn [app lookup list_lookup default from_option id].
    rewrite bool_decide_eq_true_2 by done. change (Datatypes.id (rs tag)) with (rs tag).
    assert (text (rs tag) = tag) as -> by (unfold text; by rewrite from_utf8_rs).
    rewrite Hl. cbn [Z.eqb Pos.eqb negb]. eexists. split; [reflexivity|].
    unfold Meeting.confirm, bind at 1, get. cbn [meeting set_pending mt_pending].
    unfold bind at 1, in_session. cbn [meeting set_pending mt_session]. rewrite Hc. cbn [map_err].
    unfold bind at 1. unfold bind at 1. unfold deposit_at at 1, bind at 1, or_panic, seal_under, tag_or_not.
    cbn [pe_tag]. by rewrite Hp.
  - intros n t w o f w2 Hr Hj Hd. unfold turn. cbn [turns]. unfold bind at 1 2, attempt, one_turn.
    unfold bind at 1. cbn [commands]. unfold bind at 1, draws. rewrite Hr.
    unfold bind at 1. cbn [command]. unfold when_joined, bind at 1, get. cbn [meeting with_out]. rewrite Hj, Hd. done.
Qed.
End Operations.

(** ** Witnesses *)

Import Toy.
Import (hints) AtRest.AtRestExample Hybrid.HybridExample SessionExample CodeExample ChatsExample.
#[local] Existing Instance SessionExample.aead | 0.

Module MeetingExample.

(** A mailbox that keeps what it is given, until its socket is gone; commands that come
    now, and while one sleeps. *)
Record Around := mkAround {
  y_gone : bool;
  y_boxed : list bytes;
  y_taken : list bytes;
  y_now : list Command;
  y_later : list Command;
  y_closed : bool;
  y_disk : Disk;
}.

Definition slept (y : Around) : Around :=
  mkAround (y_gone y) (y_boxed y) (y_taken y) (y_now y ++ y_later y) [] true (y_disk y).
Definition online {A} (a : A) (f : Around -> Around) (y : Around) : option (Result A Failure * Around) :=
  Some (if y_gone y then (Err Gone, y) else (Ok a, f y)).
Definition boxed (e : bytes) (y : Around) : Around :=
  mkAround (y_gone y) (y_boxed y ++ [e]) (y_taken y) (y_now y) (y_later y) (y_closed y) (y_disk y).
Definition taken (l : list bytes) (y : Around) : Around :=
  mkAround (y_gone y) (y_boxed y) (y_taken y ++ l) (y_now y) (y_later y) (y_closed y) (y_disk y).
Definition recv (y : Around) : Received_command * Around :=
  match y_now y with
  | c :: l => (RCommand c, mkAround (y_gone y) (y_boxed y) (y_taken y) l (y_later y) (y_closed y) (y_disk y))
  | [] => (if y_closed y then RDisconnected else REmpty, y)
  end.

#[export] Instance hasher : Hasher64 := Toy.sum.

#[export] Instance around : Outside (ML := SessionExample.mls) (XW := Hybrid.HybridExample.xwing) := {|
  Out := Around;
  o_connect _ y := (true, mkAround false (y_boxed y) (y_taken y) (y_now y) (y_later y) (y_closed y) (y_disk y));
  o_hold_token _ y := y;
  o_subscribe _ := online [] (fun y => y);
  o_unsubscribe _ := online tt (fun y => y);
  o_collected l := online tt (taken l);
  o_deposit e := online tt (boxed e);
  o_next := online None (fun y => y);
  unix_ms _ := Some 7200000000;
  instant _ := 0;
  o_sleep _ := slept;
  o_fill n y := (Some (replicate n x05), y);
  o_random y := ([x09], y);
  o_nonces y := ((fun _ => Some (be_arr NONCE_LEN 3)), y);
  o_keys y := (Some x0c, be_arr 32 4, y);
  o_disk := y_disk;
  o_with_disk d y := mkAround (y_gone y) (y_boxed y) (y_taken y) (y_now y) (y_later y) (y_closed y) d;
  o_fate _ := DeviceStore.Written;
  o_readable _ := true;
  o_recv := recv;
  o_bind _ y := (Some true, y);
  o_address _ _ := Some [x61];
  o_dial _ _ y := (true, y);
  o_accept y := (true, y);
  o_start_call _ _ _ y := (Some (24, true), y);
|}.

(** The fields one after another, each byte after a mark. *)
Definition written (f : option bytes) : bytes :=
  match f with None => [x03] | Some l => (l ≫= (fun b => [x01; b])) ++ [x02] end.
Fixpoint field (acc l : bytes) : option (option bytes * bytes) :=
  match l with
  | x03 :: l => Some (None, l)
  | x02 :: l => Some (Some acc, l)
  | x01 :: b :: l => field (acc ++ [b]) l
  | _ => None
  end.

Lemma field_written f l : field [] (written f ++ l) = Some (f, l).
Proof.
  destruct f as [k|]; [|done]. cbn [written].
  enough (forall acc, field acc (((k ≫= (fun b => [x01; b])) ++ [x02]) ++ l) = Some (Some (acc ++ k), l)) as H by apply (H []).
  induction k as [|b k IH]; intros acc; [by rewrite app_nil_r|]. rewrite bind_cons. cbn [app field]. by rewrite IH, <- app_assoc.
Qed.

#[export] Instance payloads : PayloadJson := {|
  payload_to_json p := written (p_t p) ++ written (p_name p) ++ written (p_key_package p) ++ written (p_hybrid p) ++
    written (p_welcome p) ++ written (p_tree p) ++ written (p_pq p) ++ written (p_commit p);
  payload_from_json l :=
    '(a, l) ← field [] l; '(b, l) ← field [] l; '(c, l) ← field [] l; '(d, l) ← field [] l;
    '(e, l) ← field [] l; '(f, l) ← field [] l; '(g, l) ← field [] l; '(h, _) ← field [] l;
    Some (mkPayload a b c d e f g h) |}.

#[export] Instance payloads_laws : PayloadJsonLaws (PJ := payloads).
Proof.
  split.
  - intros [a b c d e f g h]. cbn [payload_to_json payload_from_json payloads p_t p_name p_key_package p_hybrid p_welcome p_tree p_pq p_commit].
    rewrite field_written. cbn [mbind option_bind]. rewrite field_written. cbn [mbind option_bind].
    rewrite field_written. cbn [mbind option_bind]. rewrite field_written. cbn [mbind option_bind].
    rewrite field_written. cbn [mbind option_bind]. rewrite field_written. cbn [mbind option_bind].
    rewrite field_written. cbn [mbind option_bind]. rewrite <- (app_nil_r (written h)), field_written. done.
  - intros p b. cbn [payload_to_json payloads]. rewrite !app_assoc. set (k := _ ++ written (p_pq p)).
    destruct (p_commit p) as [l|]; cbn [written].
    + rewrite app_assoc, last_snoc. by intros [= <-].
    + rewrite last_snoc. by intros [= <-].
Qed.

Definition hi : rstring := RString [x68; x69] I.

Definition talking (s : CSession) (y : Around) : World (OU := around) :=
  mkWorld (OU := around)
    (mkMeeting (CodeExample.str CodeExample.place) Host s true [x61] false None None None [x77] [x62] [] None None
       false [] false false [] [] [] 2000 None [])
    y [].

Definition here : Around := mkAround false [] [] [Send hi] [] true ∅.
Definition away : Around := mkAround true [] [] [] [Send hi] false ∅.
Definition cut : Around := mkAround true [] [] [Send hi] [] true ∅.

(** How many envelopes were deposited, lines written down and commands left, of a loop
    that ended well. *)
Definition left_by (r : Run (World (OU := around)) unit) : option (nat * nat * nat) :=
  match r with
  | Did (Ok _) w =>
      Some (length (y_boxed (out w)), length (mt_lines (meeting w)), (length (y_now (out w)) + length (y_later (out w)))%nat)
  | _ => None
  end.
End MeetingExample.

Export (hints) MeetingExample.

(** A message typed while the mailbox is away is lost.  The loop that comes back
    from a lost socket looks at the channel of commands to learn whether the caller
    has stopped, and drops what it finds: of two clients told to send one message, the
    one whose socket was there deposits it and writes it down, the other neither, and
    both end well with nothing left to do. *)
Theorem a_command_is_lost_while_away :
  MeetingExample.left_by (turn 5 (MeetingExample.talking Talking.her MeetingExample.here)) = Some (1, 1, 0)%nat /\
  MeetingExample.left_by (turn 5 (MeetingExample.talking Talking.her MeetingExample.away)) = Some (0, 0, 0)%nat.
Proof. split; vm_compute; reflexivity. Qed.

Module MeetingRuns.
Import MeetingExample.

(** A meeting, as what a run of it leaves. *)
Definition ended {A} (d : World (OU := around)) (r : Run (World (OU := around)) A) : World (OU := around) :=
  match r with Did _ w => w | _ => d end.
Definition well {A} (r : Run (World (OU := around)) A) : bool := match r with Did (Ok _) _ => true | _ => false end.

Lemma ended_did {A} d (r : Run (World (OU := around)) A) :
  (match r with Did _ _ => true | _ => false end) = true -> exists x, r = Did x (ended d r).
Proof. destruct r; [by eexists|done..]. Qed.

Lemma well_unit d (r : Run (World (OU := around)) unit) : well r = true -> r = Did (Ok tt) (ended d r).
Proof. by destruct r as [[[]|]| |]. Qed.

Definition host : World (OU := around) := talking Talking.her here.
Definition guest : World (OU := around) := talking Talking.him here.

(** A knock with no name, by somebody whose key package is one byte. *)
Definition knock : Payload := hello_payload [x63] (frame_encode [x03]) (frame_encode (ab (Talking.sk 3))).
Definition knocked_once : World (OU := around) := ended host (knocked knock host).

(** An envelope for nobody here, before and after another. *)
Definition stray : bytes := CodeExample.left_there.
Definition after_stray : World (OU := around) := ended host (incoming stray host).
Definition later : World (OU := around) := default after_stray (play [VCommand WhoIsHere; VIncoming [x41]; VFollowTheHour] after_stray).

Definition place : rstring := CodeExample.str CodeExample.place.
Definition at_place : World (OU := around) := ended host (deposit_at place knock host).

Definition copies : list bytes :=
  match seal_for_group Talking.her Talking.said 1999 Talking.nonces with Ok es => es | Err _ => [] end.
Definition listening : World (OU := around) := ended guest (resubscribe guest).

Definition spoken : World (OU := around) := ended host (deposit_message hi host).
(** What he is handed of it, and what it holds. *)
Definition her_copy : bytes := default [] (head (y_boxed (out spoken))).
Definition opened_copy : bytes := match open_mine Talking.him her_copy 2000 LOOKBACK with Ok l => l | Err _ => [] end.
Definition moved_on : CSession := (session_receive Talking.him opened_copy).2.
Definition shown : World (OU := around) := ended guest (incoming her_copy guest).
End MeetingRuns.



Lemma what_is_left_is_acted_on_witness :
  exists e, act_on e MeetingRuns.guest = by_kind MeetingRuns.knock MeetingRuns.guest.
Proof.
  destruct (what_is_left_is_acted_on MeetingExample.payloads_laws MeetingRuns.place MeetingRuns.knock MeetingRuns.host
    MeetingRuns.at_place) as (e & _ & H).
  - apply MeetingRuns.well_unit. vm_compute. reflexivity.
  - exists e. apply H. reflexivity.
Defined.


Lemma a_message_is_tried_for_everybody_witness :
  exists ct s b nonces es es' o rs,
    session_send (mt_session (meeting MeetingRuns.host)) MeetingExample.hi = (Ok ct, s) /\
    seal_for_group s ct b nonces = Ok es /\ es' ≡ₚ es /\ outcomes es' o = Some (rs, out MeetingRuns.spoken).
Proof.
  destruct (a_message_is_tried_for_everybody MeetingExample.hi MeetingRuns.host (Ok tt) MeetingRuns.spoken eq_refl)
    as [(e & He & _)|(ct & s & b & nonces & es & es' & o & rs & H1 & H2 & H3 & H4 & _)].
  - apply MeetingRuns.well_unit. vm_compute. reflexivity.
  - discriminate He.
  - by exists ct, s, b, nonces, es, es', o, rs.
Defined.

(** The message of a client whose socket is gone. *)
Lemma a_client_can_be_stopped_witness :
  exists w2, turn 3 (MeetingExample.talking Talking.her MeetingExample.cut) = Did (Err (FNoCopy (FBox Gone))) w2.
Proof.
  exists (MeetingRuns.ended MeetingRuns.host (deposit_message MeetingExample.hi
    (MeetingExample.talking Talking.her (MeetingExample.mkAround true [] [] [] [] true ∅)))).
  refine (proj2 a_client_can_be_stopped 2%nat MeetingExample.hi (MeetingExample.talking Talking.her MeetingExample.cut)
    (MeetingExample.mkAround true [] [] [] [] true ∅) (FBox Gone) _ eq_refl eq_refl _).
  destruct (MeetingRuns.ended_did MeetingRuns.host (deposit_message MeetingExample.hi
    (MeetingExample.talking Talking.her (MeetingExample.mkAround true [] [] [] [] true ∅)))) as [r Hr]; [vm_compute; reflexivity|].
  assert (match deposit_message MeetingExample.hi (MeetingExample.talking Talking.her (MeetingExample.mkAround true [] [] [] [] true ∅))
          with Did (Err (FNoCopy (FBox Gone))) _ => true | _ => false end = true) as Hf by (vm_compute; reflexivity).
  unfold with_out. cbn [MeetingExample.talking meeting said] in *. rewrite Hr in Hf. etransitivity; [exact Hr|].
  destruct r as [|e]; [discriminate Hf|]. destruct e; try discriminate Hf.
  match goal with x : Fault |- _ => destruct x; try discriminate Hf end.
  match goal with x : Failure |- _ => destruct x; try discriminate Hf end. reflexivity.
Defined.

(** What she says is shown to him. *)
Lemma a_message_is_shown_witness : EMessage MeetingExample.hi (Some [x61]) ∈ said MeetingRuns.shown.
Proof.
  refine (proj1 (a_message_is_shown MeetingRuns.her_copy MeetingRuns.guest NotInWindow MeetingExample.hi (Some [x61])
    MeetingRuns.opened_copy MeetingRuns.moved_on (Some ([x61], frame_encode [x0a])) 7200000000 MeetingRuns.shown
    _ _ _ _ _ _ _ _ _ _)).
  - apply not_elem_of_nil.
  - vm_compute. reflexivity.
  - reflexivity.
  - reflexivity.
  - reflexivity.
  - vm_compute. reflexivity.
  - assert ((session_receive Talking.him MeetingRuns.opened_copy).1 =
      Ok (TMessage MeetingExample.hi (Some ([x61], frame_encode [x0a])))) as H by (vm_compute; reflexivity).
    unfold MeetingRuns.moved_on. change (mt_session (meeting MeetingRuns.guest)) with Talking.him. rewrite <- H.
    apply surjective_pairing.
  - reflexivity.
  - reflexivity.
  - apply MeetingRuns.well_unit. vm_compute. reflexivity.
Defined.
