(* ===== verification/RelayFrame.v ===== *)
(** * The frames a relay and its clients speak

    [rotelyx-relay-proto], [protos/common.rs] and [protos/relay.rs], with the variable
    length integer of [rotelyx-quic-proto] a frame's type is written as.  A frame comes
    in one binary message of a websocket: its type, then its fields, the last of which
    takes what is left.  The curve a key is a point of is an argument.  The cache of
    parsed keys is left out: what it answers is what parsing does. *)

From S2P Require Import Prelude Crypto Text Hybrid.

Definition MAX_PACKET_SIZE : Z := 64 * 1024.
Definition SEALED_HOP_LEN : nat := 1328.

Abbreviation EndpointId := (arr 32).
Definition ID_LEN : nat := 32.

(** ** [VarInt]

    [None] is the panic of a value no variable length integer holds. *)

Definition varint_encode (x : Z) : option bytes :=
  if x <? 2 ^ 6 then Some [z2b x]
  else if x <? 2 ^ 14 then Some (be_bytes 2 (Z.lor (Z.shiftl 1 14) x))
  else if x <? 2 ^ 30 then Some (be_bytes 4 (Z.lor (Z.shiftl 2 30) x))
  else if x <? 2 ^ 62 then Some (be_bytes 8 (Z.lor (Z.shiftl 3 62) x))
  else None.

(** The value and what follows it; [None] is [UnexpectedEnd]. *)
Definition varint_decode (l : bytes) : option (Z * bytes) :=
  match l with
  | [] => None
  | b :: rest =>
      let tag := Z.shiftr (b2z b) 6 in
      let first := z2b (Z.land (b2z b) 63) in
      let more n := if (length rest <? n)%nat then None else Some (be_value (first :: take n rest), drop n rest) in
      if tag =? 0 then more 0%nat else if tag =? 1 then more 1%nat else if tag =? 2 then more 3%nat else more 7%nat
  end.

(** ** [FrameType] *)

Inductive FrameType :=
| ServerChallenge | ClientAuth | ServerConfirmsAuth | ServerDeniesAuth
| ClientToRelayDatagram | ClientToRelayDatagramBatch | RelayToClientDatagram | RelayToClientDatagramBatch
| FEndpointGone | FPing | FPong | FHealth | FRestarting | FStatus | ClientBindsAlias
| ClientOpensCircuit | RelayOpenedCircuit | RelayClosedCircuit
| ClientToRelayCircuitDatagram | RelayToClientCircuitDatagram
| ClientToRelayCircuitDatagramBatch | RelayToClientCircuitDatagramBatch
| ClientAsksRelayKey | RelayAnswersRelayKey.

#[export] Instance FrameType_eq_dec : EqDecision FrameType.
Proof. solve_decision. Defined.

Definition frame_types : list FrameType :=
  [ServerChallenge; ClientAuth; ServerConfirmsAuth; ServerDeniesAuth;
   ClientToRelayDatagram; ClientToRelayDatagramBatch; RelayToClientDatagram; RelayToClientDatagramBatch;
   FEndpointGone; FPing; FPong; FHealth; FRestarting; FStatus; ClientBindsAlias;
   ClientOpensCircuit; RelayOpenedCircuit; RelayClosedCircuit;
   ClientToRelayCircuitDatagram; RelayToClientCircuitDatagram;
   ClientToRelayCircuitDatagramBatch; RelayToClientCircuitDatagramBatch;
   ClientAsksRelayKey; RelayAnswersRelayKey].

Definition frame_repr (t : FrameType) : Z :=
  match t with
  | ServerChallenge => 0 | ClientAuth => 1 | ServerConfirmsAuth => 2 | ServerDeniesAuth => 3
  | ClientToRelayDatagram => 4 | ClientToRelayDatagramBatch => 5
  | RelayToClientDatagram => 6 | RelayToClientDatagramBatch => 7
  | FEndpointGone => 8 | FPing => 9 | FPong => 10 | FHealth => 11 | FRestarting => 12 | FStatus => 13
  | ClientBindsAlias => 14 | ClientOpensCircuit => 15 | RelayOpenedCircuit => 16 | RelayClosedCircuit => 17
  | ClientToRelayCircuitDatagram => 18 | RelayToClientCircuitDatagram => 19
  | ClientToRelayCircuitDatagramBatch => 20 | RelayToClientCircuitDatagramBatch => 21
  | ClientAsksRelayKey => 22 | RelayAnswersRelayKey => 23
  end.

Definition from_repr (z : Z) : option FrameType :=
  List.find (fun t => frame_repr t =? z) frame_types.

Inductive Error :=
| FrameTooLarge (frame_len : Z)
| UnexpectedEnd
| UnknownFrameType (tag : Z)
| InvalidPublicKey
| InvalidFrame
| InvalidFrameType (frame_type : FrameType)
| InvalidProtocolMessageEncoding
| FrameNotAllowedInVersion.

Definition frame_type_write (t : FrameType) : bytes := default [] (varint_encode (frame_repr t)).

Definition frame_type_len (t : FrameType) : Z :=
  let x := frame_repr t in if x <? 2 ^ 6 then 1 else if x <? 2 ^ 14 then 2 else 4.

Definition frame_type_read (l : bytes) : Result (FrameType * bytes) Error :=
  let? r := ok_or UnexpectedEnd (varint_decode l) in
  let? t := ok_or (UnknownFrameType r.1) (if r.1 <=? u32_max then from_repr r.1 else None) in
  Ok (t, r.2).

(** ** [ProtocolVersion], oldest first *)

Inductive ProtocolVersion := V1 | V2 | V3.

Definition version_rank (v : ProtocolVersion) : Z := match v with V1 => 1 | V2 => 2 | V3 => 3 end.
Definition at_least (v w : ProtocolVersion) : bool := version_rank w <=? version_rank v.

(** ** Datagrams *)

Inductive EcnCodepoint := Ect0 | Ect1 | Ce.

Definition ecn_bits (e : EcnCodepoint) : Z := match e with Ect0 => 2 | Ect1 => 1 | Ce => 3 end.

Definition ecn_from_bits (x : Z) : option EcnCodepoint :=
  let y := Z.land x 3 in
  if y =? 2 then Some Ect0 else if y =? 1 then Some Ect1 else if y =? 3 then Some Ce else None.

(** [segment_size] is a [NonZeroU16]. *)
Record Datagrams := mkDatagrams {
  ecn : option EcnCodepoint;
  segment_size : option Z;
  contents : bytes;
}.

Definition is_batch (d : Datagrams) : bool := match segment_size d with Some _ => true | None => false end.

Definition datagrams_write (d : Datagrams) : bytes :=
  z2b (match ecn d with Some e => ecn_bits e | None => 0 end)
    :: match segment_size d with Some s => be_bytes 2 s | None => [] end ++ contents d.

Definition datagrams_len (d : Datagrams) : Z :=
  1 + (match segment_size d with Some _ => 2 | None => 0 end) + zlen (contents d).

Definition nonzero (z : Z) : option Z := if z =? 0 then None else Some z.

Definition datagrams_read (l : bytes) (batch : bool) : Result Datagrams Error :=
  match l with
  | [] => Err InvalidFrame
  | e :: rest =>
      if batch then
        if zlen l <? 3 then Err InvalidFrame
        else Ok (mkDatagrams (ecn_from_bits (b2z e)) (nonzero (be_value (take 2 rest))) (drop 2 rest))
      else Ok (mkDatagrams (ecn_from_bits (b2z e)) None rest)
  end.

(** [take_segments]: what is taken and what is left. *)
Definition take_segments (d : Datagrams) (num_segments : nat) : Datagrams * Datagrams :=
  match segment_size d with
  | None => (mkDatagrams (ecn d) None (contents d), mkDatagrams (ecn d) None [])
  | Some s =>
      let max_content_len := (num_segments * Z.to_nat s)%nat in
      let taken := take (Nat.min max_content_len (length (contents d))) (contents d) in
      let left := drop (Nat.min max_content_len (length (contents d))) (contents d) in
      let is_datagram_batch := (1 <? num_segments)%nat && (Z.to_nat s <? length taken)%nat in
      (mkDatagrams (ecn d) (if is_datagram_batch then Some s else None) taken,
       mkDatagrams (ecn d) (if (length left <=? Z.to_nat s)%nat then None else Some s) left)
  end.

(** ** What a relay says *)

Inductive Status := Healthy | SameEndpointIdConnected | Unknown (discriminant : Z).

Definition status_write (s : Status) : bytes :=
  [z2b (match s with Healthy => 0 | SameEndpointIdConnected => 1 | Unknown n => n end)].

Definition status_read (l : bytes) : Result Status Error :=
  match l with
  | [] => Err InvalidFrame
  | b :: _ => Ok (if b2z b =? 0 then Healthy else if b2z b =? 1 then SameEndpointIdConnected else Unknown (b2z b))
  end.

Definition literal (s : string) : bytes := String.list_byte_of_string s.

(** [Display]. *)
Definition status_text (s : Status) : bytes :=
  match s with
  | Healthy => literal "The connection is healthy and has recovered from previous problems"
  | SameEndpointIdConnected =>
      literal "Another endpoint connected with the same endpoint id. No more messages will be received."
  | Unknown n => literal "Unsupported health message (" ++ print_u64 n ++ literal ")"
  end.

(** Durations are in nanoseconds, and [RHealth]'s problem is UTF-8. *)
Inductive RelayToClientMsg :=
| RDatagrams (remote_endpoint_id : EndpointId) (datagrams : Datagrams)
| RCircuitOpened (circuit : Z)
| RCircuitClosed (circuit : Z) (reason : Z)
| RRelayKey (url key : bytes)
| RCircuitDatagrams (circuit : Z) (datagrams : Datagrams)
| REndpointGone (endpoint_id : EndpointId)
| RStatus (status : Status)
| RRestarting (reconnect_in try_for : Z)
| RPing (data : arr 8)
| RPong (data : arr 8)
| RHealth (problem : bytes).

Definition as_millis (d : Z) : Z := d / 1000000.
Definition from_millis (ms : Z) : Z := ms * 1000000.

Definition relay_msg_type (m : RelayToClientMsg) : FrameType :=
  match m with
  | RDatagrams _ d => if is_batch d then RelayToClientDatagramBatch else RelayToClientDatagram
  | RRelayKey _ _ => RelayAnswersRelayKey
  | RCircuitOpened _ => RelayOpenedCircuit
  | RCircuitClosed _ _ => RelayClosedCircuit
  | RCircuitDatagrams _ d => if is_batch d then RelayToClientCircuitDatagramBatch else RelayToClientCircuitDatagram
  | REndpointGone _ => FEndpointGone
  | RPing _ => FPing
  | RPong _ => FPong
  | RStatus _ => FStatus
  | RRestarting _ _ => FRestarting
  | RHealth _ => FHealth
  end.

Definition relay_msg_payload (m : RelayToClientMsg) : bytes :=
  match m with
  | RDatagrams k d => ab k ++ datagrams_write d
  | REndpointGone k => ab k
  | RRelayKey url key => z2b (zlen url) :: url ++ key
  | RCircuitOpened c => be_bytes 4 c
  | RCircuitClosed c reason => be_bytes 4 c ++ [z2b reason]
  | RCircuitDatagrams c d => be_bytes 4 c ++ datagrams_write d
  | RPing data | RPong data => ab data
  | RHealth problem => problem
  | RRestarting reconnect_in try_for => be_bytes 4 (wrap32 (as_millis reconnect_in)) ++ be_bytes 4 (wrap32 (as_millis try_for))
  | RStatus s => status_write s
  end.

Definition relay_msg_write (m : RelayToClientMsg) : bytes := frame_type_write (relay_msg_type m) ++ relay_msg_payload m.

Definition relay_msg_len (m : RelayToClientMsg) : Z :=
  frame_type_len (relay_msg_type m) +
  match m with
  | RDatagrams _ d => 32 + datagrams_len d
  | REndpointGone _ => 32
  | RRelayKey url key => 1 + zlen url + zlen key
  | RCircuitOpened _ => 4
  | RCircuitClosed _ _ => 4 + 1
  | RCircuitDatagrams _ d => 4 + datagrams_len d
  | RPing _ | RPong _ => 8
  | RStatus _ => 1
  | RRestarting _ _ => 4 + 4
  | RHealth problem => zlen problem
  end.

(** What the relay's side of the stream takes to write: [start_send]. *)
Definition start_send (m : RelayToClientMsg) : bool :=
  (relay_msg_len m <=? MAX_PACKET_SIZE) &&
  match m with RDatagrams _ d => negb (zlen (contents d) =? 0) | _ => true end.

(** ** What a client says *)

Inductive ClientToRelayMsg :=
| CPing (data : arr 8)
| CPong (data : arr 8)
| CDatagrams (dst_endpoint_id : EndpointId) (datagrams : Datagrams)
| COpenCircuit (circuit : Z) (sealed inner : bytes)
| CAskRelayKey (url : bytes)
| CCircuitDatagrams (circuit : Z) (datagrams : Datagrams)
| CBindAlias (alias : EndpointId) (signature : arr 64).

Definition client_msg_type (m : ClientToRelayMsg) : FrameType :=
  match m with
  | CBindAlias _ _ => ClientBindsAlias
  | CAskRelayKey _ => ClientAsksRelayKey
  | COpenCircuit _ _ _ => ClientOpensCircuit
  | CCircuitDatagrams _ d => if is_batch d then ClientToRelayCircuitDatagramBatch else ClientToRelayCircuitDatagram
  | CDatagrams _ d => if is_batch d then ClientToRelayDatagramBatch else ClientToRelayDatagram
  | CPing _ => FPing
  | CPong _ => FPong
  end.

Definition client_msg_payload (m : ClientToRelayMsg) : bytes :=
  match m with
  | CDatagrams k d => ab k ++ datagrams_write d
  | CPing data | CPong data => ab data
  | CBindAlias alias signature => ab alias ++ ab signature
  | CAskRelayKey url => z2b (zlen url) :: url
  | COpenCircuit c sealed inner => be_bytes 4 c ++ sealed ++ inner
  | CCircuitDatagrams c d => be_bytes 4 c ++ datagrams_write d
  end.

Definition client_msg_write (m : ClientToRelayMsg) : bytes := frame_type_write (client_msg_type m) ++ client_msg_payload m.

Definition client_msg_len (m : ClientToRelayMsg) : Z :=
  frame_type_len (client_msg_type m) +
  match m with
  | CPing _ | CPong _ => 8
  | CBindAlias _ _ => 32 + 64
  | CAskRelayKey url => 1 + zlen url
  | COpenCircuit _ sealed inner => 4 + zlen sealed + zlen inner
  | CCircuitDatagrams _ d => 4 + datagrams_len d
  | CDatagrams _ d => 32 + datagrams_len d
  end.

Definition DOMAIN_SEP_ALIAS : string := "rotelyx relay alias binding v1".

Definition alias_binding_message `{BL : Blake3} (primary alias : EndpointId) : arr 32 :=
  blake3_derive DOMAIN_SEP_ALIAS (ab primary ++ ab alias).

(** ** Reading *)

Definition ensure {T} (c : bool) (e : Error) (k : Result T Error) : Result T Error := if c then k else Err e.

Section Reading.
Context `{ED : Ed25519}.

(** A key at the front of [l], and what follows: the caller has checked the length. *)
Definition key_from_slice (l : bytes) : Result EndpointId Error :=
  match try_into ID_LEN l with
  | Some k => if valid_key k then Ok k else Err InvalidPublicKey
  | None => Err InvalidPublicKey
  end.

Definition read_key_datagrams (l : bytes) (batch : bool) : Result (EndpointId * Datagrams) Error :=
  ensure (Z.of_nat ID_LEN <=? zlen l) InvalidFrame
    (let? k := key_from_slice (take ID_LEN l) in
     let? d := datagrams_read (drop ID_LEN l) batch in
     Ok (k, d)).

Definition read_circuit_datagrams (l : bytes) (batch : bool) : Result (Z * Datagrams) Error :=
  ensure (4 <=? zlen l) InvalidFrame
    (let? d := datagrams_read (drop 4 l) batch in Ok (be_value (take 4 l), d)).

Definition read_eight (l : bytes) : Result (arr 8) Error :=
  ensure (zlen l =? 8) InvalidFrame (Ok (copy_from_slice 8 (take 8 l))).

Definition relay_msg_body (t : FrameType) (l : bytes) (v : ProtocolVersion) : Result RelayToClientMsg Error :=
  match t with
  | RelayToClientDatagram | RelayToClientDatagramBatch =>
      let? r := read_key_datagrams l (bool_decide (t = RelayToClientDatagramBatch)) in Ok (RDatagrams r.1 r.2)
  | FEndpointGone =>
      ensure (zlen l =? Z.of_nat ID_LEN) InvalidFrame (let? k := key_from_slice l in Ok (REndpointGone k))
  | RelayAnswersRelayKey =>
      ensure (at_least v V3) FrameNotAllowedInVersion
        match l with
        | [] => Err InvalidFrame
        | b :: rest =>
            let url_len := Z.to_nat (b2z b) in
            ensure (1 + b2z b <=? zlen l) InvalidFrame (Ok (RRelayKey (take url_len rest) (drop url_len rest)))
        end
  | RelayOpenedCircuit =>
      ensure (at_least v V3) FrameNotAllowedInVersion
        (ensure (zlen l =? 4) InvalidFrame (Ok (RCircuitOpened (be_value (take 4 l)))))
  | RelayClosedCircuit =>
      ensure (at_least v V3) FrameNotAllowedInVersion
        (ensure (zlen l =? 5) InvalidFrame (Ok (RCircuitClosed (be_value (take 4 l)) (be_value (drop 4 l)))))
  | RelayToClientCircuitDatagram | RelayToClientCircuitDatagramBatch =>
      ensure (at_least v V3) FrameNotAllowedInVersion
        (let? r := read_circuit_datagrams l (bool_decide (t = RelayToClientCircuitDatagramBatch)) in
         Ok (RCircuitDatagrams r.1 r.2))
  | FPing => let? d := read_eight l in Ok (RPing d)
  | FPong => let? d := read_eight l in Ok (RPong d)
  | FHealth =>
      ensure (negb (at_least v V2)) FrameNotAllowedInVersion
        (ensure (utf8_valid l) InvalidProtocolMessageEncoding (Ok (RHealth l)))
  | FRestarting =>
      ensure (zlen l =? 4 + 4) InvalidFrame
        (Ok (RRestarting (from_millis (be_value (take 4 l))) (from_millis (be_value (drop 4 l)))))
  | FStatus =>
      ensure (at_least v V2) FrameNotAllowedInVersion (let? s := status_read l in Ok (RStatus s))
  | _ => Err (InvalidFrameType t)
  end.

Definition relay_msg_read (l : bytes) (v : ProtocolVersion) : Result RelayToClientMsg Error :=
  let? r := frame_type_read l in
  ensure (zlen r.2 <=? MAX_PACKET_SIZE) (FrameTooLarge (zlen r.2)) (relay_msg_body r.1 r.2 v).

Definition client_msg_body (t : FrameType) (l : bytes) : Result ClientToRelayMsg Error :=
  match t with
  | ClientToRelayDatagram | ClientToRelayDatagramBatch =>
      let? r := read_key_datagrams l (bool_decide (t = ClientToRelayDatagramBatch)) in Ok (CDatagrams r.1 r.2)
  | FPing => let? d := read_eight l in Ok (CPing d)
  | FPong => let? d := read_eight l in Ok (CPong d)
  | ClientAsksRelayKey =>
      match l with
      | [] => Err InvalidFrame
      | b :: rest => ensure (zlen l =? 1 + b2z b) InvalidFrame (Ok (CAskRelayKey rest))
      end
  | ClientOpensCircuit =>
      ensure ((zlen l =? 4 + Z.of_nat SEALED_HOP_LEN) || (zlen l =? 4 + 2 * Z.of_nat SEALED_HOP_LEN)) InvalidFrame
        (let sealed := drop 4 l in
         Ok (COpenCircuit (be_value (take 4 l)) (take SEALED_HOP_LEN sealed) (drop SEALED_HOP_LEN sealed)))
  | ClientToRelayCircuitDatagram | ClientToRelayCircuitDatagramBatch =>
      let? r := read_circuit_datagrams l (bool_decide (t = ClientToRelayCircuitDatagramBatch)) in
      Ok (CCircuitDatagrams r.1 r.2)
  | ClientBindsAlias =>
      ensure (zlen l =? Z.of_nat ID_LEN + 64) InvalidFrame
        (let? alias := key_from_slice (take ID_LEN l) in
         Ok (CBindAlias alias (copy_from_slice 64 (drop ID_LEN l))))
  | _ => Err (InvalidFrameType t)
  end.

Definition client_msg_read (l : bytes) : Result ClientToRelayMsg Error :=
  let? r := frame_type_read l in
  ensure (zlen r.2 <=? MAX_PACKET_SIZE) (FrameTooLarge (zlen r.2)) (client_msg_body r.1 r.2).
End Reading.

(** ** Variable length integers are read back *)

Lemma varint_tagged n t x k :
  k = 8 * Z.of_nat n + 6 -> 0 <= t < 4 -> 0 <= x < 2 ^ k ->
  exists b r, be_bytes (S n) (Z.lor (Z.shiftl t k) x) = b :: r /\ length r = n /\
    Z.shiftr (b2z b) 6 = t /\ be_value (z2b (Z.land (b2z b) 63) :: r) = x.
Proof.
  intros -> Ht Hx. rewrite lor_shiftl by lia. set (m := 256 ^ Z.of_nat n).
  assert (2 ^ (8 * Z.of_nat n + 6) = 64 * m) as Hm.
  { rewrite Z.pow_add_r, Z.pow_mul_r by lia. unfold m. change (2 ^ 8) with 256. change (2 ^ 6) with 64. lia. }
  rewrite Hm in *. assert (0 < m) as Hpos by (apply Z.pow_pos_nonneg; lia).
  assert (0 <= x / m < 64) as Hq by (split; [apply Z.div_pos; lia|apply Z.div_lt_upper_bound; lia]).
  exists (z2b (t * 64 + x / m)), (be_bytes n x). split.
  { cbn [be_bytes]. fold m. f_equal.
    - f_equal. rewrite Z.mul_assoc, Z.div_add_l by lia. done.
    - rewrite Z.mul_assoc. apply be_bytes_add_high. lia. }
  rewrite length_be_bytes, b2z_z2b_small by lia. split; [done|]. split.
  { rewrite Z.shiftr_div_pow2, Z.div_add_l, Z.div_small by (change (2 ^ 6) with 64; lia). lia. }
  change 63 with (Z.ones 6). rewrite Z.land_ones by lia. change (2 ^ 6) with 64.
  rewrite Z.add_comm, Z.mod_add, Z.mod_small by lia.
  rewrite be_value_cons, length_be_bytes, be_value_bytes, b2z_z2b_small by lia. fold m.
  rewrite (Z.div_mod x m) at 3 by lia. lia.
Qed.

Lemma varint_read_tagged n t x k l :
  k = 8 * Z.of_nat n + 6 -> 0 <= t < 4 -> 0 <= x < 2 ^ k ->
  (if Z.eqb t 0 then n = 0 else if Z.eqb t 1 then n = 1 else if Z.eqb t 2 then n = 3 else n = 7)%nat ->
  varint_decode (be_bytes (S n) (Z.lor (Z.shiftl t k) x) ++ l) = Some (x, l).
Proof.
  intros Hk Ht Hx Hn. destruct (varint_tagged n t x k Hk Ht Hx) as (b & r & -> & Hr & Hb & Hv).
  cbn [app varint_decode]. rewrite Hb.
  assert (forall m, m = n -> (if (length (r ++ l) <? m)%nat then None
     else Some (be_value (z2b (Z.land (b2z b) 63) :: take m (r ++ l)), drop m (r ++ l))) = Some (x, l)) as K.
  { intros m ->. rewrite (proj2 (Nat.ltb_ge _ _)) by (rewrite length_app; lia).
    rewrite take_app_length', drop_app_length', Hv by done. done. }
  destruct (Z.eqb t 0); [by rewrite K|]. destruct (Z.eqb t 1); [by rewrite K|].
  destruct (Z.eqb t 2); by rewrite K.
Qed.

Lemma varint_read x e l : 0 <= x -> varint_encode x = Some e -> varint_decode (e ++ l) = Some (x, l).
Proof.
  intros Hx. unfold varint_encode. case_cmp.
  - intros [= <-]. replace [z2b x] with (be_bytes 1 (Z.lor (Z.shiftl 0 6) x)) by (cbn; by rewrite Z.div_1_r).
    apply (varint_read_tagged 0 0 x 6 l); [done|lia|lia|done].
  - case_cmp; [intros [= <-]; apply (varint_read_tagged 1 1 x 14 l); [done|lia|lia|done]|].
    case_cmp; [intros [= <-]; apply (varint_read_tagged 3 2 x 30 l); [done|lia|lia|done]|].
    case_cmp; [intros [= <-]; apply (varint_read_tagged 7 3 x 62 l); [done|lia|lia|done]|done].
Qed.

Lemma frame_type_is_read t l : frame_type_read (frame_type_write t ++ l) = Ok (t, l).
Proof.
  unfold frame_type_read, frame_type_write.
  assert (exists e, varint_encode (frame_repr t) = Some e) as [e E] by (destruct t; eexists; reflexivity).
  rewrite E. change (default [] (Some e)) with e. rewrite (varint_read (frame_repr t) e l); [|by destruct t|done]. by destruct t.
Qed.

Lemma frame_type_length t : zlen (frame_type_write t) = frame_type_len t.
Proof. by destruct t. Qed.

Lemma frame_type_one t : frame_type_len t = 1.
Proof. by destruct t. Qed.

(** ** Frames are read back *)

Lemma value_u32 z : u32 z -> be_value (be_bytes 4 z) = z.
Proof. intros Hz. apply be_value_bytes_small. change (256 ^ Z.of_nat 4) with 4294967296. unfold u32, u32_max in Hz. lia. Qed.

Definition datagrams_ok (d : Datagrams) : Prop :=
  match segment_size d with Some s => 1 <= s <= 65535 | None => True end.

Lemma zlen_datagrams d : zlen (datagrams_write d) = datagrams_len d.
Proof.
  unfold datagrams_write, datagrams_len. rewrite zlen_cons. destruct (segment_size d); len_lia.
Qed.

Lemma ecn_is_read e :
  ecn_from_bits (b2z (z2b (match e with Some e => ecn_bits e | None => 0 end))) = e.
Proof. by destruct e as [[| |]|]. Qed.

Lemma datagrams_are_read d : datagrams_ok d -> datagrams_read (datagrams_write d) (is_batch d) = Ok d.
Proof.
  destruct d as [e [s|] c]; unfold datagrams_ok, datagrams_read, datagrams_write, is_batch; cbn [ecn segment_size contents].
  - intros Hs. rewrite ecn_is_read. rewrite zlen_cons, zlen_app, zlen_be_bytes, (proj2 (Z.ltb_ge _ _)) by (pose proof (zlen_nonneg c); lia).
    rewrite take_app_length', drop_app_length' by done.
    rewrite be_value_bytes_small by (change (256 ^ Z.of_nat 2) with 65536; lia).
    unfold nonzero. by rewrite (proj2 (Z.eqb_neq s 0)) by lia.
  - intros _. by rewrite ecn_is_read.
Qed.

Section ReadBack.
Context `{ED : Ed25519}.

Lemma key_is_read k : valid_key k = true -> key_from_slice (ab k) = Ok k.
Proof. intros Hk. unfold key_from_slice. by rewrite try_into_ab, Hk. Qed.

Lemma key_datagrams_are_read k d :
  valid_key k = true -> datagrams_ok d -> read_key_datagrams (ab k ++ datagrams_write d) (is_batch d) = Ok (k, d).
Proof.
  intros Hk Hd. unfold read_key_datagrams, ensure, ID_LEN.
  rewrite (proj2 (Z.leb_le _ _)) by (pose proof (zlen_nonneg (datagrams_write d)); rewrite zlen_app, zlen_ab; lia).
  rewrite take_ab, drop_ab, key_is_read by done. cbn [rbind]. by rewrite datagrams_are_read.
Qed.

Lemma circuit_datagrams_are_read c d :
  u32 c -> datagrams_ok d -> read_circuit_datagrams (be_bytes 4 c ++ datagrams_write d) (is_batch d) = Ok (c, d).
Proof.
  intros Hc Hd. unfold read_circuit_datagrams, ensure.
  rewrite (proj2 (Z.leb_le _ _)) by (pose proof (zlen_nonneg (datagrams_write d)); len_lia).
  rewrite take_app_length', drop_app_length', datagrams_are_read by done. cbn [rbind].
  rewrite value_u32 by done. done.
Qed.

Lemma eight_are_read (d : arr 8) : read_eight (ab d) = Ok d.
Proof. unfold read_eight, ensure. rewrite zlen_ab. cbn. f_equal. rewrite take_ge by (by rewrite length_ab). apply copy_ab. Qed.

(** What the fields of a frame that is read back hold; all of it but the lengths of
    byte strings is the type of the field. *)
Definition relay_msg_ok (m : RelayToClientMsg) : Prop :=
  match m with
  | RDatagrams k d => valid_key k = true /\ datagrams_ok d
  | REndpointGone k => valid_key k = true
  | RRelayKey url _ => zlen url <= 255
  | RCircuitOpened c => u32 c
  | RCircuitClosed c reason => u32 c /\ 0 <= reason <= 255
  | RCircuitDatagrams c d => u32 c /\ datagrams_ok d
  | RRestarting a b => exists m n, u32 m /\ u32 n /\ a = from_millis m /\ b = from_millis n
  | RStatus (Unknown n) => 2 <= n <= 255
  | RHealth problem => utf8_valid problem = true
  | _ => True
  end.

Definition client_msg_ok (m : ClientToRelayMsg) : Prop :=
  match m with
  | CDatagrams k d => valid_key k = true /\ datagrams_ok d
  | CBindAlias alias _ => valid_key alias = true
  | CAskRelayKey url => zlen url <= 255
  | COpenCircuit c sealed inner => u32 c /\ length sealed = SEALED_HOP_LEN /\ (inner = [] \/ length inner = SEALED_HOP_LEN)
  | CCircuitDatagrams c d => u32 c /\ datagrams_ok d
  | _ => True
  end.

(** Which versions have a frame. *)
Definition in_version (v : ProtocolVersion) (m : RelayToClientMsg) : bool :=
  match m with
  | RCircuitOpened _ | RCircuitClosed _ _ | RRelayKey _ _ | RCircuitDatagrams _ _ => at_least v V3
  | RStatus _ => at_least v V2
  | RHealth _ => negb (at_least v V2)
  | _ => true
  end.
Lemma relay_msg_length m : zlen (relay_msg_write m) = relay_msg_len m.
Proof.
  unfold relay_msg_write, relay_msg_len. rewrite zlen_app, frame_type_length. f_equal.
  destruct m; cbn [relay_msg_payload]; autorewrite with rxlen; rewrite ?zlen_datagrams; try done; try lia.
Qed.

Lemma client_msg_length m : zlen (client_msg_write m) = client_msg_len m.
Proof.
  unfold client_msg_write, client_msg_len. rewrite zlen_app, frame_type_length. f_equal.
  destruct m; cbn [client_msg_payload]; autorewrite with rxlen; rewrite ?zlen_datagrams; lia.
Qed.

Lemma bool_decide_batch (b : bool) (t u : FrameType) :
  t <> u -> bool_decide ((if b then u else t) = u) = b.
Proof. intros. destruct b; [by apply bool_decide_eq_true|by apply bool_decide_eq_false]. Qed.

Lemma url_is_read (url key : bytes) :
  zlen url <= 255 ->
  b2z (z2b (zlen url)) = zlen url /\
  take (Z.to_nat (zlen url)) (url ++ key) = url /\ drop (Z.to_nat (zlen url)) (url ++ key) = key.
Proof.
  intros Hu. pose proof (zlen_nonneg url). rewrite b2z_z2b_small by lia. unfold zlen. rewrite Nat2Z.id.
  split; [done|]. by rewrite take_app_length, drop_app_length.
Qed.

Lemma relay_body_is_read m v :
  relay_msg_ok m ->
  relay_msg_body (relay_msg_type m) (relay_msg_payload m) v
  = if in_version v m then Ok m else Err FrameNotAllowedInVersion.
Proof.
  destruct m as [k d|c|c reason|url key|c d|k|s|ri tf|d|d|problem]; cbn [relay_msg_ok relay_msg_type relay_msg_payload in_version].
  - intros [Hk Hd]. replace (relay_msg_body _ _ v) with
      (let? r := read_key_datagrams (ab k ++ datagrams_write d) (is_batch d) in Ok (RDatagrams r.1 r.2))
      by (by destruct (is_batch d)).
    by rewrite key_datagrams_are_read.
  - intros Hc. cbn [relay_msg_body]. unfold ensure. destruct (at_least v V3); [|done].
    rewrite (proj2 (Z.eqb_eq _ _)) by len_lia. rewrite take_ge by (by rewrite length_be_bytes).
    rewrite value_u32 by done. done.
  - intros [Hc Hr]. cbn [relay_msg_body]. unfold ensure. destruct (at_least v V3); [|done].
    rewrite (proj2 (Z.eqb_eq _ _)) by len_lia. rewrite take_app_length', drop_app_length' by done.
    rewrite value_u32 by done.
    rewrite be_value_cons, b2z_z2b_small by lia. cbn. do 2 f_equal. lia.
  - intros Hu. cbn [relay_msg_body]. unfold ensure. destruct (at_least v V3); [|done].
    destruct (url_is_read url key Hu) as (-> & Ht & Hd). rewrite Ht, Hd.
    rewrite (proj2 (Z.leb_le _ _)); [done|]. pose proof (zlen_nonneg key). len_lia.
  - intros [Hc Hd]. replace (relay_msg_body _ _ v) with (ensure (at_least v V3) FrameNotAllowedInVersion
      (let? r := read_circuit_datagrams (be_bytes 4 c ++ datagrams_write d) (is_batch d) in Ok (RCircuitDatagrams r.1 r.2)))
      by (by destruct (is_batch d)).
    unfold ensure. destruct (at_least v V3); [|done]. by rewrite circuit_datagrams_are_read.
  - intros Hk. cbn [relay_msg_body]. unfold ensure. rewrite zlen_ab. cbn. by rewrite key_is_read.
  - intros Hs. cbn [relay_msg_body]. unfold ensure. destruct (at_least v V2); [|done].
    destruct s as [| |n]; [done..|]. cbn [status_write status_read rbind]. rewrite b2z_z2b_small by lia.
    by rewrite (proj2 (Z.eqb_neq n 0)), (proj2 (Z.eqb_neq n 1)) by lia.
  - intros (a & b & Ha & Hb & -> & ->). cbn [relay_msg_body]. unfold ensure.
    rewrite (proj2 (Z.eqb_eq _ _)) by len_lia. rewrite take_app_length', drop_app_length' by done.
    assert (forall z, u32 z -> be_value (be_bytes 4 (wrap32 (as_millis (from_millis z)))) = z) as K.
    { intros z Hz. unfold as_millis, from_millis, wrap32. rewrite Z.div_mul, Z.mod_small by (unfold u32, u32_max in *; lia).
      by apply value_u32. }
    by rewrite !K.
  - intros _. cbn [relay_msg_body]. by rewrite eight_are_read.
  - intros _. cbn [relay_msg_body]. by rewrite eight_are_read.
  - intros Hp. cbn [relay_msg_body]. unfold ensure. by rewrite Hp.
Qed.

Lemma client_body_is_read m :
  client_msg_ok m -> client_msg_body (client_msg_type m) (client_msg_payload m) = Ok m.
Proof.
  destruct m as [d|d|k d|c sealed inner|url|c d|k sig]; cbn [client_msg_ok client_msg_type client_msg_payload].
  - intros _. cbn [client_msg_body]. by rewrite eight_are_read.
  - intros _. cbn [client_msg_body]. by rewrite eight_are_read.
  - intros [Hk Hd]. replace (client_msg_body _ _) with
      (let? r := read_key_datagrams (ab k ++ datagrams_write d) (is_batch d) in Ok (CDatagrams r.1 r.2))
      by (by destruct (is_batch d)).
    by rewrite key_datagrams_are_read.
  - intros (Hc & Hs & Hi). cbn [client_msg_body]. unfold ensure.
    assert (zlen sealed = Z.of_nat SEALED_HOP_LEN) as Hz by (unfold zlen; by rewrite Hs).
    replace (_ || _) with true.
    + rewrite take_app_length', drop_app_length' by done. rewrite take_app_length', drop_app_length' by done.
      rewrite value_u32 by done. done.
    + symmetry. apply orb_true_iff. rewrite !Z.eqb_eq, !zlen_app, zlen_be_bytes, Hz.
      destruct Hi as [->|Hi]; [left; rewrite zlen_nil; lia|right]. unfold zlen. rewrite Hi. lia.
  - intros Hu. cbn [client_msg_body]. unfold ensure. pose proof (zlen_nonneg url).
    rewrite b2z_z2b_small, zlen_cons, Z.eqb_refl by lia. done.
  - intros [Hc Hd]. replace (client_msg_body _ _) with
      (let? r := read_circuit_datagrams (be_bytes 4 c ++ datagrams_write d) (is_batch d) in Ok (CCircuitDatagrams r.1 r.2))
      by (by destruct (is_batch d)).
    by rewrite circuit_datagrams_are_read.
  - intros Hk. cbn [client_msg_body]. unfold ensure, ID_LEN. rewrite zlen_app, !zlen_ab. cbn [Z.eqb].
    rewrite (proj2 (Z.eqb_eq _ _)) by lia. rewrite take_ab, drop_ab, key_is_read, copy_ab by done. done.
Qed.

Lemma relay_msg_is_read m v :
  relay_msg_ok m ->
  relay_msg_read (relay_msg_write m) v =
    (if relay_msg_len m <=? 1 + MAX_PACKET_SIZE then
       if in_version v m then Ok m else Err FrameNotAllowedInVersion
     else Err (FrameTooLarge (relay_msg_len m - 1))).
Proof.
  intros Hm. rewrite <- relay_msg_length. unfold relay_msg_read, relay_msg_write.
  rewrite frame_type_is_read, zlen_app, frame_type_length, frame_type_one. cbn [rbind fst snd]. unfold ensure.
  destruct (Z.leb_spec (zlen (relay_msg_payload m)) MAX_PACKET_SIZE).
  - rewrite (proj2 (Z.leb_le _ _)) by lia. by apply relay_body_is_read.
  - rewrite (proj2 (Z.leb_gt _ _)) by lia. do 2 f_equal. lia.
Qed.

Lemma client_msg_is_read k :
  client_msg_ok k ->
  client_msg_read (client_msg_write k) =
    (if client_msg_len k <=? 1 + MAX_PACKET_SIZE then Ok k else Err (FrameTooLarge (client_msg_len k - 1))).
Proof.
  intros Hk. rewrite <- client_msg_length. unfold client_msg_read, client_msg_write.
  rewrite frame_type_is_read, zlen_app, frame_type_length, frame_type_one. cbn [rbind fst snd]. unfold ensure.
  destruct (Z.leb_spec (zlen (client_msg_payload k)) MAX_PACKET_SIZE).
  - rewrite (proj2 (Z.leb_le _ _)) by lia. by apply client_body_is_read.
  - rewrite (proj2 (Z.leb_gt _ _)) by lia. do 2 f_equal. lia.
Qed.

(** C32: every frame a relay or a client writes is as long as it said it would be, and
    read back as it was, unless the connection speaks a version that has no such frame
    or the frame is longer than a packet may be; then it is an error. *)
Theorem frames_are_read_back m k v :
  relay_msg_ok m -> client_msg_ok k ->
  zlen (relay_msg_write m) = relay_msg_len m /\
  zlen (client_msg_write k) = client_msg_len k /\
  relay_msg_read (relay_msg_write m) v =
    (if relay_msg_len m <=? 1 + MAX_PACKET_SIZE then
       if in_version v m then Ok m else Err FrameNotAllowedInVersion
     else Err (FrameTooLarge (relay_msg_len m - 1))) /\
  client_msg_read (client_msg_write k) =
    (if client_msg_len k <=? 1 + MAX_PACKET_SIZE then Ok k else Err (FrameTooLarge (client_msg_len k - 1))).
Proof.
  intros Hm Hk. split; [apply relay_msg_length|]. split; [apply client_msg_length|].
  split; [by apply relay_msg_is_read|by apply client_msg_is_read].
Qed.
End ReadBack.

(** ** A batch of datagrams, taken piece by piece *)

(** The datagrams of a batch: pieces of [s] bytes, the last of which may be shorter. *)
Fixpoint chunks (fuel s : nat) (l : bytes) : list bytes :=
  match fuel, l with
  | O, _ | _, [] => []
  | S fuel, _ => take s l :: chunks fuel s (drop s l)
  end.

Definition pieces (d : Datagrams) : list bytes :=
  match segment_size d with
  | None => match contents d with [] => [] | l => [l] end
  | Some s => chunks (length (contents d)) (Z.to_nat s) (contents d)
  end.

(** A batch of one datagram has no segment size. *)
Definition batch_ok (d : Datagrams) : Prop :=
  match segment_size d with Some s => 1 <= s <= 65535 /\ s < zlen (contents d) | None => True end.

Lemma chunks_fuel s a b l :
  (0 < s)%nat -> (length l <= a)%nat -> (length l <= b)%nat -> chunks a s l = chunks b s l.
Proof.
  intros Hs. revert b l. induction a as [|a IH]; intros b l Ha Hb.
  - destruct l; [|cbn in Ha; lia]. by destruct b.
  - destruct b as [|b]; destruct l as [|x l]; try done; [cbn in Hb; lia|].
    cbn [chunks]. f_equal. apply IH; rewrite length_drop; cbn in *; lia.
Qed.

Lemma chunks_whole s l : (0 < s)%nat -> (length l <= s)%nat -> l <> [] -> chunks (length l) s l = [l].
Proof.
  intros Hs Hl Hne. destruct l as [|x l]; [done|]. cbn [chunks length].
  rewrite drop_ge, take_ge by done. by destruct (length l).
Qed.

Lemma chunks_cons s l :
  (0 < s)%nat -> l <> [] -> chunks (length l) s l = take s l :: chunks (length (drop s l)) s (drop s l).
Proof.
  intros Hs Hne. destruct l as [|x l]; [done|]. cbn [length chunks]. f_equal.
  apply chunks_fuel; [done| |done]. rewrite length_drop. cbn [length]. lia.
Qed.

Lemma chunks_take s n l :
  (0 < s)%nat ->
  chunks (length l) s l =
    chunks (length (take (n * s) l)) s (take (n * s) l) ++ chunks (length (drop (n * s) l)) s (drop (n * s) l).
Proof.
  intros Hs. revert l. induction n as [|n IH]; intros l; [by rewrite Nat.mul_0_l, take_0, drop_0|].
  destruct (decide (l = [])) as [->|Hne]; [by rewrite take_nil, drop_nil|].
  destruct (decide (length l <= S n * s)%nat) as [Hl|Hl].
  { rewrite take_ge, drop_ge by done. by rewrite app_nil_r. }
  assert (take (S n * s) l <> []) as Ht.
  { intros E%(f_equal length). rewrite length_take in E. cbn in E. lia. }
  rewrite (chunks_cons s l), (chunks_cons s (take _ l)), (IH (drop s l)) by done.
  rewrite take_take, Nat.min_l, drop_drop by lia. replace (s + n * s)%nat with (S n * s)%nat by lia.
  rewrite skipn_firstn_comm. replace (S n * s - s)%nat with (n * s)%nat by lia. done.
Qed.

Lemma chunks_bound s n l :
  (0 < s)%nat -> (length l <= n * s)%nat -> (length (chunks (length l) s l) <= n)%nat.
Proof.
  intros Hs. revert l. induction n as [|n IH]; intros l Hl; [by destruct l; [|cbn in Hl; lia]|].
  destruct (decide (l = [])) as [->|Hne]; [cbn; lia|]. rewrite chunks_cons by done. cbn [length].
  apply le_n_S, IH. rewrite length_drop. lia.
Qed.

Lemma chunks_full s n l :
  (0 < s)%nat -> length l = (n * s)%nat -> length (chunks (length l) s l) = n.
Proof.
  intros Hs. revert l. induction n as [|n IH]; intros l Hl; [by destruct l; [|cbn in Hl; lia]|].
  assert (l <> []) as Hne by (intros ->; cbn in Hl; lia).
  rewrite chunks_cons by done. cbn [length]. f_equal. apply IH. rewrite length_drop. lia.
Qed.

Lemma pieces_sized s e l (b : bool) :
  1 <= s -> (b = false -> (length l <= Z.to_nat s)%nat) ->
  pieces (mkDatagrams e (if b then Some s else None) l) = chunks (length l) (Z.to_nat s) l.
Proof.
  intros Hs Hb. destruct b; [done|]. unfold pieces. cbn [segment_size contents].
  destruct l as [|x l]; [done|]. rewrite chunks_whole; [done|lia|by apply Hb|done].
Qed.

(** A batch cut by [take_segments] is the datagrams it was, in their order and each
    whole, with as many as were asked for in the part that is taken; both parts keep the
    batch's marking and its rule that one datagram has no segment size, and with
    anything asked for and anything there the rest is shorter. *)
Theorem a_batch_is_cut_between_datagrams d n :
  batch_ok d -> (0 < n)%nat ->
  let '(taken, rest) := take_segments d n in
  pieces d = pieces taken ++ pieces rest /\
  ((length (pieces taken) <= n)%nat /\ (contents rest <> [] -> segment_size d <> None -> length (pieces taken) = n)) /\
  batch_ok taken /\ batch_ok rest /\ ecn taken = ecn d /\ ecn rest = ecn d /\
  (contents d <> [] -> (length (contents rest) < length (contents d))%nat).
Proof.
  intros Hd Hn. destruct d as [e [s|] l]; unfold take_segments; cbn [ecn segment_size contents] in *.
  - destruct Hd as [Hs Hl]. unfold zlen in Hl. cbn [segment_size contents] in Hl.
    set (m := Nat.min (n * Z.to_nat s) (length l)). set (t := take m l). set (r := drop m l).
    assert (t = take (n * Z.to_nat s) l /\ r = drop (n * Z.to_nat s) l) as [Et Er].
    { unfold t, r, m. destruct (decide (n * Z.to_nat s <= length l)%nat); [by rewrite Nat.min_l by lia|].
      by rewrite Nat.min_r, !take_ge, !drop_ge by lia. }
    assert (length t = m) as Ht by (unfold t; rewrite length_take; lia).
    assert (length r = (length l - m)%nat) as Hr by (unfold r; by rewrite length_drop).
    replace (if (length r <=? Z.to_nat s)%nat then None else Some s)
      with (if negb (length r <=? Z.to_nat s)%nat then Some s else None) by (by destruct (length r <=? Z.to_nat s)%nat).
    rewrite !pieces_sized; [|lia| |lia|].
    2: { intros E%negb_false_iff%Nat.leb_le. done. }
    2: { intros E%andb_false_iff. rewrite Nat.ltb_ge, Nat.ltb_ge in E. unfold m in Ht. nia. }
    split; [unfold pieces; cbn [segment_size contents]; rewrite Et, Er; apply chunks_take; lia|].
    split; [split; [apply chunks_bound; unfold m in Ht; lia|]|].
    { intros Hne _. apply chunks_full; [lia|]. destruct r; [done|]. cbn in Hr. unfold m in *. lia. }
    unfold batch_ok, zlen. cbn [segment_size contents]. split; [|split].
    + destruct (_ && _) eqn:E; [|done]. apply andb_true_iff in E as [_ E%Nat.ltb_lt]. lia.
    + destruct (length r <=? Z.to_nat s)%nat eqn:E; [done|]. apply Nat.leb_gt in E. cbn. lia.
    + split; [done|]. split; [done|]. intros _. rewrite Hr. unfold m. nia.
  - unfold pieces. cbn [segment_size contents]. rewrite app_nil_r.
    split; [done|]. split; [split; [destruct l; cbn; lia|done]|]. do 4 (split; [done|]).
    intros Hne. destruct l; [done|]. cbn. lia.
Qed.

Module Witness.
#[local] Instance toy : Ed25519 := {| valid_key := fun _ => true; verify_strict := fun _ _ _ => true |}.

Definition batch : Datagrams := mkDatagrams (Some Ce) (Some 3) (be_bytes 8 77).
Definition closed : RelayToClientMsg := RCircuitClosed 7 2.
Definition chained : ClientToRelayMsg := COpenCircuit 7 (replicate SEALED_HOP_LEN x01) (replicate SEALED_HOP_LEN x02).

Lemma frames_are_read_back_witness :
  relay_msg_ok closed /\ client_msg_ok chained /\
  relay_msg_read (relay_msg_write closed) V2 = Err FrameNotAllowedInVersion /\
  client_msg_read (client_msg_write chained) = Ok chained.
Proof.
  assert (relay_msg_ok closed) as Hm by (split; [by split|lia]).
  assert (client_msg_ok chained) as Hk.
  { split; [by split|]. split; [apply length_replicate|]. right. apply length_replicate. }
  destruct (frames_are_read_back closed chained V2 Hm Hk) as (_ & _ & Hr & Hc).
  split; [exact Hm|]. split; [exact Hk|]. split; [exact Hr|]. exact Hc.
Defined.

Lemma a_batch_is_cut_between_datagrams_witness :
  batch_ok batch /\ (0 < 2)%nat /\
  let '(taken, rest) := take_segments batch 2 in
  pieces batch = pieces taken ++ pieces rest /\ length (pieces taken) = 2%nat /\ segment_size rest = None.
Proof.
  split; [by split; [lia|]|]. split; [lia|].
  destruct (a_batch_is_cut_between_datagrams batch 2 ltac:(by split; [lia|]) ltac:(lia)) as (H & _).
  split; [exact H|]. by split.
Defined.
End Witness.
