(* ===== verification/Circuits.v ===== *)
(** * The relay: who is here, the circuits they open, the links to other relays

    [rotelyx-relay-proto], [server/clients.rs], [server/client.rs], [server/circuits.rs]
    and [server/links.rs].  A connection's task reads what its client says, and writes
    what others put in its queues; the table of clients is shared between them.  A
    circuit that continues at another relay is asked for by a task of its own, over the
    one link there is to that relay.  A step is one turn of one task; each method of the
    table is one step, but for the five of a disconnect, which others may come between.

    What a descriptor says is an argument ([opener]: [None] is a relay given none), and
    so is whether other relays are dialled; whether a write or a dial succeeds, what a
    key fetch brings, the numbers drawn and the order a hash map is walked in are parts
    of the events.  Metrics and log lines are left out, and the timing of pings. *)

From S2P Require Import Prelude Crypto RelayFrame.
From S2P Require Hybrid.
Import Hybrid (Ed25519, valid_key, verify_strict).

Definition CIRCUIT_FAR_END_GONE : Z := 1.
Definition CIRCUIT_REFUSED : Z := 2.
Definition MAX_CIRCUITS_PER_CONNECTION : nat := 64.
Definition MAX_CIRCUITS_TOTAL : Z := 16384.
Definition PER_CLIENT_SEND_QUEUE_DEPTH : nat := 512.
Definition LINK_QUEUE : nat := 64.

Record CircuitHop := mkCircuitHop {
  destination : EndpointId;
  next_relay : option bytes;
  return_key : EndpointId;
}.

Inductive Continuation := Opening | Open (url : bytes) (far : Z).

Record Forward := mkForward {
  fwd_destination : EndpointId;
  fwd_return_key : EndpointId;
  next : option Continuation;
}.

Inductive CircuitEvent := Opened (circuit : Z) (url : bytes) (far : Z) | Refused (circuit : Z).

Record Return := mkReturn { owner : EndpointId; circuit : Z; ret_destination : EndpointId }.

Record Packet := mkPacket { src : EndpointId; data : Datagrams; pkt_circuit : option Z }.

(** ** A connection

    [Leaving] counts what [unregister] has done, and holds who is to be told. *)

Inductive Phase := Running | Leaving (done : nat) (peers : gset EndpointId) | Gone.

Record Conn := mkConn {
  endpoint_id : EndpointId;
  protocol_version : ProtocolVersion;
  entered : bool;
  phase : Phase;
  cancelled : bool;
  packets : list Packet;
  messages : list RelayToClientMsg;
  events : list CircuitEvent;
  circuits : gmap Z Forward;
  wrote : list RelayToClientMsg;
}.

Definition with_phase (c : Conn) (p : Phase) : Conn :=
  mkConn (endpoint_id c) (protocol_version c) (entered c) p (cancelled c) (packets c) (messages c) (events c)
    (circuits c) (wrote c).
Definition with_entered (c : Conn) : Conn :=
  mkConn (endpoint_id c) (protocol_version c) true (phase c) (cancelled c) (packets c) (messages c) (events c)
    (circuits c) (wrote c).
Definition with_cancelled (c : Conn) : Conn :=
  mkConn (endpoint_id c) (protocol_version c) (entered c) (phase c) true (packets c) (messages c) (events c)
    (circuits c) (wrote c).
Definition with_packets (c : Conn) (l : list Packet) : Conn :=
  mkConn (endpoint_id c) (protocol_version c) (entered c) (phase c) (cancelled c) l (messages c) (events c)
    (circuits c) (wrote c).
Definition with_messages (c : Conn) (l : list RelayToClientMsg) : Conn :=
  mkConn (endpoint_id c) (protocol_version c) (entered c) (phase c) (cancelled c) (packets c) l (events c)
    (circuits c) (wrote c).
Definition with_events (c : Conn) (l : list CircuitEvent) : Conn :=
  mkConn (endpoint_id c) (protocol_version c) (entered c) (phase c) (cancelled c) (packets c) (messages c) l
    (circuits c) (wrote c).
Definition with_circuits (c : Conn) (m : gmap Z Forward) : Conn :=
  mkConn (endpoint_id c) (protocol_version c) (entered c) (phase c) (cancelled c) (packets c) (messages c) (events c)
    m (wrote c).
Definition with_wrote (c : Conn) (l : list RelayToClientMsg) : Conn :=
  mkConn (endpoint_id c) (protocol_version c) (entered c) (phase c) (cancelled c) (packets c) (messages c) (events c)
    (circuits c) l.

(** The task's end: its queues and its circuits go with it. *)
Definition gone (c : Conn) : Conn :=
  mkConn (endpoint_id c) (protocol_version c) (entered c) Gone (cancelled c) [] [] [] ∅ (wrote c).

Definition is_gone (c : Conn) : bool := match phase c with Gone => true | _ => false end.

(** ** The table *)

Record ClientState := mkClientState { active : nat; inactive : list nat }.

Record Table := mkTable {
  conns : list Conn;
  clients : gmap EndpointId ClientState;
  sent_to : gmap EndpointId (gset EndpointId);
  aliases : gmap EndpointId EndpointId;
  returns : gmap EndpointId Return;
}.

Definition with_conn (t : Table) (n : nat) (c : Conn) : Table :=
  mkTable (<[n := c]> (conns t)) (clients t) (sent_to t) (aliases t) (returns t).
Definition with_clients (t : Table) (m : gmap EndpointId ClientState) : Table :=
  mkTable (conns t) m (sent_to t) (aliases t) (returns t).
Definition with_sent_to (t : Table) (m : gmap EndpointId (gset EndpointId)) : Table :=
  mkTable (conns t) (clients t) m (aliases t) (returns t).
Definition with_aliases (t : Table) (m : gmap EndpointId EndpointId) : Table :=
  mkTable (conns t) (clients t) (sent_to t) m (returns t).
Definition with_returns (t : Table) (m : gmap EndpointId Return) : Table :=
  mkTable (conns t) (clients t) (sent_to t) (aliases t) m.

(** The work of one connection on its own state. *)
Definition on_conn (t : Table) (n : nat) (f : Conn -> Conn) : Table :=
  match conns t !! n with Some c => with_conn t n (f c) | None => t end.

Inductive Sending := Sent | Full | Closed.

Definition try_send_packet (t : Table) (n : nat) (p : Packet) : Sending * Table :=
  match conns t !! n with
  | None => (Closed, t)
  | Some c =>
      if is_gone c then (Closed, t)
      else if (length (packets c) <? PER_CLIENT_SEND_QUEUE_DEPTH)%nat then
        (Sent, with_conn t n (with_packets c (packets c ++ [p])))
      else (Full, t)
  end.

(** On the queue of messages; nobody looks at how it went. *)
Definition try_send_message (t : Table) (n : nat) (m : RelayToClientMsg) : Table :=
  on_conn t n (fun c =>
    if is_gone c || negb (length (messages c) <? PER_CLIENT_SEND_QUEUE_DEPTH)%nat then c
    else with_messages c (messages c ++ [m])).

Definition try_send_circuit_closed (t : Table) (n : nat) (c : Z) : Table :=
  try_send_message t n (RCircuitClosed c CIRCUIT_FAR_END_GONE).

Definition try_send_peer_gone (t : Table) (n : nat) (key : EndpointId) : Table :=
  try_send_message t n (REndpointGone key).

Definition health_message (v : ProtocolVersion) (s : Status) : RelayToClientMsg :=
  if at_least v V2 then RStatus s else RHealth (status_text s).

Definition try_send_health (t : Table) (n : nat) (s : Status) : Table :=
  match conns t !! n with
  | Some c => try_send_message t n (health_message (protocol_version c) s)
  | None => t
  end.

Definition start_shutdown (t : Table) (n : nat) : Table := on_conn t n with_cancelled.

(** [register], once the connection's task has been started. *)
Definition register (t : Table) (n : nat) : Table :=
  match conns t !! n with
  | None => t
  | Some c =>
      let t := with_conn t n (with_entered c) in
      match clients t !! endpoint_id c with
      | Some st =>
          let t := try_send_health t (active st) SameEndpointIdConnected in
          with_clients t (<[endpoint_id c := mkClientState n (inactive st ++ [active st])]> (clients t))
      | None => with_clients t (<[endpoint_id c := mkClientState n []]> (clients t))
      end
  end.

Definition register_alias (t : Table) (alias primary : EndpointId) : bool * Table :=
  if bool_decide (is_Some (clients t !! alias)) then (false, t)
  else
    match aliases t !! alias with
    | Some p => (bool_decide (p = primary), t)
    | None => (true, with_aliases t (<[alias := primary]> (aliases t)))
    end.

Definition forget_aliases_of (t : Table) (primary : EndpointId) : Table :=
  with_aliases t (filter (fun kv => kv.2 <> primary) (aliases t)).

Definition forget_circuits_of (t : Table) (who : EndpointId) : Table :=
  with_returns t (filter (fun kv => owner kv.2 <> who) (returns t)).

Definition claim_return_key (t : Table) (key who : EndpointId) (c : Z) (dest : EndpointId) : bool * Table :=
  if MAX_CIRCUITS_TOTAL <=? Z.of_nat (size (returns t)) then (false, t)
  else if bool_decide (is_Some (clients t !! key)) || bool_decide (is_Some (aliases t !! key)) then (false, t)
  else
    match returns t !! key with
    | Some _ => (false, t)
    | None => (true, with_returns t (<[key := mkReturn who c dest]> (returns t)))
    end.

(** One of the circuits that end where somebody has gone. *)
Definition close_circuit (t : Table) (key : EndpointId) : Table :=
  match returns t !! key with
  | None => t
  | Some entry =>
      let t := with_returns t (delete key (returns t)) in
      match clients t !! owner entry with
      | Some st => try_send_circuit_closed t (active st) (circuit entry)
      | None => t
      end
  end.

(** In the order the table is walked in. *)
Definition close_circuits (t : Table) (order : list EndpointId) : Table := foldl close_circuit t order.

Definition ending_at (t : Table) (dest : EndpointId) : gset EndpointId :=
  dom (filter (fun kv => ret_destination kv.2 = dest) (returns t)).

(** [remove_if_mut], and who is to be told. *)
Definition remove_client (t : Table) (who : EndpointId) (n : nat) : Table * gset EndpointId :=
  match clients t !! who with
  | None => (t, ∅)
  | Some st =>
      if (active st =? n)%nat then
        match last (inactive st) with
        | Some m =>
            let t := with_clients t (<[who := mkClientState m (removelast (inactive st))]> (clients t)) in
            (try_send_health t m Healthy, ∅)
        | None =>
            (with_clients (with_sent_to t (delete who (sent_to t))) (delete who (clients t)),
             default ∅ (sent_to t !! who))
        end
      else
        (with_clients t (<[who := mkClientState (active st) (retain (fun m => negb (m =? n)%nat) (inactive st))]> (clients t)), ∅)
  end.

Definition tell_gone (who : EndpointId) (t : Table) (peer : EndpointId) : Table :=
  match clients t !! peer with Some st => try_send_peer_gone t (active st) who | None => t end.

(** What a destination is: somebody connected, a name of theirs, or a return key; and the
    circuit it is answered on. *)
Definition resolve (t : Table) (dst : EndpointId) : option (EndpointId * option Z) :=
  match clients t !! dst with
  | Some _ => Some (dst, None)
  | None =>
      match aliases t !! dst with
      | Some primary => Some (primary, None)
      | None =>
          match returns t !! dst with
          | Some entry => Some (owner entry, Some (circuit entry))
          | None => None
          end
      end
  end.

Definition record_sent (t : Table) (from dst : EndpointId) : Table :=
  with_sent_to t (<[from := {[dst]} ∪ default ∅ (sent_to t !! from)]> (sent_to t)).

Definition send_packet (t : Table) (dst : EndpointId) (d : Datagrams) (from : EndpointId) : Sending * Table :=
  match resolve t dst with
  | None => (Sent, t)
  | Some (dst, c) =>
      match clients t !! dst with
      | None => (Sent, t)
      | Some client =>
          let is_circuit := bool_decide (is_Some c) || bool_decide (is_Some (returns t !! from)) in
          match try_send_packet t (active client) (mkPacket from d c) with
          | (Sent, t) => (Sent, if is_circuit then t else record_sent t from dst)
          | (Full, t) => (Full, t)
          | (Closed, t) => (Closed, start_shutdown t (active client))
          end
      end
  end.

(** [disconnect]: of one connection, or of every one there is under the key. *)
Definition disconnect (t : Table) (who : EndpointId) (which : option nat) : bool * Table :=
  match clients t !! who with
  | None => (false, t)
  | Some st =>
      let all := inactive st ++ [active st] in
      match which with
      | Some n => if bool_decide (n ∈ all) then (true, start_shutdown t n) else (false, t)
      | None => (true, foldl start_shutdown t all)
      end
  end.

Definition shutdown (t : Table) : Table :=
  foldl (fun t who => with_clients (disconnect t who None).2 (delete who (clients t))) t (elements (dom (clients t))).

(** ** Links to other relays, and the tasks that ask them

    [answer] is the task that waits for the answer, and [back] the connection whose
    queue a reply goes to. *)

Inductive Request :=
| AskOpen (circuit : Z) (sealed : bytes) (answer : nat) (back : nat) (owner_circuit : Z)
| Carry (circuit : Z) (datagrams : Datagrams).

(** [Refusing] is the loop after a dial that failed. *)
Inductive LinkPhase := Dialling | Refusing | Carrying | Ended.

(** [held] and [opening] are [run_link]'s two maps, and [said] what it sent. *)
Record Link := mkLink {
  url : bytes;
  link_phase : LinkPhase;
  requests : list Request;
  held : gmap Z (nat * Z);
  opening : gmap Z nat;
  said : list ClientToRelayMsg;
}.

(** [open_circuit], and the task around it. *)
Inductive OpenerAt :=
| Asking
| ToSend (link : nat) (far : Z)
| Waiting (link : nat) (far : Z)
| Reporting (event : CircuitEvent)
| Done.

Record Opener := mkOpener {
  op_conn : nat;
  op_circuit : Z;
  op_url : bytes;
  op_inner : bytes;
  op_at : OpenerAt;
}.

Definition op_with (o : Opener) (s : OpenerAt) : Opener := mkOpener (op_conn o) (op_circuit o) (op_url o) (op_inner o) s.

(** A key fetched on somebody's behalf, until it is answered. *)
Record KeyAsk := mkKeyAsk { ask_conn : nat; ask_url : bytes; answered : bool }.

Record Relay := mkRelay {
  table : Table;
  links : gmap bytes nat;
  link_tasks : list Link;
  openers : list Opener;
  key_asks : list KeyAsk;
}.

Definition with_table (y : Relay) (t : Table) : Relay := mkRelay t (links y) (link_tasks y) (openers y) (key_asks y).
Definition with_links (y : Relay) (m : gmap bytes nat) : Relay := mkRelay (table y) m (link_tasks y) (openers y) (key_asks y).
Definition with_link (y : Relay) (i : nat) (l : Link) : Relay :=
  mkRelay (table y) (links y) (<[i := l]> (link_tasks y)) (openers y) (key_asks y).
Definition with_opener (y : Relay) (k : nat) (o : Opener) : Relay :=
  mkRelay (table y) (links y) (link_tasks y) (<[k := o]> (openers y)) (key_asks y).

Definition link_phased (l : Link) (p : LinkPhase) : Link := mkLink (url l) p (requests l) (held l) (opening l) (said l).
Definition link_asked (l : Link) (q : list Request) : Link := mkLink (url l) (link_phase l) q (held l) (opening l) (said l).
Definition link_holding (l : Link) (h : gmap Z (nat * Z)) (o : gmap Z nat) : Link :=
  mkLink (url l) (link_phase l) (requests l) h o (said l).
Definition link_said (l : Link) (m : ClientToRelayMsg) : Link :=
  mkLink (url l) (link_phase l) (requests l) (held l) (opening l) (said l ++ [m]).

(** The other side of a oneshot: a task that does not wait hears nothing. *)
Definition answer (os : list Opener) (k : nat) (b : bool) : list Opener :=
  match os !! k with
  | Some o =>
      match op_at o with
      | Waiting _ far =>
          <[k := op_with o (Reporting (if b then Opened (op_circuit o) (op_url o) far else Refused (op_circuit o)))]> os
      | _ => os
      end
  | None => os
  end.

Definition answer_to (y : Relay) (k : nat) (b : bool) : Relay :=
  mkRelay (table y) (links y) (link_tasks y) (answer (openers y) k b) (key_asks y).

(** Those who wait for an answer no longer coming are told no by that. *)
Definition refuse_request (y : Relay) (r : Request) : Relay :=
  match r with AskOpen _ _ k _ _ => answer_to y k false | Carry _ _ => y end.

Definition tell_closed (y : Relay) (e : option (nat * Z)) : Relay :=
  match e with Some (n, c) => with_table y (try_send_circuit_closed (table y) n c) | None => y end.

(** What is left of [run_link] once its loop ends; [order] is how its circuits are walked. *)
Definition end_link (y : Relay) (i : nat) (l : Link) (order : list Z) : option Relay :=
  if decide (NoDup order /\ list_to_set order = dom (held l)) then
    let y := with_link y i (mkLink (url l) Ended [] ∅ ∅ (said l)) in
    let y := foldl (fun y k => answer_to y k false) y (map_to_list (opening l)).*2 in
    let y := foldl (fun y far => tell_closed y (held l !! far)) y order in
    Some (foldl refuse_request y (requests l))
  else None.

(** What the link's side of its stream takes to write. *)
Definition link_takes (m : ClientToRelayMsg) : bool :=
  (client_msg_len m <=? MAX_PACKET_SIZE) &&
  match m with CDatagrams _ d => negb (zlen (contents d) =? 0) | _ => true end.

Section Relay.
Context `{BL : Blake3, ED : Ed25519}.
Context (opener : option (Z -> bytes -> option CircuitHop)) (dialer : bool).

(** ** What a frame does

    [None] is the error that ends the connection; the frame is what is answered. *)

Definition handle_bind_alias (t : Table) (primary alias : EndpointId) (signature : arr 64) : Table :=
  if verify_strict alias (ab (alias_binding_message primary alias)) signature
  then (register_alias t alias primary).2 else t.

Definition carry (y : Relay) (u : bytes) (far : Z) (d : Datagrams) : Relay :=
  match links y !! u with
  | None => y
  | Some i =>
      match link_tasks y !! i with
      | Some l =>
          match link_phase l with
          | Ended => y
          | _ => if (length (requests l) <? LINK_QUEUE)%nat then with_link y i (link_asked l (requests l ++ [Carry far d])) else y
          end
      | None => y
      end
  end.

Definition refused (c : Z) : option RelayToClientMsg := Some (RCircuitClosed c CIRCUIT_REFUSED).

Definition insert_circuit (y : Relay) (n : nat) (c : Z) (f : Forward) : Relay :=
  with_table y (on_conn (table y) n (fun x => with_circuits x (<[c := f]> (circuits x)))).

(** Where a hop that opened goes: [None] when it and the frame disagree, or when this
    relay was not told that it may chain. *)
Definition chain_to (hop : CircuitHop) (inner : bytes) : option (option bytes) :=
  match next_relay hop, inner with
  | None, [] => Some None
  | Some u, _ :: _ => if dialer then Some (Some u) else None
  | _, _ => None
  end.

Definition handle_frame_open_circuit (y : Relay) (n : nat) (x : Conn) (now : Z) (c : Z) (sealed inner : bytes)
    : Relay * option RelayToClientMsg :=
  if bool_decide (is_Some (circuits x !! c)) then (y, refused c)
  else
    match opener with
    | None => (y, refused c)
    | Some open =>
        if (MAX_CIRCUITS_PER_CONNECTION <=? size (circuits x))%nat then (y, refused c)
        else
          match open now sealed with
          | None => (y, refused c)
          | Some hop =>
              match chain_to hop inner with
              | None => (y, refused c)
              | Some None =>
                  match claim_return_key (table y) (return_key hop) (endpoint_id x) c (destination hop) with
                  | (false, _) => (y, refused c)
                  | (true, t) =>
                      (insert_circuit (with_table y t) n c (mkForward (destination hop) (return_key hop) None),
                       Some (RCircuitOpened c))
                  end
              | Some (Some u) =>
                  let y := insert_circuit y n c (mkForward (destination hop) (return_key hop) (Some Opening)) in
                  (mkRelay (table y) (links y) (link_tasks y) (openers y ++ [mkOpener n c u inner Asking]) (key_asks y), None)
              end
          end
    end.

Definition handle_frame_circuit_datagrams (y : Relay) (x : Conn) (c : Z) (d : Datagrams) : Relay * option RelayToClientMsg :=
  match circuits x !! c with
  | None => (y, refused c)
  | Some forward =>
      match next forward with
      | None => (with_table y (send_packet (table y) (fwd_destination forward) d (fwd_return_key forward)).2, None)
      | Some Opening => (y, None)
      | Some (Open u far) => (carry y u far d, None)
      end
  end.

Definition of_circuits (f : ClientToRelayMsg) : bool :=
  match f with COpenCircuit _ _ _ | CCircuitDatagrams _ _ | CAskRelayKey _ => true | _ => false end.

Definition handle_frame (y : Relay) (n : nat) (x : Conn) (now : Z) (f : ClientToRelayMsg)
    : option (Relay * option RelayToClientMsg) :=
  if negb (at_least (protocol_version x) V3) && of_circuits f then None
  else Some
    match f with
    | CDatagrams dst d => (with_table y (send_packet (table y) dst d (endpoint_id x)).2, None)
    | CAskRelayKey u => (mkRelay (table y) (links y) (link_tasks y) (openers y) (key_asks y ++ [mkKeyAsk n u false]), None)
    | COpenCircuit c sealed inner => handle_frame_open_circuit y n x now c sealed inner
    | CCircuitDatagrams c d => handle_frame_circuit_datagrams y x c d
    | CPing data => (y, Some (RPong data))
    | CPong _ => (y, None)
    | CBindAlias alias signature => (with_table y (handle_bind_alias (table y) (endpoint_id x) alias signature), None)
    end.

(** ** A turn of a connection's task *)

Definition leave (c : Conn) : Conn := with_phase c (Leaving 0 ∅).

(** [write_frame]; [ok] says whether the socket takes it in time. *)
Definition write_frame (ok : bool) (m : RelayToClientMsg) (c : Conn) : Conn :=
  if ok && start_send m then with_wrote c (wrote c ++ [m]) else leave c.

Definition write (y : Relay) (n : nat) (ok : bool) (m : option RelayToClientMsg) : Relay :=
  match m with Some m => with_table y (on_conn (table y) n (write_frame ok m)) | None => y end.

Definition frame_came (y : Relay) (n : nat) (x : Conn) (now : Z) (f : ClientToRelayMsg) (ok : bool) : Relay :=
  match handle_frame y n x now f with
  | None => with_table y (on_conn (table y) n leave)
  | Some (y, m) => write y n ok m
  end.

Definition packet_frame (p : Packet) : RelayToClientMsg :=
  match pkt_circuit p with Some c => RCircuitDatagrams c (data p) | None => RDatagrams (src p) (data p) end.

(** What a chained open that finished changes, and what is said of it. *)
Definition circuit_event (x : Conn) (e : CircuitEvent) : Conn * option RelayToClientMsg :=
  match e with
  | Opened c u far =>
      match circuits x !! c with
      | Some f => (with_circuits x (<[c := mkForward (fwd_destination f) (fwd_return_key f) (Some (Open u far))]> (circuits x)),
                   Some (RCircuitOpened c))
      | None => (x, None)
      end
  | Refused c => (with_circuits x (delete c (circuits x)), refused c)
  end.

(** A circuit that is told to be closed is forgotten. *)
Definition forget_closed (m : RelayToClientMsg) (x : Conn) : Conn :=
  match m with RCircuitClosed c _ => with_circuits x (delete c (circuits x)) | _ => x end.

Definition at_loop (x : Conn) : bool :=
  match phase x with Running => negb (cancelled x) | _ => false end.

(** What a task takes from its queues: packets first, then what became of its circuits,
    and messages last. *)
Definition packet_goes (x : Conn) (ok : bool) : option Conn :=
  match packets x with
  | p :: rest => Some (write_frame ok (packet_frame p) (with_packets x rest))
  | [] => None
  end.

Definition event_goes (x : Conn) (ok : bool) : option Conn :=
  match packets x, events x with
  | [], e :: rest =>
      let '(x, m) := circuit_event (with_events x rest) e in
      Some (match m with Some m => write_frame ok m x | None => x end)
  | _, _ => None
  end.

Definition message_goes (x : Conn) (ok : bool) : option Conn :=
  match packets x, events x, messages x with
  | [], [], m :: rest => Some (write_frame ok m (forget_closed m (with_messages x rest)))
  | _, _, _ => None
  end.

(** [unregister], a step at a time; [order] is how the table is walked. *)
Definition leaves (t : Table) (n : nat) (order : list EndpointId) : option Table :=
  x ← conns t !! n;
  let who := endpoint_id x in
  let go t k peers := on_conn t n (fun x => with_phase x (Leaving k peers)) in
  match phase x with
  | Leaving 0 _ => Some (go (forget_aliases_of t who) 1%nat ∅)
  | Leaving 1 _ => Some (go (forget_circuits_of t who) 2%nat ∅)
  | Leaving 2 _ =>
      if decide (NoDup order /\ list_to_set order = ending_at t who) then Some (go (close_circuits t order) 3%nat ∅) else None
  | Leaving 3 _ => let '(t, peers) := remove_client t who n in Some (go t 4%nat peers)
  | Leaving _ peers => Some (on_conn (foldl (tell_gone who) t (elements peers)) n gone)
  | _ => None
  end.

(** ** The tasks around the links *)

(** [link_to], and the number drawn. *)
Definition link_to (y : Relay) (u : bytes) : nat * Relay :=
  let fresh := (length (link_tasks y),
    mkRelay (table y) (<[u := length (link_tasks y)]> (links y)) (link_tasks y ++ [mkLink u Dialling [] ∅ ∅ []])
      (openers y) (key_asks y)) in
  match links y !! u with
  | Some i =>
      match link_tasks y !! i with
      | Some l => match link_phase l with Ended => fresh | _ => (i, y) end
      | None => fresh
      end
  | None => fresh
  end.

Definition asks (y : Relay) (k : nat) (o : Opener) (far : Z) : Relay :=
  if dialer then
    let '(i, y) := link_to y (op_url o) in with_opener y k (op_with o (ToSend i far))
  else with_opener y k (op_with o (Reporting (Refused (op_circuit o)))).

Definition sends (y : Relay) (k : nat) (o : Opener) (i : nat) (far : Z) : option Relay :=
  l ← link_tasks y !! i;
  match link_phase l with
  | Ended => Some (with_opener (with_links y (delete (op_url o) (links y))) k (op_with o (Reporting (Refused (op_circuit o)))))
  | _ =>
      if (length (requests l) <? LINK_QUEUE)%nat then
        Some (with_opener (with_link y i (link_asked l (requests l ++ [AskOpen far (op_inner o) k (op_conn o) (op_circuit o)])))
                k (op_with o (Waiting i far)))
      else None
  end.

Definition reports (y : Relay) (k : nat) (o : Opener) (e : CircuitEvent) : option Relay :=
  x ← conns (table y) !! op_conn o;
  if is_gone x then Some (with_opener y k (op_with o Done))
  else if (length (events x) <? MAX_CIRCUITS_PER_CONNECTION)%nat then
    Some (with_opener (with_table y (with_conn (table y) (op_conn o) (with_events x (events x ++ [e])))) k (op_with o Done))
  else None.

Definition opener_turn (y : Relay) (k : nat) (far : Z) : option Relay :=
  o ← openers y !! k;
  match op_at o with
  | Asking => Some (asks y k o far)
  | ToSend i far => sends y k o i far
  | Reporting e => reports y k o e
  | Waiting _ _ | Done => None
  end.

(** The key a fetch brought, if any: not asked for when there is no dialler, or when what
    was asked about is not text. *)
Definition key_comes (y : Relay) (k : nat) (fetched : option bytes) : option Relay :=
  a ← key_asks y !! k;
  if answered a then None
  else
    x ← conns (table y) !! ask_conn a;
    let key := if utf8_valid (ask_url a) && dialer then default [] fetched else [] in
    let y := mkRelay (table y) (links y) (link_tasks y) (openers y) (<[k := mkKeyAsk (ask_conn a) (ask_url a) true]> (key_asks y)) in
    if is_gone x then Some y
    else if (length (messages x) <? PER_CLIENT_SEND_QUEUE_DEPTH)%nat then
      Some (with_table y (with_conn (table y) (ask_conn a) (with_messages x (messages x ++ [RRelayKey (ask_url a) key]))))
    else None.

(** A request is taken by a link that carries; [ok] says whether its stream takes it. *)
Definition link_takes_request (y : Relay) (i : nat) (l : Link) (r : Request) (rest : list Request) (ok : bool) (order : list Z) : option Relay :=
  let l := link_asked l rest in
  match r with
  | AskOpen c sealed k back owner_circuit =>
      let m := COpenCircuit c sealed [] in
      if ok && link_takes m then
        let y := match opening l !! c with Some k' => answer_to y k' false | None => y end in
        Some (with_link y i (link_said (link_holding l (<[c := (back, owner_circuit)]> (held l)) (<[c := k]> (opening l))) m))
      else end_link (answer_to y k false) i l order
  | Carry c d =>
      let m := CCircuitDatagrams c d in
      if ok && link_takes m then Some (with_link y i (link_said l m)) else end_link y i l order
  end.

Definition link_turn (y : Relay) (i : nat) (ok : bool) (order : list Z) : option Relay :=
  l ← link_tasks y !! i;
  match link_phase l, requests l with
  | Refusing, r :: rest => Some (refuse_request (with_link y i (link_asked l rest)) r)
  | Carrying, r :: rest => link_takes_request y i l r rest ok order
  | _, _ => None
  end.

Definition link_hears (y : Relay) (i : nat) (m : RelayToClientMsg) : option Relay :=
  l ← link_tasks y !! i;
  match link_phase l with
  | Carrying =>
      Some match m with
      | RCircuitOpened c =>
          match opening l !! c with
          | Some k => answer_to (with_link y i (link_holding l (held l) (delete c (opening l)))) k true
          | None => y
          end
      | RCircuitClosed c _ =>
          let y := with_link y i (link_holding l (delete c (held l)) (delete c (opening l))) in
          let y := match opening l !! c with Some k => answer_to y k false | None => y end in
          tell_closed y (held l !! c)
      | RCircuitDatagrams c d =>
          match held l !! c with
          | Some (back, owner_circuit) => with_table y (try_send_message (table y) back (RCircuitDatagrams owner_circuit d))
          | None => y
          end
      | _ => y
      end
  | _ => None
  end.

Definition holds_sender (i : nat) (o : Opener) : bool :=
  match op_at o with ToSend j _ | Waiting j _ => (j =? i)%nat | _ => false end.

(** Whether anybody is left to ask a link anything. *)
Definition has_senders (y : Relay) (i : nat) : bool :=
  match link_tasks y !! i with
  | Some l => bool_decide (links y !! url l = Some i)
  | None => false
  end || existsb (holds_sender i) (openers y).

(** A link's stream ends, or there is nobody left to ask it anything. *)
Definition link_ends (y : Relay) (i : nat) (order : list Z) : option Relay :=
  l ← link_tasks y !! i;
  match link_phase l, requests l with
  | Carrying, _ => end_link y i l order
  | Refusing, [] => if has_senders y i then None else Some (with_link y i (link_phased l Ended))
  | _, _ => None
  end.

Definition dialled (y : Relay) (i : nat) (ok : bool) : option Relay :=
  l ← link_tasks y !! i;
  match link_phase l with
  | Dialling => Some (with_link y i (link_phased l (if ok then Carrying else Refusing)))
  | _ => None
  end.

(** ** Turns *)

Inductive Event :=
| Arrives (who : EndpointId) (v : ProtocolVersion)
| Enters (n : nat)
| FrameCame (n : nat) (now : Z) (f : ClientToRelayMsg) (ok : bool)
| PacketGoes (n : nat) (ok : bool)
| EventGoes (n : nat) (ok : bool)
| MessageGoes (n : nat) (ok : bool)
| PingGoes (n : nat) (data : arr 8) (ok : bool)
| Stops (n : nat)
| Leaves (n : nat) (order : list EndpointId)
| Disconnects (who : EndpointId) (which : option nat)
| ShutsDown
| OpenerTurn (k : nat) (far : Z)
| KeyComes (k : nat) (fetched : option bytes)
| Dialled (i : nat) (ok : bool)
| LinkTurn (i : nat) (ok : bool) (order : list Z)
| LinkHears (i : nat) (m : RelayToClientMsg)
| LinkEnds (i : nat) (order : list Z).

Definition turn (y : Relay) (n : nat) (f : Conn -> option Conn) : option Relay :=
  x ← conns (table y) !! n;
  if at_loop x then x' ← f x; Some (with_table y (with_conn (table y) n x')) else None.

Definition step (y : Relay) (e : Event) : option Relay :=
  match e with
  | Arrives who v =>
      let t := table y in
      Some (with_table y (mkTable (conns t ++ [mkConn who v false Running false [] [] [] ∅ []])
        (clients t) (sent_to t) (aliases t) (returns t)))
  | Enters n =>
      x ← conns (table y) !! n;
      if entered x then None else Some (with_table y (register (table y) n))
  | FrameCame n now f ok => x ← conns (table y) !! n; if at_loop x then Some (frame_came y n x now f ok) else None
  | PacketGoes n ok => turn y n (fun x => packet_goes x ok)
  | EventGoes n ok => turn y n (fun x => event_goes x ok)
  | MessageGoes n ok => turn y n (fun x => message_goes x ok)
  | PingGoes n data ok => turn y n (fun x => Some (write_frame ok (RPing data) x))
  | Stops n => x ← conns (table y) !! n;
      match phase x with Running => Some (with_table y (with_conn (table y) n (leave x))) | _ => None end
  | Leaves n order => t ← leaves (table y) n order; Some (with_table y t)
  | Disconnects who which => Some (with_table y (disconnect (table y) who which).2)
  | ShutsDown => Some (with_table y (shutdown (table y)))
  | OpenerTurn k far => opener_turn y k far
  | KeyComes k fetched => key_comes y k fetched
  | Dialled i ok => dialled y i ok
  | LinkTurn i ok order => link_turn y i ok order
  | LinkHears i m => link_hears y i m
  | LinkEnds i order => link_ends y i order
  end.

Fixpoint run (y : Relay) (es : list Event) : option Relay :=
  match es with [] => Some y | e :: es => y ← step y e; run y es end.

Definition started : Relay := mkRelay (mkTable [] ∅ ∅ ∅ ∅) ∅ [] [] [].
End Relay.
