(* ===== verification/CircuitLinks.v ===== *)
(** * The life of a relay's links

    How the links of [Circuits] change in a step, and what ties a relay's address to the
    one link that is asked for it. *)

From S2P Require Import Prelude Crypto RelayFrame Circuits.
From S2P Require Hybrid.
Import Hybrid (Ed25519, valid_key, verify_strict).

(** What becomes of one link's task in a step. *)
Definition link_after (y : Relay) (i : nat) (l l' : Link) : Prop :=
  url l' = url l /\
  match link_phase l with
  | Dialling => True
  | Refusing => link_phase l' = Refusing \/ link_phase l' = Ended /\ has_senders y i = false
  | Carrying => link_phase l' = Carrying \/ link_phase l' = Ended
  | Ended => link_phase l' = Ended
  end.

(** Nobody would be given a link to [u] that lives. *)
Definition fresh (y : Relay) (u : bytes) : Prop :=
  forall i l, links y !! u = Some i -> link_tasks y !! i = Some l -> link_phase l = Ended.

Inductive moves (y y' : Relay) : Prop :=
| moves_none : link_tasks y' = link_tasks y -> links y' = links y -> moves y y'
| moves_one i l f :
    link_tasks y !! i = Some l -> link_tasks y' = <[i := f]> (link_tasks y) -> links y' = links y ->
    link_after y i l f -> moves y y'
| moves_new u :
    fresh y u -> link_tasks y' = link_tasks y ++ [mkLink u Dialling [] ∅ ∅ []] ->
    links y' = <[u := length (link_tasks y)]> (links y) -> moves y y'
| moves_drop k o i far l :
    openers y !! k = Some o -> op_at o = ToSend i far -> link_tasks y !! i = Some l -> link_phase l = Ended ->
    link_tasks y' = link_tasks y -> links y' = delete (op_url o) (links y) -> moves y y'.

(** A task that has a link to send to got it now, or had it before. *)
Definition sending_after (y y' : Relay) : Prop :=
  forall k o i far, openers y' !! k = Some o -> op_at o = ToSend i far ->
    openers y !! k = Some o \/ exists l, link_tasks y' !! i = Some l /\ url l = op_url o.

(** Nothing of the links, and of who has one to send to, is different. *)
Definition unmoved (y y' : Relay) : Prop :=
  link_tasks y' = link_tasks y /\ links y' = links y /\
  forall k o i far, openers y' !! k = Some o -> op_at o = ToSend i far -> openers y !! k = Some o.

#[export] Instance unmoved_preorder : PreOrder unmoved.
Proof.
  split; [by intros y|]. intros a b c (H1 & H2 & H3) (K1 & K2 & K3).
  split; [by rewrite K1|]. split; [by rewrite K2|]. intros k o i far Ho Hs. eapply H3; [|done]. by eapply K3.
Qed.

Lemma unmoved_moves y y' : unmoved y y' -> moves y y' /\ sending_after y y'.
Proof. intros (H1 & H2 & H3). split; [by apply moves_none|]. intros k o i far Ho Hs. left. by eapply H3. Qed.

Lemma unmoved_answer y k b : unmoved y (answer_to y k b).
Proof.
  split; [done|]. split; [done|]. intros j o i far. cbn. unfold answer. destruct (openers y !! k) as [p|] eqn:E; [|done].
  destruct (op_at p); try done. intros [(<- & <- & _)|[_ Hj]]%list_lookup_insert_Some; [|done]. by destruct b.
Qed.

Lemma unmoved_foldl {A} (f : Relay -> A -> Relay) l y : (forall y a, unmoved y (f y a)) -> unmoved y (foldl f y l).
Proof. intros Hf. revert y. induction l as [|a l IH]; intros y; [done|]. cbn. etransitivity; [apply Hf|apply IH]. Qed.

Lemma unmoved_tell_closed y e : unmoved y (tell_closed y e).
Proof. by destruct e as [[n c]|]. Qed.

Lemma unmoved_refuse_request y r : unmoved y (refuse_request y r).
Proof. destruct r; [apply unmoved_answer|done]. Qed.

(** One link's task, and then nothing. *)
Lemma one_moves y y1 y' i l f :
  unmoved y y1 -> link_tasks y !! i = Some l -> link_after y i l f -> unmoved (with_link y1 i f) y' ->
  moves y y' /\ sending_after y y'.
Proof.
  intros (A1 & A2 & A3) Hl Ha (B1 & B2 & B3). split.
  - apply (moves_one _ _ i l f); [done| | |done].
    + rewrite B1. cbn. by rewrite A1.
    + rewrite B2. cbn. by rewrite A2.
  - intros k o j far Ho Hs. left. eapply A3, Hs. by eapply B3.
Qed.

Lemma ended_after y i l l' : link_phase l = Carrying -> url l' = url l -> link_phase l' = Ended -> link_after y i l l'.
Proof. intros Hl Hu Hp. split; [done|]. rewrite Hl. by right. Qed.

Lemma same_after y i l l' : url l' = url l -> link_phase l' = link_phase l -> link_after y i l l'.
Proof. intros Hu Hp. split; [done|]. rewrite Hp. destruct (link_phase l); by auto. Qed.

Lemma end_link_moves y y1 y' i l l1 order :
  unmoved y y1 -> link_tasks y !! i = Some l -> link_phase l = Carrying -> url l1 = url l ->
  end_link y1 i l1 order = Some y' -> moves y y' /\ sending_after y y'.
Proof.
  intros Hy Hl Hp Hu. unfold end_link. destruct (decide _); [|done]. intros [= <-].
  apply (one_moves y y1 _ i l (mkLink (url l1) Ended [] ∅ ∅ (said l1))); [done|done|by apply ended_after|].
  etransitivity; [|apply unmoved_foldl; intros; apply unmoved_refuse_request].
  etransitivity; [|apply unmoved_foldl; intros; apply unmoved_tell_closed].
  apply unmoved_foldl. intros. apply unmoved_answer.
Qed.

Section Moves.
Context `{BL : Blake3, ED : Ed25519}.
Context (opener : option (Z -> bytes -> option CircuitHop)) (dialer : bool).

Lemma unmoved_write y n ok m : unmoved y (write y n ok m).
Proof. by destruct m. Qed.

Lemma carry_moves y y' u far d : unmoved (carry y u far d) y' -> moves y y' /\ sending_after y y'.
Proof.
  unfold carry. destruct (links y !! u) as [i|]; [|apply unmoved_moves]. destruct (link_tasks y !! i) as [l|] eqn:E; [|apply unmoved_moves].
  destruct (link_phase l) eqn:Ep; try apply unmoved_moves; (destruct (_ <? _)%nat; [|apply unmoved_moves]);
    apply (one_moves y y y' i l); try done; by apply same_after.
Qed.

Lemma unmoved_new_opener y t ks o :
  op_at o = Asking -> unmoved y (mkRelay t (links y) (link_tasks y) (openers y ++ [o]) ks).
Proof.
  intros Ho. split; [done|]. split; [done|]. intros k p i far [Hk|[_ Hk]]%lookup_app_Some; [done|].
  apply list_lookup_singleton_Some in Hk as [_ <-]. by rewrite Ho.
Qed.

Lemma frame_moves y n x now f ok :
  moves y (frame_came opener dialer y n x now f ok) /\ sending_after y (frame_came opener dialer y n x now f ok).
Proof.
  unfold frame_came, handle_frame. destruct (_ && _); [by apply unmoved_moves|].
  destruct f as [d|d|dst d|c sealed inner|u|c d|alias sig]; try (by apply unmoved_moves).
  - unfold handle_frame_open_circuit.
    assert (forall m, moves y (write y n ok m) /\ sending_after y (write y n ok m)) as Hw by (intros m; by destruct m; apply unmoved_moves).
    destruct (bool_decide _); [apply Hw|]. destruct opener as [open|]; [|apply Hw]. destruct (_ <=? _)%nat; [apply Hw|].
    destruct (open now sealed) as [hop|]; [|apply Hw]. destruct (chain_to dialer hop inner) as [[u|]|]; [| |apply Hw].
    + apply unmoved_moves. exact (unmoved_new_opener y _ _ (mkOpener n c u inner Asking) eq_refl).
    + destruct (claim_return_key _ _ _ _ _) as [[] t]; [|apply Hw]. apply unmoved_moves.
      etransitivity; [|apply unmoved_write]. done.
  - unfold handle_frame_circuit_datagrams. destruct (circuits x !! c) as [fw|]; [|by apply unmoved_moves].
    destruct (next fw) as [[|u far]|]; [by apply unmoved_moves| |by apply unmoved_moves]. by eapply carry_moves.
Qed.

Lemma unmoved_with_opener y k o o' :
  openers y !! k = Some o -> (forall i far, op_at o' <> ToSend i far) -> unmoved y (with_opener y k o').
Proof.
  intros Hk Hn. split; [done|]. split; [done|]. intros j p i far [(<- & <- & _)|[_ Hj]]%list_lookup_insert_Some Hs; [by destruct (Hn i far)|done].
Qed.

Lemma asks_moves y k o far :
  openers y !! k = Some o -> (forall u i, links y !! u = Some i -> exists l, link_tasks y !! i = Some l /\ url l = u) ->
  moves y (asks dialer y k o far) /\ sending_after y (asks dialer y k o far).
Proof.
  intros Hk Hl. unfold asks. destruct dialer; [|by apply unmoved_moves, (unmoved_with_opener y k o)].
  unfold link_to. set (fresh_link := (length (link_tasks y), _)).
  assert (fresh y (op_url o) -> let '(i, y1) := fresh_link in
    moves y (with_opener y1 k (op_with o (ToSend i far))) /\ sending_after y (with_opener y1 k (op_with o (ToSend i far)))) as Hf.
  { intros Hf. cbn. split; [by apply (moves_new _ _ (op_url o))|].
    intros j p i f [(<- & <- & _)|[_ Hj]]%list_lookup_insert_Some Hs; [right|by left]. cbn in Hs. injection Hs as <- <-.
    cbn. eexists. split; [by apply list_lookup_middle|done]. }
  destruct (links y !! op_url o) as [i|] eqn:Ei; [|apply Hf; intros i l E; by rewrite Ei in E].
  destruct (Hl _ _ Ei) as (l & El & Hu). rewrite El.
  assert (moves y (with_opener y k (op_with o (ToSend i far))) /\ sending_after y (with_opener y k (op_with o (ToSend i far)))) as Hs.
  { split; [by apply moves_none|]. intros j p i' f [(<- & <- & _)|[_ Hj]]%list_lookup_insert_Some Hs; [right|by left].
    cbn in Hs. injection Hs as <- <-. exists l. by rewrite Hu. }
  destruct (link_phase l) eqn:Ep; try exact Hs. apply Hf. intros i' l' E. rewrite Ei in E. injection E as <-. rewrite El. by intros [= <-].
Qed.

Lemma sends_moves y k o i far y' :
  openers y !! k = Some o -> op_at o = ToSend i far -> sends y k o i far = Some y' -> moves y y' /\ sending_after y y'.
Proof.
  intros Hk Ho. unfold sends. destruct (link_tasks y !! i) as [l|] eqn:El; [|done]. cbn [mbind option_bind].
  destruct (link_phase l) eqn:Ep;
    [destruct (_ <? _)%nat; [|done]; intros [= <-]; eapply (one_moves y y _ i l); [done|done| |by apply (unmoved_with_opener (with_link y i _) k o)]; by apply same_after..|].
  intros [= <-]. split; [by apply (moves_drop _ _ k o i far l)|].
  intros j p i' f [(<- & <- & _)|[_ Hj]]%list_lookup_insert_Some Hs; [done|by left].
Qed.

Lemma step_moves y e y' :
  (forall u i, links y !! u = Some i -> exists l, link_tasks y !! i = Some l /\ url l = u) ->
  step opener dialer y e = Some y' -> moves y y' /\ sending_after y y'.
Proof.
  intros Hl. destruct e as [who v|n|n now f ok|n ok|n ok|n ok|n d ok|n|n order|who which| |k far|k fetched|i ok|i ok order|i m|i order];
    cbn [step]; unfold turn.
  - intros [= <-]. by apply unmoved_moves.
  - destruct (conns (table y) !! n); [|done]. cbn. destruct (entered _); [done|]. intros [= <-]. by apply unmoved_moves.
  - destruct (conns (table y) !! n); [|done]. cbn. destruct (at_loop _); [|done]. intros [= <-]. apply frame_moves.
  - destruct (conns (table y) !! n); [|done]. cbn. destruct (at_loop _); [|done]. destruct (packet_goes _ _); [|done]. intros [= <-]. by apply unmoved_moves.
  - destruct (conns (table y) !! n); [|done]. cbn. destruct (at_loop _); [|done]. destruct (event_goes _ _); [|done]. intros [= <-]. by apply unmoved_moves.
  - destruct (conns (table y) !! n); [|done]. cbn. destruct (at_loop _); [|done]. destruct (message_goes _ _); [|done]. intros [= <-]. by apply unmoved_moves.
  - destruct (conns (table y) !! n); [|done]. cbn. destruct (at_loop _); [|done]. intros [= <-]. by apply unmoved_moves.
  - destruct (conns (table y) !! n) as [x|]; [|done]. cbn. destruct (phase x); try done. intros [= <-]. by apply unmoved_moves.
  - destruct (leaves _ _ _); [|done]. intros [= <-]. by apply unmoved_moves.
  - intros [= <-]. by apply unmoved_moves.
  - intros [= <-]. by apply unmoved_moves.
  - unfold opener_turn. destruct (openers y !! k) as [o|] eqn:Ek; [|done]. cbn [mbind option_bind]. destruct (op_at o) as [|i f|i f|e|] eqn:Eo; try done.
    + intros [= <-]. by apply asks_moves.
    + by apply sends_moves.
    + unfold reports. destruct (conns (table y) !! op_conn o) as [x|]; [|done]. cbn [mbind option_bind].
      destruct (is_gone x); [intros [= <-]; by apply unmoved_moves, (unmoved_with_opener y k o)|].
      destruct (_ <? _)%nat; [|done]. intros [= <-]. by apply unmoved_moves, (unmoved_with_opener (with_table y _) k o).
  - unfold key_comes. destruct (key_asks y !! k); [|done]. cbn [mbind option_bind]. destruct (answered _); [done|].
    destruct (conns (table y) !! _); [|done]. cbn [mbind option_bind]. destruct (is_gone _); [intros [= <-]; by apply unmoved_moves|].
    destruct (_ <? _)%nat; [|done]. intros [= <-]. by apply unmoved_moves.
  - unfold dialled. destruct (link_tasks y !! i) as [l|] eqn:El; [|done]. cbn. destruct (link_phase l) eqn:Ep; try done. intros [= <-].
    apply (one_moves y y _ i l (link_phased l (if ok then Carrying else Refusing))); [done|done| |done]. split; [done|]. by rewrite Ep.
  - unfold link_turn. destruct (link_tasks y !! i) as [l|] eqn:El; [|done]. cbn. destruct (link_phase l) eqn:Ep; try done; destruct (requests l) as [|r rest]; try done.
    + intros [= <-]. apply (one_moves y y _ i l (link_asked l rest)); [done|done|by apply same_after|apply unmoved_refuse_request].
    + unfold link_takes_request. destruct r as [c sealed q back oc|c d]; destruct (ok && _).
      * intros [= <-]. eapply (one_moves y _ _ i l); [|done| |reflexivity]; [|by apply same_after].
        destruct (opening _ !! c); [apply unmoved_answer|done].
      * apply end_link_moves with (l := l); [apply unmoved_answer|done..].
      * intros [= <-]. apply (one_moves y y _ i l (link_said (link_asked l rest) (CCircuitDatagrams c d))); [done|done|by apply same_after|done].
      * by apply end_link_moves with (l := l).
  - unfold link_hears. destruct (link_tasks y !! i) as [l|] eqn:El; [|done]. cbn. destruct (link_phase l) eqn:Ep; try done. intros [= <-].
    destruct m as [| |c reason| |c d| | | | | |]; try (by apply unmoved_moves).
    + destruct (opening l !! circuit); [|by apply unmoved_moves].
      eapply (one_moves y y _ i l (link_holding l _ _)); [done|done|by apply same_after|apply unmoved_answer].
    + eapply (one_moves y y _ i l (link_holding l (delete c (held l)) (delete c (opening l)))); [done|done|by apply same_after|].
      etransitivity; [|apply unmoved_tell_closed]. destruct (opening l !! c); [apply unmoved_answer|done].
    + destruct (held l !! c) as [[back oc]|]; by apply unmoved_moves.
  - unfold link_ends. destruct (link_tasks y !! i) as [l|] eqn:El; [|done]. cbn. destruct (link_phase l) eqn:Ep; try done.
    + destruct (requests l); [|done]. destruct (has_senders y i) eqn:Es; [done|]. intros [= <-].
      apply (one_moves y y _ i l (link_phased l Ended)); [done|done| |done]. split; [done|]. rewrite Ep. by right.
    + destruct (requests l); by apply end_link_moves with (l := l).
Qed.
End Moves.

(** ** One link to a relay *)

Record tied (y : Relay) : Prop := {
  td_links u i : links y !! u = Some i -> exists l, link_tasks y !! i = Some l /\ url l = u;
  td_only i l : link_tasks y !! i = Some l ->
    links y !! url l = Some i \/ exists j l', link_tasks y !! j = Some l' /\ url l' = url l /\ link_phase l' = Ended;
  td_sends k o i far : openers y !! k = Some o -> op_at o = ToSend i far -> exists l, link_tasks y !! i = Some l /\ url l = op_url o;
}.

(** A link that was there is there, and as far on or further. *)
Lemma moves_old y y' i l :
  moves y y' -> link_tasks y !! i = Some l -> exists l', link_tasks y' !! i = Some l' /\ link_after y i l l'.
Proof.
  intros [Ht _|j m f Hj Ht _ Ha|u _ Ht _|k o j far m _ _ _ _ Ht _] Hl; rewrite Ht.
  - exists l. split; [done|]. by apply same_after.
  - destruct (decide (j = i)) as [->|Hne].
    + exists f. rewrite list_lookup_insert_eq by (by eapply lookup_lt_Some). rewrite Hl in Hj. by injection Hj as <-.
    + exists l. rewrite list_lookup_insert_ne by done. split; [done|]. by apply same_after.
  - exists l. split; [by apply lookup_app_l_Some|]. by apply same_after.
  - exists l. split; [done|]. by apply same_after.
Qed.

(** A link that is there was there, or is new. *)
Lemma moves_back y y' i l' :
  moves y y' -> link_tasks y' !! i = Some l' ->
  (exists l, link_tasks y !! i = Some l /\ link_after y i l l') \/
  (link_phase l' = Dialling /\ fresh y (url l') /\ links y' !! url l' = Some i).
Proof.
  intros Hm Hl'. destruct (link_tasks y !! i) as [l|] eqn:El.
  - left. exists l. split; [done|]. destruct (moves_old y y' i l Hm El) as (m & Hm' & Ha). rewrite Hl' in Hm'. by injection Hm' as <-.
  - right. destruct Hm as [Ht _|j m f Hj Ht _ Ha|u Hf Ht Hl|k o j far m _ _ _ _ Ht _]; rewrite Ht in Hl'.
    + by rewrite El in Hl'.
    + apply lookup_lt_Some in Hl'. rewrite length_insert in Hl'. apply lookup_lt_is_Some_2 in Hl' as [? Hl']. by rewrite El in Hl'.
    + apply lookup_app_Some in Hl' as [Hl'|[Hi Hl']]; [by rewrite El in Hl'|]. apply list_lookup_singleton_Some in Hl' as [Hi' <-].
      split; [done|]. split; [done|]. rewrite Hl. cbn. rewrite lookup_insert_eq. f_equal. lia.
    + by rewrite El in Hl'.
Qed.

Lemma ended_stays y y' u :
  moves y y' -> (exists j l, link_tasks y !! j = Some l /\ url l = u /\ link_phase l = Ended) ->
  exists j l, link_tasks y' !! j = Some l /\ url l = u /\ link_phase l = Ended.
Proof.
  intros Hm (j & l & Hl & Hu & Hp). destruct (moves_old y y' j l Hm Hl) as (l' & Hl' & Hu' & Ha). rewrite Hp in Ha.
  exists j, l'. split; [done|]. split; [by rewrite Hu'|done].
Qed.

Lemma tied_moves y y' : tied y -> moves y y' -> sending_after y y' -> tied y'.
Proof.
  intros [T1 T2 T3] Hm Hs. split.
  - intros u i Hi. assert (links y !! u = Some i \/ (link_tasks y' !! i = Some (mkLink u Dialling [] ∅ ∅ []))) as [Hi'|Hn].
    { destruct Hm as [_ Hl|j m f _ _ Hl _|v _ Ht Hl|k o j far m _ _ _ _ _ Hl]; rewrite Hl in Hi; [by left|by left| |].
      - apply lookup_insert_Some in Hi as [[<- <-]|[_ Hi]]; [right|by left]. rewrite Ht. by apply list_lookup_middle.
      - apply lookup_delete_Some in Hi as [_ Hi]. by left. }
    + destruct (T1 u i Hi') as (l & Hl & <-). destruct (moves_old y y' i l Hm Hl) as (l' & Hl' & Hu & _). by exists l'.
    + by eexists.
  - intros i l' Hl'. destruct (moves_back y y' i l' Hm Hl') as [(l & Hl & Hu & _)|(_ & _ & Hn)]; [|by left].
    rewrite Hu. destruct (T2 i l Hl) as [Hi|He]; [|right; by eapply ended_stays].
    destruct Hm as [Ht Hk|j m f Hj Ht Hk Ha|v Hf Ht Hk|k o j far m Ho Hat Hj Hp Ht Hk] eqn:Em; rewrite Hk; [by left|by left| |].
    + destruct (decide (v = url l)) as [->|Hne]; [|left; by rewrite lookup_insert_ne].
      right. apply (ended_stays y y'); [done|]. exists i, l. split; [done|]. split; [done|]. by eapply Hf.
    + destruct (decide (op_url o = url l)) as [E|Hne]; [|left; by rewrite lookup_delete_ne].
      right. apply (ended_stays y y'); [done|]. exists j, m. split; [done|]. split; [|done].
      destruct (T3 k o j far Ho Hat) as (m' & Hm' & Hu'). rewrite Hj in Hm'. injection Hm' as <-. by rewrite Hu'.
  - intros k o i far Ho Hat. destruct (Hs k o i far Ho Hat) as [Ho'|(l & Hl & Hu)]; [|by exists l].
    destruct (T3 k o i far Ho' Hat) as (l & Hl & <-). destruct (moves_old y y' i l Hm Hl) as (l' & Hl' & Hu & _). by exists l'.
Qed.

Lemma tied_started : tied started.
Proof. split; [intros u i H; cbn in H; by rewrite lookup_empty in H|done|done]. Qed.

(** The one link there is to [u] is one that refuses, or is yet to be dialled. *)
Definition only_refuses (u : bytes) (i : nat) (y : Relay) : Prop :=
  (exists l, link_tasks y !! i = Some l /\ url l = u /\ link_phase l = Refusing) /\
  forall j l, link_tasks y !! j = Some l -> url l = u -> j = i.

Lemma only_refuses_moves u i y y' : tied y -> only_refuses u i y -> moves y y' -> only_refuses u i y'.
Proof.
  intros [T1 T2 T3] [(l & Hl & Hu & Hp) Ho] Hm.
  assert (links y !! u = Some i) as Hi.
  { destruct (T2 i l Hl) as [Hi|(j & m & Hj & Hum & He)]; [by rewrite <- Hu|].
    rewrite Hu in Hum. rewrite (Ho j m Hj Hum), Hl in Hj. injection Hj as <-. by rewrite Hp in He. }
  split.
  - destruct (moves_old y y' i l Hm Hl) as (l' & Hl' & Hu' & Ha). exists l'. split; [done|]. split; [by rewrite Hu'|].
    rewrite Hp in Ha. destruct Ha as [Ha|[_ Ha]]; [done|]. unfold has_senders in Ha. rewrite Hl, Hu, Hi in Ha.
    by rewrite bool_decide_eq_true_2 in Ha.
  - intros j m' Hj Hum. destruct (moves_back y y' j m' Hm Hj) as [(m & Hm1 & Hu1 & _)|(_ & Hf & _)].
    + apply (Ho j m Hm1). by rewrite <- Hu1.
    + rewrite Hum in Hf. pose proof (Hf i l Hi Hl) as He. by rewrite Hp in He.
Qed.

Section Runs.
Context `{BL : Blake3, ED : Ed25519}.
Context (opener : option (Z -> bytes -> option CircuitHop)) (dialer : bool).

Lemma tied_step y e y' : tied y -> step opener dialer y e = Some y' -> tied y' /\ moves y y'.
Proof. intros Ht Hs. destruct (step_moves opener dialer y e y' (td_links y Ht) Hs) as [Hm Ha]. split; [by eapply tied_moves|done]. Qed.

Lemma tied_run y es y' : tied y -> run opener dialer y es = Some y' -> tied y'.
Proof.
  revert y. induction es as [|e es IH]; intros y Ht; cbn [run]; [by intros [= <-]|].
  destruct (step opener dialer y e) as [y1|] eqn:E; [|done]. apply IH. by eapply tied_step.
Qed.

Lemma only_refuses_run u i y es y' : tied y -> only_refuses u i y -> run opener dialer y es = Some y' -> only_refuses u i y'.
Proof.
  revert y. induction es as [|e es IH]; intros y Ht Ho; cbn [run]; [by intros [= <-]|].
  destruct (step opener dialer y e) as [y1|] eqn:E; [|done]. destruct (tied_step y e y1 Ht E) as [Ht1 Hm].
  exact (IH y1 Ht1 (only_refuses_moves u i y y1 Ht Ho Hm)).
Qed.

(** Before it refused, it was there and not yet dialled, or it was not. *)
Lemma not_carried_before u i y es y' j l :
  run opener dialer y es = Some y' -> tied y -> only_refuses u i y' ->
  link_tasks y !! j = Some l -> url l = u -> link_phase l = Dialling \/ link_phase l = Refusing.
Proof.
  revert y l. induction es as [|e es IH]; intros y l; cbn [run].
  - intros [= ->] _ [(m & Hm & _ & Hp) Ho] Hl Hu. rewrite (Ho j l Hl Hu), Hm in Hl. injection Hl as <-. by right.
  - destruct (step opener dialer y e) as [y1|] eqn:E; [|done]. cbn. intros Hr Ht Ho Hl Hu.
    destruct (tied_step y e y1 Ht E) as [Ht1 Hm]. destruct (moves_old y y1 j l Hm Hl) as (l1 & Hl1 & Hu1 & Ha).
    destruct (IH y1 l1 Hr Ht1 Ho Hl1 ltac:(by rewrite Hu1)) as [Hp|Hp]; rewrite Hp in Ha; destruct (link_phase l); naive_solver.
Qed.
End Runs.
