(* ===== verification/CircuitFacts.v ===== *)
(** * What a relay gives away, what it holds, and what one client does to another

    Properties of [Circuits]: who is named to whom, how much is held, that a circuit
    carries both ways, and what befalls the links. *)

From S2P Require Import Prelude Crypto RelayFrame Circuits CircuitLinks.
From S2P Require Hybrid.
Import Hybrid (Ed25519, valid_key, verify_strict).

(** Whom a frame names. *)
Definition named (m : RelayToClientMsg) : option EndpointId :=
  match m with RDatagrams k _ | REndpointGone k => Some k | _ => None end.

(** ** What the table leaves of a connection as it was

    Whatever is not a queue of it, nor a mark. *)

Class Unqueued {A} (g : Conn -> A) : Prop := {
  uq_packets c l : g (with_packets c l) = g c;
  uq_messages c l : g (with_messages c l) = g c;
  uq_cancelled c : g (with_cancelled c) = g c;
  uq_entered c : g (with_entered c) = g c;
}.

#[export] Instance endpoint_id_unqueued : Unqueued endpoint_id.
Proof. done. Qed.
#[export] Instance circuits_unqueued : Unqueued circuits.
Proof. done. Qed.

Section Column.
Context {A : Type} (g : Conn -> A) `{UQ : !Unqueued g}.

Definition column (t : Table) : list A := g <$> conns t.

Lemma column_with_conn t n c x : conns t !! n = Some x -> g c = g x -> column (with_conn t n c) = column t.
Proof.
  intros Hn He. unfold column. cbn. rewrite list_fmap_insert. apply list_insert_id. by rewrite list_lookup_fmap, Hn, He.
Qed.

Lemma column_on_conn t n f : (forall c, g (f c) = g c) -> column (on_conn t n f) = column t.
Proof. intros Hf. unfold on_conn. destruct (conns t !! n) as [c|] eqn:E; [|done]. by eapply column_with_conn. Qed.

Lemma column_message t n m : column (try_send_message t n m) = column t.
Proof. apply column_on_conn. intros c. destruct (_ || _); [done|apply uq_messages]. Qed.

Lemma column_closed t n c : column (try_send_circuit_closed t n c) = column t.
Proof. apply column_message. Qed.

Lemma column_health t n s : column (try_send_health t n s) = column t.
Proof. unfold try_send_health. destruct (conns t !! n); [apply column_message|done]. Qed.

Lemma column_shut t n : column (start_shutdown t n) = column t.
Proof. apply column_on_conn, uq_cancelled. Qed.

Lemma column_foldl {B} (f : Table -> B -> Table) l t : (forall t a, column (f t a) = column t) -> column (foldl f t l) = column t.
Proof. intros Hf. revert t. induction l as [|a l IH]; intros t; [done|]. cbn. by rewrite IH. Qed.

Lemma column_send_packet t dst d from : column (send_packet t dst d from).2 = column t.
Proof.
  unfold send_packet. destruct (resolve t dst) as [[to c]|]; [|done]. destruct (clients t !! to) as [st|]; [|done].
  unfold try_send_packet. destruct (conns t !! active st) as [x|] eqn:E; [|by apply column_shut].
  destruct (is_gone x); [by apply column_shut|]. destruct (_ <? _)%nat; [|done].
  destruct (_ || _); apply (column_with_conn t (active st) _ x E), uq_packets.
Qed.

Lemma column_register t n : column (register t n) = column t.
Proof.
  unfold register. destruct (conns t !! n) as [c|] eqn:E; [|done].
  rewrite <- (column_with_conn t n (with_entered c) c E (uq_entered c)).
  destruct (clients (with_conn _ _ _) !! endpoint_id c) as [st|]; [|done]. apply (column_health (with_conn t n (with_entered c))).
Qed.

Lemma column_alias t alias primary : column (register_alias t alias primary).2 = column t.
Proof. unfold register_alias. by repeat case_match. Qed.

Lemma column_claim t key who c dest : column (claim_return_key t key who c dest).2 = column t.
Proof. unfold claim_return_key. by repeat case_match. Qed.

Lemma column_close t order : column (close_circuits t order) = column t.
Proof.
  apply column_foldl. intros u k. unfold close_circuit. destruct (returns u !! k); [|done]. cbn.
  destruct (clients u !! _); [|done]. etransitivity; [apply column_closed|done].
Qed.

Lemma column_remove t who n : column (remove_client t who n).1 = column t.
Proof.
  unfold remove_client. destruct (clients t !! who) as [st|]; [|done]. destruct (_ =? _)%nat; [|done].
  destruct (last _); [|done]. etransitivity; [apply column_health|done].
Qed.

Lemma column_tell_gone who t peers : column (foldl (tell_gone who) t peers) = column t.
Proof. apply column_foldl. intros u p. unfold tell_gone. destruct (clients u !! p); [|done]. apply column_message. Qed.

Lemma column_disconnect t who which : column (disconnect t who which).2 = column t.
Proof.
  unfold disconnect. destruct (clients t !! who); [|done]. destruct which as [n|].
  - case_bool_decide; [apply column_shut|done].
  - apply column_foldl, column_shut.
Qed.

Lemma column_shutdown t : column (shutdown t) = column t.
Proof. apply column_foldl. intros u k. etransitivity; [apply column_disconnect|done]. Qed.

Lemma column_lookup t t' n c :
  column t' = column t -> conns t !! n = Some c -> exists c', conns t' !! n = Some c' /\ g c' = g c.
Proof.
  intros He Hn. pose proof (f_equal (lookup n) He) as H. unfold column in H. rewrite !list_lookup_fmap, Hn in H.
  destruct (conns t' !! n) as [c'|]; [|done]. exists c'. split; [done|]. by injection H.
Qed.
End Column.

(** ** Names and bounds, kept by everything the table does *)

(** Who asked, of the tasks that ask, and what they have to report. *)
Definition asked_by (os : list Opener) (u : bytes) (k : nat) : Prop := exists o, os !! k = Some o /\ op_url o = u.

(** [P] is whom the relay may name, and [R] the relays it has reached. *)
Section Kept.
Variable P : EndpointId -> Prop.
Variable R : bytes -> Prop.

Definition may_say (m : RelayToClientMsg) : Prop := forall k, named m = Some k -> P k.
Definition may_send (p : Packet) : Prop := pkt_circuit p = None -> P (src p).
Definition may_open (e : CircuitEvent) : Prop := match e with Opened _ u _ => R u | Refused _ => True end.
Definition fwd_ok (f : Forward) : Prop :=
  P (fwd_return_key f) /\ match next f with Some (Open u _) => R u | _ => True end.

Record conn_ok (c : Conn) : Prop := {
  ck_packets : Forall may_send (packets c);
  ck_messages : Forall may_say (messages c);
  ck_wrote : Forall may_say (wrote c);
  ck_circuits k f : circuits c !! k = Some f -> fwd_ok f;
  ck_events : Forall may_open (events c);
  ck_peers : match phase c with Leaving _ peers => peers = ∅ \/ P (endpoint_id c) | _ => True end;
  ck_bounds : (size (circuits c) <= MAX_CIRCUITS_PER_CONNECTION)%nat /\
    (length (packets c) <= PER_CLIENT_SEND_QUEUE_DEPTH)%nat /\
    (length (messages c) <= PER_CLIENT_SEND_QUEUE_DEPTH)%nat /\
    (length (events c) <= MAX_CIRCUITS_PER_CONNECTION)%nat;
}.

Record table_ok (t : Table) : Prop := {
  tk_conns n c : conns t !! n = Some c -> conn_ok c;
  tk_sent k s : sent_to t !! k = Some s -> P k;
  tk_returns : Z.of_nat (size (returns t)) <= MAX_CIRCUITS_TOTAL;
}.

Lemma conn_ok_new who v : conn_ok (mkConn who v false Running false [] [] [] ∅ []).
Proof.
  split; cbn; [by apply Forall_nil_2..|done|by apply Forall_nil_2|done|]. unfold MAX_CIRCUITS_PER_CONNECTION, PER_CLIENT_SEND_QUEUE_DEPTH. rewrite map_size_empty. lia.
Qed.

Lemma ok_with_conn t n c : table_ok t -> conn_ok c -> table_ok (with_conn t n c).
Proof.
  intros [Hc Hs Hr] H. split; cbn; [|done..].
  intros m d [(<- & <- & _)|[_ Hm]]%list_lookup_insert_Some; [done|by eapply Hc].
Qed.

Lemma ok_on_conn t n f : table_ok t -> (forall c, conns t !! n = Some c -> conn_ok c -> conn_ok (f c)) -> table_ok (on_conn t n f).
Proof.
  intros Ht Hf. unfold on_conn. destruct (conns t !! n) as [c|] eqn:E; [|done].
  apply ok_with_conn; [done|]. apply Hf; [done|]. by eapply tk_conns.
Qed.

Lemma ok_same t t' :
  conns t' = conns t -> sent_to t' = sent_to t -> Z.of_nat (size (returns t')) <= MAX_CIRCUITS_TOTAL ->
  table_ok t -> table_ok t'.
Proof. intros Hc Hs Hr [H1 H2 _]. split; [by rewrite Hc|by rewrite Hs|done]. Qed.

Lemma size_filter_le (Q : EndpointId * Return -> Prop) `{forall x, Decision (Q x)} (m : gmap EndpointId Return) :
  (size (filter Q m) <= size m)%nat.
Proof. apply map_subseteq_size, map_filter_subseteq. Qed.

Lemma conn_ok_message c m :
  conn_ok c -> may_say m -> (length (messages c) < PER_CLIENT_SEND_QUEUE_DEPTH)%nat -> conn_ok (with_messages c (messages c ++ [m])).
Proof.
  intros [H1 H2 H3 H4 HE H5 (H6 & H7 & H8 & H9)] Hm Hl. split; cbn; try done.
  - apply Forall_app. by split; [|constructor].
  - rewrite length_app. cbn. by split_and!; [..|lia|].
Qed.

Lemma ok_message t n m : table_ok t -> may_say m -> table_ok (try_send_message t n m).
Proof.
  intros Ht Hm. apply ok_on_conn; [done|]. intros c _ Hc.
  destruct (is_gone c); [done|]. cbn [orb]. destruct (_ <? _)%nat eqn:E; [|done]. apply Nat.ltb_lt in E. by apply conn_ok_message.
Qed.

Lemma ok_health t n s : table_ok t -> table_ok (try_send_health t n s).
Proof.
  intros Ht. unfold try_send_health. destruct (conns t !! n); [|done]. apply ok_message; [done|].
  unfold health_message. by destruct (at_least _ _).
Qed.

Lemma ok_closed t n c : table_ok t -> table_ok (try_send_circuit_closed t n c).
Proof. intros Ht. by apply ok_message. Qed.

Lemma ok_packet t n p : table_ok t -> may_send p -> table_ok (try_send_packet t n p).2.
Proof.
  intros Ht Hp. unfold try_send_packet. destruct (conns t !! n) as [c|] eqn:E; [|done]. destruct (is_gone c); [done|].
  destruct (_ <? _)%nat eqn:El; [|done]. apply Nat.ltb_lt in El. apply ok_with_conn; [done|].
  destruct (tk_conns t Ht n c E) as [H1 H2 H3 H4 HE H5 (H6 & H7 & H8 & H9)]. split; cbn; try done.
  - apply Forall_app. by split; [|constructor].
  - rewrite length_app. cbn. by split_and!; [|lia|..].
Qed.

Lemma ok_shut t n : table_ok t -> table_ok (start_shutdown t n).
Proof. intros Ht. apply ok_on_conn; [done|]. by intros c _ []. Qed.

Lemma ok_send_packet t dst d from : table_ok t -> P from -> table_ok (send_packet t dst d from).2.
Proof.
  intros Ht Hp. unfold send_packet. destruct (resolve t dst) as [[to c]|]; [|done].
  destruct (clients t !! to) as [st|]; [|done].
  pose proof (ok_packet t (active st) (mkPacket from d c) Ht (fun _ => Hp)) as H.
  destruct (try_send_packet _ _ _) as [[| |] t']; cbn [snd] in *; [|done|by apply ok_shut].
  destruct (_ || _); [done|]. destruct H as [H1 H2 H3]. split; cbn; [done| |done].
  intros k s [[<- _]|[_ Hk]]%lookup_insert_Some; [done|by eapply H2].
Qed.

Lemma ok_clients t m : table_ok t -> table_ok (with_clients t m).
Proof. by intros []. Qed.

Lemma relay_ok_register t n : table_ok t -> table_ok (register t n).
Proof.
  intros Ht. unfold register. destruct (conns t !! n) as [c|] eqn:E; [|done].
  assert (table_ok (with_conn t n (with_entered c))) as H.
  { apply ok_with_conn; [done|]. by destruct (tk_conns t Ht n c E). }
  destruct (clients (with_conn _ _ _) !! endpoint_id c); [|by apply ok_clients]. apply ok_clients, ok_health, H.
Qed.

Lemma ok_alias t alias primary : table_ok t -> table_ok (register_alias t alias primary).2.
Proof. intros Ht. unfold register_alias. repeat case_match; by destruct Ht. Qed.

Lemma ok_claim t key who c dest : table_ok t -> table_ok (claim_return_key t key who c dest).2.
Proof.
  intros Ht. unfold claim_return_key. destruct (Z.leb_spec MAX_CIRCUITS_TOTAL (Z.of_nat (size (returns t)))); [done|].
  destruct (_ || _); [done|]. destruct (returns t !! key) eqn:E; [done|]. apply (ok_same t); [done..| |done].
  cbn. rewrite map_size_insert_None by done. lia.
Qed.

Lemma relay_ok_close t order : table_ok t -> table_ok (close_circuits t order).
Proof.
  revert t. induction order as [|k order IH]; intros t Ht; [done|]. apply IH. unfold close_circuit.
  destruct (returns t !! k) as [e|] eqn:E; [|done].
  assert (table_ok (with_returns t (delete k (returns t)))) as H.
  { apply (ok_same t); [done..| |done]. cbn [returns with_returns]. rewrite map_size_delete, E. pose proof (tk_returns t Ht). lia. }
  cbn [clients with_returns]. destruct (clients t !! owner e); [|done]. by apply ok_closed.
Qed.

Lemma ok_remove t who n :
  table_ok t -> table_ok (remove_client t who n).1 /\ ((remove_client t who n).2 = ∅ \/ P who).
Proof.
  intros Ht. unfold remove_client. destruct (clients t !! who) as [st|]; [|by split; [|left]].
  destruct (active st =? n)%nat; [|by split; [apply ok_clients|left]].
  destruct (last (inactive st)); [by split; [apply ok_health, ok_clients|left]|]. cbn. split.
  - apply ok_clients. destruct Ht as [H1 H2 H3]. split; cbn; [done| |done]. intros k s [_ Hk]%lookup_delete_Some. by eapply H2.
  - destruct (sent_to t !! who) as [s|] eqn:E; [right|by left]. by eapply tk_sent.
Qed.

Lemma ok_tell_gone who peers t : (peers = [] \/ P who) -> table_ok t -> table_ok (foldl (tell_gone who) t peers).
Proof.
  revert t. induction peers as [|p peers IH]; intros t Hw Ht; [done|]. destruct Hw as [?|Hw]; [done|].
  apply IH; [by right|]. unfold tell_gone. destruct (clients t !! p); [|done]. apply ok_message; [done|]. intros k [= <-]. done.
Qed.

Lemma ok_shut_all t l : table_ok t -> table_ok (foldl start_shutdown t l).
Proof. revert t. induction l as [|n l IH]; intros t Ht; [done|]. by apply IH, ok_shut. Qed.

Lemma ok_disconnect t who which : table_ok t -> table_ok (disconnect t who which).2.
Proof.
  intros Ht. unfold disconnect. destruct (clients t !! who); [|done]. destruct which as [n|].
  - case_bool_decide; [by apply ok_shut|done].
  - by apply ok_shut_all.
Qed.

Lemma ok_shutdown t : table_ok t -> table_ok (shutdown t).
Proof.
  unfold shutdown. generalize (elements (dom (clients t))) as l. intros l. revert t.
  induction l as [|k l IH]; intros t Ht; [done|]. by apply IH, ok_clients, ok_disconnect.
Qed.

Lemma conn_ok_leave c p : conn_ok c -> match p with Leaving _ s => s = ∅ \/ P (endpoint_id c) | _ => True end -> conn_ok (with_phase c p).
Proof. by intros [H1 H2 H3 H4 HE H5 H6] Hp. Qed.

Lemma conn_ok_gone c : conn_ok c -> conn_ok (gone c).
Proof.
  intros [H1 H2 H3 H4 HE H5 H6]. split; cbn; try done.
  unfold MAX_CIRCUITS_PER_CONNECTION, PER_CLIENT_SEND_QUEUE_DEPTH. rewrite map_size_empty. lia.
Qed.

Lemma ok_leaves t n order t' : table_ok t -> leaves t n order = Some t' -> table_ok t'.
Proof.
  intros Ht. unfold leaves. destruct (conns t !! n) as [x|] eqn:E; [|done]. cbn.
  assert (forall t k, table_ok t -> table_ok (on_conn t n (fun x => with_phase x (Leaving k ∅)))) as Hgo.
  { intros u k Hu. apply ok_on_conn; [done|]. intros c _ Hc. apply conn_ok_leave; [done|by left]. }
  destruct (phase x) as [|[|[|[|[|k]]]] peers|] eqn:Ep; [done|..|done].
  - intros [= <-]. apply Hgo. apply (ok_same t); [done..|apply Ht|done].
  - intros [= <-]. apply Hgo. apply (ok_same t); [done..| |done]. cbn. pose proof (tk_returns t Ht).
    etransitivity; [apply inj_le, size_filter_le|done].
  - destruct (decide _); [|done]. intros [= <-]. by apply Hgo, relay_ok_close.
  - destruct (ok_remove t (endpoint_id x) n Ht) as [H1 H2]. pose proof (column_remove endpoint_id t (endpoint_id x) n) as He.
    destruct (remove_client _ _ _) as [u s] eqn:Er. cbn [fst snd] in *. intros [= <-]. apply ok_on_conn; [done|].
    intros c Hc Hok. apply conn_ok_leave; [done|]. destruct H2 as [->|H2]; [by left|right].
    destruct (column_lookup endpoint_id t u n x He E) as (c' & Hc' & Hx). rewrite Hc in Hc'. injection Hc' as <-. by rewrite Hx.
  - intros [= <-]. pose proof (ck_peers x (tk_conns t Ht n x E)) as Hp. rewrite Ep in Hp.
    apply ok_on_conn; [|by intros c _ Hc; apply conn_ok_gone]. apply ok_tell_gone; [|done].
    destruct Hp as [->|Hp]; [left; apply elements_empty|by right].
Qed.

(** ** The same of a whole step *)

Context `{BL : Blake3, ED : Ed25519}.
Context (opener : option (Z -> bytes -> option CircuitHop)) (dialer : bool).

Definition request_ok (os : list Opener) (u : bytes) (r : Request) : Prop :=
  match r with AskOpen _ _ k _ _ => asked_by os u k | Carry _ _ => True end.

Record link_ok (os : list Opener) (l : Link) : Prop := {
  lk_bound : (length (requests l) <= LINK_QUEUE)%nat;
  lk_requests : Forall (request_ok os (url l)) (requests l);
  lk_opening c k : opening l !! c = Some k -> asked_by os (url l) k;
}.

Definition report_ok (o : Opener) : Prop := match op_at o with Reporting e => may_open e | _ => True end.

Record relay_ok (y : Relay) : Prop := {
  rk_table : table_ok (table y);
  rk_links i l : link_tasks y !! i = Some l -> link_ok (openers y) l;
  rk_openers k o : openers y !! k = Some o -> report_ok o;
}.

(** Only who speaks to somebody by name, and a return key that a descriptor holds; and
    only a link that carries answers. *)
Definition event_ok (y : Relay) (e : Event) : Prop :=
  match e with
  | FrameCame n now f _ =>
      match f with
      | CDatagrams _ _ => forall x, conns (table y) !! n = Some x -> P (endpoint_id x)
      | COpenCircuit _ sealed _ => forall open hop, opener = Some open -> open now sealed = Some hop -> P (return_key hop)
      | _ => True
      end
  | LinkHears i _ => forall l, link_tasks y !! i = Some l -> link_phase l = Carrying -> R (url l)
  | _ => True
  end.

Lemma ok_with_table y t : relay_ok y -> table_ok t -> relay_ok (with_table y t).
Proof. by intros [_ H2] H1. Qed.

Lemma ok_with_link y i l : relay_ok y -> link_ok (openers y) l -> relay_ok (with_link y i l).
Proof.
  intros [H1 H2 H3] Hl. split; [done| |done]. cbn. intros j k [(<- & <- & _)|[_ Hk]]%list_lookup_insert_Some; [done|by eapply H2].
Qed.

(** A link that holds and was asked no more than before. *)
Lemma ok_link y i l f :
  relay_ok y -> link_tasks y !! i = Some l -> url f = url l -> requests f `sublist_of` requests l ->
  opening f ⊆ opening l -> relay_ok (with_link y i f).
Proof.
  intros Hy Hl Hu Hr Ho. apply ok_with_link; [done|]. destruct (rk_links y Hy i l Hl) as [H1 H2 H3]. split.
  - apply sublist_length in Hr. lia.
  - rewrite Hu. rewrite Forall_forall in *. intros r Hin. apply H2. by eapply elem_of_sublist.
  - rewrite Hu. intros c k Hk. eapply H3. by eapply lookup_weaken.
Qed.

(** The tasks that ask, one of them further on. *)
Definition same_urls (os os' : list Opener) : Prop := forall k o, os !! k = Some o -> asked_by os' (op_url o) k.

Lemma asked_same os os' u k : same_urls os os' -> asked_by os u k -> asked_by os' u k.
Proof. intros Hs (o & Ho & <-). by apply Hs. Qed.

Lemma link_ok_same os os' l : same_urls os os' -> link_ok os l -> link_ok os' l.
Proof.
  intros Hs [H1 H2 H3]. split; [done| |].
  - eapply Forall_impl; [exact H2|]. intros [c s k b oc|c d]; [|done]. by apply asked_same.
  - intros c k Hk. eapply asked_same; [exact Hs|by eapply H3].
Qed.

Lemma same_urls_insert os k o o' : os !! k = Some o -> op_url o' = op_url o -> same_urls os (<[k := o']> os).
Proof.
  intros Hk Hu j p Hp. destruct (decide (j = k)) as [->|Hne].
  - exists o'. rewrite list_lookup_insert_eq by (by eapply lookup_lt_Some). split; [done|]. rewrite Hk in Hp. by injection Hp as <-.
  - exists p. by rewrite list_lookup_insert_ne.
Qed.

Lemma same_urls_app os o : same_urls os (os ++ [o]).
Proof. intros k p Hp. exists p. split; [|done]. by apply lookup_app_l_Some. Qed.

Lemma ok_openers y t ls os ks :
  relay_ok y -> t = table y -> same_urls (openers y) os -> (forall k o, os !! k = Some o -> report_ok o) ->
  relay_ok (mkRelay t ls (link_tasks y) os ks).
Proof.
  intros [H1 H2 H3] -> Hs Hr. split; [done| |done]. cbn. intros i l Hl. eapply link_ok_same; [exact Hs|by eapply H2].
Qed.

Lemma ok_others y t l ls os ks :
  relay_ok y -> t = table y -> l = link_tasks y -> os = openers y -> relay_ok (mkRelay t ls l os ks).
Proof. by intros [] -> -> ->. Qed.

Lemma ok_with_opener y k o o' :
  relay_ok y -> openers y !! k = Some o -> op_url o' = op_url o -> report_ok o' -> relay_ok (with_opener y k o').
Proof.
  intros Hy Hk Hu Hr. apply ok_openers; [done..|by eapply same_urls_insert|].
  intros j p [(<- & <- & _)|[_ Hp]]%list_lookup_insert_Some; [done|by eapply (rk_openers y)].
Qed.

Lemma link_ok_ask os l r :
  link_ok os l -> (length (requests l) < LINK_QUEUE)%nat -> request_ok os (url l) r -> link_ok os (link_asked l (requests l ++ [r])).
Proof.
  intros [H1 H2 H3] Hl Hr. split; cbn; [rewrite length_app; cbn; lia| |done]. apply Forall_app. by split; [|constructor].
Qed.

Lemma ok_carry y u far d : relay_ok y -> relay_ok (carry y u far d).
Proof.
  intros Hy. unfold carry. destruct (links y !! u) as [i|]; [|done]. destruct (link_tasks y !! i) as [l|] eqn:E; [|done].
  destruct (link_phase l); try done; (destruct (_ <? _)%nat eqn:El; [|done]; apply Nat.ltb_lt in El;
    apply ok_with_link; [done|]; apply link_ok_ask; [by eapply (rk_links y)|done|done]).
Qed.

Lemma conn_ok_circuits c m :
  conn_ok c -> (size m <= MAX_CIRCUITS_PER_CONNECTION)%nat -> (forall k f, m !! k = Some f -> fwd_ok f) ->
  conn_ok (with_circuits c m).
Proof. intros [H1 H2 H3 H4 HE H5 H6] Hs Hm. split; cbn; try done. by destruct H6 as [_ H6]. Qed.

Lemma conn_ok_write ok m c : conn_ok c -> may_say m -> conn_ok (write_frame ok m c).
Proof.
  intros Hc Hm. unfold write_frame. destruct (ok && start_send m); [|apply conn_ok_leave; [done|by left]].
  destruct Hc. split; cbn; try done. apply Forall_app. by split; [|constructor].
Qed.

Lemma ok_write y n ok m : relay_ok y -> (forall f, m = Some f -> may_say f) -> relay_ok (write y n ok m).
Proof.
  intros Hy Hm. destruct m as [m|]; [|done]. apply ok_with_table; [done|]. apply ok_on_conn; [apply Hy|].
  intros c _ Hc. apply conn_ok_write; [done|]. by apply Hm.
Qed.

Lemma ok_insert_circuit y n c f x :
  relay_ok y -> conns (table y) !! n = Some x -> (size (circuits x) < MAX_CIRCUITS_PER_CONNECTION)%nat ->
  fwd_ok f -> relay_ok (insert_circuit y n c f).
Proof.
  intros Hy Hn Hs Hf. apply ok_with_table; [done|]. apply ok_on_conn; [apply Hy|]. intros c' Hc' Hok.
  rewrite Hn in Hc'. injection Hc' as <-. apply conn_ok_circuits; [done|..].
  - rewrite map_size_insert. destruct (circuits x !! c); unfold id; lia.
  - intros k g [[_ <-]|[_ Hk]]%lookup_insert_Some; [done|by eapply ck_circuits].
Qed.

Lemma refused_says c f : refused c = Some f -> may_say f.
Proof. by intros [= <-]. Qed.

Lemma ok_open_circuit y n x now c sealed inner :
  relay_ok y -> conns (table y) !! n = Some x ->
  (forall open hop, opener = Some open -> open now sealed = Some hop -> P (return_key hop)) ->
  let r := handle_frame_open_circuit opener dialer y n x now c sealed inner in
  relay_ok r.1 /\ forall f, r.2 = Some f -> may_say f.
Proof.
  intros Hy Hn Ho. unfold handle_frame_open_circuit. pose proof (refused_says c) as Href.
  case_bool_decide; [done|]. destruct opener as [open|]; [|done].
  destruct (_ <=? _)%nat eqn:Es; [done|]. apply Nat.leb_gt in Es.
  destruct (open now sealed) as [hop|] eqn:Eo; [|done]. pose proof (Ho open hop eq_refl Eo) as Hk.
  destruct (chain_to dialer hop inner) as [[u|]|]; [| |done]; cbn [fst snd].
  - split; [|done]. pose proof (ok_insert_circuit y n c (mkForward (destination hop) (return_key hop) (Some Opening)) x Hy Hn Es
      ltac:(by split)) as Hi.
    apply (ok_openers (insert_circuit y n c _)); [done..|apply same_urls_app|].
    intros k o [Ho'|[_ Ho']]%lookup_app_Some; [by eapply (rk_openers _ Hi)|]. by apply list_lookup_singleton_Some in Ho' as [_ <-].
  - pose proof (ok_claim (table y) (return_key hop) (endpoint_id x) c (destination hop) (rk_table y Hy)) as Hc.
    unfold claim_return_key in *. repeat case_match; try done; cbn [fst snd] in *; simplify_eq.
    split; [|by intros f [= <-]]. apply (ok_insert_circuit _ n c _ x); [by apply ok_with_table|done|done|by split].
Qed.

Lemma ok_handle_frame y n x now f y' m ok :
  relay_ok y -> conns (table y) !! n = Some x -> event_ok y (FrameCame n now f ok) ->
  handle_frame opener dialer y n x now f = Some (y', m) -> relay_ok y' /\ forall g, m = Some g -> may_say g.
Proof.
  intros Hy Hn He. unfold handle_frame. destruct (_ && _); [done|]. cbn [event_ok] in He.
  destruct f as [d|d|dst d|c sealed inner|u|c d|alias sig]; intros Heq; injection Heq; clear Heq.
  - intros <- <-. split; [done|]. by intros g [= <-].
  - by intros <- <-.
  - intros <- <-. split; [|done]. apply ok_with_table; [done|]. apply ok_send_packet; [apply Hy|by apply He].
  - intros Heq. pose proof (ok_open_circuit y n x now c sealed inner Hy Hn He) as H. by rewrite Heq in H.
  - intros <- <-. split; [by apply (ok_others y)|done].
  - unfold handle_frame_circuit_datagrams. destruct (circuits x !! c) as [fw|] eqn:Ec.
    + destruct (next fw) as [[|u far]|]; intros [= <- <-]; (split; [|done]); [done|by apply ok_carry|].
      apply ok_with_table; [done|]. apply ok_send_packet; [apply Hy|]. by apply (ck_circuits x (tk_conns (table y) (rk_table y Hy) n x Hn) c).
    + intros [= <- <-]. split; [done|]. apply refused_says.
  - intros <- <-. split; [|done]. apply ok_with_table; [done|]. unfold handle_bind_alias.
    destruct (verify_strict _ _ _); [apply ok_alias|]; apply Hy.
Qed.

Lemma ok_frame_came y n x now f ok :
  relay_ok y -> conns (table y) !! n = Some x -> event_ok y (FrameCame n now f ok) ->
  relay_ok (frame_came opener dialer y n x now f ok).
Proof.
  intros Hy Hn He. unfold frame_came. destruct (handle_frame _ _ _ _ _ _ _) as [[y' m]|] eqn:E.
  - destruct (ok_handle_frame _ _ _ _ _ _ _ ok Hy Hn He E) as [H1 H2]. by apply ok_write.
  - apply ok_with_table; [done|]. apply ok_on_conn; [apply Hy|]. intros c _ Hc. apply conn_ok_leave; [done|by left].
Qed.

Lemma ok_packet_goes x ok x' : conn_ok x -> packet_goes x ok = Some x' -> conn_ok x'.
Proof.
  intros Hx. unfold packet_goes. destruct (packets x) as [|p rest] eqn:E; [done|]. intros [= <-].
  destruct Hx as [H1 H2 H3 H4 HE H5 (H6 & H7 & H8 & H9)]. rewrite E in *. inversion H1; subst. apply conn_ok_write.
  - split; cbn; try done. cbn in H7. split_and!; [done|lia|done..].
  - unfold packet_frame. destruct (pkt_circuit p) eqn:Ep; [done|]. intros k [= <-]. auto.
Qed.

Lemma ok_event_goes x ok x' : conn_ok x -> event_goes x ok = Some x' -> conn_ok x'.
Proof.
  intros Hx. unfold event_goes. destruct (packets x) as [|] eqn:Ep; [|done]. destruct (events x) as [|e rest] eqn:E; [done|].
  pose proof (ck_events x Hx) as Hev. rewrite E in Hev. inversion Hev as [|? ? He Hrest]; subst.
  assert (conn_ok (with_events x rest)) as Hw.
  { destruct Hx as [H1 H2 H3 H4 HE H5 (H6 & H7 & H8 & H9)]. split; cbn; try done. rewrite E in H9. cbn in H9. by split_and!; [..|lia]. }
  destruct e as [c u far|c]; cbn [circuit_event].
  - cbn [circuits with_events]. destruct (circuits x !! c) as [f|] eqn:Ef; [|by intros [= <-]]. intros [= <-].
    apply conn_ok_write; [|done]. apply conn_ok_circuits; [done|..].
    + rewrite map_size_insert, Ef. by destruct Hx as [_ _ _ _ _ _ [? _]].
    + intros k g [[_ <-]|[_ Hk]]%lookup_insert_Some; [|exact (ck_circuits x Hx k g Hk)].
      split; [apply (ck_circuits x Hx c f Ef)|exact He].
  - intros [= <-]. apply conn_ok_write; [|done]. apply conn_ok_circuits; [done|..]; cbn [circuits with_events].
    + rewrite map_size_delete. destruct Hx as [_ _ _ _ _ _ [? _]]. unfold id. destruct (circuits x !! c); lia.
    + intros k g [_ Hk]%lookup_delete_Some. by eapply ck_circuits.
Qed.

Lemma ok_forget_closed m x : conn_ok x -> conn_ok (forget_closed m x).
Proof.
  intros Hx. destruct m; try done. apply conn_ok_circuits; [done|..].
  - rewrite map_size_delete. destruct Hx as [_ _ _ _ _ _ [? _]]. unfold id. destruct (circuits x !! _); lia.
  - intros k g [_ Hk]%lookup_delete_Some. by eapply ck_circuits.
Qed.

Lemma ok_message_goes x ok x' : conn_ok x -> message_goes x ok = Some x' -> conn_ok x'.
Proof.
  intros Hx. unfold message_goes. destruct (packets x); [|done]. destruct (events x); [|done].
  destruct (messages x) as [|m rest] eqn:E; [done|]. intros [= <-].
  destruct Hx as [H1 H2 H3 H4 HE H5 (H6 & H7 & H8 & H9)]. rewrite E in *. inversion H2; subst.
  apply conn_ok_write; [|done]. apply ok_forget_closed. split; cbn; try done. cbn in H8. by split_and!; [..|lia|].
Qed.

Lemma ok_turn y n f y' :
  relay_ok y -> (forall x x', conn_ok x -> f x = Some x' -> conn_ok x') -> turn y n f = Some y' -> relay_ok y'.
Proof.
  intros Hy Hf. unfold turn. destruct (conns (table y) !! n) as [x|] eqn:E; [|done]. cbn. destruct (at_loop x); [|done].
  destruct (f x) as [x'|] eqn:Ef; [|done]. intros [= <-]. apply ok_with_table; [done|]. apply ok_with_conn; [apply Hy|].
  eapply Hf, Ef. by eapply tk_conns, E; apply Hy.
Qed.

Lemma answer_lookup os k b j o :
  answer os k b !! j = Some o ->
  os !! j = Some o \/ exists p i far, j = k /\ os !! k = Some p /\ op_at p = Waiting i far /\
    o = op_with p (Reporting (if b then Opened (op_circuit p) (op_url p) far else Refused (op_circuit p))).
Proof.
  unfold answer. destruct (os !! k) as [p|] eqn:E; [|by left]. destruct (op_at p) eqn:Ep; try by left.
  intros [(<- & <- & _)|[_ Hj]]%list_lookup_insert_Some; [|by left]. right. by exists p, link, far.
Qed.

Lemma same_urls_answer os k b : same_urls os (answer os k b).
Proof.
  unfold answer. destruct (os !! k) as [p|] eqn:E; [|by intros j o Hj; exists o].
  destruct (op_at p); try (by intros j o Hj; exists o). by eapply same_urls_insert.
Qed.

Lemma ok_answer_to y k b u :
  relay_ok y -> (b = true -> asked_by (openers y) u k /\ R u) -> relay_ok (answer_to y k b).
Proof.
  intros Hy Hb. apply ok_openers; [done..|apply same_urls_answer|].
  intros j o [Ho|(p & i & far & -> & Hp & _ & ->)]%answer_lookup; [by eapply (rk_openers y)|].
  destruct b; [|done]. destruct (Hb eq_refl) as [(q & Hq & <-) HR]. rewrite Hp in Hq. by injection Hq as <-.
Qed.

Lemma ok_refuse y k : relay_ok y -> relay_ok (answer_to y k false).
Proof. intros Hy. by apply (ok_answer_to y k false []). Qed.

Lemma ok_refuse_request y r : relay_ok y -> relay_ok (refuse_request y r).
Proof. intros Hy. destruct r; [by apply ok_refuse|done]. Qed.

Lemma ok_foldl {A} (f : Relay -> A -> Relay) l y : (forall y a, relay_ok y -> relay_ok (f y a)) -> relay_ok y -> relay_ok (foldl f y l).
Proof. intros Hf. revert y. induction l as [|a l IH]; intros y Hy; [done|]. by apply IH, Hf. Qed.

Lemma ok_tell_closed y e : relay_ok y -> relay_ok (tell_closed y e).
Proof. intros Hy. destruct e as [[n c]|]; [|done]. by apply ok_with_table, ok_closed, Hy. Qed.

Lemma ok_end_link y i l order y' : relay_ok y -> end_link y i l order = Some y' -> relay_ok y'.
Proof.
  intros Hy. unfold end_link. destruct (decide _); [|done]. intros [= <-].
  apply ok_foldl; [apply ok_refuse_request|]. apply ok_foldl; [intros; by apply ok_tell_closed|].
  apply ok_foldl; [intros; by apply ok_refuse|]. apply ok_with_link; [done|].
  split; cbn; [lia|by apply Forall_nil_2|by intros c k].
Qed.

Lemma ok_link_to y u : relay_ok y -> relay_ok (link_to y u).2.
Proof.
  intros Hy. unfold link_to.
  assert (relay_ok (mkRelay (table y) (<[u := length (link_tasks y)]> (links y))
    (link_tasks y ++ [mkLink u Dialling [] ∅ ∅ []]) (openers y) (key_asks y))) as Hf.
  { destruct Hy as [H1 H2 H3]. split; [done| |done]. cbn. intros i l [Hl|[_ Hl]]%lookup_app_Some; [by eapply H2|].
    apply list_lookup_singleton_Some in Hl as [_ <-]. split; cbn; [lia|by apply Forall_nil_2|by intros c k]. }
  destruct (links y !! u) as [i|]; [|done]. destruct (link_tasks y !! i) as [l|]; [|done]. by destruct (link_phase l).
Qed.

Lemma link_to_others y u :
  table (link_to y u).2 = table y /\ openers (link_to y u).2 = openers y.
Proof. unfold link_to. by repeat case_match. Qed.

Lemma ok_sends y k o i far y' :
  relay_ok y -> openers y !! k = Some o -> (forall l, link_tasks y !! i = Some l -> url l = op_url o) ->
  sends y k o i far = Some y' -> relay_ok y'.
Proof.
  intros Hy Hk Hu. unfold sends. destruct (link_tasks y !! i) as [l|] eqn:El; [|done]. cbn [mbind option_bind].
  destruct (link_phase l);
    try (intros [= <-]; apply (ok_with_opener (with_links y _) k o); [by apply (ok_others y)|done..]);
    (destruct (_ <? _)%nat eqn:Es; [|done]; apply Nat.ltb_lt in Es; intros [= <-];
     apply (ok_with_opener (with_link y i _) k o); [|done..]; apply ok_with_link; [done|];
     apply link_ok_ask; [by eapply (rk_links y)|done|]; exists o; split; [done|]; symmetry; by apply Hu).
Qed.

Lemma ok_reports y k o e y' :
  relay_ok y -> openers y !! k = Some o -> op_at o = Reporting e -> reports y k o e = Some y' -> relay_ok y'.
Proof.
  intros Hy Hk He. unfold reports. destruct (conns (table y) !! op_conn o) as [x|] eqn:Ex; [|done].
  cbn [mbind option_bind]. destruct (is_gone x).
  { intros [= <-]. by apply (ok_with_opener y k o). }
  destruct (_ <? _)%nat eqn:Es; [|done]. apply Nat.ltb_lt in Es. intros [= <-].
  apply (ok_with_opener (with_table y _) k o); [|done..]. apply ok_with_table; [done|].
  apply ok_with_conn; [apply Hy|]. destruct (tk_conns _ (rk_table y Hy) _ _ Ex) as [H1 H2 H3 H4 HE H5 (H6 & H7 & H8 & H9)].
  split; cbn; try done; [|rewrite length_app; cbn; by split_and!; [..|lia]].
  apply Forall_app. split; [done|]. constructor; [|done]. pose proof (rk_openers y Hy k o Hk) as Hr. unfold report_ok in Hr. by rewrite He in Hr.
Qed.

(** The link a task was given is a link to where it goes. *)
Definition sends_where_it_goes (y : Relay) : Prop :=
  forall k o i far l, openers y !! k = Some o -> op_at o = ToSend i far -> link_tasks y !! i = Some l -> url l = op_url o.

Lemma ok_opener_turn y k far y' :
  relay_ok y -> sends_where_it_goes y -> opener_turn dialer y k far = Some y' -> relay_ok y'.
Proof.
  intros Hy Hs. unfold opener_turn. destruct (openers y !! k) as [o|] eqn:Ek; [|done]. cbn [mbind option_bind].
  destruct (op_at o) as [|i f|i f|e|] eqn:Eo; try done.
  - intros [= <-]. unfold asks. destruct dialer; [|by apply (ok_with_opener y k o)]. pose proof (ok_link_to y (op_url o) Hy) as H.
    destruct (link_to_others y (op_url o)) as [_ Ho]. destruct (link_to y (op_url o)) as [i y']. cbn [snd] in *.
    apply (ok_with_opener y' k o); [done|by rewrite Ho|done..].
  - apply ok_sends; [done|done|]. intros l Hl. by eapply Hs.
  - by apply ok_reports.
Qed.

Lemma ok_key_comes y k fetched y' : relay_ok y -> key_comes dialer y k fetched = Some y' -> relay_ok y'.
Proof.
  intros Hy. unfold key_comes. destruct (key_asks y !! k) as [a|]; [|done]. cbn [mbind option_bind]. destruct (answered a); [done|].
  destruct (conns (table y) !! ask_conn a) as [x|] eqn:Ex; [|done]. cbn [mbind option_bind]. destruct (is_gone x).
  { intros [= <-]. by apply (ok_others y). }
  destruct (_ <? _)%nat eqn:Es; [|done]. apply Nat.ltb_lt in Es. intros [= <-]. apply ok_with_table; [by apply (ok_others y)|].
  apply ok_with_conn; [apply Hy|]. apply conn_ok_message; [by eapply tk_conns, Ex; apply Hy|done|done].
Qed.

Lemma ok_link_turn y i ok order y' : relay_ok y -> link_turn y i ok order = Some y' -> relay_ok y'.
Proof.
  intros Hy. unfold link_turn. destruct (link_tasks y !! i) as [l|] eqn:El; [|done]. cbn.
  destruct (link_phase l); try done; destruct (requests l) as [|r rest] eqn:Er; try done.
  - intros [= <-]. apply ok_refuse_request, (ok_link y i l); [done..| |done]. rewrite Er. cbn. by constructor.
  - pose proof (rk_links y Hy i l El) as [H1 H2 H3]. rewrite Er in H1, H2. inversion H2 as [|? ? Hr Hrest]; subst.
    unfold link_takes_request. destruct r as [c sealed k back oc|c d]; destruct (ok && _).
    + intros [= <-]. apply ok_with_link; [destruct (opening _ !! c); [by apply ok_refuse|done]|].
      assert (link_ok (openers y) (link_said (link_holding (link_asked l rest) (<[c:=(back, oc)]> (held l)) (<[c:=k]> (opening l)))
        (COpenCircuit c sealed []))) as Hl.
      { split; cbn; [cbn in H1; lia|done|]. intros c' k' [[_ <-]|[_ Hk]]%lookup_insert_Some; [done|by eapply H3]. }
      cbn [opening link_asked]. destruct (opening l !! c); [|done]. cbn [openers answer_to]. eapply link_ok_same; [apply same_urls_answer|done].
    + apply ok_end_link. by apply ok_refuse.
    + intros [= <-]. apply (ok_link y i l); [done..| |done]. rewrite Er. cbn. by constructor.
    + by apply ok_end_link.
Qed.

Lemma ok_link_hears y i m y' :
  relay_ok y -> (forall l, link_tasks y !! i = Some l -> link_phase l = Carrying -> R (url l)) ->
  link_hears y i m = Some y' -> relay_ok y'.
Proof.
  intros Hy He. unfold link_hears. destruct (link_tasks y !! i) as [l|] eqn:El; [|done]. cbn.
  destruct (link_phase l) eqn:Ep; try done. intros [= <-]. destruct m as [| |c reason| |c d| | | | | |]; try done.
  - destruct (opening l !! circuit) as [k|] eqn:Ek; [|done]. apply (ok_answer_to _ k true (url l)).
    + apply (ok_link y i l); [done..| |]; cbn; [done|apply delete_subseteq].
    + intros _. split; [by eapply (lk_opening _ _ (rk_links y Hy i l El))|by apply He].
  - apply ok_tell_closed. assert (relay_ok (with_link y i (link_holding l (delete c (held l)) (delete c (opening l))))).
    { apply (ok_link y i l); [done..| |]; cbn; [done|apply delete_subseteq]. }
    destruct (opening l !! c); [by apply ok_refuse|done].
  - destruct (held l !! c) as [[back oc]|]; [|done]. apply ok_with_table; [done|]. apply ok_message; [apply Hy|done].
Qed.

Lemma ok_link_ends y i order y' : relay_ok y -> link_ends y i order = Some y' -> relay_ok y'.
Proof.
  intros Hy. unfold link_ends. destruct (link_tasks y !! i) as [l|] eqn:El; [|done]. cbn.
  destruct (link_phase l); try done; destruct (requests l) as [|r rest] eqn:Er; try done; try by apply ok_end_link.
  destruct (has_senders y i); [done|]. intros [= <-]. by apply (ok_link y i l).
Qed.

Lemma relay_ok_step y e y' : relay_ok y -> tied y -> event_ok y e -> step opener dialer y e = Some y' -> relay_ok y'.
Proof.
  intros Hy Ht He. destruct e as [who v|n|n now f ok|n ok|n ok|n ok|n d ok|n|n order|who which| |k far|k fetched|i ok|i ok order|i m|i order];
    cbn [step].
  - intros [= <-]. apply ok_with_table; [done|]. destruct (rk_table y Hy) as [H1 H2 H3]. split; cbn; [|done..].
    intros n c [Hc|[_ Hc]]%lookup_app_Some; [by eapply H1|]. apply list_lookup_singleton_Some in Hc as [_ <-]. apply conn_ok_new.
  - destruct (conns (table y) !! n) as [x|]; [|done]. cbn. destruct (entered x); [done|]. intros [= <-].
    by apply ok_with_table, relay_ok_register, Hy.
  - destruct (conns (table y) !! n) as [x|] eqn:E; [|done]. cbn. destruct (at_loop x); [|done]. intros [= <-]. by apply ok_frame_came.
  - apply ok_turn; [done|]. intros x x' Hx. by apply ok_packet_goes.
  - apply ok_turn; [done|]. intros x x' Hx. by apply ok_event_goes.
  - apply ok_turn; [done|]. intros x x' Hx. by apply ok_message_goes.
  - apply ok_turn; [done|]. intros x x' Hx [= <-]. by apply conn_ok_write.
  - destruct (conns (table y) !! n) as [x|] eqn:E; [|done]. cbn. destruct (phase x); try done. intros [= <-].
    apply ok_with_table; [done|]. apply ok_with_conn; [apply Hy|]. apply conn_ok_leave; [by eapply tk_conns, E; apply Hy|by left].
  - destruct (leaves (table y) n order) as [t|] eqn:E; [|done]. intros [= <-]. apply ok_with_table; [done|]. by eapply ok_leaves, E; apply Hy.
  - intros [= <-]. by apply ok_with_table, ok_disconnect, Hy.
  - intros [= <-]. by apply ok_with_table, ok_shutdown, Hy.
  - apply ok_opener_turn; [done|]. intros k' o i f l Ho Hat Hl. destruct (td_sends y Ht k' o i f Ho Hat) as (m & Hm & <-).
    rewrite Hl in Hm. by injection Hm as <-.
  - by apply ok_key_comes.
  - unfold dialled. destruct (link_tasks y !! i) as [l|] eqn:El; [|done]. cbn. destruct (link_phase l); try done. intros [= <-].
    by apply (ok_link y i l).
  - by apply ok_link_turn.
  - by apply ok_link_hears.
  - by apply ok_link_ends.
Qed.

Lemma relay_ok_started : relay_ok started.
Proof. split; [split| |]; cbn; [done|intros k s Hk; by rewrite lookup_empty in Hk| |done|done]. rewrite map_size_empty. done. Qed.
End Kept.

(** ** Every run *)

Section Runs.
Context `{BL : Blake3, ED : Ed25519}.
Context (opener : option (Z -> bytes -> option CircuitHop)) (dialer : bool).

Abbreviation step := (Circuits.step opener dialer).
Abbreviation run := (Circuits.run opener dialer).

Lemma relay_run_app y es es' : run y (es ++ es') = y' ← run y es; run y' es'.
Proof.
  revert y. induction es as [|e es IH]; intros y; [done|]. cbn. destruct (step y e) as [y1|]; [|done]. cbn. apply IH.
Qed.

Lemma relay_ok_run P R es y y' :
  relay_ok P R y -> tied y ->
  (forall before e after y0, es = before ++ e :: after -> run y before = Some y0 -> event_ok P R opener y0 e) ->
  run y es = Some y' -> relay_ok P R y'.
Proof.
  revert y. induction es as [|e es IH]; intros y Hy Ht He; cbn; [by intros [= <-]|].
  destruct (step y e) as [y1|] eqn:E; [|done]. cbn. apply IH.
  - eapply relay_ok_step; [exact Hy|exact Ht|by apply (He [] e es y)|exact E].
  - by eapply tied_step.
  - intros before e' after y0 -> Hr. apply (He (e :: before) e' after y0); [done|]. cbn. by rewrite E.
Qed.

(** [who] sent a datagram to somebody by name. *)
Definition spoke_by_name (es : list Event) (who : EndpointId) : Prop :=
  exists before n now dst d ok after y x,
    es = before ++ FrameCame n now (CDatagrams dst d) ok :: after /\
    run started before = Some y /\ conns (table y) !! n = Some x /\ endpoint_id x = who.

(** A descriptor that opened here says to present [who]. *)
Definition sealed_as (es : list Event) (who : EndpointId) : Prop :=
  exists n now c sealed inner ok open hop,
    FrameCame n now (COpenCircuit c sealed inner) ok ∈ es /\
    opener = Some open /\ open now sealed = Some hop /\ return_key hop = who.

(** C3: a relay names a key to somebody, as whom a datagram is from or as who has gone,
    only if a connection under that key sent a datagram to somebody by name, or if a
    caller sealed that key in a descriptor to be named by.  So a client that only speaks
    along circuits, or only listens, is named to nobody, whatever the others do and in
    whatever order, and whatever other relays answer. *)
Theorem nobody_is_named_who_did_not_ask es y n x m who :
  run started es = Some y ->
  conns (table y) !! n = Some x -> m ∈ wrote x -> named m = Some who ->
  spoke_by_name es who \/ sealed_as es who.
Proof.
  intros Hr Hx Hm Hw. set (P := fun who => spoke_by_name es who \/ sealed_as es who).
  assert (relay_ok P (fun _ => True) y) as Hy.
  { apply (relay_ok_run P _ es started); [apply relay_ok_started|apply tied_started| |done]. intros before e after y0 Hes Hb.
    destruct e as [| |k now f ok| | | | | | | | | | | | | |]; try done. destruct f as [| |dst d|c sealed inner| | |]; try done; cbn.
    - intros x0 Hx0. left. by exists before, k, now, dst, d, ok, after, y0, x0.
    - intros open hop Ho Hh. right. exists k, now, c, sealed, inner, ok, open, hop. split; [|done].
      rewrite Hes. set_solver. }
  pose proof (ck_wrote P _ x (tk_conns P _ _ (rk_table P _ y Hy) n x Hx)) as Hall. rewrite Forall_forall in Hall. by apply (Hall m).
Qed.


(** ** What one client does for another *)

(** Running, with nothing to write, and room for more. *)
Definition idle (t : Table) (n : nat) (who : EndpointId) (x : Conn) : Prop :=
  conns t !! n = Some x /\ endpoint_id x = who /\ at_loop x = true /\ packets x = [] /\
  exists st, clients t !! who = Some st /\ active st = n.

Lemma not_gone x : at_loop x = true -> is_gone x = false.
Proof. unfold at_loop, is_gone. by destruct (phase x). Qed.

Lemma send_packet_to_client t dst d from n x :
  idle t n dst x ->
  send_packet t dst d from =
    let t' := with_conn t n (with_packets x [mkPacket from d None]) in
    (Sent, if bool_decide (is_Some (returns t !! from)) then t' else record_sent t' from dst).
Proof.
  intros (Hn & _ & Hl & Hp & st & Hc & <-). unfold send_packet, resolve. rewrite !Hc. unfold try_send_packet.
  rewrite Hn, not_gone, Hp by done. cbn. by destruct (bool_decide _).
Qed.

Lemma send_packet_to_return_key t key d from n x e :
  clients t !! key = None -> aliases t !! key = None -> returns t !! key = Some e -> idle t n (owner e) x ->
  send_packet t key d from = (Sent, with_conn t n (with_packets x [mkPacket from d (Some (circuit e))])).
Proof.
  intros Hk Ha Hr (Hn & _ & Hl & Hp & st & Hc & <-). unfold send_packet, resolve. rewrite Hk, Ha, Hr, Hc. unfold try_send_packet.
  by rewrite Hn, not_gone, Hp.
Qed.

(** A packet taken from the queue it was alone in. *)
Lemma packet_goes_alone y n x p :
  conns (table y) !! n = Some x -> at_loop x = true -> packets x = [p] -> start_send (packet_frame p) = true ->
  step y (PacketGoes n true) =
    Some (with_table y (with_conn (table y) n (with_wrote (with_packets x []) (wrote x ++ [packet_frame p])))).
Proof. intros Hn Hl Hp Hs. cbn [Circuits.step]. unfold turn, packet_goes, write_frame. rewrite Hn. cbn. by rewrite Hl, Hp, Hs. Qed.

Lemma packet_goes_refused y n x p ok :
  conns (table y) !! n = Some x -> at_loop x = true -> packets x = [p] -> start_send (packet_frame p) = false ->
  step y (PacketGoes n ok) = Some (with_table y (with_conn (table y) n (leave (with_packets x [])))).
Proof.
  intros Hn Hl Hp Hs. cbn [Circuits.step]. unfold turn, packet_goes, write_frame. rewrite Hn. cbn. by rewrite Hl, Hp, Hs, andb_false_r.
Qed.

Lemma frame_step y n x now f ok :
  conns (table y) !! n = Some x -> at_loop x = true ->
  step y (FrameCame n now f ok) = Some (frame_came opener dialer y n x now f ok).
Proof. intros Hn Hl. cbn [Circuits.step]. rewrite Hn. cbn. by rewrite Hl. Qed.

Lemma lookup_with_conn t n c x : conns t !! n = Some x -> conns (with_conn t n c) !! n = Some c.
Proof. intros Hn. cbn. apply list_lookup_insert_eq. by eapply lookup_lt_Some. Qed.

Lemma lookup_with_conn_ne t n m c : n <> m -> conns (with_conn t n c) !! m = conns t !! m.
Proof. intros Hn. cbn. by apply list_lookup_insert_ne. Qed.

Lemma with_conn_twice t n c c' : with_conn (with_conn t n c) n c' = with_conn t n c'.
Proof. unfold with_conn. cbn. by rewrite list_insert_insert_eq. Qed.

Lemma opens_here y n x now c sealed dest key open :
  conns (table y) !! n = Some x -> at_loop x = true ->
  at_least (protocol_version x) V3 = true -> circuits x !! c = None ->
  (size (circuits x) < MAX_CIRCUITS_PER_CONNECTION)%nat -> Z.of_nat (size (returns (table y))) < MAX_CIRCUITS_TOTAL ->
  opener = Some open -> open now sealed = Some (mkCircuitHop dest None key) ->
  clients (table y) !! key = None -> aliases (table y) !! key = None -> returns (table y) !! key = None ->
  step y (FrameCame n now (COpenCircuit c sealed []) true) =
    Some (with_table y (with_conn (with_returns (table y) (<[key := mkReturn (endpoint_id x) c dest]> (returns (table y)))) n
      (with_wrote (with_circuits x (<[c := mkForward dest key None]> (circuits x))) (wrote x ++ [RCircuitOpened c])))).
Proof.
  intros Hn Hl Hv Hc Hs Ht Ho Hop Hk1 Hk2 Hk3. rewrite (frame_step y n x) by done.
  unfold frame_came, handle_frame. rewrite Hv. cbn [negb andb]. unfold handle_frame_open_circuit.
  rewrite Hc, Ho, bool_decide_eq_false_2 by (by intros []). rewrite (proj2 (Nat.leb_gt _ _)) by done. rewrite Hop.
  unfold chain_to. cbn [next_relay]. unfold claim_return_key. rewrite (proj2 (Z.leb_gt _ _)) by done.
  cbn [return_key destination]. rewrite Hk1, Hk2, Hk3, !bool_decide_eq_false_2 by (by intros []). cbn [orb].
  unfold write, insert_circuit, on_conn. cbn [table with_table conns with_returns]. rewrite Hn. cbn [table with_table].
  rewrite (lookup_with_conn _ _ _ x) by done. by rewrite with_conn_twice.
Qed.

Lemma idle_other t n m c who x : n <> m -> idle t m who x -> idle (with_conn t n c) m who x.
Proof. intros Hn (H1 & H2). split; [by rewrite lookup_with_conn_ne|done]. Qed.

(** C6: somebody opens a circuit under a return key that is nobody's name, to somebody
    who is here.  What they send along it arrives there from that key, what is sent
    back to the key arrives on the circuit, naming nobody; and the relay keeps no note
    that either spoke to the other. *)
Theorem a_circuit_carries_both_ways y a xa who c sealed b xb dest key open now d1 d2 :
  idle (table y) a who xa -> idle (table y) b dest xb -> who <> dest ->
  at_least (protocol_version xa) V3 = true -> circuits xa !! c = None ->
  (size (circuits xa) < MAX_CIRCUITS_PER_CONNECTION)%nat -> Z.of_nat (size (returns (table y))) < MAX_CIRCUITS_TOTAL ->
  opener = Some open -> open now sealed = Some (mkCircuitHop dest None key) ->
  clients (table y) !! key = None -> aliases (table y) !! key = None -> returns (table y) !! key = None ->
  start_send (RDatagrams key d1) = true -> start_send (RCircuitDatagrams c d2) = true ->
  exists y' xa' xb',
    run y [FrameCame a now (COpenCircuit c sealed []) true; FrameCame a now (CCircuitDatagrams c d1) true; PacketGoes b true;
           FrameCame b now (CDatagrams key d2) true; PacketGoes a true] = Some y' /\
    conns (table y') !! a = Some xa' /\ wrote xa' = wrote xa ++ [RCircuitOpened c; RCircuitDatagrams c d2] /\
    conns (table y') !! b = Some xb' /\ wrote xb' = wrote xb ++ [RDatagrams key d1] /\
    sent_to (table y') = sent_to (table y).
Proof.
  intros Ha Hb Hne Hv Hc Hs Ht Ho Hop Hk1 Hk2 Hk3 Hd1 Hd2.
  destruct Ha as (Han & <- & Hal & Hap & sa & Hsa & Has). assert (a <> b) as Hab.
  { intros <-. destruct Hb as (Hbn & <- & _). rewrite Han in Hbn. by injection Hbn as <-. }
  cbn [Circuits.run]. rewrite (opens_here y a xa now c sealed dest key open) by done. cbn [mbind option_bind].
  set (xa1 := with_wrote _ _). set (t1 := with_returns _ _).
  assert (idle (with_conn t1 a xa1) b dest xb) as Hb1 by (by apply idle_other).
  assert (conns (with_conn t1 a xa1) !! a = Some xa1) as Ha1 by (by eapply (lookup_with_conn t1 a)).
  rewrite (frame_step _ a xa1) by done. cbn [mbind option_bind].
  unfold frame_came at 1, handle_frame. change (protocol_version xa1) with (protocol_version xa). rewrite Hv. cbn [negb andb].
  unfold handle_frame_circuit_datagrams. replace (circuits xa1 !! c) with (Some (mkForward dest key None)) by (symmetry; apply lookup_insert_eq).
  cbn [next fwd_destination fwd_return_key table with_table]. rewrite (send_packet_to_client _ dest d1 key b xb Hb1).
  rewrite bool_decide_eq_true_2 by (cbn; rewrite lookup_insert_eq; by eexists). cbn [snd write].
  destruct Hb as (Hbn & Hbe & Hbl & Hbp & sb & Hsb & Hbs). set (xb1 := with_packets _ _).
  set (t2 := with_conn t1 a xa1). assert (conns (with_conn t2 b xb1) !! b = Some xb1) as Hb2.
  { eapply (lookup_with_conn t2 b _ xb). apply Hb1. }
  rewrite (packet_goes_alone _ b xb1 (mkPacket key d1 None)) by done. cbn [mbind option_bind].
  cbn [table with_table]. rewrite with_conn_twice. set (xb2 := with_wrote _ _).
  assert (conns (with_conn t2 b xb2) !! b = Some xb2) as Hb3 by (eapply (lookup_with_conn t2 b _ xb); apply Hb1).
  rewrite (frame_step _ b xb2) by done. cbn [mbind option_bind]. unfold frame_came at 1, handle_frame.
  rewrite andb_false_r. cbn [table with_table write].
  rewrite (send_packet_to_return_key _ key d2 (endpoint_id xb2) a xa1 (mkReturn (endpoint_id xa) c dest)); cycle 1; [done|done|apply lookup_insert_eq| |].
  { split; [by rewrite lookup_with_conn_ne|]. repeat (split; [done|]). by exists sa. }
  cbn [snd write circuit]. set (t3 := with_conn t2 b xb2). set (xa2 := with_packets xa1 _).
  rewrite (packet_goes_alone _ a xa2 (mkPacket (endpoint_id xb2) d2 (Some c))); [|eapply (lookup_with_conn t3 a _ xa1)|done..].
  2: { unfold t3. by rewrite lookup_with_conn_ne. }
  eexists _, _, _. split; [reflexivity|]. cbn [table with_table]. rewrite with_conn_twice.
  split; [eapply (lookup_with_conn t3 a _ xa1); unfold t3; by rewrite lookup_with_conn_ne|].
  split; [cbn; by rewrite <- app_assoc|]. split; [rewrite lookup_with_conn_ne by done; exact Hb3|]. done.
Qed.
End Runs.

(** ** Runs of a small relay *)

Module Witness.
#[local] Instance toy_hash : Blake3 := {| blake3_derive := fun _ l => copy_from_slice 32 l; blake3_keyed := fun _ l => copy_from_slice 32 l |}.
#[local] Instance toy_sign : Ed25519 := {| valid_key := fun _ => true; verify_strict := fun _ _ _ => true |}.

Definition alice : EndpointId := be_arr 32 1.
Definition bob : EndpointId := be_arr 32 2.
Definition behind : EndpointId := be_arr 32 3.
Definition exit_url : bytes := be_bytes 3 99.

(** A descriptor of one byte: [x01] ends at Bob, and another continues. *)
Definition open (_ : Z) (sealed : bytes) : option CircuitHop :=
  match sealed with
  | [x01] => Some (mkCircuitHop bob None behind)
  | [_] => Some (mkCircuitHop bob (Some exit_url) behind)
  | _ => None
  end.

Definition small (l : bytes) : Datagrams := mkDatagrams None None l.
Definition run_here := run (Some open) true.
Definition both_here : list Event := [Arrives alice V3; Enters 0; Arrives bob V3; Enters 1].

Definition after (es : list Event) : Relay := default started (run_here started es).

(** A reply that comes before the task that asked has told of the opening is written first. *)
Definition early_reply : list Event :=
  [Arrives alice V3; Enters 0; FrameCame 0 0 (COpenCircuit 5 [x02] [x07]) true; OpenerTurn 0 9; Dialled 0 true; OpenerTurn 0 9;
   LinkTurn 0 true []; LinkHears 0 (RCircuitOpened 9); LinkHears 0 (RCircuitDatagrams 9 (small [x0a])); MessageGoes 0 true;
   OpenerTurn 0 9; EventGoes 0 true].

Example a_reply_may_come_before_the_opening :
  option_map (fun x => wrote x) (y ← run_here started early_reply; conns (table y) !! 0%nat)
  = Some [RCircuitDatagrams 5 (small [x0a]); RCircuitOpened 5].
Proof. vm_compute. reflexivity. Qed.

(** A chained circuit that is refused is closed twice; the second closing ends what was
    opened under its number since, and leaves its return key taken. *)
Definition refused_twice : list Event :=
  both_here ++
  [FrameCame 0 0 (COpenCircuit 5 [x02] [x07]) true; OpenerTurn 0 9; Dialled 0 true; OpenerTurn 0 9; LinkTurn 0 true [];
   LinkHears 0 (RCircuitClosed 9 2); OpenerTurn 0 9; EventGoes 0 true; FrameCame 0 0 (COpenCircuit 5 [x01] []) true; MessageGoes 0 true].

Example a_refusal_closes_what_came_after :
  option_map (fun x => (wrote x, map_to_list (circuits x))) (y ← run_here started refused_twice; conns (table y) !! 0%nat)
    = Some ([RCircuitClosed 5 CIRCUIT_REFUSED; RCircuitOpened 5; RCircuitClosed 5 CIRCUIT_FAR_END_GONE], []) /\
  (y ← run_here started refused_twice; returns (table y) !! behind) = Some (mkReturn alice 5 bob).
Proof. split; vm_compute; reflexivity. Qed.

Definition named_run : list Event := both_here ++ [FrameCame 0 0 (CDatagrams bob (small [x0a])) true; PacketGoes 1 true].

Lemma nobody_is_named_who_did_not_ask_witness :
  run_here started named_run = Some (after named_run) /\
  exists x, conns (table (after named_run)) !! 1%nat = Some x /\ RDatagrams alice (small [x0a]) ∈ wrote x /\
    (spoke_by_name (Some open) true named_run alice \/ sealed_as (Some open) named_run alice).
Proof.
  assert (run_here started named_run = Some (after named_run)) as Hr by (vm_compute; reflexivity).
  split; [exact Hr|]. eexists. split; [vm_compute; reflexivity|]. split; [vm_compute; by left|].
  eapply (nobody_is_named_who_did_not_ask (Some open) true named_run (after named_run) 1 _ (RDatagrams alice (small [x0a])));
    [exact Hr|vm_compute; reflexivity| |reflexivity].
  vm_compute. by left.
Defined.


(** A state of a run, and a connection of it. *)
Definition conn_at (y : Relay) (n : nat) : Conn := default (mkConn alice V3 false Gone true [] [] [] ∅ []) (conns (table y) !! n).

Lemma idle_at y n who st :
  conns (table y) !! n = Some (conn_at y n) -> endpoint_id (conn_at y n) = who -> at_loop (conn_at y n) = true ->
  packets (conn_at y n) = [] -> clients (table y) !! who = Some st -> active st = n -> idle (table y) n who (conn_at y n).
Proof. intros H1 H2 H3 H4 H5 H6. repeat (split; [done|]). by exists st. Qed.

Lemma alice_idle : idle (table (after both_here)) 0 alice (conn_at (after both_here) 0).
Proof. apply (idle_at _ _ _ (mkClientState 0 [])); vm_compute; reflexivity. Qed.

Lemma bob_idle : idle (table (after both_here)) 1 bob (conn_at (after both_here) 1).
Proof. apply (idle_at _ _ _ (mkClientState 1 [])); vm_compute; reflexivity. Qed.

Lemma a_circuit_carries_both_ways_witness :
  exists y' xa' xb',
    run_here (after both_here)
      [FrameCame 0 0 (COpenCircuit 5 [x01] []) true; FrameCame 0 0 (CCircuitDatagrams 5 (small [x0a])) true; PacketGoes 1 true;
       FrameCame 1 0 (CDatagrams behind (small [x0b])) true; PacketGoes 0 true] = Some y' /\
    conns (table y') !! 0%nat = Some xa' /\
    wrote xa' = wrote (conn_at (after both_here) 0) ++ [RCircuitOpened 5; RCircuitDatagrams 5 (small [x0b])] /\
    conns (table y') !! 1%nat = Some xb' /\
    wrote xb' = wrote (conn_at (after both_here) 1) ++ [RDatagrams behind (small [x0a])] /\
    sent_to (table y') = sent_to (table (after both_here)).
Proof.
  apply (a_circuit_carries_both_ways (Some open) true (after both_here) 0 (conn_at (after both_here) 0) alice 5 [x01]
    1 (conn_at (after both_here) 1) bob behind open 0 (small [x0a]) (small [x0b])).
  - exact alice_idle.
  - exact bob_idle.
  - vm_compute. intros H. discriminate H.
  - vm_compute. reflexivity.
  - vm_compute. reflexivity.
  - vm_compute. lia.
  - vm_compute. reflexivity.
  - reflexivity.
  - reflexivity.
  - vm_compute. reflexivity.
  - vm_compute. reflexivity.
  - vm_compute. reflexivity.
  - vm_compute. reflexivity.
  - vm_compute. reflexivity.
Defined.
End Witness.
