(* ===== verification/CircuitTrouble.v ===== *)
(** * What one client of a relay does to another, and a relay to its own promises

    Behaviours of [Circuits] that its comments do not speak of, or deny. *)

From S2P Require Import Prelude Crypto RelayFrame Circuits CircuitLinks CircuitFacts.
From S2P Require Hybrid.
Import Hybrid (Ed25519, valid_key, verify_strict).

Section Trouble.
Context `{BL : Blake3, ED : Ed25519}.
Context (opener : option (Z -> bytes -> option CircuitHop)) (dialer : bool).

Abbreviation step := (Circuits.step opener dialer).
Abbreviation run := (Circuits.run opener dialer).

(** A datagram with nothing in it, or as large as a frame may carry to a name. *)
Definition unwritable (d : Datagrams) : Prop :=
  segment_size d = None /\ (contents d = [] \/ zlen (contents d) = MAX_PACKET_SIZE - 33).

Lemma unwritable_refused who d : unwritable d -> start_send (RDatagrams who d) = false.
Proof.
  intros [Hs Hc]. unfold start_send, relay_msg_len. rewrite frame_type_one. unfold datagrams_len. rewrite Hs.
  destruct Hc as [->|Hc]; [by rewrite andb_false_r|]. by rewrite Hc.
Qed.

Lemma unwritable_is_read dest d :
  valid_key dest = true -> unwritable d -> client_msg_read (client_msg_write (CDatagrams dest d)) = Ok (CDatagrams dest d).
Proof.
  intros Hk [Hs Hc]. rewrite client_msg_is_read by (split; [done|]; unfold datagrams_ok; by rewrite Hs).
  unfold client_msg_len. rewrite frame_type_one. unfold datagrams_len. rewrite Hs. by destruct Hc as [->| ->].
Qed.

(** C30: the relay reads a datagram with nothing in it, and one that fills a frame, but
    its writer refuses both; and what the writer refuses ends the connection written to.
    So anybody who is connected ends the connection of anybody else they can name, with
    one frame. *)
Theorem anybody_is_sent_away y a xa b xb dest d now ok :
  valid_key dest = true -> unwritable d ->
  conns (table y) !! a = Some xa -> at_loop xa = true -> a <> b -> idle (table y) b dest xb ->
  client_msg_read (client_msg_write (CDatagrams dest d)) = Ok (CDatagrams dest d) /\
  exists y' xb',
    run y [FrameCame a now (CDatagrams dest d) ok; PacketGoes b true] = Some y' /\
    conns (table y') !! b = Some xb' /\ phase xb' = Leaving 0 ∅ /\ wrote xb' = wrote xb.
Proof.
  intros Hk Hd Ha Hal Hab Hb. split; [by apply unwritable_is_read|]. cbn [Circuits.run].
  rewrite (frame_step _ _ y a xa) by done. cbn [mbind option_bind]. unfold frame_came, handle_frame. rewrite andb_false_r.
  cbn [write]. rewrite (send_packet_to_client _ dest d (endpoint_id xa) b xb Hb). cbn [snd].
  set (x1 := with_packets xb _). set (t1 := with_conn (table y) b x1).
  assert (forall t, conns t = conns t1 -> exists y' xb', (y' ← step (with_table y t) (PacketGoes b true); Some y') = Some y' /\
    conns (table y') !! b = Some xb' /\ phase xb' = Leaving 0 ∅ /\ wrote xb' = wrote xb) as H.
  { intros t Ht. destruct Hb as (Hbn & _ & Hbl & _). assert (conns t !! b = Some x1) as H1.
    { rewrite Ht. by apply (lookup_with_conn (table y) b x1 xb). }
    rewrite (packet_goes_refused _ _ _ b x1 (mkPacket (endpoint_id xa) d None)) by (done || by apply unwritable_refused).
    eexists _, _. split; [done|]. split; [by apply (lookup_with_conn t b _ x1)|done]. }
  destruct (bool_decide _); by apply H.
Qed.

Lemma foldl_link_tasks {A} (f : Relay -> A -> Relay) l y :
  (forall y a, link_tasks (f y a) = link_tasks y) -> link_tasks (foldl f y l) = link_tasks y.
Proof. intros Hf. revert y. induction l as [|a l IH]; intros y; [done|]. cbn. by rewrite IH. Qed.

Lemma tell_closed_link_tasks y e : link_tasks (tell_closed y e) = link_tasks y.
Proof. by destruct e as [[n c]|]. Qed.

(** A circuit's datagrams that fill a frame are carried to the link, whose stream
    refuses them; and that ends the link, with every circuit of everybody on it. *)
Theorem one_frame_ends_a_link y n x c f u far i l d now ok order :
  conns (table y) !! n = Some x -> at_loop x = true -> at_least (protocol_version x) V3 = true ->
  circuits x !! c = Some f -> next f = Some (Open u far) ->
  links y !! u = Some i -> link_tasks y !! i = Some l -> link_phase l = Carrying -> requests l = [] ->
  u32 c -> segment_size d = None -> zlen (contents d) = MAX_PACKET_SIZE - 5 ->
  NoDup order -> list_to_set order = dom (held l) ->
  client_msg_read (client_msg_write (CCircuitDatagrams c d)) = Ok (CCircuitDatagrams c d) /\
  exists y' l', run y [FrameCame n now (CCircuitDatagrams c d) ok; LinkTurn i true order] = Some y' /\
    link_tasks y' !! i = Some l' /\ link_phase l' = Ended /\ held l' = ∅.
Proof.
  intros Hn Hl Hv Hc Hf Hu Hi Hp Hr H32 Hs Hz Ho1 Ho2. split.
  { rewrite client_msg_is_read by (split; [done|]; unfold datagrams_ok; by rewrite Hs).
    unfold client_msg_len. rewrite frame_type_one. unfold datagrams_len. by rewrite Hs, Hz. }
  cbn [Circuits.run]. rewrite (frame_step _ _ y n x) by done. cbn [mbind option_bind]. unfold frame_came, handle_frame. rewrite Hv.
  cbn [negb andb]. unfold handle_frame_circuit_datagrams. rewrite Hc, Hf. cbn [write]. unfold carry. rewrite Hu, Hi, Hp, Hr.
  cbn [length Nat.ltb Nat.leb LINK_QUEUE app].
  cbn [Circuits.step]. unfold link_turn. cbn [link_tasks with_link].
  rewrite list_lookup_insert_eq by (by eapply lookup_lt_Some). cbn [mbind option_bind link_phase link_asked requests]. rewrite Hp.
  unfold link_takes_request. replace (link_takes _) with false.
  2: { unfold link_takes, client_msg_len. rewrite frame_type_one. unfold datagrams_len. by rewrite Hs, Hz. }
  cbn [andb]. unfold end_link. cbn [held link_asked]. rewrite decide_True by done. cbn [requests link_asked foldl].
  eexists _, _. split; [reflexivity|]. rewrite foldl_link_tasks by (intros; apply tell_closed_link_tasks).
  rewrite foldl_link_tasks by done.
  cbn [link_tasks with_link]. rewrite list_insert_insert_eq, list_lookup_insert_eq by (by eapply lookup_lt_Some). by split.
Qed.

Lemma leaves_0 t n x peers order :
  conns t !! n = Some x -> phase x = Leaving 0 peers ->
  leaves t n order = Some (with_conn (forget_aliases_of t (endpoint_id x)) n (with_phase x (Leaving 1 ∅))).
Proof. intros Hn Hp. unfold leaves. rewrite Hn. cbn. rewrite Hp. unfold on_conn. cbn. by rewrite Hn. Qed.

Lemma leaves_1 t n x peers order :
  conns t !! n = Some x -> phase x = Leaving 1 peers ->
  leaves t n order = Some (with_conn (forget_circuits_of t (endpoint_id x)) n (with_phase x (Leaving 2 ∅))).
Proof. intros Hn Hp. unfold leaves. rewrite Hn. cbn. rewrite Hp. unfold on_conn. cbn. by rewrite Hn. Qed.

(** A connection that goes takes with it the other names and the circuits of every
    connection under its key, not its own alone: one that took its place, and goes on
    working, answers to no alias and is sent no reply from then on, and is not told. *)
Theorem those_who_stay_lose_their_names y n x peers st :
  conns (table y) !! n = Some x -> phase x = Leaving 0 peers ->
  clients (table y) !! endpoint_id x = Some st -> active st <> n ->
  exists y', run y [Leaves n []; Leaves n []] = Some y' /\
    clients (table y') !! endpoint_id x = Some st /\ conns (table y') !! active st = conns (table y) !! active st /\
    (forall alias, aliases (table y') !! alias <> Some (endpoint_id x)) /\
    (forall key r, returns (table y') !! key = Some r -> owner r <> endpoint_id x).
Proof.
  intros Hn Hp Hc Ha. cbn [Circuits.run Circuits.step]. rewrite (leaves_0 _ n x peers) by done. cbn [mbind option_bind].
  set (x1 := with_phase x _). set (t1 := with_conn _ _ _).
  assert (conns t1 !! n = Some x1) as H1 by (by eapply (lookup_with_conn (forget_aliases_of _ _))).
  rewrite (leaves_1 _ n x1 ∅) by done. cbn [mbind option_bind].
  eexists. split; [reflexivity|]. split; [done|]. split; [cbn; by rewrite !list_lookup_insert_ne|]. split.
  - intros alias E. cbn in E. apply map_lookup_filter_Some in E as [_ E]. by apply E.
  - intros key r E. cbn in E. apply map_lookup_filter_Some in E as [_ E]. by apply E.
Qed.

(** Nobody is at the end of a circuit, and so its datagrams are dropped unanswered. *)
Lemma a_datagram_to_nobody_is_not_refused y n x c f d now ok :
  conns (table y) !! n = Some x -> at_loop x = true -> at_least (protocol_version x) V3 = true ->
  circuits x !! c = Some f -> next f = None -> resolve (table y) (fwd_destination f) = None ->
  step y (FrameCame n now (CCircuitDatagrams c d) ok) = Some (with_table y (table y)).
Proof.
  intros Hn Hl Hv Hc Hf Hr. rewrite (frame_step _ _ y n x) by done. unfold frame_came, handle_frame. rewrite Hv. cbn [negb andb].
  unfold handle_frame_circuit_datagrams. rewrite Hc, Hf. unfold send_packet. by rewrite Hr.
Qed.

(** ** A client cannot close a circuit *)

Lemma column_at {A} (g : Conn -> A) t t' n c : column g t' = column g t -> conns t !! n = Some c ->
  exists c', conns t' !! n = Some c' /\ g c' = g c.
Proof. apply column_lookup. Qed.

Lemma write_keeps_circuits y n ok m : column circuits (table (write y n ok m)) = column circuits (table y).
Proof.
  destruct m as [m|]; [|done]. apply column_on_conn. intros c. unfold write_frame. by destruct (_ && _).
Qed.

Lemma carry_keeps_table y u far d : table (carry y u far d) = table y.
Proof. unfold carry. by repeat case_match. Qed.

Lemma frame_keeps_circuits y n x now f ok m c :
  conns (table y) !! n = Some x -> (MAX_CIRCUITS_PER_CONNECTION <= size (circuits x))%nat ->
  conns (table y) !! m = Some c ->
  exists c', conns (table (frame_came opener dialer y n x now f ok)) !! m = Some c' /\ circuits c' = circuits c.
Proof.
  intros Hn Hs Hm. apply (column_at circuits (table y)); [|done]. unfold frame_came.
  destruct (handle_frame _ _ _ _ _ _ _) as [[y' a]|] eqn:E; [|by apply column_on_conn].
  rewrite write_keeps_circuits. unfold handle_frame in E. destruct (_ && _); [done|].
  destruct f as [d|d|dst d|k sealed inner|u|k d|alias sig]; simplify_eq; try done.
  - apply column_send_packet, _.
  - unfold handle_frame_open_circuit in E. rewrite (proj2 (Nat.leb_le _ _)) in E by done.
    case_bool_decide; simplify_eq; [done|]. destruct opener; by simplify_eq.
  - unfold handle_frame_circuit_datagrams in E. destruct (circuits x !! k) as [fw|]; [|by simplify_eq].
    destruct (next fw) as [[|u far]|]; simplify_eq; [done| |apply column_send_packet, _]. by rewrite carry_keeps_table.
  - unfold handle_bind_alias. cbn. destruct (verify_strict _ _ _); [apply column_alias|done].
Qed.

Lemma frames_keep_circuits n es y y' x :
  Forall (fun e => exists now f ok, e = FrameCame n now f ok) es ->
  conns (table y) !! n = Some x -> (MAX_CIRCUITS_PER_CONNECTION <= size (circuits x))%nat -> run y es = Some y' ->
  exists x', conns (table y') !! n = Some x' /\ circuits x' = circuits x.
Proof.
  intros He. revert y x. induction He as [|e es (now & f & ok & ->) _ IH]; intros y x Hn Hs; cbn [Circuits.run].
  { intros [= <-]. by exists x. }
  destruct (step _ _) as [y1|] eqn:E; [|done]. cbn [Circuits.step] in E. rewrite Hn in E. cbn in E.
  destruct (at_loop x); [|done]. injection E as <-.
  destruct (frame_keeps_circuits y n x now f ok n x Hn Hs Hn) as (x1 & H1 & Hx1). intros Hr.
  destruct (IH _ x1 H1 ltac:(by rewrite Hx1) Hr) as (x' & H' & Hx'). exists x'. split; [done|]. by rewrite Hx'.
Qed.

(** Once a connection holds its 64 circuits, nothing that is said on it frees one,
    whatever and however much; and every circuit it asks for is refused.  The link of
    another relay is one such connection, with everybody's circuits from there on it. *)
Theorem a_full_connection_stays_full n es y y' x now c sealed inner :
  Forall (fun e => exists now f ok, e = FrameCame n now f ok) es ->
  conns (table y) !! n = Some x -> size (circuits x) = MAX_CIRCUITS_PER_CONNECTION -> run y es = Some y' ->
  exists x', conns (table y') !! n = Some x' /\ circuits x' = circuits x /\
    (at_loop x' = true -> at_least (protocol_version x') V3 = true -> exists y'' x'',
       step y' (FrameCame n now (COpenCircuit c sealed inner) true) = Some y'' /\
       conns (table y'') !! n = Some x'' /\ circuits x'' = circuits x /\
       wrote x'' = wrote x' ++ [RCircuitClosed c CIRCUIT_REFUSED]).
Proof.
  intros He Hn Hs Hr. destruct (frames_keep_circuits n es y y' x He Hn ltac:(by rewrite Hs) Hr) as (x' & Hn' & Hx').
  exists x'. split; [done|]. split; [done|]. intros Hl Hv. rewrite (frame_step _ _ y' n x') by done.
  unfold frame_came, handle_frame. rewrite Hv. cbn [negb andb].
  replace (handle_frame_open_circuit _ _ y' n x' now c sealed inner) with (y', refused c).
  - cbn [write refused]. unfold on_conn. rewrite Hn'. eexists _, _. split; [done|]. cbn [table with_table].
    split; [by apply (lookup_with_conn _ n _ x')|]. by split.
  - unfold handle_frame_open_circuit. case_bool_decide; [done|]. destruct opener; [|done].
    by rewrite (proj2 (Nat.leb_le _ _)) by (by rewrite Hx', Hs).
Qed.

(** C29: a relay that could not be reached when it was first asked for is never dialled
    again, whatever comes after: the task that failed goes on refusing, the table keeps
    it, and no circuit of anybody is ever open there. *)
Theorem out_of_reach_once_is_for_good es es' y y' i l :
  run started es = Some y -> link_tasks y !! i = Some l -> link_phase l = Refusing ->
  (forall j m, link_tasks y !! j = Some m -> url m = url l -> j = i) ->
  run y es' = Some y' ->
  (exists l', link_tasks y' !! i = Some l' /\ url l' = url l /\ link_phase l' = Refusing) /\
  (forall j m, link_tasks y' !! j = Some m -> url m = url l -> j = i) /\
  (forall n x c f far, conns (table y') !! n = Some x -> circuits x !! c = Some f -> next f <> Some (Open (url l) far)).
Proof.
  intros Hr Hl Hp Ho Hr'. assert (tied y) as Ht by (eapply tied_run, Hr; apply tied_started).
  assert (only_refuses (url l) i y) as Hor by (split; [by exists l|done]).
  pose proof (only_refuses_run opener dialer (url l) i y es' y' Ht Hor Hr') as Hor'.
  destruct Hor' as [H1 H2]. split; [done|]. split; [done|].
  assert (run started (es ++ es') = Some y') as Hall by (rewrite relay_run_app, Hr; done).
  assert (relay_ok (fun _ => True) (fun u => u <> url l) y') as Hy.
  { apply (relay_ok_run opener dialer _ _ (es ++ es') started); [apply relay_ok_started|apply tied_started| |done].
    intros before e after y0 Hes Hb. destruct e as [| |n now f ok| | | | | | | | | | | | |j m|]; try done; [by destruct f|].
    intros m' Hm' Hc Hu. rewrite Hes, relay_run_app, Hb in Hall. cbn [mbind option_bind] in Hall.
    destruct (not_carried_before opener dialer (url l) i y0 _ y' j m' Hall) as [E|E]; [|by split|done|done|..]; try by rewrite Hc in E.
    eapply tied_run, Hb. apply tied_started. }
  intros n x c f far Hx Hc Hf. pose proof (ck_circuits _ _ x (tk_conns _ _ _ (rk_table _ _ _ Hy) n x Hx) c f Hc) as [_ Hfw].
  by rewrite Hf in Hfw.
Qed.
End Trouble.

(** ** Runs of a small relay *)

Module Witness.
Import CircuitFacts.Witness.
#[local] Existing Instance toy_hash | 0.
#[local] Existing Instance toy_sign | 0.

Lemma anybody_is_sent_away_witness :
  unwritable (small []) /\
  exists y' xb',
    run_here (after both_here) [FrameCame 0 0 (CDatagrams bob (small [])) true; PacketGoes 1 true] = Some y' /\
    conns (table y') !! 1%nat = Some xb' /\ phase xb' = Leaving 0 ∅ /\ wrote xb' = wrote (conn_at (after both_here) 1).
Proof.
  assert (unwritable (small [])) as Hu by (split; [reflexivity|by left]). split; [exact Hu|].
  destruct (anybody_is_sent_away (Some open) true (after both_here) 0 (conn_at (after both_here) 0) 1 (conn_at (after both_here) 1) bob
    (small []) 0 true (eq_refl : @valid_key toy_sign bob = true) Hu (proj1 alice_idle) ltac:(vm_compute; reflexivity) ltac:(lia) bob_idle) as [_ H]. exact H.
Defined.

(** Alice's circuit is open at the exit; and Alice comes again. *)
Definition chained : list Event := removelast early_reply ++ [EventGoes 0 true].
Definition link_at (y : Relay) (i : nat) : Link := default (mkLink [] Ended [] ∅ ∅ []) (link_tasks y !! i).
Definition big : Datagrams := small (replicate (Z.to_nat (MAX_PACKET_SIZE - 5)) x01).

Lemma big_fills : zlen (contents big) = MAX_PACKET_SIZE - 5.
Proof. unfold big, small, zlen. cbn [contents]. rewrite length_replicate. apply Z2Nat.id. by unfold MAX_PACKET_SIZE. Qed.

Lemma one_frame_ends_a_link_witness :
  zlen (contents big) = MAX_PACKET_SIZE - 5 /\
  exists y' l', run_here (after chained) [FrameCame 0 0 (CCircuitDatagrams 5 big) true; LinkTurn 0 true [9]] = Some y' /\
    link_tasks y' !! 0%nat = Some l' /\ link_phase l' = Ended /\ held l' = ∅.
Proof.
  split; [exact big_fills|].
  destruct (one_frame_ends_a_link (Some open) true (after chained) 0 (conn_at (after chained) 0) 5 (mkForward bob behind (Some (Open exit_url 9)))
    exit_url 9 0 (link_at (after chained) 0) big 0 true [9]) as [_ H].
  - vm_compute. reflexivity.
  - vm_compute. reflexivity.
  - vm_compute. reflexivity.
  - vm_compute. reflexivity.
  - reflexivity.
  - vm_compute. reflexivity.
  - vm_compute. reflexivity.
  - vm_compute. reflexivity.
  - vm_compute. reflexivity.
  - split; vm_compute; discriminate.
  - reflexivity.
  - exact big_fills.
  - apply NoDup_singleton.
  - vm_compute. reflexivity.
  - exact H.
Defined.

Definition came_again : list Event := [Arrives alice V3; Enters 0; Arrives alice V3; Enters 1; Stops 0].

Lemma those_who_stay_lose_their_names_witness :
  exists y', run_here (after came_again) [Leaves 0 []; Leaves 0 []] = Some y' /\
    clients (table y') !! alice = Some (mkClientState 1 [0%nat]) /\ conns (table y') !! 1%nat = conns (table (after came_again)) !! 1%nat /\
    (forall alias, aliases (table y') !! alias <> Some alice) /\
    (forall key r, returns (table y') !! key = Some r -> owner r <> alice).
Proof.
  apply (those_who_stay_lose_their_names (Some open) true (after came_again) 0 (conn_at (after came_again) 0) ∅ (mkClientState 1 [0%nat])).
  - vm_compute. reflexivity.
  - vm_compute. reflexivity.
  - vm_compute. reflexivity.
  - cbn. lia.
Defined.

(** Sixty-four circuits opened, each chained. *)
Definition openings : list Event := (fun k => FrameCame 0 0 (COpenCircuit (Z.of_nat k) [x02] [x07]) true) <$> seq 0 64.
Definition full : list Event := [Arrives alice V3; Enters 0] ++ openings.

Lemma a_full_connection_stays_full_witness :
  size (circuits (conn_at (after full) 0)) = MAX_CIRCUITS_PER_CONNECTION /\
  exists x', conns (table (after full)) !! 0%nat = Some x' /\ circuits x' = circuits (conn_at (after full) 0) /\
    (at_loop x' = true -> at_least (protocol_version x') V3 = true -> exists y'' x'',
       step (Some open) true (after full) (FrameCame 0 0 (COpenCircuit 77 [x01] []) true) = Some y'' /\
       conns (table y'') !! 0%nat = Some x'' /\ circuits x'' = circuits (conn_at (after full) 0) /\
       wrote x'' = wrote x' ++ [RCircuitClosed 77 CIRCUIT_REFUSED]).
Proof.
  assert (size (circuits (conn_at (after full) 0)) = MAX_CIRCUITS_PER_CONNECTION) as Hs by (vm_compute; reflexivity).
  split; [exact Hs|].
  apply (a_full_connection_stays_full (Some open) true 0 [] (after full) (after full) (conn_at (after full) 0) 0 77 [x01] []).
  - constructor.
  - vm_compute. reflexivity.
  - exact Hs.
  - reflexivity.
Defined.

(** The exit cannot be reached when it is first asked for. *)
Definition unreached : list Event :=
  [Arrives alice V3; Enters 0; FrameCame 0 0 (COpenCircuit 5 [x02] [x07]) true; OpenerTurn 0 9; Dialled 0 false].
Definition asked_again : list Event :=
  [OpenerTurn 0 9; LinkTurn 0 true []; OpenerTurn 0 9; EventGoes 0 true;
   FrameCame 0 0 (COpenCircuit 6 [x02] [x07]) true; OpenerTurn 1 8; OpenerTurn 1 8; LinkTurn 0 true []; OpenerTurn 1 8; EventGoes 0 true].

Example it_is_refused_again :
  option_map wrote (y ← run_here started (unreached ++ asked_again); conns (table y) !! 0%nat)
  = Some [RCircuitClosed 5 CIRCUIT_REFUSED; RCircuitClosed 6 CIRCUIT_REFUSED].
Proof. vm_compute. reflexivity. Qed.

Lemma out_of_reach_once_is_for_good_witness :
  run_here started unreached = Some (after unreached) /\
  exists l', link_tasks (after (unreached ++ asked_again)) !! 0%nat = Some l' /\ url l' = exit_url /\ link_phase l' = Refusing.
Proof.
  assert (run_here started unreached = Some (after unreached)) as Hr by (vm_compute; reflexivity). split; [exact Hr|].
  destruct (out_of_reach_once_is_for_good (Some open) true unreached asked_again (after unreached) (after (unreached ++ asked_again)) 0
    (link_at (after unreached) 0)) as [H _].
  - exact Hr.
  - vm_compute. reflexivity.
  - vm_compute. reflexivity.
  - intros [|j] m Hm _; [reflexivity|]. vm_compute in Hm. destruct j; discriminate Hm.
  - vm_compute. reflexivity.
  - exact H.
Defined.
End Witness.
