(* ===== verification/RelayProcess.v ===== *)
(** * The relay an operator runs

    [rotelyx-relay]: what its command line comes to ([main.rs]), the keys it makes once
    and keeps ([circuit.rs], [dial.rs]), the opening of descriptors that [Circuits] is
    given ([Hybrid]), and the permission to dial.  Sockets, the page and logging are
    left out; an endpoint id's two spellings are read by [data_encoding]. *)

From S2P Require Import Prelude Crypto Capability Text RelayFrame Circuits CircuitFacts.
From S2P Require Hybrid DeviceStore GroupLife MeetingCode.
Import Hybrid (Ed25519, valid_key, verify_strict, XWing, XWingLaws, SecretKey, public).
Import DeviceStore (Disk, Base64Url, url_encode, url_decode).
Import GroupLife (XWingStorage, pk_from_bytes, pk_to_bytes, secret_to_storage, secret_from_storage).

(** [HEXLOWER] and [BASE32_NOPAD] of [data_encoding], reading. *)
Class KeyText := { hexlower_decode : bytes -> option bytes; base32_decode : bytes -> option bytes }.

Inductive Error := Reading (path : bytes) | Writing (path : bytes) | BadKey (path : bytes)
| NotAnEndpointId (path : bytes) (line : Z) | NoChoice | NothingAllowed (path : bytes) | NoRelays (path : bytes)
| LogoTooLarge (path : bytes) (len : Z) | NotAPng (path : bytes).

Record Cli := mkCli {
  allow : option bytes;
  open_to_all : bool;
  circuit_key : option bytes;
  identity : option bytes;
  chain : bool;
  chain_to : option bytes;
  operator : option bytes;
  logo : option bytes;
}.

(** What [clap] lets through. *)
Definition clap_ok (cli : Cli) : bool :=
  let implies (a b : bool) := negb a || b in
  let given (o : option bytes) := bool_decide (is_Some o) in
  negb (open_to_all cli && given (allow cli)) && implies (given (circuit_key cli)) (given (identity cli)) &&
  implies (chain cli) (given (identity cli)) && implies (given (chain_to cli)) (chain cli) && implies (given (logo cli)) (given (operator cli)).

(** ** Files *)

Definition read_to_string (disk : Disk) (path : bytes) : Result bytes Error :=
  match disk !! path with
  | Some l => if utf8_valid l then Ok l else Err (Reading path)
  | None => Err (Reading path)
  end.

Definition entry (line : bytes) : bytes := trim (before_hash line).

Definition read_lines (disk : Disk) (path : bytes) : Result (list bytes) Error :=
  let? text := read_to_string disk path in
  Ok (retain (fun l => negb (bool_decide (l = []))) (entry <$> lines text)).

Definition MAX_LOGO_BYTES : Z := 64 * 1024.
Definition PNG : bytes := be_bytes 8 9894494448401390090.

Definition read_logo `{B64 : Base64} (disk : Disk) (path : bytes) : Result bytes Error :=
  let? l := ok_or (Reading path) (disk !! path) in
  if MAX_LOGO_BYTES <? zlen l then Err (LogoTooLarge path (zlen l))
  else if negb (bool_decide (take 8 l = PNG)) then Err (NotAPng path)
  else Ok (String.list_byte_of_string "data:image/png;base64," ++ b64_encode l).

(** [write_private]: a new file, or none; [ok] says whether it can be made. *)
Definition write_private (disk : Disk) (path l : bytes) (ok : bool) : Result Disk Error :=
  match disk !! path with
  | Some _ => Err (Writing path)
  | None => if ok then Ok (<[path := l]> disk) else Err (Writing path)
  end.

(** A key of [n] bytes that is read, or made the first time. *)
Definition load_or_create (n : nat) (disk : Disk) (path : bytes) (fresh : arr n) (ok : bool) : Result (arr n * Disk) Error :=
  match disk !! path with
  | Some l => let? k := ok_or (BadKey path) (try_into n l) in Ok (k, disk)
  | None => let? disk := write_private disk path (ab fresh) ok in Ok (fresh, disk)
  end.

Section Process.
Context `{BL : Blake3, AE : Aead, XW : XWing, XS : @XWingStorage XW, ED : Ed25519, KT : KeyText, UE : Base64Url}.

Definition parse_endpoint_id (s : bytes) : option EndpointId :=
  l ← (if (length s =? ID_LEN * 2)%nat then hexlower_decode s else base32_decode (MeetingCode.ascii_upper <$> s));
  k ← try_into ID_LEN l;
  if valid_key k then Some k else None.

Fixpoint parse_allowed (path : bytes) (n : Z) (ls : list bytes) : Result (list EndpointId) Error :=
  match ls with
  | [] => Ok []
  | l :: ls =>
      match entry l with
      | [] => parse_allowed path (n + 1) ls
      | w => let? id := ok_or (NotAnEndpointId path (n + 1)) (parse_endpoint_id w) in
             let? ids := parse_allowed path (n + 1) ls in Ok (id :: ids)
      end
  end.

Definition read_allowlist (disk : Disk) (path : bytes) : Result (list EndpointId) Error :=
  let? text := read_to_string disk path in parse_allowed path 0 (lines text).

(** ** Opening descriptors *)

Record Opener := mkOpener { secret : SecretKey; exit_id : EndpointId }.

Definition opener_load_or_create (disk : Disk) (path : bytes) (id : EndpointId) (fresh : SecretKey) (ok : bool)
    : Result (Opener * Disk) Error :=
  let? r := load_or_create 32 disk path (secret_to_storage fresh) ok in
  Ok (mkOpener (secret_from_storage r.1) id, r.2).

Definition public_key (o : Opener) : bytes := url_encode (pk_to_bytes (public (secret o))).

(** Seconds since the epoch, by the hour. *)
Definition current_hour (now : Z) : Z := now / 3600.

Definition endpoint_of (k : arr 32) : option EndpointId := if valid_key k then Some k else None.

Definition opener_open (o : Opener) (now : Z) (sealed : bytes) : option CircuitHop :=
  w ← rok (Hybrid.hop_from_bytes sealed);
  hop ← rok (Hybrid.hop_open w (secret o) (exit_id o) (current_hour now));
  destination ← endpoint_of (Hybrid.destination hop);
  return_key ← endpoint_of (Hybrid.return_key hop);
  Some (mkCircuitHop destination (rs <$> Hybrid.next_relay hop) return_key).

(** ** Dialling *)

Definition permitted (allowed : option (list bytes)) (u : bytes) : bool :=
  match allowed with None => true | Some urls => existsb (fun a => bool_decide (a = u)) urls end.

(** A dial, if it is permitted: [connect] is the address parsed, resolved and connected. *)
Definition dial (allowed : option (list bytes)) (u : bytes) (connect : bytes -> bool) : bool :=
  permitted allowed u && connect u.

(** What follows the last space. *)
Definition last_word (l : bytes) : bytes := match rsplit SPACE l with Some (_, w) => w | None => l end.

(** A key fetched: [response] is the body of a response that succeeded. *)
Definition fetch_circuit_key (allowed : option (list bytes)) (u : bytes) (response : bytes -> option bytes) : option bytes :=
  if negb (permitted allowed u) then None
  else
    body ← response u;
    let key := last_word (trim body) in
    l ← url_decode key;
    _ ← pk_from_bytes l;
    Some key.

(** ** Starting *)

Inductive Admission := Everybody | Only (ids : list EndpointId).

Definition admission (disk : Disk) (cli : Cli) : Result Admission Error :=
  if open_to_all cli then Ok Everybody
  else
    let? path := ok_or NoChoice (allow cli) in
    let? ids := read_allowlist disk path in
    match ids with [] => Err (NothingAllowed path) | _ => Ok (Only ids) end.

Definition permits (a : Admission) (id : EndpointId) : bool :=
  match a with Everybody => true | Only ids => bool_decide (id ∈ ids) end.

(** [None] does not dial at all. *)
Definition chaining (disk : Disk) (cli : Cli) : Result (option (option (list bytes))) Error :=
  if chain cli then
    match chain_to cli with
    | None => Ok (Some None)
    | Some path => let? urls := read_lines disk path in match urls with [] => Err (NoRelays path) | _ => Ok (Some (Some urls)) end
    end
  else Ok None.

(** The name on the page, and the mark. *)
Definition branding `{B64 : Base64} (disk : Disk) (cli : Cli) : Result (option (bytes * bytes)) Error :=
  match operator cli with
  | Some name => let? mark := match logo cli with Some path => read_logo disk path | None => Ok [] end in Ok (Some (name, mark))
  | None => Ok None
  end.

Record Config := mkConfig {
  brand : option (bytes * bytes);
  access : Admission;
  circuit_opener : option Opener;
  circuit_dialer : option (option (list bytes));
}.

(** [new_identity] and [new_secret] are the keys generated, if there are none yet;
    [public_of] is an identity's public half.  The [expect] of an identity is what
    [clap_ok] is for. *)
Definition start `{B64 : Base64} (disk : Disk) (cli : Cli) (public_of : arr 32 -> EndpointId) (new_identity : arr 32) (new_secret : SecretKey)
    (ok : bool) : Result (Config * Disk) Error :=
  let? brand := branding disk cli in
  let? access := admission disk cli in
  let? id := match identity cli with
             | Some path => let? r := load_or_create 32 disk path new_identity ok in Ok (Some (public_of r.1), r.2)
             | None => Ok (None, disk)
             end in
  let? op := match circuit_key cli, id.1 with
             | Some path, Some me => let? r := opener_load_or_create id.2 path me new_secret ok in Ok (Some r.1, r.2)
             | _, _ => Ok (None, id.2)
             end in
  let? dialer := chaining disk cli in
  Ok (mkConfig brand access op.1 dialer, op.2).
End Process.

(** ** What comes of it *)

Section Facts.
Context `{BL : Blake3} `{B64 : Base64} {AE : Aead} {AL : AeadLaws AE} {XW : XWing} {XL : XWingLaws XW} {XS : @XWingStorage XW}
  {ED : Ed25519} {KT : KeyText} {UE : Base64Url}.

Lemma opener_opens o hop r fresh w now :
  Hybrid.hop_seal (public (secret o)) (exit_id o) hop r fresh = Ok w ->
  Hybrid.next_ok hop -> u64 (Hybrid.hour hop) -> 0 < current_hour now < u64_max ->
  (forall h, current_hour now - 1 <= h <= current_hour now + 1 ->
    Hybrid.circuit_binding (exit_id o) h <> Hybrid.circuit_binding (exit_id o) (Hybrid.hour hop) ->
    aead_open (ab (Hybrid.circuit_key (Hybrid.decapsulate (secret o) (Hybrid.h_kem w)))) (ab (Hybrid.h_nonce w))
      (Hybrid.circuit_binding (exit_id o) h) (Hybrid.h_sealed w) = None) ->
  length (Hybrid.hop_to_bytes w) = SEALED_HOP_LEN /\
  opener_open o now (Hybrid.hop_to_bytes w) =
    if (abs_diff (current_hour now) (Hybrid.hour hop) <=? 1) && valid_key (Hybrid.destination hop) && valid_key (Hybrid.return_key hop)
    then Some (mkCircuitHop (Hybrid.destination hop) (rs <$> Hybrid.next_relay hop) (Hybrid.return_key hop)) else None.
Proof.
  intros Hs Hn Hh Hnow Ha.
  destruct (Hybrid.circuit_opens_in_its_hour (secret o) (exit_id o) (exit_id o) hop r fresh w (current_hour now) Hs Hn Hh Hnow Ha)
    as (Hl & Hb & Ho).
  split; [apply Nat2Z.inj; exact Hl|]. unfold opener_open. rewrite Hb. cbn [rok mbind option_bind]. rewrite Ho.
  rewrite bool_decide_eq_true_2 by done. cbn [andb]. destruct (_ <=? 1); [|done]. cbn [rok mbind option_bind andb]. unfold endpoint_of.
  destruct (valid_key (Hybrid.destination hop)); [|done]. cbn [mbind option_bind andb]. by destruct (valid_key (Hybrid.return_key hop)).
Qed.

(** C7: a circuit asked for with a descriptor sealed to this relay, within an hour of
    when it was sealed, is read off the wire as it was sent and is open to whom it was
    sealed for, under the return key it was sealed with, and to nobody else; the caller
    is told so by the circuit's number. *)
Theorem a_sealed_circuit_opens_at_its_exit o dialer hop r fresh w y n x c now :
  Hybrid.hop_seal (public (secret o)) (exit_id o) hop r fresh = Ok w ->
  Hybrid.next_relay hop = None -> u64 (Hybrid.hour hop) -> 0 < current_hour now < u64_max ->
  abs_diff (current_hour now) (Hybrid.hour hop) <= 1 ->
  (forall h, current_hour now - 1 <= h <= current_hour now + 1 ->
    Hybrid.circuit_binding (exit_id o) h <> Hybrid.circuit_binding (exit_id o) (Hybrid.hour hop) ->
    aead_open (ab (Hybrid.circuit_key (Hybrid.decapsulate (secret o) (Hybrid.h_kem w)))) (ab (Hybrid.h_nonce w))
      (Hybrid.circuit_binding (exit_id o) h) (Hybrid.h_sealed w) = None) ->
  let dest := Hybrid.destination hop in let key := Hybrid.return_key hop in
  valid_key dest = true -> valid_key key = true -> u32 c ->
  conns (table y) !! n = Some x -> at_loop x = true -> at_least (protocol_version x) V3 = true -> circuits x !! c = None ->
  (size (circuits x) < MAX_CIRCUITS_PER_CONNECTION)%nat -> Z.of_nat (size (returns (table y))) < MAX_CIRCUITS_TOTAL ->
  clients (table y) !! key = None -> aliases (table y) !! key = None -> returns (table y) !! key = None ->
  let asked := COpenCircuit c (Hybrid.hop_to_bytes w) [] in
  client_msg_read (client_msg_write asked) = Ok asked /\
  exists y' x', step (Some (opener_open o)) dialer y (FrameCame n now asked true) = Some y' /\
    conns (table y') !! n = Some x' /\ wrote x' = wrote x ++ [RCircuitOpened c] /\
    circuits x' = <[c := mkForward dest key None]> (circuits x) /\
    returns (table y') = <[key := mkReturn (endpoint_id x) c dest]> (returns (table y)).
Proof.
  intros Hs Hnext Hh Hnow Hd Ha dest key Hvd Hvk Hc Hn Hl Hv Hk Hsz Ht H1 H2 H3 asked.
  destruct (opener_opens o hop r fresh w now Hs ltac:(unfold Hybrid.next_ok; by rewrite Hnext) Hh Hnow Ha) as [Hlen Ho].
  unfold dest in Hvd. unfold key in Hvk.
  rewrite (proj2 (Z.leb_le _ _)), Hvd, Hvk, Hnext in Ho by done. cbn [andb fmap option_fmap option_map] in Ho. split.
  - unfold asked. rewrite client_msg_is_read by (split; [done|]; split; [done|by left]).
    unfold client_msg_len. rewrite frame_type_one. unfold zlen. rewrite Hlen. done.
  - eexists _, _. split; [by apply (opens_here _ _ y n x now c (Hybrid.hop_to_bytes w) dest key (opener_open o))|].
    split; [by eapply (lookup_with_conn (with_returns (table y) _) n _ x)|]. by split_and!.
Qed.

Lemma parse_allowed_entries path n ls ids :
  parse_allowed path n ls = Ok ids ->
  forall id, id ∈ ids <-> exists l, l ∈ ls /\ entry l <> [] /\ parse_endpoint_id (entry l) = Some id.
Proof.
  revert n ids. induction ls as [|l ls IH]; intros n ids; cbn [parse_allowed].
  - intros [= <-] id. split; [set_solver|]. intros (l & Hl & _). set_solver.
  - destruct (entry l) as [|b w] eqn:El.
    + intros H id. rewrite (IH _ _ H id). split; intros (l' & Hl & Hne & Hp); exists l'; split_and!; try done; [set_solver|].
      by apply elem_of_cons in Hl as [->|Hl].
    + intros H id. apply rbind_ok in H as (i & Hi & H). apply rbind_ok in H as (ids' & His & [= <-]). unfold ok_or in Hi.
      destruct (parse_endpoint_id (b :: w)) as [j|] eqn:Ej; [|done]. injection Hi as <-. rewrite elem_of_cons, (IH _ _ His id). split.
      * intros [->|(l' & Hl & Hne & Hp)]; [exists l|exists l']; rewrite ?El; split_and!; try done; set_solver.
      * intros (l' & [->|Hl]%elem_of_cons & Hne & Hp); [left; rewrite El in Hp; congruence|right; by exists l'].
Qed.

(** C31: a relay that starts serves everybody only if it was told to be open; otherwise
    exactly those a line of its file names, of whom there is one at least.  It opens
    circuits only with a key file and an identity, and dials only if told to chain, and
    then, given a file, exactly the addresses that are a line of it. *)
Theorem a_relay_never_falls_open disk cli public_of new_identity new_secret ok cfg disk' :
  start disk cli public_of new_identity new_secret ok = Ok (cfg, disk') ->
  (open_to_all cli = false -> exists path text ids,
     allow cli = Some path /\ disk !! path = Some text /\ access cfg = Only ids /\ ids <> [] /\
     forall id, permits (access cfg) id = true <->
       exists l, l ∈ lines text /\ entry l <> [] /\ parse_endpoint_id (entry l) = Some id) /\
  (is_Some (circuit_opener cfg) -> is_Some (circuit_key cli) /\ is_Some (identity cli)) /\
  (is_Some (circuit_dialer cfg) -> chain cli = true) /\
  (forall allowed path, circuit_dialer cfg = Some allowed -> chain_to cli = Some path ->
     exists text, disk !! path = Some text /\
       forall u, permitted allowed u = true <-> u <> [] /\ exists l, l ∈ lines text /\ entry l = u).
Proof.
  unfold start. intros H. apply rbind_ok in H as (br & _ & H). apply rbind_ok in H as (a & Ha & H). apply rbind_ok in H as (i & Hi & H).
  apply rbind_ok in H as (o & Ho & H). apply rbind_ok in H as (d & Hd & [= <- <-]).
  cbn [access circuit_opener circuit_dialer]. split_and!.
  - intros Hop. unfold admission in Ha. rewrite Hop in Ha. destruct (allow cli) as [path|]; [|done]. cbn [ok_or rbind] in Ha.
    apply rbind_ok in Ha as (ids & Hids & Ha). unfold read_allowlist, read_to_string in Hids.
    apply rbind_ok in Hids as (text & Ht & Hids). destruct (disk !! path) as [l|] eqn:El; [|done].
    destruct (utf8_valid l); [|done]. injection Ht as ->. exists path, text.
    destruct ids as [|id0 ids]; [done|]. injection Ha as <-. exists (id0 :: ids). split_and!; try done.
    intros id. cbn [permits]. rewrite bool_decide_eq_true. by apply (parse_allowed_entries path 0 (lines text)).
  - intros Hsome. destruct (circuit_key cli) as [p|]; [|injection Ho as <-; by destruct Hsome].
    destruct (identity cli) as [q|]; [by split; eexists|]. injection Hi as <-. cbn in Ho. injection Ho as <-. by destruct Hsome.
  - intros Hsome. unfold chaining in Hd. destruct (chain cli); [done|]. injection Hd as <-. by destruct Hsome.
  - intros allowed path -> Hc. unfold chaining in Hd. rewrite Hc in Hd. destruct (chain cli); [|done].
    apply rbind_ok in Hd as (urls & Hu & Hd). unfold read_lines, read_to_string in Hu. apply rbind_ok in Hu as (text & Ht & [= <-]).
    destruct (disk !! path) as [l|] eqn:El; [|done]. destruct (utf8_valid l); [|done]. injection Ht as ->. exists text. split; [done|].
    intros u. destruct (retain _ _) as [|u0 us] eqn:Er; [done|]. injection Hd as <-. cbn [permitted]. rewrite <- Er.
    rewrite existsb_exists. setoid_rewrite <- list_elem_of_In. setoid_rewrite elem_of_retain. setoid_rewrite list_elem_of_fmap.
    setoid_rewrite bool_decide_eq_true. split.
    + intros (v & (Hv & l & -> & Hl) & <-). rewrite negb_true_iff, bool_decide_eq_false in Hv. split; [done|]. by exists l.
    + intros (Hne & l & Hl & <-). exists (entry l). split; [|done]. split; [by rewrite negb_true_iff, bool_decide_eq_false|]. by exists l.
Qed.
End Facts.

(** ** Witnesses *)

Module Witness.
Import Hybrid.HybridExample Toy.
#[local] Instance toy_base64 : Base64 := {| b64_decode l := Some l; b64_encode l := l |}.
#[local] Instance toy_url : Base64Url := {| url_encode l := l; url_decode l := Some l |}.
#[local] Instance toy_keys : @XWingStorage xwing :=
  @GroupLife.Build_XWingStorage xwing (fun k => ab k) (try_into 32) (fun k => k) (fun k => k).
#[local] Instance toy_names : KeyText := {| hexlower_decode l := Some (take 32 l); base32_decode l := Some l |}.

(** A scheme in which every key is one. *)
Definition signing : Ed25519 := {| valid_key := fun _ => true; verify_strict := fun _ _ _ => true |}.
#[local] Existing Instance signing | 0.

Example png_is_its_signature : PNG = [x89; x50; x4e; x47; x0d; x0a; x1a; x0a].
Proof. vm_compute. reflexivity. Qed.

Example the_last_word_is_the_key : last_word [x61; x20; x62; x20; x63; x64] = [x63; x64] /\ last_word [x63; x64] = [x63; x64].
Proof. split; reflexivity. Qed.

(** An hour and a little after the hour of [direct]. *)
Definition direct : Hybrid.Hop := Hybrid.mkHop (be_arr 32 8) None (be_arr 32 9) 1000.
Definition late : Z := 1001 * 3600 + 5.
Definition relay : Opener := mkOpener sk exit_id.

Definition to_it : Hybrid.SealedHop :=
  match Hybrid.hop_seal sk exit_id direct [x01] fresh with
  | Ok w => w
  | Err _ => Hybrid.mkSealedHop (be_arr _ 0) fresh []
  end.

Definition caller : EndpointId := be_arr 32 1.
Definition connected : Relay := default started (run None false started [Arrives caller V3; Enters 0]).
Definition conn_of_caller : Conn := default (mkConn caller V3 false Gone true [] [] [] ∅ []) (conns (table connected) !! 0%nat).

Lemma a_sealed_circuit_opens_at_its_exit_witness :
  exists y' x', step (Some (opener_open relay)) false connected (FrameCame 0 late (COpenCircuit 5 (Hybrid.hop_to_bytes to_it) []) true) = Some y' /\
    conns (table y') !! 0%nat = Some x' /\ wrote x' = wrote conn_of_caller ++ [RCircuitOpened 5] /\
    circuits x' = <[5 := mkForward (be_arr 32 8) (be_arr 32 9) None]> (circuits conn_of_caller) /\
    returns (table y') = <[be_arr 32 9 := mkReturn caller 5 (be_arr 32 8)]> (returns (table connected)).
Proof.
  refine (proj2 (a_sealed_circuit_opens_at_its_exit (XL := xwing_laws) relay false direct [x01] fresh to_it connected 0
    conn_of_caller 5 late _ _ _ _ _ _ _ _ _ _ _ _ _ _ _ _ _ _)).
  - vm_compute. reflexivity.
  - reflexivity.
  - vm_compute. split; intros E; discriminate E.
  - vm_compute. split; reflexivity.
  - vm_compute. intros E. discriminate E.
  - intros h Hh Hne. change (current_hour late) with 1001 in Hh. assert (h = 1000 \/ h = 1001 \/ h = 1002) as [->|[->| ->]] by lia.
    + by destruct Hne.
    + vm_compute. reflexivity.
    + vm_compute. reflexivity.
  - reflexivity.
  - reflexivity.
  - vm_compute. split; intros E; discriminate E.
  - vm_compute. reflexivity.
  - vm_compute. reflexivity.
  - vm_compute. reflexivity.
  - vm_compute. reflexivity.
  - vm_compute. lia.
  - vm_compute. reflexivity.
  - vm_compute. reflexivity.
  - vm_compute. reflexivity.
  - vm_compute. reflexivity.
Defined.

(** A file of one id, in capitals, between a comment and a blank line. *)
Definition here : bytes := [x61].
Definition named_id : bytes := replicate 32 x41.
Definition on_disk : Disk := {[here := [x23; x61; x0a; x20] ++ named_id ++ [x20; x23; x0a; x0a]]}.
Definition told : Cli := mkCli (Some here) false None None false None None None.
Definition begun : Result (Config * Disk) Error := start on_disk told (fun k => k) (be_arr 32 1) sk true.

Example one_is_named :
  match begun with Ok (mkConfig None (Only ids) None None, _) => ab <$> ids | _ => [] end = [named_id].
Proof. vm_compute. reflexivity. Qed.

Lemma a_relay_never_falls_open_witness :
  exists (config : Config) (disk' : Disk), begun = Ok (config, disk') /\
    forall id, permits (access config) id = true <->
      exists l, l ∈ lines ([x23; x61; x0a; x20] ++ named_id ++ [x20; x23; x0a; x0a]) /\ entry l <> [] /\ parse_endpoint_id (entry l) = Some id.
Proof.
  assert (match begun with Ok _ => true | Err _ => false end = true) as Hok by (vm_compute; reflexivity).
  destruct begun as [[config disk']|e] eqn:Hs; [|discriminate Hok].
  exists config, disk'. split; [reflexivity|].
  destruct (a_relay_never_falls_open (XW := xwing) on_disk told (fun k => k) (be_arr 32 1) sk true config disk' Hs) as (Hf & _).
  destruct (Hf eq_refl) as (path & text & ids & Hpath & Ht & _ & _ & Hp). injection Hpath as <-. vm_compute in Ht. injection Ht as <-.
  exact Hp.
Defined.
End Witness.
