(* ===== verification/RelayReceive.v ===== *)
(** * What an endpoint reads of what its relays sent

    [RelayTransport::poll_recv] of [rotelyx-transport]
    ([socket/transports/relay.rs]): the queue that the connections to relays fill
    ([RelayClient]), and the buffers QUIC empties it into.  A receiver of tokio keeps a
    waker only when it found its queue empty; [waker] says whether it does. *)

From S2P Require Import Prelude Crypto RelayFrame.

Definition RECV_QUEUE : nat := 512.

Record Received := mkReceived { from_url : bytes; from_peer : EndpointId; datagrams : Datagrams }.

Record Receiver := mkReceiver {
  pending_item : option Received;
  relay_datagram_recv_queue : list Received;
  waker : bool;
}.

Definition with_pending (r : Receiver) (p : option Received) : Receiver :=
  mkReceiver p (relay_datagram_recv_queue r) (waker r).

(** [try_send] of a relay's connection: whether there was room, and whether the reader is
    woken. *)
Definition try_send (r : Receiver) (d : Received) : bool * bool * Receiver :=
  if (length (relay_datagram_recv_queue r) <? RECV_QUEUE)%nat then
    (true, waker r, mkReceiver (pending_item r) (relay_datagram_recv_queue r ++ [d]) false)
  else (false, false, r).

Definition poll_recv_queue (r : Receiver) : option Received * Receiver :=
  match pending_item r, relay_datagram_recv_queue r with
  | Some d, _ => (Some d, r)
  | None, d :: queue => (Some d, mkReceiver (Some d) queue (waker r))
  | None, [] => (None, mkReceiver None [] true)
  end.

(** A buffer that was filled: its bytes, where a datagram ends and the next begins, and
    who they are from. *)
Record Slot := mkSlot { filled : bytes; stride : Z; filled_from : bytes * EndpointId }.

Definition slot_of (d : Received) (taken : Datagrams) : Slot :=
  mkSlot (contents taken) (match segment_size taken with Some s => s | None => zlen (contents taken) end)
    (from_url d, from_peer d).

(** [bufs] are the lengths of the buffers.  What is too long for its buffer is dropped,
    and ends the turn. *)
Fixpoint fill (bufs : list Z) (r : Receiver) : list Slot * Receiver :=
  match bufs with
  | [] => ([], r)
  | buf :: bufs =>
      match poll_recv_queue r with
      | (None, r) => ([], r)
      | (Some d, r) =>
          let num_segments := match segment_size (datagrams d) with None => 1%nat | Some s => Z.to_nat (buf / s) end in
          let '(taken, rest) := take_segments (datagrams d) num_segments in
          let left := match contents rest with [] => None | _ => Some (mkReceived (from_url d) (from_peer d) rest) end in
          let r := with_pending r left in
          if buf <? zlen (contents taken) then ([], r)
          else let '(slots, r) := fill bufs r in (slot_of d taken :: slots, r)
      end
  end.

(** [None] is [Poll::Pending]. *)
Definition poll_recv (bufs : list Z) (r : Receiver) : option (list Slot) * Receiver :=
  match fill bufs r with
  | ([], r) => (None, r)
  | (slots, r) => (Some slots, r)
  end.

(** What the endpoint's driver makes of a buffer: pieces of its stride. *)
Definition cut (s : Slot) : list bytes := chunks (length (filled s)) (Z.to_nat (stride s)) (filled s).

Definition handed (s : Slot) : list ((bytes * EndpointId) * bytes) := (fun l => (filled_from s, l)) <$> cut s.

(** ** What fits is read *)

(** The datagrams that wait, each with who it is from. *)
Definition waiting_of (d : Received) : list ((bytes * EndpointId) * bytes) :=
  (fun l => ((from_url d, from_peer d), l)) <$> pieces (datagrams d).

Definition waiting (r : Receiver) : list ((bytes * EndpointId) * bytes) :=
  (option_list (pending_item r) ++ relay_datagram_recv_queue r) ≫= waiting_of.

Definition fits (b : Z) (d : Datagrams) : Prop :=
  batch_ok d /\ contents d <> [] /\ match segment_size d with Some s => s <= b | None => zlen (contents d) <= b end.

Definition all_fit (b : Z) (r : Receiver) : Prop :=
  Forall (fun d => fits b (datagrams d)) (option_list (pending_item r) ++ relay_datagram_recv_queue r).

Lemma cut_pieces d taken :
  contents taken <> [] -> batch_ok taken ->
  handed (slot_of d taken) = (fun l => ((from_url d, from_peer d), l)) <$> pieces taken.
Proof.
  intros Hne Hb. unfold handed, cut, slot_of, pieces. cbn [filled stride filled_from]. f_equal.
  destruct (segment_size taken) as [s|] eqn:Es; [done|].
  unfold zlen. rewrite Nat2Z.id. destruct (contents taken) as [|x l] eqn:Ec; [done|].
  by rewrite chunks_whole by (cbn; done || lia).
Qed.

(** What is taken of something that fits, and what is left. *)
Lemma taken_fits b d :
  fits b d ->
  let num_segments := match segment_size d with None => 1%nat | Some s => Z.to_nat (b / s) end in
  let '(taken, rest) := take_segments d num_segments in
  pieces d = pieces taken ++ pieces rest /\ contents taken <> [] /\ batch_ok taken /\ zlen (contents taken) <= b /\
  (contents rest <> [] -> fits b rest) /\ (length (contents rest) < length (contents d))%nat.
Proof.
  intros (Hb & Hne & Hfit). cbn zeta. set (n := match segment_size d with None => 1%nat | Some s => Z.to_nat (b / s) end).
  assert (0 < n)%nat as Hn.
  { unfold n. destruct (segment_size d) as [s|] eqn:E; [|lia]. unfold batch_ok in Hb. rewrite E in Hb.
    assert (1 <= b / s) by (apply Z.div_le_lower_bound; lia). lia. }
  pose proof (a_batch_is_cut_between_datagrams d n Hb Hn) as H.
  destruct (take_segments d n) as [taken rest] eqn:Et. destruct H as (Hp & _ & Hbt & Hbr & _ & _ & Hlt). specialize (Hlt Hne).
  split; [done|]. unfold take_segments in Et. destruct (segment_size d) as [s|] eqn:Es.
  - unfold batch_ok in Hb. rewrite Es in Hb. injection Et as <- <-. cbn [contents segment_size] in *.
    assert (Z.of_nat n * s <= b) as Hm.
    { unfold n. rewrite Z2Nat.id by (apply Z.div_pos; lia). rewrite Z.mul_comm. apply Z.mul_div_le. lia. }
    split; [|split; [done|split; [|split; [|done]]]].
    + intros E%(f_equal length). rewrite length_take in E. cbn in E. unfold zlen in Hb. nia.
    + unfold zlen. rewrite length_take. nia.
    + intros Hr. split; [done|]. split; [done|]. cbn [segment_size contents].
      destruct (_ <=? _)%nat eqn:E; [|done]. apply Nat.leb_le in E. unfold zlen. lia.
  - injection Et as <- <-. by repeat (split; [done|]).
Qed.

Lemma poll_queue_waiting b r d r' :
  all_fit b r -> poll_recv_queue r = (Some d, r') ->
  fits b (datagrams d) /\ waiting r = waiting_of d ++ (relay_datagram_recv_queue r' ≫= waiting_of) /\
  Forall (fun d => fits b (datagrams d)) (relay_datagram_recv_queue r').
Proof.
  unfold all_fit, waiting, poll_recv_queue. intros Hf H.
  destruct (pending_item r) as [p|]; [|destruct (relay_datagram_recv_queue r) as [|x q]; [done|]]; injection H as <- <-;
    cbn [option_list app relay_datagram_recv_queue] in *; inversion Hf; by split_and!.
Qed.

(** A turn hands over what was waiting, from the front; and unless nothing was, it does
    hand over something and leaves less. *)
Lemma fill_hands_over b n r :
  all_fit b r ->
  let '(slots, r') := fill (replicate n b) r in
  waiting r = (slots ≫= handed) ++ waiting r' /\ all_fit b r'.
Proof.
  revert r. induction n as [|n IH]; intros r Hf; [done|]. cbn [replicate fill].
  destruct (poll_recv_queue r) as [[d|] r1] eqn:Eq.
  - destruct (poll_queue_waiting b r d r1 Hf Eq) as (Hd & Hw & Hq). pose proof (taken_fits b (datagrams d) Hd) as Ht. cbn zeta in Ht.
    destruct (take_segments (datagrams d) _) as [taken rest]. destruct Ht as (Hp & Hne & Hbt & Hl & Hr & _).
    rewrite (proj2 (Z.ltb_ge _ _) Hl).
    set (left := match contents rest with [] => None | _ => _ end).
    assert (all_fit b (with_pending r1 left) /\ waiting (with_pending r1 left) =
      ((fun l => ((from_url d, from_peer d), l)) <$> pieces rest) ++ (relay_datagram_recv_queue r1 ≫= waiting_of)) as [Hf' Hw'].
    { unfold all_fit, waiting, left. cbn [pending_item relay_datagram_recv_queue with_pending].
      destruct (contents rest) as [|x l] eqn:Ec; cbn [option_list app].
      - split; [done|]. unfold pieces. rewrite Ec. by destruct (segment_size rest).
      - split; [|done]. constructor; [by apply Hr|done]. }
    specialize (IH _ Hf'). destruct (fill (replicate n b) (with_pending r1 left)) as [slots r'] eqn:Efl. destruct IH as [IH1 IH2].
    split; [|done]. cbn [mbind list_bind]. rewrite Hw, <- app_assoc. unfold waiting_of at 1. rewrite Hp, fmap_app, <- app_assoc.
    f_equal; [symmetry; by apply cut_pieces|]. by rewrite <- IH1, Hw'.
  - unfold poll_recv_queue in Eq. destruct (pending_item r) eqn:Ep; [done|]. destruct (relay_datagram_recv_queue r) eqn:Er; [|done].
    injection Eq as <-. split; [unfold waiting; by rewrite Ep, Er|]. by constructor.
Qed.

(** C9: each turn hands over what waits from the front, in its order, every datagram
    whole and with who it is from, and nothing else; it hands over something whenever
    anything waits, and asks to be woken when nothing does.  Provided that what waits
    fits the buffers. *)
Theorem what_fits_is_read b n r :
  0 < b -> (0 < n)%nat -> all_fit b r ->
  let '(o, r') := poll_recv (replicate n b) r in
  waiting r = (default [] o ≫= handed) ++ waiting r' /\ all_fit b r' /\
  match o with
  | Some slots => exists x l, slots ≫= handed = x :: l
  | None => waiting r = [] /\ waker r' = true
  end.
Proof.
  intros Hb Hn Hf. pose proof (fill_hands_over b n r Hf) as H. unfold poll_recv.
  destruct n as [|n]; [lia|]. cbn [replicate fill] in *.
  destruct (poll_recv_queue r) as [[d|] r1] eqn:Eq.
  - destruct (poll_queue_waiting b r d r1 Hf Eq) as (Hd & _ & _). pose proof (taken_fits b (datagrams d) Hd) as Ht. cbn zeta in Ht.
    destruct (take_segments (datagrams d) _) as [taken rest]. destruct Ht as (_ & Hne & Hbt & Hl & _).
    rewrite (proj2 (Z.ltb_ge _ _) Hl) in *. destruct (fill _ _) as [slots r'] in *. destruct H as [H1 H2].
    split; [done|]. split; [done|]. cbn [mbind list_bind]. unfold handed at 1, cut.
    change (filled (slot_of d taken)) with (contents taken). destruct (contents taken) as [|x l] eqn:Ec; [done|].
    cbn [length chunks fmap list_fmap app]. by eexists _, _.
  - destruct H as [H1 H2]. split; [done|]. split; [done|]. unfold poll_recv_queue in Eq.
    destruct (pending_item r) eqn:Ep; [done|]. destruct (relay_datagram_recv_queue r) eqn:Er; [|done]. injection Eq as <-.
    split; [unfold waiting; by rewrite Ep, Er|done].
Qed.

(** ** What does not *)

(** A batch of which one datagram is longer than a buffer, and the rest no shorter. *)
Definition too_long (b : Z) (d : Datagrams) : Prop :=
  match segment_size d with Some s => b < s /\ s < zlen (contents d) | None => False end.

Lemma fill_stuck b n d q w :
  0 <= b -> too_long b (datagrams d) ->
  fill (replicate n b) (mkReceiver (Some d) q w) =
    (replicate n (mkSlot [] 0 (from_url d, from_peer d)), mkReceiver (Some d) q w).
Proof.
  intros Hb Hd. induction n as [|n IH]; [done|]. cbn [replicate fill poll_recv_queue pending_item].
  destruct d as [u p [e [s|] l]]; cbn in Hd; [|done]. destruct Hd as [Hs Hl]. cbn [datagrams segment_size from_url from_peer].
  rewrite (Z.div_small b s) by lia. unfold take_segments. cbn [segment_size contents ecn Z.to_nat Nat.mul Nat.min Nat.ltb Nat.leb andb].
  rewrite take_0, drop_0. unfold zlen in Hl. rewrite (proj2 (Nat.leb_gt _ _)) by lia.
  destruct l as [|x l]; [cbn in Hl; lia|]. cbn [contents]. change (zlen []) with 0. rewrite (proj2 (Z.ltb_ge b 0) Hb).
  unfold with_pending. cbn [relay_datagram_recv_queue waker]. cbn [datagrams from_url from_peer] in IH. by rewrite IH.
Qed.

Fixpoint polls (k : nat) (bufs : list Z) (r : Receiver) : list (option (list Slot)) * Receiver :=
  match k with
  | O => ([], r)
  | S k => let '(o, r) := poll_recv bufs r in let '(os, r) := polls k bufs r in (o :: os, r)
  end.

(** A batch whose datagrams are longer than the buffers is never done with: from
    when it is at the front, every turn fills every buffer with nothing, says that it
    read, and leaves everything as it was.  Nothing that any relay sends is read again. *)
Theorem one_batch_stops_the_reading b n k d q w :
  0 <= b -> (0 < n)%nat -> too_long b (datagrams d) ->
  polls k (replicate n b) (mkReceiver None (d :: q) w) =
    (replicate k (Some (replicate n (mkSlot [] 0 (from_url d, from_peer d)))),
     if (k =? 0)%nat then mkReceiver None (d :: q) w else mkReceiver (Some d) q w).
Proof.
  intros Hb Hn Hd. set (slots := replicate n (mkSlot [] 0 (from_url d, from_peer d))).
  assert (forall r, r = mkReceiver None (d :: q) w \/ r = mkReceiver (Some d) q w ->
    poll_recv (replicate n b) r = (Some slots, mkReceiver (Some d) q w)) as Hp.
  { intros r Hr. unfold poll_recv. replace (fill (replicate n b) r) with (slots, mkReceiver (Some d) q w).
    - unfold slots. by destruct n; [lia|].
    - destruct Hr as [->| ->]; [|by rewrite fill_stuck]. destruct n as [|n]; [lia|].
      pose proof (fill_stuck b (S n) d q w Hb Hd) as E. exact (eq_sym E). }
  assert (forall k, polls k (replicate n b) (mkReceiver (Some d) q w) = (replicate k (Some slots), mkReceiver (Some d) q w)) as Hk.
  { induction k0 as [|k0 IH]; [done|]. cbn [polls]. rewrite Hp by auto. by rewrite IH. }
  destruct k as [|k]; [done|]. cbn [polls Nat.eqb replicate]. rewrite Hp by auto. by rewrite Hk.
Qed.

(** One datagram that is longer than a buffer is dropped, and the turn says that
    there is nothing to read: with everything behind it still waiting, and no waker kept
    for what comes. *)
Theorem a_long_datagram_stops_the_waking b bufs d d' q :
  segment_size (datagrams d) = None -> b < zlen (contents (datagrams d)) ->
  poll_recv (b :: bufs) (mkReceiver None (d :: d' :: q) false) = (None, mkReceiver None (d' :: q) false) /\
  forall x ok wakes r, try_send (mkReceiver None (d' :: q) false) x = (ok, wakes, r) -> wakes = false /\ waker r = false.
Proof.
  intros Hs Hl. split.
  - unfold poll_recv. cbn [fill poll_recv_queue pending_item relay_datagram_recv_queue]. rewrite Hs.
    unfold take_segments. rewrite Hs. cbn [contents]. by rewrite (proj2 (Z.ltb_lt _ _) Hl).
  - intros x ok wakes r. unfold try_send. case_match; by intros [= <- <- <-].
Qed.

Module Witness.
Definition url : bytes := be_bytes 2 7.
Definition anna : EndpointId := be_arr 32 4.
Definition one (l : bytes) : Received := mkReceived url anna (mkDatagrams None None l).
Definition many (s : Z) (l : bytes) : Received := mkReceived url anna (mkDatagrams None (Some s) l).

Definition some : Receiver := mkReceiver None [one (be_bytes 3 1); many 2 (be_bytes 5 2); one (be_bytes 4 3)] false.

Lemma what_fits_is_read_witness :
  all_fit 4 some /\
  let '(o, r') := poll_recv (replicate 3 4) some in
  waiting some = (default [] o ≫= handed) ++ waiting r' /\ length (waiting r') = 1%nat.
Proof.
  assert (all_fit 4 some) as Hf.
  { unfold all_fit. repeat (constructor; [split; [vm_compute; repeat split; discriminate || done|split; [vm_compute; discriminate|vm_compute; discriminate]]|]).
    constructor. }
  split; [exact Hf|]. pose proof (what_fits_is_read 4 3 some ltac:(lia) ltac:(lia) Hf) as H.
  destruct (poll_recv (replicate 3 4) some) as [o r'] eqn:E. destruct H as (H & _). split; [exact H|].
  vm_compute in E. injection E as _ <-. vm_compute. reflexivity.
Defined.

Lemma one_batch_stops_the_reading_witness :
  too_long 4 (datagrams (many 5 (be_bytes 7 1))) /\
  polls 3 (replicate 2 4) (mkReceiver None [many 5 (be_bytes 7 1); one (be_bytes 3 1)] true) =
    (replicate 3 (Some (replicate 2 (mkSlot [] 0 (url, anna)))), mkReceiver (Some (many 5 (be_bytes 7 1))) [one (be_bytes 3 1)] true).
Proof.
  split; [vm_compute; split; reflexivity|].
  apply (one_batch_stops_the_reading 4 2 3 (many 5 (be_bytes 7 1)) [one (be_bytes 3 1)] true); [lia|lia|vm_compute; split; reflexivity].
Defined.

Lemma a_long_datagram_stops_the_waking_witness :
  poll_recv [4; 4] (mkReceiver None [one (be_bytes 5 1); one (be_bytes 3 1)] false) =
    (None, mkReceiver None [one (be_bytes 3 1)] false).
Proof.
  apply (a_long_datagram_stops_the_waking 4 [4] (one (be_bytes 5 1)) (one (be_bytes 3 1)) []);
    [reflexivity|vm_compute; reflexivity].
Defined.
End Witness.
