(* ===== verification/RelayClient.v ===== *)
(** * The connections an endpoint keeps to its relays

    [socket/transports/relay/actor.rs] of [rotelyx-transport]: an actor for each relay
    ([ActiveRelayActor]), which dials it, says again what it was asked to, opens the
    circuits it was given descriptors for and carries datagrams; and the one that starts
    them and hands them what there is to do ([RelayActor]).

    A step is one turn of a task.  While a frame is being sent an actor reads what its
    relay says and nothing else, so what it sends is part of its state ([Doing]), and the
    sending ends in a step of its own: when it was sent, when the connection broke, or
    when the actor was found inactive meanwhile and went on as if it had been sent.  The
    oneshot a key is answered on is a number.  What an alias signs is an argument.  The
    timing of dials and pings, the status of the home relay and the shutdown of
    everything are left out. *)

From S2P Require Import Prelude Crypto Text RelayFrame RelayReceive.

Definition SEND_DATAGRAM_BATCH_SIZE : nat := 20.
Definition MAX_CIRCUIT_REOPENS : Z := 3.

(** The queues of an actor. *)
Definition INBOX : nat := 64.
Definition SEND_QUEUE : nat := 64.

Record PendingCircuit := mkPendingCircuit { pc_peer : EndpointId; pc_sealed : bytes; pc_inner : bytes }.

Inductive ActiveRelayMessage :=
| BindAlias (key : EndpointId)
| FetchRelayKey (about : bytes) (answer : nat)
| OpenCircuit (peer : EndpointId) (sealed inner : bytes)
| CheckConnection
| SetHomeRelay (is_home : bool).

Record RelaySendItem := mkSendItem { remote_endpoint : EndpointId; item_url : bytes; item : Datagrams }.

(** ** One connection *)

Record ConnectedRelayState := mkConnected {
  endpoints_present : gset EndpointId;
  last_packet_src : option EndpointId;
  pong_pending : option (arr 8);
  established : bool;
  circuits : gmap EndpointId Z;
  by_circuit : gmap Z EndpointId;
  circuit_required : gset EndpointId;
  asking : list (bytes * nat);
  reopen : list EndpointId;
  reopened : gmap EndpointId Z;
}.

Definition connected : ConnectedRelayState := mkConnected ∅ None None false ∅ ∅ ∅ [] [] ∅.

Definition with_present (s : ConnectedRelayState) (src : option EndpointId) (p : gset EndpointId) : ConnectedRelayState :=
  mkConnected p src (pong_pending s) (established s) (circuits s) (by_circuit s) (circuit_required s) (asking s) (reopen s) (reopened s).

Definition with_pong (s : ConnectedRelayState) (d : option (arr 8)) : ConnectedRelayState :=
  mkConnected (endpoints_present s) (last_packet_src s) d (established s) (circuits s) (by_circuit s) (circuit_required s) (asking s)
    (reopen s) (reopened s).

Definition with_established (s : ConnectedRelayState) : ConnectedRelayState :=
  mkConnected (endpoints_present s) (last_packet_src s) (pong_pending s) true (circuits s) (by_circuit s) (circuit_required s) (asking s)
    (reopen s) (reopened s).

Definition with_tables (s : ConnectedRelayState) (c : gmap EndpointId Z) (b : gmap Z EndpointId) (r : gset EndpointId)
    : ConnectedRelayState :=
  mkConnected (endpoints_present s) (last_packet_src s) (pong_pending s) (established s) c b r (asking s) (reopen s) (reopened s).

Definition with_asking (s : ConnectedRelayState) (l : list (bytes * nat)) : ConnectedRelayState :=
  mkConnected (endpoints_present s) (last_packet_src s) (pong_pending s) (established s) (circuits s) (by_circuit s) (circuit_required s)
    l (reopen s) (reopened s).

Definition with_reopen (s : ConnectedRelayState) (l : list EndpointId) (m : gmap EndpointId Z) : ConnectedRelayState :=
  mkConnected (endpoints_present s) (last_packet_src s) (pong_pending s) (established s) (circuits s) (by_circuit s) (circuit_required s)
    (asking s) l m.

(** [(1u32..).find] of a number that is not in use. *)
Fixpoint find_from (fuel : nat) (n : Z) (m : gmap Z EndpointId) : option Z :=
  match fuel with
  | O => None
  | S fuel => match m !! n with None => Some n | Some _ => find_from fuel (n + 1) m end
  end.

Definition free_id (m : gmap Z EndpointId) : option Z := find_from (S (size m)) 1 m.

(** What the actor is in the middle of. *)
Inductive Doing :=
| AtLoop
| SendsAlias (key : EndpointId) (rest : list EndpointId)
| SendsCircuit (c : PendingCircuit) (n : Z) (rest : list PendingCircuit)
| SendsPing (data : arr 8)
| SendsPong (data : arr 8)
| SendsAsk (about : bytes) (ans : nat)
| SendsOpen (c : PendingCircuit) (id : Z)
| SendsBinding (key : EndpointId)
| SendsDatagrams (frames : list ClientToRelayMsg)
| SendsReopen (c : PendingCircuit) (id : Z).

Inductive Phase := Dialling | Connected (s : ConnectedRelayState) (d : Doing) | Exited.

(** [wrote] is what has been sent to the relay, over all connections to it. *)
Record Actor := mkActor {
  url : bytes;
  is_home_relay : bool;
  aliases : list EndpointId;
  pending : list PendingCircuit;
  phase : Phase;
  inbox : list ActiveRelayMessage;
  to_send : list RelaySendItem;
  wrote : list ClientToRelayMsg;
}.

Definition with_home (a : Actor) (b : bool) : Actor :=
  mkActor (url a) b (aliases a) (pending a) (phase a) (inbox a) (to_send a) (wrote a).
Definition with_aliases (a : Actor) (l : list EndpointId) : Actor :=
  mkActor (url a) (is_home_relay a) l (pending a) (phase a) (inbox a) (to_send a) (wrote a).
Definition with_kept (a : Actor) (l : list PendingCircuit) : Actor :=
  mkActor (url a) (is_home_relay a) (aliases a) l (phase a) (inbox a) (to_send a) (wrote a).
Definition with_phase (a : Actor) (p : Phase) : Actor :=
  mkActor (url a) (is_home_relay a) (aliases a) (pending a) p (inbox a) (to_send a) (wrote a).
Definition with_inbox (a : Actor) (l : list ActiveRelayMessage) : Actor :=
  mkActor (url a) (is_home_relay a) (aliases a) (pending a) (phase a) l (to_send a) (wrote a).
Definition with_to_send (a : Actor) (l : list RelaySendItem) : Actor :=
  mkActor (url a) (is_home_relay a) (aliases a) (pending a) (phase a) (inbox a) l (wrote a).
Definition writes (a : Actor) (l : list ClientToRelayMsg) : Actor :=
  mkActor (url a) (is_home_relay a) (aliases a) (pending a) (phase a) (inbox a) (to_send a) (wrote a ++ l).

Definition remember_circuit (a : Actor) (c : PendingCircuit) : Actor :=
  with_kept a (filter (fun k => pc_peer k <> pc_peer c) (pending a) ++ [c]).

Definition remember_alias (a : Actor) (key : EndpointId) : Actor :=
  if decide (key ∈ aliases a) then a else with_aliases a (aliases a ++ [key]).

(** The peers whose circuits are gone and cannot be rebuilt, which all actors share. *)
Abbreviation LostCircuits := (gset EndpointId).

(** ** What the relay says

    [hears] is the state after it, what is handed to the endpoint, and which keys are
    answered. *)

Definition heard (u : bytes) (s : ConnectedRelayState) (m : RelayToClientMsg)
    : ConnectedRelayState * option Received * list (nat * option bytes) :=
  match m with
  | RDatagrams src d =>
      let s := if bool_decide (last_packet_src s = Some src) then s
               else with_present s (Some src) (endpoints_present s ∪ {[src]}) in
      (s, Some (mkReceived u src d), [])
  | RCircuitDatagrams c d =>
      match by_circuit s !! c with
      | Some peer => (s, Some (mkReceived u peer d), [])
      | None => (s, None, [])
      end
  | RCircuitOpened _ => (s, None, [])
  | RCircuitClosed c _ =>
      match by_circuit s !! c with
      | Some peer =>
          let s := with_tables s (delete peer (circuits s)) (delete c (by_circuit s)) (circuit_required s) in
          (with_reopen s (reopen s ++ [peer]) (reopened s), None, [])
      | None => (s, None, [])
      end
  | RRelayKey u key =>
      let about := from_utf8_lossy u in
      let ans := match key with [] => None | _ => Some key end in
      (with_asking s (filter (fun a => a.1 <> about) (asking s)), None,
       (fun a => (a.2, ans)) <$> filter (fun a => a.1 = about) (asking s))
  | REndpointGone p => (with_present s (last_packet_src s) (endpoints_present s ∖ {[p]}), None, [])
  | RPing data => (with_pong s (Some data), None, [])
  | RPong _ => (with_established s, None, [])
  | RStatus _ | RRestarting _ _ | RHealth _ => (s, None, [])
  end.

(** ** The loop of a connected actor *)

Definition loop_top (s : ConnectedRelayState) : ConnectedRelayState * Doing :=
  match pong_pending s with Some d => (with_pong s None, SendsPong d) | None => (s, AtLoop) end.

Definition recircuit (s : ConnectedRelayState) (cs : list PendingCircuit) (n : Z) : ConnectedRelayState * Doing :=
  match cs with c :: cs => (s, SendsCircuit c n cs) | [] => loop_top s end.

Definition rebind (a : Actor) (s : ConnectedRelayState) (keys : list EndpointId) : ConnectedRelayState * Doing :=
  match keys with k :: ks => (s, SendsAlias k ks) | [] => recircuit s (pending a) 1 end.

Definition kept_for (a : Actor) (peer : EndpointId) : option PendingCircuit :=
  snd <$> list_find (fun c => pc_peer c = peer) (pending a).

(** The circuits that closed, asked for again, three times at most. *)
Fixpoint reopens (a : Actor) (s : ConnectedRelayState) (q : list EndpointId) (lost : LostCircuits)
    : ConnectedRelayState * Doing * LostCircuits :=
  match q with
  | [] => (loop_top (with_reopen s [] (reopened s)), lost)
  | peer :: q =>
      let tries := default 0 (reopened s !! peer) in
      if MAX_CIRCUIT_REOPENS <=? tries then reopens a s q (lost ∪ {[peer]})
      else
        let s := with_reopen s q (<[peer := tries + 1]> (reopened s)) in
        match kept_for a peer, free_id (by_circuit s) with
        | Some c, Some id => (s, SendsReopen c id, lost)
        | _, _ => reopens a s q lost
        end
  end.

Definition open_frame (c : PendingCircuit) (id : Z) : ClientToRelayMsg := COpenCircuit id (pc_sealed c) (pc_inner c).

(** A datagram as it is sent: on its circuit, not at all, or by name. *)
Definition carried (s : ConnectedRelayState) (i : RelaySendItem) : option ClientToRelayMsg :=
  match circuits s !! remote_endpoint i with
  | Some c => Some (CCircuitDatagrams c (item i))
  | None =>
      if bool_decide (remote_endpoint i ∈ circuit_required s) then None
      else Some (CDatagrams (remote_endpoint i) (item i))
  end.

Definition opens (s : ConnectedRelayState) (peer : EndpointId) (id : Z) : ConnectedRelayState :=
  with_tables s (<[peer := id]> (circuits s)) (<[id := peer]> (by_circuit s)) (circuit_required s).

Definition requires (s : ConnectedRelayState) (peer : EndpointId) : ConnectedRelayState :=
  with_tables s (circuits s) (by_circuit s) (circuit_required s ∪ {[peer]}).

(** The number a peer was reached by is no longer anybody's. *)
Definition forget_old (s : ConnectedRelayState) (peer : EndpointId) : ConnectedRelayState :=
  match circuits s !! peer with
  | Some old => with_tables s (circuits s) (delete old (by_circuit s)) (circuit_required s)
  | None => s
  end.

(** What follows what was being sent. *)
Definition after_sending (a : Actor) (s : ConnectedRelayState) (d : Doing) (lost : LostCircuits) : Actor * LostCircuits :=
  let go (a : Actor) (sd : ConnectedRelayState * Doing) lost := (with_phase a (Connected sd.1 sd.2), lost) in
  match d with
  | AtLoop => go a (s, AtLoop) lost
  | SendsAlias _ rest => go a (rebind a s rest) lost
  | SendsCircuit c n rest => go a (recircuit (requires (opens s (pc_peer c) n) (pc_peer c)) rest (n + 1)) lost
  | SendsPong _ => go a (s, AtLoop) lost
  | SendsPing _ | SendsDatagrams _ => go a (loop_top s) lost
  | SendsAsk about ans => go a (loop_top (with_asking s (asking s ++ [(about, ans)]))) lost
  | SendsOpen c id =>
      let s := requires (opens (forget_old s (pc_peer c)) (pc_peer c) id) (pc_peer c) in
      let s := with_reopen s (reopen s) (delete (pc_peer c) (reopened s)) in
      go (remember_circuit a c) (loop_top s) (lost ∖ {[pc_peer c]})
  | SendsBinding key => go (remember_alias a key) (loop_top s) lost
  | SendsReopen c id =>
      let s := opens s (pc_peer c) id in
      let '(s, d, lost) := reopens a s (reopen s) lost in go a (s, d) lost
  end.

Section Sending.
Context `{BL : Blake3}.
Context (primary : EndpointId) (sign : EndpointId -> arr 32 -> arr 64).

Definition bind_alias (key : EndpointId) : ClientToRelayMsg := CBindAlias key (sign key (alias_binding_message primary key)).

Definition sends (d : Doing) : list ClientToRelayMsg :=
  match d with
  | AtLoop => []
  | SendsAlias key _ | SendsBinding key => [bind_alias key]
  | SendsCircuit c n _ => [open_frame c n]
  | SendsPing data => [CPing data]
  | SendsPong data => [CPong data]
  | SendsAsk about _ => [CAskRelayKey about]
  | SendsOpen c id | SendsReopen c id => [open_frame c id]
  | SendsDatagrams frames => frames
  end.

(** ** A message of the inbox *)

(** [None] is a connection that is given up; [local_ok] says that its address is still
    one of this machine's. *)
Definition told (a : Actor) (s : ConnectedRelayState) (m : ActiveRelayMessage) (local_ok : bool) (data : arr 8) : Actor :=
  let go (a : Actor) (sd : ConnectedRelayState * Doing) := with_phase a (Connected sd.1 sd.2) in
  match m with
  | SetHomeRelay b => go (with_home a b) (loop_top s)
  | FetchRelayKey about ans => go a (s, SendsAsk about ans)
  | OpenCircuit peer sealed inner =>
      let c := mkPendingCircuit peer sealed inner in
      match free_id (by_circuit s) with
      | Some id => go a (s, SendsOpen c id)
      | None => go (remember_circuit a c) (loop_top s)
      end
  | BindAlias key => go a (s, SendsBinding key)
  | CheckConnection => if local_ok then go a (s, SendsPing data) else with_phase a Dialling
  end.

(** One of a relay that is being dialled: what it answers at once. *)
Definition told_dialling (a : Actor) (m : ActiveRelayMessage) : Actor * list (nat * option bytes) :=
  match m with
  | SetHomeRelay b => (with_home a b, [])
  | CheckConnection => (a, [])
  | BindAlias key => (remember_alias a key, [])
  | FetchRelayKey _ ans => (a, [(ans, None)])
  | OpenCircuit peer sealed inner => (remember_circuit a (mkPendingCircuit peer sealed inner), [])
  end.

(** Whoever waits on what is dropped hears that nothing comes. *)
Definition unanswered (p : Phase) : list (nat * option bytes) :=
  match p with
  | Connected s d =>
      ((fun a => (a.2, None)) <$> asking s) ++ match d with SendsAsk _ ans => [(ans, None)] | _ => [] end
  | _ => []
  end.

Definition unread (l : list ActiveRelayMessage) : list (nat * option bytes) :=
  l ≫= (fun m => match m with FetchRelayKey _ ans => [(ans, None)] | _ => [] end).
End Sending.

(** ** All of them *)

Record System := mkSystem {
  actors : list Actor;
  active_relays : gmap bytes nat;
  my_relay : option bytes;
  bound : list EndpointId;
  blocked : option (nat * RelaySendItem);
  lost : LostCircuits;
  receiver : Receiver;
  answers : list (nat * option bytes);
}.

Definition with_actors (y : System) (l : list Actor) : System :=
  mkSystem l (active_relays y) (my_relay y) (bound y) (blocked y) (lost y) (receiver y) (answers y).
Definition with_active (y : System) (m : gmap bytes nat) : System :=
  mkSystem (actors y) m (my_relay y) (bound y) (blocked y) (lost y) (receiver y) (answers y).
Definition with_blocked (y : System) (b : option (nat * RelaySendItem)) : System :=
  mkSystem (actors y) (active_relays y) (my_relay y) (bound y) b (lost y) (receiver y) (answers y).
Definition with_lost (y : System) (l : LostCircuits) : System :=
  mkSystem (actors y) (active_relays y) (my_relay y) (bound y) (blocked y) l (receiver y) (answers y).
Definition with_receiver (y : System) (r : Receiver) : System :=
  mkSystem (actors y) (active_relays y) (my_relay y) (bound y) (blocked y) (lost y) r (answers y).
Definition answered (y : System) (l : list (nat * option bytes)) : System :=
  mkSystem (actors y) (active_relays y) (my_relay y) (bound y) (blocked y) (lost y) (receiver y) (answers y ++ l).
Definition with_actor (y : System) (k : nat) (a : Actor) : System := with_actors y (<[k := a]> (actors y)).

Definition is_exited (a : Actor) : bool := match phase a with Exited => true | _ => false end.

(** [try_send] to an inbox; a message that is refused is dropped. *)
Definition try_tell (y : System) (k : nat) (m : ActiveRelayMessage) : System :=
  match actors y !! k with
  | Some a =>
      if negb (is_exited a) && (length (inbox a) <? INBOX)%nat then with_actor y k (with_inbox a (inbox a ++ [m]))
      else answered y (unread [m])
  | None => answered y (unread [m])
  end.

(** [send] to the inboxes of all, which is done when each had room or is gone. *)
Definition room (a : Actor) : bool := is_exited a || (length (inbox a) <? INBOX)%nat.

Definition tell (m : ActiveRelayMessage) (a : Actor) : Actor := if is_exited a then a else with_inbox a (inbox a ++ [m]).

Definition active_actors (y : System) : gset nat := list_to_set (snd <$> map_to_list (active_relays y)).

Definition tell_all (y : System) (f : Actor -> ActiveRelayMessage) : option System :=
  if forallb (fun k => match actors y !! k with Some a => room a | None => true end) (elements (active_actors y)) then
    Some (with_actors y (imap (fun k a => if bool_decide (k ∈ active_actors y) then tell (f a) a else a) (actors y)))
  else None.

Definition start_active_relay (y : System) (u : bytes) : nat * System :=
  let k := length (actors y) in
  let home := if bool_decide (my_relay y = Some u) then [SetHomeRelay true] else [] in
  (k, with_active (with_actors y (actors y ++ [mkActor u false (bound y) [] Dialling home [] []])) (<[u := k]> (active_relays y))).

Definition active_relay_handle (y : System) (u : bytes) : nat * System :=
  match active_relays y !! u with Some k => (k, y) | None => start_active_relay y u end.

Definition has_route (y : System) (k : nat) (peer : EndpointId) : bool :=
  match actors y !! k with
  | Some a => match phase a with Connected s _ => bool_decide (peer ∈ endpoints_present s) | _ => false end
  | None => false
  end.

(** Which actor reaches an endpoint: its relay's, or else one that heard from it, or else
    a new one for its relay. *)
Definition handle_for (y : System) (i : RelaySendItem) (via : option nat) : option (nat * System) :=
  match active_relays y !! item_url i with
  | Some k => Some (k, y)
  | None =>
      match via with
      | Some k => if bool_decide (k ∈ active_actors y) && has_route y k (remote_endpoint i) then Some (k, y) else None
      | None =>
          if existsb (fun k => has_route y k (remote_endpoint i)) (elements (active_actors y)) then None
          else Some (start_active_relay y (item_url i))
      end
  end.

(** [try_send_datagram]: a full queue holds back everything that follows. *)
Definition try_send_datagram (y : System) (i : RelaySendItem) (via : option nat) : option System :=
  '(k, y) ← handle_for y i via;
  a ← actors y !! k;
  Some (if is_exited a then y
        else if (length (to_send a) <? SEND_QUEUE)%nat then with_actor y k (with_to_send a (to_send a ++ [i]))
        else with_blocked y (Some (k, i))).

Definition unblocks (y : System) : option System :=
  '(k, i) ← blocked y;
  a ← actors y !! k;
  if is_exited a then Some (with_blocked y None)
  else if (length (to_send a) <? SEND_QUEUE)%nat then Some (with_blocked (with_actor y k (with_to_send a (to_send a ++ [i]))) None)
  else None.

Definition runs (y : System) (k : nat) : bool := match actors y !! k with Some a => negb (is_exited a) | None => false end.

Definition reap_active_relays (y : System) : System :=
  let y := with_active y (filter (fun kv => runs y kv.2 = true) (active_relays y)) in
  match my_relay y with Some u => (active_relay_handle y u).2 | None => y end.

Definition on_network_change (y : System) (preferred : option bytes) : option System :=
  if bool_decide (preferred = my_relay y) then Some y
  else
    let y := mkSystem (actors y) (active_relays y) preferred (bound y) (blocked y) (lost y) (receiver y) (answers y) in
    match preferred with
    | Some u => y ← tell_all y (fun a => SetHomeRelay (bool_decide (url a = u))); Some (active_relay_handle y u).2
    | None => Some y
    end.

Definition bind_alias_everywhere (y : System) (key : EndpointId) : option System :=
  let y := mkSystem (actors y) (active_relays y) (my_relay y) (if decide (key ∈ bound y) then bound y else bound y ++ [key])
             (blocked y) (lost y) (receiver y) (answers y) in
  tell_all y (fun _ => BindAlias key).

(** ** Turns *)

Inductive Event :=
| AsksCircuit (u : bytes) (peer : EndpointId) (sealed inner : bytes)
| AsksKey (u about : bytes) (ans : nat)
| BindsAlias (key : EndpointId)
| ChecksConnections
| HomeBecomes (preferred : option bytes)
| Reaps
| SendsItem (i : RelaySendItem) (via : option nat)
| Unblocks
| TakesMessage (k : nat) (local_ok : bool) (data : arr 8)
| TakesDatagrams (k count : nat)
| Flushes (k : nat)
| Dials (k : nat)
| PingGoes (k : nat) (data : arr 8)
| Sent (k : nat)
| IsCut (k out : nat)
| Breaks (k out : nat)
| Exits (k : nat)
| Hears (k : nat) (m : RelayToClientMsg)
| Polls (bufs : list Z).

Section Steps.
Context `{BL : Blake3}.
Context (primary : EndpointId) (sign : EndpointId -> arr 32 -> arr 64).

Abbreviation sends := (sends primary sign).

(** A connection is given up, with what was waiting on it. *)
Definition breaks (y : System) (k : nat) (a : Actor) : System :=
  answered (with_actor y k (with_phase a Dialling)) (unanswered (phase a)).

Definition takes_message (y : System) (k : nat) (a : Actor) (local_ok : bool) (data : arr 8) : option System :=
  match inbox a with
  | [] => None
  | m :: rest =>
      let a := with_inbox a rest in
      match phase a with
      | Dialling => let '(a, ans) := told_dialling a m in Some (answered (with_actor y k a) ans)
      | Connected s AtLoop =>
          let a' := told a s m local_ok data in
          Some match phase a' with Dialling => breaks y k a | _ => with_actor y k a' end
      | _ => None
      end
  end.

Definition takes_datagrams (y : System) (k : nat) (a : Actor) (count : nat) : option System :=
  match phase a with
  | Connected s AtLoop =>
      if bool_decide (1 <= count <= SEND_DATAGRAM_BATCH_SIZE /\ count <= length (to_send a))%nat then
        Some (with_actor y k (with_phase (with_to_send a (drop count (to_send a)))
          (Connected s (SendsDatagrams (omap (carried s) (take count (to_send a)))))))
      else None
  | _ => None
  end.

Definition put (r : Receiver) (d : option Received) : Receiver :=
  match d with Some d => (try_send r d).2 | None => r end.

Definition hears (y : System) (k : nat) (a : Actor) (m : RelayToClientMsg) : option System :=
  match phase a with
  | Connected s d =>
      let '(s, handed, ans) := heard (url a) s m in
      let y := answered (with_receiver y (put (receiver y) handed)) ans in
      Some match d with
           | AtLoop => let '(s, d, lost) := reopens a s (reopen s) (lost y) in
                       with_lost (with_actor y k (with_phase a (Connected s d))) lost
           | _ => with_actor y k (with_phase a (Connected s d))
           end
  | _ => None
  end.

Definition sending (d : Doing) : bool := match d with AtLoop => false | _ => true end.

(** The sending ends; [out] of its frames were sent. *)
Definition goes_on (y : System) (k : nat) (a : Actor) (out : option nat) : option System :=
  match phase a with
  | Connected s d =>
      if sending d && match out with Some _ => negb (is_home_relay a) | None => true end then
        let a := writes a (match out with Some n => take n (sends d) | None => sends d end) in
        let '(a, lost) := after_sending a s d (lost y) in Some (with_lost (with_actor y k a) lost)
      else None
  | _ => None
  end.

Definition exits (y : System) (k : nat) (a : Actor) : option System :=
  if is_home_relay a then None
  else
    match phase a with
    | Dialling | Connected _ AtLoop =>
        Some (answered (with_actor y k (with_to_send (with_inbox (with_phase a Exited) []) [])) (unanswered (phase a) ++ unread (inbox a)))
    | _ => None
    end.

Definition actor_step (y : System) (e : Event) (k : nat) (a : Actor) : option System :=
  match e with
  | TakesMessage _ local_ok data => takes_message y k a local_ok data
  | TakesDatagrams _ count => takes_datagrams y k a count
  | Flushes _ => match phase a with Dialling => Some (with_actor y k (with_to_send a [])) | _ => None end
  | Dials _ =>
      match phase a with
      | Dialling => let sd := rebind a connected (aliases a) in Some (with_actor y k (with_phase a (Connected sd.1 sd.2)))
      | _ => None
      end
  | PingGoes _ data => match phase a with Connected s AtLoop => Some (with_actor y k (with_phase a (Connected s (SendsPing data)))) | _ => None end
  | Sent _ => goes_on y k a None
  | IsCut _ out => goes_on y k a (Some out)
  | Breaks _ out =>
      match phase a with Connected s d => Some (breaks y k (writes a (take out (sends d)))) | _ => None end
  | Exits _ => exits y k a
  | Hears _ m => hears y k a m
  | _ => None
  end.

Definition step (y : System) (e : Event) : option System :=
  match e with
  | AsksCircuit u peer sealed inner => let '(k, y) := active_relay_handle y u in Some (try_tell y k (OpenCircuit peer sealed inner))
  | AsksKey u about ans => let '(k, y) := active_relay_handle y u in Some (try_tell y k (FetchRelayKey about ans))
  | BindsAlias key => bind_alias_everywhere y key
  | ChecksConnections => tell_all y (fun _ => CheckConnection)
  | HomeBecomes preferred => on_network_change y preferred
  | Reaps => Some (reap_active_relays y)
  | SendsItem i via => match blocked y with None => try_send_datagram y i via | Some _ => None end
  | Unblocks => unblocks y
  | Polls bufs => Some (with_receiver y (poll_recv bufs (receiver y)).2)
  | TakesMessage k _ _ | TakesDatagrams k _ | Flushes k | Dials k | PingGoes k _ | Sent k | IsCut k _ | Breaks k _ | Exits k | Hears k _ =>
      a ← actors y !! k; actor_step y e k a
  end.

Fixpoint run (y : System) (es : list Event) : option System :=
  match es with [] => Some y | e :: es => y ← step y e; run y es end.
End Steps.

Definition started : System := mkSystem [] ∅ None [] None ∅ (mkReceiver None [] false) [].
