(* ===== verification/RelayClientFacts.v ===== *)
(** * What an endpoint keeps to of the circuits it asked for

    Of [RelayClient]: that a peer asked for along a circuit is not spoken to by name by
    the actor that holds the request, whatever becomes of the connection and the circuit;
    that the two tables of circuits agree; and the ways in which a request is lost, or a
    number comes to mean two things at the two ends ([Circuits]). *)

From S2P Require Import Prelude Crypto Text RelayFrame RelayReceive RelayClient.
From S2P Require Circuits CircuitFacts.
From S2P Require Hybrid.
Import Hybrid (Ed25519, valid_key, verify_strict).

Definition keeps (a : Actor) (p : EndpointId) : Prop := p ∈ pc_peer <$> pending a.

Definition all_required (a : Actor) (s : ConnectedRelayState) : Prop := forall p, keeps a p -> p ∈ circuit_required s.

(** Nobody whose circuit is kept can be spoken to by name: on a connection that is being
    set up, because nothing is carried before their turn came. *)
Definition covered (a : Actor) (s : ConnectedRelayState) (d : Doing) : Prop :=
  match d with
  | SendsAlias _ _ => True
  | SendsCircuit c _ rest => forall p, keeps a p -> p ∈ circuit_required s \/ p ∈ pc_peer <$> (c :: rest)
  | SendsDatagrams fs => all_required a s /\ forall f p i, f ∈ fs -> keeps a p -> f <> CDatagrams p i
  | _ => all_required a s
  end.

Definition guarded (a : Actor) : Prop := match phase a with Connected s d => covered a s d | _ => True end.

(** What came of an actor: it keeps what it kept, and has not named it. *)
Definition later (a a' : Actor) : Prop :=
  (forall p, keeps a p -> keeps a' p) /\
  exists l, wrote a' = wrote a ++ l /\ forall f p i, f ∈ l -> keeps a p -> f <> CDatagrams p i.

#[export] Instance later_preorder : PreOrder later.
Proof.
  split.
  - intros a. split; [done|]. exists []. split; [by rewrite app_nil_r|]. intros f p i Hf. by apply not_elem_of_nil in Hf.
  - intros a b c (Hk & l & Hl & Hn) (Hk' & l' & Hl' & Hn'). split; [auto|]. exists (l ++ l').
    split; [by rewrite Hl', Hl, app_assoc|]. intros f p i [Hf|Hf]%elem_of_app Hp; [by eapply Hn|eapply Hn'; eauto].
Qed.

Lemma later_writes a a' l :
  pending a' = pending a -> wrote a' = wrote a ++ l -> (forall f p i, f ∈ l -> keeps a p -> f <> CDatagrams p i) -> later a a'.
Proof. intros Hp Hw Hl. split; [by unfold keeps; rewrite Hp|]. by exists l. Qed.

Lemma later_quiet a a' : (forall p, keeps a p -> keeps a' p) -> wrote a' = wrote a -> later a a'.
Proof. intros Hk Hw. split; [done|]. exists []. rewrite app_nil_r. split; [done|]. intros f p i Hf. by apply not_elem_of_nil in Hf. Qed.

(** What the rest of an actor does not depend on. *)
Definition core (a : Actor) : list PendingCircuit * Phase * list ClientToRelayMsg := (pending a, phase a, wrote a).

Lemma core_guarded a a' : core a' = core a -> guarded a -> guarded a'.
Proof.
  intros [= Hp Hf _]. unfold guarded, covered, all_required, keeps. rewrite Hf. destruct (phase a) as [|s d|]; try done.
  destruct d; by rewrite ?Hp.
Qed.

Lemma core_later a a' : core a' = core a -> later a a'.
Proof. intros [= Hp _ Hw]. apply later_quiet; [by unfold keeps; rewrite Hp|done]. Qed.

(** ** Numbers *)

Lemma find_from_spec fuel n m :
  match find_from fuel n m with
  | Some i => n <= i < n + Z.of_nat fuel /\ m !! i = None /\ forall j, n <= j < i -> is_Some (m !! j)
  | None => forall j, n <= j < n + Z.of_nat fuel -> is_Some (m !! j)
  end.
Proof.
  revert n. induction fuel as [|fuel IH]; intros n; cbn [find_from]; [lia|].
  destruct (m !! n) as [p|] eqn:En; [|split; [lia|]; split; [done|lia]].
  assert (forall j, n <= j -> j <> n -> n + 1 <= j) as Hj by lia.
  specialize (IH (n + 1)). destruct (find_from fuel (n + 1) m) as [i|].
  - destruct IH as (H1 & H2 & H3). split; [lia|]. split; [done|]. intros j Hjj. destruct (decide (j = n)) as [->|]; [by exists p|]. apply H3. lia.
  - intros j Hjj. destruct (decide (j = n)) as [->|]; [by exists p|]. apply IH. lia.
Qed.

(** There is always a number, and it is the least that is not in use. *)
Lemma free_id_finds m : exists id, free_id m = Some id /\ 1 <= id /\ m !! id = None /\ forall j, 1 <= j < id -> is_Some (m !! j).
Proof.
  unfold free_id. pose proof (find_from_spec (S (size m)) 1 m) as H. destruct (find_from _ 1 m) as [i|].
  - exists i. destruct H as (H1 & H2 & H3). split; [done|]. split; [lia|done].
  - exfalso. assert (seqZ 1 (Z.of_nat (S (size m))) ⊆+ elements (dom m)) as Hs.
    { apply NoDup_submseteq; [apply NoDup_seqZ|]. intros j Hj%elem_of_seqZ. apply elem_of_elements, elem_of_dom, H. lia. }
    apply submseteq_length in Hs. rewrite length_seqZ in Hs. change (length (elements (dom m))) with (size (dom m)) in Hs.
    rewrite size_dom in Hs. lia.
Qed.

Lemma free_id_least m id : 1 <= id -> m !! id = None -> (forall j, 1 <= j < id -> is_Some (m !! j)) -> free_id m = Some id.
Proof.
  intros H1 H2 H3. destruct (free_id_finds m) as (i & -> & Hi & Hn & Hj). f_equal.
  destruct (Z.lt_trichotomy i id) as [E|[E|E]]; [|done|].
  - destruct (H3 i ltac:(lia)) as [p Hp]. by rewrite Hn in Hp.
  - destruct (Hj id ltac:(lia)) as [p Hp]. by rewrite H2 in Hp.
Qed.

(** ** One actor *)

Lemma keeps_remembered a c p : keeps a p -> keeps (remember_circuit a c) p.
Proof.
  unfold keeps, remember_circuit, with_kept. cbn [pending]. rewrite !list_elem_of_fmap. intros (k & -> & Hk).
  destruct (decide (pc_peer k = pc_peer c)) as [E|E].
  - exists c. split; [done|]. apply elem_of_app. right. by left.
  - exists k. split; [done|]. apply elem_of_app. left. by apply list_elem_of_filter.
Qed.

Lemma remembered_keeps a c p : keeps (remember_circuit a c) p -> p = pc_peer c \/ keeps a p.
Proof.
  unfold keeps, remember_circuit, with_kept. cbn [pending]. rewrite !list_elem_of_fmap.
  intros (k & -> & [Hk|Hk]%elem_of_app); [right; exists k; split; [done|]; by apply list_elem_of_filter in Hk as [_ Hk]|left].
  by apply list_elem_of_singleton in Hk as ->.
Qed.

Lemma loop_top_required s : circuit_required (loop_top s).1 = circuit_required s.
Proof. unfold loop_top. by destruct (pong_pending s). Qed.

Lemma loop_top_covered a s : all_required a s -> covered a (loop_top s).1 (loop_top s).2.
Proof. intros H. unfold loop_top. destruct (pong_pending s); exact H. Qed.

Lemma recircuit_covered a s cs n :
  (forall p, keeps a p -> p ∈ circuit_required s \/ p ∈ pc_peer <$> cs) -> covered a (recircuit s cs n).1 (recircuit s cs n).2.
Proof.
  intros H. destruct cs as [|c cs]; [|exact H]. apply loop_top_covered. intros p Hp. destruct (H p Hp) as [|E]; [done|].
  by apply not_elem_of_nil in E.
Qed.

Lemma rebind_covered a s keys : covered a (rebind a s keys).1 (rebind a s keys).2.
Proof. destruct keys as [|k ks]; [|done]. apply recircuit_covered. intros p Hp. by right. Qed.

Lemma heard_required u s m : circuit_required (heard u s m).1.1 = circuit_required s.
Proof.
  destruct m; cbn [heard]; try done; by case_match.
Qed.

Lemma heard_covered a u s m d : covered a s d -> covered a (heard u s m).1.1 d.
Proof. unfold covered, all_required. by rewrite heard_required. Qed.

Lemma reopens_covered a s q lost :
  all_required a s -> let '(s', d, _) := reopens a s q lost in covered a s' d.
Proof.
  revert s lost. induction q as [|peer q IH]; intros s lost H; cbn [reopens].
  - pose proof (loop_top_covered a (with_reopen s [] (reopened s)) H) as Hc. by destruct (loop_top _).
  - destruct (MAX_CIRCUIT_REOPENS <=? _); [by apply IH|].
    destruct (kept_for a peer) as [c|]; [|by apply IH]. destruct (free_id _) as [id|]; [|by apply IH]. exact H.
Qed.

Lemma carried_covered a s (items : list RelaySendItem) :
  all_required a s -> forall f p i, f ∈ omap (carried s) items -> keeps a p -> f <> CDatagrams p i.
Proof.
  intros H f p i Hf Hp ->. apply list_elem_of_omap in Hf as (x & _ & Hx). unfold carried in Hx.
  destruct (circuits s !! _); [done|]. case_bool_decide as E; [done|]. injection Hx as Hx _. by rewrite Hx in E; apply E, H.
Qed.

Lemma guarded_connected a s d : guarded (with_phase a (Connected s d)) <-> covered a s d.
Proof. done. Qed.


(** *** The tables of circuits *)

Definition tables (s : ConnectedRelayState) : Prop :=
  (forall p id, circuits s !! p = Some id -> by_circuit s !! id = Some p /\ p ∈ circuit_required s /\ 1 <= id) /\
  forall p n, reopened s !! p = Some n -> n <= MAX_CIRCUIT_REOPENS.

(** A number that is being asked for is nobody's yet. *)
Definition agrees (s : ConnectedRelayState) (d : Doing) : Prop :=
  tables s /\
  match d with
  | SendsAlias _ _ => forall m, by_circuit s !! m = None
  | SendsOpen _ id => by_circuit s !! id = None /\ 1 <= id
  | SendsReopen c id => by_circuit s !! id = None /\ 1 <= id /\ pc_peer c ∈ circuit_required s
  | SendsCircuit _ n _ => 1 <= n /\ forall m, n <= m -> by_circuit s !! m = None
  | _ => True
  end.

Definition agreeing (a : Actor) : Prop := match phase a with Connected s d => agrees s d | _ => True end.

Lemma agreeing_connected a s d : agreeing (with_phase a (Connected s d)) <-> agrees s d.
Proof. done. Qed.

Lemma tables_with s s' :
  circuits s' = circuits s -> by_circuit s' = by_circuit s -> circuit_required s ⊆ circuit_required s' -> reopened s' = reopened s ->
  tables s -> tables s'.
Proof. intros H1 H2 H3 H4 [Ht Hr]. split; rewrite ?H1, ?H2, ?H4; [|done]. intros p id E. destruct (Ht p id E) as (? & ? & ?). set_solver. Qed.

Lemma loop_top_agrees s : tables s -> agrees (loop_top s).1 (loop_top s).2.
Proof. intros H. unfold loop_top. destruct (pong_pending s); split; try done; by eapply tables_with. Qed.

Lemma recircuit_agrees s cs n :
  tables s -> 1 <= n -> (forall m, n <= m -> by_circuit s !! m = None) -> agrees (recircuit s cs n).1 (recircuit s cs n).2.
Proof. intros Ht Hn Hb. destruct cs as [|c cs]; [by apply loop_top_agrees|]. by split. Qed.

Lemma heard_agrees u s m d : agrees s d -> agrees (heard u s m).1.1 d.
Proof.
  intros [Ht Hd].
  assert (tables (heard u s m).1.1 /\ (forall i, by_circuit s !! i = None -> by_circuit (heard u s m).1.1 !! i = None)) as [Ht' Hb].
  { destruct m; cbn [heard]; try (by split; [eapply tables_with|]).
    - destruct (bool_decide _); by split; [eapply tables_with|].
    - destruct (by_circuit s !! _) as [peer|] eqn:E; cbn [fst]; [|done]. split.
      + split; [|exact (proj2 Ht)]. intros p id Hp. cbn in Hp. apply lookup_delete_Some in Hp as [Hne Hp].
        destruct (proj1 Ht p id Hp) as (H1 & H2 & H3). split; [|done]. cbn. rewrite lookup_delete_ne; [done|]. intros <-.
        rewrite E in H1. by injection H1.
      + intros i Hi. cbn. apply lookup_delete_None. by right.
    - destruct (by_circuit s !! _); by split. }
  split; [done|]. destruct d; try done.
  - intros j. by apply Hb, Hd.
  - destruct Hd as [H1 H2]. split; [done|]. intros j Hj. by apply Hb, H2.
  - destruct Hd as [H1 H2]. split; [by apply Hb|done].
  - destruct Hd as (H1 & H2 & H3). split; [by apply Hb|]. split; [done|]. by rewrite heard_required.
Qed.

Lemma kept_for_keeps a peer c : kept_for a peer = Some c -> pc_peer c = peer /\ keeps a peer.
Proof.
  unfold kept_for. destruct (list_find _ _) as [[i k]|] eqn:E; [|done]. intros [= <-]. apply list_find_Some in E as (Hk & Hp & _).
  cbn in *. split; [done|]. rewrite <- Hp. apply list_elem_of_fmap. exists k. split; [done|]. by eapply list_elem_of_lookup_2.
Qed.

Lemma reopens_agrees a s q lost :
  tables s -> all_required a s -> let '(s', d, _) := reopens a s q lost in agrees s' d.
Proof.
  revert s lost. induction q as [|peer q IH]; intros s lost Ht Hr; cbn [reopens].
  - assert (tables (with_reopen s [] (reopened s))) as Hc%loop_top_agrees by (by eapply tables_with). by destruct (loop_top _).
  - destruct (Z.leb_spec MAX_CIRCUIT_REOPENS (default 0 (reopened s !! peer))) as [E|E]; [by apply IH|].
    set (s1 := with_reopen s q _). assert (tables s1) as Ht1.
    { split; [exact (proj1 Ht)|]. intros p n Hp. cbn in Hp. apply lookup_insert_Some in Hp as [[_ <-]|[_ Hp]]; [lia|by eapply Ht]. }
    destruct (kept_for a peer) as [c|] eqn:Ek; [|by apply IH]. destruct (free_id_finds (by_circuit s1)) as (id & -> & H1 & H2 & _).
    split; [done|]. split; [done|]. split; [done|]. destruct (kept_for_keeps _ _ _ Ek) as [-> Hk]. by apply Hr.
Qed.

Lemma opens_tables s p id :
  tables s -> by_circuit s !! id = None -> 1 <= id -> p ∈ circuit_required s -> tables (opens s p id).
Proof.
  intros Ht Hb Hi Hp. split; [|exact (proj2 Ht)]. intros q i Hq. cbn in *.
  apply lookup_insert_Some in Hq as [[<- <-]|[Hne Hq]]; [by rewrite lookup_insert_eq|].
  destruct (proj1 Ht q i Hq) as (H1 & H2 & H3). split; [|done]. rewrite lookup_insert_ne; [done|]. intros <-. by rewrite Hb in H1.
Qed.

Lemma forgets_tables s p id :
  tables s -> by_circuit s !! id = None -> 1 <= id -> tables (requires (opens (forget_old s p) p id) p).
Proof.
  intros Ht Hb Hi. unfold forget_old. destruct (circuits s !! p) as [old|] eqn:Eo.
  - split; [|exact (proj2 Ht)]. intros q i Hq. cbn in *.
    apply lookup_insert_Some in Hq as [[<- <-]|[Hne Hq]]; [rewrite lookup_insert_eq; set_solver|].
    destruct (proj1 Ht q i Hq) as (H1 & H2 & H3). destruct (proj1 Ht p old Eo) as (H4 & _ & _). split; [|set_solver].
    rewrite lookup_insert_ne by (intros <-; by rewrite Hb in H1). rewrite lookup_delete_ne; [done|]. intros <-.
    rewrite H4 in H1. by injection H1.
  - assert (tables (requires s p)) as Ht' by (eapply (tables_with s); [done|done|cbn; set_solver|done|done]).
    pose proof (opens_tables (requires s p) p id Ht' Hb Hi ltac:(cbn; set_solver)) as Hr. exact Hr.
Qed.

Lemma after_sending_guarded a s d lost :
  phase a = Connected s d -> covered a s d -> guarded (after_sending a s d lost).1 /\ later a (after_sending a s d lost).1.
Proof.
  intros Hp Hc. destruct d as [|key rest|c n rest|data|data|about ans|c id|key|fs|c id]; cbn [after_sending fst]; rewrite ?guarded_connected.
  - split; [exact Hc|]. by apply later_quiet.
  - split; [apply rebind_covered|by apply later_quiet].
  - split; [|by apply later_quiet]. apply recircuit_covered. intros p Hk. cbn. destruct (Hc p Hk) as [E|E]; [left; set_solver|].
    cbn in E. apply elem_of_cons in E as [->|E]; [left; set_solver|by right].
  - split; [by apply loop_top_covered|by apply later_quiet].
  - split; [exact Hc|by apply later_quiet].
  - split; [apply loop_top_covered, Hc|by apply later_quiet].
  - split; [|apply later_quiet; [apply keeps_remembered|done]]. apply loop_top_covered. intros p Hk. cbn.
    apply remembered_keeps in Hk as [->|Hk]; [set_solver|]. unfold forget_old. specialize (Hc p Hk).
    destruct (circuits s !! pc_peer c); cbn; set_solver.
  - unfold remember_alias. destruct (decide _); (split; [by apply loop_top_covered|by apply later_quiet]).
  - split; [apply loop_top_covered, Hc|by apply later_quiet].
  - pose proof (reopens_covered a (opens s (pc_peer c) id) (reopen (opens s (pc_peer c) id)) lost Hc) as H.
    destruct (reopens _ _ _ _) as [[s' d] l]. split; [exact H|by apply later_quiet].
Qed.

Lemma after_sending_agrees a s d lost : covered a s d -> agrees s d -> agreeing (after_sending a s d lost).1.
Proof.
  intros Hc [Ht Hd]. destruct d as [|key rest|c n rest|data|data|about ans|c id|key|fs|c id]; cbn [after_sending fst];
    rewrite ?agreeing_connected; try (by apply loop_top_agrees); try (by split).
  - destruct rest as [|k ks]; [|by split]. apply recircuit_agrees; [done|done|by intros].
  - destruct Hd as [Hn Hb]. apply recircuit_agrees; [|lia|].
    + eapply (opens_tables (requires s (pc_peer c))); [|by apply Hb|done|cbn; set_solver].
      eapply (tables_with s); [done|done|cbn; set_solver|done|done].
    + intros m Hm. cbn. rewrite lookup_insert_ne by lia. apply Hb. lia.
  - destruct Hd as [Hb Hi]. apply loop_top_agrees. destruct (forgets_tables s (pc_peer c) id Ht Hb Hi) as [H1 H2].
    split; [exact H1|]. intros p n Hp. cbn in Hp. apply lookup_delete_Some in Hp as [_ Hp]. exact (H2 p n Hp).
  - destruct Hd as (Hb & Hi & Hr). pose proof (opens_tables s (pc_peer c) id Ht Hb Hi Hr) as Ht'.
    pose proof (reopens_agrees a (opens s (pc_peer c) id) (reopen (opens s (pc_peer c) id)) lost Ht' Hc) as H.
    by destruct (reopens _ _ _ _) as [[s' d] l].
Qed.

(** ** All of them *)

Definition sound (a : Actor) : Prop := guarded a /\ agreeing a.

Definition all_guarded (y : System) : Prop := forall k a, actors y !! k = Some a -> sound a.

Definition follows (y y' : System) : Prop :=
  all_guarded y ->
  all_guarded y' /\ forall k a, actors y !! k = Some a -> exists a', actors y' !! k = Some a' /\ later a a'.

Lemma core_sound a a' : core a' = core a -> sound a -> sound a'.
Proof.
  intros E [Hg Ha]. split; [by eapply core_guarded|]. injection E as _ Hp _. unfold agreeing in *. by rewrite Hp.
Qed.

#[export] Instance follows_trans : PreOrder follows.
Proof.
  split.
  - intros y Hy. split; [done|]. intros k a Ha. by exists a.
  - intros x y z Hxy Hyz Hx. destruct (Hxy Hx) as [Hy H1]. destruct (Hyz Hy) as [Hz H2]. split; [done|].
    intros k a Ha. destruct (H1 k a Ha) as (b & Hb & Hab). destruct (H2 k b Hb) as (c & Hc & Hbc). exists c. split; [done|]. by etrans.
Qed.

Lemma one_follows y y' k a a' :
  actors y !! k = Some a -> actors y' = <[k := a']> (actors y) -> (sound a -> sound a' /\ later a a') -> follows y y'.
Proof.
  intros Ha Hy' Hg Hy. destruct (Hg (Hy k a Ha)) as [Hg' Hl].
  assert (k < length (actors y))%nat as Hk by (by eapply lookup_lt_Some). split.
  - intros j b Hb. rewrite Hy' in Hb. apply list_lookup_insert_Some in Hb as [(<- & -> & _)|(_ & Hb)]; [done|by eapply Hy].
  - intros j b Hb. rewrite Hy'. destruct (decide (k = j)) as [<-|Hj].
    + rewrite list_lookup_insert_eq by done. exists a'. split; [done|]. by rewrite Ha in Hb; injection Hb as <-.
    + rewrite list_lookup_insert_ne by done. by exists b.
Qed.

(** What leaves the core of every actor as it was, and may add actors that dial. *)
Definition tame (y y' : System) : Prop :=
  (forall k a, actors y !! k = Some a -> exists a', actors y' !! k = Some a' /\ core a' = core a) /\
  forall k a', actors y' !! k = Some a' -> (exists a, actors y !! k = Some a /\ core a' = core a) \/ phase a' = Dialling.

Lemma tame_follows y y' : tame y y' -> follows y y'.
Proof.
  intros [H1 H2] Hy. split.
  - intros k a' Ha'. destruct (H2 k a' Ha') as [(a & Ha & Hc)|Hd]; [by eapply core_sound, Hy|].
    unfold sound, guarded, agreeing. by rewrite Hd.
  - intros k a Ha. destruct (H1 k a Ha) as (a' & Ha' & Hc). exists a'. split; [done|by apply core_later].
Qed.

Lemma tame_same y y' : actors y' = actors y -> tame y y'.
Proof. intros E. split; intros k a; rewrite E; intros Ha; [|left]; by exists a. Qed.

Lemma tame_one y y' k a a' : actors y !! k = Some a -> actors y' = <[k := a']> (actors y) -> core a' = core a -> tame y y'.
Proof.
  intros Ha Hy' Hc. assert (k < length (actors y))%nat as Hk by (by eapply lookup_lt_Some). split.
  - intros j b Hb. rewrite Hy'. destruct (decide (k = j)) as [<-|Hj].
    + rewrite list_lookup_insert_eq by done. exists a'. split; [done|]. rewrite Ha in Hb. by injection Hb as <-.
    + rewrite list_lookup_insert_ne by done. by exists b.
  - intros j b Hb. rewrite Hy' in Hb. left. apply list_lookup_insert_Some in Hb as [(<- & -> & _)|(_ & Hb)]; [by exists a|by exists b].
Qed.

Lemma tame_trans x y z : tame x y -> tame y z -> tame x z.
Proof.
  intros [H1 H2] [H3 H4]. split.
  - intros k a Ha. destruct (H1 k a Ha) as (b & Hb & Hab). destruct (H3 k b Hb) as (c & Hc & Hbc). exists c. split; [done|]. by rewrite Hbc.
  - intros k c Hc. destruct (H4 k c Hc) as [(b & Hb & Hbc)|]; [|by right].
    destruct (H2 k b Hb) as [(a & Ha & Hab)|Hd]; [left; exists a; by rewrite Hbc|right]. injection Hbc as _ Hp _. by rewrite Hp.
Qed.

Lemma tame_tell y k m : tame y (try_tell y k m).
Proof.
  unfold try_tell. destruct (actors y !! k) as [a|] eqn:Ha; [|by apply tame_same].
  destruct (_ && _); [|by apply tame_same]. by eapply tame_one.
Qed.

Lemma tame_tell_all y f y' : tell_all y f = Some y' -> tame y y'.
Proof.
  unfold tell_all. destruct (forallb _ _); [|done]. intros [= <-]. unfold tame. cbn [with_actors actors].
  assert (forall (b : bool) m a, core (if b then tell m a else a) = core a) as Hc.
  { intros [] m a; [|done]. unfold tell. by destruct (is_exited a). }
  split; intros k a; rewrite list_lookup_imap.
  - intros Ha. rewrite Ha. eexists. split; [reflexivity|]. by rewrite Hc.
  - intros Ha'. left. destruct (actors y !! k) as [b|] eqn:Hb; [|done]. injection Ha' as <-. exists b. split; [done|]. by rewrite Hc.
Qed.

Lemma tame_start y u : tame y (start_active_relay y u).2.
Proof.
  unfold start_active_relay, tame. cbn [snd with_active with_actors actors]. split; intros k a Ha.
  - exists a. split; [|done]. by apply lookup_app_l_Some.
  - apply lookup_app_Some in Ha as [Ha|[_ Ha]]; [left; by exists a|right].
    destruct (k - length (actors y))%nat; [by injection Ha as <-|by destruct n].
Qed.

Lemma tame_handle y u : tame y (active_relay_handle y u).2.
Proof. unfold active_relay_handle. destruct (active_relays y !! u); [by apply tame_same|apply tame_start]. Qed.

Lemma tame_handle_for y i via k y' : handle_for y i via = Some (k, y') -> tame y y'.
Proof.
  unfold handle_for. destruct (active_relays y !! item_url i) as [j|]; [intros [= _ <-]; by apply tame_same|].
  destruct via as [j|].
  - destruct (_ && _); [|done]. intros [= _ <-]. by apply tame_same.
  - destruct (existsb _ _); [done|]. intros [= _ <-]. apply (tame_start y (item_url i)).
Qed.

Section Runs.
Context `{BL : Blake3}.
Context (primary : EndpointId) (sign : EndpointId -> arr 32 -> arr 64).

Abbreviation sends := (RelayClient.sends primary sign).
Abbreviation step := (RelayClient.step primary sign).
Abbreviation run := (RelayClient.run primary sign).

Lemma sends_unnamed a s d f p i : covered a s d -> f ∈ sends d -> keeps a p -> f <> CDatagrams p i.
Proof.
  intros Hc Hf Hp. destruct d; cbn in Hf; try (apply elem_of_cons in Hf as [->|Hf]; [done|]); try (by apply not_elem_of_nil in Hf).
  by apply Hc.
Qed.

Lemma writes_later a s d l :
  phase a = Connected s d -> guarded a -> (forall f, f ∈ l -> f ∈ sends d) -> guarded (writes a l) /\ later a (writes a l).
Proof.
  intros Hp Hg Hl. split; [done|]. eapply later_writes; [done|done|]. intros f p i Hf Hk. unfold guarded in Hg. rewrite Hp in Hg.
  by eapply sends_unnamed; eauto.
Qed.

Lemma take_sends d n f : f ∈ take n (sends d) -> f ∈ sends d.
Proof. intros Hf. rewrite <- (take_drop n (sends d)). apply elem_of_app. by left. Qed.

Lemma goes_on_follows y k a out y' : actors y !! k = Some a -> goes_on primary sign y k a out = Some y' -> follows y y'.
Proof.
  intros Ha. unfold goes_on. destruct (phase a) as [|s d|] eqn:Hp; try done. destruct (_ && _); [|done].
  set (l := match out with Some n => _ | None => _ end). set (a1 := writes a l).
  destruct (after_sending a1 s d (lost y)) as [a2 lost'] eqn:E. intros [= <-].
  eapply one_follows; [done|done|]. intros [Hg Hs].
  destruct (writes_later a s d l Hp Hg) as [Hg1 Hl1].
  { intros f Hf. subst l. destruct out; [by eapply take_sends|done]. }
  assert (covered a1 s d) as Hc by (unfold guarded in Hg1; unfold a1, writes in *; cbn [phase] in Hg1; by rewrite Hp in Hg1).
  assert (agrees s d) as Hd by (unfold agreeing in Hs; by rewrite Hp in Hs).
  destruct (after_sending_guarded a1 s d (lost y) Hp Hc) as [Hg2 Hl2].
  pose proof (after_sending_agrees a1 s d (lost y) Hc Hd) as Hs2. rewrite E in Hg2, Hl2, Hs2. cbn [fst] in *.
  split; [by split|by etrans].
Qed.

Lemma hears_follows y k a m y' : actors y !! k = Some a -> hears y k a m = Some y' -> follows y y'.
Proof.
  intros Ha. unfold hears. destruct (phase a) as [|s d|] eqn:Hp; try done.
  pose proof (heard_covered a (url a) s m d) as Hc. pose proof (heard_agrees (url a) s m d) as Hs.
  destruct (heard (url a) s m) as [[s1 handed] ans]. cbn [fst] in Hc, Hs. intros [= <-].
  assert (sound a -> covered a s1 d /\ agrees s1 d) as H1.
  { intros [Hg Hg']. unfold guarded, agreeing in *. rewrite Hp in *. auto. }
  assert (forall y', actors y' = <[k := with_phase a (Connected s1 d)]> (actors y) -> follows y y') as Hd.
  { intros y' E. eapply one_follows; [done|exact E|]. intros [Hg Hg']%H1. split; [by split|by apply later_quiet]. }
  destruct d; try (by apply Hd).
  destruct (reopens a s1 (reopen s1) _) as [[s2 d2] l] eqn:E. eapply one_follows; [done|done|].
  intros [Hg [Hg' _]]%H1. split; [|by apply later_quiet].
  pose proof (reopens_covered a s1 (reopen s1) (lost y) Hg) as Hr. pose proof (reopens_agrees a s1 (reopen s1) (lost y) Hg' Hg) as Hr'.
  cbn in E. rewrite E in Hr, Hr'. by split.
Qed.

Lemma told_follows a s m ok data : phase a = Connected s AtLoop -> sound a -> sound (told a s m ok data) /\ later a (told a s m ok data).
Proof.
  intros Hp [Hg Hs]. unfold guarded, agreeing in Hg, Hs. rewrite Hp in Hg, Hs. destruct Hs as [Hs _].
  destruct m; cbn [told]; try (by split; [|apply later_quiet]).
  - destruct (free_id_finds (by_circuit s)) as (id & -> & Hi & Hb & _). by split; [|apply later_quiet].
  - destruct ok; by split; [|apply later_quiet].
  - split; [|by apply later_quiet]. split; [by apply guarded_connected, loop_top_covered|by apply agreeing_connected, loop_top_agrees].
Qed.

Lemma told_dialling_keeps a m p : keeps a p -> keeps (told_dialling a m).1 p.
Proof.
  destruct m; cbn [told_dialling fst]; try done; [unfold remember_alias; by destruct (decide _)|apply keeps_remembered].
Qed.

Lemma told_dialling_same a m : phase (told_dialling a m).1 = phase a /\ wrote (told_dialling a m).1 = wrote a.
Proof. destruct m; cbn [told_dialling fst]; try done. unfold remember_alias. by destruct (decide _). Qed.

Lemma quiet_sound a a' : phase a' = Dialling \/ phase a' = Exited -> (forall p, keeps a p -> keeps a' p) -> wrote a' = wrote a ->
  sound a' /\ later a a'.
Proof. intros Hp Hk Hw. split; [|by apply later_quiet]. unfold sound, guarded, agreeing. by destruct Hp as [-> | ->]. Qed.

Lemma takes_message_follows y k a ok data y' : actors y !! k = Some a -> takes_message y k a ok data = Some y' -> follows y y'.
Proof.
  intros Ha. unfold takes_message. destruct (inbox a) as [|m rest] eqn:Ei; [done|].
  set (a1 := with_inbox a rest). assert (core a1 = core a) as Hcore by done.
  assert (sound a -> sound a1) as Hs1 by (by apply core_sound).
  change (phase a1) with (phase a). destruct (phase a) as [|s d|] eqn:Hp; [| |done].
  - destruct (told_dialling a1 m) as [a2 ans] eqn:E. intros [= <-]. eapply one_follows; [done|done|]. intros _.
    pose proof (told_dialling_same a1 m) as [H1 H2]. pose proof (told_dialling_keeps a1 m) as H3. rewrite E in H1, H2, H3. cbn [fst] in *.
    apply quiet_sound; [left; by rewrite H1|exact H3|by rewrite H2].
  - destruct d; try done. pose proof (told_follows a1 s m ok data Hp) as Ht.
    destruct (phase (told a1 s m ok data)) eqn:E; intros [= <-]; (eapply one_follows; [done|done|]); intros Hs.
    + by apply quiet_sound; [left|..].
    + exact (Ht (Hs1 Hs)).
    + exact (Ht (Hs1 Hs)).
Qed.

Lemma actor_step_follows y e k a y' : actors y !! k = Some a -> actor_step primary sign y e k a = Some y' -> follows y y'.
Proof.
  intros Ha.
  assert (forall a', sound a' /\ later a a' -> follows y (with_actor y k a')) as Hone.
  { intros a' Ha'. eapply one_follows; [done|done|by intros]. }
  destruct e; cbn [actor_step]; try done.
  - by apply takes_message_follows.
  - unfold takes_datagrams. destruct (phase a) as [|s d|] eqn:Hp; try done. destruct d; try done.
    case_bool_decide; [|done]. intros [= <-]. eapply one_follows; [done|done|]. intros [Hg Hs]. unfold guarded, agreeing in Hg, Hs.
    rewrite Hp in Hg, Hs. split; [|by apply later_quiet]. split; [|exact Hs]. split; [exact Hg|]. by apply carried_covered.
  - destruct (phase a) eqn:Hp; try done. intros [= <-]. by eapply tame_follows, tame_one.
  - destruct (phase a) eqn:Hp; try done. intros [= <-]. apply Hone. split; [|by apply later_quiet]. split.
    + apply guarded_connected, rebind_covered.
    + apply agreeing_connected. destruct (aliases a); [apply recircuit_agrees|]; done.
  - destruct (phase a) as [|s d|] eqn:Hp; try done. destruct d; try done. intros [= <-]. eapply one_follows; [done|done|].
    intros [Hg Hs]. unfold guarded, agreeing in Hg, Hs. rewrite Hp in Hg, Hs. by split; [|apply later_quiet].
  - by apply goes_on_follows.
  - by apply goes_on_follows.
  - destruct (phase a) as [|s d|] eqn:Hp; try done. intros [= <-]. eapply one_follows; [done|done|]. intros [Hg Hs].
    destruct (writes_later a s d (take out (sends d)) Hp Hg) as [_ Hl]; [by apply take_sends|].
    split; [done|]. etrans; [exact Hl|by apply later_quiet].
  - unfold exits. destruct (is_home_relay a); [done|]. destruct (phase a) as [|s d|] eqn:Hp; [| |done].
    + intros [= <-]. eapply one_follows; [done|done|]. intros _. by apply quiet_sound; [right|..].
    + destruct d; try done. intros [= <-]. eapply one_follows; [done|done|]. intros _. by apply quiet_sound; [right|..].
  - by apply hears_follows.
Qed.

Lemma tame_item y i via y' : try_send_datagram y i via = Some y' -> tame y y'.
Proof.
  unfold try_send_datagram. destruct (handle_for y i via) as [[k y1]|] eqn:E; [|done]. cbn.
  destruct (actors y1 !! k) as [a|] eqn:Ha; [|done]. apply tame_handle_for in E. cbn. intros [= <-].
  apply (tame_trans y y1); [done|]. destruct (is_exited a); [by apply tame_same|].
  case_match; [by eapply (tame_one _ _ k a)|by apply tame_same].
Qed.

Lemma tame_unblocks y y' : unblocks y = Some y' -> tame y y'.
Proof.
  unfold unblocks. destruct (blocked y) as [[k i]|]; [|done]. cbn. destruct (actors y !! k) as [a|] eqn:Ha; [|done]. cbn.
  destruct (is_exited a); [intros [= <-]; by apply tame_same|].
  case_match; [|done]. intros [= <-]. by eapply (tame_one _ _ k a).
Qed.

Lemma tame_home y u y' : on_network_change y u = Some y' -> tame y y'.
Proof.
  unfold on_network_change. destruct (bool_decide _); [intros [= <-]; by apply tame_same|].
  destruct u as [u|]; [|intros [= <-]; by apply tame_same].
  destruct (tell_all _ _) as [y1|] eqn:E; [|done]. cbn. intros [= <-]. apply tame_tell_all in E.
  eapply tame_trans; [exact E|]. apply tame_handle.
Qed.

Lemma step_follows y e y' : step y e = Some y' -> follows y y'.
Proof.
  assert (forall u m, follows y (let '(k, y1) := active_relay_handle y u in try_tell y1 k m)) as Hask.
  { intros u m. pose proof (tame_handle y u) as H. destruct (active_relay_handle y u) as [k y1]. cbn [snd] in H.
    by apply tame_follows, (tame_trans y y1), tame_tell. }
  assert (forall k, (actors y !! k ≫= fun a => actor_step primary sign y e k a) = Some y' -> follows y y') as Hact.
  { intros k. destruct (actors y !! k) as [a|] eqn:Ha; [|done]. cbn. by apply actor_step_follows. }
  destruct e; cbn [RelayClient.step]; try (exact (Hact _)).
  - intros H. specialize (Hask u (OpenCircuit peer sealed inner)). destruct (active_relay_handle y u). by injection H as <-.
  - intros H. specialize (Hask u (FetchRelayKey about ans)). destruct (active_relay_handle y u). by injection H as <-.
  - intros H. unfold bind_alias_everywhere in H. apply tame_tell_all in H. apply tame_follows. eapply tame_trans; [by apply tame_same|exact H].
  - intros H. by apply tame_follows, (tame_tell_all _ _ _ H).
  - intros H. by apply tame_follows, (tame_home _ _ _ H).
  - intros [= <-]. apply tame_follows. unfold reap_active_relays. destruct (my_relay _) as [u|]; [|by apply tame_same].
    eapply tame_trans; [|apply tame_handle]. by apply tame_same.
  - destruct (blocked y); [done|]. intros H. by apply tame_follows, (tame_item _ _ _ _ H).
  - intros H. by apply tame_follows, tame_unblocks.
  - intros [= <-]. by apply tame_follows, tame_same.
Qed.

Lemma run_follows es : forall y y', run y es = Some y' -> follows y y'.
Proof.
  induction es as [|e es IH]; intros y y'; cbn [RelayClient.run]; [by intros [= <-]|].
  destruct (step y e) as [y1|] eqn:E; [|done]. cbn. intros H. etrans; [by eapply step_follows|by apply IH].
Qed.

Lemma started_guarded : all_guarded started.
Proof. by intros k a Ha. Qed.

(** C4: a peer that an actor once holds a circuit for is never again spoken to by name on
    that actor's connections.  Whatever happens after, in any order: the connection
    breaks and is dialled again, the circuit is closed by the relay and cannot be rebuilt,
    a frame is cut off, more circuits are asked for.  Between two moments of a run the
    actor goes on holding the circuit, and of what it wrote to its relay in between no
    frame is a datagram under that peer's key. *)
Theorem a_circuit_once_kept_is_kept_to es es' y y' k a p :
  run started es = Some y -> actors y !! k = Some a -> p ∈ pc_peer <$> pending a -> run y es' = Some y' ->
  exists a' l, actors y' !! k = Some a' /\ p ∈ pc_peer <$> pending a' /\ wrote a' = wrote a ++ l /\ forall i, CDatagrams p i ∉ l.
Proof.
  intros H1 Ha Hp H2. destruct (run_follows es _ _ H1 started_guarded) as [Hy _].
  destruct (run_follows es' _ _ H2 Hy) as [_ H]. destruct (H k a Ha) as (a' & Ha' & Hk & l & Hl & Hn).
  exists a', l. split; [done|]. split; [by apply Hk|]. split; [done|]. intros i Hi. by apply (Hn _ p i Hi Hp).
Qed.

(** C8: in every state an endpoint can come to, the two tables of a connection agree: the
    number a peer is reached by is one that leads back to that peer, so that two peers
    never share a number; whoever has a circuit is among those who are not to be spoken to
    by name; a number that is being asked for is nobody's yet; and nobody's circuit is
    rebuilt more than three times. *)
Theorem the_two_tables_agree es y k a s d p id :
  run started es = Some y -> actors y !! k = Some a -> phase a = Connected s d -> circuits s !! p = Some id ->
  by_circuit s !! id = Some p /\ p ∈ circuit_required s /\ 1 <= id /\ default 0 (reopened s !! p) <= MAX_CIRCUIT_REOPENS
  /\ (forall q, circuits s !! q = Some id -> q = p)
  /\ match d with SendsOpen _ n | SendsReopen _ n | SendsCircuit _ n _ => n <> id | _ => True end.
Proof.
  intros H Ha Hp Hc. destruct (run_follows es _ _ H started_guarded) as [Hy _]. destruct (Hy k a Ha) as [_ Hs].
  unfold agreeing in Hs. rewrite Hp in Hs. destruct Hs as [[Ht Hr] Hd]. destruct (Ht p id Hc) as (Hb & Hq & Hi).
  repeat (split; [done|]). split.
  - destruct (reopened s !! p) as [n|] eqn:E; [by apply (Hr p)|done].
  - split.
    + intros q Hcq. destruct (Ht q id Hcq) as [Hb' _]. rewrite Hb in Hb'. by injection Hb'.
    + destruct d; try done; [|by intros ->; destruct Hd as [Hd _]; rewrite Hb in Hd..].
      intros ->. destruct Hd as [_ Hd]. by rewrite (Hd id) in Hb.
Qed.

(** ** Ways to lose a circuit *)

Lemma actor_set y k a a' : actors y !! k = Some a -> actors (with_actor y k a') !! k = Some a'.
Proof. intros Ha. cbn. apply list_lookup_insert_eq. by eapply lookup_lt_Some. Qed.

Lemma run_next y e es y1 : step y e = Some y1 -> run y (e :: es) = run y1 es.
Proof. intros H. cbn [RelayClient.run]. by rewrite H. Qed.

(** An actor that is handed the one datagram of an empty queue, for the relay it is of. *)
Lemma item_queued y k a i via :
  blocked y = None -> active_relays y !! item_url i = Some k -> actors y !! k = Some a -> is_exited a = false -> to_send a = [] ->
  step y (SendsItem i via) = Some (with_actor y k (with_to_send a [i])).
Proof.
  intros Hb Hr Ha He Hs. cbn [RelayClient.step]. rewrite Hb. unfold try_send_datagram, handle_for. rewrite Hr. cbn. rewrite Ha. cbn.
  by rewrite He, Hs.
Qed.

(** On a connection that has just been dialled, with nothing to say again, a datagram goes
    out under the name of whom it is for. *)
Lemma fresh_names y k a i :
  actors y !! k = Some a -> phase a = Connected connected AtLoop -> to_send a = [i] ->
  exists y' a', run y [TakesDatagrams k 1; RelayClient.Sent k] = Some y' /\ actors y' !! k = Some a' /\
    wrote a' = wrote a ++ [CDatagrams (remote_endpoint i) (item i)].
Proof.
  intros Ha Hp Hs. set (a1 := with_phase (with_to_send a []) (Connected connected (SendsDatagrams [CDatagrams (remote_endpoint i) (item i)]))).
  rewrite (run_next _ _ _ (with_actor y k a1)).
  2:{ cbn [RelayClient.step]. rewrite Ha. cbn [mbind option_bind actor_step]. unfold takes_datagrams. rewrite Hp, Hs.
      rewrite bool_decide_eq_true_2 by (unfold SEND_DATAGRAM_BATCH_SIZE; cbn; lia). reflexivity. }
  erewrite run_next.
  2:{ cbn [RelayClient.step]. rewrite (actor_set y k a a1 Ha). cbn [mbind option_bind actor_step]. reflexivity. }
  cbn [RelayClient.run]. eexists _, _. split; [reflexivity|].
  split; [cbn; apply list_lookup_insert_eq; rewrite length_insert; by eapply lookup_lt_Some|reflexivity].
Qed.

(** A circuit is remembered after its frame was sent and not before.  So when the
    connection breaks while the frame is on its way, the request is in neither the inbox
    nor the memory of the actor: the next connection does not ask for the circuit again,
    and the next datagram for that peer goes out under the peer's name. *)
Theorem a_request_cut_off_is_forgotten y k a s c id i out :
  actors y !! k = Some a -> phase a = Connected s (SendsOpen c id) -> pending a = [] -> RelayClient.aliases a = [] -> to_send a = [] ->
  blocked y = None -> active_relays y !! item_url i = Some k -> remote_endpoint i = pc_peer c ->
  exists y' a',
    run y [Breaks k out; Dials k; SendsItem i None; TakesDatagrams k 1; RelayClient.Sent k] = Some y' /\ actors y' !! k = Some a' /\
    wrote a' = wrote a ++ take out [open_frame c id] ++ [CDatagrams (pc_peer c) (item i)].
Proof.
  intros Ha Hp Hk Hal Hs Hb Hr Hi. set (a1 := with_phase (writes a (take out [open_frame c id])) Dialling).
  set (y1 := answered (with_actor y k a1) (unanswered (Connected s (SendsOpen c id)))).
  assert (actors y1 !! k = Some a1) as Ha1 by (by apply (actor_set y k a)).
  rewrite (run_next _ _ _ y1) by (cbn [RelayClient.step]; rewrite Ha; cbn [mbind option_bind actor_step]; rewrite Hp; unfold breaks; cbn; by rewrite Hp).
  set (a2 := with_phase a1 (Connected connected AtLoop)).
  rewrite (run_next _ _ _ (with_actor y1 k a2)).
  2:{ cbn [RelayClient.step]. rewrite Ha1. cbn [mbind option_bind actor_step]. cbn [phase a1 with_phase]. unfold rebind.
      change (RelayClient.aliases a1) with (RelayClient.aliases a). rewrite Hal. change (pending a1) with (pending a). by rewrite Hk. }
  assert (actors (with_actor y1 k a2) !! k = Some a2) as Ha2 by (by eapply actor_set).
  rewrite (run_next _ _ _ (with_actor (with_actor y1 k a2) k (with_to_send a2 [i]))) by (by apply item_queued).
  destruct (fresh_names (with_actor (with_actor y1 k a2) k (with_to_send a2 [i])) k (with_to_send a2 [i]) i) as (y' & a' & H1 & H2 & H3);
    [by eapply actor_set|done|done|].
  exists y', a'. split; [done|]. split; [done|]. rewrite H3. cbn. by rewrite <- app_assoc, Hi.
Qed.

(** The circuits are remembered by the actor of a relay, and the actor of a relay
    that is not the home relay ends when nothing is sent for a while.  Of its circuits
    nothing is left: the next datagram for the peer starts another actor, which has none,
    dials the same relay, and sends it under the peer's name. *)
Theorem a_circuit_does_not_outlive_its_actor y k a s i :
  actors y !! k = Some a -> phase a = Connected s AtLoop -> is_home_relay a = false ->
  active_relays y = {[item_url i := k]} -> my_relay y = None -> bound y = [] -> blocked y = None ->
  let k' := length (actors y) in
  exists y' a',
    run y [Exits k; Reaps; SendsItem i None; Dials k'; TakesDatagrams k' 1; RelayClient.Sent k'] = Some y' /\
    actors y' !! k' = Some a' /\ wrote a' = [CDatagrams (remote_endpoint i) (item i)].
Proof.
  intros Ha Hp Hh Hr Hm Hbd Hb k'.
  set (a1 := with_to_send (with_inbox (with_phase a Exited) []) []).
  set (y1 := answered (with_actor y k a1) (unanswered (phase a) ++ unread (inbox a))).
  rewrite (run_next _ _ _ y1) by (cbn [RelayClient.step]; rewrite Ha; cbn [mbind option_bind actor_step]; unfold exits, y1; by rewrite Hh, Hp).
  assert (actors y1 !! k = Some a1) as Ha1 by (by apply (actor_set y k a)).
  set (y2 := with_active y1 ∅).
  rewrite (run_next _ _ _ y2).
  2:{ cbn [RelayClient.step]. f_equal. unfold reap_active_relays. change (my_relay (with_active y1 _)) with (my_relay y). rewrite Hm.
      subst y2. f_equal. change (active_relays y1) with (active_relays y). rewrite Hr. rewrite map_filter_singleton_False; [done|]. cbn.
      unfold runs. by rewrite Ha1. }
  set (b := mkActor (item_url i) false [] [] Dialling [] [] []).
  set (y3 := with_active (with_actors y2 (actors y2 ++ [b])) {[item_url i := k']}).
  assert (length (actors y1) = k') as Hl by (apply length_insert).
  assert (actors y3 !! k' = Some b) as Hb3 by (cbn; rewrite lookup_app_r; change (length (<[k := a1]> (actors y))) with (length (actors y1));
    rewrite Hl; [by rewrite Nat.sub_diag|done]).
  rewrite (run_next _ _ _ (with_actor y3 k' (with_to_send b [i]))).
  2:{ cbn [RelayClient.step]. change (blocked y2) with (blocked y). rewrite Hb. unfold try_send_datagram, handle_for.
      change (active_relays y2 !! item_url i) with (@None nat). change (existsb _ _) with false.
      assert (start_active_relay y2 (item_url i) = (k', y3)) as E.
      { unfold start_active_relay. change (my_relay y2) with (my_relay y). change (bound y2) with (bound y).
        change (length (actors y2)) with (length (actors y1)). rewrite Hm, Hbd, Hl. done. }
      rewrite E. cbn [mbind option_bind]. by rewrite Hb3. }
  set (y4 := with_actor y3 k' (with_to_send b [i])).
  assert (actors y4 !! k' = Some (with_to_send b [i])) as Hb4 by (by apply (actor_set y3 k' b)).
  set (b5 := with_phase (with_to_send b [i]) (Connected connected AtLoop)).
  rewrite (run_next _ _ _ (with_actor y4 k' b5)) by (cbn [RelayClient.step]; by rewrite Hb4).
  apply (fresh_names (with_actor y4 k' b5) k' b5 i); [by apply (actor_set y4 k' (with_to_send b [i]))|done|done].
Qed.

(** ** A number with two meanings *)

Lemma client_run_app es es' y y1 : run y es = Some y1 -> run y (es ++ es') = run y1 es'.
Proof.
  revert y. induction es as [|e es IH]; intros y; cbn [RelayClient.run app]; [by intros [= ->]|].
  destruct (step y e) as [y2|]; [|done]. cbn. apply IH.
Qed.

(** An actor that waits, with what it has written and what is still in its inbox. *)
Definition idle (y : System) (k : nat) (a : Actor) (s : ConnectedRelayState) : Prop :=
  actors y !! k = Some a /\ phase a = Connected s AtLoop /\ pong_pending s = None /\ reopen s = [].

Definition opened_as (s : ConnectedRelayState) (c : PendingCircuit) (id : Z) : ConnectedRelayState :=
  let s := requires (opens (forget_old s (pc_peer c)) (pc_peer c) id) (pc_peer c) in
  with_reopen s (reopen s) (delete (pc_peer c) (reopened s)).

Lemma idle_opens y k a s ok data c rest id :
  idle y k a s -> inbox a = OpenCircuit (pc_peer c) (pc_sealed c) (pc_inner c) :: rest -> free_id (by_circuit s) = Some id ->
  exists y', run y [TakesMessage k ok data; RelayClient.Sent k] = Some y' /\
    idle y' k (with_phase (remember_circuit (writes (with_inbox a rest) [open_frame c id]) c) (Connected (opened_as s c id) AtLoop))
      (opened_as s c id).
Proof.
  intros (Ha & Hp & Hpong & Hq) Hi Hf. destruct c as [p se inn]. cbn [pc_peer pc_sealed pc_inner] in *.
  set (c := mkPendingCircuit p se inn). set (a1 := with_phase (with_inbox a rest) (Connected s (SendsOpen c id))).
  rewrite (run_next _ _ _ (with_actor y k a1)).
  2:{ cbn [RelayClient.step]. rewrite Ha. cbn [mbind option_bind actor_step]. unfold takes_message. rewrite Hi.
      change (phase (with_inbox a rest)) with (phase a). rewrite Hp. cbn [told]. rewrite Hf. reflexivity. }
  assert (pong_pending (forget_old s p) = None /\ reopen (forget_old s p) = []) as [Hpong' Hq'] by (unfold forget_old; by destruct (circuits s !! p)).
  erewrite run_next.
  2:{ cbn [RelayClient.step]. rewrite (actor_set y k a a1 Ha). cbn [mbind option_bind actor_step]. unfold goes_on. cbn [phase a1 with_phase sending andb].
      cbn [after_sending]. unfold loop_top. cbn [pong_pending with_reopen requires opens with_tables c pc_peer]. rewrite Hpong'. reflexivity. }
  cbn [RelayClient.run]. eexists. split; [reflexivity|]. split.
  { cbn. apply list_lookup_insert_eq. rewrite length_insert. by eapply lookup_lt_Some. }
  split; [done|]. cbn. by rewrite Hpong', Hq'.
Qed.

Lemma kept_for_remembered a c : kept_for (remember_circuit a c) (pc_peer c) = Some c.
Proof.
  unfold kept_for, remember_circuit. cbn [pending with_kept].
  rewrite list_find_app_r.
  - cbn. by rewrite decide_True.
  - apply list_find_None, Forall_forall. intros k Hk. by apply list_elem_of_filter in Hk as [Hk _].
Qed.

(** The circuit of number 1 is told to be closed, and asked for again under that number. *)
Lemma idle_asks_again y k a s c why t :
  idle y k a s -> by_circuit s !! 1 = Some (pc_peer c) -> kept_for a (pc_peer c) = Some c ->
  default 0 (reopened s !! pc_peer c) = t -> t < MAX_CIRCUIT_REOPENS ->
  exists y' a' s', run y [Hears k (RCircuitClosed 1 why); RelayClient.Sent k] = Some y' /\ idle y' k a' s' /\
    by_circuit s' !! 1 = Some (pc_peer c) /\ kept_for a' (pc_peer c) = Some c /\ default 0 (reopened s' !! pc_peer c) = t + 1 /\
    wrote a' = wrote a ++ [open_frame c 1].
Proof.
  intros (Ha & Hp & Hpong & Hq) Hb Hk Ht Hlt.
  set (s1 := with_tables s (delete (pc_peer c) (circuits s)) (delete 1 (by_circuit s)) (circuit_required s)).
  set (s2 := with_reopen s1 [] (<[pc_peer c := t + 1]> (reopened s))).
  assert (free_id (by_circuit s2) = Some 1) as Hf by (apply free_id_least; [lia|apply lookup_delete_eq|intros; lia]).
  set (a1 := with_phase a (Connected s2 (SendsReopen c 1))).
  set (y1 := with_lost (with_actor (answered (with_receiver y (receiver y)) []) k a1) (lost y)).
  rewrite (run_next _ _ _ y1).
  2:{ cbn [RelayClient.step]. rewrite Ha. cbn [mbind option_bind actor_step]. unfold hears. rewrite Hp. cbn [heard]. rewrite Hb.
      cbn [reopen with_reopen reopened with_tables]. rewrite Hq. cbn [app reopen with_reopen reopens reopened with_tables]. rewrite Ht. rewrite (proj2 (Z.leb_gt _ _)) by done. rewrite Hk.
      fold s1. cbn [reopened with_reopen]. fold s2. change (free_id (by_circuit _)) with (free_id (by_circuit s2)). by rewrite Hf. }
  assert (actors y1 !! k = Some a1) as Ha1 by (by apply (actor_set y k a)).
  erewrite run_next.
  2:{ cbn [RelayClient.step]. rewrite Ha1. cbn [mbind option_bind actor_step]. unfold goes_on. cbn [phase a1 with_phase sending andb].
      cbn [after_sending reopen opens with_tables s2 with_reopen reopens]. unfold loop_top. cbn [pong_pending with_reopen opens with_tables s1].
      change (pong_pending s2) with (pong_pending s). rewrite Hpong. reflexivity. }
  cbn [RelayClient.run]. eexists _, _, _. split; [reflexivity|]. split; [split|].
  - cbn. apply list_lookup_insert_eq. rewrite length_insert. by eapply lookup_lt_Some.
  - split; [reflexivity|]. by split.
  - cbn. rewrite lookup_insert_eq. split; [done|]. split; [exact Hk|]. by rewrite lookup_insert_eq.
Qed.

(** The fourth time it is closed it is given up. *)
Lemma idle_gives_up y k a s p why :
  idle y k a s -> by_circuit s !! 1 = Some p -> default 0 (reopened s !! p) = MAX_CIRCUIT_REOPENS ->
  exists y' a' s', run y [Hears k (RCircuitClosed 1 why)] = Some y' /\ idle y' k a' s' /\ wrote a' = wrote a /\
    RelayClient.circuits s' !! p = None /\ p ∈ lost y'.
Proof.
  intros (Ha & Hp & Hpong & Hq) Hb Ht. erewrite run_next.
  2:{ cbn [RelayClient.step]. rewrite Ha. cbn [mbind option_bind actor_step]. unfold hears. rewrite Hp. cbn [heard]. rewrite Hb.
      cbn [reopen with_reopen reopened with_tables]. rewrite Hq. cbn [app reopen with_reopen reopens reopened with_tables]. rewrite Ht.
      rewrite Z.leb_refl. unfold loop_top. cbn [pong_pending with_reopen with_tables]. rewrite Hpong. reflexivity. }
  cbn [RelayClient.run]. eexists _, _, _. split; [reflexivity|]. split; [split|].
  - cbn. apply list_lookup_insert_eq. by eapply lookup_lt_Some.
  - split; [reflexivity|]. by split.
  - cbn. rewrite lookup_delete_eq. set_solver.
Qed.
End Runs.

Lemma claim_conns t key who c dest b t' : Circuits.claim_return_key t key who c dest = (b, t') -> Circuits.conns t' = Circuits.conns t.
Proof. unfold Circuits.claim_return_key. repeat case_match; by intros [= _ <-]. Qed.

Lemma inserted y n x c f :
  Circuits.conns (Circuits.table y) !! n = Some x ->
  Circuits.conns (Circuits.table (Circuits.insert_circuit y n c f)) !! n = Some (Circuits.with_circuits x (<[c := f]> (Circuits.circuits x))).
Proof.
  intros Hn. unfold Circuits.insert_circuit, Circuits.on_conn. rewrite Hn. cbn. apply list_lookup_insert_eq. by eapply lookup_lt_Some.
Qed.

(** What the relay holds under a number stays, whatever else is asked for; and it holds
    something under a number it said was opened. *)
Lemma number_stays opener dialer y n x now c se inn y' m :
  Circuits.conns (Circuits.table y) !! n = Some x ->
  Circuits.handle_frame_open_circuit opener dialer y n x now c se inn = (y', m) ->
  exists x', Circuits.conns (Circuits.table y') !! n = Some x' /\
    (forall c', is_Some (Circuits.circuits x !! c') -> is_Some (Circuits.circuits x' !! c')) /\
    (m = Some (RCircuitOpened c) -> is_Some (Circuits.circuits x' !! c)).
Proof.
  intros Hn. unfold Circuits.handle_frame_open_circuit.
  repeat (destruct (bool_decide _) || case_match); intros [= <- <-]; try (by exists x).
  - eexists. split; [by apply inserted|]. split; [intros c' Hc'; cbn; apply lookup_insert_is_Some'; by right|done].
  - eexists. split; [apply inserted; cbn; by erewrite claim_conns|].
    split; [intros c' Hc'; cbn; apply lookup_insert_is_Some'; by right|intros _; cbn; by rewrite lookup_insert_eq].
Qed.

Section Numbers.
Context `{BL : Blake3}.
Context (primary : EndpointId) (sign : EndpointId -> arr 32 -> arr 64).

Abbreviation run := (RelayClient.run primary sign).

(** C10: asking for a circuit to a peer again, with a fresh descriptor, takes a second
    number and makes the first free to be given away; but the relay is not told and goes
    on holding a circuit under it.  The circuit asked for next, to somebody else, is given
    that number, which the relay refuses as taken.  It is asked for again under the same
    number, three times over, refused each time, and reported lost: on this connection
    that peer cannot be reached, fresh descriptors or not. *)
Theorem an_old_number_shuts_another_out y k a s p q ok data why :
  idle y k a s -> RelayClient.circuits s !! pc_peer p = Some 1 -> by_circuit s !! 1 = Some (pc_peer p) -> pc_peer q <> pc_peer p ->
  inbox a = [OpenCircuit (pc_peer p) (pc_sealed p) (pc_inner p); OpenCircuit (pc_peer q) (pc_sealed q) (pc_inner q)] ->
  let asks := [TakesMessage k ok data; RelayClient.Sent k] in
  let again := [Hears k (RCircuitClosed 1 why); RelayClient.Sent k] in
  (exists y' a' s' id,
    run y (asks ++ asks ++ again ++ again ++ again ++ [Hears k (RCircuitClosed 1 why)]) = Some y' /\ idle y' k a' s' /\
    id <> 1 /\ wrote a' = wrote a ++ open_frame p id :: replicate 4 (open_frame q 1) /\
    RelayClient.circuits s' !! pc_peer q = None /\ pc_peer q ∈ lost y') /\
  forall opener dialer r n x r1 now id se inn r2 m,
    Circuits.conns (Circuits.table r) !! n = Some x ->
    Circuits.handle_frame_open_circuit opener dialer r n x now 1 se inn = (r1, Some (RCircuitOpened 1)) ->
    exists x1, Circuits.conns (Circuits.table r1) !! n = Some x1 /\
      (Circuits.handle_frame_open_circuit opener dialer r1 n x1 now id (pc_sealed p) (pc_inner p) = (r2, m) ->
       exists x2, Circuits.conns (Circuits.table r2) !! n = Some x2 /\
         forall later, Circuits.handle_frame_open_circuit opener dialer r2 n x2 later 1 (pc_sealed q) (pc_inner q)
                       = (r2, Some (RCircuitClosed 1 Circuits.CIRCUIT_REFUSED))).
Proof.
  intros Hid Hc Hb Hpq Hin asks again. split.
  - destruct (free_id_finds (by_circuit s)) as (id & Hf & Hi & Hn & _).
    destruct (idle_opens primary sign y k a s ok data p _ id Hid Hin Hf) as (y1 & H1 & Hid1).
    set (s1 := opened_as s p id) in *. set (a1 := with_phase _ _) in *.
    assert (id <> 1) as Hne by (intros ->; by rewrite Hb in Hn).
    assert (by_circuit s1 = <[id := pc_peer p]> (delete 1 (by_circuit s))) as Hs1 by (unfold s1, opened_as, forget_old; by rewrite Hc).
    assert (free_id (by_circuit s1) = Some 1) as Hf1.
    { apply free_id_least; [lia| |intros; lia]. rewrite Hs1, lookup_insert_ne by done. apply lookup_delete_eq. }
    destruct (idle_opens primary sign y1 k a1 s1 ok data q [] 1 Hid1 eq_refl Hf1) as (y2 & H2 & Hid2).
    set (s2 := opened_as s1 q 1) in *. set (a2 := with_phase _ (Connected s2 _)) in *.
    assert (by_circuit s2 !! 1 = Some (pc_peer q)) as Hb2 by (cbn; apply lookup_insert_eq).
    assert (default 0 (reopened s2 !! pc_peer q) = 0) as Ht2 by (cbn; by rewrite lookup_delete_eq).
    assert (kept_for a2 (pc_peer q) = Some q) as Hk2 by (apply (kept_for_remembered (writes (with_inbox a1 []) [open_frame q 1]) q)).
    destruct (idle_asks_again primary sign y2 k a2 s2 q why 0 Hid2 Hb2 Hk2 Ht2 ltac:(done)) as (y3 & a3 & s3 & H3 & Hid3 & Hb3 & Hk3 & Ht3 & Hw3).
    destruct (idle_asks_again primary sign y3 k a3 s3 q why 1 Hid3 Hb3 Hk3 Ht3 ltac:(done)) as (y4 & a4 & s4 & H4 & Hid4 & Hb4 & Hk4 & Ht4 & Hw4).
    destruct (idle_asks_again primary sign y4 k a4 s4 q why 2 Hid4 Hb4 Hk4 Ht4 ltac:(done)) as (y5 & a5 & s5 & H5 & Hid5 & Hb5 & Hk5 & Ht5 & Hw5).
    destruct (idle_gives_up primary sign y5 k a5 s5 (pc_peer q) why Hid5 Hb5 Ht5) as (y6 & a6 & s6 & H6 & Hid6 & Hw6 & Hc6 & Hl6).
    exists y6, a6, s6, id. split; [|split; [done|split; [done|split; [|done]]]].
    + unfold asks, again. by rewrite (client_run_app _ _ _ _ _ y1), (client_run_app _ _ _ _ _ y2), (client_run_app _ _ _ _ _ y3),
        (client_run_app _ _ _ _ _ y4), (client_run_app _ _ _ _ _ y5).
    + rewrite Hw6, Hw5, Hw4, Hw3. cbn. by rewrite <- !app_assoc.
  - intros opener dialer r n x r1 now id se inn r2 m Hn H1. destruct (number_stays _ _ _ _ _ _ _ _ _ _ _ Hn H1) as (x1 & Hn1 & _ & Hx1).
    exists x1. split; [done|]. intros H2. destruct (number_stays _ _ _ _ _ _ _ _ _ _ _ Hn1 H2) as (x2 & Hn2 & Hx2 & _).
    exists x2. split; [done|]. intros later'. unfold Circuits.handle_frame_open_circuit. rewrite bool_decide_eq_true_2; [done|]. by apply Hx2, Hx1.
Qed.
End Numbers.

(** ** Runs of a small endpoint *)

Module Witness.
#[local] Existing Instance CircuitFacts.Witness.toy_hash | 0.

Definition alice : EndpointId := CircuitFacts.Witness.alice.
Definition bob : EndpointId := CircuitFacts.Witness.bob.
Definition carol : EndpointId := be_arr 32 4.
Definition home : bytes := be_bytes 3 7.
Definition no_sign (_ : EndpointId) (_ : arr 32) : arr 64 := be_arr 64 0.
Definition echo : arr 8 := be_arr 8 5.
Definition to_bob : RelaySendItem := mkSendItem bob home (mkDatagrams None None [x0a]).
Definition for_bob : PendingCircuit := mkPendingCircuit bob [x01] [].
Definition for_bob_again : PendingCircuit := mkPendingCircuit bob [x02] [].
Definition for_carol : PendingCircuit := mkPendingCircuit carol [x03] [].

Definition run_here := RelayClient.run alice no_sign.
Definition after (es : list Event) : System := default started (run_here started es).
Definition actor_at (y : System) (k : nat) : Actor := default (mkActor [] false [] [] Exited [] [] []) (actors y !! k).
Definition conn_at (y : System) (k : nat) : ConnectedRelayState := match phase (actor_at y k) with Connected s _ => s | _ => connected end.

Definition asked : list Event := [AsksCircuit home bob [x01] []; Dials 0; TakesMessage 0 true echo; RelayClient.Sent 0].

(** What is asked of a run is whether it goes through, and where it leaves the actor. *)
Definition went (es : list Event) : bool := match run_here started es with Some _ => true | None => false end.
Definition there (y : System) (k : nat) : bool := match actors y !! k with Some _ => true | None => false end.
Definition waits (a : Actor) : bool := match phase a with Connected _ AtLoop => true | _ => false end.

Lemma went_after es : went es = true -> run_here started es = Some (after es).
Proof. unfold went, after. by destruct (run_here started es). Qed.

Lemma went_on es es' : went es = true -> went (es ++ es') = true -> run_here (after es) es' = Some (after (es ++ es')).
Proof.
  intros H1%went_after H2%went_after. unfold run_here in *. by rewrite (client_run_app alice no_sign es es' started (after es) H1) in H2.
Qed.

Lemma there_at y k : there y k = true -> actors y !! k = Some (actor_at y k).
Proof. unfold there, actor_at. by destruct (actors y !! k). Qed.

Lemma waits_at y k : waits (actor_at y k) = true -> phase (actor_at y k) = Connected (conn_at y k) AtLoop.
Proof. unfold waits, conn_at. destruct (phase _) as [|s d|]; try done. by destruct d. Qed.

(** The circuit closes, a datagram is dropped for want of it, the connection breaks, the
    circuit is asked for again on the next one, and the next datagram goes along it. *)
Definition troubled : list Event :=
  [Hears 0 (RCircuitClosed 1 2); SendsItem to_bob None; IsCut 0 0; Breaks 0 0; Dials 0; RelayClient.Sent 0; TakesDatagrams 0 1; RelayClient.Sent 0].

Example bob_is_reached_by_number :
  wrote (actor_at (after (asked ++ troubled)) 0) = [open_frame for_bob 1; open_frame for_bob 1; CCircuitDatagrams 1 (item to_bob)].
Proof. vm_compute. reflexivity. Qed.

Lemma a_circuit_once_kept_is_kept_to_witness :
  bob ∈ pc_peer <$> pending (actor_at (after asked) 0) /\
  exists a' l, actors (after (asked ++ troubled)) !! 0%nat = Some a' /\ bob ∈ pc_peer <$> pending a' /\
    wrote a' = wrote (actor_at (after asked) 0) ++ l /\ forall i, CDatagrams bob i ∉ l.
Proof.
  assert (bob ∈ pc_peer <$> pending (actor_at (after asked) 0)) as Hb by (vm_compute; left). split; [exact Hb|].
  apply (a_circuit_once_kept_is_kept_to alice no_sign asked troubled (after asked) (after (asked ++ troubled)) 0 (actor_at (after asked) 0) bob).
  - apply went_after. vm_compute. reflexivity.
  - apply there_at. vm_compute. reflexivity.
  - exact Hb.
  - apply went_on; vm_compute; reflexivity.
Defined.

Lemma the_two_tables_agree_witness :
  circuits (conn_at (after asked) 0) !! bob = Some 1 /\ by_circuit (conn_at (after asked) 0) !! 1 = Some bob.
Proof.
  assert (circuits (conn_at (after asked) 0) !! bob = Some 1) as Hc by (vm_compute; reflexivity). split; [exact Hc|].
  destruct (the_two_tables_agree alice no_sign asked (after asked) 0 (actor_at (after asked) 0) (conn_at (after asked) 0) AtLoop bob 1) as [H _].
  - apply went_after. vm_compute. reflexivity.
  - apply there_at. vm_compute. reflexivity.
  - apply waits_at. vm_compute. reflexivity.
  - exact Hc.
  - exact H.
Defined.

Definition asking_now : list Event := removelast asked.

Lemma a_request_cut_off_is_forgotten_witness :
  phase (actor_at (after asking_now) 0) = Connected (conn_at (after asking_now) 0) (SendsOpen for_bob 1) /\
  exists y' a', run_here (after asking_now) [Breaks 0 1; Dials 0; SendsItem to_bob None; TakesDatagrams 0 1; RelayClient.Sent 0] = Some y' /\
    actors y' !! 0%nat = Some a' /\
    wrote a' = wrote (actor_at (after asking_now) 0) ++ [open_frame for_bob 1; CDatagrams bob (item to_bob)].
Proof.
  assert (phase (actor_at (after asking_now) 0) = Connected (conn_at (after asking_now) 0) (SendsOpen for_bob 1)) as Hp by (vm_compute; reflexivity).
  split; [exact Hp|].
  apply (a_request_cut_off_is_forgotten alice no_sign (after asking_now) 0 (actor_at (after asking_now) 0) (conn_at (after asking_now) 0)
    for_bob 1 to_bob 1); [apply there_at; vm_compute; reflexivity|exact Hp|vm_compute; reflexivity..].
Defined.

Lemma a_circuit_does_not_outlive_its_actor_witness :
  circuits (conn_at (after asked) 0) !! bob = Some 1 /\
  exists y' a', run_here (after asked) [Exits 0; Reaps; SendsItem to_bob None; Dials 1; TakesDatagrams 1 1; RelayClient.Sent 1] = Some y' /\
    actors y' !! 1%nat = Some a' /\ wrote a' = [CDatagrams bob (item to_bob)].
Proof.
  split; [vm_compute; reflexivity|].
  apply (a_circuit_does_not_outlive_its_actor alice no_sign (after asked) 0 (actor_at (after asked) 0) (conn_at (after asked) 0) to_bob).
  - apply there_at. vm_compute. reflexivity.
  - apply waits_at. vm_compute. reflexivity.
  - vm_compute. reflexivity.
  - refine (bool_decide_eq_true_1 _ _). vm_compute. reflexivity.
  - vm_compute. reflexivity.
  - vm_compute. reflexivity.
  - vm_compute. reflexivity.
Defined.

(** Bob and then Carol are asked for, with Bob's circuit open. *)
Definition two_more : list Event := asked ++ [AsksCircuit home bob [x02] []; AsksCircuit home carol [x03] []].

Lemma an_old_number_shuts_another_out_witness :
  idle (after two_more) 0 (actor_at (after two_more) 0) (conn_at (after two_more) 0) /\
  let asks := [TakesMessage 0 true echo; RelayClient.Sent 0] in
  let again := [Hears 0 (RCircuitClosed 1 2); RelayClient.Sent 0] in
  exists y' a' s' id,
    run_here (after two_more) (asks ++ asks ++ again ++ again ++ again ++ [Hears 0 (RCircuitClosed 1 2)]) = Some y' /\ idle y' 0 a' s' /\
    id <> 1 /\ wrote a' = wrote (actor_at (after two_more) 0) ++ open_frame for_bob_again id :: replicate 4 (open_frame for_carol 1) /\
    circuits s' !! carol = None /\ carol ∈ lost y'.
Proof.
  assert (idle (after two_more) 0 (actor_at (after two_more) 0) (conn_at (after two_more) 0)) as Hi.
  { split; [apply there_at; vm_compute; reflexivity|]. split; [apply waits_at; vm_compute; reflexivity|].
    split; vm_compute; reflexivity. }
  split; [exact Hi|]. intros asks again.
  destruct (an_old_number_shuts_another_out alice no_sign (after two_more) 0 (actor_at (after two_more) 0) (conn_at (after two_more) 0)
    for_bob_again for_carol true echo 2) as [H _].
  - exact Hi.
  - vm_compute. reflexivity.
  - vm_compute. reflexivity.
  - intros E. apply (f_equal (fun x => bool_decide (x = bob))) in E. vm_compute in E. discriminate E.
  - vm_compute. reflexivity.
  - exact H.
Defined.
End Witness.
