(* ===== verification/DeviceEndpoint.v ===== *)
(** * Reaching a device and being let in

    [rotelyx-core/src/endpoint.rs] over [rotelyx-net/src/endpoint.rs] and the keys a
    device answers with ([tls/resolver.rs], [tls/verifier.rs] and [tls/name.rs] of
    [rotelyx-transport]): a device answers at several addresses on one endpoint, a caller
    names the one it wants in the handshake, and the first frame it sends is its evidence
    for the gate of [Access].  With it the setting up of a listener and of a call around
    that ([rotelyx-cli/src/main.rs], and [rotelyx-desktop/src/engine.rs], which does the
    same).

    The handshake is what TLS makes of it: a peer proves that it holds the key of the
    certificate it shows.  A connection that was accepted is the key its caller showed and
    the name it asked for; an honest caller is [dial], and any other is any [Conn].  A
    stream is what is still to be read of it, as in [Wire]. *)

From S2P Require Import Prelude Crypto Access Wire.
From S2P Require DeviceStore.
Import DeviceStore (StoredInvitation, mkStored).

Abbreviation SecretKey := (arr 32).
Abbreviation EndpointId := (arr 32).

(** [BASE32_DNSSEC] of [data_encoding]. *)
Class Dnssec := { dnssec_encode : bytes -> bytes; dnssec_decode : bytes -> option bytes }.

Class DnssecLaws `(Dnssec) : Prop := {
  dnssec_back l : dnssec_decode (dnssec_encode l) = Some l;
  dnssec_plain l b : b ∈ dnssec_encode l -> b <> x2e;
}.

(** The form of a raw public key as a certificate, of [rustls] and of [ed25519_dalek]. *)
Class Spki := { public_key_to_spki : arr 32 -> bytes; from_public_key_der : bytes -> option (arr 32) }.

Class SpkiLaws `(Spki, Curve) : Prop := {
  spki_back k : is_point k = true -> from_public_key_der (public_key_to_spki k) = Some k;
}.

Section Endpoint.
Context `{DN : Dnssec, CV : Curve, SP : Spki}.

(** ** The name of an address *)

Definition LABEL : bytes := String.list_byte_of_string "rotelyx_transport".
Definition TOP : bytes := String.list_byte_of_string "invalid".

Definition name_encode (id : EndpointId) : bytes := dnssec_encode (ab id) ++ x2e :: LABEL ++ x2e :: TOP.

Fixpoint split_dots (acc l : bytes) : list bytes :=
  match l with
  | [] => [rev acc]
  | b :: l => if bool_decide (b = x2e) then rev acc :: split_dots [] l else split_dots (b :: acc) l
  end.

Definition name_decode (name : bytes) : option EndpointId :=
  match split_dots [] name with
  | [base32; label; top] =>
      if bool_decide (label = LABEL /\ top = TOP) then
        raw ← dnssec_decode base32;
        a ← try_into 32 raw;
        if is_point a then Some a else None
      else None
  | _ => None
  end.

(** ** The keys an endpoint answers with *)

Record Resolver := mkResolver {
  key : SecretKey;
  primary : EndpointId;
  extra : gmap EndpointId SecretKey;
}.

Definition resolver_new (secret_key : SecretKey) : Resolver := mkResolver secret_key (public_of secret_key) ∅.

Definition also_answer_as (r : Resolver) (secret_key : SecretKey) : Resolver :=
  mkResolver (key r) (primary r) (<[public_of secret_key := secret_key]> (extra r)).

Definition answered_as (r : Resolver) (wanted : option EndpointId) : EndpointId :=
  match wanted with
  | Some id => if bool_decide (is_Some (extra r !! id)) then id else primary r
  | None => primary r
  end.

Definition for_server_name (r : Resolver) (name : option bytes) : SecretKey :=
  match name ≫= name_decode with
  | Some id => default (key r) (extra r !! id)
  | None => key r
  end.

(** What is shown of a key. *)
Definition certified (secret_key : SecretKey) : list bytes := [public_key_to_spki (public_of secret_key)].

(** ** A connection *)

Inductive TlsError := NotValidForName | UnknownIssuer.

Definition verify_server_cert (end_entity : bytes) (intermediates : list bytes) (dns_name : bytes) : Result unit TlsError :=
  match name_decode dns_name with
  | None => Err NotValidForName
  | Some remote_peer_id =>
      match intermediates with
      | _ :: _ => Err UnknownIssuer
      | [] => if bool_decide (public_key_to_spki remote_peer_id = end_entity) then Ok tt else Err UnknownIssuer
      end
  end.

Definition verify_client_cert (intermediates : list bytes) : Result unit TlsError :=
  match intermediates with _ :: _ => Err UnknownIssuer | [] => Ok tt end.

Definition remote_id_from (certs : list bytes) : option EndpointId :=
  match certs with [c] => from_public_key_der c | _ => None end.

Record Conn := mkConn { remote_id : EndpointId; server_name : option bytes }.

Definition dialled_id (c : Conn) : option EndpointId := server_name c ≫= name_decode.

Inductive DialError := SelfConnect | Tls (e : TlsError) | NoIdentity.

(** Both ends of a connection an honest caller makes. *)
Definition dial (me host : Resolver) (endpoint_id : EndpointId) : Result (Conn * Conn) DialError :=
  if bool_decide (endpoint_id = public_of (key me)) then Err SelfConnect
  else
    let name := name_encode endpoint_id in
    match certified (for_server_name host (Some name)), certified (key me) with
    | shown :: more, own :: own_more =>
        let? _ := map_err Tls (verify_server_cert shown more name) in
        let? _ := map_err Tls (verify_client_cert own_more) in
        match remote_id_from (shown :: more), remote_id_from (own :: own_more) with
        | Some there, Some here => Ok (mkConn there None, mkConn here (Some name))
        | _, _ => Err NoIdentity
        end
    | _, _ => Err NoIdentity
    end.

(** ** A session *)

Record NetSession := mkNet { net_peer : EndpointId; net_conn : Conn; send_stream : bytes; recv_stream : bytes }.

Record Session := mkSession { s_peer : RotelyxId; s_net : NetSession; s_answered_at : option RotelyxId }.

Definition session_new (n : NetSession) : Session := mkSession (net_peer n) n None.

Definition net_connect (peer : EndpointId) (c : Conn) : NetSession := mkNet peer c [] [].

(** [written] is what the caller writes to the stream it opened. *)
Definition net_accept (c : Conn) (written : bytes) : NetSession := mkNet (remote_id c) c [] written.

Definition asked_for (n : NetSession) : option EndpointId := dialled_id (net_conn n).

Definition answered_at (r : Resolver) (n : NetSession) : EndpointId := answered_as r (asked_for n).

Definition session_send (s : Session) (f : Frame) : Result Session WireError :=
  let? w := Wire.write f in
  let n := s_net s in
  Ok (mkSession (s_peer s) (mkNet (net_peer n) (net_conn n) (send_stream n ++ w) (recv_stream n)) (s_answered_at s)).

Definition session_recv (s : Session) : Result Frame WireError * Session :=
  let n := s_net s in
  let '(f, rest) := Wire.read (recv_stream n) in
  (f, mkSession (s_peer s) (mkNet (net_peer n) (net_conn n) (send_stream n) rest) (s_answered_at s)).

Definition connect_with (peer : EndpointId) (c : Conn) (evidence : Admission) : Result Session WireError :=
  session_send (session_new (net_connect peer c)) (mkFrame WAdmission (admission_to_bytes evidence)).

Inductive AcceptError := BadFrame (e : WireError) | BeforeAdmission (k : FrameKind) | NotAdmitted (e : AccessError).

Section Gates.
Context `{BL : Blake3}.

(** The error of a caller that is turned away; and whether the session was closed in
    good order or only dropped. *)
Definition accept_with (r : Resolver) (gate : Gate) (id : RotelyxId) (current_epoch : Z) (n : NetSession)
    : Result Session (AcceptError * bool) :=
  let '(frame, session) := session_recv (session_new n) in
  let? frame := map_err (fun e => (BadFrame e, false)) frame in
  if negb (bool_decide (f_kind frame = WAdmission)) then Err (BeforeAdmission (f_kind frame), true)
  else
    let? evidence := map_err (fun e => (NotAdmitted e, false)) (admission_from_bytes (f_payload frame)) in
    let dialled := Some (answered_at r (s_net session)) in
    let session := mkSession (s_peer session) (s_net session) dialled in
    let? _ := map_err (fun e => (NotAdmitted e, true)) (gate_admit gate (s_peer session) id evidence current_epoch dialled) in
    Ok session.

(** ** Listening *)

Definition to_invitation (i : StoredInvitation) : Invitation :=
  invitation_from_parts (DeviceStore.secret i) (DeviceStore.transport i) (DeviceStore.expires_at_epoch i).

Inductive ListenError := NoLiveInvitations.

Definition gate_for (open : bool) (live : list StoredInvitation) : Result Gate ListenError :=
  if open then Ok (gate_new Open)
  else
    match live with
    | [] => Err NoLiveInvitations
    | _ => Ok (foldl (fun g i => add_invitation g (to_invitation i)) gate_invitation_only live)
    end.

(** [max_by_key]: the last of the greatest. *)
Definition newest (live : list StoredInvitation) : option StoredInvitation :=
  foldl (fun best i =>
    match best with
    | Some j => if DeviceStore.expires_at_epoch j <=? DeviceStore.expires_at_epoch i then Some i else best
    | None => Some i
    end) None live.

Definition answering (identity : SecretKey) (open : bool) (live : list StoredInvitation) : Result Resolver ListenError :=
  match newest live with
  | Some inv =>
      Ok (foldl (fun r i => if bool_decide (DeviceStore.transport i = DeviceStore.transport inv) then r
                            else also_answer_as r (DeviceStore.transport i))
           (resolver_new (DeviceStore.transport inv)) live)
  | None => if open then Ok (resolver_new identity) else Err NoLiveInvitations
  end.

Definition listen (identity : SecretKey) (open : bool) (live : list StoredInvitation) : Result (Gate * Resolver) ListenError :=
  let? gate := gate_for open live in
  let? r := answering identity open live in
  Ok (gate, r).

(** ** Calling *)

(** What an invitation's code comes to for a caller under [transport]: its evidence, and
    whom to call.  [None] is a text that is no code, taken as an address. *)
Definition evidence_for (transport : SecretKey) (code : bytes) (epoch : Z) : option (Admission * RotelyxId) :=
  match read_code code with
  | Ok (secret, host) =>
      let invitation := invitation_from_parts secret (be_arr 32 0) (2 ^ 64 - 1) in
      Some (AInvitation (prove invitation (public_of transport) epoch) epoch, host)
  | Err _ => None
  end.
End Gates.

(** ** Names *)

Lemma split_dots_last acc l : (forall b, b ∈ l -> b <> x2e) -> split_dots acc l = [rev acc ++ l].
Proof.
  revert acc. induction l as [|b l IH]; intros acc Hl; [by rewrite app_nil_r|]. cbn.
  rewrite bool_decide_eq_false_2 by (apply Hl; left). rewrite IH by (intros c Hc; apply Hl; by right). cbn. by rewrite <- app_assoc.
Qed.

Lemma split_dots_first acc l rest :
  (forall b, b ∈ l -> b <> x2e) -> split_dots acc (l ++ x2e :: rest) = (rev acc ++ l) :: split_dots [] rest.
Proof.
  revert acc. induction l as [|b l IH]; intros acc Hl; cbn; [by rewrite app_nil_r|].
  rewrite bool_decide_eq_false_2 by (apply Hl; left). rewrite IH by (intros c Hc; apply Hl; by right). cbn. by rewrite <- app_assoc.
Qed.

Section Laws.
Context `{!DnssecLaws DN, !CurveLaws CV, !SpkiLaws SP CV}.

(** The name of an address is read back to it. *)
Lemma name_is_read_back id : is_point id = true -> name_decode (name_encode id) = Some id.
Proof.
  intros Hp. unfold name_decode, name_encode. rewrite split_dots_first by apply dnssec_plain.
  rewrite split_dots_first by (intros b Hb; set_solver). rewrite split_dots_last by (intros b Hb; set_solver). cbn [rev app].
  rewrite bool_decide_eq_true_2 by done. rewrite dnssec_back. cbn [mbind option_bind]. rewrite try_into_ab. cbn [mbind option_bind]. by rewrite Hp.
Qed.

(** ** What a listener answers with *)

(** Every key of [r] is one of [l], and is held under its own name. *)
Definition holds (r : Resolver) (l : list SecretKey) : Prop :=
  primary r = public_of (key r) /\ key r ∈ l /\ forall id k, extra r !! id = Some k -> public_of k = id /\ k ∈ l.

Definition answers (r : Resolver) (id : EndpointId) : Prop := answered_as r (Some id) = id.

Lemma holds_also r l k : holds r l -> k ∈ l -> holds (also_answer_as r k) l.
Proof.
  intros (H1 & H2 & H3) Hk. split; [done|]. split; [done|]. intros id k' Hk'. cbn in Hk'.
  apply lookup_insert_Some in Hk' as [[<- <-]|[_ Hk']]; [done|by apply H3].
Qed.

Lemma answers_held r id : is_Some (extra r !! id) -> answers r id.
Proof. intros H. unfold answers, answered_as. by rewrite bool_decide_eq_true_2. Qed.

Lemma answers_also r k id : answers r id -> answers (also_answer_as r k) id.
Proof.
  unfold answers, answered_as. cbn. intros H. destruct (decide (is_Some (<[public_of k:=k]> (extra r) !! id))) as [E|E].
  - by rewrite bool_decide_eq_true_2.
  - rewrite bool_decide_eq_false_2 by done. rewrite bool_decide_eq_false_2 in H; [done|]. intros [x Hx]. apply E.
    rewrite lookup_insert_is_Some'. right. by exists x.
Qed.

Lemma newest_from best live :
  match foldl (fun best i =>
    match best with
    | Some j => if DeviceStore.expires_at_epoch j <=? DeviceStore.expires_at_epoch i then Some i else best
    | None => Some i
    end) best live with
  | Some i => best = Some i \/ i ∈ live
  | None => best = None /\ live = []
  end.
Proof.
  revert best. induction live as [|i live IH]; intros best; cbn [foldl]; [destruct best; auto|].
  match goal with |- context [foldl _ ?b live] => specialize (IH b) end. destruct (foldl _ _ live) as [x|].
  - destruct IH as [IH|IH]; [|right; by right]. destruct best as [j|]; [destruct (_ <=? _)|]; try (injection IH as ->; right; by left). by left.
  - destruct IH as [IH _]. destruct best as [j|]; [by destruct (_ <=? _)|done].
Qed.

Lemma newest_in live : match newest live with Some i => i ∈ live | None => live = [] end.
Proof. pose proof (newest_from None live) as H. unfold newest. destruct (foldl _ _ live); [by destruct H|by destruct H]. Qed.

Lemma answering_fold t l r live :
  holds r l -> answers r (public_of t) -> (forall i, i ∈ live -> DeviceStore.transport i ∈ l) ->
  let r' := foldl (fun r i => if bool_decide (DeviceStore.transport i = t) then r else also_answer_as r (DeviceStore.transport i)) r live in
  holds r' l /\ (forall id, answers r id -> answers r' id) /\ forall i, i ∈ live -> answers r' (public_of (DeviceStore.transport i)).
Proof.
  cbn zeta. revert r. induction live as [|i live IH]; intros r Hr Ht Hl; cbn [foldl].
  - split; [done|]. split; [done|]. intros i Hi. by apply not_elem_of_nil in Hi.
  - set (r1 := if bool_decide _ then r else _).
    assert (holds r1 l /\ (forall id, answers r id -> answers r1 id) /\ answers r1 (public_of (DeviceStore.transport i))) as (H1 & H2 & H3).
    { unfold r1. case_bool_decide as E; [split; [done|]; split; [done|]; by rewrite E|].
      split; [apply holds_also; [done|apply Hl; left]|]. split; [intros id; apply answers_also|].
      apply answers_held. cbn. rewrite lookup_insert_eq. by eexists. }
    destruct (IH r1) as (H4 & H5 & H6); [done|by apply H2|intros j Hj; apply Hl; by right|].
    split; [done|]. split; [auto|]. intros j [->|Hj]%elem_of_cons; auto.
Qed.

(** A listener with live invitations holds their keys and no other, and answers at the
    address of each. *)
Lemma listening_holds identity open live r :
  live <> [] -> answering identity open live = Ok r ->
  holds r (DeviceStore.transport <$> live) /\ forall i, i ∈ live -> answers r (public_of (DeviceStore.transport i)).
Proof.
  intros Hne. unfold answering. pose proof (newest_in live) as Hn. destruct (newest live) as [inv|]; [|done]. intros [= <-].
  assert (DeviceStore.transport inv ∈ DeviceStore.transport <$> live) as Hin by (by apply list_elem_of_fmap_2).
  destruct (answering_fold (DeviceStore.transport inv) (DeviceStore.transport <$> live) (resolver_new (DeviceStore.transport inv)) live)
    as (H1 & _ & H2); [| |intros i Hi; by apply list_elem_of_fmap_2|by split].
  - split; [done|]. split; [done|]. intros id k Hk. cbn in Hk. by rewrite lookup_empty in Hk.
  - done.
Qed.

(** Who is answered at an address was shown the key of that address. *)
Lemma shown_as_answered r l id :
  holds r l -> is_point id = true -> answers r id -> public_of (for_server_name r (Some (name_encode id))) = id.
Proof.
  intros (H1 & _ & H3) Hp Ha. unfold for_server_name. cbn [mbind option_bind]. rewrite name_is_read_back by done.
  destruct (extra r !! id) as [k|] eqn:E; [by apply H3|]. unfold answers, answered_as in Ha. rewrite bool_decide_eq_false_2 in Ha.
  - cbn. by rewrite <- H1.
  - intros [k Hk]. by rewrite E in Hk.
Qed.

Context `{BL : Blake3}.

Lemma gate_of_live open live g :
  gate_for open live = Ok g ->
  (open = true /\ g = gate_new Open) \/
  (open = false /\ live <> [] /\ policy g = InvitationOnly /\ invitations g = to_invitation <$> live).
Proof.
  unfold gate_for. destruct open; [intros [= <-]; by left|]. destruct live as [|i live]; [done|]. intros [= <-]. right.
  split; [done|]. split; [done|].
  assert (forall l g0, policy (foldl (fun g i => add_invitation g (to_invitation i)) g0 l) = policy g0 /\
    invitations (foldl (fun g i => add_invitation g (to_invitation i)) g0 l) = invitations g0 ++ (to_invitation <$> l)) as Hf.
  { induction l as [|j l IH]; intros g0; cbn [foldl fmap list_fmap]; [by rewrite app_nil_r|].
    destruct (IH (add_invitation g0 (to_invitation j))) as [-> ->]. cbn. by rewrite <- app_assoc. }
  apply (Hf (i :: live) gate_invitation_only).
Qed.

(** The frame the evidence of an invitation goes in. *)
Lemma evidence_is_written proof epoch :
  Wire.write (mkFrame WAdmission (admission_to_bytes (AInvitation proof epoch)))
  = Ok (be_bytes 4 42 ++ kind_byte WAdmission :: admission_to_bytes (AInvitation proof epoch)).
Proof.
  unfold Wire.write. assert (zlen (admission_to_bytes (AInvitation proof epoch)) = 41) as E.
  { cbn [admission_to_bytes]. rewrite zlen_cons, zlen_app, zlen_ab, zlen_be_bytes. done. }
  cbn [f_payload f_kind]. by rewrite E.
Qed.

Lemma admission_epoch l proof epoch : admission_from_bytes l = Ok (AInvitation proof epoch) -> u64 epoch.
Proof.
  unfold admission_from_bytes. destruct l as [|b l]; [done|]. repeat case_match; try done. intros [= _ <-].
  match goal with H : _ && _ = true |- _ => apply andb_true_iff in H as [_ Hz%Z.eqb_eq] end.
  pose proof (be_value_range (slice (b :: l) 33 41)) as Hr. assert (length (slice (b :: l) 33 41) = 8)%nat as E.
  { unfold slice. rewrite length_take, length_drop. unfold zlen in Hz. lia. }
  rewrite E in Hr. unfold u64, u64_max. lia.
Qed.

(** Whatever a caller asks for, it is answered at the address of an invitation. *)
Lemma answered_somewhere identity live r wanted :
  live <> [] -> answering identity false live = Ok r ->
  exists j, j ∈ live /\ answered_as r wanted = public_of (DeviceStore.transport j).
Proof.
  intros Hne Er. destruct (listening_holds identity false live r Hne Er) as [(Hpr & Hkey & Hex) _].
  assert (exists j, j ∈ live /\ primary r = public_of (DeviceStore.transport j)) as Hprim.
  { apply list_elem_of_fmap_1 in Hkey as (j & Hj & Hin). exists j. by rewrite Hpr, Hj. }
  destruct wanted as [id|]; [|exact Hprim]. unfold answered_as. case_bool_decide as E; [|exact Hprim]. destruct E as [k Hk].
  destruct (Hex id k Hk) as [<- Hin]. apply list_elem_of_fmap_1 in Hin as (j & -> & Hj). by exists j.
Qed.

(** What a caller's first frame comes to. *)
Lemma accept_reads r g id now n f rest :
  Wire.read (recv_stream n) = (Ok f, rest) -> f_kind f = WAdmission ->
  accept_with r g id now n =
    match admission_from_bytes (f_payload f) with
    | Err e => Err (NotAdmitted e, false)
    | Ok evidence =>
        match gate_admit g (net_peer n) id evidence now (Some (answered_at r n)) with
        | Ok _ => Ok (mkSession (net_peer n) (mkNet (net_peer n) (net_conn n) (send_stream n) rest) (Some (answered_at r n)))
        | Err e => Err (NotAdmitted e, true)
        end
    end.
Proof.
  intros Hr Hf. unfold accept_with, session_recv, session_new. cbn [s_net s_peer s_answered_at]. rewrite Hr. cbn [map_err rbind].
  rewrite bool_decide_eq_true_2 by done. cbn [negb]. destruct (admission_from_bytes _) as [ev|e]; cbn [map_err rbind]; [|done].
  unfold answered_at, asked_for. cbn [net_conn net_peer]. by destruct (gate_admit _ _ _ _ _ _).
Qed.

(** C12: whoever holds the code of a live invitation is let in.  A caller under a key of
    its own reads the code, dials the address in it, is shown the key of that address,
    and sends its evidence; the listener, whatever else the caller goes on to write, lets
    it in under the key it called with and has it down as answered at that very address,
    which is what the two sides make the name of the conversation of.  It does so
    whenever the caller comes: the hour is the one the listener was started in. *)
Theorem whoever_is_invited_gets_in identity open live g r i t epoch now id rest :
  listen identity open live = Ok (g, r) -> i ∈ live -> now <= DeviceStore.expires_at_epoch i -> u64 epoch ->
  public_of (DeviceStore.transport i) <> public_of t ->
  let address := public_of (DeviceStore.transport i) in
  exists evidence mine theirs mine' theirs',
    evidence_for t (code (to_invitation i)) epoch = Some (evidence, address) /\
    dial (resolver_new t) r address = Ok (mine, theirs) /\
    connect_with address mine evidence = Ok mine' /\
    accept_with r g id now (net_accept theirs (send_stream (s_net mine') ++ rest)) = Ok theirs' /\
    s_peer mine' = address /\ s_peer theirs' = public_of t /\
    s_answered_at theirs' = Some address /\ recv_stream (s_net theirs') = rest.
Proof.
  intros Hl Hi Hn He Ht address. unfold listen in Hl. destruct (gate_for open live) as [g0|] eqn:Eg; [|done]. cbn in Hl.
  destruct (answering identity open live) as [r0|] eqn:Er; [|done]. injection Hl as -> ->.
  assert (live <> []) as Hne by (by intros ->; apply not_elem_of_nil in Hi).
  destruct (listening_holds identity open live r Hne Er) as [Hh Ha]. specialize (Ha i Hi). fold address in Ha.
  assert (is_point address = true) as Hp by apply public_is_point.
  set (ev := AInvitation (prove (to_invitation i) (public_of t) epoch) epoch).
  assert (evidence_for t (code (to_invitation i)) epoch = Some (ev, address)) as Hev.
  { unfold evidence_for, read_code, to_invitation.
    destruct (invitation_code_roundtrip (DeviceStore.secret i) (DeviceStore.transport i) (DeviceStore.expires_at_epoch i)
      (mkExit address address (RString [] I))) as [-> _]. done. }
  assert (dial (resolver_new t) r address = Ok (mkConn address None, mkConn (public_of t) (Some (name_encode address)))) as Hd.
  { unfold dial. rewrite bool_decide_eq_false_2 by exact Ht. cbn [certified]. unfold verify_server_cert. rewrite name_is_read_back by done.
    rewrite (shown_as_answered r _ address Hh Hp Ha). rewrite bool_decide_eq_true_2 by done. cbn [map_err rbind verify_client_cert remote_id_from].
    rewrite spki_back by done. cbn [resolver_new key]. by rewrite spki_back by apply public_is_point. }
  set (w := be_bytes 4 42 ++ kind_byte WAdmission :: admission_to_bytes ev).
  set (n := net_accept (mkConn (public_of t) (Some (name_encode address))) (w ++ rest)).
  assert (answered_at r n = address) as Hat by (unfold answered_at, asked_for, dialled_id; cbn; rewrite name_is_read_back by done; exact Ha).
  set (theirs := mkSession (public_of t) (mkNet (public_of t) (net_conn n) [] rest) (Some address)).
  assert (accept_with r g id now n = Ok theirs) as Hacc.
  { rewrite (accept_reads r g id now n (mkFrame WAdmission (admission_to_bytes ev)) rest); [|apply read_write, evidence_is_written|done].
    cbn [f_payload]. rewrite (proj2 (admission_wire_roundtrip ev _ He)) by done. rewrite Hat.
    assert (gate_admit g (net_peer n) id ev now (Some address) = Ok tt) as ->; [|done].
    destruct (gate_of_live open live g Eg) as [(_ & ->)|(_ & _ & Hpol & Hinv)]; [done|].
    apply admit_decision; rewrite Hpol; [done|]. exists (to_invitation i). rewrite Hinv.
    split; [by apply list_elem_of_fmap_2|]. split; [by left|]. by split. }
  exists ev, (mkConn address None), (mkConn (public_of t) (Some (name_encode address))),
    (mkSession address (mkNet address (mkConn address None) w []) None), theirs.
  split; [exact Hev|]. split; [exact Hd|]. split; [unfold connect_with, session_send, ev; by rewrite evidence_is_written|].
  by split.
Qed.

(** C11: nobody gets in on an invitation but its holder, and nobody at an address but on
    the invitation that is answered there.  Whoever connects, whatever name it asked for
    and whatever it writes: a listener that is not open to all lets in nobody whose first
    frame is not the evidence of a live invitation, made for the very key the caller
    proved, and has it down as answered at the address of that invitation. *)
Theorem nobody_borrows_an_invitation identity live g r id now c written s :
  listen identity false live = Ok (g, r) -> accept_with r g id now (net_accept c written) = Ok s ->
  exists i epoch w rest,
    i ∈ live /\ now <= DeviceStore.expires_at_epoch i /\
    s_peer s = remote_id c /\ s_answered_at s = Some (public_of (DeviceStore.transport i)) /\
    Wire.write (mkFrame WAdmission (admission_to_bytes (AInvitation (prove (to_invitation i) (remote_id c) epoch) epoch))) = Ok w /\
    written = w ++ rest.
Proof.
  intros Hl Ha. unfold listen in Hl. destruct (gate_for false live) as [g0|] eqn:Eg; [|done]. cbn in Hl.
  destruct (answering identity false live) as [r0|] eqn:Er; [|done]. injection Hl as -> ->.
  destruct (gate_of_live false live g Eg) as [[? _]|(_ & Hne & Hpol & Hinv)]; [done|].
  destruct (listening_holds identity false live r Hne Er) as [(Hpr & Hkey & Hex) _].
  destruct (Wire.read written) as [[f|e] rest] eqn:Ew.
  2:{ unfold accept_with, session_recv in Ha. cbn in Ha. by rewrite Ew in Ha. }
  destruct (decide (f_kind f = WAdmission)) as [Hk|Hk].
  2:{ unfold accept_with, session_recv in Ha. cbn [session_new s_net recv_stream net_accept] in Ha. rewrite Ew in Ha. cbn [map_err rbind] in Ha.
      by rewrite bool_decide_eq_false_2 in Ha. }
  rewrite (accept_reads r g id now (net_accept c written) f rest Ew Hk) in Ha.
  destruct (admission_from_bytes (f_payload f)) as [ev|] eqn:Eev; [|done].
  destruct (gate_admit _ _ _ _ _ _) as [[]|] eqn:Egt; [|done]. injection Ha as <-. cbn [s_peer s_answered_at net_accept net_peer].
  apply admit_decision in Egt; [|by rewrite Hpol]. rewrite Hpol in Egt. destruct ev as [proof epoch| |]; [|done|done].
  destruct Egt as (inv & Hin & Hel & Hexp & ->). rewrite Hinv in Hin. apply list_elem_of_fmap_1 in Hin as (i & -> & Hi).
  destruct (answered_somewhere identity live r (asked_for (net_accept c written)) Hne Er) as (j & Hj & Hat).
  destruct (read_Ok _ _ _ Ew) as (w & Hw & ->). destruct f as [k payload]. cbn [f_kind f_payload] in *. subst k.
  apply admission_wire_roundtrip in Eev as ->; [|by eapply admission_epoch]. exists i, epoch, w, rest.
  split; [done|]. split; [done|]. split; [done|]. split; [|by split].
  destruct Hel as [Hel|Hel]; [exact Hel|]. exfalso. apply (Hel (to_invitation j)); [rewrite Hinv; by apply list_elem_of_fmap_2|].
  unfold answered_at. by rewrite Hat.
Qed.

(** An honest caller reaches the address it dialled, or nobody.  Dialling one's own
    address is refused; an endpoint that answers at the address shows that key, and each
    side knows the other by the key it holds; one that does not answer there shows another
    key, which the caller refuses.  So what the listener says answered a caller is what
    the caller dialled. *)
Theorem dialling_decides me host l id :
  holds host l -> is_point id = true ->
  dial me host id =
    if bool_decide (id = public_of (key me)) then Err SelfConnect
    else if bool_decide (answered_as host (Some id) = id) then
      Ok (mkConn id None, mkConn (public_of (key me)) (Some (name_encode id)))
    else Err (Tls UnknownIssuer).
Proof.
  intros Hh Hp. unfold dial. case_bool_decide as Es; [done|]. cbn [certified]. unfold verify_server_cert. rewrite name_is_read_back by done.
  destruct (bool_decide_reflect (answered_as host (Some id) = id)) as [Ea|Ea].
  - rewrite (shown_as_answered host l id Hh Hp Ea). rewrite bool_decide_eq_true_2 by done. cbn [map_err rbind verify_client_cert remote_id_from].
    rewrite spki_back by done. by rewrite spki_back by apply public_is_point.
  - rewrite bool_decide_eq_false_2; [done|]. intros E%(f_equal from_public_key_der). rewrite !spki_back in E by (done || apply public_is_point).
    apply Ea. injection E as E. unfold for_server_name in E. cbn [mbind option_bind] in E. rewrite name_is_read_back in E by done.
    unfold answered_as. destruct (extra host !! id) as [k|]; [by rewrite bool_decide_eq_true_2 by done|].
    rewrite bool_decide_eq_false_2 by (by intros [? ?]). destruct Hh as (-> & _). symmetry. exact E.
Qed.

(** What a caller asked for is looked up when its evidence is read, and not when it was
    answered: a key that is added in between makes a caller that was shown the first key
    of the endpoint be down as answered at the address of the new one, which it chose. *)
Theorem a_key_added_later_is_believed r l k caller written id now evidence rest :
  holds r l -> ~ answers r (public_of k) ->
  let c := mkConn caller (Some (name_encode (public_of k))) in
  Wire.read written = (Ok (mkFrame WAdmission (admission_to_bytes evidence)), rest) -> is_ok (admission_from_bytes (admission_to_bytes evidence)) = true ->
  for_server_name r (server_name c) = key r /\
  (exists s, accept_with r (gate_new Open) id now (net_accept c written) = Ok s /\ s_answered_at s = Some (public_of (key r))) /\
  exists s, accept_with (also_answer_as r k) (gate_new Open) id now (net_accept c written) = Ok s /\
    s_answered_at s = Some (public_of k) /\ public_of k <> public_of (key r).
Proof.
  intros Hh Hn c Hw Hev. assert (is_point (public_of k) = true) as Hp by apply public_is_point.
  assert (extra r !! public_of k = None) as Hx.
  { destruct (extra r !! public_of k) eqn:E; [|done]. exfalso. apply Hn, answers_held. by rewrite E. }
  assert (answered_as r (Some (public_of k)) = primary r) as Ha.
  { unfold answered_as. rewrite Hx. by rewrite bool_decide_eq_false_2 by (by intros [? ?]). }
  assert (public_of k <> primary r) as Hne by (intros E; apply Hn; unfold answers; by rewrite Ha).
  destruct (admission_from_bytes (admission_to_bytes evidence)) as [ev|] eqn:Eev; [|done].
  assert (forall r', exists s, accept_with r' (gate_new Open) id now (net_accept c written) = Ok s /\
    s_answered_at s = Some (answered_as r' (Some (public_of k)))) as Hacc.
  { intros r'. rewrite (accept_reads r' (gate_new Open) id now (net_accept c written) _ rest Hw) by done. cbn [f_payload]. rewrite Eev. cbn [gate_admit gate_new policy].
    eexists. split; [done|]. cbn [s_answered_at]. unfold answered_at, asked_for, dialled_id. cbn. by rewrite name_is_read_back. }
  split; [unfold for_server_name; cbn; rewrite name_is_read_back by done; cbn; by rewrite Hx|]. split.
  - destruct (Hacc r) as (s & Hs & Hsa). exists s. split; [done|]. rewrite Hsa, Ha. by destruct Hh as (-> & _).
  - destruct (Hacc (also_answer_as r k)) as (s & Hs & Hsa). exists s. split; [done|]. split.
    + rewrite Hsa. f_equal. apply answers_held. cbn. rewrite lookup_insert_eq. by eexists.
    + destruct Hh as (<- & _). done.
Qed.
End Laws.
End Endpoint.

(** ** A small listener *)

Module Witness.
Import DeviceStore.DeviceStoreExample.

#[local] Instance letters_of : Dnssec := {| dnssec_encode := DeviceStore.url_encode; dnssec_decode := DeviceStore.url_decode |}.
#[local] Instance plain_cert : Spki := {| public_key_to_spki k := ab k; from_public_key_der := try_into 32 |}.
#[local] Existing Instance AccessExample.curve.
#[local] Existing Instance AccessExample.curve_laws.

Lemma letter_is_no_dot b : forallb (fun c => negb (bool_decide (c = x2e))) [z2b (64 + b2z b / 16); z2b (64 + b2z b mod 16)] = true.
Proof. by destruct b; vm_compute. Qed.

#[local] Instance letters_laws : DnssecLaws letters_of.
Proof.
  split; [apply DeviceStore.url_decode_encode|]. intros l c Hc. cbn in Hc. apply list_elem_of_bind in Hc as (b & Hc & _).
  pose proof (letter_is_no_dot b) as H. rewrite forallb_forall in H. specialize (H c ltac:(by apply list_elem_of_In)).
  by case_bool_decide.
Qed.

#[local] Instance plain_laws : SpkiLaws plain_cert AccessExample.curve.
Proof. split. intros k _. apply try_into_ab. Qed.

Definition early : StoredInvitation := mkStored (be_arr 32 7) (be_arr 32 8) 500.
Definition late : StoredInvitation := mkStored (be_arr 32 9) (be_arr 32 10) 600.
Definition mine : SecretKey := be_arr 32 11.
Definition caller : SecretKey := be_arr 32 12.
Definition host : Gate * Resolver :=
  match listen mine false [early; late] with Ok x => x | Err _ => (gate_new Open, resolver_new mine) end.

Lemma host_listens : listen mine false [early; late] = Ok (host.1, host.2).
Proof. reflexivity. Qed.

Lemma whoever_is_invited_gets_in_witness :
  early ∈ [early; late] /\
  exists evidence ours theirs ours' theirs',
    evidence_for (BL := Toy.blake3) caller (code (to_invitation early)) 400 = Some (evidence, be_arr 32 8) /\
    dial (resolver_new caller) host.2 (be_arr 32 8) = Ok (ours, theirs) /\
    connect_with (be_arr 32 8) ours evidence = Ok ours' /\
    accept_with (BL := Toy.blake3) host.2 host.1 mine 450 (net_accept theirs (send_stream (s_net ours') ++ [x01])) = Ok theirs' /\
    s_peer ours' = be_arr 32 8 /\ s_peer theirs' = caller /\ s_answered_at theirs' = Some (be_arr 32 8) /\ recv_stream (s_net theirs') = [x01].
Proof.
  split; [left|].
  refine (whoever_is_invited_gets_in (BL := Toy.blake3) mine false [early; late] host.1 host.2 early caller 400 450 mine [x01] _ _ _ _ _).
  - exact host_listens.
  - left.
  - vm_compute. discriminate.
  - vm_compute. split; discriminate.
  - intros E%(f_equal (fun k => be_value (ab k))). vm_compute in E. discriminate E.
Defined.

(** What a caller with the code of [early] writes, when it dials the address of it. *)
Definition knock : bytes :=
  match Wire.write (mkFrame WAdmission (admission_to_bytes (AInvitation (prove (BL := Toy.blake3) (to_invitation early) caller 400) 400))) with
  | Ok w => w | Err _ => [] end.
Definition there : Conn := mkConn caller (Some (name_encode (be_arr 32 8))).
Definition let_in : Session :=
  match accept_with (BL := Toy.blake3) host.2 host.1 mine 450 (net_accept there knock) with
  | Ok s => s | Err _ => session_new (net_accept there []) end.

Lemma knock_is_heard : accept_with (BL := Toy.blake3) host.2 host.1 mine 450 (net_accept there knock) = Ok let_in.
Proof.
  assert (is_ok (accept_with (BL := Toy.blake3) host.2 host.1 mine 450 (net_accept there knock)) = true) as H by (vm_compute; reflexivity).
  unfold let_in. by destruct (accept_with _ _ _ _ _).
Qed.

Lemma nobody_borrows_an_invitation_witness :
  accept_with (BL := Toy.blake3) host.2 host.1 mine 450 (net_accept there knock) = Ok let_in /\
  exists i epoch w rest,
    i ∈ [early; late] /\ 450 <= DeviceStore.expires_at_epoch i /\
    s_peer let_in = caller /\ s_answered_at let_in = Some (DeviceStore.transport i) /\
    Wire.write (mkFrame WAdmission (admission_to_bytes (AInvitation (prove (BL := Toy.blake3) (to_invitation i) caller epoch) epoch))) = Ok w /\
    knock = w ++ rest.
Proof.
  split; [exact knock_is_heard|].
  exact (nobody_borrows_an_invitation (BL := Toy.blake3) mine [early; late] host.1 host.2 mine 450 there knock let_in host_listens knock_is_heard).
Defined.

(** The address of [early] is answered; that of nobody's is not, and is refused. *)
Lemma dialling_decides_witness :
  holds host.2 (DeviceStore.transport <$> [early; late]) /\
  dial (resolver_new caller) host.2 (be_arr 32 8) = Ok (mkConn (be_arr 32 8) None, mkConn caller (Some (name_encode (be_arr 32 8)))) /\
  dial (resolver_new caller) host.2 (be_arr 32 99) = Err (Tls UnknownIssuer).
Proof.
  assert (holds host.2 (DeviceStore.transport <$> [early; late])) as Hh.
  { refine (proj1 (listening_holds mine false [early; late] host.2 _ _)); [discriminate|reflexivity]. }
  split; [exact Hh|].
  split; (rewrite (dialling_decides (resolver_new caller) host.2 _ _ Hh eq_refl);
    match goal with |- context [if bool_decide ?P then Err SelfConnect else _] =>
      let v := eval vm_compute in (bool_decide P) in change (bool_decide P) with v end;
    match goal with |- context [bool_decide (answered_as host.2 ?x = ?y)] =>
      let v := eval vm_compute in (bool_decide (answered_as host.2 x = y)) in
      assert (bool_decide (answered_as host.2 x = y) = v) as -> by (vm_compute; reflexivity) end; reflexivity).
Defined.
End Witness.
